(* ===== verification/_CoqProject ===== *)
-Q . S2P
LoadForge.v
Prelude.v
Bytes.v
Units.v
Crc.v
Platform.v
Journal.v
JournalStore.v
IpcRecord.v
Supervision.v
Heartbeat.v
Wire.v
ErrorRecord.v
Control.v
Scheduler.v
Runner.v
WorkerArgs.v
Span.v
Lz4Block.v
Lz4Decoder.v
Compare.v
Oracle.v
CompressionOracle.v
Words.v
SortUnit.v
RadixSort.v
SortCompute.v
SortOracle.v
ControlState.v
Memory.v
Layout.v
SliceRunner.v
MakeRunner.v
Lists.v
Affinity.v
FpEnv.v
ThreadPool.v
CpuList.v
Topology.v
Caches.v
Numa.v
Isolation.v
Dispatch.v
Registry.v
Frames.v
VerifiedRun.v
VerifiedRunFacts.v
WorkerSite.v
Schedule.v
Mixed.v
Cycling.v
Config.v
Safety.v
Plan.v
ScheduledRuns.v
Tracking.v
Account.v
Timeline.v
Sampler.v
Doubles.v
Signature.v
Temperature.v
StopSignals.v
Process.v
Orchestration.v
Runs.v
RunStory.v
