(* ===== verification/LoadForge.v ===== *)
(** * LoadForge: a verification library

    LoadForge runs workloads whose results can be verified on every CPU of a machine, for
    hours, and says exactly what came out wrong. A controller process plans a run, starts a
    worker process for each placement and writes a crash journal; each worker computes
    units, checks them and sends heartbeats and records over shared memory and a pipe; a
    wrong result is computed again on other cores to say what it is consistent with. This
    library models the parts of that program on which its word depends and proves what
    makes them right. All paths below are under src/src/ of the repository.

    ** How the library reads

    A definition bears the name of what it models, and follows it branch by branch. A
    class of the source is a Record of its members; a method takes the Record and answers
    the new one. [core::Result] is [Result] of Prelude, and [let?] its early return. What
    the code asks of the kernel, of the file system or of a library is an operation of a
    [Class], over a state of its own; where a theorem relies on what is documented of it, a
    second class states that as laws, and an instance shows they can be kept. An integer
    is a [Z] with its width written where it wraps ([u32], [u64], [i64]); a double is its
    IEEE 754 bits wherever the code only moves it. A buffer is a list, and an operation that
    would leave it answers [None] (Span), so that [Some] is a theorem about memory safety.
    A loop that is not structural takes fuel and answers [None] without it; the theorems
    about it give fuel enough, and so state that it ends.

    ** The parts

    The base. Prelude: [Result], scopes, tactics. Bytes: bytes, little-endian fields,
    texts, decimals. Wire: exact formats, the interface between writers and readers. Span,
    Words: bounded buffers. Lists: counting and order. Units: core/parse_number, duration
    and byte_size. Crc: core/crc32 and verification/checksum/crc64. Doubles: arithmetic of
    binary64 on bits.

    The plan of a run. Config (config/): its data and the arithmetic of a memory budget.
    Registry (workloads/registry): descriptors and the registry of workloads. Plan
    (controller/plan): what each worker is to run. Safety (controller/safety): the limits, the
    ladder of a stop and whether the memory fits. Schedule, Mixed and Cycling
    (workloads/mixed): schedules of orders and the two ways they are made; ScheduledRuns
    (main/schedules): the runs made of them.

    The controller. Orchestration (controller/orchestration): the [Run], every method of it
    from prepare to teardown, over Tracking, what is held about one worker. Account states
    what that is of what the worker said; Runs the invariants of the loop, and RunStory what
    a run's report says. Process (platform/process): how a child becomes a worker.
    StopSignals (controller/stop_signals): SIGINT and SIGTERM as a list. Temperature
    (controller/temperature): the ceiling. Journal and JournalStore (controller/journal): the
    format, its writer over an abstract storage, the replay, and the file storage, which
    implements the storage. Supervision (controller/supervision): the fate of a worker and
    the count of kills. Platform (platform/): errors, wait statuses, the clock and the worker
    pool. Topology, Caches, Numa, on CpuList (topology/): the machine's CPUs, caches and
    nodes, read from the kernel and cross-checked, and the snapshot of the three.
    Isolation (verification/isolation, controller/isolate): the ladder of re-runs, over any
    re-runner.

    Telemetry. Timeline (telemetry/timeline): the series of readings; Sampler
    (telemetry/sampler, telemetry/capability): the sources read in rounds. Signature
    (statistics/, main/run_result): windows of the timeline, and their summaries.

    The worker. WorkerArgs (worker/entry): the command line, written by one process and
    read by another. IpcRecord, Heartbeat (worker/ipc): the record channel and the shared
    heartbeat. Control (worker/control, worker/duty): orders, acknowledgements and the duty
    clock. Scheduler (worker/control_channel, worker/scheduler): the loop of a worker that
    answers orders, watches its controller and ends. Affinity and ThreadPool
    (platform/affinity, worker/executor): the threads a unit is spread over. FpEnv and
    Dispatch (platform/fpenv, primitives/simd): the floating-point environment and the path
    a worker computes in. Frames (worker/frames): tallies and locks on the pipe.
    VerifiedRun (worker/verified_run): how a worker is put together and its run of slices,
    over a class of services; VerifiedRunFacts says what a run makes of them, by a small
    logic of specifications, and WorkerSite shows that the slice runner is such a service
    and states the theorems of a run.

    Verification. ErrorRecord (verification/record): what a finding is and its codec.
    Oracle, Compare (verification/oracle.hpp, checksum, integrity/difference): verdicts and
    exact comparison. ControlState, Memory, Layout, Runner, SliceRunner, MakeRunner
    (verification/integrity, verification/runner.hpp, platform/memory): the runner that
    brackets every unit, keeps its own state three times, and accounts for each unit.

    Workloads and their oracles. Lz4Block and Lz4Decoder, joined in CompressionOracle
    (workloads/compression, verification/oracle/compression); SortUnit, RadixSort,
    SortCompute and SortOracle (workloads/sort, verification/oracle/sort).

    ** How they interact

    The controller's argument vectors (WorkerArgs.argv_for) are what the worker parses. The
    records SliceRunner makes are ErrorRecord's, which travel in IpcRecord's frames and end
    in Journal's entries; orders (Control) travel the other way in the same frames
    (Scheduler). SliceRunner takes a workload and an oracle as Records of their operations,
    with classes for what it relies on; MakeRunner builds one out of Memory, Layout and
    ControlState and hands over the state its theorems start from. VerifiedRun drives a
    runner by the class Services, whose laws (RunnerLaws) WorkerSite discharges for what
    MakeRunner makes, and speaks over the channels of IpcRecord. Isolation reads the
    snapshot of Numa and the provenance of ErrorRecord. A unit's tasks run on an executor:
    SortUnit allows any schedule of their stores, and ThreadPool shows that the pool runs
    each task once.

    A run of the controller is a computation in a monad over its [Run] and the world
    (Orchestration). It plans with Plan over Registry and Numa, checks with Safety, forks with
    Platform and Process, writes the command line of WorkerArgs, and then turns its loop: it
    beats (Heartbeat), samples (Sampler) onto one Timeline that Temperature watches, runs the
    steps of a Schedule, reads each worker's pipe into Tracking, climbs the ladder of Safety,
    takes the signals of StopSignals and the deaths of Platform, and writes the Journal. Each
    of its methods changes a worker's entry only by the operations of Tracking, so what Runs
    shows of those holds of every run.

    ** What the theorems show

    - Nothing is misread: codecs accept exactly what encoders write (ErrorRecord, Control,
      Journal, WorkerArgs); a record stream or a journal that is cut or damaged gives the
      records before the damage and says how it ended; a heartbeat is never torn, in any
      execution of the memory model; a journal over a storage that holds up replays as what
      was appended. What the controller holds of a worker is an account of the records it
      received, and a worker that tells the truth is believed (Account).
    - Nothing wrong passes: the LZ4 decoder accepts exactly the format; the oracles agree
      with exactly the right outputs, whatever the bytes; the two CRCs are their
      polynomials' and find every burst; corruption of an input always leaves a record; a
      control state with one damaged copy is never noticed outside, and one that is beyond
      repair stops the run.
    - Nothing is left undone: every unit of a slice is accounted for; each task of a run of
      the pool is run once, under every interleaving, and the pool always ends; a worker's
      run ends within its duration, sends every record of every slice, counts every slice
      over any replacement of its runner, and answers the orders it hears once each, in order; a spawn
      that fails sends every process it forked SIGKILL and reaps them all, short of 128
      interruptions in a row; a mapping that fails leaves no memory. A round of the sampler
      leaves a point on every series; a signal that came is received; and the loop of a run
      ends with every death taken.
    - Nothing is run that was not planned: a plan gives arguments the worker's parser takes
      back, exactly when they are in its range; a mixed or a cycling schedule has nothing
      wrong with it, says what it is meant to say, and is not refused where it fits; a run
      is refused for memory exactly when it does not fit; a run is ended for temperature
      exactly when a sensor is at its ceiling or none can be read.
    - Nothing is claimed beyond the evidence: a fate is given exactly on its grounds; a
      topology is answered exactly when it is published and consistent; an isolation
      states what its re-runs showed, on cores that share nothing of the suspected one; a
      summary is of the points in its window and no others; the report of a run tells of one
      worker for each enabled workload, dead and stopped as it says.

    ** Bounds and fuel

    The interruption counts are the source's (128). Waits on children take fuel 128 for
    each child and one more, since a child or a run of interruptions uses it up
    (Platform.wait_turns). The decoder and the compressor take fuel from the lengths of
    their buffers. Distances of a node are read with the length of their line as fuel.
    ThreadPool's steps are bounded by a measure. A worker's run takes at most as many ticks as
    the raw clock can be read in its duration. The clock's law is what clock_gettime(2)
    documents, that its readings never go back - equal ones are allowed - with time that
    passes: a reading takes some, however little, so that the clock shows a nanosecond for no
    more than a fixed number of readings ([readings] of Scheduler.TimeLaws). What a run says
    and answers is stated of any fuel with which it returns. The controller's loop has no such
    bound, since it waits for its workers: its theorems are of the runs that return. A failed
    wait is an interruption or the want of a child (Platform.ProcessLaws), as waitpid(2)
    documents. Where a theorem assumes a number is below 2^63 or 2^64, it is a count of things
    that fit in memory, or the theorem's comment says what it is.

    ** What is not modelled, and why

    The kernels on doubles (workloads/fft, stencil, particles and the others, with their
    oracles, invariants and residuals) and explore compute with floating point in ways whose
    correctness is numerical analysis. primitives is intrinsics and assembly whose purpose
    is the load. Reading a configuration goes through a third-party parser.
    platform/syscalls.cpp is the calls themselves: they are the classes. Of rerun, the process
    it starts is the class Isolation takes its answers from. reporters, main's command line,
    controller/results, resources and the sources of telemetry are text and the kernel's
    files. *)
