(* ===== verification/Prelude.v ===== *)
(** * What every component shares

    [core::Result] (core/result.hpp) with its early return, the scopes, and the tactics. *)

From stdpp Require Export prelude strings.
From Stdlib Require Export Strings.Byte ZArith Lia.

#[export] Set Default Goal Selector "!".

(** ** Scopes *)

Declare Scope lf_scope.
Delimit Scope lf_scope with lf.
#[global] Open Scope Z_scope.

(** ** core::Result (core/result.hpp)

    A value or the reason one could not be produced. The constructors are the
    two alternatives of the [std::variant]. *)

Inductive Result (T E : Type) : Type :=
| Value (v : T)
| Error (e : E).
Arguments Value {T E} v.
Arguments Error {T E} e.

Definition has_value {T E} (r : Result T E) : bool :=
  match r with Value _ => true | Error _ => false end.

Definition value_or {T E} (r : Result T E) (fallback : T) : T :=
  match r with Value v => v | Error _ => fallback end.

(** The early return [if (!r) return r.error();]. *)
Definition rbind {T U E} (r : Result T E) (k : T → Result U E) : Result U E :=
  match r with Value v => k v | Error e => Error e end.

Notation "'let?' x := r 'in' k" := (rbind r (fun x => k))
  (at level 10, x pattern, r at level 100, k at level 200,
   format "'let?'  x  :=  r  'in' '//' k") : lf_scope.
#[global] Open Scope lf_scope.

#[export] Instance Result_eq_dec {T E} `{EqDecision T, EqDecision E} :
  EqDecision (Result T E).
Proof. solve_decision. Defined.

Lemma rbind_value {T U E} (r : Result T E) (k : T → Result U E) u :
  rbind r k = Value u ↔ ∃ v, r = Value v ∧ k v = Value u.
Proof.
  destruct r as [v|e]; simpl; split.
  - intros H. by exists v.
  - by intros (w & [= ->] & H).
  - done.
  - by intros (w & ? & _).
Qed.

(** ** Machine integers

    An unsigned w-bit integer is a [Z] in [0, 2^w); the conversions wrap. *)

Definition u8 (x : Z) : Z := x mod 2 ^ 8.
Definition u16 (x : Z) : Z := x mod 2 ^ 16.
Definition u32 (x : Z) : Z := x mod 2 ^ 32.
Definition u64 (x : Z) : Z := x mod 2 ^ 64.

(** Two's complement reading of a 64-bit word. *)
Definition i64 (x : Z) : Z :=
  let w := u64 x in if w <? 2 ^ 63 then w else w - 2 ^ 64.

Definition in_u8 (x : Z) : Prop := 0 ≤ x < 2 ^ 8.
Definition in_u16 (x : Z) : Prop := 0 ≤ x < 2 ^ 16.
Definition in_u32 (x : Z) : Prop := 0 ≤ x < 2 ^ 32.
Definition in_u64 (x : Z) : Prop := 0 ≤ x < 2 ^ 64.
Definition in_i64 (x : Z) : Prop := - 2 ^ 63 ≤ x < 2 ^ 63.

#[export] Instance Z_range_dec (a x b : Z) : Decision (a ≤ x < b).
Proof. apply _. Defined.

Ltac unfold_ranges := unfold in_u8, in_u16, in_u32, in_u64, in_i64 in *.

(** Evaluates the closed powers of two that [lia] does not. *)
Ltac pow2 :=
  change (2 ^ 8) with 256 in *; change (2 ^ 16) with 65536 in *;
  change (2 ^ 32) with 4294967296 in *;
  change (2 ^ 63) with 9223372036854775808 in *;
  change (2 ^ 64) with 18446744073709551616 in *.

Lemma u8_small x : in_u8 x → u8 x = x.
Proof. unfold in_u8, u8. intros. by apply Z.mod_small. Qed.
Lemma u16_small x : in_u16 x → u16 x = x.
Proof. unfold in_u16, u16. intros. by apply Z.mod_small. Qed.
Lemma u32_small x : in_u32 x → u32 x = x.
Proof. unfold in_u32, u32. intros. by apply Z.mod_small. Qed.
Lemma u64_small x : in_u64 x → u64 x = x.
Proof. unfold in_u64, u64. intros. by apply Z.mod_small. Qed.

Lemma u32_range x : in_u32 (u32 x).
Proof. unfold in_u32, u32. apply Z.mod_pos_bound. lia. Qed.
Lemma u64_range x : in_u64 (u64 x).
Proof. unfold in_u64, u64. apply Z.mod_pos_bound. lia. Qed.

(** A signed 64-bit integer survives the cast to unsigned and back. *)
Lemma i64_u64 x : in_i64 x → i64 (u64 x) = x.
Proof.
  unfold in_i64, i64, u64. intros Hx. rewrite Z.mod_mod by lia.
  destruct (decide (0 ≤ x)) as [H0|H0].
  - rewrite Z.mod_small by lia. case_match eqn:E; lia.
  - replace (x mod 2 ^ 64) with (x + 2 ^ 64).
    + case_match eqn:E; lia.
    + rewrite <- (Z.mod_add x 1) by lia. rewrite Z.mod_small by lia. lia.
Qed.

Lemma i64_small x : in_i64 x → i64 x = x.
Proof.
  intros Hx. rewrite <- (i64_u64 x) at 2 by done. unfold i64, u64. by rewrite Z.mod_mod by lia.
Qed.

(** Every 64-bit word is the word of the signed integer it reads as. *)
Lemma u64_i64 x : in_u64 x → u64 (i64 x) = x.
Proof.
  intros Hx. unfold i64. cbv zeta. rewrite (u64_small x Hx). unfold in_u64 in Hx. unfold u64.
  destruct (Z.ltb_spec x (2 ^ 63)); [by apply Z.mod_small|].
  replace (x - 2 ^ 64) with (x + -1 * 2 ^ 64) by lia. rewrite Z.mod_add by lia. by apply Z.mod_small.
Qed.

Lemma i64_range x : in_i64 (i64 x).
Proof.
  unfold in_i64, i64. pose proof (u64_range x) as H. unfold in_u64 in H. cbv zeta.
  destruct (Z.ltb_spec (u64 x) (2 ^ 63)); lia.
Qed.

(** Hint databases: [lf] closes the routine side conditions of the codecs,
    [lf_rw] rewrites their equations. *)
Create HintDb lf discriminated.
Create Rewrite HintDb lf_rw.
#[export] Hint Resolve u32_range u64_range : lf.
(** ** Tactics *)

(** Splits every boolean connective and comparison in the context. *)
Ltac bool_facts :=
  repeat match goal with
  | H : _ && _ = true |- _ => apply andb_true_iff in H as [? ?]
  | H : _ || _ = false |- _ => apply orb_false_iff in H as [? ?]
  | H : negb _ = true |- _ => apply negb_true_iff in H
  | H : negb _ = false |- _ => apply negb_false_iff in H
  | H : (_ =? _) = true |- _ => apply Z.eqb_eq in H
  | H : (_ =? _) = false |- _ => apply Z.eqb_neq in H
  | H : (_ <? _) = true |- _ => apply Z.ltb_lt in H
  | H : (_ <? _) = false |- _ => apply Z.ltb_ge in H
  | H : (_ <=? _) = true |- _ => apply Z.leb_le in H
  | H : (_ <=? _) = false |- _ => apply Z.leb_gt in H
  end.

(** [lia] with quotients and remainders. *)
Ltac dlia := Z.to_euclidean_division_equations; lia.

(** Takes conjunctions and existentials in the context apart. *)
Ltac unpack :=
  repeat match goal with
  | H : _ ∧ _ |- _ => destruct H
  | H : ∃ _, _ |- _ => destruct H
  end.

(** Case analysis on the discriminee of every [match] and [if], closing what
    [simplify_eq] refutes. *)
Ltac cases := repeat (case_match; simplify_eq/=; try done).

(** ** Lists *)

(** [size()] as the unsigned integer it is. *)
Definition size_of {A} (l : list A) : Z := Z.of_nat (length l).

Section Lists.
Context {A : Type}.
Implicit Types l k : list A.

(** Changing one element, as a splitting of the list. *)
Definition differ_at (i : nat) l k : Prop :=
  length l = length k ∧ l !! i ≠ k !! i ∧ ∀ j, j ≠ i → l !! j = k !! j.

Lemma differ_at_split i l k :
  differ_at i l k →
  ∃ p x y s, l = p ++ x :: s ∧ k = p ++ y :: s ∧ x ≠ y ∧ length p = i.
Proof.
  intros (Hlen & Hne & Hsame).
  assert (Hi : (i < length l)%nat).
  { destruct (decide (i < length l)%nat) as [|Hge]; [done|].
    rewrite !lookup_ge_None_2 in Hne by lia. done. }
  destruct (lookup_lt_is_Some_2 l i) as [x Hx]; [done|].
  destruct (lookup_lt_is_Some_2 k i) as [y Hy]; [lia|].
  exists (take i l), x, y, (drop (S i) l).
  assert (Ht : take i l = take i k).
  { apply list_eq. intros j. destruct (decide (j < i)%nat).
    - rewrite !lookup_take_lt by lia. apply Hsame. lia.
    - rewrite !lookup_take_ge by lia. done. }
  assert (Hd : drop (S i) l = drop (S i) k).
  { apply list_eq. intros j. rewrite !lookup_drop. apply Hsame. lia. }
  split_and!.
  - by rewrite take_drop_middle.
  - rewrite Ht, Hd. by rewrite take_drop_middle.
  - intros ->. congruence.
  - rewrite length_take. lia.
Qed.
End Lists.
