(* ===== verification/Bytes.v ===== *)
(** * Bytes, little-endian fields, texts and decimals

    A byte is [Byte.byte]; [byte_val] and [byte_of] are [std::to_integer] and
    [static_cast<std::byte>]. [put_le] and [get_le] are the loops every codec
    of the repository writes (worker/control/control.cpp [put] and
    [Reader::get], controller/journal/format.cpp [put] and [get],
    worker/ipc/record.cpp [put_u32] and [get_u32], verification/record/codec.cpp
    [Writer::unsigned_le] and [Reader::unsigned_le]). A [std::string] is its
    bytes. [to_dec] is [std::to_string] on an unsigned integer and [from_chars]
    is [std::from_chars] in base 10 on a [std::uint64_t]. *)

From S2P Require Export Prelude.

(** ** Bytes *)

Abbreviation byte := Byte.byte.

Definition byte_val (b : byte) : Z := Z.of_N (Byte.to_N b).

Definition byte_of (x : Z) : byte :=
  match Byte.of_N (Z.to_N (u8 x)) with Some b => b | None => Byte.x00 end.

#[export] Instance byte_eq_dec : EqDecision byte := Byte.byte_eq_dec.

Lemma byte_val_range b : 0 ≤ byte_val b < 256.
Proof.
  unfold byte_val. pose proof (Byte.to_N_bounded b). lia.
Qed.
#[export] Hint Resolve byte_val_range : lf.

Lemma byte_val_of x : byte_val (byte_of x) = u8 x.
Proof.
  unfold byte_val, byte_of, u8. pose proof (Z.mod_pos_bound x (2 ^ 8) eq_refl) as Hr.
  destruct (Byte.of_N _) as [b|] eqn:E.
  - apply Byte.to_of_N in E. rewrite E. lia.
  - apply Byte.of_N_None_iff in E. lia.
Qed.

Lemma byte_val_inj a b : byte_val a = byte_val b → a = b.
Proof.
  unfold byte_val. intros H. apply N2Z.inj in H.
  pose proof (Byte.of_to_N a). pose proof (Byte.of_to_N b). congruence.
Qed.

Lemma byte_of_val b : byte_of (byte_val b) = b.
Proof.
  apply byte_val_inj. rewrite byte_val_of. apply Z.mod_small, byte_val_range.
Qed.

Lemma byte_of_mod x y : x mod 256 = y mod 256 → byte_of x = byte_of y.
Proof. intros H. apply byte_val_inj. by rewrite !byte_val_of. Qed.

Lemma byte_val_of_small x : 0 ≤ x < 256 → byte_val (byte_of x) = x.
Proof. intros. rewrite byte_val_of. by apply Z.mod_small. Qed.

#[export] Hint Rewrite byte_of_val byte_val_of : lf_rw.

(** ** Little-endian fields *)

(** [for (byte < width) out.push_back(value >> (8 * byte))]. *)
Definition put_le (width : nat) (value : Z) : list byte :=
  (λ i, byte_of (value ≫ (8 * Z.of_nat i))) <$> seq 0 width.

(** [for (byte < width) value |= in[byte] << (8 * byte)]. *)
Definition get_le (bs : list byte) : Z :=
  foldl (λ v p, Z.lor v (byte_val p.2 ≪ (8 * Z.of_nat p.1))) 0 (imap pair bs).

Lemma length_put_le w v : length (put_le w v) = w.
Proof. unfold put_le. by rewrite length_fmap, length_seq. Qed.

Lemma put_le_S w v : put_le (S w) v = byte_of v :: put_le w (v ≫ 8).
Proof.
  unfold put_le. cbn [seq fmap list_fmap]. rewrite Z.mul_0_r, Z.shiftr_0_r. f_equal.
  rewrite <- fmap_S_seq, <- list_fmap_compose. apply list_fmap_ext.
  intros i ? _. simpl. rewrite Z.shiftr_shiftr by lia. do 2 f_equal. lia.
Qed.

(** Setting disjoint bits is adding. *)
Lemma lor_shiftl_add a b n : 0 ≤ n → 0 ≤ a < 2 ^ n → Z.lor a (b ≪ n) = a + b * 2 ^ n.
Proof.
  intros Hn Ha. rewrite <- Z.shiftl_mul_pow2 by done.
  symmetry. apply Z.add_nocarry_lor. apply Z.bits_inj'. intros i Hi.
  rewrite Z.land_spec, Z.bits_0. destruct (decide (i < n)) as [Hlt|Hge].
  - by rewrite Z.shiftl_spec_low, andb_false_r.
  - rewrite <- (Z.mod_small a (2 ^ n)), Z.mod_pow2_bits_high by lia. done.
Qed.

Lemma pow2_8_S n : 2 ^ (8 * Z.of_nat (S n)) = 256 * 2 ^ (8 * Z.of_nat n).
Proof.
  replace (8 * Z.of_nat (S n)) with (8 + 8 * Z.of_nat n) by lia.
  by rewrite Z.pow_add_r by lia.
Qed.

Lemma get_le_from k v bs :
  0 ≤ v < 2 ^ (8 * Z.of_nat k) →
  foldl (λ v p, Z.lor v (byte_val p.2 ≪ (8 * Z.of_nat p.1))) v
    (imap (λ i b, (k + i, b)%nat) bs)
  = v + 2 ^ (8 * Z.of_nat k) * get_le bs.
Proof.
  revert k v. induction bs as [|b bs IH] using rev_ind; intros k v Hv.
  { unfold get_le. simpl. lia. }
  rewrite imap_app, foldl_app, IH by done. unfold get_le at 2.
  rewrite imap_app, foldl_app. fold (get_le bs). cbn -[Z.mul Z.shiftl].
  rewrite !Nat.add_0_r.
  assert (Hg : 0 ≤ get_le bs < 2 ^ (8 * Z.of_nat (length bs))).
  { clear -IH. specialize (IH 0%nat 0 ltac:(simpl; lia)).
    clear IH. induction bs as [|c bs IHb] using rev_ind.
    - unfold get_le. simpl. lia.
    - unfold get_le. rewrite imap_app, foldl_app. fold (get_le bs).
      cbn -[Z.mul Z.shiftl Z.pow]. rewrite Nat.add_0_r.
      rewrite lor_shiftl_add by (lia || done).
      rewrite length_app. cbn [length]. rewrite Nat.add_1_r, pow2_8_S.
      pose proof (byte_val_range c). nia. }
  rewrite !lor_shiftl_add; try lia.
  - rewrite Nat2Z.inj_add, Z.mul_add_distr_l, Z.pow_add_r by lia. lia.
  - rewrite Nat2Z.inj_add, Z.mul_add_distr_l, Z.pow_add_r by lia. nia.
Qed.

Lemma get_le_nil : get_le [] = 0.
Proof. done. Qed.

Lemma get_le_cons b bs : get_le (b :: bs) = byte_val b + 256 * get_le bs.
Proof.
  unfold get_le at 1. cbn -[Z.mul Z.shiftl]. rewrite Z.mul_0_r, Z.shiftl_0_r.
  pose proof (get_le_from 1 (byte_val b) bs) as H. cbn -[Z.mul Z.pow] in H.
  change (2 ^ (8 * 1)) with 256 in H. apply H, byte_val_range.
Qed.

Lemma get_le_range bs : 0 ≤ get_le bs < 2 ^ (8 * Z.of_nat (length bs)).
Proof.
  induction bs as [|b bs IH]; [rewrite get_le_nil; simpl; lia|].
  rewrite get_le_cons. cbn [length]. rewrite pow2_8_S.
  pose proof (byte_val_range b). lia.
Qed.

Lemma get_put_le w v : get_le (put_le w v) = v mod 2 ^ (8 * Z.of_nat w).
Proof.
  revert v. induction w as [|w IH]; intros v.
  - cbn. by rewrite Z.mod_1_r.
  - rewrite put_le_S, get_le_cons, IH, byte_val_of, pow2_8_S.
    unfold u8. rewrite Z.shiftr_div_pow2 by lia.
    rewrite Z.rem_mul_r by lia. done.
Qed.

Lemma get_put_le_small w v : 0 ≤ v < 2 ^ (8 * Z.of_nat w) → get_le (put_le w v) = v.
Proof. intros. rewrite get_put_le. by apply Z.mod_small. Qed.

Lemma put_get_le bs : put_le (length bs) (get_le bs) = bs.
Proof.
  induction bs as [|b bs IH]; [done|].
  cbn [length]. rewrite put_le_S, get_le_cons. pose proof (byte_val_range b) as Hb.
  f_equal.
  - rewrite <- (byte_of_val b) at 2. apply byte_of_mod.
    by rewrite Z.mul_comm, Z.mod_add by lia.
  - rewrite Z.shiftr_div_pow2 by lia. change (2 ^ 8) with 256.
    rewrite Z.mul_comm, Z.div_add by lia. by rewrite Z.div_small.
Qed.

Lemma get_le_inj bs cs : length bs = length cs → get_le bs = get_le cs → bs = cs.
Proof. intros Hl Hg. by rewrite <- (put_get_le bs), <- (put_get_le cs), Hl, Hg. Qed.

Lemma get_le_app bs cs :
  get_le (bs ++ cs) = get_le bs + 2 ^ (8 * Z.of_nat (length bs)) * get_le cs.
Proof.
  induction bs as [|b bs IH]; [simpl app; rewrite get_le_nil; simpl; lia|].
  cbn [app length]. rewrite !get_le_cons, IH, pow2_8_S. lia.
Qed.

(** The widths the codecs use. *)
Lemma get_put_le1 v : in_u8 v → get_le (put_le 1 v) = v.
Proof. intros. by apply get_put_le_small. Qed.
Lemma get_put_le2 v : in_u16 v → get_le (put_le 2 v) = v.
Proof. intros. by apply get_put_le_small. Qed.
Lemma get_put_le4 v : in_u32 v → get_le (put_le 4 v) = v.
Proof. intros. by apply get_put_le_small. Qed.
Lemma get_put_le8 v : in_u64 v → get_le (put_le 8 v) = v.
Proof. intros. by apply get_put_le_small. Qed.

#[export] Hint Rewrite length_put_le : lf_rw.
#[export] Hint Rewrite get_put_le1 get_put_le2 get_put_le4 get_put_le8
  using (by auto with lf) : lf_rw.

#[global] Arguments put_le : simpl never.
#[global] Arguments get_le : simpl never.
#[global] Arguments byte_of : simpl never.
#[global] Arguments byte_val : simpl never.

(** ** Texts *)

(** A [std::string]: its bytes. [lit] writes a literal. *)
Abbreviation text := (list byte).

Definition lit (s : string) : text := String.list_byte_of_string s.

(** ** Decimal numbers *)

Definition is_digit (c : byte) : bool := (48 <=? byte_val c) && (byte_val c <=? 57).

Definition digit_value (c : byte) : Z := byte_val c - 48.

(** Least significant digit first, pushed in front of [acc]; a number of b bits
    has at most b digits, which is the fuel [to_dec] gives. *)
Fixpoint dec_go (fuel : nat) (n : Z) (acc : text) : text :=
  match fuel with
  | O => acc
  | S fuel =>
    let acc := byte_of (48 + n mod 10) :: acc in
    if n <? 10 then acc else dec_go fuel (n / 10) acc
  end.

Definition to_dec (n : Z) : text := dec_go (S (Z.to_nat (Z.log2 n))) n [].

Fixpoint take_while (p : byte → bool) (t : text) : text :=
  match t with
  | c :: t => if p c then c :: take_while p t else []
  | [] => []
  end.

Fixpoint drop_while (p : byte → bool) (t : text) : text :=
  match t with
  | c :: t' => if p c then drop_while p t' else t
  | [] => []
  end.

Definition dec_value (digits : text) : Z :=
  foldl (λ v c, 10 * v + digit_value c) 0 digits.

(** The three outcomes of [std::from_chars] on a [std::uint64_t]: no digit, too
    large, or the value of the longest run of digits and what follows it. *)
Inductive FromChars :=
| InvalidArgument
| ResultOutOfRange
| Parsed (value : Z) (rest : text).

Definition from_chars (t : text) : FromChars :=
  match take_while is_digit t with
  | [] => InvalidArgument
  | digits =>
    if dec_value digits <? 2 ^ 64 then Parsed (dec_value digits) (drop_while is_digit t)
    else ResultOutOfRange
  end.

Lemma take_drop_while p t : take_while p t ++ drop_while p t = t.
Proof. induction t as [|c t IH]; simpl; [done|]. case_match; simpl; congruence. Qed.

Lemma take_while_all p t : Forall (λ c, p c = true) (take_while p t).
Proof. induction t as [|c t IH]; simpl; [done|]. case_match; auto. Qed.

(** What the run of [p] stops at. *)
Definition stops (p : byte → bool) (t : text) : Prop :=
  match t with c :: _ => p c = false | [] => True end.

Lemma drop_while_stops p t : stops p (drop_while p t).
Proof. induction t as [|c t IH]; simpl; [done|]. by case_match. Qed.

Lemma take_while_app p ds rest :
  Forall (λ c, p c = true) ds → stops p rest →
  take_while p (ds ++ rest) = ds ∧ drop_while p (ds ++ rest) = rest.
Proof.
  intros Hds Hr. induction Hds as [|c ds Hc _ [IH1 IH2]]; simpl.
  - destruct rest as [|c rest]; simpl in *; [done|]. by rewrite Hr.
  - by rewrite Hc, IH1, IH2.
Qed.

Lemma dec_value_app ds es :
  dec_value (ds ++ es) = foldl (λ v c, 10 * v + digit_value c) (dec_value ds) es.
Proof. apply foldl_app. Qed.

Lemma digit_of d : 0 ≤ d < 10 →
  is_digit (byte_of (48 + d)) = true ∧ digit_value (byte_of (48 + d)) = d.
Proof.
  intros Hd. unfold is_digit, digit_value. rewrite byte_val_of_small by lia.
  split; [apply andb_true_iff; split; apply Z.leb_le; lia|lia].
Qed.

Lemma dec_go_spec fuel n acc :
  0 ≤ n < 10 ^ Z.of_nat (S fuel) →
  ∃ ds, dec_go (S fuel) n acc = ds ++ acc ∧ ds ≠ [] ∧
        Forall (λ c, is_digit c = true) ds ∧ dec_value ds = n.
Proof.
  revert n acc. induction fuel as [|fuel IH]; intros n acc Hn.
  - exists [byte_of (48 + n mod 10)]. change (10 ^ Z.of_nat 1) with 10 in Hn.
    destruct (digit_of (n mod 10)) as [Hd Hv]; [apply Z.mod_pos_bound; lia|].
    split_and!.
    + simpl. by destruct (n <? 10).
    + done.
    + by constructor.
    + unfold dec_value. simpl. rewrite Hv, Z.mod_small by lia. done.
  - destruct (digit_of (n mod 10)) as [Hd Hv]; [apply Z.mod_pos_bound; lia|].
    cbn [dec_go]. destruct (Z.ltb_spec n 10) as [Hlt|Hge].
    + exists [byte_of (48 + n mod 10)]. split_and!; [done|done|by constructor|].
      unfold dec_value. simpl. rewrite Hv, Z.mod_small by lia. done.
    + destruct (IH (n / 10) (byte_of (48 + n mod 10) :: acc)) as (ds & E & Hne & Hall & Hval).
      { split; [apply Z.div_pos; lia|]. apply Z.div_lt_upper_bound; [lia|].
        rewrite <- Z.pow_succ_r by lia.
        rewrite <- Nat2Z.inj_succ. lia. }
      cbn [dec_go] in E. exists (ds ++ [byte_of (48 + n mod 10)]). split_and!.
      * rewrite E, <- app_assoc. done.
      * by destruct ds.
      * apply Forall_app. by split; [|constructor].
      * rewrite dec_value_app, Hval. simpl. rewrite Hv. pose proof (Z.div_mod n 10). lia.
Qed.

(** [std::to_string] writes digits, at least one, that [std::from_chars] reads
    back whatever non-digit follows. *)
Lemma to_dec_spec n :
  0 ≤ n →
  to_dec n ≠ [] ∧ Forall (λ c, is_digit c = true) (to_dec n) ∧ dec_value (to_dec n) = n.
Proof.
  intros Hn. unfold to_dec.
  destruct (dec_go_spec (Z.to_nat (Z.log2 n)) n []) as (ds & -> & ? & ? & ?).
  - split; [done|]. destruct (decide (n = 0)) as [->|]; [done|].
    pose proof (Z.log2_spec n ltac:(lia)) as [_ Hl]. pose proof (Z.log2_nonneg n).
    eapply Z.lt_le_trans; [exact Hl|].
    replace (Z.of_nat (S (Z.to_nat (Z.log2 n)))) with (Z.succ (Z.log2 n)) by lia.
    apply Z.pow_le_mono_l. lia.
  - rewrite app_nil_r. done.
Qed.

Lemma from_chars_to_dec n rest :
  in_u64 n → stops is_digit rest → from_chars (to_dec n ++ rest) = Parsed n rest.
Proof.
  intros [Hn Hmax] Hr. destruct (to_dec_spec n Hn) as (Hne & Hall & Hv).
  unfold from_chars. destruct (take_while_app is_digit (to_dec n) rest Hall Hr) as [-> ->].
  destruct (to_dec n) as [|c ds]; [done|]. by rewrite Hv, (proj2 (Z.ltb_lt _ _) Hmax).
Qed.

Lemma to_dec_inj m n : 0 ≤ m → 0 ≤ n → to_dec m = to_dec n → m = n.
Proof.
  intros Hm Hn E. destruct (to_dec_spec m Hm) as (_ & _ & <-).
  destruct (to_dec_spec n Hn) as (_ & _ & <-). by rewrite E.
Qed.

Lemma length_dec_go fuel n k acc :
  0 ≤ n < 10 ^ Z.of_nat (S k) → (length (dec_go fuel n acc) ≤ S k + length acc)%nat.
Proof.
  revert n k acc. induction fuel as [|fuel IH]; intros n k acc Hn; cbn [dec_go]; [lia|].
  destruct (Z.ltb_spec n 10); [cbn; lia|]. destruct k as [|k].
  - change (10 ^ Z.of_nat 1) with 10 in Hn. lia.
  - rewrite Nat2Z.inj_succ, Z.pow_succ_r in Hn by lia.
    etransitivity; [apply (IH _ k); dlia|]. cbn. lia.
Qed.

Lemma size_to_dec n : in_u64 n → size_of (to_dec n) ≤ 20.
Proof.
  intros [H0 H1]. unfold to_dec, size_of.
  pose proof (length_dec_go (S (Z.to_nat (Z.log2 n))) n 19 []) as H. cbn [length] in H.
  assert (10 ^ Z.of_nat 20 = 100000000000000000000) as E by done. rewrite E in H. lia.
Qed.

(** A number is read off the front of whatever follows it. *)
Lemma to_dec_front c m n x y :
  is_digit c = false → 0 ≤ m → 0 ≤ n → to_dec m ++ c :: x = to_dec n ++ c :: y → m = n.
Proof.
  intros Hc Hm Hn E. apply to_dec_inj; [done..|].
  destruct (to_dec_spec m Hm) as (_ & Am & _), (to_dec_spec n Hn) as (_ & An & _).
  destruct (take_while_app is_digit (to_dec m) (c :: x) Am Hc) as [<- _].
  destruct (take_while_app is_digit (to_dec n) (c :: y) An Hc) as [<- _]. by rewrite E.
Qed.

(** *** One byte changed *)

Lemma list_insert_ne {A} (l : list A) i x y :
  l !! i = Some x → x ≠ y → <[i := y]> l ≠ l.
Proof.
  intros Hx Hne E. pose proof (lookup_lt_Some _ _ _ Hx).
  rewrite <- E, list_lookup_insert_eq in Hx by done. congruence.
Qed.

Lemma get_le_insert bs i x y :
  bs !! i = Some x → x ≠ y → get_le (<[i := y]> bs) ≠ get_le bs.
Proof.
  intros Hx Hne E. apply get_le_inj in E; [|apply length_insert].
  by eapply list_insert_ne.
Qed.

(** ** Streams of framed items

    A stream of items each encoded whole: which items lie wholly within its first
    [m] bytes. *)

Section Framed.
Context {A : Type} (enc : A → list byte).

Fixpoint whole_prefix (m : nat) (l : list A) : list A :=
  match l with
  | [] => []
  | x :: l =>
    let n := length (enc x) in
    if (n <=? m)%nat then x :: whole_prefix (m - n) l else []
  end.

(** The bytes of the stream's first [m] that belong to no whole item. *)
Definition torn_suffix (m : nat) (l : list A) : list byte :=
  drop (length (whole_prefix m l ≫= enc)) (take m (l ≫= enc)).

Lemma whole_prefix_all m l : (length (l ≫= enc) ≤ m)%nat → whole_prefix m l = l.
Proof.
  revert m. induction l as [|x l IH]; intros m Hm; [done|]. cbn [whole_prefix].
  rewrite bind_cons, length_app in Hm.
  destruct (Nat.leb_spec (length (enc x)) m); [|lia]. f_equal. apply IH. lia.
Qed.

(** Whole items before a whole prefix of the stream, and after it. *)
Lemma whole_prefix_app k l m :
  whole_prefix (length (k ≫= enc) + m) (k ++ l) = k ++ whole_prefix m l.
Proof.
  induction k as [|x k IH]; [done|]. rewrite bind_cons, length_app. cbn [app whole_prefix].
  destruct (Nat.leb_spec (length (enc x)) (length (enc x) + length (k ≫= enc) + m)); [|lia].
  f_equal. rewrite <- IH. f_equal. lia.
Qed.

Lemma length_whole_prefix m l : (length (whole_prefix m l ≫= enc) ≤ m)%nat.
Proof.
  revert m. induction l as [|x l IH]; intros m; cbn [whole_prefix]; [simpl; lia|].
  destruct (Nat.leb_spec (length (enc x)) m); [|simpl; lia].
  rewrite bind_cons, length_app. specialize (IH (m - length (enc x))%nat). lia.
Qed.
End Framed.

Lemma whole_prefix_fmap {A B} (f : A → B) (enc : B → list byte) m (l : list A) :
  whole_prefix enc m (f <$> l) = f <$> whole_prefix (λ a, enc (f a)) m l.
Proof.
  revert m. induction l as [|x l IH]; intros m; [done|]. cbn [fmap list_fmap whole_prefix].
  destruct (_ <=? _)%nat; [|done]. cbn [fmap list_fmap]. by rewrite IH.
Qed.

Lemma whole_prefix_prefix {A} (enc : A → list byte) m l : whole_prefix enc m l `prefix_of` l.
Proof.
  revert m. induction l as [|x l IH]; intros m; cbn [whole_prefix]; [done|].
  destruct (_ <=? _)%nat; [by apply prefix_cons|apply prefix_nil].
Qed.
