(* ===== verification/Units.v ===== *)
(** * Configured durations and footprints

    core/parse_error, core/parse_number, core/duration and core/byte_size: a
    trimmed text is split into its leading number and its suffix, the suffix is
    looked up in a table of units, and the product is refused when it does not
    fit. [Duration] is milliseconds in an int64; a [ByteSize] is the variant the
    class holds. *)

From S2P Require Export Bytes.

(** ** core::ParseError *)

Inductive ParseError :=
| Empty | InvalidNumber | MissingUnit | UnknownUnit | NegativeValue | OutOfRange.

#[export] Instance ParseError_eq_dec : EqDecision ParseError.
Proof. solve_decision. Defined.

(** ** core/parse_number.cpp *)

Definition kSpace : text := lit " 	".

Definition is_space (c : byte) : bool := bool_decide (c ∈ kSpace).

(** [std::string_view::find_first_not_of]; [None] is [npos]. *)
Fixpoint find_first_not (p : byte → bool) (t : text) : option nat :=
  match t with
  | [] => None
  | c :: t => if p c then S <$> find_first_not p t else Some 0%nat
  end.

Definition find_last_not (p : byte → bool) (t : text) : option nat :=
  (λ i, (length t - 1 - i)%nat) <$> find_first_not p (rev t).

Definition substr (t : text) (pos count : nat) : text := take count (drop pos t).

Definition trim (t : text) : text :=
  match find_first_not is_space t, find_last_not is_space t with
  | Some first, Some last => substr t first (last - first + 1)
  | _, _ => []
  end.

Record NumberAndSuffix := { ns_value : Z; ns_suffix : text }.

Definition split_number_and_suffix (t : text) : Result NumberAndSuffix ParseError :=
  let trimmed := trim t in
  match trimmed with
  | [] => Error Empty
  | front :: _ =>
    if bool_decide ([front] = lit "-") then Error NegativeValue else
    match from_chars trimmed with
    | ResultOutOfRange => Error OutOfRange
    | InvalidArgument => Error InvalidNumber
    | Parsed value rest => Value {| ns_value := value; ns_suffix := rest |}
    end
  end.

(** ** The unit tables *)

Record Unit := { unit_suffix : text; unit_scale : Z }.

(** The loop over a table: the first unit whose suffix is the text's; a count
    past [ceiling / scale] does not fit. *)
Fixpoint scale_by (units : list Unit) (ceiling count : Z) (suffix : text) : Result Z ParseError :=
  match units with
  | [] => Error UnknownUnit
  | u :: units =>
    if bool_decide (suffix = unit_suffix u) then
      if ceiling / unit_scale u <? count then Error OutOfRange
      else Value (count * unit_scale u)
    else scale_by units ceiling count suffix
  end.

(** The largest unit that divides a non-zero count exactly, over a table read
    back to front; [None] when none does, which only zero allows. *)
Fixpoint render_units (units : list Unit) (count : Z) : option text :=
  match units with
  | [] => None
  | u :: units =>
    if negb (count =? 0) && (count mod unit_scale u =? 0)
    then Some (to_dec (count / unit_scale u) ++ unit_suffix u)
    else render_units units count
  end.

(** ** core/duration.cpp *)

Definition kSecond : Z := 1000.
Definition kMinute : Z := 60 * kSecond.
Definition kHour : Z := 60 * kMinute.

Definition duration_units : list Unit :=
  [ {| unit_suffix := lit "ms"; unit_scale := 1 |};
    {| unit_suffix := lit "s"; unit_scale := kSecond |};
    {| unit_suffix := lit "m"; unit_scale := kMinute |};
    {| unit_suffix := lit "h"; unit_scale := kHour |} ].

Definition int64_max : Z := 2 ^ 63 - 1.
Definition uint64_max : Z := 2 ^ 64 - 1.

Definition parse_duration (t : text) : Result Z ParseError :=
  let? split := split_number_and_suffix t in
  match ns_suffix split with
  | [] => Error MissingUnit
  | suffix => scale_by duration_units int64_max (ns_value split) suffix
  end.

(** [None] is the [std::invalid_argument] of a negative duration. *)
Definition duration_to_string (millis : Z) : option text :=
  if millis <? 0 then None else
  match render_units (rev duration_units) millis with
  | Some t => Some t
  | None => Some (to_dec millis ++ lit "ms")
  end.

(** ** core/byte_size *)

Inductive ByteSize :=
| Bytes (count : Z)
| Fraction (whole : Z).

Definition kMaxPercent : Z := 100.

Definition percent (whole : Z) : Result ByteSize ParseError :=
  if (whole =? 0) || (kMaxPercent <? whole) then Error OutOfRange else Value (Fraction whole).

Definition is_absolute (size : ByteSize) : bool :=
  match size with Bytes _ => true | Fraction _ => false end.

Definition byte_units : list Unit :=
  [ {| unit_suffix := lit "B"; unit_scale := 1 |};
    {| unit_suffix := lit "KiB"; unit_scale := 1024 |};
    {| unit_suffix := lit "MiB"; unit_scale := 1024 * 1024 |};
    {| unit_suffix := lit "GiB"; unit_scale := 1024 * (1024 * 1024) |};
    {| unit_suffix := lit "TiB"; unit_scale := 1024 * (1024 * (1024 * 1024)) |} ].

Definition parse_byte_size (t : text) : Result ByteSize ParseError :=
  let? split := split_number_and_suffix t in
  let count := ns_value split in
  let suffix := ns_suffix split in
  if bool_decide (suffix = []) then Value (Bytes count)
  else if bool_decide (suffix = lit "%") then percent count
  else let? scaled := scale_by byte_units uint64_max count suffix in Value (Bytes scaled).

Definition byte_size_to_string (size : ByteSize) : text :=
  match size with
  | Fraction whole => to_dec whole ++ lit "%"
  | Bytes count =>
    match render_units (rev byte_units) count with
    | Some t => t
    | None => to_dec count ++ lit "B"
    end
  end.

(** core/parse_error.cpp. *)
Definition describe_parse_error (error : ParseError) : text :=
  match error with
  | Empty => lit "value is empty"
  | InvalidNumber => lit "value does not begin with a valid number"
  | MissingUnit => lit "value needs a unit suffix"
  | UnknownUnit => lit "unit suffix is not recognised"
  | NegativeValue => lit "value must not be negative"
  | OutOfRange => lit "value is out of the accepted range"
  end.

(** ** Trimming *)

Section Trim.
Context (p : byte → bool).

Lemma find_first_not_app pre t :
  Forall (λ c, p c = true) pre →
  find_first_not p (pre ++ t) = (λ i, (length pre + i)%nat) <$> find_first_not p t.
Proof.
  induction 1 as [|c pre Hc _ IH]; simpl.
  - by destruct (find_first_not p t).
  - rewrite Hc, IH. by destruct (find_first_not p t).
Qed.

Lemma find_first_not_None t : find_first_not p t = None ↔ Forall (λ c, p c = true) t.
Proof.
  induction t as [|c t IH]; simpl; [done|]. rewrite Forall_cons.
  destruct (p c); [|by split; [|intros [? _]]]. rewrite <- IH.
  by destruct (find_first_not p t); simpl; intuition.
Qed.

Lemma find_first_not_Some t i :
  find_first_not p t = Some i →
  ∃ c rest, t = take i t ++ c :: rest ∧ p c = false ∧ Forall (λ c, p c = true) (take i t).
Proof.
  revert i. induction t as [|c t IH]; simpl; [done|]. intros i.
  destruct (p c) eqn:Hc.
  - destruct (find_first_not p t) as [j|]; simpl; [|done]. intros [= <-].
    destruct (IH j eq_refl) as (d & rest & Ht & Hd & Hall).
    exists d, rest. cbn. split_and!; [by f_equal|done|by constructor].
  - intros [= <-]. exists c, t. done.
Qed.
End Trim.

Definition spaces (t : text) : Prop := Forall (λ c, is_space c = true) t.

(** A text whose two ends are not spaces is found again whatever surrounds it. *)
Lemma trim_pad pre t post c d :
  spaces pre → spaces post →
  head t = Some c → last t = Some d → is_space c = false → is_space d = false →
  trim (pre ++ t ++ post) = t.
Proof.
  intros Hpre Hpost Hc Hd Hcs Hds. unfold trim, find_last_not.
  rewrite find_first_not_app by done.
  destruct t as [|c' t]; [done|]. simpl in Hc. injection Hc as ->.
  replace (find_first_not is_space ((c :: t) ++ post)) with (Some 0%nat) by (simpl; by rewrite Hcs).
  rewrite !rev_app_distr, <- app_assoc.
  rewrite find_first_not_app by (by apply Forall_rev).
  apply last_Some in Hd as [l Hl]. rewrite Hl, rev_app_distr. simpl. rewrite Hds. simpl.
  unfold substr. rewrite !Nat.add_0_r, drop_app_length.
  replace (_ - _ + 1)%nat with (length (l ++ [d])).
  - by rewrite take_app_length.
  - rewrite !length_app, length_rev. simpl. lia.
Qed.

(** Every text is spaces, or a core whose ends are not, between spaces. *)
Lemma strip_exists t :
  spaces t ∨
  ∃ pre u post c d, t = pre ++ u ++ post ∧ spaces pre ∧ spaces post ∧
    head u = Some c ∧ last u = Some d ∧ is_space c = false ∧ is_space d = false.
Proof.
  induction t as [|x t IH]; [left; constructor|].
  destruct IH as [Hall|(pre & u & post & c & d & -> & Hpre & Hpost & Hc & Hd & Hcs & Hds)].
  - destruct (is_space x) eqn:Hx; [left; by constructor|].
    right. exists [], [x], t, x, x. split_and!; try done. constructor.
  - right. destruct (is_space x) eqn:Hx.
    + exists (x :: pre), u, post, c, d. split_and!; [done|by constructor|done..].
    + exists [], (x :: pre ++ u), post, x, d. split_and!; try done.
      * simpl. by rewrite <- app_assoc.
      * constructor.
      * by rewrite app_comm_cons, last_app, Hd.
Qed.

(** What [trim] removes is spaces, and only at the ends. *)
Lemma trim_spec t :
  ∃ pre post, t = pre ++ trim t ++ post ∧ spaces pre ∧ spaces post.
Proof.
  destruct (strip_exists t) as [Hall|(pre & u & post & c & d & -> & Hpre & Hpost & H)].
  - exists t, []. unfold trim.
    rewrite (proj2 (find_first_not_None is_space t) Hall). simpl.
    split_and!; [by rewrite app_nil_r|done|constructor].
  - exists pre, post. destruct H as (?&?&?&?). by erewrite trim_pad.
Qed.

(** ** Rendering and reading back *)

(** A suffix no digit and no space begins, and no space ends. *)
Definition suffix_ok (s : text) : bool :=
  match s, rev s with
  | c :: _, d :: _ => negb (is_digit c) && negb (is_space d)
  | _, _ => false
  end.

Lemma digit_not_space c : is_digit c = true → is_space c = false.
Proof. by destruct c. Qed.

Lemma digit_not_minus c : is_digit c = true → [c] ≠ lit "-".
Proof. by destruct c. Qed.

Lemma split_rendered pre n suffix post :
  in_u64 n → suffix_ok suffix = true → spaces pre → spaces post →
  split_number_and_suffix (pre ++ (to_dec n ++ suffix) ++ post)
  = Value {| ns_value := n; ns_suffix := suffix |}.
Proof.
  intros Hn Hs Hpre Hpost. unfold suffix_ok in Hs.
  destruct suffix as [|c s]; [done|]. destruct (rev (c :: s)) as [|d r] eqn:Hr; [done|].
  bool_facts. destruct (to_dec_spec n) as (Hne & Hall & _); [apply Hn|].
  destruct (to_dec n) as [|x ds] eqn:Hx; [done|].
  assert (Hxd : is_digit x = true) by (by inversion Hall).
  unfold split_number_and_suffix.
  erewrite trim_pad; [| | | |apply last_Some| |]; try done.
  - simpl. rewrite bool_decide_eq_false_2 by (by apply digit_not_minus).
    change (x :: ds ++ c :: s) with ((x :: ds) ++ c :: s). rewrite <- Hx.
    by rewrite from_chars_to_dec.
  - exists ((x :: ds) ++ rev r). apply (f_equal (@rev _)) in Hr. rewrite rev_involutive in Hr.
    rewrite Hr. simpl. by rewrite <- app_assoc.
  - by apply digit_not_space.
Qed.

(** A unit table the loops can be proved on: positive scales that fit, readable
    and distinct suffixes. *)
Lemma split_bare n : in_u64 n → split_number_and_suffix (to_dec n) = Value {| ns_value := n; ns_suffix := [] |}.
Proof.
  intros Hn. destruct (to_dec_spec n) as (Hne & Hall & _); [apply Hn|].
  destruct (to_dec n) as [|x ds] eqn:Hx; [done|].
  assert (Hxd : is_digit x = true) by (by inversion Hall).
  destruct (exists_last Hne) as (l & d & Hl).
  assert (Hdd : is_digit d = true) by (rewrite Hl, Forall_app in Hall; by destruct Hall as [_ ?%Forall_inv]).
  unfold split_number_and_suffix.
  assert (Htrim : trim (x :: ds) = x :: ds).
  { rewrite <- (app_nil_r (x :: ds)) at 1. change (x :: ds) with ([] ++ (x :: ds)) at 1.
    rewrite <- app_assoc. apply (trim_pad [] (x :: ds) [] x d); try constructor.
    - by rewrite Hl, last_snoc.
    - by apply digit_not_space.
    - by apply digit_not_space. }
  rewrite Htrim. simpl. rewrite bool_decide_eq_false_2 by (by apply digit_not_minus).
  pose proof (from_chars_to_dec n []) as Hf. rewrite app_nil_r, Hx in Hf. by rewrite Hf.
Qed.

Definition units_ok (units : list Unit) : bool :=
  forallb (λ u, (0 <? unit_scale u) && (unit_scale u <? 2 ^ 63) && suffix_ok (unit_suffix u)) units
  && bool_decide (NoDup (unit_suffix <$> units)).

Lemma scale_by_found units ceiling count u :
  NoDup (unit_suffix <$> units) → u ∈ units → 0 < unit_scale u →
  0 ≤ count → count * unit_scale u ≤ ceiling →
  scale_by units ceiling count (unit_suffix u) = Value (count * unit_scale u).
Proof.
  intros Hnd Hin Hpos Hc Hle. induction units as [|v units IH]; [by inversion Hin|].
  simpl in *. inversion_clear Hnd as [|?? Hni Hnd'].
  apply elem_of_cons in Hin as [->|Hin].
  - rewrite bool_decide_eq_true_2 by done.
    rewrite (proj2 (Z.ltb_ge _ _)); [done|]. apply Z.div_le_lower_bound; lia.
  - rewrite bool_decide_eq_false_2; [by apply IH|].
    intros E. apply Hni. rewrite <- E. by apply list_elem_of_fmap_2.
Qed.

Lemma scale_by_sound units ceiling count suffix n :
  scale_by units ceiling count suffix = Value n →
  ∃ u, u ∈ units ∧ suffix = unit_suffix u ∧ n = count * unit_scale u ∧
       count ≤ ceiling / unit_scale u.
Proof.
  induction units as [|v units IH]; simpl; [done|].
  case_bool_decide.
  - case_match eqn:E; [done|]. bool_facts. intros [= <-]. exists v. split_and!; try done.
    apply elem_of_cons. by left.
  - intros (u & ? & ?)%IH. exists u. split; [|done]. apply elem_of_cons. by right.
Qed.

Lemma render_units_Some units count t :
  render_units units count = Some t →
  ∃ u, u ∈ units ∧ count ≠ 0 ∧ count mod unit_scale u = 0 ∧
       t = to_dec (count / unit_scale u) ++ unit_suffix u.
Proof.
  induction units as [|v units IH]; simpl; [done|]. case_match eqn:E.
  - bool_facts. intros [= <-]. exists v. split_and!; try done. apply elem_of_cons. by left.
  - intros (u & ? & ?)%IH. exists u. split; [|done]. apply elem_of_cons. by right.
Qed.

Lemma units_ok_in units u :
  units_ok units = true → u ∈ units →
  0 < unit_scale u < 2 ^ 63 ∧ suffix_ok (unit_suffix u) = true ∧ NoDup (unit_suffix <$> units).
Proof.
  unfold units_ok. intros Hok Hin. apply andb_true_iff in Hok as [Hall Hnd].
  apply bool_decide_eq_true in Hnd. rewrite forallb_forall in Hall.
  specialize (Hall u (proj1 (list_elem_of_In _ _) Hin)). bool_facts. done.
Qed.

(** What a table renders, the same table scales back, under any ceiling the
    count fits. *)
Lemma render_scale units ceiling count t pre post :
  units_ok units = true → 0 ≤ count ≤ ceiling → ceiling < 2 ^ 64 →
  render_units (rev units) count = Some t → spaces pre → spaces post →
  ∃ n s, split_number_and_suffix (pre ++ t ++ post) = Value {| ns_value := n; ns_suffix := s |} ∧
         suffix_ok s = true ∧ s ∈ (unit_suffix <$> units) ∧
         scale_by units ceiling n s = Value count.
Proof.
  intros Hok Hc Hceil Hr Hpre Hpost.
  apply render_units_Some in Hr as (u & Hin & Hne & Hmod & ->).
  rewrite list_elem_of_In, <- in_rev, <- list_elem_of_In in Hin.
  destruct (units_ok_in units u Hok Hin) as (Hpos & Hs & Hnd).
  exists (count / unit_scale u), (unit_suffix u).
  assert (Hq : 0 ≤ count / unit_scale u ≤ count).
  { split; [apply Z.div_pos; lia|]. apply Z.div_le_upper_bound; nia. }
  assert (Hback : count / unit_scale u * unit_scale u = count).
  { pose proof (Z.div_mod count (unit_scale u)). lia. }
  split_and!; [|done|by apply list_elem_of_fmap_2|].
  - apply split_rendered; try done. unfold in_u64. lia.
  - rewrite <- Hback at 2. apply scale_by_found; try done; lia.
Qed.

Lemma duration_units_ok : units_ok duration_units = true.
Proof. by vm_compute. Qed.

Lemma byte_units_ok : units_ok byte_units = true.
Proof. by vm_compute. Qed.

(** Every non-zero count is a multiple of the unit of scale 1. *)
Lemma render_units_total units count u :
  u ∈ units → unit_scale u = 1 → count ≠ 0 → is_Some (render_units units count).
Proof.
  intros Hin Hu Hc. induction units as [|v units IH]; [by inversion Hin|]. simpl.
  case_match eqn:E; [done|]. apply elem_of_cons in Hin as [->|Hin]; [|by apply IH].
  rewrite Hu, Z.mod_1_r in E. bool_facts. rewrite andb_true_r in E. bool_facts. lia.
Qed.

Lemma from_chars_Parsed t n rest :
  from_chars t = Parsed n rest →
  ∃ digits, t = digits ++ rest ∧ digits ≠ [] ∧ Forall (λ c, is_digit c = true) digits ∧
            dec_value digits = n ∧ n < 2 ^ 64.
Proof.
  unfold from_chars. pose proof (take_while_all is_digit t) as Hall.
  pose proof (take_drop_while is_digit t) as Happ.
  destruct (take_while is_digit t) as [|c ds]; [done|].
  case_match eqn:E; [|done]. intros [= <- <-]. bool_facts. by exists (c :: ds).
Qed.

Lemma dec_value_nonneg ds : Forall (λ c, is_digit c = true) ds → 0 ≤ dec_value ds.
Proof.
  induction ds as [|c ds IH] using rev_ind; [done|]. intros [Hds Hc]%Forall_app.
  rewrite dec_value_app. simpl. specialize (IH Hds). inversion_clear Hc as [|?? Hd _].
  unfold is_digit in Hd. unfold digit_value. bool_facts. lia.
Qed.

Lemma split_sound t split :
  split_number_and_suffix t = Value split →
  ∃ pre digits post,
    t = pre ++ digits ++ ns_suffix split ++ post ∧ spaces pre ∧ spaces post ∧
    digits ≠ [] ∧ Forall (λ c, is_digit c = true) digits ∧
    dec_value digits = ns_value split ∧ in_u64 (ns_value split).
Proof.
  unfold split_number_and_suffix. destruct (trim_spec t) as (pre & post & Ht & Hpre & Hpost).
  destruct (trim t) as [|c u] eqn:Htr; [done|]. case_bool_decide; [done|].
  destruct (from_chars (c :: u)) as [| |n rest] eqn:Hf; [done..|]. intros [= <-]. simpl.
  apply from_chars_Parsed in Hf as (ds & Hds & Hne & Hall & <- & Hlt).
  exists pre, ds, post. split_and!; try done.
  - by rewrite Ht, Hds, <- app_assoc.
  - split; [by apply dec_value_nonneg|done].
Qed.

(** ** Theorems *)

(** Every configured duration, 0 to 2^63-1 ms, renders, and
    the rendered text surrounded by any spaces and tabs parses back to exactly
    that duration: the largest exact unit is chosen, the suffix is found in the
    table and the product neither overflows nor is refused. *)
Theorem parse_duration_to_string pre post millis :
  0 ≤ millis ≤ int64_max → spaces pre → spaces post →
  ∃ t, duration_to_string millis = Some t ∧ parse_duration (pre ++ t ++ post) = Value millis.
Proof.
  intros Hm Hpre Hpost. unfold duration_to_string, parse_duration.
  rewrite (proj2 (Z.ltb_ge millis 0)) by lia. unfold int64_max in *.
  destruct (render_units (rev duration_units) millis) as [t|] eqn:Hr.
  - exists t. split; [done|].
    destruct (render_scale duration_units (2 ^ 63 - 1) millis t pre post)
      as (n & s & -> & Hs & _ & Hsc); [apply duration_units_ok|lia..|done|done|done|].
    simpl. by destruct s.
  - destruct (decide (millis = 0)) as [->|Hne].
    + exists (to_dec 0 ++ lit "ms"). split; [done|].
      by rewrite split_rendered.
    + destruct (render_units_total (rev duration_units) millis
        {| unit_suffix := lit "ms"; unit_scale := 1 |}) as [t Ht]; [|done|done|congruence].
      apply list_elem_of_In. simpl. tauto.
Qed.

Lemma parse_duration_to_string_witness :
  (0 ≤ 5400000 ≤ int64_max ∧ spaces (lit " ") ∧ spaces []) ∧
  ∃ t, duration_to_string 5400000 = Some t ∧ parse_duration (lit " " ++ t ++ []) = Value 5400000.
Proof.
  assert (H1 : 0 ≤ 5400000 ≤ int64_max) by (unfold int64_max; lia).
  assert (H2 : spaces (lit " ")) by (repeat constructor).
  assert (H3 : spaces []) by constructor.
  split; [by split_and!|]. exact (parse_duration_to_string (lit " ") [] 5400000 H1 H2 H3).
Defined.

(** A text parses as a duration only when it is, between spaces
    and tabs, a run of digits and one of the unit suffixes, the duration is the
    digits' value times that unit's scale, and it is in 0 .. 2^63-1: nothing
    wraps. *)
Theorem parse_duration_sound t millis :
  parse_duration t = Value millis →
  0 ≤ millis ≤ int64_max ∧
  ∃ pre digits u post,
    t = pre ++ digits ++ unit_suffix u ++ post ∧ spaces pre ∧ spaces post ∧
    digits ≠ [] ∧ Forall (λ c, is_digit c = true) digits ∧
    u ∈ duration_units ∧ millis = dec_value digits * unit_scale u.
Proof.
  unfold parse_duration. intros (split & Hsplit & Hk)%rbind_value.
  destruct (split_sound t split Hsplit) as (pre & ds & post & Ht & Hpre & Hpost & Hne & Hall & Hv & Hu).
  destruct (ns_suffix split) as [|c s] eqn:Hs; [done|].
  apply scale_by_sound in Hk as (u & Hin & Hsu & -> & Hle).
  destruct (units_ok_in _ u duration_units_ok Hin) as (Hpos & _ & _).
  unfold in_u64 in Hu. split.
  - split; [nia|]. pose proof (Z.mul_div_le int64_max (unit_scale u)). nia.
  - exists pre, ds, u, post. rewrite Ht, Hv, <- Hsu. done.
Qed.

Lemma parse_duration_sound_witness :
  parse_duration (lit " 90m") = Value 5400000 ∧ 0 ≤ 5400000 ≤ int64_max.
Proof.
  assert (H : parse_duration (lit " 90m") = Value 5400000) by (vm_compute; reflexivity).
  split; [exact H|]. exact (proj1 (parse_duration_sound _ _ H)).
Defined.

(** A footprint the class can hold: a count of 64 bits, or 1 to 100 percent. *)
Definition byte_size_ok (size : ByteSize) : Prop :=
  match size with Bytes count => in_u64 count | Fraction whole => 1 ≤ whole ≤ kMaxPercent end.

(** Every footprint the class can hold, absolute or a share,
    renders to a text that, between any spaces and tabs, parses back to it. *)
Theorem parse_byte_size_to_string pre post size :
  byte_size_ok size → spaces pre → spaces post →
  parse_byte_size (pre ++ byte_size_to_string size ++ post) = Value size.
Proof.
  intros Hok Hpre Hpost. unfold parse_byte_size, uint64_max.
  destruct size as [count|whole]; cbn [byte_size_ok byte_size_to_string] in *; unfold kMaxPercent in *.
  - destruct (render_units (rev byte_units) count) as [t|] eqn:Hr.
    + destruct (render_scale byte_units (2 ^ 64 - 1) count t pre post)
        as (n & s & -> & Hs & Hin & Hsc); [apply byte_units_ok|unfold in_u64 in *; lia..|done|done|done|].
      cbn [rbind ns_value ns_suffix]. rewrite !bool_decide_eq_false_2; [by rewrite Hsc| |]; intros ->.
      * by vm_compute in Hin; repeat (apply elem_of_cons in Hin as [?|Hin]; [done|]).
      * done.
    + destruct (decide (count = 0)) as [->|Hne]; [by rewrite split_rendered|].
      destruct (render_units_total (rev byte_units) count
        {| unit_suffix := lit "B"; unit_scale := 1 |}) as [t Ht]; [|done|done|congruence].
      apply list_elem_of_In. simpl. tauto.
  - rewrite split_rendered by (done || (unfold in_u64; lia)). simpl.
    unfold percent, kMaxPercent.
    rewrite (proj2 (Z.eqb_neq whole 0)), (proj2 (Z.ltb_ge 100 whole)) by lia. done.
Qed.

Lemma parse_byte_size_to_string_witness :
  (byte_size_ok (Bytes 536870912) ∧ byte_size_to_string (Bytes 536870912) = lit "512MiB") ∧
  parse_byte_size ([] ++ byte_size_to_string (Bytes 536870912) ++ lit " ") = Value (Bytes 536870912).
Proof.
  assert (H1 : byte_size_ok (Bytes 536870912)) by (simpl; unfold in_u64; lia).
  assert (H2 : spaces []) by constructor.
  assert (H3 : spaces (lit " ")) by (repeat constructor).
  split; [split; [exact H1|vm_compute; reflexivity]|].
  exact (parse_byte_size_to_string [] (lit " ") _ H1 H2 H3).
Defined.
