(* ===== verification/Crc.v ===== *)
(** * The two cyclic redundancy checks

    core/crc32.cpp (a byte table) and verification/checksum/crc64.cpp
    (slicing by eight). Both are shown to be the bit-serial division by their
    reflected polynomial, which is where the guarantees the headers state are
    proved: a continued checksum is the checksum of the concatenation, and a
    burst of errors no longer than the checksum is always detected. *)

From S2P Require Export Bytes.

(** ** The bit-serial definition

    [shift_step] is one turn of the table generators' inner loop:
    [entry = (entry & 1) != 0 ? (entry >> 1) ^ kPolynomial : entry >> 1]. *)

Definition shift_step (poly entry : Z) : Z :=
  if negb (Z.land entry 1 =? 0) then Z.lxor (entry ≫ 1) poly else entry ≫ 1.

Fixpoint shift_steps (poly : Z) (count : nat) (entry : Z) : Z :=
  match count with
  | O => entry
  | S count => shift_steps poly count (shift_step poly entry)
  end.

(** A byte's bits in the order a reflected CRC takes them. *)
Definition bits_of (b : byte) : list bool := (λ i, Z.testbit (byte_val b) (Z.of_nat i)) <$> seq 0 8.

Definition message_bits (bs : list byte) : list bool := bs ≫= bits_of.

(** One bit of the message enters at the bottom of the register. *)
Definition bit_step (poly state : Z) (bit : bool) : Z :=
  shift_step poly (Z.lxor state (Z.b2z bit)).

Definition run_bits (poly state : Z) (bits : list bool) : Z := foldl (bit_step poly) state bits.

(** ** core/crc32.cpp *)

Definition kPolynomial32 : Z := 0xEDB88320.
Definition kTableSize : nat := 256.

Definition make_table (poly : Z) : list Z :=
  (λ index, shift_steps poly 8 (Z.of_nat index)) <$> seq 0 kTableSize.

Definition kTable32 : list Z := Eval vm_compute in make_table kPolynomial32.

(** [~x] on 32 bits. *)
Definition not32 (x : Z) : Z := Z.lxor x (Z.ones 32).

Definition crc32_step (running : Z) (b : byte) : Z :=
  let index := Z.land (Z.lxor running (byte_val b)) 0xFF in
  Z.lxor (kTable32 !!! Z.to_nat index) (running ≫ 8).

Definition crc32_update (crc : Z) (bytes : list byte) : Z :=
  not32 (foldl crc32_step (not32 crc) bytes).

Definition crc32 (bytes : list byte) : Z := crc32_update 0 bytes.

(** ** verification/checksum/crc64.cpp *)

Definition kPolynomial64 : Z := 0xC96C5795D7870F42.
Definition kSlices : nat := 8.

(** [tables[slice][index] = (previous >> 8) ^ tables[0][previous & 0xFF]]. *)
Definition next_slice (table0 previous : list Z) : list Z :=
  (λ p, Z.lxor (p ≫ 8) (table0 !!! Z.to_nat (Z.land p 0xFF))) <$> previous.

Fixpoint slices_from (table0 : list Z) (count : nat) (current : list Z) : list (list Z) :=
  match count with
  | O => []
  | S count => current :: slices_from table0 count (next_slice table0 current)
  end.

Definition make_tables (poly : Z) : list (list Z) :=
  let table0 := make_table poly in slices_from table0 kSlices table0.

Definition kTables64 : list (list Z) := Eval vm_compute in make_tables kPolynomial64.

Definition not64 (x : Z) : Z := Z.lxor x (Z.ones 64).

Definition table_at (slice : nat) (index : Z) : Z := (kTables64 !!! slice) !!! Z.to_nat index.

(** Eight bytes folded in with eight lookups. *)
Definition crc64_fold8 (running : Z) (eight : list byte) : Z :=
  let word := get_le eight in
  let running := Z.lxor running word in
  foldl (λ folded k,
    Z.lxor folded (table_at (kSlices - 1 - k) (Z.land (running ≫ (8 * Z.of_nat k)) 0xFF)))
    0 (seq 0 kSlices).

Definition crc64_step (running : Z) (b : byte) : Z :=
  let index := Z.land (Z.lxor running (byte_val b)) 0xFF in
  Z.lxor (table_at 0 index) (running ≫ 8).

(** The two loops: whole groups of eight, then the bytes left. [fuel] bounds
    the groups; [length bytes] is enough. *)
Fixpoint crc64_run (fuel : nat) (running : Z) (bytes : list byte) : Z :=
  match fuel with
  | S fuel =>
    if (kSlices <=? length bytes)%nat
    then crc64_run fuel (crc64_fold8 running (take kSlices bytes)) (drop kSlices bytes)
    else foldl crc64_step running bytes
  | O => foldl crc64_step running bytes
  end.

Definition crc64_update (crc : Z) (bytes : list byte) : Z :=
  not64 (crc64_run (length bytes) (not64 crc) bytes).

Definition crc64 (bytes : list byte) : Z := crc64_update 0 bytes.

#[global] Arguments crc32_update : simpl never.
#[global] Arguments crc64_update : simpl never.
#[global] Arguments make_table : simpl never.

Lemma kTable32_eq : kTable32 = make_table kPolynomial32.
Proof. vm_cast_no_check (eq_refl kTable32). Qed.

Lemma kTables64_eq : kTables64 = make_tables kPolynomial64.
Proof. vm_cast_no_check (eq_refl kTables64). Qed.

Definition check_input : list byte := lit "123456789".

(** The check values both headers state. *)
Example crc32_check_value : crc32 check_input = 0xCBF43926.
Proof. by vm_compute. Qed.

Example crc64_check_value : crc64 check_input = 0x995DC9BBDF1939FA.
Proof. by vm_compute. Qed.

(** ** The register as a linear map *)

Lemma shift_step_alt poly e :
  shift_step poly e = Z.lxor (e ≫ 1) (if Z.odd e then poly else 0).
Proof.
  unfold shift_step. change 1 with (Z.ones 1) at 1. rewrite Z.land_ones by lia.
  change (2 ^ 1) with 2. rewrite Zmod_odd. destruct (Z.odd e); simpl; [done|].
  by rewrite Z.lxor_0_r.
Qed.

Lemma odd_lxor a b : Z.odd (Z.lxor a b) = xorb (Z.odd a) (Z.odd b).
Proof. by rewrite <- !Z.bit0_odd, Z.lxor_spec. Qed.

Lemma lxor_swap a b c d : Z.lxor (Z.lxor a b) (Z.lxor c d) = Z.lxor (Z.lxor a c) (Z.lxor b d).
Proof.
  apply Z.bits_inj'. intros i _. rewrite !Z.lxor_spec.
  by destruct (Z.testbit a i), (Z.testbit b i), (Z.testbit c i), (Z.testbit d i).
Qed.

Lemma shift_step_lxor poly a b :
  shift_step poly (Z.lxor a b) = Z.lxor (shift_step poly a) (shift_step poly b).
Proof.
  rewrite !shift_step_alt, odd_lxor, Z.shiftr_lxor, lxor_swap. f_equal.
  destruct (Z.odd a), (Z.odd b); simpl;
    by rewrite ?Z.lxor_nilpotent, ?Z.lxor_0_r, ?Z.lxor_0_l.
Qed.

Lemma shift_steps_lxor poly n a b :
  shift_steps poly n (Z.lxor a b) = Z.lxor (shift_steps poly n a) (shift_steps poly n b).
Proof. revert a b. induction n as [|n IH]; intros; simpl; [done|]. by rewrite shift_step_lxor, IH. Qed.

Lemma shift_steps_add poly m n a :
  shift_steps poly (m + n) a = shift_steps poly n (shift_steps poly m a).
Proof. revert a. induction m as [|m IH]; intros; simpl; [done|]. by rewrite IH. Qed.

Lemma shift_steps_shiftl poly n a : shift_steps poly n (a ≪ Z.of_nat n) = a.
Proof.
  induction n as [|n IH]; simpl; [by rewrite Z.shiftl_0_r|].
  rewrite shift_step_alt, <- Z.bit0_odd, Z.shiftl_spec_low by lia.
  rewrite Z.lxor_0_r, Z.shiftr_shiftl_l by lia.
  replace (Z.of_nat (S n) - 1) with (Z.of_nat n) by lia. done.
Qed.

(** A register is its low bits and the rest. *)
Lemma lxor_low_high a n : 0 ≤ n → a = Z.lxor (Z.land a (Z.ones n)) ((a ≫ n) ≪ n).
Proof.
  intros Hn. apply Z.bits_inj'. intros i Hi. rewrite Z.lxor_spec, Z.land_spec.
  destruct (decide (i < n)).
  - rewrite Z.shiftl_spec_low, xorb_false_r, Z.ones_spec_low by lia. by rewrite andb_true_r.
  - rewrite Z.ones_spec_high, andb_false_r by lia. simpl.
    rewrite Z.shiftl_spec, Z.shiftr_spec by lia. f_equal. lia.
Qed.

(** Shifting n bits out folds in what they would have left behind. *)
Lemma shift_steps_split poly n a :
  shift_steps poly n a =
  Z.lxor (shift_steps poly n (Z.land a (Z.ones (Z.of_nat n)))) (a ≫ Z.of_nat n).
Proof.
  rewrite (lxor_low_high a (Z.of_nat n)) at 1 by lia.
  by rewrite shift_steps_lxor, shift_steps_shiftl.
Qed.

Lemma byte_val_shiftr b : byte_val b ≫ 8 = 0.
Proof.
  rewrite Z.shiftr_div_pow2 by lia. apply Z.div_small, byte_val_range.
Qed.

Lemma land255_range x : 0 ≤ Z.land x 255 < 256.
Proof. change 255 with (Z.ones 8). rewrite Z.land_ones by lia. apply Z.mod_pos_bound. lia. Qed.

Lemma make_table_lookup poly i :
  0 ≤ i < 256 → make_table poly !!! Z.to_nat i = shift_steps poly 8 i.
Proof.
  intros Hi. unfold make_table.
  rewrite list_lookup_total_alt, list_lookup_fmap, lookup_seq_lt by (unfold kTableSize; lia).
  simpl. by rewrite Z2Nat.id by lia.
Qed.

Lemma table_step poly running b :
  Z.lxor (make_table poly !!! Z.to_nat (Z.land (Z.lxor running (byte_val b)) 0xFF)) (running ≫ 8)
  = shift_steps poly 8 (Z.lxor running (byte_val b)).
Proof.
  rewrite make_table_lookup by apply land255_range.
  rewrite (shift_steps_split poly 8 (Z.lxor running (byte_val b))). f_equal.
  by rewrite Z.shiftr_lxor, byte_val_shiftr, Z.lxor_0_r.
Qed.

Lemma run_bits_lxor poly a b bits :
  run_bits poly (Z.lxor a b) bits = Z.lxor (shift_steps poly (length bits) a) (run_bits poly b bits).
Proof.
  unfold run_bits. revert a b. induction bits as [|x bits IH]; intros a b; simpl; [done|].
  unfold bit_step at 2 4. by rewrite Z.lxor_assoc, shift_step_lxor, IH.
Qed.

Lemma run_bits_app poly state xs ys :
  run_bits poly state (xs ++ ys) = run_bits poly (run_bits poly state xs) ys.
Proof. apply foldl_app. Qed.

Lemma length_bits_of b : length (bits_of b) = 8%nat.
Proof. done. Qed.

Definition byte_serial_at (poly : Z) (b : byte) : bool :=
  run_bits poly 0 (bits_of b) =? shift_steps poly 8 (byte_val b).

#[global] Strategy expand [byte_serial_at].

Definition byte_serial (poly : Z) : bool :=
  forallb (λ n, byte_serial_at poly (byte_of (Z.of_nat n))) (seq 0 256).

Lemma byte_serial_all poly b : byte_serial poly = true → byte_serial_at poly b = true.
Proof.
  unfold byte_serial. rewrite forallb_forall. intros Hs. pose proof (byte_val_range b).
  rewrite <- (byte_of_val b), <- (Z2Nat.id (byte_val b)) by lia.
  apply Hs, in_seq. lia.
Qed.

(** Eight bits entering one by one are the byte entering at once. *)
Lemma run_bits_byte poly state b :
  byte_serial poly = true →
  run_bits poly state (bits_of b) = shift_steps poly 8 (Z.lxor state (byte_val b)).
Proof.
  intros Hs%(byte_serial_all _ b). unfold byte_serial_at in Hs. apply Z.eqb_eq in Hs.
  rewrite <- (Z.lxor_0_r state) at 1.
  rewrite run_bits_lxor, Hs, length_bits_of, shift_steps_lxor. reflexivity.
Qed.

Lemma run_bits_bytes poly (step : Z → byte → Z) state bs :
  byte_serial poly = true →
  (∀ s b, step s b = shift_steps poly 8 (Z.lxor s (byte_val b))) →
  foldl step state bs = run_bits poly state (message_bits bs).
Proof.
  intros Hs Hstep. revert state. induction bs as [|b bs IH]; intros state; [done|].
  cbn [foldl message_bits mbind list_bind]. rewrite IH, Hstep, run_bits_app.
  rewrite (run_bits_byte poly state b Hs). reflexivity.
Qed.

Lemma lxor_cancel_r a b c : Z.lxor a c = Z.lxor b c → a = b.
Proof.
  intros H. rewrite <- (Z.lxor_0_r a), <- (Z.lxor_0_r b), <- (Z.lxor_nilpotent c).
  by rewrite <- !Z.lxor_assoc, H.
Qed.

(** The entering bit is below everything a shift of at least one keeps. *)
Lemma bit_step_high s x n : 1 ≤ n → Z.lxor s (Z.b2z x) ≫ n = s ≫ n.
Proof.
  intros Hn. rewrite Z.shiftr_lxor. replace (Z.b2z x ≫ n) with 0; [by rewrite Z.lxor_0_r|].
  rewrite Z.shiftr_div_pow2 by lia. symmetry. apply Z.div_small.
  pose proof (Z.pow_le_mono_r 2 1 n). destruct x; simpl; lia.
Qed.

(** ** What a register of w bits cannot miss

    For a reflected polynomial whose top bit is set the bit shifted out of the
    register is its top bit after the step, so a register determines the last
    w bits that left it. *)

Section Register.
Context (w : Z) (Hw : 8 ≤ w).

Definition in_register (s : Z) : Prop := 0 ≤ s < 2 ^ w.

Lemma in_register_bits s :
  in_register s ↔ 0 ≤ s ∧ ∀ i, w ≤ i → Z.testbit s i = false.
Proof.
  unfold in_register. split.
  - intros [Hs Hlt]. split; [done|]. intros i Hi.
    rewrite <- (Z.mod_small s (2 ^ w)) by done. apply Z.mod_pow2_bits_high. lia.
  - intros [Hs Hb]. split; [done|].
    destruct (Z.ltb_spec s (2 ^ w)) as [|Hge]; [done|exfalso].
    assert (Hl : w ≤ Z.log2 s) by (apply Z.log2_le_pow2; [|done]; pose proof (Z.pow_pos_nonneg 2 w); lia).
    specialize (Hb _ Hl). rewrite Z.bit_log2 in Hb; [done|].
    pose proof (Z.pow_pos_nonneg 2 w). lia.
Qed.

Lemma in_register_lxor s t : in_register s → in_register t → in_register (Z.lxor s t).
Proof.
  rewrite !in_register_bits. intros [Hs Hsb] [Ht Htb].
  split; [by apply Z.lxor_nonneg|]. intros i Hi. by rewrite Z.lxor_spec, Hsb, Htb.
Qed.

Lemma in_register_shiftr s n : 0 ≤ n → in_register s → in_register (s ≫ n).
Proof.
  rewrite !in_register_bits. intros Hn [Hs Hsb]. split; [by apply Z.shiftr_nonneg|].
  intros i Hi. rewrite Z.shiftr_spec by lia. apply Hsb. lia.
Qed.

Lemma in_register_small s : 0 ≤ s < 256 → in_register s.
Proof.
  intros Hs. unfold in_register.
  assert (2 ^ 8 ≤ 2 ^ w) by (apply Z.pow_le_mono_r; lia). lia.
Qed.

Context (poly : Z) (Hpoly : in_register poly) (Htop : Z.testbit poly (w - 1) = true).

Lemma in_register_step s : in_register s → in_register (shift_step poly s).
Proof.
  intros Hs. rewrite shift_step_alt. apply in_register_lxor.
  - by apply in_register_shiftr; [lia|].
  - destruct (Z.odd s); [done|]. by apply in_register_small.
Qed.

Lemma in_register_bit s x : in_register s → in_register (bit_step poly s x).
Proof.
  intros Hs. apply in_register_step, in_register_lxor; [done|].
  apply in_register_small. by destruct x.
Qed.

Lemma in_register_run s xs : in_register s → in_register (run_bits poly s xs).
Proof.
  revert s. induction xs as [|x xs IH]; intros s Hs; [done|].
  apply IH. by apply in_register_bit.
Qed.

(** The bit that left the register is its new top bit. *)
Lemma step_top_bit s : in_register s → Z.testbit (shift_step poly s) (w - 1) = Z.odd s.
Proof.
  rewrite in_register_bits. intros [_ Hb].
  rewrite shift_step_alt, Z.lxor_spec, Z.shiftr_spec, Hb by lia.
  destruct (Z.odd s); simpl; [done|]. by rewrite Z.bits_0.
Qed.

(** The bits that left the register while [xs] entered it. *)
Fixpoint decisions (s : Z) (xs : list bool) : list bool :=
  match xs with
  | [] => []
  | x :: xs => Z.odd (Z.lxor s (Z.b2z x)) :: decisions (bit_step poly s x) xs
  end.

Lemma decisions_snoc s xs x :
  decisions s (xs ++ [x]) =
  decisions s xs ++ [Z.odd (Z.lxor (run_bits poly s xs) (Z.b2z x))].
Proof. revert s. induction xs as [|y xs IH]; intros s; simpl; [done|]. by rewrite IH. Qed.

Lemma decisions_inj s xs ys : decisions s xs = decisions s ys → xs = ys.
Proof.
  revert s ys. induction xs as [|x xs IH]; intros s [|y ys]; simpl; [done..|].
  intros [= Hd Hrest]. assert (x = y) as ->.
  { rewrite !odd_lxor in Hd. destruct x, y, (Z.odd s); done. }
  f_equal. by eapply IH.
Qed.

(** Two registers that agree on their top n bits were left by the same last
    n bits. *)
Lemma top_decisions xs ys s t :
  length xs = length ys → Z.of_nat (length xs) ≤ w → in_register s → in_register t →
  run_bits poly s xs ≫ (w - Z.of_nat (length xs))
  = run_bits poly t ys ≫ (w - Z.of_nat (length xs)) →
  decisions s xs = decisions t ys.
Proof.
  revert ys. induction xs as [|x xs IH] using rev_ind; intros ys Hlen Hle Hs Ht Heq.
  { by destruct ys. }
  destruct ys as [|y ys _] using rev_ind; [rewrite length_app in Hlen; simpl in Hlen; lia|].
  rewrite !length_app in *. cbn [length] in *.
  assert (Hl : length xs = length ys) by lia.
  rewrite !run_bits_app in Heq. set (r := run_bits poly s xs) in *.
  set (q := run_bits poly t ys) in *. cbn [run_bits foldl] in Heq.
  assert (Hr : in_register (Z.lxor r (Z.b2z x))).
  { apply in_register_lxor; [by apply in_register_run|].
    apply in_register_small. by destruct x. }
  assert (Hq : in_register (Z.lxor q (Z.b2z y))).
  { apply in_register_lxor; [by apply in_register_run|].
    apply in_register_small. by destruct y. }
  assert (Hd : Z.odd (Z.lxor r (Z.b2z x)) = Z.odd (Z.lxor q (Z.b2z y))).
  { rewrite <- !step_top_bit by done. fold (bit_step poly r x) (bit_step poly q y).
    apply (f_equal (λ z, Z.testbit z (Z.of_nat (length xs)))) in Heq.
    rewrite !Z.shiftr_spec in Heq by lia. rewrite Nat2Z.inj_add in Heq.
    replace (Z.of_nat (length xs) + (w - (Z.of_nat (length xs) + Z.of_nat 1))) with (w - 1) in Heq by lia.
    done. }
  rewrite !decisions_snoc. fold r q. rewrite Hd. f_equal.
  apply IH; [done|lia|done..|]. fold r q.
  rewrite <- (bit_step_high r x), <- (bit_step_high q y) by lia.
  unfold bit_step in Heq. rewrite !shift_step_alt, Hd, !Z.shiftr_lxor in Heq.
  rewrite Nat2Z.inj_add in Heq. apply lxor_cancel_r in Heq.
  rewrite !Z.shiftr_shiftr in Heq by lia.
  replace (1 + (w - (Z.of_nat (length xs) + Z.of_nat 1))) with (w - Z.of_nat (length xs)) in Heq by lia.
  by rewrite !Z.shiftr_lxor.
Qed.

(** From one register, different bits, at most w of them, leave different
    registers. *)
Lemma run_bits_burst s xs ys :
  in_register s → length xs = length ys → Z.of_nat (length xs) ≤ w → xs ≠ ys →
  run_bits poly s xs ≠ run_bits poly s ys.
Proof.
  intros Hs Hl Hle Hne Heq. apply Hne, (decisions_inj s).
  by apply top_decisions; [..|by rewrite Heq].
Qed.

(** Whatever enters afterwards, different registers stay different. *)
Lemma run_bits_inj s t xs :
  in_register s → in_register t → run_bits poly s xs = run_bits poly t xs → s = t.
Proof.
  revert s t. induction xs as [|x xs IH]; intros s t Hs Ht Heq; [done|].
  apply IH in Heq; [|by apply in_register_bit..].
  assert (Hd : decisions s [x] = decisions t [x]).
  { apply top_decisions; try done; simpl; [lia|]. by rewrite Heq. }
  simpl in Hd. injection Hd as Hd. unfold bit_step in Heq.
  rewrite !shift_step_alt, Hd in Heq. apply lxor_cancel_r in Heq.
  assert (Hodd : Z.odd s = Z.odd t).
  { rewrite !odd_lxor in Hd. by destruct (Z.odd s), (Z.odd t), (Z.odd (Z.b2z x)). }
  apply Z.bits_inj'. intros i Hi. destruct (decide (i = 0)) as [->|]; [by rewrite !Z.bit0_odd|].
  apply (f_equal (λ z, Z.testbit z (i - 1))) in Heq.
  rewrite !Z.shiftr_spec, !Z.lxor_spec in Heq by lia.
  replace (i - 1 + 1) with i in Heq by lia.
  by destruct (Z.testbit s i), (Z.testbit t i), (Z.testbit (Z.b2z x) i).
Qed.

(** A message changed only inside a window of at most w bits is detected. *)
Lemma run_bits_detects s pre xs ys post :
  in_register s → length xs = length ys → Z.of_nat (length xs) ≤ w → xs ≠ ys →
  run_bits poly s (pre ++ xs ++ post) ≠ run_bits poly s (pre ++ ys ++ post).
Proof.
  intros Hs Hl Hle Hne. rewrite !run_bits_app. intros Heq.
  apply run_bits_inj in Heq; [|by repeat apply in_register_run..].
  revert Heq. apply run_bits_burst; try done. by apply in_register_run.
Qed.
End Register.

(** ** The two registers *)

Lemma not32_not32 x : not32 (not32 x) = x.
Proof. unfold not32. by rewrite Z.lxor_assoc, Z.lxor_nilpotent, Z.lxor_0_r. Qed.

Lemma not64_not64 x : not64 (not64 x) = x.
Proof. unfold not64. by rewrite Z.lxor_assoc, Z.lxor_nilpotent, Z.lxor_0_r. Qed.

Lemma not32_register x : in_register 32 x → in_register 32 (not32 x).
Proof. intros. apply in_register_lxor; [lia|done|done]. Qed.

Lemma not64_register x : in_register 64 x → in_register 64 (not64 x).
Proof. intros. apply in_register_lxor; [lia|done|done]. Qed.

Lemma byte_serial_32 : byte_serial kPolynomial32 = true.
Proof. vm_cast_no_check (eq_refl true). Qed.

Lemma byte_serial_64 : byte_serial kPolynomial64 = true.
Proof. vm_cast_no_check (eq_refl true). Qed.

Lemma poly32_register : in_register 32 kPolynomial32.
Proof. by vm_compute. Qed.

Lemma poly64_register : in_register 64 kPolynomial64.
Proof. by vm_compute. Qed.

Lemma crc32_step_serial s b :
  crc32_step s b = shift_steps kPolynomial32 8 (Z.lxor s (byte_val b)).
Proof. unfold crc32_step. rewrite kTable32_eq. apply table_step. Qed.

Lemma crc32_update_serial crc bs :
  crc32_update crc bs = not32 (run_bits kPolynomial32 (not32 crc) (message_bits bs)).
Proof.
  unfold crc32_update. f_equal.
  apply run_bits_bytes; [apply byte_serial_32|apply crc32_step_serial].
Qed.

Lemma crc32_update_register crc bs :
  in_register 32 crc → in_register 32 (crc32_update crc bs).
Proof.
  intros. rewrite crc32_update_serial.
  apply not32_register, in_register_run; [lia|apply poly32_register|by apply not32_register].
Qed.

Lemma crc32_range bs : in_u32 (crc32 bs).
Proof. apply (crc32_update_register 0 bs). done. Qed.
#[export] Hint Resolve crc32_range : lf.

(** The bits of a message determine it. *)
Lemma bits_of_inj a b : bits_of a = bits_of b → a = b.
Proof.
  intros H. apply byte_val_inj, Z.bits_inj'. intros i Hi.
  destruct (decide (i < 8)).
  - apply (f_equal (λ l, l !! Z.to_nat i)) in H. unfold bits_of in H.
    rewrite !list_lookup_fmap, !lookup_seq_lt in H by lia. simpl in H.
    rewrite !Z2Nat.id in H by lia. by injection H.
  - pose proof (byte_val_range a). pose proof (byte_val_range b).
    rewrite <- (Z.mod_small (byte_val a) (2 ^ 8)), <- (Z.mod_small (byte_val b) (2 ^ 8)) by done.
    by rewrite !Z.mod_pow2_bits_high by lia.
Qed.

Lemma message_bits_app xs ys : message_bits (xs ++ ys) = message_bits xs ++ message_bits ys.
Proof. apply bind_app. Qed.

Lemma length_message_bits bs : length (message_bits bs) = (8 * length bs)%nat.
Proof.
  induction bs as [|b bs IH]; [done|].
  cbn [message_bits mbind list_bind]. rewrite length_app, length_bits_of.
  change (bs ≫= bits_of) with (message_bits bs). rewrite IH. simpl. lia.
Qed.

Lemma message_bits_inj xs ys : message_bits xs = message_bits ys → xs = ys.
Proof.
  revert ys. induction xs as [|x xs IH]; intros ys H.
  - apply (f_equal length) in H. rewrite !length_message_bits in H. by destruct ys.
  - destruct ys as [|y ys].
    { apply (f_equal length) in H. rewrite !length_message_bits in H. done. }
    cbn [message_bits mbind list_bind] in H.
    apply app_inj_1 in H as [Hb Hr]; [|by rewrite !length_bits_of].
    apply bits_of_inj in Hb as ->. f_equal. by apply IH.
Qed.

(** A window of at most w bits, as bytes. *)
Lemma burst_bytes w pre xs ys post :
  length xs = length ys → 8 * Z.of_nat (length xs) ≤ w → xs ≠ ys →
  ∃ bx by',
    message_bits (pre ++ xs ++ post) = message_bits pre ++ bx ++ message_bits post ∧
    message_bits (pre ++ ys ++ post) = message_bits pre ++ by' ++ message_bits post ∧
    length bx = length by' ∧ Z.of_nat (length bx) ≤ w ∧ bx ≠ by'.
Proof.
  intros Hl Hle Hne. exists (message_bits xs), (message_bits ys).
  rewrite !message_bits_app, !length_message_bits. split_and!; try done; try lia.
  by intros ?%message_bits_inj.
Qed.

(** Bytes in pairs of equal length, at most four of them, never collide. *)
Lemma crc32_burst crc pre xs ys post :
  in_register 32 crc → length xs = length ys → (length xs ≤ 4)%nat → xs ≠ ys →
  crc32_update crc (pre ++ xs ++ post) ≠ crc32_update crc (pre ++ ys ++ post).
Proof.
  intros Hc Hl Hle Hne. destruct (burst_bytes 32 pre xs ys post) as (bx & by' & Ex & Ey & ?); [done|lia|done|].
  rewrite !crc32_update_serial, Ex, Ey. intros Heq%lxor_cancel_r. revert Heq.
  apply (run_bits_detects 32); try tauto; try lia.
  - apply poly32_register.
  - by apply not32_register.
Qed.

Lemma crc32_change_byte crc pre x y post :
  in_register 32 crc → x ≠ y →
  crc32_update crc (pre ++ x :: post) ≠ crc32_update crc (pre ++ y :: post).
Proof.
  intros Hc Hne. apply (crc32_burst crc pre [x] [y] post); [done|done|simpl; lia|congruence].
Qed.

Lemma crc32_insert crc bs i x y :
  in_register 32 crc → bs !! i = Some x → x ≠ y →
  crc32_update crc (<[i := y]> bs) ≠ crc32_update crc bs.
Proof.
  intros Hc Hx Hne. pose proof (lookup_lt_Some _ _ _ Hx).
  rewrite insert_take_drop by done. rewrite <- (take_drop_middle bs i x) at 3 by done.
  by apply crc32_change_byte.
Qed.

(** ** Slicing by eight *)

Lemma crc64_step_serial s b :
  crc64_step s b = shift_steps kPolynomial64 8 (Z.lxor s (byte_val b)).
Proof.
  unfold crc64_step, table_at. rewrite kTables64_eq. apply table_step.
Qed.

Lemma foldl_ext {A B} (f g : B → A → B) b l :
  (∀ a k, k ∈ l → f a k = g a k) → foldl f b l = foldl g b l.
Proof.
  revert b. induction l as [|k l IH]; intros b H; simpl; [done|].
  rewrite H by (apply elem_of_cons; by left). apply IH.
  intros a j Hj. apply H, elem_of_cons. by right.
Qed.

Lemma foldl_lxor {A} (g : A → Z) a l :
  foldl (λ f k, Z.lxor f (g k)) a l = Z.lxor a (foldl (λ f k, Z.lxor f (g k)) 0 l).
Proof.
  revert a. induction l as [|k l IH]; intros a; simpl; [by rewrite Z.lxor_0_r|].
  rewrite IH, (IH (Z.lxor 0 _)), Z.lxor_0_l. by rewrite Z.lxor_assoc.
Qed.

Lemma low_high_disjoint b x : Z.land (byte_val b) (x ≪ 8) = 0.
Proof.
  apply Z.bits_inj'. intros i Hi. rewrite Z.land_spec, Z.bits_0.
  destruct (decide (i < 8)).
  - by rewrite Z.shiftl_spec_low, andb_false_r.
  - pose proof (byte_val_range b). rewrite <- (Z.mod_small (byte_val b) (2 ^ 8)) by done.
    rewrite Z.mod_pow2_bits_high by lia. done.
Qed.

Lemma run_bits_word poly s bs :
  byte_serial poly = true →
  run_bits poly s (message_bits bs) = shift_steps poly (8 * length bs) (Z.lxor s (get_le bs)).
Proof.
  intros Hs. revert s. induction bs as [|b bs IH]; intros s.
  { simpl. by rewrite Z.lxor_0_r. }
  cbn [message_bits mbind list_bind]. rewrite run_bits_app, (run_bits_byte poly s b Hs).
  change (bs ≫= bits_of) with (message_bits bs). rewrite IH.
  replace (8 * length (b :: bs))%nat with (8 + 8 * length bs)%nat by (simpl; lia).
  rewrite shift_steps_add. f_equal.
  rewrite get_le_cons, (Z.mul_comm 256). change 256 with (2 ^ 8).
  rewrite <- lor_shiftl_add by (apply byte_val_range || lia).
  rewrite <- Z.add_nocarry_lor, Z.add_nocarry_lxor.
  - rewrite <- Z.lxor_assoc, !shift_steps_lxor.
    pose proof (shift_steps_shiftl poly 8 (get_le bs)) as E. change (Z.of_nat 8) with 8 in E.
    by rewrite E.
  - by apply low_high_disjoint.
  - by apply low_high_disjoint.
Qed.

(** The last n bytes of a register leave it one after the other. *)
Lemma shift_steps_bytes poly n u :
  0 ≤ u < 2 ^ (8 * Z.of_nat n) →
  shift_steps poly (8 * n) u =
  foldl (λ f k, Z.lxor f (shift_steps poly (8 * (n - k)) (Z.land (u ≫ (8 * Z.of_nat k)) 0xFF)))
    0 (seq 0 n).
Proof.
  revert u. induction n as [|n IH]; intros u Hu.
  { simpl in *. lia. }
  rewrite (lxor_low_high u 8) at 1 by lia. rewrite shift_steps_lxor.
  cbn [seq foldl]. rewrite foldl_lxor. f_equal.
  replace (8 * S n)%nat with (8 + 8 * n)%nat by lia. rewrite shift_steps_add.
  pose proof (shift_steps_shiftl poly 8 (u ≫ 8)) as E. change (Z.of_nat 8) with 8 in E.
  rewrite E, IH.
  - rewrite <- fmap_S_seq, foldl_fmap. apply foldl_ext. intros a k _.
    rewrite Z.shiftr_shiftr by lia.
    replace (8 + 8 * Z.of_nat k) with (8 * Z.of_nat (S k)) by lia. done.
  - rewrite pow2_8_S in Hu. rewrite Z.shiftr_div_pow2 by lia. change (2 ^ 8) with 256.
    split; [apply Z.div_pos; lia|apply Z.div_lt_upper_bound; lia].
Qed.

Definition slice_serial_at (k i : nat) : bool :=
  table_at (kSlices - 1 - k) (Z.of_nat i) =? shift_steps kPolynomial64 (8 * (kSlices - k)) (Z.of_nat i).

#[global] Strategy expand [slice_serial_at].

Lemma slices_serial : forallb (λ k, forallb (slice_serial_at k) (seq 0 256)) (seq 0 8) = true.
Proof. vm_cast_no_check (eq_refl true). Qed.

Lemma slice_serial_all k i : (k < 8)%nat → (i < 256)%nat → slice_serial_at k i = true.
Proof.
  intros Hk Hi. pose proof slices_serial as H. rewrite forallb_forall in H.
  assert (Hkin : In k (seq 0 8)) by (apply in_seq; lia).
  specialize (H k Hkin). cbn beta in H. rewrite forallb_forall in H.
  apply H, in_seq. lia.
Qed.

Lemma table_at_serial k i :
  (k < 8)%nat → 0 ≤ i < 256 →
  table_at (kSlices - 1 - k) i = shift_steps kPolynomial64 (8 * (kSlices - k)) i.
Proof.
  intros Hk Hi. assert (Hn : (Z.to_nat i < 256)%nat) by lia.
  pose proof (slice_serial_all k _ Hk Hn) as H. unfold slice_serial_at in H.
  apply Z.eqb_eq in H. rewrite Z2Nat.id in H by lia. exact H.
Qed.

Lemma crc64_fold8_serial running eight :
  length eight = 8%nat → in_register 64 running →
  crc64_fold8 running eight = run_bits kPolynomial64 running (message_bits eight).
Proof.
  intros Hl Hr. rewrite (run_bits_word _ _ _ byte_serial_64), Hl.
  assert (Hu : in_register 64 (Z.lxor running (get_le eight))).
  { apply in_register_lxor; [lia|done|]. pose proof (get_le_range eight) as Hg.
    by rewrite Hl in Hg. }
  rewrite shift_steps_bytes by exact Hu.
  unfold crc64_fold8. apply foldl_ext. intros a k Hk.
  rewrite list_elem_of_In, in_seq in Hk.
  rewrite table_at_serial; [done|lia|apply land255_range].
Qed.

Lemma crc64_run_serial fuel running bs :
  in_register 64 running →
  crc64_run fuel running bs = run_bits kPolynomial64 running (message_bits bs).
Proof.
  assert (Htail : ∀ s cs, foldl crc64_step s cs = run_bits kPolynomial64 s (message_bits cs)).
  { intros. apply run_bits_bytes; [apply byte_serial_64|apply crc64_step_serial]. }
  revert running bs. induction fuel as [|fuel IH]; intros running bs Hr; cbn [crc64_run]; [apply Htail|].
  case_match eqn:E; [|apply Htail]. apply Nat.leb_le in E.
  assert (Hl : length (take kSlices bs) = 8%nat) by (rewrite length_take; unfold kSlices in *; lia).
  rewrite crc64_fold8_serial by done. rewrite IH, <- run_bits_app, <- message_bits_app, take_drop; [done|].
  apply in_register_run; [lia|apply poly64_register|done].
Qed.

Lemma crc64_update_serial crc bs :
  in_register 64 crc →
  crc64_update crc bs = not64 (run_bits kPolynomial64 (not64 crc) (message_bits bs)).
Proof. intros. unfold crc64_update. by rewrite crc64_run_serial by (by apply not64_register). Qed.

Lemma crc64_update_register crc bs : in_register 64 crc → in_register 64 (crc64_update crc bs).
Proof.
  intros. rewrite crc64_update_serial by done.
  apply not64_register, in_register_run; [lia|apply poly64_register|by apply not64_register].
Qed.

Lemma crc64_update_app crc a b :
  in_register 64 crc → crc64_update (crc64_update crc a) b = crc64_update crc (a ++ b).
Proof.
  intros Hc. rewrite (crc64_update_serial (crc64_update crc a)) by (by apply crc64_update_register).
  rewrite !crc64_update_serial, not64_not64 by done. by rewrite message_bits_app, run_bits_app.
Qed.

Lemma crc32_update_app crc a b :
  crc32_update (crc32_update crc a) b = crc32_update crc (a ++ b).
Proof.
  rewrite !crc32_update_serial, not32_not32. by rewrite message_bits_app, run_bits_app.
Qed.

(** ** Theorems *)

(** (equivalence). The table-driven CRC-32 is the bit-serial division by the
    reflected polynomial: each message bit enters at the bottom of an inverted
    register, which is inverted again at the end. *)
Theorem crc32_is_bit_serial bs :
  crc32 bs = not32 (run_bits kPolynomial32 (not32 0) (message_bits bs)).
Proof. apply crc32_update_serial. Qed.

(** (equivalence). Slicing by eight is the same division on 64 bits: eight
    lookups per eight bytes, and the byte loop for what is left, compute the
    bit-serial CRC-64 of every message. *)
Theorem crc64_is_bit_serial bs :
  crc64 bs = not64 (run_bits kPolynomial64 (not64 0) (message_bits bs)).
Proof. by apply crc64_update_serial. Qed.

(** (error detection). Both checksums detect every burst of errors no longer
    than themselves: two messages that differ only inside a window of at most
    32 consecutive bits (CRC-32) or 64 (CRC-64), wherever it starts and however
    long the messages, have different checksums. *)
Theorem crc_detects_bursts bs cs pre xs ys post :
  message_bits bs = pre ++ xs ++ post → message_bits cs = pre ++ ys ++ post →
  length xs = length ys → xs ≠ ys →
  ((length xs ≤ 32)%nat → crc32 bs ≠ crc32 cs) ∧ ((length xs ≤ 64)%nat → crc64 bs ≠ crc64 cs).
Proof.
  intros Eb Ec Hl Hne. split; intros Hle.
  - unfold crc32. rewrite !crc32_update_serial, Eb, Ec. intros Heq%lxor_cancel_r. revert Heq.
    apply (run_bits_detects 32); try done; lia.
  - unfold crc64. rewrite !crc64_update_serial, Eb, Ec by done. intros Heq%lxor_cancel_r. revert Heq.
    apply (run_bits_detects 64); try done; lia.
Qed.

Lemma crc_detects_bursts_witness :
  crc32 (lit "123") ≠ crc32 (lit "133") ∧ crc64 (lit "123") ≠ crc64 (lit "133").
Proof.
  destruct (crc_detects_bursts (lit "123") (lit "133")
    (message_bits (lit "1")) (message_bits (lit "2")) (message_bits (lit "3")) (message_bits (lit "3")))
    as [H32 H64].
  - vm_compute; reflexivity.
  - vm_compute; reflexivity.
  - vm_compute; reflexivity.
  - vm_compute; discriminate.
  - split; [apply H32|apply H64]; vm_compute; lia.
Defined.

(** A checksum continued over more bytes is the checksum of
    the concatenation, for every split of a stream: crc32_update for every
    running value, crc64_update for every 64-bit one. *)
Theorem crc_update_continues crc a b :
  crc32_update (crc32_update crc a) b = crc32_update crc (a ++ b) ∧
  (in_u64 crc → crc64_update (crc64_update crc a) b = crc64_update crc (a ++ b)).
Proof. split; [apply crc32_update_app|apply crc64_update_app]. Qed.

Lemma crc_update_continues_witness :
  in_u64 7 ∧ crc64_update (crc64_update 7 (lit "12345")) (lit "6789") = crc64_update 7 (lit "123456789").
Proof.
  assert (H : in_u64 7) by (unfold in_u64; lia).
  split; [exact H|]. exact (proj2 (crc_update_continues 7 (lit "12345") (lit "6789")) H).
Defined.
