(* ===== verification/Platform.v ===== *)
(** * The platform layer's decisions

    platform/: what a failed call says (syscall_error.cpp), what fork, waitpid and
    waitid answered (syscalls.cpp), what a wait status means (exit_status.cpp), the
    clock's arithmetic (clock.cpp) and the pool of worker processes
    (worker_pool.cpp). The system calls themselves are operations of a class. *)

From S2P Require Export Bytes.

(** ** syscall_error.hpp *)

Record SyscallError := { number_ : Z; call : text; subject : text }.

#[export] Instance SyscallError_eq_dec : EqDecision SyscallError.
Proof. solve_decision. Defined.

Definition ESRCH : Z := 3.
Definition EINTR : Z := 4.
Definition EIO : Z := 5.
Definition ECHILD : Z := 10.
Definition EINVAL : Z := 22.
Definition EOVERFLOW : Z := 75.

(** std::to_string of an int. *)
Definition int_to_dec (n : Z) : text := if n <? 0 then lit "-" ++ to_dec (- n) else to_dec n.

Definition describe_syscall_error (strerror : Z → text) (error : SyscallError) : text :=
  call error
  ++ (match subject error with [] => [] | s => lit "(" ++ s ++ lit ")" end)
  ++ lit ": " ++ strerror (number_ error) ++ lit " (errno " ++ int_to_dec (number_ error)
  ++ lit ")".

Definition result_or_error {T} (value : T) (failed : bool) (number : Z) (name subject : text) :
    Result T SyscallError :=
  if failed then Error {| number_ := number; call := name; subject := subject |} else Value value.

(** ** syscalls.cpp: what a returned pid means *)

Record Reaped := { reaped_pid : Z; reaped_status : Z }.

Definition fork_result (pid number : Z) : Result Z SyscallError :=
  if pid <? 0
  then Error {| number_ := number; call := lit "fork"; subject := lit "worker process" |}
  else Value pid.

Definition reap_result (pid status number : Z) : Result (option Reaped) SyscallError :=
  if pid <? 0
  then Error {| number_ := number; call := lit "waitpid";
                subject := lit "any child, without waiting" |}
  else if pid =? 0 then Value None
  else Value (Some {| reaped_pid := pid; reaped_status := status |}).

Definition exit_peek_result (returned reported_pid number : Z) : Result bool SyscallError :=
  if returned <? 0
  then Error {| number_ := number; call := lit "waitid";
                subject := lit "exit status, without reaping" |}
  else Value (negb (reported_pid =? 0)).

Definition diverts_here (fd owner caller : Z) : bool := (0 <=? fd) && (owner =? caller).

(** ** exit_status.cpp

    The W* macros of the C library, on the two's complement bits of an int. *)

Definition schar (x : Z) : Z := let b := x mod 256 in if b <? 128 then b else b - 256.

Definition WIFEXITED (raw : Z) : bool := Z.land raw 127 =? 0.
Definition WEXITSTATUS (raw : Z) : Z := Z.shiftr (Z.land raw 65280) 8.
Definition WIFSIGNALED (raw : Z) : bool := 0 <? Z.shiftr (schar (Z.land raw 127 + 1)) 1.
Definition WTERMSIG (raw : Z) : Z := Z.land raw 127.
Definition WIFSTOPPED (raw : Z) : bool := Z.land raw 255 =? 127.
Definition WSTOPSIG (raw : Z) : Z := WEXITSTATUS raw.
Definition WIFCONTINUED (raw : Z) : bool := raw =? 65535.
Definition WCOREDUMP (raw : Z) : bool := negb (Z.land raw 128 =? 0).

Inductive Termination := kExited | kSignalled | kStopped | kContinued | kUnrecognisedStatus.

#[export] Instance Termination_eq_dec : EqDecision Termination.
Proof. solve_decision. Defined.

Definition SIGILL : Z := 4.
Definition SIGTRAP : Z := 5.
Definition SIGABRT : Z := 6.
Definition SIGBUS : Z := 7.
Definition SIGFPE : Z := 8.
Definition SIGKILL : Z := 9.
Definition SIGSEGV : Z := 11.

Definition termination (raw : Z) : Termination :=
  if WIFEXITED raw then kExited else
  if WIFSIGNALED raw then kSignalled else
  if WIFSTOPPED raw then kStopped else
  if WIFCONTINUED raw then kContinued else kUnrecognisedStatus.

Definition exit_code (raw : Z) : Z := if WIFEXITED raw then WEXITSTATUS raw else 0.

Definition exit_signal (raw : Z) : Z :=
  if WIFSIGNALED raw then WTERMSIG raw else
  if WIFSTOPPED raw then WSTOPSIG raw else 0.

Definition dumped_core (raw : Z) : bool := WIFSIGNALED raw && WCOREDUMP raw.

Definition is_success (raw : Z) : bool :=
  bool_decide (termination raw = kExited) && (exit_code raw =? 0).

Definition killed_by_sigkill (raw : Z) : bool :=
  bool_decide (termination raw = kSignalled) && (exit_signal raw =? SIGKILL).

Definition describe_status (raw : Z) : text :=
  match termination raw with
  | kExited => lit "exited with code " ++ int_to_dec (exit_code raw)
  | kSignalled =>
    lit "killed by signal " ++ int_to_dec (exit_signal raw)
    ++ (if dumped_core raw then lit " (core dumped)" else [])
  | kStopped => lit "stopped by signal " ++ int_to_dec (exit_signal raw)
  | kContinued => lit "continued"
  | kUnrecognisedStatus => lit "unrecognised wait status " ++ int_to_dec raw
  end.

(** What wait(2) reports, and the word it reports it in. *)
Inductive Wait :=
| Exited (code : Z)
| Killed (signal : Z) (core : bool)
| Stopped (signal : Z)
| Continued.

Definition wait_word (w : Wait) : Z :=
  match w with
  | Exited code => Z.shiftl code 8
  | Killed signal core => Z.lor signal (if core then 128 else 0)
  | Stopped signal => Z.lor (Z.shiftl signal 8) 127
  | Continued => 65535
  end.

Definition wait_ok (w : Wait) : Prop :=
  match w with
  | Exited code => 0 ≤ code < 256
  | Killed signal _ => 1 ≤ signal < 127
  | Stopped signal => 1 ≤ signal < 127
  | Continued => True
  end.

(** Bits of a word as remainders. *)
Lemma land_127 x : Z.land x 127 = x mod 128.
Proof. apply (Z.land_ones x 7). lia. Qed.
Lemma land_255 x : Z.land x 255 = x mod 256.
Proof. apply (Z.land_ones x 8). lia. Qed.

Lemma wexitstatus_eq x : WEXITSTATUS x = (x / 256) mod 256.
Proof.
  unfold WEXITSTATUS. rewrite Z.shiftr_land. change (Z.shiftr 65280 8) with 255.
  by rewrite land_255, Z.shiftr_div_pow2 by lia.
Qed.

Lemma wifsignaled_eq x : WIFSIGNALED x = (1 <=? x mod 128) && (x mod 128 <? 127).
Proof.
  unfold WIFSIGNALED, schar. cbv zeta. rewrite land_127, Z.shiftr_div_pow2 by lia. change (2 ^ 1) with 2.
  pose proof (Z.mod_pos_bound x 128 eq_refl). rewrite (Z.mod_small (_ + 1) 256) by lia.
  apply eq_true_iff_eq. rewrite andb_true_iff, Z.leb_le, !Z.ltb_lt.
  destruct (_ <? 128) eqn:E; bool_facts; dlia.
Qed.

Lemma wcoredump_eq x : WCOREDUMP x = (128 <=? x mod 256).
Proof.
  unfold WCOREDUMP.
  assert (Z.land x 128 = if Z.testbit x 7 then 128 else 0) as ->.
  { apply Z.bits_inj'. intros i Hi. change 128 with (2 ^ 7) at 1. rewrite Z.land_spec.
    rewrite Z.pow2_bits_eqb by lia. destruct (Z.eqb_spec 7 i) as [<-|Hn].
    - rewrite andb_true_r. by destruct (Z.testbit x 7).
    - rewrite andb_false_r. destruct (Z.testbit x 7); [|by rewrite Z.bits_0].
      change 128 with (2 ^ 7). rewrite Z.pow2_bits_eqb by lia. symmetry. by apply Z.eqb_neq. }
  rewrite Z.testbit_eqb by lia.
  change (2 ^ 7) with 128. pose proof (Z.mod_pos_bound x 256 eq_refl).
  assert (x mod 256 = x mod 128 + 128 * ((x / 128) mod 2)) as E.
  { change 256 with (128 * 2). apply Z.rem_mul_r; lia. }
  pose proof (Z.mod_pos_bound x 128 eq_refl). pose proof (Z.mod_pos_bound (x / 128) 2 eq_refl).
  destruct (Z.eqb_spec ((x / 128) mod 2) 1) as [Hq|Hq]; simpl; symmetry.
  - apply Z.leb_le. lia.
  - apply Z.leb_gt. lia.
Qed.

Lemma wait_word_eq w : wait_ok w →
  wait_word w = match w with
                | Exited code => 256 * code
                | Killed signal core => signal + (if core then 128 else 0)
                | Stopped signal => 256 * signal + 127
                | Continued => 65535
                end.
Proof.
  destruct w as [c|s core|s|]; simpl; intros Hw.
  - rewrite Z.shiftl_mul_pow2 by lia. lia.
  - destruct core; [|by rewrite Z.lor_0_r, Z.add_0_r].
    change (Z.lor s 128) with (Z.lor s (1 ≪ 7)). rewrite lor_shiftl_add by lia. lia.
  - rewrite Z.lor_comm, (lor_shiftl_add 127 s 8) by lia. lia.
  - done.
Qed.

(** The words that decode to nothing known: an all-ones low byte that is not the
    continued word. *)
Lemma termination_unrecognised raw :
  termination raw = kUnrecognisedStatus ↔ raw mod 256 = 255 ∧ raw ≠ 65535.
Proof.
  unfold termination, WIFEXITED, WIFSTOPPED, WIFCONTINUED.
  rewrite wifsignaled_eq, land_127, land_255. split.
  - intros H. repeat (case_match; try done). bool_facts.
    match goal with H : _ && _ = false |- _ => apply andb_false_iff in H as [|] end;
      bool_facts; dlia.
  - intros [Hm Hr]. destruct (Z.eqb_spec (raw mod 128) 0); [dlia|].
    destruct (Z.leb_spec 1 (raw mod 128)), (Z.ltb_spec (raw mod 128) 127); simpl; try dlia;
      rewrite (proj2 (Z.eqb_neq _ _)), (proj2 (Z.eqb_neq _ _)) by dlia; done.
Qed.

(** ** clock.cpp *)

Record TimeSpec := { seconds : Z; nanoseconds : Z }.
Record TimePoint := { raw_ns : Z; running_ns : Z; wall_ns : Z }.
Record Elapsed := { elapsed_raw_ns : Z; elapsed_running_ns : Z; suspended_ns : Z }.

Definition kSuspendThresholdNs : Z := 1000000000.
Definition machine_suspended (e : Elapsed) : bool := kSuspendThresholdNs <=? suspended_ns e.

Definition kNanosecondsPerSecond : Z := 1000000000.
Definition kMaxSeconds : Z := 9223372035.

Definition clock_error (number : Z) (subject_ : text) : SyscallError :=
  {| number_ := number; call := lit "clock_gettime"; subject := subject_ |}.

Definition to_nanoseconds (value : TimeSpec) (clock_id : Z) : Result Z SyscallError :=
  if (nanoseconds value <? 0) || (kNanosecondsPerSecond <=? nanoseconds value)
  then Error (clock_error EINVAL (lit "clock " ++ int_to_dec clock_id ++ lit " reported "
                                  ++ int_to_dec (nanoseconds value) ++ lit "ns, outside [0, 1e9)"))
  else if seconds value <? 0
  then Error (clock_error EINVAL (lit "clock " ++ int_to_dec clock_id
                                  ++ lit " reported a negative second count"))
  else if kMaxSeconds <? seconds value
  then Error (clock_error EOVERFLOW (lit "clock " ++ int_to_dec clock_id ++ lit " reported "
              ++ int_to_dec (seconds value) ++ lit "s, which does not fit in nanoseconds"))
  else Value (i64 (i64 (seconds value * kNanosecondsPerSecond) + nanoseconds value)).

Definition forward_difference (start end_ : Z) (which : text) : Result Z SyscallError :=
  if end_ <? start
  then Error (clock_error EINVAL (which ++ lit " went backwards by "
                                  ++ int_to_dec (i64 (start - end_)) ++ lit "ns"))
  else Value (i64 (end_ - start)).

Definition between (start end_ : TimePoint) : Result Elapsed SyscallError :=
  let? raw := forward_difference (raw_ns start) (raw_ns end_) (lit "CLOCK_MONOTONIC_RAW") in
  let? running := forward_difference (running_ns start) (running_ns end_) (lit "CLOCK_MONOTONIC") in
  let? wall := forward_difference (wall_ns start) (wall_ns end_) (lit "CLOCK_BOOTTIME") in
  let suspended := i64 (wall - running) in
  if suspended <? - kSuspendThresholdNs
  then Error (clock_error EINVAL (lit "CLOCK_BOOTTIME advanced less than CLOCK_MONOTONIC by "
              ++ int_to_dec (i64 (- suspended)) ++ lit "ns, far beyond the skew between two reads"))
  else Value {| elapsed_raw_ns := raw; elapsed_running_ns := running; suspended_ns := suspended |}.

Section Clock.
Context {S : Type} (read_clock : Z → S → Result TimeSpec SyscallError * S).

Definition CLOCK_MONOTONIC : Z := 1.
Definition CLOCK_MONOTONIC_RAW : Z := 4.
Definition CLOCK_BOOTTIME : Z := 7.

Definition read_nanoseconds (id : Z) (s : S) : Result Z SyscallError * S :=
  let '(value, s) := read_clock id s in
  (let? v := value in to_nanoseconds v id, s).

(** The three readings in their order, stopping at the first that fails. *)
Definition clock_now (s : S) : Result TimePoint SyscallError * S :=
  let '(raw, s) := read_nanoseconds CLOCK_MONOTONIC_RAW s in
  match raw with Error e => (Error e, s) | Value raw =>
  let '(running, s) := read_nanoseconds CLOCK_MONOTONIC s in
  match running with Error e => (Error e, s) | Value running =>
  let '(wall, s) := read_nanoseconds CLOCK_BOOTTIME s in
  match wall with Error e => (Error e, s) | Value wall =>
  (Value {| raw_ns := raw; running_ns := running; wall_ns := wall |}, s)
  end end end.
End Clock.


(** A reading the clock accepts is its exact number of nanoseconds, in range. *)
Lemma to_nanoseconds_value v id ns :
  to_nanoseconds v id = Value ns ↔
  0 ≤ nanoseconds v < kNanosecondsPerSecond ∧ 0 ≤ seconds v ≤ kMaxSeconds ∧
  ns = seconds v * kNanosecondsPerSecond + nanoseconds v.
Proof.
  unfold to_nanoseconds, kNanosecondsPerSecond, kMaxSeconds. split.
  - repeat (case_match; try done). intros [= <-]. bool_facts. split; [lia|]. split; [lia|].
    rewrite !i64_small by (unfold in_i64; rewrite ?i64_small by (unfold in_i64; lia); lia). done.
  - intros (Hn & Hs & ->). rewrite (proj2 (Z.ltb_ge _ _)), (proj2 (Z.leb_gt _ _)) by lia. cbn [orb].
    rewrite !(proj2 (Z.ltb_ge _ _)) by lia.
    rewrite !i64_small by (unfold in_i64; rewrite ?i64_small by (unfold in_i64; lia); lia). done.
Qed.

(** A point whose readings came from [to_nanoseconds]. *)
Definition point_ok (p : TimePoint) : Prop :=
  0 ≤ raw_ns p < 2 ^ 63 ∧ 0 ≤ running_ns p < 2 ^ 63 ∧ 0 ≤ wall_ns p < 2 ^ 63.

Lemma forward_difference_value a b w d :
  0 ≤ a < 2 ^ 63 → 0 ≤ b < 2 ^ 63 →
  forward_difference a b w = Value d ↔ a ≤ b ∧ d = b - a.
Proof.
  intros Ha Hb. unfold forward_difference. destruct (Z.ltb_spec b a); (split; [intros [=]|]).
  - lia.
  - subst. rewrite i64_small by (unfold in_i64; lia). lia.
  - intros [? ->]. by rewrite i64_small by (unfold in_i64; lia).
Qed.

(** ** worker_pool.cpp *)

Record WorkerDeath := { death_slot : nat; death_pid : Z; death_status : Z }.

(** SpawnOutcome: the supervisor with its pids, or the child in its slot. *)
Inductive SpawnOutcome := Supervisor (pids : list Z) | Worker (slot : nat).

(** The calls the pool makes, over the state of the kernel. *)
Class ProcessCalls (K : Type) := {
  fork_worker : K → Result Z SyscallError * K;   (** 0 in the child *)
  wait_any : K → Result Reaped SyscallError * K;
  reap_any_nonblocking : K → Result (option Reaped) SyscallError * K;
  send_signal : Z → Z → K → Result unit SyscallError * K;
}.

Record WorkerPool := { pids_ : list Z; live_ : Z }.

Definition kPoolMaxConsecutiveInterrupts : Z := 128.

Section WorkerPool.
Context {K : Type} `{ProcessCalls K}.

Definition claim (child : Reaped) (p : WorkerPool) : option WorkerDeath * WorkerPool :=
  match list_find (λ pid, pid ≠ 0 ∧ pid = reaped_pid child) (pids_ p) with
  | None => (None, p)
  | Some (slot, _) =>
    (Some {| death_slot := slot; death_pid := reaped_pid child; death_status := reaped_status child |},
     {| pids_ := <[slot := 0]> (pids_ p); live_ := u64 (live_ p - 1) |})
  end.

Definition interrupted_wait (interrupts : Z) : SyscallError :=
  {| number_ := EINTR; call := lit "waitpid";
     subject := lit "abandoned after " ++ int_to_dec interrupts
                ++ lit " consecutive interruptions" |}.

(** The loop of wait_for_next; [None] is the loop not done within the fuel. *)
Fixpoint wait_loop (fuel : nat) (interrupts : Z) (p : WorkerPool) (s : K) :
    option (Result WorkerDeath SyscallError * WorkerPool * K) :=
  match fuel with
  | O => None
  | S fuel =>
    let '(reaped, s) := wait_any s in
    match reaped with
    | Error e =>
      if number_ e =? EINTR then
        let interrupts := interrupts + 1 in
        if interrupts <? kPoolMaxConsecutiveInterrupts then wait_loop fuel interrupts p s
        else Some (Error (interrupted_wait interrupts), p, s)
      else Some (Error e, p, s)
    | Value child =>
      let '(death, p) := claim child p in
      match death with
      | Some d => Some (Value d, p, s)
      | None => wait_loop fuel 0 p s
      end
    end
  end.

Definition wait_for_next (fuel : nat) := wait_loop fuel 0.

Fixpoint reap_next_nonblocking (fuel : nat) (p : WorkerPool) (s : K) :
    option (Result (option WorkerDeath) SyscallError * WorkerPool * K) :=
  match fuel with
  | O => None
  | S fuel =>
    let '(reaped, s) := reap_any_nonblocking s in
    match reaped with
    | Error e => Some (Error e, p, s)
    | Value None => Some (Value None, p, s)
    | Value (Some child) =>
      let '(death, p) := claim child p in
      match death with
      | Some d => Some (Value (Some d), p, s)
      | None => reap_next_nonblocking fuel p s
      end
    end
  end.

(** The loop of signal_all; [first] is the first failure so far. *)
Fixpoint signal_pids (signal : Z) (pids : list Z) (first : option SyscallError) (s : K) :
    option SyscallError * K :=
  match pids with
  | [] => (first, s)
  | pid :: pids =>
    if pid =? 0 then signal_pids signal pids first s else
    let '(sent, s) := send_signal pid signal s in
    let first := match sent, first with
                 | Error e, None => if negb (number_ e =? ESRCH) then Some e else None
                 | _, _ => first
                 end in
    signal_pids signal pids first s
  end.

Definition signal_all (signal : Z) (p : WorkerPool) (s : K) : Result unit SyscallError * K :=
  let '(first, s) := signal_pids signal (pids_ p) None s in
  (match first with Some e => Error e | None => Value tt end, s).

(** The loop [while (live_ > 0)]; a wait that fails ends it. *)
Fixpoint unwind_waits (fuel wait_fuel : nat) (p : WorkerPool) (s : K) : option (WorkerPool * K) :=
  if 0 <? live_ p then
    match fuel with
    | O => None
    | S fuel =>
      '(reaped, p, s) ← wait_for_next wait_fuel p s;
      match reaped with
      | Error _ => Some (p, s)
      | Value _ => unwind_waits fuel wait_fuel p s
      end
    end
  else Some (p, s).

Definition unwind_partial_spawn (fuel : nat) (p : WorkerPool) (s : K) : option (WorkerPool * K) :=
  let '(_, s) := signal_all SIGKILL p s in
  '(p, s) ← unwind_waits (Z.to_nat (live_ p)) fuel p s;
  Some ({| pids_ := []; live_ := live_ p |}, s).

(** The loop over the slots from [slot] on; [observe] is [after_launch], which an
    empty observer makes always succeed. *)
Fixpoint spawn_slots (fuel count slot : nat) (observe : nat → Z → K → Result unit SyscallError * K)
    (p : WorkerPool) (s : K) : option (Result SpawnOutcome SyscallError * WorkerPool * K) :=
  match count with
  | O => Some (Value (Supervisor (pids_ p)), p, s)
  | S count =>
    let '(forked, s) := fork_worker s in
    match forked with
    | Error e =>
      '(p, s) ← unwind_partial_spawn fuel p s; Some (Error e, p, s)
    | Value pid =>
      if pid =? 0 then Some (Value (Worker slot), p, s) else
      let p := {| pids_ := <[slot := pid]> (pids_ p); live_ := u64 (live_ p + 1) |} in
      let '(observed, s) := observe slot pid s in
      match observed with
      | Error e => '(p, s) ← unwind_partial_spawn fuel p s; Some (Error e, p, s)
      | Value _ => spawn_slots fuel count (S slot) observe p s
      end
    end
  end.

Definition spawn (fuel workers : nat) observe (s : K) :
    option (Result SpawnOutcome SyscallError * WorkerPool * K) :=
  spawn_slots fuel workers 0 observe {| pids_ := replicate workers 0; live_ := 0 |} s.

Definition pid_at (slot : nat) (p : WorkerPool) : Z :=
  if (slot <? length (pids_ p))%nat then nth slot (pids_ p) 0 else 0.
End WorkerPool.

(** *** The pool's accounting *)

(** The processes a pool still has: the pids not yet zeroed. *)
Definition alive (pids : list Z) : list Z := filter (λ pid, pid ≠ 0) pids.

Record pool_ok (p : WorkerPool) : Prop := {
  pool_live : live_ p = Z.of_nat (length (alive (pids_ p)));
  pool_distinct : NoDup (alive (pids_ p));
  pool_size : Z.of_nat (length (pids_ p)) < 2 ^ 63;
}.

Lemma alive_app l k : alive (l ++ k) = alive l ++ alive k.
Proof. apply filter_app. Qed.

Lemma alive_cons_ne pid l : pid ≠ 0 → alive (pid :: l) = pid :: alive l.
Proof. intros. unfold alive. by rewrite filter_cons_True. Qed.

Lemma alive_cons_0 l : alive (0 :: l) = alive l.
Proof. unfold alive. rewrite filter_cons_False; [done|]. by intros []. Qed.

Lemma length_alive l : (length (alive l) ≤ length l)%nat.
Proof. apply length_filter. Qed.

Lemma elem_alive pid l : pid ∈ alive l ↔ pid ≠ 0 ∧ pid ∈ l.
Proof. unfold alive. by rewrite list_elem_of_filter. Qed.

Lemma pool_ok_clear p slot pid :
  pool_ok p → pids_ p !! slot = Some pid → pid ≠ 0 →
  pool_ok {| pids_ := <[slot := 0]> (pids_ p); live_ := u64 (live_ p - 1) |} ∧
  (pid ∉ <[slot := 0]> (pids_ p)) ∧ 1 ≤ live_ p.
Proof.
  intros [Hl Hd Hs] Hp Hne. pose proof (lookup_lt_Some _ _ _ Hp) as Hlt.
  rewrite <- (take_drop_middle (pids_ p) slot pid) in Hl, Hd by done.
  rewrite alive_app, alive_cons_ne in Hl, Hd by done.
  assert (Hc : <[slot := 0]> (pids_ p) = take slot (pids_ p) ++ 0 :: drop (S slot) (pids_ p))
    by by apply insert_take_drop.
  assert (Hal : alive (<[slot := 0]> (pids_ p))
              = alive (take slot (pids_ p)) ++ alive (drop (S slot) (pids_ p)))
    by by rewrite Hc, alive_app, alive_cons_0.
  rewrite length_app in Hl. cbn [length] in Hl.
  pose proof (length_alive (take slot (pids_ p))). pose proof (length_alive (drop (S slot) (pids_ p))).
  rewrite length_take in *. rewrite length_drop in *.
  apply NoDup_app in Hd as (Hd1 & Hd2 & Hd3). apply NoDup_cons in Hd3 as [Hd4 Hd5].
  split_and!.
  - split; cbn [pids_ live_].
    + rewrite Hal, length_app, u64_small by (unfold in_u64; lia). lia.
    + rewrite Hal. apply NoDup_app. split_and!; [done| |done].
      intros x Hx Hx'. apply (Hd2 x Hx). by apply list_elem_of_further.
    + by rewrite length_insert.
  - rewrite Hc. intros [Hi|[Hi|Hi]%elem_of_cons]%elem_of_app; [|done|].
    + apply (Hd2 pid); [by apply elem_alive|by apply list_elem_of_here].
    + apply Hd4. by apply elem_alive.
  - lia.
Qed.

Lemma claim_spec child p r p' :
  pool_ok p → claim child p = (r, p') →
  pool_ok p' ∧
  match r with
  | Some d =>
    pids_ p !! death_slot d = Some (reaped_pid child) ∧ death_pid d = reaped_pid child ∧
    death_status d = reaped_status child ∧ pids_ p' = <[death_slot d := 0]> (pids_ p) ∧
    (reaped_pid child ∉ pids_ p') ∧ live_ p' = live_ p - 1
  | None => p' = p ∧ reaped_pid child ∉ alive (pids_ p)
  end.
Proof.
  intros Hok. unfold claim. destruct (list_find _ _) as [[slot pid]|] eqn:E; intros [= <- <-].
  - apply list_find_Some in E as (Hp & [Hne ->] & _).
    destruct (pool_ok_clear p slot _ Hok Hp Hne) as (Hok' & Hnot & Hpos).
    split; [done|]. cbn. split_and!; try done.
    destruct Hok as [Hl _ Hs]. rewrite u64_small; [done|].
    pose proof (length_alive (pids_ p)). unfold in_u64. lia.
  - split; [done|]. split; [done|]. intros [Hne Hin]%elem_alive.
    apply list_find_None in E. rewrite Forall_forall in E. by apply (E _ Hin).
Qed.

Lemma alive_clear slot l x : x ∈ alive (<[slot := 0]> l) → x ∈ alive l.
Proof.
  intros [Hx Hin]%elem_alive. apply elem_alive. split; [done|].
  apply list_elem_of_lookup in Hin as [j Hj].
  destruct (decide (j = slot)) as [->|]; [|rewrite list_lookup_insert_ne in Hj by done;
                                           by eapply list_elem_of_lookup_2].
  destruct (decide (slot < length l)%nat) as [Hlt|Hge].
  - rewrite list_lookup_insert_eq in Hj by done. congruence.
  - rewrite list_insert_ge in Hj by lia. by eapply list_elem_of_lookup_2.
Qed.

(** Claiming a reaped child leaves no pid the kernel does not have. *)
Lemma claim_alive child p r p' k k' :
  pool_ok p → alive (pids_ p) ⊆ k → k ≡ₚ reaped_pid child :: k' →
  claim child p = (r, p') → alive (pids_ p') ⊆ k'.
Proof.
  intros Hok Hk Hp Hc x Hx. destruct (claim_spec _ _ _ _ Hok Hc) as [_ Hs].
  assert (Hin : x ∈ alive (pids_ p) ∧ x ≠ reaped_pid child).
  { destruct r as [d|].
    - destruct Hs as (_ & _ & _ & Hps & Hnot & _). split.
      + rewrite Hps in Hx. by eapply alive_clear.
      + intros ->. apply Hnot. by apply elem_alive in Hx as [_ ?].
    - destruct Hs as [-> Hnot]. split; [done|]. by intros ->. }
  destruct Hin as [Hin Hne]. pose proof (Hk x Hin) as Hxk. rewrite Hp in Hxk.
  by apply elem_of_cons in Hxk as [->|].
Qed.

Lemma claim_pid child p d p' :
  claim child p = (Some d, p') → death_pid d ≠ 0.
Proof.
  unfold claim. destruct (list_find _ _) as [[slot pid]|] eqn:Ef; [|done]. intros [= <- <-].
  by apply list_find_Some in Ef as (_ & [Hne ->] & _).
Qed.

(** fork(2), wait(2) and kill(2) as documented: [kids] are the children not yet
    reaped, [forked] the children there have ever been and [sent] the signals sent, both
    oldest first, and [interrupted] the waits interrupted by a signal since the last call
    that was not. A wait fails when it is interrupted, or when there is no child left to
    wait for. *)
Class ProcessLaws (K : Type) `{ProcessCalls K} := {
  kids : K → list Z;
  forked : K → list Z;
  sent : K → list (Z * Z);
  interrupted : K → nat;
  fork_parent s pid s' :
    fork_worker s = (Value pid, s') → pid ≠ 0 →
    (pid ∉ kids s) ∧ kids s' = pid :: kids s ∧ forked s' = forked s ++ [pid] ∧ sent s' = sent s;
  fork_failed s e s' :
    fork_worker s = (Error e, s') → kids s' = kids s ∧ forked s' = forked s ∧ sent s' = sent s;
  wait_reaps s child s' :
    wait_any s = (Value child, s') →
    kids s ≡ₚ reaped_pid child :: kids s' ∧ forked s' = forked s ∧ sent s' = sent s ∧ interrupted s' = 0%nat;
  wait_failed s e s' :
    wait_any s = (Error e, s') →
    (kids s' = kids s ∧ forked s' = forked s ∧ sent s' = sent s) ∧
    if number_ e =? EINTR then interrupted s' = S (interrupted s) else kids s = [];
  signal_sends pid signal s r s' :
    send_signal pid signal s = (r, s') →
    kids s' = kids s ∧ forked s' = forked s ∧ sent s' = sent s ++ [(pid, signal)] ∧ interrupted s' = 0%nat;
}.

Section Waiting.
Context {K : Type} `{ProcessLaws K}.

(** The kernel's children include the pool's. *)
Definition knows (p : WorkerPool) (s : K) : Prop :=
  pool_ok p ∧ alive (pids_ p) ⊆ kids s ∧ NoDup (kids s).

(** Enough turns for every child and every interruption between them. *)
Definition wait_turns (s : K) : nat := 128 * (length (kids s) + 1).

(** Why a wait gives up: there is no child, or it was interrupted time and again. *)
Definition waiting_over (s : K) : Prop :=
  kids s = [] ∨ kPoolMaxConsecutiveInterrupts ≤ Z.of_nat (interrupted s).

Lemma wait_loop_spec fuel i p s :
  knows p s → 0 ≤ i < kPoolMaxConsecutiveInterrupts → i ≤ Z.of_nat (interrupted s) →
  (128 * length (kids s) + Z.to_nat (kPoolMaxConsecutiveInterrupts - i) ≤ fuel)%nat →
  ∃ r p' s', wait_loop fuel i p s = Some (r, p', s') ∧ knows p' s' ∧
    (forked s' = forked s ∧ sent s' = sent s) ∧ kids s' ⊆ kids s ∧ (length (kids s') ≤ length (kids s))%nat ∧
    match r with
    | Value d => pids_ p !! death_slot d = Some (death_pid d) ∧ death_pid d ≠ 0 ∧
                 pids_ p' = <[death_slot d := 0]> (pids_ p) ∧ (death_pid d ∉ pids_ p') ∧
                 live_ p' = live_ p - 1 ∧ (death_pid d ∉ kids s')
    | Error _ => p' = p ∧ waiting_over s'
    end.
Proof.
  unfold kPoolMaxConsecutiveInterrupts. revert i p s.
  induction fuel as [|fuel IH]; intros i p s (Hok & Hk & Hnd) Hi Hcount Hf; [lia|]. cbn [wait_loop].
  destruct (wait_any s) as [[child|e] s1] eqn:E.
  - destruct (wait_reaps _ _ _ E) as (Hkids & Hforked & Hsent & Hzero).
    assert (Hsub : kids s1 ⊆ kids s) by (intros x Hx; rewrite Hkids; by apply list_elem_of_further).
    pose proof (Permutation_length Hkids) as Hlen. cbn [length] in Hlen.
    assert (Hnd1 := Hnd). rewrite Hkids in Hnd1. apply NoDup_cons in Hnd1 as [Hnk Hnd1].
    destruct (claim child p) as [r p1] eqn:Ec.
    destruct (claim_spec _ _ _ _ Hok Ec) as [Hok' Hc].
    pose proof (claim_alive _ _ _ _ _ _ Hok Hk Hkids Ec) as Hk1.
    destruct r as [d|].
    + destruct Hc as (Hp & Hpid & Hst & Hps & Hnot & Hl). rewrite <- Hpid in *.
      pose proof (claim_pid _ _ _ _ Ec). eexists _, _, _. split_and!; try done; lia.
    + destruct Hc as [-> Hnot].
      destruct (IH 0 p s1) as (r & p' & s' & Hr & Hk' & [Hf' Hs'] & Hsub' & Hlen' & Hm); [done|lia..|].
      exists r, p', s'. split_and!; try done; [congruence|congruence|by etrans|lia].
  - destruct (wait_failed _ _ _ E) as [(Hkids & Hforked & Hsent) Hwhy].
    assert (Hk1 : knows p s1) by (split; [done|by rewrite Hkids]).
    assert (Hdone : ∀ e', waiting_over s1 →
      ∃ r p' s', Some (@Error WorkerDeath SyscallError e', p, s1) = Some (r, p', s') ∧ knows p' s' ∧
      (forked s' = forked s ∧ sent s' = sent s) ∧ kids s' ⊆ kids s ∧ (length (kids s') ≤ length (kids s))%nat ∧
      match r with Value d => False | Error _ => p' = p ∧ waiting_over s' end).
    { intros e' Hover. eexists _, _, _. split; [done|]. rewrite Hkids. split_and!; eauto. }
    destruct (number_ e =? EINTR).
    2: { destruct (Hdone e) as (r & p' & s' & ? & ? & [? ?] & ? & ? & ?); [left; by rewrite Hkids|].
         exists r, p', s'. split_and!; try done. by destruct r. }
    unfold kPoolMaxConsecutiveInterrupts. cbv zeta.
    destruct (Z.ltb_spec (i + 1) 128).
    + destruct (IH (i + 1) p s1 Hk1) as (r & p' & s' & Hr & Hk' & [Hf' Hs'] & Hsub' & Hlen' & Hm);
        [lia|lia|rewrite Hkids; lia|].
      exists r, p', s'. rewrite Hkids in *. split_and!; done || congruence.
    + destruct (Hdone (interrupted_wait (i + 1))) as (r & p' & s' & ? & ? & [? ?] & ? & ? & ?);
        [right; unfold kPoolMaxConsecutiveInterrupts; lia|].
      exists r, p', s'. split_and!; try done. by destruct r.
Qed.

(** The loop of the unwinding reaps every worker the pool has, unless it is
    interrupted time and again. *)
Lemma unwind_waits_spec fuel wait_fuel p s :
  knows p s → (wait_turns s ≤ wait_fuel)%nat → live_ p ≤ Z.of_nat fuel →
  ∃ p' s', unwind_waits fuel wait_fuel p s = Some (p', s') ∧ knows p' s' ∧
    (forked s' = forked s ∧ sent s' = sent s) ∧ kids s' ⊆ kids s ∧
    (∀ x, x ∈ alive (pids_ p) → x ∈ alive (pids_ p') ∨ (x ∉ kids s')) ∧
    (live_ p' = 0 ∨ kPoolMaxConsecutiveInterrupts ≤ Z.of_nat (interrupted s')).
Proof.
  revert p s. induction fuel as [|fuel IH]; intros p s Hk Hw Hl; cbn [unwind_waits];
    destruct (Z.ltb_spec 0 (live_ p)) as [Hpos|Hz]; try lia.
  1, 3: exists p, s; split_and!; try done; [by left|];
    left; destruct Hk as [[Hlv _ _] _]; lia.
  destruct (wait_loop_spec wait_fuel 0 p s Hk) as (r & p1 & s1 & Hr & Hk1 & [Hf1 Hs1] & Hsub & Hlen & Hm);
    [done|lia|unfold wait_turns, kPoolMaxConsecutiveInterrupts in *; lia|].
  unfold wait_for_next. rewrite Hr. cbn [mbind option_bind]. destruct r as [d|e].
  - destruct Hm as (Hp & Hne & Hps & Hnot & Hlive & Hgone).
    destruct (IH p1 s1 Hk1) as (p' & s' & Hu & Hk' & [Hf' Hs'] & Hsub' & Hall & Hrel);
      [unfold wait_turns in *; lia|lia|].
    exists p', s'. split_and!; try done; [congruence..|by etrans|].
    intros x Hx. destruct (decide (x = death_pid d)) as [->|Hxd].
    { right. intros Hin. by apply Hgone, Hsub'. }
    apply Hall. apply elem_alive in Hx as [Hx0 Hx]. apply elem_alive. split; [done|].
    rewrite Hps. apply list_elem_of_lookup in Hx as [j Hj].
    apply (list_elem_of_lookup_2 _ j). rewrite list_lookup_insert_ne; [done|]. intros <-. congruence.
  - destruct Hm as [-> Hover]. exists p, s1. split_and!; try done; [by left|].
    destruct Hover as [Hnil|]; [|by right].
    destruct Hk1 as ([Hlv _ _] & Hsubk & _). rewrite Hnil in Hsubk.
    destruct (alive (pids_ p)) as [|x l]; [simpl in *; lia|].
    pose proof (Hsubk x ltac:(by apply list_elem_of_here)) as Hx. by apply elem_of_nil in Hx.
Qed.

Lemma signal_pids_sent signal pids first s e s' :
  signal_pids signal pids first s = (e, s') →
  sent s' = sent s ++ ((λ pid, (pid, signal)) <$> alive pids) ∧ kids s' = kids s ∧ forked s' = forked s.
Proof.
  revert first s. induction pids as [|pid pids IH]; intros first s; cbn [signal_pids].
  { intros [= <- <-]. by rewrite app_nil_r. }
  destruct (Z.eqb_spec pid 0) as [->|Hne]; [rewrite alive_cons_0; apply IH|].
  rewrite alive_cons_ne by done. destruct (send_signal pid signal s) as [r s1] eqn:E.
  destruct (signal_sends _ _ _ _ _ E) as (Hk & Hf & Hs & _). intros (Hs' & Hk' & Hf')%IH.
  rewrite Hs', Hk', Hf', Hs, Hk, Hf, <- app_assoc. done.
Qed.

(** Unwinding sends SIGKILL to every launched worker, and reaps them all unless it is
    interrupted time and again. *)
Lemma unwind_spec fuel p s :
  knows p s → (wait_turns s ≤ fuel)%nat →
  ∃ p' s', unwind_partial_spawn fuel p s = Some (p', s') ∧ pids_ p' = [] ∧
    forked s' = forked s ∧ sent s' = sent s ++ ((λ pid, (pid, SIGKILL)) <$> alive (pids_ p)) ∧ kids s' ⊆ kids s ∧
    (live_ p' = 0 ∧ (∀ x, x ∈ alive (pids_ p) → x ∉ kids s') ∨
     kPoolMaxConsecutiveInterrupts ≤ Z.of_nat (interrupted s')).
Proof.
  intros Hk Hf. unfold unwind_partial_spawn, signal_all.
  destruct (signal_pids SIGKILL (pids_ p) None s) as [e s1] eqn:E.
  destruct (signal_pids_sent _ _ _ _ _ _ E) as (Hs1 & Hk1 & Hf1).
  assert (Hkn : knows p s1) by (destruct Hk; split; [done|by rewrite Hk1]).
  destruct (unwind_waits_spec (Z.to_nat (live_ p)) fuel p s1 Hkn)
    as (p' & s' & -> & Hk' & [Hf' Hs'] & Hsub & Hall & Hrel); [unfold wait_turns in *; by rewrite Hk1|lia|].
  cbn [mbind option_bind]. eexists _, s'. split; [done|]. split; [done|].
  rewrite Hf', Hf1, Hs', Hs1, <- Hk1. split_and!; [done..|]. destruct Hrel as [Hrel|]; [left|by right].
  split; [done|]. intros x [Hx|Hx]%Hall; [|done].
  destruct Hk' as ([Hl _ _] & _ & _). rewrite Hrel in Hl.
  destruct (alive (pids_ p')); [by apply elem_of_nil in Hx|simpl in Hl; lia].
Qed.

(** *** Spawning *)

(** The pool in the middle of a spawn: [l] launched, [count] slots to go, [k0] the
    children there were before and [f0] all there had been. *)
Definition spawning (l : list Z) (count : nat) (k0 f0 : list Z) (p : WorkerPool) (s : K) : Prop :=
  pids_ p = l ++ replicate count 0 ∧ live_ p = Z.of_nat (length l) ∧
  Forall (λ pid, pid ≠ 0) l ∧ kids s ≡ₚ l ++ k0 ∧ NoDup (kids s) ∧
  Z.of_nat (length l + count) < 2 ^ 63 ∧ forked s = f0 ++ l.

Lemma alive_all l : Forall (λ pid, pid ≠ 0) l → alive l = l.
Proof. induction 1; [done|]. rewrite alive_cons_ne by done. by f_equal. Qed.

Lemma alive_replicate n : alive (replicate n 0) = [].
Proof. induction n; [done|]. simpl. by rewrite alive_cons_0. Qed.

Lemma spawning_knows l count k0 f0 p s :
  spawning l count k0 f0 p s → knows p s ∧ alive (pids_ p) = l.
Proof.
  intros (Hp & Hl & Hne & Hk & Hnd & Hsz & _).
  assert (Ha : alive (pids_ p) = l) by by rewrite Hp, alive_app, alive_all, alive_replicate, app_nil_r.
  split; [|done]. split_and!; [split|..|done]; rewrite ?Ha; try done.
  - rewrite Hk in Hnd. by apply NoDup_app in Hnd as [? _].
  - rewrite Hp, length_app, length_replicate. lia.
  - intros x Hx. rewrite Hk. apply elem_of_app. by left.
Qed.

(** What a spawn that failed leaves: every process it had forked, sent SIGKILL, and each
    of them reaped - unless the waiting was interrupted time and again. *)
Definition unwound (k0 f0 : list Z) (sent0 : list (Z * Z)) (p' : WorkerPool) (s' : K) : Prop :=
  pids_ p' = [] ∧
  (∃ launched, forked s' = f0 ++ launched ∧ sent s' = sent0 ++ ((λ pid, (pid, SIGKILL)) <$> launched)) ∧
  (live_ p' = 0 ∧ kids s' ⊆ k0 ∨ kPoolMaxConsecutiveInterrupts ≤ Z.of_nat (interrupted s')).

Lemma spawning_failed fuel l count k0 f0 p s :
  spawning l count k0 f0 p s → (wait_turns s ≤ fuel)%nat →
  ∃ p' s', unwind_partial_spawn fuel p s = Some (p', s') ∧ unwound k0 f0 (sent s) p' s'.
Proof.
  intros Hs Hf. destruct (spawning_knows _ _ _ _ _ _ Hs) as [Hk Ha].
  destruct (unwind_spec fuel p s Hk Hf) as (p' & s' & Hu & Hp & Hforked & Hsent & Hsub & Hrel).
  rewrite Ha in *. destruct Hs as (_ & _ & _ & Hkids & _ & _ & Hf0).
  exists p', s'. split; [done|]. split; [done|]. split; [exists l; by rewrite Hforked|].
  destruct Hrel as [[Hl Hgone]|]; [left|by right]. split; [done|]. intros x Hx.
  pose proof (Hsub x Hx) as Hin. rewrite Hkids in Hin.
  apply elem_of_app in Hin as [Hin|]; [|done]. by destruct (Hgone x Hin).
Qed.

Lemma spawning_launch l count k0 f0 p s pid s' :
  spawning l (S count) k0 f0 p s → fork_worker s = (Value pid, s') → pid ≠ 0 →
  spawning (l ++ [pid]) count k0 f0
    {| pids_ := <[length l := pid]> (pids_ p); live_ := u64 (live_ p + 1) |} s' ∧ sent s' = sent s.
Proof.
  intros (Hp & Hl & Hne & Hk & Hnd & Hsz & Hf0) Hf Hpid.
  destruct (fork_parent _ _ _ Hf Hpid) as (Hnew & Hk' & Hf' & Hs'). split; [|done].
  unfold spawning; cbn [pids_ live_]. rewrite length_app; cbn [length]. split_and!.
  - rewrite Hp, insert_app_r_alt by lia. rewrite Nat.sub_diag. simpl. by rewrite <- app_assoc.
  - rewrite Hl, u64_small by (unfold in_u64; lia). lia.
  - apply Forall_app_2; [done|by constructor].
  - rewrite Hk', Hk. rewrite <- app_assoc. apply Permutation_middle.
  - rewrite Hk'. by constructor.
  - lia.
  - by rewrite Hf', Hf0, <- app_assoc.
Qed.

(** What a spawn comes to. *)
Definition spawned (slot workers : nat) (k0 f0 : list Z) (sent0 : list (Z * Z))
    (r : Result SpawnOutcome SyscallError) (p' : WorkerPool) (s' : K) : Prop :=
  match r with
  | Value (Supervisor pids) =>
    pids = pids_ p' ∧ length pids = workers ∧ Forall (λ pid, pid ≠ 0) pids ∧
    live_ p' = Z.of_nat workers ∧ knows p' s' ∧ kids s' ≡ₚ pids ++ k0 ∧ forked s' = f0 ++ pids ∧ sent s' = sent0
  | Value (Worker k) => (slot ≤ k < workers)%nat
  | Error _ => unwound k0 f0 sent0 p' s'
  end.

(** An observer leaves the processes alone. *)
Definition leaves_processes (observe : nat → Z → K → Result unit SyscallError * K) : Prop :=
  ∀ k pid s r s', observe k pid s = (r, s') → kids s' = kids s ∧ forked s' = forked s ∧ sent s' = sent s.

Lemma spawn_slots_spec observe fuel count l k0 f0 p s :
  leaves_processes observe →
  spawning l count k0 f0 p s → (128 * (length l + count + length k0 + 1) ≤ fuel)%nat →
  ∃ r p' s', spawn_slots fuel count (length l) observe p s = Some (r, p', s') ∧
             spawned (length l) (length l + count) k0 f0 (sent s) r p' s'.
Proof.
  intros Hob. revert l p s. induction count as [|count IH]; intros l p s Hs Hf; cbn [spawn_slots].
  - eexists _, p, s. split; [done|]. destruct (spawning_knows _ _ _ _ _ _ Hs) as [Hk _].
    destruct Hs as (Hp & Hl & Hne & Hkids & _ & _ & Hf0). simpl in Hp. rewrite app_nil_r in Hp.
    simpl. rewrite Hp, Nat.add_0_r. by split_and!.
  - assert (Hturn : ∀ l' n p' s', spawning l' n k0 f0 p' s' → (length l' ≤ length l + 1)%nat →
      (wait_turns s' ≤ fuel)%nat).
    { intros l' n p' s' (_ & _ & _ & Hk & _) Hl'. apply Permutation_length in Hk.
      rewrite length_app in Hk. unfold wait_turns. lia. }
    destruct (fork_worker s) as [[pid|e] s1] eqn:E.
    + destruct (Z.eqb_spec pid 0) as [->|Hpid].
      { eexists _, _, _. split; [done|]. simpl. lia. }
      destruct (spawning_launch _ _ _ _ _ _ _ _ Hs E Hpid) as [Hs1 Hsent]. cbv zeta.
      destruct (observe (length l) pid s1) as [[u|e] s2] eqn:Eo; destruct (Hob _ _ _ _ _ Eo) as (Hk2 & Hf2 & Hs2);
        assert (Hsp : spawning (l ++ [pid]) count k0 f0
                  {| pids_ := <[length l := pid]> (pids_ p); live_ := u64 (live_ p + 1) |} s2)
          by (unfold spawning in *; by rewrite Hk2, Hf2).
      * destruct (IH _ _ s2 Hsp) as (r & p' & s' & Hr & Hsw); [rewrite length_app; simpl; lia|].
        rewrite length_app in Hr, Hsw. cbn [length] in Hr, Hsw.
        replace (length l + 1)%nat with (S (length l)) in Hr by lia.
        exists r, p', s'. split; [done|]. rewrite Hs2, Hsent in Hsw.
        replace (length l + 1 + count)%nat with (length l + S count)%nat in Hsw by lia.
        destruct r as [[pids|k]|e]; simpl in *; [done|lia|done].
      * destruct (spawning_failed fuel _ _ _ _ _ _ Hsp) as (p' & s' & Hu & Hw);
          [eapply Hturn; [done|rewrite length_app; simpl; lia]|].
        rewrite Hu. cbn [mbind option_bind]. eexists _, p', s'. split; [done|].
        cbn [spawned]. by rewrite <- Hsent, <- Hs2.
    + destruct (fork_failed _ _ _ E) as (Hk1 & Hf1 & Hsent).
      assert (Hsp : spawning l (S count) k0 f0 p s1) by (unfold spawning in *; by rewrite Hk1, Hf1).
      destruct (spawning_failed fuel _ _ _ _ _ _ Hsp) as (p' & s' & Hu & Hw);
        [eapply Hturn; [done|lia]|].
      rewrite Hu. cbn [mbind option_bind]. eexists _, p', s'. split; [done|].
      cbn [spawned]. by rewrite <- Hsent.
Qed.
End Waiting.

(** *** A kernel of processes *)

Record Kernel := {
  k_kids : list Z; k_forked : list Z; k_sent : list (Z * Z); k_room : nat;
  (** The waits that are interrupted before the next child ends, and those that were. *)
  k_signals : nat; k_interrupted : nat;
}.

Definition kernel (kids : list Z) (room signals : nat) : Kernel :=
  {| k_kids := kids; k_forked := kids; k_sent := []; k_room := room; k_signals := signals; k_interrupted := 0 |}.

Definition fresh_pid (l : list Z) : Z := 1 + foldr Z.max 0 l.

Lemma fresh_pid_gt l x : x ∈ l → x < fresh_pid l.
Proof.
  unfold fresh_pid. induction l as [|y l IH]; [by intros ?%elem_of_nil|].
  intros [->|Hx]%elem_of_cons; simpl; [lia|]. specialize (IH Hx). lia.
Qed.

(** fork(2) fails once [k_room] is used up; [k_signals] waits are interrupted, and then
    children end in the order of the list, each with exit code 0. *)
#[export] Instance kernel_calls : ProcessCalls Kernel := {|
  fork_worker k :=
    match k_room k with
    | O => (Error {| number_ := 11; call := lit "fork"; subject := lit "worker process" |}, k)
    | S room =>
      let pid := fresh_pid (k_kids k) in
      (Value pid,
       {| k_kids := pid :: k_kids k; k_forked := k_forked k ++ [pid]; k_sent := k_sent k; k_room := room;
          k_signals := k_signals k; k_interrupted := k_interrupted k |})
    end;
  wait_any k :=
    match k_signals k, k_kids k with
    | S signals, _ =>
      (Error {| number_ := EINTR; call := lit "waitpid"; subject := [] |},
       {| k_kids := k_kids k; k_forked := k_forked k; k_sent := k_sent k; k_room := k_room k;
          k_signals := signals; k_interrupted := S (k_interrupted k) |})
    | O, [] => (Error {| number_ := ECHILD; call := lit "waitpid"; subject := [] |}, k)
    | O, pid :: l =>
      (Value {| reaped_pid := pid; reaped_status := 0 |},
       {| k_kids := l; k_forked := k_forked k; k_sent := k_sent k; k_room := k_room k;
          k_signals := 0; k_interrupted := 0 |})
    end;
  reap_any_nonblocking k := (Value None, k);
  send_signal pid signal k :=
    (Value tt, {| k_kids := k_kids k; k_forked := k_forked k; k_sent := k_sent k ++ [(pid, signal)];
                  k_room := k_room k; k_signals := k_signals k; k_interrupted := 0 |});
|}.

#[export] Instance kernel_laws : ProcessLaws Kernel.
Proof.
  refine {| kids := k_kids; forked := k_forked; sent := k_sent; interrupted := k_interrupted |}.
  - intros k pid k'. cbn. destruct (k_room k); [done|]. intros [= <- <-] _.
    split; [|done]. intros Hin%fresh_pid_gt. lia.
  - intros k e k'. cbn. destruct (k_room k); [|done]. by intros [= <- <-].
  - intros k c k'. cbn. destruct (k_signals k); [|done]. destruct (k_kids k); [done|]. by intros [= <- <-].
  - intros k e k'. cbn. destruct (k_signals k); [|by intros [= <- <-]].
    destruct (k_kids k) eqn:E; [|done]. by intros [= <- <-].
  - by intros pid signal k r k' [= <- <-].
Defined.

Definition no_observer {K} (slot : nat) (pid : Z) (s : K) : Result unit SyscallError * K :=
  (Value tt, s).

(** ** Theorems *)

(** A wait status is decoded to what the kernel encoded in it: exits, kills
    (with the core bit), stops and continues, each with its code or signal. And no
    word but an all-ones low byte other than the continued word is unrecognised. *)
Theorem wait_status_decoded w raw :
  wait_ok w → raw = wait_word w →
  match w with
  | Exited code => termination raw = kExited ∧ exit_code raw = code
  | Killed signal core =>
    termination raw = kSignalled ∧ exit_signal raw = signal ∧ dumped_core raw = core
  | Stopped signal => termination raw = kStopped ∧ exit_signal raw = signal
  | Continued => termination raw = kContinued
  end ∧ (∀ other, termination other = kUnrecognisedStatus ↔ other mod 256 = 255 ∧ other ≠ 65535).
Proof.
  intros Hw ->. split; [|intros; apply termination_unrecognised].
  rewrite (wait_word_eq w Hw).
  destruct w as [c|s core|s|]; simpl in Hw; [..|done];
    unfold termination, exit_code, exit_signal, dumped_core, WIFEXITED, WIFSTOPPED, WTERMSIG, WSTOPSIG;
    rewrite !wifsignaled_eq, ?wcoredump_eq, !land_127, ?land_255, ?wexitstatus_eq.
  - rewrite (proj2 (Z.eqb_eq _ _)) by dlia. split; [done|dlia].
  - set (raw := s + _). assert (Hm : raw mod 128 = s) by (subst raw; destruct core; dlia).
    rewrite Hm, (proj2 (Z.eqb_neq s 0)) by lia.
    rewrite (proj2 (Z.leb_le 1 s)), (proj2 (Z.ltb_lt s 127)) by lia. split_and!; [done|done|].
    subst raw. destruct core; simpl; [apply Z.leb_le|apply Z.leb_gt]; dlia.
  - set (raw := 256 * s + 127). assert (Hm : raw mod 128 = 127) by (subst raw; dlia).
    assert (Hm' : raw mod 256 = 127) by (subst raw; dlia). rewrite Hm, Hm'. simpl.
    split; [done|]. subst raw. dlia.
Qed.

Lemma wait_status_decoded_witness :
  termination 139 = kSignalled ∧ exit_signal 139 = SIGSEGV ∧ dumped_core 139 = true.
Proof.
  apply (wait_status_decoded (Killed SIGSEGV true) 139); [vm_compute; split; congruence|reflexivity].
Defined.

(** The clock's interval: between two points it accepts exactly those whose
    three clocks did not go backwards and whose wall clock did not lag by more than
    the threshold, and answers the exact differences - no 64-bit overflow. *)
Theorem clock_between_exact a b e :
  point_ok a → point_ok b →
  between a b = Value e ↔
  raw_ns a ≤ raw_ns b ∧ running_ns a ≤ running_ns b ∧ wall_ns a ≤ wall_ns b ∧
  - kSuspendThresholdNs ≤ (wall_ns b - wall_ns a) - (running_ns b - running_ns a) ∧
  e = {| elapsed_raw_ns := raw_ns b - raw_ns a; elapsed_running_ns := running_ns b - running_ns a;
         suspended_ns := (wall_ns b - wall_ns a) - (running_ns b - running_ns a) |}.
Proof.
  intros (Ha1 & Ha2 & Ha3) (Hb1 & Hb2 & Hb3). unfold between. rewrite rbind_value.
  setoid_rewrite rbind_value. setoid_rewrite rbind_value.
  setoid_rewrite forward_difference_value; [|done..]. split.
  - intros (r & [? ->] & n & [? ->] & w & [? ->] & Hbtw). revert Hbtw.
    rewrite i64_small by (unfold in_i64; lia). case_match; [done|]. intros [= <-]. bool_facts.
    split_and!; done || lia.
  - intros (? & ? & ? & ? & ->). do 3 (eexists; split; [done|]).
    rewrite i64_small by (unfold in_i64; lia). rewrite (proj2 (Z.ltb_ge _ _)) by lia. done.
Qed.

Lemma clock_between_exact_witness :
  between {| raw_ns := 5; running_ns := 7; wall_ns := 9 |}
          {| raw_ns := 105; running_ns := 117; wall_ns := 2000000119 |}
  = Value {| elapsed_raw_ns := 100; elapsed_running_ns := 110; suspended_ns := 2000000000 |}.
Proof.
  apply clock_between_exact; [unfold point_ok; simpl; lia|unfold point_ok; simpl; lia|].
  unfold kSuspendThresholdNs. simpl. split_and!; try lia. reflexivity.
Defined.

(** C40. Spawning returns. Either every slot has its live worker - the processes forked,
    in the order of their slots and no others, each a new child of the kernel, with [live_]
    counting them and none sent a signal - or the caller is the child of one slot, or a fork
    or the observer failed: then the pool is empty, exactly the processes forked were sent
    SIGKILL, and each of them was reaped so that no child is left that was not there
    before, unless 128 waits in a row were interrupted by signals. *)
Theorem spawn_accounts {K} `{ProcessLaws K} observe workers fuel s :
  leaves_processes observe → NoDup (kids s) → Z.of_nat workers < 2 ^ 63 →
  (128 * (workers + length (kids s) + 1) ≤ fuel)%nat →
  ∃ r p' s', spawn fuel workers observe s = Some (r, p', s') ∧
             spawned 0 workers (kids s) (forked s) (sent s) r p' s'.
Proof.
  intros Hob Hnd Hw Hf. unfold spawn.
  apply (spawn_slots_spec observe fuel workers [] (kids s)); [done| |simpl; lia].
  split_and!; [done..|simpl; lia|by rewrite app_nil_r].
Qed.

Lemma spawn_accounts_witness :
  ∃ r p' s', spawn 1024 3 no_observer (kernel [1] 2 5) = Some (r, p', s') ∧
    spawned 0 3 [1] [1] [] r p' s' ∧
    (pids_ p', k_kids s', k_forked s', k_sent s') = ([], [1], [1; 2; 3], [(2, 9); (3, 9)]).
Proof.
  destruct (spawn_accounts no_observer 3 1024 (kernel [1] 2 5)) as (r & p' & s' & E & Hs).
  - by intros k pid s0 r s1 [= <- <-].
  - repeat constructor. apply not_elem_of_nil.
  - reflexivity.
  - simpl. lia.
  - exists r, p', s'. split; [exact E|]. split; [exact Hs|]. vm_compute in E. by injection E as <- <- <-.
Defined.

(** Waiting for a worker returns whatever strays and interruptions come first,
    and a death it reports is charged to the slot that held that process: the slot is
    emptied, [live_] drops by one, and the same death is never reported again. *)
Theorem wait_for_next_accounts {K} `{ProcessLaws K} fuel p s :
  knows p s → (wait_turns s ≤ fuel)%nat →
  ∃ r p' s', wait_for_next fuel p s = Some (r, p', s') ∧ knows p' s' ∧
    match r with
    | Value d => pids_ p !! death_slot d = Some (death_pid d) ∧ death_pid d ≠ 0 ∧
                 pids_ p' = <[death_slot d := 0]> (pids_ p) ∧ live_ p' = live_ p - 1 ∧
                 (death_pid d ∉ pids_ p') ∧ (death_pid d ∉ kids s')
    | Error _ => p' = p
    end.
Proof.
  intros Hk Hf. destruct (wait_loop_spec fuel 0 p s Hk) as (r & p' & s' & Hr & Hk' & _ & _ & _ & Hm);
    [done|lia|unfold wait_turns, kPoolMaxConsecutiveInterrupts in *; lia|].
  exists r, p', s'. split; [done|]. split; [done|]. destruct r; [|by destruct Hm].
  destruct Hm as (? & ? & ? & ? & ? & ?). by split_and!.
Qed.

Lemma wait_for_next_accounts_witness :
  ∃ r p' s', wait_for_next 1024 {| pids_ := [0; 8]; live_ := 1 |} (kernel [5; 8] 0 0)
             = Some (r, p', s') ∧ pids_ p' = [0; 0] ∧ live_ p' = 0.
Proof.
  destruct (wait_for_next_accounts 1024 {| pids_ := [0; 8]; live_ := 1 |}
    (kernel [5; 8] 0 0)) as (r & p' & s' & E & _).
  - split_and!; [split; [reflexivity| |reflexivity]|..]; apply (bool_decide_unpack _); vm_compute; exact I.
  - apply (bool_decide_unpack _). vm_compute. exact I.
  - exists r, p', s'. split; [exact E|]. vm_compute in E. by injection E as <- <- <-.
Defined.
