(* ===== verification/Journal.v ===== *)
(** * The crash journal

    controller/journal: the bytes of a record (format.cpp), the writer over an
    append-only storage and the replay (journal.cpp). A double is its IEEE-754
    bits: the format moves it with [std::bit_cast] and never computes with it. *)

From S2P Require Export Crc.

(** ** journal.hpp *)

(** The 64 bits of a double. *)
Abbreviation double := Z.

Record Entry := {
  elapsed_ns : Z;
  phase : text;
  workload : text;
  last_verified_unit : option Z;
  temperature_c : option double;
  package_power_w : option double;
  frequency_hz : option double;
  ecc_corrected : option Z;
  ecc_uncorrected : option Z;
  workers_alive : Z;
  workers_stale : Z;
}.

Definition kMaxLabelBytes : Z := 64.

Inductive JournalFault := kStorage | kTooLarge | kNotEmpty | kClosed.

Record JournalError := { jerr_fault : JournalFault; jerr_detail : text }.

Inductive Ending := kEmpty | kTerminated | kUnterminated | kTornTail | kCorrupt.

#[export] Instance Ending_eq_dec : EqDecision Ending.
Proof. solve_decision. Defined.

Record Replay := { entries : list Entry; ending : Ending }.

(** ** format.cpp *)

Definition kHeaderBytes : nat := 8.
Definition kMaxPayloadBytes : Z := 512.
Definition kEntry : byte := byte_of 1.
Definition kTerminator : byte := byte_of 2.

Definition kOptionalFields : nat := 6.
Definition kEntryFixedBytes : Z := 1 + 8 + 1 + 1 + 1 + 8 * Z.of_nat kOptionalFields + 4 + 4.
Definition kPhaseSizeAt : nat := 10.

(** [~((1 << kOptionalFields) - 1)] on 64 bits. *)
Definition kReservedBits : Z := Z.lxor (Z.ones 64) (Z.ones (Z.of_nat kOptionalFields)).

Definition check (length_bytes payload : list byte) : Z :=
  crc32_update (crc32 length_bytes) payload.


Definition put_label (label : text) : list byte := put_le 1 (size_of label) ++ label.

Definition frame (payload : list byte) : list byte :=
  let length_bytes := put_le 4 (size_of payload) in
  length_bytes ++ put_le 4 (check length_bytes payload) ++ payload.

Definition optionals_of (entry : Entry) : list (option Z) :=
  [ last_verified_unit entry; temperature_c entry; package_power_w entry;
    frequency_hz entry; ecc_corrected entry; ecc_uncorrected entry ].

(** [present |= has_value << field] for each field. *)
Definition presence_bits (optionals : list (option Z)) : Z :=
  foldl (λ present p, Z.lor present (Z.b2z (bool_decide (is_Some p.2)) ≪ Z.of_nat p.1))
    0 (imap pair optionals).

Definition encode_entry (entry : Entry) : list byte :=
  [kEntry]
  ++ put_le 8 (u64 (elapsed_ns entry))
  ++ put_le 1 (presence_bits (optionals_of entry))
  ++ put_label (phase entry)
  ++ put_label (workload entry)
  ++ (optionals_of entry ≫= λ o, put_le 8 (default 0 o))
  ++ put_le 4 (workers_alive entry)
  ++ put_le 4 (workers_stale entry).

Definition terminator_payload : list byte := [kTerminator].

(** *** The reading cursor *)

Record Cursor := { cur_rest : list byte; cur_failed : bool }.

Definition take_bytes (count : nat) (c : Cursor) : list byte * Cursor :=
  if cur_failed c || (length (cur_rest c) <? count)%nat
  then ([], {| cur_rest := cur_rest c; cur_failed := true |})
  else (take count (cur_rest c), {| cur_rest := drop count (cur_rest c); cur_failed := false |}).

Definition number (width : nat) (c : Cursor) : Z * Cursor :=
  let '(field, c) := take_bytes width c in
  ((if cur_failed c then 0 else get_le field), c).

Definition complete (c : Cursor) : bool :=
  negb (cur_failed c) && bool_decide (cur_rest c = []).

(** One turn of the loop over the two labels; [None] is a label past the limit. *)
Definition read_label (c : Cursor) : option (text * Cursor) :=
  let '(size, c) := number 1 c in
  if kMaxLabelBytes <? size then None else Some (take_bytes (Z.to_nat size) c).

(** The loop over the optional fields from [field] on; [None] is a non-zero
    value behind a clear presence bit. *)
Fixpoint read_optionals (count : nat) (field : nat) (present : Z) (c : Cursor) :
    option (list (option Z) * Cursor) :=
  match count with
  | O => Some ([], c)
  | S count =>
    let '(value, c) := number 8 c in
    if Z.testbit present (Z.of_nat field) then
      '(l, c) ← read_optionals count (S field) present c; Some (Some value :: l, c)
    else if negb (value =? 0) then None
    else '(l, c) ← read_optionals count (S field) present c; Some (None :: l, c)
  end.

Definition decode_entry (payload : list byte) : option Entry :=
  let c := {| cur_rest := payload; cur_failed := false |} in
  let '(_, c) := take_bytes 1 c in
  let '(raw_elapsed, c) := number 8 c in
  let elapsed := i64 raw_elapsed in
  if elapsed <? 0 then None else
  let '(present, c) := number 1 c in
  if negb (Z.land present kReservedBits =? 0) then None else
  '(ph, c) ← read_label c;
  '(wl, c) ← read_label c;
  '(optionals, c) ← read_optionals kOptionalFields 0 present c;
  let '(alive, c) := number 4 c in
  let '(stale, c) := number 4 c in
  if negb (complete c) then None else
  Some {| elapsed_ns := elapsed; phase := ph; workload := wl;
          last_verified_unit := mjoin (optionals !! 0%nat);
          temperature_c := mjoin (optionals !! 1%nat);
          package_power_w := mjoin (optionals !! 2%nat);
          frequency_hz := mjoin (optionals !! 3%nat);
          ecc_corrected := mjoin (optionals !! 4%nat);
          ecc_uncorrected := mjoin (optionals !! 5%nat);
          workers_alive := alive; workers_stale := stale |}.

(** [seen[at]] where the caller has compared [at] with the size. *)
Definition byte_at (bs : list byte) (at_ : nat) : Z := byte_val (nth at_ bs Byte.x00).

Definition could_be_cut_short (seen : list byte) (len : Z) : bool :=
  match seen with
  | [] => true
  | first :: _ =>
    if negb (bool_decide (first = kEntry)) then false else
    let least := kEntryFixedBytes in
    let most := kEntryFixedBytes + 2 * kMaxLabelBytes in
    if negb (kPhaseSizeAt <? length seen)%nat then (least <=? len) && (len <=? most) else
    let ph := byte_at seen kPhaseSizeAt in
    if kMaxLabelBytes <? ph then false else
    let least := least + ph in
    let most := least + kMaxLabelBytes in
    let workload_at := (kPhaseSizeAt + 1 + Z.to_nat ph)%nat in
    if negb (workload_at <? length seen)%nat then (least <=? len) && (len <=? most) else
    let wl := byte_at seen workload_at in
    if kMaxLabelBytes <? wl then false else
    let least := least + wl in
    (least <=? len) && (len <=? least)
  end.

Definition ending_of_short_record (rest : list byte) (len : Z) : Ending :=
  if could_be_cut_short (drop kHeaderBytes rest) len then kTornTail else kCorrupt.

(** The loop of [scan] on the bytes from [at] on. Every turn that goes on has
    consumed a whole record, so [length bytes] turns are enough. *)
Fixpoint scan_from (fuel : nat) (rest : list byte) (read : list Entry) : Replay :=
  match fuel with
  | O => {| entries := read; ending := kCorrupt |}
  | S fuel =>
    let stop e := {| entries := read; ending := e |} in
    match rest with
    | [] => stop kUnterminated
    | _ =>
      if (length rest <? kHeaderBytes)%nat then stop kTornTail else
      let len := get_le (take 4 rest) in
      if (len =? 0) || (kMaxPayloadBytes <? len) then stop kCorrupt else
      if size_of rest - Z.of_nat kHeaderBytes <? len
      then stop (ending_of_short_record rest len) else
      let payload := take (Z.to_nat len) (drop kHeaderBytes rest) in
      if negb (check (take 4 rest) payload =? get_le (take 4 (drop 4 rest)))
      then stop kCorrupt else
      let after := drop (kHeaderBytes + Z.to_nat len) rest in
      if bool_decide (head payload = Some kTerminator) then
        stop (if (length payload =? 1)%nat && bool_decide (after = [])
              then kTerminated else kCorrupt)
      else
        match (if bool_decide (head payload = Some kEntry) then decode_entry payload else None) with
        | None => stop kCorrupt
        | Some entry => scan_from fuel after (read ++ [entry])
        end
    end
  end.

Definition scan (bytes : list byte) : Replay :=
  match bytes with
  | [] => {| entries := []; ending := kEmpty |}
  | _ => scan_from (S (length bytes)) bytes []
  end.

#[global] Arguments frame : simpl never.
#[global] Arguments encode_entry : simpl never.

(** ** Reading what was written *)

Definition cursor (bs : list byte) : Cursor := {| cur_rest := bs; cur_failed := false |}.

Lemma take_bytes_app n xs ys :
  length xs = n → take_bytes n (cursor (xs ++ ys)) = (xs, cursor ys).
Proof.
  intros <-. unfold take_bytes. simpl.
  rewrite (proj2 (Nat.ltb_ge _ _)) by (rewrite length_app; lia).
  by rewrite take_app_length, drop_app_length.
Qed.

Lemma number_put w v ys :
  0 ≤ v < 2 ^ (8 * Z.of_nat w) → number w (cursor (put_le w v ++ ys)) = (v, cursor ys).
Proof.
  intros Hv. unfold number. rewrite take_bytes_app by apply length_put_le.
  simpl. by rewrite get_put_le_small.
Qed.

(** An entry the struct's types and the writer's limits allow. *)
Definition opt_u64 (o : option Z) : Prop := from_option in_u64 True o.

Record entry_ok (e : Entry) : Prop := {
  ok_elapsed : 0 ≤ elapsed_ns e < 2 ^ 63;
  ok_phase : size_of (phase e) ≤ kMaxLabelBytes;
  ok_workload : size_of (workload e) ≤ kMaxLabelBytes;
  ok_optionals : Forall opt_u64 (optionals_of e);
  ok_alive : in_u32 (workers_alive e);
  ok_stale : in_u32 (workers_stale e);
}.

Lemma presence_bits_snoc l o :
  presence_bits (l ++ [o]) =
  Z.lor (presence_bits l) (Z.b2z (bool_decide (is_Some o)) ≪ Z.of_nat (length l)).
Proof.
  unfold presence_bits. rewrite imap_app, foldl_app. cbn -[Z.shiftl].
  by rewrite Nat.add_0_r.
Qed.

Lemma presence_bits_range l : 0 ≤ presence_bits l < 2 ^ Z.of_nat (length l).
Proof.
  induction l as [|o l IH] using rev_ind; [done|].
  rewrite presence_bits_snoc, lor_shiftl_add, length_app by lia.
  rewrite Nat2Z.inj_add, Z.pow_add_r by lia. simpl (2 ^ Z.of_nat (length [o])).
  destruct (bool_decide _); simpl; nia.
Qed.

Lemma presence_bits_testbit l i o :
  l !! i = Some o → Z.testbit (presence_bits l) (Z.of_nat i) = bool_decide (is_Some o).
Proof.
  induction l as [|o' l IH] using rev_ind; [done|]. intros Hi.
  rewrite presence_bits_snoc, Z.lor_spec.
  destruct (decide (i < length l)%nat).
  - rewrite lookup_app_l in Hi by done.
    by rewrite IH, Z.shiftl_spec_low, orb_false_r by (done || lia).
  - apply lookup_snoc_Some in Hi as [[? _]|[-> <-]]; [lia|].
    rewrite Z.shiftl_spec by lia. rewrite Z.sub_diag.
    rewrite <- (Z.mod_small (presence_bits l) (2 ^ Z.of_nat (length l))) by apply presence_bits_range.
    rewrite Z.mod_pow2_bits_high by lia. by destruct (bool_decide _).
Qed.

Lemma read_label_put label ys :
  size_of label ≤ kMaxLabelBytes →
  read_label (cursor (put_label label ++ ys)) = Some (label, cursor ys).
Proof.
  unfold size_of, kMaxLabelBytes. intros Hl. unfold read_label, put_label. rewrite <- app_assoc.
  rewrite number_put by (unfold size_of; simpl; lia).
  rewrite (proj2 (Z.ltb_ge _ _)) by (unfold size_of; done).
  f_equal. apply take_bytes_app. unfold size_of. lia.
Qed.

Lemma read_optionals_put l field present ys :
  Forall opt_u64 l →
  (∀ i o, l !! i = Some o → Z.testbit present (Z.of_nat (field + i)) = bool_decide (is_Some o)) →
  read_optionals (length l) field present
    (cursor ((l ≫= λ o, put_le 8 (default 0 o)) ++ ys)) = Some (l, cursor ys).
Proof.
  intros Hok. revert field. induction Hok as [|o l Ho _ IH]; intros field Hp; [done|].
  cbn [read_optionals length]. rewrite bind_cons, <- app_assoc.
  rewrite number_put by (by destruct o).
  pose proof (Hp 0%nat o eq_refl) as H0. rewrite Nat.add_0_r in H0. rewrite H0.
  rewrite IH; [by destruct o|].
  intros i o' Hi. rewrite <- (Hp (S i) o' Hi). do 2 f_equal. lia.
Qed.

Lemma reserved_clear present :
  0 ≤ present < 2 ^ Z.of_nat kOptionalFields → Z.land present kReservedBits = 0.
Proof.
  intros Hp. unfold kReservedBits, kOptionalFields in *. apply Z.bits_inj'. intros i Hi.
  rewrite Z.land_spec, Z.lxor_spec, Z.bits_0. change (Z.of_nat 6) with 6 in *.
  destruct (decide (i < 6)).
  - rewrite !Z.ones_spec_low by lia. by rewrite andb_false_r.
  - rewrite <- (Z.mod_small present (2 ^ 6)) by done. by rewrite Z.mod_pow2_bits_high by lia.
Qed.

Lemma decode_encode_entry e : entry_ok e → decode_entry (encode_entry e) = Some e.
Proof.
  intros [He Hp Hw Ho Ha Hs]. unfold decode_entry, encode_entry.
  fold (cursor ([kEntry] ++ put_le 8 (u64 (elapsed_ns e)) ++
    put_le 1 (presence_bits (optionals_of e)) ++ put_label (phase e) ++ put_label (workload e) ++
    (optionals_of e ≫= (λ o, put_le 8 (default 0 o))) ++ put_le 4 (workers_alive e) ++
    put_le 4 (workers_stale e))).
  assert (Hpr : 0 ≤ presence_bits (optionals_of e) < 2 ^ Z.of_nat kOptionalFields) by
    apply (presence_bits_range (optionals_of e)).
  rewrite (take_bytes_app 1 [kEntry]) by done.
  rewrite number_put by apply u64_range. rewrite i64_u64 by (unfold in_i64; lia).
  rewrite (proj2 (Z.ltb_ge _ _)) by lia.
  rewrite number_put by (unfold kOptionalFields in Hpr; simpl in *; lia).
  rewrite reserved_clear by done. cbn [Z.eqb negb].
  rewrite read_label_put by done. cbn [mbind option_bind].
  rewrite read_label_put by done. cbn [mbind option_bind].
  change kOptionalFields with (length (optionals_of e)).
  rewrite read_optionals_put; [|done|intros; by apply presence_bits_testbit].
  cbn [mbind option_bind]. rewrite number_put by done.
  rewrite <- (app_nil_r (put_le 4 (workers_stale e))), number_put by done.
  cbn. by destruct e.
Qed.

(** ** What a payload that decodes must be *)

(** [c'] is [c] after [bs] was read whole. *)
Definition reads (c : Cursor) (bs : list byte) (c' : Cursor) : Prop :=
  cur_failed c = false ∧ cur_rest c = bs ++ cur_rest c'.

Lemma reads_trans c bs c' cs c'' : reads c bs c' → reads c' cs c'' → reads c (bs ++ cs) c''.
Proof. intros [Hf Hr] [_ Hr']. split; [done|]. by rewrite Hr, Hr', app_assoc. Qed.

Lemma take_bytes_inv n c bs c' :
  take_bytes n c = (bs, c') → cur_failed c' = false → reads c bs c' ∧ length bs = n.
Proof.
  unfold take_bytes. case_match eqn:E; intros [= <- <-]; simpl; [done|]. intros _.
  apply orb_false_iff in E as [Hf Hl]. apply Nat.ltb_ge in Hl.
  split; [|rewrite length_take; lia]. split; [done|]. simpl. by rewrite take_drop.
Qed.

Lemma number_inv w c v c' :
  number w c = (v, c') → cur_failed c' = false →
  ∃ bs, reads c bs c' ∧ length bs = w ∧ v = get_le bs.
Proof.
  unfold number. destruct (take_bytes w c) as [bs d] eqn:E. intros [= <- <-] Hf.
  destruct (take_bytes_inv _ _ _ _ E Hf) as [Hr Hl]. exists bs. by rewrite Hf.
Qed.

Lemma read_label_inv c t c' :
  read_label c = Some (t, c') → cur_failed c' = false →
  ∃ b bs, reads c (b :: bs) c' ∧ byte_val b = size_of bs ∧ byte_val b ≤ kMaxLabelBytes.
Proof.
  unfold read_label. destruct (number 1 c) as [size d] eqn:E. case_match eqn:Hs; [done|].
  intros [= Ht] Hf. destruct (take_bytes_inv _ _ _ _ Ht Hf) as [Hr Hl].
  destruct (number_inv _ _ _ _ E (proj1 Hr)) as (bs & Hr' & Hlb & ->).
  destruct bs as [|b [|]]; try done. rewrite get_le_cons, get_le_nil in Hs, Hl.
  rewrite Z.mul_0_r, Z.add_0_r in *. bool_facts. pose proof (byte_val_range b).
  exists b, t. split_and!; [|unfold size_of; lia|done].
  exact (reads_trans _ _ _ _ _ Hr' Hr).
Qed.

Lemma read_optionals_inv n field present c l c' :
  read_optionals n field present c = Some (l, c') → cur_failed c' = false →
  ∃ bs, reads c bs c' ∧ length bs = (8 * n)%nat.
Proof.
  revert field c l. induction n as [|n IH]; intros field c l; cbn [read_optionals].
  { intros [= <- <-] Hf. exists []. done. }
  destruct (number 8 c) as [v d] eqn:E. intros H Hf.
  assert (∃ l', read_optionals n (S field) present d = Some (l', c')) as [l' Hl'].
  { destruct (Z.testbit present (Z.of_nat field)); [|destruct (negb (v =? 0)); [done|]];
      (destruct (read_optionals n (S field) present d) as [[l' d']|]; [|done]);
      injection H as <- <-; by exists l'. }
  destruct (IH _ _ _ Hl' Hf) as (bs & Hr & Hl).
  destruct (number_inv _ _ _ _ E (proj1 Hr)) as (cs & Hr' & Hlc & _).
  exists (cs ++ bs). split; [by eapply reads_trans|]. rewrite length_app. lia.
Qed.

(** The shape every decodable payload has: ten bytes, then two labels that name
    their own sizes, then 56 bytes. *)
Inductive entry_shape : list byte → Prop :=
| EntryShape head bp ph bw wl rest :
    length head = 10%nat → byte_val bp = size_of ph → byte_val bp ≤ kMaxLabelBytes →
    byte_val bw = size_of wl → byte_val bw ≤ kMaxLabelBytes → length rest = 56%nat →
    entry_shape (head ++ bp :: ph ++ bw :: wl ++ rest).

Lemma decode_entry_shape q e : decode_entry q = Some e → entry_shape q.
Proof.
  unfold decode_entry. fold (cursor q).
  destruct (take_bytes 1 (cursor q)) as [t c0] eqn:E0.
  destruct (number 8 c0) as [el c1] eqn:E1. case_match; [done|].
  destruct (number 1 c1) as [pr c2] eqn:E2. case_match; [done|].
  destruct (read_label c2) as [[ph c3]|] eqn:E3; [|done].
  cbn [mbind option_bind]. destruct (read_label c3) as [[wl c4]|] eqn:E4; [|done].
  cbn [mbind option_bind]. destruct (read_optionals _ _ _ c4) as [[os c5]|] eqn:E5; [|done].
  cbn [mbind option_bind]. destruct (number 4 c5) as [al c6] eqn:E6.
  destruct (number 4 c6) as [st c7] eqn:E7. case_match eqn:Hc; [done|]. intros _.
  unfold complete in Hc. bool_facts. apply bool_decide_eq_true in H2.
  destruct (number_inv _ _ _ _ E7 H1) as (b7 & R7 & L7 & _).
  destruct (number_inv _ _ _ _ E6 (proj1 R7)) as (b6 & R6 & L6 & _).
  destruct (read_optionals_inv _ _ _ _ _ _ E5 (proj1 R6)) as (b5 & R5 & L5).
  destruct (read_label_inv _ _ _ E4 (proj1 R5)) as (bw & b4 & R4 & W4 & W4').
  destruct (read_label_inv _ _ _ E3 (proj1 R4)) as (bp & b3 & R3 & W3 & W3').
  destruct (number_inv _ _ _ _ E2 (proj1 R3)) as (b2 & R2 & L2 & _).
  destruct (number_inv _ _ _ _ E1 (proj1 R2)) as (b1 & R1 & L1 & _).
  destruct (take_bytes_inv _ _ _ _ E0 (proj1 R1)) as [R0 L0].
  pose proof (reads_trans _ _ _ _ _ R0 (reads_trans _ _ _ _ _ R1 (reads_trans _ _ _ _ _ R2
    (reads_trans _ _ _ _ _ R3 (reads_trans _ _ _ _ _ R4 (reads_trans _ _ _ _ _ R5
    (reads_trans _ _ _ _ _ R6 R7))))))) as [_ R].
  simpl in R. rewrite H2, app_nil_r in R. rewrite R.
  replace (t ++ b1 ++ b2 ++ bp :: b3 ++ bw :: b4 ++ b5 ++ b6 ++ b7)
    with ((t ++ b1 ++ b2) ++ bp :: b3 ++ bw :: b4 ++ (b5 ++ b6 ++ b7)) by (by rewrite <- !app_assoc).
  apply EntryShape; try done; rewrite !length_app; unfold kOptionalFields in *; lia.
Qed.

(** A payload's length is fixed by the bytes of its label sizes: of two decodable
    payloads neither is a strict prefix of the other. *)
Lemma entry_shape_prefix p q r : entry_shape p → entry_shape q → q = p ++ r → r = [].
Proof.
  intros Hp Hq E. destruct Hp as [h1 bp1 ph1 bw1 wl1 r1 L1 P1 _ W1 _ R1].
  destruct Hq as [h2 bp2 ph2 bw2 wl2 r2 L2 P2 _ W2 _ R2].
  rewrite <- !app_assoc in E. apply app_inj_1 in E as [-> E]; [|lia].
  cbn [app] in E. injection E as <- E. rewrite <- !app_assoc in E.
  unfold size_of in *. apply app_inj_1 in E as [-> E]; [|lia].
  cbn [app] in E. injection E as <- E. rewrite <- !app_assoc in E.
  apply app_inj_1 in E as [-> E]; [|lia].
  apply (f_equal length) in E. rewrite length_app in E. destruct r; [done|]. simpl in E. lia.
Qed.

(** ** The loop of [scan] *)

(** A turn on bytes that hold a header: everything depends on the two header
    fields and the bytes after them. *)
Lemma scan_from_header fuel lb cb body read :
  length lb = 4%nat → length cb = 4%nat →
  scan_from (S fuel) (lb ++ cb ++ body) read =
  let stop e := {| entries := read; ending := e |} in
  let len := get_le lb in
  if (len =? 0) || (kMaxPayloadBytes <? len) then stop kCorrupt else
  if size_of body <? len then stop (if could_be_cut_short body len then kTornTail else kCorrupt) else
  let payload := take (Z.to_nat len) body in
  let after := drop (Z.to_nat len) body in
  if negb (check lb payload =? get_le cb) then stop kCorrupt else
  if bool_decide (head payload = Some kTerminator) then
    stop (if (length payload =? 1)%nat && bool_decide (after = []) then kTerminated else kCorrupt)
  else
    match (if bool_decide (head payload = Some kEntry) then decode_entry payload else None) with
    | None => stop kCorrupt
    | Some entry => scan_from fuel after (read ++ [entry])
    end.
Proof.
  intros Hl Hc. destruct lb as [|b0 [|b1 [|b2 [|b3 [|]]]]]; try done.
  destruct cb as [|c0 [|c1 [|c2 [|c3 [|]]]]]; try done.
  cbn [scan_from]. simpl (_ <? kHeaderBytes)%nat. cbv beta iota zeta.
  unfold ending_of_short_record, kHeaderBytes.
  replace (size_of (([b0; b1; b2; b3] ++ [c0; c1; c2; c3] ++ body)) - Z.of_nat 8) with (size_of body)
    by (unfold size_of; simpl; lia).
  reflexivity.
Qed.

Lemma scan_from_short fuel rest read :
  rest ≠ [] → (length rest < kHeaderBytes)%nat →
  scan_from (S fuel) rest read = {| entries := read; ending := kTornTail |}.
Proof.
  intros Hne Hl. cbn [scan_from]. destruct rest; [done|].
  by rewrite (proj2 (Nat.ltb_lt _ _) Hl).
Qed.

(** The header of a written record. *)
Lemma frame_eq p :
  frame p = put_le 4 (size_of p) ++ put_le 4 (check (put_le 4 (size_of p)) p) ++ p.
Proof. done. Qed.

Lemma length_frame p : length (frame p) = (8 + length p)%nat.
Proof. rewrite frame_eq, !length_app, !length_put_le. lia. Qed.

Definition payload_fits (p : list byte) : Prop := 1 ≤ size_of p ≤ kMaxPayloadBytes.

Lemma payload_length p : payload_fits p → get_le (put_le 4 (size_of p)) = size_of p.
Proof.
  unfold payload_fits, kMaxPayloadBytes. intros. apply get_put_le4. unfold in_u32. lia.
Qed.

Lemma payload_check lb p : get_le (put_le 4 (check lb p)) = check lb p.
Proof. apply get_put_le4, crc32_update_register, crc32_range. Qed.

Lemma scan_from_frame fuel p rest read :
  payload_fits p →
  scan_from (S fuel) (frame p ++ rest) read =
  if bool_decide (head p = Some kTerminator) then
    {| entries := read;
       ending := if (length p =? 1)%nat && bool_decide (rest = []) then kTerminated else kCorrupt |}
  else
    match (if bool_decide (head p = Some kEntry) then decode_entry p else None) with
    | None => {| entries := read; ending := kCorrupt |}
    | Some entry => scan_from fuel rest (read ++ [entry])
    end.
Proof.
  intros Hp. rewrite frame_eq, <- !app_assoc, scan_from_header by apply length_put_le.
  cbv zeta. rewrite payload_length, payload_check by done. unfold payload_fits in Hp.
  rewrite (proj2 (Z.eqb_neq _ _)), (proj2 (Z.ltb_ge _ _)) by lia. cbn [orb].
  rewrite (proj2 (Z.ltb_ge _ _)) by (unfold size_of; rewrite length_app; lia).
  replace (Z.to_nat (size_of p)) with (length p) by (unfold size_of; lia).
  rewrite take_app_length, drop_app_length.
  by rewrite Z.eqb_refl.
Qed.

(** *** The records of a journal *)

Lemma encode_entry_head e : head (encode_entry e) = Some kEntry.
Proof. done. Qed.

Lemma length_encode_entry e :
  size_of (encode_entry e) = kEntryFixedBytes + size_of (phase e) + size_of (workload e).
Proof.
  unfold encode_entry, put_label, size_of. simpl (optionals_of e ≫= _).
  rewrite !length_app, !length_put_le. unfold kEntryFixedBytes, kOptionalFields. simpl length. lia.
Qed.

Lemma encode_entry_fits e : entry_ok e → payload_fits (encode_entry e).
Proof.
  intros [_ Hp Hw _ _ _]. unfold payload_fits. rewrite length_encode_entry.
  unfold size_of, kMaxLabelBytes, kMaxPayloadBytes, kEntryFixedBytes, kOptionalFields in *. lia.
Qed.

Lemma encode_entry_shape e : entry_ok e → entry_shape (encode_entry e).
Proof. intros. by eapply decode_entry_shape, decode_encode_entry. Qed.

Lemma terminator_fits : payload_fits terminator_payload.
Proof. done. Qed.

Definition record_of (e : Entry) : list byte := frame (encode_entry e).
Definition terminator_record : list byte := frame terminator_payload.

(** The bytes a run leaves: one record an entry, and the terminator when the
    journal was closed. *)
Definition written (es : list Entry) (closed : bool) : list byte :=
  (es ≫= record_of) ++ (if closed then terminator_record else []).

Lemma scan_from_entry fuel e rest read :
  entry_ok e → scan_from (S fuel) (record_of e ++ rest) read = scan_from fuel rest (read ++ [e]).
Proof.
  intros He. unfold record_of. rewrite scan_from_frame by by apply encode_entry_fits.
  by rewrite encode_entry_head, decode_encode_entry.
Qed.

Lemma scan_from_entries fuel es rest read :
  Forall entry_ok es →
  scan_from (length es + fuel) ((es ≫= record_of) ++ rest) read = scan_from fuel rest (read ++ es).
Proof.
  intros Hes. revert read. induction Hes as [|e es He _ IH]; intros read.
  { simpl. by rewrite app_nil_r. }
  rewrite bind_cons, <- app_assoc. cbn [length Nat.add]. rewrite scan_from_entry by done. by rewrite IH, <- app_assoc.
Qed.

Lemma scan_from_terminator fuel read :
  scan_from (S fuel) terminator_record read = {| entries := read; ending := kTerminated |}.
Proof.
  unfold terminator_record. rewrite <- (app_nil_r (frame _)).
  by rewrite scan_from_frame by apply terminator_fits.
Qed.

(** *** Journals cut short *)

Lemma byte_at_take p m i b :
  (i < m)%nat → p !! i = Some b → byte_at (take m p) i = byte_val b.
Proof.
  intros Hi Hb. unfold byte_at. f_equal. apply nth_lookup_Some.
  by rewrite lookup_take_lt.
Qed.

Lemma could_be_cut_short_take p m :
  entry_shape p → head p = Some kEntry → (m < length p)%nat →
  could_be_cut_short (take m p) (size_of p) = true.
Proof.
  intros [h bp ph bw wl r Lh P P' W W' Lr] Hh Hm.
  set (p' := h ++ bp :: ph ++ bw :: wl ++ r) in *.
  assert (Hs : size_of p' = kEntryFixedBytes + size_of ph + size_of wl).
  { unfold p', size_of, kEntryFixedBytes, kOptionalFields.
    rewrite length_app. cbn [length]. rewrite length_app. cbn [length]. rewrite length_app. lia. }
  assert (Hbp : p' !! kPhaseSizeAt = Some bp) by (unfold p'; by rewrite lookup_app_r, Lh by (rewrite Lh; done)).
  assert (Hbw : p' !! (kPhaseSizeAt + 1 + Z.to_nat (byte_val bp))%nat = Some bw).
  { unfold p'. rewrite P. unfold size_of. rewrite Nat2Z.id. unfold kPhaseSizeAt.
    rewrite lookup_app_r, Lh by lia. replace (10 + 1 + length ph - 10)%nat with (S (length ph)) by lia.
    by apply list_lookup_middle. }
  unfold could_be_cut_short. destruct (take m p') as [|b t] eqn:Et; [done|]. rewrite <- Et.
  assert (b = kEntry) as ->.
  { destruct m; [done|]. destruct p'; [done|]. simpl in Et, Hh. congruence. }
  rewrite bool_decide_true by done. cbn [negb].
  assert (Hlen : length (take m p') = m) by (rewrite length_take; lia). rewrite Hlen.
  unfold size_of in *. destruct (kPhaseSizeAt <? m)%nat eqn:E1; cbn [negb].
  2: { apply andb_true_iff. rewrite !Z.leb_le. lia. }
  apply Nat.ltb_lt in E1. rewrite (byte_at_take _ _ _ _ E1 Hbp).
  rewrite (proj2 (Z.ltb_ge _ _) P').
  destruct (_ <? m)%nat eqn:E2; cbn [negb].
  2: { apply andb_true_iff. rewrite !Z.leb_le. lia. }
  apply Nat.ltb_lt in E2. rewrite (byte_at_take _ _ _ _ E2 Hbw).
  rewrite (proj2 (Z.ltb_ge _ _) W'). apply andb_true_iff. rewrite !Z.leb_le. lia.
Qed.

(** The payloads a writer frames: an entry's or the terminator's. *)
Definition payload_ok (p : list byte) : Prop :=
  payload_fits p ∧ (entry_shape p ∧ head p = Some kEntry ∨ p = terminator_payload).

Lemma entry_payload_ok e : entry_ok e → payload_ok (encode_entry e).
Proof. intros. split; [by apply encode_entry_fits|left]. by split; [apply encode_entry_shape|]. Qed.

Lemma terminator_payload_ok : payload_ok terminator_payload.
Proof. split; [apply terminator_fits|by right]. Qed.
#[export] Hint Resolve entry_payload_ok terminator_payload_ok : lf.

Lemma could_be_cut p m :
  payload_ok p → (m < length p)%nat → could_be_cut_short (take m p) (size_of p) = true.
Proof.
  intros [_ [[Hs Hh]| ->]] Hm; [by apply could_be_cut_short_take|].
  destruct m; [done|simpl in Hm; lia].
Qed.

(** A record the machine died inside. *)
Lemma scan_from_torn fuel p m read :
  payload_ok p → (0 < m < length (frame p))%nat →
  scan_from (S fuel) (take m (frame p)) read = {| entries := read; ending := kTornTail |}.
Proof.
  intros Hp [H0 Hm]. rewrite length_frame in Hm.
  destruct (decide (m < kHeaderBytes)%nat) as [Hh|Hh].
  { apply scan_from_short; [|rewrite length_take; lia].
    intros E. apply (f_equal length) in E. rewrite length_take, length_frame in E. simpl in E. lia. }
  unfold kHeaderBytes in Hh.
  rewrite frame_eq, !take_app, !length_put_le. rewrite !(take_ge (put_le _ _)) by (rewrite length_put_le; lia).
  rewrite scan_from_header by apply length_put_le. cbv zeta.
  rewrite payload_length by apply Hp. pose proof (proj1 Hp) as Hf. unfold payload_fits in Hf.
  rewrite (proj2 (Z.eqb_neq _ _)), (proj2 (Z.ltb_ge _ _)) by lia. cbn [orb].
  rewrite (proj2 (Z.ltb_lt _ _)) by (unfold size_of; rewrite length_take; lia).
  by rewrite could_be_cut by (done || lia).
Qed.

(** The entries whose records lie wholly within the first [m] bytes. *)
Abbreviation whole_before := (whole_prefix record_of).

Lemma length_record_pos e : (0 < length (record_of e))%nat.
Proof. unfold record_of. rewrite length_frame. lia. Qed.

Lemma length_records es : (length es ≤ length (es ≫= record_of))%nat.
Proof.
  induction es as [|e es IH]; [done|]. rewrite bind_cons, length_app. simpl.
  pose proof (length_record_pos e). lia.
Qed.

Lemma written_cons e es closed : written (e :: es) closed = record_of e ++ written es closed.
Proof. unfold written. by rewrite bind_cons, <- app_assoc. Qed.

(** How a journal cut at [m] ends. *)
Definition cut_ending (m : nat) (es : list Entry) : Ending :=
  if bool_decide (m = length (whole_before m es ≫= record_of)) then kUnterminated else kTornTail.

Lemma scan_from_cut fuel es closed m read :
  Forall entry_ok es → (length es < fuel)%nat → (m < length (written es closed))%nat →
  scan_from fuel (take m (written es closed)) read =
  {| entries := read ++ whole_before m es; ending := cut_ending m es |}.
Proof.
  intros Hes. revert fuel m read.
  induction Hes as [|e es He _ IH]; intros [|fuel] m read Hf Hm; simpl in Hf; try lia.
  - unfold cut_ending, written in *. cbn [whole_prefix mbind list_bind app length] in *.
    rewrite app_nil_r. destruct closed; [|simpl in Hm; lia].
    case_bool_decide as E; [by subst|]. unfold terminator_record in *.
    apply scan_from_torn; [auto with lf|cbn [length] in E; lia].
  - rewrite written_cons in *. rewrite length_app in Hm. unfold cut_ending. cbn [whole_prefix].
    pose proof (length_record_pos e). destruct (Nat.leb_spec (length (record_of e)) m) as [Hl|Hl].
    + rewrite take_app_ge, scan_from_entry, IH by (done || lia).
      rewrite bind_cons, length_app, <- app_assoc. f_equal. unfold cut_ending.
      do 2 case_bool_decide; done || lia.
    + rewrite take_app_le by lia. rewrite app_nil_r.
      case_bool_decide as E; [simpl in E; by subst|].
      unfold record_of in *. apply scan_from_torn; [auto with lf|simpl in E; lia].
Qed.


(** *** Journals with a byte changed *)

Lemma check_insert lb p i x y :
  p !! i = Some x → x ≠ y → check lb (<[i := y]> p) ≠ check lb p.
Proof. apply crc32_insert, crc32_range. Qed.

(** With another length than its own, a written entry's bytes are no record. *)
Lemma relength_undecodable p rest n :
  entry_shape p → n ≠ length p → (n ≤ length (p ++ rest))%nat →
  decode_entry (take n (p ++ rest)) = None.
Proof.
  intros Hs Hn Hr. destruct (decode_entry _) as [e|] eqn:E; [|done].
  apply decode_entry_shape in E. rewrite length_app in Hr.
  destruct (decide (n < length p)%nat) as [Hl|Hl].
  - rewrite take_app_le in E by lia.
    pose proof (entry_shape_prefix _ _ (drop n p) E Hs (eq_sym (take_drop n p))) as H0.
    apply (f_equal length) in H0. rewrite length_drop in H0. simpl in H0. lia.
  - rewrite take_app_ge in E by lia.
    pose proof (entry_shape_prefix _ _ _ Hs E eq_refl) as H0.
    apply (f_equal length) in H0. rewrite length_take in H0. simpl in H0. lia.
Qed.

Definition damaged (read : list Entry) (r : Replay) : Prop :=
  entries r = read ∧ (ending r = kTornTail ∨ ending r = kCorrupt).

(** The length field changed. *)
Lemma scan_from_length_changed fuel p lb cb rest read :
  payload_ok p → length lb = 4%nat → length cb = 4%nat → get_le lb ≠ size_of p →
  damaged read (scan_from (S fuel) (lb ++ cb ++ p ++ rest) read).
Proof.
  intros Hp Hlb Hcb Hne. rewrite scan_from_header by done. cbv zeta. set (n := get_le lb) in *.
  destruct ((n =? 0) || (kMaxPayloadBytes <? n)) eqn:E0; [by split; [|right]|]. bool_facts.
  pose proof (get_le_range lb).
  destruct (size_of (p ++ rest) <? n) eqn:E1.
  { split; [done|]. simpl. destruct (could_be_cut_short _ _); auto. }
  destruct (check lb _ =? get_le cb); cbn [negb]; [|by split; [|right]]. bool_facts.
  unfold size_of in *.
  destruct Hp as [Hf [[Hs Hh]| ->]].
  - rewrite relength_undecodable by (done || lia).
    assert (head (take (Z.to_nat n) (p ++ rest)) = Some kEntry) as ->.
    { destruct p as [|b p]; [done|]. destruct (Z.to_nat n) eqn:En; [lia|]. done. }
    by split; [|right].
  - destruct (Z.to_nat n) as [|[|k]] eqn:En; [lia|simpl in Hne; lia|].
    split; [done|]. right. cbn [terminator_payload app take head].
    rewrite bool_decide_true by done. simpl.
    destruct rest; [|done]. exfalso. simpl in E1. lia.
Qed.

Lemma scan_from_damaged fuel p i x y rest read :
  payload_ok p → frame p !! i = Some x → x ≠ y →
  damaged read (scan_from (S fuel) (<[i := y]> (frame p) ++ rest) read).
Proof.
  intros Hp Hx Hne. pose proof (proj1 Hp) as Hf. rewrite frame_eq in *.
  set (lb := put_le 4 (size_of p)) in *. set (cb := put_le 4 (check lb p)) in *.
  assert (Hlb : length lb = 4%nat) by apply length_put_le.
  assert (Hcb : length cb = 4%nat) by apply length_put_le.
  assert (Hlen : get_le lb = size_of p) by (by apply payload_length).
  assert (Hchk : get_le cb = check lb p) by apply payload_check.
  destruct (decide (i < 4)%nat) as [H4|H4].
  { rewrite insert_app_l, <- !app_assoc by lia. rewrite lookup_app_l in Hx by lia.
    apply scan_from_length_changed; [done|by rewrite length_insert|done|].
    rewrite <- Hlen. by eapply get_le_insert. }
  replace i with (length lb + (i - 4))%nat in * by lia. rewrite insert_app_r, <- !app_assoc.
  rewrite lookup_app_r in Hx by lia. replace (length lb + (i - 4) - length lb)%nat with (i - 4)%nat in Hx by lia.
  set (j := (i - 4)%nat) in *. unfold payload_fits in Hf.
  destruct (decide (j < 4)%nat) as [H8|H8].
  - rewrite insert_app_l, <- !app_assoc by lia. rewrite lookup_app_l in Hx by lia.
    rewrite scan_from_header by (done || by rewrite length_insert). cbv zeta. rewrite Hlen.
    rewrite (proj2 (Z.eqb_neq _ _)), (proj2 (Z.ltb_ge _ _)) by lia. cbn [orb].
    rewrite (proj2 (Z.ltb_ge _ _)) by (unfold size_of; rewrite length_app; lia).
    replace (Z.to_nat (size_of p)) with (length p) by (unfold size_of; lia).
    rewrite take_app_length, (proj2 (Z.eqb_neq _ _)); [by split; [|right]|].
    rewrite <- Hchk. apply not_eq_sym. by eapply get_le_insert.
  - replace j with (length cb + (j - 4))%nat in * by lia. rewrite insert_app_r, <- !app_assoc.
    rewrite lookup_app_r in Hx by lia.
    replace (length cb + (j - 4) - length cb)%nat with (j - 4)%nat in Hx by lia.
    rewrite scan_from_header by done. cbv zeta. rewrite Hlen.
    rewrite (proj2 (Z.eqb_neq _ _)), (proj2 (Z.ltb_ge _ _)) by lia. cbn [orb].
    rewrite (proj2 (Z.ltb_ge _ _)) by (unfold size_of; rewrite length_app, length_insert; lia).
    replace (Z.to_nat (size_of p)) with (length (<[(j-4)%nat:=y]> p))
      by (rewrite length_insert; unfold size_of; lia).
    rewrite take_app_length, (proj2 (Z.eqb_neq _ _)); [by split; [|right]|].
    rewrite Hchk. by eapply check_insert.
Qed.

Lemma scan_from_changed fuel es closed i x y read :
  Forall entry_ok es → (length es < fuel)%nat →
  written es closed !! i = Some x → x ≠ y →
  damaged (read ++ whole_before i es) (scan_from fuel (<[i := y]> (written es closed)) read).
Proof.
  intros Hes. revert fuel i read.
  induction Hes as [|e es He _ IH]; intros [|fuel] i read Hf Hx Hne; simpl in Hf; try lia.
  - unfold written in *. cbn [whole_prefix mbind list_bind app] in *.
    rewrite app_nil_r. destruct closed; [|done]. unfold terminator_record in *.
    rewrite <- (app_nil_r (<[i:=y]> _)). apply (scan_from_damaged _ _ _ x); auto with lf.
  - rewrite written_cons in *. cbn [whole_prefix].
    destruct (Nat.leb_spec (length (record_of e)) i) as [Hl|Hl].
    + rewrite lookup_app_r in Hx by done.
      rewrite insert_app_r_alt, scan_from_entry by done.
      replace (read ++ e :: whole_before (i - length (record_of e)) es)
        with ((read ++ [e]) ++ whole_before (i - length (record_of e)) es) by (by rewrite <- app_assoc).
      apply IH; [lia|done|done].
    + rewrite lookup_app_l in Hx by done. rewrite insert_app_l, app_nil_r by done.
      unfold record_of in *. apply (scan_from_damaged _ _ _ x); auto with lf.
Qed.

(** *** The fuel of [scan] *)

(** Every turn that goes on consumes at least nine bytes, so fuel past the
    number of bytes changes nothing: [scan_from]'s out-of-fuel answer is never
    given. *)
Lemma scan_from_fuel fuel fuel' bytes read :
  (length bytes < fuel)%nat → (length bytes < fuel')%nat →
  scan_from fuel bytes read = scan_from fuel' bytes read.
Proof.
  revert fuel' bytes read. induction fuel as [|fuel IH]; intros [|fuel'] bytes read H H'; try lia.
  cbn [scan_from]. destruct bytes as [|b bytes]; [done|]. set (bs := b :: bytes) in *.
  destruct (length bs <? kHeaderBytes)%nat; [done|]. cbv zeta.
  set (len := get_le (take 4 bs)).
  destruct ((len =? 0) || (kMaxPayloadBytes <? len)); [done|].
  destruct (size_of bs - _ <? len); [done|].
  destruct (negb _); [done|]. destruct (bool_decide _); [done|].
  destruct (if bool_decide _ then _ else _); [|done].
  assert (Hd : (length (drop (kHeaderBytes + Z.to_nat len) bs) < length bs)%nat).
  { rewrite length_drop. unfold kHeaderBytes. simpl length. lia. }
  apply IH; lia.
Qed.

(** ** Theorems *)

(** Decoding what [encode_entry] produced returns the entry: for every entry
    within the writer's limits, [decode_entry (encode_entry e)] is [e], optional
    fields included. *)
Theorem entry_round_trip e : entry_ok e → decode_entry (encode_entry e) = Some e.
Proof. apply decode_encode_entry. Qed.

Definition sample_entry : Entry :=
  {| elapsed_ns := 1000; phase := lit "burn"; workload := lit "fft";
     last_verified_unit := Some 41; temperature_c := None; package_power_w := Some 7;
     frequency_hz := None; ecc_corrected := Some 0; ecc_uncorrected := None;
     workers_alive := 4; workers_stale := 1 |}.

Lemma sample_entry_ok : entry_ok sample_entry.
Proof.
  split.
  1: cbn; lia.
  1, 2: vm_compute; congruence.
  1: repeat apply Forall_cons_2; try apply Forall_nil_2; cbn; unfold in_u64; lia || exact I.
  all: cbn; unfold in_u32; lia.
Qed.

Lemma sample_entries_ok : Forall entry_ok [sample_entry; sample_entry].
Proof. repeat apply Forall_cons_2; auto using sample_entry_ok. Qed.

Lemma entry_round_trip_witness :
  decode_entry (encode_entry sample_entry) = Some sample_entry.
Proof. apply entry_round_trip. apply sample_entry_ok. Defined.

(** A whole journal replays to exactly the entries written, in order, and its
    ending tells whether the terminator was written. *)
Theorem scan_written es closed :
  Forall entry_ok es →
  scan (written es closed) =
  {| entries := es;
     ending := if closed then kTerminated else if bool_decide (es = []) then kEmpty else kUnterminated |}.
Proof.
  intros Hes. destruct (written es closed) as [|b bs] eqn:E.
  { destruct es as [|e es]; [by destruct closed|]. rewrite written_cons in E.
    apply (f_equal length) in E. rewrite length_app in E. pose proof (length_record_pos e).
    simpl in E. lia. }
  unfold scan. rewrite <- E. pose proof (length_records es) as Hl.
  replace (S (length (written es closed)))
    with (length es + S (length (written es closed) - length es))%nat
    by (unfold written; rewrite length_app; lia).
  unfold written at 2. rewrite scan_from_entries by done. destruct closed.
  { by rewrite scan_from_terminator. }
  destruct es; [done|]. by rewrite bool_decide_false by done.
Qed.

Lemma scan_written_witness :
  scan (written [sample_entry; sample_entry] true) =
  {| entries := [sample_entry; sample_entry]; ending := kTerminated |}.
Proof. apply scan_written. apply sample_entries_ok. Defined.

(** C29. A journal cut at any byte: the entries replayed are exactly those whose
    records lie wholly before the cut, and the ending is [kEmpty] for no bytes,
    [kUnterminated] at a record boundary and [kTornTail] inside a record, never
    [kCorrupt]. *)
Theorem scan_cut es closed m :
  Forall entry_ok es → (m < length (written es closed))%nat →
  scan (take m (written es closed)) =
  {| entries := whole_before m es;
     ending := if bool_decide (m = 0%nat) then kEmpty else cut_ending m es |}.
Proof.
  intros Hes Hm. case_bool_decide as E.
  { subst m. rewrite take_0. destruct es as [|e es]; [done|]. cbn [whole_prefix].
    pose proof (length_record_pos e). by destruct (Nat.leb_spec (length (record_of e)) 0); [lia|]. }
  assert (Hl : length (take m (written es closed)) = m) by (rewrite length_take; lia).
  unfold scan. destruct (take m _) as [|b bs] eqn:Et; [simpl in Hl; lia|]. rewrite <- Et.
  rewrite (scan_from_fuel _ (S (length es + m))) by (rewrite Et, Hl; lia).
  by rewrite scan_from_cut by (done || lia).
Qed.

Lemma scan_cut_witness :
  scan (take 90 (written [sample_entry; sample_entry] false)) =
  {| entries := [sample_entry]; ending := kTornTail |}.
Proof.
  rewrite scan_cut; [vm_compute; done|apply sample_entries_ok|vm_compute; lia].
Defined.

(** A journal with any one byte changed: the entries replayed are exactly
    those whose records lie wholly before the changed byte, each as written, and
    the replay reports the damage ([kTornTail] or [kCorrupt], never a clean end). *)
Theorem scan_changed es closed i x y :
  Forall entry_ok es → written es closed !! i = Some x → x ≠ y →
  damaged (whole_before i es) (scan (<[i := y]> (written es closed))).
Proof.
  intros Hes Hx Hne. pose proof (lookup_lt_Some _ _ _ Hx) as Hi.
  pose proof (length_insert (written es closed) i y) as Hl.
  unfold scan. destruct (<[i:=y]> _) as [|b bs] eqn:Et; [simpl in Hl; lia|]. rewrite <- Et in *.
  apply (scan_from_changed _ es closed i x y []); try done.
  rewrite Hl. pose proof (length_records es). unfold written. rewrite length_app. lia.
Qed.

Lemma scan_changed_witness :
  damaged [sample_entry] (scan (<[100%nat := Byte.xff]> (written [sample_entry; sample_entry] true))).
Proof.
  apply (scan_changed [sample_entry; sample_entry] true 100 Byte.x15); [|vm_compute; reflexivity|congruence].
  apply sample_entries_ok.
Defined.
