(* ===== verification/JournalStore.v ===== *)
(** * The journal's writer and its file

    controller/journal/journal.cpp (the writer, the replay) over the [Storage]
    interface of journal.hpp, and file_storage.cpp, which implements that
    interface over the file calls of file_ops.hpp. *)

From S2P Require Export Platform Journal.

(** ** journal::Storage

    What the storage promises its client (journal.hpp): appends go to the end, a
    failed one may have added a prefix, and reading answers every byte. *)

Class StorageOps (S : Type) := {
  storage_append : list byte → S → Result unit JournalError * S;
  storage_sync : S → Result unit JournalError * S;
  storage_read_all : S → Result (list byte) JournalError * S;
}.

Class Storage (S : Type) `{StorageOps S} := {
  held : S → list byte;
  storage_append_ok bs s s' :
    storage_append bs s = (Value tt, s') → held s' = held s ++ bs;
  storage_append_failed bs s s' e :
    storage_append bs s = (Error e, s') →
    jerr_fault e = kStorage ∧ ∃ k, held s' = held s ++ take k bs;
  storage_sync_keeps s r s' :
    storage_sync s = (r, s') →
    held s' = held s ∧ ∀ e, r = Error e → jerr_fault e = kStorage;
  storage_read_all_held s r s' :
    storage_read_all s = (r, s') → held s' = held s ∧ ∀ bs, r = Value bs → bs = held s;
}.

(** ** journal.cpp *)

Record FormatWriter := { closed_ : bool }.

Definition journal_error (fault : JournalFault) (detail : text) : JournalError :=
  {| jerr_fault := fault; jerr_detail := detail |}.

Section Writer.
Context {S : Type} `{Storage S}.

Definition writer_append (entry : Entry) (w : FormatWriter) (s : S) :
    Result unit JournalError * FormatWriter * S :=
  if closed_ w then (Error (journal_error kClosed (lit "append after close")), w, s) else
  if (kMaxLabelBytes <? size_of (phase entry)) || (kMaxLabelBytes <? size_of (workload entry))
  then (Error (journal_error kTooLarge (lit "a label is longer than kMaxLabelBytes")), w, s)
  else let '(r, s) := storage_append (frame (encode_entry entry)) s in (r, w, s).

Definition writer_sync (w : FormatWriter) (s : S) : Result unit JournalError * FormatWriter * S :=
  if closed_ w then (Error (journal_error kClosed (lit "sync after close")), w, s) else
  let '(r, s) := storage_sync s in (r, w, s).

Definition writer_close (w : FormatWriter) (s : S) : Result unit JournalError * FormatWriter * S :=
  if closed_ w then (Error (journal_error kClosed (lit "close after close")), w, s) else
  let '(appended, s) := storage_append (frame terminator_payload) s in
  if negb (has_value appended) then (appended, w, s) else
  let '(synced, s) := storage_sync s in (synced, {| closed_ := true |}, s).

Definition open_writer (s : S) : Result FormatWriter JournalError * S :=
  let '(read, s) := storage_read_all s in
  match read with
  | Error e => (Error e, s)
  | Value [] => (Value {| closed_ := false |}, s)
  | Value _ => (Error (journal_error kNotEmpty (lit "the storage already holds a journal")), s)
  end.

Definition replay (s : S) : Result Replay JournalError * S :=
  let '(read, s) := storage_read_all s in
  match read with
  | Error e => (Error e, s)
  | Value bytes => (Value (scan bytes), s)
  end.

(** *** A run of the writer: the calls a client makes, in order *)

Inductive WriterCall := CallAppend (entry : Entry) | CallSync | CallClose.

Definition writer_call (c : WriterCall) : FormatWriter → S → Result unit JournalError * FormatWriter * S :=
  match c with
  | CallAppend e => writer_append e
  | CallSync => writer_sync
  | CallClose => writer_close
  end.

Fixpoint writer_run (cs : list WriterCall) (w : FormatWriter) (s : S) :
    list (Result unit JournalError) * FormatWriter * S :=
  match cs with
  | [] => ([], w, s)
  | c :: cs =>
    let '(r, w, s) := writer_call c w s in
    let '(rs, w, s) := writer_run cs w s in (r :: rs, w, s)
  end.

(** The entries whose append answered success. *)
Definition appended (cs : list WriterCall) (rs : list (Result unit JournalError)) : list Entry :=
  zip cs rs ≫= λ p, match p with (CallAppend e, Value _) => [e] | _ => [] end.

(** No call answered that the storage failed. *)
Definition storage_held_up (rs : list (Result unit JournalError)) : Prop :=
  Forall (λ r, ∀ e, r = Error e → jerr_fault e ≠ kStorage) rs.

(** What the struct's types say of an entry, whatever its labels. *)
Definition entry_typed (e : Entry) : Prop :=
  0 ≤ elapsed_ns e < 2 ^ 63 ∧ Forall opt_u64 (optionals_of e) ∧
  in_u32 (workers_alive e) ∧ in_u32 (workers_stale e).

Definition call_typed (c : WriterCall) : Prop :=
  match c with CallAppend e => entry_typed e | _ => True end.

(** The abstract journal: the entries it holds and whether it is closed. *)
Definition represents (w : FormatWriter) (s : S) (es : list Entry) : Prop :=
  held s = written es (closed_ w) ∧ Forall entry_ok es.

(** *** A call preserves the abstract journal *)

Definition added (c : WriterCall) (r : Result unit JournalError) : list Entry :=
  match c, r with CallAppend e, Value _ => [e] | _, _ => [] end.

Lemma appended_cons c cs r rs : appended (c :: cs) (r :: rs) = added c r ++ appended cs rs.
Proof. unfold appended. cbn [zip zip_with]. rewrite bind_cons. by destruct c, r. Qed.

Lemma entry_typed_ok e :
  entry_typed e →
  (kMaxLabelBytes <? size_of (phase e)) || (kMaxLabelBytes <? size_of (workload e)) = false →
  entry_ok e.
Proof. intros (? & ? & ? & ?) Hl. bool_facts. by split. Qed.

Lemma written_snoc es e : written (es ++ [e]) false = written es false ++ record_of e.
Proof. unfold written. by rewrite bind_app, !app_nil_r, bind_cons, app_nil_r. Qed.

Lemma written_closed es : written es true = written es false ++ terminator_record.
Proof. unfold written. by rewrite app_nil_r. Qed.

(** How the bytes stand after a call: either the abstract journal with what the
    call added, or - only when the storage failed - that journal cut short
    somewhere past what was there before. *)
Definition after_call (c : WriterCall) (r : Result unit JournalError)
    (es : list Entry) (w' : FormatWriter) (s' : S) : Prop :=
  represents w' s' (es ++ added c r) ∨
  (∃ e, r = Error e ∧ jerr_fault e = kStorage) ∧ closed_ w' = false ∧ Forall entry_ok es ∧
  ∃ rec k, held s' = written es false ++ take k rec ∧
    ((∃ e, c = CallAppend e ∧ entry_ok e ∧ rec = record_of e) ∨
     c = CallClose ∧ rec = terminator_record).

Lemma writer_call_step c w s es r w' s' :
  represents w s es → call_typed c → writer_call c w s = (r, w', s') →
  after_call c r es w' s'.
Proof.
  intros [Hh Hes] Hc. destruct c as [e| |]; cbn [writer_call].
  - unfold writer_append. destruct (closed_ w) eqn:Ew.
    { intros [= <- <- <-]. left. split; simpl; rewrite app_nil_r; done || congruence. }
    destruct (_ || _) eqn:El.
    { intros [= <- <- <-]. left. split; simpl; rewrite app_nil_r; done || congruence. }
    pose proof (entry_typed_ok e Hc El) as He. fold (record_of e).
    destruct (storage_append _ s) as [[[]|err] s1] eqn:Ea; intros [= <- <- <-].
    + left. split; simpl; [|by apply Forall_app_2; [|constructor]].
      by rewrite (storage_append_ok _ _ _ Ea), Hh, Ew, written_snoc.
    + destruct (storage_append_failed _ _ _ _ Ea) as [Hs [k Hk]]. right. split_and!; try done.
      { by exists err. }
      exists (record_of e), k. split; [by rewrite Hk, Hh|]. left. by exists e.
  - unfold writer_sync. destruct (closed_ w) eqn:Ew.
    { intros [= <- <- <-]. left. split; simpl; rewrite app_nil_r; done || congruence. }
    destruct (storage_sync s) as [r1 s1] eqn:Es; intros [= <- <- <-].
    left. destruct (storage_sync_keeps _ _ _ Es) as [Hk _].
    split; simpl; rewrite app_nil_r; done || congruence.
  - unfold writer_close. destruct (closed_ w) eqn:Ew.
    { intros [= <- <- <-]. left. split; simpl; rewrite app_nil_r; done || congruence. }
    fold terminator_record.
    destruct (storage_append _ s) as [[[]|err] s1] eqn:Ea; simpl.
    + destruct (storage_sync s1) as [r2 s2] eqn:Es; intros [= <- <- <-].
      destruct (storage_sync_keeps _ _ _ Es) as [Hk _].
      left. split; simpl; rewrite app_nil_r; [|done].
      by rewrite Hk, (storage_append_ok _ _ _ Ea), Hh, written_closed.
    + intros [= <- <- <-]. destruct (storage_append_failed _ _ _ _ Ea) as [Hs [k Hk]].
      right. split_and!; try done; [by exists err|].
      exists terminator_record, k. split; [by rewrite Hk, Hh|]. by right.
Qed.

Lemma writer_run_step cs w s es rs w' s' :
  represents w s es → Forall call_typed cs → writer_run cs w s = (rs, w', s') →
  storage_held_up rs → represents w' s' (es ++ appended cs rs).
Proof.
  intros Hr Hcs. revert w s es rs Hr. induction Hcs as [|c cs Hc _ IH]; intros w s es rs Hr; simpl.
  { intros [= <- <- <-] _. by rewrite app_nil_r. }
  destruct (writer_call c w s) as [[r w1] s1] eqn:Ec.
  destruct (writer_run cs w1 s1) as [[rs1 w2] s2] eqn:Er. intros [= <- <- <-] Hok.
  apply Forall_cons_1 in Hok as [Hr1 Hok]. rewrite appended_cons, app_assoc.
  eapply IH; [|done|done].
  destruct (writer_call_step _ _ _ _ _ _ _ Hr Hc Ec) as [|[(e & -> & He) _]]; [done|].
  by destruct (Hr1 e).
Qed.

Lemma open_writer_represents s w s' :
  open_writer s = (Value w, s') → represents w s' [].
Proof.
  unfold open_writer. destruct (storage_read_all s) as [[[|]|] s1] eqn:E; try done.
  intros [= <- <-]. destruct (storage_read_all_held _ _ _ E) as [Hk Hv].
  split; [|done]. by rewrite Hk, <- (Hv [] eq_refl).
Qed.

Lemma replay_held s r s' : replay s = (Value r, s') → r = scan (held s).
Proof.
  unfold replay. destruct (storage_read_all s) as [[bs|] s1] eqn:E; [|done].
  intros [= <- <-]. destruct (storage_read_all_held _ _ _ E) as [_ Hv]. by rewrite (Hv bs eq_refl).
Qed.

Lemma whole_before_past es e k :
  whole_before (length (written es false) + k) (es ++ [e]) =
  es ++ (if (length (record_of e) <=? k)%nat then [e] else []).
Proof. unfold written. by rewrite app_nil_r, whole_prefix_app. Qed.

Lemma whole_before_all es k : whole_before (length (written es false) + k) es = es.
Proof. apply whole_prefix_all. unfold written. rewrite app_nil_r. lia. Qed.

(** *** What a replay says of a run

    The ending of a journal whose bytes are whole. *)
Definition whole_ending (w : FormatWriter) (es : list Entry) : Ending :=
  if closed_ w then kTerminated else if bool_decide (es = []) then kEmpty else kUnterminated.

(** C38. The writer implements its abstract journal over a lawful storage that holds up:
    from an accepted [open_writer], whatever sequence of appends, syncs and closes
    follows, if none of them was answered with a storage failure then a replay answers
    exactly the entries whose append succeeded, in order, terminated if and only if the
    writer was closed. What a storage that fails leaves is in the next theorem. *)
Theorem writer_run_replays cs s0 w0 s1 rs w s2 r s3 :
  open_writer s0 = (Value w0, s1) → Forall call_typed cs →
  writer_run cs w0 s1 = (rs, w, s2) → storage_held_up rs →
  replay s2 = (Value r, s3) →
  r = {| entries := appended cs rs; ending := whole_ending w (appended cs rs) |}.
Proof.
  intros Ho Hcs Hrun Hok Hrep. apply open_writer_represents in Ho.
  destruct (writer_run_step _ _ _ _ _ _ _ Ho Hcs Hrun Hok) as [Hh Hes].
  rewrite (replay_held _ _ _ Hrep), Hh. by apply scan_written.
Qed.

(** A storage failure leaves the entries before it whole, and never reads as
    corruption. *)
Lemma scan_torn_entry es e k :
  Forall entry_ok es → entry_ok e →
  let r := scan (written es false ++ take k (record_of e)) in
  (entries r = es ∨ entries r = es ++ [e]) ∧ ending r ≠ kCorrupt ∧ ending r ≠ kTerminated.
Proof.
  intros Hes He. rewrite <- take_app_add, <- written_snoc.
  assert (Hse : Forall entry_ok (es ++ [e])) by (by apply Forall_app_2; [|constructor]).
  destruct (decide (length (written es false) + k < length (written (es ++ [e]) false))%nat) as [Hl|Hl].
  - rewrite scan_cut by done. simpl. rewrite whole_before_past. unfold cut_ending.
    split; [destruct (_ <=? _)%nat; rewrite ?app_nil_r; auto|]. by repeat case_bool_decide.
  - rewrite take_ge, scan_written by (done || lia). rewrite bool_decide_false by (by destruct es).
    split; [by right|done].
Qed.

Lemma scan_torn_terminator es k :
  Forall entry_ok es →
  let r := scan (written es false ++ take k terminator_record) in
  entries r = es ∧ ending r ≠ kCorrupt.
Proof.
  intros Hes. rewrite <- take_app_add, <- written_closed.
  destruct (decide (length (written es false) + k < length (written es true))%nat) as [Hl|Hl].
  - rewrite scan_cut by done. simpl. rewrite whole_before_all. unfold cut_ending.
    split; [done|]. by repeat case_bool_decide.
  - by rewrite take_ge, scan_written by (done || lia).
Qed.

(** C39. A run that ends at a storage failure: when the storage held up through
    the calls before it and then failed one call, a replay answers the entries
    appended before it, plus at most the one whose append failed, and never
    calls the journal corrupt. *)
Theorem writer_run_fails_safe cs c s0 w0 s1 rs w s2 r w' s3 rep s4 :
  open_writer s0 = (Value w0, s1) → Forall call_typed cs → call_typed c →
  writer_run cs w0 s1 = (rs, w, s2) → storage_held_up rs →
  writer_call c w s2 = (r, w', s3) → replay s3 = (Value rep, s4) →
  (entries rep = appended cs rs ∨ ∃ e, c = CallAppend e ∧ entries rep = appended cs rs ++ [e]) ∧
  ending rep ≠ kCorrupt.
Proof.
  intros Ho Hcs Hc Hrun Hok Hcall Hrep. apply open_writer_represents in Ho.
  pose proof (writer_run_step _ _ _ _ _ _ _ Ho Hcs Hrun Hok) as Hr. cbn [app] in Hr.
  rewrite (replay_held _ _ _ Hrep).
  destruct (writer_call_step _ _ _ _ _ _ _ Hr Hc Hcall)
    as [[Hh Hes]|(_ & _ & Hes & rec & k & -> & [(e & -> & He & ->)|[-> ->]])].
  - rewrite Hh, scan_written by done. simpl. split.
    + destruct c as [e| |], r; simpl; rewrite ?app_nil_r; eauto.
    + destruct (closed_ w'); [done|]. by case_bool_decide.
  - destruct (scan_torn_entry _ _ k Hes He) as (Hk & Hc' & _). split; [|done]. destruct Hk; eauto.
  - destruct (scan_torn_terminator _ k Hes) as (Hk & Hc'). split; [by left|done].
Qed.

End Writer.

(** ** file_storage.cpp over file_ops.hpp *)

Inductive Mode := kAppend | kRead | kDirectory.

(** The file calls, over a state [F] of the file system; [content] is what the
    journal's file holds and [offset fd] where a read descriptor stands in it. *)
Class FileOps (F : Type) := {
  ops_open : text → Mode → F → Result Z SyscallError * F;
  ops_write : Z → list byte → F → Result Z SyscallError * F;
  ops_read : Z → nat → F → Result (list byte) SyscallError * F;
  ops_fsync : Z → F → Result unit SyscallError * F;
  ops_close : Z → F → Result unit SyscallError * F;
  ops_lock : Z → F → Result unit SyscallError * F;
  ops_strerror : Z → text;
  content : F → list byte;
  offset : F → Z → nat;
}.

(** open(2), write(2) with O_APPEND, read(2), fsync(2), close(2) as documented, for
    the file at [path] opened for append as [fd_]. *)
Class FileOpsLaws (F : Type) `{FileOps F} (path : text) (fd_ : Z) := {
  open_content p m f r f' : ops_open p m f = (r, f') → content f' = content f;
  open_offset f fd f' : ops_open path kRead f = (Value fd, f') → offset f' fd = 0%nat;
  write_content bs f n f' :
    ops_write fd_ bs f = (Value n, f') →
    0 ≤ n ≤ size_of bs ∧ content f' = content f ++ take (Z.to_nat n) bs;
  write_failed bs f e f' : ops_write fd_ bs f = (Error e, f') → content f' = content f;
  read_content fd size f r f' :
    ops_read fd size f = (r, f') → content f' = content f;
  read_bytes fd size f bs f' :
    ops_read fd size f = (Value bs, f') →
    (0 < size)%nat →
    bs = take (length bs) (drop (offset f fd) (content f)) ∧
    offset f' fd = (offset f fd + length bs)%nat ∧
    (bs = [] → (length (content f) ≤ offset f fd)%nat);
  read_failed fd size f e f' : ops_read fd size f = (Error e, f') → offset f' fd = offset f fd;
  fsync_content fd f r f' : ops_fsync fd f = (r, f') → content f' = content f;
  close_content fd f r f' : ops_close fd f = (r, f') → content f' = content f;
}.

Definition kMaxConsecutiveInterrupts : nat := 128.
Definition kReadChunkBytes : nat := 4096.

Section FileStorage.
Context {F : Type} `{FileOps F}.

Definition storage_fault (error : SyscallError) : JournalError :=
  {| jerr_fault := kStorage; jerr_detail := describe_syscall_error ops_strerror error |}.

(** [again] counts the retries left. *)
Fixpoint retry_from {A} (again : nat) (call : F → Result A SyscallError * F) (f : F) :
    Result A SyscallError * F :=
  let '(result, f) := call f in
  match again, result with
  | S again, Error e => if number_ e =? EINTR then retry_from again call f else (result, f)
  | _, _ => (result, f)
  end.

Definition retry_interrupted {A} (call : F → Result A SyscallError * F) :=
  retry_from kMaxConsecutiveInterrupts call.

(** [std::filesystem::path::parent_path], the standard library's, is [parent]. *)
Definition sync_directory (parent : text → text) (path : text) (f : F) :
    Result unit SyscallError * F :=
  let directory := match parent path with [] => lit "." | d => d end in
  let '(opened, f) := ops_open directory kDirectory f in
  match opened with
  | Error e => (Error e, f)
  | Value fd =>
    let '(synced, f) := retry_interrupted (ops_fsync fd) f in
    let '(closed, f) := ops_close fd f in
    (if has_value synced then closed else synced, f)
  end.

Definition storage_open (parent : text → text) (path : text) (f : F) :
    Result Z JournalError * F :=
  let '(opened, f) := ops_open path kAppend f in
  match opened with
  | Error e => (Error (storage_fault e), f)
  | Value fd =>
    let '(durable, f) := sync_directory parent path f in
    match durable with
    | Error e => let '(_, f) := ops_close fd f in (Error (storage_fault e), f)
    | Value _ => (Value fd, f)
    end
  end.

Definition storage_lock (fd : Z) (f : F) : Result unit SyscallError * F :=
  retry_interrupted (ops_lock fd) f.

Definition storage_close (fd : Z) (f : F) : Result unit JournalError * F :=
  let '(closed, f) := ops_close fd f in
  match closed with
  | Error e => (if negb (number_ e =? EINTR) then Error (storage_fault e) else Value tt, f)
  | Value _ => (Value tt, f)
  end.

Definition no_progress : JournalError :=
  {| jerr_fault := kStorage; jerr_detail := lit "write made no progress" |}.

(** The loop of FileStorage::append; every turn that goes on consumes a byte. *)
Fixpoint append_from (fuel : nat) (fd : Z) (bytes : list byte) (f : F) :
    Result unit JournalError * F :=
  match bytes with
  | [] => (Value tt, f)
  | _ =>
    let '(written, f) := retry_interrupted (ops_write fd bytes) f in
    match written with
    | Error e => (Error (storage_fault e), f)
    | Value n =>
      if n =? 0 then (Error no_progress, f) else
      match fuel with
      | O => (Error no_progress, f)
      | S fuel => append_from fuel fd (drop (Z.to_nat (Z.min n (size_of bytes))) bytes) f
      end
    end
  end.

Definition file_append (fd : Z) (bytes : list byte) (f : F) : Result unit JournalError * F :=
  append_from (length bytes) fd bytes f.

Definition file_sync (fd : Z) (f : F) : Result unit JournalError * F :=
  let '(synced, f) := retry_interrupted (ops_fsync fd) f in
  (match synced with Error e => Error (storage_fault e) | Value _ => Value tt end, f).

(** The loop of FileStorage::read_all: the bytes read, or the failure. Every turn
    that goes on reads a byte; [None] is the loop not done within the fuel. *)
Fixpoint read_from (fuel : nat) (fd : Z) (whole : list byte) (f : F) :
    option (Result (list byte) SyscallError * F) :=
  let '(got, f) := retry_interrupted (ops_read fd kReadChunkBytes) f in
  match got with
  | Error e => Some (Error e, f)
  | Value [] => Some (Value whole, f)
  | Value bytes =>
    match fuel with
    | O => None
    | S fuel => read_from fuel fd (whole ++ bytes) f
    end
  end.

Definition file_read_all (path : text) (f : F) : option (Result (list byte) JournalError * F) :=
  let '(opened, f) := ops_open path kRead f in
  match opened with
  | Error e => Some (Error (storage_fault e), f)
  | Value fd =>
    '(whole, f) ← read_from (length (content f)) fd [] f;
    let '(closed, f) := ops_close fd f in
    Some (match whole, closed with
          | Error e, _ => Error (storage_fault e)
          | Value _, Error e => Error (storage_fault e)
          | Value bytes, Value _ => Value bytes
          end, f)
  end.
(** *** The loops keep the storage's promises *)

Lemma retry_from_inv {A} (Keep : F → Prop) again (call : F → Result A SyscallError * F) f r f' :
  (∀ f1 e f2, Keep f1 → call f1 = (Error e, f2) → Keep f2) →
  Keep f → retry_from again call f = (r, f') → ∃ f0, Keep f0 ∧ call f0 = (r, f').
Proof.
  intros Hk. revert f. induction again as [|again IH]; intros f Hf; cbn [retry_from];
    destruct (call f) as [[v|e] f1] eqn:E; try (intros [= <- <-]; by exists f).
  destruct (number_ e =? EINTR); [|intros [= <- <-]; by exists f]. apply IH. by eapply Hk.
Qed.

Context (path : text) (fd_ : Z) `{!FileOpsLaws F path fd_}.

Lemma retry_write bs f r f' :
  retry_interrupted (ops_write fd_ bs) f = (r, f') →
  match r with
  | Value n => 0 ≤ n ≤ size_of bs ∧ content f' = content f ++ take (Z.to_nat n) bs
  | Error _ => content f' = content f
  end.
Proof.
  intros Hr. destruct (retry_from_inv (λ f1, content f1 = content f) _ _ _ _ _
    (λ f1 e f2 Hk Hc, eq_trans (write_failed _ _ _ _ Hc) Hk) eq_refl Hr) as (f0 & Hk & Hc).
  destruct r as [n|e].
  - destruct (write_content _ _ _ _ Hc) as [? ->]. by rewrite Hk.
  - by rewrite (write_failed _ _ _ _ Hc).
Qed.

Lemma append_from_spec fuel bs f r f' :
  append_from fuel fd_ bs f = (r, f') →
  match r with
  | Value _ => content f' = content f ++ bs
  | Error e => jerr_fault e = kStorage ∧ ∃ k, content f' = content f ++ take k bs
  end.
Proof.
  revert bs f. induction fuel as [|fuel IH]; intros bs f; cbn [append_from];
    destruct bs as [|b bs]; try (intros [= <- <-]; by rewrite app_nil_r);
    set (l := b :: bs);
    destruct (retry_interrupted _ f) as [[n|e] f1] eqn:E; apply retry_write in E; cbv iota in E.
  1, 2, 4: try destruct (n =? 0); intros [= <- <-]; split; try done; try (exists 0%nat; by rewrite app_nil_r);
    try (exists (Z.to_nat n); apply E).
  destruct E as [Hn Hc]. destruct (n =? 0) eqn:E0.
  { intros [= <- <-]. split; [done|]. exists (Z.to_nat n). apply Hc. }
  intros Ha%IH. rewrite Z.min_l in Ha by lia. destruct r as [[]|e].
  - by rewrite Ha, Hc, <- app_assoc, take_drop.
  - destruct Ha as [He [k Hk]]. split; [done|]. exists (Z.to_nat n + k)%nat.
    rewrite Hk, Hc, <- app_assoc. f_equal.
    rewrite <- (take_drop (Z.to_nat n) l) at 3. rewrite take_app_add'; [done|].
    rewrite length_take. unfold size_of in Hn. lia.
Qed.

(** The fuel of [file_append] is enough: more changes nothing. *)
Lemma append_from_fuel fuel fuel' bs f :
  (length bs ≤ fuel)%nat → (length bs ≤ fuel')%nat →
  append_from fuel fd_ bs f = append_from fuel' fd_ bs f.
Proof.
  revert fuel' bs f. induction fuel as [|fuel IH]; intros [|fuel'] [|b bs] f Hl Hl'; try done;
    simpl in Hl, Hl'; try lia.
  cbn [append_from]. set (l := b :: bs) in *.
  destruct (retry_interrupted _ f) as [[n|e] f1] eqn:E; [|done].
  apply retry_write in E as [Hn _]. destruct (n =? 0) eqn:E0; [done|]. bool_facts.
  assert (length (drop (Z.to_nat (Z.min n (size_of l))) l) ≤ length bs)%nat.
  { rewrite length_drop. unfold l, size_of in *. simpl in *. lia. }
  apply IH; lia.
Qed.

Lemma retry_keeps_content {A} (call : F → Result A SyscallError * F) f r f' :
  (∀ f1 r1 f2, call f1 = (r1, f2) → content f2 = content f1) →
  retry_interrupted call f = (r, f') → content f' = content f.
Proof.
  intros Hc Hr. destruct (retry_from_inv (λ f1, content f1 = content f) _ _ _ _ _
    (λ f1 e f2 Hk Hcall, eq_trans (Hc _ _ _ Hcall) Hk) eq_refl Hr) as (f0 & Hk & Hcall).
  by rewrite (Hc _ _ _ Hcall).
Qed.

Lemma retry_read fd f r f' :
  retry_interrupted (ops_read fd kReadChunkBytes) f = (r, f') →
  content f' = content f ∧
  ∀ bs, r = Value bs →
    bs = take (length bs) (drop (offset f fd) (content f)) ∧
    offset f' fd = (offset f fd + length bs)%nat ∧
    (bs = [] → (length (content f) ≤ offset f fd)%nat).
Proof.
  intros Hr. assert (Hcon : content f' = content f).
  { eapply retry_keeps_content; [|done]. intros. by eapply read_content. }
  split; [done|]. intros bs ->.
  destruct (retry_from_inv (λ f1, content f1 = content f ∧ offset f1 fd = offset f fd) _
    (ops_read fd kReadChunkBytes) f _ _
    (λ f1 e f2 Hk Hc, conj (eq_trans (read_content _ _ _ _ _ Hc) (proj1 Hk))
                           (eq_trans (read_failed _ _ _ _ _ Hc) (proj2 Hk)))
    (conj eq_refl eq_refl) Hr) as (f0 & [Hk Ho] & Hc).
  pose proof (read_bytes _ _ _ _ _ Hc ltac:(unfold kReadChunkBytes; lia)) as Hb.
  by rewrite Hk, Ho in Hb.
Qed.

Lemma read_from_spec fuel fd whole f :
  offset f fd = length whole → whole = take (length whole) (content f) →
  (length (content f) ≤ length whole + fuel)%nat →
  ∃ r f', read_from fuel fd whole f = Some (r, f') ∧ content f' = content f ∧
          ∀ bs, r = Value bs → bs = content f.
Proof.
  revert whole f. induction fuel as [|fuel IH]; intros whole f Ho Hw Hl; cbn [read_from];
    destruct (retry_interrupted _ f) as [r f1] eqn:E; apply retry_read in E as [Hc Hb];
    destruct r as [[|b bs]|e]; try by (eexists _, f1; split_and!; eauto).
  1, 3: destruct (Hb _ eq_refl) as (_ & _ & Hend); eexists _, f1; split_and!; [done|done|];
    intros ? [= <-]; specialize (Hend eq_refl); rewrite Hw; apply take_ge; lia.
  - exfalso. destruct (Hb _ eq_refl) as (Hbs & _ & _).
    apply (f_equal length) in Hbs. rewrite length_take, length_drop in Hbs. cbn [length] in Hbs. lia.
  - destruct (Hb _ eq_refl) as (Hbs & Ho' & _). rewrite Ho in Hbs, Ho'. rewrite <- Hc.
    apply IH; rewrite ?length_app, ?Ho', ?Hc; [done| |simpl; lia].
    rewrite Hw at 1. rewrite Hbs at 1. rewrite take_take_drop. done.
Qed.

Lemma file_read_all_spec f :
  ∃ r f', file_read_all path f = Some (r, f') ∧ content f' = content f ∧
          ∀ bs, r = Value bs → bs = content f.
Proof.
  unfold file_read_all. destruct (ops_open path kRead f) as [[fd|e] f1] eqn:Eo;
    pose proof (open_content _ _ _ _ _ Eo) as Hc; [|by eexists _, f1].
  destruct (read_from_spec (length (content f1)) fd [] f1) as (r & f2 & -> & Hc2 & Hv);
    [by eapply open_offset|done|simpl; lia|].
  cbn [mbind option_bind]. destruct (ops_close fd f2) as [rc f3] eqn:Ec.
  eexists _, f3. split; [done|]. rewrite (close_content _ _ _ _ Ec), Hc2, Hc.
  split; [done|]. intros bs. destruct r, rc; intros [= <-]. rewrite <- Hc. by apply Hv.
Qed.

(** FileStorage is a Storage: what [file_read_all] answers, for the instance. *)
Definition file_storage_ops : StorageOps F := {|
  storage_append := file_append fd_;
  storage_sync := file_sync fd_;
  storage_read_all f :=
    match file_read_all path f with Some r => r | None => (Error no_progress, f) end;
|}.

Lemma file_sync_keeps f r f' :
  file_sync fd_ f = (r, f') → content f' = content f ∧ ∀ e, r = Error e → jerr_fault e = kStorage.
Proof.
  unfold file_sync. destruct (retry_interrupted _ f) as [r1 f1] eqn:E. intros [= <- <-].
  split; [|by destruct r1; intros ? [= <-]].
  eapply retry_keeps_content; [|done]. intros. by eapply fsync_content.
Qed.

Definition file_storage : @Storage F file_storage_ops.
Proof.
  refine {| held := content |}.
  - intros bs f f' Ha. exact (append_from_spec _ _ _ _ _ Ha).
  - intros bs f f' e Ha. exact (append_from_spec _ _ _ _ _ Ha).
  - intros f r f' Hs. by apply file_sync_keeps.
  - intros f r f' Hr. cbn [storage_read_all file_storage_ops] in Hr.
    destruct (file_read_all_spec f) as (r1 & f1 & E & Hc & Hv). rewrite E in Hr.
    by injection Hr as -> ->.
Defined.

(** FileStorage implements the Storage contract over the file calls: an
    append that succeeds adds exactly its bytes however the kernel splits the
    writes, one that fails adds a prefix of them and answers [kStorage], and
    [read_all] returns, with the whole file when it succeeds. *)
Theorem file_storage_contract bs f r f' :
  file_append fd_ bs f = (r, f') →
  match r with
  | Value _ => content f' = content f ++ bs
  | Error e => jerr_fault e = kStorage ∧ ∃ k, content f' = content f ++ take k bs
  end ∧
  ∃ rr f'', file_read_all path f' = Some (rr, f'') ∧ content f'' = content f' ∧
            ∀ all, rr = Value all → all = content f'.
Proof. intros Ha. split; [exact (append_from_spec _ _ _ _ _ Ha)|apply file_read_all_spec]. Qed.
End FileStorage.

(** ** A disk with little room

    A file system with one file, whose write takes at most [disk_chunk] bytes and
    fails with ENOSPC once [disk_room] is used up: the contract's hypotheses hold
    of it. *)

Record Disk := { disk_bytes : list byte; disk_room : nat; disk_chunk : nat; disk_offset : nat }.

Definition disk_error (name : text) : SyscallError :=
  {| number_ := 28; call := name; subject := lit "fd 3" |}.

#[export] Instance disk_ops : FileOps Disk := {|
  ops_open p m d :=
    (Value 3, {| disk_bytes := disk_bytes d; disk_room := disk_room d;
                 disk_chunk := disk_chunk d; disk_offset := 0 |});
  ops_write fd bs d :=
    let n := Nat.min (length bs) (Nat.min (disk_chunk d) (disk_room d)) in
    if (n =? 0)%nat then (Error (disk_error (lit "write")), d)
    else (Value (Z.of_nat n),
          {| disk_bytes := disk_bytes d ++ take n bs; disk_room := (disk_room d - n)%nat;
             disk_chunk := disk_chunk d; disk_offset := disk_offset d |});
  ops_read fd size d :=
    let bs := take size (drop (disk_offset d) (disk_bytes d)) in
    (Value bs, {| disk_bytes := disk_bytes d; disk_room := disk_room d;
                  disk_chunk := disk_chunk d; disk_offset := (disk_offset d + length bs)%nat |});
  ops_fsync fd d := (Value tt, d);
  ops_close fd d := (Value tt, d);
  ops_lock fd d := (Value tt, d);
  ops_strerror n := lit "No space left on device";
  content := disk_bytes;
  offset d fd := disk_offset d;
|}.

#[export] Instance disk_laws : FileOpsLaws Disk (lit "run.journal") 3.
Proof.
  split.
  - by intros p m d r d' [= <- <-].
  - by intros d fd d' [= <- <-].
  - intros bs d n d'. cbn. case_match eqn:E; [done|]. intros [= <- <-]. apply Nat.eqb_neq in E.
    rewrite Nat2Z.id. split; [unfold size_of; lia|done].
  - intros bs d e d'. cbn. case_match; [|done]. by intros [= <- <-].
  - by intros fd size d r d' [= <- <-].
  - intros fd size d bs d' [= <- <-] Hs. cbn. split_and!; [|done|].
    + rewrite length_take. set (l := drop _ _).
      destruct (decide (size ≤ length l)%nat); [by rewrite Nat.min_l by lia|].
      by rewrite Nat.min_r, !take_ge by lia.
    + intros E. apply (f_equal length) in E. rewrite length_take, length_drop in E. simpl in E. lia.
  - by intros fd size d e d' [= <- <-].
  - by intros fd d r d' [= <- <-].
  - by intros fd d r d' [= <- <-].
Qed.

Definition disk_storage_ops : StorageOps Disk := file_storage_ops (lit "run.journal") 3.
Definition disk_storage : @Storage Disk disk_storage_ops := file_storage (lit "run.journal") 3.
#[export] Existing Instances disk_storage_ops disk_storage.

Definition empty_disk (room : nat) : Disk :=
  {| disk_bytes := []; disk_room := room; disk_chunk := 7; disk_offset := 0 |}.

Definition sample_calls : list WriterCall := [CallAppend sample_entry; CallSync].

Lemma sample_calls_typed : Forall call_typed sample_calls.
Proof. destruct sample_entry_ok. repeat apply Forall_cons_2; by try apply Forall_nil_2. Qed.

(** Runs the writer on a disk of [room] bytes, replays, and names the outcomes. *)
Definition disk_run (cs : list WriterCall) (room : nat) :=
  let '(rs, w, d) := writer_run cs {| closed_ := false |} (empty_disk room) in
  (rs, w, d, replay d).

Definition fresh_writer : FormatWriter := {| closed_ := false |}.

Lemma writer_run_replays_witness :
  (replay (writer_run [CallAppend sample_entry; CallSync; CallClose] fresh_writer (empty_disk 100)).2).1
  = Value {| entries := [sample_entry]; ending := kTerminated |}.
Proof.
  set (cs := [CallAppend sample_entry; CallSync; CallClose]).
  set (out := writer_run cs fresh_writer (empty_disk 100)).
  destruct (replay out.2) as [[r|e] s3] eqn:E; [|vm_compute in E; discriminate].
  cbn [fst]. f_equal.
  rewrite (writer_run_replays cs (empty_disk 100) fresh_writer (empty_disk 100)
    out.1.1 out.1.2 out.2 r s3).
  - vm_compute. reflexivity.
  - reflexivity.
  - repeat apply Forall_cons_2; try apply Forall_nil_2; try exact I.
    apply (Forall_inv sample_calls_typed).
  - vm_compute. reflexivity.
  - vm_compute. repeat constructor; discriminate.
  - exact E.
Defined.

Lemma writer_run_fails_safe_witness :
  let d := (writer_run sample_calls fresh_writer (empty_disk 100)).2 in
  (replay (writer_append sample_entry fresh_writer d).2).1
  = Value {| entries := [sample_entry]; ending := kTornTail |} ∧
  ∀ rep s4, replay (writer_append sample_entry fresh_writer d).2 = (Value rep, s4) →
    ending rep ≠ kCorrupt.
Proof.
  split; [vm_compute; reflexivity|]. intros rep s4.
  set (out := writer_run sample_calls fresh_writer (empty_disk 100)).
  set (last := writer_append sample_entry fresh_writer out.2). intros Hrep.
  apply (writer_run_fails_safe sample_calls (CallAppend sample_entry) (empty_disk 100) fresh_writer
    (empty_disk 100) out.1.1 fresh_writer out.2 last.1.1 last.1.2 last.2 rep s4).
  - reflexivity.
  - apply sample_calls_typed.
  - apply (Forall_inv sample_calls_typed).
  - vm_compute. reflexivity.
  - vm_compute. repeat constructor; discriminate.
  - vm_compute. reflexivity.
  - exact Hrep.
Defined.

Lemma file_storage_contract_witness :
  content (file_append 3 (record_of sample_entry) (empty_disk 100)).2 = record_of sample_entry ∧
  (file_append 3 (record_of sample_entry) (empty_disk 40)).1
    = Error (storage_fault (disk_error (lit "write"))).
Proof.
  split; [|vm_compute; reflexivity].
  set (out := file_append 3 (record_of sample_entry) (empty_disk 100)).
  destruct (file_storage_contract (lit "run.journal") 3 (record_of sample_entry) (empty_disk 100)
    out.1 out.2) as [Hc _]; [vm_compute; reflexivity|].
  destruct out.1 as [u|e] eqn:E; [exact Hc|vm_compute in E; discriminate].
Defined.

(** What a torn record looks like when the run goes on to close its journal, as
    [end_journal] (main/cli.cpp) does whatever the last append answered: the
    terminator lands behind the torn bytes, which then may read as corruption, as
    the comment on FileStorage says. *)
Example close_after_torn_append :
  let s := (written [sample_entry] false ++ take 80 (record_of sample_entry) ++ terminator_record) in
  scan s = {| entries := [sample_entry]; ending := kCorrupt |}.
Proof. vm_compute. reflexivity. Qed.
