(* ===== verification/IpcRecord.v ===== *)
(** * The record channel

    worker/ipc/record.cpp: the frames a worker writes on its pipe, the reader that
    turns bytes in any pieces back into records and never resynchronises, the
    worker's writing loop and the controller's draining of one read. *)

From S2P Require Export Crc Platform.

Inductive RecordType := kStarted | kFinished | kRecordError.

Definition record_number (type : RecordType) : Z :=
  match type with kStarted => 1 | kFinished => 2 | kRecordError => 3 end.

Definition describe_record_type (type : RecordType) : text :=
  match type with
  | kStarted => lit "started"
  | kFinished => lit "finished"
  | kRecordError => lit "error"
  end.

Record IpcRecord := { rec_type : Z; rec_payload : list byte }.

#[export] Instance IpcRecord_eq_dec : EqDecision IpcRecord.
Proof. solve_decision. Defined.

Inductive FrameFault := kBadMagic | kBadVersion | kOversized | kBadChecksum | kTruncated.

#[export] Instance FrameFault_eq_dec : EqDecision FrameFault.
Proof. solve_decision. Defined.

Definition describe_fault (fault : FrameFault) : text :=
  match fault with
  | kBadMagic => lit "the bytes do not begin a record frame"
  | kBadVersion => lit "the frame is of a version this build does not read"
  | kOversized => lit "the frame claims a payload larger than any this build writes"
  | kBadChecksum => lit "the frame's checksum does not match its bytes"
  | kTruncated => lit "the stream ended inside a frame"
  end.

Record FrameError := { fault_ : FrameFault; detail_ : text }.

Definition describe_frame_error (error : FrameError) : text :=
  describe_fault (fault_ error)
  ++ (match detail_ error with [] => [] | d => lit ": " ++ d end).

(** ChannelError: the framing fault when there is one, else the failed call. *)
Inductive ChannelError := InFrame (frame : FrameError) | InCall (cause : SyscallError).

Definition describe_channel_error (strerror : Z → text) (error : ChannelError) : text :=
  match error with
  | InFrame e => describe_frame_error e
  | InCall e => describe_syscall_error strerror e
  end.

(** The magic spells LFRC. *)
Definition kFrameMagic : Z := 0x4C465243.
Definition kFrameVersion : Z := 1.
Definition kFrameHeaderBytes : nat := 16.
Definition kChecksumOffset : nat := 12.
Definition kMaxPayloadBytes : Z := 64 ≪ 10.


Definition found_expected (what : text) (found expected : Z) : text :=
  what ++ lit " " ++ to_dec found ++ lit ", expected " ++ to_dec expected.

Definition frame_error (fault : FrameFault) (detail : text) : FrameError :=
  {| fault_ := fault; detail_ := detail |}.

Definition checksum_of (header payload : list byte) : Z :=
  crc32_update (crc32 (take kChecksumOffset header)) payload.

(** The header's fields before the checksum. *)
Definition header_fields (type length_ : Z) : list byte :=
  put_le 4 kFrameMagic ++ put_le 2 kFrameVersion ++ put_le 2 type ++ put_le 4 length_.

Definition encode (type : Z) (payload : list byte) : Result (list byte) FrameError :=
  if kMaxPayloadBytes <? size_of payload
  then Error (frame_error kOversized
               (found_expected (lit "payload bytes") (size_of payload) kMaxPayloadBytes))
  else
    let header := header_fields type (u32 (size_of payload)) in
    Value (header ++ put_le 4 (checksum_of header payload) ++ payload).

(** ** RecordReader *)

Record RecordReader := { buffer_ : list byte; reader_fault : option FrameError }.

Definition feed (bytes : list byte) (r : RecordReader) : RecordReader :=
  {| buffer_ := buffer_ r ++ bytes; reader_fault := reader_fault r |}.

Definition faulted (r : RecordReader) : bool := bool_decide (is_Some (reader_fault r)).

(** [fault_ = ...; return *fault_;] *)
Definition set_fault {A} (e : FrameError) (r : RecordReader) : Result A FrameError * RecordReader :=
  (Error e, {| buffer_ := buffer_ r; reader_fault := Some e |}).

(** [get_u16] and [get_u32] of the bytes at an offset. *)
Definition field_at (offset_ width : nat) (bytes : list byte) : Z :=
  get_le (take width (drop offset_ bytes)).

Definition next (r : RecordReader) : Result (option IpcRecord) FrameError * RecordReader :=
  match reader_fault r with
  | Some e => (Error e, r)
  | None =>
    let buffer := buffer_ r in
    if (length buffer <? kFrameHeaderBytes)%nat then (Value None, r) else
    let magic := field_at 0 4 buffer in
    if negb (magic =? kFrameMagic)
    then set_fault (frame_error kBadMagic (found_expected (lit "magic") magic kFrameMagic)) r else
    let version := field_at 4 2 buffer in
    if negb (version =? kFrameVersion)
    then set_fault (frame_error kBadVersion (found_expected (lit "version") version kFrameVersion)) r
    else
    let len := field_at 8 4 buffer in
    if kMaxPayloadBytes <? len
    then set_fault (frame_error kOversized
                     (found_expected (lit "payload bytes") len kMaxPayloadBytes)) r else
    let frame_bytes := (kFrameHeaderBytes + Z.to_nat len)%nat in
    if (length buffer <? frame_bytes)%nat then (Value None, r) else
    let payload := take (Z.to_nat len) (drop kFrameHeaderBytes buffer) in
    let stored := field_at kChecksumOffset 4 buffer in
    let computed := checksum_of (take kFrameHeaderBytes buffer) payload in
    if negb (stored =? computed)
    then set_fault (frame_error kBadChecksum (found_expected (lit "checksum") stored computed)) r
    else (Value (Some {| rec_type := field_at 6 2 buffer; rec_payload := payload |}),
          {| buffer_ := drop frame_bytes buffer; reader_fault := None |})
  end.

Definition finish (r : RecordReader) : Result unit FrameError * RecordReader :=
  match reader_fault r with
  | Some e => (Error e, r)
  | None =>
    match buffer_ r with
    | [] => (Value tt, r)
    | buffer => set_fault (frame_error kTruncated
                            (found_expected (lit "bytes left") (size_of buffer) 0)) r
    end
  end.

(** ** RecordWriter and RecordSource *)

Class ChannelCalls (K : Type) := {
  write_fd : Z → list byte → K → Result Z SyscallError * K;
  read_fd : Z → nat → K → Result (list byte) SyscallError * K;
}.

Definition kChannelMaxConsecutiveInterrupts : Z := 128.
Definition kChunkBytes : nat := 4096.

Record RecordSource := { source_reader : RecordReader; source_ended : bool }.

Record Drained := {
  drained_records : list IpcRecord;
  end_of_stream : bool;
  drained_fault : option FrameError;
}.

Section Channel.
Context {K : Type} `{ChannelCalls K} (fd : Z).

Definition nothing_sent : SyscallError :=
  {| number_ := EIO; call := lit "send";
     subject := lit "fd " ++ int_to_dec fd ++ lit " (write transferred nothing)" |}.

(** The loop of send on the bytes still to write; [None] is the loop not done
    within the fuel. *)
Fixpoint send_loop (fuel : nat) (interrupts : Z) (bytes : list byte) (s : K) :
    option (Result unit ChannelError * K) :=
  match bytes with
  | [] => Some (Value tt, s)
  | _ =>
    match fuel with
    | O => None
    | S fuel =>
      let '(count, s) := write_fd fd bytes s in
      match count with
      | Error e =>
        if (number_ e =? EINTR) && (interrupts + 1 <? kChannelMaxConsecutiveInterrupts)
        then send_loop fuel (interrupts + 1) bytes s
        else Some (Error (InCall e), s)
      | Value n =>
        if n =? 0 then Some (Error (InCall nothing_sent), s)
        else send_loop fuel 0 (drop (Z.to_nat n) bytes) s
      end
    end
  end.

Definition send_turns (bytes : list byte) : nat := 128 * (length bytes + 1).

Definition send (type : Z) (payload : list byte) (s : K) :
    option (Result unit ChannelError * K) :=
  match encode type payload with
  | Error e => Some (Error (InFrame e), s)
  | Value frame => send_loop (send_turns frame) 0 frame s
  end.

(** One read(2), past interruptions; [turns] are those still tolerated. *)
Fixpoint read_chunk (turns : nat) (s : K) : Result (list byte) SyscallError * K :=
  let '(result, s) := read_fd fd kChunkBytes s in
  match result, turns with
  | Error e, S turns => if number_ e =? EINTR then read_chunk turns s else (result, s)
  | _, _ => (result, s)
  end.

(** [while (true)] over [next]; every record consumes a header's bytes. *)
Fixpoint next_all (fuel : nat) (r : RecordReader) : list IpcRecord * option FrameError * RecordReader :=
  let '(got, r') := next r in
  match got with
  | Error e => ([], Some e, r')
  | Value None => ([], None, r')
  | Value (Some record) =>
    match fuel with
    | O => ([record], None, r')
    | S fuel => let '(records, fault, r') := next_all fuel r' in (record :: records, fault, r')
    end
  end.

Definition drain (src : RecordSource) (s : K) : Result Drained ChannelError * RecordSource * K :=
  if source_ended src
  then (Value {| drained_records := []; end_of_stream := true; drained_fault := None |}, src, s) else
  if faulted (source_reader src)
  then let '(finished, reader) := finish (source_reader src) in
       (Value {| drained_records := []; end_of_stream := false;
                 drained_fault := match finished with Error e => Some e | Value _ => None end |},
        {| source_reader := reader; source_ended := false |}, s) else
  let '(result, s) := read_chunk 127 s in
  match result with
  | Error e => (Error (InCall e), src, s)
  | Value [] =>
    let '(finished, reader) := finish (source_reader src) in
    (Value {| drained_records := []; end_of_stream := true;
              drained_fault := match finished with Error e => Some e | Value _ => None end |},
     {| source_reader := reader; source_ended := true |}, s)
  | Value chunk =>
    let fed := feed chunk (source_reader src) in
    let '(records, fault, reader) := next_all (length (buffer_ fed)) fed in
    (Value {| drained_records := records; end_of_stream := false; drained_fault := fault |},
     {| source_reader := reader; source_ended := false |}, s)
  end.
End Channel.

#[global] Arguments encode : simpl never.
#[global] Arguments next : simpl never.

(** ** What the reader's next step depends on *)

Lemma field_at_app o w b c :
  (o + w ≤ length b)%nat → field_at o w (b ++ c) = field_at o w b.
Proof.
  intros Hl. unfold field_at. rewrite drop_app_le by lia.
  by rewrite take_app_le by (rewrite length_drop; lia).
Qed.

Lemma checksum_of_app b c p :
  (kFrameHeaderBytes ≤ length b)%nat →
  checksum_of (take kFrameHeaderBytes (b ++ c)) p = checksum_of (take kFrameHeaderBytes b) p.
Proof. intros. by rewrite take_app_le. Qed.

Definition reading (b : list byte) : RecordReader := {| buffer_ := b; reader_fault := None |}.

(** A step taken on some bytes is taken the same when more have arrived. *)
Lemma next_app b c got r' :
  next (reading b) = (got, r') → got ≠ Value None →
  next (reading (b ++ c)) = (got, feed c r').
Proof.
  unfold next. cbn [reader_fault reading buffer_]. cbv zeta. rewrite length_app.
  destruct (Nat.ltb_spec (length b) kFrameHeaderBytes) as [|Hl]; [by intros [= <- <-]|].
  destruct (Nat.ltb_spec (length b + length c) kFrameHeaderBytes); [lia|].
  unfold kFrameHeaderBytes, kChecksumOffset in *.
  rewrite !field_at_app, !checksum_of_app by (unfold kFrameHeaderBytes; lia).
  destruct (negb _); [by intros [= <- <-] _|]. destruct (negb _); [by intros [= <- <-] _|].
  destruct (kMaxPayloadBytes <? _); [by intros [= <- <-] _|].
  set (n := Z.to_nat _).
  destruct (Nat.ltb_spec (length b) (16 + n)) as [|Hn]; [by intros [= <- <-]|].
  destruct (Nat.ltb_spec (length b + length c) (16 + n)); [lia|].
  rewrite (drop_app_le b c 16), (drop_app_le b c (16 + n)) by lia.
  rewrite (take_app_le (drop 16 b)) by (rewrite length_drop; lia).
  destruct (negb _); [by intros [= <- <-] _|]. by intros [= <- <-] _.
Qed.

(** A record the reader hands back has consumed a frame. *)
Lemma next_consumes b record r' :
  next (reading b) = (Value (Some record), r') →
  ∃ b', r' = reading b' ∧ (length b' + kFrameHeaderBytes ≤ length b)%nat.
Proof.
  unfold next. cbn [reader_fault reading buffer_]. cbv zeta.
  destruct (Nat.ltb_spec (length b) kFrameHeaderBytes); [done|].
  destruct (negb _); [done|]. destruct (negb _); [done|].
  destruct (kMaxPayloadBytes <? _); [done|]. set (n := Z.to_nat _).
  destruct (Nat.ltb_spec (length b) (kFrameHeaderBytes + n)); [done|].
  destruct (negb _); [done|]. intros [= _ <-]. eexists. split; [done|].
  rewrite length_drop. unfold kFrameHeaderBytes in *. lia.
Qed.

Lemma next_waits b r' : next (reading b) = (Value None, r') → r' = reading b.
Proof.
  unfold next. cbn [reader_fault reading buffer_]. cbv zeta.
  repeat (case_match; try done); intros [= <-]; done.
Qed.

(** The fuel of [next_all] is the number of bytes; more changes nothing. *)
Lemma next_all_fuel fuel fuel' b :
  (length b ≤ fuel)%nat → (length b ≤ fuel')%nat →
  next_all fuel (reading b) = next_all fuel' (reading b).
Proof.
  revert fuel' b. induction fuel as [|fuel IH]; intros fuel' b Hf Hf'.
  - destruct b; [|simpl in Hf; lia]. by destruct fuel'.
  - cbn [next_all]. destruct (next (reading b)) as [[[record|]|e] r'] eqn:E.
    + destruct (next_consumes _ _ _ E) as (b' & -> & Hb). unfold kFrameHeaderBytes in Hb.
      destruct fuel' as [|fuel']; [lia|]. cbn [next_all]. rewrite E.
      by rewrite (IH fuel') by lia.
    + destruct fuel'; cbn [next_all]; by rewrite E.
    + destruct fuel'; cbn [next_all]; by rewrite E.
Qed.

(** Every record the bytes [b] complete, and what then stops the reader. *)
Definition reads_all (b : list byte) : list IpcRecord * option FrameError * RecordReader :=
  next_all (length b) (reading b).

Lemma reads_all_eq b :
  reads_all b =
  match next (reading b) with
  | (Error e, r') => ([], Some e, r')
  | (Value None, r') => ([], None, r')
  | (Value (Some record), r') =>
    let '(records, fault, r'') := reads_all (buffer_ r') in (record :: records, fault, r'')
  end.
Proof.
  unfold reads_all. rewrite (next_all_fuel (length b) (S (length b))) by lia. cbn [next_all].
  destruct (next (reading b)) as [[[record|]|e] r'] eqn:E; [|done..].
  destruct (next_consumes _ _ _ E) as (b' & -> & Hb). cbn [buffer_ reading].
  by rewrite (next_all_fuel (length b) (length b')) by lia.
Qed.

Lemma reads_all_app b c records r1 :
  reads_all b = (records, None, r1) →
  ∃ b1, r1 = reading b1 ∧
    reads_all (b ++ c) =
    let '(more, fault, r2) := reads_all (b1 ++ c) in (records ++ more, fault, r2).
Proof.
  remember (length b) as n eqn:Hn. revert b Hn records.
  induction (lt_wf n) as [n _ IH]. intros b -> records Hr. rewrite reads_all_eq in Hr.
  destruct (next (reading b)) as [[[record|]|e] r'] eqn:E; [..|done].
  - destruct (next_consumes _ _ _ E) as (b' & -> & Hb). unfold kFrameHeaderBytes in Hb.
    cbn [buffer_ reading] in Hr. destruct (reads_all b') as [[recs f] r2] eqn:Er.
    injection Hr as <- -> ->. destruct (IH (length b')) with b' recs as (b1 & -> & Hb1); [lia|done|done|].
    exists b1. split; [done|]. rewrite reads_all_eq, (next_app _ c _ _ E) by done. cbn [feed buffer_ reading].
    rewrite Hb1. by destruct (reads_all (b1 ++ c)) as [[more f2] r3].
  - apply next_waits in E as ->. injection Hr as <- <-. exists b. split; [done|].
    by destruct (reads_all (b ++ c)) as [[more f2] r3].
Qed.

Lemma reads_all_app_fault b c records e r1 :
  reads_all b = (records, Some e, r1) →
  ∃ r2, reads_all (b ++ c) = (records, Some e, r2) ∧ reader_fault r2 = Some e.
Proof.
  remember (length b) as n eqn:Hn. revert b Hn records.
  induction (lt_wf n) as [n _ IH]. intros b -> records Hr. rewrite reads_all_eq in Hr.
  destruct (next (reading b)) as [[[record|]|e'] r'] eqn:E; [..|].
  - destruct (next_consumes _ _ _ E) as (b' & -> & Hb). unfold kFrameHeaderBytes in Hb.
    cbn [buffer_ reading] in Hr. destruct (reads_all b') as [[recs f] r2] eqn:Er.
    injection Hr as <- -> ->. destruct (IH (length b')) with b' recs as (r3 & Hb1 & Hf); [lia|done|done|].
    exists r3. split; [|done]. rewrite reads_all_eq, (next_app _ c _ _ E) by done.
    cbn [feed buffer_ reading]. by rewrite Hb1.
  - done.
  - injection Hr as <- -> ->. eexists. rewrite reads_all_eq, (next_app _ c _ _ E) by done.
    split; [done|]. cbn [feed reader_fault].
    revert E. unfold next. cbn [reader_fault reading buffer_]. cbv zeta.
    repeat (case_match; try done); by intros [= <- <-].
Qed.

(** ** The pieces a stream arrives in *)

(** Reading a stream piece by piece, taking every record after each piece, and
    stopping at the first fault. *)
Fixpoint read_pieces (pieces : list (list byte)) (r : RecordReader) :
    list IpcRecord * option FrameError * RecordReader :=
  match pieces with
  | [] => ([], reader_fault r, r)
  | piece :: pieces =>
    let fed := feed piece r in
    let '(records, fault, r') := next_all (length (buffer_ fed)) fed in
    match fault with
    | Some e => (records, Some e, r')
    | None => let '(more, fault, r'') := read_pieces pieces r' in (records ++ more, fault, r'')
    end
  end.

Lemma reads_all_fault b records e r : reads_all b = (records, Some e, r) → reader_fault r = Some e.
Proof.
  intros H. destruct (reads_all_app_fault _ [] _ _ _ H) as (r2 & H2 & Hf).
  rewrite app_nil_r, H in H2. by injection H2 as ->.
Qed.

(** What is left after reading all holds no further record. *)
Lemma reads_all_stable b records r :
  reads_all b = (records, None, r) → ∃ b1, r = reading b1 ∧ reads_all b1 = ([], None, reading b1).
Proof.
  intros H. destruct (reads_all_app _ [] _ _ H) as (b1 & -> & H1). exists b1. split; [done|].
  rewrite !app_nil_r, H in H1. destruct (reads_all b1) as [[more f] r2].
  injection H1 as Hm <- <-. by rewrite (app_inv_head records [] more) by (by rewrite app_nil_r).
Qed.

(** However the bytes are cut into pieces, the records and the fault are those of
    the whole. *)
Lemma read_pieces_whole pieces b records fault r2 :
  reads_all b = ([], None, reading b) → reads_all (b ++ mjoin pieces) = (records, fault, r2) →
  ∃ r1, read_pieces pieces (reading b) = (records, fault, r1) ∧
        (fault = None → r1 = r2) ∧ reader_fault r1 = fault.
Proof.
  revert b records. induction pieces as [|piece pieces IH]; intros b records Hb.
  - cbn [mjoin list_join]. rewrite app_nil_r, Hb. intros [= <- <- <-]. by exists (reading b).
  - cbn [mjoin list_join read_pieces]. cbv zeta. rewrite app_assoc.
    change (feed piece (reading b)) with (reading (b ++ piece)). cbn [buffer_ reading].
    change {| buffer_ := b ++ piece; reader_fault := None |} with (reading (b ++ piece)). fold (reads_all (b ++ piece)).
    destruct (reads_all (b ++ piece)) as [[recs [e|]] r'] eqn:E.
    + destruct (reads_all_app_fault _ (mjoin pieces) _ _ _ E) as (r3 & H3 & _).
      intros H. assert (Hr := reads_all_fault _ _ _ _ E).
      unfold mjoin in *. rewrite H3 in H. injection H as <- <- <-. exists r'. by split_and!.
    + destruct (reads_all_app _ (mjoin pieces) _ _ E) as (b1 & -> & H1).
      destruct (reads_all_stable _ _ _ E) as (b2 & Hb2 & Hst).
      assert (b1 = b2) as <- by (by injection Hb2).
      intros H. unfold mjoin in *. rewrite H1 in H.
      destruct (reads_all (b1 ++ _)) as [[more f] r3] eqn:Em. injection H as <- <- <-.
      destruct (IH b1 more Hst Em) as (r1 & -> & Hr). by exists r1.
Qed.

(** ** Frames *)

Record rec_ok (r : IpcRecord) : Prop := {
  rec_type_ok : in_u16 (rec_type r);
  rec_payload_ok : size_of (rec_payload r) ≤ kMaxPayloadBytes;
}.

Definition frame_of (r : IpcRecord) : list byte :=
  match encode (rec_type r) (rec_payload r) with Value f => f | Error _ => [] end.

(** The four parts of a frame. *)
Definition framed (header : list byte) (crc : Z) (payload : list byte) : list byte :=
  header ++ put_le 4 crc ++ payload.

Lemma frame_of_eq r :
  rec_ok r →
  frame_of r = framed (header_fields (rec_type r) (size_of (rec_payload r)))
    (crc32_update (crc32 (header_fields (rec_type r) (size_of (rec_payload r)))) (rec_payload r))
    (rec_payload r).
Proof.
  intros [Ht Hp]. unfold frame_of, encode. rewrite (proj2 (Z.ltb_ge _ _)) by done.
  change kMaxPayloadBytes with 65536 in Hp.
  rewrite u32_small by (unfold in_u32, size_of in *; lia).
  unfold framed. f_equal.
Qed.

Lemma length_header_fields t l : length (header_fields t l) = 12%nat.
Proof. unfold header_fields. by rewrite !length_app, !length_put_le. Qed.

Lemma length_frame_of r : rec_ok r → length (frame_of r) = (16 + length (rec_payload r))%nat.
Proof.
  intros Hr. rewrite frame_of_eq by done. unfold framed.
  rewrite !length_app, length_header_fields, length_put_le. lia.
Qed.

Lemma field_at_mid a f c w : length f = w → field_at (length a) w (a ++ f ++ c) = get_le f.
Proof. intros <-. unfold field_at. by rewrite drop_app_length, take_app_length. Qed.

(** The reader's step on bytes that hold a header, by the header's five fields. *)
Lemma next_header m v t l c body :
  length m = 4%nat → length v = 2%nat → length t = 2%nat → length l = 4%nat → length c = 4%nat →
  let b := m ++ v ++ t ++ l ++ c ++ body in
  next (reading b) =
  if negb (get_le m =? kFrameMagic)
  then set_fault (frame_error kBadMagic (found_expected (lit "magic") (get_le m) kFrameMagic)) (reading b) else
  if negb (get_le v =? kFrameVersion)
  then set_fault (frame_error kBadVersion (found_expected (lit "version") (get_le v) kFrameVersion)) (reading b)
  else if kMaxPayloadBytes <? get_le l
  then set_fault (frame_error kOversized
                   (found_expected (lit "payload bytes") (get_le l) kMaxPayloadBytes)) (reading b) else
  if (length body <? Z.to_nat (get_le l))%nat then (Value None, reading b) else
  let payload := take (Z.to_nat (get_le l)) body in
  let computed := crc32_update (crc32 (m ++ v ++ t ++ l)) payload in
  if negb (get_le c =? computed)
  then set_fault (frame_error kBadChecksum (found_expected (lit "checksum") (get_le c) computed)) (reading b)
  else (Value (Some {| rec_type := get_le t; rec_payload := payload |}),
        reading (drop (Z.to_nat (get_le l)) body)).
Proof.
  intros Hm Hv Ht Hl Hc b. unfold next. cbn [reader_fault reading buffer_].
  assert (E0 : field_at 0 4 b = get_le m) by apply (field_at_mid [] m _ 4 Hm).
  assert (E4 : field_at 4 2 b = get_le v) by (rewrite <- Hm at 1; by apply field_at_mid).
  assert (E6 : field_at 6 2 b = get_le t).
  { unfold b. rewrite app_assoc. replace 6%nat with (length (m ++ v)) by (rewrite length_app; lia).
    by apply field_at_mid. }
  assert (E8 : field_at 8 4 b = get_le l).
  { unfold b. rewrite (app_assoc m), (app_assoc (m ++ v)).
    replace 8%nat with (length ((m ++ v) ++ t)) by (rewrite !length_app; lia). by apply field_at_mid. }
  assert (Eb : b = (m ++ v ++ t ++ l) ++ c ++ body) by (unfold b; by rewrite <- !app_assoc).
  assert (H12 : length (m ++ v ++ t ++ l) = 12%nat) by (rewrite !length_app; lia).
  assert (E12 : field_at 12 4 b = get_le c) by (rewrite Eb, <- H12; by apply field_at_mid).
  assert (Ed : ∀ n, drop (16 + n) b = drop n body).
  { intros n. rewrite Eb, app_assoc. rewrite drop_app_ge by (rewrite length_app; lia).
    f_equal. rewrite length_app. lia. }
  assert (Hlen : length b = (16 + length body)%nat) by (rewrite Eb, !length_app in *; lia).
  unfold kFrameHeaderBytes, kChecksumOffset. rewrite Hlen, E0, E4, E6, E8, E12, Ed.
  rewrite (Ed 0%nat : drop 16 b = body).
  rewrite (proj2 (Nat.ltb_ge _ _)) by lia.
  destruct (negb _); [done|]. destruct (negb _); [done|]. destruct (kMaxPayloadBytes <? _); [done|].
  assert (Hs : checksum_of (take 16 b) (take (Z.to_nat (get_le l)) body)
    = crc32_update (crc32 (m ++ v ++ t ++ l)) (take (Z.to_nat (get_le l)) body)).
  { unfold checksum_of, kChecksumOffset. do 2 f_equal. rewrite take_take.
    change (12 `min` 16)%nat with 12%nat. rewrite Eb, take_app_le by lia. apply take_ge. lia. }
  rewrite Hs. destruct (Nat.ltb_spec (length body) (Z.to_nat (get_le l))),
    (Nat.ltb_spec (16 + length body) (16 + Z.to_nat (get_le l))); try lia; done.
Qed.

Lemma next_short b : (length b < kFrameHeaderBytes)%nat → next (reading b) = (Value None, reading b).
Proof.
  intros Hl. unfold next. cbn [reader_fault reading buffer_]. cbv zeta.
  by rewrite (proj2 (Nat.ltb_lt _ _) Hl).
Qed.

(** The five fields of a written frame. *)
Definition magic_bytes : list byte := put_le 4 kFrameMagic.
Definition version_bytes : list byte := put_le 2 kFrameVersion.

Lemma get_magic : get_le magic_bytes = kFrameMagic.
Proof. by apply get_put_le4. Qed.
Lemma get_version : get_le version_bytes = kFrameVersion.
Proof. by apply get_put_le2. Qed.

Definition frame_crc (r : IpcRecord) : Z :=
  crc32_update 0 (header_fields (rec_type r) (size_of (rec_payload r)) ++ rec_payload r).

Lemma frame_of_split r :
  rec_ok r →
  frame_of r = magic_bytes ++ version_bytes ++ put_le 2 (rec_type r)
    ++ put_le 4 (size_of (rec_payload r)) ++ put_le 4 (frame_crc r) ++ rec_payload r.
Proof.
  intros Hr. rewrite frame_of_eq by done. unfold framed, header_fields, frame_crc.
  rewrite <- crc32_update_app, <- !app_assoc. done.
Qed.

Lemma frame_length_field r :
  rec_ok r → get_le (put_le 4 (size_of (rec_payload r))) = size_of (rec_payload r) ∧
  Z.to_nat (size_of (rec_payload r)) = length (rec_payload r).
Proof.
  intros [_ Hp]. change kMaxPayloadBytes with 65536 in Hp.
  split; [apply get_put_le4; unfold in_u32, size_of in *; lia|unfold size_of; lia].
Qed.

Ltac frame_lengths := rewrite ?length_insert, ?length_put_le; reflexivity.

Lemma next_frame r rest :
  rec_ok r → next (reading (frame_of r ++ rest)) = (Value (Some r), reading rest).
Proof.
  intros Hr. rewrite frame_of_split, <- !app_assoc by done.
  destruct (frame_length_field r Hr) as [Hg Hn].
  rewrite next_header by frame_lengths. cbv zeta.
  unfold magic_bytes, version_bytes. rewrite Hg, Hn, !get_put_le4, !get_put_le2 by
    first [done|apply Hr|apply crc32_range|apply (crc32_update_register 0); done].
  rewrite !Z.eqb_refl. cbn [negb]. rewrite (proj2 (Z.ltb_ge _ _)) by apply Hr.
  rewrite (proj2 (Nat.ltb_ge _ _)) by (rewrite length_app; lia).
  rewrite take_app_length, drop_app_length.
  fold (header_fields (rec_type r) (size_of (rec_payload r))).
  unfold frame_crc, crc32. rewrite crc32_update_app, Z.eqb_refl. by destruct r.
Qed.

Lemma next_partial r m :
  rec_ok r → (m < length (frame_of r))%nat →
  next (reading (take m (frame_of r))) = (Value None, reading (take m (frame_of r))).
Proof.
  intros Hr Hm. rewrite length_frame_of in Hm by done.
  destruct (decide (m < kFrameHeaderBytes)%nat) as [Hs|Hs].
  { apply next_short. rewrite length_take. lia. }
  unfold kFrameHeaderBytes in Hs. destruct (frame_length_field r Hr) as [Hg Hn].
  rewrite frame_of_split by done. unfold magic_bytes, version_bytes.
  rewrite !take_app, !length_put_le. rewrite !(take_ge (put_le _ _)) by (rewrite length_put_le; lia).
  rewrite next_header by frame_lengths. cbv zeta.
  rewrite Hg, Hn, !get_put_le4, !get_put_le2 by done. rewrite !Z.eqb_refl. cbn [negb].
  rewrite (proj2 (Z.ltb_ge _ _)) by apply Hr.
  by rewrite (proj2 (Nat.ltb_lt _ _)) by (rewrite length_take; lia).
Qed.

(** The first [m] bytes of a stream of frames. *)
Lemma reads_all_stream rs m :
  Forall rec_ok rs →
  reads_all (take m (rs ≫= frame_of)) =
  (whole_prefix frame_of m rs, None, reading (torn_suffix frame_of m rs)).
Proof.
  intros Hrs. revert m. induction Hrs as [|r rs Hr _ IH]; intros m.
  { unfold torn_suffix. cbn [mbind list_bind whole_prefix]. by rewrite !take_nil, reads_all_eq. }
  unfold torn_suffix. cbn [whole_prefix]. rewrite bind_cons.
  destruct (Nat.leb_spec (length (frame_of r)) m) as [Hl|Hl].
  - rewrite take_app_ge, reads_all_eq, next_frame by done. cbn [buffer_ reading].
    rewrite IH. rewrite bind_cons, length_app. do 2 f_equal.
    rewrite drop_app_ge by lia. unfold torn_suffix. f_equal. lia.
  - rewrite take_app_le by lia. rewrite reads_all_eq, next_partial by done. done.
Qed.

(** ** A byte changed outside the length field *)

Definition damage_fault (j : nat) : FrameFault :=
  if (j <? 4)%nat then kBadMagic else if (j <? 6)%nat then kBadVersion else kBadChecksum.

Definition stopped (k : FrameFault) (b : list byte)
    (out : Result (option IpcRecord) FrameError * RecordReader) : Prop :=
  ∃ e, out = (Error e, {| buffer_ := b; reader_fault := Some e |}) ∧ fault_ e = k.

(** A frame whose checksum is not that of its own bytes. *)
Lemma next_bad_checksum (t c p payload rest : list byte) :
  length t = 2%nat → length c = 4%nat → size_of payload ≤ kMaxPayloadBytes →
  length p = length payload →
  let header := magic_bytes ++ version_bytes ++ t ++ put_le 4 (size_of payload) in
  get_le c ≠ crc32_update 0 (header ++ p) →
  let b := magic_bytes ++ version_bytes ++ t ++ put_le 4 (size_of payload) ++ c ++ p ++ rest in
  stopped kBadChecksum b (next (reading b)).
Proof.
  intros Ht Hc Hs Hp header Hne b.
  destruct (frame_length_field {| rec_type := 0; rec_payload := payload |}) as [Hg Hn]; [by split|].
  cbn [rec_payload] in Hg, Hn. unfold b. rewrite next_header by first [done|frame_lengths]. cbv zeta.
  rewrite Hg, Hn, get_magic, get_version, !Z.eqb_refl. cbn [negb].
  rewrite (proj2 (Z.ltb_ge _ _)) by done. rewrite <- Hp.
  rewrite (proj2 (Nat.ltb_ge _ _)) by (rewrite length_app; lia). rewrite take_app_length.
  rewrite (proj2 (Z.eqb_neq _ _)); [by eexists|].
  unfold crc32. by rewrite crc32_update_app.
Qed.

Lemma next_damaged r j x y rest :
  rec_ok r → frame_of r !! j = Some x → x ≠ y → ¬ (8 ≤ j < 12)%nat →
  stopped (damage_fault j) (<[j := y]> (frame_of r) ++ rest)
    (next (reading (<[j := y]> (frame_of r) ++ rest))).
Proof.
  intros Hr Hx Hne Hj. pose proof (rec_payload_ok _ Hr) as Hp. rewrite frame_of_split in * by done.
  set (m := magic_bytes) in *. set (v := version_bytes) in *. set (t := put_le 2 _) in *.
  set (l := put_le 4 (size_of _)) in *. set (c := put_le 4 (frame_crc r)) in *. set (p := rec_payload r) in *.
  assert (Hm : length m = 4%nat) by apply length_put_le.
  assert (Hv : length v = 2%nat) by apply length_put_le.
  assert (Ht : length t = 2%nat) by apply length_put_le.
  assert (Hl : length l = 4%nat) by apply length_put_le.
  assert (Hc : length c = 4%nat) by apply length_put_le.
  assert (Hgc : get_le c = crc32_update 0 ((m ++ v ++ t ++ l) ++ p)).
  { unfold c. rewrite get_put_le4 by (by apply (crc32_update_register 0)). done. }
  unfold damage_fault. destruct (Nat.ltb_spec j 4) as [H4|H4].
  { rewrite insert_app_l, <- !app_assoc by lia. rewrite lookup_app_l in Hx by lia.
    rewrite next_header by (done || by rewrite length_insert). cbv zeta.
    rewrite (proj2 (Z.eqb_neq _ _)); [by eexists|].
    rewrite <- get_magic. by eapply get_le_insert. }
  rewrite insert_app_r_alt by lia. rewrite lookup_app_r in Hx by lia. rewrite Hm in *.
  destruct (Nat.ltb_spec j 6) as [H6|H6].
  { rewrite insert_app_l, <- !app_assoc by lia. rewrite lookup_app_l in Hx by lia.
    rewrite next_header by (done || by rewrite length_insert). cbv zeta.
    unfold m. rewrite get_magic, Z.eqb_refl. cbn [negb].
    rewrite (proj2 (Z.eqb_neq _ _)); [by eexists|].
    rewrite <- get_version. by eapply get_le_insert. }
  rewrite insert_app_r_alt by lia. rewrite lookup_app_r in Hx by lia. rewrite Hv in *.
  assert (Hchg : ∀ (a b : list byte) k, b !! k = Some x →
    crc32_update 0 (a ++ b) ≠ crc32_update 0 (a ++ <[k := y]> b)).
  { intros a b k Hb. rewrite <- insert_app_r. apply not_eq_sym. apply (crc32_insert 0 _ _ x); [done| |done].
    by rewrite lookup_app_r, Nat.add_sub_swap, Nat.sub_diag by lia. }
  destruct (decide (j < 8)%nat) as [H8|H8].
  { rewrite insert_app_l, <- !app_assoc by lia. rewrite lookup_app_l in Hx by lia.
    apply next_bad_checksum; [by rewrite length_insert|done..|]. fold m v l. rewrite Hgc.
    replace ((m ++ v ++ t ++ l) ++ p) with ((m ++ v) ++ t ++ l ++ p) by (by rewrite <- !app_assoc).
    replace ((m ++ v ++ <[_ := y]> t ++ l) ++ p) with ((m ++ v) ++ <[(j - 4 - 2)%nat := y]> (t ++ l ++ p))
      by (rewrite insert_app_l, <- !app_assoc by lia; done).
    apply Hchg. by rewrite lookup_app_l by lia. }
  rewrite insert_app_r_alt by lia. rewrite lookup_app_r in Hx by lia. rewrite Ht in *.
  rewrite insert_app_r_alt by lia. rewrite lookup_app_r in Hx by lia. rewrite Hl in *.
  destruct (decide (j < 16)%nat) as [H16|H16].
  { rewrite insert_app_l, <- !app_assoc by lia. rewrite lookup_app_l in Hx by lia.
    apply next_bad_checksum; [done|by rewrite length_insert|done..|]. fold m v l. rewrite <- Hgc.
    by eapply get_le_insert. }
  rewrite insert_app_r_alt by lia. rewrite lookup_app_r in Hx by lia. rewrite Hc in *.
  rewrite <- !app_assoc. apply next_bad_checksum; [done..|by rewrite length_insert|].
  fold m v l. rewrite Hgc. by apply Hchg.
Qed.

(** ** Faults are final *)

Lemma next_faulted r e : reader_fault r = Some e → next r = (Error e, r).
Proof. unfold next. by intros ->. Qed.

Lemma finish_faulted r e : reader_fault r = Some e → finish r = (Error e, r).
Proof. unfold finish. by intros ->. Qed.

Lemma read_pieces_faulted pieces r e :
  reader_fault r = Some e → (read_pieces pieces r).1 = ([], Some e).
Proof.
  destruct pieces as [|piece pieces]; [simpl; by intros ->|]. intros Hf. cbn [read_pieces].
  cbv zeta. destruct (length _); cbn [next_all]; by rewrite (next_faulted _ e).
Qed.

(** ** The worker's end *)

(** write(2) and read(2) on a pipe as documented: [piped] is what the pipe has been
    given, [taken] what has been read from it. *)
Class ChannelLaws (K : Type) `{ChannelCalls K} (fd : Z) := {
  piped : K → list byte;
  taken : K → list byte;
  write_takes bs s n s' :
    write_fd fd bs s = (Value n, s') → 0 ≤ n ≤ size_of bs ∧ piped s' = piped s ++ take (Z.to_nat n) bs;
  write_fails bs s e s' : write_fd fd bs s = (Error e, s') → piped s' = piped s;
  read_takes size s bs s' : read_fd fd size s = (Value bs, s') → taken s' = taken s ++ bs;
  read_fails size s e s' : read_fd fd size s = (Error e, s') → taken s' = taken s;
}.

Section ChannelLaws.
Context {K : Type} (fd : Z) `{ChannelLaws K fd}.

Lemma send_loop_spec fuel i bytes s :
  0 ≤ i < kChannelMaxConsecutiveInterrupts →
  (128 * length bytes + Z.to_nat (kChannelMaxConsecutiveInterrupts - i) ≤ fuel)%nat →
  ∃ r s', send_loop fd fuel i bytes s = Some (r, s') ∧
    match r with
    | Value _ => piped s' = piped s ++ bytes
    | Error e => (∃ cause, e = InCall cause) ∧ ∃ k, (k < length bytes)%nat ∧ piped s' = piped s ++ take k bytes
    end.
Proof.
  unfold kChannelMaxConsecutiveInterrupts. revert i bytes s.
  induction fuel as [|fuel IH]; intros i bytes s Hi Hf; [lia|]. cbn [send_loop].
  destruct bytes as [|b l]; [eexists _, s; split; [done|]; by rewrite app_nil_r|].
  set (bytes := b :: l) in *. assert (Hpos : (0 < length bytes)%nat) by (simpl; lia).
  destruct (write_fd fd bytes s) as [[n|e] s1] eqn:E.
  - destruct (write_takes _ _ _ _ E) as [Hn Hp]. unfold size_of in Hn.
    destruct (Z.eqb_spec n 0) as [->|Hn0].
    { eexists _, s1. split; [done|]. split; [by eexists|]. by exists 0%nat. }
    destruct (IH 0 (drop (Z.to_nat n) bytes) s1) as (r & s' & Hr & Hm); [lia|rewrite length_drop; lia|].
    exists r, s'. split; [done|]. destruct r as [u|e].
    + by rewrite Hm, Hp, <- app_assoc, take_drop.
    + destruct Hm as [Hc (k & Hk & Hm)]. split; [done|]. exists (Z.to_nat n + k)%nat.
      rewrite length_drop in Hk. split; [lia|]. rewrite Hm, Hp, <- app_assoc. f_equal.
      rewrite <- (take_drop (Z.to_nat n) bytes) at 3. rewrite take_app_add'; [done|].
      rewrite length_take. lia.
  - pose proof (write_fails _ _ _ _ E) as Hp.
    assert (Hfail : ∃ k, (k < length bytes)%nat ∧ piped s1 = piped s ++ take k bytes).
    { exists 0%nat. split; [done|]. by rewrite app_nil_r. }
    destruct (_ && _) eqn:Er; [|eexists _, s1; split; [done|]; split; [by eexists|done]].
    unfold kChannelMaxConsecutiveInterrupts in Er. bool_facts.
    destruct (IH (i + 1) bytes s1) as (r & s' & Hr & Hm); [lia|lia|].
    exists r, s'. split; [done|]. by rewrite Hp in Hm.
Qed.

(** *** Draining *)

Fixpoint drains (n : nat) (src : RecordSource) (s : K) :
    list (Result Drained ChannelError) * RecordSource * K :=
  match n with
  | O => ([], src, s)
  | S n =>
    let '(out, src, s) := drain fd src s in
    let '(outs, src, s) := drains n src s in (out :: outs, src, s)
  end.

Definition records_in (out : Result Drained ChannelError) : list IpcRecord :=
  match out with Value d => drained_records d | Error _ => [] end.

(** The source has handed out every record complete in the bytes read. *)
Definition source_inv (records : list IpcRecord) (src : RecordSource) (s : K) : Prop :=
  ∃ fault r, reads_all (taken s) = (records, fault, r) ∧
    match reader_fault (source_reader src) with
    | None => fault = None ∧ source_reader src = r
    | Some e => fault = Some e ∨
                fault = None ∧ source_ended src = true ∧ fault_ e = kTruncated ∧ buffer_ r ≠ []
    end.

Lemma read_chunk_taken turns s r s' :
  read_chunk fd turns s = (r, s') →
  taken s' = taken s ++ (match r with Value bs => bs | Error _ => [] end).
Proof.
  revert s. induction turns as [|turns IH]; intros s; cbn [read_chunk];
    destruct (read_fd fd kChunkBytes s) as [[bs|e] s1] eqn:E.
  1, 3: intros [= <- <-]; by apply (read_takes kChunkBytes).
  - intros [= <- <-]. rewrite app_nil_r. by apply (read_fails kChunkBytes _ e).
  - pose proof (read_fails _ _ _ _ E) as Ht. destruct (number_ e =? EINTR).
    + intros Hr. by rewrite (IH _ Hr), Ht.
    + intros [= <- <-]. by rewrite app_nil_r.
Qed.

Lemma drain_inv records src s out src' s' :
  source_inv records src s → drain fd src s = (out, src', s') →
  source_inv (records ++ records_in out) src' s'.
Proof.
  intros (fault & r & Hr & Hi). unfold drain. destruct (source_ended src) eqn:Ee.
  { intros [= <- <- <-]. cbn [records_in drained_records]. rewrite app_nil_r.
    exists fault, r. split; [done|]. by rewrite Ee. }
  unfold faulted. destruct (reader_fault (source_reader src)) as [e|] eqn:Ef.
  { rewrite bool_decide_true, (finish_faulted _ _ Ef) by done. intros [= <- <- <-].
    cbn [records_in drained_records]. rewrite app_nil_r. exists fault, r. split; [done|].
    cbn [source_reader]. rewrite Ef. destruct Hi as [->|(_ & ? & _)]; [by left|congruence]. }
  destruct Hi as [-> Hsr]. rewrite bool_decide_false by (by intros [? [=]]).
  destruct (read_chunk fd 127 s) as [[chunk|e] s1] eqn:Ec; pose proof (read_chunk_taken _ _ _ _ Ec) as Ht.
  2: { intros [= <- <- <-]. cbn [records_in]. rewrite app_nil_r in *. exists None, r.
       rewrite Ht, Ef. by split. }
  destruct (reads_all_app _ chunk _ _ Hr) as (b1 & -> & Happ).
  destruct chunk as [|c chunk].
  { rewrite app_nil_r in Ht. unfold finish. rewrite Ef, Hsr. cbn [buffer_ reading].
    destruct b1 as [|b b1]; intros [= <- <- <-]; cbn [records_in drained_records]; rewrite app_nil_r;
      exists None; eexists; rewrite Ht; (split; [exact Hr|]); cbn [source_reader reader_fault].
    - done.
    - right. by split_and!. }
  rewrite Hsr. set (chunk' := c :: chunk) in *.
  change (feed chunk' (reading b1)) with (reading (b1 ++ chunk')). cbn [buffer_ reading].
  change {| buffer_ := b1 ++ chunk'; reader_fault := None |} with (reading (b1 ++ chunk')).
  fold (reads_all (b1 ++ chunk')).
  destruct (reads_all (b1 ++ chunk')) as [[more f] r2] eqn:Em.
  intros [= <- <- <-]. cbn [records_in drained_records]. exists f, r2. rewrite Ht, Happ. split; [done|].
  cbn [source_reader]. destruct f as [e|].
  - rewrite (reads_all_fault _ _ _ _ Em). by left.
  - by destruct (reads_all_stable _ _ _ Em) as (b2 & -> & _).
Qed.
End ChannelLaws.

(** *** A pipe

    A pipe that takes [pipe_chunk] bytes at a time and is interrupted once in
    between. *)

Record Pipe := { pipe_in : list byte; pipe_out : list byte; pipe_taken : list byte; pipe_chunk : nat;
                 pipe_tired : bool }.

Definition interrupted (name : text) : SyscallError :=
  {| number_ := EINTR; call := name; subject := lit "fd 5" |}.

Definition pipe_rest (p : Pipe) (tired : bool) : Pipe :=
  {| pipe_in := pipe_in p; pipe_out := pipe_out p; pipe_taken := pipe_taken p;
     pipe_chunk := pipe_chunk p; pipe_tired := tired |}.

#[export] Instance pipe_calls : ChannelCalls Pipe := {|
  write_fd fd bs p :=
    if pipe_tired p then (Error (interrupted (lit "write")), pipe_rest p false) else
    let n := Nat.min (pipe_chunk p) (length bs) in
    (Value (Z.of_nat n),
     {| pipe_in := pipe_in p ++ take n bs; pipe_out := pipe_out p; pipe_taken := pipe_taken p;
        pipe_chunk := pipe_chunk p; pipe_tired := true |});
  read_fd fd size p :=
    if pipe_tired p then (Error (interrupted (lit "read")), pipe_rest p false) else
    let n := Nat.min (pipe_chunk p) size in
    (Value (take n (pipe_out p)),
     {| pipe_in := pipe_in p; pipe_out := drop n (pipe_out p);
        pipe_taken := pipe_taken p ++ take n (pipe_out p);
        pipe_chunk := pipe_chunk p; pipe_tired := true |});
|}.

#[export] Instance pipe_laws fd : ChannelLaws Pipe fd.
Proof.
  refine {| piped := pipe_in; taken := pipe_taken |}.
  - intros bs p n p'. cbn. destruct (pipe_tired p); [done|]. intros [= <- <-]. rewrite Nat2Z.id.
    split; [unfold size_of; lia|done].
  - intros bs p e p'. cbn. destruct (pipe_tired p); [|done]. by intros [= <- <-].
  - intros size p bs p'. cbn. destruct (pipe_tired p); [done|]. by intros [= <- <-].
  - intros size p e p'. cbn. destruct (pipe_tired p); [|done]. by intros [= <- <-].
Defined.

(** ** Theorems *)

(** C35. Whatever pieces a stream of frames arrives in, and wherever it is cut, the
    reader hands back exactly the records whose frames lie wholly within it, in
    order, keeps the bytes of the torn one, reports no fault while the stream is open
    and [kTruncated] at its end if and only if it was cut inside a frame. *)
Theorem record_stream_read rs m pieces :
  Forall rec_ok rs → mjoin pieces = take m (rs ≫= frame_of) →
  let '(records, fault, r) := read_pieces pieces (reading []) in
  records = whole_prefix frame_of m rs ∧ fault = None ∧ buffer_ r = torn_suffix frame_of m rs ∧
  match (finish r).1 with
  | Value _ => torn_suffix frame_of m rs = []
  | Error e => fault_ e = kTruncated ∧ torn_suffix frame_of m rs ≠ []
  end.
Proof.
  intros Hrs Hp. pose proof (reads_all_stream rs m Hrs) as Hr. rewrite <- Hp in Hr.
  destruct (read_pieces_whole pieces [] _ _ _ (reads_all_eq []) Hr) as (r1 & -> & Hr1 & _).
  rewrite (Hr1 eq_refl). split_and!; [done|done|done|].
  unfold finish. cbn [reader_fault reading buffer_]. by destruct (torn_suffix _ _ _).
Qed.

Definition sample_records : list IpcRecord :=
  [ {| rec_type := 1; rec_payload := lit "fft" |}; {| rec_type := 2; rec_payload := lit "units 9" |} ].

Lemma sample_records_ok : Forall rec_ok sample_records.
Proof.
  repeat apply Forall_cons_2; try apply Forall_nil_2; split;
    unfold in_u16; cbn; try lia; vm_compute; discriminate.
Qed.

Definition sample_stream : list byte := sample_records ≫= frame_of.

Definition sample_pieces : list (list byte) :=
  [take 3 sample_stream; take 17 (drop 3 sample_stream); drop 20 sample_stream].

Lemma record_stream_read_witness :
  (read_pieces sample_pieces (reading [])).1.1 = sample_records.
Proof.
  assert (Hp : mjoin sample_pieces = take 42 (sample_records ≫= frame_of)) by (vm_compute; reflexivity).
  pose proof (record_stream_read sample_records 42 sample_pieces sample_records_ok Hp) as H.
  destruct (read_pieces sample_pieces (reading [])) as [[records fault] r].
  destruct H as [-> _]. vm_compute. reflexivity.
Defined.

(** One byte of a frame changed outside its length field, whatever follows and
    whatever pieces it arrives in: the records before it are handed back, then the
    fault its place calls for, and never anything after - every later call answers
    the same fault. *)
Theorem record_stream_damaged before r j x y rest pieces :
  Forall rec_ok before → rec_ok r → frame_of r !! j = Some x → x ≠ y → ¬ (8 ≤ j < 12)%nat →
  mjoin pieces = (before ≫= frame_of) ++ <[j := y]> (frame_of r) ++ rest →
  ∃ e r', read_pieces pieces (reading []) = (before, Some e, r') ∧ fault_ e = damage_fault j ∧
    (∀ more, next (feed more r') = (Error e, feed more r') ∧
             finish (feed more r') = (Error e, feed more r')) ∧
    ∀ more, (read_pieces more r').1 = ([], Some e).
Proof.
  intros Hb Hr Hx Hne Hj Hp.
  destruct (next_damaged r j x y rest Hr Hx Hne Hj) as (e & He & Hf).
  assert (Hall : ∃ r2, reads_all ([] ++ mjoin pieces) = (before, Some e, r2)).
  { rewrite Hp. pose proof (reads_all_stream before (length (before ≫= frame_of)) Hb) as Hs.
    rewrite take_ge, whole_prefix_all in Hs by lia.
    destruct (reads_all_app _ (<[j := y]> (frame_of r) ++ rest) _ _ Hs) as (b1 & Hb1 & Happ).
    unfold torn_suffix in Hb1. rewrite whole_prefix_all, take_ge, drop_all in Hb1 by lia.
    injection Hb1 as <-. cbn [app] in *. rewrite Happ, (reads_all_eq (_ ++ _)), He.
    eexists. by rewrite app_nil_r. }
  destruct Hall as [r2 Hall].
  destruct (read_pieces_whole pieces [] _ _ _ (reads_all_eq []) Hall) as (r' & -> & _ & Hfault).
  exists e, r'. split_and!; [done|done| |].
  - intros more. split; [by apply next_faulted|by apply finish_faulted].
  - intros more. by apply read_pieces_faulted.
Qed.

Lemma record_stream_damaged_witness :
  let r := {| rec_type := 2; rec_payload := lit "units 9" |} in
  ∃ e r', read_pieces [(sample_records ≫= frame_of) ++ <[20%nat := Byte.x2a]> (frame_of r)]
            (reading []) = (sample_records, Some e, r') ∧ fault_ e = kBadChecksum.
Proof.
  destruct (record_stream_damaged sample_records {| rec_type := 2; rec_payload := lit "units 9" |}
    20 Byte.x73 Byte.x2a [] [(sample_records ≫= frame_of) ++ <[20%nat := Byte.x2a]>
      (frame_of {| rec_type := 2; rec_payload := lit "units 9" |})]) as (e & r' & Hr & Hf & _).
  - apply sample_records_ok.
  - apply (Forall_inv (Forall_inv_tail sample_records_ok)).
  - vm_compute. reflexivity.
  - discriminate.
  - lia.
  - cbn [mjoin list_join]. by rewrite app_nil_r.
  - exists e, r'. split; [exact Hr|exact Hf].
Defined.

(** A send returns within its bound on interruptions: it refuses an oversized
    payload before writing anything, and otherwise has written the whole frame or
    reports the call that failed, having written a strict prefix of it. *)
Theorem send_writes_frame {K} (fd : Z) `{ChannelLaws K fd} r s :
  in_u16 (rec_type r) →
  ∃ out s', send fd (rec_type r) (rec_payload r) s = Some (out, s') ∧
    match out with
    | Value _ => rec_ok r ∧ piped s' = piped s ++ frame_of r
    | Error (InFrame e) => fault_ e = kOversized ∧ ¬ rec_ok r ∧ s' = s
    | Error (InCall _) => ∃ k, (k < length (frame_of r))%nat ∧ piped s' = piped s ++ take k (frame_of r)
    end.
Proof.
  intros Ht. unfold send, frame_of.
  destruct (encode (rec_type r) (rec_payload r)) as [f|e] eqn:E; unfold encode in E;
    destruct (Z.ltb_spec kMaxPayloadBytes (size_of (rec_payload r))); try done.
  - destruct (send_loop_spec fd (send_turns f) 0 f s) as (out & s' & -> & Hm);
      [done|unfold send_turns, kChannelMaxConsecutiveInterrupts; lia|].
    exists out, s'. split; [done|]. destruct out as [u|[e|e]].
    + by split.
    + by destruct Hm as [[? [=]] _].
    + by destruct Hm as [_ Hk].
  - eexists _, s. split; [done|]. injection E as <-. split_and!; [done| |done].
    intros [_ Hp]. lia.
Qed.

Lemma send_writes_frame_witness :
  let p := {| pipe_in := []; pipe_out := []; pipe_taken := []; pipe_chunk := 5; pipe_tired := true |} in
  let r := {| rec_type := 1; rec_payload := lit "fft" |} in
  ∃ s', send 5 (rec_type r) (rec_payload r) p = Some (Value tt, s') ∧ pipe_in s' = frame_of r.
Proof.
  cbv zeta. set (p := {| pipe_in := []; pipe_out := []; pipe_taken := []; pipe_chunk := 5; pipe_tired := true |}).
  set (r := {| rec_type := 1; rec_payload := lit "fft" |}).
  destruct (send_writes_frame 5 r p) as (out & s' & E & Hm); [cbn; unfold in_u16; lia|].
  exists s'. destruct out as [[]|e]; [|vm_compute in E; discriminate].
  split; [exact E|]. by destruct Hm as [_ Hm].
Defined.

(** Draining a channel: over any number of drains, with interrupted reads,
    pieces of any size and calls after the end or after a fault, the records handed
    out are exactly the ones complete in the bytes read so far, in order, none lost
    to a fault and none twice; and the fault the source ends with is the stream's own
    or a truncation at its end. *)
Theorem drains_complete {K} (fd : Z) `{ChannelLaws K fd} n s outs src s' :
  taken s = [] →
  drains fd n {| source_reader := reading []; source_ended := false |} s = (outs, src, s') →
  source_inv fd (outs ≫= records_in) src s'.
Proof.
  intros Ht. assert (Hinv : source_inv fd [] {| source_reader := reading []; source_ended := false |} s).
  { exists None, (reading []). by rewrite Ht, reads_all_eq. }
  revert Hinv. change (outs ≫= records_in) with ([] ++ (outs ≫= records_in)).
  generalize (@nil IpcRecord) as records.
  generalize {| source_reader := reading []; source_ended := false |} as src0. clear Ht.
  revert s outs. induction n as [|n IH]; intros s outs src0 records Hi; cbn [drains].
  { intros [= <- <- <-]. by rewrite app_nil_r. }
  destruct (drain fd src0 s) as [[out src1] s1] eqn:Ed.
  destruct (drains fd n src1 s1) as [[outs1 src2] s2] eqn:Eds. intros [= <- <- <-].
  rewrite bind_cons, app_assoc. eapply IH; [|done]. by eapply drain_inv.
Qed.

Lemma drains_complete_witness :
  let p := {| pipe_in := []; pipe_out := sample_records ≫= frame_of; pipe_taken := [];
              pipe_chunk := 9; pipe_tired := true |} in
  source_inv 5 sample_records
    (drains 5 6 {| source_reader := reading []; source_ended := false |} p).1.2
    (drains 5 6 {| source_reader := reading []; source_ended := false |} p).2.
Proof.
  cbv zeta. set (p := {| pipe_in := []; pipe_out := _; pipe_taken := []; pipe_chunk := 9; pipe_tired := true |}).
  set (out := drains 5 6 {| source_reader := reading []; source_ended := false |} p).
  pose proof (drains_complete 5 6 p out.1.1 out.1.2 out.2) as H.
  replace sample_records with (out.1.1 ≫= records_in) by (vm_compute; reflexivity).
  apply H; [reflexivity|]. vm_compute. reflexivity.
Defined.
