(* ===== verification/Supervision.v ===== *)
(** * What became of a worker

    controller/supervision.cpp: the fate of a worker, classified from the evidence
    the controller holds, and the attribution of kills to the OOM killer. *)

From S2P Require Export Platform.

Inductive WorkerFate :=
| kCompleted | kWorkerError | kStartupFailed | kControllerLostReported | kFault | kKilled
| kOomKilled | kStoppedByController | kTimedOut | kChannelCorrupt | kTruncatedEvidence
| kUnrecognised.

#[export] Instance WorkerFate_eq_dec : EqDecision WorkerFate.
Proof. solve_decision. Defined.

Definition describe_fate (fate : WorkerFate) : text :=
  match fate with
  | kCompleted => lit "completed"
  | kWorkerError => lit "worker error"
  | kStartupFailed => lit "startup failed"
  | kControllerLostReported => lit "worker reported the controller lost"
  | kFault => lit "fault"
  | kKilled => lit "killed"
  | kOomKilled => lit "killed by the OOM killer"
  | kStoppedByController => lit "stopped by the controller"
  | kTimedOut => lit "timed out"
  | kChannelCorrupt => lit "record channel corrupt"
  | kTruncatedEvidence => lit "evidence truncated"
  | kUnrecognised => lit "unrecognised termination"
  end.

Definition is_clean (fate : WorkerFate) : bool := bool_decide (fate = kCompleted).

Definition is_fault_signal (signal : Z) : bool :=
  (signal =? SIGSEGV) || (signal =? SIGBUS) || (signal =? SIGABRT) || (signal =? SIGILL)
  || (signal =? SIGFPE) || (signal =? SIGTRAP).

Record Evidence := {
  status : Z;
  signal_attempted : option Z;
  stale_when_signalled : bool;
  finished_seen : bool;
  channel_corrupt : bool;
  channel_truncated : bool;
  oom_kill_recorded : bool;
  oom_inconclusive : bool;
}.

Definition kFirstLauncherCode : Z := 120.
Definition kLastLauncherCode : Z := 123.
Definition kControllerLostCode : Z := 124.
Definition kBadArgumentsCode : Z := 125.

Definition classify_exit (evidence : Evidence) : WorkerFate :=
  let code := exit_code (status evidence) in
  if code =? 0 then
    if finished_seen evidence && negb (channel_truncated evidence)
    then kCompleted else kTruncatedEvidence
  else if (kFirstLauncherCode <=? code) && (code <=? kLastLauncherCode)
          || (code =? kBadArgumentsCode) then kStartupFailed
  else if code =? kControllerLostCode then kControllerLostReported
  else kWorkerError.

Definition classify_signal (evidence : Evidence) : WorkerFate :=
  let signal := exit_signal (status evidence) in
  if bool_decide (signal_attempted evidence = Some signal) then
    if (signal =? SIGKILL) && oom_kill_recorded evidence then kOomKilled else
    if (signal =? SIGKILL) && oom_inconclusive evidence then kKilled else
    if stale_when_signalled evidence then kTimedOut else kStoppedByController
  else if is_fault_signal signal then kFault
  else if (signal =? SIGKILL) && oom_kill_recorded evidence then kOomKilled
  else kKilled.

Definition classify (evidence : Evidence) : WorkerFate :=
  if channel_corrupt evidence then kChannelCorrupt else
  let termination := termination (status evidence) in
  if bool_decide (termination = kExited) then classify_exit evidence else
  if bool_decide (termination = kSignalled) then classify_signal evidence else kUnrecognised.

Definition oom_candidate (evidence : Evidence) : bool :=
  if channel_corrupt evidence || bool_decide (termination (status evidence) ≠ kSignalled)
  then false else exit_signal (status evidence) =? SIGKILL.

Record OomFinding := { attributed : bool; note : text; ruled_out : bool }.

Definition kNotAttributed : text := lit "not attributed to the OOM killer: ".

Definition judge_oom_kills (before after : Result Z text) (candidates : Z) (scope : text) :
    OomFinding :=
  let unattributed words := {| attributed := false; note := kNotAttributed ++ words; ruled_out := false |} in
  match before, after with
  | Error e, _ => unattributed (lit "the OOM-kill count could not be read before the run: " ++ e)
  | _, Error e => unattributed (lit "the OOM-kill count could not be read after the run: " ++ e)
  | Value first, Value last =>
    if last <? first
    then unattributed (scope ++ lit " went from " ++ to_dec first ++ lit " to " ++ to_dec last
                       ++ lit ", so it is not the count that was read before the run")
    else
    let counted := u64 (last - first) in
    if counted =? 0
    then {| attributed := false; note := kNotAttributed ++ scope ++ lit " counted no OOM kill during the run";
            ruled_out := true |}
    else if counted <? candidates
    then unattributed (scope ++ lit " counted " ++ to_dec counted
           ++ lit " OOM kill(s) during the run for " ++ to_dec candidates
           ++ lit " workers killed by a SIGKILL, and a count does not say which")
    else {| attributed := true;
            note := lit "OOM kill: " ++ scope ++ lit " counted " ++ to_dec counted
              ++ lit " during the run, one or more for each of the " ++ to_dec candidates
              ++ lit " worker(s) killed by a SIGKILL";
            ruled_out := false |}
  end.

(** ** The classification, read backwards

    Which evidence each fate is given for: the table the header of
    controller/supervision.hpp describes, as conditions on what was observed. *)

Definition signalled_by (e : Evidence) (s : Z) : Prop :=
  channel_corrupt e = false ∧ termination (status e) = kSignalled ∧ exit_signal (status e) = s.

Definition exited_with (e : Evidence) (c : Z) : Prop :=
  channel_corrupt e = false ∧ termination (status e) = kExited ∧ exit_code (status e) = c.

Definition attempt_met (e : Evidence) (s : Z) : Prop := signal_attempted e = Some s.

(** What the evidence must show for a fate to be pronounced. *)
Definition grounds (fate : WorkerFate) (e : Evidence) : Prop :=
  match fate with
  | kChannelCorrupt => channel_corrupt e = true
  | kCompleted => exited_with e 0 ∧ finished_seen e = true ∧ channel_truncated e = false
  | kTruncatedEvidence => exited_with e 0 ∧ (finished_seen e = false ∨ channel_truncated e = true)
  | kStartupFailed => ∃ c, exited_with e c ∧ (120 ≤ c ≤ 123 ∨ c = 125)
  | kControllerLostReported => exited_with e 124
  | kWorkerError => ∃ c, exited_with e c ∧ c ≠ 0 ∧ ¬ (120 ≤ c ≤ 125)
  | kOomKilled => signalled_by e SIGKILL ∧ oom_kill_recorded e = true
  | kFault => ∃ s, signalled_by e s ∧ ¬ attempt_met e s ∧ s ∈ [SIGSEGV; SIGBUS; SIGABRT; SIGILL; SIGFPE; SIGTRAP]
  | kTimedOut => ∃ s, signalled_by e s ∧ attempt_met e s ∧ stale_when_signalled e = true ∧
                      (s = SIGKILL → oom_kill_recorded e = false ∧ oom_inconclusive e = false)
  | kStoppedByController =>
    ∃ s, signalled_by e s ∧ attempt_met e s ∧ stale_when_signalled e = false ∧
         (s = SIGKILL → oom_kill_recorded e = false ∧ oom_inconclusive e = false)
  | kKilled =>
    ∃ s, signalled_by e s ∧ (s = SIGKILL → oom_kill_recorded e = false) ∧
         (attempt_met e s ∧ s = SIGKILL ∧ oom_inconclusive e = true ∨
          ¬ attempt_met e s ∧ s ∉ [SIGSEGV; SIGBUS; SIGABRT; SIGILL; SIGFPE; SIGTRAP])
  | kUnrecognised =>
    channel_corrupt e = false ∧ termination (status e) ≠ kExited ∧ termination (status e) ≠ kSignalled
  end.

Lemma is_fault_signal_spec s :
  is_fault_signal s = true ↔ s ∈ [SIGSEGV; SIGBUS; SIGABRT; SIGILL; SIGFPE; SIGTRAP].
Proof.
  unfold is_fault_signal. rewrite !orb_true_iff, !Z.eqb_eq, !elem_of_cons, elem_of_nil. tauto.
Qed.

Lemma classify_exit_grounds e c :
  exited_with e c → grounds (classify_exit e) e.
Proof.
  intros (Hc & Ht & Hx). unfold classify_exit, kFirstLauncherCode, kLastLauncherCode,
    kBadArgumentsCode, kControllerLostCode. rewrite Hx.
  destruct (Z.eqb_spec c 0) as [->|H0].
  { destruct (finished_seen e) eqn:Ef, (channel_truncated e) eqn:Et; simpl;
      unfold exited_with; rewrite ?Ef, ?Et; auto 10. }
  destruct (_ || _) eqn:E.
  { simpl. exists c. split; [done|]. apply orb_true_iff in E as [E|E]; bool_facts; lia. }
  apply orb_false_iff in E as [E1 E2]. apply andb_false_iff in E1.
  destruct (Z.eqb_spec c 124) as [->|]; [done|]. simpl. exists c. split; [done|]. split; [done|].
  destruct E1; bool_facts; lia.
Qed.

Lemma classify_signal_grounds e s :
  signalled_by e s → grounds (classify_signal e) e.
Proof.
  intros Hs. assert (Hs' := Hs). destruct Hs' as (Hc & Ht & Hx). unfold classify_signal. rewrite Hx.
  pose proof (is_fault_signal_spec s) as Hfs.
  destruct (Z.eqb_spec s SIGKILL) as [->|Hk]; cbn [andb];
    case_bool_decide as Ha; fold (attempt_met e SIGKILL) in *.
  - destruct (oom_kill_recorded e) eqn:Eo; [by split|]. destruct (oom_inconclusive e) eqn:Ei.
    { exists SIGKILL. split_and!; try done. by left. }
    destruct (stale_when_signalled e) eqn:Es; exists SIGKILL; by rewrite ?Eo, ?Ei, ?Es.
  - cbn. destruct (oom_kill_recorded e) eqn:Eo; [by split|]. exists SIGKILL. split_and!; try done.
    right. split; [done|]. rewrite <- Hfs. done.
  - destruct (stale_when_signalled e) eqn:Es; exists s; by rewrite ?Es.
  - destruct (is_fault_signal s) eqn:Ef.
    + exists s. split_and!; try done. by apply Hfs.
    + exists s. split_and!; try done. right. split; [done|]. rewrite <- Hfs. done.
Qed.

Lemma classify_grounds e : grounds (classify e) e.
Proof.
  unfold classify. destruct (channel_corrupt e) eqn:Ec; [done|]. cbv zeta.
  case_bool_decide as Hx; [by apply (classify_exit_grounds e (exit_code (status e)))|].
  case_bool_decide as Hs; [by apply (classify_signal_grounds e (exit_signal (status e)))|done].
Qed.

Lemma classify_exited e c : exited_with e c → classify e = classify_exit e.
Proof.
  intros (Hc & Ht & _). unfold classify. rewrite Hc. cbv zeta. by rewrite bool_decide_true.
Qed.

Lemma classify_signalled e s : signalled_by e s → classify e = classify_signal e.
Proof.
  intros (Hc & Ht & _). unfold classify. rewrite Hc. cbv zeta.
  by rewrite Ht, bool_decide_false, bool_decide_true by done.
Qed.

Lemma exit_grounds_fate e c fate :
  exited_with e c → grounds fate e →
  (c = 0 ∧ fate = kCompleted ∧ finished_seen e = true ∧ channel_truncated e = false) ∨
  (c = 0 ∧ fate = kTruncatedEvidence ∧ (finished_seen e = false ∨ channel_truncated e = true)) ∨
  ((120 ≤ c ≤ 123 ∨ c = 125) ∧ fate = kStartupFailed) ∨
  (c = 124 ∧ fate = kControllerLostReported) ∨
  (c ≠ 0 ∧ ¬ (120 ≤ c ≤ 125) ∧ fate = kWorkerError).
Proof.
  intros (Hc & Ht & Hx) Hg.
  destruct fate; unfold grounds, exited_with, signalled_by in Hg; rewrite ?Hc, ?Ht, ?Hx in Hg;
    naive_solver lia.
Qed.

Lemma exit_fate e c fate : exited_with e c → grounds fate e → classify_exit e = fate.
Proof.
  intros He Hg. pose proof (exit_grounds_fate _ _ _ He Hg) as Hf. destruct He as (_ & _ & Hx).
  unfold classify_exit, kFirstLauncherCode, kLastLauncherCode, kBadArgumentsCode, kControllerLostCode.
  rewrite Hx. destruct Hf as [(-> & -> & -> & ->)|[(-> & -> & [->| ->])|[(H & ->)|[(-> & ->)|(H0 & H1 & ->)]]]];
    try done; [by destruct (finished_seen e)|..].
  - rewrite (proj2 (Z.eqb_neq c 0)) by lia.
    destruct (Z.leb_spec 120 c), (Z.leb_spec c 123), (Z.eqb_spec c 125); try lia; done.
  - rewrite (proj2 (Z.eqb_neq c 0)) by lia. rewrite (proj2 (Z.eqb_neq c 124)), (proj2 (Z.eqb_neq c 125)) by lia.
    destruct (Z.leb_spec 120 c), (Z.leb_spec c 123); try lia; done.
Qed.

Lemma signal_fate e s fate : signalled_by e s → grounds fate e → classify_signal e = fate.
Proof.
  intros (Hc & Ht & Hx) Hg. unfold classify_signal. rewrite Hx.
  pose proof (is_fault_signal_spec s) as Hfs. unfold attempt_met in *.
  destruct fate; unfold grounds, exited_with, signalled_by in Hg; rewrite ?Hc, ?Ht, ?Hx in Hg;
    try (by unpack).
  - (* kFault *) destruct Hg as (s' & (_ & _ & <-) & Hm & Hin). rewrite bool_decide_false by done.
    by rewrite (proj2 Hfs Hin).
  - (* kKilled *) destruct Hg as (s' & (_ & _ & <-) & Ho & [(Hm & -> & Hi)|(Hm & Hin)]).
    + rewrite bool_decide_true by done. by rewrite (Ho eq_refl), Hi.
    + rewrite bool_decide_false by done. destruct (is_fault_signal s); [naive_solver|].
      destruct (Z.eqb_spec s SIGKILL) as [->|]; [by rewrite Ho|done].
  - (* kOomKilled *) destruct Hg as [(_ & _ & ->) ->]. simpl. by case_bool_decide.
  - (* kStoppedByController *) destruct Hg as (s' & (_ & _ & <-) & Hm & Hst & Ho).
    rewrite bool_decide_true by done. rewrite Hst.
    destruct (Z.eqb_spec s SIGKILL) as [->|]; [|done]. by destruct (Ho eq_refl) as [-> ->].
  - (* kTimedOut *) destruct Hg as (s' & (_ & _ & <-) & Hm & Hst & Ho).
    rewrite bool_decide_true by done. rewrite Hst.
    destruct (Z.eqb_spec s SIGKILL) as [->|]; [|done]. by destruct (Ho eq_refl) as [-> ->].
Qed.

(** ** Theorems *)

(** The classification is exactly its table: a worker is given a fate if and
    only if the evidence shows that fate's grounds, so every worker has one fate and
    no evidence is grounds for two. In particular a clean exit counts as completed
    only with its finished record and an untruncated channel, a corrupt channel
    overrides everything, and an OOM kill is pronounced only of a SIGKILL the kernel
    counted. *)
Theorem classify_exactly e fate : classify e = fate ↔ grounds fate e.
Proof.
  split; [intros <-; apply classify_grounds|]. intros Hg.
  destruct (channel_corrupt e) eqn:Ec.
  { unfold classify. rewrite Ec. destruct fate; unfold grounds, exited_with, signalled_by in Hg;
      rewrite ?Ec in Hg; by unpack. }
  destruct (decide (termination (status e) = kExited)) as [Hx|Hx].
  { assert (He : exited_with e (exit_code (status e))) by done.
    rewrite (classify_exited _ _ He). by eapply exit_fate. }
  destruct (decide (termination (status e) = kSignalled)) as [Hs|Hs].
  { assert (He : signalled_by e (exit_signal (status e))) by done.
    rewrite (classify_signalled _ _ He). by eapply signal_fate. }
  unfold classify. rewrite Ec. cbv zeta. rewrite !bool_decide_false by done.
  destruct fate; unfold grounds, exited_with, signalled_by in Hg; rewrite ?Ec in Hg; unpack; done || congruence.
Qed.

(** Kills are attributed to the OOM killer only when both counts were read, the
    count did not go back, and it rose at least once and at least as often as there
    are candidates; they are ruled out only when it was read twice and did not move;
    and never both. *)
Theorem judge_oom_kills_exactly before after candidates scope :
  (∀ n, before = Value n → in_u64 n) → (∀ n, after = Value n → in_u64 n) →
  let f := judge_oom_kills before after candidates scope in
  (attributed f = true ↔
     ∃ first last, before = Value first ∧ after = Value last ∧
                   first < last ∧ candidates ≤ last - first) ∧
  (ruled_out f = true ↔ ∃ n, before = Value n ∧ after = Value n).
Proof.
  intros Hb Ha. unfold judge_oom_kills.
  destruct before as [first|e]; [|simpl; naive_solver].
  destruct after as [last|e]; [|simpl; naive_solver]. cbv zeta.
  specialize (Hb _ eq_refl). specialize (Ha _ eq_refl). unfold in_u64 in *.
  destruct (Z.ltb_spec last first); [simpl; split; (split; [done|]); naive_solver lia|].
  rewrite u64_small by (unfold in_u64; lia).
  destruct (Z.eqb_spec (last - first) 0); simpl.
  { split; [split; [done|]; naive_solver lia|]. split; [|done]. intros _. exists first.
    split; [done|]. f_equal. lia. }
  destruct (Z.ltb_spec (last - first) candidates); simpl; split; split; try done; try naive_solver lia.
Qed.

Lemma judge_oom_kills_exactly_witness :
  attributed (judge_oom_kills (Value 4) (Value 7) 2 (lit "the cgroup")) = true.
Proof.
  apply (judge_oom_kills_exactly (Value 4) (Value 7) 2 (lit "the cgroup")).
  - intros n [= <-]. unfold in_u64. lia.
  - intros n [= <-]. unfold in_u64. lia.
  - exists 4, 7. split; [reflexivity|]. split; [reflexivity|]. lia.
Defined.
