(* ===== verification/Heartbeat.v ===== *)
(** * The heartbeat region

    worker/ipc/heartbeat.cpp: a slot of shared memory written by one process and read
    by any number, with no lock. The atomic operations of [publish] and [observe] are
    a small program over a memory whose loads may be stale: every location keeps the
    history of its stores, a thread may read any store at or past what it already
    knows of, and knowledge travels only as the C++ memory orders say - with release
    stores and fences into the stores, with acquire loads and fences out of them. *)

From S2P Require Export Platform.

(** ** Beats and their reading *)

Record Heartbeat := { timestamp_ns : Z; progress : Z; beat_phase : Z; pid : Z }.

#[export] Instance Heartbeat_eq_dec : EqDecision Heartbeat.
Proof. solve_decision. Defined.

Inductive RegionFault :=
| kSyscall | kMagic | kVersion | kSlotCount | kSlotBytesFault | kTooManyWorkers | kSlotOutOfRange
| kTorn.

Definition describe_region_fault (fault : RegionFault) : text :=
  match fault with
  | kSyscall => lit "the kernel refused"
  | kMagic => lit "the memory is not a heartbeat region"
  | kVersion => lit "the region is of a version this build does not read"
  | kSlotCount => lit "the region holds a different number of slots than expected"
  | kSlotBytesFault => lit "the region's slots are a different size than this build's"
  | kTooManyWorkers => lit "more workers than a region can hold"
  | kSlotOutOfRange => lit "no such slot"
  | kTorn => lit "the writer is stuck mid-update"
  end.

Record RegionError := { region_fault : RegionFault; region_detail : text; cause : option SyscallError }.

Definition region_syscall_error (e : SyscallError) : RegionError :=
  {| region_fault := kSyscall; region_detail := []; cause := Some e |}.
Definition layout_error (fault : RegionFault) (detail : text) : RegionError :=
  {| region_fault := fault; region_detail := detail; cause := None |}.

Definition describe_region_error (strerror : Z → text) (error : RegionError) : text :=
  match region_fault error, cause error with
  | kSyscall, Some e => describe_syscall_error strerror e
  | fault, _ => describe_region_fault fault
                ++ (match region_detail error with [] => [] | d => lit ": " ++ d end)
  end.

Inductive Liveness := kNeverBeat | kFresh | kStale.

#[export] Instance Liveness_eq_dec : EqDecision Liveness.
Proof. solve_decision. Defined.

Definition describe_liveness (l : Liveness) : text :=
  match l with
  | kNeverBeat => lit "never beat" | kFresh => lit "fresh" | kStale => lit "stale"
  end.

Definition liveness (beat : option Heartbeat) (now_ns stale_after_ns : Z) : Liveness :=
  match beat with
  | None => kNeverBeat
  | Some b => if stale_after_ns <? i64 (now_ns - timestamp_ns b) then kStale else kFresh
  end.

Definition progressed (earlier later : Heartbeat) : bool := progress earlier <? progress later.

Definition sample_is_consistent (before after : Z) : bool :=
  (Z.land before 1 =? 0) && (before =? after).

Definition count_detail (what : text) (found expected : Z) : text :=
  what ++ lit " " ++ to_dec found ++ lit ", expected " ++ to_dec expected.

(** ** The region's header *)

Definition kRegionMagic : Z := 0x4C464842.
Definition kRegionVersion : Z := 1.
Definition kMaxWorkers : Z := 1024.
Definition kHeaderBytes : Z := 64.
Definition kSlotBytes : Z := 64.
Definition kMaxTornRetries : nat := 64.

Definition bytes_for (workers : Z) : Z := kHeaderBytes + (workers + 1) * kSlotBytes.

Record Header := { magic : Z; version : Z; slot_count : Z; slot_bytes : Z }.

(** The header create writes. *)
Definition header_for (workers : Z) : Header :=
  {| magic := kRegionMagic; version := kRegionVersion;
     slot_count := u32 (workers + 1); slot_bytes := u32 kSlotBytes |}.

#[export] Instance Header_eq_dec : EqDecision Header.
Proof. solve_decision. Defined.

(** The calls on the memory file; [map_shared] answers the header the mapping
    begins with. *)
Class RegionCalls (K : Type) := {
  create_memory_file : text → Z → K → Result Z SyscallError * K;
  map_shared : Z → Z → K → Result Header SyscallError * K;
  write_header : Header → K → K;
  unmap : Z → K → Result unit SyscallError * K;
  close_fd : Z → K → Result unit SyscallError * K;
}.

Record HeartbeatRegion := { region_fd : Z; region_workers : Z }.

Section Region.
Context {K : Type} `{RegionCalls K}.

Definition create (workers : Z) (name : text) (s : K) : Result HeartbeatRegion RegionError * K :=
  if kMaxWorkers <? workers
  then (Error (layout_error kTooManyWorkers (count_detail (lit "workers") workers kMaxWorkers)), s) else
  let bytes := bytes_for workers in
  let '(fd, s) := create_memory_file name bytes s in
  match fd with
  | Error e => (Error (region_syscall_error e), s)
  | Value fd =>
    let '(base, s) := map_shared fd bytes s in
    match base with
    | Error e => let '(_, s) := close_fd fd s in (Error (region_syscall_error e), s)
    | Value _ =>
      (Value {| region_fd := fd; region_workers := workers |},
       write_header (header_for workers) s)
    end
  end.

Definition refusal (header : Header) (workers : Z) : option RegionError :=
  if negb (magic header =? kRegionMagic)
  then Some (layout_error kMagic (count_detail (lit "magic") (magic header) kRegionMagic))
  else if negb (version header =? kRegionVersion)
  then Some (layout_error kVersion (count_detail (lit "version") (version header) kRegionVersion))
  else if negb (slot_count header =? workers + 1)
  then Some (layout_error kSlotCount (count_detail (lit "slots") (slot_count header) (workers + 1)))
  else if negb (slot_bytes header =? kSlotBytes)
  then Some (layout_error kSlotBytesFault (count_detail (lit "slot bytes") (slot_bytes header) kSlotBytes))
  else None.

Definition attach (fd workers : Z) (s : K) : Result HeartbeatRegion RegionError * K :=
  if kMaxWorkers <? workers
  then (Error (layout_error kTooManyWorkers (count_detail (lit "workers") workers kMaxWorkers)), s) else
  let bytes := bytes_for workers in
  let '(base, s) := map_shared fd bytes s in
  match base with
  | Error e => (Error (region_syscall_error e), s)
  | Value header =>
    match refusal header workers with
    | Some refused => let '(_, s) := unmap bytes s in (Error refused, s)
    | None => (Value {| region_fd := fd; region_workers := workers |}, s)
    end
  end.

(** [None] is a region already released. *)
Definition release (region : option HeartbeatRegion) (s : K) :
    Result unit SyscallError * option HeartbeatRegion * K :=
  match region with
  | None => (Value tt, None, s)
  | Some r =>
    let '(unmapped, s) := unmap (bytes_for (region_workers r)) s in
    let '(closed, s) := close_fd (region_fd r) s in
    ((if has_value unmapped then closed else unmapped), None, s)
  end.
End Region.

(** ** The atomic programs *)

Inductive Loc := LSequence | LTimestamp | LProgress | LPhase | LPid.

#[export] Instance Loc_eq_dec : EqDecision Loc.
Proof. solve_decision. Defined.

Inductive Order := Relaxed | Acquire | Release.

(** A thread's program: atomic loads, stores and fences on one slot. *)
Inductive Prog (A : Type) :=
| Ret (a : A)
| Load (o : Order) (l : Loc) (k : Z → Prog A)
| Store (o : Order) (l : Loc) (v : Z) (k : Prog A)
| Fence (o : Order) (k : Prog A).
Arguments Ret {A} a.
Arguments Load {A} o l k.
Arguments Store {A} o l v k.
Arguments Fence {A} o k.

(** The tail of publish once the sequence is odd and the fence is passed. *)
Definition publish_fields (beat : Heartbeat) (writing : Z) {A} (k : Prog A) : Prog A :=
  Store Relaxed LTimestamp (timestamp_ns beat) (
  Store Relaxed LProgress (progress beat) (
  Store Relaxed LPhase (beat_phase beat) (
  Store Relaxed LPid (pid beat) (
  Store Release LSequence (u64 (writing + 1)) k)))).

Definition publish_then (beat : Heartbeat) {A} (k : Prog A) : Prog A :=
  Load Relaxed LSequence (λ sequence,
  let writing := u64 (sequence + 1) in
  Store Relaxed LSequence writing (
  Fence Release (
  publish_fields beat writing k))).

Definition publish (slot slots : Z) (beat : Heartbeat) : Prog (Result unit RegionError) :=
  if slots <=? slot
  then Ret (Error (layout_error kSlotOutOfRange (count_detail (lit "slot") slot slots)))
  else publish_then beat (Ret (Value tt)).

Definition torn (attempts : nat) : RegionError :=
  layout_error kTorn (lit "no consistent sample in " ++ to_dec (Z.of_nat attempts) ++ lit " attempts").

(** The loop of observe: [more] attempts to go of [kMaxTornRetries]. *)
Fixpoint observe_from (more : nat) : Prog (Result (option Heartbeat) RegionError) :=
  match more with
  | O => Ret (Error (torn kMaxTornRetries))
  | S more =>
    Load Acquire LSequence (λ before,
    if before =? 0 then Ret (Value None) else
    Load Relaxed LTimestamp (λ ts,
    Load Relaxed LProgress (λ pr,
    Load Relaxed LPhase (λ ph,
    Load Relaxed LPid (λ pd,
    Fence Acquire (
    Load Relaxed LSequence (λ after,
    if sample_is_consistent before after
    then Ret (Value (Some {| timestamp_ns := ts; progress := pr; beat_phase := ph; pid := pd |}))
    else observe_from more)))))))
  end.

Definition observe (slot slots : Z) : Prog (Result (option Heartbeat) RegionError) :=
  if slots <=? slot
  then Ret (Error (layout_error kSlotOutOfRange (count_detail (lit "slot") slot slots)))
  else observe_from kMaxTornRetries.

(** ** The memory

    A view says, of each location, the earliest store a thread may still read. *)

Definition View := Loc → nat.

Definition view0 : View := λ _, 0%nat.
Definition join (v w : View) : View := λ l, Nat.max (v l) (w l).
Definition bump (l : Loc) (n : nat) (v : View) : View :=
  λ l', if decide (l' = l) then Nat.max n (v l') else v l'.

(** A store in its location's history: the value, and the view it passes on. *)
Record Msg := { msg_value : Z; msg_view : View }.

Definition Memory := Loc → list Msg.

(** A fresh memfd is zero-filled. *)
Definition memory0 : Memory := λ _, [{| msg_value := 0; msg_view := view0 |}].

Definition append (l : Loc) (m : Msg) (mem : Memory) : Memory :=
  λ l', if decide (l' = l) then mem l' ++ [m] else mem l'.

(** A thread's views: what it knows; what an acquire fence would add to it; what a
    release fence has put into its later relaxed stores. *)
Record Thread (A : Type) := { prog : Prog A; cur : View; acq : View; rel : View }.
Arguments prog {A} t.
Arguments cur {A} t.
Arguments acq {A} t.
Arguments rel {A} t.

Definition start {A} (p : Prog A) : Thread A := {| prog := p; cur := view0; acq := view0; rel := view0 |}.

(** One atomic operation. A load reads any store at or past the thread's view; a
    store goes to the end of its location's history. *)
Inductive tstep {A} : Memory → Thread A → Memory → Thread A → Prop :=
| StepLoad mem t o l k i m :
    prog t = Load o l k → mem l !! i = Some m → (cur t l ≤ i)%nat →
    tstep mem t mem
      {| prog := k (msg_value m);
         cur := (let c := bump l i (cur t) in
                 match o with Acquire => join c (msg_view m) | _ => c end);
         acq := join (acq t) (msg_view m);
         rel := rel t |}
| StepStore mem t o l v k :
    prog t = Store o l v k →
    tstep mem t
      (append l {| msg_value := v;
                   msg_view := bump l (length (mem l))
                     (match o with Release => cur t | _ => rel t end) |} mem)
      {| prog := k; cur := bump l (length (mem l)) (cur t); acq := acq t; rel := rel t |}
| StepAcquireFence mem t k :
    prog t = Fence Acquire k →
    tstep mem t mem {| prog := k; cur := join (cur t) (acq t); acq := acq t; rel := rel t |}
| StepReleaseFence mem t k :
    prog t = Fence Release k →
    tstep mem t mem {| prog := k; cur := cur t; acq := acq t; rel := cur t |}.

(** One slot: its memory, its single writer publishing beats one after another, and
    its readers, each observing again and again. *)
Record System := {
  memory : Memory;
  writer : Thread unit;
  readers : list (Thread (Result (option Heartbeat) RegionError));
}.

Fixpoint publish_all (beats : list Heartbeat) : Prog unit :=
  match beats with
  | [] => Ret tt
  | b :: beats => publish_then b (publish_all beats)
  end.

(** A reader that has its answer keeps what it knows and may observe again. *)
Definition again {A} (p : Prog A) (t : Thread A) : Thread A :=
  {| prog := p; cur := cur t; acq := acq t; rel := rel t |}.

Inductive sstep : System → System → Prop :=
| WriterStep s mem' w' :
    tstep (memory s) (writer s) mem' w' →
    sstep s {| memory := mem'; writer := w'; readers := readers s |}
| ReaderStep s i t mem' t' :
    readers s !! i = Some t → tstep (memory s) t mem' t' →
    sstep s {| memory := mem'; writer := writer s; readers := <[i := t']> (readers s) |}
| ReaderAgain s i t a :
    readers s !! i = Some t → prog t = Ret a →
    sstep s {| memory := memory s; writer := writer s;
               readers := <[i := again (observe_from kMaxTornRetries) t]> (readers s) |}.

Definition slot_start (beats : list Heartbeat) (n : nat) : System :=
  {| memory := memory0; writer := start (publish_all beats);
     readers := replicate n (start (observe_from kMaxTornRetries)) |}.

Inductive reachable (s0 : System) : System → Prop :=
| ReachStart : reachable s0 s0
| ReachStep s s' : reachable s0 s → sstep s s' → reachable s0 s'.

(** ** What every store carries

    The synchronisation argument. Store [2j] of the sequence is the release store
    that ends the j-th publish: it passes on that every field has its j-th store.
    Store [i] of a field is relaxed, but behind the i-th publish's release fence: it
    passes on that the sequence has had its odd store [2i - 1]. *)

Section Seqlock.
Context (beats : list Heartbeat).
Abbreviation N := (length beats).
Hypothesis few : 2 * Z.of_nat N + 2 < 2 ^ 64.

Definition field_of (l : Loc) (b : Heartbeat) : Z :=
  match l with
  | LSequence => 0
  | LTimestamp => timestamp_ns b
  | LProgress => progress b
  | LPhase => beat_phase b
  | LPid => pid b
  end.

(** The i-th value a field takes: zero, then each beat's. *)
Definition field_value (l : Loc) (i : nat) : Z :=
  match i with O => 0 | S i => default 0 (field_of l <$> beats !! i) end.

Definition msg_ok (l : Loc) (i : nat) (m : Msg) : Prop :=
  if decide (l = LSequence) then
    msg_value m = Z.of_nat i ∧ (i ≤ 2 * N)%nat ∧
    ∀ j f, i = (2 * j)%nat → f ≠ LSequence → (j ≤ msg_view m f)%nat
  else
    msg_value m = field_value l i ∧ (i ≤ N)%nat ∧ (2 * i - 1 ≤ msg_view m LSequence)%nat.

Definition mem_ok (mem : Memory) : Prop := ∀ l i m, mem l !! i = Some m → msg_ok l i m.

Lemma memory0_ok : mem_ok memory0.
Proof.
  intros l [|i] m; unfold memory0, msg_ok; [|intros Hl%lookup_lt_Some; simpl in Hl; lia].
  intros [= <-].
  case_decide; simpl; split_and!; try done; lia.
Qed.

Lemma append_ok mem l m :
  mem_ok mem → msg_ok l (length (mem l)) m → mem_ok (append l m mem).
Proof.
  intros Hm Hn l' i m'. unfold append. case_decide as E; [subst l'|apply Hm].
  intros [[_ Hi]|[-> <-]]%lookup_snoc_Some; [by apply Hm|done].
Qed.

(** *** The writer *)

(** The program left at each point of publishing beat [n]. *)
Definition writer_prog (pc n : nat) (b : Heartbeat) : Prog unit :=
  let rest := publish_all (drop (S n) beats) in
  let writing := Z.of_nat (2 * n + 1) in
  let ending := Store Release LSequence (u64 (writing + 1)) rest in
  match pc with
  | 0%nat => publish_then b rest
  | 1%nat => Store Relaxed LSequence writing (Fence Release (publish_fields b writing rest))
  | 2%nat => Fence Release (publish_fields b writing rest)
  | 3%nat => publish_fields b writing rest
  | 4%nat => Store Relaxed LProgress (progress b) (Store Relaxed LPhase (beat_phase b)
               (Store Relaxed LPid (pid b) ending))
  | 5%nat => Store Relaxed LPhase (beat_phase b) (Store Relaxed LPid (pid b) ending)
  | 6%nat => Store Relaxed LPid (pid b) ending
  | _ => ending
  end.

(** The last store of each location at that point. *)
Definition last_store (pc n : nat) (l : Loc) : nat :=
  let after k := if (k <=? pc)%nat then 1%nat else 0%nat in
  match l with
  | LSequence => (2 * n + after 2)%nat
  | LTimestamp => (n + after 4)%nat
  | LProgress => (n + after 5)%nat
  | LPhase => (n + after 6)%nat
  | LPid => (n + after 7)%nat
  end.

Inductive writer_ok (mem : Memory) (w : Thread unit) : Prop :=
| WriterIdle :
    prog w = Ret tt → writer_ok mem w
| WriterAt pc n b :
    beats !! n = Some b → (pc ≤ 7)%nat → prog w = writer_prog pc n b →
    (∀ l, length (mem l) = S (last_store pc n l)) →
    (∀ l, cur w l = last_store pc n l) →
    ((3 ≤ pc)%nat → (2 * n + 1 ≤ rel w LSequence)%nat) →
    writer_ok mem w.

Lemma writer_start n mem (w : Thread unit) :
  prog w = publish_all (drop n beats) → (n ≤ N)%nat →
  (∀ l, length (mem l) = S (last_store 0 n l)) → (∀ l, cur w l = last_store 0 n l) →
  writer_ok mem w.
Proof.
  intros Hp Hn Hl Hc. destruct (beats !! n) as [b|] eqn:Eb.
  - rewrite (drop_S _ _ _ Eb) in Hp. apply (WriterAt mem w 0 n b); done || lia.
  - apply lookup_ge_None in Eb. rewrite drop_ge in Hp by done. by apply WriterIdle.
Qed.

Lemma length_append l l' m mem :
  length (append l m mem l') = (length (mem l') + (if decide (l' = l) then 1 else 0))%nat.
Proof. unfold append. case_decide; [rewrite length_app; simpl|]; lia. Qed.

(** A field's store moves the writer one point on. *)
Lemma writer_store pc n b l v k mem (w : Thread unit) :
  beats !! n = Some b → (3 ≤ pc < 7)%nat →
  writer_prog pc n b = Store Relaxed l v k → writer_prog (S pc) n b = k →
  l ≠ LSequence → v = field_of l b →
  (∀ l', last_store (S pc) n l' = last_store pc n l' + (if decide (l' = l) then 1 else 0))%nat →
  last_store pc n l = n →
  (∀ l, length (mem l) = S (last_store pc n l)) → (∀ l, cur w l = last_store pc n l) →
  (2 * n + 1 ≤ rel w LSequence)%nat → mem_ok mem →
  let m := {| msg_value := v; msg_view := bump l (length (mem l)) (rel w) |} in
  mem_ok (append l m mem) ∧
  writer_ok (append l m mem)
    {| prog := k; cur := bump l (length (mem l)) (cur w); acq := acq w; rel := rel w |}.
Proof.
  intros Hb Hpc Hp Hp' Hl Hv Hls Hln Hlen Hcur Hrel Hm m. split.
  - apply append_ok; [done|]. unfold msg_ok. rewrite decide_False by done. rewrite Hlen, Hln.
    split_and!.
    + simpl. rewrite Hb. by rewrite Hv.
    + apply lookup_lt_Some in Hb. lia.
    + unfold m. cbn [msg_view]. unfold bump. rewrite decide_False by (intros E; by rewrite E in Hl).
      lia.
  - apply (WriterAt _ _ (S pc) n b); cbn [prog cur rel]; try done; [lia|..].
    + intros l'. rewrite length_append, Hlen, Hls. lia.
    + intros l'. unfold bump. rewrite Hls. case_decide as E; [|rewrite Hcur; lia].
      subst l'. rewrite Hlen, Hcur. lia.
Qed.

Lemma bump_self l n v : (v l ≤ n)%nat → bump l n v l = n.
Proof. intros. unfold bump. rewrite decide_True by done. lia. Qed.

Lemma bump_other l l' n v : l' ≠ l → bump l n v l' = v l'.
Proof. intros. unfold bump. by rewrite decide_False. Qed.

Lemma small_u64 n : (n ≤ 2 * N + 2)%nat → u64 (Z.of_nat n) = Z.of_nat n.
Proof. intros. apply u64_small. unfold in_u64. lia. Qed.

(** The store that makes the sequence odd. *)
Lemma writer_odd n b mem (w : Thread unit) :
  beats !! n = Some b → (∀ l, length (mem l) = S (last_store 1 n l)) →
  (∀ l, cur w l = last_store 1 n l) → mem_ok mem →
  let m := {| msg_value := Z.of_nat (2 * n + 1);
              msg_view := bump LSequence (length (mem LSequence)) (rel w) |} in
  mem_ok (append LSequence m mem) ∧
  writer_ok (append LSequence m mem)
    {| prog := writer_prog 2 n b; cur := bump LSequence (length (mem LSequence)) (cur w);
       acq := acq w; rel := rel w |}.
Proof.
  intros Hb Hlen Hcur Hm m. pose proof (lookup_lt_Some _ _ _ Hb) as Hn. split.
  - apply append_ok; [done|]. unfold msg_ok. rewrite decide_True, Hlen by done. simpl.
    split_and!; [lia|lia|]. intros j f Hj. lia.
  - apply (WriterAt _ _ 2 n b); cbn [prog cur rel]; try done; try lia.
    + intros l. rewrite length_append, Hlen. destruct l; simpl; lia.
    + intros l. unfold bump. case_decide as E; [subst l; rewrite Hcur, Hlen; simpl; lia|].
      rewrite Hcur. destruct l; simpl; done || lia.
Qed.

(** The release store that makes it even. *)
Lemma writer_even n b mem (w : Thread unit) :
  beats !! n = Some b → (∀ l, length (mem l) = S (last_store 7 n l)) →
  (∀ l, cur w l = last_store 7 n l) → mem_ok mem →
  let m := {| msg_value := u64 (Z.of_nat (2 * n + 1) + 1);
              msg_view := bump LSequence (length (mem LSequence)) (cur w) |} in
  mem_ok (append LSequence m mem) ∧
  writer_ok (append LSequence m mem)
    {| prog := publish_all (drop (S n) beats); cur := bump LSequence (length (mem LSequence)) (cur w);
       acq := acq w; rel := rel w |}.
Proof.
  intros Hb Hlen Hcur Hm m. pose proof (lookup_lt_Some _ _ _ Hb) as Hn.
  assert (Hv : msg_value m = Z.of_nat (2 * n + 2)).
  { unfold m. simpl msg_value. rewrite <- (small_u64 (2 * n + 2)) by lia. f_equal. lia. }
  split.
  - apply append_ok; [done|]. unfold msg_ok. rewrite decide_True, Hlen, Hv by done.
    split_and!; [simpl; lia|simpl; lia|]. intros j f Hj Hf. unfold m. cbn [msg_view].
    rewrite bump_other, Hcur by done. simpl in Hj. destruct f; simpl; try lia; done.
  - apply (writer_start (S n)); cbn [prog cur]; [done|lia|..].
    + intros l. rewrite length_append, Hlen. destruct l; simpl; lia.
    + intros l. unfold bump. case_decide as E; [subst l; rewrite Hcur, Hlen; simpl; lia|].
      rewrite Hcur. destruct l; simpl; done || lia.
Qed.

Lemma writer_load n b mem (w : Thread unit) i m :
  beats !! n = Some b → (∀ l, length (mem l) = S (last_store 0 n l)) →
  (∀ l, cur w l = last_store 0 n l) → mem_ok mem →
  mem LSequence !! i = Some m → (cur w LSequence ≤ i)%nat →
  i = (2 * n)%nat ∧ msg_value m = Z.of_nat (2 * n).
Proof.
  intros Hb Hlen Hcur Hm Hi Hc. pose proof (lookup_lt_Some _ _ _ Hi) as Hlt.
  rewrite Hlen in Hlt. rewrite Hcur in Hc. simpl in Hlt, Hc. assert (i = 2 * n)%nat as -> by lia.
  split; [done|]. pose proof (Hm _ _ _ Hi) as Hok. unfold msg_ok in Hok.
  rewrite decide_True in Hok by done. by destruct Hok.
Qed.

Lemma writer_step mem w mem' w' :
  mem_ok mem → writer_ok mem w → tstep mem w mem' w' → mem_ok mem' ∧ writer_ok mem' w'.
Proof.
  intros Hm [Hp|pc n b Hb Hpc Hp Hlen Hcur Hrel] Hs.
  { inversion Hs; subst; congruence. }
  destruct (decide (3 ≤ pc < 7)%nat) as [Hf|Hf].
  - assert (∃ l, writer_prog pc n b = Store Relaxed l (field_of l b) (writer_prog (S pc) n b) ∧
                 l ≠ LSequence ∧ last_store pc n l = n ∧
                 (∀ l', last_store (S pc) n l' = last_store pc n l' + (if decide (l' = l) then 1 else 0))%nat)
      as (l & Hl & Hne & Hln & Hls).
    { assert (Hcases : pc = 3%nat ∨ pc = 4%nat ∨ pc = 5%nat ∨ pc = 6%nat) by lia.
      destruct Hcases as [->|[->|[->| ->]]];
        [exists LTimestamp|exists LProgress|exists LPhase|exists LPid];
        (split_and!; [done|done|simpl; lia|intros []; simpl; lia]). }
    rewrite Hl in Hp. inversion Hs; subst; try congruence.
    match goal with H : prog w = Store _ _ _ _ |- _ => rewrite Hp in H; injection H as <- <- <- <- end.
    eapply writer_store; try done. apply Hrel. lia.
  - assert (Hcases : pc = 0%nat ∨ pc = 1%nat ∨ pc = 2%nat ∨ pc = 7%nat) by lia.
    destruct Hcases as [->|[->|[->| ->]]]; cbn [writer_prog] in Hp; unfold publish_then in Hp; inversion Hs; subst;
      try congruence; match goal with H : prog w = _ |- _ => rewrite Hp in H end.
    + match goal with H : Load _ _ _ = _ |- _ => injection H as <- <- <- end.
      match goal with Hi : _ LSequence !! _ = Some _, Hc : (cur w LSequence ≤ _)%nat |- _ =>
        destruct (writer_load _ _ _ _ _ _ Hb Hlen Hcur Hm Hi Hc) as [-> Hv] end.
      split; [done|]. rewrite Hv.
      apply (WriterAt _ _ 1 n b); cbn [prog cur rel]; try done; try lia.
      * unfold writer_prog. replace (Z.of_nat (2 * n) + 1) with (Z.of_nat (2 * n + 1)) by lia.
        pose proof (lookup_lt_Some _ _ _ Hb). by rewrite small_u64 by lia.
      * intros l. unfold bump. rewrite Hcur. case_decide as E; [subst l|]; [simpl; lia|]. by destruct l.
    + match goal with H : Store _ _ _ _ = _ |- _ => injection H as <- <- <- <- end.
      by apply writer_odd.
    + match goal with H : Fence _ _ = _ |- _ => injection H as <- end. split; [done|].
      apply (WriterAt _ _ 3 n b); cbn [prog cur rel]; try done; try lia.
      intros _. rewrite Hcur. simpl. lia.
    + match goal with H : Store _ _ _ _ = _ |- _ => injection H as <- <- <- <- end.
      by apply (writer_even n b).
Qed.

(** *** A reader *)

Definition fields : list Loc := [LTimestamp; LProgress; LPhase; LPid].

Definition beat_from (vs : list Z) : Heartbeat :=
  {| timestamp_ns := nth 0 vs 0; progress := nth 1 vs 0; beat_phase := nth 2 vs 0; pid := nth 3 vs 0 |}.

Definition obs_check (more : nat) (before : Z) (b : Heartbeat) :
    Prog (Result (option Heartbeat) RegionError) :=
  Load Relaxed LSequence (λ after,
    if sample_is_consistent before after then Ret (Value (Some b)) else observe_from more).

(** What is left of an attempt with the fields [ls] still to read. *)
Fixpoint obs_rest (more : nat) (before : Z) (ls : list Loc) (vs : list Z) :=
  match ls with
  | [] => Fence Acquire (obs_check more before (beat_from vs))
  | l :: ls => Load Relaxed l (λ v, obs_rest more before ls (vs ++ [v]))
  end.

Lemma observe_from_eq more :
  observe_from (S more) =
  Load Acquire LSequence (λ before, if before =? 0 then Ret (Value None) else obs_rest more before fields []).
Proof. reflexivity. Qed.

(** The value [v] read from field [l] in an attempt that began at store [i0] of the
    sequence, with [known] known of the sequence because of it. *)
Definition sampled (i0 known : nat) (l : Loc) (v : Z) : Prop :=
  ∃ i, v = field_value l i ∧ (i ≤ N)%nat ∧ (∀ j, i0 = (2 * j)%nat → (j ≤ i)%nat) ∧
       (2 * i - 1 ≤ known)%nat.

Lemma sampled_mono i0 known known' l v :
  (known ≤ known')%nat → sampled i0 known l v → sampled i0 known' l v.
Proof. intros Hk (i & ? & ? & ? & ?). exists i. split_and!; try done. lia. Qed.

Inductive reader_ok (t : Thread (Result (option Heartbeat) RegionError)) : Prop :=
| ReaderStart more : prog t = observe_from more → reader_ok t
| ReaderNone : prog t = Ret (Value None) → reader_ok t
| ReaderAt more i0 done_ ls vs :
    prog t = obs_rest more (Z.of_nat i0) ls vs → done_ ++ ls = fields → (0 < i0)%nat →
    (∀ j f, i0 = (2 * j)%nat → f ≠ LSequence → (j ≤ cur t f)%nat) →
    Forall2 (sampled i0 (acq t LSequence)) done_ vs → reader_ok t
| ReaderCheck more i0 vs :
    prog t = obs_check more (Z.of_nat i0) (beat_from vs) → (0 < i0)%nat →
    Forall2 (sampled i0 (cur t LSequence)) fields vs → reader_ok t
| ReaderDone j b : prog t = Ret (Value (Some b)) → beats !! j = Some b → reader_ok t.

Lemma consistent_spec i0 i :
  sample_is_consistent (Z.of_nat i0) (Z.of_nat i) = true → i = i0 ∧ ∃ j, i0 = (2 * j)%nat.
Proof.
  unfold sample_is_consistent. intros H. bool_facts. split; [lia|].
  change 1 with (Z.ones 1) in H. rewrite Z.land_ones in H by lia. change (2 ^ 1) with 2 in H.
  exists (Nat.div i0 2). pose proof (Nat.div_mod_eq i0 2).
  assert (Nat.modulo i0 2 = 0)%nat by (rewrite <- Nat2Z.inj_iff, Nat2Z.inj_mod; done). lia.
Qed.

(** All four fields are of the beat the sequence names. *)
Lemma sampled_beat i0 j vs :
  i0 = (2 * j)%nat → (0 < i0)%nat → Forall2 (sampled i0 i0) fields vs →
  beats !! (j - 1)%nat = Some (beat_from vs).
Proof.
  intros Hij Hpos Hs. destruct j as [|j]; [lia|]. replace (S j - 1)%nat with j by lia.
  assert (Hf : ∀ l v, sampled i0 i0 l v → v = field_value l (S j) ∧ (S j ≤ N)%nat).
  { intros l v (i & -> & HN & Hlow & Hhigh). specialize (Hlow _ Hij).
    assert (i = S j) as -> by lia. done. }
  unfold fields in Hs. repeat match goal with H : Forall2 _ (_ :: _) _ |- _ =>
    apply Forall2_cons_inv_l in H as (? & ? & ?%Hf & ? & ->) end.
  apply Forall2_nil_inv_l in Hs as -> || idtac.
  repeat match goal with H : Forall2 _ [] _ |- _ => apply Forall2_nil_inv_l in H as -> end.
  unpack. destruct (lookup_lt_is_Some_2 beats j) as [b Hb]; [lia|].
  rewrite Hb. f_equal. subst. unfold beat_from. simpl. rewrite Hb. by destruct b.
Qed.

Lemma join_l v w l : (v l ≤ join v w l)%nat.
Proof. unfold join. lia. Qed.
Lemma join_r v w l : (w l ≤ join v w l)%nat.
Proof. unfold join. lia. Qed.
Lemma bump_le l n v l' : (v l' ≤ bump l n v l')%nat.
Proof. unfold bump. case_decide; lia. Qed.

Lemma seq_msg mem i m :
  mem_ok mem → mem LSequence !! i = Some m →
  msg_value m = Z.of_nat i ∧ ∀ j f, i = (2 * j)%nat → f ≠ LSequence → (j ≤ msg_view m f)%nat.
Proof.
  intros Hm Hi. pose proof (Hm _ _ _ Hi) as Hok. unfold msg_ok in Hok.
  rewrite decide_True in Hok by done. by destruct Hok as (? & ? & ?).
Qed.

Lemma field_msg mem l i m :
  mem_ok mem → l ≠ LSequence → mem l !! i = Some m →
  msg_value m = field_value l i ∧ (i ≤ N)%nat ∧ (2 * i - 1 ≤ msg_view m LSequence)%nat.
Proof.
  intros Hm Hl Hi. pose proof (Hm _ _ _ Hi) as Hok. unfold msg_ok in Hok.
  by rewrite decide_False in Hok.
Qed.

Lemma reader_step mem t mem' t' :
  mem_ok mem → reader_ok t → tstep mem t mem' t' → mem' = mem ∧ reader_ok t'.
Proof.
  intros Hm Hr Hs. destruct Hr as [more Hp|Hp|more i0 done_ ls vs Hp Hls Hpos Hlow Hsam|more i0 vs Hp Hpos Hsam|j b Hp Hb].
  - destruct more as [|more]; [inversion Hs; subst; simpl in *; congruence|].
    rewrite observe_from_eq in Hp. inversion Hs; subst; try congruence.
    match goal with H : prog t = Load _ _ _ |- _ => rewrite Hp in H; injection H as <- <- <- end.
    match goal with H : _ LSequence !! i = Some m |- _ => destruct (seq_msg _ _ _ Hm H) as [Hv Hview] end.
    split; [done|]. rewrite Hv. destruct (Z.eqb_spec (Z.of_nat i) 0) as [|Hi0]; [by apply ReaderNone|].
    apply (ReaderAt _ more i [] fields []); cbn [prog cur acq]; try done; [lia|].
    intros j f Hij Hf. etransitivity; [by apply Hview|]. apply join_r.
  - inversion Hs; congruence.
  - destruct ls as [|l ls]; cbn [obs_rest] in Hp; inversion Hs; subst; try congruence.
    + match goal with H : prog t = Fence _ _ |- _ => rewrite Hp in H; injection H as <- end.
      split; [done|]. apply (ReaderCheck _ more i0 vs); cbn [prog cur]; try done.
      rewrite app_nil_r in Hls. rewrite <- Hls. eapply Forall2_impl; [done|].
      intros l v. apply sampled_mono, join_r.
    + match goal with H : prog t = Load _ _ _ |- _ => rewrite Hp in H; injection H as <- <- <- end.
      assert (Hl : l ≠ LSequence).
      { assert (l ∈ fields) as Hin by (rewrite <- Hls; apply elem_of_app; right; apply list_elem_of_here).
        intros ->. apply (bool_decide_pack _) in Hin. by vm_compute in Hin. }
      match goal with H : _ l !! i = Some m |- _ => destruct (field_msg _ _ _ _ Hm Hl H) as (Hv & HN & Hview) end.
      split; [done|]. apply (ReaderAt _ more i0 (done_ ++ [l]) ls (vs ++ [msg_value m])); cbn [prog cur acq]; try done.
      * by rewrite <- app_assoc.
      * intros j f Hij Hf. etransitivity; [by apply Hlow|]. apply bump_le.
      * apply Forall2_app; [|constructor; [|constructor]].
        -- eapply Forall2_impl; [done|]. intros l' v. apply sampled_mono, join_l.
        -- exists i. split_and!; [done|done| |].
           ++ intros j Hij. specialize (Hlow j l Hij Hl). lia.
           ++ etransitivity; [exact Hview|]. apply join_r.
  - unfold obs_check in Hp. inversion Hs; subst; try congruence.
    match goal with H : prog t = Load _ _ _ |- _ => rewrite Hp in H; injection H as <- <- <- end.
    match goal with H : _ LSequence !! i = Some m |- _ => destruct (seq_msg _ _ _ Hm H) as [Hv _] end.
    split; [done|]. rewrite Hv.
    destruct (sample_is_consistent (Z.of_nat i0) (Z.of_nat i)) eqn:E; [|by apply (ReaderStart _ more)].
    apply consistent_spec in E as [-> [j Hij]].
    apply (ReaderDone _ (j - 1) (beat_from vs)); [done|].
    apply (sampled_beat i0); [done..|]. eapply Forall2_impl; [exact Hsam|].
    intros l v. by apply sampled_mono.
  - inversion Hs; congruence.
Qed.

(** *** The system *)

Definition system_ok (s : System) : Prop :=
  mem_ok (memory s) ∧ writer_ok (memory s) (writer s) ∧ Forall reader_ok (readers s).

Lemma system_start n : system_ok (slot_start beats n).
Proof.
  split_and!; [apply memory0_ok| |].
  - apply (writer_start 0); [done|lia|..]; intros []; done.
  - apply Forall_forall. intros t Ht. apply elem_of_replicate_inv in Ht as ->.
    by apply (ReaderStart _ kMaxTornRetries).
Qed.

Lemma system_step s s' : system_ok s → sstep s s' → system_ok s'.
Proof.
  intros (Hm & Hw & Hr) Hs. destruct Hs as [s mem' w' Ht|s i t mem' t' Hi Ht|s i t a Hi Hp];
    unfold system_ok; cbn [memory writer readers].
  - destruct (writer_step _ _ _ _ Hm Hw Ht). by split_and!.
  - pose proof (Forall_lookup_1 _ _ _ _ Hr Hi) as Hok.
    destruct (reader_step _ _ _ _ Hm Hok Ht) as [-> Hok']. split_and!; try done.
    by apply Forall_insert.
  - split_and!; try done. apply Forall_insert; [done|]. by apply (ReaderStart _ kMaxTornRetries).
Qed.

Lemma reachable_ok n s : reachable (slot_start beats n) s → system_ok s.
Proof. induction 1; [apply system_start|by eapply system_step]. Qed.
End Seqlock.

(** ** Bounds on a thread's own steps *)

Inductive within {A} : nat → Prog A → Prop :=
| WithinRet n a : within n (Ret a)
| WithinLoad n o l k : (∀ v, within n (k v)) → within (S n) (Load o l k)
| WithinStore n o l v k : within n k → within (S n) (Store o l v k)
| WithinFence n o k : within n k → within (S n) (Fence o k).

Lemma within_le {A} n m (p : Prog A) : within n p → (n ≤ m)%nat → within m p.
Proof.
  intros Hw. revert m. induction Hw as [n a|n o l k _ IH|n o l v k _ IH|n o k _ IH]; intros [|m] Hm;
    try lia; constructor; try intros v; apply IH; lia.
Qed.

Lemma within_observe more : within (7 * more) (observe_from more).
Proof.
  induction more as [|more IH]; [constructor|].
  replace (7 * S more)%nat with (S (S (S (S (S (S (S (7 * more))))))))%nat by lia.
  cbn [observe_from]. constructor. intros before. destruct (before =? 0); [constructor|].
  do 4 (constructor; intros ?). do 2 constructor. intros after.
  destruct (sample_is_consistent _ _); [constructor|done].
Qed.

(** A thread's own steps, whatever the memory does between them. *)
Inductive turns {A} : nat → Thread A → Thread A → Prop :=
| Turns0 t : turns 0 t t
| TurnsS n mem t mem' t1 t2 : tstep mem t mem' t1 → turns n t1 t2 → turns (S n) t t2.

Lemma tstep_within {A} mem t mem' (t' : Thread A) n :
  tstep mem t mem' t' → within n (prog t) → ∃ n', n = S n' ∧ within n' (prog t').
Proof.
  intros Hs Hw. inversion Hs; subst; match goal with H : prog t = _ |- _ => rewrite H in Hw end;
    inversion Hw; subst; eexists; (split; [done|]); cbn [prog]; auto.
Qed.

Lemma turns_within {A} m n (t t' : Thread A) :
  turns m t t' → within n (prog t) → (m ≤ n)%nat ∧ within (n - m) (prog t').
Proof.
  intros Ht. revert n. induction Ht as [t|m mem t mem' t1 t2 Hs _ IH]; intros n Hw.
  { rewrite Nat.sub_0_r. split; [lia|done]. }
  destruct (tstep_within _ _ _ _ _ Hs Hw) as (n' & -> & Hw'). destruct (IH _ Hw').
  by split; [lia|].
Qed.

(** ** Executions

    The operations run on the newest store, by a schedule: the writer, or a reader by
    its number. *)

Definition texec {A} (mem : Memory) (t : Thread A) : option (Memory * Thread A) :=
  match prog t with
  | Ret _ => None
  | Load o l k =>
    let i := (length (mem l) - 1)%nat in
    if decide (cur t l ≤ i)%nat then
      m ← mem l !! i;
      Some (mem, {| prog := k (msg_value m);
                    cur := (let c := bump l i (cur t) in
                            match o with Acquire => join c (msg_view m) | _ => c end);
                    acq := join (acq t) (msg_view m); rel := rel t |})
    else None
  | Store o l v k =>
    Some (append l {| msg_value := v;
                      msg_view := bump l (length (mem l))
                        (match o with Release => cur t | _ => rel t end) |} mem,
          {| prog := k; cur := bump l (length (mem l)) (cur t); acq := acq t; rel := rel t |})
  | Fence Acquire k =>
    Some (mem, {| prog := k; cur := join (cur t) (acq t); acq := acq t; rel := rel t |})
  | Fence Release k => Some (mem, {| prog := k; cur := cur t; acq := acq t; rel := cur t |})
  | Fence Relaxed k => None
  end.

Lemma texec_tstep {A} mem (t : Thread A) mem' t' :
  texec mem t = Some (mem', t') → tstep mem t mem' t'.
Proof.
  unfold texec. destruct (prog t) as [a|o l k|o l v k|[] k] eqn:Hp; try done.
  - case_decide; [|done]. destruct (mem l !! _) as [m|] eqn:Hi; [|done].
    intros [= <- <-]. by eapply StepLoad.
  - intros [= <- <-]. by eapply StepStore.
  - intros [= <- <-]. by apply StepAcquireFence.
  - intros [= <- <-]. by apply StepReleaseFence.
Qed.

Fixpoint sexec (schedule : list (option nat)) (s : System) : option System :=
  match schedule with
  | [] => Some s
  | None :: schedule =>
    '(mem, w) ← texec (memory s) (writer s);
    sexec schedule {| memory := mem; writer := w; readers := readers s |}
  | Some i :: schedule =>
    t ← readers s !! i; '(mem, t) ← texec (memory s) t;
    sexec schedule {| memory := mem; writer := writer s; readers := <[i := t]> (readers s) |}
  end.

Lemma sexec_reachable schedule s0 s s' :
  reachable s0 s → sexec schedule s = Some s' → reachable s0 s'.
Proof.
  revert s. induction schedule as [|[i|] schedule IH]; intros s Hr; cbn [sexec].
  - by intros [= <-].
  - destruct (readers s !! i) as [t|] eqn:Hi; [|done]. cbn [mbind option_bind].
    destruct (texec _ t) as [[mem t']|] eqn:E; [|done]. apply IH.
    eapply ReachStep; [done|]. by eapply ReaderStep, texec_tstep.
  - destruct (texec _ _) as [[mem w]|] eqn:E; [|done]. apply IH.
    eapply ReachStep; [done|]. by apply WriterStep, texec_tstep.
Qed.

(** ** Theorems *)

(** C1. No torn beat is ever accepted: in every execution of one writer publishing
    beats and any number of readers observing, under relaxed memory, a beat a reader
    is given is one that was published, whole - never the fields of two. *)
Theorem observed_beat_published beats n s i t b :
  2 * Z.of_nat (length beats) + 2 < 2 ^ 64 →
  reachable (slot_start beats n) s → readers s !! i = Some t →
  prog t = Ret (Value (Some b)) → b ∈ beats.
Proof.
  intros Hfew Hr Hi Hp. destruct (reachable_ok beats Hfew n s Hr) as (_ & _ & Hok).
  pose proof (Forall_lookup_1 _ _ _ _ Hok Hi) as Ht.
  destruct Ht as [[|more] H|H|more i0 done_ [|l ls] vs H|more i0 vs H|j b' H Hb]; rewrite Hp in H; try done.
  injection H as <-. by eapply list_elem_of_lookup_2.
Qed.

Definition beat_a : Heartbeat := {| timestamp_ns := 5; progress := 1; beat_phase := 2; pid := 77 |}.
Definition beat_b : Heartbeat := {| timestamp_ns := 9; progress := 4; beat_phase := 3; pid := 77 |}.

(** One beat published, a second half written when the reader's first attempt ends,
    then finished: the second attempt is given it. *)
Definition busy_schedule : list (option nat) :=
  replicate 8 None ++ replicate 2 (Some 0%nat) ++ replicate 5 None ++ replicate 5 (Some 0%nat)
  ++ replicate 3 None ++ replicate 7 (Some 0%nat).

Definition answer {A} (t : Thread A) : option A :=
  match prog t with Ret a => Some a | _ => None end.

Lemma answer_prog {A} (t : Thread A) a : answer t = Some a → prog t = Ret a.
Proof. unfold answer. destruct (prog t); by intros [= ->]. Qed.

Lemma observed_beat_published_witness :
  ∃ s, reachable (slot_start [beat_a; beat_b] 1) s ∧
       (answer <$> readers s) = [Some (Value (Some beat_b))] ∧ beat_b ∈ [beat_a; beat_b].
Proof.
  assert (Hx : (λ s, answer <$> readers s) <$> sexec busy_schedule (slot_start [beat_a; beat_b] 1)
               = Some [Some (Value (Some beat_b))]) by (vm_compute; reflexivity).
  destruct (sexec busy_schedule (slot_start [beat_a; beat_b] 1)) as [s|] eqn:E; [|discriminate Hx].
  injection Hx as Hx. exists s.
  pose proof (sexec_reachable _ _ _ _ (ReachStart _) E) as Hr. split; [exact Hr|]. split; [exact Hx|].
  destruct (readers s) as [|t [|]] eqn:Et; try discriminate Hx. injection Hx as Hx.
  apply (observed_beat_published [beat_a; beat_b] 1 s 0 t beat_b);
    [vm_compute; reflexivity|exact Hr|by rewrite Et|by apply answer_prog].
Defined.

(** Observing is wait-free: whatever the writer and the memory do, a reader has
    its answer - a beat, none, or [kTorn] - within 7 operations of its own for each of
    its 64 attempts. *)
Theorem observe_wait_free slot slots n (t t' : Thread (Result (option Heartbeat) RegionError)) :
  prog t = observe slot slots → turns n t t' →
  (n ≤ 7 * kMaxTornRetries)%nat ∧ (n = (7 * kMaxTornRetries)%nat → ∃ a, prog t' = Ret a).
Proof.
  intros Hp Ht. assert (Hw : within (7 * kMaxTornRetries) (prog t)).
  { rewrite Hp. unfold observe. case_match; [constructor|apply within_observe]. }
  destruct (turns_within _ _ _ _ Ht Hw) as [Hn Hw']. split; [done|]. intros ->.
  rewrite Nat.sub_diag in Hw'. inversion Hw'; by eexists.
Qed.

Fixpoint texecs {A} (n : nat) (mem : Memory) (t : Thread A) : option (Thread A) :=
  match n with
  | O => Some t
  | S n => '(mem, t) ← texec mem t; texecs n mem t
  end.

Lemma texecs_turns {A} n mem (t t' : Thread A) : texecs n mem t = Some t' → turns n t t'.
Proof.
  revert mem t. induction n as [|n IH]; intros mem t; simpl; [intros [= ->]; constructor|].
  destruct (texec mem t) as [[mem1 t1]|] eqn:E; [|done]. intros H.
  eapply TurnsS; [by eapply texec_tstep|by eapply IH].
Qed.

(** Seven turns, one attempt, on the memory [beat_a]'s publish leaves. *)
Lemma observe_wait_free_witness :
  ∃ t', turns 7 (start (observe 1 2)) t' ∧ answer t' = Some (Value (Some beat_a)) ∧
        (7 ≤ 7 * kMaxTornRetries)%nat.
Proof.
  pose (mem := default memory0 (memory <$> sexec (replicate 8 None) (slot_start [beat_a] 0))).
  assert (Hx : answer <$> texecs 7 mem (start (observe 1 2)) = Some (Some (Value (Some beat_a))))
    by (vm_compute; reflexivity).
  destruct (texecs 7 mem (start (observe 1 2))) as [t'|] eqn:E; [|discriminate Hx].
  injection Hx as Hx. pose proof (texecs_turns _ _ _ _ E) as Ht. exists t'.
  split; [exact Ht|]. split; [exact Hx|]. exact (proj1 (observe_wait_free 1 2 7 (start (observe 1 2)) t' (eq_refl (observe 1 2)) Ht)).
Defined.

(** Attaching accepts a mapping exactly when its header is the one [create]
    writes for the same number of workers, and refuses more workers than a region
    holds; a region created for another number is refused as [kSlotCount]. *)
Theorem attach_accepts_created {K} `{RegionCalls K} fd workers s h s1 :
  0 ≤ workers → map_shared fd (bytes_for workers) s = (Value h, s1) →
  (has_value (attach fd workers s).1 = true ↔ workers ≤ kMaxWorkers ∧ h = header_for workers) ∧
  (∀ others, 0 ≤ others ≤ kMaxWorkers → others ≠ workers → h = header_for others → workers ≤ kMaxWorkers →
     ∃ e, (attach fd workers s).1 = Error e ∧ region_fault e = kSlotCount).
Proof.
  intros Hw Hmap. unfold attach, header_for. cbv zeta. unfold kMaxWorkers in *.
  destruct (Z.ltb_spec 1024 workers) as [|Hle].
  { split; [split; [done|lia]|]. intros; lia. }
  rewrite Hmap, u32_small by (unfold in_u32; lia).
  split.
  - destruct h as [m v c b]. unfold refusal. cbn [magic version slot_count slot_bytes].
    change (u32 kSlotBytes) with kSlotBytes.
    destruct (Z.eqb_spec m kRegionMagic) as [->|]; cbn [negb];
      [|destruct (unmap _ _); simpl; naive_solver].
    destruct (Z.eqb_spec v kRegionVersion) as [->|]; cbn [negb];
      [|destruct (unmap _ _); simpl; naive_solver].
    destruct (Z.eqb_spec c (workers + 1)) as [->|]; cbn [negb];
      [|destruct (unmap _ _); simpl; naive_solver].
    destruct (Z.eqb_spec b kSlotBytes) as [->|]; cbn [negb];
      [|destruct (unmap _ _); simpl; naive_solver].
    simpl. split; [by split|done].
  - intros others Ho Hne -> _. unfold refusal. cbn [magic version slot_count slot_bytes].
    rewrite !Z.eqb_refl. cbn [negb]. rewrite u32_small by (unfold in_u32; lia).
    rewrite (proj2 (Z.eqb_neq _ _)) by lia. cbn [negb]. destruct (unmap _ _). by eexists.
Qed.

(** A region that maps with the header it holds. *)
#[export] Instance header_calls : RegionCalls Header := {|
  create_memory_file name size h := (Value 7, {| magic := 0; version := 0; slot_count := 0; slot_bytes := 0 |});
  map_shared fd size h := (Value h, h);
  write_header h _ := h;
  unmap size h := (Value tt, h);
  close_fd fd h := (Value tt, h);
|}.

Lemma attach_accepts_created_witness :
  has_value (attach 7 3 (create 3 (lit "loadforge-heartbeat") (header_for 9)).2).1 = true.
Proof.
  apply (attach_accepts_created 7 3 (header_for 3) (header_for 3) (header_for 3)); [lia|reflexivity|].
  split; [unfold kMaxWorkers; lia|reflexivity].
Defined.
