(* ===== verification/Wire.v ===== *)
(** * Exact wire formats

    The interface between a record's writer and its reader: a reader is exact for a
    writer when it reads back what was written, consumes exactly those bytes, and
    accepts nothing else. Formats composed of exact fields are exact. *)

From S2P Require Export Bytes.

(** ** Reading with the position kept for the error *)

Inductive DecodeFault := kEmptyBytes | kVersionByte | kKindByte | kTruncatedBytes | kTrailingBytes | kInvalidRecord.

#[export] Instance DecodeFault_eq_dec : EqDecision DecodeFault.
Proof. solve_decision. Defined.

Definition describe_decode_fault (fault : DecodeFault) : text :=
  match fault with
  | kEmptyBytes => lit "empty"
  | kVersionByte => lit "unknown format version"
  | kKindByte => lit "unknown record kind"
  | kTruncatedBytes => lit "truncated"
  | kTrailingBytes => lit "trailing bytes"
  | kInvalidRecord => lit "invalid record"
  end.

Record DecodeError := { decode_fault : DecodeFault; decode_detail : text }.

Definition describe_decode_error (error : DecodeError) : text :=
  describe_decode_fault (decode_fault error)
  ++ (match decode_detail error with [] => [] | d => lit ": " ++ d end).

(** The bytes left and where they begin. *)
Record Reader := { rest : list byte; at_ : nat }.

Definition Get (A : Type) : Type := Reader → Result (A * Reader) DecodeError.

Definition get_ret {A} (a : A) : Get A := λ r, Value (a, r).
Definition get_bind {A B} (g : Get A) (k : A → Get B) : Get B :=
  λ r, rbind (g r) (λ p, k p.1 p.2).

Notation "x ⇐ g ;; k" := (get_bind g (λ x, k))
  (at level 100, g at next level, right associativity) : lf_scope.

Class Exact {A} (get : Get A) (put : A → list byte) (dom : A → Prop) : Prop := {
  exact_read a r ys : dom a → rest r = put a ++ ys →
    get r = Value (a, {| rest := ys; at_ := at_ r + length (put a) |});
  exact_only r a r' : get r = Value (a, r') →
    dom a ∧ rest r = put a ++ rest r' ∧ at_ r' = (at_ r + length (put a))%nat;
}.
#[export] Hint Mode Exact ! ! - - : typeclass_instances.

(** A field read, the rest of the format read after it, and one value made of both:
    [part] is the field of the value, and [putK] writes what follows it. *)
Lemma exact_field {A B} (get : Get A) (put : A → list byte) (dom : A → Prop)
    (k : A → Get B) (putB : B → list byte) (domB : B → Prop) (part : B → A)
    (putK : B → list byte) :
  Exact get put dom →
  (∀ a, dom a → Exact (k a) putK (λ b, domB b ∧ part b = a)) →
  (∀ b, domB b → dom (part b)) →
  (∀ b, domB b → putB b = put (part b) ++ putK b) →
  Exact (get_bind get k) putB domB.
Proof.
  intros [Hr Ho] Hk Hdom Hput. split.
  - intros b r ys Hb Hrest. unfold get_bind. rewrite Hput, <- app_assoc in Hrest by done.
    rewrite (Hr (part b) r _ (Hdom b Hb) Hrest). cbn [rbind fst snd].
    pose proof (Hk (part b) (Hdom b Hb)) as Hx.
    rewrite (exact_read (get := k (part b)) b _ ys) by done. cbn [at_].
    rewrite Hput, length_app by done. do 3 f_equal. lia.
  - intros r b r' H. unfold get_bind in H. apply rbind_value in H as ([a r1] & H1 & H2).
    cbn [fst snd] in H2. destruct (Ho _ _ _ H1) as (Ha & Hrest & Hat). pose proof (Hk a Ha) as Hx.
    destruct (exact_only (get := k a) _ _ _ H2) as ([Hb <-] & Hrest' & Hat').
    split; [done|]. rewrite Hput, length_app, <- app_assoc, <- Hrest' by done. split; [done|lia].
Qed.

Lemma exact_ret {A} (a : A) : Exact (get_ret a) (λ _, []) (λ b, b = a).
Proof.
  split.
  - intros b [rs p] ys -> Hr. simpl in *. subst rs. unfold get_ret. by rewrite Nat.add_0_r.
  - intros r b r' [= <- <-]. split_and!; [done|done|simpl; lia].
Qed.

Lemma exact_proper {A} (get : Get A) put put' dom dom' :
  Exact get put dom → (∀ a, dom a ↔ dom' a) → (∀ a, dom a → put a = put' a) → Exact get put' dom'.
Proof.
  intros [Hr Ho] Hd Hp. split.
  - intros a r ys Ha Hrest. assert (dom a) by by apply Hd. rewrite <- Hp in * by done. by apply Hr.
  - intros r a r' H. destruct (Ho _ _ _ H) as (Ha & ? & ?). rewrite <- Hp by done.
    split_and!; [by apply Hd|done|done].
Qed.

(** ** The fields *)


Definition where_ (field : text) (position : nat) : text :=
  lit "field '" ++ field ++ lit "' at byte " ++ to_dec (Z.of_nat position).

Definition decode_fail {A} (fault : DecodeFault) (detail : text) : Result A DecodeError :=
  Error {| decode_fault := fault; decode_detail := detail |}.

(** [count] bytes taken, or kTruncated. *)
Definition need (field : text) (count : Z) : Get (list byte) := λ r,
  if count <=? size_of (rest r) then
    Value (take (Z.to_nat count) (rest r),
           {| rest := drop (Z.to_nat count) (rest r); at_ := at_ r + Z.to_nat count |})
  else decode_fail kTruncatedBytes
         (where_ field (at_ r) ++ lit " needs " ++ to_dec count ++ lit " byte(s), "
          ++ to_dec (size_of (rest r)) ++ lit " remain").

Definition get_unsigned (field : text) (width : nat) : Get Z :=
  bytes ⇐ need field (Z.of_nat width);; get_ret (get_le bytes).

Definition get_u8 (field : text) : Get Z := get_unsigned field 1.
Definition get_u32 (field : text) : Get Z := get_unsigned field 4.
Definition get_u64 (field : text) : Get Z := get_unsigned field 8.

Definition get_raw (field what : text) (limit : Z) : Get (list byte) := λ r,
  (length_ ⇐ get_u64 field;;
   (if limit <? length_ then λ _, decode_fail kInvalidRecord
      (where_ field (at_ r) ++ lit ": " ++ what ++ lit " of " ++ to_dec length_
       ++ lit " bytes, more than the " ++ to_dec limit ++ lit " a record carries")
    else need field length_)) r.

Definition put_raw (data : list byte) : list byte := put_le 8 (size_of data) ++ data.

Definition get_presence (field : text) : Get bool := λ r,
  (flag ⇐ get_u8 field;;
   (if 1 <? flag then λ _, decode_fail kInvalidRecord
      (where_ field (at_ r) ++ lit ": presence flag " ++ to_dec flag ++ lit ", neither 0 nor 1")
    else get_ret (flag =? 1))) r.

Definition put_presence (present : bool) : list byte := put_le 1 (Z.b2z present).

Definition get_optional {A} (field : text) (get : Get A) : Get (option A) :=
  present ⇐ get_presence field;;
  if present then value ⇐ get;; get_ret (Some value) else get_ret None.

Definition put_optional {A} (put : A → list byte) (value : option A) : list byte :=
  put_presence (bool_decide (is_Some value)) ++ (match value with Some v => put v | None => [] end).

Definition unsigned_dom (width : nat) (v : Z) : Prop := 0 ≤ v < 2 ^ (8 * Z.of_nat width).
Definition raw_dom (limit : Z) (data : list byte) : Prop := size_of data ≤ limit.
Definition optional_dom {A} (dom : A → Prop) (o : option A) : Prop := from_option dom True o.

Lemma need_read field count ys r :
  rest r = ys ++ drop (length ys) (rest r) → size_of ys = count →
  need field count r = Value (ys, {| rest := drop (length ys) (rest r); at_ := at_ r + length ys |}).
Proof.
  intros Hr <-. unfold need, size_of. rewrite Nat2Z.id. rewrite (proj2 (Z.leb_le _ _)).
  - do 2 f_equal. rewrite Hr at 1. apply take_app_length.
  - rewrite Hr, length_app. lia.
Qed.

Lemma need_only field count r ys r' :
  0 ≤ count → need field count r = Value (ys, r') →
  size_of ys = count ∧ rest r = ys ++ rest r' ∧ at_ r' = (at_ r + length ys)%nat.
Proof.
  intros H0. unfold need, size_of. destruct (Z.leb_spec count (Z.of_nat (length (rest r)))); [|done].
  intros [= <- <-]. cbn [rest at_]. rewrite length_take, take_drop. split_and!; [lia|done|lia].
Qed.

#[export] Instance exact_unsigned field width :
  Exact (get_unsigned field width) (put_le width) (unsigned_dom width).
Proof.
  split; unfold get_unsigned, get_bind.
  - intros v r ys Hv Hr. assert (Hd : drop (length (put_le width v)) (rest r) = ys)
      by by rewrite Hr, drop_app_length.
    rewrite (need_read _ _ (put_le width v) r) by
      (rewrite ?Hd; done || (unfold size_of; by rewrite length_put_le)).
    cbn. rewrite Hd, get_put_le_small by done. done.
  - intros r v r' H. apply rbind_value in H as ([ys r1] & H1 & [= <- <-]).
    apply need_only in H1 as (Hs & Hr & Ha); [|lia]. cbn [fst snd] in *. unfold size_of in Hs.
    assert (length ys = width) as <- by lia. split; [apply get_le_range|]. by rewrite put_get_le.
Qed.

#[export] Instance exact_raw field what limit :
  0 ≤ limit < 2 ^ 64 → Exact (get_raw field what limit) put_raw (raw_dom limit).
Proof.
  intros Hlim. unfold raw_dom. split; unfold get_raw, get_bind.
  - intros d r ys Hd Hr. unfold put_raw in Hr. rewrite <- app_assoc in Hr. unfold size_of in Hd.
    unfold get_u64. rewrite (exact_read (get := get_unsigned field 8) (size_of d) r (d ++ ys)); [|unfold unsigned_dom, size_of; simpl; lia|done].
    cbn [rbind fst snd]. rewrite (proj2 (Z.ltb_ge _ _)) by (unfold size_of; lia).
    rewrite (need_read _ _ d) by (cbn [rest]; rewrite ?drop_app_length; done).
    cbn [rest at_]. rewrite drop_app_length. unfold put_raw. rewrite length_app, !length_put_le.
    do 3 f_equal. lia.
  - intros r d r' H. apply rbind_value in H as ([n r1] & H1 & H2). cbn [fst snd] in H2.
    destruct (exact_only (get := get_unsigned field 8) _ _ _ H1) as (Hn & Hr & Ha).
    unfold unsigned_dom in Hn. destruct (Z.ltb_spec limit n); [done|].
    apply need_only in H2 as (Hs & Hr' & Ha'); [|lia]. subst n. split; [lia|].
    unfold put_raw. rewrite length_app, <- app_assoc, <- Hr'. split; [done|lia].
Qed.

#[export] Instance exact_presence field :
  Exact (get_presence field) put_presence (λ _, True).
Proof.
  split; unfold get_presence, get_bind.
  - intros b r ys _ Hr. unfold get_u8.
    rewrite (exact_read (get := get_unsigned field 1) (Z.b2z b) r ys); [|destruct b; done|done].
    cbn [rbind fst snd]. by destruct b.
  - intros r b r' H. apply rbind_value in H as ([n r1] & H1 & H2). cbn [fst snd] in H2.
    destruct (exact_only (get := get_unsigned field 1) _ _ _ H1) as (Hn & Hr & Ha).
    unfold unsigned_dom in Hn. destruct (Z.ltb_spec 1 n); [done|]. injection H2 as <- <-.
    unfold put_presence. assert (n = 0 ∨ n = 1) as [-> | ->] by lia; done.
Qed.

#[export] Instance exact_optional {A} field (get : Get A) put dom :
  Exact get put dom → Exact (get_optional field get) (put_optional put) (optional_dom dom).
Proof.
  intros Hg. unfold get_optional.
  apply (exact_field _ put_presence (λ _, True) _ _ _ (λ o, bool_decide (is_Some o))
    (λ o, match o with Some v => put v | None => [] end)); [apply _| |done|done].
  intros [|] _.
  - split; unfold get_bind.
    + intros [v|] r ys [Hd Hb] Hr; [|done]. rewrite (exact_read (get := get) v r ys) by done. done.
    + intros r o r' H. apply rbind_value in H as ([v r1] & H1 & [= <- <-]).
      destruct (exact_only (get := get) _ _ _ H1) as (? & ? & ?). by split_and!.
  - eapply exact_proper; [apply (exact_ret None)| |].
    + intros [v|]; simpl; [|done]. split; [done|]. by intros [_ ?].
    + by intros o ->.
Qed.

#[export] Instance exact_u8 field : Exact (get_u8 field) (put_le 1) (unsigned_dom 1) := exact_unsigned field 1.
#[export] Instance exact_u32 field : Exact (get_u32 field) (put_le 4) (unsigned_dom 4) := exact_unsigned field 4.
#[export] Instance exact_u64 field : Exact (get_u64 field) (put_le 8) (unsigned_dom 8) := exact_unsigned field 8.

(** One more field of a record: [part] is the field, its own exactness by instance. *)
Ltac next_field part :=
  eapply (exact_field _ _ _ _ _ _ part);
  [apply _ | intros ? ? | intros; unpack; done | intros; cbv beta; reflexivity].
(** The last one: what it writes ends the record. *)
Ltac last_field part :=
  eapply (exact_field _ _ _ _ _ _ part (λ _, []));
  [apply _ | intros ? ? | intros; unpack; done | intros; cbv beta; rewrite ?app_nil_r; reflexivity].
(** All fields read: the value built is the one whose fields they are. *)
Ltac fields_done :=
  eapply exact_proper; [apply exact_ret | | by intros];
  let b := fresh in intros b; cbv beta; split;
  [intros ->; simpl; unpack; split_and?; first [reflexivity | assumption]
  |destruct b; simpl; intros; unpack; subst; reflexivity].
