(* ===== verification/ErrorRecord.v ===== *)
(** * Error records

    verification/record.hpp (the records and their validity) and record/codec.cpp
    (their encoding, format version 2). A double is its IEEE 754 bits. *)

From S2P Require Export Wire.

(** ** Doubles, by their bits *)

Definition kExponentBits : Z := 0x7FF0000000000000.

Definition magnitude (bits : Z) : Z := bits mod 2 ^ 63.
Definition is_nan (bits : Z) : bool := kExponentBits <? magnitude bits.
Definition is_finite (bits : Z) : bool := magnitude bits <? kExponentBits.

(** Where a double that is not a NaN stands in their order; both zeros at zero. *)
Definition double_rank (bits : Z) : Z :=
  if 2 ^ 63 <=? bits then - magnitude bits else magnitude bits.

Definition double_lt (a b : Z) : bool :=
  negb (is_nan a) && negb (is_nan b) && (double_rank a <? double_rank b).
Definition double_le (a b : Z) : bool :=
  negb (is_nan a) && negb (is_nan b) && (double_rank a <=? double_rank b).

(** ** record.hpp *)

(** Scoped enumerations over a byte, which may hold any of its values. *)
Definition kOutput : Z := 0.
Definition kInput : Z := 1.
Definition kNotChecked : Z := 3.
Definition kStored : Z := 0.
Definition kDerived : Z := 1.
Definition kIsaPathCount : Z := 4.

Record DutyCycle := { oracle_period : Z; integrity_period : Z }.

Record Provenance := {
  logical_cpu : option Z;
  physical_package : option Z;
  physical_core : option Z;
  numa_node : option Z;
  buffer_address : option Z;
  buffer_offset : option Z;
  iteration : option Z;
  prov_workload : option text;
  workload_version : option Z;
  seed : option Z;
  isa : option Z;
  input_integrity : option Z;
  duty : option DutyCycle;
  decomposition : option Z;
  footprint_bytes : option Z;
}.

Definition kWordBytes : Z := 8.
Definition kMaxWindowBytes : Z := 64.
Definition kMaxTextBytes : Z := 1024.

Inductive BitClass := kSingleBit | kMultiBitInWord | kWithinCacheLine | kAcrossCacheLines.

Definition classify_bits (popcount first_offset last_offset line_bytes : Z) : BitClass :=
  if popcount =? 1 then kSingleBit else
  if first_offset / kWordBytes =? last_offset / kWordBytes then kMultiBitInWord else
  if first_offset / line_bytes =? last_offset / line_bytes then kWithinCacheLine
  else kAcrossCacheLines.

Record Difference := {
  domain : Z;
  first_offset : Z;
  last_offset : Z;
  popcount : Z;
  window_offset : Z;
  expected : list byte;
  actual : list byte;
}.

Record ExactBitCorruption := {
  exact_provenance : Provenance;
  side : Z;
  exact_check : text;
  difference : option Difference;
  line_bytes : Z;
}.

Definition classify_corruption (record : ExactBitCorruption) : option BitClass :=
  d ← difference record;
  Some (classify_bits (popcount d) (first_offset d) (last_offset d) (line_bytes record)).

Definition xor_delta (d : Difference) : list byte :=
  if negb (length (expected d) =? length (actual d))%nat then [] else
  zip_with (λ x y, byte_of (Z.lxor (byte_val x) (byte_val y))) (expected d) (actual d).

Definition in_window (d : Difference) (offset : Z) : bool :=
  (window_offset d <=? offset) && (u64 (offset - window_offset d) <? size_of (expected d)).

(** [vector[index]], where the callers have bounded the index by [expected]'s size. *)
Definition at_index (bytes : list byte) (index : Z) : option byte := bytes !! Z.to_nat index.

Definition differs_at (d : Difference) (offset : Z) : bool :=
  in_window d offset &&
  bool_decide (at_index (expected d) (offset - window_offset d)
               ≠ at_index (actual d) (offset - window_offset d)).

Definition valid_difference (d : Difference) : bool :=
  (domain d <=? kDerived) && (1 <=? popcount d) && (first_offset d <=? last_offset d)
  && (window_offset d =? first_offset d / kWordBytes * kWordBytes)
  && (size_of (expected d) =? size_of (actual d)) && negb (bool_decide (expected d = []))
  && (size_of (expected d) <=? kMaxWindowBytes) && differs_at d (first_offset d)
  && (negb (in_window d (last_offset d)) || differs_at d (last_offset d)).

Record NumericalVerificationFailure := {
  numerical_provenance : Provenance;
  numerical_check : text;
  residual : Z;
  tolerance : Z;
  condition_number : option Z;
  element : option Z;
}.

Definition exceeds_tolerance (residual tolerance : Z) : bool :=
  is_nan residual || double_lt tolerance residual.

Record VerificationNotPerformed := {
  not_performed_provenance : Provenance;
  what : text;
  why : text;
  blocks_compared : Z;
}.

Inductive ErrorRecord :=
| Exactly (record : ExactBitCorruption)
| Numerically (record : NumericalVerificationFailure)
| NotPerformed (record : VerificationNotPerformed).

Definition kind_name (record : ErrorRecord) : text :=
  match record with
  | Exactly _ => lit "ExactBitCorruption"
  | Numerically _ => lit "NumericalVerificationFailure"
  | NotPerformed _ => lit "VerificationNotPerformed"
  end.

Definition provenance_of (record : ErrorRecord) : Provenance :=
  match record with
  | Exactly r => exact_provenance r
  | Numerically r => numerical_provenance r
  | NotPerformed r => not_performed_provenance r
  end.

Definition is_wrong_result (record : ErrorRecord) : bool :=
  match record with NotPerformed _ => false | _ => true end.

Definition has_single_bit (x : Z) : bool := negb (x =? 0) && (Z.land x (x - 1) =? 0).

Definition opt_test {A} (p : A → bool) (o : option A) : bool := from_option p true o.

Definition is_valid_record (record : ErrorRecord) : bool :=
  let p := provenance_of record in
  opt_test (λ w, size_of w <=? kMaxTextBytes) (prov_workload p)
  && opt_test (λ i, i <? kIsaPathCount) (isa p)
  && opt_test (λ i, i <=? kNotChecked) (input_integrity p)
  && match record with
     | Exactly r =>
       (side r <=? kInput) && negb (bool_decide (exact_check r = []))
       && (size_of (exact_check r) <=? kMaxTextBytes) && (kWordBytes <=? line_bytes r)
       && has_single_bit (line_bytes r) && opt_test valid_difference (difference r)
     | Numerically r =>
       (size_of (numerical_check r) <=? kMaxTextBytes) && is_finite (tolerance r)
       && double_lt 0 (tolerance r) && exceeds_tolerance (residual r) (tolerance r)
     | NotPerformed r =>
       (size_of (what r) <=? kMaxTextBytes) && (size_of (why r) <=? kMaxTextBytes)
     end.

(** ** codec.cpp: writing *)

Definition kRecordFormatVersion : Z := 2.
Definition kExactKind : Z := 1.
Definition kNumericalKind : Z := 2.
Definition kNotPerformedKind : Z := 3.

Definition put_u8 := put_le 1.
Definition put_u32 := put_le 4.
Definition put_u64 := put_le 8.
Definition put_text : text → list byte := put_raw.

Definition put_duty (d : DutyCycle) : list byte :=
  put_u32 (oracle_period d) ++ put_u32 (integrity_period d).

Definition put_provenance (p : Provenance) : list byte :=
  put_optional put_u32 (logical_cpu p)
  ++ put_optional put_u32 (physical_core p)
  ++ put_optional put_u32 (numa_node p)
  ++ put_optional put_u64 (buffer_address p)
  ++ put_optional put_u64 (buffer_offset p)
  ++ put_optional put_u64 (iteration p)
  ++ put_optional put_text (prov_workload p)
  ++ put_optional put_u32 (workload_version p)
  ++ put_optional put_u64 (seed p)
  ++ put_optional put_u8 (isa p)
  ++ put_optional put_u8 (input_integrity p)
  ++ put_optional put_duty (duty p)
  ++ put_optional put_u32 (physical_package p)
  ++ put_optional put_u32 (decomposition p)
  ++ put_optional put_u64 (footprint_bytes p).

Definition put_difference (d : Difference) : list byte :=
  put_u8 (domain d) ++ put_u64 (first_offset d) ++ put_u64 (last_offset d)
  ++ put_u64 (popcount d) ++ put_u64 (window_offset d)
  ++ put_raw (expected d) ++ put_raw (actual d).

Definition put_exact (r : ExactBitCorruption) : list byte :=
  put_u8 (side r) ++ put_text (exact_check r) ++ put_u32 (line_bytes r)
  ++ put_optional put_difference (difference r).

Definition put_numerical (r : NumericalVerificationFailure) : list byte :=
  put_text (numerical_check r) ++ put_u64 (residual r) ++ put_u64 (tolerance r)
  ++ put_optional put_u64 (condition_number r) ++ put_optional put_u64 (element r).

Definition put_not_performed (r : VerificationNotPerformed) : list byte :=
  put_text (what r) ++ put_text (why r) ++ put_u64 (blocks_compared r).

Definition kind_number (record : ErrorRecord) : Z :=
  match record with Exactly _ => 1 | Numerically _ => 2 | NotPerformed _ => 3 end.

Definition encode_record (record : ErrorRecord) : list byte :=
  put_u8 kRecordFormatVersion ++ put_u8 (kind_number record)
  ++ put_provenance (provenance_of record)
  ++ match record with
     | Exactly r => put_exact r
     | Numerically r => put_numerical r
     | NotPerformed r => put_not_performed r
     end.

(** ** codec.cpp: reading *)

Definition get_text (field : text) : Get text := get_raw field (lit "a text") kMaxTextBytes.
Definition get_window (field : text) : Get (list byte) :=
  get_raw field (lit "a window") kMaxWindowBytes.

Definition get_duty : Get DutyCycle :=
  oracle ⇐ get_u32 (lit "duty");; integrity ⇐ get_u32 (lit "duty");;
  get_ret {| oracle_period := oracle; integrity_period := integrity |}.

Definition optional_u8 (field : text) := get_optional field (get_u8 field).
Definition optional_u32 (field : text) := get_optional field (get_u32 field).
Definition optional_u64 (field : text) := get_optional field (get_u64 field).

Definition get_provenance : Get Provenance :=
  cpu ⇐ optional_u32 (lit "logical_cpu");;
  core ⇐ optional_u32 (lit "physical_core");;
  node ⇐ optional_u32 (lit "numa_node");;
  address ⇐ optional_u64 (lit "buffer_address");;
  offset ⇐ optional_u64 (lit "buffer_offset");;
  iter ⇐ optional_u64 (lit "iteration");;
  load ⇐ get_optional (lit "workload") (get_text (lit "workload"));;
  version ⇐ optional_u32 (lit "workload_version");;
  sd ⇐ optional_u64 (lit "seed");;
  path ⇐ optional_u8 (lit "isa");;
  integrity ⇐ optional_u8 (lit "input_integrity");;
  dt ⇐ get_optional (lit "duty") get_duty;;
  package ⇐ optional_u32 (lit "physical_package");;
  decomp ⇐ optional_u32 (lit "decomposition");;
  footprint ⇐ optional_u64 (lit "footprint_bytes");;
  get_ret {| logical_cpu := cpu; physical_package := package; physical_core := core;
             numa_node := node; buffer_address := address; buffer_offset := offset;
             iteration := iter; prov_workload := load; workload_version := version; seed := sd;
             isa := path; input_integrity := integrity; duty := dt; decomposition := decomp;
             footprint_bytes := footprint |}.

Definition get_difference : Get Difference :=
  dom ⇐ get_u8 (lit "domain");;
  first ⇐ get_u64 (lit "first_offset");;
  last ⇐ get_u64 (lit "last_offset");;
  count ⇐ get_u64 (lit "popcount");;
  window ⇐ get_u64 (lit "window_offset");;
  e ⇐ get_window (lit "expected");;
  a ⇐ get_window (lit "actual");;
  get_ret {| domain := dom; first_offset := first; last_offset := last; popcount := count;
             window_offset := window; expected := e; actual := a |}.

Definition get_exact (provenance : Provenance) : Get ExactBitCorruption :=
  sd ⇐ get_u8 (lit "side");;
  check ⇐ get_text (lit "check");;
  line ⇐ get_u32 (lit "line_bytes");;
  diff ⇐ get_optional (lit "difference") get_difference;;
  get_ret {| exact_provenance := provenance; side := sd; exact_check := check;
             difference := diff; line_bytes := line |}.

Definition get_numerical (provenance : Provenance) : Get NumericalVerificationFailure :=
  check ⇐ get_text (lit "check");;
  res ⇐ get_u64 (lit "residual");;
  tol ⇐ get_u64 (lit "tolerance");;
  cond ⇐ optional_u64 (lit "condition_number");;
  elem ⇐ optional_u64 (lit "element");;
  get_ret {| numerical_provenance := provenance; numerical_check := check; residual := res;
             tolerance := tol; condition_number := cond; element := elem |}.

Definition get_not_performed (provenance : Provenance) : Get VerificationNotPerformed :=
  wt ⇐ get_text (lit "what");;
  wy ⇐ get_text (lit "why");;
  blocks ⇐ get_u64 (lit "blocks_compared");;
  get_ret {| not_performed_provenance := provenance; what := wt; why := wy;
             blocks_compared := blocks |}.

Definition longer_than_allowed (name : text) (size : Z) : text :=
  name ++ lit " of " ++ to_dec size ++ lit " bytes, more than the " ++ to_dec kMaxTextBytes
  ++ lit " a record carries".

(** The first rule of a list that is broken. *)
Fixpoint first_broken (rules : list (bool * text)) : option text :=
  match rules with
  | [] => None
  | (broken, words) :: rules => if broken then Some words else first_broken rules
  end.

Definition broken_difference_rule (d : Difference) : option text :=
  let word_start := first_offset d / kWordBytes * kWordBytes in
  first_broken [
    (kDerived <? domain d, lit "difference domain " ++ to_dec (domain d)
       ++ lit " is neither stored nor derived");
    (popcount d =? 0, lit "difference popcount 0: a difference in which no bit differs");
    (last_offset d <? first_offset d, lit "difference first offset " ++ to_dec (first_offset d)
       ++ lit " after its last offset " ++ to_dec (last_offset d));
    (negb (window_offset d =? word_start), lit "difference window offset "
       ++ to_dec (window_offset d) ++ lit ", not the first offset rounded down to a word ("
       ++ to_dec word_start ++ lit ")");
    (negb (size_of (expected d) =? size_of (actual d)), lit "difference windows of "
       ++ to_dec (size_of (expected d)) ++ lit " and " ++ to_dec (size_of (actual d))
       ++ lit " bytes, not the same length");
    (bool_decide (expected d = []), lit "difference windows empty: no byte to show");
    (kMaxWindowBytes <? size_of (expected d), lit "difference windows of "
       ++ to_dec (size_of (expected d)) ++ lit " bytes, more than the "
       ++ to_dec kMaxWindowBytes ++ lit " a record carries");
    (negb (in_window d (first_offset d)), lit "difference first offset "
       ++ to_dec (first_offset d) ++ lit " outside its window of " ++ to_dec (size_of (expected d))
       ++ lit " bytes at offset " ++ to_dec (window_offset d));
    (negb (differs_at d (first_offset d)), lit "difference first offset "
       ++ to_dec (first_offset d) ++ lit ": expected and actual bytes there are the same");
    (in_window d (last_offset d) && negb (differs_at d (last_offset d)),
       lit "difference last offset " ++ to_dec (last_offset d)
       ++ lit ": expected and actual bytes there are the same")
  ].

Section Codec.
(** The shortest decimal of a double (std::to_chars), for the messages. *)
Context (shortest : Z → text).

Definition broken_exact_rule (r : ExactBitCorruption) : option text :=
  match first_broken [
    (kInput <? side r, lit "side " ++ to_dec (side r) ++ lit " is neither output nor input");
    (bool_decide (exact_check r = []), lit "an exact corruption that names no check");
    (kMaxTextBytes <? size_of (exact_check r),
       longer_than_allowed (lit "check") (size_of (exact_check r)));
    (line_bytes r <? kWordBytes, lit "line size of " ++ to_dec (line_bytes r)
       ++ lit " bytes, less than a word (" ++ to_dec kWordBytes ++ lit ")");
    (negb (has_single_bit (line_bytes r)), lit "line size of " ++ to_dec (line_bytes r)
       ++ lit " bytes, not a power of two")
  ] with
  | Some words => Some words
  | None => d ← difference r; broken_difference_rule d
  end.

Definition broken_numerical_rule (r : NumericalVerificationFailure) : option text :=
  first_broken [
    (kMaxTextBytes <? size_of (numerical_check r),
       longer_than_allowed (lit "check") (size_of (numerical_check r)));
    (negb (is_finite (tolerance r)), lit "tolerance " ++ shortest (tolerance r)
       ++ lit " is not finite");
    (double_le (tolerance r) 0, lit "tolerance " ++ shortest (tolerance r)
       ++ lit " is not strictly positive");
    (negb (exceeds_tolerance (residual r) (tolerance r)), lit "residual " ++ shortest (residual r)
       ++ lit " does not exceed tolerance " ++ shortest (tolerance r)
       ++ lit ": a check that passed, not a failure")
  ].

Definition broken_not_performed_rule (r : VerificationNotPerformed) : option text :=
  first_broken [
    (kMaxTextBytes <? size_of (what r), longer_than_allowed (lit "what") (size_of (what r)));
    (kMaxTextBytes <? size_of (why r), longer_than_allowed (lit "why") (size_of (why r)))
  ].

Definition broken_rule (record : ErrorRecord) : option text :=
  let p := provenance_of record in
  match first_broken [
    (negb (opt_test (λ w, size_of w <=? kMaxTextBytes) (prov_workload p)),
       longer_than_allowed (lit "workload name") (from_option size_of 0 (prov_workload p)));
    (negb (opt_test (λ i, i <? kIsaPathCount) (isa p)), lit "ISA path "
       ++ to_dec (default 0 (isa p)) ++ lit " is none of the " ++ to_dec kIsaPathCount);
    (negb (opt_test (λ i, i <=? kNotChecked) (input_integrity p)), lit "input integrity "
       ++ to_dec (default 0 (input_integrity p)) ++ lit " is none of its four values")
  ] with
  | Some words => Some words
  | None =>
    match record with
    | Exactly r => broken_exact_rule r
    | Numerically r => broken_numerical_rule r
    | NotPerformed r => broken_not_performed_rule r
    end
  end.

Definition get_kind (kind : Z) (p : Provenance) : Get ErrorRecord :=
  if kind =? kExactKind then r ⇐ get_exact p;; get_ret (Exactly r)
  else if kind =? kNumericalKind then r ⇐ get_numerical p;; get_ret (Numerically r)
  else r ⇐ get_not_performed p;; get_ret (NotPerformed r).

Definition decode_record (bytes : list byte) : Result ErrorRecord DecodeError :=
  match bytes with
  | [] => decode_fail kEmptyBytes
            (lit "no bytes: a record is at least its format version and its kind")
  | version :: bytes =>
    if negb (byte_val version =? kRecordFormatVersion)
    then decode_fail kVersionByte (lit "byte 0 is format version " ++ to_dec (byte_val version)
           ++ lit "; this build reads version " ++ to_dec kRecordFormatVersion) else
    match bytes with
    | [] => decode_fail kTruncatedBytes (lit "the bytes end after the format version")
    | kind :: bytes =>
      let kind := byte_val kind in
      if (kind <? kExactKind) || (kNotPerformedKind <? kind)
      then decode_fail kKindByte (lit "byte 1 is kind " ++ to_dec kind
             ++ lit "; the kinds are 1, 2 and 3") else
      let? (record, reader) :=
        (p ⇐ get_provenance;; get_kind kind p) {| rest := bytes; at_ := 2 |} in
      match broken_rule record with
      | Some rule => decode_fail kInvalidRecord rule
      | None =>
        if negb (size_of (rest reader) =? 0)
        then decode_fail kTrailingBytes (to_dec (size_of (rest reader))
               ++ lit " byte(s) after the record, which ends at byte "
               ++ to_dec (Z.of_nat (at_ reader)))
        else Value record
      end
    end
  end.
End Codec.


(** ** What the fields may hold *)

Definition duty_widths (d : DutyCycle) : Prop :=
  unsigned_dom 4 (oracle_period d) ∧ unsigned_dom 4 (integrity_period d).

Definition provenance_widths (p : Provenance) : Prop :=
  optional_dom (unsigned_dom 4) (logical_cpu p)
  ∧ optional_dom (unsigned_dom 4) (physical_core p)
  ∧ optional_dom (unsigned_dom 4) (numa_node p)
  ∧ optional_dom (unsigned_dom 8) (buffer_address p)
  ∧ optional_dom (unsigned_dom 8) (buffer_offset p)
  ∧ optional_dom (unsigned_dom 8) (iteration p)
  ∧ optional_dom (unsigned_dom 4) (workload_version p)
  ∧ optional_dom (unsigned_dom 8) (seed p)
  ∧ optional_dom (unsigned_dom 1) (isa p)
  ∧ optional_dom (unsigned_dom 1) (input_integrity p)
  ∧ optional_dom duty_widths (duty p)
  ∧ optional_dom (unsigned_dom 4) (physical_package p)
  ∧ optional_dom (unsigned_dom 4) (decomposition p)
  ∧ optional_dom (unsigned_dom 8) (footprint_bytes p).

Definition difference_widths (d : Difference) : Prop :=
  unsigned_dom 1 (domain d) ∧ unsigned_dom 8 (first_offset d) ∧ unsigned_dom 8 (last_offset d)
  ∧ unsigned_dom 8 (popcount d) ∧ unsigned_dom 8 (window_offset d).

(** Every integer of the record within its C++ type. *)
Definition in_widths (record : ErrorRecord) : Prop :=
  provenance_widths (provenance_of record) ∧
  match record with
  | Exactly r => unsigned_dom 1 (side r) ∧ unsigned_dom 4 (line_bytes r)
                 ∧ optional_dom difference_widths (difference r)
  | Numerically r => unsigned_dom 8 (residual r) ∧ unsigned_dom 8 (tolerance r)
                     ∧ optional_dom (unsigned_dom 8) (condition_number r)
                     ∧ optional_dom (unsigned_dom 8) (element r)
  | NotPerformed r => unsigned_dom 8 (blocks_compared r)
  end.

(** What the reader's fields admit on top: the limits on texts and windows. *)
Definition text_dom : text → Prop := raw_dom kMaxTextBytes.
Definition provenance_dom (p : Provenance) : Prop :=
  provenance_widths p ∧ optional_dom text_dom (prov_workload p).
Definition difference_dom (d : Difference) : Prop :=
  difference_widths d ∧ raw_dom kMaxWindowBytes (expected d) ∧ raw_dom kMaxWindowBytes (actual d).
Definition exact_dom (r : ExactBitCorruption) : Prop :=
  unsigned_dom 1 (side r) ∧ text_dom (exact_check r) ∧ unsigned_dom 4 (line_bytes r)
  ∧ optional_dom difference_dom (difference r).
Definition numerical_dom (r : NumericalVerificationFailure) : Prop :=
  text_dom (numerical_check r) ∧ unsigned_dom 8 (residual r) ∧ unsigned_dom 8 (tolerance r)
  ∧ optional_dom (unsigned_dom 8) (condition_number r)
  ∧ optional_dom (unsigned_dom 8) (element r).
Definition not_performed_dom (r : VerificationNotPerformed) : Prop :=
  text_dom (what r) ∧ text_dom (why r) ∧ unsigned_dom 8 (blocks_compared r).

(** ** The fields and groups are exact *)

#[export] Instance exact_get_text field : Exact (get_text field) put_text text_dom.
Proof. apply exact_raw. unfold kMaxTextBytes. lia. Qed.

#[export] Instance exact_get_window field :
  Exact (get_window field) put_raw (raw_dom kMaxWindowBytes).
Proof. apply exact_raw. unfold kMaxWindowBytes. lia. Qed.

#[export] Instance exact_optional_u8 field :
  Exact (optional_u8 field) (put_optional put_u8) (optional_dom (unsigned_dom 1)).
Proof. apply _. Qed.
#[export] Instance exact_optional_u32 field :
  Exact (optional_u32 field) (put_optional put_u32) (optional_dom (unsigned_dom 4)).
Proof. apply _. Qed.
#[export] Instance exact_optional_u64 field :
  Exact (optional_u64 field) (put_optional put_u64) (optional_dom (unsigned_dom 8)).
Proof. apply _. Qed.

#[export] Instance exact_get_duty : Exact get_duty put_duty duty_widths.
Proof.
  unfold get_duty, put_duty, duty_widths.
  next_field oracle_period. last_field integrity_period. fields_done.
Qed.

#[export] Instance exact_get_provenance : Exact get_provenance put_provenance provenance_dom.
Proof.
  unfold get_provenance, put_provenance, provenance_dom, provenance_widths.
  next_field logical_cpu. next_field physical_core. next_field numa_node.
  next_field buffer_address. next_field buffer_offset. next_field iteration.
  next_field prov_workload. next_field workload_version. next_field seed. next_field isa.
  next_field input_integrity. next_field duty. next_field physical_package.
  next_field decomposition. last_field footprint_bytes. fields_done.
Qed.

#[export] Instance exact_get_difference : Exact get_difference put_difference difference_dom.
Proof.
  unfold get_difference, put_difference, difference_dom, difference_widths.
  next_field domain. next_field first_offset. next_field last_offset. next_field popcount.
  next_field window_offset. next_field expected. last_field actual. fields_done.
Qed.

#[export] Instance exact_get_exact p :
  Exact (get_exact p) put_exact (λ r, exact_dom r ∧ exact_provenance r = p).
Proof.
  unfold get_exact, put_exact, exact_dom.
  next_field side. next_field exact_check. next_field line_bytes. last_field difference.
  fields_done.
Qed.

#[export] Instance exact_get_numerical p :
  Exact (get_numerical p) put_numerical (λ r, numerical_dom r ∧ numerical_provenance r = p).
Proof.
  unfold get_numerical, put_numerical, numerical_dom.
  next_field numerical_check. next_field residual. next_field tolerance.
  next_field condition_number. last_field element. fields_done.
Qed.

#[export] Instance exact_get_not_performed p :
  Exact (get_not_performed p) put_not_performed
    (λ r, not_performed_dom r ∧ not_performed_provenance r = p).
Proof.
  unfold get_not_performed, put_not_performed, not_performed_dom.
  next_field what. next_field why. last_field blocks_compared. fields_done.
Qed.

Definition body_dom (record : ErrorRecord) : Prop :=
  match record with
  | Exactly r => exact_dom r
  | Numerically r => numerical_dom r
  | NotPerformed r => not_performed_dom r
  end.

Definition put_body (record : ErrorRecord) : list byte :=
  match record with
  | Exactly r => put_exact r
  | Numerically r => put_numerical r
  | NotPerformed r => put_not_performed r
  end.

(** A group wrapped in the constructor of its kind. *)
Lemma exact_wrapped {A} (get : Get A) put dom (wrap : A → ErrorRecord) putB domB :
  Exact get put dom →
  (∀ record, domB record ↔ ∃ a, record = wrap a ∧ dom a) →
  (∀ a, dom a → putB (wrap a) = put a) →
  Exact (r ⇐ get;; get_ret (wrap r)) putB domB.
Proof.
  intros Hg Hd Hp. split; unfold get_bind.
  - intros record r ys (a & -> & Ha)%Hd Hr. rewrite Hp in * by done.
    by rewrite (exact_read (get := get) a r ys).
  - intros r record r' H. apply rbind_value in H as ([a r1] & H1 & [= <- <-]).
    destruct (exact_only (get := get) _ _ _ H1) as (Ha & Hr & Hat). rewrite Hp by done.
    split; [|done]. apply Hd. eauto.
Qed.

Lemma exact_get_kind kind p :
  1 ≤ kind ≤ 3 →
  Exact (get_kind kind p) put_body
    (λ record, (body_dom record ∧ kind_number record = kind) ∧ provenance_of record = p).
Proof.
  intros Hk. unfold get_kind, kExactKind, kNumericalKind.
  repeat case_bool_decide || (case_match; bool_facts);
    [assert (kind = 1) by lia|assert (kind = 2) by lia|assert (kind = 3) by lia]; subst;
    eapply exact_wrapped; try apply _; try done; intros [?|?|?]; simpl; naive_solver lia.
Qed.

Lemma exact_record kind :
  1 ≤ kind ≤ 3 →
  Exact (p ⇐ get_provenance;; get_kind kind p)
    (λ record, put_provenance (provenance_of record) ++ put_body record)
    (λ record, provenance_dom (provenance_of record) ∧ body_dom record ∧ kind_number record = kind).
Proof.
  intros Hk. next_field provenance_of.
  eapply exact_proper; [by apply exact_get_kind| |done]. simpl. naive_solver.
Qed.

(** ** The rules broken_rule explains are the rules is_valid checks *)

Lemma first_broken_none rules : first_broken rules = None ↔ Forall (λ rule, rule.1 = false) rules.
Proof.
  induction rules as [|[broken words] rules IH]; simpl; [split; [constructor|done]|].
  rewrite Forall_cons, <- IH. destruct broken; naive_solver.
Qed.

Lemma opt_dom_test {A} (p : A → bool) o : opt_test p o = true ↔ optional_dom (λ a, p a = true) o.
Proof. by destruct o. Qed.

Lemma broken_difference_rule_none d :
  difference_widths d → (broken_difference_rule d = None ↔ valid_difference d = true).
Proof.
  intros (Hdom & _ & _ & Hcount & _). unfold broken_difference_rule, valid_difference.
  rewrite first_broken_none, !Forall_cons, Forall_nil. cbn [fst].
  unfold unsigned_dom in *.
  rewrite !andb_true_iff, ?negb_false_iff, ?negb_true_iff, ?orb_true_iff, ?negb_true_iff,
    ?andb_false_iff, ?negb_false_iff, ?Z.leb_le, ?Z.ltb_ge, ?Z.eqb_eq, ?Z.eqb_neq.
  assert (differs_at d (first_offset d) = true → in_window d (first_offset d) = true)
    by by (unfold differs_at; intros [? ?]%andb_true_iff).
  naive_solver lia.
Qed.

Section Rules.
Context (shortest : Z → text).

Lemma positive_tolerance tolerance :
  is_finite tolerance = true → (double_le tolerance 0 = false ↔ double_lt 0 tolerance = true).
Proof.
  unfold is_finite, double_le, double_lt, is_nan, double_rank. intros ?%Z.ltb_lt.
  rewrite (proj2 (Z.ltb_ge _ (magnitude tolerance))) by lia. simpl.
  rewrite Z.leb_gt, Z.ltb_lt. done.
Qed.

(** broken_rule names a rule exactly when is_valid refuses the record. *)
Lemma broken_rule_none record :
  in_widths record → (broken_rule shortest record = None ↔ is_valid_record record = true).
Proof.
  intros [_ Hw]. unfold broken_rule, is_valid_record.
  destruct (first_broken _) as [words|] eqn:Hp.
  - split; [done|]. intros H. exfalso. bool_facts.
    rewrite H, H1, H2 in Hp. done.
  - apply first_broken_none in Hp. rewrite !Forall_cons in Hp. unpack. cbn [fst] in *. bool_facts.
    rewrite H, H0, H1. cbn [andb]. clear H H0 H1 H2.
    destruct record as [r|r|r]; [destruct Hw as (Hside & Hline & Hdiff)| |].
    + unfold broken_exact_rule. destruct (first_broken _) eqn:Hr.
      * split; [done|]. intros H. bool_facts. exfalso.
        revert Hr. simpl. rewrite (proj2 (Z.ltb_ge _ _)) by done.
        rewrite H4, (proj2 (Z.ltb_ge _ _)), (proj2 (Z.ltb_ge _ (kWordBytes))), H1 by done. done.
      * apply first_broken_none in Hr. rewrite !Forall_cons in Hr. unpack. cbn [fst] in *.
        bool_facts. destruct (difference r) as [d|]; simpl.
        -- rewrite (broken_difference_rule_none d Hdiff).
           rewrite !andb_true_iff, !Z.leb_le, negb_true_iff. naive_solver.
        -- rewrite !andb_true_iff, !Z.leb_le, negb_true_iff. naive_solver.
    + unfold broken_numerical_rule. rewrite first_broken_none, !Forall_cons, Forall_nil. cbn [fst].
      rewrite !andb_true_iff, !negb_false_iff, Z.leb_le, Z.ltb_ge.
      split; intros; unpack; split_and?; try done; by apply positive_tolerance.
    + unfold broken_not_performed_rule. rewrite first_broken_none, !Forall_cons, Forall_nil.
      cbn [fst]. rewrite andb_true_iff, !Z.leb_le, !Z.ltb_ge. naive_solver.
Qed.
End Rules.

Definition record_dom (record : ErrorRecord) : Prop :=
  provenance_dom (provenance_of record) ∧ body_dom record.

Lemma widths_of_dom record :
  provenance_dom (provenance_of record) → body_dom record → in_widths record.
Proof.
  intros [Hp _] H. split; [done|]. destruct record as [r|r|r]; simpl in *;
    unfold exact_dom, numerical_dom, not_performed_dom in H; unpack; split_and?; try done.
  destruct (difference r); simpl in *; [|done]. unfold difference_dom in *. by unpack.
Qed.

Lemma record_dom_valid record :
  in_widths record ∧ is_valid_record record = true ↔
  record_dom record ∧ is_valid_record record = true.
Proof.
  split; [|intros [[? ?] ?]; split; [by apply widths_of_dom|done]].
  intros [H Hv]. split; [|done]. destruct H as [Hp H]. unfold is_valid_record in Hv.
  rewrite !andb_true_iff in Hv. rewrite opt_dom_test in Hv. destruct Hv as (((Hw & _) & _) & Hb).
  split; [split; [done|]|].
  - destruct (prov_workload _); [by apply Z.leb_le in Hw|done].
  - destruct record as [r|r|r]; simpl in *; bool_facts; unpack;
      unfold exact_dom, numerical_dom, not_performed_dom, text_dom, raw_dom; split_and?; try done.
    unfold opt_test in *. destruct (difference r) as [d|]; simpl in *; [|done].
    unfold difference_dom, raw_dom, valid_difference in *. bool_facts. split_and?; try done; lia.
Qed.

(** What decode accepts is what encode writes. *)
Lemma record_codec shortest record bytes :
  decode_record shortest bytes = Value record ↔
  in_widths record ∧ is_valid_record record = true ∧ bytes = encode_record record.
Proof.
  assert (Hkind : ∀ r, 1 ≤ kind_number r ≤ 3) by (intros [?|?|?]; simpl; lia).
  rewrite (assoc (∧) (in_widths record)), record_dom_valid. split.
  - unfold decode_record. destruct bytes as [|version bytes]; [done|].
    destruct (byte_val version =? kRecordFormatVersion) eqn:Hv; [|done]. cbn [negb].
    destruct bytes as [|kind bytes]; [done|]. cbv zeta.
    destruct (_ || _) eqn:Hk; [done|]. intros H. apply rbind_value in H as ([r reader] & Hg & H).
    bool_facts. unfold kExactKind, kNotPerformedKind in *.
    apply (exact_only (Exact := exact_record (byte_val kind) ltac:(lia))) in Hg
      as ((Hp & Hb & Hn) & Hr & _).
    cbn [rest] in Hr. destruct (broken_rule shortest r) eqn:Hrule; [done|].
    destruct (size_of (rest reader) =? 0) eqn:Hend; [|done]. injection H as ->. bool_facts.
    assert (rest reader = []) as Hnil by (apply nil_length_inv; unfold size_of in *; lia).
    assert (is_valid_record record = true) as Hvalid
      by (apply (broken_rule_none shortest); [|done]; unfold record_dom in *; by apply widths_of_dom).
    split; [by split|]. unfold encode_record, put_u8, put_le. cbn [seq fmap list_fmap app].
    change (8 * Z.of_nat 0) with 0. rewrite !Z.shiftr_0_r.
    rewrite Hnil, app_nil_r in Hr. rewrite Hr, Hn, <- Hv. by rewrite !byte_of_val.
  - intros [[[Hp Hb] Hv] ->]. unfold decode_record, encode_record, put_u8.
    change (put_le 1 kRecordFormatVersion) with [byte_of kRecordFormatVersion]. cbn [app].
    rewrite byte_val_of_small by done. cbn [negb].
    change (put_le 1 (kind_number record)) with [byte_of (kind_number record)]. cbn [app].
    pose proof (Hkind record) as Hn. rewrite byte_val_of_small by lia. cbv zeta.
    unfold kExactKind, kNotPerformedKind.
    rewrite (proj2 (Z.ltb_ge _ _)), (proj2 (Z.ltb_ge _ _)) by lia. cbn [orb].
    rewrite (exact_read (Exact := exact_record (kind_number record) Hn) record _ [])
      by (rewrite ?app_nil_r; done).
    cbn [rbind rest]. by rewrite (proj2 (broken_rule_none shortest record (widths_of_dom _ Hp Hb))).
Qed.

(** Decode accepts exactly the bytes encode writes for the valid records, and gives
    each back the record it was written from: every encoding of a valid record is read
    back as that record, and any bytes that are read, whatever wrote them, are the
    encoding of the record they are read as, so no two encodings name one record, and no
    byte is ignored. *)
Theorem error_record_codec shortest record bytes :
  decode_record shortest bytes = Value record ↔
  in_widths record ∧ is_valid_record record = true ∧ bytes = encode_record record.
Proof. apply record_codec. Qed.

Definition sample_difference : Difference :=
  {| domain := kStored; first_offset := 67; last_offset := 67; popcount := 1; window_offset := 64;
     expected := byte_of <$> [0; 0; 0; 165]; actual := byte_of <$> [0; 0; 0; 164] |}.

Definition sample_record : ErrorRecord := Exactly
  {| exact_provenance :=
       {| logical_cpu := Some 5; physical_package := Some 0; physical_core := None;
          numa_node := Some 1; buffer_address := Some 0x7f0000001000; buffer_offset := None;
          iteration := Some 12; prov_workload := Some (lit "lz4"); workload_version := Some 1;
          seed := Some 0; isa := Some 2; input_integrity := Some 3;
          duty := Some {| oracle_period := 16; integrity_period := 0 |}; decomposition := None;
          footprint_bytes := Some 65536 |};
     side := kOutput; exact_check := lit "decompressed"; difference := Some sample_difference;
     line_bytes := 64 |}.

Example sample_record_read :
  decode_record (λ _, []) (encode_record sample_record) = Value sample_record.
Proof. vm_compute. reflexivity. Qed.
