(* ===== verification/Control.v ===== *)
(** * Orders to a worker, and its acknowledgements

    worker/control.hpp (the messages and their validity) and worker/control/control.cpp
    (their encodings), and worker/duty.cpp (the square wave of SetDuty). The reader here
    is the one that fails once and for all: every read after the first that was missing
    answers zero, and the decoder looks once, at the end. *)

From S2P Require Export ErrorRecord.

(** ** control.hpp *)

Record SetDuty := { busy_permille : Z; period_ns : Z }.

Record Switch := {
  switch_workload : text;
  switch_seed : Z;
  switch_footprint_bytes : Z;
  switch_decomposition : Z;
  switch_duty : DutyCycle;
}.

Inductive Command :=
| Stop
| Pause
| Resume
| SetDutyTo (duty : SetDuty)
| Rebind (cpus : list Z)
| SwitchTo (change : Switch).

(** [std::variant::index]. *)
Definition command_index (command : Command) : Z :=
  match command with
  | Stop => 0 | Pause => 1 | Resume => 2 | SetDutyTo _ => 3 | Rebind _ => 4 | SwitchTo _ => 5
  end.

Definition command_name (command : Command) : text :=
  match command with
  | Stop => lit "stop"
  | Pause => lit "pause"
  | Resume => lit "resume"
  | SetDutyTo _ => lit "set duty"
  | Rebind _ => lit "rebind"
  | SwitchTo _ => lit "switch"
  end.

Record ControlMessage := { message_sequence : Z; command : Command }.

Definition in_range (low high c : byte) : bool :=
  (byte_val low <=? byte_val c) && (byte_val c <=? byte_val high).

(** workloads::is_valid_name: a byte past ASCII is in neither range, [char] signed or not. *)
Definition is_valid_name (name : text) : bool :=
  match name with
  | [] => false
  | first :: _ =>
    in_range "a"%byte "z"%byte first &&
    forallb (λ c, in_range "a"%byte "z"%byte c || in_range "0"%byte "9"%byte c
                  || bool_decide (c = "_"%byte)) name
  end.

(** [for (at = 1; ...) if (cpus[at - 1] >= cpus[at]) return false;]. *)
Fixpoint strictly_ascending (cpus : list Z) : bool :=
  match cpus with
  | a :: (b :: _) as rest => negb (b <=? a) && strictly_ascending rest
  | _ => true
  end.

Definition kAffinityCpus : Z := 1024.

Definition is_valid_message (message : ControlMessage) : bool :=
  match command message with
  | SetDutyTo duty => (1 <=? busy_permille duty) && (busy_permille duty <=? 1000) && (0 <? period_ns duty)
  | Rebind cpus =>
    match last cpus with
    | None => false
    | Some back => if kAffinityCpus <=? back then false else strictly_ascending cpus
    end
  | SwitchTo change => is_valid_name (switch_workload change) && (0 <? switch_footprint_bytes change)
  | _ => true
  end.

Definition kDone : Z := 0.
Definition kRefused : Z := 1.

Record ControlAck := { ack_sequence : Z; ack_status : Z; ack_detail : text }.

Definition is_valid_ack (ack : ControlAck) : bool :=
  (ack_status ack <=? kRefused) && (size_of (ack_detail ack) <=? kMaxTextBytes).

Inductive ControlDecodeFault :=
  kControlEmpty | kControlVersion | kControlKind | kControlTruncated | kControlTrailing | kControlInvalid.

Record ControlDecodeError := { control_fault : ControlDecodeFault; control_detail : text }.

Definition refusal {A} (fault : ControlDecodeFault) (detail : text) : Result A ControlDecodeError :=
  Error {| control_fault := fault; control_detail := detail |}.

(** ** control.cpp: the reader *)

(** The bytes not read yet, and [ok_]. *)
Record FieldReader := { unread : list byte; ok : bool }.

Definition Take (A : Type) : Type := FieldReader → A * FieldReader.
Definition take_ret {A} (a : A) : Take A := λ r, (a, r).
Definition take_bind {A B} (g : Take A) (k : A → Take B) : Take B :=
  λ r, k (g r).1 (g r).2.

Notation "x ↢ g ;; k" := (take_bind g (λ x, k))
  (at level 100, g at next level, right associativity) : lf_scope.

Definition fail_reader (r : FieldReader) : FieldReader := {| unread := unread r; ok := false |}.

Definition get_field (width : nat) : Take Z := λ r,
  if negb (ok r) || (length (unread r) <? width)%nat then (0, fail_reader r)
  else (get_le (take width (unread r)), {| unread := drop width (unread r); ok := ok r |}).

Definition get_string : Take text := λ r0,
  let (size, r) := get_field 4 r0 in
  if negb (ok r) || (size_of (unread r) <? size) then ([], fail_reader r)
  else (take (Z.to_nat size) (unread r), {| unread := drop (Z.to_nat size) (unread r); ok := ok r |}).

Definition room_for (width : Z) (r : FieldReader) : Z := size_of (unread r) / width.
Definition kCpuBytes : nat := 4.

(** [for (at < count) cpus.push_back(get(kCpuBytes))]. *)
Fixpoint get_cpus (count : nat) : Take (list Z) :=
  match count with
  | O => take_ret []
  | S count => cpu ↢ get_field kCpuBytes;; cpus ↢ get_cpus count;; take_ret (u32 cpu :: cpus)
  end.

Definition get_counted_cpus (count : Z) : Take (list Z) := λ r,
  if room_for (Z.of_nat kCpuBytes) r <? count then ([], fail_reader r)
  else get_cpus (Z.to_nat count) r.

Definition get_set_duty : Take Command :=
  busy ↢ get_field 2;; period ↢ get_field 8;;
  take_ret (SetDutyTo {| busy_permille := u16 busy; period_ns := i64 period |}).

Definition get_rebind : Take Command :=
  count ↢ get_field 4;; cpus ↢ get_counted_cpus count;; take_ret (Rebind cpus).

Definition get_switch : Take Command :=
  name ↢ get_string;; sd ↢ get_field 8;; footprint ↢ get_field 8;; decomp ↢ get_field 4;;
  oracle ↢ get_field 4;; integrity ↢ get_field 4;;
  take_ret (SwitchTo {| switch_workload := name; switch_seed := sd;
    switch_footprint_bytes := footprint; switch_decomposition := u32 decomp;
    switch_duty := {| oracle_period := u32 oracle; integrity_period := u32 integrity |} |}).

Definition read_command (kind : Z) : Take Command :=
  if kind =? 1 then take_ret Stop else
  if kind =? 2 then take_ret Pause else
  if kind =? 3 then take_ret Resume else
  if kind =? 4 then get_set_duty else
  if kind =? 5 then get_rebind else get_switch.

(** ** control.cpp: the codecs *)

Definition kControlFormatVersion : Z := 1.
Definition kAckKind : Z := 128.
Definition kCommands : Z := 6.

Definition check_header (bytes : list byte) : Result unit ControlDecodeError :=
  match bytes with
  | [] => refusal kControlEmpty (lit "no bytes")
  | version :: bytes =>
    if negb (byte_val version =? kControlFormatVersion)
    then refusal kControlVersion (lit "version " ++ to_dec (byte_val version)
           ++ lit ", this build reads " ++ to_dec kControlFormatVersion) else
    match bytes with
    | [] => refusal kControlTruncated (lit "ends before the kind")
    | _ => Value tt
    end
  end.

Definition check_end (r : FieldReader) : Result unit ControlDecodeError :=
  if negb (ok r) then refusal kControlTruncated (lit "ends inside the message")
  else if negb (bool_decide (unread r = [])) then refusal kControlTrailing (lit "bytes after the message")
  else Value tt.

Definition put_string (t : text) : list byte := put_le 4 (size_of t) ++ t.

Definition put_command (command : Command) : list byte :=
  match command with
  | SetDutyTo duty => put_le 2 (busy_permille duty) ++ put_le 8 (u64 (period_ns duty))
  | Rebind cpus => put_le 4 (size_of cpus) ++ flat_map (put_le kCpuBytes) cpus
  | SwitchTo change =>
    put_string (switch_workload change) ++ put_le 8 (switch_seed change)
    ++ put_le 8 (switch_footprint_bytes change) ++ put_le 4 (switch_decomposition change)
    ++ put_le 4 (oracle_period (switch_duty change))
    ++ put_le 4 (integrity_period (switch_duty change))
  | _ => []
  end.

Definition encode_message (message : ControlMessage) : list byte :=
  [byte_of kControlFormatVersion; byte_of (command_index (command message) + 1)]
  ++ put_le 4 (message_sequence message) ++ put_command (command message).

Definition get_message (kind : Z) : Take ControlMessage :=
  sequence ↢ get_field 4;; order ↢ read_command kind;;
  take_ret {| message_sequence := u32 sequence; command := order |}.

Definition kind_byte (bytes : list byte) : Z := from_option byte_val 0 (bytes !! 1%nat).

Definition decode_message (bytes : list byte) : Result ControlMessage ControlDecodeError :=
  let? _ := check_header bytes in
  let kind := kind_byte bytes in
  if (kind <? 1) || (kCommands <? kind) then refusal kControlKind (lit "kind " ++ to_dec kind) else
  let (message, r) := get_message kind {| unread := drop 2 bytes; ok := true |} in
  let? _ := check_end r in
  if negb (is_valid_message message)
  then refusal kControlInvalid (lit "a " ++ command_name (command message)
         ++ lit " that breaks the rules of its command")
  else Value message.

Definition encode_ack (ack : ControlAck) : list byte :=
  [byte_of kControlFormatVersion; byte_of kAckKind] ++ put_le 4 (ack_sequence ack)
  ++ put_le 1 (ack_status ack) ++ put_string (ack_detail ack).

Definition get_ack : Take ControlAck :=
  sequence ↢ get_field 4;; status ↢ get_field 1;; detail ↢ get_string;;
  take_ret {| ack_sequence := u32 sequence; ack_status := u8 status; ack_detail := detail |}.

Definition decode_ack (bytes : list byte) : Result ControlAck ControlDecodeError :=
  let? _ := check_header bytes in
  if negb (kind_byte bytes =? kAckKind) then refusal kControlKind (lit "not an acknowledgement") else
  let (ack, r) := get_ack {| unread := drop 2 bytes; ok := true |} in
  let? _ := check_end r in
  if negb (is_valid_ack ack)
  then refusal kControlInvalid (lit "an acknowledgement that breaks its rules")
  else Value ack.

(** ** duty.cpp *)

Definition busy_ns (duty : SetDuty) : Z :=
  let period := u64 (period_ns duty) in
  let whole := u64 (period / 1000 * busy_permille duty) in
  let rest := u64 (period mod 1000 * busy_permille duty) / 1000 in
  i64 (u64 (whole + rest)).

Definition idle_ns (duty : SetDuty) : Z := i64 (period_ns duty - busy_ns duty).

Record DutyClock := { clock_duty : SetDuty; epoch_ns : Z }.

Definition continuous : DutyClock :=
  {| clock_duty := {| busy_permille := 1000; period_ns := 1000000000 |}; epoch_ns := 0 |}.

Definition duty_set (duty : SetDuty) (now_ns : Z) : DutyClock :=
  {| clock_duty := duty; epoch_ns := now_ns |}.

Record Position := { busy : bool; remaining_ns : Z }.

Definition duty_at (clock : DutyClock) (now_ns : Z) : Position :=
  let busy_part := busy_ns (clock_duty clock) in
  let into := Z.rem (Z.max (i64 (now_ns - epoch_ns clock)) 0) (period_ns (clock_duty clock)) in
  let running := into <? busy_part in
  {| busy := running;
     remaining_ns := if running then i64 (busy_part - into)
                     else i64 (period_ns (clock_duty clock) - into) |}.

(** ** The failing reader, as an exact one

    Whatever is read after a failure leaves the reader failed, so looking once at the
    end is the same as refusing at the first field that is missing. *)

Class Sticky {A} (g : Take A) : Prop := {
  sticky_failed r : ok r = false → ok (g r).2 = false;
  sticky_shrinks r : (length (unread (g r).2) ≤ length (unread r))%nat;
}.
#[export] Hint Mode Sticky ! ! : typeclass_instances.

#[export] Instance sticky_ret {A} (a : A) : Sticky (take_ret a).
Proof. by split. Qed.

#[export] Instance sticky_bind {A B} (g : Take A) (k : A → Take B) :
  Sticky g → (∀ a, Sticky (k a)) → Sticky (take_bind g k).
Proof.
  intros [Hf Hs] Hk. split; intros r; unfold take_bind.
  - intros H. by apply Hk, Hf.
  - etrans; [apply Hk|apply Hs].
Qed.

#[export] Instance sticky_field width : Sticky (get_field width).
Proof.
  split; intros r; unfold get_field; [by intros ->|]. case_match; simpl; [done|]. rewrite length_drop. lia.
Qed.

#[export] Instance sticky_string : Sticky get_string.
Proof.
  split; intros r; unfold get_string; pose proof (sticky_shrinks (g := get_field 4) r);
    pose proof (sticky_failed (g := get_field 4) r); destruct (get_field 4 r) as [size r1]; simpl in *.
  - intros Hr. by rewrite H0.
  - case_match; simpl; [done|]. rewrite length_drop. lia.
Qed.

#[export] Instance sticky_cpus count : Sticky (get_cpus count).
Proof. induction count; simpl; apply _. Qed.

#[export] Instance sticky_counted count : Sticky (get_counted_cpus count).
Proof.
  split; intros r; unfold get_counted_cpus; case_match; try done.
  - apply sticky_failed.
  - apply sticky_shrinks.
Qed.

#[export] Instance sticky_command kind : Sticky (read_command kind).
Proof. unfold read_command, get_set_duty, get_rebind, get_switch. repeat case_match; apply _. Qed.

(** The reads up to the decoder's one look at [ok]. *)
Definition strict {A} (g : Take A) : Get A := λ r,
  let p := g {| unread := rest r; ok := true |} in
  if ok p.2 then Value (p.1, {| rest := unread p.2;
                                at_ := at_ r + (length (rest r) - length (unread p.2)) |})
  else decode_fail kTruncatedBytes [].

Lemma strict_bind {A B} (g : Take A) (k : A → Take B) r :
  Sticky g → (∀ a, Sticky (k a)) →
  strict (take_bind g k) r = get_bind (strict g) (λ a, strict (k a)) r.
Proof.
  intros Hg Hk. unfold strict, get_bind, take_bind. cbv zeta.
  pose proof (sticky_shrinks (g := g) {| unread := rest r; ok := true |}) as Hs.
  destruct (g _) as [a [ys good]]. cbn [fst snd ok unread] in *. destruct good; cbn [rbind fst snd rest at_].
  - pose proof (sticky_shrinks (g := k a) {| unread := ys; ok := true |}) as Hs'.
    destruct (k a _) as [b r2]. cbn [fst snd ok unread] in *. case_match; [|done]. do 3 f_equal. lia.
  - by rewrite (sticky_failed (g := k a)).
Qed.

Lemma exact_ext {A} (g g' : Get A) put dom : (∀ r, g r = g' r) → Exact g put dom → Exact g' put dom.
Proof. intros H [Hr Ho]. split; intros; rewrite <- ?H in *; eauto. Qed.

Lemma exact_taken {A B} (g : Take A) (put : A → list byte) (dom : A → Prop)
    (k : A → Take B) (putB : B → list byte) (domB : B → Prop) (part : B → A) (putK : B → list byte) :
  Exact (strict g) put dom → Sticky g → (∀ a, Sticky (k a)) →
  (∀ a, dom a → Exact (strict (k a)) putK (λ b, domB b ∧ part b = a)) →
  (∀ b, domB b → dom (part b)) →
  (∀ b, domB b → putB b = put (part b) ++ putK b) →
  Exact (strict (take_bind g k)) putB domB.
Proof.
  intros Hg ? ? Hk Hd Hp.
  eapply exact_ext; [intros; symmetry; by apply strict_bind|]. by eapply exact_field.
Qed.

Lemma exact_taken_ret {A} (a : A) : Exact (strict (take_ret a)) (λ _, []) (λ b, b = a).
Proof.
  eapply exact_ext; [|apply exact_ret]. intros [bs n]. unfold get_ret, strict, take_ret. simpl.
  by rewrite Nat.sub_diag, Nat.add_0_r.
Qed.

#[export] Instance exact_get_field width :
  Exact (strict (get_field width)) (put_le width) (unsigned_dom width).
Proof.
  split; unfold strict, get_field.
  - intros v r ys Hv Hr. cbn [ok unread negb orb]. rewrite Hr, length_app, length_put_le.
    rewrite (proj2 (Nat.ltb_ge _ _)) by lia. cbn [fst snd ok unread].
    rewrite take_app_length', drop_app_length' by (by rewrite length_put_le).
    rewrite get_put_le_small by done. do 3 f_equal. lia.
  - intros r v r'. cbn [ok unread negb orb]. destruct (Nat.ltb_spec (length (rest r)) width); [done|].
    cbn [fst snd ok unread]. intros [= <- <-]. cbn [rest at_].
    assert (Hl : length (take width (rest r)) = width) by (rewrite length_take; lia).
    split; [rewrite <- Hl at 1; apply get_le_range|].
    assert (Hput : put_le width (get_le (take width (rest r))) = take width (rest r))
      by (rewrite <- Hl at 1; apply put_get_le).
    rewrite Hput, take_drop, Hl, length_drop. split; [done|lia].
Qed.

Definition string_dom (t : text) : Prop := size_of t < 2 ^ 32.

#[export] Instance exact_get_string : Exact (strict get_string) put_string string_dom.
Proof.
  assert (Hx : Exact (strict (get_field 4)) (put_le 4) (unsigned_dom 4)) by apply _.
  split; unfold string_dom.
  - intros t r ys Ht Hr. unfold put_string in Hr. rewrite <- app_assoc in Hr.
    pose proof (exact_read (Exact := Hx) (size_of t) r (t ++ ys)) as H. unfold unsigned_dom, size_of in *.
    specialize (H ltac:(simpl; lia) Hr). unfold strict in *. unfold get_string.
    destruct (get_field 4 _) as [n r1]. cbn [fst snd] in *. destruct (ok r1) eqn:Hok; [|done].
    injection H as -> -> _. cbn [negb orb]. unfold size_of.
    rewrite length_app, (proj2 (Z.ltb_ge _ _)) by lia. cbn [fst snd ok unread].
    rewrite Nat2Z.id, take_app_length, drop_app_length. unfold put_string.
    rewrite Hr, !length_app, !length_put_le. do 3 f_equal. lia.
  - intros r t r' H. unfold strict, get_string in H.
    pose proof (exact_only (Exact := Hx) r) as Ho. unfold strict in Ho.
    destruct (get_field 4 _) as [n r1]. cbn [fst snd] in *. destruct (ok r1) eqn:Hok; [|done].
    cbn [negb orb] in H. destruct (Ho _ _ eq_refl) as (Hn & Hr & Hat). cbn [rest at_] in *.
    destruct (Z.ltb_spec (size_of (unread r1)) n); [done|]. cbn [fst snd ok unread] in H.
    injection H as <- <-. unfold unsigned_dom, size_of, put_string in *. cbn [rest at_].
    rewrite length_app, length_put_le. unfold size_of. rewrite length_take.
    replace (Z.of_nat (Z.to_nat n `min` length (unread r1))) with n by lia.
    rewrite <- app_assoc, take_drop, <- Hr. split_and!; [lia|done|].
    rewrite Hr, length_app, length_put_le, length_drop. lia.
Qed.

(** As [next_field] and [fields_done] of Wire, for a failing reader. *)
Ltac next_taken part :=
  eapply (exact_taken _ _ _ _ _ _ part);
  [apply _ | apply _ | apply _ | intros ? ? | intros; unpack; done | intros; cbv beta; reflexivity].
Ltac last_taken part :=
  eapply (exact_taken _ _ _ _ _ _ part (λ _, []));
  [apply _ | apply _ | apply _ | intros ? ? | intros; unpack; done
  | intros; cbv beta; rewrite ?app_nil_r; reflexivity].
Ltac taken_done := eapply exact_proper; [apply exact_taken_ret | | by intros].

(** ** The groups *)

#[export] Instance exact_get_cpus count :
  Exact (strict (get_cpus count)) (flat_map (put_le kCpuBytes))
    (λ cpus, Forall (unsigned_dom 4) cpus ∧ length cpus = count).
Proof.
  induction count as [|count IH]; simpl.
  - eapply exact_proper; [apply exact_taken_ret| |by intros ? ->].
    intros cpus. split; [by intros ->|]. intros [_ H]. by apply nil_length_inv.
  - eapply (exact_taken _ _ _ _ _ _ (λ cpus, default 0 (head cpus))
      (λ cpus, flat_map (put_le kCpuBytes) (tail cpus))); [apply _..| | |].
    + intros a Ha. eapply (exact_taken _ _ _ _ _ _ tail (λ _, [])); [apply _..| | |].
      * intros cpus Hcpus. taken_done. intros b. rewrite u32_small by exact Ha.
        split; [intros ->; simpl; rewrite Forall_cons; naive_solver|].
        destruct b as [|c b]; simpl; intros; unpack; [done|by subst].
      * intros [|c cpus]; simpl; [naive_solver|]. rewrite Forall_cons. intros; unpack. split; [done|lia].
      * intros. by rewrite app_nil_r.
    + intros [|c cpus]; [naive_solver|]. rewrite Forall_cons. by intros [[? ?] ?].
    + intros [|c cpus]; [naive_solver|]. done.
Qed.

Lemma length_put_cpus cpus : length (flat_map (put_le kCpuBytes) cpus) = (kCpuBytes * length cpus)%nat.
Proof.
  induction cpus as [|cpu cpus IH]; [done|]. cbn [flat_map length].
  rewrite length_app, length_put_le, IH. unfold kCpuBytes. lia.
Qed.

Lemma exact_get_counted count :
  0 ≤ count →
  Exact (strict (get_counted_cpus count)) (flat_map (put_le kCpuBytes))
    (λ cpus, Forall (unsigned_dom 4) cpus ∧ size_of cpus = count).
Proof.
  intros H0. assert (Hd : ∀ cpus : list Z, length cpus = Z.to_nat count ↔ size_of cpus = count)
    by (intros; unfold size_of; lia).
  pose proof (exact_get_cpus (Z.to_nat count)) as [Hr Ho].
  assert (Hroom : ∀ (cpus : list Z) ys, size_of cpus = count →
    (room_for (Z.of_nat kCpuBytes) {| unread := flat_map (put_le kCpuBytes) cpus ++ ys; ok := true |}
      <? count) = false).
  { intros cpus ys <-. apply Z.ltb_ge. unfold room_for, size_of. cbn [unread].
    rewrite length_app, length_put_cpus. unfold kCpuBytes. apply Z.div_le_lower_bound; lia. }
  split; unfold strict, get_counted_cpus in *.
  - intros cpus r ys [Hc Hn] Hrest. rewrite Hrest, Hroom by done. rewrite <- Hrest.
    apply Hr; [|done]. by rewrite Hd.
  - intros r cpus r' H. destruct (_ <? _); [done|]. destruct (Ho _ _ _ H) as ([? ?] & ? & ?).
    by rewrite Hd in *.
Qed.

Definition duty_dom (d : SetDuty) : Prop := unsigned_dom 2 (busy_permille d) ∧ in_i64 (period_ns d).
Definition switch_dom (s : Switch) : Prop :=
  string_dom (switch_workload s) ∧ unsigned_dom 8 (switch_seed s)
  ∧ unsigned_dom 8 (switch_footprint_bytes s) ∧ unsigned_dom 4 (switch_decomposition s)
  ∧ unsigned_dom 4 (oracle_period (switch_duty s)) ∧ unsigned_dom 4 (integrity_period (switch_duty s)).
Definition cpus_dom (cpus : list Z) : Prop := Forall (unsigned_dom 4) cpus ∧ size_of cpus < 2 ^ 32.

(** Every integer of the message within its C++ type, and every length within the four
    bytes it is written in. *)
Definition command_widths (command : Command) : Prop :=
  match command with
  | SetDutyTo d => duty_dom d
  | Rebind cpus => cpus_dom cpus
  | SwitchTo s => switch_dom s
  | _ => True
  end.

Definition message_widths (m : ControlMessage) : Prop :=
  unsigned_dom 4 (message_sequence m) ∧ command_widths (command m).

Definition in_kind (kind : Z) (c : Command) : Prop :=
  command_widths c ∧ command_index c + 1 = kind.

(** The alternative a command carries, for the fields after its kind. *)
Definition duty_of (c : Command) : SetDuty :=
  match c with SetDutyTo d => d | _ => clock_duty continuous end.
Definition cpus_of (c : Command) : list Z := match c with Rebind cpus => cpus | _ => [] end.
Definition switch_of (c : Command) : Switch :=
  match c with SwitchTo s => s | _ => Build_Switch [] 0 0 0 (Build_DutyCycle 0 0) end.

Ltac of_kind := intros [| | |?|?|?]; unfold in_kind; cbn [command_index command_widths];
  unfold duty_dom, cpus_dom, switch_dom; intros; unpack; try (exfalso; lia).

Lemma exact_set_duty : Exact (strict get_set_duty) put_command (in_kind 4).
Proof.
  unfold get_set_duty.
  eapply (exact_taken _ _ _ _ _ _ (λ c, busy_permille (duty_of c))
    (λ c, put_le 8 (u64 (period_ns (duty_of c))))); [apply _..| | |].
  - intros b Hb. eapply (exact_taken _ _ _ _ _ _ (λ c, u64 (period_ns (duty_of c))) (λ _, [])); [apply _..| | |].
    + intros p Hp. taken_done. intros c. rewrite u16_small by exact Hb.
      split.
      * intros ->. unfold in_kind. cbn. unfold duty_dom. cbn. rewrite u64_i64 by done.
        split_and?; done || apply i64_range.
      * revert c. of_kind. cbn in *. destruct duty as [b' p']. cbn in *. subst. by rewrite i64_u64.
    + of_kind. apply u64_range.
    + intros. by rewrite app_nil_r.
  - by of_kind.
  - by of_kind.
Qed.

Lemma exact_rebind : Exact (strict get_rebind) put_command (in_kind 5).
Proof.
  unfold get_rebind.
  eapply (exact_taken _ _ _ _ _ _ (λ c, size_of (cpus_of c)) (λ c, flat_map (put_le kCpuBytes) (cpus_of c)));
    [apply _..| | |].
  - intros n Hn. eapply (exact_taken _ _ _ _ _ _ cpus_of (λ _, [])); [|apply _..| | |].
    + apply exact_get_counted. by destruct Hn.
    + intros cpus [Hc <-]. taken_done. intros c. split.
      * intros ->. unfold in_kind, cpus_dom. cbn. destruct Hn. unfold cpus_dom. by split_and!.
      * revert c. of_kind. cbn in *. by subst.
    + by of_kind.
    + intros. by rewrite app_nil_r.
  - of_kind. split; [unfold size_of; lia|done].
  - by of_kind.
Qed.

Definition put_switch (s : Switch) : list byte :=
  put_string (switch_workload s) ++ put_le 8 (switch_seed s)
  ++ put_le 8 (switch_footprint_bytes s) ++ put_le 4 (switch_decomposition s)
  ++ put_le 4 (oracle_period (switch_duty s)) ++ put_le 4 (integrity_period (switch_duty s)).

Lemma exact_switch : Exact (strict get_switch) put_command (in_kind 6).
Proof.
  eapply (exact_proper _ (λ c, put_switch (switch_of c)) _
    (λ c, switch_dom (switch_of c) ∧ ∃ s, c = SwitchTo s)); [| |intros ? [_ [? ->]]; done].
  2: { intros c. split; [by intros [? [? ->]]|]. revert c. of_kind. split; [done|by eexists]. }
  unfold switch_dom.
  unfold get_switch, put_switch.
  next_taken (λ c, switch_workload (switch_of c)).
  next_taken (λ c, switch_seed (switch_of c)).
  next_taken (λ c, switch_footprint_bytes (switch_of c)).
  next_taken (λ c, switch_decomposition (switch_of c)).
  next_taken (λ c, oracle_period (switch_duty (switch_of c))).
  last_taken (λ c, integrity_period (switch_duty (switch_of c))).
  taken_done. intros c. cbv beta. rewrite !u32_small by done. split.
  - intros ->. simpl. unpack. split_and?; done || by eexists.
  - intros; unpack. subst. by destruct x as [? ? ? ? []].
Qed.

Lemma exact_bare kind c :
  command_index c + 1 = kind → kind ≤ 3 → Exact (strict (take_ret c)) put_command (in_kind kind).
Proof.
  intros Hc Hk. eapply exact_proper; [apply exact_taken_ret| |].
  - intros c'. split; [intros ->; by destruct c; simpl in *; lia || split|].
    intros [_ H]. destruct c, c'; simpl in *; done || lia.
  - intros c' ->. destruct c; simpl in *; done || lia.
Qed.

Lemma exact_command kind : 1 ≤ kind ≤ 6 → Exact (strict (read_command kind)) put_command (in_kind kind).
Proof.
  intros Hk. unfold read_command.
  repeat (match goal with |- context [?a =? ?b] => destruct (Z.eqb_spec a b) as [->|] end;
    [try (by apply exact_bare); first [exact exact_set_duty | exact exact_rebind]|]).
  assert (kind = 6) as -> by lia. apply exact_switch.
Qed.

Lemma exact_message kind :
  1 ≤ kind ≤ 6 →
  Exact (strict (get_message kind))
    (λ m, put_le 4 (message_sequence m) ++ put_command (command m))
    (λ m, message_widths m ∧ command_index (command m) + 1 = kind).
Proof.
  intros Hk. unfold get_message, message_widths. next_taken message_sequence.
  eapply (exact_taken _ _ _ _ _ _ command (λ _, [])); [by apply exact_command|apply _..| | |].
  - intros c [Hc1 Hc2]. taken_done. intros m. cbv beta. rewrite u32_small by done. split.
    + intros ->. by split_and!.
    + intros; unpack. destruct m. simpl in *. by subst.
  - intros m. unfold in_kind. by intros [[[? ?] ?] ?].
  - intros. by rewrite app_nil_r.
Qed.

Lemma exact_ack :
  Exact (strict get_ack)
    (λ a, put_le 4 (ack_sequence a) ++ put_le 1 (ack_status a) ++ put_string (ack_detail a))
    (λ a, unsigned_dom 4 (ack_sequence a) ∧ unsigned_dom 1 (ack_status a) ∧ string_dom (ack_detail a)).
Proof.
  unfold get_ack. next_taken ack_sequence. next_taken ack_status. last_taken ack_detail.
  taken_done. intros x. cbv beta. rewrite u32_small, u8_small by done. split.
  - intros ->. simpl. by split_and?.
  - intros; unpack. destruct x. simpl in *. by subst.
Qed.

(** ** The decoders *)

(** What a decoder's header, fields and end come to: the bytes are the header and
    exactly what the fields' writer writes. *)
Lemma fields_end {A} (g : Take A) put dom bytes a :
  Exact (strict g) put dom →
  (check_end (g {| unread := bytes; ok := true |}).2 = Value tt ∧
   (g {| unread := bytes; ok := true |}).1 = a) ↔ dom a ∧ bytes = put a.
Proof.
  intros Hx. unfold check_end. split.
  - intros [H <-]. pose proof (exact_only (Exact := Hx) {| rest := bytes; at_ := 0 |}) as Ho.
    unfold strict in Ho. cbn [rest at_] in Ho. destruct (g _) as [b r]. cbn [fst snd] in *.
    destruct (ok r); [|done]. case_bool_decide as Hn; [|done].
    destruct (Ho _ _ eq_refl) as (? & Hb & _). cbn [rest] in Hb. by rewrite Hn, app_nil_r in Hb.
  - intros [Hd ->]. pose proof (exact_read (Exact := Hx) a {| rest := put a; at_ := 0 |} []) as Hr.
    rewrite app_nil_r in Hr. specialize (Hr Hd eq_refl). unfold strict in Hr. cbn [rest at_] in Hr.
    destruct (g _) as [b r]. cbn [fst snd] in *. destruct (ok r); [|done].
    injection Hr as -> Hn _. by rewrite Hn.
Qed.

Lemma check_header_value bytes :
  check_header bytes = Value tt ↔
  ∃ kind body, bytes = byte_of kControlFormatVersion :: kind :: body.
Proof.
  unfold check_header. destruct bytes as [|v [|k body]].
  - split; [done|naive_solver].
  - destruct (negb _); (split; [done|naive_solver]).
  - destruct (Z.eqb_spec (byte_val v) kControlFormatVersion) as [Hv|Hv]; cbn [negb].
    + split; [|done]. intros _. exists k, body. rewrite <- Hv. by rewrite byte_of_val.
    + split; [done|]. intros (k' & body' & [= -> -> ->]). by rewrite byte_val_of_small in Hv.
Qed.

(** ** The square wave *)

Definition duty_ok (duty : SetDuty) : Prop :=
  is_valid_message {| message_sequence := 0; command := SetDutyTo duty |} = true ∧
  in_i64 (period_ns duty).

Lemma duty_ok_bounds duty :
  duty_ok duty → 1 ≤ busy_permille duty ≤ 1000 ∧ 0 < period_ns duty < 2 ^ 63.
Proof.
  intros [Hv Hp]. unfold is_valid_message in Hv. cbn [command] in Hv. bool_facts.
  unfold in_i64 in Hp. lia.
Qed.

(** The share of the period in 64 bits is the share: neither product passes the period. *)
Lemma busy_ns_exact duty :
  duty_ok duty →
  busy_ns duty = period_ns duty * busy_permille duty / 1000 ∧ 0 ≤ busy_ns duty ≤ period_ns duty.
Proof.
  intros [Hm Hp]%duty_ok_bounds. unfold busy_ns. cbv zeta.
  set (p := period_ns duty) in *. set (m := busy_permille duty) in *.
  rewrite (u64_small p) by (unfold in_u64; lia).
  set (q := p / 1000). set (r := p mod 1000).
  assert (Hpq : p = 1000 * q + r) by (apply Z.div_mod; lia).
  assert (Hr : 0 ≤ r < 1000) by (apply Z.mod_pos_bound; lia).
  assert (Hq : 0 ≤ q) by lia.
  assert (Hqm : 0 ≤ q * m ≤ 1000 * q) by nia.
  assert (Hrm : 0 ≤ r * m / 1000 ≤ r)
    by (split; [apply Z.div_pos; nia|apply Z.div_le_upper_bound; nia]).
  rewrite (u64_small (q * m)), (u64_small (r * m)) by (unfold in_u64; nia).
  rewrite u64_small, i64_small by (unfold in_u64, in_i64; lia).
  split; [|lia]. replace (p * m) with (r * m + q * m * 1000) by lia. rewrite Z.div_add by lia. lia.
Qed.

(** How far into its period the wave is. *)
Definition into_wave (duty : SetDuty) (epoch now : Z) : Z := (now - epoch) mod period_ns duty.

Lemma duty_at_in_wave duty epoch now :
  duty_ok duty → 0 ≤ epoch ≤ now → now < 2 ^ 63 →
  let into := into_wave duty epoch now in
  0 ≤ into < period_ns duty ∧
  duty_at (duty_set duty epoch) now =
    {| busy := into <? busy_ns duty;
       remaining_ns := if into <? busy_ns duty then busy_ns duty - into else period_ns duty - into |}.
Proof.
  intros Hd Hn Hlt. cbv zeta. unfold into_wave, duty_at. cbn [clock_duty epoch_ns duty_set].
  pose proof (proj2 (busy_ns_exact duty Hd)). destruct (duty_ok_bounds duty Hd) as [_ Hp].
  pose proof (Z.mod_pos_bound (now - epoch) (period_ns duty) ltac:(lia)).
  split; [done|]. rewrite (i64_small (now - epoch)) by (unfold in_i64; lia).
  rewrite Z.max_l, Z.rem_mod_nonneg by lia.
  destruct (Z.ltb_spec ((now - epoch) mod period_ns duty) (busy_ns duty));
    rewrite i64_small by (unfold in_i64; lia); done.
Qed.

(** Moving on within the period. *)
Lemma into_wave_later duty epoch now later :
  0 < period_ns duty → now ≤ later → into_wave duty epoch now + (later - now) < period_ns duty →
  into_wave duty epoch later = into_wave duty epoch now + (later - now).
Proof.
  unfold into_wave. intros Hp Hle Hlt.
  pose proof (Z.mod_pos_bound (now - epoch) (period_ns duty) Hp).
  replace (later - epoch) with (now - epoch + (later - now)) by lia.
  rewrite <- Z.add_mod_idemp_l by lia. apply Z.mod_small. lia.
Qed.

Lemma into_wave_wraps duty epoch now :
  0 < period_ns duty →
  into_wave duty epoch (now + (period_ns duty - into_wave duty epoch now)) = 0.
Proof.
  unfold into_wave. intros Hp.
  replace (now + (period_ns duty - (now - epoch) mod period_ns duty) - epoch)
    with (now - epoch + (period_ns duty - (now - epoch) mod period_ns duty)) by lia.
  rewrite <- Z.add_mod_idemp_l by lia.
  replace ((now - epoch) mod period_ns duty + (period_ns duty - (now - epoch) mod period_ns duty))
    with (period_ns duty) by lia.
  apply Z.mod_same. lia.
Qed.

Lemma decode_encode_message m :
  message_widths m → is_valid_message m = true → decode_message (encode_message m) = Value m.
Proof.
  intros Hw Hv.
  assert (Hindex : 1 ≤ command_index (command m) + 1 ≤ 6) by (destruct (command m); simpl; lia).
  unfold decode_message. rewrite rbind_value. exists tt.
  split; [apply check_header_value; by eexists _, _|].
  unfold kind_byte, encode_message. cbn [lookup list_lookup from_option drop app].
  rewrite byte_val_of_small by lia. unfold kCommands.
  rewrite (proj2 (Z.ltb_ge _ 1)), (proj2 (Z.ltb_ge 6 _)) by lia. cbn [orb].
  destruct (proj2 (fields_end (get_message (command_index (command m) + 1)) _ _ _ m
    (exact_message _ Hindex)) (conj (conj Hw eq_refl) eq_refl)) as [Hend Hm].
  destruct (get_message _ _) as [m' r]. cbn [fst snd] in *. subst m'.
  by rewrite Hend, Hv.
Qed.

(** ** Theorems *)

(** Decode_message accepts exactly the bytes encode writes for the valid messages,
    and gives each back: every valid order, whatever its fields, is read back as itself,
    and bytes that are accepted are the encoding of what they are read as. *)
Theorem control_message_codec bytes m :
  decode_message bytes = Value m ↔
  message_widths m ∧ is_valid_message m = true ∧ bytes = encode_message m.
Proof.
  unfold decode_message. rewrite rbind_value. split.
  - intros ([] & (kind & body & ->)%check_header_value & H). unfold kind_byte in H.
    cbn [lookup list_lookup from_option drop] in H. rewrite drop_0 in H.
    destruct (_ || _) eqn:Hk; [done|]. bool_facts. unfold kCommands in *.
    pose proof (fields_end (get_message (byte_val kind)) _ _ body m (exact_message (byte_val kind) ltac:(lia))) as Hf.
    destruct (get_message _ _) as [m' r]. cbn [fst snd] in Hf.
    apply rbind_value in H as ([] & Hend & H). destruct (is_valid_message m') eqn:Hv; [|done].
    injection H as ->. destruct (proj1 Hf (conj Hend eq_refl)) as ([Hw Hi] & ->).
    split_and!; [done|done|]. unfold encode_message. by rewrite Hi, byte_of_val.
  - intros (Hw & Hv & ->). rewrite <- rbind_value. by apply decode_encode_message.
Qed.

(** Decode_ack accepts exactly the bytes encode writes for the valid
    acknowledgements, and gives each back. *)
Theorem control_ack_codec bytes a :
  decode_ack bytes = Value a ↔
  unsigned_dom 4 (ack_sequence a) ∧ unsigned_dom 1 (ack_status a) ∧ is_valid_ack a = true ∧
  bytes = encode_ack a.
Proof.
  pose proof (fields_end get_ack _ _ (drop 2 bytes) a exact_ack) as Hf.
  unfold decode_ack. rewrite rbind_value. split.
  - intros ([] & (kind & body & ->)%check_header_value & H). unfold kind_byte in H.
    cbn [lookup list_lookup from_option drop] in *. rewrite drop_0 in *.
    destruct (byte_val kind =? kAckKind) eqn:Hk; [|done]. cbn [negb] in H. bool_facts.
    destruct (get_ack _) as [a' r]. cbn [fst snd] in Hf.
    apply rbind_value in H as ([] & Hend & H). destruct (is_valid_ack a') eqn:Hv; [|done].
    injection H as ->. destruct (proj1 Hf (conj Hend eq_refl)) as ((? & ? & ?) & ->).
    split_and!; [done..|]. unfold encode_ack. by rewrite <- Hk, byte_of_val.
  - intros (? & ? & Hv & ->). exists tt. split; [apply check_header_value; by eexists _, _|].
    unfold kind_byte, encode_ack in *. cbn [lookup list_lookup from_option drop app] in *.
    rewrite byte_val_of_small by done. change (kAckKind =? kAckKind) with true. cbn [negb].
    assert (Hs : string_dom (ack_detail a)).
    { unfold is_valid_ack in Hv. bool_facts. unfold string_dom, kMaxTextBytes in *. lia. }
    destruct (proj2 Hf) as [Hend Ha]; [by split_and!|].
    destruct (get_ack _) as [a' r]. cbn [fst snd] in *. subst a'. by rewrite Hend, Hv.
Qed.

(** The worker's square wave: [busy_ns] is the duty's share of its period, and at
    every instant of it - from the wave's start, to the end of the clock - the time said
    to remain is positive, the worker's state is unchanged for all of it, and when it has
    passed a wave that is neither continuous nor too short to run has changed state. *)
Theorem duty_wave duty epoch now later :
  duty_ok duty → 0 ≤ epoch ≤ now → now ≤ later < 2 ^ 63 →
  let here := duty_at (duty_set duty epoch) now in
  busy_ns duty = period_ns duty * busy_permille duty / 1000 ∧ 0 < remaining_ns here ∧
  (later < now + remaining_ns here → busy (duty_at (duty_set duty epoch) later) = busy here) ∧
  (later = now + remaining_ns here → 0 < busy_ns duty < period_ns duty →
     busy (duty_at (duty_set duty epoch) later) = negb (busy here)).
Proof.
  intros Hd Hn Hl. cbv zeta. destruct (busy_ns_exact duty Hd) as [Hb Hbp].
  destruct (duty_at_in_wave duty epoch now Hd Hn ltac:(lia)) as [Hi ->].
  destruct (duty_at_in_wave duty epoch later Hd ltac:(lia) ltac:(lia)) as [_ ->].
  destruct (duty_ok_bounds duty Hd) as [_ Hp]. cbn [busy remaining_ns].
  pose proof (into_wave_later duty epoch now later ltac:(lia) ltac:(lia)) as Hlater.
  destruct (Z.ltb_spec (into_wave duty epoch now) (busy_ns duty)) as [Hlt|Hge].
  - split_and!; [done|lia|..].
    + intros H. rewrite Hlater by lia. apply Z.ltb_lt. lia.
    + intros H ?. rewrite Hlater by lia. apply Z.ltb_ge. lia.
  - split_and!; [done|lia|..].
    + intros H. rewrite Hlater by lia. apply Z.ltb_ge. lia.
    + intros -> ?. rewrite into_wave_wraps by lia. apply Z.ltb_lt. lia.
Qed.

Lemma duty_wave_witness :
  let duty := {| busy_permille := 250; period_ns := 1000000000 |} in
  let wave := duty_set duty 40 in
  duty_at wave 1100000040 = {| busy := true; remaining_ns := 150000000 |} ∧
  busy (duty_at wave 1250000040) = negb (busy (duty_at wave 1100000040)).
Proof.
  intros duty wave.
  assert (Hd : duty_ok duty) by (split; [vm_compute; reflexivity|unfold in_i64; simpl; lia]).
  split; [vm_compute; reflexivity|].
  apply (duty_wave duty 40 1100000040 1250000040 Hd); vm_compute; split; congruence.
Defined.

Example rebind_read :
  decode_message (encode_message {| message_sequence := 7; command := Rebind [0; 3; 12] |})
  = Value {| message_sequence := 7; command := Rebind [0; 3; 12] |}.
Proof. vm_compute. reflexivity. Qed.
