(* ===== verification/Scheduler.v ===== *)
(** * The worker's loop

    worker/control_channel.cpp (reading orders and answering them), worker/scheduler.cpp
    (watching the controller, and the null workload: the loop every workload is) over
    the channels of IpcRecord, the orders of Control and the heartbeats of Heartbeat. *)

From S2P Require Export IpcRecord Heartbeat Control.

(** ** scheduler.hpp *)

Record Pacing := { duration_ns : Z; interval_ns : Z; stale_after_ns : Z }.

Definition kIntMax : Z := 2147483647.

Definition interval_milliseconds (interval_ns : Z) : Z :=
  Z.max 1 (Z.min (Z.quot interval_ns 1000000) kIntMax).

Inductive StopReason :=
| kDurationElapsed
| kStopRequested
| kControllerHungUp
| kControllerStale
| kControllerUnreadable
| kControlChannelBroken
| kRunnerStopped.

#[export] Instance StopReason_eq_dec : EqDecision StopReason.
Proof. solve_decision. Defined.

Definition describe_stop_reason (reason : StopReason) : text :=
  match reason with
  | kDurationElapsed => lit "the duration elapsed"
  | kStopRequested => lit "the controller asked for a stop"
  | kControllerHungUp => lit "the controller's control pipe hung up"
  | kControllerStale => lit "the controller's heartbeat went stale"
  | kControllerUnreadable => lit "the controller's heartbeat could not be read"
  | kControlChannelBroken => lit "the controller's control pipe carried something that is not a message"
  | kRunnerStopped => lit "the verification runner stopped the run"
  end.

Definition controller_lost (reason : StopReason) : bool :=
  match reason with
  | kControllerHungUp | kControllerStale | kControllerUnreadable | kControlChannelBroken => true
  | _ => false
  end.

Record Outcome := { outcome_reason : StopReason; outcome_progress : Z; outcome_elapsed_ns : Z }.

Record WorkerError := { stage : text; worker_detail : text }.

Definition describe_worker_error (error : WorkerError) : text :=
  stage error ++ lit ": " ++ worker_detail error.

Definition error_at {A} (stage_ : text) (detail : text) : Result A WorkerError :=
  Error {| stage := stage_; worker_detail := detail |}.

(** What a worker is attached to: its slot, the descriptors of its control pipe and of
    its record pipe, and its pacing. *)
Record Session := { session_slot : Z; control_fd : Z; record_fd : Z; pacing : Pacing }.

Record Readiness := { readable : bool; hung_up : bool; poll_error : bool; invalid : bool }.

(** The calls of the loop that are not on a pipe: the clocks, poll(2) on one
    descriptor, and the heartbeat region's two operations (Heartbeat). *)
Class WorkerCalls (K : Type) := {
  read_clock : Z → K → Result TimeSpec SyscallError * K;
  process_id : K → Z;
  poll_readable : Z → Z → K → Result Readiness SyscallError * K;
  region_publish : Z → Heartbeat → K → Result unit RegionError * K;
  region_observe : Z → K → Result (option Heartbeat) RegionError * K;
}.

Definition kControllerSlot : Z := 0.
Definition worker_slot (worker : Z) : Z := worker + 1.
Definition kControlFrameType : Z := 32.
Definition kControlAckFrameType : Z := 33.
Definition EPIPE : Z := 32.
Definition kPhaseRunning : Z := 1.

(** [session_->region->observe] judged: the reason to leave, and the new
    [last_read_ns_]. *)
Definition judge_controller (stale_after last_read : Z) (now : TimePoint) (elapsed : Z)
    (observed : Result (option Heartbeat) RegionError) : option StopReason * Z :=
  match observed with
  | Error _ =>
    (if stale_after <? i64 (running_ns now - last_read) then Some kControllerUnreadable else None, last_read)
  | Value beat =>
    let live := liveness beat (running_ns now) stale_after in
    (if bool_decide (live = kStale) || (bool_decide (live = kNeverBeat) && (stale_after <? elapsed))
     then Some kControllerStale else None, running_ns now)
  end.

Record ControlLook := { messages : list ControlMessage; lost : option StopReason }.

(** What sending one frame came to. *)
Inductive Delivery := Sent | ControllerGone | SendFailure (error : WorkerError).

(** The loop of look over the drained records: the messages before the first record that
    is not one, and whether there is such a record. *)
Fixpoint control_messages (records : list IpcRecord) : list ControlMessage * bool :=
  match records with
  | [] => ([], false)
  | record :: records =>
    if negb (rec_type record =? kControlFrameType) then ([], true) else
    match decode_message (rec_payload record) with
    | Error _ => ([], true)
    | Value message => let (more, broken) := control_messages records in (message :: more, broken)
    end
  end.

Definition lost_after (d : Drained) : option StopReason :=
  match drained_fault d with
  | Some frame => Some (if bool_decide (fault_ frame = kTruncated) then kControllerHungUp
                        else kControlChannelBroken)
  | None => if end_of_stream d then Some kControllerHungUp else None
  end.

Definition nothing_to (command : Command) : text :=
  lit "the null workload runs no slices: " ++ command_name command.

Definition is_stop (command : Command) : bool := match command with Stop => true | _ => false end.

Section Loop.
Context {K : Type} `{ChannelCalls K} `{WorkerCalls K} (strerror : Z → text) (session : Session).

Definition watch_gone (last_read : Z) (now : TimePoint) (elapsed : Z) (s : K) :
    option StopReason * Z * K :=
  let (observed, s) := region_observe kControllerSlot s in
  (judge_controller (stale_after_ns (pacing session)) last_read now elapsed observed, s).

Definition deliver (type : Z) (bytes : list byte) (s : K) : option (Delivery * K) :=
  '(written, s) ← send (record_fd session) type bytes s;
  Some (match written with
        | Value _ => Sent
        | Error e =>
          if (match e with InCall cause => number_ cause | InFrame _ => 0 end) =? EPIPE
          then ControllerGone
          else SendFailure {| stage := lit "record channel"; worker_detail := describe_channel_error strerror e |}
        end, s).

Definition look (wait_ms : Z) (src : RecordSource) (s : K) :
    Result ControlLook WorkerError * RecordSource * K :=
  let (ready, s) := poll_readable (control_fd session) wait_ms s in
  match ready with
  | Error e => (error_at (lit "control pipe") (describe_syscall_error strerror e), src, s)
  | Value control =>
    if negb (readable control) then
      (Value {| messages := [];
                lost := if hung_up control || poll_error control || invalid control
                        then Some kControllerHungUp else None |}, src, s)
    else
      let '(drained, src, s) := drain (control_fd session) src s in
      (match drained with
       | Error e => error_at (lit "control pipe") (describe_channel_error strerror e)
       | Value d =>
         let (found, broken) := control_messages (drained_records d) in
         Value {| messages := found;
                  lost := if broken then Some kControlChannelBroken else lost_after d |}
       end, src, s)
  end.

Definition ack_for (sequence status : Z) (detail : text) : ControlAck :=
  {| ack_sequence := sequence; ack_status := status;
     ack_detail := if kMaxTextBytes <? size_of detail then take (Z.to_nat kMaxTextBytes) detail else detail |}.

Definition answer (sequence status : Z) (detail : text) (s : K) : option (Delivery * K) :=
  deliver kControlAckFrameType (encode_ack (ack_for sequence status detail)) s.

Fixpoint answer_all (found : list ControlMessage) (s : K) :
    option (Result (option StopReason) WorkerError * K) :=
  match found with
  | [] => Some (Value None, s)
  | message :: found =>
    let stop := is_stop (command message) in
    let reason := if stop then [] else nothing_to (command message) in
    '(sent, s) ← answer (message_sequence message) (if stop then kDone else kRefused) reason s;
    match sent with
    | SendFailure error => Some (Error error, s)
    | ControllerGone => Some (Value (Some kControllerHungUp), s)
    | Sent => if stop then Some (Value (Some kStopRequested), s) else answer_all found s
    end
  end.

(** How one turn of the loop ends. *)
Inductive Turn := Leave (result : Result Outcome WorkerError) | Again (last_read : Z) (src : RecordSource).

Definition leave (reason : StopReason) (progress elapsed : Z) : Turn :=
  Leave (Value {| outcome_reason := reason; outcome_progress := progress; outcome_elapsed_ns := elapsed |}).

(** From the look on: the answers, then the reasons to leave they and the pipe give. *)
Definition null_answers (progress elapsed last_read : Z) (src : RecordSource) (s : K) :
    option (Turn * K) :=
  let '(looked, src, s) := look (interval_milliseconds (interval_ns (pacing session))) src s in
  match looked with
  | Error e => Some (Leave (Error e), s)
  | Value found =>
    '(answered, s) ← answer_all (messages found) s;
    Some (match answered with
          | Error e => Leave (Error e)
          | Value (Some leaving) => leave leaving progress elapsed
          | Value None =>
            match lost found with
            | Some reason => leave reason progress elapsed
            | None => Again last_read src
            end
          end, s)
  end.

Definition null_turn (started : TimePoint) (pid progress last_read : Z) (src : RecordSource) (s : K) :
    option (Turn * K) :=
  let (now, s) := clock_now read_clock s in
  match now with
  | Error e => Some (Leave (error_at (lit "clock") (describe_syscall_error strerror e)), s)
  | Value now =>
    match Platform.between started now with
    | Error e => Some (Leave (error_at (lit "clock") (describe_syscall_error strerror e)), s)
    | Value elapsed =>
      let elapsed := elapsed_raw_ns elapsed in
      let beat := {| timestamp_ns := running_ns now; progress := progress;
                     beat_phase := kPhaseRunning; pid := pid |} in
      let (published, s) := region_publish (worker_slot (session_slot session)) beat s in
      match published with
      | Error e => Some (Leave (error_at (lit "heartbeat") (describe_region_error strerror e)), s)
      | Value _ =>
        if duration_ns (pacing session) <=? elapsed
        then Some (leave kDurationElapsed progress elapsed, s) else
        let '(gone, last_read, s) := watch_gone last_read now elapsed s in
        match gone with
        | Some reason => Some (leave reason progress elapsed, s)
        | None => null_answers progress elapsed last_read src s
        end
      end
    end
  end.

(** [while (true)], with fuel: [None] is the loop not done within it. *)
Fixpoint null_loop (fuel : nat) (started : TimePoint) (pid progress last_read : Z)
    (src : RecordSource) (s : K) : option (Result Outcome WorkerError * K) :=
  match fuel with
  | O => None
  | S fuel =>
    '(turn, s) ← null_turn started pid progress last_read src s;
    match turn with
    | Leave result => Some (result, s)
    | Again last_read src => null_loop fuel started pid (u64 (progress + 1)) last_read src s
    end
  end.

Definition null_run (fuel : nat) (s : K) : option (Result Outcome WorkerError * K) :=
  let (started, s) := clock_now read_clock s in
  match started with
  | Error e => Some (error_at (lit "clock") (describe_syscall_error strerror e), s)
  | Value started =>
    null_loop fuel started (u32 (process_id s)) 0 (running_ns started)
      {| source_reader := reading []; source_ended := false |} s
  end.
End Loop.

(** ** What the channel promises the loop *)

(** poll(2) takes nothing from the control pipe. *)
Class PollLaws (K : Type) (fd : Z) `{ChannelLaws K fd} `{WorkerCalls K} := {
  poll_takes w s r s' : poll_readable fd w s = (r, s') → taken (fd:=fd) s' = taken (fd:=fd) s;
}.

Definition order_record (m : ControlMessage) : IpcRecord :=
  {| rec_type := kControlFrameType; rec_payload := encode_message m |}.

(** The bytes the controller writes for a message. *)
Definition order_frame (m : ControlMessage) : list byte := frame_of (order_record m).

(** A message the controller may send: valid, and no longer than a frame carries. *)
Record order_ok (m : ControlMessage) : Prop := {
  order_widths : message_widths m;
  order_valid : is_valid_message m = true;
  order_fits : size_of (encode_message m) ≤ kMaxPayloadBytes;
}.

Lemma order_record_ok m : order_ok m → rec_ok (order_record m).
Proof. intros []. by split. Qed.

Lemma control_messages_orders ms :
  Forall order_ok ms → control_messages (order_record <$> ms) = (ms, false).
Proof.
  induction 1 as [|m ms [Hw Hv _] _ IH]; [done|]. cbn [fmap list_fmap control_messages order_record rec_type rec_payload].
  rewrite Z.eqb_refl. cbn [negb]. by rewrite (decode_encode_message m Hw Hv), IH.
Qed.

Definition found_in (out : Result ControlLook WorkerError) : list ControlMessage :=
  match out with Value l => messages l | Error _ => [] end.

Definition not_broken (out : Result ControlLook WorkerError) : Prop :=
  match out with Value l => lost l ≠ Some kControlChannelBroken | Error _ => True end.

Section Looks.
Context {K : Type} (session : Session) `{PollLaws K (control_fd session)} (strerror : Z → text).

(** Any number of looks, each with its wait. *)
Fixpoint looks (waits : list Z) (src : RecordSource) (s : K) :
    list (Result ControlLook WorkerError) * RecordSource * K :=
  match waits with
  | [] => ([], src, s)
  | w :: waits =>
    let '(out, src, s) := look strerror session w src s in
    let '(outs, src, s) := looks waits src s in (out :: outs, src, s)
  end.

Lemma drain_takes src s out src' s' :
  drain (control_fd session) src s = (out, src', s') →
  taken (fd:=control_fd session) s `prefix_of` taken (fd:=control_fd session) s'.
Proof.
  unfold drain. destruct (source_ended src); [by intros [= <- <- <-]|].
  destruct (faulted _); [destruct (finish _) as [f r]; by intros [= <- <- <-]|].
  destruct (read_chunk _ 127 s) as [[chunk|e] s1] eqn:E;
    apply (read_chunk_taken (control_fd session)) in E; [destruct chunk as [|c chunk]|]; intros Heq;
    repeat match type of Heq with context [let '(_, _) := ?x in _] => destruct x as [? ?] end;
    injection Heq as <- <- <-; rewrite E; by apply prefix_app_r.
Qed.

Lemma next_fault r e r' : next r = (Error e, r') → reader_fault r' = Some e.
Proof.
  unfold next, set_fault. destruct (reader_fault r) eqn:E; [congruence|]. cbv zeta.
  repeat (destruct (_ <? _)%nat || destruct (_ <? _) || destruct (negb _); try done);
    by intros [= -> <-].
Qed.

Lemma next_all_fault fuel r records e r' :
  next_all fuel r = (records, Some e, r') → reader_fault r' = Some e.
Proof.
  revert r records r'. induction fuel as [|fuel IH]; intros r records r'; cbn [next_all];
    destruct (next r) as [[[record|]|e'] r1] eqn:E; try done;
    try (intros [= <- -> <-]; by eapply next_fault).
  destruct (next_all fuel r1) as [[more f] r2] eqn:E2. intros [= <- -> <-]. by eapply IH.
Qed.

(** What a drain reports is the fault its source keeps. *)
Lemma drain_fault (fd : Z) src (s : K) d src' s' e :
  drain fd src s = (Value d, src', s') → drained_fault d = Some e →
  reader_fault (source_reader src') = Some e.
Proof.
  unfold drain. destruct (source_ended src); [by intros [= <- <- <-]|].
  assert (Hfin : ∀ r, match (finish r).1 with Error e => Some e | Value _ => None end = Some e →
                      reader_fault (finish r).2 = Some e).
  { intros r. unfold finish. destruct (reader_fault r) as [f|] eqn:Ef; [simpl; congruence|].
    destruct (buffer_ r); [done|]. done. }
  destruct (faulted _).
  { specialize (Hfin (source_reader src)). destruct (finish _) as [f r].
    intros [= <- <- <-]. cbn [drained_fault source_reader] in *. done. }
  destruct (read_chunk _ 127 s) as [[[|c chunk]|e'] s1]; [|..|done].
  - specialize (Hfin (source_reader src)). destruct (finish _) as [f r].
    intros [= <- <- <-]. cbn [drained_fault source_reader] in *. done.
  - destruct (next_all _ _) as [[records fault] r] eqn:En. intros [= <- <- <-]. cbn [drained_fault source_reader].
    intros ->. by eapply next_all_fault.
Qed.

Lemma source_inv_taken (fd : Z) `{ChannelLaws K fd} records src s s' :
  taken (fd:=fd) s' = taken (fd:=fd) s → source_inv fd records src s → source_inv fd records src s'.
Proof. unfold source_inv. by intros ->. Qed.

(** Bytes that begin a stream of orders: the records complete in them are orders, and
    the only fault a source can have met is the stream's end inside one. *)
Lemma source_inv_orders ms records src s :
  Forall order_ok ms → taken (fd:=control_fd session) s `prefix_of` (ms ≫= order_frame) →
  source_inv (control_fd session) records src s →
  (∃ m, records = order_record <$> whole_prefix order_frame m ms ∧
        taken (fd:=control_fd session) s = take m (ms ≫= order_frame)) ∧
  ∀ e, reader_fault (source_reader src) = Some e → fault_ e = kTruncated.
Proof.
  intros Hms [tail Htail] (fault & r & Hr & Hi).
  assert (Hpre : taken (fd:=control_fd session) s
                 = take (length (taken (fd:=control_fd session) s)) (ms ≫= order_frame))
    by (rewrite Htail; by rewrite take_app_length).
  set (m := length _) in Hpre. rewrite Hpre in Hr.
  assert (Hst : ms ≫= order_frame = (order_record <$> ms) ≫= frame_of)
    by (by rewrite list_fmap_bind).
  rewrite Hst, reads_all_stream in Hr
    by (rewrite Forall_fmap; eapply Forall_impl; [exact Hms|apply order_record_ok]).
  injection Hr as <- <- <-. split.
  - exists m. split; [apply (whole_prefix_fmap order_record frame_of)|done].
  - intros e. intros He. rewrite He in Hi. by destruct Hi as [?|(_ & _ & ? & _)].
Qed.

Lemma look_orders ms found wait src s out src' s' :
  Forall order_ok ms → taken (fd:=control_fd session) s' `prefix_of` (ms ≫= order_frame) →
  source_inv (control_fd session) (order_record <$> found) src s →
  look strerror session wait src s = (out, src', s') →
  source_inv (control_fd session) (order_record <$> (found ++ found_in out)) src' s' ∧
  not_broken out ∧ Forall order_ok (found_in out).
Proof.
  intros Hms Hpre Hi. unfold look. destruct (poll_readable _ wait s) as [ready s1] eqn:Ep.
  apply (poll_takes (fd := control_fd session)) in Ep.
  assert (Hsame : source_inv (control_fd session) (order_record <$> (found ++ [])) src s1)
    by (rewrite app_nil_r; by eapply source_inv_taken).
  destruct ready as [control|e]; [|intros [= <- <- <-]; by split_and!].
  destruct (readable control) eqn:Erd; cbn [negb].
  2: { intros [= <- <- <-]. cbn [not_broken lost found_in messages].
       split_and!; [done|by destruct (_ || _)|done]. }
  destruct (drain _ src s1) as [[drained src2] s2] eqn:Ed.
  pose proof (drain_inv (control_fd session) _ _ _ _ _ _ Hsame Ed) as Hd.
  rewrite app_nil_r in Hd. intros Heq.
  assert (src2 = src' ∧ s2 = s') as [-> ->] by (destruct drained; by injection Heq).
  destruct (source_inv_orders ms _ _ _ Hms Hpre Hd) as [(m & Hrec & _) Hfault].
  destruct drained as [d|e]; [|injection Heq as <-; cbn [records_in found_in] in *;
    rewrite !app_nil_r in *; by split_and!].
  cbn [records_in] in *. symmetry in Hrec.
  apply fmap_app_inv in Hrec as (p1 & p2 & _ & Hp2 & Hp).
  assert (Hok : Forall order_ok p2).
  { destruct (whole_prefix_prefix order_frame m ms) as [q Hq]. rewrite Hq, Hp, !Forall_app in Hms. tauto. }
  rewrite Hp2, control_messages_orders in Heq by done. injection Heq as <-. cbn [found_in messages not_broken lost].
  split_and!; [by rewrite fmap_app, <- Hp2| |done].
  unfold lost_after. destruct (drained_fault d) as [e|] eqn:Ef; [|by destruct (end_of_stream d)].
  rewrite bool_decide_true; [done|]. apply Hfault. by eapply drain_fault.
Qed.

Lemma look_takes wait src s out src' s' :
  look strerror session wait src s = (out, src', s') →
  taken (fd:=control_fd session) s `prefix_of` taken (fd:=control_fd session) s'.
Proof.
  unfold look. destruct (poll_readable _ wait s) as [ready s1] eqn:Ep.
  apply (poll_takes (fd := control_fd session)) in Ep. rewrite <- Ep.
  destruct ready as [control|e]; [|by intros [= <- <- <-]].
  destruct (negb _); [by intros [= <- <- <-]|].
  destruct (drain _ src s1) as [[drained src2] s2] eqn:Ed. intros [= <- <- <-]. by eapply drain_takes.
Qed.

Lemma looks_takes waits src s outs src' s' :
  looks waits src s = (outs, src', s') →
  taken (fd:=control_fd session) s `prefix_of` taken (fd:=control_fd session) s'.
Proof.
  revert src s outs. induction waits as [|w waits IH]; intros src s outs; cbn [looks]; [by intros [= <- <- <-]|].
  destruct (look _ _ w src s) as [[out src1] s1] eqn:E1.
  destruct (looks waits src1 s1) as [[outs1 src2] s2] eqn:E2. intros [= <- <- <-].
  etrans; [by eapply look_takes|by eapply IH].
Qed.

Lemma looks_orders ms found waits src s outs src' s' :
  Forall order_ok ms → taken (fd:=control_fd session) s' `prefix_of` (ms ≫= order_frame) →
  source_inv (control_fd session) (order_record <$> found) src s →
  looks waits src s = (outs, src', s') →
  source_inv (control_fd session) (order_record <$> (found ++ (outs ≫= found_in))) src' s' ∧
  Forall not_broken outs ∧ Forall order_ok (outs ≫= found_in).
Proof.
  intros Hms Hpre. revert found src s outs. induction waits as [|w waits IH]; intros found src s outs Hi;
    cbn [looks].
  { intros [= <- <- <-]. rewrite app_nil_r. by split_and!. }
  destruct (look _ _ w src s) as [[out src1] s1] eqn:E1.
  destruct (looks waits src1 s1) as [[outs1 src2] s2] eqn:E2. intros [= <- <- <-].
  destruct (look_orders ms found w src s out src1 s1 Hms) as (Hi1 & Hb & Hok); [|done|done|].
  { etrans; [by eapply looks_takes|done]. }
  destruct (IH _ _ _ _ Hi1 E2) as (Hi2 & Hall & Hoks). rewrite bind_cons, app_assoc, Forall_app.
  split_and!; [done|by constructor|done|done].
Qed.
End Looks.

(** ** What the worker answers *)

(** The acknowledgement the null workload owes a message. *)
Definition ack_of (m : ControlMessage) : ControlAck :=
  let stop := is_stop (command m) in
  ack_for (message_sequence m) (if stop then kDone else kRefused) (if stop then [] else nothing_to (command m)).

Definition ack_frame (m : ControlMessage) : list byte :=
  frame_of {| rec_type := kControlAckFrameType; rec_payload := encode_ack (ack_of m) |}.

Lemma ack_for_detail sequence status detail : size_of (ack_detail (ack_for sequence status detail)) ≤ kMaxTextBytes.
Proof.
  unfold ack_for, size_of, kMaxTextBytes. cbn [ack_detail].
  destruct (Z.ltb_spec 1024 (Z.of_nat (length detail))); [rewrite length_take; lia|done].
Qed.

Lemma ack_record_ok m : rec_ok {| rec_type := kControlAckFrameType; rec_payload := encode_ack (ack_of m) |}.
Proof.
  split; cbn [rec_type rec_payload]; [by split|].
  pose proof (ack_for_detail (message_sequence m) (if is_stop (command m) then kDone else kRefused)
    (if is_stop (command m) then [] else nothing_to (command m))) as H. fold (ack_of m) in H.
  unfold encode_ack, put_string, size_of, kMaxPayloadBytes, kMaxTextBytes in *.
  rewrite !length_app, !length_put_le. cbn [length]. change (64 ≪ 10) with 65536. lia.
Qed.

Section Answers.
Context {K : Type} (session : Session) `{ChannelLaws K (record_fd session)} (strerror : Z → text).

Lemma answer_spec m s :
  let stop := is_stop (command m) in
  ∃ d s', answer strerror session (message_sequence m) (if stop then kDone else kRefused)
            (if stop then [] else nothing_to (command m)) s = Some (d, s') ∧
    match d with
    | Sent => piped (fd:=record_fd session) s' = piped (fd:=record_fd session) s ++ ack_frame m
    | _ => ∃ k, (k < length (ack_frame m))%nat ∧
                piped (fd:=record_fd session) s' = piped (fd:=record_fd session) s ++ take k (ack_frame m)
    end.
Proof.
  cbv zeta. unfold answer, deliver. fold (ack_of m).
  pose proof (ack_record_ok m) as [_ Hsize]. cbn [rec_payload] in Hsize.
  unfold ack_frame, frame_of, send. cbn [rec_type rec_payload].
  destruct (encode kControlAckFrameType (encode_ack (ack_of m))) as [f|e] eqn:E;
    unfold encode in E; rewrite (proj2 (Z.ltb_ge _ _)) in E by done; [clear E|done].
  destruct (send_loop_spec (record_fd session) (send_turns f) 0 f s) as (out & s' & -> & Hm);
    [done|unfold send_turns, kChannelMaxConsecutiveInterrupts; lia|].
  cbn [mbind option_bind]. destruct out as [u|e]; [by eexists _, _|].
  destruct Hm as [_ (k & Hk & Hm)]. eexists _, s'. split; [done|]. destruct (_ =? EPIPE); by exists k.
Qed.
End Answers.

(** ** The run's time *)

(** Time as the worker's calls see it. It never runs backwards, and a reading of the raw
    clock shows the nanosecond of some instant of the call: a later reading is never
    smaller, and may well be equal. Reading the clock takes time, however little: an
    instant is finer than a nanosecond, and the clock can be read no more than [readings]
    times while it shows the same one. *)
Class TimeLaws (K : Type) `{ChannelCalls K} `{WorkerCalls K} := {
  instant : K → Z;
  readings : Z;
  readings_positive : 1 ≤ readings;
  clock_time id s r s' : read_clock id s = (r, s') → instant s ≤ instant s';
  raw_reading s ns s' :
    read_nanoseconds read_clock CLOCK_MONOTONIC_RAW s = (Value ns, s') →
    instant s < instant s' ∧ instant s `div` readings ≤ ns ≤ instant s' `div` readings;
  poll_time fd w s r s' : poll_readable fd w s = (r, s') → instant s ≤ instant s';
  publish_time slot b s r s' : region_publish slot b s = (r, s') → instant s ≤ instant s';
  observe_time slot s r s' : region_observe slot s = (r, s') → instant s ≤ instant s';
  write_time fd bs s r s' : write_fd fd bs s = (r, s') → instant s ≤ instant s';
  read_time fd n s r s' : read_fd fd n s = (r, s') → instant s ≤ instant s';
}.
Arguments readings K {_ _ _}.

Section Time.
Context {K : Type} `{TimeLaws K} (session : Session) (strerror : Z → text).

Lemma clock_now_time s t s' :
  clock_now read_clock s = (Value t, s') →
  instant s < instant s' ∧ instant s < (raw_ns t + 1) * readings K ∧ raw_ns t * readings K ≤ instant s' ∧
  0 ≤ raw_ns t < 2 ^ 63.
Proof.
  unfold clock_now. destruct (read_nanoseconds _ CLOCK_MONOTONIC_RAW s) as [[raw|] s1] eqn:E1; [|done].
  destruct (raw_reading _ _ _ E1) as (Hlt & Hlow & Hhigh).
  unfold read_nanoseconds in *.
  destruct (read_clock CLOCK_MONOTONIC_RAW s) as [v1 s1'] eqn:Ev1. injection E1 as Hv1 ->.
  destruct (read_clock CLOCK_MONOTONIC s1) as [v2 s2] eqn:E2.
  destruct (rbind v2 _); [|done].
  destruct (read_clock CLOCK_BOOTTIME s2) as [v3 s3] eqn:E3.
  destruct (rbind v3 _); [|done]. intros [= <- <-]. cbn [raw_ns].
  apply clock_time in E2, E3. apply rbind_value in Hv1 as (? & _ & (Hn & Hs & ->)%to_nanoseconds_value).
  pose proof (readings_positive (K:=K)). unfold kMaxSeconds, kNanosecondsPerSecond in *.
  pose proof (Z.mul_succ_div_gt (instant s) (readings K)). pose proof (Z.mul_div_le (instant s1) (readings K)).
  split_and!; [lia|nia|nia|lia..].
Qed.

Lemma send_loop_time fd fuel i bytes s r s' :
  send_loop fd fuel i bytes s = Some (r, s') → instant s ≤ instant s'.
Proof.
  revert i bytes s. induction fuel as [|fuel IH]; intros i [|b l] s; cbn [send_loop];
    [intros [= <- <-]; lia|done|intros [= <- <-]; lia|].
  destruct (write_fd fd (b :: l) s) as [[n|e] s1] eqn:E; apply write_time in E.
  - destruct (n =? 0); [by intros [= <- <-]|]. intros ?%IH. lia.
  - destruct (_ && _); [intros ?%IH; lia|by intros [= <- <-]].
Qed.

Lemma answer_all_time found s r s' :
  answer_all strerror session found s = Some (r, s') → instant s ≤ instant s'.
Proof.
  revert s. induction found as [|m found IH]; intros s; cbn [answer_all]; [intros [= <- <-]; lia|].
  unfold answer, deliver, send. set (payload := encode_ack _).
  destruct (encode _ payload) as [f|e]; cbn [mbind option_bind].
  - destruct (send_loop _ _ _ f s) as [[out s1]|] eqn:E; [|done]. apply send_loop_time in E.
    cbn [mbind option_bind]. destruct out as [u|e].
    + destruct (is_stop _); [by intros [= <- <-]|]. intros ?%IH. lia.
    + destruct (_ =? EPIPE); by intros [= <- <-].
  - destruct (_ =? EPIPE); intros [= <- <-]; lia.
Qed.

Lemma read_chunk_time fd turns s r s' : read_chunk fd turns s = (r, s') → instant s ≤ instant s'.
Proof.
  revert s. induction turns as [|turns IH]; intros s; cbn [read_chunk];
    destruct (read_fd fd kChunkBytes s) as [[bs|e] s1] eqn:E; apply read_time in E; try (by intros [= <- <-]).
  destruct (number_ e =? EINTR); [intros ?%IH; lia|by intros [= <- <-]].
Qed.

Lemma look_time wait src s out src' s' :
  look strerror session wait src s = (out, src', s') → instant s ≤ instant s'.
Proof.
  unfold look, drain. destruct (poll_readable _ wait s) as [ready s1] eqn:Ep. apply poll_time in Ep.
  destruct ready as [control|e]; [|by intros [= <- <- <-]].
  destruct (negb _); [by intros [= <- <- <-]|].
  destruct (source_ended src); [by intros [= <- <- <-]|].
  destruct (faulted _); [destruct (finish _); by intros [= <- <- <-]|].
  destruct (read_chunk _ 127 s1) as [[[|c chunk]|e] s2] eqn:Er; apply read_chunk_time in Er;
    [destruct (finish _)|destruct (next_all _ _) as [[records fault] r]|]; intros [= <- <- <-]; lia.
Qed.

End Time.

(** ** One turn *)

Section Turns.
Context {K : Type} `{ChannelCalls K} `{WorkerCalls K} (session : Session) (strerror : Z → text).

(** The controller's slot, read now, is no reason to leave: its beat is fresh, or it has
    not beaten yet and the allowance for a first beat has not passed, or it cannot be
    read and has not been unreadable for longer than the allowance. *)
Definition vouched (now : TimePoint) (elapsed last_read : Z)
    (observed : Result (option Heartbeat) RegionError) : Prop :=
  match observed with
  | Error _ => i64 (running_ns now - last_read) ≤ stale_after_ns (pacing session)
  | Value (Some b) => i64 (running_ns now - timestamp_ns b) ≤ stale_after_ns (pacing session)
  | Value None => elapsed ≤ stale_after_ns (pacing session)
  end.

Lemma judge_controller_vouched stale last_read now elapsed observed :
  stale = stale_after_ns (pacing session) →
  match (judge_controller stale last_read now elapsed observed).1 with
  | None => vouched now elapsed last_read observed
  | Some reason => reason = kControllerStale ∨ reason = kControllerUnreadable
  end.
Proof.
  intros ->. unfold judge_controller, vouched, liveness. destruct observed as [[b|]|e]; cbn [fst].
  - destruct (Z.ltb_spec (stale_after_ns (pacing session)) (i64 (running_ns now - timestamp_ns b))).
    + rewrite bool_decide_true by done. cbn. auto.
    + rewrite !bool_decide_false by done. done.
  - rewrite bool_decide_false, bool_decide_true by done. cbn [orb andb].
    destruct (Z.ltb_spec (stale_after_ns (pacing session)) elapsed); auto.
  - destruct (Z.ltb_spec (stale_after_ns (pacing session)) (i64 (running_ns now - last_read))); auto.
Qed.

Lemma answer_all_reason found s reason s' :
  answer_all strerror session found s = Some (Value (Some reason), s') →
  reason = kStopRequested ∨ reason = kControllerHungUp.
Proof.
  revert s. induction found as [|m found IH]; intros s; cbn [answer_all]; [done|].
  destruct (answer _ _ _ _ _ s) as [[d s1]|]; cbn [mbind option_bind]; [|done].
  destruct d; [|intros [= <- <-]; auto|done]. destruct (is_stop _); [intros [= <- <-]; auto|apply IH].
Qed.

Lemma look_lost wait src s l src' s' reason :
  look strerror session wait src s = (Value l, src', s') → lost l = Some reason →
  reason = kControllerHungUp ∨ reason = kControlChannelBroken.
Proof.
  unfold look. destruct (poll_readable _ wait s) as [[control|e] s1]; [|done].
  destruct (negb (readable control)).
  { intros [= <- <- <-]. cbn [lost]. destruct (_ || _); [|done]. intros [= <-]. auto. }
  destruct (drain _ src s1) as [[[d|e] src2] s2]; [|done].
  destruct (control_messages _) as [found broken]. intros [= <- <- <-]. cbn [lost].
  unfold lost_after. destruct broken; [intros [= <-]; auto|].
  destruct (drained_fault d) as [e|]; [|destruct (end_of_stream d); [|done]; intros [= <-]; auto].
  case_bool_decide; intros [= <-]; auto.
Qed.

(** How a turn ends when the clock, the beat and the controller's slot gave no reason to. *)
Lemma null_answers_ends elapsed last_read src s turn s' ticks :
  null_answers strerror session ticks elapsed last_read src s = Some (turn, s') →
  match turn with
  | Leave (Value o) => outcome_progress o = ticks ∧ outcome_elapsed_ns o = elapsed ∧
      (outcome_reason o = kStopRequested ∨ controller_lost (outcome_reason o) = true)
  | Leave (Error _) => True
  | Again last_read' _ => last_read' = last_read
  end.
Proof.
  unfold null_answers. destruct (look _ _ _ src s) as [[[l|e] src1] s1] eqn:El; [|by intros [= <- <-]].
  destruct (answer_all _ _ _ s1) as [[[[reason|]|e] s2]|] eqn:Ea; cbn [mbind option_bind]; try done.
  - intros [= <- <-]. cbn. split_and!; [done..|].
    by destruct (answer_all_reason _ _ _ _ Ea) as [-> | ->]; [left|right].
  - destruct (lost l) as [reason|] eqn:Elost; intros [= <- <-]; [|done]. cbn. split_and!; [done..|].
    right. by destruct (look_lost _ _ _ _ _ _ _ El Elost) as [-> | ->].
  - by intros [= <- <-].
Qed.
End Turns.

Section Run.
Context {K : Type} (session : Session) `{ChannelLaws K (record_fd session)}
  `{!WorkerCalls K} `{!TimeLaws K} (strerror : Z → text).

Lemma between_exact a b e :
  0 ≤ raw_ns a < 2 ^ 63 → 0 ≤ raw_ns b < 2 ^ 63 → Platform.between a b = Value e →
  elapsed_raw_ns e = raw_ns b - raw_ns a ∧ raw_ns a ≤ raw_ns b.
Proof.
  intros Ha Hb. unfold Platform.between. intros (raw & Hraw & He)%rbind_value.
  apply forward_difference_value in Hraw as [Hle ->]; [|done..].
  apply rbind_value in He as (? & _ & He). apply rbind_value in He as (? & _ & He).
  revert He. destruct (_ <? _); [done|]. by intros [= <-].
Qed.

Lemma null_answers_total elapsed last_read src s ticks :
  ∃ turn s', null_answers strerror session ticks elapsed last_read src s = Some (turn, s') ∧
             instant s ≤ instant s'.
Proof.
  unfold null_answers. destruct (look _ _ _ src s) as [[looked src1] s1] eqn:El.
  pose proof (look_time session strerror _ _ _ _ _ _ El) as Ht.
  destruct looked as [l|e]; [|by eexists _, _].
  assert (Ha : ∃ r s2, answer_all strerror session (messages l) s1 = Some (r, s2)).
  { generalize (messages l). intros found. revert s1 El Ht. intros s1 _ _. revert s1.
    induction found as [|m found IH]; intros s1; cbn [answer_all]; [by eexists _, _|].
    destruct (answer_spec session strerror m s1) as (d & s2 & -> & _). cbn [mbind option_bind].
    destruct d; [destruct (is_stop _)|..]; try by eexists _, _. apply IH. }
  destruct Ha as (r & s2 & Ha). rewrite Ha. cbn [mbind option_bind].
  eexists _, _. split; [done|]. apply (answer_all_time session strerror) in Ha. lia.
Qed.

Lemma null_turn_ends started self ticks last_read src s :
  0 ≤ raw_ns started < 2 ^ 63 →
  ∃ turn s', null_turn strerror session started self ticks last_read src s = Some (turn, s') ∧
    match turn with
    | Leave (Value o) => outcome_progress o = ticks ∧
        0 ≤ outcome_elapsed_ns o < 2 ^ 63 ∧
        (outcome_reason o = kDurationElapsed ↔ duration_ns (pacing session) ≤ outcome_elapsed_ns o) ∧
        outcome_reason o ≠ kRunnerStopped
    | Leave (Error _) => True
    | Again _ _ => instant s < instant s' ∧ instant s < (duration_ns (pacing session) + raw_ns started) * readings K
    end.
Proof.
  intros Hs. unfold null_turn. destruct (clock_now read_clock s) as [[now|e] s1] eqn:Ec; [|by eexists _, _].
  destruct (clock_now_time s now s1 Ec) as (Hlt & Hlow & _ & Hnow). pose proof (readings_positive (K:=K)).
  destruct (Platform.between started now) as [e|e] eqn:Eb; [|by eexists _, _].
  destruct (between_exact _ _ _ Hs Hnow Eb) as [He Hle]. rewrite He.
  destruct (region_publish _ _ s1) as [[u|er] s2] eqn:Ep; apply publish_time in Ep; [|by eexists _, _].
  destruct (Z.leb_spec (duration_ns (pacing session)) (raw_ns now - raw_ns started)) as [Hd|Hd].
  { eexists _, _. split; [done|]. cbn. split_and!; [done|lia|lia|done|done]. }
  unfold watch_gone. destruct (region_observe kControllerSlot s2) as [observed s3] eqn:Eo.
  apply observe_time in Eo.
  pose proof (judge_controller_vouched session (stale_after_ns (pacing session)) last_read now
    (raw_ns now - raw_ns started) observed eq_refl) as Hj.
  destruct (judge_controller _ _ _ _ observed) as [[reason|] last_read'].
  { eexists _, _. split; [done|]. cbn. destruct Hj as [-> | ->]; split_and!; done || lia || (split; [done|lia]). }
  destruct (null_answers_total (raw_ns now - raw_ns started) last_read' src s3 ticks) as (turn & s4 & Ea & Ht).
  exists turn, s4. split; [done|]. pose proof (null_answers_ends session strerror _ _ _ _ _ _ _ Ea) as Hend.
  destruct turn as [[o|e']|lr src']; [|done|split; [lia|nia]].
  destruct Hend as (-> & -> & Hr). split_and!; [done|lia|lia|split; [|lia]|]; intros Hx; rewrite Hx in Hr;
    by destruct Hr as [Hr|Hr].
Qed.

Lemma null_loop_ends fuel started self ticks last_read src s :
  0 ≤ raw_ns started < 2 ^ 63 →
  (duration_ns (pacing session) + raw_ns started) * readings K - instant s < Z.of_nat fuel →
  (1 ≤ fuel)%nat →
  ∃ r s', null_loop strerror session fuel started self ticks last_read src s = Some (r, s') ∧
    ∀ o, r = Value o → 0 ≤ outcome_elapsed_ns o < 2 ^ 63 ∧
      (outcome_reason o = kDurationElapsed ↔ duration_ns (pacing session) ≤ outcome_elapsed_ns o) ∧
      outcome_reason o ≠ kRunnerStopped.
Proof.
  intros Hs. revert ticks last_read src s.
  induction fuel as [|fuel IH]; intros ticks last_read src s Hfuel Hpos; [lia|]. cbn [null_loop].
  destruct (null_turn_ends started self ticks last_read src s Hs) as (turn & s1 & -> & Ht).
  cbn [mbind option_bind]. destruct turn as [r|lr src1].
  - exists r, s1. split; [done|]. intros o ->. destruct Ht as (_ & ? & ? & ?). split_and!; done || lia.
  - apply IH; lia.
Qed.
End Run.

(** ** A world

    The pipe of IpcRecord; a clock that advances by a nanosecond when read, and by the
    wait when poll times out; a controller that beats whenever it is looked at. *)

Record World := { w_pipe : Pipe; w_now : Z }.

#[export] Instance world_channel : ChannelCalls World := {|
  write_fd fd bs w := let '(r, p) := write_fd fd bs (w_pipe w) in (r, {| w_pipe := p; w_now := w_now w |});
  read_fd fd n w := let '(r, p) := read_fd fd n (w_pipe w) in (r, {| w_pipe := p; w_now := w_now w |});
|}.

#[export] Instance world_channel_laws fd : ChannelLaws World fd.
Proof.
  refine {| piped w := piped (fd:=fd) (w_pipe w); taken w := taken (fd:=fd) (w_pipe w) |};
    intros ? w ? w' Hw; unfold write_fd, read_fd, world_channel in Hw.
  - destruct (write_fd fd bs (w_pipe w)) as [r p] eqn:E. injection Hw as -> <-. by apply write_takes.
  - destruct (write_fd fd bs (w_pipe w)) as [r p] eqn:E. injection Hw as -> <-. by eapply write_fails.
  - destruct (read_fd fd size (w_pipe w)) as [r p] eqn:E. injection Hw as -> <-. by eapply read_takes.
  - destruct (read_fd fd size (w_pipe w)) as [r p] eqn:E. injection Hw as -> <-. by eapply read_fails.
Defined.

#[export] Instance world_calls : WorkerCalls World := {|
  read_clock id w :=
    (Value {| seconds := (w_now w + 1) / kNanosecondsPerSecond;
              nanoseconds := (w_now w + 1) mod kNanosecondsPerSecond |},
     {| w_pipe := w_pipe w; w_now := w_now w + 1 |});
  process_id w := 77;
  poll_readable fd wait w :=
    let ready := negb (bool_decide (pipe_out (w_pipe w) = [])) in
    (Value {| readable := ready; hung_up := false; poll_error := false; invalid := false |},
     {| w_pipe := w_pipe w; w_now := w_now w + (if ready then 0 else Z.max 0 wait * 1000000) |});
  region_publish slot b w := (Value tt, w);
  region_observe slot w :=
    (Value (Some {| timestamp_ns := w_now w; progress := 0; beat_phase := 1; pid := 7 |}), w);
|}.

#[export] Instance world_poll fd : PollLaws World fd.
Proof. split. by intros wait w r w' [= <- <-]. Defined.

#[export] Instance world_time : TimeLaws World.
Proof.
  refine {| instant := w_now; readings := 1 |}; [done|..].
  - intros id w r w' [= <- <-]. cbn. lia.
  - intros w ns w' [= Hns <-]. apply to_nanoseconds_value in Hns as (_ & _ & ->). cbn.
    unfold kNanosecondsPerSecond. pose proof (Z.div_mod (w_now w + 1) 1000000000 ltac:(lia)).
    rewrite !Z.div_1_r. lia.
  - intros fd wait w r w' [= <- <-]. cbn. destruct (negb _); lia.
  - by intros slot b w r w' [= <- <-].
  - by intros slot w r w' [= <- <-].
  - intros fd bs w r w'. unfold write_fd, world_channel. destruct (write_fd _ _ _). by intros [= <- <-].
  - intros fd n w r w'. unfold read_fd, world_channel. destruct (read_fd _ _ _). by intros [= <- <-].
Defined.

Definition sample_session : Session :=
  {| session_slot := 0; control_fd := 5; record_fd := 6;
     pacing := {| duration_ns := 40; interval_ns := 1000000; stale_after_ns := 9000000 |} |}.

Definition sample_orders : list ControlMessage :=
  [ {| message_sequence := 1; command := Pause |}; {| message_sequence := 2; command := Stop |} ].

Lemma sample_orders_ok : Forall order_ok sample_orders.
Proof.
  repeat apply Forall_cons_2; try apply Forall_nil_2; split;
    try (by vm_compute); split; done || (vm_compute; split; congruence).
Qed.

(** What the controller has written, to be read in pieces of [chunk] bytes. *)
Definition world_with (written : list byte) (chunk : nat) : World :=
  {| w_pipe := {| pipe_in := []; pipe_out := written; pipe_taken := []; pipe_chunk := chunk; pipe_tired := true |};
     w_now := 1000 |}.

(** ** Theorems *)

(** Orders reach the worker: over any number of looks, with timeouts and
    interruptions and the pipe's bytes in any pieces, the messages found are exactly the
    ones whose frames lie wholly in the bytes read of the controller's stream, in its
    order - none lost, none twice, none invented - and a stream that is orders, even
    one that ends inside a frame, is never called broken. *)
Theorem orders_reach_worker {K} session `{PollLaws K (control_fd session)} strerror ms waits s outs src s' :
  Forall order_ok ms → taken (fd:=control_fd session) s = [] →
  taken (fd:=control_fd session) s' `prefix_of` (ms ≫= order_frame) →
  looks session strerror waits {| source_reader := reading []; source_ended := false |} s = (outs, src, s') →
  ∃ m, taken (fd:=control_fd session) s' = take m (ms ≫= order_frame) ∧
       (outs ≫= found_in) = whole_prefix order_frame m ms ∧ Forall not_broken outs.
Proof.
  intros Hms Ht Hpre Hl.
  assert (Hi : source_inv (control_fd session) (order_record <$> [])
                 {| source_reader := reading []; source_ended := false |} s)
    by (exists None, (reading []); by rewrite Ht, reads_all_eq).
  destruct (looks_orders session strerror ms [] waits _ s outs src s' Hms Hpre Hi Hl) as (Hi' & Hb & Hok).
  destruct (source_inv_orders session ms _ src s' Hms Hpre Hi') as [(m & Hrec & Hm) _].
  exists m. split_and!; [done| |done].
  apply (f_equal control_messages) in Hrec. cbn [app] in Hrec. rewrite !control_messages_orders in Hrec.
  - by injection Hrec.
  - destruct (whole_prefix_prefix order_frame m ms) as [q Hq]. rewrite Hq, Forall_app in Hms. tauto.
  - done.
Qed.

Lemma orders_reach_worker_witness :
  let w := world_with (sample_orders ≫= order_frame) 15 in
  (looks sample_session (λ _, []) [1; 1; 1; 1] {| source_reader := reading []; source_ended := false |} w).1.1
    ≫= found_in = sample_orders.
Proof.
  intros w. set (out := looks _ _ _ _ w).
  destruct (orders_reach_worker sample_session (λ _, []) sample_orders [1; 1; 1; 1] w out.1.1 out.1.2 out.2)
    as (m & Ht & -> & _).
  - exact sample_orders_ok.
  - reflexivity.
  - exists []. vm_compute. reflexivity.
  - vm_compute. reflexivity.
  - assert (Hm : length (taken (fd:=control_fd sample_session) out.2) = length (sample_orders ≫= order_frame))
      by (vm_compute; reflexivity).
    rewrite Ht, length_take in Hm. apply whole_prefix_all. lia.
Defined.

(** Every order is answered exactly once, in order, with its own sequence number:
    the answers written are, byte for byte, those of the messages up to the first Stop;
    a Stop is answered Done and ends the run, everything before it is refused in words;
    and only a record pipe that fails leaves a message unanswered, with at most part of
    its answer written. *)
Theorem orders_answered {K} session `{ChannelLaws K (record_fd session)} strerror found s :
  ∃ r s' handled rest,
    answer_all strerror session found s = Some (r, s') ∧ found = handled ++ rest ∧
    match r with
    | Value None => rest = [] ∧ Forall (λ m, command m ≠ Stop) handled ∧
        piped (fd:=record_fd session) s' = piped (fd:=record_fd session) s ++ (handled ≫= ack_frame)
    | Value (Some kStopRequested) =>
        (∃ before stop, handled = before ++ [stop] ∧ command stop = Stop ∧
                        Forall (λ m, command m ≠ Stop) before) ∧
        piped (fd:=record_fd session) s' = piped (fd:=record_fd session) s ++ (handled ≫= ack_frame)
    | Value (Some kControllerHungUp) | Error _ =>
        ∃ m more k, rest = m :: more ∧ Forall (λ m, command m ≠ Stop) handled ∧
          (k < length (ack_frame m))%nat ∧
          piped (fd:=record_fd session) s'
          = piped (fd:=record_fd session) s ++ (handled ≫= ack_frame) ++ take k (ack_frame m)
    | Value (Some _) => False
    end.
Proof.
  revert s. induction found as [|m found IH]; intros s.
  { exists (Value None), s, [], []. split_and!; [done..|]. cbn. by rewrite app_nil_r. }
  cbn [answer_all]. destruct (answer_spec session strerror m s) as (d & s1 & -> & Hd).
  cbn [mbind option_bind].
  destruct d as [| |e].
  - destruct (is_stop (command m)) eqn:Es.
    + exists (Value (Some kStopRequested)), s1, [m], found. split_and!; [done..| |by rewrite bind_cons, app_nil_r].
      exists [], m. split_and!; [done| |done]. by destruct (command m).
    + destruct (IH s1) as (r & s2 & handled & rest & -> & -> & Hr).
      assert (Hm : command m ≠ Stop) by (by destruct (command m)).
      exists r, s2, (m :: handled), rest. split_and!; [done..|].
      destruct r as [[[]|]|e]; try done; rewrite ?bind_cons.
      * destruct Hr as [(before & stop & -> & ? & ?) Hp]. split; [exists (m :: before), stop; split_and!; [done|done|by constructor]|].
        by rewrite Hp, Hd, <- !app_assoc.
      * destruct Hr as (m' & more & k & -> & ? & ? & Hp). exists m', more, k.
        split_and!; [done|by constructor|done|]. by rewrite Hp, Hd, <- !app_assoc.
      * destruct Hr as (-> & ? & Hp). split_and!; [done|by constructor|]. by rewrite Hp, Hd, <- !app_assoc.
      * destruct Hr as (m' & more & k & -> & ? & ? & Hp). exists m', more, k.
        split_and!; [done|by constructor|done|]. by rewrite Hp, Hd, <- !app_assoc.
  - destruct Hd as (k & Hk & Hp). eexists _, s1, [], (m :: found). split_and!; [done..|]. by exists m, found, k.
  - destruct Hd as (k & Hk & Hp). eexists _, s1, [], (m :: found). split_and!; [done..|]. by exists m, found, k.
Qed.

Lemma orders_answered_witness :
  ∃ s', answer_all (λ _, []) sample_session sample_orders (world_with [] 7)
        = Some (Value (Some kStopRequested), s') ∧
        pipe_in (w_pipe s') = sample_orders ≫= ack_frame.
Proof.
  destruct (orders_answered sample_session (λ _, []) sample_orders (world_with [] 7))
    as (r & s' & handled & rest & E & Hsplit & Hr).
  assert (r = Value (Some kStopRequested)) as -> by (vm_compute in E; by injection E as <- _).
  assert (handled = sample_orders) as ->.
  { destruct Hr as [(before & stop & -> & Hstop & Hb) _].
    destruct before as [|m1 [|m2 before]]; simpl in Hsplit.
    - injection Hsplit as <- _. discriminate Hstop.
    - injection Hsplit as <- <- _. reflexivity.
    - injection Hsplit as <- <- Hnil. destruct before; discriminate Hnil. }
  exists s'. split; [exact E|]. exact (proj2 Hr).
Defined.

(** A worker's run ends: once the clock shows its duration it leaves, whatever the
    controller sends, however often it is interrupted and however its pipes fail - within
    as many turns as the clock can be read in its duration. It reports the duration
    elapsed if and only if it did. *)
Theorem null_run_ends {K} session `{ChannelLaws K (record_fd session)} `{!WorkerCalls K} `{!TimeLaws K}
    strerror fuel s :
  duration_ns (pacing session) * readings K < Z.of_nat fuel → (1 ≤ fuel)%nat →
  ∃ r s', null_run strerror session fuel s = Some (r, s') ∧
    ∀ o, r = Value o → 0 ≤ outcome_elapsed_ns o < 2 ^ 63 ∧
      (outcome_reason o = kDurationElapsed ↔ duration_ns (pacing session) ≤ outcome_elapsed_ns o) ∧
      outcome_reason o ≠ kRunnerStopped.
Proof.
  intros Hf H1. unfold null_run. destruct (clock_now read_clock s) as [[started|e] s1] eqn:Ec; [|by eexists _, _].
  destruct (clock_now_time s started s1 Ec) as (Ht & _ & Hhigh & Hs).
  apply (null_loop_ends session strerror); lia.
Qed.

Lemma null_run_ends_witness :
  ∃ s', null_run (λ _, []) sample_session 50 (world_with [] 15)
        = Some (Value {| outcome_reason := kDurationElapsed; outcome_progress := 1;
                         outcome_elapsed_ns := 1000006 |}, s').
Proof.
  destruct (null_run_ends sample_session (λ _, []) 50 (world_with [] 15)) as (r & s' & E & _).
  - vm_compute. reflexivity.
  - lia.
  - exists s'. rewrite E. vm_compute in E. injection E as <- _. reflexivity.
Defined.

(** A worker never goes on under a controller it cannot vouch for: a turn that is
    followed by another has read a time before the run's end, has published this turn's
    beat, and has found the controller's beat fresh - or not yet due, or unreadable for
    no longer than the allowance. *)
Theorem null_turn_vouched {K} `{ChannelCalls K} `{WorkerCalls K} strerror session started self ticks
    last_read src s last_read' src' s' :
  null_turn strerror session started self ticks last_read src s = Some (Again last_read' src', s') →
  ∃ now s1 e s2,
    clock_now read_clock s = (Value now, s1) ∧ Platform.between started now = Value e ∧
    elapsed_raw_ns e < duration_ns (pacing session) ∧
    region_publish (worker_slot (session_slot session))
      {| timestamp_ns := running_ns now; progress := ticks; beat_phase := kPhaseRunning; pid := self |} s1
    = (Value tt, s2) ∧
    vouched session now (elapsed_raw_ns e) last_read (region_observe kControllerSlot s2).1 ∧
    last_read' = (match (region_observe kControllerSlot s2).1 with
                  | Value _ => running_ns now | Error _ => last_read end).
Proof.
  unfold null_turn. destruct (clock_now read_clock s) as [[now|e] s1] eqn:Ec; [|done].
  destruct (Platform.between started now) as [e|e] eqn:Eb; [|done].
  destruct (region_publish _ _ s1) as [[[]|er] s2] eqn:Ep; [|done].
  destruct (Z.leb_spec (duration_ns (pacing session)) (elapsed_raw_ns e)) as [|Hd]; [done|].
  unfold watch_gone. pose proof (judge_controller_vouched session _ last_read now (elapsed_raw_ns e)
    (region_observe kControllerSlot s2).1 eq_refl) as Hj.
  destruct (region_observe kControllerSlot s2) as [observed s3] eqn:Eo. cbn [fst] in *.
  destruct (judge_controller _ _ _ _ observed) as [[reason|] lr] eqn:Ej; [done|]. intros Ha.
  apply (null_answers_ends session strerror) in Ha as ->.
  exists now, s1, e, s2. rewrite Eo. cbn [fst]. split_and!; [done..|].
  apply (f_equal snd) in Ej. unfold judge_controller in Ej. by destruct observed; cbn in Ej; subst lr.
Qed.

Lemma null_turn_vouched_witness :
  ∃ lr' src' s', null_turn (λ _, []) sample_session {| raw_ns := 990; running_ns := 990; wall_ns := 990 |} 77 3 990
      {| source_reader := reading []; source_ended := false |} (world_with [] 15)
    = Some (Again lr' src', s') ∧ lr' = 1002.
Proof.
  destruct (null_turn (λ _, []) sample_session {| raw_ns := 990; running_ns := 990; wall_ns := 990 |} 77 3 990
      {| source_reader := reading []; source_ended := false |} (world_with [] 15)) as [[[r|lr src] w]|] eqn:E;
    [vm_compute in E; discriminate|..|vm_compute in E; discriminate].
  exists lr, src, w. split; [reflexivity|].
  destruct (null_turn_vouched _ _ _ _ _ _ _ _ _ _ _ E) as (now & s1 & e & s2 & Hnow & _ & _ & Hp & _ & ->).
  vm_compute in Hnow. injection Hnow as <- <-. reflexivity.
Defined.
