(* ===== verification/Runner.v ===== *)
(** * verification/runner.hpp: what a slice runner is asked and answers

    The lock policy, the tally of a slice, its report and the reasons a runner refuses:
    the vocabulary the worker's command line, the working set and the runner share. *)

From S2P Require Export ErrorRecord.

Inductive LockPolicy := kRequire | kTry | kNone.

#[export] Instance LockPolicy_eq_dec : EqDecision LockPolicy.
Proof. solve_decision. Defined.

Definition describe_lock_policy (policy : LockPolicy) : text :=
  match policy with kRequire => lit "require" | kTry => lit "try" | kNone => lit "none" end.

Inductive LockOutcome := kLocked | kNotLocked | kFellBack.

#[export] Instance LockOutcome_eq_dec : EqDecision LockOutcome.
Proof. solve_decision. Defined.

Record MemoryLock := { lock_policy : LockPolicy; lock_outcome : LockOutcome; lock_detail : text }.

Inductive RunnerFault := kConfiguration | kResources | kFinished.

Record RunnerError := { runner_fault : RunnerFault; runner_detail : text }.

Record Tally := {
  units_computed : Z;
  oracle_checked : Z;
  oracle_blocks : Z;
  oracle_failed : Z;
  oracle_not_performed : Z;
  integrity_checked : Z;
  integrity_failed : Z;
}.

(** [Tally{}]. *)
Definition no_tally : Tally :=
  {| units_computed := 0; oracle_checked := 0; oracle_blocks := 0; oracle_failed := 0;
     oracle_not_performed := 0; integrity_checked := 0; integrity_failed := 0 |}.

(** [operator+]: field by field, on 64 bits. *)
Definition add_tally (lhs rhs : Tally) : Tally :=
  {| units_computed := u64 (units_computed lhs + units_computed rhs);
     oracle_checked := u64 (oracle_checked lhs + oracle_checked rhs);
     oracle_blocks := u64 (oracle_blocks lhs + oracle_blocks rhs);
     oracle_failed := u64 (oracle_failed lhs + oracle_failed rhs);
     oracle_not_performed := u64 (oracle_not_performed lhs + oracle_not_performed rhs);
     integrity_checked := u64 (integrity_checked lhs + integrity_checked rhs);
     integrity_failed := u64 (integrity_failed lhs + integrity_failed rhs) |}.

Record SliceReport := { slice_tally : Tally; slice_records : list ErrorRecord; slice_next_index : Z }.
