(* ===== verification/WorkerArgs.v ===== *)
(** * A worker's command line

    worker/entry.cpp: the key/value arguments a worker and a re-run are started with,
    written by the controller (argv_for, rerun_argv_for) and read by the worker
    (parse_args, parse_rerun_args). The map of values is the [std::map] of the code; its
    [operator] [[]] inserts nothing here, since every key read was found first. *)

From stdpp Require Export gmap.
From S2P Require Export Units Scheduler Runner.

#[export] Instance byte_countable : Countable byte :=
  inj_countable' Byte.to_N (λ n, default Byte.x00 (Byte.of_N n)) (λ b, f_equal (default Byte.x00) (Byte.of_to_N b)).

(** ** The arguments (entry.hpp) *)

Inductive IsaPath := kScalar | kAvx2 | kAvx512 | kNeon.

#[export] Instance IsaPath_eq_dec : EqDecision IsaPath.
Proof. solve_decision. Defined.

Definition describe_isa_path (path : IsaPath) : text :=
  match path with
  | kScalar => lit "scalar" | kAvx2 => lit "avx2" | kAvx512 => lit "avx512" | kNeon => lit "neon"
  end.

(** The first of a list whose description is the word. *)
Definition find_described {A} (describe : A → text) (word : text) (all : list A) : option A :=
  snd <$> list_find (λ a, describe a = word) all.

Definition parse_isa_path (word : text) : option IsaPath :=
  find_described describe_isa_path word [kScalar; kAvx2; kAvx512; kNeon].

Definition parse_lock_policy (word : text) : option LockPolicy :=
  find_described describe_lock_policy word [kRequire; kTry; kNone].

Record WorkloadArgs := {
  wl_workload : text;
  wl_seed : Z;
  wl_footprint_bytes : Z;
  wl_threads : Z;
  wl_decomposition : Z;
  wl_isa : IsaPath;
  wl_lock : LockPolicy;
  wl_duty : DutyCycle;
  wl_line_bytes : Z;
  wl_physical_package : option Z;
  wl_physical_core : option Z;
  wl_numa_node : option Z;
}.

Record WorkerArgs := {
  slot : Z;
  workers : Z;
  heartbeat_fd : Z;
  args_record_fd : Z;
  args_control_fd : Z;
  supervisor_pid : Z;
  args_pacing : Pacing;
  cpus : list Z;
  workload : option WorkloadArgs;
}.

Record RerunArgs := { unit_args : WorkloadArgs; rerun_version : Z; rerun_iteration : Z; rerun_cpu : Z }.

(** ** The keys *)

Definition kSlot := lit "--slot".
Definition kWorkers := lit "--workers".
Definition kHeartbeatFd := lit "--heartbeat-fd".
Definition kRecordFd := lit "--record-fd".
Definition kControlFd := lit "--control-fd".
Definition kSupervisorPid := lit "--supervisor-pid".
Definition kDurationMs := lit "--duration-ms".
Definition kIntervalMs := lit "--interval-ms".
Definition kStaleAfterMs := lit "--stale-after-ms".
Definition kCpus := lit "--cpus".
Definition kWorkload := lit "--workload".
Definition kSeed := lit "--seed".
Definition kFootprintBytes := lit "--footprint-bytes".
Definition kThreads := lit "--threads".
Definition kDecomposition := lit "--decomposition".
Definition kIsa := lit "--isa".
Definition kOraclePeriod := lit "--oracle-period".
Definition kIntegrityPeriod := lit "--integrity-period".
Definition kLineBytes := lit "--line-bytes".
Definition kLock := lit "--lock".
Definition kPhysicalPackage := lit "--physical-package".
Definition kPhysicalCore := lit "--physical-core".
Definition kNumaNode := lit "--numa-node".
Definition kVersionKey := lit "--version".
Definition kIteration := lit "--iteration".
Definition kCpu := lit "--cpu".

Definition kRequired : list text :=
  [kSlot; kWorkers; kHeartbeatFd; kRecordFd; kControlFd; kSupervisorPid; kDurationMs; kIntervalMs;
   kStaleAfterMs].
Definition kWorkloadRequired : list text :=
  [kSeed; kFootprintBytes; kThreads; kDecomposition; kIsa; kLock; kOraclePeriod; kIntegrityPeriod;
   kLineBytes].
Definition kWorkloadOptional : list text := [kPhysicalPackage; kPhysicalCore; kNumaNode].
Definition kWorkerOptional : list text :=
  [kCpus; kWorkload; kSeed; kFootprintBytes; kThreads; kDecomposition; kIsa; kLock; kOraclePeriod;
   kIntegrityPeriod; kLineBytes; kPhysicalPackage; kPhysicalCore; kNumaNode].
Definition kRerunRequired : list text :=
  [kWorkload; kSeed; kFootprintBytes; kThreads; kDecomposition; kIsa; kLock; kLineBytes; kVersionKey;
   kIteration; kCpu].

(** ** Reading *)

Definition refuse {A} (key what : text) : Result A text := Error (key ++ lit ": " ++ what).

Definition number_of (key t : text) : Result Z text :=
  match split_number_and_suffix t with
  | Value {| ns_value := n; ns_suffix := [] |} => Value n
  | _ => refuse key (lit "expected a whole non-negative number, got '" ++ t ++ lit "'")
  end.

Definition number_at_most (key t : text) (limit : Z) : Result Z text :=
  let? n := number_of key t in
  if limit <? n then refuse key (to_dec n ++ lit " is past the limit of " ++ to_dec limit) else Value n.

Definition kUint32Max : Z := 2 ^ 32 - 1.

(** The substrings between the commas. *)
Fixpoint split_commas (t : text) : list text :=
  match t with
  | [] => [[]]
  | c :: t =>
    if bool_decide (c = ","%byte) then [] :: split_commas t else
    match split_commas t with
    | [] => [[c]]
    | part :: parts => (c :: part) :: parts
    end
  end.

Fixpoint cpu_ids (parts : list text) : Result (list Z) text :=
  match parts with
  | [] => Value []
  | part :: parts =>
    let? id := number_at_most kCpus part kUint32Max in
    let? ids := cpu_ids parts in Value (id :: ids)
  end.

Definition cpus_of_text (t : text) : Result (list Z) text := cpu_ids (split_commas t).

Abbreviation Values := (gmap text text).

Definition contains (values : Values) (key : text) : bool := bool_decide (is_Some (values !! key)).
Definition value_at (values : Values) (key : text) : text := default [] (values !! key).

Fixpoint collect_pairs (known : list text) (args : list text) (values : Values) : Result Values text :=
  match args with
  | [] => Value values
  | key :: args =>
    if negb (bool_decide (key ∈ known)) then refuse key (lit "not a worker argument") else
    match args with
    | [] => refuse key (lit "missing its value")
    | value :: args =>
      if contains values key then refuse key (lit "given twice")
      else collect_pairs known args (<[key := value]> values)
    end
  end.

(** The first of [keys] that [bad] holds of is refused. *)
Fixpoint refuse_first (bad : text → bool) (what : text) (keys : list text) : Result () text :=
  match keys with
  | [] => Value tt
  | key :: keys => if bad key then refuse key what else refuse_first bad what keys
  end.

Definition collect (args required optional : list text) : Result Values text :=
  let? values := collect_pairs (required ++ optional) args ∅ in
  let? _ := refuse_first (λ key, negb (contains values key)) (lit "required") required in
  Value values.

Definition kNsPerMs : Z := 1000000.
Definition kMaxMilliseconds : Z := int64_max / kNsPerMs.

Definition milliseconds_of (values : Values) (key : text) : Result Z text :=
  let? ms := number_at_most key (value_at values key) kMaxMilliseconds in
  if ms =? 0 then refuse key (lit "must be at least 1") else Value (ms * kNsPerMs).

Definition pacing_of (values : Values) : Result Pacing text :=
  let? duration := milliseconds_of values kDurationMs in
  let? interval := milliseconds_of values kIntervalMs in
  let? stale := milliseconds_of values kStaleAfterMs in
  if stale <? interval then refuse kStaleAfterMs (lit "must be at least the interval")
  else Value {| duration_ns := duration; interval_ns := interval; stale_after_ns := stale |}.

Definition kMaxLineBytes : Z := 4096.
Definition kMinLineBytes : Z := 8.
Definition kMaxThreads : Z := 1024.

Definition optional_id (values : Values) (key : text) : Result (option Z) text :=
  if contains values key
  then let? id := number_at_most key (value_at values key) kUint32Max in Value (Some id)
  else Value None.

Definition at_least_one (key : text) (n : Z) : Result Z text :=
  if n =? 0 then refuse key (lit "must be at least 1") else Value n.

Definition named {A} (key value what : text) (found : option A) : Result A text :=
  match found with Some a => Value a | None => refuse key (lit "'" ++ value ++ what) end.

Definition workload_of (values : Values) (with_duty : bool) : Result WorkloadArgs text :=
  let name := value_at values kWorkload in
  let? _ := (if is_valid_name name then Value tt
             else refuse kWorkload (lit "'" ++ name ++ lit "' is not a workload name")) in
  let? sd := number_of kSeed (value_at values kSeed) in
  let? footprint := number_of kFootprintBytes (value_at values kFootprintBytes) in
  let? footprint := at_least_one kFootprintBytes footprint in
  let? threads := number_at_most kThreads (value_at values kThreads) kMaxThreads in
  let? threads := at_least_one kThreads threads in
  let? decomp := number_at_most kDecomposition (value_at values kDecomposition) kUint32Max in
  let? path := named kIsa (value_at values kIsa) (lit "' is none of scalar, avx2, avx512, neon")
                 (parse_isa_path (value_at values kIsa)) in
  let? lock := named kLock (value_at values kLock) (lit "' is none of require, try, none")
                 (parse_lock_policy (value_at values kLock)) in
  let? line := number_at_most kLineBytes (value_at values kLineBytes) kMaxLineBytes in
  let? _ := (if (line <? kMinLineBytes) || negb (has_single_bit line)
             then refuse kLineBytes (lit "must be a power of two of at least 8") else Value tt) in
  let? duty := (if with_duty then
      let? oracle := number_at_most kOraclePeriod (value_at values kOraclePeriod) kUint32Max in
      let? integrity := number_at_most kIntegrityPeriod (value_at values kIntegrityPeriod) kUint32Max in
      Value {| oracle_period := oracle; integrity_period := integrity |}
    else Value {| oracle_period := 1; integrity_period := 1 |}) in
  let? package := optional_id values kPhysicalPackage in
  let? core := optional_id values kPhysicalCore in
  let? node := optional_id values kNumaNode in
  Value {| wl_workload := name; wl_seed := sd; wl_footprint_bytes := footprint; wl_threads := threads;
           wl_decomposition := decomp; wl_isa := path; wl_lock := lock; wl_duty := duty;
           wl_line_bytes := line; wl_physical_package := package; wl_physical_core := core;
           wl_numa_node := node |}.

Definition parse_work (values : Values) : Result (option WorkloadArgs) text :=
  if negb (contains values kWorkload) then
    let? _ := refuse_first (contains values) (lit "needs --workload") kWorkloadRequired in
    let? _ := refuse_first (contains values) (lit "needs --workload") kWorkloadOptional in
    Value None
  else
    let? _ := refuse_first (λ key, negb (contains values key)) (lit "required with --workload")
                kWorkloadRequired in
    let? args := workload_of values true in Value (Some args).

Definition parse_args (args : list text) : Result WorkerArgs text :=
  let? values := collect args kRequired kWorkerOptional in
  let? ws := number_at_most kWorkers (value_at values kWorkers) kMaxWorkers in
  let? ws := at_least_one kWorkers ws in
  let? sl := number_at_most kSlot (value_at values kSlot) (ws - 1) in
  let? beat := number_at_most kHeartbeatFd (value_at values kHeartbeatFd) kIntMax in
  let? record := number_at_most kRecordFd (value_at values kRecordFd) kIntMax in
  let? control := number_at_most kControlFd (value_at values kControlFd) kIntMax in
  let? pid := number_at_most kSupervisorPid (value_at values kSupervisorPid) kIntMax in
  let? pid := at_least_one kSupervisorPid pid in
  let? pacing := pacing_of values in
  let? ids := (if contains values kCpus then cpus_of_text (value_at values kCpus) else Value []) in
  let? work := parse_work values in
  Value {| slot := sl; workers := ws; heartbeat_fd := beat; args_record_fd := record;
           args_control_fd := control; supervisor_pid := pid; args_pacing := pacing; cpus := ids;
           workload := work |}.

Definition parse_rerun_args (args : list text) : Result RerunArgs text :=
  let? values := collect args kRerunRequired [] in
  let? unit_ := workload_of values false in
  let? version := number_at_most kVersionKey (value_at values kVersionKey) kUint32Max in
  let? iter := number_of kIteration (value_at values kIteration) in
  let? cpu := number_at_most kCpu (value_at values kCpu) kUint32Max in
  Value {| unit_args := unit_; rerun_version := version; rerun_iteration := iter; rerun_cpu := cpu |}.

(** ** Writing *)

Definition flatten (pairs : list (text * text)) : list text := pairs ≫= λ p, [p.1; p.2].

Definition optional_pair (key : text) (id : option Z) : list (text * text) :=
  match id with Some id => [(key, to_dec id)] | None => [] end.

Definition workload_pairs (args : WorkloadArgs) (with_duty : bool) : list (text * text) :=
  [(kWorkload, wl_workload args); (kSeed, to_dec (wl_seed args));
   (kFootprintBytes, to_dec (wl_footprint_bytes args)); (kThreads, to_dec (wl_threads args));
   (kDecomposition, to_dec (wl_decomposition args)); (kIsa, describe_isa_path (wl_isa args));
   (kLock, describe_lock_policy (wl_lock args)); (kLineBytes, to_dec (wl_line_bytes args))]
  ++ (if with_duty then [(kOraclePeriod, to_dec (oracle_period (wl_duty args)));
                         (kIntegrityPeriod, to_dec (integrity_period (wl_duty args)))] else [])
  ++ optional_pair kPhysicalPackage (wl_physical_package args)
  ++ optional_pair kPhysicalCore (wl_physical_core args)
  ++ optional_pair kNumaNode (wl_numa_node args).

(** [if (!list.empty()) list += ','; list += std::to_string(cpu);]. *)
Definition join_cpus (cpus : list Z) : text :=
  foldl (λ list cpu, list ++ (if bool_decide (list = []) then [] else [","%byte]) ++ to_dec cpu) [] cpus.

Definition worker_pairs (args : WorkerArgs) : list (text * text) :=
  [(kSlot, to_dec (slot args)); (kWorkers, to_dec (workers args));
   (kHeartbeatFd, to_dec (heartbeat_fd args)); (kRecordFd, to_dec (args_record_fd args));
   (kControlFd, to_dec (args_control_fd args)); (kSupervisorPid, to_dec (supervisor_pid args));
   (kDurationMs, to_dec (Z.quot (duration_ns (args_pacing args)) kNsPerMs));
   (kIntervalMs, to_dec (Z.quot (interval_ns (args_pacing args)) kNsPerMs));
   (kStaleAfterMs, to_dec (Z.quot (stale_after_ns (args_pacing args)) kNsPerMs))]
  ++ (match cpus args with [] => [] | ids => [(kCpus, join_cpus ids)] end)
  ++ (match workload args with Some work => workload_pairs work true | None => [] end).

Definition kWorkerSwitch : text := lit "--worker".
Definition kRerunSwitch : text := lit "--rerun".

Definition argv_for (executable : text) (args : WorkerArgs) : list text :=
  executable :: kWorkerSwitch :: flatten (worker_pairs args).

Definition rerun_pairs (args : RerunArgs) : list (text * text) :=
  workload_pairs (unit_args args) false
  ++ [(kVersionKey, to_dec (rerun_version args)); (kIteration, to_dec (rerun_iteration args));
      (kCpu, to_dec (rerun_cpu args))].

Definition rerun_argv_for (executable : text) (args : RerunArgs) : list text :=
  executable :: kRerunSwitch :: flatten (rerun_pairs args).

(** ** Numbers *)

Lemma number_of_to_dec key n : in_u64 n → number_of key (to_dec n) = Value n.
Proof. intros Hn. unfold number_of. by rewrite split_bare. Qed.

Lemma number_at_most_to_dec key n limit :
  in_u64 n → n ≤ limit → number_at_most key (to_dec n) limit = Value n.
Proof.
  intros Hn Hl. unfold number_at_most. rewrite number_of_to_dec by done. cbn [rbind].
  by rewrite (proj2 (Z.ltb_ge _ _)).
Qed.

Lemma number_of_value key t n : number_of key t = Value n → in_u64 n.
Proof.
  unfold number_of. destruct (split_number_and_suffix t) as [[m [|c s]]|] eqn:E; [|done..].
  intros [= <-]. apply split_sound in E as (? & ? & ? & _ & _ & _ & _ & _ & _ & H). exact H.
Qed.

Lemma number_at_most_value key t limit n : number_at_most key t limit = Value n → 0 ≤ n ≤ limit.
Proof.
  unfold number_at_most. intros (m & Hm%number_of_value & H)%rbind_value.
  destruct (Z.ltb_spec limit m); [done|]. injection H as <-. unfold in_u64 in Hm. lia.
Qed.

Lemma at_least_one_value key n m : at_least_one key n = Value m ↔ n ≠ 0 ∧ m = n.
Proof. unfold at_least_one. destruct (Z.eqb_spec n 0); naive_solver. Qed.

(** ** The pairs collected *)

Definition collected (pairs : list (text * text)) : Values := list_to_map pairs.

Lemma collect_pairs_flatten known pairs values :
  Forall (λ p, p.1 ∈ known ∧ values !! p.1 = None) pairs → NoDup pairs.*1 →
  ∃ values', collect_pairs known (flatten pairs) values = Value values' ∧
             ∀ key, values' !! key = (match collected pairs !! key with
                                      | Some v => Some v | None => values !! key end).
Proof.
  revert values. induction pairs as [|[key value] pairs IH]; intros values Hall Hnd.
  { exists values. split; [done|]. intros key. unfold collected. cbn [list_to_map foldr]. by rewrite lookup_empty. }
  apply Forall_cons in Hall as [[Hk Hnone] Hall]. cbn [fmap list_fmap fst] in Hnd.
  apply NoDup_cons in Hnd as [Hnew Hnd]. cbn [fst] in *.
  unfold flatten. rewrite bind_cons. cbn [app fst snd collect_pairs].
  rewrite bool_decide_true by done. cbn [negb]. unfold contains.
  rewrite bool_decide_false by (rewrite Hnone; by intros [? [=]]).
  destruct (IH (<[key:=value]> values)) as (values' & Hc & Hl); [|done|].
  - rewrite Forall_forall in Hall |- *. intros p Hp. destruct (Hall p Hp) as [? ?]. split; [done|].
    rewrite lookup_insert_ne; [done|]. intros ->. apply Hnew. by apply list_elem_of_fmap_2.
  - exists values'. split; [exact Hc|]. intros key'. rewrite Hl. unfold collected. cbn [list_to_map foldr].
    change (foldr _ ∅ pairs) with (list_to_map pairs : Values).
    destruct (decide (key = key')) as [<-|Hne].
    + rewrite !lookup_insert_eq. by rewrite (not_elem_of_list_to_map_1 pairs key Hnew).
    + by rewrite !lookup_insert_ne.
Qed.

Lemma refuse_first_none bad what keys :
  refuse_first bad what keys = Value tt ↔ Forall (λ key, bad key = false) keys.
Proof.
  induction keys as [|key keys IH]; cbn [refuse_first]; [split; [constructor|done]|].
  rewrite Forall_cons, <- IH. destruct (bad key); [split; [done|by intros [[=] _]]|naive_solver].
Qed.

(** Arguments written as pairs of known keys, the required ones among them, are
    collected into the map of those pairs. *)
Lemma collect_flatten required optional pairs :
  Forall (λ key, key ∈ required ++ optional) pairs.*1 → NoDup pairs.*1 →
  Forall (λ key, key ∈ pairs.*1) required →
  ∃ values, collect (flatten pairs) required optional = Value values ∧
    (∀ key value, (key, value) ∈ pairs → value_at values key = value) ∧
    ∀ key, contains values key = bool_decide (key ∈ pairs.*1).
Proof.
  intros Hknown Hnd Hreq. unfold collect.
  destruct (collect_pairs_flatten (required ++ optional) pairs ∅) as (values & -> & Hl); [|done|].
  { rewrite Forall_fmap in Hknown. eapply Forall_impl; [exact Hknown|].
    intros [key value] Hk. split; [done|]. apply lookup_empty. }
  assert (Hc : ∀ key, contains values key = bool_decide (key ∈ pairs.*1)).
  { intros key. unfold contains. apply bool_decide_ext. rewrite Hl. unfold collected. split.
    - destruct (list_to_map pairs !! key) as [v|] eqn:E.
      + intros _. apply elem_of_list_to_map_2 in E. by apply (list_elem_of_fmap_2 fst _ (key, v)).
      + rewrite lookup_empty. by intros [? [=]].
    - intros Hin. destruct (list_to_map pairs !! key) as [v|] eqn:E; [by eexists|].
      by apply not_elem_of_list_to_map_2 in E. }
  exists values. cbn [rbind]. split_and!; [|intros key value Hin|done].
  - rewrite (proj2 (refuse_first_none _ _ _)); [done|]. eapply Forall_impl; [exact Hreq|].
    intros key Hin. by rewrite Hc, bool_decide_true.
  - unfold value_at. rewrite Hl. unfold collected. by rewrite (elem_of_list_to_map_1 _ _ _ Hnd Hin).
Qed.

(** ** The CPU list *)

Definition comma_free (t : text) : Prop := ","%byte ∉ t.

Lemma to_dec_comma_free n : 0 ≤ n → comma_free (to_dec n).
Proof.
  intros Hn. destruct (to_dec_spec n Hn) as (_ & Hall & _). intros Hin.
  rewrite Forall_forall in Hall. by specialize (Hall _ Hin).
Qed.

Lemma split_commas_last t : comma_free t → split_commas t = [t].
Proof.
  induction t as [|c t IH]; [done|]. intros Hc. cbn [split_commas].
  rewrite bool_decide_false by (intros ->; apply Hc; left). rewrite IH; [done|]. intros Hin. apply Hc. by right.
Qed.

Lemma split_commas_app t u : comma_free t → split_commas (t ++ ","%byte :: u) = t :: split_commas u.
Proof.
  induction t as [|c t IH]; [done|]. intros Hc. cbn [app split_commas].
  rewrite bool_decide_false by (intros ->; apply Hc; left). rewrite IH; [done|]. intros Hin. apply Hc. by right.
Qed.

Lemma join_cpus_from acc ids :
  acc ≠ [] →
  foldl (λ list cpu, list ++ (if bool_decide (list = []) then [] else [","%byte]) ++ to_dec cpu) acc ids
  = acc ++ (ids ≫= λ id, ","%byte :: to_dec id).
Proof.
  revert acc. induction ids as [|id ids IH]; intros acc Hacc; cbn [foldl]; [by rewrite app_nil_r|].
  rewrite IH by (destruct acc; done). rewrite bool_decide_false by done.
  rewrite bind_cons. cbn [app]. by rewrite <- app_assoc.
Qed.

Lemma join_cpus_cons id ids : 0 ≤ id → join_cpus (id :: ids) = to_dec id ++ (ids ≫= λ id, ","%byte :: to_dec id).
Proof.
  intros Hid. unfold join_cpus. cbn [foldl app]. rewrite bool_decide_true by done. cbn [app].
  apply join_cpus_from. by destruct (to_dec_spec id Hid).
Qed.

Lemma cpus_of_join ids : ids ≠ [] → Forall in_u32 ids → cpus_of_text (join_cpus ids) = Value ids.
Proof.
  intros Hne Hall. destruct ids as [|id ids]; [done|]. clear Hne.
  rewrite join_cpus_cons by (apply Forall_inv in Hall; apply Hall). unfold cpus_of_text.
  assert (Hnum : ∀ n, in_u32 n → number_at_most kCpus (to_dec n) kUint32Max = Value n).
  { intros n Hn. apply number_at_most_to_dec; unfold in_u32, in_u64, kUint32Max in *; lia. }
  revert id Hall. induction ids as [|id' ids IH]; intros id [Hid Hall]%Forall_cons.
  - cbn [mbind list_bind]. rewrite app_nil_r, split_commas_last by (apply to_dec_comma_free, Hid).
    cbn [cpu_ids]. by rewrite Hnum.
  - rewrite bind_cons. cbn [app]. rewrite split_commas_app by (apply to_dec_comma_free, Hid).
    cbn [cpu_ids]. rewrite Hnum by done. cbn [rbind]. by rewrite IH.
Qed.

Lemma cpu_ids_range parts ids : cpu_ids parts = Value ids → Forall in_u32 ids ∧ length ids = length parts.
Proof.
  revert ids. induction parts as [|part parts IH]; intros ids; cbn [cpu_ids]; [by intros [= <-]|].
  intros (id & Hid%number_at_most_value & H)%rbind_value. apply rbind_value in H as (ids' & H' & [= <-]).
  destruct (IH _ H'). split; [constructor; [|done]|simpl; lia]. unfold in_u32, kUint32Max in *. lia.
Qed.

Lemma split_commas_nonempty t : split_commas t ≠ [].
Proof.
  induction t as [|c t IH]; cbn [split_commas]; [done|]. destruct (bool_decide _); [done|].
  by destruct (split_commas t).
Qed.

(** ** What arguments are well formed *)

Record workload_ok (w : WorkloadArgs) : Prop := {
  wl_name_ok : is_valid_name (wl_workload w) = true;
  wl_seed_ok : in_u64 (wl_seed w);
  wl_footprint_ok : 1 ≤ wl_footprint_bytes w < 2 ^ 64;
  wl_threads_ok : 1 ≤ wl_threads w ≤ kMaxThreads;
  wl_decomposition_ok : in_u32 (wl_decomposition w);
  wl_line_ok : kMinLineBytes ≤ wl_line_bytes w ≤ kMaxLineBytes ∧ has_single_bit (wl_line_bytes w) = true;
  wl_duty_ok : in_u32 (oracle_period (wl_duty w)) ∧ in_u32 (integrity_period (wl_duty w));
  wl_package_ok : optional_dom in_u32 (wl_physical_package w);
  wl_core_ok : optional_dom in_u32 (wl_physical_core w);
  wl_node_ok : optional_dom in_u32 (wl_numa_node w);
}.

(** A whole number of milliseconds, at least one. *)
Definition ms_ok (ns : Z) : Prop := ∃ ms, ns = ms * kNsPerMs ∧ 1 ≤ ms ≤ kMaxMilliseconds.

Record worker_args_ok (a : WorkerArgs) : Prop := {
  workers_ok : 1 ≤ workers a ≤ kMaxWorkers;
  slot_ok : 0 ≤ slot a < workers a;
  heartbeat_fd_ok : 0 ≤ heartbeat_fd a ≤ kIntMax;
  record_fd_ok : 0 ≤ args_record_fd a ≤ kIntMax;
  control_fd_ok : 0 ≤ args_control_fd a ≤ kIntMax;
  supervisor_ok : 1 ≤ supervisor_pid a ≤ kIntMax;
  duration_ok : ms_ok (duration_ns (args_pacing a));
  interval_ok : ms_ok (interval_ns (args_pacing a));
  stale_ok : ms_ok (stale_after_ns (args_pacing a));
  pacing_order : interval_ns (args_pacing a) ≤ stale_after_ns (args_pacing a);
  cpus_ok : Forall in_u32 (cpus a);
  work_ok : optional_dom workload_ok (workload a);
}.

(** ** Reading back what was written *)

(** A pair among the pairs, by its key. *)
Ltac in_pairs :=
  match goal with |- _ ∈ _ => try unfold worker_pairs; cbn [app] end;
  repeat match goal with
  | |- (?k, _) ∈ (?k, _) :: _ => apply list_elem_of_here
  | |- _ ∈ _ :: _ => apply list_elem_of_further
  end.

Lemma optional_id_pairs values key id :
  (∀ n, id = Some n → value_at values key = to_dec n) → contains values key = bool_decide (is_Some id) →
  optional_dom in_u32 id → optional_id values key = Value id.
Proof.
  intros Hv Hc Hid. unfold optional_id. rewrite Hc. destruct id as [n|].
  - rewrite bool_decide_true, (Hv n) by done. cbn in Hid.
    rewrite number_at_most_to_dec by (unfold in_u64, in_u32, kUint32Max in *; lia). done.
  - by rewrite bool_decide_false by (by intros [? [=]]).
Qed.

Lemma workload_of_pairs values w with_duty :
  (∀ key value, (key, value) ∈ workload_pairs w with_duty → value_at values key = value) →
  contains values kPhysicalPackage = bool_decide (is_Some (wl_physical_package w)) →
  contains values kPhysicalCore = bool_decide (is_Some (wl_physical_core w)) →
  contains values kNumaNode = bool_decide (is_Some (wl_numa_node w)) →
  workload_ok w → (with_duty = false → wl_duty w = {| oracle_period := 1; integrity_period := 1 |}) →
  workload_of values with_duty = Value w.
Proof.
  intros Hv Hpack Hcore Hnode [] Hduty. unfold workload_of.
  assert (Hopt : ∀ key id n, id = Some n → (key, to_dec n) ∈ optional_pair key id)
    by (intros key id n ->; apply list_elem_of_here).
  assert (Hpack' : ∀ n, wl_physical_package w = Some n → value_at values kPhysicalPackage = to_dec n)
    by (intros n Hn; apply Hv; unfold workload_pairs; rewrite !elem_of_app; auto 10).
  assert (Hcore' : ∀ n, wl_physical_core w = Some n → value_at values kPhysicalCore = to_dec n)
    by (intros n Hn; apply Hv; unfold workload_pairs; rewrite !elem_of_app; auto 10).
  assert (Hnode' : ∀ n, wl_numa_node w = Some n → value_at values kNumaNode = to_dec n)
    by (intros n Hn; apply Hv; unfold workload_pairs; rewrite !elem_of_app; auto 10).
  unfold workload_pairs in Hv. cbn [app] in Hv.
  rewrite (Hv kWorkload (wl_workload w)), wl_name_ok0 by in_pairs.
  rewrite (Hv kSeed (to_dec (wl_seed w))), number_of_to_dec by (done || in_pairs). cbn [rbind].
  unfold in_u32, in_u64, kUint32Max, kMaxThreads, kMaxLineBytes, kMinLineBytes in *.
  rewrite (Hv kFootprintBytes (to_dec (wl_footprint_bytes w))), number_of_to_dec
    by (in_pairs || (unfold in_u64; lia)). cbn [rbind].
  rewrite (proj2 (at_least_one_value _ _ (wl_footprint_bytes w))) by lia. cbn [rbind].
  rewrite (Hv kThreads (to_dec (wl_threads w))), number_at_most_to_dec by (in_pairs || (unfold in_u64; lia)).
  cbn [rbind]. rewrite (proj2 (at_least_one_value _ _ (wl_threads w))) by lia. cbn [rbind].
  rewrite (Hv kDecomposition (to_dec (wl_decomposition w))), number_at_most_to_dec
    by (in_pairs || (unfold in_u64; lia)). cbn [rbind].
  rewrite (Hv kIsa (describe_isa_path (wl_isa w))) by in_pairs.
  assert (parse_isa_path (describe_isa_path (wl_isa w)) = Some (wl_isa w)) as -> by by destruct (wl_isa w).
  rewrite (Hv kLock (describe_lock_policy (wl_lock w))) by in_pairs.
  assert (parse_lock_policy (describe_lock_policy (wl_lock w)) = Some (wl_lock w)) as -> by by destruct (wl_lock w).
  cbn [named rbind].
  rewrite (Hv kLineBytes (to_dec (wl_line_bytes w))), number_at_most_to_dec
    by (in_pairs || (unfold in_u64; lia)). cbn [rbind].
  destruct wl_line_ok0 as [? ->]. rewrite (proj2 (Z.ltb_ge _ _)) by lia. cbn [negb orb rbind].
  rewrite (optional_id_pairs values kPhysicalPackage (wl_physical_package w)),
    (optional_id_pairs values kPhysicalCore (wl_physical_core w)),
    (optional_id_pairs values kNumaNode (wl_numa_node w)) by done.
  destruct with_duty.
  - cbn [app] in Hv. rewrite (Hv kOraclePeriod (to_dec (oracle_period (wl_duty w)))), number_at_most_to_dec
      by (in_pairs || (unfold in_u64; lia)). cbn [rbind].
    rewrite (Hv kIntegrityPeriod (to_dec (integrity_period (wl_duty w)))), number_at_most_to_dec
      by (in_pairs || (unfold in_u64; lia)). cbn [rbind].
    by destruct w as [? ? ? ? ? ? ? []].
  - cbn [rbind]. specialize (Hduty eq_refl). destruct w. simpl in *. by subst.
Qed.

Lemma ms_of_pairs values key ns :
  value_at values key = to_dec (Z.quot ns kNsPerMs) → ms_ok ns → milliseconds_of values key = Value ns.
Proof.
  intros Hv (ms & -> & Hms). unfold milliseconds_of. rewrite Hv.
  rewrite Z.quot_mul by done. unfold kMaxMilliseconds, int64_max, kNsPerMs in *.
  change ((2 ^ 63 - 1) / 1000000) with 9223372036854 in *.
  rewrite number_at_most_to_dec by (unfold in_u64; lia). cbn [rbind].
  by rewrite (proj2 (Z.eqb_neq _ _)) by lia.
Qed.

(** The keys written depend only on which of the options are there. *)
Definition workload_keys (with_duty package core node : bool) : list text :=
  [kWorkload; kSeed; kFootprintBytes; kThreads; kDecomposition; kIsa; kLock; kLineBytes]
  ++ (if with_duty then [kOraclePeriod; kIntegrityPeriod] else [])
  ++ (if package then [kPhysicalPackage] else []) ++ (if core then [kPhysicalCore] else [])
  ++ (if node then [kNumaNode] else []).

Definition is_some {A} (o : option A) : bool := match o with Some _ => true | None => false end.

Lemma workload_pairs_keys w with_duty :
  (workload_pairs w with_duty).*1
  = workload_keys with_duty (is_some (wl_physical_package w)) (is_some (wl_physical_core w))
      (is_some (wl_numa_node w)).
Proof.
  unfold workload_pairs, workload_keys. rewrite !fmap_app. cbn [fmap list_fmap fst].
  destruct with_duty; by destruct (wl_physical_package w), (wl_physical_core w), (wl_numa_node w).
Qed.

Definition worker_keys (has_cpus : bool) (work : option (bool * bool * bool)) : list text :=
  kRequired ++ (if has_cpus then [kCpus] else [])
  ++ (match work with Some (package, core, node) => workload_keys true package core node | None => [] end).

Definition work_shape (w : option WorkloadArgs) : option (bool * bool * bool) :=
  w ← w; Some (is_some (wl_physical_package w), is_some (wl_physical_core w), is_some (wl_numa_node w)).

Lemma worker_pairs_keys a :
  (worker_pairs a).*1 = worker_keys (negb (bool_decide (cpus a = []))) (work_shape (workload a)).
Proof.
  unfold worker_pairs, worker_keys. rewrite !fmap_app. cbn [fmap list_fmap fst]. do 2 f_equal.
  - by destruct (cpus a).
  - destruct (workload a); [|done]. apply workload_pairs_keys.
Qed.

(** Whatever the options: known keys, each once, with every required one. *)
Definition keys_fit (required optional keys : list text) : bool :=
  bool_decide (Forall (λ key, key ∈ required ++ optional) keys) && bool_decide (NoDup keys)
  && bool_decide (Forall (λ key, key ∈ keys) required).

Lemma worker_keys_fit has_cpus work : keys_fit kRequired kWorkerOptional (worker_keys has_cpus work) = true.
Proof. destruct has_cpus, work as [[[[] []] []]|]; vm_compute; reflexivity. Qed.

Lemma rerun_keys_fit :
  keys_fit kRerunRequired [] (workload_keys false false false false ++ [kVersionKey; kIteration; kCpu]) = true.
Proof. vm_compute. reflexivity. Qed.

Lemma collect_fits required optional pairs :
  keys_fit required optional pairs.*1 = true →
  ∃ values, collect (flatten pairs) required optional = Value values ∧
    (∀ key value, (key, value) ∈ pairs → value_at values key = value) ∧
    ∀ key, contains values key = bool_decide (key ∈ pairs.*1).
Proof.
  unfold keys_fit. rewrite !andb_true_iff, !bool_decide_eq_true. intros [[? ?] ?]. by apply collect_flatten.
Qed.

(** Which of the options' keys are there. *)
Lemma worker_keys_contain has_cpus work :
  bool_decide (kCpus ∈ worker_keys has_cpus work) = has_cpus ∧
  bool_decide (kWorkload ∈ worker_keys has_cpus work) = is_some work ∧
  match work with
  | Some (package, core, node) =>
    bool_decide (kPhysicalPackage ∈ worker_keys has_cpus work) = package ∧
    bool_decide (kPhysicalCore ∈ worker_keys has_cpus work) = core ∧
    bool_decide (kNumaNode ∈ worker_keys has_cpus work) = node ∧
    Forall (λ key, bool_decide (key ∈ worker_keys has_cpus work) = true) kWorkloadRequired
  | None => Forall (λ key, bool_decide (key ∈ worker_keys has_cpus work) = false)
              (kWorkloadRequired ++ kWorkloadOptional)
  end.
Proof.
  destruct has_cpus, work as [[[[] []] []]|]; split_and!;
    lazymatch goal with
    | |- Forall _ _ => apply (bool_decide_unpack _); vm_compute; exact I
    | |- _ => vm_compute; reflexivity
    end.
Qed.

Lemma is_some_decide {A} (o : option A) : bool_decide (is_Some o) = is_some o.
Proof. destruct o; [by rewrite bool_decide_true|rewrite bool_decide_false; [done|by intros [? [=]]]]. Qed.

Lemma parse_work_pairs values a :
  (∀ key value, (key, value) ∈ worker_pairs a → value_at values key = value) →
  (∀ key, contains values key = bool_decide (key ∈ (worker_pairs a).*1)) →
  worker_args_ok a → parse_work values = Value (workload a).
Proof.
  intros Hv Hc Hok. unfold parse_work.
  assert (Hfirst : ∀ bad what keys, Forall (λ key, bad key = false) keys → refuse_first bad what keys = Value tt)
    by (intros; by apply refuse_first_none).
  pose proof (worker_keys_contain (negb (bool_decide (cpus a = []))) (work_shape (workload a)))
    as (_ & Hw & Hrest). rewrite <- worker_pairs_keys, <- Hc in Hw. rewrite Hw.
  rewrite <- worker_pairs_keys in Hrest.
  destruct (workload a) as [w|] eqn:Ew; cbn [work_shape mbind option_bind is_some negb] in *.
  - destruct Hrest as (Hp & Hcr & Hn & Hreq).
    rewrite Hfirst by (eapply Forall_impl; [exact Hreq|]; intros key Hk; by rewrite Hc, Hk). cbn [rbind].
    rewrite (workload_of_pairs values w true); [done|..|done].
    + intros key value Hin. apply Hv. unfold worker_pairs. rewrite Ew, !elem_of_app. auto.
    + by rewrite Hc, is_some_decide.
    + by rewrite Hc, is_some_decide.
    + by rewrite Hc, is_some_decide.
    + pose proof (work_ok a Hok) as H. by rewrite Ew in H.
  - apply Forall_app in Hrest as [H1 H2].
    rewrite !Hfirst by (eapply Forall_impl; [eassumption|]; intros key Hk; by rewrite Hc, Hk). done.
Qed.

(** ** What is accepted is well formed *)

(** Takes a chain of early returns apart. *)
Ltac steps :=
  repeat match goal with
  | H : rbind _ _ = Value _ |- _ => apply rbind_value in H as (? & ? & H)
  end.

Lemma milliseconds_of_ok values key ns : milliseconds_of values key = Value ns → ms_ok ns.
Proof.
  unfold milliseconds_of. intros (ms & Hms%number_at_most_value & H)%rbind_value.
  destruct (Z.eqb_spec ms 0); [done|]. injection H as <-. exists ms. split; [done|lia].
Qed.

Lemma optional_id_ok values key id : optional_id values key = Value id → optional_dom in_u32 id.
Proof.
  unfold optional_id. destruct (contains values key); [|by intros [= <-]].
  intros (n & Hn%number_at_most_value & [= <-])%rbind_value. unfold kUint32Max in *. cbn. unfold in_u32. lia.
Qed.

Lemma workload_of_ok values with_duty w : workload_of values with_duty = Value w → workload_ok w.
Proof.
  unfold workload_of. intros H. destruct (is_valid_name (value_at values kWorkload)) eqn:Hname; [|done].
  cbn [rbind] in H. steps. injection H as <-.
  destruct ((_ <? kMinLineBytes) || _) eqn:Hline; [done|]. bool_facts.
  repeat match goal with
  | H : number_of _ _ = Value _ |- _ => apply number_of_value in H
  | H : number_at_most _ _ _ = Value _ |- _ => apply number_at_most_value in H
  | H : at_least_one _ _ = Value _ |- _ => apply at_least_one_value in H as [? ->]
  | H : optional_id _ _ = Value _ |- _ => apply optional_id_ok in H
  end.
  assert (Hduty : in_u32 (oracle_period x9) ∧ in_u32 (integrity_period x9)).
  { destruct with_duty; [steps|]; match goal with H : Value _ = Value _ |- _ => injection H as <- end;
      [|by split]. cbn.
    repeat match goal with H : number_at_most _ _ _ = Value _ |- _ => apply number_at_most_value in H end.
    unfold in_u32, kUint32Max in *. lia. }
  unfold in_u64, kUint32Max in *. split; cbn; try done; split_and?; try done; unfold in_u64, in_u32; lia.
Qed.

Lemma pacing_of_ok values p :
  pacing_of values = Value p →
  ms_ok (duration_ns p) ∧ ms_ok (interval_ns p) ∧ ms_ok (stale_after_ns p) ∧ interval_ns p ≤ stale_after_ns p.
Proof.
  unfold pacing_of. intros (d & Hd%milliseconds_of_ok & H)%rbind_value.
  apply rbind_value in H as (i & Hi%milliseconds_of_ok & H).
  apply rbind_value in H as (st & Hs%milliseconds_of_ok & H).
  destruct (Z.ltb_spec st i); [done|]. by injection H as <-.
Qed.

Lemma listed_cpus_ok values ids :
  (if contains values kCpus then cpus_of_text (value_at values kCpus) else Value []) = Value ids →
  Forall in_u32 ids.
Proof. destruct (contains values kCpus); [intros H; by eapply cpu_ids_range|by intros [= <-]]. Qed.

Lemma parse_work_ok values w : parse_work values = Value w → optional_dom workload_ok w.
Proof.
  unfold parse_work. destruct (negb _); intros H; steps; injection H as <-; [done|].
  by eapply workload_of_ok.
Qed.

(** ** Re-runs *)

(** A re-run checks every unit, and is placed on its CPU and nowhere else. *)
Record rerun_args_ok (a : RerunArgs) : Prop := {
  rerun_unit_ok : workload_ok (unit_args a);
  rerun_duty : wl_duty (unit_args a) = {| oracle_period := 1; integrity_period := 1 |};
  rerun_unplaced : wl_physical_package (unit_args a) = None ∧ wl_physical_core (unit_args a) = None ∧
                   wl_numa_node (unit_args a) = None;
  rerun_version_ok : in_u32 (rerun_version a);
  rerun_iteration_ok : in_u64 (rerun_iteration a);
  rerun_cpu_ok : in_u32 (rerun_cpu a);
}.

Lemma rerun_args_round_trip executable a :
  rerun_args_ok a → parse_rerun_args (drop 2 (rerun_argv_for executable a)) = Value a.
Proof.
  intros [Hunit Hduty (Hp & Hcr & Hn) Hver Hiter Hcpu].
  unfold rerun_argv_for. cbn [drop]. rewrite drop_0. unfold parse_rerun_args.
  assert (Hkeys : (rerun_pairs a).*1 = workload_keys false false false false ++ [kVersionKey; kIteration; kCpu]).
  { unfold rerun_pairs. by rewrite fmap_app, workload_pairs_keys, Hp, Hcr, Hn. }
  destruct (collect_fits kRerunRequired [] (rerun_pairs a)) as (values & -> & Hv & Hc).
  { rewrite Hkeys. apply rerun_keys_fit. }
  cbn [rbind]. assert (Hnot : ∀ key, key ∈ kWorkloadOptional → contains values key = false).
  { intros key Hin. rewrite Hc, Hkeys. apply bool_decide_false.
    unfold kWorkloadOptional in Hin. rewrite !elem_of_cons in Hin.
    destruct Hin as [->|[->|[->|[]%elem_of_nil]]]; apply (bool_decide_unpack _); vm_compute; exact I. }
  rewrite (workload_of_pairs values (unit_args a) false);
    [|intros; apply Hv; unfold rerun_pairs; rewrite elem_of_app; auto
     |rewrite ?Hp, ?Hcr, ?Hn, Hnot; [by rewrite bool_decide_false by (by intros [? [=]])|repeat constructor]..
     |done|done].
  assert (Htail : ∀ key value, (key, value) ∈ [(kVersionKey, to_dec (rerun_version a));
      (kIteration, to_dec (rerun_iteration a)); (kCpu, to_dec (rerun_cpu a))] → value_at values key = value)
    by (intros; apply Hv; unfold rerun_pairs; rewrite elem_of_app; auto).
  unfold in_u32, in_u64, kUint32Max in *. cbn [rbind].
  rewrite (Htail kVersionKey (to_dec (rerun_version a))), number_at_most_to_dec
    by (in_pairs || (unfold in_u64; lia)). cbn [rbind].
  rewrite (Htail kIteration (to_dec (rerun_iteration a))), number_of_to_dec
    by (in_pairs || (unfold in_u64; lia)). cbn [rbind].
  rewrite (Htail kCpu (to_dec (rerun_cpu a))), number_at_most_to_dec
    by (in_pairs || (unfold in_u64; lia)). cbn [rbind].
  by destruct a.
Qed.

Lemma worker_args_parsed executable a :
  worker_args_ok a → parse_args (drop 2 (argv_for executable a)) = Value a.
Proof.
  intros Hok. unfold argv_for. cbn [drop]. rewrite drop_0. unfold parse_args.
  destruct (collect_fits kRequired kWorkerOptional (worker_pairs a)) as (values & -> & Hv & Hc).
  { rewrite worker_pairs_keys. apply worker_keys_fit. }
  cbn [rbind]. pose proof (parse_work_pairs values a Hv Hc Hok) as Hwork.
  pose proof (worker_keys_contain (negb (bool_decide (cpus a = []))) (work_shape (workload a))) as (Hcpus & _).
  rewrite <- worker_pairs_keys, <- Hc in Hcpus. destruct Hok.
  unfold kMaxWorkers, kIntMax in *.
  assert (Hbase : ∀ key n limit, (key, to_dec n) ∈ worker_pairs a → 0 ≤ n < 2 ^ 64 → n ≤ limit →
            number_at_most key (value_at values key) limit = Value n)
    by (intros key n limit Hin ? ?; rewrite (Hv _ _ Hin); by apply number_at_most_to_dec).
  rewrite (Hbase kWorkers (workers a)) by (in_pairs || lia). cbn [rbind].
  rewrite (proj2 (at_least_one_value _ _ (workers a))) by lia. cbn [rbind].
  rewrite (Hbase kSlot (slot a)) by (in_pairs || lia). cbn [rbind].
  rewrite (Hbase kHeartbeatFd (heartbeat_fd a)) by (in_pairs || lia). cbn [rbind].
  rewrite (Hbase kRecordFd (args_record_fd a)) by (in_pairs || lia). cbn [rbind].
  rewrite (Hbase kControlFd (args_control_fd a)) by (in_pairs || lia). cbn [rbind].
  rewrite (Hbase kSupervisorPid (supervisor_pid a)) by (in_pairs || lia). cbn [rbind].
  rewrite (proj2 (at_least_one_value _ _ (supervisor_pid a))) by lia. cbn [rbind].
  unfold pacing_of.
  rewrite (ms_of_pairs values kDurationMs (duration_ns (args_pacing a))) by (done || (apply Hv; in_pairs)).
  rewrite (ms_of_pairs values kIntervalMs (interval_ns (args_pacing a))) by (done || (apply Hv; in_pairs)).
  rewrite (ms_of_pairs values kStaleAfterMs (stale_after_ns (args_pacing a))) by (done || (apply Hv; in_pairs)).
  cbn [rbind]. rewrite (proj2 (Z.ltb_ge _ _)) by done. cbn [rbind]. rewrite Hcpus, Hwork.
  assert (Hids : (if negb (bool_decide (cpus a = [])) then cpus_of_text (value_at values kCpus) else Value [])
                 = Value (cpus a)).
  { case_bool_decide as Hn; cbn [negb]; [by rewrite Hn|].
    rewrite (Hv kCpus (join_cpus (cpus a))); [by apply cpus_of_join|].
    unfold worker_pairs. rewrite !elem_of_app. right; left. destruct (cpus a); [done|apply list_elem_of_here]. }
  rewrite Hids. cbn [rbind]. by destruct a as [? ? ? ? ? ? [] ? ?].
Qed.

(** ** Theorems *)

(** C36. What the controller writes the worker reads: for every well-formed set of
    arguments - every CPU list, with or without a workload, each placement fact there or
    not - the argument vector parses back to exactly those arguments, the executable and
    the switch before them apart. *)
Theorem worker_args_round_trip executable a :
  worker_args_ok a → parse_args (drop 2 (argv_for executable a)) = Value a.
Proof. apply worker_args_parsed. Qed.

(** What a worker accepts is well formed: whatever the argument vector, arguments
    that parse have a slot below the workers, descriptors and a pid within their types,
    whole milliseconds that fit in nanoseconds with an allowance no shorter than the
    interval, and a workload whose every field is in range. *)
Theorem worker_args_sound args a : parse_args args = Value a → worker_args_ok a.
Proof.
  unfold parse_args. intros H. steps. injection H as <-.
  repeat match goal with
  | H : number_at_most _ _ _ = Value _ |- _ => apply number_at_most_value in H
  | H : at_least_one _ _ = Value _ |- _ => apply at_least_one_value in H as [? ->]
  | H : pacing_of _ = Value _ |- _ => apply pacing_of_ok in H as (? & ? & ? & ?)
  | H : parse_work _ = Value _ |- _ => apply parse_work_ok in H
  | H : (if _ then _ else _) = Value _ |- _ => apply listed_cpus_ok in H
  end.
  split; cbn; try done; lia.
Qed.

Definition sample_args : WorkerArgs :=
  {| slot := 1; workers := 4; heartbeat_fd := 3; args_record_fd := 5; args_control_fd := 7;
     supervisor_pid := 4021;
     args_pacing := {| duration_ns := 60000000000; interval_ns := 100000000; stale_after_ns := 3000000000 |};
     cpus := [0; 2];
     workload := Some {|
       wl_workload := lit "lz4_block"; wl_seed := 7; wl_footprint_bytes := 1048576; wl_threads := 2;
       wl_decomposition := 16; wl_isa := kAvx2; wl_lock := kTry;
       wl_duty := {| oracle_period := 16; integrity_period := 0 |}; wl_line_bytes := 64;
       wl_physical_package := Some 0; wl_physical_core := None; wl_numa_node := Some 1 |} |}.

Lemma sample_ms_ok ms : 1 ≤ ms ≤ 9000000000 → ms_ok (ms * kNsPerMs).
Proof. intros. exists ms. split; [done|]. change kMaxMilliseconds with 9223372036854. lia. Qed.

Lemma sample_args_ok : worker_args_ok sample_args.
Proof.
  split; cbn; unfold kMaxWorkers, kIntMax; try lia.
  - apply (sample_ms_ok 60000). lia.
  - apply (sample_ms_ok 100). lia.
  - apply (sample_ms_ok 3000). lia.
  - repeat apply Forall_cons_2; try apply Forall_nil_2; unfold in_u32; lia.
  - split; cbn; unfold in_u64, in_u32, kMaxThreads, kMinLineBytes, kMaxLineBytes; split_and?; try lia;
      vm_compute; reflexivity.
Qed.

Lemma worker_args_round_trip_witness :
  parse_args (drop 2 (argv_for (lit "loadforge") sample_args)) = Value sample_args.
Proof. exact (worker_args_round_trip (lit "loadforge") sample_args sample_args_ok). Defined.

Lemma worker_args_sound_witness :
  parse_args (drop 2 (argv_for (lit "loadforge") sample_args)) = Value sample_args ∧
  ms_ok (interval_ns (args_pacing sample_args)).
Proof.
  assert (H : parse_args (drop 2 (argv_for (lit "loadforge") sample_args)) = Value sample_args)
    by (vm_compute; reflexivity).
  split; [exact H|]. exact (interval_ok _ (worker_args_sound _ _ H)).
Defined.

(** The numbers of a command line may have spaces around them. *)
Lemma number_of_spaces : number_of kSlot (lit " 5 ") = Value 5.
Proof. vm_compute. reflexivity. Qed.
