(* ===== verification/Span.v ===== *)
(** * std::span: bounded access to a buffer

    The numerical code of the repository works on [std::span]s, where an index
    past the end is undefined behaviour and a [std::size_t] difference below zero
    wraps. A buffer is a list, a [std::size_t] a [Z], and an operation on them
    answers [None] where the C++ would leave the buffer or wrap. A theorem that
    a function of the model answers [Some] is then a theorem that the code stays
    inside its buffers and that none of its subtractions wraps.

    [splice] is the reference these are proved against: the buffer with a run of
    elements put in at a position. *)

From S2P Require Export Bytes.

Section Span.
Context {A : Type}.
Implicit Types l bs : list A.
Implicit Types pos count : Z.

(** [l\[at\]] read. *)
Definition load l pos : option A :=
  if 0 <=? pos then l !! Z.to_nat pos else None.

(** [l\[at\] = b]. *)
Definition store l pos (b : A) : option (list A) :=
  if (0 <=? pos) && (pos <? size_of l) then Some (<[Z.to_nat pos := b]> l) else None.

(** [l.subspan(at, count)]. *)
Definition subspan l pos count : option (list A) :=
  if (0 <=? pos) && (0 <=? count) && (pos + count <=? size_of l)
  then Some (take (Z.to_nat count) (drop (Z.to_nat pos) l)) else None.

(** [l.subspan(at)]. *)
Definition subspan_from l pos : option (list A) :=
  if (0 <=? pos) && (pos <=? size_of l) then Some (drop (Z.to_nat pos) l) else None.

(** The buffer with [bs] in place of what was at [at]. *)
Definition splice l pos bs : list A :=
  take (Z.to_nat pos) l ++ bs ++ drop (Z.to_nat pos + length bs) l.

(** [std::ranges::copy(bs, l.subspan(at).begin())] and [std::memcpy]. *)
Definition blit l pos bs : option (list A) :=
  if (0 <=? pos) && (pos + size_of bs <=? size_of l) then Some (splice l pos bs) else None.

End Span.

(** [std::ranges::fill(l.first(count), b)]. *)
Definition fill_first {A} (l : list A) (count : Z) (b : A) : option (list A) :=
  blit l 0 (replicate (Z.to_nat count) b).

(** [a - b] and [a + b] on [std::size_t], where the C++ must not wrap. *)
Definition minus64 (a b : Z) : option Z := if b <=? a then Some (a - b) else None.
Definition plus64 (a b : Z) : option Z := if a + b <? 2 ^ 64 then Some (a + b) else None.

Section SpanFacts.
Context {A : Type}.
Implicit Types l bs cs p m s : list A.
Implicit Types pos count : Z.

Lemma size_of_nonneg l : 0 ≤ size_of l.
Proof. unfold size_of. lia. Qed.

Lemma size_of_nil : size_of (@nil A) = 0.
Proof. done. Qed.

Lemma size_of_cons (x : A) l : size_of (x :: l) = 1 + size_of l.
Proof. unfold size_of. cbn [length]. lia. Qed.

Lemma size_of_app l bs : size_of (l ++ bs) = size_of l + size_of bs.
Proof. unfold size_of. rewrite length_app. lia. Qed.

Lemma size_of_replicate n (x : A) : size_of (replicate n x) = Z.of_nat n.
Proof. unfold size_of. by rewrite length_replicate. Qed.

Lemma size_of_take count l :
  0 ≤ count ≤ size_of l → size_of (take (Z.to_nat count) l) = count.
Proof. unfold size_of. rewrite length_take. lia. Qed.

Lemma size_of_drop count l :
  0 ≤ count ≤ size_of l → size_of (drop (Z.to_nat count) l) = size_of l - count.
Proof. unfold size_of. rewrite length_drop. lia. Qed.

Lemma size_of_splice l pos bs :
  0 ≤ pos → pos + size_of bs ≤ size_of l → size_of (splice l pos bs) = size_of l.
Proof.
  unfold size_of, splice. intros. rewrite !length_app, length_take, length_drop. lia.
Qed.

(** Writing one run after another is writing both. *)
Lemma splice_splice l pos bs cs :
  0 ≤ pos → pos + size_of bs ≤ size_of l →
  splice (splice l pos bs) (pos + size_of bs) cs = splice l pos (bs ++ cs).
Proof.
  unfold splice, size_of. intros H0 Hfit.
  replace (Z.to_nat (pos + Z.of_nat (length bs))) with (Z.to_nat pos + length bs)%nat by lia.
  rewrite (app_assoc (take _ l) bs (drop _ l)), take_app_length', drop_app_ge.
  - rewrite length_app, length_take, drop_drop, <- !app_assoc, length_app.
    do 4 f_equal. lia.
  - rewrite length_app, length_take. lia.
  - rewrite length_app, length_take. lia.
Qed.

Lemma splice_nil l pos : splice l pos [] = l.
Proof. unfold splice. cbn. by rewrite Nat.add_0_r, take_drop. Qed.

Lemma take_splice l pos bs :
  0 ≤ pos → pos + size_of bs ≤ size_of l →
  take (Z.to_nat (pos + size_of bs)) (splice l pos bs) = take (Z.to_nat pos) l ++ bs.
Proof.
  unfold splice, size_of. intros. rewrite app_assoc. apply take_app_length'.
  rewrite length_app, length_take. lia.
Qed.

Lemma take_splice_before l pos bs :
  0 ≤ pos ≤ size_of l → take (Z.to_nat pos) (splice l pos bs) = take (Z.to_nat pos) l.
Proof.
  unfold splice, size_of. intros. apply take_app_length'. rewrite length_take. lia.
Qed.

Lemma drop_splice l pos bs :
  0 ≤ pos → pos + size_of bs ≤ size_of l →
  drop (Z.to_nat (pos + size_of bs)) (splice l pos bs) = drop (Z.to_nat (pos + size_of bs)) l.
Proof.
  unfold splice, size_of. intros. rewrite app_assoc, drop_app_length'.
  - f_equal. lia.
  - rewrite length_app, length_take. lia.
Qed.

(** A run put in place of one as long, between what stays. *)
Lemma splice_app p m s bs pos :
  pos = size_of p → size_of m = size_of bs → splice (p ++ m ++ s) pos bs = p ++ bs ++ s.
Proof.
  intros -> Hl. unfold splice, size_of in *. rewrite Nat2Z.id, take_app_length. f_equal. f_equal.
  rewrite app_assoc, drop_app_length'; [done|]. rewrite length_app. lia.
Qed.

(** The operations, inside the buffer. *)

Lemma load_some l pos : 0 ≤ pos < size_of l → ∃ b, load l pos = Some b.
Proof.
  unfold load, size_of. intros. rewrite (proj2 (Z.leb_le _ _)) by lia.
  apply lookup_lt_is_Some_2. lia.
Qed.

Lemma load_lookup l pos : 0 ≤ pos → load l pos = l !! Z.to_nat pos.
Proof. intros. unfold load. by rewrite (proj2 (Z.leb_le _ _)). Qed.

Lemma load_bound l pos b : load l pos = Some b → 0 ≤ pos < size_of l.
Proof.
  unfold load, size_of. case_match eqn:E; [|done]. apply Z.leb_le in E.
  intros H%lookup_lt_Some. lia.
Qed.

Lemma store_splice l pos b : 0 ≤ pos < size_of l → store l pos b = Some (splice l pos [b]).
Proof.
  unfold store, splice. intros [H1 H2].
  rewrite (proj2 (Z.leb_le _ _)), (proj2 (Z.ltb_lt _ _)) by lia. simpl. f_equal.
  rewrite insert_take_drop by (unfold size_of in H2; lia). do 2 f_equal. f_equal. lia.
Qed.

Lemma blit_splice l pos bs :
  0 ≤ pos → pos + size_of bs ≤ size_of l → blit l pos bs = Some (splice l pos bs).
Proof.
  unfold blit. intros. by rewrite !(proj2 (Z.leb_le _ _)) by lia.
Qed.

Lemma subspan_take_drop l pos count :
  0 ≤ pos → 0 ≤ count → pos + count ≤ size_of l →
  subspan l pos count = Some (take (Z.to_nat count) (drop (Z.to_nat pos) l)).
Proof. unfold subspan. intros. by rewrite !(proj2 (Z.leb_le _ _)) by lia. Qed.

Lemma subspan_from_drop l pos :
  0 ≤ pos ≤ size_of l → subspan_from l pos = Some (drop (Z.to_nat pos) l).
Proof. unfold subspan_from. intros. by rewrite !(proj2 (Z.leb_le _ _)) by lia. Qed.

End SpanFacts.

Lemma minus64_some a b : b ≤ a → minus64 a b = Some (a - b).
Proof. unfold minus64. intros. by rewrite (proj2 (Z.leb_le _ _)). Qed.

Lemma plus64_some a b : a + b < 2 ^ 64 → plus64 a b = Some (a + b).
Proof. unfold plus64. intros. by rewrite (proj2 (Z.ltb_lt _ _)). Qed.

#[export] Hint Rewrite @size_of_nil @size_of_cons @size_of_app @size_of_replicate : size_of.

(** Sizes of concatenations, as sums. *)
Ltac sizes := autorewrite with size_of in *.

(** Reading a buffer in order: what [l.subspan(pos)] still holds. *)
Section Reading.
Context {A : Type}.
Implicit Types l r s : list A.

Lemma drop_cons_load l pos (b : A) r :
  0 ≤ pos → drop (Z.to_nat pos) l = b :: r →
  load l pos = Some b ∧ drop (Z.to_nat (pos + 1)) l = r ∧ pos < size_of l.
Proof.
  intros Hpos E. rewrite load_lookup by done.
  assert (Hb : l !! Z.to_nat pos = Some b).
  { rewrite <- (Nat.add_0_r (Z.to_nat pos)), <- lookup_drop, E. done. }
  split_and!; [done| |].
  - replace (Z.to_nat (pos + 1)) with (Z.to_nat pos + 1)%nat by lia.
    rewrite <- drop_drop, E. done.
  - apply lookup_lt_Some in Hb. unfold size_of. lia.
Qed.

Lemma load_drop_cons l pos (b : A) :
  load l pos = Some b → drop (Z.to_nat pos) l = b :: drop (Z.to_nat (pos + 1)) l.
Proof.
  intros H. pose proof (load_bound _ _ _ H) as Hb. rewrite load_lookup in H by lia.
  replace (Z.to_nat (pos + 1)) with (S (Z.to_nat pos)) by lia. by apply drop_S.
Qed.

Lemma drop_app_size l pos s r :
  0 ≤ pos → drop (Z.to_nat pos) l = s ++ r → pos ≤ size_of l →
  drop (Z.to_nat (pos + size_of s)) l = r ∧ pos + size_of s ≤ size_of l.
Proof.
  intros Hpos E Hl. split.
  - replace (Z.to_nat (pos + size_of s)) with (Z.to_nat pos + length s)%nat
      by (unfold size_of; lia).
    by rewrite <- drop_drop, E, drop_app_length.
  - pose proof (size_of_drop pos l ltac:(lia)) as Hs. rewrite E in Hs.
    rewrite size_of_app in Hs. pose proof (size_of_nonneg r). lia.
Qed.

Lemma subspan_app l pos s r :
  0 ≤ pos → pos ≤ size_of l → drop (Z.to_nat pos) l = s ++ r →
  subspan l pos (size_of s) = Some s.
Proof.
  intros Hpos Hl E. pose proof (drop_app_size l pos s r Hpos E Hl) as [_ ?].
  pose proof (size_of_nonneg s). rewrite subspan_take_drop by lia.
  rewrite E. unfold size_of. by rewrite Nat2Z.id, take_app_length.
Qed.

(** Everything of [l] from [pos] on, cut after [count]. *)
Lemma drop_take_split l pos count :
  0 ≤ pos → 0 ≤ count → pos + count ≤ size_of l →
  drop (Z.to_nat pos) l
  = take (Z.to_nat count) (drop (Z.to_nat pos) l) ++ drop (Z.to_nat (pos + count)) l.
Proof.
  intros. replace (Z.to_nat (pos + count)) with (Z.to_nat pos + Z.to_nat count)%nat by lia.
  by rewrite <- drop_drop, take_drop.
Qed.

End Reading.

(** Equality of answers, down to the components of their tuples. *)
Ltac tuples :=
  repeat match goal with
  | |- Some _ = Some _ => apply f_equal
  | |- Value _ = Value _ => apply f_equal
  | |- (_, _) = (_, _) => apply f_equal2
  end; try done; try lia.
