(* ===== verification/Lz4Block.v ===== *)
(** * workloads/compression: the LZ4 block compressor

    [write_sequence] and [compress_block] (workloads/compression/lz4_block.cpp)
    over the buffers of Span.v, with [load_le32] and [compress_bound]
    (workloads/compression/spec.hpp). The reference is the block format itself: a
    block is the bytes of a list of sequences, each some literals and a match that
    reaches back into what is already decoded, and a last run of literals;
    [replay] is what it decodes to and [legal] the rules of the format, the
    end-of-block rules among them. *)

From S2P Require Export Span.

(** ** The constants and helpers of spec.hpp and lz4_block.hpp *)

Definition kMinMatch : Z := 4.
Definition kLastLiterals : Z := 5.
Definition kMatchFindLimit : Z := 12.
Definition kMaxOffset : Z := 65535.
Definition kLengthEscape : Z := 15.
Definition kHashLog : Z := 12.
Definition kHashEntries : Z := 1 ≪ kHashLog.
Definition kTableBytes : Z := kHashEntries * 4.

Definition compress_bound (n : Z) : Z := n + n / 255 + 16.

Definition load_le32 (bytes : list byte) (pos : Z) : option Z :=
  four ← subspan bytes pos 4; Some (get_le four).

Definition hash_slot (four_bytes : Z) : Z := u32 (four_bytes * 2654435761) ≫ (32 - kHashLog).

(** ** The compressor *)

(** The loop of [write_length]: a byte of 255 for each whole 255 of [rest]. *)
Fixpoint write_length_loop (fuel : nat) (block : list byte) (pos rest : Z) :
    option (list byte * Z) :=
  match fuel with
  | O => None
  | S fuel =>
      if 255 <=? rest then
        block ← store block pos (byte_of 0xFF);
        write_length_loop fuel block (pos + 1) (rest - 255)
      else
        block ← store block pos (byte_of rest);
        Some (block, pos + 1)
  end.

Definition write_length (block : list byte) (pos rest : Z) : option (list byte * Z) :=
  write_length_loop (S (Z.to_nat (rest / 255))) block pos rest.

(** The table's entries are 32-bit words copied to and from its bytes. *)
Definition table_get (table : list byte) (slot : Z) : option Z :=
  position ← subspan table (slot * 4) 4; Some (get_le position).

Definition table_put (table : list byte) (slot position : Z) : option (list byte) :=
  blit table (slot * 4) (put_le 4 position).

Definition write_sequence (block : list byte) (pos : Z) (literals : list byte)
    (offset match_length : Z) : option (list byte * Z) :=
  let literal_count := size_of literals in
  match_code ← (if match_length =? 0 then Some 0 else minus64 match_length kMinMatch);
  let token := Z.lor (Z.min literal_count kLengthEscape ≪ 4) (Z.min match_code kLengthEscape) in
  block ← store block pos (byte_of token);
  '(block, pos) ← (if kLengthEscape <=? literal_count
                   then write_length block (pos + 1) (literal_count - kLengthEscape)
                   else Some (block, pos + 1));
  block ← blit block pos literals;
  let pos := pos + literal_count in
  if match_length =? 0 then Some (block, pos)
  else
    block ← store block pos (byte_of (Z.land offset 0xFF));
    block ← store block (pos + 1) (byte_of (offset ≫ 8));
    let pos := pos + 2 in
    if kLengthEscape <=? match_code
    then write_length block pos (match_code - kLengthEscape)
    else Some (block, pos).

(** The inner loop of [compress_block]: how far the match goes. *)
Fixpoint extend_match (fuel : nat) (input : list byte) (match_end candidate position length : Z) :
    option Z :=
  match fuel with
  | O => None
  | S fuel =>
      if position + length <? match_end then
        a ← load input (candidate + length);
        b ← load input (position + length);
        if decide (a = b)
        then extend_match fuel input match_end candidate position (length + 1)
        else Some length
      else Some length
  end.

(** What [compress_block] keeps between positions. *)
Record Finder := {
  position : Z;
  anchor : Z;
  written : Z;
  block : list byte;
  table : list byte
}.

(** One turn of the outer loop. *)
Definition compress_step (input : list byte) (match_end : Z) (f : Finder) : option Finder :=
  four_bytes ← load_le32 input (position f);
  let slot := hash_slot four_bytes in
  candidate ← table_get (table f) slot;
  table' ← table_put (table f) slot (position f);
  found ← (if (candidate <? position f) && (position f - candidate <=? kMaxOffset)
           then four ← load_le32 input candidate; Some (four =? four_bytes)
           else Some false);
  if (found : bool) then
    length ← extend_match (Z.to_nat (size_of input)) input match_end candidate (position f)
               kMinMatch;
    literals ← subspan input (anchor f) (position f - anchor f);
    '(block', written') ← write_sequence (block f) (written f) literals
                            (position f - candidate) length;
    Some {| position := position f + length; anchor := position f + length;
            written := written'; block := block'; table := table' |}
  else
    Some {| position := position f + 1; anchor := anchor f; written := written f;
            block := block f; table := table' |}.

Fixpoint compress_loop (fuel : nat) (input : list byte) (last_start match_end : Z) (f : Finder) :
    option Finder :=
  match fuel with
  | O => None
  | S fuel =>
      if position f <=? last_start then
        f ← compress_step input match_end f;
        compress_loop fuel input last_start match_end f
      else Some f
  end.

(** The last sequence: the literals no match took. *)
Definition compress_last (input : list byte) (f : Finder) : option (list byte * list byte * Z) :=
  literals ← subspan_from input (anchor f);
  '(block', written') ← write_sequence (block f) (written f) literals 0 0;
  Some (block', table f, written').

(** The block and the table as the call leaves them, and the block's length. *)
Definition compress_block (input block table : list byte) : option (list byte * list byte * Z) :=
  let size := size_of input in
  f ← (if kMatchFindLimit <? size then
         table ← fill_first table kTableBytes (byte_of 0);
         compress_loop (S (Z.to_nat size)) input (size - kMatchFindLimit) (size - kLastLiterals)
           {| position := 0; anchor := 0; written := 0; block := block; table := table |}
       else Some {| position := 0; anchor := 0; written := 0; block := block; table := table |});
  compress_last input f.

(** ** The block format *)

(** A sequence with a match: its literals, and the match's offset and length. *)
Record Sequence := {
  literals : list byte;
  offset : Z;
  match_length : Z
}.

Definition length_bytes (rest : Z) : list byte :=
  replicate (Z.to_nat (rest / 255)) (byte_of 255) ++ [byte_of (rest mod 255)].

(** The extra bytes of a length its nibble does not hold. *)
Definition extra_bytes (n : Z) : list byte :=
  if kLengthEscape <=? n then length_bytes (n - kLengthEscape) else [].

Definition token_byte (literal_count match_code : Z) : byte :=
  byte_of (Z.lor (Z.min literal_count kLengthEscape ≪ 4) (Z.min match_code kLengthEscape)).

Definition literal_bytes (lits : list byte) (match_code : Z) : list byte :=
  token_byte (size_of lits) match_code :: extra_bytes (size_of lits) ++ lits.

Definition offset_bytes (off : Z) : list byte :=
  [byte_of (Z.land off 0xFF); byte_of (off ≫ 8)].

Definition sequence_bytes (s : Sequence) : list byte :=
  literal_bytes (literals s) (match_length s - kMinMatch)
  ++ offset_bytes (offset s) ++ extra_bytes (match_length s - kMinMatch).

Fixpoint block_bytes (seqs : list Sequence) (last : list byte) : list byte :=
  match seqs with
  | [] => literal_bytes last 0
  | s :: seqs => sequence_bytes s ++ block_bytes seqs last
  end.

(** A match copies byte by byte, so it may read what it has just written. *)
Fixpoint copy_match (n : nat) (off : Z) (out : list byte) : list byte :=
  match n with
  | O => out
  | S n =>
      match load out (size_of out - off) with
      | Some b => copy_match n off (out ++ [b])
      | None => out
      end
  end.

Definition replay_sequence (out : list byte) (s : Sequence) : list byte :=
  copy_match (Z.to_nat (match_length s)) (offset s) (out ++ literals s).

Fixpoint replay (out : list byte) (seqs : list Sequence) (last : list byte) : list byte :=
  match seqs with
  | [] => out ++ last
  | s :: seqs => replay (replay_sequence out s) seqs last
  end.

(** The rules for a match after [done] decoded bytes of [size]: the offset codes
    in two bytes and stays inside what is decoded, the match is no shorter than
    four bytes, starts at least twelve before the end and leaves the last five. *)
Definition legal_match (size done : Z) (s : Sequence) : Prop :=
  1 ≤ offset s ≤ done ∧ offset s ≤ kMaxOffset ∧ kMinMatch ≤ match_length s
  ∧ done + kMatchFindLimit ≤ size ∧ done + match_length s + kLastLiterals ≤ size.

Fixpoint legal (size : Z) (out : list byte) (seqs : list Sequence) (last : list byte) : Prop :=
  match seqs with
  | [] => size_of out + size_of last = size
  | s :: seqs =>
      legal_match size (size_of out + size_of (literals s)) s
      ∧ legal size (replay_sequence out s) seqs last
  end.

(** ** Writing: [write_sequence] writes the bytes of its sequence *)

(** [(b, p)] is the buffer [block] after [bs] was written at [pos]. *)
Definition wrote (block : list byte) (pos : Z) (bs : list byte) (r : option (list byte * Z)) : Prop :=
  r = Some (splice block pos bs, pos + size_of bs).

Lemma wrote_refl block pos bs :
  bs = [] → wrote block pos bs (Some (block, pos)).
Proof. intros ->. unfold wrote. rewrite splice_nil. sizes. do 2 f_equal. lia. Qed.

(** One more write after [bs]. *)
Lemma wrote_trans block pos bs cs r :
  0 ≤ pos → pos + size_of bs ≤ size_of block →
  wrote (splice block pos bs) (pos + size_of bs) cs r → wrote block pos (bs ++ cs) r.
Proof.
  unfold wrote. intros H0 Hfit ->. rewrite splice_splice by lia. sizes. do 2 f_equal. lia.
Qed.

Lemma size_length_bytes rest : 0 ≤ rest → size_of (length_bytes rest) = rest / 255 + 1.
Proof. intros. unfold length_bytes. sizes. pose proof (Z.div_pos rest 255). lia. Qed.

Lemma length_bytes_step rest :
  255 ≤ rest → length_bytes rest = byte_of 255 :: length_bytes (rest - 255).
Proof.
  intros H. unfold length_bytes.
  replace (rest - 255) with (rest + -1 * 255) by lia. rewrite Z.div_add, Z.mod_add by lia.
  assert (1 ≤ rest / 255) by (apply Z.div_le_lower_bound; lia).
  replace (Z.to_nat (rest / 255)) with (S (Z.to_nat (rest / 255 + -1))) by lia. done.
Qed.

Lemma length_bytes_small rest : 0 ≤ rest < 255 → length_bytes rest = [byte_of rest].
Proof. intros. unfold length_bytes. by rewrite Z.div_small, Z.mod_small by lia. Qed.

Lemma write_length_wrote block pos rest :
  0 ≤ pos → 0 ≤ rest → pos + size_of (length_bytes rest) ≤ size_of block →
  wrote block pos (length_bytes rest) (write_length block pos rest).
Proof.
  unfold write_length. intros Hpos Hrest.
  rewrite size_length_bytes by done.
  assert (Hn : ∃ n, rest / 255 = Z.of_nat n).
  { exists (Z.to_nat (rest / 255)). pose proof (Z.div_pos rest 255). lia. }
  destruct Hn as [n Hn]. rewrite Hn, Nat2Z.id.
  revert block pos rest Hpos Hrest Hn. induction n as [|n IH]; intros block pos rest Hpos Hrest Hn Hfit;
    cbn [write_length_loop].
  - assert (rest < 255) by dlia. rewrite (proj2 (Z.leb_gt _ _)), length_bytes_small by lia.
    rewrite store_splice by lia. done.
  - assert (255 ≤ rest) by dlia. rewrite (proj2 (Z.leb_le _ _)), length_bytes_step by lia.
    rewrite store_splice by lia. cbn [mbind option_bind].
    apply (wrote_trans _ _ [byte_of 255]); sizes; try lia.
    rewrite Z.add_0_r. apply IH; try lia; [dlia|].
    rewrite size_of_splice by (sizes; lia). lia.
Qed.

Lemma write_extra_wrote block pos n :
  0 ≤ pos → 0 ≤ n → pos + size_of (extra_bytes n) ≤ size_of block →
  wrote block pos (extra_bytes n)
    (if kLengthEscape <=? n then write_length block pos (n - kLengthEscape) else Some (block, pos)).
Proof.
  unfold extra_bytes. intros Hpos Hn. destruct (Z.leb_spec kLengthEscape n).
  - intros. apply write_length_wrote; [done| |done]. lia.
  - intros. by apply wrote_refl.
Qed.

(** The writes in order: each continues from where the last one left the buffer. *)
Lemma wrote_bind {B} block pos bs r (k : list byte * Z → option B) :
  wrote block pos bs r → (r ≫= k) = k (splice block pos bs, pos + size_of bs).
Proof. by intros ->. Qed.

Lemma write_literals_wrote block pos lits code (k : list byte * Z → option (list byte * Z)) :
  0 ≤ pos → pos + size_of (literal_bytes lits code) ≤ size_of block →
  ('(block, pos) ← (block ← store block pos (token_byte (size_of lits) code);
                    if kLengthEscape <=? size_of lits
                    then write_length block (pos + 1) (size_of lits - kLengthEscape)
                    else Some (block, pos + 1));
   block ← blit block pos lits; k (block, pos + size_of lits))
  = k (splice block pos (literal_bytes lits code), pos + size_of (literal_bytes lits code)).
Proof.
  unfold literal_bytes. intros Hpos Hfit. sizes.
  pose proof (size_of_nonneg lits). pose proof (size_of_nonneg (extra_bytes (size_of lits))).
  rewrite store_splice by lia. cbn [mbind option_bind].
  set (t := token_byte _ _).
  erewrite (wrote_bind (splice block pos [t]));
    [|apply write_extra_wrote; rewrite ?size_of_splice; sizes; lia].
  assert (E1 : splice (splice block pos [t]) (pos + 1) (extra_bytes (size_of lits))
               = splice block pos (t :: extra_bytes (size_of lits))).
  { pose proof (splice_splice block pos [t] (extra_bytes (size_of lits))) as E.
    sizes. apply E; lia. }
  rewrite E1. rewrite blit_splice by (rewrite ?size_of_splice; sizes; lia).
  cbn [mbind option_bind]. f_equal. f_equal; [|lia].
  pose proof (splice_splice block pos (t :: extra_bytes (size_of lits)) lits) as E.
  sizes. replace (pos + 1 + size_of (extra_bytes (size_of lits)))
    with (pos + (1 + size_of (extra_bytes (size_of lits)))) by lia. apply E; lia.
Qed.

Lemma write_last_wrote block pos lits :
  0 ≤ pos → pos + size_of (literal_bytes lits 0) ≤ size_of block →
  wrote block pos (literal_bytes lits 0) (write_sequence block pos lits 0 0).
Proof.
  intros Hpos Hfit. unfold write_sequence. cbn [mbind option_bind Z.eqb].
  pose proof (write_literals_wrote block pos lits 0 (λ p, Some p) Hpos Hfit) as E.
  unfold token_byte in E. etransitivity; [|apply E].
  change (Z.min 0 kLengthEscape) with 0. by destruct (store _ _ _).
Qed.

(** The offset's two bytes and the match length's extra bytes. *)
Lemma write_match_wrote block pos off code :
  0 ≤ pos → 0 ≤ code → pos + size_of (offset_bytes off ++ extra_bytes code) ≤ size_of block →
  wrote block pos (offset_bytes off ++ extra_bytes code)
    (block ← store block pos (byte_of (Z.land off 0xFF));
     block ← store block (pos + 1) (byte_of (off ≫ 8));
     if kLengthEscape <=? code then write_length block (pos + 2) (code - kLengthEscape)
     else Some (block, pos + 2)).
Proof.
  intros Hpos Hcode Hfit. pose proof (size_of_nonneg (extra_bytes code)).
  assert (Hob : size_of (offset_bytes off) = 2) by done. rewrite size_of_app, Hob in Hfit.
  apply wrote_trans; [lia|lia|]. rewrite Hob.
  rewrite store_splice by lia. cbn [mbind option_bind].
  rewrite store_splice by (rewrite size_of_splice; sizes; lia). cbn [mbind option_bind].
  pose proof (splice_splice block pos [byte_of (Z.land off 0xFF)] [byte_of (off ≫ 8)]) as E.
  change (size_of [_]) with 1 in E. rewrite E by lia. apply write_extra_wrote; [lia|done|].
  rewrite size_of_splice by (sizes; lia). lia.
Qed.

Lemma write_sequence_wrote block pos s :
  0 ≤ pos → kMinMatch ≤ match_length s → pos + size_of (sequence_bytes s) ≤ size_of block →
  wrote block pos (sequence_bytes s)
    (write_sequence block pos (literals s) (offset s) (match_length s)).
Proof.
  unfold sequence_bytes. intros Hpos Hm Hfit. unfold write_sequence.
  assert (kMinMatch = 4) by done. rewrite (proj2 (Z.eqb_neq _ _)) by lia.
  rewrite minus64_some by lia. cbn [mbind option_bind].
  set (code := match_length s - kMinMatch) in *.
  set (lb := literal_bytes (literals s) code) in *.
  pose proof (size_of_nonneg lb) as Hlb. rewrite (size_of_app lb) in Hfit.
  pose proof (size_of_nonneg (offset_bytes (offset s) ++ extra_bytes code)).
  apply wrote_trans; [lia|lia|]. fold lb.
  pose proof (write_match_wrote (splice block pos lb) (pos + size_of lb) (offset s) code
    ltac:(lia) ltac:(lia) ltac:(rewrite size_of_splice by lia; lia)) as Hw.
  unfold wrote in *. rewrite <- Hw.
  pose proof (write_literals_wrote block pos (literals s) code (λ '(b, p),
    b ← store b p (byte_of (Z.land (offset s) 0xFF));
    b ← store b (p + 1) (byte_of (offset s ≫ 8));
    if kLengthEscape <=? code then write_length b (p + 2) (code - kLengthEscape)
    else Some (b, p + 2)) Hpos) as E.
  fold lb in E. rewrite <- E by lia. unfold token_byte.
  destruct (store block pos _); reflexivity.
Qed.

(** ** The bound: what a sequence costs against what it covers *)

Lemma size_extra_bytes n :
  0 ≤ n → size_of (extra_bytes n) = if kLengthEscape <=? n then (n - kLengthEscape) / 255 + 1 else 0.
Proof.
  intros. unfold extra_bytes. destruct (Z.leb_spec kLengthEscape n); [|done].
  apply size_length_bytes. lia.
Qed.

Lemma size_extra_bytes_le n : 0 ≤ n → size_of (extra_bytes n) ≤ n / 255 + 1.
Proof.
  intros Hn. rewrite size_extra_bytes by done. unfold kLengthEscape.
  destruct (Z.leb_spec 15 n); dlia.
Qed.

Lemma size_literal_bytes lits code :
  size_of (literal_bytes lits code) = 1 + size_of (extra_bytes (size_of lits)) + size_of lits.
Proof. unfold literal_bytes. sizes. lia. Qed.

Lemma size_sequence_bytes s :
  kMinMatch ≤ match_length s →
  size_of (sequence_bytes s)
    ≤ size_of (literals s) + match_length s + size_of (literals s) / 255.
Proof.
  intros Hm. unfold sequence_bytes. sizes. rewrite size_literal_bytes.
  pose proof (size_extra_bytes_le (size_of (literals s)) (size_of_nonneg _)).
  rewrite (size_extra_bytes (match_length s - _)) by lia.
  change (size_of (offset_bytes _)) with 2. unfold kMinMatch, kLengthEscape in *.
  destruct (Z.leb_spec 15 (match_length s - 4)); dlia.
Qed.

Lemma div_255_add a b c : 0 ≤ c → a / 255 + b / 255 ≤ (a + b + c) / 255.
Proof. intros. dlia. Qed.

(** ** The match finder *)

(** The bytes at [c] and at [p] are the same for [n] bytes. *)
Definition same_bytes (input : list byte) (c p n : Z) : Prop :=
  ∀ i, 0 ≤ i < n → load input (c + i) = load input (p + i).

Lemma load_le32_some input pos :
  0 ≤ pos → pos + 4 ≤ size_of input →
  load_le32 input pos = Some (get_le (take 4 (drop (Z.to_nat pos) input))).
Proof. intros. unfold load_le32. by rewrite subspan_take_drop by lia. Qed.

Lemma load_le32_same input c p :
  0 ≤ c → c + 4 ≤ size_of input → 0 ≤ p → p + 4 ≤ size_of input →
  load_le32 input c = load_le32 input p → same_bytes input c p 4.
Proof.
  intros Hc0 Hc Hp0 Hp. rewrite !load_le32_some by done. intros [= E].
  apply get_le_inj in E.
  - intros i Hi. rewrite !load_lookup by lia.
    apply (f_equal (lookup (Z.to_nat i))) in E.
    rewrite !lookup_take_lt, !lookup_drop in E by lia.
    by rewrite !Z2Nat.inj_add by lia.
  - unfold size_of in *. rewrite !length_take, !length_drop. lia.
Qed.

Lemma extend_match_spec fuel input match_end c p n :
  0 ≤ c < p → 0 ≤ n → p + n ≤ match_end ≤ size_of input → same_bytes input c p n →
  (Z.to_nat (match_end - p - n) < fuel)%nat →
  ∃ m, extend_match fuel input match_end c p n = Some m
    ∧ n ≤ m ∧ p + m ≤ match_end ∧ same_bytes input c p m.
Proof.
  intros Hc. revert n. induction fuel as [|fuel IH]; intros n Hn Hend Hsame Hfuel; [lia|].
  cbn [extend_match]. destruct (Z.ltb_spec (p + n) match_end); [|by eauto with lia].
  destruct (load_some input (c + n)) as [a Ha]; [lia|].
  destruct (load_some input (p + n)) as [b Hb]; [lia|].
  rewrite Ha, Hb. cbn [mbind option_bind]. destruct (decide (a = b)) as [->|]; [|by eauto with lia].
  destruct (IH (n + 1)) as (m & -> & ?); [lia|lia| |lia|].
  - intros i Hi. destruct (decide (i = n)) as [->|]; [congruence|apply Hsame; lia].
  - exists m. split_and!; [done|lia|apply H0..].
Qed.

(** Copying a match from what is decoded gives the input's own next bytes. *)
Lemma copy_match_input input c p n :
  0 ≤ c < p → p + Z.of_nat n ≤ size_of input → same_bytes input c p (Z.of_nat n) →
  copy_match n (p - c) (take (Z.to_nat p) input) = take (Z.to_nat (p + Z.of_nat n)) input.
Proof.
  revert c p. induction n as [|n IH]; intros c p Hc Hp Hsame; cbn [copy_match].
  { do 2 f_equal. lia. }
  rewrite size_of_take by lia. replace (p - (p - c)) with c by lia.
  pose proof (Hsame 0 ltac:(lia)) as E. rewrite !Z.add_0_r in E.
  destruct (load_some input p) as [b Hb]; [lia|].
  rewrite Hb, load_lookup in E by lia. rewrite load_lookup in Hb by lia.
  rewrite load_lookup, lookup_take_lt, E by lia.
  rewrite <- take_S_r by done. replace (S (Z.to_nat p)) with (Z.to_nat (p + 1)) by lia.
  replace (p - c) with (p + 1 - (c + 1)) by lia. rewrite IH; [do 2 f_equal; lia|lia|lia|].
  intros i Hi. replace (c + 1 + i) with (c + (i + 1)) by lia.
  replace (p + 1 + i) with (p + (i + 1)) by lia. apply Hsame. lia.
Qed.

Lemma table_get_some table slot :
  0 ≤ slot < kHashEntries → kTableBytes ≤ size_of table →
  ∃ c, table_get table slot = Some c ∧ 0 ≤ c.
Proof.
  unfold table_get, kTableBytes. intros Hs Ht. rewrite subspan_take_drop by lia.
  eexists. split; [done|]. apply get_le_range.
Qed.

Lemma table_put_some table slot p :
  0 ≤ slot < kHashEntries → kTableBytes ≤ size_of table →
  ∃ table', table_put table slot p = Some table' ∧ size_of table' = size_of table.
Proof.
  unfold table_put, kTableBytes. intros Hs Ht.
  assert (size_of (put_le 4 p) = 4) by (unfold size_of; by rewrite length_put_le).
  rewrite blit_splice by lia. eexists. split; [done|]. apply size_of_splice; lia.
Qed.

Lemma hash_slot_range x : 0 ≤ hash_slot x < kHashEntries.
Proof.
  unfold hash_slot, kHashEntries, kHashLog. pose proof (u32_range (x * 2654435761)) as H.
  unfold in_u32 in H. rewrite Z.shiftr_div_pow2 by lia.
  change (1 ≪ 12) with 4096. change (2 ^ (32 - 12)) with 1048576. dlia.
Qed.

Section Compress.
Context (input : list byte).
Notation size := (size_of input).

(** What holds between positions: the buffers are long enough, and what is
    written costs no more than what it covers and a byte in 255. *)
Definition finder_ok (f : Finder) : Prop :=
  0 ≤ anchor f ∧ anchor f ≤ position f ∧ position f ≤ size
  ∧ 0 ≤ written f ∧ written f ≤ anchor f + anchor f / 255
  ∧ compress_bound size ≤ size_of (block f) ∧ kTableBytes ≤ size_of (table f).

(** A turn writes nothing, or the sequence that ends at its match. *)
Definition turn_wrote (f f' : Finder) : Prop :=
  (anchor f' = anchor f ∧ written f' = written f ∧ block f' = block f)
  ∨ ∃ s, legal_match size (anchor f + size_of (literals s)) s
       ∧ replay_sequence (take (Z.to_nat (anchor f)) input) s
         = take (Z.to_nat (anchor f')) input
       ∧ written f' = written f + size_of (sequence_bytes s)
       ∧ block f' = splice (block f) (written f) (sequence_bytes s)
       ∧ written f' ≤ size_of (block f).

Lemma replay_match f c n :
  0 ≤ anchor f ≤ position f → 0 ≤ c < position f → 0 ≤ n → position f + n ≤ size →
  same_bytes input c (position f) n →
  replay_sequence (take (Z.to_nat (anchor f)) input)
    {| literals := take (Z.to_nat (position f - anchor f)) (drop (Z.to_nat (anchor f)) input);
       offset := position f - c; match_length := n |}
  = take (Z.to_nat (position f + n)) input.
Proof.
  intros Ha Hc Hn Hp Hsame. unfold replay_sequence. cbn [literals offset match_length].
  rewrite take_take_drop.
  replace (Z.to_nat (anchor f) + Z.to_nat (position f - anchor f))%nat
    with (Z.to_nat (position f)) by lia.
  rewrite copy_match_input; rewrite ?Z2Nat.id by lia; done || lia.
Qed.

(** The turn that found a match of [n] bytes at [c]. *)
Lemma write_match_turn f c n table' :
  finder_ok f → size_of table' = size_of (table f) →
  0 ≤ c < position f → position f - c ≤ kMaxOffset → position f ≤ size - kMatchFindLimit →
  kMinMatch ≤ n → position f + n ≤ size - kLastLiterals → same_bytes input c (position f) n →
  ∃ block' written',
    write_sequence (block f) (written f)
      (take (Z.to_nat (position f - anchor f)) (drop (Z.to_nat (anchor f)) input))
      (position f - c) n = Some (block', written')
    ∧ let f' := {| position := position f + n; anchor := position f + n; written := written';
                   block := block'; table := table' |} in
      finder_ok f' ∧ turn_wrote f f'.
Proof.
  unfold finder_ok, compress_bound.
  intros (Ha0 & Hap & Hps & Hw0 & Hw & Hb & Ht) Ht' Hc Hoff Hp Hn Hend Hsame.
  set (lits := take _ _).
  assert (Hlits : size_of lits = position f - anchor f).
  { apply size_of_take. unfold kLastLiterals, kMinMatch in *. rewrite size_of_drop; lia. }
  pose proof (size_sequence_bytes {| literals := lits; offset := position f - c; match_length := n |}
    Hn) as Hcost.
  pose proof (write_sequence_wrote (block f) (written f)
    {| literals := lits; offset := position f - c; match_length := n |} Hw0 Hn) as Hwrote.
  pose proof (replay_match f c n ltac:(lia) Hc ltac:(unfold kMinMatch in *; lia)
    ltac:(unfold kLastLiterals in *; lia) Hsame) as Hreplay. fold lits in Hreplay.
  cbn [literals offset match_length] in Hcost, Hwrote. rewrite Hlits in Hcost.
  revert Hcost Hwrote Hreplay.
  set (s := {| literals := lits; offset := position f - c; match_length := n |}).
  intros Hcost Hwrote Hreplay. pose proof (size_of_nonneg (sequence_bytes s)).
  pose proof (div_255_add (anchor f) (position f - anchor f) n) as Hdiv.
  replace (anchor f + (position f - anchor f) + n) with (position f + n) in Hdiv by lia.
  pose proof (div_255_add (position f + n) 0 (size - (position f + n))) as Hdiv'.
  replace (position f + n + 0 + (size - (position f + n))) with size in Hdiv' by lia.
  change (0 / 255) with 0 in Hdiv'. unfold kMinMatch, kLastLiterals, kMatchFindLimit in *.
  unfold wrote in Hwrote. rewrite Hwrote by lia. do 2 eexists. split; [done|].
  cbn [position anchor written block table]. split.
  { rewrite size_of_splice by lia. split_and!; lia. }
  right. exists s. cbn [position anchor written block table].
  unfold legal_match, kMaxOffset, kMinMatch, kMatchFindLimit, kLastLiterals in *.
  cbn [literals offset match_length s]. split_and!; (lia || done).
Qed.

Lemma compress_step_spec f :
  finder_ok f → kMatchFindLimit < size → position f ≤ size - kMatchFindLimit →
  ∃ f', compress_step input (size - kLastLiterals) f = Some f'
    ∧ finder_ok f' ∧ position f < position f' ∧ turn_wrote f f'.
Proof.
  intros Hok. pose proof Hok as (Ha0 & Hap & Hps & Hw0 & Hw & Hb & Ht).
  unfold kMatchFindLimit, compress_step. intros Hsize Hp.
  rewrite (load_le32_some _ (position f)) by lia. cbn [mbind option_bind].
  set (four := get_le _).
  destruct (table_get_some (table f) (hash_slot four)) as (c & -> & Hc0);
    [apply hash_slot_range|done|].
  destruct (table_put_some (table f) (hash_slot four) (position f)) as (t & -> & Ht');
    [apply hash_slot_range|done|].
  assert (Hnext : finder_ok {| position := position f + 1; anchor := anchor f;
                               written := written f; block := block f; table := t |}
                  ∧ turn_wrote f {| position := position f + 1; anchor := anchor f;
                                    written := written f; block := block f; table := t |}).
  { split; [|by left]. unfold finder_ok. cbn. lia. }
  cbn [mbind option_bind].
  destruct ((c <? position f) && (position f - c <=? kMaxOffset)) eqn:Ec; bool_facts;
    [|eexists; split; [done|]; cbn; split_and!; (lia || apply Hnext)].
  rewrite load_le32_some by lia. cbn [mbind option_bind].
  destruct (Z.eqb_spec (get_le (take 4 (drop (Z.to_nat c) input))) four) as [E|];
    [|eexists; split; [done|]; cbn; split_and!; (lia || apply Hnext)].
  destruct (extend_match_spec (Z.to_nat size) input (size - kLastLiterals) c (position f) kMinMatch)
    as (n & -> & Hn & Hend & Hsame); unfold kLastLiterals, kMinMatch in *; [lia|lia|lia| |lia|].
  { apply load_le32_same; try lia. rewrite !load_le32_some by lia. by rewrite E. }
  rewrite subspan_take_drop by lia. cbn [mbind option_bind].
  destruct (write_match_turn f c n t) as (b & w & -> & Hturn); try done; try lia.
  cbn [mbind option_bind]. eexists. split; [done|]. cbn [position].
  split_and!; (lia || apply Hturn).
Qed.

(** The rest of the call from [f]: the block's bytes from [written f] on are those
    of legal sequences that replay the rest of the input. *)
Definition call_wrote (f : Finder) (r : option (list byte * list byte * Z)) : Prop :=
  ∃ seqs last table',
    r = Some (splice (block f) (written f) (block_bytes seqs last), table',
              written f + size_of (block_bytes seqs last))
    ∧ legal size (take (Z.to_nat (anchor f)) input) seqs last
    ∧ replay (take (Z.to_nat (anchor f)) input) seqs last = input
    ∧ written f + size_of (block_bytes seqs last) ≤ compress_bound size.

Lemma compress_last_spec f : finder_ok f → call_wrote f (compress_last input f).
Proof.
  intros (Ha0 & Hap & Hps & Hw0 & Hw & Hb & Ht). unfold compress_last.
  rewrite subspan_from_drop by lia. cbn [mbind option_bind].
  set (lits := drop _ _).
  assert (Hlits : size_of lits = size - anchor f) by (apply size_of_drop; lia).
  assert (Hcost : written f + size_of (literal_bytes lits 0) ≤ compress_bound size).
  { rewrite size_literal_bytes, Hlits.
    pose proof (size_extra_bytes_le (size - anchor f)).
    pose proof (div_255_add (anchor f) (size - anchor f) 0) as Hdiv.
    replace (anchor f + (size - anchor f) + 0) with size in Hdiv by lia.
    unfold compress_bound. lia. }
  pose proof (write_last_wrote (block f) (written f) lits Hw0 ltac:(lia)) as Hwrote.
  unfold wrote in Hwrote. rewrite Hwrote. exists [], lits. eexists. cbn [mbind option_bind].
  split_and!; [done| |by apply take_drop|done].
  cbn [legal]. rewrite Hlits, size_of_take by lia. lia.
Qed.

Lemma compress_loop_spec fuel f :
  finder_ok f → kMatchFindLimit < size → (Z.to_nat (size - position f) < fuel)%nat →
  call_wrote f (f' ← compress_loop fuel input (size - kMatchFindLimit) (size - kLastLiterals) f;
                compress_last input f').
Proof.
  revert f. induction fuel as [|fuel IH]; intros f Hok Hsize Hfuel; [lia|]. cbn [compress_loop].
  destruct (Z.leb_spec (position f) (size - kMatchFindLimit)); [|by apply compress_last_spec].
  destruct (compress_step_spec f) as (f' & -> & Hok' & Hlt & Hturn); [done..|].
  cbn [mbind option_bind].
  assert (position f' ≤ size) by apply Hok'.
  destruct (IH f') as (seqs & last & table' & Hr & Hlegal & Hreplay & Hbound); [done|done|lia|].
  destruct Hturn as [(Ea & Ew & Eb)|(s & Hs & Er & Ew & Eb & Efit)].
  - exists seqs, last, table'. rewrite <- Ea, <- Ew, <- Eb. done.
  - exists (s :: seqs), last, table'. cbn [block_bytes legal replay].
    rewrite Er, size_of_take by (destruct Hok; lia).
    rewrite Hr, Eb, Ew. rewrite Ew in Hbound. rewrite Ew in Efit.
    rewrite splice_splice by (destruct Hok; lia). sizes.
    split_and!; try done; [|lia]. do 2 f_equal. lia.
Qed.

(** [compress_block] stays inside its buffers, and leaves in the first bytes of
    the block those of legal sequences that replay the input. *)
Lemma compress_block_spec block table :
  compress_bound size ≤ size_of block → kTableBytes ≤ size_of table →
  ∃ seqs last table',
    compress_block input block table
    = Some (splice block 0 (block_bytes seqs last), table', size_of (block_bytes seqs last))
    ∧ legal size [] seqs last ∧ replay [] seqs last = input
    ∧ size_of (block_bytes seqs last) ≤ compress_bound size.
Proof.
  intros Hb Ht. unfold compress_block. pose proof (size_of_nonneg input).
  assert (0 ≤ kTableBytes) by done.
  destruct (Z.ltb_spec kMatchFindLimit size).
  - unfold fill_first. rewrite blit_splice; [|lia|sizes; lia].
    cbn [mbind option_bind].
    refine (compress_loop_spec (S (Z.to_nat size)) {| position := 0; anchor := 0; written := 0;
      block := block; table := _ |} _ _ _); [|done|cbn; lia].
    unfold finder_ok. cbn -[Z.div compress_bound kTableBytes].
    rewrite size_of_splice by (sizes; lia). change (0 / 255) with 0. lia.
  - refine (compress_last_spec {| position := 0; anchor := 0; written := 0;
      block := block; table := table |} _).
    unfold finder_ok. cbn -[Z.div compress_bound kTableBytes]. change (0 / 255) with 0. lia.
Qed.

End Compress.
