(* ===== verification/Lz4Decoder.v ===== *)
(** * verification/oracle/compression: the strict LZ4 block decoder

    [decode_block] (verification/oracle/compression/decoder.cpp), the class
    [Decoder] as a record and a function per member, over the buffers of Span.v:
    [None] is a read or write outside a buffer or a wrapped [std::size_t], and the
    theorems show it never happens. The decoder is proved against the block format
    of Lz4Block.v: it accepts exactly the blocks of legal sequences. *)

From S2P Require Export Lz4Block.

(** ** Rules and results (decoder.hpp) *)

Inductive Rule :=
| kNoLastSequence
| kLiteralLengthTruncated
| kLiteralsTruncated
| kLiteralsTooLong
| kLastTokenHasMatch
| kDecodedTooShort
| kOffsetTruncated
| kOffsetZero
| kOffsetBeforeStart
| kMatchLengthTruncated
| kMatchTooLate
| kMatchIntoLastLiterals.

Definition describe_rule (rule : Rule) : text :=
  match rule with
  | kNoLastSequence => lit "the block ends without a last sequence of literals only"
  | kLiteralLengthTruncated => lit "the block ends inside a literal length"
  | kLiteralsTruncated => lit "the block ends inside the literals"
  | kLiteralsTooLong => lit "the literals decode past the end of the decoded data"
  | kLastTokenHasMatch => lit "the last sequence's token has a match length"
  | kDecodedTooShort => lit "the block ends before the end of the decoded data"
  | kOffsetTruncated => lit "the block ends inside an offset"
  | kOffsetZero => lit "an offset of 0"
  | kOffsetBeforeStart => lit "an offset reaching before the first decoded byte"
  | kMatchLengthTruncated => lit "the block ends inside a match length"
  | kMatchTooLate =>
      lit "a match starting fewer than 12 bytes before the end of the decoded data"
  | kMatchIntoLastLiterals => lit "a match covering the last 5 bytes of the decoded data"
  end.

Record Malformation := {
  malformed_rule : Rule;
  broken_at : Z;
  broken_decoded : Z
}.

Record Summary := {
  sequences : Z;
  matches : Z;
  max_offset : Z;
  longest_literals : Z;
  longest_match : Z;
  overlapping_matches : Z
}.

Definition empty_summary : Summary :=
  {| sequences := 0; matches := 0; max_offset := 0; longest_literals := 0;
     longest_match := 0; overlapping_matches := 0 |}.

(** The decoder's own names for the format's constants. *)
Definition kRunMark : Z := 15.
Definition kMoreMark : Z := 255.
Definition kMatchStartLimit : Z := 12.

(** The position in the block, the bytes decoded so far and their buffer. *)
Record Decoder := {
  in_ : Z;
  out_ : Z;
  decoded_ : list byte;
  summary_ : Summary
}.

(** A step goes on, or says which rule broke; the buffer is the caller's either way. *)
Abbreviation Step A := (option (Result A (Malformation * list byte))).

Section Decode.
Context (block : list byte).

Definition broken {A} (d : Decoder) (rule : Rule) (pos : Z) : Step A :=
  Some (Error ({| malformed_rule := rule; broken_at := pos; broken_decoded := out_ d |}, decoded_ d)).

(** [Decoder::extend] from position [pos] with [length] so far. *)
Fixpoint extend (fuel : nat) (pos length : Z) : option (bool * Z * Z) :=
  match fuel with
  | O => None
  | S fuel =>
      if pos <? size_of block then
        b ← load block pos;
        let value := byte_val b in
        length ← plus64 length value;
        if negb (value =? kMoreMark) then Some (true, pos + 1, length)
        else extend fuel (pos + 1) length
      else Some (false, pos, length)
  end.

(** [field == kRunMark && !extend(length)], with the length and position after it. *)
Definition read_length (field length pos : Z) : option (bool * Z * Z) :=
  if field =? kRunMark then extend (S (Z.to_nat (size_of block))) pos length
  else Some (true, pos, length).

Definition literals_step (field : Z) (d : Decoder) : Step Decoder :=
  '(ok, pos, length) ← read_length field field (in_ d);
  if negb ok then broken d kLiteralLengthTruncated pos else
  left_in ← minus64 (size_of block) pos;
  if left_in <? length then broken d kLiteralsTruncated pos else
  left_out ← minus64 (size_of (decoded_ d)) (out_ d);
  if left_out <? length then broken d kLiteralsTooLong pos else
  lits ← subspan block pos length;
  decoded ← blit (decoded_ d) (out_ d) lits;
  let s := summary_ d in
  Some (Value {| in_ := pos + length; out_ := out_ d + length; decoded_ := decoded;
                 summary_ := {| sequences := sequences s + 1; matches := matches s;
                                max_offset := max_offset s;
                                longest_literals := Z.max (longest_literals s) length;
                                longest_match := longest_match s;
                                overlapping_matches := overlapping_matches s |} |}).

Definition last_step (token_at : Z) (d : Decoder) : Step (Summary * list byte) :=
  token ← load block token_at;
  if negb (Z.land (byte_val token) 0x0F =? 0) then broken d kLastTokenHasMatch token_at
  else if negb (out_ d =? size_of (decoded_ d)) then broken d kDecodedTooShort token_at
  else Some (Value (summary_ d, decoded_ d)).

(** The copying loop of [Decoder::match]. *)
Fixpoint copy_back (count : nat) (offset out : Z) (decoded : list byte) : option (list byte * Z) :=
  match count with
  | O => Some (decoded, out)
  | S count =>
      from ← minus64 out offset;
      b ← load decoded from;
      decoded ← store decoded out b;
      copy_back count offset (out + 1) decoded
  end.

Definition match_step (field : Z) (d : Decoder) : Step Decoder :=
  let offset_at := in_ d in
  left_in ← minus64 (size_of block) (in_ d);
  if left_in <? 2 then broken d kOffsetTruncated offset_at else
  low ← load block (in_ d);
  high ← load block (in_ d + 1);
  let offset := Z.lor (byte_val low) (byte_val high ≪ 8) in
  if offset =? 0 then broken d kOffsetZero offset_at else
  if out_ d <? offset then broken d kOffsetBeforeStart offset_at else
  '(ok, pos, length) ← read_length field (field + kMinMatch) (in_ d + 2);
  if negb ok then broken d kMatchLengthTruncated pos else
  room ← minus64 (size_of (decoded_ d)) (out_ d);
  if room <? kMatchStartLimit then broken d kMatchTooLate offset_at else
  limit ← minus64 room kLastLiterals;
  if limit <? length then broken d kMatchIntoLastLiterals offset_at else
  '(decoded, out) ← copy_back (Z.to_nat length) offset (out_ d) (decoded_ d);
  let s := summary_ d in
  Some (Value {| in_ := pos; out_ := out; decoded_ := decoded;
                 summary_ := {| sequences := sequences s; matches := matches s + 1;
                                max_offset := Z.max (max_offset s) offset;
                                longest_literals := longest_literals s;
                                longest_match := Z.max (longest_match s) length;
                                overlapping_matches := overlapping_matches s
                                  + (if offset <? length then 1 else 0) |} |}).

Definition and_then {A B} (r : Step A) (k : A → Step B) : Step B :=
  match r with
  | Some (Value a) => k a
  | Some (Error e) => Some (Error e)
  | None => None
  end.

(** [in_++], once the token is read. *)
Definition past_token (d : Decoder) : Decoder :=
  {| in_ := in_ d + 1; out_ := out_ d; decoded_ := decoded_ d; summary_ := summary_ d |}.

Fixpoint run (fuel : nat) (d : Decoder) : Step (Summary * list byte) :=
  match fuel with
  | O => None
  | S fuel =>
      if in_ d =? size_of block then broken d kNoLastSequence (in_ d) else
      let token_at := in_ d in
      b ← load block token_at;
      let token := byte_val b in
      and_then (literals_step (token ≫ 4) (past_token d)) (λ d,
      if in_ d =? size_of block then last_step token_at d
      else and_then (match_step (Z.land token 0x0F) d) (run fuel))
  end.

(** Every turn takes its token from the block, so the block's size is fuel enough. *)
Definition decode_block (decoded : list byte) : Step (Summary * list byte) :=
  run (S (length block))
    {| in_ := 0; out_ := 0; decoded_ := decoded; summary_ := empty_summary |}.

End Decode.

(** ** What the summary of a block's sequences is *)

Definition most (l : list Z) : Z := foldr Z.max 0 l.

Definition summary_of (seqs : list Sequence) (last : list byte) : Summary :=
  {| sequences := size_of seqs + 1;
     matches := size_of seqs;
     max_offset := most (offset <$> seqs);
     longest_literals := most (size_of <$> (literals <$> seqs) ++ [last]);
     longest_match := most (match_length <$> seqs);
     overlapping_matches :=
       size_of (filter (λ s, offset s < match_length s) seqs) |}.

(** ** Reading lengths *)

(** The longest length that a block of the size the theorems take can code. *)
Definition block_fits (block : list byte) : Prop := size_of block < 2 ^ 55.

Section Lengths.
Context (block : list byte).
Notation size := (size_of block).

(** A length's extra bytes are read, or the block ends inside them. *)
Lemma extend_cases fuel pos length :
  0 ≤ pos ≤ size → (Z.to_nat (size - pos) < fuel)%nat → 0 ≤ length →
  length + 255 * (size - pos) < 2 ^ 64 →
  (∃ n, 0 ≤ n ∧ extend block fuel pos length
        = Some (true, pos + size_of (length_bytes n), length + n)
      ∧ pos + size_of (length_bytes n) ≤ size
      ∧ drop (Z.to_nat pos) block
        = length_bytes n ++ drop (Z.to_nat (pos + size_of (length_bytes n))) block)
  ∨ (∃ l, extend block fuel pos length = Some (false, size, l)).
Proof.
  revert pos length. induction fuel as [|fuel IH]; intros pos len Hpos Hfuel Hlen Hmax; [lia|].
  cbn [extend]. destruct (Z.ltb_spec pos size); [|right; exists len; tuples].
  destruct (load_some block pos) as [b Hb]; [lia|]. rewrite Hb. cbn [mbind option_bind].
  pose proof (byte_val_range b) as Hv. rewrite plus64_some by lia. cbn [mbind option_bind].
  apply load_drop_cons in Hb. unfold kMoreMark. destruct (Z.eqb_spec (byte_val b) 255) as [E|E].
  - destruct (IH (pos + 1) (len + byte_val b)) as [(n & Hn & Hex & Hend & Hd)|(l & Hl)]; try lia.
    + left. exists (n + 255). rewrite length_bytes_step by lia.
      replace (n + 255 - 255) with n by lia. sizes. cbn [negb]. split_and!; [lia| |lia|].
      * rewrite Hex. tuples.
      * rewrite Hb, Hd. cbn [app]. f_equal; [rewrite <- E; by rewrite byte_of_val|].
        do 3 f_equal. lia.
    + right. exists l. done.
  - left. exists (byte_val b). rewrite length_bytes_small, byte_of_val by lia.
    sizes. change (1 + 0) with 1. split_and!; [lia|done|lia|done].
Qed.

Lemma extend_reads fuel pos length n rest :
  0 ≤ pos ≤ size → 0 ≤ n → (Z.to_nat (size - pos) < fuel)%nat →
  0 ≤ length → length + 255 * (size - pos) < 2 ^ 64 →
  drop (Z.to_nat pos) block = length_bytes n ++ rest →
  extend block fuel pos length = Some (true, pos + size_of (length_bytes n), length + n).
Proof.
  revert pos length n. induction fuel as [|fuel IH]; intros pos len n Hpos Hn Hfuel Hlen Hmax Hd;
    [lia|].
  cbn [extend]. destruct (Z.leb_spec 255 n) as [Hbig|Hsmall].
  - rewrite length_bytes_step in * by lia. cbn [app] in Hd.
    apply drop_cons_load in Hd as (Hb & Hd & Hlt); [|lia].
    rewrite (proj2 (Z.ltb_lt _ _) Hlt), Hb. cbn [mbind option_bind].
    rewrite byte_val_of_small, plus64_some by lia. cbn [mbind option_bind negb Z.eqb kMoreMark].
    rewrite (IH (pos + 1) (len + 255) (n - 255)) by (lia || done). sizes. cbn. tuples.
  - rewrite length_bytes_small in * by lia. cbn [app] in Hd.
    apply drop_cons_load in Hd as (Hb & _ & Hlt); [|lia].
    rewrite (proj2 (Z.ltb_lt _ _) Hlt), Hb. cbn [mbind option_bind].
    rewrite byte_val_of_small, plus64_some by lia. cbn [mbind option_bind].
    unfold kMoreMark. rewrite (proj2 (Z.eqb_neq _ _)) by lia. done.
Qed.

(** The length [n] a field of [Z.min n 15] and its extra bytes code, over a base. *)
Lemma read_length_cases field base pos :
  block_fits block → 0 ≤ pos ≤ size → 0 ≤ field ≤ 15 → 0 ≤ base ≤ 4 →
  (∃ n, 0 ≤ n ∧ field = Z.min n 15
      ∧ read_length block field (field + base) pos = Some (true, pos + size_of (extra_bytes n), n + base)
      ∧ pos + size_of (extra_bytes n) ≤ size
      ∧ drop (Z.to_nat pos) block
        = extra_bytes n ++ drop (Z.to_nat (pos + size_of (extra_bytes n))) block)
  ∨ (∃ l, read_length block field (field + base) pos = Some (false, size, l)).
Proof.
  unfold block_fits, read_length, kRunMark. intros Hfit Hpos Hf Hbase.
  destruct (Z.eqb_spec field 15) as [->|Hne].
  - destruct (extend_cases (S (Z.to_nat size)) pos (15 + base)) as [(n & Hn & Hex & Hend & Hd)|Hl];
      [lia|lia|lia|lia| |by right].
    left. exists (n + 15). unfold extra_bytes, kLengthEscape.
    rewrite (proj2 (Z.leb_le _ _)) by lia. replace (n + 15 - 15) with n by lia.
    rewrite Hex. split_and!; [lia|lia|tuples|done|done].
  - left. exists field. unfold extra_bytes, kLengthEscape.
    rewrite (proj2 (Z.leb_gt _ _)) by lia. sizes. rewrite Z.add_0_r. split_and!; (lia || done).
Qed.

Lemma read_length_reads field base pos n rest :
  block_fits block → 0 ≤ pos ≤ size → 0 ≤ n → field = Z.min n 15 → 0 ≤ base ≤ 4 →
  drop (Z.to_nat pos) block = extra_bytes n ++ rest →
  read_length block field (field + base) pos = Some (true, pos + size_of (extra_bytes n), n + base).
Proof.
  unfold block_fits, read_length, kRunMark. intros Hfit Hpos Hn -> Hbase Hd.
  unfold extra_bytes, kLengthEscape in *. destruct (Z.leb_spec 15 n).
  - rewrite (proj2 (Z.eqb_eq _ _)) by lia.
    rewrite (extend_reads _ _ _ (n - 15) rest) by (lia || done). tuples.
  - rewrite (proj2 (Z.eqb_neq _ _)) by lia. sizes. tuples.
Qed.

End Lengths.

(** ** Tokens and offsets *)

Lemma byte_val_token l m :
  0 ≤ l → 0 ≤ m → byte_val (token_byte l m) = 16 * Z.min l 15 + Z.min m 15.
Proof.
  intros Hl Hm. unfold token_byte, kLengthEscape. rewrite Z.lor_comm, lor_shiftl_add by lia.
  rewrite byte_val_of_small by lia. lia.
Qed.

Lemma nibbles b :
  byte_val b = 16 * (byte_val b ≫ 4) + Z.land (byte_val b) 0x0F
  ∧ 0 ≤ byte_val b ≫ 4 ≤ 15 ∧ 0 ≤ Z.land (byte_val b) 0x0F ≤ 15.
Proof.
  pose proof (byte_val_range b). pose proof (Z.land_ones (byte_val b) 4 ltac:(lia)) as E.
  change (Z.ones 4) with 15 in E. rewrite E, Z.shiftr_div_pow2 by lia.
  change (2 ^ 4) with 16. dlia.
Qed.

Lemma token_nibbles b l m :
  0 ≤ l → 0 ≤ m →
  b = token_byte l m ↔ byte_val b ≫ 4 = Z.min l 15 ∧ Z.land (byte_val b) 0x0F = Z.min m 15.
Proof.
  intros Hl Hm. pose proof (nibbles b). pose proof (byte_val_token l m Hl Hm).
  split; [intros ->; lia|]. intros [H1 H2]. apply byte_val_inj. lia.
Qed.

Definition read_offset (low high : byte) : Z := Z.lor (byte_val low) (byte_val high ≪ 8).

Lemma read_offset_value low high : read_offset low high = byte_val low + 256 * byte_val high.
Proof.
  unfold read_offset. pose proof (byte_val_range low). rewrite lor_shiftl_add by lia. lia.
Qed.

Lemma offset_bytes_read low high off :
  0 ≤ off ≤ kMaxOffset → offset_bytes off = [low; high] ↔ read_offset low high = off.
Proof.
  unfold offset_bytes, kMaxOffset. intros Hoff. rewrite read_offset_value.
  change 0xFF with (Z.ones 8). rewrite Z.land_ones, Z.shiftr_div_pow2 by lia.
  change (2 ^ 8) with 256. pose proof (byte_val_range low). pose proof (byte_val_range high).
  split.
  - intros E. injection E as <- <-. rewrite !byte_val_of_small by dlia. dlia.
  - intros <-. f_equal; [|f_equal]; apply byte_val_inj; rewrite byte_val_of_small by dlia; dlia.
Qed.

(** ** The steps *)

Section Steps.
Context (block start : list byte) (fits : block_fits block).
Notation size := (size_of block).
Notation total := (size_of start).

(** The decoder inside its block and its buffer, which is [start] past [out_]. *)
Definition well (d : Decoder) : Prop :=
  0 ≤ in_ d ≤ size ∧ 0 ≤ out_ d ≤ total ∧ size_of (decoded_ d) = total
  ∧ drop (Z.to_nat (out_ d)) (decoded_ d) = drop (Z.to_nat (out_ d)) start.

Notation rest d := (drop (Z.to_nat (in_ d)) block).
Notation out d := (take (Z.to_nat (out_ d)) (decoded_ d)).

Definition after_literals (d : Decoder) (lits : list byte) : Decoder :=
  let s := summary_ d in
  {| in_ := in_ d + size_of (extra_bytes (size_of lits)) + size_of lits;
     out_ := out_ d + size_of lits;
     decoded_ := splice (decoded_ d) (out_ d) lits;
     summary_ := {| sequences := sequences s + 1; matches := matches s;
                    max_offset := max_offset s;
                    longest_literals := Z.max (longest_literals s) (size_of lits);
                    longest_match := longest_match s;
                    overlapping_matches := overlapping_matches s |} |}.

(** A refusal: where it is, how much was decoded, and a buffer untouched past that. *)
Definition refused (e : Malformation * list byte) : Prop :=
  0 ≤ broken_at e.1 ≤ size ∧ 0 ≤ broken_decoded e.1 ≤ total ∧ size_of e.2 = total
  ∧ drop (Z.to_nat (broken_decoded e.1)) e.2 = drop (Z.to_nat (broken_decoded e.1)) start.

Lemma broken_refused {A} d rule pos :
  well d → 0 ≤ pos ≤ size → ∃ e, @broken A d rule pos = Some (Error e) ∧ refused e.
Proof. intros (? & ? & ? & ?) Hpos. eexists. split; [done|]. done. Qed.

Ltac refuse := right; apply broken_refused; [done|lia].

Lemma after_literals_well d lits :
  well d → in_ d + size_of (extra_bytes (size_of lits)) + size_of lits ≤ size →
  out_ d + size_of lits ≤ total →
  well (after_literals d lits) ∧ out (after_literals d lits) = out d ++ lits.
Proof.
  intros (Hin & Hout & Hs & Hd) H1 H2. pose proof (size_of_nonneg lits).
  pose proof (size_of_nonneg (extra_bytes (size_of lits))).
  unfold well, after_literals. cbn [in_ out_ decoded_]. split.
  - rewrite size_of_splice by lia. split_and!; try lia. rewrite drop_splice by lia.
    replace (Z.to_nat (out_ d + size_of lits)) with (Z.to_nat (out_ d) + length lits)%nat
      by (unfold size_of; lia).
    by rewrite <- !drop_drop, Hd.
  - apply take_splice; lia.
Qed.

Lemma literals_cases field d :
  well d → 0 ≤ field ≤ 15 →
  (∃ lits, field = Z.min (size_of lits) 15
     ∧ literals_step block field d = Some (Value (after_literals d lits))
     ∧ well (after_literals d lits) ∧ out (after_literals d lits) = out d ++ lits
     ∧ rest d = extra_bytes (size_of lits) ++ lits ++ rest (after_literals d lits))
  ∨ (∃ e, literals_step block field d = Some (Error e) ∧ refused e).
Proof.
  intros Hwell Hf. pose proof Hwell as (Hin & Hout & Hs & Hd). unfold literals_step.
  pose proof (read_length_cases block field 0 (in_ d) fits Hin Hf ltac:(lia)) as Hread.
  rewrite Z.add_0_r in Hread. destruct Hread as [(n & Hn & Ef & Hr & Hend & Hsplit)|(l & Hr)];
    rewrite Hr; cbn [mbind option_bind negb]; [|refuse].
  rewrite Z.add_0_r, !minus64_some by lia. cbn [mbind option_bind].
  pose proof (size_of_nonneg (extra_bytes n)).
  destruct (Z.ltb_spec (size - (in_ d + size_of (extra_bytes n))) n);
    [refuse|].
  destruct (Z.ltb_spec (size_of (decoded_ d) - out_ d) n);
    [refuse|].
  left. rewrite subspan_take_drop by lia. set (lits := take _ _).
  assert (Hlits : size_of lits = n) by (apply size_of_take; rewrite size_of_drop; lia).
  exists lits. cbn [mbind option_bind]. rewrite blit_splice by lia. cbn [mbind option_bind].
  pose proof (after_literals_well d lits Hwell ltac:(rewrite Hlits; lia) ltac:(lia)) as [Hw Ho].
  split_and!; [by rewrite Hlits| |done|done|].
  - unfold after_literals. by rewrite Hlits.
  - unfold after_literals. cbn [in_]. rewrite Hlits, Hsplit.
    rewrite (drop_take_split block (in_ d + size_of (extra_bytes n)) n) by lia. done.
Qed.

Lemma literals_reads d lits r :
  well d → rest d = extra_bytes (size_of lits) ++ lits ++ r → out_ d + size_of lits ≤ total →
  literals_step block (Z.min (size_of lits) 15) d = Some (Value (after_literals d lits))
  ∧ well (after_literals d lits) ∧ rest (after_literals d lits) = r
  ∧ out (after_literals d lits) = out d ++ lits.
Proof.
  intros Hwell Hrest Hfit. pose proof Hwell as (Hin & Hout & Hs & Hd).
  pose proof (size_of_nonneg lits). pose proof (size_of_nonneg (extra_bytes (size_of lits))).
  pose proof (drop_app_size _ _ _ _ (proj1 Hin) Hrest (proj2 Hin)) as [Hrest1 Hend1].
  pose proof (drop_app_size block (in_ d + size_of (extra_bytes (size_of lits))) _ _ ltac:(lia) Hrest1 Hend1) as [Hrest2 Hend2].
  destruct (after_literals_well d lits Hwell) as [Hw Ho]; [lia|lia|].
  split_and!; [|done|exact Hrest2|done].
  unfold literals_step.
  pose proof (read_length_reads block (Z.min (size_of lits) 15) 0 (in_ d) (size_of lits) _ fits Hin
    ltac:(lia) eq_refl ltac:(lia) Hrest) as Hr.
  rewrite Z.add_0_r in Hr. rewrite Hr. cbn [mbind option_bind negb].
  rewrite Z.add_0_r, !minus64_some by lia. cbn [mbind option_bind].
  rewrite !(proj2 (Z.ltb_ge _ _)) by lia.
  rewrite (subspan_app _ (in_ d + size_of (extra_bytes (size_of lits))) _ _ ltac:(lia) Hend1 Hrest1).
  cbn [mbind option_bind].
  by rewrite blit_splice by lia.
Qed.

(** Copying byte by byte writes what [copy_match] says, and nothing past it. *)
Lemma copy_back_spec n off pos decoded :
  1 ≤ off ≤ pos → pos + Z.of_nat n ≤ size_of decoded →
  ∃ decoded', copy_back n off pos decoded = Some (decoded', pos + Z.of_nat n)
    ∧ size_of decoded' = size_of decoded
    ∧ take (Z.to_nat (pos + Z.of_nat n)) decoded'
      = copy_match n off (take (Z.to_nat pos) decoded)
    ∧ drop (Z.to_nat (pos + Z.of_nat n)) decoded'
      = drop (Z.to_nat (pos + Z.of_nat n)) decoded.
Proof.
  revert pos decoded. induction n as [|n IH]; intros pos decoded Hoff Hfit.
  { exists decoded. rewrite Z.add_0_r. done. }
  cbn [copy_back copy_match]. rewrite minus64_some by lia. cbn [mbind option_bind].
  destruct (load_some decoded (pos - off)) as [b Hb]; [lia|]. rewrite Hb.
  cbn [mbind option_bind]. rewrite store_splice by lia. cbn [mbind option_bind].
  destruct (IH (pos + 1) (splice decoded pos [b])) as (decoded' & Hc & Hs & Ht & Hd);
    [lia|rewrite size_of_splice; sizes; lia|].
  replace (pos + 1 + Z.of_nat n) with (pos + Z.of_nat (S n)) in * by lia.
  exists decoded'. rewrite Hc, Hs, Ht, Hd. rewrite size_of_splice by (sizes; lia).
  pose proof (take_splice decoded pos [b]) as Et. change (size_of [b]) with 1 in Et.
  rewrite Et, size_of_take by lia. rewrite load_lookup in * by lia.
  rewrite lookup_take_lt, Hb by lia. split_and!; [done|done|done|].
  pose proof (drop_splice decoded pos [b]) as Ed. change (size_of [b]) with 1 in Ed.
  replace (Z.to_nat (pos + Z.of_nat (S n))) with (Z.to_nat (pos + 1) + n)%nat by lia.
  rewrite <- !drop_drop, Ed by lia. done.
Qed.

Definition note_match (s : Summary) (off n : Z) : Summary :=
  {| sequences := sequences s; matches := matches s + 1; max_offset := Z.max (max_offset s) off;
     longest_literals := longest_literals s; longest_match := Z.max (longest_match s) n;
     overlapping_matches := overlapping_matches s + (if off <? n then 1 else 0) |}.

(** The decoder after a match of [n] bytes at [off] that ended at [pos] in the block. *)
Definition matched (d : Decoder) (off n pos : Z) (d' : Decoder) : Prop :=
  well d' ∧ in_ d' = pos ∧ out_ d' = out_ d + n
  ∧ out d' = copy_match (Z.to_nat n) off (out d)
  ∧ summary_ d' = note_match (summary_ d) off n.

Lemma copy_matched d off n pos :
  well d → 1 ≤ off ≤ out_ d → 0 ≤ n → out_ d + n ≤ total → 0 ≤ pos ≤ size →
  ∃ decoded, copy_back (Z.to_nat n) off (out_ d) (decoded_ d) = Some (decoded, out_ d + n)
    ∧ matched d off n pos {| in_ := pos; out_ := out_ d + n; decoded_ := decoded;
                             summary_ := note_match (summary_ d) off n |}.
Proof.
  intros (Hin & Hout & Hs & Hd) Hoff Hn Hfit Hpos.
  destruct (copy_back_spec (Z.to_nat n) off (out_ d) (decoded_ d)) as (decoded & Hc & Hs' & Ht & Hd');
    [lia|lia|]. rewrite Z2Nat.id in * by lia.
  exists decoded. split; [done|]. unfold matched, well. cbn [in_ out_ decoded_ summary_].
  split_and!; try done; try lia. rewrite Hd'.
  replace (Z.to_nat (out_ d + n)) with (Z.to_nat (out_ d) + Z.to_nat n)%nat by lia.
  by rewrite <- !drop_drop, Hd.
Qed.

Lemma match_cases field d :
  well d → 0 ≤ field ≤ 15 →
  (∃ s d', literals s = [] ∧ legal_match total (out_ d) s
     ∧ field = Z.min (match_length s - kMinMatch) 15
     ∧ match_step block field d = Some (Value d')
     ∧ rest d = offset_bytes (offset s) ++ extra_bytes (match_length s - kMinMatch) ++ rest d'
     ∧ in_ d < in_ d' ∧ matched d (offset s) (match_length s) (in_ d') d')
  ∨ (∃ e, match_step block field d = Some (Error e) ∧ refused e).
Proof.
  intros Hwell Hf. pose proof Hwell as (Hin & Hout & Hs & Hd). unfold match_step.
  rewrite (minus64_some size), (minus64_some (size_of (decoded_ d))) by lia.
  cbn [mbind option_bind].
  destruct (Z.ltb_spec (size - in_ d) 2); [refuse|].
  destruct (load_some block (in_ d)) as [low Hlow]; [lia|].
  destruct (load_some block (in_ d + 1)) as [high Hhigh]; [lia|].
  rewrite Hlow, Hhigh. cbn [mbind option_bind]. fold (read_offset low high).
  pose proof (byte_val_range low). pose proof (byte_val_range high).
  pose proof (read_offset_value low high) as Hval.
  destruct (Z.eqb_spec (read_offset low high) 0) as [|Hnz]; [refuse|].
  destruct (Z.ltb_spec (out_ d) (read_offset low high)); [refuse|].
  apply load_drop_cons in Hlow, Hhigh. replace (in_ d + 1 + 1) with (in_ d + 2) in Hhigh by lia.
  destruct (read_length_cases block field 4 (in_ d + 2) fits ltac:(lia) Hf ltac:(lia))
    as [(n & Hn & Ef & Hr & Hend & Hsplit)|(l & Hr)]; change kMinMatch with 4 in *;
    rewrite Hr; cbn [mbind option_bind negb]; [|refuse].
  unfold kMatchStartLimit.
  destruct (Z.ltb_spec (size_of (decoded_ d) - out_ d) 12);
    [refuse|].
  unfold kLastLiterals. rewrite minus64_some by lia. cbn [mbind option_bind].
  destruct (Z.ltb_spec (size_of (decoded_ d) - out_ d - 5) (n + 4));
    [refuse|].
  pose proof (size_of_nonneg (extra_bytes n)).
  destruct (copy_matched d (read_offset low high) (n + 4) (in_ d + 2 + size_of (extra_bytes n)) Hwell)
    as (decoded & -> & Hm); [lia|lia|lia|lia|].
  left. eexists {| literals := []; offset := read_offset low high; match_length := n + 4 |}, _.
  cbn [literals offset match_length in_ mbind option_bind].
  replace (n + 4 - 4) with n by lia. split_and!; [done| |done|done| |cbn [in_]; lia|exact Hm].
  - unfold legal_match, kMaxOffset, kMinMatch, kMatchFindLimit, kLastLiterals.
    cbn [offset match_length]. lia.
  - rewrite Hlow, Hhigh, Hsplit at 1. cbn [in_]. 
    rewrite (proj2 (offset_bytes_read low high (read_offset low high) ltac:(unfold kMaxOffset; lia))
      eq_refl). done.
Qed.

Lemma match_reads d s r :
  well d → legal_match total (out_ d) s →
  rest d = offset_bytes (offset s) ++ extra_bytes (match_length s - kMinMatch) ++ r →
  ∃ d', match_step block (Z.min (match_length s - kMinMatch) 15) d = Some (Value d')
    ∧ rest d' = r ∧ matched d (offset s) (match_length s) (in_ d') d'.
Proof.
  unfold legal_match, kMaxOffset, kMatchFindLimit, kLastLiterals.
  intros Hwell (Hoff & Hmax & Hmin & Hstart & Hend) Hrest.
  pose proof Hwell as (Hin & Hout & Hs & Hd). unfold match_step. change kMinMatch with 4 in *.
  set (n := match_length s - 4) in *.
  assert (Hob : ∃ low high, offset_bytes (offset s) = [low; high]) by (do 2 eexists; done).
  destruct Hob as (low & high & Hob).
  pose proof (proj1 (offset_bytes_read low high (offset s) ltac:(unfold kMaxOffset; lia)) Hob) as Hval.
  rewrite Hob in Hrest. cbn [app] in Hrest.
  apply drop_cons_load in Hrest as (Hlow & Hrest & Hlt); [|lia].
  apply drop_cons_load in Hrest as (Hhigh & Hrest & Hlt'); [|lia].
  replace (in_ d + 1 + 1) with (in_ d + 2) in Hrest by lia.
  rewrite (minus64_some size), (minus64_some (size_of (decoded_ d))) by lia.
  cbn [mbind option_bind]. rewrite Hlow, Hhigh. cbn [mbind option_bind].
  fold (read_offset low high). rewrite Hval.
  rewrite (read_length_reads block _ 4 (in_ d + 2) n r fits ltac:(lia) ltac:(lia) eq_refl
    ltac:(lia) Hrest).
  pose proof (drop_app_size block (in_ d + 2) _ _ ltac:(lia) Hrest ltac:(lia)) as [Hr Hle].
  pose proof (size_of_nonneg (extra_bytes n)).
  assert (size - in_ d <? 2 = false) as -> by lia.
  assert (offset s =? 0 = false) as -> by lia.
  assert (out_ d <? offset s = false) as -> by lia.  cbn [mbind option_bind negb].
  unfold kMatchStartLimit. assert (size_of (decoded_ d) - out_ d <? 12 = false) as -> by lia.
  rewrite minus64_some by (unfold kLastLiterals; lia). cbn [mbind option_bind].
  assert (size_of (decoded_ d) - out_ d - kLastLiterals <? n + 4 = false) as -> by (unfold kLastLiterals; lia).
  replace (n + 4) with (match_length s) by lia.
  destruct (copy_matched d (offset s) (match_length s) (in_ d + 2 + size_of (extra_bytes n)) Hwell)
    as (decoded & -> & Hm); [lia|lia|lia|lia|].
  eexists. split_and!; [done|exact Hr|exact Hm].
Qed.

(** ** The whole block *)

(** What decoding [seqs] and [last] adds to a summary. *)
Definition add_sequences (s : Summary) (seqs : list Sequence) (last : list byte) : Summary :=
  let t := summary_of seqs last in
  {| sequences := sequences s + sequences t; matches := matches s + matches t;
     max_offset := Z.max (max_offset s) (max_offset t);
     longest_literals := Z.max (longest_literals s) (longest_literals t);
     longest_match := Z.max (longest_match s) (longest_match t);
     overlapping_matches := overlapping_matches s + overlapping_matches t |}.

Lemma most_nonneg l : 0 ≤ most l.
Proof. induction l; unfold most in *; cbn; lia. Qed.

Lemma most_cons x l : most (x :: l) = Z.max x (most l).
Proof. done. Qed.

Lemma add_sequences_last d lits :
  0 ≤ max_offset (summary_ d) → 0 ≤ longest_match (summary_ d) →
  summary_ (after_literals d lits) = add_sequences (summary_ d) [] lits.
Proof.
  intros H1 H2. pose proof (size_of_nonneg lits). unfold add_sequences, summary_of.
  cbn -[size_of]. rewrite !size_of_nil. f_equal; lia.
Qed.

Lemma add_sequences_cons d s seqs last :
  add_sequences (note_match (summary_ (after_literals d (literals s))) (offset s) (match_length s))
    seqs last
  = add_sequences (summary_ d) (s :: seqs) last.
Proof.
  unfold add_sequences, summary_of. cbn -[filter size_of most]. rewrite filter_cons.
  pose proof (most_nonneg (offset <$> seqs)). pose proof (most_nonneg (match_length <$> seqs)).
  rewrite !most_cons. sizes.
  destruct (Z.ltb_spec (offset s) (match_length s)); case_decide; try lia; sizes;
    f_equal; lia.
Qed.

Lemma size_out d : well d → size_of (out d) = out_ d.
Proof. intros (? & ? & ? & _). apply size_of_take. lia. Qed.

Lemma past_token_well d : well d → in_ d < size → well (past_token d).
Proof. unfold well, past_token. cbn. intros (? & ? & ? & ?) ?. split_and!; (lia || done). Qed.

(** The block ends exactly where nothing is left of it. *)
Lemma at_end d : well d → in_ d = size ↔ rest d = [].
Proof.
  intros (Hin & _). split.
  - intros ->. apply drop_ge. unfold size_of. lia.
  - intros E. pose proof (size_of_drop (in_ d) block Hin) as Hs. rewrite E in Hs. sizes. lia.
Qed.

Lemma last_step_whole pos d l :
  well d → 0 ≤ l → load block pos = Some (token_byte l 0) → out_ d = total →
  last_step block pos d = Some (Value (summary_ d, out d)).
Proof.
  intros (Hin & Hout & Hs & Hd) Hl Hload Hall. unfold last_step. rewrite Hload.
  cbn [mbind option_bind].
  pose proof (proj1 (token_nibbles (token_byte l 0) l 0 Hl ltac:(lia)) eq_refl) as [_ ->].
  cbn [negb Z.eqb Z.min Z.compare]. rewrite Hs, Hall, !Z.eqb_refl. cbn [negb].
  by rewrite take_ge by (unfold size_of in *; lia).
Qed.

Lemma last_cases pos d b l :
  well d → load block pos = Some b → 0 ≤ l → byte_val b ≫ 4 = Z.min l 15 →
  (b = token_byte l 0 ∧ out_ d = total
     ∧ last_step block pos d = Some (Value (summary_ d, out d)))
  ∨ (∃ e, last_step block pos d = Some (Error e) ∧ refused e).
Proof.
  intros Hwell Hb Hl Hhigh. pose proof (load_bound _ _ _ Hb).
  destruct (decide (Z.land (byte_val b) 0x0F = 0 ∧ out_ d = total)) as [[Hz Hall]|Hno].
  - assert (Htok : b = token_byte l 0) by (apply token_nibbles; lia).
    left. split_and!; [done|done|]. apply (last_step_whole _ _ l); [done|done|congruence|done].
  - right. unfold last_step. rewrite Hb. cbn [mbind option_bind].
    rewrite (proj1 (proj2 (proj2 Hwell))).
    destruct (Z.eqb_spec (Z.land (byte_val b) 0x0F) 0); cbn [negb];
      [|apply broken_refused; [done|lia]].
    destruct (Z.eqb_spec (out_ d) total); cbn [negb]; [naive_solver|].
    apply broken_refused; [done|lia].
Qed.

(** Nothing in a summary is negative. *)
Definition counts_ok (s : Summary) : Prop := 0 ≤ max_offset s ∧ 0 ≤ longest_match s.

Lemma note_match_counts d lits off n :
  counts_ok (summary_ d) → counts_ok (note_match (summary_ (after_literals d lits)) off n).
Proof. unfold counts_ok. cbn. lia. Qed.

(** Completeness: the bytes of legal sequences decode to their replay. *)
Lemma run_reads seqs fuel d last :
  well d → counts_ok (summary_ d) → (length seqs < fuel)%nat →
  rest d = block_bytes seqs last → legal total (out d) seqs last →
  run block fuel d
  = Some (Value (add_sequences (summary_ d) seqs last, replay (out d) seqs last)).
Proof.
  revert fuel d. induction seqs as [|s seqs IH]; intros [|fuel] d Hwell Hc Hfuel Hrest Hlegal;
    try (cbn in Hfuel; lia); cbn [run block_bytes legal replay] in *;
    pose proof Hwell as (Hin & Hout & Hs & Hd).
  - apply drop_cons_load in Hrest as (Ht & Hrest & Hlt); [|lia].
    pose proof (size_of_nonneg last). rewrite (proj2 (Z.eqb_neq _ _)), Ht by lia.
    cbn [mbind option_bind].
    pose proof (proj1 (token_nibbles (token_byte (size_of last) 0) (size_of last) 0 ltac:(lia)
      ltac:(lia)) eq_refl) as [-> _].
    rewrite <- (app_nil_r last) in Hrest at 2. rewrite size_out in Hlegal by done.
    destruct (literals_reads (past_token d) last [] (past_token_well _ Hwell Hlt)
      Hrest ltac:(cbn; lia)) as (-> & Hwell' & Hrest' & Hout').
    cbn [and_then]. apply at_end in Hrest'; [|done]. rewrite (proj2 (Z.eqb_eq _ _) Hrest').
    rewrite (last_step_whole _ _ (size_of last)) by (done || (cbn; lia)).
    rewrite Hout', add_sequences_last by apply Hc. done.
  - destruct Hlegal as [Hm Hlegal]. rewrite size_out in Hm by done.
    unfold sequence_bytes, literal_bytes in Hrest. rewrite <- !app_assoc in Hrest.
    cbn [app] in Hrest. apply drop_cons_load in Hrest as (Ht & Hrest & Hlt); [|lia].
    pose proof (size_of_nonneg (literals s)). unfold legal_match, kMinMatch in Hm.
    rewrite (proj2 (Z.eqb_neq _ _)), Ht by lia. cbn [mbind option_bind].
    pose proof (proj1 (token_nibbles _ (size_of (literals s)) (match_length s - kMinMatch) ltac:(lia)
      ltac:(unfold kMinMatch; lia)) eq_refl) as [-> ->].
    rewrite <- app_assoc in Hrest.
    destruct (literals_reads (past_token d) (literals s) _ (past_token_well _ Hwell Hlt)
      Hrest ltac:(unfold kMatchFindLimit in *; cbn; lia)) as (-> & Hwell' & Hrest' & Hout').
    cbn [and_then]. assert (Hne : in_ (after_literals (past_token d) (literals s)) ≠ size).
    { rewrite at_end, Hrest' by done. done. }
    rewrite (proj2 (Z.eqb_neq _ _) Hne).
    destruct (match_reads _ s _ Hwell' Hm Hrest') as (d' & -> & Hrest'' & Hmatched).
    destruct Hmatched as (Hwell'' & _ & _ & Ho & Hsum). cbn [and_then].
    rewrite Hout' in Ho. change (out d' = replay_sequence (out d) s) in Ho.
    rewrite (IH fuel d' Hwell''); [| |cbn in Hfuel; lia|done|by rewrite Ho].
    + rewrite Hsum, add_sequences_cons, Ho. done.
    + rewrite Hsum. by apply note_match_counts.
Qed.

(** The decoder ends: it takes the block for legal sequences, or refuses it. *)
Lemma run_cases fuel d :
  well d → counts_ok (summary_ d) → (Z.to_nat (size - in_ d) < fuel)%nat →
  (∃ seqs last, rest d = block_bytes seqs last ∧ legal total (out d) seqs last
     ∧ run block fuel d
       = Some (Value (add_sequences (summary_ d) seqs last, replay (out d) seqs last)))
  ∨ (∃ e, run block fuel d = Some (Error e) ∧ refused e).
Proof.
  revert d. induction fuel as [|fuel IH]; intros d Hwell Hc Hfuel; [lia|]. cbn [run].
  pose proof Hwell as (Hin & Hout & Hs & Hd).
  destruct (Z.eqb_spec (in_ d) size) as [|Hne]; [refuse|].
  destruct (load_some block (in_ d)) as [b Hb]; [lia|]. rewrite Hb. cbn [mbind option_bind].
  pose proof (nibbles b) as (_ & Hhigh & Hlow). pose proof (load_drop_cons _ _ _ Hb) as Hrest.
  pose proof (past_token_well d Hwell ltac:(lia)) as Hpast.
  destruct (literals_cases _ _ Hpast Hhigh) as [(lits & Ef & -> & Hwell' & Hout' & Hsplit)|(e & -> & He)];
    cbn [and_then]; [|by eauto].
  pose proof (size_of_nonneg lits). change (drop (Z.to_nat (in_ d + 1)) block)
    with (rest (past_token d)) in Hrest. rewrite Hsplit in Hrest.
  destruct (Z.eqb_spec (in_ (after_literals (past_token d) lits)) size) as [Hend|_].
  - pose proof (proj1 (at_end _ Hwell') Hend) as Hnil. rewrite Hnil, app_nil_r in Hrest.
    destruct (last_cases (in_ d) _ b (size_of lits) Hwell' Hb ltac:(lia) Ef)
      as [(Htok & Hall & ->)|(e & -> & He)]; [|by eauto].
    left. exists [], lits. cbn [block_bytes legal replay]. split_and!.
    + by rewrite Hrest, Htok.
    + rewrite size_out by done. cbn in Hall. lia.
    + by rewrite Hout', add_sequences_last by apply Hc.
  - destruct (match_cases _ _ Hwell' Hlow)
      as [(s & d' & _ & Hlegal & Ef' & -> & Hsplit' & Hlt & Hm)|(e & -> & He)];
      cbn [and_then]; [|by eauto].
    pose proof Hm as (Hwell'' & _ & _ & Ho & Hsum).
    rewrite Hout' in Ho. rewrite Hsplit' in Hrest.
    pose (s' := {| literals := lits; offset := offset s; match_length := match_length s |}).
    change (out d' = replay_sequence (out d) s') in Ho.
    assert (in_ d < in_ (after_literals (past_token d) lits)).
    { pose proof (size_of_nonneg (extra_bytes (size_of lits))). cbn. lia. }
    destruct (IH d') as [(seqs & last & Hr & Hlg & ->)|(e & -> & He)];
      [done| |lia| |by eauto].
    { rewrite Hsum. by apply note_match_counts. }
    assert (Htok : b = token_byte (size_of lits) (match_length s - kMinMatch)).
    { apply token_nibbles; [lia|unfold legal_match in Hlegal; lia|done]. }
    left. exists (s' :: seqs), last. cbn [block_bytes legal replay]. split_and!.
    + unfold sequence_bytes, literal_bytes. cbn [literals offset match_length s'].
      rewrite Hrest, Htok, Hr. by rewrite <- !app_assoc; cbn [app]; rewrite <- !app_assoc.
    + rewrite size_out by done. exact Hlegal.
    + by rewrite <- Ho.
    + rewrite Hsum, Ho. do 3 f_equal. apply (add_sequences_cons (past_token d) s').
Qed.

End Steps.

(** ** What the decoder promises *)

Section Contract.
Context (block decoded : list byte) (fits : block_fits block).

Lemma start_well :
  well block decoded
    {| in_ := 0; out_ := 0; decoded_ := decoded; summary_ := empty_summary |}.
Proof.
  pose proof (size_of_nonneg block). pose proof (size_of_nonneg decoded).
  unfold well. cbn. split_and!; (lia || done).
Qed.

Lemma add_sequences_empty seqs last : add_sequences empty_summary seqs last = summary_of seqs last.
Proof.
  pose proof (most_nonneg (offset <$> seqs)). pose proof (most_nonneg (match_length <$> seqs)).
  pose proof (most_nonneg (size_of <$> (literals <$> seqs) ++ [last])).
  unfold add_sequences, summary_of, empty_summary. cbn -[most size_of]. f_equal; lia.
Qed.

Lemma decode_block_reads seqs last :
  block = block_bytes seqs last → legal (size_of decoded) [] seqs last →
  decode_block block decoded = Some (Value (summary_of seqs last, replay [] seqs last)).
Proof.
  intros E Hlegal. unfold decode_block.
  rewrite (run_reads block decoded fits seqs _ _ last start_well); cbn [in_ out_ decoded_ summary_].
  - by rewrite add_sequences_empty.
  - done.
  - rewrite E. clear. induction seqs as [|s seqs IH]; cbn; [lia|].
    rewrite length_app. cbn in *. lia.
  - done.
  - done.
Qed.

Lemma decode_block_cases :
  (∃ seqs last, block = block_bytes seqs last ∧ legal (size_of decoded) [] seqs last
     ∧ decode_block block decoded = Some (Value (summary_of seqs last, replay [] seqs last)))
  ∨ (∃ e, decode_block block decoded = Some (Error e) ∧ refused block decoded e).
Proof.
  destruct (run_cases block decoded fits (S (length block)) _ start_well)
    as [(seqs & last & Hb & Hl & Hr)|He].
  - done.
  - cbn. unfold size_of. lia.
  - left. exists seqs, last. rewrite add_sequences_empty in Hr. done.
  - by right.
Qed.

End Contract.
