(* ===== verification/Compare.v ===== *)
(** * Comparing bytes exactly: verification/checksum, integrity and the oracles

    Three functions of the source say how two equally long runs of bytes differ:
    [compare_exact] (verification/checksum/compare.cpp), [compare_stored]
    (verification/integrity/difference.cpp) and [derived_difference]
    (verification/oracle/compression/oracle.cpp), each with loops of its own. They
    are proved equal to one reference, [difference_of], which lists the positions
    that differ; seals (verification/checksum/seal.cpp) and the error records a
    comparison or a seal calls for follow. *)

From S2P Require Export Span Crc ErrorRecord.

(** ** Bits that differ *)

(** [std::popcount] on an unsigned of at most 64 bits. *)
Definition std_popcount (x : Z) : Z :=
  size_of (filter (λ i, Z.testbit x (Z.of_nat i) = true) (seq 0 64)).

Definition byte_delta (x y : byte) : Z := Z.lxor (byte_val x) (byte_val y).

(** [a += b] on a [std::uint64_t]. *)
Definition add64 (a b : Z) : Z := u64 (a + b).

(** ** verification/oracle/compression/oracle.cpp, [derived_difference]

    The loop keeps the first and last offset that differ and the bits that do. *)

Fixpoint derived_scan (pos : Z) (expected actual : list byte) (first last popcount : Z) :
    option (Z * Z * Z) :=
  match expected, actual with
  | [], _ => Some (first, last, popcount)
  | x :: expected, y :: actual =>
      let delta := byte_delta x y in
      if negb (delta =? 0)
      then derived_scan (pos + 1) expected actual (Z.min first pos) pos
             (add64 popcount (std_popcount delta))
      else derived_scan (pos + 1) expected actual first last popcount
  | _ :: _, [] => None
  end.

(** The window from the first differing word, as the three functions cut it. *)
Definition window_of (side : list byte) (window_start window : Z) : option (list byte) :=
  subspan side window_start window.

Definition derived_difference (expected actual : list byte) : option (option Difference) :=
  let size := size_of expected in
  '(first, last, popcount) ← derived_scan 0 expected actual size 0 0;
  if popcount =? 0 then Some None else
  let window_start := first / kWordBytes * kWordBytes in
  left_ ← minus64 size window_start;
  let window := Z.min kMaxWindowBytes left_ in
  of_expected ← window_of expected window_start window;
  of_actual ← window_of actual window_start window;
  Some (Some {| domain := kDerived; first_offset := first; last_offset := last;
                popcount := popcount; window_offset := window_start;
                expected := of_expected; actual := of_actual |}).

(** ** verification/integrity/difference.cpp *)

(** The loop of [compare_stored]; [first] is the offset once one is found. *)
Fixpoint stored_scan (pos : Z) (expected actual : list byte) (first : option Z)
    (last popcount : Z) : option (option Z * Z * Z) :=
  match expected, actual with
  | [], _ => Some (first, last, popcount)
  | x :: expected, y :: actual =>
      let delta := byte_delta x y in
      if delta =? 0 then stored_scan (pos + 1) expected actual first last popcount
      else stored_scan (pos + 1) expected actual
             (match first with Some f => Some f | None => Some pos end) pos
             (add64 popcount (std_popcount delta))
  | _ :: _, [] => None
  end.

(** [std::memcmp] of the first bytes of both, as many as [expected] has. *)
Definition memcmp_equal (expected actual : list byte) : option bool :=
  same ← subspan actual 0 (size_of expected);
  Some (bool_decide (expected = same)).

Definition compare_stored (expected actual : list byte) : option (option Difference) :=
  same ← memcmp_equal expected actual;
  if (same : bool) then Some None else
  '(first, last, popcount) ← stored_scan 0 expected actual None 0 0;
  let first := from_option id 0 first in
  let window_start := first / kWordBytes * kWordBytes in
  let window_end := Z.min (size_of expected) (window_start + kMaxWindowBytes) in
  of_expected ← window_of expected window_start (window_end - window_start);
  of_actual ← window_of actual window_start (window_end - window_start);
  Some (Some {| domain := kStored; first_offset := first; last_offset := last;
                popcount := popcount; window_offset := window_start;
                expected := of_expected; actual := of_actual |}).

(** ** verification/checksum/compare.cpp *)

Inductive ComparisonOutcome := kMatch | kMismatch | kLengthMismatch | kNothingCompared.

Definition describe_comparison (outcome : ComparisonOutcome) : text :=
  match outcome with
  | kMatch => lit "match"
  | kMismatch => lit "mismatch"
  | kLengthMismatch => lit "length mismatch"
  | kNothingCompared => lit "nothing compared"
  end.

Record Comparison := {
  outcome : ComparisonOutcome;
  expected_bytes : Z;
  actual_bytes : Z;
  compared : option Difference
}.

(** [std::ranges::mismatch(expected, actual).in1 - expected.begin()]. *)
Fixpoint mismatch (pos : Z) (expected actual : list byte) : Z :=
  match expected, actual with
  | x :: expected, y :: actual => if decide (x = y) then mismatch (pos + 1) expected actual else pos
  | _, _ => pos
  end.

(** [while (expected\[last\] == actual\[last\]) --last;], from [last] down. *)
Fixpoint last_difference (last : nat) (expected actual : list byte) : option Z :=
  x ← load expected (Z.of_nat last);
  y ← load actual (Z.of_nat last);
  if decide (x = y)
  then match last with O => None | S last => last_difference last expected actual end
  else Some (Z.of_nat last).

(** [for (at = first; at <= last; ++at) popcount += ...], [count] turns of it. *)
Fixpoint popcount_range (count : nat) (pos : Z) (expected actual : list byte) (popcount : Z) :
    option Z :=
  match count with
  | O => Some popcount
  | S count =>
      x ← load expected pos;
      y ← load actual pos;
      popcount_range count (pos + 1) expected actual
        (add64 popcount (std_popcount (byte_delta x y)))
  end.

Definition compare_exact (expected actual : list byte) (dom : Z) : option Comparison :=
  let answer o d := Some {| outcome := o; expected_bytes := size_of expected;
                            actual_bytes := size_of actual; compared := d |} in
  if negb (size_of expected =? size_of actual) then answer kLengthMismatch None else
  if bool_decide (expected = []) then answer kNothingCompared None else
  same ← memcmp_equal expected actual;
  if (same : bool) then answer kMatch None else
  let first := mismatch 0 expected actual in
  last ← last_difference (length expected - 1) expected actual;
  popcount ← popcount_range (Z.to_nat (last + 1 - first)) first expected actual 0;
  let window_start := first / kWordBytes * kWordBytes in
  left_ ← minus64 (size_of expected) window_start;
  let window := Z.min kMaxWindowBytes left_ in
  of_expected ← window_of expected window_start window;
  of_actual ← window_of actual window_start window;
  answer kMismatch (Some {| domain := dom; first_offset := first; last_offset := last;
                            popcount := popcount; window_offset := window_start;
                            ErrorRecord.expected := of_expected;
                            ErrorRecord.actual := of_actual |}).

Record Subject := {
  subject_provenance : Provenance;
  subject_side : Z;
  subject_check : text;
  subject_line_bytes : Z
}.

Definition kMaxCheckBytes : Z := kMaxTextBytes - 256.

Definition not_performed (subject : Subject) (reason : text) : VerificationNotPerformed :=
  {| not_performed_provenance := subject_provenance subject; what := subject_check subject;
     why := reason; blocks_compared := 0 |}.

Definition comparison_record (comparison : Comparison) (subject : Subject) : option ErrorRecord :=
  match outcome comparison with
  | kMatch => None
  | kNothingCompared =>
      Some (NotPerformed (not_performed subject
        (lit "there were no bytes to compare: both sides were empty")))
  | kLengthMismatch =>
      Some (Exactly {| exact_provenance := subject_provenance subject;
        side := subject_side subject;
        exact_check := subject_check subject ++ lit " -- expected "
          ++ to_dec (expected_bytes comparison) ++ lit " bytes, found "
          ++ to_dec (actual_bytes comparison)
          ++ lit ": no byte-for-byte difference to classify";
        difference := None; line_bytes := subject_line_bytes subject |})
  | kMismatch =>
      Some (Exactly {| exact_provenance := subject_provenance subject;
        side := subject_side subject; exact_check := subject_check subject;
        difference := compared comparison; line_bytes := subject_line_bytes subject |})
  end.

(** ** verification/checksum/seal.cpp *)

Record Seal := { sealed_bytes : Z; sealed_crc : Z }.

#[export] Instance Seal_eq_dec : EqDecision Seal.
Proof. solve_decision. Defined.

Definition seal (bytes : list byte) : Seal :=
  {| sealed_bytes := size_of bytes; sealed_crc := crc64 bytes |}.

(** [RunningChecksum::update]; a fresh one is the seal of nothing. *)
Definition running_update (s : Seal) (bytes : list byte) : Seal :=
  {| sealed_bytes := add64 (sealed_bytes s) (size_of bytes);
     sealed_crc := crc64_update (sealed_crc s) bytes |}.

Inductive SealOutcome := kIntact | kCorrupt | kNoBytes | kNotSealed.

Record SealCheck := {
  seal_outcome : SealOutcome;
  sealed : option Seal;
  found : option Seal
}.

Definition verify_seal (bytes : list byte) (s : option Seal) : SealCheck :=
  match s with
  | None => {| seal_outcome := kNotSealed; sealed := None; found := None |}
  | Some expected_seal =>
      if bool_decide (bytes = [])
      then {| seal_outcome := kNoBytes; sealed := s; found := None |}
      else
        let now := seal bytes in
        {| seal_outcome := if decide (now = expected_seal) then kIntact else kCorrupt;
           sealed := s; found := Some now |}
  end.

(** [words]: the CRC as sixteen hexadecimal digits. *)
Definition seal_words (s : Seal) : text :=
  let digits := lit "0123456789abcdef" in
  let digit i := default Byte.x00
    (digits !! Z.to_nat (Z.land (sealed_crc s ≫ (4 * Z.of_nat i)) 0x0F)) in
  lit "crc64 0x" ++ reverse (digit <$> seq 0 16) ++ lit " over " ++ to_dec (sealed_bytes s)
  ++ lit " bytes".

Definition seal_record (check : SealCheck) (subject : Subject) : option (option ErrorRecord) :=
  match seal_outcome check with
  | kIntact => Some None
  | kNotSealed =>
      Some (Some (NotPerformed (not_performed subject
        (lit "no checksum was sealed when the bytes were generated, so there is nothing to check them against"))))
  | kNoBytes =>
      s ← sealed check;
      Some (Some (NotPerformed (not_performed subject
        (lit "there were no bytes to check against the checksum sealed at their generation ("
         ++ seal_words s ++ lit ")"))))
  | kCorrupt =>
      now ← found check;
      s ← sealed check;
      Some (Some (Exactly {| exact_provenance := subject_provenance subject;
        side := subject_side subject;
        exact_check := subject_check subject ++ lit " -- " ++ seal_words now
          ++ lit ", sealed at generation as " ++ seal_words s
          ++ lit ": the bytes or the checksum changed since; a checksum cannot say which bits";
        difference := None; line_bytes := subject_line_bytes subject |}))
  end.

(** ** The reference

    The positions that differ, and the number of bits that do. *)

Fixpoint differing (pos : Z) (e a : list byte) : list Z :=
  match e, a with
  | x :: e, y :: a => (if decide (x = y) then [] else [pos]) ++ differing (pos + 1) e a
  | _, _ => []
  end.

Fixpoint bits_differing (e a : list byte) : Z :=
  match e, a with
  | x :: e, y :: a => std_popcount (byte_delta x y) + bits_differing e a
  | _, _ => 0
  end.

Definition window_start (first : Z) : Z := first / kWordBytes * kWordBytes.

Definition cut_window (side : list byte) (first : Z) : list byte :=
  take (Z.to_nat (Z.min kMaxWindowBytes (size_of side - window_start first)))
    (drop (Z.to_nat (window_start first)) side).

Definition difference_of (dom : Z) (e a : list byte) : option Difference :=
  match differing 0 e a with
  | [] => None
  | first :: rest =>
      Some {| domain := dom; first_offset := first; last_offset := List.last rest first;
              popcount := bits_differing e a; window_offset := window_start first;
              expected := cut_window e first; actual := cut_window a first |}
  end.

(** *** Facts of the reference *)

Lemma std_popcount_nonneg x : 0 ≤ std_popcount x.
Proof. apply size_of_nonneg. Qed.

Lemma std_popcount_pos x : 0 ≤ x < 2 ^ 64 → std_popcount x = 0 ↔ x = 0.
Proof.
  intros Hx. unfold std_popcount. split; [|by intros ->].
  intros H. assert (Hnil : filter (λ i, Z.testbit x (Z.of_nat i) = true) (seq 0 64) = []).
  { apply length_zero_iff_nil. unfold size_of in H. lia. }
  apply Z.bits_inj'. intros i Hi. rewrite Z.bits_0.
  destruct (decide (i < 64)) as [Hlt|Hge].
  - destruct (Z.testbit x i) eqn:Hb; [|done].
    assert (Hin : Z.to_nat i ∈ filter (λ j, Z.testbit x (Z.of_nat j) = true) (seq 0 64)).
    { apply list_elem_of_filter. rewrite Z2Nat.id by lia. split; [done|].
      apply elem_of_seq. lia. }
    rewrite Hnil in Hin. by apply not_elem_of_nil in Hin.
  - apply Z.testbit_false; [lia|]. rewrite Z.div_small; [done|].
    split; [lia|]. eapply Z.lt_le_trans; [apply Hx|]. apply Z.pow_le_mono_r; lia.
Qed.

Lemma byte_delta_range x y : 0 ≤ byte_delta x y < 256.
Proof.
  unfold byte_delta. pose proof (byte_val_range x). pose proof (byte_val_range y).
  assert (0 ≤ Z.lxor (byte_val x) (byte_val y)) by (apply Z.lxor_nonneg; lia).
  split; [done|]. destruct (decide (Z.lxor (byte_val x) (byte_val y) = 0)); [lia|].
  apply (Z.log2_lt_pow2 _ 8); [lia|].
  eapply Z.le_lt_trans; [apply Z.log2_lxor; lia|].
  assert (∀ v, 0 ≤ v < 256 → Z.log2 v < 8) as Hl.
  { intros v Hv. destruct (decide (v = 0)) as [->|]; [done|]. apply Z.log2_lt_pow2; lia. }
  pose proof (Hl _ H). pose proof (Hl _ H0). lia.
Qed.

Lemma byte_delta_zero x y : byte_delta x y = 0 ↔ x = y.
Proof.
  unfold byte_delta. rewrite Z.lxor_eq_0_iff. split; [apply byte_val_inj|by intros ->].
Qed.

Lemma popcount_delta_le x y : 0 ≤ std_popcount (byte_delta x y) ≤ 8.
Proof.
  split; [apply std_popcount_nonneg|]. unfold std_popcount.
  pose proof (byte_delta_range x y) as Hd.
  change (seq 0 64) with (seq 0 8 ++ seq 8 56). rewrite filter_app, size_of_app.
  assert (Hhigh : filter (λ i, Z.testbit (byte_delta x y) (Z.of_nat i) = true) (seq 8 56) = []).
  { apply elem_of_nil_inv. intros i [Hb Hi%elem_of_seq]%list_elem_of_filter.
    assert (2 ^ 8 ≤ 2 ^ Z.of_nat i) by (apply Z.pow_le_mono_r; lia).
    rewrite Z.testbit_true in Hb by lia. by rewrite Z.div_small in Hb by lia. }
  rewrite Hhigh, size_of_nil.
  assert (length (filter (λ i, Z.testbit (byte_delta x y) (Z.of_nat i) = true) (seq 0 8)) ≤ 8)%nat.
  { etransitivity; [apply length_filter|]. by rewrite length_seq. }
  unfold size_of. lia.
Qed.

Lemma popcount_delta_zero x y : std_popcount (byte_delta x y) = 0 ↔ x = y.
Proof.
  rewrite std_popcount_pos; [apply byte_delta_zero|]. pose proof (byte_delta_range x y). lia.
Qed.

Lemma bits_differing_bound e a : 0 ≤ bits_differing e a ≤ 8 * size_of e.
Proof.
  revert a. induction e as [|x e IH]; intros [|y a]; cbn [bits_differing]; sizes; try lia.
  - pose proof (size_of_nonneg e). lia.
  - pose proof (popcount_delta_le x y). specialize (IH a). lia.
Qed.

Lemma bits_differing_same e : bits_differing e e = 0.
Proof.
  induction e as [|x e IH]; [done|]. cbn. rewrite IH. 
  by rewrite (proj2 (popcount_delta_zero x x)).
Qed.

Lemma bits_differing_app e e' a a' :
  length e = length a → bits_differing (e ++ e') (a ++ a') = bits_differing e a + bits_differing e' a'.
Proof.
  revert a. induction e as [|x e IH]; intros [|y a] Hl; cbn in *; try lia. rewrite IH; lia.
Qed.

Lemma differing_same pos e : differing pos e e = [].
Proof. revert pos. induction e as [|x e IH]; intros pos; cbn; [done|].
  rewrite decide_True by done. apply IH.
Qed.

Lemma differing_nil pos e a :
  length e = length a → differing pos e a = [] ↔ e = a.
Proof.
  intros Hl. split; [|intros ->; apply differing_same].
  revert pos a Hl. induction e as [|x e IH]; intros pos [|y a] Hl H; cbn in *; try lia; [done|].
  case_decide; [|done]. f_equal; [done|]. eapply IH; [lia|exact H].
Qed.

Lemma bits_differing_zero e a :
  length e = length a → bits_differing e a = 0 ↔ e = a.
Proof.
  intros Hl. split; [|intros ->; apply bits_differing_same].
  revert a Hl. induction e as [|x e IH]; intros [|y a] Hl H; cbn in *; try lia; [done|].
  pose proof (popcount_delta_le x y). pose proof (bits_differing_bound e a).
  f_equal; [apply popcount_delta_zero; lia|apply IH; lia].
Qed.

(** The positions listed are those that differ. *)
Lemma elem_of_differing pos e a p :
  length e = length a →
  p ∈ differing pos e a ↔ pos ≤ p ∧ e !! Z.to_nat (p - pos) ≠ a !! Z.to_nat (p - pos).
Proof.
  revert pos a. induction e as [|x e IH]; intros pos [|y a] Hl; cbn [differing length] in *; try lia.
  { rewrite elem_of_nil. naive_solver. }
  rewrite elem_of_app, IH by lia. destruct (decide (p = pos)) as [->|Hne].
  - rewrite Z.sub_diag. cbn. case_decide; simplify_eq.
    + rewrite elem_of_nil. split; [intros [[]|[? _]]; lia|naive_solver].
    + rewrite list_elem_of_singleton. split; [intros _; split; [lia|naive_solver]|by left].
  - replace (Z.to_nat (p - pos)) with
      (if decide (pos < p) then S (Z.to_nat (p - (pos + 1))) else 0%nat)
      by (case_decide; lia).
    destruct (decide (pos < p)).
    + cbn. split; [|by (intros [? ?]; right; split; [lia|])].
      intros [H|[? ?]]; [|split; [lia|done]].
      case_decide; [by apply not_elem_of_nil in H|]. apply list_elem_of_singleton in H. lia.
    + split; [|lia]. intros [H|[? ?]]; [|lia].
      case_decide; [by apply not_elem_of_nil in H|]. apply list_elem_of_singleton in H. lia.
Qed.

(** ** The three comparisons are the reference *)

Lemma differing_ge pos e a p : length e = length a → p ∈ differing pos e a → pos ≤ p.
Proof. intros Hl. rewrite elem_of_differing by done. by intros [? _]. Qed.

Lemma differing_lt pos e a p :
  length e = length a → p ∈ differing pos e a → p < pos + size_of e.
Proof.
  intros Hl [Hp Hne]%elem_of_differing; [|done]. unfold size_of.
  destruct (decide (Z.to_nat (p - pos) < length e)%nat); [lia|].
  rewrite !lookup_ge_None_2 in Hne by lia. done.
Qed.

Lemma window_start_range first : 0 ≤ first → 0 ≤ window_start first ≤ first.
Proof. unfold window_start, kWordBytes. intros. dlia. Qed.

Lemma cut_window_some side first :
  0 ≤ first < size_of side →
  window_of side (window_start first)
    (Z.min kMaxWindowBytes (size_of side - window_start first)) = Some (cut_window side first).
Proof.
  intros Hf. pose proof (window_start_range first). unfold window_of, kMaxWindowBytes.
  rewrite subspan_take_drop by lia. done.
Qed.

Lemma add64_small a b : 0 ≤ a + b < 2 ^ 64 → add64 a b = a + b.
Proof. intros. by apply u64_small. Qed.

(** [differing] takes its head off. *)
Lemma differing_head pos x y e a :
  x ≠ y → differing pos (x :: e) (y :: a) = pos :: differing (pos + 1) e a.
Proof. intros. cbn. by rewrite decide_False. Qed.

Lemma last_of_cons (f d : Z) r : List.last (f :: r) d = List.last r f.
Proof.
  revert f d. induction r as [|g r IH]; intros f d; [done|].
  change (List.last (g :: r) d = List.last (g :: r) f). by rewrite !IH.
Qed.

Lemma derived_scan_spec pos e a first last pop :
  length e = length a → 0 ≤ pop → pop + bits_differing e a < 2 ^ 64 →
  derived_scan pos e a first last pop
  = Some (match differing pos e a with
          | [] => (first, last, pop)
          | f :: r => (Z.min first f, List.last r f, pop + bits_differing e a)
          end).
Proof.
  revert pos a first last pop.
  induction e as [|x e IH]; intros pos [|y a] first last pop Hl Hpop Hmax; cbn in Hl; try lia; [done|].
  cbn [derived_scan bits_differing] in *. pose proof (popcount_delta_le x y).
  pose proof (bits_differing_bound e a).
  destruct (decide (x = y)) as [->|Hne].
  - rewrite (proj2 (byte_delta_zero y y) eq_refl). cbn [Z.eqb negb differing].
    rewrite decide_True by done. cbn [app].
    rewrite (proj2 (popcount_delta_zero y y) eq_refl) in *. rewrite IH by lia. done.
  - rewrite differing_head by done. rewrite (proj2 (Z.eqb_neq _ _)) by (by rewrite byte_delta_zero).
    cbn [negb]. rewrite add64_small, IH by lia.
    destruct (differing (pos + 1) e a) as [|f r] eqn:E.
    + apply differing_nil in E as ->; [|lia]. rewrite bits_differing_same. cbn. do 2 f_equal. lia.
    + assert (pos + 1 ≤ f) by (apply (differing_ge _ e a); [lia|rewrite E; left]).
      rewrite last_of_cons. tuples.
Qed.

Lemma stored_scan_spec pos e a first last pop :
  length e = length a → 0 ≤ pop → pop + bits_differing e a < 2 ^ 64 →
  stored_scan pos e a first last pop
  = Some (match differing pos e a with
          | [] => (first, last, pop)
          | f :: r => (Some (default f first), List.last r f, pop + bits_differing e a)
          end).
Proof.
  revert pos a first last pop.
  induction e as [|x e IH]; intros pos [|y a] first last pop Hl Hpop Hmax; cbn in Hl; try lia; [done|].
  cbn [stored_scan bits_differing] in *. pose proof (popcount_delta_le x y).
  pose proof (bits_differing_bound e a).
  destruct (decide (x = y)) as [->|Hne].
  - rewrite (proj2 (byte_delta_zero y y) eq_refl). cbn [Z.eqb differing].
    rewrite decide_True by done. cbn [app].
    rewrite (proj2 (popcount_delta_zero y y) eq_refl) in *. rewrite IH by lia. done.
  - rewrite differing_head by done. rewrite (proj2 (Z.eqb_neq _ _)) by (by rewrite byte_delta_zero).
    rewrite add64_small, IH by lia.
    destruct (differing (pos + 1) e a) as [|f r] eqn:E.
    + apply differing_nil in E as ->; [|lia]. rewrite bits_differing_same. cbn.
      destruct first; cbn; tuples.
    + rewrite last_of_cons. destruct first; cbn; tuples.
Qed.

Lemma size_of_take_nat {A} n (l : list A) :
  (n ≤ length l)%nat → size_of (take n l) = Z.of_nat n.
Proof. unfold size_of. rewrite length_take. lia. Qed.

Section Equal.
Context (e a : list byte).
Hypothesis same_length : size_of e = size_of a.
Hypothesis bits_fit : 8 * size_of e < 2 ^ 64.

Lemma same_length_nat : length e = length a.
Proof. unfold size_of in *. lia. Qed.
Local Hint Resolve same_length_nat : core.

Lemma scan_fits : 0 + bits_differing e a < 2 ^ 64.
Proof. pose proof (bits_differing_bound e a). lia. Qed.

Lemma first_in_range f r : differing 0 e a = f :: r → 0 ≤ f < size_of e.
Proof.
  intros E. assert (f ∈ differing 0 e a) by (rewrite E; left).
  pose proof (differing_ge 0 e a f same_length_nat). pose proof (differing_lt 0 e a f same_length_nat).
  intuition lia.
Qed.

Lemma derived_difference_reference : derived_difference e a = Some (difference_of kDerived e a).
Proof.
  unfold derived_difference, difference_of. rewrite derived_scan_spec by (done || apply scan_fits).
  destruct (differing 0 e a) as [|f r] eqn:E; cbn [mbind option_bind]; [done|].
  pose proof (first_in_range f r E).
  assert (Hb : bits_differing e a ≠ 0).
  { rewrite bits_differing_zero by done. intros ->. by rewrite differing_same in E. }
  rewrite (proj2 (Z.eqb_neq _ _)) by lia. rewrite Z.min_r by lia. fold (window_start f).
  pose proof (window_start_range f). rewrite minus64_some by lia. cbn [mbind option_bind].
  rewrite cut_window_some by lia. cbn [mbind option_bind].
  rewrite same_length, cut_window_some by lia. done.
Qed.

Lemma memcmp_equal_spec : memcmp_equal e a = Some (bool_decide (e = a)).
Proof.
  unfold memcmp_equal. rewrite same_length, subspan_take_drop by (unfold size_of; lia).
  cbn [mbind option_bind]. rewrite drop_0, take_ge; [done|unfold size_of; lia].
Qed.

Lemma compare_stored_reference : compare_stored e a = Some (difference_of kStored e a).
Proof.
  unfold compare_stored, difference_of. rewrite memcmp_equal_spec. cbn [mbind option_bind].
  case_bool_decide as Heq; [by rewrite Heq, differing_same|].
  rewrite stored_scan_spec by (done || apply scan_fits).
  destruct (differing 0 e a) as [|f r] eqn:E.
  { by apply differing_nil in E. }
  cbn [mbind option_bind from_option default id]. pose proof (first_in_range f r E).
  fold (window_start f). pose proof (window_start_range f).
  replace (Z.min (size_of e) (window_start f + kMaxWindowBytes) - window_start f)
    with (Z.min kMaxWindowBytes (size_of e - window_start f)) by lia.
  rewrite cut_window_some by lia. cbn [mbind option_bind].
  rewrite same_length, cut_window_some by lia. done.
Qed.

Lemma mismatch_spec pos e' a' f r :
  differing pos e' a' = f :: r → mismatch pos e' a' = f.
Proof.
  revert pos a'. induction e' as [|x e' IH]; intros pos [|y a'] E; cbn in *; try done.
  case_decide; cbn in E; [by apply IH|congruence].
Qed.

Lemma differing_snoc pos e' a' x y :
  length e' = length a' →
  differing pos (e' ++ [x]) (a' ++ [y])
  = differing pos e' a' ++ (if decide (x = y) then [] else [pos + size_of e']).
Proof.
  revert pos a'. induction e' as [|z e' IH]; intros pos [|w a'] Hl; cbn in Hl; try lia.
  - cbn. rewrite app_nil_r. case_decide; [done|]. f_equal. sizes. lia.
  - cbn [app differing]. rewrite IH, <- app_assoc by lia. do 2 f_equal.
    case_decide; [done|]. f_equal. sizes. lia.
Qed.

Lemma differing_take_S n :
  (n < length e)%nat →
  ∃ x y, load e (Z.of_nat n) = Some x ∧ load a (Z.of_nat n) = Some y
    ∧ differing 0 (take (S n) e) (take (S n) a)
      = differing 0 (take n e) (take n a) ++ (if decide (x = y) then [] else [Z.of_nat n]).
Proof.
  intros Hn. pose proof same_length_nat.
  destruct (load_some e (Z.of_nat n)) as [x Hx]; [unfold size_of; lia|].
  destruct (load_some a (Z.of_nat n)) as [y Hy]; [unfold size_of; lia|].
  exists x, y. split_and!; [done|done|]. rewrite load_lookup, Nat2Z.id in Hx, Hy by lia.
  rewrite (take_S_r e _ x Hx), (take_S_r a _ y Hy), differing_snoc by (rewrite !length_take; lia).
  by rewrite size_of_take_nat by lia.
Qed.

Lemma last_difference_spec n :
  (n < length e)%nat →
  last_difference n e a
  = match differing 0 (take (S n) e) (take (S n) a) with
    | [] => None
    | f :: r => Some (List.last r f)
    end.
Proof.
  intros Hn. induction n as [|n IH]; cbn [last_difference];
    destruct (differing_take_S _ Hn) as (x & y & -> & -> & ->); cbn [mbind option_bind];
    case_decide; try done.
  - rewrite app_nil_r. apply IH. lia.
  - destruct (differing 0 (take (S n) e) (take (S n) a)); cbn [app]; [done|].
    by rewrite List.last_last.
Qed.

Lemma popcount_range_spec n pos acc :
  0 ≤ pos → pos + Z.of_nat n ≤ size_of e → 0 ≤ acc → acc + 8 * Z.of_nat n < 2 ^ 64 →
  popcount_range n pos e a acc
  = Some (acc + bits_differing (take n (drop (Z.to_nat pos) e)) (take n (drop (Z.to_nat pos) a))).
Proof.
  revert pos acc. induction n as [|n IH]; intros pos acc Hpos Hfit Hacc Hmax; cbn [popcount_range].
  { rewrite !take_0. cbn. by rewrite Z.add_0_r. }
  destruct (load_some e pos) as [x Hx]; [lia|]. destruct (load_some a pos) as [y Hy]; [lia|].
  rewrite Hx, Hy. cbn [mbind option_bind]. apply load_drop_cons in Hx, Hy.
  pose proof (popcount_delta_le x y). rewrite add64_small, IH by lia.
  rewrite Hx, Hy. cbn [take bits_differing]. tuples.
Qed.

(** Every position that differs is between the first and the last. *)
Lemma differing_bounds pos e' a' f r :
  length e' = length a' → differing pos e' a' = f :: r →
  List.last r f ∈ f :: r ∧ ∀ p, p ∈ f :: r → f ≤ p ≤ List.last r f.
Proof.
  revert pos a' f r. induction e' as [|x e' IH]; intros pos [|y a'] f r Hl E; cbn in Hl, E;
    try done. case_decide; cbn [app] in E; [apply (IH (pos + 1) a'); [lia|exact E]|].
  injection E as <- E. destruct r as [|g r].
  { cbn. split; [by left|]. intros p ->%list_elem_of_singleton. lia. }
  assert (Hl' : length e' = length a') by lia.
  destruct (IH _ _ _ _ Hl' E) as [Hin Hb]. rewrite last_of_cons. split; [by right|].
  assert (pos + 1 ≤ g) by (apply (differing_ge _ e' a'); [done|rewrite E; left]).
  pose proof (Hb g ltac:(left)). intros p [->|Hp]%elem_of_cons; [lia|]. specialize (Hb p Hp). lia.
Qed.

Lemma bits_differing_middle f r :
  differing 0 e a = f :: r →
  let n := Z.to_nat (List.last r f + 1 - f) in
  bits_differing (take n (drop (Z.to_nat f) e)) (take n (drop (Z.to_nat f) a)) = bits_differing e a.
Proof.
  intros E n. pose proof (differing_bounds 0 e a f r same_length_nat E) as [Hin Hb].
  pose proof (first_in_range f r E). pose proof same_length_nat as Hl.
  assert (Hlast : List.last r f < 0 + size_of e).
  { apply (differing_lt 0 e a); [done|by rewrite E]. }
  pose proof (Hb f ltac:(left)).
  assert (Hn : Z.of_nat n = List.last r f + 1 - f) by (unfold n; lia). clearbody n.
  assert (Hout : ∀ i, (i < Z.to_nat f ∨ Z.to_nat f + n ≤ i)%nat → e !! i = a !! i).
  { intros i Hi. destruct (decide (e !! i = a !! i)) as [|Hne]; [done|].
    assert (Hp : Z.of_nat i ∈ f :: r).
    { rewrite <- E. apply elem_of_differing; [done|]. rewrite Z.sub_0_r, Nat2Z.id. split; [lia|done]. }
    specialize (Hb _ Hp). lia. }
  rewrite <- (take_drop (Z.to_nat f) e) at 2. rewrite <- (take_drop (Z.to_nat f) a) at 2.
  rewrite <- (take_drop n (drop (Z.to_nat f) e)) at 2.
  rewrite <- (take_drop n (drop (Z.to_nat f) a)) at 2.
  rewrite !bits_differing_app by (rewrite ?length_take, ?length_drop, ?Hl; lia).
  assert (Hbefore : take (Z.to_nat f) e = take (Z.to_nat f) a).
  { apply list_eq. intros i. destruct (decide (i < Z.to_nat f)%nat).
    - rewrite !lookup_take_lt by done. apply Hout. by left.
    - by rewrite !lookup_take_ge by lia. }
  assert (Hafter : drop n (drop (Z.to_nat f) e) = drop n (drop (Z.to_nat f) a)).
  { apply list_eq. intros i. rewrite !lookup_drop. apply Hout. lia. }
  rewrite Hbefore, Hafter, !bits_differing_same. lia.
Qed.

Lemma compare_exact_reference dom :
  e ≠ [] →
  compare_exact e a dom
  = Some {| outcome := if decide (e = a) then kMatch else kMismatch;
            expected_bytes := size_of e; actual_bytes := size_of a;
            compared := difference_of dom e a |}.
Proof.
  intros Hne. unfold compare_exact, difference_of.
  rewrite (proj2 (Z.eqb_eq _ _) same_length), bool_decide_false, memcmp_equal_spec by done.
  cbn [negb mbind option_bind]. case_bool_decide as Heq.
  { rewrite Heq, differing_same. by rewrite decide_True. }
  rewrite decide_False by done. pose proof same_length_nat.
  destruct (differing 0 e a) as [|f r] eqn:E; [by apply differing_nil in E|].
  assert (length e ≠ 0%nat) by (by destruct e).
  rewrite last_difference_spec by lia. replace (S (length e - 1)) with (length e) by lia.
  rewrite !take_ge, E by lia. cbn [mbind option_bind]. rewrite (mismatch_spec 0 _ _ _ _ E).
  pose proof (first_in_range f r E). pose proof (differing_bounds 0 e a f r same_length_nat E) as [Hin Hb].
  pose proof (Hb f ltac:(left)).
  assert (List.last r f < 0 + size_of e) by (apply (differing_lt 0 e a); [done|by rewrite E]).
  rewrite popcount_range_spec by lia.
  pose proof (bits_differing_middle f r E) as Hmid. cbv zeta in Hmid. rewrite Hmid.
  fold (window_start f).
  cbn [mbind option_bind]. pose proof (window_start_range f). rewrite minus64_some by lia.
  cbn [mbind option_bind]. rewrite cut_window_some by lia. cbn [mbind option_bind].
  rewrite same_length at 1. rewrite cut_window_some by lia. done.
Qed.

(** The windows of both sides, and what they hold of an offset that differs. *)
Lemma size_cut_window side f :
  0 ≤ f < size_of side →
  size_of (cut_window side f) = Z.min kMaxWindowBytes (size_of side - window_start f).
Proof.
  intros Hf. pose proof (window_start_range f). unfold cut_window, kMaxWindowBytes.
  apply size_of_take. rewrite size_of_drop; lia.
Qed.

Lemma differs_at_window d p f r :
  differing 0 e a = f :: r → p ∈ f :: r →
  window_offset d = window_start f → expected d = cut_window e f → actual d = cut_window a f →
  in_window d p = true → differs_at d p = true.
Proof.
  intros E Hp Hw He Ha Hwin. unfold differs_at. rewrite Hwin. apply bool_decide_true.
  unfold at_index. unfold in_window in Hwin. rewrite Hw, He, Ha in *. bool_facts.
  pose proof (first_in_range f r E) as Hf. pose proof (window_start_range f).
  rewrite <- E in Hp. pose proof (differing_lt 0 e a p same_length_nat Hp).
  apply elem_of_differing in Hp as [Hp0 Hne]; [|apply same_length_nat].
  rewrite Z.sub_0_r in Hne. rewrite size_cut_window, u64_small in * by (unfold in_u64; lia).
  unfold cut_window. rewrite <- same_length, !lookup_take_lt, !lookup_drop by lia.
  by replace (Z.to_nat (window_start f) + Z.to_nat (p - window_start f))%nat
    with (Z.to_nat p) by lia.
Qed.

(** The difference is one a record may carry. *)
Lemma difference_of_valid dom d :
  0 ≤ dom ≤ kDerived → difference_of dom e a = Some d → valid_difference d = true.
Proof.
  unfold difference_of. destruct (differing 0 e a) as [|f r] eqn:E; [done|].
  intros Hdom Ed. pose proof (first_in_range f r E) as Hf.
  pose proof (differing_bounds 0 e a f r same_length_nat E) as [Hlast Hb].
  pose proof (Hb f ltac:(left)). pose proof (window_start_range f (proj1 Hf)).
  assert (Hstart : f - window_start f < 8) by (unfold window_start, kWordBytes; dlia).
  assert (Hwin : in_window d f = true).
  { injection Ed as <-. unfold in_window. cbn [window_offset expected].
    rewrite size_cut_window, u64_small by (unfold in_u64, kMaxWindowBytes; lia).
    apply andb_true_iff. rewrite Z.leb_le, Z.ltb_lt. unfold kMaxWindowBytes. lia. }
  assert (Hbits : bits_differing e a ≠ 0).
  { rewrite bits_differing_zero by apply same_length_nat. intros Heq.
    by rewrite Heq, differing_same in E. }
  pose proof (bits_differing_bound e a).
  assert (Hd : window_offset d = window_start f ∧ expected d = cut_window e f
               ∧ actual d = cut_window a f ∧ first_offset d = f ∧ last_offset d = List.last r f
               ∧ domain d = dom ∧ popcount d = bits_differing e a) by by injection Ed as <-.
  destruct Hd as (Hw & He & Ha & Ef & El & Edom & Epop). unfold valid_difference.
  rewrite Ef, El, Edom, Epop, (differs_at_window d f f r E ltac:(left) Hw He Ha Hwin).
  assert (Hl : negb (in_window d (List.last r f)) || differs_at d (List.last r f) = true).
  { destruct (in_window d (List.last r f)) eqn:Hin; [|done].
    by rewrite (differs_at_window d _ f r E Hlast Hw He Ha Hin). }
  rewrite Hl, Hw, He, Ha. fold (window_start f). rewrite !size_cut_window by lia.
  rewrite <- same_length, !Z.eqb_refl. unfold kMaxWindowBytes.
  rewrite bool_decide_false; [|intros Hnil; pose proof (size_cut_window e f Hf) as Hz;
    rewrite Hnil in Hz; unfold kMaxWindowBytes in Hz; sizes; lia].
  rewrite !(proj2 (Z.leb_le _ _)) by lia. done.
Qed.

End Equal.

(** ** The records of a comparison and of a seal *)

(** compare.hpp's preconditions on a Subject. *)
Definition subject_ok (s : Subject) : Prop :=
  let p := subject_provenance s in
  opt_test (λ w, size_of w <=? kMaxTextBytes) (prov_workload p)
  && opt_test (λ i, i <? kIsaPathCount) (isa p)
  && opt_test (λ i, i <=? kNotChecked) (input_integrity p)
  && (subject_side s <=? kInput) && negb (bool_decide (subject_check s = []))
  && (size_of (subject_check s) <=? kMaxCheckBytes)
  && (kWordBytes <=? subject_line_bytes s) && has_single_bit (subject_line_bytes s) = true.

Lemma size_seal_words s : in_u64 (sealed_bytes s) → size_of (seal_words s) ≤ 57.
Proof.
  intros Hs. pose proof (size_to_dec _ Hs). unfold seal_words. rewrite !size_of_app.
  assert (∀ f : nat → byte, size_of (reverse (f <$> seq 0 16)) = 16) as ->.
  { intros f. unfold size_of. by rewrite length_reverse, length_fmap, length_seq. }
  change (size_of (lit "crc64 0x")) with 8. change (size_of (lit " over ")) with 6.
  change (size_of (lit " bytes")) with 6. lia.
Qed.

(** A record of a Subject is valid when the text added to its check fits. *)
Lemma exact_record_valid subject detail diff :
  subject_ok subject → size_of detail ≤ 256 → opt_test valid_difference diff = true →
  is_valid_record (Exactly {| exact_provenance := subject_provenance subject;
    side := subject_side subject; exact_check := subject_check subject ++ detail;
    difference := diff; line_bytes := subject_line_bytes subject |}) = true.
Proof.
  unfold subject_ok, is_valid_record, kMaxCheckBytes.
  cbn [provenance_of exact_provenance side exact_check difference line_bytes].
  intros Hok Hd Hv. bool_facts. rewrite size_of_app, Hv.
  rewrite !andb_true_iff. split_and!; try done; try (by apply Z.leb_le; lia).
  - apply negb_true_iff, bool_decide_eq_false. intros E. apply app_eq_nil in E as [E _].
    by rewrite E in *.
Qed.

Lemma not_performed_valid subject reason :
  subject_ok subject → size_of reason ≤ kMaxTextBytes →
  is_valid_record (NotPerformed (not_performed subject reason)) = true.
Proof.
  unfold subject_ok, is_valid_record, kMaxCheckBytes. cbn. intros Hok Hr. bool_facts.
  rewrite !andb_true_iff. split_and!; try done; apply Z.leb_le; lia.
Qed.

(** The bits counted fit their 64-bit counter. *)
Definition comparable (bytes : list byte) : Prop := 8 * size_of bytes < 2 ^ 64.

Lemma comparable_size bytes : comparable bytes → in_u64 (size_of bytes).
Proof. unfold comparable, in_u64. pose proof (size_of_nonneg bytes). lia. Qed.

Lemma comparison_record_mismatch e a dom subject :
  comparable e → size_of e = size_of a → e ≠ [] → e ≠ a → 0 ≤ dom ≤ kDerived →
  subject_ok subject →
  ∃ r, comparison_record {| outcome := kMismatch; expected_bytes := size_of e;
         actual_bytes := size_of a; compared := difference_of dom e a |} subject = Some r
    ∧ is_valid_record r = true ∧ is_wrong_result r = true.
Proof.
  intros Hfit Hs Hne Hdiff Hdom Hok. eexists. split; [done|]. split; [|done].
  cbn [compared]. rewrite <- (app_nil_r (subject_check subject)).
  apply exact_record_valid; [done|sizes; lia|].
  destruct (difference_of dom e a) as [d|] eqn:E; [|done].
  by apply (difference_of_valid e a Hs Hfit dom).
Qed.

(** The three functions of the source that compare two equally long runs of
    bytes, each with loops of its own, compute the same thing: nothing when the bytes
    are equal, and otherwise the first and last offset that differ, the number of bits
    that do, and the window of both sides from the first differing word. None of them
    reads outside its spans. *)
Theorem comparisons_agree (e a : list byte) :
  size_of e = size_of a → comparable e →
  compare_stored e a = Some (difference_of kStored e a)
  ∧ derived_difference e a = Some (difference_of kDerived e a)
  ∧ (∀ dom, e ≠ [] →
       compare_exact e a dom
       = Some {| outcome := if decide (e = a) then kMatch else kMismatch;
                 expected_bytes := size_of e; actual_bytes := size_of a;
                 compared := difference_of dom e a |})
  ∧ (difference_of kStored e a = None ↔ e = a).
Proof.
  intros Hs Hfit. split_and!.
  - by apply compare_stored_reference.
  - by apply derived_difference_reference.
  - intros dom. by apply compare_exact_reference.
  - rewrite <- (differing_nil 0 e a) by (by apply same_length_nat).
    unfold difference_of. by destruct (differing 0 e a).
Qed.

Definition sample_expected : list byte := lit "abcdefghijklmnopq".
Definition sample_actual : list byte := lit "abcdefgHijklmnoqq".

Lemma comparisons_agree_witness :
  ∃ d, compare_stored sample_expected sample_actual = Some (Some d)
    ∧ first_offset d = 7 ∧ last_offset d = 15 ∧ popcount d = 2.
Proof.
  destruct (comparisons_agree sample_expected sample_actual) as (H & _); [done|done|].
  rewrite H. eexists. split; [vm_compute; reflexivity|]. done.
Defined.

(** Comparing bytes never passes over a difference or an absence: of any two runs
    of bytes the comparison calls for no record exactly when both are the same and not
    empty; every record it calls for is valid; and it is one of a wrong result exactly
    when the bytes differ. *)
Theorem comparison_recorded (e a : list byte) (dom : Z) (subject : Subject) :
  comparable e → comparable a → 0 ≤ dom ≤ kDerived → subject_ok subject →
  ∃ c, compare_exact e a dom = Some c
    ∧ (comparison_record c subject = None ↔ e = a ∧ e ≠ [])
    ∧ ∀ r, comparison_record c subject = Some r →
        is_valid_record r = true ∧ (is_wrong_result r = true ↔ e ≠ a).
Proof.
  intros He Ha Hdom Hok.
  destruct (decide (size_of e = size_of a)) as [Hs|Hs].
  - destruct (decide (e = [])) as [->|Hne].
    + assert (a = []) as -> by (destruct a; [done|]; sizes; pose proof (size_of_nonneg a); lia).
      eexists. split; [done|]. split; [naive_solver|]. intros r [= <-].
      split; [by apply not_performed_valid|naive_solver].
    + rewrite compare_exact_reference by done. eexists. split; [done|].
      case_decide as Heq; [naive_solver|].
      destruct (comparison_record_mismatch e a dom subject) as (r & Hr & Hv & Hw); try done.
      rewrite Hr. naive_solver.
  - unfold compare_exact. rewrite (proj2 (Z.eqb_neq _ _)) by done. cbn [negb].
    eexists. split; [done|]. assert (e ≠ a) by (by intros ->). split; [naive_solver|].
    intros r Hr. unfold comparison_record in Hr. cbn [outcome] in Hr.
    apply (inj Some) in Hr as <-. split; [|done]. apply exact_record_valid; [done| |done].
    pose proof (size_to_dec _ (comparable_size e He)).
    pose proof (size_to_dec _ (comparable_size a Ha)). cbn [expected_bytes actual_bytes].
    rewrite !size_of_app. change (size_of (lit " -- expected ")) with 13.
    change (size_of (lit " bytes, found ")) with 14.
    change (size_of (lit ": no byte-for-byte difference to classify")) with 41. lia.
Qed.

Definition sample_subject : Subject :=
  {| subject_provenance := {| logical_cpu := Some 3; physical_package := None;
       physical_core := None; numa_node := None; buffer_address := None; buffer_offset := None;
       iteration := Some 12; prov_workload := Some (lit "lz4"); workload_version := Some 1;
       seed := Some 7; isa := Some 0; input_integrity := None; duty := None;
       decomposition := None; ErrorRecord.footprint_bytes := None |};
     subject_side := kOutput; subject_check := lit "bytes"; subject_line_bytes := 64 |}.

Lemma comparison_recorded_witness :
  ∃ c, compare_exact sample_expected sample_actual kStored = Some c
    ∧ comparison_record c sample_subject ≠ None.
Proof.
  destruct (comparison_recorded sample_expected sample_actual kStored sample_subject)
    as (c & Hc & Hnone & _); [done|done|done|vm_compute; reflexivity|].
  exists c. split; [exact Hc|]. rewrite Hnone. intros [[=] _].
Defined.

Lemma running_seal pieces bytes :
  comparable bytes → bytes = concat pieces → foldl running_update (seal []) pieces = seal bytes.
Proof.
  revert bytes. induction pieces as [|p pieces IH] using rev_ind; intros bytes Hfit ->; [done|].
  rewrite concat_app in *. cbn [concat] in *. rewrite app_nil_r in *.
  unfold comparable in *. rewrite size_of_app in Hfit.
  pose proof (size_of_nonneg (concat pieces)). pose proof (size_of_nonneg p).
  rewrite foldl_app, (IH (concat pieces)) by (lia || done). cbn [foldl]. unfold running_update, seal.
  cbn [sealed_bytes sealed_crc]. rewrite add64_small, size_of_app by lia.
  f_equal. unfold crc64. by apply crc64_update_app.
Qed.

(** A seal fails towards the alarm: checking bytes against a seal calls for no
    record exactly when a seal was taken, there are bytes, and the seal is theirs; a
    seal taken piece by piece is the seal of the whole; and every record is valid. *)
Theorem seal_recorded (bytes : list byte) (s : option Seal) (subject : Subject) :
  comparable bytes → from_option (λ s, in_u64 (sealed_bytes s)) True s → subject_ok subject →
  ∃ o, seal_record (verify_seal bytes s) subject = Some o
    ∧ (o = None ↔ s = Some (seal bytes) ∧ bytes ≠ [])
    ∧ (∀ r, o = Some r → is_valid_record r = true)
    ∧ ∀ pieces, bytes = concat pieces →
        foldl running_update (seal []) pieces = seal bytes.
Proof.
  intros Hfit Hs Hok. pose proof (comparable_size bytes Hfit) as Hb.
  assert (Hpieces : ∀ pieces, bytes = concat pieces →
            foldl running_update (seal []) pieces = seal bytes).
  { intros pieces E. by apply running_seal. }
  unfold verify_seal. destruct s as [s|].
  - cbn in Hs. pose proof (size_seal_words _ Hs). case_bool_decide as Hnil.
    + eexists. split; [reflexivity|].
      split_and!; [by split; [intros [=]|intros [_ []]]| |done].
      intros r Hr. apply (inj Some) in Hr as <-. apply not_performed_valid; [done|].
      rewrite !size_of_app. change (size_of (lit ")")) with 1.
      change (size_of (lit "there were no bytes to check against the checksum sealed at their generation ("))
        with 78. unfold kMaxTextBytes. lia.
    + case_decide as Heq.
      * exists None. split; [done|]. split_and!; [by rewrite Heq|done|done].
      * eexists. split; [reflexivity|].
        split_and!; [split; [intros [=]|intros [[=] _]; congruence]| |done].
        intros r Hr. apply (inj Some) in Hr as <-. apply exact_record_valid; [done| |done].
        pose proof (size_seal_words (seal bytes) Hb). rewrite !size_of_app.
        change (size_of (lit " -- ")) with 4.
        change (size_of (lit ", sealed at generation as ")) with 26.
        change (size_of (lit ": the bytes or the checksum changed since; a checksum cannot say which bits"))
          with 75. lia.
  - eexists. split; [reflexivity|]. split_and!; [by split; [intros [=]|intros [[=] _]]| |done].
    intros r Hr. apply (inj Some) in Hr as <-. by apply not_performed_valid.
Qed.

Lemma seal_recorded_witness :
  ∃ o, seal_record (verify_seal (lit "abc") (Some (seal (lit "abd")))) sample_subject = Some o
    ∧ o ≠ None.
Proof.
  destruct (seal_recorded (lit "abc") (Some (seal (lit "abd"))) sample_subject)
    as (o & Ho & Hnone & _); [done|done|vm_compute; reflexivity|].
  exists o. split; [exact Ho|]. rewrite Hnone. intros [E _].
  apply (f_equal (λ s, match s with Some t => sealed_crc t | None => 0 end)) in E.
  vm_compute in E. discriminate.
Defined.
