(* ===== verification/Oracle.v ===== *)
(** * verification/oracle.hpp: an oracle's verdicts

    What an oracle answers about a unit, and the rules every answer keeps under the
    workload's contract (verification/oracle.hpp, verification/record.hpp). *)

From S2P Require Export Compare.

Inductive Contract := kExact | kBounded.

Inductive Verdict :=
| Agreement (blocks : Z)
| ExactMismatch (check : text) (diff : option Difference) (blocks : Z)
| BoundedMismatch (check : text) (resid tol : Z) (cond elem : option Z) (blocks : Z)
| NotChecked (subject reason : text) (blocks : Z).

#[export] Instance Contract_eq_dec : EqDecision Contract.
Proof. solve_decision. Defined.

(** [is_valid(verdict, contract)]: every alternative's rules. *)
Definition keeps_rules (verdict : Verdict) (contract : Contract) : bool :=
  match verdict with
  | Agreement blocks => 1 <=? blocks
  | ExactMismatch check diff blocks =>
      bool_decide (contract = kExact) && (1 <=? blocks) && negb (bool_decide (check = []))
      && (size_of check <=? kMaxTextBytes) && opt_test valid_difference diff
  | BoundedMismatch check resid tol _ _ blocks =>
      bool_decide (contract = kBounded) && (1 <=? blocks) && negb (bool_decide (check = []))
      && (size_of check <=? kMaxTextBytes) && is_finite tol && double_lt 0 tol
      && negb (double_le resid tol)
  | NotChecked subject reason _ =>
      negb (bool_decide (subject = [])) && negb (bool_decide (reason = []))
      && (size_of subject <=? kMaxTextBytes) && (size_of reason <=? kMaxTextBytes)
  end.

(** A unit's bytes, as the oracle is shown them. *)
Record UnitEvidence := { unit_input : list byte; unit_output : list byte }.
