(* ===== verification/CompressionOracle.v ===== *)
(** * A compression unit and its oracle

    [write_unit] (workloads/compression/compression.cpp), which lays a unit's block
    out with its header and padding, and [CompressionOracle::check]
    (verification/oracle/compression/oracle.cpp) with the verdicts of
    verification/oracle.hpp. The scratch the oracle decodes into comes from the
    caller and may fail to. The compressor and the oracle meet only in the block
    format: what the first writes the second agrees with. *)

From S2P Require Export Lz4Decoder Oracle.

(** ** workloads/compression/spec.hpp: a unit *)

Definition kInputBytes : Z := 65536.
Definition kMagic : Z := 0x315A464C.
Definition kHeaderBytes : Z := 8.
Definition output_bytes_for (input_bytes : Z) : Z := kHeaderBytes + compress_bound input_bytes.
Definition kOutputBytes : Z := output_bytes_for kInputBytes.
Definition kBlockBound : Z := compress_bound kInputBytes.

(** ** workloads/compression/compression.cpp *)

Definition store_le32 (bytes : list byte) (pos value : Z) : option (list byte) :=
  blit bytes pos (put_le 4 value).

(** The block is compressed into the output past its header, in place. *)
Definition write_unit (input output table : list byte) : option (list byte) :=
  block ← subspan_from output kHeaderBytes;
  '(block, _, length) ← compress_block input block table;
  output ← blit output kHeaderBytes block;
  output ← store_le32 output 0 kMagic;
  output ← store_le32 output 4 length;
  padding ← subspan_from output (kHeaderBytes + length);
  blit output (kHeaderBytes + length) (replicate (List.length padding) (byte_of 0)).

(** ** verification/oracle/compression/oracle.cpp *)

Definition kWhat : text := lit "the compressed output, decoded, against the input".

Definition malformed (pos : Z) (rule : text) : Verdict :=
  ExactMismatch (lit "compressed output malformed at byte " ++ to_dec pos ++ lit ": " ++ rule)
    None 1.

(** [std::find_if] over [output.begin() + from], for a byte that is not zero. *)
Fixpoint find_nonzero (pos : Z) (bytes : list byte) : option Z :=
  match bytes with
  | [] => None
  | b :: bytes => if negb (bool_decide (b = byte_of 0)) then Some pos else find_nonzero (pos + 1) bytes
  end.

Definition nonzero_padding (output : list byte) (from : Z) : option (option Z) :=
  padding ← subspan_from output from; Some (find_nonzero from padding).

Definition check_compression (scratch : option (list byte)) (evidence : UnitEvidence) :
    option Verdict :=
  let input := unit_input evidence in
  let output := unit_output evidence in
  if negb (size_of input =? kInputBytes) || negb (size_of output =? kOutputBytes) then
    Some (NotChecked kWhat
      (lit "the evidence is " ++ to_dec (size_of input) ++ lit " bytes of input and "
       ++ to_dec (size_of output) ++ lit " of output; a compression unit is "
       ++ to_dec kInputBytes ++ lit " and " ++ to_dec kOutputBytes) 0)
  else
  magic ← load_le32 output 0;
  if negb (magic =? kMagic) then
    Some (malformed 0 (lit "the magic is not " ++ [byte_of 34] ++ lit "LFZ1" ++ [byte_of 34]))
  else
  length ← load_le32 output 4;
  if kBlockBound <? length then
    Some (malformed 4 (lit "the block length exceeds compress_bound(65536) = 65809"))
  else
  padding ← nonzero_padding output (kHeaderBytes + length);
  match padding with
  | Some pos => Some (malformed pos (lit "the padding after the block is not zero"))
  | None =>
      match scratch with
      | None => Some (NotChecked kWhat (lit "no scratch for the decoded bytes could be had") 0)
      | Some decoded =>
          block ← subspan output kHeaderBytes length;
          summary ← decode_block block decoded;
          match summary with
          | Error (m, _) =>
              Some (malformed (kHeaderBytes + broken_at m)
                (describe_rule (malformed_rule m) ++ lit " (" ++ to_dec (broken_decoded m)
                 ++ lit " bytes decoded)"))
          | Value (_, decoded) =>
              difference ← derived_difference input decoded;
              match difference with
              | Some d => Some (ExactMismatch kWhat (Some d) 1)
              | None => Some (Agreement 1)
              end
          end
      end
  end.

(** ** A right unit *)

Definition unit_bytes (block : list byte) : list byte :=
  put_le 4 kMagic ++ put_le 4 (size_of block) ++ block
  ++ replicate (Z.to_nat (kBlockBound - size_of block)) (byte_of 0).

(** The output holds one legal block, and that block's data is the input. *)
Definition right_unit (evidence : UnitEvidence) : Prop :=
  ∃ seqs last, let block := block_bytes seqs last in
    unit_output evidence = unit_bytes block ∧ size_of block ≤ kBlockBound
    ∧ legal kInputBytes [] seqs last ∧ replay [] seqs last = unit_input evidence.

(** What legal sequences replay has the size they are legal for. *)
Lemma size_copy_match n off out :
  1 ≤ off ≤ size_of out → size_of (copy_match n off out) = size_of out + Z.of_nat n.
Proof.
  revert out. induction n as [|n IH]; intros out Hoff; cbn [copy_match]; [lia|].
  destruct (load_some out (size_of out - off)) as [b ->]; [lia|].
  rewrite IH; sizes; lia.
Qed.

Lemma size_replay total out seqs last : legal total out seqs last → size_of (replay out seqs last) = total.
Proof.
  revert out. induction seqs as [|s seqs IH]; intros out H; cbn [legal replay] in *.
  - sizes. lia.
  - destruct H as [_ H]. by apply IH.
Qed.

Lemma size_put_le w v : size_of (put_le w v) = Z.of_nat w.
Proof. unfold size_of. by rewrite length_put_le. Qed.

Lemma load_le32_put l pos v r :
  0 ≤ pos → pos ≤ size_of l → in_u32 v → drop (Z.to_nat pos) l = put_le 4 v ++ r →
  load_le32 l pos = Some v.
Proof.
  intros Hpos Hl Hv E. unfold load_le32.
  pose proof (subspan_app l pos (put_le 4 v) r Hpos Hl E) as Hs. rewrite size_put_le in Hs.
  change (Z.of_nat 4) with 4 in Hs. rewrite Hs. cbn [mbind option_bind]. by rewrite get_put_le4.
Qed.

Lemma load_le32_inv l pos v :
  load_le32 l pos = Some v →
  0 ≤ pos ∧ pos + 4 ≤ size_of l ∧ drop (Z.to_nat pos) l = put_le 4 v ++ drop (Z.to_nat (pos + 4)) l
  ∧ in_u32 v.
Proof.
  unfold load_le32, subspan. case_match eqn:Hc; [|done]. bool_facts. intros [= <-].
  set (four := take _ _). split_and!; [done|done| |].
  - assert (Hl : length four = 4%nat).
    { unfold four. rewrite length_take, length_drop. unfold size_of in *. lia. }
    rewrite <- Hl at 1. rewrite put_get_le. unfold four. change 4 with (Z.of_nat 4).
    by apply (drop_take_split l pos 4).
  - unfold in_u32. pose proof (get_le_range four) as Hr.
    assert (Hl : length four = 4%nat).
    { unfold four. rewrite length_take, length_drop. unfold size_of in *. lia. }
    rewrite Hl in Hr. exact Hr.
Qed.

Lemma find_nonzero_none pos bytes :
  find_nonzero pos bytes = None ↔ bytes = replicate (length bytes) (byte_of 0).
Proof.
  revert pos. induction bytes as [|b bytes IH]; intros pos; cbn [find_nonzero length replicate]; [done|].
  case_bool_decide as Hb; cbn [negb].
  - rewrite IH, Hb. split; [congruence|by intros [= ?]].
  - split; [done|]. intros [= ? _]. done.
Qed.

Lemma find_nonzero_bound pos bytes p :
  find_nonzero pos bytes = Some p → pos ≤ p < pos + size_of bytes.
Proof.
  revert pos. induction bytes as [|b bytes IH]; intros pos; cbn [find_nonzero]; [done|].
  pose proof (size_of_nonneg bytes). case_bool_decide; cbn [negb].
  - intros H1%IH. sizes. lia.
  - intros [= <-]. sizes. lia.
Qed.

Lemma size_describe_rule rule : size_of (describe_rule rule) ≤ 80.
Proof. by destruct rule; vm_compute. Qed.

Lemma malformed_rules pos rule :
  in_u64 pos → size_of rule ≤ 200 → keeps_rules (malformed pos rule) kExact = true.
Proof.
  intros Hpos Hrule. pose proof (size_to_dec pos Hpos). unfold malformed, keeps_rules.
  rewrite bool_decide_true by done. cbn [andb opt_test from_option]. rewrite andb_true_r.
  rewrite bool_decide_false by done. cbn [negb andb Z.leb Z.compare Pos.compare Pos.compare_cont].
  apply Z.leb_le. rewrite !size_of_app. change (size_of (lit ": ")) with 2.
  change (size_of (lit "compressed output malformed at byte ")) with 36. unfold kMaxTextBytes. lia.
Qed.

Lemma block_bound_fits block : size_of block ≤ kBlockBound → block_fits block.
Proof. unfold block_fits. change kBlockBound with 65809. lia. Qed.

Lemma input_comparable input : size_of input = kInputBytes → comparable input.
Proof. unfold comparable. change kInputBytes with 65536. lia. Qed.

Lemma size_unit_bytes block : size_of block ≤ kBlockBound → size_of (unit_bytes block) = kOutputBytes.
Proof.
  intros H. unfold unit_bytes. sizes. rewrite !size_put_le. pose proof (size_of_nonneg block).
  change kOutputBytes with (8 + kBlockBound). lia.
Qed.

(** What the parts of a right output read as. *)
Lemma unit_bytes_parts block :
  size_of block ≤ kBlockBound →
  load_le32 (unit_bytes block) 0 = Some kMagic
  ∧ load_le32 (unit_bytes block) 4 = Some (size_of block)
  ∧ nonzero_padding (unit_bytes block) (kHeaderBytes + size_of block) = Some None
  ∧ subspan (unit_bytes block) kHeaderBytes (size_of block) = Some block.
Proof.
  intros Hb. pose proof (size_unit_bytes block Hb) as Hs. pose proof (size_of_nonneg block).
  assert (kBlockBound = 65809 ∧ kOutputBytes = 65817 ∧ kHeaderBytes = 8) as (Eb & Eo & Ek) by done.
  assert (H4 : drop (Z.to_nat 4) (unit_bytes block) = put_le 4 (size_of block) ++ block
               ++ replicate (Z.to_nat (kBlockBound - size_of block)) (byte_of 0)) by done.
  assert (H8 : drop (Z.to_nat kHeaderBytes) (unit_bytes block)
               = block ++ replicate (Z.to_nat (kBlockBound - size_of block)) (byte_of 0)) by done.
  split_and!.
  - by apply (load_le32_put (unit_bytes block) 0 kMagic _ ltac:(lia) ltac:(lia) ltac:(done) eq_refl).
  - apply (load_le32_put (unit_bytes block) 4 _ _ ltac:(lia) ltac:(lia)) in H4; [done|]. unfold in_u32. lia.
  - unfold nonzero_padding.
    pose proof (drop_app_size _ kHeaderBytes _ _ ltac:(done) H8) as [Hd Hle];
      [lia|].
    rewrite subspan_from_drop by lia.
    cbn [mbind option_bind]. f_equal. rewrite Hd. apply find_nonzero_none.
    by rewrite length_replicate.
  - eapply subspan_app; [done| |exact H8]. lia.
Qed.

Lemma check_right evidence scratch :
  right_unit evidence → size_of scratch = kInputBytes →
  check_compression (Some scratch) evidence = Some (Agreement 1).
Proof.
  intros (seqs & last & Hout & Hb & Hlegal & Hreplay) Hscratch. unfold check_compression.
  destruct (unit_bytes_parts _ Hb) as (H1 & H2 & H3 & H4).
  pose proof (size_replay _ _ _ _ Hlegal) as Hsize. rewrite Hreplay in Hsize.
  rewrite Hout, Hsize, (size_unit_bytes _ Hb), !Z.eqb_refl, H1.
  cbn [negb orb mbind option_bind]. rewrite H2.
  cbn [negb mbind option_bind Z.eqb kMagic Pos.eqb]. rewrite (proj2 (Z.ltb_ge _ _)) by done.
  rewrite H3. cbn [mbind option_bind]. rewrite H4. cbn [mbind option_bind].
  rewrite (decode_block_reads _ scratch (block_bound_fits _ Hb) seqs last) by (done || by rewrite Hscratch).
  cbn [mbind option_bind]. rewrite Hreplay.
  rewrite derived_difference_reference by (done || apply input_comparable; done).
  cbn [mbind option_bind]. unfold difference_of. by rewrite differing_same.
Qed.

(** The parts put back together. *)
Lemma unit_bytes_of output block :
  size_of output = kOutputBytes →
  load_le32 output 0 = Some kMagic → load_le32 output 4 = Some (size_of block) →
  size_of block ≤ kBlockBound →
  subspan output kHeaderBytes (size_of block) = Some block →
  nonzero_padding output (kHeaderBytes + size_of block) = Some None →
  output = unit_bytes block.
Proof.
  intros Hs H1 H2 Hb H3 H4. pose proof (size_of_nonneg block).
  assert (kBlockBound = 65809 ∧ kOutputBytes = 65817 ∧ kHeaderBytes = 8) as (Eb & Eo & Ek) by done.
  apply load_le32_inv in H1 as (_ & _ & H1 & _). apply load_le32_inv in H2 as (_ & _ & H2 & _).
  rewrite subspan_take_drop in H3 by lia. injection H3 as H3.
  unfold nonzero_padding in H4. rewrite subspan_from_drop in H4 by lia.
  cbn [mbind option_bind] in H4. injection H4 as H4. apply find_nonzero_none in H4.
  change (drop (Z.to_nat 0) output) with output in H1.
  unfold unit_bytes. rewrite H1 at 1. change (0 + 4) with 4. rewrite H2. do 2 f_equal.
  change (4 + 4) with kHeaderBytes.
  rewrite (drop_take_split output kHeaderBytes (size_of block)), H3 by lia. f_equal.
  rewrite H4. f_equal. rewrite length_drop. unfold size_of in *. lia.
Qed.

(** The end of the check, once the block is found. *)
Lemma check_block_cases input block decoded :
  size_of input = kInputBytes → size_of decoded = kInputBytes → size_of block ≤ kBlockBound →
  ∃ v,
    (summary ← decode_block block decoded;
     match summary with
     | Error (m, _) =>
         Some (malformed (kHeaderBytes + broken_at m)
           (describe_rule (malformed_rule m) ++ lit " (" ++ to_dec (broken_decoded m)
            ++ lit " bytes decoded)"))
     | Value (_, decoded) =>
         difference ← derived_difference input decoded;
         match difference with
         | Some d => Some (ExactMismatch kWhat (Some d) 1)
         | None => Some (Agreement 1)
         end
     end) = Some v
    ∧ keeps_rules v kExact = true
    ∧ (v = Agreement 1 → ∃ seqs last, block = block_bytes seqs last
         ∧ legal kInputBytes [] seqs last ∧ replay [] seqs last = input).
Proof.
  intros Hi Hd Hb. change kBlockBound with 65809 in Hb.
  destruct (decode_block_cases block decoded (block_bound_fits _ Hb))
    as [(seqs & last & E & Hlegal & ->)|([m buffer] & -> & Hrefused)]; cbn [mbind option_bind].
  - pose proof (size_replay _ _ _ _ Hlegal) as Hs. rewrite Hd in Hs, Hlegal.
    pose proof (input_comparable _ Hi) as Hfit.
    rewrite derived_difference_reference by (congruence || done). cbn [mbind option_bind].
    destruct (difference_of kDerived input (replay [] seqs last)) as [d|] eqn:Ed.
    + eexists. split; [reflexivity|]. split; [|done]. unfold keeps_rules.
      cbn [opt_test from_option].
      by rewrite (difference_of_valid input (replay [] seqs last) ltac:(congruence) Hfit kDerived d ltac:(done) Ed).
    + eexists. split; [reflexivity|]. split; [done|]. intros _. exists seqs, last.
      split_and!; [done|done|]. unfold difference_of in Ed.
      destruct (differing 0 input (replay [] seqs last)) eqn:En; [|done].
      apply differing_nil in En; [done|]. unfold size_of in *. lia.
  - destruct Hrefused as (Hat & Hdec & _). cbn [fst] in Hat, Hdec. rewrite Hd in Hdec.
    change kInputBytes with 65536 in *. eexists. split; [reflexivity|]. split; [|done].
    apply malformed_rules; [unfold in_u64; change kHeaderBytes with 8; lia|].
    pose proof (size_describe_rule (malformed_rule m)).
    pose proof (size_to_dec (broken_decoded m) ltac:(unfold in_u64; lia)). rewrite !size_of_app.
    change (size_of (lit " (")) with 2. change (size_of (lit " bytes decoded)")) with 15. lia.
Qed.

Lemma check_cases evidence scratch :
  in_u64 (size_of (unit_input evidence)) → in_u64 (size_of (unit_output evidence)) →
  from_option (λ s, size_of s = kInputBytes) True scratch →
  ∃ v, check_compression scratch evidence = Some v ∧ keeps_rules v kExact = true
    ∧ (v = Agreement 1 → right_unit evidence ∧ is_Some scratch).
Proof.
  intros Hin Hout Hscratch. unfold check_compression.
  assert (kBlockBound = 65809 ∧ kOutputBytes = 65817 ∧ kHeaderBytes = 8) as (Eb & Eo & Ek) by done.
  destruct (negb (size_of (unit_input evidence) =? kInputBytes)
            || negb (size_of (unit_output evidence) =? kOutputBytes)) eqn:Hsizes.
  { eexists. split; [reflexivity|]. split; [|done].
    pose proof (size_to_dec _ Hin). pose proof (size_to_dec _ Hout). unfold keeps_rules.
    rewrite !bool_decide_false by done. cbn [negb andb].
    rewrite andb_true_iff, !Z.leb_le, !size_of_app. split; [done|].
    change (size_of (lit "the evidence is ")) with 16.
    change (size_of (lit " bytes of input and ")) with 20.
    change (size_of (lit " of output; a compression unit is ")) with 34.
    change (size_of (lit " and ")) with 5. change (size_of (to_dec kInputBytes)) with 5.
    change (size_of (to_dec kOutputBytes)) with 5. unfold kMaxTextBytes. lia. }
  bool_facts. rename H into Hi, H0 into Ho.
  destruct (load_le32 (unit_output evidence) 0) as [magic|] eqn:H1;
    [|rewrite load_le32_some in H1 by lia; done]. cbn [mbind option_bind].
  destruct (Z.eqb_spec magic kMagic) as [->|]; cbn [negb];
    [|eexists; split; [reflexivity|]; split; [by vm_compute|done]].
  destruct (load_le32 (unit_output evidence) 4) as [len|] eqn:H2;
    [|rewrite load_le32_some in H2 by lia; done]. cbn [mbind option_bind].
  destruct (Z.ltb_spec kBlockBound len);
    [eexists; split; [reflexivity|]; split; [by vm_compute|done]|].
  pose proof (load_le32_inv _ _ _ H2) as (_ & _ & _ & Hlen). unfold in_u32 in Hlen.
  unfold nonzero_padding at 1. rewrite subspan_from_drop by lia. cbn [mbind option_bind].
  destruct (find_nonzero _ _) as [p|] eqn:H3.
  { apply find_nonzero_bound in H3. rewrite size_of_drop in H3 by lia.
    eexists. split; [reflexivity|]. split; [|done].
    apply malformed_rules; [unfold in_u64; lia|by vm_compute]. }
  destruct scratch as [decoded|]; [|eexists; split; [reflexivity|]; split; [by vm_compute|done]].
  cbn [from_option] in Hscratch. rewrite subspan_take_drop by lia. cbn [mbind option_bind].
  set (block := take _ _).
  assert (Hb : size_of block = len) by (apply size_of_take; rewrite size_of_drop; lia).
  destruct (check_block_cases (unit_input evidence) block decoded)
    as (v & Hv & Hrules & Hagree); [done|done|lia|].
  exists v. split_and!; [exact Hv|done|]. intros E. split; [|by eexists].
  destruct (Hagree E) as (seqs & last & Eblock & Hlegal & Hreplay).
  exists seqs, last. cbv zeta. rewrite <- Eblock. split_and!; [|lia|done|done].
  apply unit_bytes_of; rewrite ?Hb; try done.
  - rewrite subspan_take_drop by lia. done.
  - unfold nonzero_padding. rewrite subspan_from_drop by lia. cbn [mbind option_bind].
    by rewrite H3.
Qed.

(** The header and the padding written around a block in place. *)
Lemma lay_out_unit h1 h2 block tail :
  size_of h1 = 4 → size_of h2 = 4 → size_of tail = kBlockBound - size_of block →
  size_of block ≤ kBlockBound →
  (output ← store_le32 (h1 ++ h2 ++ block ++ tail) 0 kMagic;
   output ← store_le32 output 4 (size_of block);
   padding ← subspan_from output (kHeaderBytes + size_of block);
   blit output (kHeaderBytes + size_of block) (replicate (List.length padding) (byte_of 0)))
  = Some (unit_bytes block).
Proof.
  intros H1 H2 Htail Hb. pose proof (size_of_nonneg block). assert (kHeaderBytes = 8) as Ek by done.
  assert (Hmagic : size_of (put_le 4 kMagic) = 4) by apply size_put_le.
  assert (Hlen : size_of (put_le 4 (size_of block)) = 4) by apply size_put_le.
  unfold store_le32. rewrite blit_splice by (sizes; lia). cbn [mbind option_bind].
  rewrite (splice_app [] h1 (h2 ++ block ++ tail)) by (done || lia). cbn [app].
  rewrite blit_splice by (sizes; lia). cbn [mbind option_bind].
  rewrite splice_app by lia. rewrite subspan_from_drop by (sizes; lia). cbn [mbind option_bind].
  assert (Hdrop : drop (Z.to_nat (kHeaderBytes + size_of block))
    (put_le 4 kMagic ++ put_le 4 (size_of block) ++ block ++ tail) = tail).
  { rewrite !app_assoc. apply drop_app_length'. rewrite !length_app, !length_put_le.
    unfold size_of in *. lia. }
  rewrite Hdrop. unfold unit_bytes.
  replace (Z.to_nat (kBlockBound - size_of block)) with (length tail) by (unfold size_of in *; lia).
  set (zeros := replicate _ _).
  assert (Hz : size_of zeros = size_of tail) by (unfold zeros; sizes; unfold size_of; lia).
  rewrite blit_splice by (sizes; lia). f_equal.
  pose proof (splice_app ((put_le 4 kMagic ++ put_le 4 (size_of block)) ++ block) tail [] zeros
    (kHeaderBytes + size_of block)) as E. rewrite !app_nil_r, <- !app_assoc in E.
  apply E; sizes; lia.
Qed.

(** [write_unit] writes a right unit of its input, whatever the output and the
    table held. *)
Lemma write_unit_right input output table :
  size_of input = kInputBytes → size_of output = kOutputBytes → kTableBytes ≤ size_of table →
  ∃ output', write_unit input output table = Some output'
    ∧ right_unit {| unit_input := input; unit_output := output' |}.
Proof.
  intros Hi Ho Ht. unfold write_unit.
  assert (kBlockBound = 65809 ∧ kOutputBytes = 65817 ∧ kHeaderBytes = 8) as (Eb & Eo & Ek) by done.
  rewrite subspan_from_drop by lia. cbn [mbind option_bind].
  set (area := drop (Z.to_nat kHeaderBytes) output).
  assert (Harea : size_of area = kBlockBound) by (unfold area; rewrite size_of_drop; lia).
  destruct (compress_block_spec input area table) as (seqs & last & table' & -> & Hlegal & Hreplay & Hb);
    [by rewrite Hi, Harea|done|]. cbn [mbind option_bind].
  set (block := block_bytes seqs last) in *. rewrite Hi in *.
  change (compress_bound kInputBytes) with kBlockBound in Hb.
  pose proof (size_of_nonneg block).
  assert (Harea' : splice area 0 block = block ++ drop (Z.to_nat (size_of block)) area).
  { unfold splice, size_of. by rewrite Nat2Z.id. }
  assert (Hout : output = (take 4 output ++ take 4 (drop 4 output)) ++ area ++ []).
  { unfold area. rewrite app_nil_r, <- app_assoc. change (Z.to_nat kHeaderBytes) with (4 + 4)%nat.
    by rewrite <- drop_drop, !take_drop. }
  assert (H1 : size_of (take 4 output) = 4) by (apply (size_of_take 4); lia).
  assert (H2 : size_of (take 4 (drop 4 output)) = 4).
  { apply (size_of_take 4). rewrite (size_of_drop 4); lia. }
  rewrite blit_splice by (rewrite ?size_of_splice; lia). cbn [mbind option_bind].
  rewrite Hout, splice_app by (rewrite ?size_of_splice; sizes; lia). rewrite Harea', app_nil_r.
  rewrite <- app_assoc, lay_out_unit by (rewrite ?size_of_drop; lia).
  eexists. split; [reflexivity|]. exists seqs, last. by split_and!.
Qed.

(** ** What the block format, the compressor and the oracle promise *)

(** C32 The strict decoder is the block format: it accepts a block exactly when the
    block is the bytes of sequences that are legal for the decoded size, the end-of-block
    rules included, and then the decoded bytes are what those sequences replay and the
    summary is theirs. *)
Theorem decode_block_format (block decoded : list byte) (summary : Summary) (data : list byte) :
  block_fits block →
  decode_block block decoded = Some (Value (summary, data)) ↔
  ∃ seqs last, block = block_bytes seqs last ∧ legal (size_of decoded) [] seqs last
    ∧ data = replay [] seqs last ∧ summary = summary_of seqs last.
Proof.
  intros Hfit. split.
  - intros E. destruct (decode_block_cases block decoded Hfit)
      as [(seqs & last & Hb & Hl & Hr)|(e & Hr & _)]; rewrite Hr in E; [|done].
    injection E as <- <-. by exists seqs, last.
  - intros (seqs & last & Hb & Hl & -> & ->). by apply decode_block_reads.
Qed.

(** A block whose match overlaps its own output: one literal, repeated. *)
Definition sample_sequences : list Sequence :=
  [{| literals := lit "ab"; offset := 1; match_length := 20 |}].

Lemma decode_block_format_witness :
  ∃ summary, decode_block (block_bytes sample_sequences (lit "tailbytes012"))
               (replicate 34 (byte_of 0))
             = Some (Value (summary, lit "a" ++ replicate 21 (byte_of 98) ++ lit "tailbytes012")).
Proof.
  eexists. apply decode_block_format; [done|].
  exists sample_sequences, (lit "tailbytes012").
  split_and!; [reflexivity| |reflexivity|reflexivity].
  split; [|vm_compute; reflexivity]. repeat split; vm_compute; congruence.
Defined.

(** The decoder is total: on any bytes it ends, having read only inside the block,
    written only inside the decoded bytes and wrapped no size; when it refuses, the byte
    it names is in the block or just past it, and everything past what it says it had
    decoded is as it was. *)
Theorem decode_block_total (block decoded : list byte) :
  block_fits block →
  ∃ r, decode_block block decoded = Some r
    ∧ match r with
      | Value (_, data) => size_of data = size_of decoded
      | Error (m, data) =>
          0 ≤ broken_at m ≤ size_of block ∧ 0 ≤ broken_decoded m ≤ size_of decoded
          ∧ size_of data = size_of decoded
          ∧ drop (Z.to_nat (broken_decoded m)) data = drop (Z.to_nat (broken_decoded m)) decoded
      end.
Proof.
  intros Hfit. destruct (decode_block_cases block decoded Hfit)
    as [(seqs & last & _ & Hl & ->)|([m data] & -> & He)]; eexists; (split; [done|]).
  - by apply size_replay.
  - exact He.
Qed.

Lemma decode_block_total_witness :
  ∃ m data, decode_block (lit "@abcd") (replicate 12 (byte_of 0)) = Some (Error (m, data))
    ∧ malformed_rule m = kDecodedTooShort ∧ broken_decoded m ≤ 12.
Proof.
  destruct (decode_block_total (lit "@abcd") (replicate 12 (byte_of 0)) ltac:(done)) as (r & Hr & Hspec).
  assert (E : ∃ m data, r = Error (m, data) ∧ malformed_rule m = kDecodedTooShort).
  { vm_compute in Hr. injection Hr as <-. do 2 eexists. split; reflexivity. }
  destruct E as (m & data & -> & Hrule). exists m, data. split; [exact Hr|]. split; [exact Hrule|].
  exact (proj2 (proj1 (proj2 Hspec))).
Defined.

(** C31 Compressing any input, into any buffer of the bound's size and with any table,
    stays inside the buffers, writes no more than [compress_bound] bytes, leaves the
    buffer past them alone, and the strict decoder decodes those bytes to the input. *)
Theorem compressed_block_decodes (input block table decoded : list byte) :
  size_of input < 2 ^ 32 → compress_bound (size_of input) ≤ size_of block →
  kTableBytes ≤ size_of table → size_of decoded = size_of input →
  ∃ block' table' n summary,
    compress_block input block table = Some (block', table', n)
    ∧ 0 ≤ n ≤ compress_bound (size_of input)
    ∧ drop (Z.to_nat n) block' = drop (Z.to_nat n) block
    ∧ decode_block (take (Z.to_nat n) block') decoded = Some (Value (summary, input)).
Proof.
  intros Hsize Hblock Htable Hdecoded.
  destruct (compress_block_spec input block table Hblock Htable)
    as (seqs & last & table' & Hc & Hlegal & Hreplay & Hb).
  pose proof (size_of_nonneg (block_bytes seqs last)) as H0.
  rewrite Hc. do 4 eexists. split; [reflexivity|].
  pose proof (take_splice block 0 (block_bytes seqs last)) as Ht.
  pose proof (drop_splice block 0 (block_bytes seqs last)) as Hd.
  rewrite Z.add_0_l in Ht, Hd. split_and!; [done|done|by apply Hd; lia|].
  rewrite Ht by lia. change (take (Z.to_nat 0) block) with (@nil byte). cbn [app].
  assert (Hfit : block_fits (block_bytes seqs last)) by (unfold block_fits, compress_bound in *; dlia).
  rewrite <- Hdecoded in Hlegal. rewrite (decode_block_reads _ _ Hfit seqs last eq_refl Hlegal).
  by rewrite Hreplay.
Qed.

Definition sample_input : list byte := lit "abcabcabcabcabcabcabcabcabcabc-tail".

Lemma compressed_block_decodes_witness :
  ∃ block' table' n summary,
    compress_block sample_input (replicate 60 (byte_of 0)) (replicate 16384 (byte_of 1))
    = Some (block', table', n)
    ∧ decode_block (take (Z.to_nat n) block') (replicate 35 (byte_of 0))
      = Some (Value (summary, sample_input)).
Proof.
  destruct (compressed_block_decodes sample_input (replicate 60 (byte_of 0))
    (replicate 16384 (byte_of 1)) (replicate 35 (byte_of 0)))
    as (b & t & n & s & Hc & _ & _ & Hd); [done|by vm_compute| |done|].
  - rewrite size_of_replicate. by vm_compute.
  - exists b, t, n, s. split; [exact Hc|exact Hd].
Defined.

(** C34 The oracle's verdict on a unit is a valid one, whatever the bytes and whether or
    not it has scratch, and it agrees exactly with the right units: an output whose
    magic, length, block and padding are those of one legal block that decodes to the
    input. *)
Theorem compression_verdict (evidence : UnitEvidence) (scratch : option (list byte)) :
  in_u64 (size_of (unit_input evidence)) → in_u64 (size_of (unit_output evidence)) →
  from_option (λ s, size_of s = kInputBytes) True scratch →
  ∃ v, check_compression scratch evidence = Some v ∧ keeps_rules v kExact = true
    ∧ (v = Agreement 1 ↔ right_unit evidence ∧ is_Some scratch).
Proof.
  intros Hi Ho Hs. destruct (check_cases evidence scratch Hi Ho Hs) as (v & Hv & Hrules & Hagree).
  exists v. split_and!; [done|done|]. split; [done|]. intros [Hright [s ->]].
  rewrite (check_right _ _ Hright Hs) in Hv. congruence.
Qed.

Lemma compression_verdict_witness :
  ∃ v, check_compression None {| unit_input := []; unit_output := [] |} = Some v
    ∧ keeps_rules v kExact = true.
Proof.
  destruct (compression_verdict {| unit_input := []; unit_output := [] |} None)
    as (v & Hv & Hr & _); [done|done|done|].
  exists v. split; [exact Hv|exact Hr].
Defined.

(** The compressor and the oracle agree: the unit written from any input, over any
    output and any table, is one the oracle agrees with. *)
Theorem compressed_unit_agrees (input output table scratch : list byte) :
  size_of input = kInputBytes → size_of output = kOutputBytes →
  kTableBytes ≤ size_of table → size_of scratch = kInputBytes →
  ∃ output', write_unit input output table = Some output'
    ∧ check_compression (Some scratch) {| unit_input := input; unit_output := output' |}
      = Some (Agreement 1).
Proof.
  intros Hi Ho Ht Hs. destruct (write_unit_right input output table Hi Ho Ht) as (o & Hw & Hr).
  exists o. split; [done|]. by apply check_right.
Qed.

Lemma compressed_unit_agrees_witness :
  ∃ output',
    write_unit (replicate (Z.to_nat kInputBytes) (byte_of 7)) (replicate (Z.to_nat kOutputBytes) (byte_of 1))
      (replicate (Z.to_nat kTableBytes) (byte_of 2)) = Some output'
    ∧ check_compression (Some (replicate (Z.to_nat kInputBytes) (byte_of 0)))
        {| unit_input := replicate (Z.to_nat kInputBytes) (byte_of 7); unit_output := output' |}
      = Some (Agreement 1).
Proof.
  apply compressed_unit_agrees; rewrite size_of_replicate; by vm_compute.
Defined.
