(* ===== verification/Words.v ===== *)
(** * Buffers as arrays of words, and tables as functions

    The workloads keep arrays of little-endian words in spans of bytes and reach
    them by byte offset. [array w vs] is the buffer that holds [vs], and reading and
    writing a word of it is reading and writing the list. A list indexed by
    consecutive numbers is [tabulate f n], and writing one of its elements updates
    [f]. *)

From S2P Require Export Span.

(** ** Words *)

(** The loops of [load_le32] and [load_le64] (workloads/sort/spec.hpp). *)
Definition load_word (w : nat) (bytes : list byte) (pos : Z) : option Z :=
  word ← subspan bytes pos (Z.of_nat w); Some (get_le word).

(** The loops of [store_le32] and [store_le64] (workloads/sort/sort.cpp). *)
Definition store_word (w : nat) (bytes : list byte) (pos value : Z) : option (list byte) :=
  blit bytes pos (put_le w value).

Definition array (w : nat) (vs : list Z) : list byte := vs ≫= put_le w.

(** A word of [w] bytes. *)
Definition in_word (w : nat) (v : Z) : Prop := 0 ≤ v < 2 ^ (8 * Z.of_nat w).

Lemma array_app w us vs : array w (us ++ vs) = array w us ++ array w vs.
Proof. apply bind_app. Qed.

Lemma size_array w vs : size_of (array w vs) = Z.of_nat w * size_of vs.
Proof.
  unfold array. induction vs as [|v vs IH]; cbn [mbind list_bind]; [sizes; lia|].
  rewrite size_of_app, IH, size_of_cons. unfold size_of at 1. rewrite length_put_le. lia.
Qed.

(** The array around its element [i]. *)
Lemma array_middle w vs i v :
  vs !! i = Some v →
  array w vs = array w (take i vs) ++ put_le w v ++ array w (drop (S i) vs)
  ∧ size_of (array w (take i vs)) = Z.of_nat i * Z.of_nat w.
Proof.
  intros Hv. split.
  - rewrite <- (take_drop_middle vs i v Hv) at 1. rewrite array_app. done.
  - rewrite size_array. apply lookup_lt_Some in Hv. unfold size_of. rewrite length_take. lia.
Qed.

Lemma load_array w vs i v :
  vs !! i = Some v → in_word w v →
  load_word w (array w vs) (Z.of_nat i * Z.of_nat w) = Some v.
Proof.
  intros Hv Hw. destruct (array_middle w vs i v Hv) as [E Hs]. unfold load_word.
  rewrite E, <- Hs. pose proof (size_of_nonneg (array w (take i vs))).
  assert (Hl : size_of (put_le w v) = Z.of_nat w) by (unfold size_of; by rewrite length_put_le).
  rewrite <- Hl at 1. erewrite subspan_app; [|lia| |].
  - cbn. by rewrite get_put_le_small.
  - sizes. pose proof (size_of_nonneg (put_le w v)).
    pose proof (size_of_nonneg (array w (drop (S i) vs))). lia.
  - unfold size_of. rewrite Nat2Z.id. by rewrite drop_app_length.
Qed.

Lemma store_array w vs i v :
  (i < length vs)%nat →
  store_word w (array w vs) (Z.of_nat i * Z.of_nat w) v = Some (array w (<[i := v]> vs)).
Proof.
  intros Hi. destruct (lookup_lt_is_Some_2 vs i Hi) as [u Hu].
  destruct (array_middle w vs i u Hu) as [E Hs]. unfold store_word. rewrite E, <- Hs.
  assert (Hl : ∀ x, size_of (put_le w x) = Z.of_nat w) by (intros; unfold size_of; by rewrite length_put_le).
  pose proof (size_of_nonneg (array w (take i vs))).
  pose proof (size_of_nonneg (array w (drop (S i) vs))).
  rewrite blit_splice by (sizes; rewrite ?Hl; lia).
  rewrite splice_app by (by rewrite ?Hl). f_equal.
  rewrite insert_take_drop by done. by rewrite array_app.
Qed.

(** ** Tables *)

Definition tabulate {A} (f : Z → A) (n : nat) : list A := (λ i, f (Z.of_nat i)) <$> seq 0 n.

Lemma length_tabulate {A} (f : Z → A) n : length (tabulate f n) = n.
Proof. unfold tabulate. by rewrite length_fmap, length_seq. Qed.

Lemma size_of_tabulate {A} (f : Z → A) n : size_of (tabulate f n) = Z.of_nat n.
Proof. unfold size_of. by rewrite length_tabulate. Qed.

Lemma lookup_tabulate {A} (f : Z → A) n i :
  (i < n)%nat → tabulate f n !! i = Some (f (Z.of_nat i)).
Proof. intros Hi. unfold tabulate. rewrite list_lookup_fmap, lookup_seq_lt by done. done. Qed.

Lemma tabulate_ext {A} (f g : Z → A) n :
  (∀ i, 0 ≤ i < Z.of_nat n → f i = g i) → tabulate f n = tabulate g n.
Proof.
  intros H. apply list_eq. intros i. destruct (decide (i < n)%nat).
  - rewrite !lookup_tabulate by done. f_equal. apply H. lia.
  - by rewrite !lookup_ge_None_2 by (rewrite length_tabulate; lia).
Qed.

Lemma insert_tabulate {A} (f : Z → A) n i v :
  (i < n)%nat →
  <[i := v]> (tabulate f n) = tabulate (λ j, if decide (j = Z.of_nat i) then v else f j) n.
Proof.
  intros Hi. apply list_eq. intros j. destruct (decide (j < n)%nat).
  - rewrite lookup_tabulate by done. destruct (decide (j = i)) as [->|Hne].
    + rewrite list_lookup_insert_eq by (by rewrite length_tabulate). by rewrite decide_True.
    + rewrite list_lookup_insert_ne, lookup_tabulate by done. by rewrite decide_False by lia.
  - by rewrite !lookup_ge_None_2 by (rewrite ?length_insert, length_tabulate; lia).
Qed.

Lemma load_tabulate {A} (f : Z → A) n i :
  0 ≤ i < Z.of_nat n → load (tabulate f n) i = Some (f i).
Proof.
  intros Hi. rewrite load_lookup, lookup_tabulate by lia. by rewrite Z2Nat.id by lia.
Qed.

Lemma store_tabulate {A} (f : Z → A) n i v :
  0 ≤ i < Z.of_nat n →
  store (tabulate f n) i v = Some (tabulate (λ j, if decide (j = i) then v else f j) n).
Proof.
  intros Hi. unfold store. rewrite size_of_tabulate.
  rewrite (proj2 (Z.leb_le _ _)), (proj2 (Z.ltb_lt _ _)) by lia. cbn [andb].
  rewrite insert_tabulate by lia. by rewrite Z2Nat.id by lia.
Qed.

(** Every buffer of a whole number of words is the array of its words. *)
Lemma bytes_array w m bytes :
  length bytes = (m * w)%nat →
  ∃ vs, length vs = m ∧ Forall (in_word w) vs ∧ bytes = array w vs.
Proof.
  revert bytes. induction m as [|m IH]; intros bytes Hl.
  - exists []. destruct bytes; [by split_and!|cbn in Hl; lia].
  - destruct (IH (drop w bytes)) as (vs & Hvs & Hw & E); [rewrite length_drop; lia|].
    assert (Hlen : length (take w bytes) = w) by (rewrite length_take; lia).
    exists (get_le (take w bytes) :: vs). split_and!.
    + cbn. by rewrite Hvs.
    + constructor; [|done]. unfold in_word. rewrite <- Hlen at 3. apply get_le_range.
    + rewrite <- (take_drop w bytes) at 1. rewrite E. cbn. f_equal.
      rewrite <- Hlen at 2. by rewrite put_get_le.
Qed.

Lemma array_inj w us vs :
  Forall (in_word w) us → Forall (in_word w) vs → length us = length vs →
  array w us = array w vs → us = vs.
Proof.
  intros Hu Hv Hl E. apply list_eq. intros i. destruct (decide (i < length us)%nat) as [Hi|Hi].
  - destruct (lookup_lt_is_Some_2 us i Hi) as [u Hui].
    destruct (lookup_lt_is_Some_2 vs i) as [v Hvi]; [lia|].
    pose proof (load_array w us i u Hui (Forall_lookup_1 _ _ _ _ Hu Hui)) as H1.
    pose proof (load_array w vs i v Hvi (Forall_lookup_1 _ _ _ _ Hv Hvi)) as H2.
    congruence.
  - by rewrite !lookup_ge_None_2 by lia.
Qed.

(** An array inside a larger buffer. *)
Lemma load_array_in w pre vs post i v :
  vs !! i = Some v → in_word w v →
  load_word w (pre ++ array w vs ++ post) (size_of pre + Z.of_nat i * Z.of_nat w) = Some v.
Proof.
  intros Hv Hw. destruct (array_middle w vs i v Hv) as [E Hs]. unfold load_word.
  assert (Hl : size_of (put_le w v) = Z.of_nat w) by (unfold size_of; by rewrite length_put_le).
  pose proof (size_of_nonneg pre). pose proof (size_of_nonneg (array w (take i vs))).
  pose proof (size_of_nonneg (array w (drop (S i) vs))). pose proof (size_of_nonneg post).
  rewrite <- Hl at 2. rewrite (subspan_app _ _ _ (array w (drop (S i) vs) ++ post)).
  - cbn. by rewrite get_put_le_small.
  - lia.
  - rewrite E. sizes. rewrite Hl. lia.
  - rewrite E, <- Hs, <- size_of_app, <- !app_assoc, app_assoc. unfold size_of.
    by rewrite Nat2Z.id, drop_app_length.
Qed.
