(* ===== verification/SortUnit.v ===== *)
(** * workloads/sort: a parallel radix sort

    [SortWorkload::compute] (workloads/sort/sort.cpp) and the specification of a sort
    unit (workloads/sort/spec.hpp). Eight passes, each a stable counting sort on one
    byte of the keys, spread over ranges of the input that an executor runs in any
    order and any interleaving. A task of [executor.run] reads buffers no task of that
    run writes to, so it is the list of its stores; a schedule says whose store comes
    next. The reference is a sort by buckets; the theorem is that every schedule gives
    the one right output. *)

From stdpp Require Export sorting.
From S2P Require Export Words.

(** ** spec.hpp *)

Definition kKeys : Z := 1 ≪ 17.
Definition kKeyBytes : Z := 8.
Definition kIndexBytes : Z := 4.
Definition kInputBytes : Z := kKeys * kKeyBytes.
Definition kIndexRegionOffset : Z := kKeys * kKeyBytes.
Definition kOutputBytes : Z := kKeys * (kKeyBytes + kIndexBytes).
Definition kChunkCounts : list Z := [1; 2; 4; 8; 16; 32; 64].

Definition is_chunk_count (chunks : Z) : bool := bool_decide (chunks ∈ kChunkCounts).

Definition key_offset (position : Z) : Z := position * kKeyBytes.
Definition index_offset (position : Z) : Z := kIndexRegionOffset + position * kIndexBytes.

Definition load_le64 : list byte → Z → option Z := load_word 8.
Definition load_le32 : list byte → Z → option Z := load_word 4.

Record Entry := { key : Z; index : Z }.

Definition precedes (lhs rhs : Entry) : bool :=
  (key lhs <? key rhs) || ((key lhs =? key rhs) && (index lhs <? index rhs)).

(** ** sort.cpp *)

Definition kDigitBits : Z := 8.
Definition kRadix : Z := 1 ≪ kDigitBits.
Definition kPasses : nat := 8.
Definition kCounterBytes : Z := 4.
Definition kSideKeysBytes : Z := kKeys * kKeyBytes.
Definition kSideIndicesBytes : Z := kKeys * kIndexBytes.
Definition kSideBytes : Z := kSideKeysBytes + kSideIndicesBytes.
Definition counters_bytes (chunks : Z) : Z := chunks * kRadix * kCounterBytes.

Definition store_le64 : list byte → Z → Z → option (list byte) := store_word 8.
Definition store_le32 : list byte → Z → Z → option (list byte) := store_word 4.

Definition digit_of (key shift : Z) : Z := Z.land (key ≫ shift) (kRadix - 1).

(** What a pass reads; [src_indices] is empty in the first. *)
Record Pass := {
  src_keys : list byte;
  src_indices : list byte;
  range_keys : Z;
  shift : Z
}.

(** What a pass writes. *)
Record Buffers := {
  dst_keys : list byte;
  dst_indices : list byte;
  counters : list byte
}.

Inductive Write :=
| WriteKey (place key : Z)
| WriteIndex (place index : Z)
| WriteCounter (slot count : Z).

Definition apply_write (b : Buffers) (w : Write) : option Buffers :=
  match w with
  | WriteKey place key =>
      keys ← store_le64 (dst_keys b) (place * kKeyBytes) key;
      Some {| dst_keys := keys; dst_indices := dst_indices b; counters := counters b |}
  | WriteIndex place index =>
      indices ← store_le32 (dst_indices b) (place * kIndexBytes) index;
      Some {| dst_keys := dst_keys b; dst_indices := indices; counters := counters b |}
  | WriteCounter slot count =>
      counts ← store_le32 (counters b) (slot * kCounterBytes) count;
      Some {| dst_keys := dst_keys b; dst_indices := dst_indices b; counters := counts |}
  end.

(** [executor.run]: [schedule] names the task whose next store is made. *)
Fixpoint run_tasks (tasks : list (list Write)) (schedule : list nat) (b : Buffers) :
    option Buffers :=
  match schedule with
  | [] => Some b
  | task :: schedule =>
      writes ← tasks !! task;
      match writes with
      | [] => None
      | w :: writes =>
          b ← apply_write b w;
          run_tasks (<[task := writes]> tasks) schedule b
      end
  end.

(** A schedule runs every store of every task. *)
Definition runs_all (tasks : list (list Write)) (schedule : list nat) : Prop :=
  schedule ≡ₚ concat (imap (λ i writes, replicate (length writes) i) tasks).

(** The counting loop of [count_range], [turns] keys from [pos]. *)
Fixpoint count_keys (pass : Pass) (turns : nat) (pos : Z) (counts : list Z) : option (list Z) :=
  match turns with
  | O => Some counts
  | S turns =>
      key ← load_le64 (src_keys pass) (pos * kKeyBytes);
      let digit := digit_of key (shift pass) in
      count ← load counts digit;
      counts ← store counts digit (u32 (count + 1));
      count_keys pass turns (pos + 1) counts
  end.

Definition count_range (pass : Pass) (range : Z) : option (list Write) :=
  counts ← count_keys pass (Z.to_nat (range_keys pass)) (range * range_keys pass)
             (replicate (Z.to_nat kRadix) 0);
  Some (imap (λ digit count, WriteCounter (range * kRadix + Z.of_nat digit) count) counts).

(** The inner loop of [place_ranges], [turns] ranges from [range]. *)
Fixpoint place_digit (turns : nat) (digit range next : Z) (counters : list byte) :
    option (list byte * Z) :=
  match turns with
  | O => Some (counters, next)
  | S turns =>
      let pos := (range * kRadix + digit) * kCounterBytes in
      count ← load_le32 counters pos;
      counters ← store_le32 counters pos next;
      place_digit turns digit (range + 1) (u32 (next + count)) counters
  end.

Fixpoint place_digits (turns : nat) (chunks digit next : Z) (counters : list byte) :
    option (list byte) :=
  match turns with
  | O => Some counters
  | S turns =>
      '(counters, next) ← place_digit (Z.to_nat chunks) digit 0 next counters;
      place_digits turns chunks (digit + 1) next counters
  end.

Definition place_ranges (chunks : Z) (counters : list byte) : option (list byte) :=
  place_digits (Z.to_nat kRadix) chunks 0 0 counters.

(** The moving loop of [move_range], [turns] keys from [pos]. *)
Fixpoint move_keys (pass : Pass) (turns : nat) (pos : Z) (places : list Z) : option (list Write) :=
  match turns with
  | O => Some []
  | S turns =>
      key ← load_le64 (src_keys pass) (pos * kKeyBytes);
      index ← (if bool_decide (src_indices pass = []) then Some (u32 pos)
               else load_le32 (src_indices pass) (pos * kIndexBytes));
      let digit := digit_of key (shift pass) in
      place ← load places digit;
      places ← store places digit (u32 (place + 1));
      writes ← move_keys pass turns (pos + 1) places;
      Some (WriteKey place key :: WriteIndex place index :: writes)
  end.

Definition move_range (pass : Pass) (counters : list byte) (range : Z) : option (list Write) :=
  places ← mapM (λ digit, load_le32 counters ((range * kRadix + digit) * kCounterBytes))
             (tabulate id (Z.to_nat kRadix));
  move_keys pass (Z.to_nat (range_keys pass)) (range * range_keys pass) places.

(** One pass: the counts, the places, the moves. *)
Definition run_pass (chunks : Z) (pass : Pass) (schedules : list nat * list nat) (b : Buffers) :
    option Buffers :=
  counting ← mapM (count_range pass) (tabulate id (Z.to_nat chunks));
  b ← run_tasks counting schedules.1 b;
  counts ← place_ranges chunks (counters b);
  let b := {| dst_keys := dst_keys b; dst_indices := dst_indices b; counters := counts |} in
  moving ← mapM (move_range pass (counters b)) (tabulate id (Z.to_nat chunks));
  run_tasks moving schedules.2 b.

(** The five spans of a unit: the output's two and the scratch's three. *)
Record Unit := {
  out_keys : list byte;
  out_indices : list byte;
  side_keys : list byte;
  side_indices : list byte;
  unit_counters : list byte
}.

(** Pass [number]: from the input, the side or the output, to the other. *)
Definition compute_pass (chunks : Z) (input : list byte) (number : nat)
    (schedules : list nat * list nat) (u : Unit) : option Unit :=
  let to_output := Nat.odd number in
  let pass :=
    {| src_keys := if (number =? 0)%nat then input
                   else if to_output then side_keys u else out_keys u;
       src_indices := if (number =? 0)%nat then []
                      else if to_output then side_indices u else out_indices u;
       range_keys := kKeys / chunks; shift := Z.of_nat number * kDigitBits |} in
  b ← run_pass chunks pass schedules
        {| dst_keys := if to_output then out_keys u else side_keys u;
           dst_indices := if to_output then out_indices u else side_indices u;
           counters := unit_counters u |};
  Some (if to_output
        then {| out_keys := dst_keys b; out_indices := dst_indices b; side_keys := side_keys u;
                side_indices := side_indices u; unit_counters := counters b |}
        else {| out_keys := out_keys u; out_indices := out_indices u; side_keys := dst_keys b;
                side_indices := dst_indices b; unit_counters := counters b |}).

Fixpoint compute_passes (chunks : Z) (input : list byte) (number : nat)
    (schedules : list (list nat * list nat)) (u : Unit) : option Unit :=
  match schedules with
  | [] => Some u
  | s :: schedules =>
      u ← compute_pass chunks input number s u;
      compute_passes chunks input (S number) schedules u
  end.

(** [SortWorkload::compute], under a pair of schedules for each pass. *)
Definition compute (chunks : Z) (schedules : list (list nat * list nat))
    (input output scratch : list byte) : option (list byte) :=
  side_keys ← subspan scratch 0 kSideKeysBytes;
  side_indices ← subspan scratch kSideKeysBytes kSideIndicesBytes;
  counters ← subspan scratch kSideBytes (counters_bytes chunks);
  out_keys ← subspan output 0 kIndexRegionOffset;
  out_indices ← subspan_from output kIndexRegionOffset;
  u ← compute_passes chunks input 0 schedules
        {| out_keys := out_keys; out_indices := out_indices; side_keys := side_keys;
           side_indices := side_indices; unit_counters := counters |};
  Some (SortUnit.out_keys u ++ SortUnit.out_indices u).

(** ** The reference: a stable sort by one digit *)

Definition bucket_sort {A} (digit : A → Z) (m : nat) (l : list A) : list A :=
  concat (tabulate (λ d, filter (λ x, digit x = d) l) m).

Section Buckets.
Context {A : Type} (digit : A → Z).
Implicit Types l : list A.

(** How many of [l] have the digit [d], and how many a smaller one. *)
Definition cnt (d : Z) l : Z := size_of (filter (λ x, digit x = d) l).
Definition below (d : Z) l : Z := size_of (filter (λ x, digit x < d) l).

(** Where a stable sort puts the element at position [p]. *)
Definition rank l (p : nat) : Z :=
  match l !! p with
  | Some x => below (digit x) l + cnt (digit x) (take p l)
  | None => 0
  end.

Lemma cnt_app d l k : cnt d (l ++ k) = cnt d l + cnt d k.
Proof. unfold cnt. by rewrite filter_app, size_of_app. Qed.

Lemma cnt_nonneg d l : 0 ≤ cnt d l.
Proof. apply size_of_nonneg. Qed.

Lemma cnt_cons d x l : cnt d (x :: l) = (if decide (digit x = d) then 1 else 0) + cnt d l.
Proof. unfold cnt. rewrite filter_cons. case_decide; sizes; lia. Qed.

Lemma cnt_le d l : cnt d l ≤ size_of l.
Proof. unfold cnt, size_of. pose proof (length_filter (λ x, digit x = d) l). lia. Qed.

Lemma below_succ d l : below (d + 1) l = below d l + cnt d l.
Proof.
  unfold below. induction l as [|x l IH]; [done|]. rewrite cnt_cons, !filter_cons.
  repeat case_decide; sizes; lia.
Qed.

Lemma below_le d l : 0 ≤ below d l ≤ size_of l.
Proof.
  split; [apply size_of_nonneg|]. unfold below, size_of.
  pose proof (length_filter (λ x, digit x < d) l). lia.
Qed.

Lemma below_mono d d' l : d ≤ d' → below d l ≤ below d' l.
Proof.
  intros Hd. unfold below. induction l as [|x l IH]; [done|]. rewrite !filter_cons.
  repeat case_decide; sizes; lia.
Qed.

Lemma cnt_take_succ l p x d :
  l !! p = Some x →
  cnt d (take (S p) l) = cnt d (take p l) + (if decide (digit x = d) then 1 else 0).
Proof.
  intros Hx. rewrite (take_S_r l p x Hx), cnt_app, cnt_cons.
  change (cnt d []) with 0. lia.
Qed.

Lemma cnt_take_mono d l p q : (p ≤ q)%nat → cnt d (take p l) ≤ cnt d (take q l).
Proof.
  intros Hpq. rewrite <- (take_drop p (take q l)), take_take, Nat.min_l, cnt_app by lia.
  pose proof (cnt_nonneg d (drop p (take q l))). lia.
Qed.

Lemma cnt_take_le d l p : cnt d (take p l) ≤ cnt d l.
Proof.
  rewrite <- (take_drop p l) at 2. rewrite cnt_app. pose proof (cnt_nonneg d (drop p l)). lia.
Qed.

Lemma rank_range l p x :
  l !! p = Some x → below (digit x) l ≤ rank l p < below (digit x + 1) l.
Proof.
  intros Hx. unfold rank. rewrite Hx, below_succ. pose proof (cnt_nonneg (digit x) (take p l)).
  pose proof (cnt_take_le (digit x) l (S p)) as Hle. rewrite (cnt_take_succ _ _ _ _ Hx) in Hle.
  rewrite decide_True in Hle by done. lia.
Qed.

Lemma rank_bound l p : (p < length l)%nat → 0 ≤ rank l p < size_of l.
Proof.
  intros [x Hx]%lookup_lt_is_Some_2. pose proof (rank_range l p x Hx).
  pose proof (below_le (digit x) l). pose proof (below_le (digit x + 1) l). lia.
Qed.

Lemma rank_lt l p q x y :
  (p < q)%nat → l !! p = Some x → l !! q = Some y → rank l p ≠ rank l q.
Proof.
  intros Hpq Hx Hy. pose proof (rank_range l p x Hx). pose proof (rank_range l q y Hy).
  destruct (Z.lt_trichotomy (digit x) (digit y)) as [Hd|[Hd|Hd]].
  - pose proof (below_mono (digit x + 1) (digit y) l). lia.
  - unfold rank. rewrite Hx, Hy, <- Hd. pose proof (cnt_take_mono (digit x) l (S p) q Hpq) as Hm.
    rewrite (cnt_take_succ _ _ _ _ Hx), decide_True in Hm by done. lia.
  - pose proof (below_mono (digit y + 1) (digit x) l). lia.
Qed.

Lemma rank_inj l p q :
  (p < length l)%nat → (q < length l)%nat → rank l p = rank l q → p = q.
Proof.
  intros Hp Hq E. destruct (lookup_lt_is_Some_2 l p Hp) as [x Hx].
  destruct (lookup_lt_is_Some_2 l q Hq) as [y Hy].
  destruct (Nat.lt_trichotomy p q) as [H|[H|H]]; [|done|].
  - by destruct (rank_lt l p q x y).
  - by destruct (rank_lt l q p y x).
Qed.

(** Every place is some element's. *)
Lemma rank_surj l j : 0 ≤ j < size_of l → ∃ p, (p < length l)%nat ∧ rank l p = j.
Proof.
  intros Hj. pose (ps := (λ p, Z.to_nat (rank l p)) <$> seq 0 (length l)).
  assert (Hnodup : NoDup ps).
  { apply NoDup_fmap_2_strong; [|apply NoDup_seq]. intros p q Hp%elem_of_seq Hq%elem_of_seq E.
    pose proof (rank_bound l p ltac:(lia)). pose proof (rank_bound l q ltac:(lia)).
    apply (rank_inj l); lia. }
  assert (Hsub : ps ⊆+ seq 0 (length l)).
  { apply NoDup_submseteq; [done|]. intros i [p [-> Hp%elem_of_seq]]%list_elem_of_fmap.
    apply elem_of_seq. pose proof (rank_bound l p ltac:(lia)). unfold size_of in *. lia. }
  apply submseteq_length_Permutation in Hsub; [|unfold ps; by rewrite length_fmap, !length_seq].
  assert (Hin : Z.to_nat j ∈ ps).
  { rewrite Hsub. apply elem_of_seq. unfold size_of in Hj. lia. }
  apply list_elem_of_fmap in Hin as [p [E Hp%elem_of_seq]]. exists p.
  pose proof (rank_bound l p ltac:(lia)). split; [lia|lia].
Qed.

(** *** The buckets in order *)

Lemma tabulate_S {B} (f : Z → B) m : tabulate f (S m) = tabulate f m ++ [f (Z.of_nat m)].
Proof. unfold tabulate. rewrite seq_S, fmap_app. done. Qed.

Lemma size_buckets m l :
  Forall (λ x, 0 ≤ digit x) l → size_of (bucket_sort digit m l) = below (Z.of_nat m) l.
Proof.
  intros Hl. unfold bucket_sort. induction m as [|m IH].
  - unfold below. cbn [tabulate seq fmap list_fmap concat].
    assert (E : filter (λ x, digit x < Z.of_nat 0) l = []); [|by rewrite E].
    apply elem_of_nil_inv. intros x [Hx Hin]%list_elem_of_filter.
    rewrite Forall_forall in Hl. specialize (Hl x Hin). lia.
  - rewrite tabulate_S, concat_app. cbn [concat]. rewrite app_nil_r, size_of_app, IH.
    rewrite Nat2Z.inj_succ. unfold Z.succ. rewrite below_succ. done.
Qed.

Lemma tabulate_split {B} (f : Z → B) d m :
  (d < m)%nat → ∃ post, tabulate f m = tabulate f d ++ f (Z.of_nat d) :: post.
Proof.
  intros Hd. induction m as [|m IH]; [lia|]. rewrite tabulate_S.
  destruct (decide (d = m)) as [->|].
  - by exists [].
  - destruct IH as [post ->]; [lia|]. exists (post ++ [f (Z.of_nat m)]). by rewrite <- app_assoc.
Qed.

(** The place of an element in its bucket is how many of its digit come before. *)
Lemma lookup_filter_rank (P : A → Prop) `{∀ x, Decision (P x)} l p x :
  l !! p = Some x → P x → filter P l !! length (filter P (take p l)) = Some x.
Proof.
  revert p. induction l as [|y l IH]; intros [|p] Hx HP; cbn in Hx; try done.
  - injection Hx as ->. cbn [take]. rewrite filter_cons, decide_True by done. done.
  - cbn [take]. rewrite !filter_cons. specialize (IH p Hx HP). by case_decide.
Qed.

Lemma lookup_bucket_sort m l p x :
  Forall (λ x, 0 ≤ digit x < Z.of_nat m) l → l !! p = Some x →
  bucket_sort digit m l !! Z.to_nat (rank l p) = Some x.
Proof.
  intros Hl Hx. pose proof (Forall_lookup_1 _ _ _ _ Hl Hx) as Hd. cbn in Hd.
  assert (Hnn : Forall (λ x, 0 ≤ digit x) l) by (eapply Forall_impl; [exact Hl|]; intros ? [? ?]; done).
  unfold bucket_sort.
  destruct (tabulate_split (λ d, filter (λ x, digit x = d) l) (Z.to_nat (digit x)) m ltac:(lia))
    as [post ->].
  rewrite concat_app. cbn [concat]. rewrite Z2Nat.id by lia.
  pose proof (size_buckets (Z.to_nat (digit x)) l Hnn) as Hs. rewrite Z2Nat.id in Hs by lia.
  fold (bucket_sort digit (Z.to_nat (digit x)) l).
  unfold rank. rewrite Hx. unfold cnt. unfold size_of in *.
  rewrite lookup_app_r by lia.
  replace (Z.to_nat _ - _)%nat with (length (filter (λ y, digit y = digit x) (take p l))) by lia.
  apply lookup_app_l_Some. by apply lookup_filter_rank.
Qed.

Lemma filter_agree (P Q : A → Prop) `{∀ x, Decision (P x), ∀ x, Decision (Q x)} l :
  Forall (λ x, P x ↔ Q x) l → filter P l = filter Q l.
Proof.
  induction 1 as [|x l Hx Hl IH]; [done|]. rewrite !filter_cons, IH.
  repeat case_decide; tauto.
Qed.

Lemma bucket_sort_Permutation m l :
  Forall (λ x, 0 ≤ digit x < Z.of_nat m) l → bucket_sort digit m l ≡ₚ l.
Proof.
  revert l. unfold bucket_sort. induction m as [|m IH]; intros l Hl.
  - destruct l as [|x l]; [done|]. apply Forall_cons in Hl as [? _]. lia.
  - rewrite tabulate_S, concat_app. cbn [concat]. rewrite app_nil_r.
    etransitivity; [|apply (filter_app_complement (λ x, digit x < Z.of_nat m) l)].
    apply Permutation_app.
    + rewrite <- (IH (filter (λ x, digit x < Z.of_nat m) l)).
      * apply reflexive_eq. f_equal. apply tabulate_ext. intros d Hd.
        rewrite list_filter_filter. apply list_filter_iff. intros x. lia.
      * apply Forall_forall. intros x [? Hin]%list_elem_of_filter.
        rewrite Forall_forall in Hl. specialize (Hl x Hin). lia.
    + apply reflexive_eq, filter_agree. eapply Forall_impl; [exact Hl|]. cbn. lia.
Qed.

Lemma StronglySorted_buckets (R : relation A) m l :
  (∀ d, StronglySorted R (filter (λ x, digit x = d) l)) →
  (∀ x y, digit x < digit y → R x y) →
  StronglySorted R (bucket_sort digit m l).
Proof.
  intros Hin Hacross. unfold bucket_sort. induction m as [|m IH]; [constructor|].
  rewrite tabulate_S, concat_app. cbn [concat]. rewrite app_nil_r.
  apply StronglySorted_app_2; [|done|apply Hin].
  intros x y Hx [Hy _]%list_elem_of_filter. apply Hacross. rewrite Hy.
  apply list_elem_of_In, in_concat in Hx as (b & Hb & Hx).
  apply list_elem_of_In in Hb, Hx. unfold tabulate in Hb.
  apply list_elem_of_fmap in Hb as (d & -> & Hd%elem_of_seq).
  apply list_elem_of_filter in Hx as [-> _]. lia.
Qed.

End Buckets.

(** ** Schedules: the order of the stores does not matter *)

Fixpoint apply_all (writes : list Write) (b : Buffers) : option Buffers :=
  match writes with
  | [] => Some b
  | w :: writes => b ← apply_write b w; apply_all writes b
  end.

(** A schedule makes every store of every task once. *)
Lemma run_tasks_permutes tasks schedule :
  runs_all tasks schedule →
  ∃ writes, writes ≡ₚ concat tasks ∧ ∀ b, run_tasks tasks schedule b = apply_all writes b.
Proof.
  revert tasks. induction schedule as [|task schedule IH]; intros tasks Hall; unfold runs_all in Hall.
  - exists []. split; [|done]. apply Permutation_nil_l in Hall.
    assert (Hnil : Forall (λ writes, writes = []) tasks).
    { apply Forall_lookup. intros i [|w ws] Hi; [done|].
      assert (Hin : i ∈ concat (imap (λ i writes, replicate (length writes) i) tasks)).
      { apply list_elem_of_In, in_concat. exists (replicate (S (length ws)) i).
        split; [|by left]. apply list_elem_of_In, elem_of_lookup_imap.
        by exists i, (w :: ws). }
      rewrite <- Hall in Hin. by apply not_elem_of_nil in Hin. }
    clear -Hnil. induction Hnil as [|t tasks -> _ IH]; [done|]. exact IH.
  - assert (Hin : task ∈ concat (imap (λ i writes, replicate (length writes) i) tasks)).
    { rewrite <- Hall. by left. }
    apply list_elem_of_In, in_concat in Hin as (r & Hr & Hin).
    apply list_elem_of_In, elem_of_lookup_imap in Hr as (i & writes & -> & Hi).
    apply list_elem_of_In, elem_of_replicate in Hin as [-> Hne].
    destruct writes as [|w writes]; [done|].
    apply list_elem_of_split_length in Hi as (pre & post & -> & ->).
    assert (Hins : <[length pre := writes]> (pre ++ (w :: writes) :: post) = pre ++ writes :: post).
    { by rewrite insert_app_r_alt, Nat.sub_diag by lia. }
    destruct (IH (pre ++ writes :: post)) as (rest & Hrest & Hrun).
    { unfold runs_all. apply (Permutation_cons_inv (a := length pre)). rewrite Hall.
      rewrite !imap_app, !concat_app. cbn [imap concat length replicate app].
      rewrite Nat.add_0_r. symmetry. apply Permutation_middle. }
    exists (w :: rest). split.
    + rewrite Hrest, !concat_app. cbn [concat app]. apply Permutation_middle.
    + intros b. cbn [run_tasks apply_all].
      rewrite lookup_app_r, Nat.sub_diag by lia. cbn [lookup list_lookup mbind option_bind].
      destruct (apply_write b w); [|done]. rewrite Hins. apply Hrun.
Qed.

(** The buffers as the words they hold. *)
Record Tables := { keys_of : list Z; indices_of : list Z; counts_of : list Z }.

Definition held (t : Tables) : Buffers :=
  {| dst_keys := array 8 (keys_of t); dst_indices := array 4 (indices_of t);
     counters := array 4 (counts_of t) |}.

Inductive Addr := InKeys (place : Z) | InIndices (place : Z) | InCounters (slot : Z).

Definition addr_of (w : Write) : Addr :=
  match w with
  | WriteKey p _ => InKeys p
  | WriteIndex p _ => InIndices p
  | WriteCounter s _ => InCounters s
  end.

Definition value_of (w : Write) : Z :=
  match w with WriteKey _ v | WriteIndex _ v | WriteCounter _ v => v end.

Definition look (t : Tables) (a : Addr) : option Z :=
  match a with
  | InKeys p => load (keys_of t) p
  | InIndices p => load (indices_of t) p
  | InCounters s => load (counts_of t) s
  end.

Definition same_sizes (t t' : Tables) : Prop :=
  length (keys_of t') = length (keys_of t) ∧ length (indices_of t') = length (indices_of t)
  ∧ length (counts_of t') = length (counts_of t).

Lemma load_insert_eq (l : list Z) p v :
  0 ≤ p < size_of l → load (<[Z.to_nat p := v]> l) p = Some v.
Proof.
  intros Hp. rewrite load_lookup, list_lookup_insert_eq; [done| |lia].
  unfold size_of in Hp. lia.
Qed.

Lemma load_insert_ne (l : list Z) p q v :
  0 ≤ p → p ≠ q → load (<[Z.to_nat p := v]> l) q = load l q.
Proof.
  intros Hp Hne. unfold load. destruct (Z.leb_spec 0 q); [|done].
  by rewrite list_lookup_insert_ne by lia.
Qed.

(** One store, where its word exists. *)
Lemma apply_write_held t w :
  is_Some (look t (addr_of w)) →
  ∃ t', apply_write (held t) w = Some (held t') ∧ same_sizes t t'
    ∧ look t' (addr_of w) = Some (value_of w)
    ∧ ∀ a, a ≠ addr_of w → look t' a = look t a.
Proof.
  intros [v Hv]. destruct w as [p x|p x|p x]; cbn [addr_of look] in Hv;
    apply load_bound in Hv as Hp; unfold apply_write, held, store_le64, store_le32;
    cbn [dst_keys dst_indices counters].
  - exists {| keys_of := <[Z.to_nat p := x]> (keys_of t); indices_of := indices_of t;
              counts_of := counts_of t |}.
    replace (p * kKeyBytes) with (Z.of_nat (Z.to_nat p) * Z.of_nat 8) by (unfold kKeyBytes; lia).
    rewrite store_array by (unfold size_of in Hp; lia). split_and!; [done| | |].
    + unfold same_sizes. cbn. by rewrite length_insert.
    + by apply load_insert_eq.
    + intros [q| |] Hne; try done. cbn. apply load_insert_ne; [lia|by intros ->].
  - exists {| keys_of := keys_of t; indices_of := <[Z.to_nat p := x]> (indices_of t);
              counts_of := counts_of t |}.
    replace (p * kIndexBytes) with (Z.of_nat (Z.to_nat p) * Z.of_nat 4) by (unfold kIndexBytes; lia).
    rewrite store_array by (unfold size_of in Hp; lia). split_and!; [done| | |].
    + unfold same_sizes. cbn. by rewrite length_insert.
    + by apply load_insert_eq.
    + intros [|q|] Hne; try done. cbn. apply load_insert_ne; [lia|by intros ->].
  - exists {| keys_of := keys_of t; indices_of := indices_of t;
              counts_of := <[Z.to_nat p := x]> (counts_of t) |}.
    replace (p * kCounterBytes) with (Z.of_nat (Z.to_nat p) * Z.of_nat 4)
      by (unfold kCounterBytes; lia).
    rewrite store_array by (unfold size_of in Hp; lia). split_and!; [done| | |].
    + unfold same_sizes. cbn. by rewrite length_insert.
    + by apply load_insert_eq.
    + intros [| |q] Hne; try done. cbn. apply load_insert_ne; [lia|by intros ->].
Qed.

(** The tables after the stores: what was stored, and elsewhere what was there. *)
Definition stored (writes : list Write) (t t' : Tables) : Prop :=
  same_sizes t t' ∧ (∀ w, w ∈ writes → look t' (addr_of w) = Some (value_of w))
  ∧ ∀ a, a ∉ addr_of <$> writes → look t' a = look t a.

Lemma apply_all_held writes t :
  NoDup (addr_of <$> writes) → (∀ w, w ∈ writes → is_Some (look t (addr_of w))) →
  ∃ t', apply_all writes (held t) = Some (held t') ∧ stored writes t t'.
Proof.
  revert t. induction writes as [|w writes IH]; intros t Hnd Hfit.
  - exists t. split; [done|]. split; [done|]. split; [|done]. intros w Hw%elem_of_nil. done.
  - cbn [fmap list_fmap] in Hnd. apply NoDup_cons in Hnd as [Hnotin Hnd].
    destruct (apply_write_held t w) as (t1 & E1 & Hs1 & Hw1 & Hother1); [apply Hfit; by left|].
    destruct (IH t1 Hnd) as (t2 & E2 & Hs2 & Hw2 & Hother2).
    { intros w' Hw'. rewrite Hother1; [apply Hfit; by right|].
      intros E. apply Hnotin. rewrite <- E. by apply list_elem_of_fmap_2. }
    exists t2. split; [cbn; by rewrite E1|]. split_and!.
    + unfold same_sizes in *. intuition congruence.
    + intros w' [->|Hw']%elem_of_cons; [by rewrite Hother2|by apply Hw2].
    + intros a Ha. cbn in Ha. apply not_elem_of_cons in Ha as [Hne Ha].
      by rewrite Hother2, Hother1.
Qed.

(** Whatever the schedule, the stores end the same. *)
Lemma run_tasks_held tasks schedule t :
  runs_all tasks schedule → NoDup (addr_of <$> concat tasks) →
  (∀ w, w ∈ concat tasks → is_Some (look t (addr_of w))) →
  ∃ t', run_tasks tasks schedule (held t) = Some (held t') ∧ stored (concat tasks) t t'.
Proof.
  intros Hall Hnd Hfit. destruct (run_tasks_permutes tasks schedule Hall) as (writes & Hp & Hrun).
  destruct (apply_all_held writes t) as (t' & E & Hs & Hw & Hother).
  - by rewrite Hp.
  - intros w Hw. apply Hfit. by rewrite <- Hp.
  - exists t'. rewrite Hrun. split; [done|]. split_and!; [done| |].
    + intros w Hin. apply Hw. by rewrite Hp.
    + intros a Ha. apply Hother. by rewrite Hp.
Qed.
