(* ===== verification/RadixSort.v ===== *)
(** * workloads/sort: what a pass and a unit compute

    A pass of the radix sort of SortUnit.v, under any schedules, sorts its entries by
    one digit as [bucket_sort] does: the counts and places are those of [rank], the
    stores of the moves go to places all different, so their order does not matter.
    Eight passes make the one sorted permutation of the input. *)

From S2P Require Export SortUnit.

(** ** One pass *)

Lemma digit_of_value k sh : 0 ≤ sh → digit_of k sh = (k / 2 ^ sh) mod 256.
Proof.
  intros Hs. unfold digit_of. change (kRadix - 1) with (Z.ones 8).
  rewrite Z.land_ones, Z.shiftr_div_pow2 by lia. done.
Qed.

Lemma digit_of_range k sh : 0 ≤ digit_of k sh < 256.
Proof.
  unfold digit_of. change (kRadix - 1) with (Z.ones 8). rewrite Z.land_ones by lia.
  apply Z.mod_pos_bound. lia.
Qed.

Lemma mapM_tabulate {A} (f : Z → option A) (g : Z → A) n :
  (∀ i, 0 ≤ i < Z.of_nat n → f i = Some (g i)) → mapM f (tabulate id n) = Some (tabulate g n).
Proof.
  intros H. apply mapM_Some. apply Forall2_same_length_lookup_2.
  { by rewrite !length_tabulate. }
  intros i x y Hx Hy. pose proof (lookup_lt_Some _ _ _ Hx) as Hi. rewrite length_tabulate in Hi.
  rewrite lookup_tabulate in Hx by done. rewrite lookup_tabulate in Hy by done. injection Hx as <-. injection Hy as <-.
  apply H. lia.
Qed.

Lemma imap_tabulate {A B} (f : nat → A → B) (g : Z → A) n :
  imap f (tabulate g n) = tabulate (λ i, f (Z.to_nat i) (g i)) n.
Proof.
  apply list_eq. intros i. rewrite list_lookup_imap. destruct (decide (i < n)%nat).
  - rewrite !lookup_tabulate by done. cbn. by rewrite Nat2Z.id.
  - by rewrite !lookup_ge_None_2 by (rewrite length_tabulate; lia).
Qed.

Lemma counter_slot r d : 0 ≤ d < 256 → (r * kRadix + d) / 256 = r ∧ (r * kRadix + d) mod 256 = d.
Proof. change kRadix with 256. intros. split; dlia. Qed.

(** Each of [tasks] tasks of [per] stores has all of them made. *)
Definition complete (tasks per : nat) (schedule : list nat) : Prop :=
  schedule ≡ₚ concat (tabulate (λ i, replicate per (Z.to_nat i)) tasks).

Lemma complete_runs_all (task : Z → list Write) n per schedule :
  (∀ i, 0 ≤ i < Z.of_nat n → length (task i) = per) →
  complete n per schedule → runs_all (tabulate task n) schedule.
Proof.
  unfold complete, runs_all. intros Hlen ->. apply reflexive_eq. f_equal.
  rewrite imap_tabulate. apply tabulate_ext. intros i Hi. by rewrite Hlen.
Qed.

(** Two lists that give the same words are one. *)
Lemma load_list_eq (l k : list Z) :
  length l = length k → (∀ p, 0 ≤ p < size_of k → load l p = load k p) → l = k.
Proof.
  intros Hlen H. apply list_eq. intros i. destruct (decide (i < length k)%nat).
  - specialize (H (Z.of_nat i) ltac:(unfold size_of; lia)).
    rewrite !load_lookup, Nat2Z.id in H by lia. done.
  - by rewrite !lookup_ge_None_2 by lia.
Qed.

Section OnePass.
Context (es : list Entry) (sh : Z) (chunks span : nat) (first : bool).
Hypothesis es_length : length es = (chunks * span)%nat.
Hypothesis es_fit : size_of es < 2 ^ 32.
Hypothesis keys_fit : Forall (λ e, in_word 8 (key e) ∧ in_word 4 (index e)) es.
(** The first pass has no indices: an entry's index is its position. *)
Hypothesis first_positions : first = true → index <$> es = tabulate id (length es).

Abbreviation dig := (λ e, digit_of (key e) sh).
Abbreviation count := (cnt dig).

Definition the_pass : Pass :=
  {| src_keys := array 8 (key <$> es);
     src_indices := if first then [] else array 4 (index <$> es);
     range_keys := Z.of_nat span; shift := sh |}.

(** The entries of a range. *)
Definition range_of (r : nat) : list Entry := take span (drop (r * span) es).

Lemma load_key p e : es !! p = Some e → load_le64 (src_keys the_pass) (Z.of_nat p * kKeyBytes) = Some (key e).
Proof.
  intros He. apply (load_array 8).
  - by rewrite list_lookup_fmap, He.
  - by apply (Forall_lookup_1 _ _ _ _ keys_fit He).
Qed.

Lemma load_index p e :
  es !! p = Some e →
  (if bool_decide (src_indices the_pass = []) then Some (u32 (Z.of_nat p))
   else load_le32 (src_indices the_pass) (Z.of_nat p * kIndexBytes)) = Some (index e).
Proof.
  intros He. pose proof (lookup_lt_Some _ _ _ He) as Hp. unfold the_pass. cbn [src_indices].
  destruct first eqn:Ef.
  - rewrite bool_decide_true by done. f_equal.
    pose proof (f_equal (lookup p) (first_positions eq_refl)) as E.
    rewrite list_lookup_fmap, He, lookup_tabulate in E by done. injection E as ->.
    apply u32_small. unfold in_u32, size_of in *. lia.
  - rewrite bool_decide_false.
    + apply (load_array 4); [by rewrite list_lookup_fmap, He|].
      by apply (Forall_lookup_1 _ _ _ _ keys_fit He).
    + intros Hnil. apply (f_equal size_of) in Hnil. rewrite size_array in Hnil.
      unfold size_of in Hnil. rewrite length_fmap in Hnil. cbn in Hnil. lia.
Qed.

Lemma take_drop_succ (p turns : nat) e :
  es !! p = Some e → take (S turns) (drop p es) = e :: take turns (drop (S p) es).
Proof. intros He. by rewrite (drop_S _ _ _ He). Qed.

Lemma count_keys_spec turns p (f : Z → Z) :
  (p + turns ≤ length es)%nat →
  (∀ d, 0 ≤ d < 256 → 0 ≤ f d ∧ f d + Z.of_nat turns < 2 ^ 32) →
  count_keys the_pass turns (Z.of_nat p) (tabulate f 256)
  = Some (tabulate (λ d, f d + count d (take turns (drop p es))) 256).
Proof.
  revert p f. induction turns as [|turns IH]; intros p f Hp Hf; cbn [count_keys].
  { f_equal. apply tabulate_ext. intros d _. rewrite take_0. change (count d []) with 0. lia. }
  destruct (lookup_lt_is_Some_2 es p ltac:(lia)) as [e He].
  rewrite (load_key p e He). cbn [mbind option_bind]. fold (dig e). cbn [shift the_pass].
  pose proof (digit_of_range (key e) sh) as Hd. rewrite load_tabulate by lia.
  cbn [mbind option_bind]. rewrite store_tabulate by lia. cbn [mbind option_bind].
  replace (Z.of_nat p + 1) with (Z.of_nat (S p)) by lia. rewrite IH; [|lia|].
  - f_equal. apply tabulate_ext. intros d Hd'. rewrite (take_drop_succ p turns e He), cnt_cons.
    pose proof (Hf d Hd'). case_decide as Ec.
    + rewrite decide_True by done. rewrite u32_small by (unfold in_u32; subst; lia). subst. lia.
    + rewrite decide_False by congruence. lia.
  - intros d Hd'. pose proof (Hf d Hd'). case_decide; subst; [|lia].
    rewrite u32_small by (unfold in_u32; lia). lia.
Qed.

Lemma range_fits r : (r < chunks)%nat → (r * span + span ≤ length es)%nat.
Proof. intros. rewrite es_length. nia. Qed.

(** The stores of the counting tasks. *)
Definition count_writes (r : Z) : list Write :=
  tabulate (λ d, WriteCounter (r * kRadix + d) (count d (range_of (Z.to_nat r)))) 256.

Lemma count_range_spec r :
  0 ≤ r < Z.of_nat chunks → count_range the_pass r = Some (count_writes r).
Proof.
  intros Hr. unfold count_range. cbn [range_keys the_pass]. rewrite Nat2Z.id.
  change (Z.to_nat kRadix) with 256%nat.
  assert (E0 : replicate 256 0 = tabulate (λ _, 0) 256) by reflexivity. rewrite E0.
  replace (r * Z.of_nat span) with (Z.of_nat (Z.to_nat r * span)) by lia.
  pose proof (range_fits (Z.to_nat r) ltac:(lia)) as Hfit.
  rewrite count_keys_spec; [|done|].
  - cbn [mbind option_bind]. apply (f_equal Some). rewrite imap_tabulate. unfold count_writes.
    apply tabulate_ext. intros d Hd. rewrite Z2Nat.id by lia. done.
  - intros d _. unfold size_of in es_fit. lia.
Qed.

(** Counter [s] is for range [s / 256] and digit [s mod 256]. *)
Definition counted (s : Z) : Z := count (s mod 256) (range_of (Z.to_nat (s / 256))).


(** Where range [r] starts writing the digit [d]. *)
Definition base (r : nat) (d : Z) : Z := below dig d es + count d (take (r * span) es).

Lemma base_succ r d : base (S r) d = base r d + count d (range_of r).
Proof.
  unfold base, range_of. replace (S r * span)%nat with (r * span + span)%nat by lia.
  rewrite <- take_take_drop, cnt_app. lia.
Qed.

Lemma base_chunks d : base chunks d = base 0 (d + 1).
Proof.
  unfold base. rewrite <- es_length, firstn_all, below_succ.
  cbn [Nat.mul]. rewrite take_0. change (count (d + 1) []) with 0. lia.
Qed.

Lemma base_bound r d : 0 ≤ base r d ≤ size_of es.
Proof.
  unfold base. pose proof (below_le dig d es). pose proof (below_le dig (d + 1) es) as Hb.
  rewrite below_succ in Hb. pose proof (cnt_nonneg dig d (take (r * span) es)).
  pose proof (cnt_take_le dig d es (r * span)). lia.
Qed.

Lemma count_bound d r : 0 ≤ count d (range_of r) ≤ size_of es.
Proof.
  split; [apply cnt_nonneg|]. etransitivity; [apply cnt_le|]. unfold range_of, size_of.
  rewrite length_take, length_drop. lia.
Qed.

Definition slots : nat := (chunks * 256)%nat.

Lemma load_counter (g : Z → Z) r d :
  (r < chunks)%nat → 0 ≤ d < 256 → in_word 4 (g (Z.of_nat r * kRadix + d)) →
  load_le32 (array 4 (tabulate g slots)) ((Z.of_nat r * kRadix + d) * kCounterBytes)
  = Some (g (Z.of_nat r * kRadix + d)).
Proof.
  intros Hr Hd Hw. change kRadix with 256 in *. unfold slots.
  pose proof (load_array 4 (tabulate g (chunks * 256)) (r * 256 + Z.to_nat d)
    (g (Z.of_nat r * 256 + d))) as H.
  replace (Z.of_nat (r * 256 + Z.to_nat d)) with (Z.of_nat r * 256 + d) in H by lia.
  apply H; [|done]. rewrite lookup_tabulate by nia. do 2 f_equal. lia.
Qed.

Lemma store_counter (g : Z → Z) r d v :
  (r < chunks)%nat → 0 ≤ d < 256 →
  store_le32 (array 4 (tabulate g slots)) ((Z.of_nat r * kRadix + d) * kCounterBytes) v
  = Some (array 4 (tabulate (λ s, if decide (s = Z.of_nat r * kRadix + d) then v else g s) slots)).
Proof.
  intros Hr Hd. change kRadix with 256 in *. unfold slots.
  pose proof (store_array 4 (tabulate g (chunks * 256)) (r * 256 + Z.to_nat d) v) as H.
  replace (Z.of_nat (r * 256 + Z.to_nat d)) with (Z.of_nat r * 256 + d) in H by lia.
  change kCounterBytes with (Z.of_nat 4). rewrite length_tabulate in H.
  unfold store_le32. rewrite H by nia. rewrite insert_tabulate by nia.
  do 2 f_equal. apply tabulate_ext. intros s _. 
  replace (Z.of_nat (r * 256 + Z.to_nat d)) with (Z.of_nat r * 256 + d) by lia. done.
Qed.

(** The places of the digit [d] from range [r] on. *)
Definition with_places (r : nat) (d : Z) (g : Z → Z) (s : Z) : Z :=
  if decide (s mod 256 = d ∧ Z.of_nat r ≤ s / 256) then base (Z.to_nat (s / 256)) d else g s.

Lemma place_digit_spec turns r d (g : Z → Z) :
  (r + turns = chunks)%nat → 0 ≤ d < 256 →
  (∀ r', (r ≤ r' < chunks)%nat → g (Z.of_nat r' * kRadix + d) = count d (range_of r')) →
  place_digit turns d (Z.of_nat r) (base r d) (array 4 (tabulate g slots))
  = Some (array 4 (tabulate (with_places r d g) slots), base chunks d).
Proof.
  revert r g. induction turns as [|turns IH]; intros r g Hr Hd Hg; cbn [place_digit].
  { replace r with chunks by lia. do 2 f_equal. apply (f_equal (array 4)), tabulate_ext.
    intros s Hs. unfold with_places. rewrite decide_False; [done|].
    unfold slots in Hs. intros [_ Hle]. dlia. }
  pose proof (count_bound d r) as Hc. pose proof (base_bound r d) as Hb.
  pose proof (base_bound (S r) d) as Hb'. rewrite base_succ in Hb'.
  rewrite load_counter, Hg by (rewrite ?Hg; unfold in_word; lia). cbn [mbind option_bind].
  rewrite store_counter by lia. cbn [mbind option_bind].
  rewrite u32_small by (unfold in_u32; lia). rewrite <- base_succ.
  replace (Z.of_nat r + 1) with (Z.of_nat (S r)) by lia. rewrite IH; [|lia|done|].
  - do 2 f_equal. apply (f_equal (array 4)), tabulate_ext. intros s Hs. unfold with_places.
    pose proof (counter_slot (Z.of_nat r) d Hd) as [H1 H2]. change kRadix with 256 in *.
    destruct (decide (s = Z.of_nat r * 256 + d)) as [->|Hne].
    + rewrite H1, H2, decide_False, decide_True by lia. by rewrite Nat2Z.id.
    + repeat case_decide; try done; exfalso; dlia.
  - intros r' Hr'. change kRadix with 256 in *. rewrite decide_False by lia. apply Hg. lia.
Qed.

Lemma place_digits_spec turns d (g : Z → Z) :
  0 ≤ d → d + Z.of_nat turns = 256 →
  (∀ s, 0 ≤ s < Z.of_nat slots →
     g s = if decide (s mod 256 < d) then base (Z.to_nat (s / 256)) (s mod 256) else counted s) →
  place_digits turns (Z.of_nat chunks) d (base 0 d) (array 4 (tabulate g slots))
  = Some (array 4 (tabulate (λ s, base (Z.to_nat (s / 256)) (s mod 256)) slots)).
Proof.
  revert d g. induction turns as [|turns IH]; intros d g Hd Hturns Hg; cbn [place_digits].
  { f_equal. apply (f_equal (array 4)), tabulate_ext. intros s Hs. rewrite Hg by done.
    rewrite decide_True; [done|]. pose proof (Z.mod_pos_bound s 256). lia. }
  rewrite Nat2Z.id. change 0 with (Z.of_nat 0) at 1.
  rewrite (place_digit_spec chunks 0 d g); [|lia|lia|].
  - cbn [mbind option_bind]. rewrite base_chunks. apply IH; [lia|lia|].
    intros s Hs. unfold with_places. rewrite Hg by done. pose proof (Z.mod_pos_bound s 256).
    assert (0 ≤ s / 256) by (apply Z.div_pos; lia).
    repeat case_decide; try done; try lia. by replace d with (s mod 256) by lia.
  - intros r' Hr'. pose proof (counter_slot (Z.of_nat r') d ltac:(lia)) as [H1 H2].
    rewrite Hg.
    + rewrite H2, decide_False by lia. unfold counted. by rewrite H1, H2, Nat2Z.id.
    + unfold slots. change kRadix with 256. nia.
Qed.

Lemma place_ranges_spec :
  place_ranges (Z.of_nat chunks) (array 4 (tabulate counted slots))
  = Some (array 4 (tabulate (λ s, base (Z.to_nat (s / 256)) (s mod 256)) slots)).
Proof.
  unfold place_ranges. change (Z.to_nat kRadix) with 256%nat.
  assert (E0 : 0 = base 0 0).
  { unfold base. cbn [Nat.mul]. rewrite take_0. change (count 0 []) with 0.
    assert (below dig 0 es = 0) as ->; [|done]. unfold below.
    assert (filter (λ e, digit_of (key e) sh < 0) es = []) as ->; [|done].
    apply elem_of_nil_inv. intros e [He _]%list_elem_of_filter.
    pose proof (digit_of_range (key e) sh). lia. }
  rewrite E0 at 2. apply place_digits_spec; [done|done|].
  intros s _. rewrite decide_False; [done|]. pose proof (Z.mod_pos_bound s 256). lia.
Qed.

(** *** The moves *)

Definition moves (p : nat) : list Write :=
  match es !! p with
  | Some e => [WriteKey (rank dig es p) (key e); WriteIndex (rank dig es p) (index e)]
  | None => []
  end.

Lemma move_keys_spec turns p (f : Z → Z) :
  (p + turns ≤ length es)%nat →
  (∀ d, 0 ≤ d < 256 → f d = below dig d es + count d (take p es)) →
  move_keys the_pass turns (Z.of_nat p) (tabulate f 256) = Some (seq p turns ≫= moves).
Proof.
  revert p f. induction turns as [|turns IH]; intros p f Hp Hf; cbn [move_keys]; [done|].
  destruct (lookup_lt_is_Some_2 es p ltac:(lia)) as [e He].
  rewrite (load_key p e He). cbn [mbind option_bind]. rewrite (load_index p e He).
  cbn [mbind option_bind shift the_pass]. pose proof (digit_of_range (key e) sh) as Hd.
  rewrite load_tabulate by lia. cbn [mbind option_bind]. rewrite store_tabulate by lia.
  cbn [mbind option_bind]. replace (Z.of_nat p + 1) with (Z.of_nat (S p)) by lia.
  pose proof (rank_bound dig es p ltac:(lia)) as Hr.
  assert (Hplace : f (digit_of (key e) sh) = rank dig es p) by (unfold rank; rewrite He; by apply Hf).
  rewrite IH; [|lia|].
  - cbn [mbind option_bind seq list_bind]. unfold moves at 2. rewrite He, Hplace. done.
  - intros d Hd'. rewrite (cnt_take_succ _ _ _ _ _ He). case_decide as Ec.
    + rewrite decide_True by done. rewrite u32_small by (unfold in_u32; lia). subst d.
      rewrite Hf by done. lia.
    + rewrite decide_False by congruence. rewrite Hf by done. lia.
Qed.

Lemma move_range_spec r :
  0 ≤ r < Z.of_nat chunks →
  move_range the_pass (array 4 (tabulate (λ s, base (Z.to_nat (s / 256)) (s mod 256)) slots)) r
  = Some (seq (Z.to_nat r * span) span ≫= moves).
Proof.
  intros Hr. unfold move_range. change (Z.to_nat kRadix) with 256%nat.
  rewrite (mapM_tabulate _ (base (Z.to_nat r)) 256).
  - cbn [mbind option_bind range_keys the_pass]. rewrite Nat2Z.id.
    replace (r * Z.of_nat span) with (Z.of_nat (Z.to_nat r * span)) by lia.
    apply move_keys_spec; [|done]. apply range_fits. lia.
  - intros d Hd. replace r with (Z.of_nat (Z.to_nat r)) at 1 by lia.
    pose proof (counter_slot (Z.of_nat (Z.to_nat r)) d ltac:(lia)) as [H1 H2].
    rewrite load_counter; [|lia|lia|].
    + by rewrite H1, H2, Nat2Z.id.
    + rewrite H1, H2, Nat2Z.id. pose proof (base_bound (Z.to_nat r) d). unfold in_word. lia.
Qed.

Lemma elem_of_moves p turns w :
  w ∈ seq p turns ≫= moves ↔ ∃ q e, (p ≤ q < p + turns)%nat ∧ es !! q = Some e
    ∧ (w = WriteKey (rank dig es q) (key e) ∨ w = WriteIndex (rank dig es q) (index e)).
Proof.
  rewrite list_elem_of_bind. split.
  - intros (q & Hw & Hq%elem_of_seq). unfold moves in Hw. destruct (es !! q) as [e|] eqn:He.
    + exists q, e. split_and!; [lia|lia|done|]. set_solver.
    + by apply not_elem_of_nil in Hw.
  - intros (q & e & Hq & He & Hw). exists q. split; [|apply elem_of_seq; lia].
    unfold moves. rewrite He. set_solver.
Qed.

(** No two moves go to the same place. *)
Lemma NoDup_moves p turns :
  (p + turns ≤ length es)%nat → NoDup (addr_of <$> (seq p turns ≫= moves)).
Proof.
  revert p. induction turns as [|turns IH]; intros p Hp; [constructor|].
  cbn [seq mbind list_bind]. rewrite fmap_app. apply NoDup_app.
  destruct (lookup_lt_is_Some_2 es p ltac:(lia)) as [e He]. unfold moves at 1 2. rewrite He.
  split_and!.
  - cbn. apply NoDup_cons. split; [set_solver|]. apply NoDup_singleton.
  - intros a Ha [w [-> Hw]]%list_elem_of_fmap.
    apply elem_of_moves in Hw as (q & e' & Hq & He' & Hw).
    assert (rank dig es p ≠ rank dig es q).
    { intros E. apply rank_inj in E; [lia|lia|]. by apply lookup_lt_Some in He'. }
    cbn in Ha. destruct Hw as [-> | ->]; set_solver.
  - apply IH. lia.
Qed.

Lemma concat_ranges :
  concat (tabulate (λ r, seq (Z.to_nat r * span) span ≫= moves) chunks)
  = seq 0 (length es) ≫= moves.
Proof.
  rewrite es_length. clear. induction chunks as [|c IH]; [done|].
  rewrite tabulate_S, concat_app, IH. cbn [concat]. rewrite app_nil_r, Nat2Z.id.
  rewrite <- bind_app. f_equal. by rewrite Nat.mul_succ_l, seq_app.
Qed.

Lemma concat_counts :
  concat (tabulate count_writes chunks) = tabulate (λ s, WriteCounter s (counted s)) slots.
Proof.
  unfold slots. clear. induction chunks as [|c IH]; [done|].
  rewrite tabulate_S, concat_app, IH. cbn [concat]. rewrite app_nil_r.
  apply list_eq. intros i. destruct (decide (i < c * 256)%nat).
  - rewrite lookup_app_l, !lookup_tabulate by (rewrite ?length_tabulate; lia). done.
  - rewrite lookup_app_r, length_tabulate by (rewrite length_tabulate; lia).
    unfold count_writes. destruct (decide (i < S c * 256)%nat).
    + rewrite !lookup_tabulate by lia. f_equal.
      pose proof (counter_slot (Z.of_nat c) (Z.of_nat (i - c * 256)) ltac:(lia)) as [H1 H2].
      change kRadix with 256 in *. unfold counted.
      replace (Z.of_nat i) with (Z.of_nat c * 256 + Z.of_nat (i - c * 256)) by lia.
      by rewrite H1, H2.
    + by rewrite !lookup_ge_None_2 by (rewrite length_tabulate; lia).
Qed.

Lemma length_moves p turns :
  (p + turns ≤ length es)%nat → length (seq p turns ≫= moves) = (2 * turns)%nat.
Proof.
  revert p. induction turns as [|turns IH]; intros p Hp; [done|].
  cbn [seq mbind list_bind]. rewrite length_app, IH by lia. unfold moves.
  destruct (lookup_lt_is_Some_2 es p ltac:(lia)) as [e ->]. cbn. lia.
Qed.

Lemma look_some t a :
  match a with
  | InKeys p => 0 ≤ p < size_of (keys_of t)
  | InIndices p => 0 ≤ p < size_of (indices_of t)
  | InCounters s => 0 ≤ s < size_of (counts_of t)
  end → is_Some (look t a).
Proof. destruct a; cbn; intros H; by apply load_some in H as [? ->]. Qed.

(** The counting run fills the counters and touches nothing else. *)
Lemma counting_held schedule t :
  length (counts_of t) = slots → complete chunks 256 schedule →
  run_tasks (tabulate count_writes chunks) schedule (held t)
  = Some (held {| keys_of := keys_of t; indices_of := indices_of t;
                  counts_of := tabulate counted slots |}).
Proof.
  intros Hc Hs.
  destruct (run_tasks_held (tabulate count_writes chunks) schedule t) as (t' & -> & Hst).
  - apply (complete_runs_all _ _ 256); [|done]. intros i _. apply length_tabulate.
  - rewrite concat_counts. unfold tabulate. rewrite <- list_fmap_compose.
    apply NoDup_fmap_2; [|apply NoDup_seq]. intros i j [= E]. lia.
  - rewrite concat_counts. intros w [i [-> Hi%elem_of_seq]]%list_elem_of_fmap.
    apply look_some. cbn. unfold size_of. lia.
  - rewrite concat_counts in Hst. destruct Hst as ((Hk & Hi & Hcc) & Hw & Hother).
    assert (Hnot : ∀ a, a ∈ addr_of <$> tabulate (λ s, WriteCounter s (counted s)) slots →
              ∃ s, a = InCounters s).
    { intros a [w [-> Hin]]%list_elem_of_fmap. unfold tabulate in Hin.
      apply list_elem_of_fmap in Hin as [i [-> _]]. by eexists. }
    do 2 f_equal. destruct t' as [k' i' c']. cbn in *. f_equal.
    + apply load_list_eq; [done|]. intros p _. apply (Hother (InKeys p)).
      intros [s E]%Hnot. done.
    + apply load_list_eq; [done|]. intros p _. apply (Hother (InIndices p)).
      intros [s E]%Hnot. done.
    + apply load_list_eq; [by rewrite length_tabulate, Hcc|]. intros s Hs'.
      rewrite size_of_tabulate in Hs'. rewrite load_tabulate by done.
      apply (Hw (WriteCounter s (counted s))). unfold tabulate. apply list_elem_of_fmap.
      exists (Z.to_nat s). rewrite elem_of_seq, Z2Nat.id by lia. split; [done|lia].
Qed.

Notation sorted := (bucket_sort dig 256 es).

Lemma digits_bounded : Forall (λ e, 0 ≤ dig e < Z.of_nat 256) es.
Proof. apply Forall_forall. intros e _. apply digit_of_range. Qed.

Lemma length_sorted : length sorted = length es.
Proof. by rewrite (bucket_sort_Permutation dig 256 es digits_bounded). Qed.

(** The moving run leaves the entries sorted by the digit. *)
Lemma moving_held schedule t :
  length (keys_of t) = length es → length (indices_of t) = length es →
  complete chunks (2 * span) schedule →
  ∃ c, length c = length (counts_of t) ∧
    run_tasks (tabulate (λ r, seq (Z.to_nat r * span) span ≫= moves) chunks) schedule (held t)
    = Some (held {| keys_of := key <$> sorted; indices_of := index <$> sorted; counts_of := c |}).
Proof.
  intros Hk Hi Hs.
  destruct (run_tasks_held (tabulate (λ r, seq (Z.to_nat r * span) span ≫= moves) chunks) schedule t)
    as (t' & -> & Hst).
  - apply (complete_runs_all _ _ (2 * span)); [|done]. intros r Hr. apply length_moves.
    apply range_fits. lia.
  - rewrite concat_ranges. by apply NoDup_moves.
  - rewrite concat_ranges. intros w (q & e & _ & He & Hw)%elem_of_moves. apply look_some.
    apply lookup_lt_Some in He. pose proof (rank_bound dig es q He).
    destruct Hw as [-> | ->]; cbn; unfold size_of in *; lia.
  - rewrite concat_ranges in Hst. destruct Hst as ((Hlk & Hli & Hlc) & Hw & _).
    exists (counts_of t'). split; [done|]. do 2 f_equal.
    assert (Hat : ∀ j, 0 ≤ j < size_of es → ∃ e, sorted !! Z.to_nat j = Some e
              ∧ load (keys_of t') j = Some (key e) ∧ load (indices_of t') j = Some (index e)).
    { intros j (q & Hq & <-)%(rank_surj dig). destruct (lookup_lt_is_Some_2 es q Hq) as [e He].
      exists e. split_and!.
      - apply lookup_bucket_sort; [apply digits_bounded|done].
      - apply (Hw (WriteKey _ _)), elem_of_moves. exists q, e. split_and!; [lia|lia|done|by left].
      - apply (Hw (WriteIndex _ _)), elem_of_moves. exists q, e. split_and!; [lia|lia|done|by right]. }
    pose proof length_sorted as Hl. destruct t' as [k' i' c']. cbn in *. f_equal.
    + apply load_list_eq; [by rewrite length_fmap, Hl, Hlk|]. intros j Hj.
      unfold size_of in Hj. rewrite length_fmap, Hl in Hj.
      destruct (Hat j Hj) as (e & He & -> & _). rewrite load_lookup, list_lookup_fmap, He by lia. done.
    + apply load_list_eq; [by rewrite length_fmap, Hl, Hli|]. intros j Hj.
      unfold size_of in Hj. rewrite length_fmap, Hl in Hj.
      destruct (Hat j Hj) as (e & He & _ & ->). rewrite load_lookup, list_lookup_fmap, He by lia. done.
Qed.

Lemma run_pass_held schedules t :
  length (keys_of t) = length es → length (indices_of t) = length es →
  length (counts_of t) = slots →
  complete chunks 256 schedules.1 → complete chunks (2 * span) schedules.2 →
  ∃ c, length c = slots ∧
    run_pass (Z.of_nat chunks) the_pass schedules (held t)
    = Some (held {| keys_of := key <$> sorted; indices_of := index <$> sorted; counts_of := c |}).
Proof.
  intros Hk Hi Hc H1 H2. unfold run_pass. rewrite Nat2Z.id.
  rewrite (mapM_tabulate _ count_writes) by apply count_range_spec. cbn [mbind option_bind].
  rewrite counting_held by done. cbn [mbind option_bind held counters counts_of].
  rewrite place_ranges_spec. cbn [mbind option_bind dst_keys dst_indices counters].
  rewrite (mapM_tabulate _ (λ r, seq (Z.to_nat r * span) span ≫= moves)) by apply move_range_spec.
  cbn [mbind option_bind].
  destruct (moving_held schedules.2 {| keys_of := keys_of t; indices_of := indices_of t;
    counts_of := tabulate (λ s, base (Z.to_nat (s / 256)) (s mod 256)) slots |})
    as (c & Hlen & E); [done|done|done|].
  exists c. split; [by rewrite Hlen; cbn; rewrite length_tabulate|]. exact E.
Qed.

End OnePass.
