(* ===== verification/SortCompute.v ===== *)
(** * workloads/sort: the eight passes

    A stable sort by the next digit turns entries in the order of their keys' low
    bytes into entries in the order of one byte more; eight passes, from the input's
    positions, give the order of [precedes]. [compute] under any schedules writes the
    one right output (workloads/sort/spec.hpp). *)

From S2P Require Export RadixSort.

(** ** The order after [k] passes *)

Definition low (k : nat) (e : Entry) : Z := key e mod 2 ^ (8 * Z.of_nat k).

Definition before (k : nat) (a b : Entry) : Prop :=
  low k a < low k b ∨ (low k a = low k b ∧ index a < index b).

Abbreviation digit k := (λ e, digit_of (key e) (Z.of_nat k * kDigitBits)).

Lemma low_succ k e : low (S k) e = low k e + 2 ^ (8 * Z.of_nat k) * digit k e.
Proof.
  unfold low. cbv beta. rewrite digit_of_value by (unfold kDigitBits; lia).
  change kDigitBits with 8. rewrite (Z.mul_comm (Z.of_nat k) 8), pow2_8_S, Z.mul_comm.
  apply Z.rem_mul_r; lia.
Qed.

Lemma low_range k e : 0 ≤ low k e < 2 ^ (8 * Z.of_nat k).
Proof. unfold low. apply Z.mod_pos_bound. lia. Qed.

Lemma before_same_digit k a b : digit k a = digit k b → before k a b → before (S k) a b.
Proof. unfold before. rewrite !low_succ. intros ->. lia. Qed.

Lemma before_digit k a b : digit k a < digit k b → before (S k) a b.
Proof.
  cbv beta. intros Hd. left. rewrite !low_succ. pose proof (low_range k a).
  pose proof (low_range k b). nia.
Qed.

(** One more digit. *)
Lemma bucket_sort_before k es :
  StronglySorted (before k) es → StronglySorted (before (S k)) (bucket_sort (digit k) 256 es).
Proof.
  intros Hs. apply StronglySorted_buckets; [|apply before_digit].
  intros d. induction Hs as [|e es Hs IH Hall]; [constructor|]. rewrite filter_cons.
  case_decide as Ed; [|done]. constructor; [done|]. apply Forall_forall.
  intros x [Hx Hin]%list_elem_of_filter. apply before_same_digit; [congruence|].
  rewrite Forall_forall in Hall. by apply Hall.
Qed.

(** The input's entries: each key and where it is. *)
Definition input_entries (ks : list Z) : list Entry :=
  imap (λ i k, {| key := k; index := Z.of_nat i |}) ks.

Lemma input_entries_snoc ks k :
  input_entries (ks ++ [k]) = input_entries ks ++ [{| key := k; index := size_of ks |}].
Proof. unfold input_entries. rewrite imap_app. cbn. by rewrite Nat.add_0_r. Qed.

Lemma keys_input_entries ks : key <$> input_entries ks = ks.
Proof.
  induction ks as [|k ks IH] using rev_ind; [done|].
  by rewrite input_entries_snoc, fmap_app, IH.
Qed.

Lemma length_input_entries ks : length (input_entries ks) = length ks.
Proof. unfold input_entries. apply length_imap. Qed.

Lemma indices_input_entries ks : index <$> input_entries ks = tabulate id (length ks).
Proof.
  induction ks as [|k ks IH] using rev_ind; [done|].
  rewrite input_entries_snoc, fmap_app, IH, length_app. cbn [length].
  by rewrite Nat.add_1_r, tabulate_S.
Qed.

Lemma index_input_entries ks e : e ∈ input_entries ks → 0 ≤ index e < size_of ks.
Proof.
  unfold input_entries. intros (i & k & -> & Hi)%elem_of_lookup_imap.
  apply lookup_lt_Some in Hi. cbn. unfold size_of. lia.
Qed.

Lemma input_entries_before ks : StronglySorted (before 0) (input_entries ks).
Proof.
  induction ks as [|k ks IH] using rev_ind; [constructor|]. rewrite input_entries_snoc.
  apply StronglySorted_app_2; [|done|repeat constructor].
  intros x y Hx%index_input_entries ->%list_elem_of_singleton. right.
  unfold low. rewrite !Z.mod_1_r. cbn. lia.
Qed.

(** ** The right output *)

Definition entry_lt (a b : Entry) : Prop := precedes a b = true.

(** The entries are the input's, in the strict order of [precedes]. *)
Definition sorted_entries (ks : list Z) (es : list Entry) : Prop :=
  es ≡ₚ input_entries ks ∧ StronglySorted entry_lt es.

Definition output_of (es : list Entry) : list byte :=
  array 8 (key <$> es) ++ array 4 (index <$> es).

Definition right_output (input output : list byte) : Prop :=
  ∃ ks es, input = array 8 ks ∧ Forall (in_word 8) ks ∧ sorted_entries ks es
    ∧ output = output_of es.

Lemma precedes_spec a b :
  precedes a b = true ↔ key a < key b ∨ (key a = key b ∧ index a < index b).
Proof.
  unfold precedes. rewrite orb_true_iff, andb_true_iff, !Z.ltb_lt, Z.eqb_eq. done.
Qed.

Lemma before_all es :
  Forall (λ e, in_word 8 (key e)) es → StronglySorted (before 8) es → StronglySorted entry_lt es.
Proof.
  intros Hw Hs. induction Hs as [|e es Hs IH Hall]; [constructor|].
  apply Forall_cons in Hw as [He Hw]. constructor; [by apply IH|].
  rewrite Forall_forall in *. intros x Hx. specialize (Hall x Hx). specialize (Hw x Hx).
  unfold entry_lt. apply precedes_spec. unfold before, low in Hall.
  rewrite !Z.mod_small in Hall by done. done.
Qed.

(** The right output is one: two sorted permutations are the same. *)
Lemma sorted_entries_unique ks es es' :
  sorted_entries ks es → sorted_entries ks es' → es = es'.
Proof.
  intros [Hp Hs] [Hp' Hs']. apply (StronglySorted_unique_strong entry_lt); [|done|done|by rewrite Hp].
  intros a b _ _ H1%precedes_spec H2%precedes_spec. lia.
Qed.

(** ** The passes of a unit *)

Definition key_count : nat := Z.to_nat kKeys.

Lemma key_count_kKeys : Z.of_nat key_count = kKeys.
Proof. apply Z2Nat.id. done. Qed.

(** The chunk counts of the specification split the keys evenly. *)
Lemma chunks_split chunks :
  is_chunk_count chunks = true →
  0 < chunks ∧ key_count = (Z.to_nat chunks * Z.to_nat (kKeys / chunks))%nat
  ∧ 0 ≤ kKeys / chunks.
Proof.
  unfold is_chunk_count, kChunkCounts. rewrite bool_decide_eq_true. intros Hc.
  assert (H : 0 < chunks ∧ kKeys = chunks * (kKeys / chunks)).
  { repeat (apply elem_of_cons in Hc as [->|Hc]; [by vm_compute|]).
    by apply not_elem_of_nil in Hc. }
  destruct H as [H0 E]. assert (0 ≤ kKeys / chunks) by (apply Z.div_pos; [done|lia]).
  split_and!; [done| |done]. apply Nat2Z.inj. rewrite key_count_kKeys, Nat2Z.inj_mul. lia.
Qed.

Section Unit.
Context (chunks : Z) (input : list byte).
Hypothesis chunks_ok : is_chunk_count chunks = true.

Abbreviation tasks := (Z.to_nat chunks).
Abbreviation span := (Z.to_nat (kKeys / chunks)).

(** A unit's spans hold as many words as they should. *)
Definition unit_ok (u : Unit) : Prop :=
  ∃ ok oi sk si c, u = {| out_keys := array 8 ok; out_indices := array 4 oi;
                          side_keys := array 8 sk; side_indices := array 4 si;
                          unit_counters := array 4 c |}
    ∧ length ok = key_count ∧ length oi = key_count ∧ length sk = key_count
    ∧ length si = key_count ∧ length c = slots tasks.

(** The entries pass [number] reads. *)
Definition source_holds (number : nat) (u : Unit) (es : list Entry) : Prop :=
  if (number =? 0)%nat
  then input = array 8 (key <$> es) ∧ index <$> es = tabulate id (length es)
  else if Nat.odd number
  then side_keys u = array 8 (key <$> es) ∧ side_indices u = array 4 (index <$> es)
  else out_keys u = array 8 (key <$> es) ∧ out_indices u = array 4 (index <$> es).

Definition entries_ok (es : list Entry) : Prop :=
  length es = key_count ∧ Forall (λ e, in_word 8 (key e) ∧ in_word 4 (index e)) es.

Definition schedules_ok (s : list nat * list nat) : Prop :=
  complete tasks 256 s.1 ∧ complete tasks (2 * span) s.2.

Lemma sorted_entries_ok k es : entries_ok es → entries_ok (bucket_sort (digit k) 256 es).
Proof.
  intros [Hl Hw]. pose proof (bucket_sort_Permutation (digit k) 256 es
    (digits_bounded es (Z.of_nat k * kDigitBits))) as Hp.
  split; [by rewrite Hp|]. by rewrite Hp.
Qed.

Lemma compute_pass_spec number schedules u es :
  unit_ok u → source_holds number u es → entries_ok es → schedules_ok schedules →
  ∃ u', compute_pass chunks input number schedules u = Some u' ∧ unit_ok u'
    ∧ source_holds (S number) u' (bucket_sort (digit number) 256 es).
Proof.
  intros (ok & oi & sk & si & c & -> & Hok & Hoi & Hsk & Hsi & Hc) Hsrc [Hl Hw] [H1 H2].
  destruct (chunks_split chunks chunks_ok) as (Hpos & Hsplit & Hspan).
  pose proof (length_sorted es (Z.of_nat number * kDigitBits)) as Hsorted.
  assert (Hfit : size_of es < 2 ^ 32).
  { unfold size_of. rewrite Hl, key_count_kKeys. by vm_compute. }
  pose (first := (number =? 0)%nat).
  assert (Hfirst : first = true → index <$> es = tabulate id (length es)).
  { unfold first, source_holds in *. intros E. rewrite E in Hsrc. apply Hsrc. }
  pose proof (run_pass_held es (Z.of_nat number * kDigitBits) tasks span first
    (eq_trans Hl Hsplit) Hfit Hw Hfirst schedules) as Hrun.
  unfold compute_pass. set (pass := {| src_keys := _ |}).
  assert (Hpass : pass = the_pass es (Z.of_nat number * kDigitBits) span first).
  { unfold pass, the_pass, first. rewrite Z2Nat.id by done. unfold source_holds in Hsrc.
    cbn [out_keys out_indices side_keys side_indices] in *.
    destruct (number =? 0)%nat; [by destruct Hsrc as [-> _]|].
    destruct (Nat.odd number); by destruct Hsrc as [-> ->]. }
  rewrite Hpass. clear pass Hpass. rewrite Z2Nat.id in Hrun by lia.
  unfold source_holds. rewrite (proj2 (Nat.eqb_neq (S number) 0)), Nat.odd_succ by done.
  rewrite <- Nat.negb_odd.
  destruct (Nat.odd number) eqn:Hodd; cbn [negb out_keys out_indices side_keys side_indices unit_counters].
  - destruct (Hrun {| keys_of := ok; indices_of := oi; counts_of := c |})
      as (c' & Hc' & E); [cbn; congruence..|done|done|].
    unfold held in E. cbn [keys_of indices_of counts_of] in E. rewrite E.
    cbn [mbind option_bind]. eexists. split; [done|]. split; [|done].
    eexists _, _, sk, si, c'. split_and!; try done; by rewrite length_fmap, Hsorted.
  - destruct (Hrun {| keys_of := sk; indices_of := si; counts_of := c |})
      as (c' & Hc' & E); [cbn; congruence..|done|done|].
    unfold held in E. cbn [keys_of indices_of counts_of] in E. rewrite E.
    cbn [mbind option_bind]. eexists. split; [done|]. split; [|done].
    eexists ok, oi, _, _, c'. split_and!; try done; by rewrite length_fmap, Hsorted.
Qed.

(** The passes from [number] on, as sorts of the entries. *)
Fixpoint sort_from (number turns : nat) (es : list Entry) : list Entry :=
  match turns with
  | O => es
  | S turns => sort_from (S number) turns (bucket_sort (digit number) 256 es)
  end.

Lemma compute_passes_spec schedules number u es :
  unit_ok u → source_holds number u es → entries_ok es → Forall schedules_ok schedules →
  ∃ u', compute_passes chunks input number schedules u = Some u' ∧ unit_ok u'
    ∧ source_holds (number + length schedules) u' (sort_from number (length schedules) es).
Proof.
  revert number u es. induction schedules as [|s schedules IH]; intros number u es Hu Hsrc Hes Hs.
  - exists u. rewrite Nat.add_0_r. done.
  - apply Forall_cons in Hs as [Hs Hrest]. cbn [compute_passes length sort_from].
    destruct (compute_pass_spec number s u es) as (u1 & -> & Hu1 & Hsrc1); [done..|].
    cbn [mbind option_bind]. rewrite Nat.add_succ_r, <- Nat.add_succ_l.
    apply IH; [done|done|by apply sorted_entries_ok|done].
Qed.

Lemma sort_from_sorted turns number es :
  StronglySorted (before number) es →
  StronglySorted (before (number + turns)) (sort_from number turns es)
  ∧ sort_from number turns es ≡ₚ es.
Proof.
  revert number es. induction turns as [|turns IH]; intros number es Hs; cbn [sort_from].
  - by rewrite Nat.add_0_r.
  - destruct (IH (S number) _ (bucket_sort_before number es Hs)) as [Hsort Hp].
    rewrite Nat.add_succ_r, <- Nat.add_succ_l. split; [done|]. rewrite Hp.
    apply bucket_sort_Permutation, digits_bounded.
Qed.

End Unit.

(** ** A unit *)

Definition scratch_bytes (chunks : Z) : Z := kSideBytes + counters_bytes chunks.

Lemma size_words w m bytes :
  size_of bytes = Z.of_nat m * Z.of_nat w →
  ∃ vs, length vs = m ∧ Forall (in_word w) vs ∧ bytes = array w vs.
Proof. intros H. apply bytes_array. unfold size_of in H. lia. Qed.

(** The spans [compute] cuts hold the words of a unit. *)
Lemma compute_spans chunks input output scratch schedules :
  is_chunk_count chunks = true →
  size_of output = kOutputBytes → size_of scratch = scratch_bytes chunks →
  ∃ u, unit_ok chunks u ∧
    compute chunks schedules input output scratch
    = (u' ← compute_passes chunks input 0 schedules u; Some (out_keys u' ++ out_indices u')).
Proof.
  intros Hchunks Ho Hs. unfold compute, scratch_bytes in *.
  destruct (chunks_split chunks Hchunks) as (Hpos & _ & _).
  assert (Hconst : kSideKeysBytes = 1048576 ∧ kSideIndicesBytes = 524288 ∧ kSideBytes = 1572864
    ∧ kIndexRegionOffset = 1048576 ∧ kOutputBytes = 1572864 ∧ kKeys = 131072
    ∧ counters_bytes chunks = chunks * 1024).
  { unfold counters_bytes. split_and!; try done. change kRadix with 256.
    change kCounterBytes with 4. lia. }
  destruct Hconst as (Ek & Ei & Es & Er & Eo & En & Ec).
  rewrite !subspan_take_drop by lia. rewrite subspan_from_drop by lia.
  cbn [mbind option_bind]. pose proof key_count_kKeys as Hn.
  destruct (size_words 8 key_count (take (Z.to_nat kSideKeysBytes) (drop (Z.to_nat 0) scratch)))
    as (sk & Hsk & _ & ->); [rewrite size_of_take; rewrite ?size_of_drop; lia|].
  destruct (size_words 4 key_count
    (take (Z.to_nat kSideIndicesBytes) (drop (Z.to_nat kSideKeysBytes) scratch)))
    as (si & Hsi & _ & ->); [rewrite size_of_take; rewrite ?size_of_drop; lia|].
  destruct (size_words 4 (slots (Z.to_nat chunks))
    (take (Z.to_nat (counters_bytes chunks)) (drop (Z.to_nat kSideBytes) scratch)))
    as (c & Hc & _ & ->); [unfold slots; rewrite size_of_take; rewrite ?size_of_drop; lia|].
  destruct (size_words 8 key_count (take (Z.to_nat kIndexRegionOffset) (drop (Z.to_nat 0) output)))
    as (ok & Hok & _ & ->); [rewrite size_of_take; rewrite ?size_of_drop; lia|].
  destruct (size_words 4 key_count (drop (Z.to_nat kIndexRegionOffset) output))
    as (oi & Hoi & _ & ->); [rewrite size_of_drop; lia|].
  eexists. split; [|reflexivity]. exists ok, oi, sk, si, c.
  split; [reflexivity|]. split_and!; assumption.
Qed.

Lemma input_entries_ok ks :
  length ks = key_count → Forall (in_word 8) ks → entries_ok (input_entries ks).
Proof.
  intros Hl Hw. split; [by rewrite length_input_entries|]. apply Forall_forall.
  intros e He. pose proof (index_input_entries ks e He) as Hi. split.
  - assert (Hk : key e ∈ key <$> input_entries ks) by by apply list_elem_of_fmap_2.
    rewrite keys_input_entries in Hk. rewrite Forall_forall in Hw. by apply Hw.
  - unfold in_word. unfold size_of in Hi. rewrite Hl, key_count_kKeys in Hi.
    change kKeys with 131072 in Hi. lia.
Qed.

(** After the last pass the output holds the entries. *)
Lemma source_output input u es :
  source_holds input kPasses u es →
  out_keys u = array 8 (key <$> es) ∧ out_indices u = array 4 (index <$> es).
Proof. exact id. Qed.

Lemma size_output_of ks es :
  length ks = key_count → sorted_entries ks es → size_of (output_of es) = kOutputBytes.
Proof.
  intros Hks [Hp _]. unfold output_of. rewrite size_of_app, !size_array. unfold size_of.
  rewrite !length_fmap, Hp, length_input_entries, Hks, key_count_kKeys. reflexivity.
Qed.

(** The output of a unit, and that there is no other. *)
Lemma compute_right (chunks : Z) (schedules : list (list nat * list nat))
    (input output scratch : list byte) :
  is_chunk_count chunks = true → length schedules = kPasses →
  Forall (schedules_ok chunks) schedules →
  size_of input = kInputBytes → size_of output = kOutputBytes →
  size_of scratch = scratch_bytes chunks →
  ∃ output', compute chunks schedules input output scratch = Some output'
    ∧ right_output input output' ∧ size_of output' = kOutputBytes.
Proof.
  intros Hchunks Hlen Hsched Hi Ho Hs.
  destruct (compute_spans chunks input output scratch schedules) as (u & Hu & ->); [done..|].
  destruct (size_words 8 key_count input) as (ks & Hks & Hw & ->).
  { rewrite Hi, key_count_kKeys. done. }
  destruct (compute_passes_spec chunks (array 8 ks) Hchunks schedules 0 u (input_entries ks))
    as (u' & -> & _ & Hsrc); [done| |by apply input_entries_ok|done|].
  { unfold source_holds. cbn [Nat.eqb]. by rewrite keys_input_entries, indices_input_entries, length_input_entries. }
  cbn [mbind option_bind]. rewrite Hlen, Nat.add_0_l in Hsrc. apply source_output in Hsrc.
  destruct (sort_from_sorted kPasses 0 _ (input_entries_before ks)) as [Hsorted Hp].
  rewrite Nat.add_0_l in Hsorted. revert Hsrc Hsorted Hp.
  generalize (sort_from 0 kPasses (input_entries ks)) as es. intros es Hsrc Hsorted Hp.
  assert (Hes : sorted_entries ks es).
  { split; [done|]. apply before_all; [|exact Hsorted].
    pose proof (input_entries_ok ks Hks Hw) as [_ Hok]. rewrite Hp.
    eapply Forall_impl; [exact Hok|]. by intros ? [? ?]. }
  destruct Hsrc as [Hk Hx]. eexists. split; [reflexivity|]. rewrite Hk, Hx.
  split; [exists ks, es; split_and!; (assumption || reflexivity)|].
  exact (size_output_of ks es Hks Hes).
Qed.

Lemma right_output_unique input o o' : right_output input o → right_output input o' → o = o'.
Proof.
  intros (ks & es & E & Hw & Hes & ->) (ks' & es' & E' & Hw' & Hes' & ->).
  assert (ks' = ks) as ->.
  { rewrite E in E'. apply (array_inj 8); [done|done| |done]. apply (f_equal size_of) in E'.
    rewrite !size_array in E'. unfold size_of in E'. lia. }
  by rewrite (sorted_entries_unique ks es es' Hes Hes').
Qed.

(** C30 The parallel radix sort computes the one right output of a sort unit: for any
    input, output and scratch bytes, any chunk count of the specification, and any
    order in which the executor's tasks make their stores, [compute] stays inside its
    spans and ends with the input's keys sorted as unsigned integers, equal keys in
    the order of the input, each beside the position it came from. *)
Theorem sort_computes (chunks : Z) (schedules : list (list nat * list nat))
    (input output scratch : list byte) :
  is_chunk_count chunks = true → length schedules = kPasses →
  Forall (schedules_ok chunks) schedules →
  size_of input = kInputBytes → size_of output = kOutputBytes →
  size_of scratch = scratch_bytes chunks →
  ∃ output', compute chunks schedules input output scratch = Some output'
    ∧ right_output input output'
    ∧ ∀ other, right_output input other → other = output'.
Proof.
  intros Hchunks Hlen Hsched Hi Ho Hs.
  destruct (compute_right chunks schedules input output scratch) as (o & E & Hr & _);
    [assumption..|].
  exists o. split_and!; [exact E|exact Hr|]. intros other Hother.
  exact (right_output_unique _ _ _ Hother Hr).
Qed.

(** One schedule there is: each task in turn. *)
Definition in_turn (tasks per : nat) : list nat :=
  concat (tabulate (λ i, replicate per (Z.to_nat i)) tasks).

Definition turns_of (chunks : Z) : list (list nat * list nat) :=
  replicate kPasses (in_turn (Z.to_nat chunks) 256,
                     in_turn (Z.to_nat chunks) (2 * Z.to_nat (kKeys / chunks))).

Lemma length_turns_of chunks : length (turns_of chunks) = kPasses.
Proof. unfold turns_of. by rewrite length_replicate. Qed.

Lemma turns_of_ok chunks : Forall (schedules_ok chunks) (turns_of chunks).
Proof. unfold turns_of. apply Forall_replicate. unfold schedules_ok, complete, in_turn. split; reflexivity. Qed.

Lemma size_replicate_Z {A} (x : A) n : 0 ≤ n → size_of (replicate (Z.to_nat n) x) = n.
Proof. intros. rewrite size_of_replicate. lia. Qed.

Lemma sort_computes_witness :
  ∃ output',
    compute 16 (turns_of 16) (replicate (Z.to_nat kInputBytes) (byte_of 3))
      (replicate (Z.to_nat kOutputBytes) (byte_of 1))
      (replicate (Z.to_nat (scratch_bytes 16)) (byte_of 2)) = Some output'
    ∧ right_output (replicate (Z.to_nat kInputBytes) (byte_of 3)) output'.
Proof.
  destruct (sort_computes 16 (turns_of 16) (replicate (Z.to_nat kInputBytes) (byte_of 3))
      (replicate (Z.to_nat kOutputBytes) (byte_of 1))
      (replicate (Z.to_nat (scratch_bytes 16)) (byte_of 2))) as (o & Ho & Hr & _).
  - reflexivity.
  - exact (length_turns_of 16).
  - exact (turns_of_ok 16).
  - by apply size_replicate_Z.
  - by apply size_replicate_Z.
  - by apply size_replicate_Z.
  - exists o. split; [exact Ho|exact Hr].
Defined.
