(* ===== verification/SortOracle.v ===== *)
(** * verification/oracle/sort: checking a sort without sorting

    [SortOracle::check] (verification/oracle/sort/sort_oracle.cpp): the indices are a
    permutation, by a bitmap of those seen; each key is the input key its index names;
    the pairs strictly increase. The oracle agrees exactly with the right output of
    SortCompute.v, so it agrees with what [compute] writes. *)

From S2P Require Export SortCompute Oracle.

(** ** sort_oracle.cpp *)

Definition kWordBits : Z := 64.
Definition kSeenWords : Z := kKeys / kWordBits.

Definition indices_mismatch (reason : text) (position : Z) : Verdict :=
  ExactMismatch (reason ++ to_dec position) None (position + 1).

(** Step 1, [turns] positions from [position]. *)
Fixpoint check_indices (turns : nat) (position : Z) (output : list byte) (seen : list Z) :
    option (option Verdict) :=
  match turns with
  | O => Some None
  | S turns =>
      index ← load_le32 output (index_offset position);
      if kKeys <=? index
      then Some (Some (indices_mismatch (lit "index out of range at position ") position)) else
      word ← load seen (index / kWordBits);
      let bit := 1 ≪ (index mod kWordBits) in
      if negb (Z.land word bit =? 0)
      then Some (Some (indices_mismatch (lit "index repeated at position ") position)) else
      seen ← store seen (index / kWordBits) (Z.lor word bit);
      check_indices turns (position + 1) output seen
  end.

(** [std::countr_zero] and [std::countl_zero] of a 64-bit word that is not zero. *)
Definition countr_zero (x : Z) : Z := Z.log2 (Z.land x (- x)).
Definition countl_zero (x : Z) : Z := 63 - Z.log2 x.

(** What step 2 keeps. *)
Record KeyScan := {
  first_position : option Z;
  scan_first : Z;
  scan_last : Z;
  scan_popcount : Z
}.

Fixpoint scan_keys (turns : nat) (position : Z) (evidence : UnitEvidence) (s : KeyScan) :
    option KeyScan :=
  match turns with
  | O => Some s
  | S turns =>
      index ← load_le32 (unit_output evidence) (index_offset position);
      found ← load_le64 (unit_output evidence) (key_offset position);
      wanted ← load_le64 (unit_input evidence) (index * 8);
      let delta := Z.lxor found wanted in
      if delta =? 0 then scan_keys turns (position + 1) evidence s else
      let first := match first_position s with
                   | Some _ => s
                   | None => {| first_position := Some position;
                                scan_first := key_offset position + countr_zero delta / 8;
                                scan_last := scan_last s; scan_popcount := scan_popcount s |}
                   end in
      scan_keys turns (position + 1) evidence
        {| first_position := first_position first; scan_first := scan_first first;
           scan_last := key_offset position + (kWordBits - 1 - countl_zero delta) / 8;
           scan_popcount := add64 (scan_popcount s) (std_popcount delta) |}
  end.

(** The window's bytes: the input key's that the index names, and the output's. *)
Fixpoint key_window (turns : nat) (pos : Z) (evidence : UnitEvidence) :
    option (list byte * list byte) :=
  match turns with
  | O => Some ([], [])
  | S turns =>
      index ← load_le32 (unit_output evidence) (index_offset (pos / kKeyBytes));
      wanted ← load (unit_input evidence) (index * 8 + pos mod 8);
      found ← load (unit_output evidence) pos;
      '(e, a) ← key_window turns (pos + 1) evidence;
      Some (wanted :: e, found :: a)
  end.

Definition check_keys (evidence : UnitEvidence) : option (option Verdict) :=
  s ← scan_keys key_count 0 evidence
        {| first_position := None; scan_first := 0; scan_last := 0; scan_popcount := 0 |};
  match first_position s with
  | None => Some None
  | Some position =>
      let window_offset := scan_first s / kWordBytes * kWordBytes in
      let window_end := Z.min kIndexRegionOffset (window_offset + kMaxWindowBytes) in
      '(e, a) ← key_window (Z.to_nat (window_end - window_offset)) window_offset evidence;
      named ← load_le32 (unit_output evidence) (index_offset position);
      Some (Some (ExactMismatch
        (lit "key differs from input key " ++ to_dec named ++ lit " at position " ++ to_dec position)
        (Some {| domain := kStored; first_offset := scan_first s; last_offset := scan_last s;
                 popcount := scan_popcount s; window_offset := window_offset;
                 expected := e; actual := a |}) kKeys))
  end.

Definition load_entry (output : list byte) (position : Z) : option Entry :=
  key ← load_le64 output (key_offset position);
  index ← load_le32 output (index_offset position);
  Some {| key := key; index := index |}.

(** Step 3, [turns] positions from [position], after the entry [before]. *)
Fixpoint check_order_from (turns : nat) (position : Z) (output : list byte) (prev : Entry) :
    option (option Verdict) :=
  match turns with
  | O => Some None
  | S turns =>
      entry ← load_entry output position;
      if negb (precedes prev entry)
      then Some (Some (ExactMismatch (lit "order broken at position " ++ to_dec position) None kKeys))
      else check_order_from turns (position + 1) output entry
  end.

Definition check_order (output : list byte) : option (option Verdict) :=
  first ← load_entry output 0;
  check_order_from (key_count - 1) 1 output first.

(** [memory] is whether the allocator has the scratch. *)
Definition check_sort (memory : bool) (evidence : UnitEvidence) : option Verdict :=
  if negb (size_of (unit_input evidence) =? kInputBytes)
     || negb (size_of (unit_output evidence) =? kOutputBytes)
  then Some (NotChecked (lit "sort unit")
               (lit "evidence is not a sort unit's input and output size") 0) else
  if negb memory
  then Some (NotChecked (lit "sort indices") (lit "no memory for the permutation check's scratch") 0)
  else
  bad ← check_indices key_count 0 (unit_output evidence) (replicate (Z.to_nat kSeenWords) 0);
  match bad with
  | Some v => Some v
  | None =>
      bad ← check_keys evidence;
      match bad with
      | Some v => Some v
      | None =>
          bad ← check_order (unit_output evidence);
          match bad with
          | Some v => Some v
          | None => Some (Agreement kKeys)
          end
      end
  end.

(** ** The bitmap *)

Lemma land_bit w b : 0 ≤ b → Z.land w (1 ≪ b) = 0 ↔ Z.testbit w b = false.
Proof.
  intros Hb. rewrite Z.shiftl_1_l. split.
  - intros E. apply (f_equal (λ z, Z.testbit z b)) in E.
    rewrite Z.land_spec, Z.pow2_bits_true, Z.bits_0, andb_true_r in E by lia. done.
  - intros E. apply Z.bits_inj'. intros i Hi. rewrite Z.land_spec, Z.bits_0.
    rewrite Z.pow2_bits_eqb by lia. destruct (Z.eqb_spec b i) as [<-|]; [by rewrite E|].
    apply andb_false_r.
Qed.

Lemma lor_bit w b i : 0 ≤ b → Z.testbit (Z.lor w (1 ≪ b)) i = Z.testbit w i || (b =? i).
Proof. intros Hb. rewrite Z.shiftl_1_l, Z.lor_spec, Z.pow2_bits_eqb by lia. done. Qed.

(** The bitmap [seen] holds the indices of [earlier]. *)
Definition seen_ok (seen : list Z) (earlier : list Z) : Prop :=
  size_of seen = kSeenWords ∧
  ∀ i, 0 ≤ i < kKeys →
    ∃ word, load seen (i / kWordBits) = Some word
      ∧ (Z.testbit word (i mod kWordBits) = true ↔ i ∈ earlier).

Lemma seen_word i : 0 ≤ i < kKeys → 0 ≤ i / kWordBits < kSeenWords ∧ 0 ≤ i mod kWordBits < 64.
Proof.
  change kKeys with 131072. change kSeenWords with 2048. change kWordBits with 64. intros. dlia.
Qed.

Lemma seen_ok_start : seen_ok (replicate (Z.to_nat kSeenWords) 0) [].
Proof.
  split; [by apply size_replicate_Z|]. intros i Hi. pose proof (seen_word i Hi) as [Hw Hb].
  exists 0. rewrite Z.bits_0. split; [|split; [done|by intros ?%elem_of_nil]].
  rewrite load_lookup by lia. apply lookup_replicate. split; [done|lia].
Qed.

(** Marking an index not seen before. *)
Lemma seen_ok_mark seen earlier i word :
  seen_ok seen earlier → 0 ≤ i < kKeys → load seen (i / kWordBits) = Some word →
  ∃ seen', store seen (i / kWordBits) (Z.lor word (1 ≪ (i mod kWordBits))) = Some seen'
    ∧ seen_ok seen' (earlier ++ [i]).
Proof.
  intros [Hs Hseen] Hi Hword. pose proof (seen_word i Hi) as [Hw Hb].
  unfold store. rewrite (proj2 (andb_true_iff _ _)) by (rewrite Z.leb_le, Z.ltb_lt; lia).
  eexists. split; [done|]. split; [unfold size_of in *; by rewrite length_insert|].
  intros j Hj. pose proof (seen_word j Hj) as [Hwj Hbj]. destruct (Hseen j Hj) as (wj & Hwj' & Hiff).
  setoid_rewrite elem_of_app. setoid_rewrite list_elem_of_singleton.
  destruct (decide (j / kWordBits = i / kWordBits)) as [Ew|Ew].
  - eexists. rewrite Ew, load_insert_eq by lia.
    split; [done|]. rewrite lor_bit by lia. rewrite Ew, Hword in Hwj'. injection Hwj' as ->.
    rewrite orb_true_iff, Hiff, Z.eqb_eq.
    assert (i mod kWordBits = j mod kWordBits ↔ j = i) as ->; [|done].
    split; [|by intros ->]. intros Em. change kWordBits with 64 in *. dlia.
  - exists wj. rewrite load_insert_ne by lia.
    split; [done|]. rewrite Hiff. split; [by left|]. intros [?| ->]; [done|by destruct Ew].
Qed.

Definition is_mismatch (v : Verdict) : Prop := ∃ c d b, v = ExactMismatch c d b.

(** A check that ends, passing exactly when [P] holds. *)
Definition checks (r : option (option Verdict)) (P : Prop) : Prop :=
  ∃ o, r = Some o ∧ (o = None ↔ P) ∧ ∀ v, o = Some v → is_mismatch v.

Lemma checks_bad c d b (P : Prop) : ¬ P → checks (Some (Some (ExactMismatch c d b))) P.
Proof. intros HP. eexists. split; [done|]. split; [done|]. intros v [= <-]. by do 3 eexists. Qed.

Lemma checks_good (P : Prop) : P → checks (Some None) P.
Proof. intros HP. by exists None. Qed.

(** ** The steps *)

Section Check.
Context (ks K I : list Z).
Hypothesis ks_length : length ks = key_count.
Hypothesis K_length : length K = key_count.
Hypothesis I_length : length I = key_count.
Hypothesis ks_fit : Forall (in_word 8) ks.
Hypothesis K_fit : Forall (in_word 8) K.
Hypothesis I_fit : Forall (in_word 4) I.

Abbreviation input := (array 8 ks).
Abbreviation output := (array 8 K ++ array 4 I).

Lemma index_region : size_of (array 8 K) = kIndexRegionOffset.
Proof.
  rewrite size_array. unfold size_of. rewrite K_length, key_count_kKeys. by vm_compute.
Qed.

Lemma load_output_index p i :
  I !! p = Some i → load_le32 output (index_offset (Z.of_nat p)) = Some i.
Proof.
  intros Hi. unfold index_offset. rewrite <- index_region, <- (app_nil_r (array 4 I)).
  apply (load_array_in 4); [done|]. by apply (Forall_lookup_1 _ _ _ _ I_fit Hi).
Qed.

Lemma load_output_key p k :
  K !! p = Some k → load_le64 output (key_offset (Z.of_nat p)) = Some k.
Proof.
  intros Hk. unfold key_offset. apply (load_array_in 8 []); [done|].
  by apply (Forall_lookup_1 _ _ _ _ K_fit Hk).
Qed.

Lemma load_input_key i k : ks !! Z.to_nat i = Some k → 0 ≤ i → load_le64 input (i * 8) = Some k.
Proof.
  intros Hk Hi. replace i with (Z.of_nat (Z.to_nat i)) at 1 by lia. apply (load_array 8); [done|].
  by apply (Forall_lookup_1 _ _ _ _ ks_fit Hk).
Qed.

Definition indices_good (l : list Z) : Prop := NoDup l ∧ Forall (λ i, i < kKeys) l.

Lemma check_indices_spec turns p seen :
  (p + turns = key_count)%nat → seen_ok seen (take p I) → indices_good (take p I) →
  checks (check_indices turns (Z.of_nat p) output seen) (indices_good I).
Proof.
  revert p seen. induction turns as [|turns IH]; intros p seen Hp Hseen Hgood; cbn [check_indices].
  { apply checks_good. rewrite take_ge in Hgood by lia. done. }
  destruct (lookup_lt_is_Some_2 I p ltac:(lia)) as [i Hi].
  rewrite (load_output_index p i Hi). cbn [mbind option_bind].
  pose proof (Forall_lookup_1 _ _ _ _ I_fit Hi) as [Hi0 _].
  destruct (Z.leb_spec kKeys i).
  { apply checks_bad. intros [_ Hall]. pose proof (Forall_lookup_1 _ _ _ _ Hall Hi) as Hlt.
    cbn in Hlt. lia. }
  destruct (proj2 Hseen i ltac:(lia)) as (word & Hword & Hbit). rewrite Hword.
  cbn [mbind option_bind]. pose proof (seen_word i ltac:(lia)) as [_ Hb].
  destruct (Z.eqb_spec (Z.land word (1 ≪ (i mod kWordBits))) 0) as [Hz|Hz]; cbn [negb].
  - apply land_bit in Hz; [|lia]. rewrite Hz in Hbit.
    destruct (seen_ok_mark seen (take p I) i word) as (seen' & -> & Hseen'); [done|lia|done|].
    cbn [mbind option_bind]. replace (Z.of_nat p + 1) with (Z.of_nat (S p)) by lia.
    apply IH; [lia|by rewrite (take_S_r I p i Hi)|]. rewrite (take_S_r I p i Hi).
    destruct Hgood as [Hnd Hall]. split.
    + apply NoDup_app. split_and!; [done| |apply NoDup_singleton].
      intros j Hj ->%list_elem_of_singleton. by apply Hbit in Hj.
    + apply Forall_app. split; [done|]. by constructor.
  - apply checks_bad. intros [Hnd _]. rewrite land_bit in Hz by lia.
    apply not_false_is_true in Hz. apply Hbit in Hz.
    rewrite <- (take_drop_middle I p i Hi), NoDup_app in Hnd. destruct Hnd as (_ & Hdis & _).
    apply (Hdis i Hz). by left.
Qed.

(** Step 2 passes exactly when every key is the input key its index names. *)
Definition keys_good : Prop :=
  ∀ p i k, I !! p = Some i → K !! p = Some k → ks !! Z.to_nat i = Some k.

Lemma index_range i p : indices_good I → I !! p = Some i → 0 ≤ i < kKeys.
Proof.
  intros [_ Hall] Hi. pose proof (Forall_lookup_1 _ _ _ _ I_fit Hi) as [H0 _].
  pose proof (Forall_lookup_1 _ _ _ _ Hall Hi) as H1. cbn in H1. lia.
Qed.

(** The position and the window of a difference are in the keys' region. *)
Definition scan_ok (s : KeyScan) : Prop :=
  match first_position s with
  | None => True
  | Some pos => 0 ≤ pos < kKeys ∧ 0 ≤ scan_first s < kIndexRegionOffset
  end.

Lemma countr_zero_range x : 0 < x < 2 ^ 64 → 0 ≤ countr_zero x / 8 < 8.
Proof.
  intros Hx. unfold countr_zero.
  assert (Hl : Z.log2 (Z.land x (- x)) ≤ Z.log2 x).
  { apply Z.log2_le_mono, Z.ldiff_le; [lia|].
    apply Z.bits_inj'. intros i Hi. rewrite Z.ldiff_spec, !Z.land_spec, Z.bits_0.
    by destruct (Z.testbit x i), (Z.testbit (- x) i). }
  assert (Z.log2 x < 64) by (apply Z.log2_lt_pow2; lia).
  pose proof (Z.log2_nonneg (Z.land x (- x))). dlia.
Qed.

Lemma in_word_lxor w a b : in_word w a → in_word w b → in_word w (Z.lxor a b).
Proof.
  unfold in_word. intros Ha Hb. assert (0 ≤ Z.lxor a b) by (apply Z.lxor_nonneg; lia).
  split; [done|]. destruct (decide (Z.lxor a b = 0)) as [->|]; [lia|].
  assert (Hbits : ∀ v, 0 ≤ v < 2 ^ (8 * Z.of_nat w) → v = 0 ∨ Z.log2 v < 8 * Z.of_nat w).
  { intros v Hv. destruct (decide (v = 0)); [by left|right]. apply Z.log2_lt_pow2; lia. }
  apply Z.log2_lt_pow2; [lia|]. eapply Z.le_lt_trans; [apply Z.log2_lxor; lia|].
  destruct (decide (w = 0%nat)) as [->|].
  { change (2 ^ (8 * Z.of_nat 0)) with 1 in *. replace a with 0 in * by lia.
    by replace b with 0 in * by lia. }
  destruct (Hbits a Ha) as [->|], (Hbits b Hb) as [->|]; rewrite ?(Z.log2_nonpos 0) by lia; lia.
Qed.

Lemma scan_keys_spec turns p s :
  (p + turns = key_count)%nat → indices_good I → scan_ok s →
  ∃ s', scan_keys turns (Z.of_nat p) {| unit_input := input; unit_output := output |} s = Some s'
    ∧ scan_ok s'
    ∧ (first_position s' = None ↔ first_position s = None ∧
         ∀ q i k, (p ≤ q)%nat → I !! q = Some i → K !! q = Some k → ks !! Z.to_nat i = Some k).
Proof.
  revert p s. induction turns as [|turns IH]; intros p s Hp Hgood Hs; cbn [scan_keys].
  { exists s. split_and!; [done|done|]. split; [|by intros [? _]]. intros E. split; [done|].
    intros q i k Hq Hi. apply lookup_lt_Some in Hi. lia. }
  destruct (lookup_lt_is_Some_2 I p ltac:(lia)) as [i Hi].
  destruct (lookup_lt_is_Some_2 K p ltac:(lia)) as [k Hk].
  pose proof (index_range i p Hgood Hi) as Hir. pose proof key_count_kKeys as Hn.
  destruct (lookup_lt_is_Some_2 ks (Z.to_nat i) ltac:(lia)) as [want Hwant].
  cbn [unit_output unit_input]. rewrite (load_output_index p i Hi). cbn [mbind option_bind].
  rewrite (load_output_key p k Hk). cbn [mbind option_bind].
  rewrite (load_input_key i want Hwant) by lia. cbn [mbind option_bind].
  replace (Z.of_nat p + 1) with (Z.of_nat (S p)) by lia.
  destruct (Z.eqb_spec (Z.lxor k want) 0) as [Ez|Ez].
  - apply Z.lxor_eq in Ez as ->. destruct (IH (S p) s ltac:(lia) Hgood Hs) as (s' & -> & Hs' & Hiff).
    exists s'. split_and!; [done|done|]. rewrite Hiff. split; intros [H0 H]; (split; [done|]).
    + intros q i' k' Hq Hi' Hk'. destruct (decide (q = p)) as [->|]; [congruence|].
      apply (H q); [lia|done|done].
    + intros q i' k' Hq. apply H. lia.
  - assert (Hdelta : in_word 8 (Z.lxor k want)).
    { apply in_word_lxor; [by apply (Forall_lookup_1 _ _ _ _ K_fit Hk)|].
      by apply (Forall_lookup_1 _ _ _ _ ks_fit Hwant). }
    unfold in_word in Hdelta. pose proof (countr_zero_range (Z.lxor k want) ltac:(lia)).
    match goal with |- context [scan_keys _ _ _ ?s1] => destruct (IH (S p) s1) as (s' & -> & Hs' & Hiff) end.
    + lia.
    + done.
    + revert Hs. unfold scan_ok. cbn [first_position scan_first].
      destruct (first_position s) eqn:E; cbn [first_position scan_first]; [rewrite E; exact id|].
      intros _. split; [lia|]. unfold key_offset, kIndexRegionOffset, kKeyBytes in *. lia.
    + exists s'. split_and!; [done|done|]. rewrite Hiff. split.
      * intros [H0 _]. exfalso. revert H0. cbn [first_position].
        destruct (first_position s) eqn:E; cbn [first_position]; [rewrite E|]; discriminate.
      * intros [H0 Hall]. pose proof (Hall p i k ltac:(lia) Hi Hk) as E. exfalso.
        rewrite Hwant in E. injection E as ->. apply Ez. apply Z.lxor_nilpotent.
Qed.

Lemma key_window_some turns pos :
  0 ≤ pos → pos + Z.of_nat turns ≤ kIndexRegionOffset → indices_good I →
  ∃ r, key_window turns pos {| unit_input := input; unit_output := output |} = Some r.
Proof.
  revert pos. induction turns as [|turns IH]; intros pos Hpos Hend Hgood; cbn [key_window]; [by eexists|].
  pose proof key_count_kKeys as Hn. unfold kIndexRegionOffset, kKeyBytes in *.
  assert (Hq : 0 ≤ pos / 8 < kKeys) by dlia.
  destruct (lookup_lt_is_Some_2 I (Z.to_nat (pos / 8)) ltac:(lia)) as [i Hi].
  pose proof (load_output_index _ _ Hi) as El. rewrite Z2Nat.id in El by lia.
  cbn [unit_output unit_input]. rewrite El. cbn [mbind option_bind].
  pose proof (index_range i _ Hgood Hi).
  destruct (load_some input (i * 8 + pos mod 8)) as [b ->].
  { rewrite size_array. unfold size_of. rewrite ks_length, Hn. dlia. }
  cbn [mbind option_bind]. destruct (load_some output pos) as [b' ->].
  { rewrite size_of_app, index_region. unfold kIndexRegionOffset, kKeyBytes.
    pose proof (size_of_nonneg (array 4 I)). lia. }
  cbn [mbind option_bind]. destruct (IH (pos + 1)) as [[e a] ->]; [lia|lia|done|]. by eexists.
Qed.

Lemma check_keys_spec :
  indices_good I → checks (check_keys {| unit_input := input; unit_output := output |}) keys_good.
Proof.
  intros Hgood. unfold check_keys.
  destruct (scan_keys_spec key_count 0 {| first_position := None; scan_first := 0; scan_last := 0;
    scan_popcount := 0 |} (Nat.add_0_l _) Hgood Logic.I) as (s & E & Hs & Hiff).
  change (Z.of_nat 0) with 0 in E. rewrite E. cbn [mbind option_bind].
  assert (Hk : first_position s = None ↔ keys_good).
  { rewrite Hiff. unfold keys_good. split.
    - intros [_ H] p i k. apply H. lia.
    - intros H. split; [done|]. intros q i k _. apply H. }
  destruct (first_position s) as [pos|] eqn:Ep; [|by apply checks_good, Hk].
  unfold scan_ok in Hs. rewrite Ep in Hs. destruct Hs as [Hpos Hfirst].
  pose proof (window_start_range (scan_first s) ltac:(lia)) as Hw. unfold window_start in Hw.
  destruct (key_window_some (Z.to_nat (Z.min kIndexRegionOffset
    (scan_first s / kWordBytes * kWordBytes + kMaxWindowBytes)
    - scan_first s / kWordBytes * kWordBytes)) (scan_first s / kWordBytes * kWordBytes))
    as [[e a] ->]; [lia|unfold kMaxWindowBytes; lia|done|]. cbn [mbind option_bind].
  pose proof key_count_kKeys as Hn.
  destruct (lookup_lt_is_Some_2 I (Z.to_nat pos) ltac:(lia)) as [i Hi].
  pose proof (load_output_index _ _ Hi) as El. rewrite Z2Nat.id in El by lia.
  cbn [unit_output]. rewrite El. cbn [mbind option_bind]. apply checks_bad.
  intros H. apply Hk in H. done.
Qed.

(** Step 3 passes exactly when the entries increase. *)
Definition out_entries : list Entry := zip_with Build_Entry K I.

Lemma length_out_entries : length out_entries = key_count.
Proof. unfold out_entries. rewrite length_zip_with, K_length, I_length. apply Nat.min_id. Qed.

Lemma out_entries_lookup p e :
  out_entries !! p = Some e ↔ K !! p = Some (key e) ∧ I !! p = Some (index e).
Proof.
  unfold out_entries. rewrite lookup_zip_with_Some. split.
  - intros (k & i & -> & Hk & Hi). split; [exact Hk|exact Hi].
  - intros [Hk Hi]. exists (key e), (index e). destruct e. split_and!; [reflexivity|exact Hk|exact Hi].
Qed.

Lemma load_output_entry p e :
  out_entries !! p = Some e → load_entry output (Z.of_nat p) = Some e.
Proof.
  intros [Hk Hi]%out_entries_lookup. unfold load_entry.
  rewrite (load_output_key p _ Hk), (load_output_index p _ Hi). by destruct e.
Qed.

Lemma check_order_from_spec turns p prev :
  (p + turns = key_count)%nat →
  checks (check_order_from turns (Z.of_nat p) output prev) (Sorted entry_lt (prev :: drop p out_entries)).
Proof.
  revert p prev. induction turns as [|turns IH]; intros p prev Hp; cbn [check_order_from].
  { apply checks_good. rewrite drop_ge by (rewrite length_out_entries; lia). by repeat constructor. }
  destruct (lookup_lt_is_Some_2 out_entries p) as [e He]; [rewrite length_out_entries; lia|].
  rewrite (load_output_entry p e He), (drop_S _ e p He). cbn [mbind option_bind].
  destruct (precedes prev e) eqn:Hlt; cbn [negb].
  - destruct (IH (S p) e ltac:(lia)) as (o & E & Hiff & Hbad). exists o.
    replace (Z.of_nat p + 1) with (Z.of_nat (S p)) by lia. split_and!; [exact E| |exact Hbad].
    rewrite Hiff. split.
    + intros Hs. constructor; [exact Hs|]. constructor. exact Hlt.
    + intros Hs. by apply Sorted_inv in Hs as [? _].
  - apply checks_bad. intros Hs. apply Sorted_inv in Hs as [_ Hhd]. apply HdRel_inv in Hhd.
    unfold entry_lt in Hhd. rewrite Hlt in Hhd. discriminate.
Qed.

Lemma check_order_spec : checks (check_order output) (Sorted entry_lt out_entries).
Proof.
  unfold check_order. pose proof key_count_kKeys as Hn. assert (Hpos : 0 < kKeys) by reflexivity.
  destruct (lookup_lt_is_Some_2 out_entries 0) as [e He]; [rewrite length_out_entries; lia|].
  change 0 with (Z.of_nat 0). rewrite (load_output_entry 0 e He). cbn [mbind option_bind].
  change 1 with (Z.of_nat 1). rewrite <- (drop_0 out_entries), (drop_S _ e 0 He).
  apply check_order_from_spec. lia.
Qed.

(** The three together are the right output. *)
Lemma entries_permute :
  indices_good I → keys_good → out_entries ≡ₚ input_entries ks.
Proof.
  intros Hgood Hkeys. apply submseteq_length_Permutation.
  - apply NoDup_submseteq.
    + apply (NoDup_fmap_1 index). destruct Hgood as [Hnd _].
      assert (E : index <$> out_entries = I); [|rewrite E; exact Hnd].
      unfold out_entries. apply fmap_zip_with_r; [by intros|lia].
    + intros e [p He]%list_elem_of_lookup. apply out_entries_lookup in He as [Hk Hi].
      pose proof (Hkeys p _ _ Hi Hk) as Hks. pose proof (index_range _ p Hgood Hi).
      apply elem_of_lookup_imap. exists (Z.to_nat (index e)), (key e).
      split; [|exact Hks]. rewrite Z2Nat.id by lia. by destruct e.
  - rewrite length_input_entries, length_out_entries, ks_length. reflexivity.
Qed.

Lemma permuted_good : out_entries ≡ₚ input_entries ks → indices_good I ∧ keys_good.
Proof.
  intros Hp. pose proof key_count_kKeys as Hn.
  assert (Hin : ∀ p e, out_entries !! p = Some e → ks !! Z.to_nat (index e) = Some (key e) ∧ index e < kKeys).
  { intros p e He. assert (Hi : e ∈ input_entries ks).
    { rewrite <- Hp. by apply (list_elem_of_lookup_2 _ p). }
    pose proof (index_input_entries ks e Hi) as Hr. unfold size_of in Hr. split; [|lia].
    apply elem_of_lookup_imap in Hi as (i & k & -> & Hi). cbn [index key]. by rewrite Nat2Z.id. }
  assert (Hpair : ∀ p i k, I !! p = Some i → K !! p = Some k → ks !! Z.to_nat i = Some k ∧ i < kKeys).
  { intros p i k Hi Hk. apply (Hin p {| key := k; index := i |}).
    apply out_entries_lookup. split; [exact Hk|exact Hi]. }
  split; [split|].
  - assert (E : index <$> out_entries = I).
    { unfold out_entries. apply fmap_zip_with_r; [by intros|lia]. }
    rewrite <- E, Hp, indices_input_entries. unfold tabulate, id. apply NoDup_fmap_2; [|apply NoDup_seq].
    intros i j. apply Nat2Z.inj.
  - apply Forall_lookup. intros p i Hi. destruct (lookup_lt_is_Some_2 K p) as [k Hk].
    { apply lookup_lt_Some in Hi. lia. }
    exact (proj2 (Hpair p i k Hi Hk)).
  - intros p i k Hi Hk. exact (proj1 (Hpair p i k Hi Hk)).
Qed.

#[local] Instance entry_lt_trans : Transitive entry_lt.
Proof. intros a b c Hab Hbc. unfold entry_lt in *. rewrite precedes_spec in *. lia. Qed.

Lemma output_of_entries es : output_of es = output → length es = key_count →
  Forall (λ e, in_word 8 (key e) ∧ in_word 4 (index e)) es → es = out_entries.
Proof.
  intros E Hl Hw. unfold output_of in E. apply app_inj_1 in E as [Ek Ei].
  2: { rewrite <- !Nat2Z.inj_iff. change (Z.of_nat (length ?x)) with (size_of x).
       rewrite !size_array. unfold size_of. rewrite length_fmap, K_length, Hl. reflexivity. }
  apply array_inj in Ek; [|apply Forall_fmap; eapply Forall_impl; [exact Hw|]; by intros ? [? _]|exact K_fit|rewrite length_fmap; lia].
  apply array_inj in Ei; [|apply Forall_fmap; eapply Forall_impl; [exact Hw|]; by intros ? [_ ?]|exact I_fit|rewrite length_fmap; lia].
  unfold out_entries. rewrite <- Ek, <- Ei. clear. induction es as [|[k i] es IH]; [reflexivity|].
  cbn [fmap list_fmap zip_with key index]. f_equal. exact IH.
Qed.

Lemma right_output_steps :
  right_output input output ↔ indices_good I ∧ keys_good ∧ Sorted entry_lt out_entries.
Proof.
  split.
  - intros (ks' & es & E & Hw & [Hp Hs] & Eo).
    assert (ks' = ks) as ->.
    { apply (array_inj 8); [exact Hw|exact ks_fit| |symmetry; exact E]. apply (f_equal size_of) in E.
      rewrite !size_array in E. unfold size_of in E. lia. }
    assert (es = out_entries) as ->.
    { pose proof (input_entries_ok ks ks_length ks_fit) as [Hl Hok].
      apply output_of_entries; [symmetry; exact Eo|by rewrite Hp|by rewrite Hp]. }
    apply StronglySorted_Sorted in Hs. pose proof (permuted_good Hp) as [? ?]. split_and!; assumption.
  - intros (Hi & Hk & Hs). exists ks, out_entries. split_and!; [reflexivity|exact ks_fit| |].
    + split; [exact (entries_permute Hi Hk)|]. apply Sorted_StronglySorted; [|exact Hs]. exact entry_lt_trans.
    + unfold output_of, out_entries. rewrite fmap_zip_with_l, fmap_zip_with_r; [reflexivity|by intros|lia|by intros|lia].
Qed.

End Check.

(** ** The verdict *)

Definition sort_sized (evidence : UnitEvidence) : Prop :=
  size_of (unit_input evidence) = kInputBytes ∧ size_of (unit_output evidence) = kOutputBytes.

(** Evidence of a unit's size is words. *)
Lemma sized_words evidence :
  sort_sized evidence → ∃ ks K I, length ks = key_count ∧ length K = key_count ∧ length I = key_count
    ∧ Forall (in_word 8) ks ∧ Forall (in_word 8) K ∧ Forall (in_word 4) I
    ∧ evidence = {| unit_input := array 8 ks; unit_output := array 8 K ++ array 4 I |}.
Proof.
  destruct evidence as [input output]. intros [Hi Ho]. cbn [unit_input unit_output] in *.
  pose proof key_count_kKeys as Hn.
  assert (Ec : kInputBytes = 1048576 ∧ kOutputBytes = 1572864 ∧ kKeys = 131072) by by split_and!.
  destruct Ec as (Ei & Eo & Ek).
  destruct (size_words 8 key_count input) as (ks & Hks & Hw & ->); [lia|].
  destruct (size_words 8 key_count (take (Z.to_nat 1048576) output)) as (K & HK & HwK & EK).
  { rewrite size_of_take; lia. }
  destruct (size_words 4 key_count (drop (Z.to_nat 1048576) output)) as (I & HI & HwI & EI).
  { rewrite size_of_drop; lia. }
  exists ks, K, I. split_and!; try assumption. rewrite <- EK, <- EI, take_drop. reflexivity.
Qed.

(** A unit's evidence, with the bitmap's memory. *)
Lemma check_sort_sized evidence :
  sort_sized evidence → ∃ v, check_sort true evidence = Some v ∧
    (v = Agreement kKeys ∧ right_output (unit_input evidence) (unit_output evidence)
     ∨ is_mismatch v ∧ ¬ right_output (unit_input evidence) (unit_output evidence)).
Proof.
  intros Hsz. unfold check_sort. pose proof Hsz as [-> ->]. rewrite !Z.eqb_refl. cbn [negb orb].
  destruct (sized_words evidence Hsz) as (ks & K & I & Hks & HK & HI & Hwk & HwK & HwI & ->).
  pose proof (right_output_steps ks K I Hks HK HI Hwk HwK HwI) as Hright.
  cbn [unit_input unit_output].
  destruct (check_indices_spec ks K I Hks HK HI HwI key_count 0
    (replicate (Z.to_nat kSeenWords) 0) (Nat.add_0_l _) seen_ok_start) as (o1 & E1 & Hiff1 & Hbad1).
  { split; [apply NoDup_nil_2|apply Forall_nil_2]. }
  change (Z.of_nat 0) with 0 in E1. rewrite E1. cbn [mbind option_bind].
  destruct o1 as [v|].
  { exists v. split; [reflexivity|]. right. split; [by apply Hbad1|].
    rewrite Hright. intros (H & _). apply Hiff1 in H. discriminate. }
  pose proof (proj1 Hiff1 eq_refl) as Hgood.
  destruct (check_keys_spec ks K I Hks HK HI Hwk HwK HwI Hgood) as (o2 & E2 & Hiff2 & Hbad2).
  rewrite E2. cbn [mbind option_bind]. destruct o2 as [v|].
  { exists v. split; [reflexivity|]. right. split; [by apply Hbad2|].
    rewrite Hright. intros (_ & H & _). apply Hiff2 in H. discriminate. }
  destruct (check_order_spec ks K I Hks HK HI HwK HwI) as (o3 & E3 & Hiff3 & Hbad3).
  rewrite E3. cbn [mbind option_bind]. destruct o3 as [v|].
  { exists v. split; [reflexivity|]. right. split; [by apply Hbad3|].
    rewrite Hright. intros (_ & _ & H). apply Hiff3 in H. discriminate. }
  exists (Agreement kKeys). split; [reflexivity|]. left. split; [reflexivity|].
  rewrite Hright. split_and!; [exact Hgood|by apply Hiff2|by apply Hiff3].
Qed.

(** C33 What the sort oracle answers, on any evidence at all: it reads only inside the
    buffers, agrees with exactly the right output of the unit's input, refuses every
    other output of a unit's size as a mismatch, and checks nothing where the sizes are
    not a unit's or there is no memory for the bitmap. *)
Theorem sort_verdict (memory : bool) (evidence : UnitEvidence) :
  ∃ v, check_sort memory evidence = Some v ∧
    ((v = Agreement kKeys ∧ memory = true ∧ sort_sized evidence
        ∧ right_output (unit_input evidence) (unit_output evidence))
     ∨ (is_mismatch v ∧ memory = true ∧ sort_sized evidence
        ∧ ¬ right_output (unit_input evidence) (unit_output evidence))
     ∨ ((∃ subject reason, v = NotChecked subject reason 0)
        ∧ (memory = false ∨ ¬ sort_sized evidence))).
Proof.
  assert (Hunchecked : (memory = false ∨ ¬ sort_sized evidence) →
    ∃ s r, check_sort memory evidence = Some (NotChecked s r 0)).
  { intros H. unfold check_sort. unfold sort_sized in H.
    destruct (Z.eqb_spec (size_of (unit_input evidence)) kInputBytes); cbn [negb orb];
      [|do 2 eexists; reflexivity].
    destruct (Z.eqb_spec (size_of (unit_output evidence)) kOutputBytes); cbn [negb];
      [|do 2 eexists; reflexivity].
    destruct memory; cbn [negb]; [|do 2 eexists; reflexivity]. exfalso.
    destruct H as [H|H]; [discriminate|]. apply H. split; assumption. }
  assert (Hdec : sort_sized evidence ∨ ¬ sort_sized evidence) by (unfold sort_sized; lia).
  destruct memory, Hdec as [Hsz|Hsz].
  - destruct (check_sort_sized evidence Hsz) as (v & E & [[-> H]|[Hv H]]);
      (eexists; split; [exact E|]); [left|right; left]; split_and!; (assumption || reflexivity).
  - destruct Hunchecked as (s & r & E); [by right|]. eexists. split; [exact E|].
    right; right. split; [by do 2 eexists|by right].
  - destruct Hunchecked as (s & r & E); [by left|]. eexists. split; [exact E|].
    right; right. split; [by do 2 eexists|by left].
  - destruct Hunchecked as (s & r & E); [by left|]. eexists. split; [exact E|].
    right; right. split; [by do 2 eexists|by left].
Qed.

(** The sort unit computed and then checked. *)
Definition compute_and_check (chunks : Z) (schedules : list (list nat * list nat))
    (input output scratch : list byte) : option Verdict :=
  output ← compute chunks schedules input output scratch;
  check_sort true {| unit_input := input; unit_output := output |}.

(** A sort unit agrees with its oracle: from any input, output and scratch bytes of a
    unit, under any chunk count of the specification and any order of the executor's
    stores, what [compute] writes is what [check] agrees with. *)
Theorem sorted_unit_agrees (chunks : Z) (schedules : list (list nat * list nat))
    (input output scratch : list byte) :
  is_chunk_count chunks = true → length schedules = kPasses →
  Forall (schedules_ok chunks) schedules →
  size_of input = kInputBytes → size_of output = kOutputBytes →
  size_of scratch = scratch_bytes chunks →
  compute_and_check chunks schedules input output scratch = Some (Agreement kKeys).
Proof.
  intros Hchunks Hlen Hsched Hi Ho Hs. unfold compute_and_check.
  destruct (compute_right chunks schedules input output scratch) as (o & E & Hr & Hsize);
    [assumption..|]. rewrite E. cbn [mbind option_bind].
  destruct (check_sort_sized {| unit_input := input; unit_output := o |})
    as (v & E' & [[-> _]|[_ Hnot]]).
  - split; assumption.
  - exact E'.
  - exfalso. exact (Hnot Hr).
Qed.

Lemma sorted_unit_agrees_witness :
  compute_and_check 16 (turns_of 16) (replicate (Z.to_nat kInputBytes) (byte_of 3))
    (replicate (Z.to_nat kOutputBytes) (byte_of 1))
    (replicate (Z.to_nat (scratch_bytes 16)) (byte_of 2)) = Some (Agreement kKeys).
Proof.
  apply (sorted_unit_agrees 16 (turns_of 16) (replicate (Z.to_nat kInputBytes) (byte_of 3))
      (replicate (Z.to_nat kOutputBytes) (byte_of 1))
      (replicate (Z.to_nat (scratch_bytes 16)) (byte_of 2))).
  - reflexivity.
  - exact (length_turns_of 16).
  - exact (turns_of_ok 16).
  - by apply size_replicate_Z.
  - by apply size_replicate_Z.
  - by apply size_replicate_Z.
Defined.
