(* ===== verification/ControlState.v ===== *)
(** * verification/integrity: the control state, kept three times

    [ControlState] (verification/integrity/control_state.cpp): the values a run
    depends on, in three copies with a CRC-32 each, voted at every read. The memory
    is a list of copies, and a fault of it is a copy that changed between two calls.
    The mappings the copies live in are Memory.v's. *)

From S2P Require Export Words Crc.

(** ** control_state.hpp *)

Definition kCopies : nat := 3.
Definition kControlWords : nat := 6.
Definition kCopyBytes : nat := kControlWords * 8 + 4.

Inductive ControlWord := kSeed | kSeedPresent | kIndex | kOraclePeriod | kIntegrityPeriod | kLineBytes.

(** [static_cast<std::size_t>(which)]. *)
Definition position_of (which : ControlWord) : nat :=
  match which with
  | kSeed => 0 | kSeedPresent => 1 | kIndex => 2 | kOraclePeriod => 3
  | kIntegrityPeriod => 4 | kLineBytes => 5
  end.

(** [ControlWords] is an array of [kControlWords] words. *)
Definition words_ok (words : list Z) : Prop := length words = kControlWords ∧ Forall (in_word 8) words.

Definition word (words : list Z) (which : ControlWord) : Z := default 0 (words !! position_of which).
Definition set_word (words : list Z) (which : ControlWord) (value : Z) : list Z :=
  <[position_of which := value]> words.

Inductive VoteFault := kDisagreement | kTooFewVerified.

Record VoteFailure := { vote_fault : VoteFault; copies_verified : list bool }.

(** ** control_state.cpp *)

Definition kWordsBytes : nat := kControlWords * 8.

(** The words little-endian, then their CRC-32. *)
Definition encode (words : list Z) : list byte := array 8 words ++ put_le 4 (crc32 (array 8 words)).

Record Decoded := { decoded_words : list Z; verified : bool }.

Definition decode (stored : list byte) : Decoded :=
  {| decoded_words := (λ i, get_le (take 8 (drop (i * 8) stored))) <$> seq 0 kControlWords;
     verified := get_le (take 4 (drop kWordsBytes stored)) =? crc32 (take kWordsBytes stored) |}.

Definition describe_vote_fault (fault : VoteFault) : text :=
  match fault with
  | kDisagreement => lit "the verified copies of the control state disagree"
  | kTooFewVerified => lit "fewer than two copies of the control state pass their checksums"
  end.

Definition describe_vote_failure (failure : VoteFailure) : text :=
  describe_vote_fault (vote_fault failure) ++ lit " ("
  ++ concat (imap (λ copy ok,
       (if (copy =? 0)%nat then lit "copy " else lit ", copy ") ++ to_dec (Z.of_nat copy)
       ++ (if (ok : bool) then lit " verified" else lit " fails its checksum"))
       (copies_verified failure))
  ++ lit ")".

Record ControlState := { copies : list (list byte); repairs : Z }.

(** [write]: each copy in turn, each encoded afresh. *)
Definition write (words : list Z) (s : ControlState) : ControlState :=
  {| copies := (λ _, encode words) <$> copies s; repairs := repairs s |}.

(** The inner loop: the candidate's words, if another verified copy holds them. *)
Definition agreement (candidate : Decoded) (others : list Decoded) : option (list Z) :=
  foldl (λ decided other,
    if verified other && bool_decide (decoded_words other = decoded_words candidate)
    then Some (decoded_words candidate) else decided) None others.

(** The loop over the candidates, the first [n] of the copies. *)
Fixpoint decide_words (n : nat) (decoded : list Decoded) : option (list Z) :=
  match n, decoded with
  | S n, candidate :: others =>
      if verified candidate
      then match agreement candidate others with
           | Some words => Some words
           | None => decide_words n others
           end
      else decide_words n others
  | _, _ => None
  end.

(** The loop that rewrites what did not hold the decided words. *)
Fixpoint repair (decided : list Z) (decoded : list Decoded) (s : list (list byte)) (repairs : Z) :
    list (list byte) * Z :=
  match decoded, s with
  | d :: decoded, copy :: s =>
      if negb (verified d) || negb (bool_decide (decoded_words d = decided))
      then let (s, repairs) := repair decided decoded s (u64 (repairs + 1)) in
           (encode decided :: s, repairs)
      else let (s, repairs) := repair decided decoded s repairs in (copy :: s, repairs)
  | _, s => (s, repairs)
  end.

Definition read (s : ControlState) : Result (list Z) VoteFailure * ControlState :=
  let decoded := decode <$> copies s in
  let passed := verified <$> decoded in
  if (length (filter (λ d, verified d = true) decoded) <? 2)%nat
  then (Error {| vote_fault := kTooFewVerified; copies_verified := passed |}, s) else
  match decide_words 2 decoded with
  | None => (Error {| vote_fault := kDisagreement; copies_verified := passed |}, s)
  | Some decided =>
      let (c, r) := repair decided decoded (copies s) (repairs s) in
      (Value decided, {| copies := c; repairs := r |})
  end.

(** ** A copy holds at most one value *)

Definition copy_ok (stored : list byte) : Prop := length stored = kCopyBytes.

Definition state_ok (s : ControlState) : Prop :=
  length (copies s) = kCopies ∧ Forall copy_ok (copies s) ∧ in_u64 (repairs s).

Lemma length_array8 words : length words = kControlWords → length (array 8 words) = kWordsBytes.
Proof.
  intros Hl. pose proof (size_array 8 words) as H. unfold size_of in H. rewrite Hl in H.
  unfold kWordsBytes, kControlWords in *. lia.
Qed.

Lemma length_encode words : length words = kControlWords → copy_ok (encode words).
Proof.
  intros Hl. unfold copy_ok, encode. rewrite length_app, length_array8, length_put_le by done. done.
Qed.

Lemma get_array_word w vs i v tail :
  vs !! i = Some v → in_word w v → get_le (take w (drop (i * w) (array w vs ++ tail))) = v.
Proof.
  intros Hv Hw. destruct (array_middle w vs i v Hv) as [E Hs]. rewrite E, <- !app_assoc.
  rewrite drop_app_length' by (unfold size_of in Hs; lia).
  rewrite take_app_length' by (by rewrite length_put_le). by apply get_put_le_small.
Qed.

(** What a copy of six words and a checksum field decodes to. *)
Lemma decode_fields words f :
  words_ok words → length f = 4%nat →
  decode (array 8 words ++ f)
  = {| decoded_words := words; verified := get_le f =? crc32 (array 8 words) |}.
Proof.
  intros [Hl Hw] Hf. unfold decode. f_equal.
  - apply list_eq. intros i. destruct (decide (i < kControlWords)%nat) as [Hi|Hi].
    + rewrite list_lookup_fmap, lookup_seq_lt by done. cbn [fmap option_fmap option_map].
      destruct (lookup_lt_is_Some_2 words i) as [v Hv]; [lia|]. rewrite Hv. f_equal.
      apply get_array_word; [done|]. by apply (Forall_lookup_1 _ _ _ _ Hw Hv).
    + rewrite !lookup_ge_None_2; [done|lia|rewrite length_fmap, length_seq; lia].
  - pose proof (length_array8 words Hl) as Ha.
    by rewrite drop_app_length', take_app_length', firstn_all2 by lia.
Qed.

Lemma decode_encode words :
  words_ok words → decode (encode words) = {| decoded_words := words; verified := true |}.
Proof.
  intros Hok. unfold encode. rewrite decode_fields by (done || apply length_put_le).
  rewrite get_put_le4 by apply crc32_range. by rewrite Z.eqb_refl.
Qed.

(** Every copy is six words and a checksum field. *)
Lemma copy_fields stored :
  copy_ok stored → ∃ words f, words_ok words ∧ length f = 4%nat ∧ stored = array 8 words ++ f.
Proof.
  intros Hl. unfold copy_ok, kCopyBytes, kControlWords in Hl.
  destruct (bytes_array 8 6 (take 48 stored)) as (ws & Hws & Hin & E).
  { rewrite length_take. lia. }
  exists ws, (drop 48 stored). split_and!; [done|rewrite length_drop; lia|].
  by rewrite <- E, take_drop.
Qed.

(** A verified copy is the encoding of its words. *)
Lemma verified_encode stored words :
  copy_ok stored →
  decode stored = {| decoded_words := words; verified := true |} ↔ stored = encode words ∧ words_ok words.
Proof.
  intros Hok. destruct (copy_fields stored Hok) as (ws & f & Hws & Hf & ->). split.
  - rewrite decode_fields by done. intros [= <- Hc]. apply Z.eqb_eq in Hc. split; [|done].
    unfold encode. f_equal. rewrite <- Hc, <- Hf. symmetry. apply put_get_le.
  - intros [E Hw]. rewrite E. by apply decode_encode.
Qed.

Lemma encode_inj u v : words_ok u → words_ok v → encode u = encode v → u = v.
Proof.
  intros Hu Hv E. apply (f_equal decode) in E. rewrite !decode_encode in E by done. congruence.
Qed.

(** What a vote sees of a copy. *)
Definition seen (d : Decoded) : option (list Z) := if verified d then Some (decoded_words d) else None.

Lemma seen_encode stored words :
  copy_ok stored → seen (decode stored) = Some words ↔ stored = encode words ∧ words_ok words.
Proof.
  intros Hok. rewrite <- verified_encode by done. unfold seen.
  destruct (decode stored) as [ws []]; cbn; split; congruence.
Qed.

(** ** The vote *)

(** Two copies hold the same words. *)
Definition majority (s : ControlState) (words : list Z) : Prop :=
  words_ok words ∧ ∃ i j, i ≠ j ∧ copies s !! i = Some (encode words) ∧ copies s !! j = Some (encode words).

(** The number of copies that are not [words] encoded. *)
Definition wrong_copies (words : list Z) (s : ControlState) : nat :=
  length (filter (λ copy, copy ≠ encode words) (copies s)).

Lemma repair_spec words (s : list (list byte)) r :
  words_ok words → Forall copy_ok s → in_u64 r →
  repair words (decode <$> s) s r
  = (replicate (length s) (encode words), u64 (r + Z.of_nat (length (filter (λ c, c ≠ encode words) s)))).
Proof.
  intros Hw Hs. revert r. induction Hs as [|c s Hc Hs IH]; intros r Hr; cbn [repair fmap list_fmap].
  { cbn. by rewrite Z.add_0_r, u64_small. }
  rewrite filter_cons. pose proof (seen_encode c words Hc) as Hseen. unfold seen in Hseen.
  destruct (decide (c = encode words)) as [->|Hne].
  - rewrite decide_False by tauto. rewrite decode_encode by done. cbn [verified decoded_words negb orb].
    rewrite bool_decide_true by done. cbn [negb]. by rewrite IH.
  - rewrite decide_True by done.
    assert (E : negb (verified (decode c)) || negb (bool_decide (decoded_words (decode c) = words)) = true).
    { destruct (verified (decode c)); [|done]. cbn [negb orb]. apply negb_true_iff, bool_decide_eq_false.
      intros E. apply Hne. apply Hseen. by rewrite E. }
    rewrite E, IH by apply u64_range. cbn [length replicate]. f_equal.
    unfold u64. rewrite Zplus_mod_idemp_l. f_equal. lia.
Qed.

(** The vote of three copies, by what it sees of them. *)
Definition vote (a b c : option (list Z)) : option (list Z) :=
  if decide (is_Some a ∧ (a = b ∨ a = c)) then a
  else if decide (is_Some b ∧ b = c) then b else None.

Lemma decide_words_vote a b c :
  decide_words 2 [a; b; c] = vote (seen a) (seen b) (seen c).
Proof.
  destruct a as [a []], b as [b []], c as [c []]; unfold vote, seen; cbn.
  all: repeat case_bool_decide; subst; cbn; repeat case_decide; unfold is_Some in *; unpack;
    intuition (congruence || eauto); exfalso; eauto.
Qed.

Lemma vote_some a b c w :
  vote a b c = Some w ↔ (a = Some w ∧ (b = Some w ∨ c = Some w)) ∨ (b = Some w ∧ c = Some w).
Proof.
  unfold vote. case_decide as H1; [|case_decide as H2].
  - destruct H1 as [[x Hx] H1]. split; [intros ->; left; split; [done|]; intuition congruence|].
    intros [[? ?]|[? ?]]; [done|]. destruct H1; congruence.
  - destruct H2 as [[x Hx] H2]. split; [intros ->; right; by split|].
    intros [[-> ?]|[? ?]]; [|done]. destruct H1. split; [done|]. intuition congruence.
  - split; [done|]. intros [[-> ?]|[-> ?]]; exfalso; [apply H1|apply H2]; split; try done.
    intuition congruence.
Qed.

Lemma three_copies s : state_ok s → ∃ a b c, copies s = [a; b; c] ∧ copy_ok a ∧ copy_ok b ∧ copy_ok c.
Proof.
  intros (Hl & Hc & _). destruct (copies s) as [|a [|b [|c [|]]]]; try done.
  rewrite !Forall_cons in Hc. destruct Hc as (? & ? & ? & _). by exists a, b, c.
Qed.

(** A majority is what the vote sees. *)
Lemma majority_vote s a b c w :
  copies s = [a; b; c] → copy_ok a → copy_ok b → copy_ok c →
  majority s w ↔ vote (seen (decode a)) (seen (decode b)) (seen (decode c)) = Some w.
Proof.
  intros E Ha Hb Hc. rewrite vote_some, !seen_encode by done. unfold majority. rewrite E. split.
  - intros (Hw & [|[|[|]]] & [|[|[|]]] & Hne & Hi & Hj); cbn in *; try done; simplify_eq; tauto.
  - intros [[[-> Hw] [[-> _]|[-> _]]]|[[-> Hw] [-> _]]]; split; try done.
    + by exists 0%nat, 1%nat.
    + by exists 0%nat, 2%nat.
    + by exists 1%nat, 2%nat.
Qed.

(** A copy that is the encoding of the words it holds. *)
Definition sound_copy (copy : list byte) : Prop := copy = encode (decoded_words (decode copy)).

#[export] Instance sound_copy_dec copy : Decision (sound_copy copy).
Proof. unfold sound_copy. apply _. Defined.

Lemma verified_sound copy : copy_ok copy → verified (decode copy) = true ↔ sound_copy copy.
Proof.
  intros Hok. unfold sound_copy. split.
  - intros Hv. apply (verified_encode copy); [done|]. destruct (decode copy) as [ws v]. cbn in *. by subst.
  - intros E. destruct (copy_fields copy Hok) as (ws & f & Hws & Hf & Ec). rewrite E.
    rewrite Ec at 1. rewrite decode_fields by done. cbn [decoded_words]. by rewrite decode_encode.
Qed.

Lemma verified_copies_sound cs :
  Forall copy_ok cs →
  verified <$> (decode <$> cs) = (λ c, bool_decide (sound_copy c)) <$> cs
  ∧ length (filter (λ d, verified d = true) (decode <$> cs)) = length (filter sound_copy cs).
Proof.
  intros H. induction H as [|c cs Hc Hcs [IH1 IH2]]; [done|]. cbn [fmap list_fmap].
  rewrite !filter_cons. pose proof (verified_sound c Hc) as Hs. split.
  - f_equal; [|done]. destruct (verified (decode c)); symmetry;
      [by apply bool_decide_eq_true, Hs|]. apply bool_decide_eq_false. intros ?%Hs. done.
  - repeat case_decide; cbn [length]; rewrite ?IH2; tauto.
Qed.

Lemma seen_verified d w : seen d = Some w → verified d = true.
Proof. unfold seen. by destruct (verified d). Qed.

Lemma two_verified a b c w :
  vote (seen a) (seen b) (seen c) = Some w →
  (length (filter (λ d, verified d = true) [a; b; c]) <? 2)%nat = false.
Proof.
  intros Hv%vote_some. rewrite !filter_cons, filter_nil. apply Nat.ltb_ge.
  destruct Hv as [[Ha%seen_verified [Hb%seen_verified|Hb%seen_verified]]|[Ha%seen_verified Hb%seen_verified]];
    repeat case_decide; cbn [length]; (lia || congruence).
Qed.

Lemma read_majority s words :
  state_ok s → majority s words →
  read s = (Value words, {| copies := replicate kCopies (encode words);
                            repairs := u64 (repairs s + Z.of_nat (wrong_copies words s)) |}).
Proof.
  intros Hok Hm. destruct (three_copies s Hok) as (a & b & c & E & Ha & Hb & Hc).
  destruct Hok as (Hl & Hall & Hr). pose proof (proj1 Hm) as Hw.
  apply (majority_vote s a b c words) in Hm as Hvote; [|done..].
  unfold read. pose proof (repair_spec words (copies s) (repairs s) Hw Hall Hr) as Hrep.
  rewrite E in *. cbn [fmap list_fmap] in *.
  rewrite (two_verified _ _ _ _ Hvote), decide_words_vote, Hvote, Hrep.
  unfold wrong_copies. by rewrite E.
Qed.

Lemma read_no_majority s :
  state_ok s → (∀ words, ¬ majority s words) →
  read s = (Error {| vote_fault := if (length (filter sound_copy (copies s)) <? 2)%nat
                                   then kTooFewVerified else kDisagreement;
                     copies_verified := (λ copy, bool_decide (sound_copy copy)) <$> copies s |}, s).
Proof.
  intros Hok Hm. destruct (three_copies s Hok) as (a & b & c & E & Ha & Hb & Hc).
  destruct Hok as (Hl & Hall & Hr). destruct (verified_copies_sound _ Hall) as [Hv Hn].
  unfold read. rewrite Hv, Hn. case_match; [done|].
  assert (Hvote : decide_words 2 (decode <$> copies s) = None); [|by rewrite Hvote].
  rewrite E. cbn [fmap list_fmap]. rewrite decide_words_vote.
  destruct (vote _ _ _) as [words|] eqn:Ev; [|done]. exfalso. apply (Hm words).
  by apply (majority_vote s a b c words).
Qed.

Lemma majority_dec s : state_ok s → (∃ words, majority s words) ∨ ∀ words, ¬ majority s words.
Proof.
  intros Hok. destruct (three_copies s Hok) as (a & b & c & E & Ha & Hb & Hc).
  destruct (vote (seen (decode a)) (seen (decode b)) (seen (decode c))) as [w|] eqn:Ev.
  - left. exists w. by apply (majority_vote s a b c w).
  - right. intros w Hm. apply (majority_vote s a b c w) in Hm; [|done..]. congruence.
Qed.

(** The vote decides exactly what two copies hold. From any three copies, whatever
    they are: where two are the same control words encoded, those are read, every
    copy is rewritten to hold them, and the copies that did not are counted as
    repairs; where no two are, nothing is read and nothing changes, and the failure
    says which copies pass their checksums, and whether fewer than two do. *)
Theorem vote_decides (s : ControlState) :
  state_ok s →
  match read s with
  | (Value words, s') =>
      majority s words
      ∧ copies s' = replicate kCopies (encode words)
      ∧ repairs s' = u64 (repairs s + Z.of_nat (wrong_copies words s))
  | (Error failure, s') =>
      (∀ words, ¬ majority s words) ∧ s' = s
      ∧ copies_verified failure = (λ copy, bool_decide (sound_copy copy)) <$> copies s
      ∧ (vote_fault failure = kTooFewVerified ↔ (length (filter sound_copy (copies s)) < 2)%nat)
  end.
Proof.
  intros Hok. destruct (majority_dec s Hok) as [[words Hm]|Hno].
  - by rewrite (read_majority s words).
  - rewrite (read_no_majority s) by done. split_and!; [done..|]. cbn [vote_fault].
    destruct (Nat.ltb_spec (length (filter sound_copy (copies s))) 2); split; (done || lia).
Qed.

Definition sample_words (index : Z) : list Z := [7; 1; index; 16; 4; 64].

(** One copy with a byte changed, and one that verifies another value. *)
Definition sample_state (c : list byte) : ControlState :=
  {| copies := [encode (sample_words 9); c; encode (sample_words 9)]; repairs := 2 |}.

Lemma sample_words_ok index : in_u64 index → words_ok (sample_words index).
Proof. intros H. split; [done|]. unfold sample_words. repeat constructor; unfold in_word, in_u64 in *; cbn; lia. Qed.

Lemma sample_state_ok c : copy_ok c → state_ok (sample_state c).
Proof.
  intros Hc. split_and!; [done| |unfold in_u64; cbn; lia].
  assert (copy_ok (encode (sample_words 9))) by by apply length_encode. by repeat constructor.
Qed.

Lemma vote_decides_witness :
  read (sample_state (encode (sample_words 10)))
  = (Value (sample_words 9), {| copies := replicate kCopies (encode (sample_words 9)); repairs := 3 |}).
Proof.
  pose proof (vote_decides (sample_state (encode (sample_words 10)))) as H.
  assert (E : read (sample_state (encode (sample_words 10)))
              = (Value (sample_words 9), {| copies := replicate kCopies (encode (sample_words 9)); repairs := 3 |}))
    by (vm_compute; reflexivity).
  rewrite E in H. destruct H as (_ & Hc & Hr); [by apply sample_state_ok, length_encode|].
  exact E.
Defined.

(** ** Runs on a memory that goes wrong

    What happens to the control state: a vote, a write, and the memory of one copy
    taking any other bytes. *)

Inductive Event :=
| Voted (result : Result (list Z) VoteFailure)
| Wrote (words : list Z)
| Struck (copy : nat) (bytes : list byte).

Inductive step : ControlState → Event → ControlState → Prop :=
| step_vote s r s' : read s = (r, s') → step s (Voted r) s'
| step_write s words : words_ok words → step s (Wrote words) (write words s)
| step_strike s copy bytes :
    copy_ok bytes →
    step s (Struck copy bytes) {| copies := <[copy := bytes]> (copies s); repairs := repairs s |}.

Inductive run : ControlState → list Event → ControlState → Prop :=
| run_nil s : run s [] s
| run_cons s e s1 es s' : step s e s1 → run s1 es s' → run s (e :: es) s'.

(** At most one copy struck between one vote or write and the next; [hit] is the one
    struck since the last. *)
Fixpoint spared (hit : option nat) (events : list Event) : Prop :=
  match events with
  | [] => True
  | Struck copy _ :: events =>
      match hit with None => spared (Some copy) events | Some other => copy = other ∧ spared hit events end
  | _ :: events => spared None events
  end.

(** Every vote reads what was last written. *)
Fixpoint voted_last (last : list Z) (events : list Event) : Prop :=
  match events with
  | [] => True
  | Voted r :: events => r = Value last ∧ voted_last last events
  | Wrote words :: events => voted_last words events
  | Struck _ _ :: events => voted_last last events
  end.

(** The invariant: the copies that were not struck hold what was last written. *)
Definition holds_but (hit : option nat) (words : list Z) (s : ControlState) : Prop :=
  state_ok s ∧ words_ok words
  ∧ ∀ j, (j < kCopies)%nat → hit ≠ Some j → copies s !! j = Some (encode words).

Lemma all_hold words s :
  words_ok words → copies s = replicate kCopies (encode words) → in_u64 (repairs s) →
  holds_but None words s.
Proof.
  intros Hw E Hr. split_and!; [|done|].
  - split_and!; [by rewrite E| |done]. rewrite E. apply Forall_replicate, length_encode, Hw.
  - intros j Hj _. rewrite E. by apply lookup_replicate_2.
Qed.

Lemma holds_majority hit words s : holds_but hit words s → majority s words.
Proof.
  intros (_ & Hw & Hh). split; [done|].
  destruct (decide (hit = Some 0%nat)) as [->|]; [exists 1%nat, 2%nat|].
  { split_and!; [done|apply Hh; [unfold kCopies; lia|done]..]. }
  destruct (decide (hit = Some 1%nat)) as [->|]; [exists 0%nat, 2%nat|exists 0%nat, 1%nat];
    (split_and!; [done|apply Hh; [unfold kCopies; lia|done]..]).
Qed.

Lemma write_holds words s : words_ok words → state_ok s → holds_but None words (write words s).
Proof.
  intros Hw (Hl & _ & Hr). apply all_hold; [done| |done]. unfold write. cbn [copies].
  rewrite <- Hl. clear. induction (copies s) as [|c cs IH]; [done|]. cbn. by rewrite IH.
Qed.

Lemma strike_holds hit words s copy bytes :
  copy_ok bytes → holds_but hit words s → (hit = None ∨ hit = Some copy) →
  holds_but (Some copy) words {| copies := <[copy := bytes]> (copies s); repairs := repairs s |}.
Proof.
  intros Hb ((Hl & Hc & Hr) & Hw & Hh) Hhit. split_and!; [|done|].
  - split_and!; cbn; [by rewrite length_insert|by apply Forall_insert|done].
  - intros j Hj Hne. cbn. rewrite list_lookup_insert_ne by congruence. apply Hh; [done|].
    destruct Hhit as [->| ->]; congruence.
Qed.

(** Faults in one copy are masked. From copies that hold the same control words,
    over any run of votes and writes in which the memory may at any time put any bytes
    into a copy, at most one copy between one vote or write and the next, every vote
    reads the words last written. *)
Theorem faults_masked (words : list Z) (s : ControlState) (events : list Event) (s' : ControlState) :
  words_ok words → copies s = replicate kCopies (encode words) → in_u64 (repairs s) →
  run s events s' → spared None events → voted_last words events.
Proof.
  intros Hw E Hr Hrun. pose proof (all_hold words s Hw E Hr) as Hinv.
  clear E Hr Hw. generalize dependent (@None nat). revert words.
  induction Hrun as [|s e s1 es s' Hstep _ IH]; intros words hit Hinv Hspared; [done|].
  destruct Hstep as [s r s1 Hread|s ws Hws|s copy bytes Hb]; cbn [spared voted_last] in *.
  - rewrite (read_majority s words) in Hread; [|by destruct Hinv|by apply (holds_majority hit)].
    injection Hread as <- <-. split; [done|]. apply (IH words None); [|done].
    apply all_hold; [by destruct Hinv as (_ & ? & _)|done|apply u64_range].
  - apply (IH ws None); [|done]. apply write_holds; [done|by destruct Hinv].
  - destruct hit as [other|].
    + destruct Hspared as [-> Hspared]. apply (IH words (Some other)); [|done].
      apply (strike_holds (Some other)); [done|done|by right].
    + apply (IH words (Some copy)); [|done]. apply (strike_holds None); [done|done|by left].
Qed.

Lemma faults_masked_witness :
  voted_last (sample_words 9)
    [Struck 2 (replicate kCopyBytes (byte_of 255)); Voted (Value (sample_words 9));
     Struck 0 (encode (sample_words 10)); Voted (Value (sample_words 9))].
Proof.
  assert (Hc : copy_ok (replicate kCopyBytes (byte_of 255))) by done.
  assert (He : copy_ok (encode (sample_words 10))) by by apply length_encode.
  eapply (faults_masked (sample_words 9)
    {| copies := replicate kCopies (encode (sample_words 9)); repairs := 0 |}).
  - apply sample_words_ok. unfold in_u64; cbn; lia.
  - reflexivity.
  - unfold in_u64; cbn; lia.
  - eapply run_cons; [by apply step_strike|]. eapply run_cons; [apply step_vote; vm_compute; reflexivity|].
    eapply run_cons; [by apply step_strike|]. eapply run_cons; [apply step_vote; vm_compute; reflexivity|].
    apply run_nil.
  - cbn. done.
Defined.

(** ** Damage in every copy *)

(** A copy of [words] in which up to four adjacent bytes of the words changed, or the
    checksum did. *)
Definition damaged (words : list Z) (copy : list byte) : Prop :=
  (∃ pre xs ys post, array 8 words = pre ++ xs ++ post ∧ length xs = length ys
    ∧ (length xs ≤ 4)%nat ∧ xs ≠ ys
    ∧ copy = (pre ++ ys ++ post) ++ put_le 4 (crc32 (array 8 words)))
  ∨ (∃ f, length f = 4%nat ∧ f ≠ put_le 4 (crc32 (array 8 words)) ∧ copy = array 8 words ++ f).

Lemma damaged_unsound words copy :
  words_ok words → damaged words copy → verified (decode copy) = false.
Proof.
  intros [Hl Hw] Hd. apply Z.eqb_neq. pose proof (length_array8 words Hl) as Ha.
  destruct Hd as [(pre & xs & ys & post & E & Hlen & H4 & Hne & ->)|(f & Hf & Hne & ->)].
  - assert (Hp : length (pre ++ ys ++ post) = kWordsBytes).
    { rewrite <- Ha, E, !length_app. lia. }
    rewrite drop_app_length', take_app_length' by done.
    rewrite (firstn_all2 (put_le _ _)) by (rewrite length_put_le; lia).
    rewrite get_put_le4 by apply crc32_range. rewrite E. unfold crc32.
    apply crc32_burst; [|done|lia|done]. unfold in_register. lia.
  - rewrite drop_app_length', take_app_length', firstn_all2 by lia. intros Ec. apply Hne.
    rewrite <- Ec, <- Hf. symmetry. apply put_get_le.
Qed.

(** Damage the checksums see never decides a vote. Where each copy is the control
    words encoded or a copy of them damaged (a burst of up to 32 bits in the words, or
    any other checksum), however many are, the vote reads those words when two copies
    are intact and otherwise reads nothing, for too few verified: never other words. *)
Theorem damage_never_decides (words : list Z) (s : ControlState) :
  state_ok s → words_ok words →
  Forall (λ copy, copy = encode words ∨ damaged words copy) (copies s) →
  if (2 <=? length (filter (λ copy, copy = encode words) (copies s)))%nat
  then (read s).1 = Value words
  else ∃ passed, (read s).1 = Error {| vote_fault := kTooFewVerified; copies_verified := passed |}.
Proof.
  intros Hok Hw Hall.
  assert (Hsound : filter sound_copy (copies s) = filter (λ copy, copy = encode words) (copies s)).
  { destruct Hok as (_ & Hc & _). clear -Hall Hw Hc.
    induction Hall as [|c cs Hd Hall IH]; [done|]. apply Forall_cons in Hc as [Hc Hcs].
    rewrite !filter_cons, IH by done. pose proof (verified_sound c Hc) as Hs.
    destruct Hd as [->|Hd].
    - rewrite decode_encode in Hs by done. rewrite !decide_True; [done|done|by apply Hs].
    - rewrite (damaged_unsound words c) in Hs by done. rewrite !decide_False; [done| |].
      + intros ->. pose proof (damaged_unsound words _ Hw Hd) as Hv. by rewrite decode_encode in Hv.
      + intros H. by apply Hs in H. }
  destruct (Nat.leb_spec 2 (length (filter (λ copy, copy = encode words) (copies s)))) as [Hm|Hf].
  - rewrite (read_majority s words); [done|done|]. split; [done|].
    destruct (three_copies s Hok) as (a & b & c & E & _). rewrite E in *. rewrite !filter_cons, filter_nil in Hm.
    destruct (decide (a = encode words)) as [->|], (decide (b = encode words)) as [->|],
      (decide (c = encode words)) as [->|]; cbn [length] in Hm; try lia.
    + by exists 0%nat, 1%nat.
    + by exists 0%nat, 1%nat.
    + by exists 0%nat, 2%nat.
    + by exists 1%nat, 2%nat.
  - rewrite read_no_majority; [|done|].
    + rewrite Hsound. rewrite (proj2 (Nat.ltb_lt _ _)) by lia. by eexists.
    + intros ws (Hws & i & j & Hne & Hi & Hj). assert (Hcopy : ∀ k, copies s !! k = Some (encode ws) → ws = words).
      { intros k Hk. pose proof (Forall_lookup_1 _ _ _ _ Hall Hk) as [E|Hd]; [by apply encode_inj in E|].
        apply damaged_unsound in Hd; [|done]. by rewrite decode_encode in Hd. }
      pose proof (Hcopy i Hi). subst ws. destruct (three_copies s Hok) as (a & b & c & E & _).
      rewrite E in *. rewrite !filter_cons, filter_nil in Hf.
      destruct i as [|[|[|]]], j as [|[|[|]]]; cbn in Hi, Hj; simplify_eq;
        repeat case_decide; cbn [length] in Hf; (lia || congruence).
Qed.

Lemma damage_never_decides_witness :
  ∃ passed,
    (read {| copies := [array 8 (sample_words 9) ++ replicate 4 (byte_of 0);
                        encode (sample_words 9);
                        array 8 (sample_words 9) ++ replicate 4 (byte_of 1)]; repairs := 0 |}).1
    = Error {| vote_fault := kTooFewVerified; copies_verified := passed |}.
Proof.
  pose (s := {| copies := [array 8 (sample_words 9) ++ replicate 4 (byte_of 0);
                        encode (sample_words 9);
                        array 8 (sample_words 9) ++ replicate 4 (byte_of 1)]; repairs := 0 |}).
  assert (Hok : state_ok s).
  { split_and!; [done|by repeat constructor|unfold in_u64; cbn; lia]. }
  assert (Hw : words_ok (sample_words 9)) by (apply sample_words_ok; unfold in_u64; cbn; lia).
  pose proof (damage_never_decides (sample_words 9) s Hok Hw) as H.
  assert (E : (2 <=? length (filter (λ copy, copy = encode (sample_words 9)) (copies s)))%nat = false)
    by (vm_compute; reflexivity).
  rewrite E in H. apply H. clear. unfold s, copies. repeat apply Forall_cons_2; [|by left| |done].
  - right. right. exists (replicate 4 (byte_of 0)). split; [done|split; [by vm_compute|done]].
  - right. right. exists (replicate 4 (byte_of 1)). split; [done|split; [by vm_compute|done]].
Defined.
