(* ===== verification/Memory.v ===== *)
(** * platform/memory: mappings, made in steps and never leaked

    [Memory::map] (platform/memory.cpp), the lock policy over it
    (verification/integrity/locking.cpp) and the three mappings of the control state
    ([ControlState::create], verification/integrity/control_state.cpp). The kernel's
    calls are a class, and a destructor that unmaps is the unmap it makes. *)

From stdpp Require Export gmap.
From S2P Require Export Platform Runner ControlState.

(** ** memory.hpp *)

Inductive HugePages := kNoHugePages | kTransparent | kExplicit.

#[export] Instance HugePages_eq_dec : EqDecision HugePages.
Proof. solve_decision. Defined.

Definition kExplicitHugePageBytes : Z := 2 ≪ 20.

Record MappingRequest := {
  requested_bytes : Z;
  huge_pages : HugePages;
  populate : bool;
  lock : bool;
  node : option Z;
}.

Inductive Stage := kMap | kBind | kAdvise | kPopulate | kLock.

#[export] Instance Stage_eq_dec : EqDecision Stage.
Proof. solve_decision. Defined.

Inductive Refusal := kBadRequest | kExhausted | kNotPermitted | kUnsupported | kUnexpected.

Record MappingRefused := {
  refused_stage : Stage;
  refused_kind : Refusal;
  refused_request : MappingRequest;
  refused_cause : SyscallError;
}.

Record Mapping := { map_address : Z; map_bytes : Z }.

(** ** memory.cpp *)

Definition EPERM : Z := 1.
Definition EAGAIN : Z := 11.
Definition ENOMEM : Z := 12.
Definition EACCES : Z := 13.
Definition ENOSYS : Z := 38.
Definition EOPNOTSUPP : Z := 95.

(** [MAP_HUGETLB | (21 << MAP_HUGE_SHIFT)]. *)
Definition kExplicitHugePageFlags : Z := Z.lor 0x40000 (21 ≪ 26).
Definition MADV_HUGEPAGE : Z := 14.
Definition MADV_POPULATE_WRITE : Z := 23.
Definition kNodeMaskBits : Z := 1024.

Definition describe_huge_pages (huge_pages : HugePages) : text :=
  match huge_pages with
  | kNoHugePages => lit "ordinary pages"
  | kTransparent => lit "transparent huge pages"
  | kExplicit => lit "explicit huge pages"
  end.

Definition describe_stage (stage : Stage) : text :=
  match stage with
  | kMap => lit "mapping"
  | kBind => lit "binding to the NUMA node"
  | kAdvise => lit "advising transparent huge pages"
  | kPopulate => lit "populating"
  | kLock => lit "locking"
  end.

Definition describe_refusal (refusal : Refusal) : text :=
  match refusal with
  | kBadRequest => lit "the request is not one the kernel accepts"
  | kExhausted => lit "the memory, huge pages or lock allowance are exhausted"
  | kNotPermitted => lit "not permitted"
  | kUnsupported => lit "this kernel does not support it"
  | kUnexpected => lit "the kernel refused for a reason this code does not expect"
  end.

Definition describe_request (request : MappingRequest) : text :=
  to_dec (requested_bytes request) ++ lit " bytes, " ++ describe_huge_pages (huge_pages request)
  ++ (if populate request then lit ", populated" else [])
  ++ (if lock request then lit ", locked" else [])
  ++ from_option (λ node, lit ", on node " ++ to_dec node) [] (node request).

Definition describe_refused (strerror : Z → text) (refused : MappingRefused) : text :=
  lit "cannot map " ++ describe_request (refused_request refused) ++ lit ": "
  ++ describe_stage (refused_stage refused) ++ lit " failed, "
  ++ describe_refusal (refused_kind refused) ++ lit " ("
  ++ describe_syscall_error strerror (refused_cause refused) ++ lit ")".

Definition classify_refusal (error : SyscallError) : Refusal :=
  let number := number_ error in
  if number =? EINVAL then kBadRequest else
  if (number =? ENOMEM) || (number =? EAGAIN) then kExhausted else
  if (number =? EPERM) || (number =? EACCES) then kNotPermitted else
  if (number =? ENOSYS) || (number =? EOPNOTSUPP) then kUnsupported else kUnexpected.

Definition round_up_to_huge_pages (bytes : Z) : option Z :=
  let kLargestRoundable := (2 ^ 64 - 1) - (kExplicitHugePageBytes - 1) in
  if kLargestRoundable <? bytes then None else
  let pages := u64 (bytes + kExplicitHugePageBytes - 1) / kExplicitHugePageBytes in
  Some (u64 (pages * kExplicitHugePageBytes)).

(** A mask is the number its bits are. *)
Definition node_mask_of (node : Z) : Result Z text :=
  if kNodeMaskBits <=? node
  then Error (lit "a node id past what any Linux kernel can number")
  else Value (1 ≪ node).

Definition refuse (stage : Stage) (request : MappingRequest) (cause : SyscallError) : MappingRefused :=
  {| refused_stage := stage; refused_kind := classify_refusal cause;
     refused_request := request; refused_cause := cause |}.

Definition refuse_unasked (stage : Stage) (request : MappingRequest) (check detail : text) :
    MappingRefused :=
  refuse stage request {| number_ := EINVAL; call := check; subject := detail |}.

Class MemoryCalls (K : Type) := {
  map_anonymous : Z → Z → K → Result Z SyscallError * K;      (** length, flags *)
  unmap : Z → Z → K → Result unit SyscallError * K;           (** address, length *)
  bind_memory : Z → Z → Z → K → Result unit SyscallError * K; (** and the mask *)
  advise_memory : Z → Z → Z → K → Result unit SyscallError * K; (** and the advice *)
  lock_memory : Z → Z → K → Result unit SyscallError * K;
}.

Section Memory.
Context {K : Type} `{MemoryCalls K}.

(** A step after the mapping: what it asked for refused, the mapping is unmapped on
    the way out. *)
Definition step_or_unmap (stage : Stage) (request : MappingRequest) (m : Mapping)
    (wanted : bool) (ask : K → Result unit SyscallError * K)
    (k : K → Result Mapping MappingRefused * K) (s : K) : Result Mapping MappingRefused * K :=
  if wanted then
    let (answer, s) := ask s in
    match answer with
    | Error cause =>
        let (_, s) := unmap (map_address m) (map_bytes m) s in (Error (refuse stage request cause), s)
    | Value _ => k s
    end
  else k s.

(** The steps after the kernel mapped [bytes]. *)
Definition map_steps (request : MappingRequest) (m : Mapping) (s : K) :
    Result Mapping MappingRefused * K :=
  let address := map_address m in
  let bytes := map_bytes m in
  let rest :=
    step_or_unmap kAdvise request m (bool_decide (huge_pages request = kTransparent))
      (advise_memory address bytes MADV_HUGEPAGE)
    (step_or_unmap kPopulate request m (populate request)
      (advise_memory address bytes MADV_POPULATE_WRITE)
    (step_or_unmap kLock request m (lock request) (lock_memory address bytes)
    (λ s, (Value m, s)))) in
  match node request with
  | None => rest s
  | Some node =>
      match node_mask_of node with
      | Error why =>
          let (_, s) := unmap address bytes s in
          (Error (refuse_unasked kBind request (lit "node mask")
                    (lit "node " ++ to_dec node ++ lit " is " ++ why)), s)
      | Value mask => step_or_unmap kBind request m true (bind_memory address bytes mask) rest s
      end
  end.

(** [Memory::map]. *)
Definition map_memory (request : MappingRequest) (s : K) : Result Mapping MappingRefused * K :=
  let rounded :=
    if bool_decide (huge_pages request = kExplicit)
    then bytes ← round_up_to_huge_pages (requested_bytes request);
         Some (bytes, kExplicitHugePageFlags)
    else Some (requested_bytes request, 0) in
  match rounded with
  | None =>
      (Error (refuse_unasked kMap request (lit "huge-page rounding")
                (to_dec (requested_bytes request) ++ lit " bytes rounds past the largest size")), s)
  | Some (bytes, flags) =>
      let (mapped, s) := map_anonymous bytes flags s in
      match mapped with
      | Error cause => (Error (refuse kMap request cause), s)
      | Value address => map_steps request {| map_address := address; map_bytes := bytes |} s
      end
  end.

(** [Mapping::release], and the destructor, which is it with the answer dropped: an
    empty mapping is one released or moved from. *)
Definition release (m : option Mapping) (s : K) : Result unit SyscallError * option Mapping * K :=
  match m with
  | None => (Value tt, None, s)
  | Some m => let (answer, s) := unmap (map_address m) (map_bytes m) s in (answer, None, s)
  end.

(** ** locking.cpp *)

Record Placed := { placed_mapping : Mapping; placed_outcome : LockOutcome; placed_detail : text }.

Definition with_lock (request : MappingRequest) (lock : bool) : MappingRequest :=
  {| requested_bytes := requested_bytes request; huge_pages := huge_pages request;
     populate := populate request; lock := lock; node := node request |}.

Definition map_by_policy (strerror : Z → text) (request : MappingRequest) (policy : LockPolicy)
    (s : K) : Result Placed MappingRefused * K :=
  let request := with_lock request (negb (bool_decide (policy = kNone))) in
  let (mapped, s) := map_memory request s in
  match mapped with
  | Value m =>
      (Value {| placed_mapping := m;
                placed_outcome := if decide (policy = kNone) then kNotLocked else kLocked;
                placed_detail := [] |}, s)
  | Error refused =>
      if negb (bool_decide (policy = kTry)) || negb (bool_decide (refused_stage refused = kLock))
      then (Error refused, s) else
      let (unlocked, s) := map_memory (with_lock request false) s in
      match unlocked with
      | Error refused => (Error refused, s)
      | Value m => (Value {| placed_mapping := m; placed_outcome := kFellBack;
                             placed_detail := describe_refused strerror refused |}, s)
      end
  end.

(** ** control_state.cpp: the three mappings *)

Record ControlRefused := { refused_copy : nat; refused_mapping : MappingRefused }.

(** The destructors of the copies mapped so far. *)
Fixpoint unmap_all (copies : list Mapping) (s : K) : K :=
  match copies with
  | [] => s
  | m :: copies => let (_, s) := unmap (map_address m) (map_bytes m) s in unmap_all copies s
  end.

Definition copy_request (nodes : list Z) (copy : nat) : MappingRequest :=
  {| requested_bytes := Z.of_nat kCopyBytes; huge_pages := kNoHugePages; populate := true;
     lock := false; node := match nodes with [] => None | _ => nodes !! (copy mod length nodes)%nat end |}.

(** The loop of [create], [turns] copies from [copy]. *)
Fixpoint map_copies (strerror : Z → text) (nodes : list Z) (policy : LockPolicy) (turns copy : nat)
    (copies : list Mapping) (outcome : LockOutcome) (detail : text) (s : K) :
    Result (list Mapping * LockOutcome * text) ControlRefused * K :=
  match turns with
  | O => (Value (copies, outcome, detail), s)
  | S turns =>
      let (mapped, s) := map_by_policy strerror (copy_request nodes copy) policy s in
      match mapped with
      | Error refused =>
          (Error {| refused_copy := copy; refused_mapping := refused |}, unmap_all copies s)
      | Value placed =>
          let falls := bool_decide (placed_outcome placed = kFellBack)
                       && negb (bool_decide (outcome = kFellBack)) in
          map_copies strerror nodes policy turns (S copy) (copies ++ [placed_mapping placed])
            (if falls then kFellBack else outcome)
            (if falls then placed_detail placed else detail) s
      end
  end.

(** A new anonymous mapping is zeros. *)
Definition create_control (strerror : Z → text) (initial : list Z) (nodes : list Z)
    (policy : LockPolicy) (s : K) :
    Result (ControlState * list Mapping * LockOutcome * text) ControlRefused * K :=
  let (mapped, s) := map_copies strerror nodes policy kCopies 0 []
                       (if decide (policy = kNone) then kNotLocked else kLocked) [] s in
  match mapped with
  | Error refused => (Error refused, s)
  | Value (maps, outcome, detail) =>
      (Value (write initial {| copies := (λ _, replicate kCopyBytes (byte_of 0)) <$> maps;
                               repairs := 0 |}, maps, outcome, detail), s)
  end.

End Memory.

(** ** The kernel's calls, as documented

    mmap(2) gives a range that was free, munmap(2) of a mapping's own range succeeds
    and frees it, and the other calls map and unmap nothing. [mappings] is the length
    of the mapping at each address, [calls_made] the calls that succeeded. *)

Inductive Call :=
| Mapped (address length flags : Z)
| Bound (address length mask : Z)
| Advised (address length advice : Z)
| Locked (address length : Z)
| Unmapped (address length : Z).

Class MemoryLaws (K : Type) `{MemoryCalls K} := {
  mappings : K → gmap Z Z;
  calls_made : K → list Call;
  map_adds length flags s a s' :
    map_anonymous length flags s = (Value a, s') →
    mappings s !! a = None ∧ mappings s' = <[a := length]> (mappings s)
    ∧ calls_made s' = calls_made s ++ [Mapped a length flags];
  map_fails length flags s e s' :
    map_anonymous length flags s = (Error e, s') → mappings s' = mappings s ∧ calls_made s' = calls_made s;
  unmap_drops a length s :
    mappings s !! a = Some length →
    ∃ s', unmap a length s = (Value tt, s') ∧ mappings s' = delete a (mappings s)
      ∧ calls_made s' = calls_made s ++ [Unmapped a length];
  bind_keeps a length mask s r s' :
    bind_memory a length mask s = (r, s') → mappings s' = mappings s
    ∧ calls_made s' = calls_made s ++ (if has_value r then [Bound a length mask] else []);
  advise_keeps a length advice s r s' :
    advise_memory a length advice s = (r, s') → mappings s' = mappings s
    ∧ calls_made s' = calls_made s ++ (if has_value r then [Advised a length advice] else []);
  lock_keeps a length s r s' :
    lock_memory a length s = (r, s') → mappings s' = mappings s
    ∧ calls_made s' = calls_made s ++ (if has_value r then [Locked a length] else []);
}.

Section Steps.
Context {K : Type} `{MemoryLaws K}.
Implicit Types s : K.

(** The calls a request comes to, in their order. *)
Definition steps_of (request : MappingRequest) (m : Mapping) : list Call :=
  let a := map_address m in
  let b := map_bytes m in
  from_option (λ node, [Bound a b (1 ≪ node)]) [] (node request)
  ++ (if bool_decide (huge_pages request = kTransparent) then [Advised a b MADV_HUGEPAGE] else [])
  ++ (if populate request then [Advised a b MADV_POPULATE_WRITE] else [])
  ++ (if lock request then [Locked a b] else []).

(** What became of a mapping the kernel made at [m] over [base]: it stands with the
    [later] calls made, or it is gone. *)
Definition ends (request : MappingRequest) (m : Mapping) (base : gmap Z Z) (before later : list Call)
    (result : Result Mapping MappingRefused * K) : Prop :=
  match result with
  | (Value m', s') => m' = m ∧ mappings s' = <[map_address m := map_bytes m]> base
                      ∧ calls_made s' = before ++ later
  | (Error refused, s') => mappings s' = base ∧ refused_request refused = request
                      ∧ refused_kind refused = classify_refusal (refused_cause refused)
                      ∧ (refused_stage refused = kLock → lock request = true)
  end.

Definition mapped_at (m : Mapping) (base : gmap Z Z) s : Prop :=
  base !! map_address m = None ∧ mappings s = <[map_address m := map_bytes m]> base.

Lemma unmap_mapped m base s :
  mapped_at m base s →
  ∃ s', unmap (map_address m) (map_bytes m) s = (Value tt, s') ∧ mappings s' = base.
Proof.
  intros [Hfree Hm]. destruct (unmap_drops (map_address m) (map_bytes m) s) as (s' & E & Hs' & _).
  - rewrite Hm. apply lookup_insert_eq.
  - exists s'. split; [done|]. by rewrite Hs', Hm, delete_insert_id.
Qed.

Lemma step_or_unmap_ends stage request m wanted ask k s base (c : Call) later :
  mapped_at m base s → (stage = kLock → wanted = lock request) →
  (∀ s r s', ask s = (r, s') → mappings s' = mappings s
     ∧ calls_made s' = calls_made s ++ (if has_value r then [c] else [])) →
  (∀ s, mapped_at m base s → ends request m base (calls_made s) later (k s)) →
  ends request m base (calls_made s) ((if wanted : bool then [c] else []) ++ later)
    (step_or_unmap stage request m wanted ask k s).
Proof.
  intros Hm Hlock Hask Hk. unfold step_or_unmap. destruct wanted; [|by apply Hk].
  destruct (ask s) as [answer s1] eqn:Ea. destruct (Hask _ _ _ Ea) as [H1 Hc1].
  assert (Hm1 : mapped_at m base s1) by (unfold mapped_at in *; by rewrite H1).
  destruct answer as [[]|cause]; cbn [has_value] in Hc1.
  - specialize (Hk s1 Hm1). rewrite Hc1 in Hk. unfold ends in *.
    destruct (k s1) as [[m'|] s2]; [|done]. by rewrite <- app_assoc in Hk.
  - destruct (unmap_mapped m base s1 Hm1) as (s2 & -> & Hs2).
    unfold ends. split_and!; [done|done|done|]. intros E. cbn in E. by rewrite <- Hlock.
Qed.

Lemma map_steps_ends request m base s :
  mapped_at m base s →
  ends request m base (calls_made s) (steps_of request m) (map_steps request m s).
Proof.
  intros Hm. unfold map_steps, steps_of.
  assert (Hrest : ∀ s, mapped_at m base s → ends request m base (calls_made s)
    ((if bool_decide (huge_pages request = kTransparent)
      then [Advised (map_address m) (map_bytes m) MADV_HUGEPAGE] else [])
     ++ (if populate request then [Advised (map_address m) (map_bytes m) MADV_POPULATE_WRITE] else [])
     ++ (if lock request then [Locked (map_address m) (map_bytes m)] else []))
    (step_or_unmap kAdvise request m (bool_decide (huge_pages request = kTransparent))
       (advise_memory (map_address m) (map_bytes m) MADV_HUGEPAGE)
       (step_or_unmap kPopulate request m (populate request)
          (advise_memory (map_address m) (map_bytes m) MADV_POPULATE_WRITE)
          (step_or_unmap kLock request m (lock request) (lock_memory (map_address m) (map_bytes m))
             (λ s, (Value m, s)))) s)).
  { intros s1 Hm1. apply step_or_unmap_ends; [done|done|apply advise_keeps|]. intros s2 Hm2.
    apply step_or_unmap_ends; [done|done|apply advise_keeps|]. intros s3 Hm3.
    rewrite <- (app_nil_r (if lock request then _ else _)).
    apply step_or_unmap_ends; [done|done|apply lock_keeps|]. intros s4 [_ Hm4]. cbn.
    by rewrite app_nil_r. }
  destruct (node request) as [node|]; cbn [from_option]; [|by apply Hrest].
  unfold node_mask_of. destruct (kNodeMaskBits <=? node).
  - destruct (unmap_mapped m base s Hm) as (s' & -> & Hs').
    unfold ends. split_and!; [exact Hs'|reflexivity|reflexivity|discriminate].
  - apply (step_or_unmap_ends kBind request m true); [done|done|apply bind_keeps|done].
Qed.

(** The bytes and flags a request maps. *)
Definition wanted_bytes (request : MappingRequest) : Z :=
  if bool_decide (huge_pages request = kExplicit)
  then (requested_bytes request + kExplicitHugePageBytes - 1) / kExplicitHugePageBytes
       * kExplicitHugePageBytes
  else requested_bytes request.

Definition wanted_flags (request : MappingRequest) : Z :=
  if bool_decide (huge_pages request = kExplicit) then kExplicitHugePageFlags else 0.

Lemma round_up_spec bytes :
  in_u64 bytes → from_option (λ r, r = (bytes + kExplicitHugePageBytes - 1) / kExplicitHugePageBytes
                      * kExplicitHugePageBytes ∧ bytes ≤ r < 2 ^ 64) (2 ^ 64 - kExplicitHugePageBytes < bytes)
             (round_up_to_huge_pages bytes).
Proof.
  intros Hb. unfold round_up_to_huge_pages, in_u64 in *. change kExplicitHugePageBytes with 2097152.
  destruct (Z.ltb_spec ((2 ^ 64 - 1) - (2097152 - 1)) bytes); cbn [from_option]; [lia|].
  rewrite (u64_small (bytes + 2097152 - 1)) by (unfold in_u64; lia).
  rewrite u64_small; [split; [done|]|]; unfold in_u64; pow2; dlia.
Qed.

(** What a mapping request comes to. *)
Definition mapped_or_not request s (result : Result Mapping MappingRefused * K) : Prop :=
  match result with
  | (Value m, s') =>
      map_bytes m = wanted_bytes request ∧ mappings s !! map_address m = None
      ∧ mappings s' = <[map_address m := map_bytes m]> (mappings s)
      ∧ calls_made s' = calls_made s ++ Mapped (map_address m) (map_bytes m) (wanted_flags request)
                          :: steps_of request m
  | (Error refused, s') =>
      mappings s' = mappings s ∧ refused_request refused = request
      ∧ refused_kind refused = classify_refusal (refused_cause refused)
      ∧ (refused_stage refused = kLock → lock request = true)
  end.

Lemma map_memory_spec request s :
  in_u64 (requested_bytes request) → mapped_or_not request s (map_memory request s).
Proof.
  intros Hb. unfold map_memory.
  assert (Hrounded : from_option (λ p, p = (wanted_bytes request, wanted_flags request)) True
    (if bool_decide (huge_pages request = kExplicit)
     then bytes ← round_up_to_huge_pages (requested_bytes request); Some (bytes, kExplicitHugePageFlags)
     else Some (requested_bytes request, 0))).
  { unfold wanted_bytes, wanted_flags. case_bool_decide; [|done].
    pose proof (round_up_spec _ Hb) as Hr. destruct (round_up_to_huge_pages _) as [r|]; [|done].
    cbn in *. by destruct Hr as [-> _]. }
  destruct (if bool_decide _ then _ else _) as [[bytes flags]|]; [|done].
  cbn in Hrounded. injection Hrounded as -> ->.
  destruct (map_anonymous _ _ s) as [[a|e] s1] eqn:Ea.
  - destruct (map_adds _ _ _ _ _ Ea) as (Hfree & Hm & Hc).
    pose proof (map_steps_ends request {| map_address := a; map_bytes := wanted_bytes request |}
      (mappings s) s1 (conj Hfree Hm)) as He. rewrite Hc in He. unfold ends in He.
    destruct (map_steps request _ s1) as [[m|refused] s2].
    + destruct He as (-> & Hm2 & Hc2). split_and!; [done|done|done|].
      by rewrite Hc2, <- app_assoc.
    + done.
  - destruct (map_fails _ _ _ _ _ Ea) as [Hm _]. done.
Qed.

(** The request as it was granted: locked exactly when the outcome says so. *)
Definition granted (request : MappingRequest) (p : Placed) : MappingRequest :=
  with_lock request (bool_decide (placed_outcome p = kLocked)).

(** What the lock policy comes to. *)
Definition placed_or_not request policy s (result : Result Placed MappingRefused * K) : Prop :=
  match result with
  | (Value p, s') =>
      let m := placed_mapping p in
      map_bytes m = wanted_bytes request ∧ mappings s !! map_address m = None
      ∧ mappings s' = <[map_address m := map_bytes m]> (mappings s)
      ∧ (Mapped (map_address m) (map_bytes m) (wanted_flags request) :: steps_of (granted request p) m)
          `suffix_of` calls_made s'
      ∧ match policy with
        | kRequire => placed_outcome p = kLocked
        | kTry => placed_outcome p ≠ kNotLocked
        | kNone => placed_outcome p = kNotLocked
        end
      ∧ (placed_outcome p = kFellBack ↔ placed_detail p ≠ [])
  | (Error refused, s') =>
      mappings s' = mappings s
      ∧ refused_kind refused = classify_refusal (refused_cause refused)
      ∧ (refused_stage refused = kLock → policy = kRequire)
  end.

Lemma map_by_policy_spec strerror request policy s :
  in_u64 (requested_bytes request) →
  placed_or_not request policy s (map_by_policy strerror request policy s).
Proof.
  intros Hb. unfold map_by_policy.
  pose proof (map_memory_spec (with_lock request (negb (bool_decide (policy = kNone)))) s Hb) as H1.
  destruct (map_memory _ s) as [[m|refused] s1]; unfold mapped_or_not in H1.
  - destruct H1 as (Hbytes & Hfree & Hm & Hc). unfold placed_or_not. cbn [placed_mapping placed_outcome placed_detail].
    split_and!; [done|done|done| | |].
    + rewrite Hc. unfold granted. cbn [placed_outcome].
      assert (bool_decide ((if decide (policy = kNone) then kNotLocked else kLocked) = kLocked)
              = negb (bool_decide (policy = kNone))) as ->.
      { by destruct policy. }
      by apply suffix_app_r.
    + by destruct policy.
    + by destruct policy.
  - destruct H1 as (Hm & _ & Hkind & Hlock).
    destruct (decide (policy = kTry)) as [->|Hp]; [destruct (decide (refused_stage refused = kLock)) as [Hs|Hs]|].
    + rewrite Hs. cbn.
      pose proof (map_memory_spec (with_lock (with_lock request true) false) s1 Hb) as H2.
      destruct (map_memory _ s1) as [[m|refused2] s2]; unfold mapped_or_not in H2.
      * destruct H2 as (Hbytes & Hfree & Hm2 & Hc). unfold placed_or_not.
        cbn [placed_mapping placed_outcome placed_detail]. rewrite Hm in *.
        split_and!; [done|done|done| |done|done]. rewrite Hc. by apply suffix_app_r.
      * destruct H2 as (Hm2 & _ & Hkind2 & Hlock2). unfold placed_or_not.
        split_and!; [congruence|done|]. intros E. by apply Hlock2 in E.
    + rewrite bool_decide_true by done. rewrite (bool_decide_false (_ = kLock)) by done. cbn.
      unfold placed_or_not. by split_and!.
    + rewrite bool_decide_false by done. cbn. unfold placed_or_not. split_and!; [done|done|].
      intros E. apply Hlock in E. cbn in E. by destruct policy.
Qed.

(** *** The control state's mappings *)

Definition addresses (maps : list Mapping) : list Z := map_address <$> maps.

(** The kernel's mappings are [base] and the copies in [maps]. *)
Definition held (base : gmap Z Z) (maps : list Mapping) s : Prop :=
  NoDup (addresses maps)
  ∧ Forall (λ m, map_bytes m = Z.of_nat kCopyBytes ∧ base !! map_address m = None) maps
  ∧ ∀ a, mappings s !! a = if decide (a ∈ addresses maps) then Some (Z.of_nat kCopyBytes) else base !! a.

Lemma unmap_all_held base maps s : held base maps s → mappings (unmap_all maps s) = base.
Proof.
  revert s. induction maps as [|m maps IH]; intros s (Hnd & Hall & Hm); cbn [unmap_all].
  - apply map_eq. intros a. rewrite Hm. by rewrite decide_False by apply not_elem_of_nil.
  - apply Forall_cons in Hall as [[Hbytes Hfree] Hall]. apply NoDup_cons in Hnd as [Hnew Hnd].
    destruct (unmap_drops (map_address m) (map_bytes m) s) as (s' & -> & Hs' & _).
    { rewrite Hm, decide_True by by left. by rewrite Hbytes. }
    apply IH. split_and!; [done|done|]. intros a. rewrite Hs'.
    destruct (decide (a = map_address m)) as [->|Hne].
    + rewrite lookup_delete_eq, decide_False by done. done.
    + rewrite lookup_delete_ne, Hm by done. cbn [addresses fmap list_fmap].
      destruct (decide (a ∈ addresses maps)) as [Hin|Hin].
      * by rewrite decide_True by by right.
      * rewrite decide_False; [done|]. by intros [->|?]%elem_of_cons.
Qed.

Lemma held_snoc base maps s m s' :
  held base maps s → map_bytes m = Z.of_nat kCopyBytes → mappings s !! map_address m = None →
  mappings s' = <[map_address m := map_bytes m]> (mappings s) →
  held base (maps ++ [m]) s'.
Proof.
  intros (Hnd & Hall & Hm) Hbytes Hfree Hs'.
  assert (Hnew : map_address m ∉ addresses maps).
  { intros Hin. by rewrite Hm, decide_True in Hfree. }
  assert (Hbase : base !! map_address m = None) by by rewrite Hm, decide_False in Hfree.
  split_and!.
  - unfold addresses in *. rewrite fmap_app. apply NoDup_app. split_and!; [done| |apply NoDup_singleton].
    intros a Ha ->%list_elem_of_singleton. done.
  - apply Forall_app. split; [done|]. by repeat constructor.
  - intros a. rewrite Hs'.
    assert (Hin : a ∈ addresses (maps ++ [m]) ↔ a ∈ addresses maps ∨ a = map_address m).
    { unfold addresses. rewrite fmap_app, elem_of_app. cbn [fmap list_fmap]. by rewrite list_elem_of_singleton. }
    rewrite (decide_ext _ _ _ _ Hin). destruct (decide (a = map_address m)) as [->|Hne].
    + rewrite lookup_insert_eq, decide_True by by right. by rewrite Hbytes.
    + rewrite lookup_insert_ne, Hm by done. by repeat case_decide; try tauto.
Qed.

(** What the loop of [create] comes to, from copies held. *)
Definition outcome_fits (policy : LockPolicy) (outcome : LockOutcome) : Prop :=
  match policy with
  | kRequire => outcome = kLocked
  | kTry => outcome ≠ kNotLocked
  | kNone => outcome = kNotLocked
  end.

Lemma map_copies_spec strerror nodes policy turns copy maps outcome detail base s :
  held base maps s → outcome_fits policy outcome →
  match map_copies strerror nodes policy turns copy maps outcome detail s with
  | (Value (maps', outcome', _), s') =>
      held base maps' s' ∧ length maps' = (length maps + turns)%nat ∧ outcome_fits policy outcome'
  | (Error _, s') => mappings s' = base
  end.
Proof.
  revert copy maps outcome detail s. induction turns as [|turns IH];
    intros copy maps outcome detail s Hheld Hfits; cbn [map_copies].
  { split_and!; [done|lia|done]. }
  pose proof (map_by_policy_spec strerror (copy_request nodes copy) policy s) as Hp.
  destruct (map_by_policy _ _ _ s) as [[p|refused] s1]; unfold placed_or_not in Hp.
  - destruct Hp as (Hbytes & Hfree & Hm & _ & Hout & _); [done|].
    specialize (IH (S copy) (maps ++ [placed_mapping p])
      (if bool_decide (placed_outcome p = kFellBack) && negb (bool_decide (outcome = kFellBack))
       then kFellBack else outcome)
      (if bool_decide (placed_outcome p = kFellBack) && negb (bool_decide (outcome = kFellBack))
       then placed_detail p else detail) s1).
    rewrite length_app in IH. cbn [length] in IH. rewrite Nat.add_1_r, Nat.add_succ_comm in IH.
    apply IH; [by eapply held_snoc|]. unfold outcome_fits in *. destruct policy;
      repeat case_bool_decide; cbn; congruence.
  - destruct Hp as (Hm & _); [done|]. apply unmap_all_held. unfold held in *. by rewrite Hm.
Qed.

Lemma create_control_spec strerror initial nodes policy s :
  match create_control strerror initial nodes policy s with
  | (Value (c, maps, outcome, _), s') =>
      copies c = replicate kCopies (encode initial) ∧ repairs c = 0
      ∧ length maps = kCopies ∧ held (mappings s) maps s' ∧ outcome_fits policy outcome
  | (Error _, s') => mappings s' = mappings s
  end.
Proof.
  unfold create_control.
  pose proof (map_copies_spec strerror nodes policy kCopies 0 []
    (if decide (policy = kNone) then kNotLocked else kLocked) [] (mappings s) s) as H1.
  destruct (map_copies _ _ _ _ _ _ _ _ _) as [[[[maps outcome] detail]|refused] s1].
  - destruct H1 as (Hheld & Hl & Hfits).
    { split_and!; [constructor|constructor|]. intros a. by rewrite decide_False by apply not_elem_of_nil. }
    { by destruct policy. }
    split_and!; [|done|done|done|done]. cbn in Hl. unfold write. cbn [copies]. rewrite <- Hl.
    clear. induction maps as [|m maps IH]; [done|].
    cbn [fmap list_fmap length replicate]. f_equal. exact IH.
  - apply H1; [|by destruct policy]. split_and!; [constructor|constructor|].
    intros a. by rewrite decide_False by apply not_elem_of_nil.
Qed.

(** Mappings are made whole or not at all. A mapping under a lock policy is of the
    bytes asked for, rounded up to huge pages where those were asked for, at an address
    that was free; the kernel was asked to map, bind, advise, populate and lock it in
    that order and to do nothing else to it; and it is locked exactly when the outcome
    says so, which only [kTry] lets a refused lock change. A refusal leaves the mappings
    as they were, and is one of the lock itself only under [kRequire]. And so for the
    control state: three mappings of its own, or none. *)
Theorem mapped_whole (strerror : Z → text) (request : MappingRequest) (policy : LockPolicy)
    (initial nodes : list Z) s :
  in_u64 (requested_bytes request) →
  placed_or_not request policy s (map_by_policy strerror request policy s)
  ∧ match create_control strerror initial nodes policy s with
    | (Value (c, maps, outcome, _), s') =>
        copies c = replicate kCopies (encode initial) ∧ repairs c = 0
        ∧ length maps = kCopies ∧ held (mappings s) maps s' ∧ outcome_fits policy outcome
    | (Error _, s') => mappings s' = mappings s
    end.
Proof. intros Hb. split; [by apply map_by_policy_spec|apply create_control_spec]. Qed.

End Steps.

(** ** A kernel, for the witness

    Free addresses are handed out in order; [k_lock] is how many locks it grants. *)

Record Kernel := { k_next : Z; k_maps : gmap Z Z; k_calls : list Call; k_lock : nat }.

Definition note (c : Call) (s : Kernel) : Kernel :=
  {| k_next := k_next s; k_maps := k_maps s; k_calls := k_calls s ++ [c]; k_lock := k_lock s |}.

Definition kernel_refuses (number : Z) (name : text) : SyscallError :=
  {| number_ := number; call := name; subject := [] |}.

Definition kernel_map (length flags : Z) (s : Kernel) : Result Z SyscallError * Kernel :=
  let a := k_next s in
  if bool_decide (k_maps s !! a = None)
  then (Value a, {| k_next := a + 4096; k_maps := <[a := length]> (k_maps s);
                    k_calls := k_calls s ++ [Mapped a length flags]; k_lock := k_lock s |})
  else (Error (kernel_refuses ENOMEM (lit "mmap")), s).

Definition kernel_unmap (a length : Z) (s : Kernel) : Result unit SyscallError * Kernel :=
  if bool_decide (k_maps s !! a = Some length)
  then (Value tt, {| k_next := k_next s; k_maps := delete a (k_maps s);
                     k_calls := k_calls s ++ [Unmapped a length]; k_lock := k_lock s |})
  else (Error (kernel_refuses EINVAL (lit "munmap")), s).

Definition kernel_lock (a length : Z) (s : Kernel) : Result unit SyscallError * Kernel :=
  match k_lock s with
  | O => (Error (kernel_refuses ENOMEM (lit "mlock")), s)
  | S more => (Value tt, {| k_next := k_next s; k_maps := k_maps s;
                            k_calls := k_calls s ++ [Locked a length]; k_lock := more |})
  end.

#[export] Instance kernel_calls : MemoryCalls Kernel := {|
  map_anonymous := kernel_map;
  unmap := kernel_unmap;
  bind_memory := λ a length mask s, (Value tt, note (Bound a length mask) s);
  advise_memory := λ a length advice s, (Value tt, note (Advised a length advice) s);
  lock_memory := kernel_lock;
|}.

#[export] Program Instance kernel_laws : MemoryLaws Kernel := {| mappings := k_maps; calls_made := k_calls |}.
Next Obligation. intros. cbn in *. unfold kernel_map in *. case_bool_decide; [|done]. by simplify_eq/=. Qed.
Next Obligation. intros. cbn in *. unfold kernel_map in *. case_bool_decide; [done|]. by simplify_eq/=. Qed.
Next Obligation.
  intros a length s Hm. cbn. unfold kernel_unmap. rewrite bool_decide_true by done. by eexists.
Qed.
Next Obligation. intros. cbn in *. by simplify_eq/=. Qed.
Next Obligation. intros. cbn in *. by simplify_eq/=. Qed.
Next Obligation.
  intros. cbn in *. unfold kernel_lock in *. destruct (k_lock s); simplify_eq/=; [by rewrite app_nil_r|done].
Qed.

(** Two locks granted: the third copy of the control state falls back. *)
Definition two_locks : Kernel := {| k_next := 4096; k_maps := ∅; k_calls := []; k_lock := 2 |}.

Lemma mapped_whole_witness :
  ∃ c maps, (create_control (λ _, []) [1; 2; 3; 4; 5; 64] [0] kTry two_locks).1
            = Value (c, maps, kFellBack, describe_refused (λ _, [])
                (refuse kLock (with_lock (copy_request [0] 2) true) (kernel_refuses ENOMEM (lit "mlock"))))
            ∧ copies c = replicate kCopies (encode [1; 2; 3; 4; 5; 64]) ∧ length maps = kCopies.
Proof.
  pose proof (mapped_whole (λ _, []) (copy_request [0] 0) kTry [1; 2; 3; 4; 5; 64] [0] two_locks) as H.
  destruct H as [_ H]; [unfold in_u64; cbn; lia|].
  destruct (create_control _ _ _ _ _) as [[[[[c maps] outcome] detail]|refused] s] eqn:E.
  - destruct H as (Hc & _ & Hl & _). exists c, maps. split; [|by split].
    assert (Ew : (create_control (λ _, []) [1; 2; 3; 4; 5; 64] [0] kTry two_locks).1
      = Value (c, maps, outcome, detail)) by by rewrite E.
    vm_compute in Ew. cbn [fst]. injection Ew as <- <- <- <-. vm_compute. reflexivity.
  - exfalso. apply (f_equal fst) in E. vm_compute in E. discriminate.
Defined.
