(* ===== verification/Layout.v ===== *)
(** * verification/integrity/layout.cpp: where a working set keeps its regions

    [plan_layout] with its overflow-checked sizes. It accepts exactly the plans whose
    working set fits 64-bit sizes, and then every region it places is line-aligned,
    inside the mapping, and apart from every other. *)

From S2P Require Export Runner.

(** ** workload.hpp, layout.hpp *)

Record Plan := {
  plan_input_bytes : Z;
  plan_output_bytes : Z;
  plan_scratch_bytes : Z;
  plan_units : Z;
  plan_decomposition : Z;
  logical_bytes : Z;
  operations : Z;
}.

Record Layout := {
  layout_line_bytes : Z;
  input_bytes : Z;
  output_bytes : Z;
  units : Z;
  input_stride : Z;
  output_stride : Z;
  outputs : Z;
  regenerated : Z;
  scratch : Z;
  scratch_bytes : Z;
  layout_bytes : Z;
  mapping_bytes : Z;
}.

(** ** layout.cpp *)

Record Checked := { checked_value : Z; overflowed : bool }.

(** [Checked{value}]. *)
Definition checked (value : Z) : Checked := {| checked_value := value; overflowed := false |}.

(** [__builtin_add_overflow]: the wrapped sum, and whether it wrapped. *)
Definition checked_add (lhs rhs : Checked) : Checked :=
  let sum := checked_value lhs + checked_value rhs in
  {| checked_value := u64 sum; overflowed := (2 ^ 64 <=? sum) || overflowed lhs || overflowed rhs |}.

Definition checked_multiply (lhs rhs : Checked) : Checked :=
  let product := checked_value lhs * checked_value rhs in
  {| checked_value := u64 product;
     overflowed := (2 ^ 64 <=? product) || overflowed lhs || overflowed rhs |}.

(** [~(line - 1)] on 64 bits. *)
Definition round_up (size : Checked) (line : Z) : Checked :=
  let out := checked_add size (checked (line - 1)) in
  {| checked_value := Z.land (checked_value out) (Z.lxor (line - 1) (Z.ones 64));
     overflowed := overflowed out |}.

Definition plan_layout (plan : Plan) (threads line_bytes : Z) : Result Layout RunnerError :=
  if (line_bytes <? 8) || negb (has_single_bit line_bytes)
  then Error {| runner_fault := kConfiguration;
                runner_detail := lit "line size " ++ to_dec line_bytes
                  ++ lit " is not a power of two of at least 8 bytes" |} else
  if (plan_units plan =? 0) || (plan_input_bytes plan =? 0) || (plan_output_bytes plan =? 0)
  then Error {| runner_fault := kConfiguration;
                runner_detail := lit "the workload's plan has no unit to hold: "
                  ++ to_dec (plan_units plan) ++ lit " units of "
                  ++ to_dec (plan_input_bytes plan) ++ lit " bytes in and "
                  ++ to_dec (plan_output_bytes plan) ++ lit " out" |} else
  let slots := checked (plan_units plan) in
  let in_stride := round_up (checked (plan_input_bytes plan)) line_bytes in
  let out_stride := round_up (checked (plan_output_bytes plan)) line_bytes in
  let scratches := checked_multiply (checked (plan_scratch_bytes plan)) (checked threads) in
  let outs := checked_multiply in_stride slots in
  let again := checked_add outs (checked_multiply out_stride slots) in
  let work := checked_add again in_stride in
  let bytes := checked_add work (round_up scratches line_bytes) in
  let mapping := checked_add bytes (checked line_bytes) in
  if overflowed mapping
  then Error {| runner_fault := kResources;
                runner_detail := lit "working set: " ++ to_dec (plan_units plan) ++ lit " units of "
                  ++ to_dec (plan_input_bytes plan) ++ lit " + " ++ to_dec (plan_output_bytes plan)
                  ++ lit " bytes, with " ++ to_dec (plan_scratch_bytes plan)
                  ++ lit " bytes of scratch for each of " ++ to_dec threads
                  ++ lit " threads, does not fit in the address space" |} else
  Value {| layout_line_bytes := line_bytes; input_bytes := plan_input_bytes plan;
           output_bytes := plan_output_bytes plan; units := plan_units plan;
           input_stride := checked_value in_stride; output_stride := checked_value out_stride;
           outputs := checked_value outs; regenerated := checked_value again;
           scratch := checked_value work; scratch_bytes := checked_value scratches;
           layout_bytes := checked_value bytes; mapping_bytes := checked_value mapping |}.

(** ** The sizes, without a width *)

(** A checked size stands for a number: its value if it fits, and else overflowed. *)
Definition stands_for (c : Checked) (n : Z) : Prop :=
  0 ≤ n ∧ (if overflowed c then 2 ^ 64 ≤ n else checked_value c = n ∧ n < 2 ^ 64).

Lemma stands_checked n : in_u64 n → stands_for (checked n) n.
Proof. unfold stands_for, in_u64. cbn. lia. Qed.

Lemma stands_add a b m n :
  stands_for a m → stands_for b n → stands_for (checked_add a b) (m + n).
Proof.
  unfold stands_for, checked_add. cbn. intros [Hm Ha] [Hn Hb].
  destruct (overflowed a), (overflowed b); rewrite ?orb_true_r; cbn [orb] in *; try (split; lia).
  destruct Ha as [-> Ha], Hb as [-> Hb]. rewrite !orb_false_r.
  destruct (Z.leb_spec (2 ^ 64) (m + n)); [split; lia|].
  rewrite u64_small by (unfold in_u64; lia). split; lia.
Qed.

(** A product of something. *)
Lemma stands_multiply a b m n :
  stands_for a m → stands_for b n → (overflowed a = true → 0 < n) → (overflowed b = true → 0 < m) →
  stands_for (checked_multiply a b) (m * n).
Proof.
  unfold stands_for, checked_multiply. cbn. intros [Hm Ha] [Hn Hb] Hna Hmb.
  destruct (overflowed a), (overflowed b); rewrite ?orb_true_r; cbn [orb] in *.
  - specialize (Hna eq_refl). split; nia.
  - specialize (Hna eq_refl). split; nia.
  - specialize (Hmb eq_refl). split; nia.
  - destruct Ha as [-> Ha], Hb as [-> Hb]. rewrite !orb_false_r.
    destruct (Z.leb_spec (2 ^ 64) (m * n)); [split; nia|].
    rewrite u64_small by (unfold in_u64; nia). split; nia.
Qed.

Definition rounded (n line : Z) : Z := (n + line - 1) / line * line.

(** A line size the code accepts is a power of two. *)
Lemma line_power line : has_single_bit line = true → 0 ≤ line → ∃ k, 0 ≤ k ∧ line = 2 ^ k.
Proof.
  unfold has_single_bit. rewrite andb_true_iff, negb_true_iff, Z.eqb_neq, Z.eqb_eq. intros [Hne Hl] H0.
  exists (Z.log2 line). split; [apply Z.log2_nonneg|]. apply Z.bits_inj'. intros i Hi.
  rewrite Z.pow2_bits_eqb by apply Z.log2_nonneg. pose proof (Z.log2_spec line ltac:(lia)) as [Hlo Hhi].
  destruct (Z.eqb_spec (Z.log2 line) i) as [<-|Hni]; [by apply Z.bit_log2; lia|].
  destruct (decide (Z.log2 line < i)) as [Hgt|Hle].
  - apply Z.bits_above_log2; lia.
  - destruct (Z.testbit line i) eqn:Hb; [|done]. exfalso.
    assert (Htop : Z.testbit (line - 1) (Z.log2 line) = true).
    { assert (Hlow : 2 ^ i ≤ line - 2 ^ Z.log2 line).
      { assert (Hb2 : Z.testbit (line - 2 ^ Z.log2 line) i = true).
        { replace line with (line - 2 ^ Z.log2 line + 2 ^ Z.log2 line) in Hb by lia.
          rewrite Z.add_comm in Hb.
          assert (Hlt : i < Z.log2 line) by lia.
          rewrite <- (Z.mod_pow2_bits_low _ (Z.log2 line)) in Hb by lia.
          replace (2 ^ Z.log2 line + (line - 2 ^ Z.log2 line))
            with (line - 2 ^ Z.log2 line + 1 * 2 ^ Z.log2 line) in Hb by lia.
          rewrite Z.mod_add, Z.mod_pow2_bits_low in Hb by lia. done. }
        pose proof (Z.log2_nonneg line).
        destruct (decide (line - 2 ^ Z.log2 line < 2 ^ i)); [|lia]. exfalso.
        rewrite <- (Z.mod_small (line - 2 ^ Z.log2 line) (2 ^ i)), Z.mod_pow2_bits_high in Hb2 by lia. done. }
      assert (Hl2 : Z.log2 (line - 1) = Z.log2 line).
      { apply Z.log2_unique; [apply Z.log2_nonneg|]. assert (0 < 2 ^ i) by (apply Z.pow_pos_nonneg; lia). lia. }
      rewrite <- Hl2. apply Z.bit_log2. assert (0 < 2 ^ i) by (apply Z.pow_pos_nonneg; lia).
      assert (0 < 2 ^ Z.log2 line) by (apply Z.pow_pos_nonneg; [lia|apply Z.log2_nonneg]). lia. }
    apply (f_equal (λ z, Z.testbit z (Z.log2 line))) in Hl.
    rewrite Z.land_spec, Htop, Z.bits_0, andb_true_r in Hl.
    by rewrite Z.bit_log2 in Hl by lia.
Qed.

Lemma mask_line k v :
  0 ≤ k < 64 → 0 ≤ v < 2 ^ 64 → Z.land v (Z.lxor (2 ^ k - 1) (Z.ones 64)) = v / 2 ^ k * 2 ^ k.
Proof.
  intros Hk Hv. rewrite <- Z.shiftr_div_pow2, <- Z.shiftl_mul_pow2 by lia.
  replace (2 ^ k - 1) with (Z.ones k) by (rewrite Z.ones_equiv; lia).
  apply Z.bits_inj'. intros i Hi. rewrite Z.land_spec, Z.lxor_spec, !Z.testbit_ones_nonneg by lia.
  destruct (Z.ltb_spec i k).
  - rewrite Z.shiftl_spec_low by lia. rewrite (proj2 (Z.ltb_lt i 64)) by lia. apply andb_false_r.
  - rewrite Z.shiftl_spec, Z.shiftr_spec, Z.sub_add by lia.
    destruct (Z.ltb_spec i 64); [by rewrite andb_true_r|].
    rewrite andb_false_r. symmetry. rewrite <- (Z.mod_small v (2 ^ 64)) by lia.
    by apply Z.mod_pow2_bits_high.
Qed.

Lemma rounded_le n line : 0 < line → 0 ≤ n → n ≤ rounded n line < n + line ∧ (line | rounded n line).
Proof.
  intros Hl Hn. unfold rounded. split; [dlia|]. by exists ((n + line - 1) / line).
Qed.

Lemma stands_round_up c n k :
  0 ≤ k < 64 → stands_for c n → stands_for (round_up c (2 ^ k)) (rounded n (2 ^ k)).
Proof.
  intros Hk Hc. assert (Hp : 0 < 2 ^ k ≤ 2 ^ 63).
  { split; [apply Z.pow_pos_nonneg; lia|apply Z.pow_le_mono_r; lia]. }
  pose proof (stands_add c (checked (2 ^ k - 1)) n (2 ^ k - 1) Hc) as Hs.
  destruct Hs as [H0 Hs]; [apply stands_checked; unfold in_u64; lia|].
  destruct Hc as [Hn _]. unfold round_up. pose proof (rounded_le n (2 ^ k) ltac:(lia) Hn) as [Hr _].
  split; [lia|]. cbn [overflowed checked_value].
  destruct (overflowed (checked_add c (checked (2 ^ k - 1)))).
  - unfold rounded. assert (E : 2 ^ 64 = 2 ^ (64 - k) * 2 ^ k).
    { rewrite <- Z.pow_add_r by lia. f_equal. lia. }
    rewrite E. apply Z.mul_le_mono_nonneg_r; [lia|]. apply Z.div_le_lower_bound; lia.
  - destruct Hs as [-> Hs]. rewrite mask_line by lia.
    replace (n + (2 ^ k - 1)) with (n + 2 ^ k - 1) by lia. unfold rounded in *. split; [done|].
    assert ((n + 2 ^ k - 1) / 2 ^ k * 2 ^ k ≤ n + 2 ^ k - 1) by dlia. lia.
Qed.

(** The bytes of the mapping, as numbers. *)
Definition working_set (plan : Plan) (threads line : Z) : Z :=
  rounded (plan_input_bytes plan) line * plan_units plan
  + rounded (plan_output_bytes plan) line * plan_units plan
  + rounded (plan_input_bytes plan) line
  + rounded (plan_scratch_bytes plan * threads) line + line.

Definition plan_sized (plan : Plan) (threads : Z) : Prop :=
  in_u64 (plan_input_bytes plan) ∧ in_u64 (plan_output_bytes plan) ∧ in_u64 (plan_scratch_bytes plan)
  ∧ in_u64 (plan_units plan) ∧ in_u64 threads.

Definition line_ok (line : Z) : Prop := 8 ≤ line ∧ has_single_bit line = true.

Definition plan_holds_units (plan : Plan) : Prop :=
  plan_units plan ≠ 0 ∧ plan_input_bytes plan ≠ 0 ∧ plan_output_bytes plan ≠ 0.

(** The regions of a working set, from its line-aligned base. *)
Inductive Region := InputOf (slot : Z) | OutputOf (slot : Z) | Regenerated | ScratchArea.

Definition region_of (l : Layout) (r : Region) : Prop :=
  match r with InputOf slot | OutputOf slot => 0 ≤ slot < units l | _ => True end.

Definition region_start (l : Layout) (r : Region) : Z :=
  match r with
  | InputOf slot => slot * input_stride l
  | OutputOf slot => outputs l + slot * output_stride l
  | Regenerated => regenerated l
  | ScratchArea => scratch l
  end.

Definition region_bytes (l : Layout) (r : Region) : Z :=
  match r with
  | InputOf _ | Regenerated => input_bytes l
  | OutputOf _ => output_bytes l
  | ScratchArea => scratch_bytes l
  end.

(** A layout whose regions are on lines, inside it, and apart. *)
Definition well_laid (l : Layout) : Prop :=
  (∀ r, region_of l r →
     (layout_line_bytes l | region_start l r) ∧ 0 ≤ region_start l r
     ∧ region_start l r + region_bytes l r ≤ layout_bytes l)
  ∧ ∀ r r', region_of l r → region_of l r' → r ≠ r' →
     region_start l r + region_bytes l r ≤ region_start l r'
     ∨ region_start l r' + region_bytes l r' ≤ region_start l r.

(** The sizes a plan is laid out by. *)
Definition laid_out (plan : Plan) (threads line : Z) (l : Layout) : Prop :=
  layout_line_bytes l = line ∧ input_bytes l = plan_input_bytes plan
  ∧ output_bytes l = plan_output_bytes plan ∧ units l = plan_units plan
  ∧ input_stride l = rounded (plan_input_bytes plan) line
  ∧ output_stride l = rounded (plan_output_bytes plan) line
  ∧ outputs l = input_stride l * units l
  ∧ regenerated l = outputs l + output_stride l * units l
  ∧ scratch l = regenerated l + input_stride l
  ∧ scratch_bytes l = plan_scratch_bytes plan * threads
  ∧ layout_bytes l = scratch l + rounded (scratch_bytes l) line
  ∧ mapping_bytes l = layout_bytes l + line.

(** A run of strides. *)
Lemma stride_le stride bytes a b :
  0 ≤ bytes ≤ stride → a < b → a * stride + bytes ≤ b * stride.
Proof.
  intros Hs Hab. assert ((a + 1) * stride ≤ b * stride) by (apply Z.mul_le_mono_nonneg_r; lia). lia.
Qed.

Lemma laid_out_well plan threads line l :
  plan_sized plan threads → line_ok line → laid_out plan threads line l → well_laid l.
Proof.
  intros (Hi & Ho & Hs & Hu & Ht) [Hl _]. unfold in_u64 in *.
  intros (El & Ei & Eo & Eu & Eis & Eos & Eouts & Ere & Esc & Esb & Eb & _).
  pose proof (rounded_le (plan_input_bytes plan) line ltac:(lia) ltac:(lia)) as [Hri Hdi].
  pose proof (rounded_le (plan_output_bytes plan) line ltac:(lia) ltac:(lia)) as [Hro Hdo].
  pose proof (rounded_le (scratch_bytes l) line ltac:(lia) ltac:(nia)) as [Hrs _].
  rewrite <- Eis in *. rewrite <- Eos in *.
  assert (Hin : ∀ slot, slot < units l → slot * input_stride l + input_bytes l ≤ outputs l).
  { intros. rewrite Eouts, (Z.mul_comm _ (units l)). apply stride_le; lia. }
  assert (Hout : ∀ slot, slot < units l →
            outputs l + slot * output_stride l + output_bytes l ≤ regenerated l).
  { intros. rewrite Ere, (Z.mul_comm _ (units l)).
    pose proof (stride_le (output_stride l) (output_bytes l) slot (units l)). lia. }
  assert (Hpos : ∀ slot, 0 ≤ slot → 0 ≤ slot * input_stride l ∧ 0 ≤ slot * output_stride l).
  { intros. split; apply Z.mul_nonneg_nonneg; lia. }
  assert (H0 : 0 ≤ outputs l ∧ outputs l ≤ regenerated l).
  { rewrite Ere, Eouts. pose proof (Hpos (units l) ltac:(lia)). lia. }
  assert ((line | outputs l) ∧ (line | regenerated l)) as [Hd1 Hd2].
  { rewrite Ere, Eouts. split; [by apply Z.divide_mul_l|].
    apply Z.divide_add_r; by apply Z.divide_mul_l. }
  split.
  - intros r Hr. rewrite El. destruct r as [slot|slot| |]; cbn in *.
    + pose proof (Hpos slot). pose proof (Hin slot). split_and!; [by apply Z.divide_mul_r|lia|lia].
    + pose proof (Hpos slot). pose proof (Hout slot).
      split_and!; [apply Z.divide_add_r; [done|by apply Z.divide_mul_r]|lia|lia].
    + split_and!; [done|lia|lia].
    + split_and!; [rewrite Esc; by apply Z.divide_add_r|lia|lia].
  - intros [a|a| |] [b|b| |] Ha Hb Hne; cbn in *; try done;
      try pose proof (Hin a); try pose proof (Hin b); try pose proof (Hout a); try pose proof (Hout b);
      try pose proof (Hpos a); try pose proof (Hpos b); try lia.
    + destruct (Z.lt_trichotomy a b) as [Hab|[->|Hab]]; [left|done|right];
        apply stride_le; lia.
    + destruct (Z.lt_trichotomy a b) as [Hab|[->|Hab]]; [left|done|right].
      * pose proof (stride_le (output_stride l) (output_bytes l) a b). lia.
      * pose proof (stride_le (output_stride l) (output_bytes l) b a). lia.
Qed.

Lemma plan_layout_sizes plan threads line :
  plan_sized plan threads → line_ok line → in_u32 line → plan_holds_units plan →
  match plan_layout plan threads line with
  | Value l => working_set plan threads line < 2 ^ 64 ∧ laid_out plan threads line l
  | Error e => runner_fault e = kResources ∧ 2 ^ 64 ≤ working_set plan threads line
  end.
Proof.
  intros (Hi & Ho & Hs & Hu & Ht) [H8 Hbit] Hline (Hun & Hin & Hon). unfold plan_layout.
  rewrite (proj2 (Z.ltb_ge _ _) H8), Hbit. cbn [negb orb].
  rewrite !(proj2 (Z.eqb_neq _ _)) by done. cbn [orb].
  destruct (line_power line Hbit ltac:(lia)) as (k & Hk0 & ->).
  assert (Hk : 0 ≤ k < 64).
  { split; [done|]. unfold in_u32 in Hline. apply (Z.pow_lt_mono_r_iff 2); lia. }
  pose proof (stands_round_up _ _ k Hk (stands_checked _ Hi)) as Sin.
  pose proof (stands_round_up _ _ k Hk (stands_checked _ Ho)) as Sout.
  pose proof (stands_checked _ Hu) as Su.
  pose proof (stands_multiply _ _ _ _ (stands_checked _ Hs) (stands_checked _ Ht)
    ltac:(done) ltac:(done)) as Sscr.
  unfold in_u64 in Hi, Ho, Hs, Hu, Ht.
  pose proof (stands_multiply _ _ _ _ Sin Su ltac:(lia) ltac:(done)) as Souts.
  pose proof (stands_multiply _ _ _ _ Sout Su ltac:(lia) ltac:(done)) as Souts2.
  pose proof (stands_add _ _ _ _ Souts Souts2) as Sre.
  pose proof (stands_add _ _ _ _ Sre Sin) as Ssc.
  pose proof (stands_add _ _ _ _ Ssc (stands_round_up _ _ k Hk Sscr)) as Sb.
  assert (Hl64 : in_u64 (2 ^ k)) by (unfold in_u64, in_u32 in *; lia).
  pose proof (stands_add _ _ _ _ Sb (stands_checked _ Hl64)) as Smap.
  fold (working_set plan threads (2 ^ k)) in Smap.
  pose proof (proj1 Sin). pose proof (proj1 Sout). pose proof (proj1 Souts). pose proof (proj1 Souts2).
  pose proof (rounded_le (plan_scratch_bytes plan * threads) (2 ^ k) ltac:(lia) (proj1 Sscr)) as [Hr _].
  destruct Smap as [Hmap0 Hmap].
  destruct (overflowed (checked_add _ (checked (2 ^ k)))) eqn:Hover; [split; [reflexivity|exact Hmap]|].
  destruct Hmap as [Emap Hmap]. split; [exact Hmap|]. pose proof (proj1 Sscr).
  unfold working_set in Hmap, Emap. unfold laid_out.
  cbn [layout_line_bytes input_bytes output_bytes units input_stride output_stride outputs
       regenerated scratch scratch_bytes layout_bytes mapping_bytes].
  assert (Hval : ∀ c n, stands_for c n → n < 2 ^ 64 → checked_value c = n).
  { intros c n [_ Hc] Hn. destruct (overflowed c); [lia|]. by destruct Hc. }
  rewrite Emap, (Hval _ _ Sin), (Hval _ _ Sout), (Hval _ _ Souts), (Hval _ _ Sre), (Hval _ _ Ssc),
    (Hval _ _ Sscr), (Hval _ _ Sb) by lia.
  split_and!; reflexivity.
Qed.

Lemma working_set_nonneg plan threads line :
  plan_sized plan threads → line_ok line → 0 ≤ working_set plan threads line.
Proof.
  intros (Hi & Ho & Hs & Hu & Ht) [Hl _]. unfold in_u64 in *.
  assert (Hst : 0 ≤ plan_scratch_bytes plan * threads) by nia.
  pose proof (rounded_le (plan_input_bytes plan) line ltac:(lia) ltac:(lia)) as [Hri _].
  pose proof (rounded_le (plan_output_bytes plan) line ltac:(lia) ltac:(lia)) as [Hro _].
  pose proof (rounded_le (plan_scratch_bytes plan * threads) line ltac:(lia) Hst) as [Hrs _].
  unfold working_set. nia.
Qed.

(** What a plan that is laid out is, and what one that is not is refused as. *)
Lemma plan_layout_accepts plan threads line :
  match plan_layout plan threads line with
  | Value _ => line_ok line ∧ plan_holds_units plan
  | Error e => runner_fault e ≠ kFinished
  end.
Proof.
  unfold plan_layout, line_ok, plan_holds_units.
  destruct (Z.ltb_spec line 8); [done|]. destruct (has_single_bit line); [|done].
  destruct (Z.eqb_spec (plan_units plan) 0); [done|].
  destruct (Z.eqb_spec (plan_input_bytes plan) 0); [done|].
  destruct (Z.eqb_spec (plan_output_bytes plan) 0); [done|]. cbn [negb orb]. cbv zeta.
  destruct (overflowed _); [done|]. by split_and!.
Qed.

(** C37 The layout of a working set is decided exactly. On sizes of 64 bits, a plan is
    laid out when its line size is a power of two of at least 8, it holds units, and the
    whole working set, strides rounded up to lines and scratch for every thread
    included, is less than 2^64 bytes; otherwise it is refused for what it breaks.
    Laid out, every slot's input and output, the regeneration buffer and the scratch
    start on a line, lie inside the layout, and share no byte, and the mapping is the
    layout and one line of slack. *)
Theorem plan_layout_exact (plan : Plan) (threads line : Z) :
  plan_sized plan threads → in_u32 line →
  match plan_layout plan threads line with
  | Value l =>
      line_ok line ∧ plan_holds_units plan ∧ working_set plan threads line < 2 ^ 64
      ∧ laid_out plan threads line l ∧ mapping_bytes l = working_set plan threads line ∧ well_laid l
  | Error e =>
      runner_fault e = kConfiguration ∧ ¬ (line_ok line ∧ plan_holds_units plan)
      ∨ runner_fault e = kResources ∧ line_ok line ∧ plan_holds_units plan
        ∧ 2 ^ 64 ≤ working_set plan threads line
  end.
Proof.
  intros Hsized Hline.
  destruct (decide (8 ≤ line ∧ has_single_bit line = true)) as [Hok|Hbad].
  - destruct (decide (plan_units plan ≠ 0 ∧ plan_input_bytes plan ≠ 0 ∧ plan_output_bytes plan ≠ 0))
      as [Hun|Hun].
    + pose proof (plan_layout_sizes plan threads line Hsized Hok Hline Hun) as Hs.
      destruct (plan_layout plan threads line) as [l|e].
      * destruct Hs as [Hfit Hl]. pose proof (laid_out_well plan threads line l Hsized Hok Hl) as Hwell.
        split_and!; try done; destruct Hl as (El & Ei & Eo & Eu & Eis & Eos & Eouts & Ere & Esc & Esb & Eb & Em);
          try done. rewrite Em, Eb, Esc, Ere, Eouts, Esb, Eis, Eos, Eu. done.
      * right. destruct Hs as [Hf Hs]. split_and!; done.
    + unfold plan_layout. destruct Hok as [H8 ->]. rewrite (proj2 (Z.ltb_ge _ _) H8). cbn [negb orb].
      destruct ((plan_units plan =? 0) || (plan_input_bytes plan =? 0) || (plan_output_bytes plan =? 0)) eqn:E.
      * left. split; [reflexivity|]. by intros [_ ?].
      * exfalso. apply Hun. rewrite !orb_false_iff, !Z.eqb_neq in E. tauto.
  - unfold plan_layout.
    destruct ((line <? 8) || negb (has_single_bit line)) eqn:E.
    + left. split; [reflexivity|]. by intros [? _].
    + exfalso. apply Hbad. rewrite orb_false_iff, negb_false_iff, Z.ltb_ge in E. tauto.
Qed.

Definition sample_plan : Plan :=
  {| plan_input_bytes := 100; plan_output_bytes := 65; plan_scratch_bytes := 10; plan_units := 3;
     plan_decomposition := 4; logical_bytes := 0; operations := 0 |}.

Lemma plan_layout_exact_witness :
  ∃ l, plan_layout sample_plan 2 64 = Value l ∧ mapping_bytes l = 1024 ∧ well_laid l.
Proof.
  assert (E : plan_layout sample_plan 2 64 = Value
    {| layout_line_bytes := 64; input_bytes := 100; output_bytes := 65; units := 3;
       input_stride := 128; output_stride := 128; outputs := 384; regenerated := 768;
       scratch := 896; scratch_bytes := 20; layout_bytes := 960; mapping_bytes := 1024 |})
    by (vm_compute; reflexivity).
  pose proof (plan_layout_exact sample_plan 2 64) as H. rewrite E in H |- *.
  assert (Hs : plan_sized sample_plan 2) by (unfold plan_sized, in_u64; cbn; lia).
  assert (Hl : in_u32 64) by (unfold in_u32; lia).
  specialize (H Hs Hl). cbv beta iota in H. destruct H as (_ & _ & _ & _ & _ & Hw).
  eexists. split; [reflexivity|]. split; [reflexivity|exact Hw].
Defined.
