(* ===== verification/SliceRunner.v ===== *)
(** * verification/integrity/slice_runner.cpp: units inside their bracket

    [IntegrityRunner]: a unit written, opened, computed, checked and closed, its values
    voted from the control state, its findings error records; slices of units; and what
    a finished run says it did not check. The workload and the oracle are records of
    what they promise (workloads/workload.hpp, verification/oracle.hpp). The memory may
    change under the runner: a [Weather] says what happens to the copies of the control
    state before a vote, and to the working set between the steps of a unit; the runner
    of the source is the one in calm weather. *)

From S2P Require Export Oracle ControlState Layout.

(** ** What a workload and an oracle are *)

Record Workload := {
  descriptor_name : text;
  descriptor_contract : Contract;
  workload_plan : Plan;
  generate : Z → list byte;
  compute : Z → list byte → list byte → list byte → list byte * list byte;
}.

(** [generate] fills the input; [compute] writes the output and the scratch. *)
Class WorkloadLaws (w : Workload) (threads : Z) := {
  generate_size k : size_of (generate w k) = plan_input_bytes (workload_plan w);
  compute_sizes k input output scratch :
    size_of input = plan_input_bytes (workload_plan w) →
    size_of output = plan_output_bytes (workload_plan w) →
    size_of scratch = plan_scratch_bytes (workload_plan w) * threads →
    size_of (compute w k input output scratch).1 = size_of output
    ∧ size_of (compute w k input output scratch).2 = size_of scratch;
}.

(** What [check] comes to: a verdict, or an exception, of the standard kind or not. *)
Inductive OracleAnswer := Answered (verdict : Verdict) | Threw (words : option text).

Record Oracle := {
  oracle_workload : text;
  oracle_contract : Contract;
  oracle_check : Z → UnitEvidence → OracleAnswer;
}.

(** An oracle that agrees with what its workload computes from a unit's own input,
    whatever the buffers held before. *)
Class OracleAgrees (w : Workload) (oracle : Oracle) (threads : Z) := {
  agrees k output scratch :
    size_of output = plan_output_bytes (workload_plan w) →
    size_of scratch = plan_scratch_bytes (workload_plan w) * threads →
    ∃ blocks, 1 ≤ blocks ∧
      oracle_check oracle k {| unit_input := generate w k;
                               unit_output := (compute w k (generate w k) output scratch).1 |}
      = Answered (Agreement blocks);
}.

(** ** record.hpp: InputIntegrity *)

Definition kInputIntact : Z := 0.
Definition kCorruptBeforeConsumption : Z := 1.
Definition kCorruptDuringConsumption : Z := 2.

(** ** Weather *)

Inductive Point := BeforeOpen | BeforeCompute | BeforeCheck | BeforeClose.

Record Weather := {
  on_copies : list (list byte) → list (list byte);
  on_memory : Point → list byte → list byte;
}.

Definition calm : Weather := {| on_copies := id; on_memory := λ _, id |}.

(** ** slice_runner.cpp *)

Definition bounded (t : text) : text :=
  if kMaxTextBytes <? size_of t then take (Z.to_nat kMaxTextBytes) t else t.

Definition not_performed_record (where_ : Provenance) (subject reason : text) (blocks : Z) : ErrorRecord :=
  NotPerformed {| not_performed_provenance := where_; what := subject; why := reason;
                  blocks_compared := blocks |}.

Definition blocks_of (verdict : Verdict) : Z :=
  match verdict with
  | Agreement b | ExactMismatch _ _ b | BoundedMismatch _ _ _ _ _ b | NotChecked _ _ b => b
  end.

(** [verdict.index()]. *)
Definition verdict_index (verdict : Verdict) : Z :=
  match verdict with
  | Agreement _ => 0 | ExactMismatch _ _ _ => 1 | BoundedMismatch _ _ _ _ _ _ => 2
  | NotChecked _ _ _ => 3
  end.

(** [++tally.x] is the sum with a tally of one. *)
Definition count_computed : Tally :=
  {| units_computed := 1; oracle_checked := 0; oracle_blocks := 0; oracle_failed := 0;
     oracle_not_performed := 0; integrity_checked := 0; integrity_failed := 0 |}.
Definition count_checked : Tally :=
  {| units_computed := 0; oracle_checked := 1; oracle_blocks := 0; oracle_failed := 0;
     oracle_not_performed := 0; integrity_checked := 0; integrity_failed := 0 |}.
Definition count_blocks (blocks : Z) : Tally :=
  {| units_computed := 0; oracle_checked := 0; oracle_blocks := blocks; oracle_failed := 0;
     oracle_not_performed := 0; integrity_checked := 0; integrity_failed := 0 |}.
Definition count_failed : Tally :=
  {| units_computed := 0; oracle_checked := 0; oracle_blocks := 0; oracle_failed := 1;
     oracle_not_performed := 0; integrity_checked := 0; integrity_failed := 0 |}.
Definition count_not_performed : Tally :=
  {| units_computed := 0; oracle_checked := 0; oracle_blocks := 0; oracle_failed := 0;
     oracle_not_performed := 1; integrity_checked := 0; integrity_failed := 0 |}.
Definition count_bracketed : Tally :=
  {| units_computed := 0; oracle_checked := 0; oracle_blocks := 0; oracle_failed := 0;
     oracle_not_performed := 0; integrity_checked := 1; integrity_failed := 0 |}.
Definition count_corrupt : Tally :=
  {| units_computed := 0; oracle_checked := 0; oracle_blocks := 0; oracle_failed := 0;
     oracle_not_performed := 0; integrity_checked := 0; integrity_failed := 1 |}.

Record Unit := {
  unit_index : Z;
  unit_duty : DutyCycle;
  unit_line_bytes : Z;
  unit_seed : option Z;
  input_offset : Z;
  output_offset : Z;
}.

Definition with_integrity (p : Provenance) (integrity : Z) : Provenance :=
  {| logical_cpu := logical_cpu p; physical_package := physical_package p;
     physical_core := physical_core p; numa_node := numa_node p;
     buffer_address := buffer_address p; buffer_offset := buffer_offset p;
     iteration := iteration p; prov_workload := prov_workload p;
     workload_version := workload_version p; seed := seed p; isa := isa p;
     input_integrity := Some integrity; duty := duty p; decomposition := decomposition p;
     footprint_bytes := footprint_bytes p |}.

(** The [std::visit] that sets a record's input integrity. *)
Definition set_integrity (record : ErrorRecord) (integrity : Z) : ErrorRecord :=
  match record with
  | Exactly r => Exactly {| exact_provenance := with_integrity (exact_provenance r) integrity;
                            side := side r; exact_check := exact_check r;
                            difference := difference r; line_bytes := line_bytes r |}
  | Numerically r =>
      Numerically {| numerical_provenance := with_integrity (numerical_provenance r) integrity;
                     numerical_check := numerical_check r; residual := residual r;
                     tolerance := tolerance r; condition_number := condition_number r;
                     element := element r |}
  | NotPerformed r =>
      NotPerformed {| not_performed_provenance := with_integrity (not_performed_provenance r) integrity;
                      what := what r; why := why r; blocks_compared := blocks_compared r |}
  end.

(** [period != 0 && index % period == 0]. *)
Definition due (period index : Z) : bool := negb (period =? 0) && (index mod period =? 0).

(** What changes as a runner runs. *)
Record RunnerState := {
  r_memory : list byte;
  r_control : ControlState;
  r_total : Tally;
  r_next_index : Z;
  r_finished : bool;
  r_halted : bool;
  r_halt_detail : text;
}.

Definition with_memory (r : RunnerState) (memory : list byte) : RunnerState :=
  {| r_memory := memory; r_control := r_control r; r_total := r_total r;
     r_next_index := r_next_index r; r_finished := r_finished r; r_halted := r_halted r;
     r_halt_detail := r_halt_detail r |}.

Definition with_control (r : RunnerState) (control : ControlState) : RunnerState :=
  {| r_memory := r_memory r; r_control := control; r_total := r_total r;
     r_next_index := r_next_index r; r_finished := r_finished r; r_halted := r_halted r;
     r_halt_detail := r_halt_detail r |}.

(** The report as it is made: its tally and its records. *)
Definition Report : Type := Tally * list ErrorRecord.

Section Runner.
Context (w : Workload) (oracle : Oracle) (base_ : Provenance) (duty_ : DutyCycle)
  (layout : Layout) (start_address slack : Z).

Definition run_provenance : Provenance :=
  {| logical_cpu := logical_cpu base_; physical_package := physical_package base_;
     physical_core := physical_core base_; numa_node := numa_node base_;
     buffer_address := buffer_address base_; buffer_offset := buffer_offset base_;
     iteration := iteration base_; prov_workload := prov_workload base_;
     workload_version := workload_version base_; seed := seed base_; isa := isa base_;
     input_integrity := input_integrity base_; duty := Some duty_;
     decomposition := decomposition base_; footprint_bytes := footprint_bytes base_ |}.

(** [at(unit, offset, integrity)]. *)
Definition unit_provenance (u : Unit) (offset integrity : Z) : Provenance :=
  {| logical_cpu := logical_cpu base_; physical_package := physical_package base_;
     physical_core := physical_core base_; numa_node := numa_node base_;
     buffer_address := Some (u64 (start_address + offset)); buffer_offset := Some offset;
     iteration := Some (unit_index u); prov_workload := prov_workload base_;
     workload_version := workload_version base_; seed := unit_seed u; isa := isa base_;
     input_integrity := Some integrity; duty := Some (unit_duty u);
     decomposition := decomposition base_; footprint_bytes := footprint_bytes base_ |}.

Definition input_record (u : Unit) (d : Difference) (integrity : Z) : ErrorRecord :=
  Exactly {| exact_provenance := unit_provenance u (input_offset u) integrity; side := kInput;
             exact_check := lit "input against its regeneration"; difference := Some d;
             line_bytes := unit_line_bytes u |}.

Definition unit_of (words : list Z) : Unit :=
  let index := word words kIndex in
  let slot := index mod units layout in
  {| unit_index := index;
     unit_duty := {| oracle_period := u32 (word words kOraclePeriod);
                     integrity_period := u32 (word words kIntegrityPeriod) |};
     unit_line_bytes := u32 (word words kLineBytes);
     unit_seed := if word words kSeedPresent =? 0 then None else Some (word words kSeed);
     input_offset := slack + slot * input_stride layout;
     output_offset := slack + outputs layout + slot * output_stride layout |}.

(** Step 4: the verdict on the unit, as a record when it is one. *)
Definition check_unit (u : Unit) (evidence : UnitEvidence) (t : Tally) : option ErrorRecord * Tally :=
  let t := add_tally t count_checked in
  let where_ := unit_provenance u (output_offset u) kNotChecked in
  let subject := bounded (lit "oracle check of " ++ descriptor_name w ++ lit " unit "
                          ++ to_dec (unit_index u)) in
  match oracle_check oracle (unit_index u) evidence with
  | Threw words =>
      let reason := bounded (match words with
        | Some words => lit "the oracle threw: " ++ words
        | None => lit "the oracle threw something that is not a std::exception" end) in
      (Some (not_performed_record where_ subject reason 0), add_tally t count_not_performed)
  | Answered verdict =>
      if negb (keeps_rules verdict (oracle_contract oracle))
      then (Some (not_performed_record where_ subject
                    (lit "the oracle's verdict (alternative " ++ to_dec (verdict_index verdict)
                     ++ lit ") breaks the oracle contract") 0), add_tally t count_not_performed) else
      let t := add_tally t (count_blocks (blocks_of verdict)) in
      match verdict with
      | Agreement _ => (None, t)
      | ExactMismatch check diff _ =>
          (Some (Exactly {| exact_provenance := where_; side := kOutput; exact_check := check;
                            difference := diff; line_bytes := unit_line_bytes u |}),
           add_tally t count_failed)
      | BoundedMismatch check resid tol cond elem _ =>
          (Some (Numerically {| numerical_provenance := where_; numerical_check := check;
                                residual := resid; tolerance := tol; condition_number := cond;
                                element := elem |}), add_tally t count_failed)
      | NotChecked subject reason blocks =>
          (Some (not_performed_record where_ subject reason blocks), add_tally t count_not_performed)
      end
  end.

(** The next index, in all three copies. *)
Definition advance (words : list Z) (index : Z) (r : RunnerState) : RunnerState :=
  {| r_memory := r_memory r; r_control := write (set_word words kIndex (u64 (index + 1))) (r_control r);
     r_total := r_total r; r_next_index := u64 (index + 1); r_finished := r_finished r;
     r_halted := r_halted r; r_halt_detail := r_halt_detail r |}.

(** The control state decided nothing. *)
Definition halt (failure : VoteFailure) (r : RunnerState) (report : Report) : RunnerState * Report :=
  let reason := describe_vote_failure failure in
  ({| r_memory := r_memory r; r_control := r_control r; r_total := r_total r;
      r_next_index := r_next_index r; r_finished := r_finished r; r_halted := true;
      r_halt_detail := lit "the run stopped before unit " ++ to_dec (r_next_index r) ++ lit ": " ++ reason |},
   (report.1, report.2 ++ [not_performed_record run_provenance
      (bounded (lit "control state of the " ++ descriptor_name w ++ lit " run"))
      (bounded (reason ++ lit "; the run stops rather than pick a value")) 0])).

(** Regenerating a unit's input and comparing it with the slot's. *)
Definition bracket (weather : Weather) (point : Point) (u : Unit) (memory : list byte) :
    option (list byte * option Difference) :=
  memory ← blit memory (slack + regenerated layout) (generate w (unit_index u));
  let memory := on_memory weather point memory in
  again ← subspan memory (slack + regenerated layout) (input_bytes layout);
  input ← subspan memory (input_offset u) (input_bytes layout);
  d ← compare_stored again input;
  Some (memory, d).
(** [run_unit]: false when the control state could not be decided. *)
Definition run_unit (weather : Weather) (r : RunnerState) (report : Report) :
    option (bool * RunnerState * Report) :=
  let (voted, control) := read {| copies := on_copies weather (copies (r_control r));
                                  repairs := repairs (r_control r) |} in
  let r := with_control r control in
  match voted with
  | Error failure => let (r, report) := halt failure r report in Some (false, r, report)
  | Value words =>
      let u := unit_of words in
      let bracketed := due (integrity_period (unit_duty u)) (unit_index u) in
      let sampled := due (oracle_period (unit_duty u)) (unit_index u) in
      memory ← blit (r_memory r) (input_offset u) (generate w (unit_index u));
      '(memory, opened) ← (if bracketed then bracket weather BeforeOpen u memory else Some (memory, None));
      let t := if bracketed then add_tally report.1 count_bracketed else report.1 in
      match opened with
      | Some d =>
          Some (true, advance words (unit_index u) (with_memory r memory),
                (add_tally t count_corrupt, report.2 ++ [input_record u d kCorruptBeforeConsumption]))
      | None =>
          let memory := on_memory weather BeforeCompute memory in
          input ← subspan memory (input_offset u) (input_bytes layout);
          output ← subspan memory (output_offset u) (output_bytes layout);
          work ← subspan memory (slack + scratch layout) (scratch_bytes layout);
          let (output, work) := compute w (unit_index u) input output work in
          memory ← blit memory (output_offset u) output;
          memory ← blit memory (slack + scratch layout) work;
          let t := add_tally t count_computed in
          let memory := on_memory weather BeforeCheck memory in
          input ← subspan memory (input_offset u) (input_bytes layout);
          output ← subspan memory (output_offset u) (output_bytes layout);
          let (checked, t) :=
            if sampled then check_unit u {| unit_input := input; unit_output := output |} t else (None, t) in
          '(memory, closed) ← (if bracketed then bracket weather BeforeClose u memory else Some (memory, None));
          let integrity :=
            if bracketed then match closed with Some _ => kCorruptDuringConsumption | None => kInputIntact end
            else kNotChecked in
          let t := match closed with Some _ => add_tally t count_corrupt | None => t end in
          Some (true, advance words (unit_index u) (with_memory r memory),
                (t, report.2
                    ++ from_option (λ record, [set_integrity record integrity]) [] checked
                    ++ from_option (λ d, [input_record u d integrity]) [] closed))
      end
  end.

(** The loop of [run_slice], one unit for each weather. *)
Fixpoint run_units (weathers : list Weather) (r : RunnerState) (report : Report) :
    option (RunnerState * Report) :=
  match weathers with
  | [] => Some (r, report)
  | weather :: weathers =>
      '(go, r, report) ← run_unit weather r report;
      if (go : bool) then run_units weathers r report else Some (r, report)
  end.

Definition with_total (r : RunnerState) (total : Tally) (finished : bool) : RunnerState :=
  {| r_memory := r_memory r; r_control := r_control r; r_total := total;
     r_next_index := r_next_index r; r_finished := finished; r_halted := r_halted r;
     r_halt_detail := r_halt_detail r |}.

Definition run_slice (weathers : list Weather) (r : RunnerState) :
    option (Result SliceReport RunnerError * RunnerState) :=
  if r_finished r
  then Some (Error {| runner_fault := kFinished; runner_detail := lit "run_slice() after finish()" |}, r) else
  if r_halted r
  then Some (Error {| runner_fault := kFinished; runner_detail := r_halt_detail r |}, r) else
  '(r, report) ← run_units weathers r (no_tally, []);
  Some (Value {| slice_tally := report.1; slice_records := report.2; slice_next_index := r_next_index r |},
        with_total r (add_tally (r_total r) report.1) (r_finished r)).

Definition finish (r : RunnerState) : Result SliceReport RunnerError * RunnerState :=
  if r_finished r
  then (Error {| runner_fault := kFinished; runner_detail := lit "finish() after finish()" |}, r) else
  let total := r_total r in
  let name := descriptor_name w in
  let no_oracle := not_performed_record run_provenance (bounded (lit "oracle over " ++ name ++ lit " units"))
    (bounded (lit "no block was compared: an oracle period of " ++ to_dec (oracle_period duty_)
       ++ lit " over " ++ to_dec (units_computed total) ++ lit " units computed gave "
       ++ to_dec (oracle_checked total) ++ lit " to the oracle")) 0 in
  let no_bracket := not_performed_record run_provenance
    (bounded (lit "input-integrity bracket over " ++ name ++ lit " units"))
    (bounded (lit "no unit was bracketed: an integrity period of " ++ to_dec (integrity_period duty_)
       ++ lit " over " ++ to_dec (units_computed total) ++ lit " units computed")) 0 in
  (Value {| slice_tally := no_tally;
            slice_records := (if oracle_blocks total =? 0 then [no_oracle] else [])
                             ++ (if integrity_checked total =? 0 then [no_bracket] else []);
            slice_next_index := r_next_index r |},
   with_total r total true).

End Runner.

(** The constructor: the workload's name cut to what a record carries, and the base
    aligned to a line. *)
Definition runner_base (base : Provenance) : Provenance :=
  {| logical_cpu := logical_cpu base; physical_package := physical_package base;
     physical_core := physical_core base; numa_node := numa_node base;
     buffer_address := buffer_address base; buffer_offset := buffer_offset base;
     iteration := iteration base; prov_workload := bounded <$> prov_workload base;
     workload_version := workload_version base; seed := seed base; isa := isa base;
     input_integrity := input_integrity base; duty := duty base;
     decomposition := decomposition base; footprint_bytes := footprint_bytes base |}.

Definition slack_of (start_address line : Z) : Z :=
  Z.land (u64 (start_address + line - 1)) (Z.lxor (line - 1) (Z.ones 64)) - start_address.

(** The control words [make_slice_runner] starts from. *)
Definition initial_words (base : Provenance) (duty_ : DutyCycle) (first_index line : Z) : list Z :=
  [ default 0 (seed base); if bool_decide (is_Some (seed base)) then 1 else 0; first_index;
    oracle_period duty_; integrity_period duty_; line ].

Definition start_runner (layout : Layout) (control : ControlState) (memory : list byte)
    (first_index : Z) : RunnerState :=
  {| r_memory := memory; r_control := control; r_total := no_tally; r_next_index := first_index;
     r_finished := false; r_halted := false; r_halt_detail := [] |}.

(** ** The regions of the memory *)

Section Facts.
Context (w : Workload) (oracle : Oracle) (base_ : Provenance) (duty_ : DutyCycle)
  (layout : Layout) (start_address slack threads : Z).
Context `{Hlaws : !WorkloadLaws w threads}.

Abbreviation line := (layout_line_bytes layout).

(** What [make_slice_runner] has checked and made. *)
Record runner_setup : Prop := {
  setup_sized : plan_sized (workload_plan w) threads;
  setup_units : plan_holds_units (workload_plan w);
  setup_line : line_ok line ∧ in_u32 line;
  setup_laid : laid_out (workload_plan w) threads line layout;
  setup_slack : 0 ≤ slack < line;
  setup_fits : 8 * mapping_bytes layout < 2 ^ 64;
  setup_duty : in_u32 (oracle_period duty_) ∧ in_u32 (integrity_period duty_);
  setup_seed : from_option in_u64 True (seed base_);
  setup_base : opt_test (λ name, size_of name <=? kMaxTextBytes) (prov_workload base_) = true
               ∧ opt_test (λ path, path <? kIsaPathCount) (isa base_) = true
               ∧ opt_test (λ i, i <=? kNotChecked) (input_integrity base_) = true;
}.
Hypothesis setup : runner_setup.

Definition memory_ok (m : list byte) : Prop := size_of m = mapping_bytes layout.

Definition piece (m : list byte) (r : Region) : list byte :=
  take (Z.to_nat (region_bytes layout r)) (drop (Z.to_nat (slack + region_start layout r)) m).
Definition put (m : list byte) (r : Region) (bs : list byte) : list byte :=
  splice m (slack + region_start layout r) bs.

Lemma well : well_laid layout.
Proof. destruct setup. by eapply laid_out_well; [| |done]; [|apply setup_line0]. Qed.

Lemma region_fits r :
  region_of layout r →
  0 ≤ slack + region_start layout r ∧ 0 ≤ region_bytes layout r
  ∧ slack + region_start layout r + region_bytes layout r ≤ mapping_bytes layout.
Proof.
  intros Hr. destruct well as [Hin _]. destruct (Hin r Hr) as (_ & H0 & Hend).
  destruct setup as [Hsized _ _ Hlaid Hslack _ _ _ _].
  destruct Hsized as (Hi & Ho & Hs & Hu & Ht). unfold in_u64 in *.
  destruct Hlaid as (_ & Ei & Eo & _ & _ & _ & _ & _ & _ & Esb & Eb & Em).
  split_and!; [lia| |lia]. destruct r; cbn; [lia|lia|lia|]. rewrite Esb. apply Z.mul_nonneg_nonneg; lia.
Qed.

Lemma piece_subspan m r :
  memory_ok m → region_of layout r →
  subspan m (slack + region_start layout r) (region_bytes layout r) = Some (piece m r)
  ∧ size_of (piece m r) = region_bytes layout r.
Proof.
  intros Hm Hr. destruct (region_fits r Hr) as (H0 & Hb & Hend). unfold memory_ok in Hm. split.
  - apply subspan_take_drop; lia.
  - unfold piece. rewrite size_of_take; [done|]. rewrite size_of_drop; lia.
Qed.

Lemma put_blit m r bs :
  memory_ok m → region_of layout r → size_of bs = region_bytes layout r →
  blit m (slack + region_start layout r) bs = Some (put m r bs) ∧ memory_ok (put m r bs).
Proof.
  intros Hm Hr Hs. destruct (region_fits r Hr) as (H0 & Hb & Hend). unfold memory_ok in *. split.
  - apply blit_splice; lia.
  - unfold put. rewrite size_of_splice; lia.
Qed.

Lemma piece_put m r bs :
  memory_ok m → region_of layout r → size_of bs = region_bytes layout r → piece (put m r bs) r = bs.
Proof.
  intros Hm Hr Hs. destruct (region_fits r Hr) as (H0 & Hb & Hend). unfold memory_ok in *.
  unfold piece, put, splice. rewrite drop_app_length' by (rewrite length_take; unfold size_of in *; lia).
  apply take_app_length'. unfold size_of in *. lia.
Qed.

(** What a region holds is not changed by another's write. *)
Lemma piece_put_other m r r' bs :
  memory_ok m → region_of layout r → region_of layout r' → r ≠ r' →
  size_of bs = region_bytes layout r → piece (put m r bs) r' = piece m r'.
Proof.
  intros Hm Hr Hr' Hne Hs. destruct (region_fits r Hr) as (H0 & Hb & Hend).
  destruct (region_fits r' Hr') as (H0' & Hb' & Hend'). destruct well as [_ Hapart].
  pose proof (Hapart r r' Hr Hr' Hne) as Hd. unfold memory_ok in Hm. unfold piece, put, splice, size_of in *.
  destruct Hd as [Hd|Hd].
  - f_equal. rewrite drop_app_ge by (rewrite length_take; lia). rewrite length_take.
    rewrite drop_app_ge by lia. rewrite drop_drop. f_equal. lia.
  - rewrite drop_app_le by (rewrite length_take; lia).
    rewrite take_app_le by (rewrite length_drop, length_take; lia).
    rewrite <- (take_drop (Z.to_nat (slack + region_start layout r)) m) at 2.
    rewrite drop_app_le by (rewrite length_take; lia).
    rewrite take_app_le by (rewrite length_drop, length_take; lia). done.
Qed.

(** ** What a unit does *)

Definition words_at (k : Z) : list Z := initial_words base_ duty_ k line.
Definition unit_at (k : Z) : Unit := unit_of layout slack (words_at k).
Definition slot_of (k : Z) : Z := k mod units layout.
Definition input_region (k : Z) : Region := InputOf (slot_of k).
Definition output_region (k : Z) : Region := OutputOf (slot_of k).
Definition bracketed (k : Z) : bool := due (integrity_period duty_) k.
Definition sampled (k : Z) : bool := due (oracle_period duty_) k.

(** Weather that the buffers' and copies' sizes survive, and two copies at each vote. *)
Definition steady (weather : Weather) : Prop :=
  (∀ p m, size_of (on_memory weather p m) = size_of m)
  ∧ ∃ hit, ∀ cs, Forall copy_ok cs → Forall copy_ok (on_copies weather cs)
      ∧ length (on_copies weather cs) = length cs
      ∧ ∀ j, j ≠ hit → on_copies weather cs !! j = cs !! j.

Lemma calm_steady : steady calm.
Proof. split; [done|]. by exists 0%nat. Qed.

Lemma words_at_ok k : in_u64 k → words_ok (words_at k).
Proof.
  intros Hk. destruct setup as [_ _ [_ Hline] _ _ _ [Hd1 Hd2] Hseed _]. split; [done|].
  unfold words_at, initial_words, in_u64, in_u32 in *. repeat constructor; unfold in_word; cbn; try lia.
  - destruct (seed base_); cbn in *; lia.
  - destruct (seed base_); cbn in *; lia.
  - destruct (bool_decide _); lia.
  - destruct (bool_decide _); lia.
Qed.

Lemma slot_range k : 0 ≤ slot_of k < units layout.
Proof.
  destruct setup as [(_ & _ & _ & Hu & _) (Hne & _) _ Hlaid _ _ _ _ _].
  destruct Hlaid as (_ & _ & _ & Eu & _). unfold in_u64 in Hu. unfold slot_of. rewrite Eu.
  apply Z.mod_pos_bound. lia.
Qed.

Lemma unit_at_fields k :
  unit_index (unit_at k) = k ∧ unit_duty (unit_at k) = duty_ ∧ unit_line_bytes (unit_at k) = line
  ∧ unit_seed (unit_at k) = seed base_
  ∧ input_offset (unit_at k) = slack + region_start layout (input_region k)
  ∧ output_offset (unit_at k) = slack + region_start layout (output_region k).
Proof.
  destruct setup as [_ _ [_ Hline] _ _ _ [Hd1 Hd2] _ _].
  unfold unit_at, unit_of, words_at, initial_words, word.
  cbn [position_of lookup list_lookup default unit_index unit_duty unit_line_bytes unit_seed
       input_offset output_offset region_start input_region output_region option_map from_option id].
  split_and!; [done| | | | |].
  - destruct duty_ as [op ip]. cbn in *. by rewrite !u32_small.
  - by apply u32_small.
  - destruct (seed base_) as [sd|]; cbn; [|done]. done.
  - done.
  - unfold slot_of. lia.
Qed.

Definition open_or_close (weather : Weather) (point : Point) (k : Z) (m : list byte) :
    list byte * option Difference :=
  let m := on_memory weather point (put m Regenerated (generate w k)) in
  (m, difference_of kStored (piece m Regenerated) (piece m (input_region k))).

Lemma input_bytes_comparable m k :
  memory_ok m → comparable (piece m Regenerated) ∧ size_of (piece m Regenerated) = size_of (piece m (input_region k)).
Proof.
  intros Hm. pose proof (slot_range k) as Hslot.
  destruct (piece_subspan m Regenerated Hm I) as [_ H1].
  destruct (piece_subspan m (input_region k) Hm Hslot) as [_ H2].
  destruct (region_fits Regenerated I) as (H0 & Hb & Hend). split; [|by rewrite H1, H2].
  destruct setup. unfold comparable. lia.
Qed.

Lemma generate_fits k : size_of (generate w k) = input_bytes layout.
Proof.
  rewrite generate_size. destruct setup as [_ _ _ Hlaid _ _ _ _ _].
  by destruct Hlaid as (_ & -> & _).
Qed.

Lemma bracket_eq weather point k m :
  steady weather → memory_ok m →
  bracket w layout slack weather point (unit_at k) m = Some (open_or_close weather point k m)
  ∧ memory_ok (open_or_close weather point k m).1.
Proof.
  intros [Hsize _] Hm. pose proof (slot_range k) as Hslot.
  destruct (unit_at_fields k) as (Ek & _ & _ & _ & Ein & _).
  destruct (put_blit m Regenerated (generate w k) Hm I (generate_fits k)) as [Hb Hm1].
  assert (Hm2 : memory_ok (on_memory weather point (put m Regenerated (generate w k)))).
  { unfold memory_ok in *. by rewrite Hsize. }
  destruct (piece_subspan _ Regenerated Hm2 I) as [Hre _].
  destruct (piece_subspan _ (input_region k) Hm2 Hslot) as [Hin _].
  destruct (input_bytes_comparable _ k Hm2) as [Hcmp Hsame].
  change (region_bytes layout (input_region k)) with (input_bytes layout) in Hin.
  change (slack + region_start layout Regenerated) with (slack + regenerated layout) in Hb, Hre.
  change (region_bytes layout Regenerated) with (input_bytes layout) in Hre.
  unfold bracket, open_or_close. rewrite Ek, Hb. cbn [mbind option_bind]. rewrite Hre.
  cbn [mbind option_bind]. rewrite Ein, Hin. cbn [mbind option_bind].
  rewrite compare_stored_reference by done. by split.
Qed.

(** The memory once the unit is computed. *)
Definition consumed (weather : Weather) (k : Z) (m : list byte) : list byte :=
  let m := on_memory weather BeforeCompute m in
  let c := compute w k (piece m (input_region k)) (piece m (output_region k)) (piece m ScratchArea) in
  on_memory weather BeforeCheck (put (put m (output_region k) c.1) ScratchArea c.2).

(** What the unit's bracket says, from what closing it found. *)
Definition closed_integrity (k : Z) (closed : option Difference) : Z :=
  if bracketed k then match closed with Some _ => kCorruptDuringConsumption | None => kInputIntact end
  else kNotChecked.

(** The memory, the tally and the records a unit comes to. *)
Definition unit_effect (weather : Weather) (k : Z) (m : list byte) (t : Tally) :
    list byte * (Tally * list ErrorRecord) :=
  let u := unit_at k in
  let m := put m (input_region k) (generate w k) in
  let (m, opened) := if bracketed k then open_or_close weather BeforeOpen k m else (m, None) in
  let t := if bracketed k then add_tally t count_bracketed else t in
  match opened with
  | Some d =>
      (m, (add_tally t count_corrupt,
           [input_record base_ start_address u d kCorruptBeforeConsumption]))
  | None =>
      let m := consumed weather k m in
      let t := add_tally t count_computed in
      let (checked, t) :=
        if sampled k
        then check_unit w oracle base_ start_address u
               {| unit_input := piece m (input_region k); unit_output := piece m (output_region k) |} t
        else (None, t) in
      let (m, closed) := if bracketed k then open_or_close weather BeforeClose k m else (m, None) in
      let integrity := closed_integrity k closed in
      let t := match closed with Some _ => add_tally t count_corrupt | None => t end in
      (m, (t, from_option (λ record, [set_integrity record integrity]) [] checked
              ++ from_option (λ d, [input_record base_ start_address u d integrity]) [] closed))
  end.

(** A runner about to run unit [k]. *)
Definition runner_at (k : Z) (r : RunnerState) : Prop :=
  memory_ok (r_memory r) ∧ copies (r_control r) = replicate kCopies (encode (words_at k))
  ∧ in_u64 (repairs (r_control r)) ∧ r_next_index r = k ∧ r_finished r = false ∧ r_halted r = false.

Lemma vote_steady weather k r :
  steady weather → in_u64 k → runner_at k r →
  ∃ control,
    read {| copies := on_copies weather (copies (r_control r)); repairs := repairs (r_control r) |}
    = (Value (words_at k), control)
    ∧ state_ok control.
Proof.
  intros [_ [hit Hcs]] Hk (_ & Hc & Hr & _). pose proof (words_at_ok k Hk) as Hw.
  pose proof (all_hold _ _ Hw Hc Hr) as (Hok & _ & Hh).
  destruct Hok as (Hl & Hall & _). destruct (Hcs (copies (r_control r)) Hall) as (Hall' & Hl' & Hsame).
  pose (s := {| copies := on_copies weather (copies (r_control r)); repairs := repairs (r_control r) |}).
  assert (Hs : holds_but (Some hit) (words_at k) s).
  { split_and!; [split_and!; [cbn; congruence|done|done]|done|].
    intros j Hj Hne. cbn. rewrite Hsame by congruence. by apply Hh. }
  fold s. rewrite (read_majority s (words_at k)); [|by destruct Hs|by apply (holds_majority (Some hit))].
  eexists. split; [done|]. split_and!; [done| |apply u64_range].
  apply Forall_replicate, length_encode, Hw.
Qed.

Lemma put_blit_at m r bs offset :
  memory_ok m → region_of layout r → size_of bs = region_bytes layout r →
  offset = slack + region_start layout r →
  blit m offset bs = Some (put m r bs) ∧ memory_ok (put m r bs).
Proof. intros Hm Hr Hs ->. by apply put_blit. Qed.

Lemma output_fits k m :
  memory_ok m →
  let c := compute w k (piece m (input_region k)) (piece m (output_region k)) (piece m ScratchArea) in
  size_of c.1 = region_bytes layout (output_region k) ∧ size_of c.2 = region_bytes layout ScratchArea.
Proof.
  intros Hm c. pose proof (slot_range k) as Hslot.
  destruct (piece_subspan m (input_region k) Hm Hslot) as [_ H1].
  destruct (piece_subspan m (output_region k) Hm Hslot) as [_ H2].
  destruct (piece_subspan m ScratchArea Hm I) as [_ H3].
  cbn [region_bytes input_region output_region] in *.
  destruct setup as [_ _ _ Hlaid _ _ _ _ _].
  destruct Hlaid as (_ & Ei & Eo & _ & _ & _ & _ & _ & _ & Esb & _).
  destruct (compute_sizes (w := w) (threads := threads) k (piece m (input_region k))
              (piece m (output_region k)) (piece m ScratchArea)) as [Ho Hs]; [congruence..|].
  cbn [region_bytes output_region]. unfold c. by rewrite Ho, Hs.
Qed.

Lemma advance_at k r m control :
  memory_ok m → in_u64 k → in_u64 (k + 1) → state_ok control → runner_at k r →
  runner_at (k + 1) (advance (words_at k) k (with_memory (with_control r control) m)).
Proof.
  intros Hm Hk Hk1 (Hl & Hc & Hr) (_ & _ & _ & _ & Hf & Hh). unfold advance, with_memory, with_control.
  rewrite (u64_small (k + 1)) by done.
  split_and!; cbn [r_memory r_control r_next_index r_finished r_halted]; [done| |done|done|done|done].
  unfold write. cbn [copies]. change (set_word (words_at k) kIndex (k + 1)) with (words_at (k + 1)).
  rewrite <- Hl. by apply const_fmap.
Qed.

(** A bracket opened or closed, or not, by the duty cycle. *)
Lemma bracket_step weather point k m :
  steady weather → memory_ok m →
  ∃ m' found,
    (if bracketed k then open_or_close weather point k m else (m, None)) = (m', found)
    ∧ memory_ok m'
    ∧ (if bracketed k then bracket w layout slack weather point (unit_at k) m else Some (m, None))
      = Some (m', found).
Proof.
  intros Hw Hm. destruct (bracketed k); [|by eauto].
  destruct (bracket_eq weather point k m Hw Hm) as [-> H2].
  destruct (open_or_close _ _ _ _) as [m' found]. by eauto.
Qed.

Lemma piece_subspan_at m r offset bytes :
  memory_ok m → region_of layout r → offset = slack + region_start layout r →
  bytes = region_bytes layout r → subspan m offset bytes = Some (piece m r).
Proof. intros Hm Hr -> ->. by apply piece_subspan. Qed.

(** The unit's buffers read, computed and written back. *)
Lemma consume_step weather k m :
  steady weather → memory_ok m →
  let m1 := on_memory weather BeforeCompute m in
  ∃ output work m2 m3,
    subspan m1 (input_offset (unit_at k)) (input_bytes layout) = Some (piece m1 (input_region k))
    ∧ subspan m1 (output_offset (unit_at k)) (output_bytes layout) = Some (piece m1 (output_region k))
    ∧ subspan m1 (slack + scratch layout) (scratch_bytes layout) = Some (piece m1 ScratchArea)
    ∧ compute w k (piece m1 (input_region k)) (piece m1 (output_region k)) (piece m1 ScratchArea)
      = (output, work)
    ∧ blit m1 (output_offset (unit_at k)) output = Some m2
    ∧ blit m2 (slack + scratch layout) work = Some m3
    ∧ on_memory weather BeforeCheck m3 = consumed weather k m
    ∧ memory_ok (consumed weather k m).
Proof.
  intros [Hsize _] Hm m1. pose proof (slot_range k) as Hslot.
  destruct (unit_at_fields k) as (_ & _ & _ & _ & Ein & Eout).
  assert (Hm1 : memory_ok m1) by (unfold memory_ok, m1 in *; by rewrite Hsize).
  destruct (output_fits k m1 Hm1) as [Ho Hs]. unfold consumed. fold m1. cbv zeta.
  destruct (compute _ _ _ _ _) as [output work]. cbn [fst snd] in *.
  destruct (put_blit_at m1 (output_region k) output _ Hm1 Hslot Ho Eout) as [Hb2 Hm2].
  destruct (put_blit_at _ ScratchArea work (slack + scratch layout) Hm2 I Hs eq_refl) as [Hb3 Hm3].
  exists output, work, (put m1 (output_region k) output), (put (put m1 (output_region k) output) ScratchArea work).
  split_and!; [..|done|done|done|done|].
  - by apply piece_subspan_at.
  - by apply piece_subspan_at.
  - by apply piece_subspan_at.
  - unfold memory_ok in *. by rewrite Hsize.
Qed.

Lemma run_unit_eq weather k r report :
  steady weather → in_u64 k → in_u64 (k + 1) → runner_at k r →
  ∃ r', run_unit w oracle base_ duty_ layout start_address slack weather r report
        = Some (true, r', ((unit_effect weather k (r_memory r) report.1).2.1,
                           report.2 ++ (unit_effect weather k (r_memory r) report.1).2.2))
    ∧ runner_at (k + 1) r' ∧ r_memory r' = (unit_effect weather k (r_memory r) report.1).1
    ∧ r_total r' = r_total r.
Proof.
  intros Hw Hk Hk1 Hr. destruct (vote_steady weather k r Hw Hk Hr) as (control & Hread & Hcontrol).
  pose proof (slot_range k) as Hslot. pose proof (proj1 Hr) as Hm.
  destruct (unit_at_fields k) as (Ek & Ed & _ & _ & Ein & Eout).
  unfold run_unit, unit_effect. rewrite Hread. cbv beta iota zeta.
  fold (unit_at k). rewrite Ed, Ek. fold (bracketed k). fold (sampled k).
  cbn [r_memory with_control].
  destruct (put_blit_at _ (input_region k) (generate w k) _ Hm Hslot (generate_fits k) Ein) as [-> Hm1].
  cbn [mbind option_bind]. set (m1 := put _ _ _) in *.
  destruct (bracket_step weather BeforeOpen k m1 Hw Hm1) as (m2 & opened & -> & Hm2 & ->).
  cbn [mbind option_bind].
  destruct opened as [d|].
  { eexists. split; [reflexivity|]. split; [|done]. by apply advance_at. }
  destruct (consume_step weather k m2 Hw Hm2)
    as (output & work & m3 & m4 & -> & -> & -> & Hcompute & Hb3 & Hb4 & Hm4 & Hm5).
  cbn [mbind option_bind]. rewrite Hcompute. rewrite Hb3. cbn [mbind option_bind]. rewrite Hb4.
  cbn [mbind option_bind]. rewrite Hm4.
  rewrite (piece_subspan_at _ (input_region k) _ (input_bytes layout) Hm5 Hslot Ein eq_refl),
    (piece_subspan_at _ (output_region k) _ (output_bytes layout) Hm5 Hslot Eout eq_refl).
  cbn [mbind option_bind]. destruct (if sampled k then _ else _) as [checked t].
  destruct (bracket_step weather BeforeClose k _ Hw Hm5) as (m6 & closed & -> & Hm6 & ->).
  cbn [mbind option_bind]. eexists. split; [reflexivity|]. split; [|done]. by apply advance_at.
Qed.

(** ** A slice *)

Fixpoint slice_effect (weathers : list Weather) (k : Z) (m : list byte) (report : Report) :
    list byte * Report :=
  match weathers with
  | [] => (m, report)
  | weather :: weathers =>
      let e := unit_effect weather k m report.1 in
      slice_effect weathers (k + 1) e.1 (e.2.1, report.2 ++ e.2.2)
  end.

Lemma run_units_then weathers k r report :
  Forall steady weathers → in_u64 k → in_u64 (k + size_of weathers) → runner_at k r →
  ∃ r', (∀ rest, run_units w oracle base_ duty_ layout start_address slack (weathers ++ rest) r report
                 = run_units w oracle base_ duty_ layout start_address slack rest r'
                     (slice_effect weathers k (r_memory r) report).2)
    ∧ runner_at (k + size_of weathers) r'
    ∧ r_memory r' = (slice_effect weathers k (r_memory r) report).1
    ∧ r_total r' = r_total r.
Proof.
  revert k r report. induction weathers as [|weather weathers IH]; intros k r report Hw Hk Hend Hr.
  { exists r. by rewrite Z.add_0_r. }
  apply Forall_cons in Hw as [Hw Hws]. unfold size_of in *. cbn [length] in *. unfold in_u64 in *.
  destruct (run_unit_eq weather k r report) as (r1 & E1 & Hr1 & Em1 & Et1); [unfold in_u64; first [done|lia]..|].
  cbn [run_units slice_effect app]. rewrite E1. cbn [mbind option_bind].
  destruct (IH (k + 1) r1 ((unit_effect weather k (r_memory r) report.1).2.1,
              report.2 ++ (unit_effect weather k (r_memory r) report.1).2.2))
    as (r2 & E2 & Hr2 & Em2 & Et2); [done|lia|lia|done|].
  rewrite Em1 in *. exists r2. split; [exact E2|]. split; [|split; congruence].
  by replace (k + Z.of_nat (S (length weathers))) with (k + 1 + Z.of_nat (length weathers)) by lia.
Qed.

Lemma run_units_eq weathers k r report :
  Forall steady weathers → in_u64 k → in_u64 (k + size_of weathers) → runner_at k r →
  ∃ r', run_units w oracle base_ duty_ layout start_address slack weathers r report
        = Some (r', (slice_effect weathers k (r_memory r) report).2)
    ∧ runner_at (k + size_of weathers) r'
    ∧ r_memory r' = (slice_effect weathers k (r_memory r) report).1
    ∧ r_total r' = r_total r.
Proof.
  intros Hw Hk Hend Hr. destruct (run_units_then weathers k r report Hw Hk Hend Hr) as (r' & E & H').
  exists r'. split; [|exact H']. rewrite <- (app_nil_r weathers) at 1. by rewrite E.
Qed.

Lemma run_slice_eq weathers k r :
  Forall steady weathers → in_u64 k → in_u64 (k + size_of weathers) → runner_at k r →
  let e := slice_effect weathers k (r_memory r) (no_tally, []) in
  ∃ r', run_slice w oracle base_ duty_ layout start_address slack weathers r
        = Some (Value {| slice_tally := e.2.1; slice_records := e.2.2;
                         slice_next_index := k + size_of weathers |}, r')
    ∧ runner_at (k + size_of weathers) r' ∧ r_memory r' = e.1
    ∧ r_total r' = add_tally (r_total r) e.2.1.
Proof.
  intros Hw Hk Hend Hr e.
  destruct (run_units_eq weathers k r (no_tally, []) Hw Hk Hend Hr) as (r1 & E1 & Hr1 & Em1 & Et1).
  pose proof Hr as (_ & _ & _ & _ & Hf & Hh). unfold run_slice. rewrite Hf, Hh, E1.
  cbn [mbind option_bind]. fold e. pose proof Hr1 as (Hm1 & Hc1 & Hrep1 & Hn1 & Hf1 & Hh1). rewrite Hn1.
  eexists. split; [reflexivity|]. split; [by split_and!|]. cbn. by rewrite Et1.
Qed.

(** *** The verdict's tally and its record *)

(** Exactly one of the two oracle counts for a record, none without. *)
Definition judged (found : option ErrorRecord) (t t' : Tally) : Prop :=
  units_computed t' = units_computed t ∧ oracle_checked t' = u64 (oracle_checked t + 1)
  ∧ integrity_checked t' = integrity_checked t ∧ integrity_failed t' = integrity_failed t
  ∧ (oracle_failed t', oracle_not_performed t') =
      match found with
      | None => (oracle_failed t, oracle_not_performed t)
      | Some record => if is_wrong_result record then (u64 (oracle_failed t + 1), oracle_not_performed t)
                       else (oracle_failed t, u64 (oracle_not_performed t + 1))
      end.

(** A record of unit [k]. *)
Definition record_of_unit (k : Z) (record : ErrorRecord) : Prop :=
  is_valid_record record = true
  ∧ iteration (provenance_of record) = Some k
  ∧ seed (provenance_of record) = seed base_
  ∧ duty (provenance_of record) = Some duty_.

Definition tally_ok (t : Tally) : Prop :=
  in_u64 (units_computed t) ∧ in_u64 (oracle_checked t) ∧ in_u64 (oracle_blocks t)
  ∧ in_u64 (oracle_failed t) ∧ in_u64 (oracle_not_performed t)
  ∧ in_u64 (integrity_checked t) ∧ in_u64 (integrity_failed t).

Lemma u64_twice x : u64 (u64 x) = u64 x.
Proof. apply u64_small, u64_range. Qed.

#[local] Ltac tally_facts :=
  unfold judged, tally_ok, add_tally, count_checked, count_computed, count_blocks, count_failed,
    count_not_performed, count_bracketed, count_corrupt in *;
  cbn [units_computed oracle_checked oracle_blocks oracle_failed oracle_not_performed
       integrity_checked integrity_failed] in *;
  rewrite ?Z.add_0_r, ?u64_twice;
  repeat match goal with |- context [u64 ?x] => rewrite (u64_small x) by tauto end.

Lemma add_tally_ok t t' : tally_ok (add_tally t t').
Proof. unfold tally_ok. split_and!; apply u64_range. Qed.

Lemma check_unit_judged u evidence t :
  tally_ok t →
  let (found, t') := check_unit w oracle base_ start_address u evidence t in
  judged found t t' ∧ tally_ok t'.
Proof.
  intros Ht. unfold check_unit. destruct (oracle_check oracle (unit_index u) evidence) as [verdict|words].
  - destruct (negb _); [split; [|apply add_tally_ok]; tally_facts; by split_and!|].
    destruct verdict; (split; [|apply add_tally_ok]); tally_facts; by split_and!.
  - split; [|apply add_tally_ok]. tally_facts. by split_and!.
Qed.

(** *** Every record is one the codec accepts *)

Lemma bounded_size t : size_of (bounded t) ≤ kMaxTextBytes.
Proof.
  unfold bounded. destruct (Z.ltb_spec kMaxTextBytes (size_of t)); [|done].
  rewrite size_of_take; [done|]. unfold kMaxTextBytes in *. lia.
Qed.

(** The header of a unit's record, and what its bracket may say of its input. *)
Definition unit_header (k : Z) (p : Provenance) : Prop :=
  opt_test (λ name, size_of name <=? kMaxTextBytes) (prov_workload p) = true
  ∧ opt_test (λ path, path <? kIsaPathCount) (isa p) = true
  ∧ opt_test (λ i, i <=? kNotChecked) (input_integrity p) = true
  ∧ iteration p = Some k ∧ seed p = seed base_ ∧ duty p = Some duty_.

Lemma unit_header_at k offset integrity :
  integrity ≤ kNotChecked →
  unit_header k (unit_provenance base_ start_address (unit_at k) offset integrity).
Proof.
  intros Hi. destruct (unit_at_fields k) as (Ek & Ed & _ & Es & _). destruct (setup_base setup) as (Hn & Hp & _).
  unfold unit_header, unit_provenance.
  cbn [prov_workload isa input_integrity iteration seed duty]. rewrite Ek, Ed, Es.
  split_and!; try done. by apply Z.leb_le.
Qed.

Lemma header_integrity k p integrity :
  integrity ≤ kNotChecked → unit_header k p → unit_header k (with_integrity p integrity).
Proof. intros Hi (?&?&?&?&?&?). unfold unit_header. cbn. split_and!; try done. by apply Z.leb_le. Qed.

(** A record with such a header, valid in its own fields. *)
Lemma record_of_header k record :
  unit_header k (provenance_of record) →
  match record with
  | Exactly r =>
      (side r <=? kInput) && negb (bool_decide (exact_check r = []))
      && (size_of (exact_check r) <=? kMaxTextBytes) && (kWordBytes <=? ErrorRecord.line_bytes r)
      && has_single_bit (ErrorRecord.line_bytes r) && opt_test valid_difference (difference r)
  | Numerically r =>
      (size_of (numerical_check r) <=? kMaxTextBytes) && is_finite (tolerance r)
      && double_lt 0 (tolerance r) && exceeds_tolerance (residual r) (tolerance r)
  | NotPerformed r => (size_of (what r) <=? kMaxTextBytes) && (size_of (why r) <=? kMaxTextBytes)
  end = true →
  record_of_unit k record.
Proof.
  intros (Hn & Hp & Hi & Hk & Hs & Hd) Hbody. split; [|done].
  unfold is_valid_record. by rewrite Hn, Hp, Hi, Hbody.
Qed.

Lemma not_performed_ok k p subject reason blocks :
  unit_header k p → size_of subject ≤ kMaxTextBytes → size_of reason ≤ kMaxTextBytes →
  record_of_unit k (not_performed_record p subject reason blocks).
Proof.
  intros Hp Hs Hr. apply record_of_header; [done|]. cbn. apply andb_true_iff. by rewrite !Z.leb_le.
Qed.

Lemma not_within resid tol :
  is_finite tol = true → double_le resid tol = false → exceeds_tolerance resid tol = true.
Proof.
  unfold is_finite, double_le, exceeds_tolerance, double_lt, is_nan. rewrite Z.ltb_lt. intros Ht.
  rewrite (proj2 (Z.ltb_ge kExponentBits (magnitude tol))) by lia.
  destruct (kExponentBits <? magnitude resid); [done|].
  cbn. rewrite Z.leb_gt, Z.ltb_lt. done.
Qed.

Lemma check_unit_records k evidence t found t' :
  check_unit w oracle base_ start_address (unit_at k) evidence t = (Some found, t') →
  record_of_unit k found.
Proof.
  pose proof (λ offset, unit_header_at k offset kNotChecked (Z.le_refl _)) as Hu.
  destruct (unit_at_fields k) as (_ & _ & El & _). destruct (setup_line setup) as [[Hl8 Hl1] _].
  unfold check_unit. revert Hu El. generalize (unit_at k). intros u Hu El. cbv zeta.
  set (subject := bounded _). assert (Hsub : size_of subject ≤ kMaxTextBytes) by apply bounded_size.
  destruct (oracle_check oracle _ evidence) as [verdict|words].
  2: { intros [= <- _]. apply not_performed_ok; [done|done|apply bounded_size]. }
  destruct (keeps_rules verdict (oracle_contract oracle)) eqn:Hv; cbn [negb].
  2: { intros [= <- _]. apply not_performed_ok; [done|done|]. destruct verdict; vm_compute; by intros. }
  destruct verdict as [blocks|check diff blocks|check resid tol cond elem blocks|what reason blocks];
    intros [= <- _]; cbn in Hv; bool_facts.
  - apply record_of_header; [apply Hu|]. cbn [side exact_check ErrorRecord.line_bytes difference].
    rewrite El, Hl1, !andb_true_iff, !Z.leb_le. split_and!; try done.
    by apply negb_true_iff.
  - apply record_of_header; [apply Hu|]. cbn.
    rewrite !andb_true_iff, !Z.leb_le. split_and!; try done. by apply not_within.
  - by apply not_performed_ok.
Qed.

Lemma input_record_ok k m d integrity :
  memory_ok m → integrity ≤ kNotChecked →
  difference_of kStored (piece m Regenerated) (piece m (input_region k)) = Some d →
  record_of_unit k (input_record base_ start_address (unit_at k) d integrity).
Proof.
  intros Hm Hi Hd. destruct (input_bytes_comparable m k Hm) as [Hcmp Hsame].
  destruct (unit_at_fields k) as (_ & _ & El & _). destruct (setup_line setup) as [[Hl8 Hl1] _].
  apply difference_of_valid in Hd; [|done|done|done].
  apply record_of_header; [by apply unit_header_at|]. unfold input_record.
  cbn [side exact_check ErrorRecord.line_bytes difference]. rewrite El, Hl1.
  cbn [opt_test from_option]. rewrite Hd, !andb_true_iff, !Z.leb_le. by split_and!.
Qed.

Lemma record_header k record : record_of_unit k record → unit_header k (provenance_of record).
Proof.
  intros (Hv & Hi & Hs & Hd). unfold is_valid_record in Hv. rewrite !andb_true_iff in Hv.
  by destruct Hv as [[[? ?] ?] _].
Qed.

Lemma set_integrity_ok k record integrity :
  integrity ≤ kNotChecked → record_of_unit k record → record_of_unit k (set_integrity record integrity).
Proof.
  intros Hi Hr. pose proof (record_header k record Hr) as Hh. destruct Hr as [Hv _].
  unfold is_valid_record in Hv. rewrite !andb_true_iff in Hv. destruct Hv as (_ & Hbody).
  apply record_of_header; [|by destruct record]. destruct record; by apply header_integrity.
Qed.

Lemma set_integrity_wrong record integrity :
  is_wrong_result (set_integrity record integrity) = is_wrong_result record.
Proof. by destruct record. Qed.

(** *** What a slice counts *)

(** How many of the [n] units from [k] a period takes. *)
Definition due_count (period k : Z) (n : nat) : Z :=
  size_of (filter (λ i, due period (k + Z.of_nat i) = true) (seq 0 n)).

Lemma due_count_S period k n :
  due_count period k (S n) = due_count period k n + (if due period (k + Z.of_nat n) then 1 else 0).
Proof.
  unfold due_count, size_of. rewrite seq_S, filter_app, filter_cons, filter_nil, length_app.
  rewrite Nat.add_0_l. destruct (due _ _); case_decide; cbn [length]; (lia || congruence).
Qed.

Lemma due_count_range period k n : 0 ≤ due_count period k n ≤ Z.of_nat n.
Proof.
  induction n as [|n IH]; [done|]. rewrite due_count_S. destruct (due _ _); lia.
Qed.

(** The slice's books: every unit computed or refused by its opening bracket, one
    opened bracket for each unit due one, one record for each finding, each record
    valid and of a unit of the slice. *)
Definition accounts (k : Z) (n : nat) (report : Report) : Prop :=
  let (t, records) := report in
  tally_ok t
  ∧ integrity_checked t = due_count (integrity_period duty_) k n
  ∧ Z.of_nat n - integrity_failed t ≤ units_computed t ≤ Z.of_nat n
  ∧ integrity_failed t ≤ integrity_checked t
  ∧ due_count (oracle_period duty_) k n - integrity_failed t ≤ oracle_checked t
      ≤ due_count (oracle_period duty_) k n
  ∧ oracle_failed t + oracle_not_performed t ≤ oracle_checked t
  ∧ size_of (filter (λ r, is_wrong_result r = true) records) = oracle_failed t + integrity_failed t
  ∧ size_of records = oracle_failed t + oracle_not_performed t + integrity_failed t
  ∧ Forall (λ r, ∃ i, k ≤ i < k + Z.of_nat n ∧ record_of_unit i r) records.

Lemma bracket_found weather point k m m' d :
  memory_ok m' →
  (if bracketed k then open_or_close weather point k m else (m, None)) = (m', Some d) →
  bracketed k = true
  ∧ ∀ integrity, integrity ≤ kNotChecked →
      record_of_unit k (input_record base_ start_address (unit_at k) d integrity).
Proof.
  intros Hm'. destruct (bracketed k); [|done]. unfold open_or_close. intros [= Em Ed]. split; [done|].
  intros integrity Hi. apply (input_record_ok k m'); [done|done|]. by rewrite <- Em.
Qed.

Definition one_if (b : bool) : Z := if b then 1 else 0.

(** What unit [k] adds: its bracket if it is due one, its computation unless the
    opening bracket found its input corrupt, and a record for each finding. *)
Definition unit_books (k : Z) (t t' : Tally) (new : list ErrorRecord) : Prop :=
  let corrupt := integrity_failed t' - integrity_failed t in
  let computed := units_computed t' - units_computed t in
  let asked := oracle_checked t' - oracle_checked t in
  let failed := oracle_failed t' - oracle_failed t in
  let unmade := oracle_not_performed t' - oracle_not_performed t in
  tally_ok t'
  ∧ integrity_checked t' = integrity_checked t + one_if (bracketed k)
  ∧ 0 ≤ corrupt ≤ one_if (bracketed k)
  ∧ 1 - corrupt ≤ computed ≤ 1
  ∧ one_if (sampled k) - corrupt ≤ asked ≤ one_if (sampled k)
  ∧ 0 ≤ computed ∧ 0 ≤ asked
  ∧ failed + unmade ≤ asked
  ∧ size_of (filter (λ r, is_wrong_result r = true) new) = failed + corrupt
  ∧ size_of new = failed + unmade + corrupt
  ∧ Forall (record_of_unit k) new.

Lemma accounts_fold k n t records t' new :
  accounts k n (t, records) → unit_books (k + Z.of_nat n) t t' new →
  accounts k (S n) (t', records ++ new).
Proof.
  intros (Ht & Hic & Hu & Hif & Hoc & Hof & Hwrong & Hsize & Hall).
  intros (Ht' & Hic' & Hif' & Hu' & Hor & Hoc' & Hoc'' & Hof' & Hwrong' & Hsize' & Hnew).
  unfold bracketed, sampled, one_if in *.
  unfold accounts. rewrite !due_count_S, filter_app, !size_of_app. split_and!; try done; try lia.
  apply Forall_app. split.
  - eapply Forall_impl; [exact Hall|]. intros r (i & Hi & Hr). exists i. split; [lia|done].
  - eapply Forall_impl; [exact Hnew|]. intros r Hr. exists (k + Z.of_nat n). split; [lia|done].
Qed.

(** Room for one more of everything counted. *)
Definition roomy (t : Tally) : Prop :=
  tally_ok t ∧ units_computed t + 1 < 2 ^ 64 ∧ oracle_checked t + 1 < 2 ^ 64
  ∧ oracle_failed t + 1 < 2 ^ 64 ∧ oracle_not_performed t + 1 < 2 ^ 64
  ∧ integrity_checked t + 1 < 2 ^ 64 ∧ integrity_failed t + 1 < 2 ^ 64.

Lemma accounts_roomy k n t records :
  Z.of_nat n + 1 < 2 ^ 64 → accounts k n (t, records) → roomy t.
Proof.
  intros Hn (Ht & Hic & Hu & Hif & Hoc & Hof & _). split; [done|].
  pose proof (due_count_range (integrity_period duty_) k n).
  pose proof (due_count_range (oracle_period duty_) k n).
  unfold tally_ok, in_u64 in Ht. lia.
Qed.

Lemma roomy_counts t :
  tally_ok t →
  units_computed t + 1 < 2 ^ 64 ∧ oracle_checked t + 1 < 2 ^ 64
  ∧ oracle_failed t + 1 < 2 ^ 64 ∧ oracle_not_performed t + 1 < 2 ^ 64
  ∧ integrity_checked t + 1 < 2 ^ 64 ∧ integrity_failed t + 1 < 2 ^ 64 →
  u64 (units_computed t) = units_computed t ∧ u64 (units_computed t + 1) = units_computed t + 1
  ∧ u64 (oracle_checked t) = oracle_checked t ∧ u64 (oracle_checked t + 1) = oracle_checked t + 1
  ∧ u64 (oracle_failed t) = oracle_failed t ∧ u64 (oracle_failed t + 1) = oracle_failed t + 1
  ∧ u64 (oracle_not_performed t) = oracle_not_performed t
  ∧ u64 (oracle_not_performed t + 1) = oracle_not_performed t + 1
  ∧ u64 (integrity_checked t) = integrity_checked t ∧ u64 (integrity_checked t + 1) = integrity_checked t + 1
  ∧ u64 (integrity_failed t) = integrity_failed t ∧ u64 (integrity_failed t + 1) = integrity_failed t + 1.
Proof. unfold tally_ok, in_u64. intros. split_and!; apply u64_small; unfold in_u64; lia. Qed.

(** The bracket's count, the computation's, the verdict's and the closing bracket's. *)
Lemma stages_books k t (found closed : option ErrorRecord) (asked b : bool) t3 :
  roomy t → b = bracketed k → asked = sampled k → (closed ≠ None → b = true) →
  let t1 := if b then add_tally t count_bracketed else t in
  let t2 := add_tally t1 count_computed in
  (if asked then judged found t2 t3 ∧ tally_ok t3 else found = None ∧ t3 = t2) →
  from_option (record_of_unit k) True found →
  from_option (λ r, record_of_unit k r ∧ is_wrong_result r = true) True closed →
  unit_books k t (match closed with Some _ => add_tally t3 count_corrupt | None => t3 end)
    (from_option (λ r, [r]) [] found ++ from_option (λ r, [r]) [] closed).
Proof.
  intros (Ht & Hroom) -> -> Hclosed t1 t2 Hjudged Hfound Hcl.
  assert (Ht3 : tally_ok t3).
  { destruct (sampled k); [by destruct Hjudged|]. destruct Hjudged as [_ ->]. apply add_tally_ok. }
  destruct (roomy_counts t Ht Hroom) as (?&?&?&?&?&?&?&?&?&?&?&?).
  assert (E : units_computed t3 = units_computed t + 1
    ∧ oracle_checked t3 = oracle_checked t + one_if (sampled k)
    ∧ integrity_checked t3 = integrity_checked t + one_if (bracketed k)
    ∧ integrity_failed t3 = integrity_failed t
    ∧ (oracle_failed t3, oracle_not_performed t3) =
        match found with
        | None => (oracle_failed t, oracle_not_performed t)
        | Some record => if is_wrong_result record then (oracle_failed t + 1, oracle_not_performed t)
                         else (oracle_failed t, oracle_not_performed t + 1)
        end).
  { subst t1 t2. unfold one_if. destruct (sampled k).
    - destruct Hjudged as [(E1 & E2 & E3 & E4 & E5) _]. destruct (bracketed k), found as [record|];
        try destruct (is_wrong_result record); tally_facts; rewrite ?Z.add_0_r in *;
        split_and!; congruence.
    - destruct Hjudged as [-> ->]. destruct (bracketed k); tally_facts; rewrite ?Z.add_0_r in *;
        split_and!; congruence. }
  assert (Hasked : found ≠ None → sampled k = true).
  { destruct (sampled k); [done|]. by destruct Hjudged as [-> _]. }
  clear Hjudged. revert Ht3 E. generalize t3. clear t1 t2 t3. intros t3 Ht3 (E1 & E2 & E3 & E4 & E5).
  assert (Hok : tally_ok match closed with Some _ => add_tally t3 count_corrupt | None => t3 end).
  { destruct closed; [apply add_tally_ok|done]. }
  assert (Hdone : match closed with Some _ => add_tally t3 count_corrupt | None => t3 end
    = {| units_computed := units_computed t3; oracle_checked := oracle_checked t3;
         oracle_blocks := oracle_blocks t3; oracle_failed := oracle_failed t3;
         oracle_not_performed := oracle_not_performed t3; integrity_checked := integrity_checked t3;
         integrity_failed := integrity_failed t3 + match closed with Some _ => 1 | None => 0 end |}).
  { destruct closed; [|rewrite Z.add_0_r; by destruct t3].
    tally_facts. f_equal. congruence. }
  rewrite Hdone in *. unfold unit_books. split; [exact Hok|]. clear Hok Hdone.
  cbn [units_computed oracle_checked oracle_failed oracle_not_performed integrity_checked integrity_failed].
  rewrite E1, E2, E3, E4, filter_app, !size_of_app.
  assert (Hall : Forall (record_of_unit k) (from_option (λ r, [r]) [] found ++ from_option (λ r, [r]) [] closed)).
  { apply Forall_app. split; [destruct found|destruct closed as [c|]]; cbn; try apply Forall_nil_2;
      apply Forall_singleton; [exact Hfound|apply Hcl]. }
  assert (Hb : 0 ≤ one_if (bracketed k) ≤ 1) by (unfold one_if; by destruct (bracketed k)).
  assert (Hs : 0 ≤ one_if (sampled k) ≤ 1) by (unfold one_if; by destruct (sampled k)).
  destruct closed as [c|]; [rewrite (Hclosed ltac:(done)) in *; destruct Hcl as [Hc Hcw]|];
    (destruct found as [f|]; [rewrite (Hasked ltac:(done)) in *|]);
    cbn [from_option app one_if] in *; rewrite ?filter_cons, ?filter_nil, ?Hcw.
  all: try destruct (is_wrong_result f); injection E5 as E5 E6; rewrite E5, E6; unfold size_of.
  all: repeat case_decide; try done.
  all: cbn [length]; split_and!; first [exact Hall|lia].
Qed.

Lemma integrity_values k closed : closed_integrity k closed ≤ kNotChecked.
Proof. unfold closed_integrity. by destruct (bracketed k), closed. Qed.

(** The books of a unit whose opening bracket finds its input corrupt. *)
Lemma refused_books k t record :
  roomy t → bracketed k = true → record_of_unit k record → is_wrong_result record = true →
  unit_books k t (add_tally (add_tally t count_bracketed) count_corrupt) [record].
Proof.
  intros (Ht & Hroom) Hb Hr Hwrong. split; [apply add_tally_ok|]. rewrite Hb.
  destruct (roomy_counts t Ht Hroom) as (?&?&?&?&?&?&?&?&?&?&?&?).
  assert (Hs : 0 ≤ one_if (sampled k) ≤ 1) by (unfold one_if; by destruct (sampled k)).
  assert (Hall : Forall (record_of_unit k) [record]) by by apply Forall_singleton.
  tally_facts. rewrite filter_cons, filter_nil, Hwrong. repeat case_decide; [|done].
  repeat match goal with E : u64 ?x = _ |- context [u64 ?x] => rewrite E end.
  unfold size_of. cbn [one_if length]. split_and!; first [exact Hall|lia].
Qed.

Lemma judged_fmap k u evidence t2 found t3 integrity :
  tally_ok t2 →
  (if sampled k then check_unit w oracle base_ start_address u evidence t2 else (None, t2)) = (found, t3) →
  if sampled k then judged ((λ r, set_integrity r integrity) <$> found) t2 t3 ∧ tally_ok t3
  else (λ r, set_integrity r integrity) <$> found = None ∧ t3 = t2.
Proof.
  intros Ht. destruct (sampled k); [|by intros [= <- <-]]. intros Es.
  pose proof (check_unit_judged u evidence t2 Ht) as Hj. rewrite Es in Hj. destruct Hj as [Hj Ht3].
  split; [|done]. destruct found as [r|]; [|done]. unfold judged in *. cbn [fmap option_fmap option_map].
  by rewrite set_integrity_wrong.
Qed.

Lemma unit_books_hold weather k m t :
  steady weather → memory_ok m → roomy t →
  let e := unit_effect weather k m t in memory_ok e.1 ∧ unit_books k t e.2.1 e.2.2.
Proof.
  intros Hw Hm Ht. pose proof (slot_range k) as Hslot.
  destruct (put_blit m (input_region k) (generate w k) Hm Hslot (generate_fits k)) as [_ Hm1].
  destruct (bracket_step weather BeforeOpen k _ Hw Hm1) as (m2 & opened & Eo & Hm2 & _).
  unfold unit_effect. rewrite Eo. destruct opened as [d|].
  { destruct (bracket_found _ _ _ _ _ _ Hm2 Eo) as [Hbr Hrec]. rewrite Hbr. split; [done|].
    apply refused_books; [done|done|by apply Hrec|done]. }
  destruct (consume_step weather k m2 Hw Hm2) as (_ & _ & _ & _ & _ & _ & _ & _ & _ & _ & _ & Hm5).
  destruct (bracket_step weather BeforeClose k _ Hw Hm5) as (m6 & closed & Ec & Hm6 & _).
  set (t2 := add_tally (if bracketed k then _ else _) count_computed).
  destruct (if sampled k then _ else _) as [found t3] eqn:Es. rewrite Ec. cbn [fst snd]. split; [done|].
  set (integrity := closed_integrity k closed).
  assert (Hi : integrity ≤ kNotChecked) by apply integrity_values.
  pose proof (stages_books k t ((λ r, set_integrity r integrity) <$> found)
    ((λ d, input_record base_ start_address (unit_at k) d integrity) <$> closed)
    (sampled k) (bracketed k) t3 Ht eq_refl eq_refl) as Hbooks. cbv zeta in Hbooks. fold t2 in Hbooks.
  replace (from_option (λ record, [set_integrity record integrity]) [] found)
    with (from_option (λ r, [r]) [] ((λ r, set_integrity r integrity) <$> found)) by by destruct found.
  replace (from_option (λ d, [input_record base_ start_address (unit_at k) d integrity]) [] closed)
    with (from_option (λ r, [r]) [] ((λ d, input_record base_ start_address (unit_at k) d integrity) <$> closed))
    by by destruct closed.
  replace (match closed with Some _ => add_tally t3 count_corrupt | None => t3 end)
    with (match (λ d, input_record base_ start_address (unit_at k) d integrity) <$> closed with
          | Some _ => add_tally t3 count_corrupt | None => t3 end) by by destruct closed.
  apply Hbooks.
  - destruct closed; [|done]. intros _. by destruct (bracket_found _ _ _ _ _ _ Hm6 Ec).
  - apply (judged_fmap k _ _ _ _ _ integrity) in Es; [done|apply add_tally_ok].
  - destruct found as [r|]; [|done]. cbn. apply set_integrity_ok; [done|].
    destruct (sampled k); [|done]. by eapply check_unit_records.
  - destruct closed as [d|]; [|done]. cbn. split; [|done].
    by apply (bracket_found _ _ _ _ _ _ Hm6 Ec).
Qed.

Lemma slice_accounts_from weathers k n m t records :
  Forall steady weathers → memory_ok m → 0 ≤ k → k + Z.of_nat n + size_of weathers < 2 ^ 64 →
  accounts k n (t, records) →
  accounts k (n + length weathers) (slice_effect weathers (k + Z.of_nat n) m (t, records)).2.
Proof.
  revert n m t records. induction weathers as [|weather weathers IH]; intros n m t records Hw Hm Hk Hend Hacc.
  { by rewrite Nat.add_0_r. }
  apply Forall_cons in Hw as [Hw Hws]. unfold size_of in *. cbn [length] in *. cbn [slice_effect fst snd].
  destruct (unit_books_hold weather (k + Z.of_nat n) m t) as [Hm' Hbooks];
    [done|done|apply (accounts_roomy k n t records); [lia|done]|].
  replace (k + Z.of_nat n + 1) with (k + Z.of_nat (S n)) by lia.
  replace (n + S (length weathers))%nat with (S n + length weathers)%nat by lia.
  apply IH; [done|done|done|lia|]. by eapply accounts_fold.
Qed.

Lemma accounts_start k : accounts k 0 (no_tally, []).
Proof. unfold accounts, tally_ok, in_u64, no_tally. cbn. split_and!; (done || lia). Qed.

(** *** What a fault of the control state changes *)

(** The same weather, with the copies left alone. *)
Definition spare_copies (weather : Weather) : Weather :=
  {| on_copies := id; on_memory := on_memory weather |}.

Lemma spare_steady weather : steady weather → steady (spare_copies weather).
Proof. intros [Hsize _]. split; [done|]. by exists 0%nat. Qed.

Lemma slice_effect_spared weathers k m report :
  slice_effect (spare_copies <$> weathers) k m report = slice_effect weathers k m report.
Proof. revert k m report. induction weathers as [|weather weathers IH]; intros; [done|]. apply IH. Qed.

Lemma spare_length weathers : size_of (spare_copies <$> weathers) = size_of weathers.
Proof. unfold size_of. by rewrite length_fmap. Qed.

Lemma runner_at_same k r r' :
  runner_at k r → runner_at k r' → r_memory r = r_memory r' → r_total r = r_total r' →
  copies (r_control r) = copies (r_control r') ∧ r_next_index r = r_next_index r'.
Proof. intros (_ & -> & _ & -> & _) (_ & -> & _ & -> & _). done. Qed.

(** *** What a bracket sees *)

(** The slot's input as the opening bracket reads it, and as the closing one does. *)
Definition opened_memory (weather : Weather) (k : Z) (m : list byte) : list byte :=
  on_memory weather BeforeOpen (put (put m (input_region k) (generate w k)) Regenerated (generate w k)).
Definition closed_memory (weather : Weather) (k : Z) (m : list byte) : list byte :=
  on_memory weather BeforeClose
    (put (consumed weather k (opened_memory weather k m)) Regenerated (generate w k)).
Definition opened_input weather k m : list byte := piece (opened_memory weather k m) (input_region k).
Definition closed_input weather k m : list byte := piece (closed_memory weather k m) (input_region k).

(** Weather that leaves the regeneration buffer alone. *)
Definition spares_regeneration (weather : Weather) : Prop :=
  ∀ p m, memory_ok m → piece (on_memory weather p m) Regenerated = piece m Regenerated.

Lemma difference_of_same dom (e a : list byte) :
  size_of e = size_of a → (difference_of dom e a = None ↔ e = a).
Proof.
  intros Hs. unfold difference_of. assert (Hl : length e = length a) by (unfold size_of in Hs; lia).
  destruct (differing 0 e a) as [|f rest] eqn:E.
  - split; [intros _; by apply differing_nil in E|done].
  - split; [done|]. intros ->. by rewrite differing_same in E.
Qed.

(** The comparison is of the slot with the input the unit was written with. *)
Lemma bracket_sees weather point k m :
  steady weather → spares_regeneration weather → memory_ok m →
  let m' := on_memory weather point (put m Regenerated (generate w k)) in
  (open_or_close weather point k m).1 = m' ∧ memory_ok m'
  ∧ ((open_or_close weather point k m).2 = None ↔ piece m' (input_region k) = generate w k).
Proof.
  intros [Hsize _] Hspare Hm m'.
  destruct (put_blit m Regenerated (generate w k) Hm I (generate_fits k)) as [_ Hm1].
  assert (Hm' : memory_ok m') by (unfold memory_ok, m' in *; by rewrite Hsize).
  split; [done|]. split; [done|]. unfold open_or_close. fold m'. cbn [snd].
  destruct (input_bytes_comparable m' k Hm') as [_ Hs]. rewrite difference_of_same by done.
  assert (E : piece m' Regenerated = generate w k).
  { unfold m'. rewrite Hspare by done. by rewrite piece_put by (done || apply generate_fits). }
  rewrite E. by split.
Qed.

(** *** Still weather *)

(** Weather that leaves the buffers alone; it may strike a copy of the control state. *)
Definition still (weather : Weather) : Prop := steady weather ∧ ∀ p m, on_memory weather p m = m.

Lemma still_spares weather : still weather → spares_regeneration weather.
Proof. intros [_ Hstill] p m _. by rewrite Hstill. Qed.

(** The input survives a write of the regeneration buffer. *)
Lemma piece_input_regenerated k m :
  memory_ok m → piece m (input_region k) = generate w k →
  piece (put m Regenerated (generate w k)) (input_region k) = generate w k.
Proof.
  intros Hm E. pose proof (slot_range k) as Hslot.
  by rewrite piece_put_other by (done || apply generate_fits).
Qed.

Lemma still_bracket weather point k m :
  still weather → memory_ok m → piece m (input_region k) = generate w k →
  ∃ m', (if bracketed k then open_or_close weather point k m else (m, None)) = (m', None)
    ∧ memory_ok m' ∧ piece m' (input_region k) = generate w k
    ∧ piece m' (output_region k) = piece m (output_region k).
Proof.
  intros Hs Hm E. pose proof (slot_range k) as Hslot. destruct (bracketed k); [|by exists m].
  destruct (bracket_sees weather point k m (proj1 Hs) (still_spares _ Hs) Hm) as (Em & Hm' & Hfound).
  rewrite (proj2 Hs) in *. destruct (open_or_close weather point k m) as [m' found]. cbn [fst snd] in *. subst m'.
  rewrite (proj2 Hfound) by by apply piece_input_regenerated. eexists. split; [reflexivity|].
  split_and!; [done|by apply piece_input_regenerated|].
  by rewrite piece_put_other by (done || apply generate_fits).
Qed.

Lemma still_consumed weather k m :
  still weather → memory_ok m → piece m (input_region k) = generate w k →
  piece (consumed weather k m) (input_region k) = generate w k
  ∧ ∃ output scratch, size_of output = plan_output_bytes (workload_plan w)
      ∧ size_of scratch = plan_scratch_bytes (workload_plan w) * threads
      ∧ piece (consumed weather k m) (output_region k) = (compute w k (generate w k) output scratch).1.
Proof.
  intros Hs Hm E. pose proof (slot_range k) as Hslot. unfold consumed. rewrite !(proj2 Hs).
  destruct (output_fits k m Hm) as [Ho Hw]. rewrite E in *.
  destruct (put_blit m (output_region k) _ Hm Hslot Ho) as [_ Hm1].
  destruct (piece_subspan m (output_region k) Hm Hslot) as [_ Eo].
  destruct (piece_subspan m ScratchArea Hm I) as [_ Es].
  destruct setup as [_ _ _ Hlaid _ _ _ _ _].
  destruct Hlaid as (_ & _ & Elo & _ & _ & _ & _ & _ & _ & Els & _). cbn [region_bytes output_region] in Eo, Es.
  split.
  - by rewrite !piece_put_other by done.
  - eexists _, _. split; [rewrite Eo; exact Elo|]. split; [rewrite Es; exact Els|].
    rewrite piece_put_other by done. by rewrite piece_put.
Qed.

Lemma still_unit `{Hagrees : !OracleAgrees w oracle threads} weather k m t :
  still weather → memory_ok m → (unit_effect weather k m t).2.2 = [].
Proof.
  intros Hs Hm. pose proof (slot_range k) as Hslot. destruct (unit_at_fields k) as (Ek & _).
  destruct (put_blit m (input_region k) (generate w k) Hm Hslot (generate_fits k)) as [_ Hm1].
  destruct (still_bracket weather BeforeOpen k _ Hs Hm1) as (m2 & Eo & Hm2 & Ein & _).
  { apply piece_put; [done|done|apply generate_fits]. }
  unfold unit_effect. rewrite Eo. cbv beta iota zeta.
  destruct (still_consumed weather k m2 Hs Hm2 Ein) as (Ein' & output & work & Hout & Hwork & Eout).
  destruct (consume_step weather k m2 (proj1 Hs) Hm2) as (_ & _ & _ & _ & _ & _ & _ & _ & _ & _ & _ & Hm5).
  destruct (still_bracket weather BeforeClose k _ Hs Hm5 Ein') as (m6 & Ec & _).
  rewrite Ein', Eout. destruct (agrees (w := w) (oracle := oracle) k output work Hout Hwork) as (blocks & Hb & Ea).
  assert (Hcheck : ∀ t', ∃ t'', check_unit w oracle base_ start_address (unit_at k)
    {| unit_input := generate w k; unit_output := (compute w k (generate w k) output work).1 |} t' = (None, t'')).
  { intros t'. unfold check_unit. rewrite Ek, Ea. cbn [keeps_rules].
    rewrite (proj2 (Z.leb_le _ _) Hb). by eexists. }
  destruct (sampled k); [edestruct Hcheck as [t'' ->]|]; by rewrite Ec.
Qed.

Lemma unit_memory weather k m t :
  steady weather → memory_ok m → memory_ok (unit_effect weather k m t).1.
Proof.
  intros Hw Hm. pose proof (slot_range k) as Hslot.
  destruct (put_blit m (input_region k) (generate w k) Hm Hslot (generate_fits k)) as [_ Hm1].
  destruct (bracket_step weather BeforeOpen k _ Hw Hm1) as (m2 & opened & Eo & Hm2 & _).
  unfold unit_effect. rewrite Eo. destruct opened as [d|]; [done|].
  destruct (consume_step weather k m2 Hw Hm2) as (_ & _ & _ & _ & _ & _ & _ & _ & _ & _ & _ & Hm5).
  destruct (bracket_step weather BeforeClose k _ Hw Hm5) as (m6 & closed & Ec & Hm6 & _).
  destruct (if sampled k then _ else _) as [found t3]. by rewrite Ec.
Qed.

Lemma still_slice `{Hagrees : !OracleAgrees w oracle threads} weathers k m t records :
  Forall still weathers → memory_ok m → (slice_effect weathers k m (t, records)).2.2 = records.
Proof.
  revert k m t records. induction weathers as [|weather weathers IH]; intros k m t records Hs Hm; [done|].
  apply Forall_cons in Hs as [Hs Hss]. cbn [slice_effect fst snd]. rewrite IH; [|done|].
  - by rewrite still_unit, app_nil_r.
  - apply unit_memory; [apply Hs|done].
Qed.

(** ** The properties *)

(** C22 A slice of any length, with one of the three copies of the control state struck
    before any vote and the buffers changed between any two steps, runs each of its units
    exactly once and in order: its books balance. The bracket is opened for exactly the
    units the integrity period takes; a unit is computed unless its opening bracket
    finds its input corrupt; the oracle is asked about the units its period takes, short
    only of those; there is a record for every finding and nothing else, each one valid,
    carrying the index of a unit of the slice, the run's seed and its duty cycle; the
    runner's total grows by the slice's tally, and it goes on from the next unit. *)
Theorem slice_accounts (weathers : list Weather) (k : Z) (r : RunnerState) :
  Forall steady weathers → 0 ≤ k → k + size_of weathers < 2 ^ 64 → runner_at k r →
  ∃ report r',
    run_slice w oracle base_ duty_ layout start_address slack weathers r = Some (Value report, r')
    ∧ slice_next_index report = k + size_of weathers
    ∧ runner_at (k + size_of weathers) r'
    ∧ r_total r' = add_tally (r_total r) (slice_tally report)
    ∧ accounts k (length weathers) (slice_tally report, slice_records report).
Proof.
  intros Hw Hk Hend Hr. pose proof (size_of_nonneg weathers).
  destruct (run_slice_eq weathers k r Hw) as (r' & E & Hr' & _ & Et); [unfold in_u64; lia..|done|].
  eexists _, r'. split; [exact E|]. cbn [slice_next_index slice_tally slice_records].
  split_and!; [done|done|done|]. rewrite <- surjective_pairing.
  pose proof (slice_accounts_from weathers k 0 (r_memory r) no_tally [] Hw (proj1 Hr) Hk) as Hacc.
  rewrite Z.add_0_r in Hacc. apply Hacc; [lia|apply accounts_start].
Qed.

(** C28 Faults in the control state never show. With one of its three copies struck before
    any vote, whatever it is struck with, a slice leaves the same buffers, the same
    tallies, the same records and the same next unit as the slice no copy of which is
    struck: the values verification depends on cannot be corrupted one at a time. *)
Theorem control_faults_invisible (weathers : list Weather) (k : Z) (r : RunnerState) :
  Forall steady weathers → 0 ≤ k → k + size_of weathers < 2 ^ 64 → runner_at k r →
  ∃ report struck spared,
    run_slice w oracle base_ duty_ layout start_address slack weathers r = Some (Value report, struck)
    ∧ run_slice w oracle base_ duty_ layout start_address slack (spare_copies <$> weathers) r
      = Some (Value report, spared)
    ∧ r_memory struck = r_memory spared ∧ r_total struck = r_total spared
    ∧ copies (r_control struck) = copies (r_control spared)
    ∧ r_next_index struck = r_next_index spared.
Proof.
  intros Hw Hk Hend Hr. pose proof (size_of_nonneg weathers).
  destruct (run_slice_eq weathers k r Hw) as (r1 & E1 & Hr1 & Em1 & Et1); [unfold in_u64; lia..|done|].
  assert (Hw' : Forall steady (spare_copies <$> weathers)).
  { apply Forall_fmap. eapply Forall_impl; [exact Hw|]. apply spare_steady. }
  destruct (run_slice_eq (spare_copies <$> weathers) k r Hw') as (r2 & E2 & Hr2 & Em2 & Et2);
    [rewrite ?spare_length; unfold in_u64; lia..|done|].
  rewrite slice_effect_spared, spare_length in *. eexists _, r1, r2. split; [exact E1|]. split; [exact E2|].
  assert (Em : r_memory r1 = r_memory r2) by congruence.
  assert (Et : r_total r1 = r_total r2) by congruence.
  destruct (runner_at_same _ r1 r2 Hr1 Hr2 Em Et). done.
Qed.

(** Whether a record is of the input of a unit. *)
Definition blames_input (record : ErrorRecord) : bool :=
  match record with Exactly r => side r =? kInput | _ => false end.

(** A record of unit [k] that says what became of its input. *)
Definition states (k integrity : Z) (record : ErrorRecord) : Prop :=
  iteration (provenance_of record) = Some k ∧ input_integrity (provenance_of record) = Some integrity.

(** What the oracle found in the buffers of unit [k] as they lie in [m]: nothing if it
    was not asked or agreed, and otherwise one record, which never blames the input. *)
Definition oracle_finding (k : Z) (m : list byte) (found : option ErrorRecord) : Prop :=
  let answer := oracle_check oracle k
    {| unit_input := piece m (input_region k); unit_output := piece m (output_region k) |} in
  match found with
  | None => sampled k = false ∨ ∃ blocks, answer = Answered (Agreement blocks)
  | Some record =>
      sampled k = true ∧ (∀ blocks, 1 ≤ blocks → answer ≠ Answered (Agreement blocks))
      ∧ blames_input record = false ∧ iteration (provenance_of record) = Some k
  end.

Lemma check_unit_finds k m t found t' :
  0 ≤ k < 2 ^ 64 →
  (if sampled k
   then check_unit w oracle base_ start_address (unit_at k)
          {| unit_input := piece m (input_region k); unit_output := piece m (output_region k) |} t
   else (None, t)) = (found, t') →
  oracle_finding k m found.
Proof.
  intros Hk. destruct (unit_at_fields k) as (Ek & _). unfold oracle_finding.
  destruct (sampled k); [|by intros [= <- _]; left].
  unfold check_unit. rewrite Ek. destruct (oracle_check oracle k _) as [verdict|words]; [|by intros [= <- _]].
  destruct (keeps_rules verdict _) eqn:Hv; cbn [negb].
  - destruct verdict as [blocks|check diff blocks|check resid tol cond elem blocks|subject reason blocks];
      intros [= <- _]; [by right; eexists|..]; by split_and!.
  - intros [= <- _]. split_and!; [done| |done|done]. intros blocks Hb [= ->].
    cbn in Hv. by apply Z.leb_gt in Hv; lia.
Qed.

Lemma states_set k integrity record :
  iteration (provenance_of record) = Some k → states k integrity (set_integrity record integrity).
Proof. by destruct record. Qed.

Lemma blames_set integrity record : blames_input (set_integrity record integrity) = blames_input record.
Proof. by destruct record. Qed.

Lemma input_record_states k integrity d :
  let record := input_record base_ start_address (unit_at k) d integrity in
  blames_input record = true ∧ states k integrity record.
Proof. by split_and!. Qed.

(** C21 No corruption of a bracketed input passes silently. Whatever the weather does to the
    buffers, so long as it keeps their size, strikes at most one copy of the control state
    and leaves the regeneration buffer alone: when the slot's input is not the unit's as
    the opening bracket reads it, the unit is not computed and its one record blames the
    input, corrupt before it was consumed; when it is not as the closing bracket reads it,
    the last record blames the input, corrupted during the computation, and the record of
    the oracle's verdict, if it made one, says the same of the input; and when both read
    the input as it was written, no record blames it, and what the oracle found stands
    over an intact input. The oracle is asked of the buffers as the computation left them,
    and its record never blames the input. *)
Theorem no_silent_corruption (weather : Weather) (k : Z) (r : RunnerState) (report : Report) :
  steady weather → spares_regeneration weather → 0 ≤ k → k + 1 < 2 ^ 64 → runner_at k r →
  bracketed k = true →
  let before := opened_input weather k (r_memory r) in
  let after := closed_input weather k (r_memory r) in
  let left := consumed weather k (opened_memory weather k (r_memory r)) in
  ∃ r' t new,
    run_unit w oracle base_ duty_ layout start_address slack weather r report
    = Some (true, r', (t, report.2 ++ new))
    ∧ ((before ≠ generate w k ∧ t = add_tally (add_tally report.1 count_bracketed) count_corrupt
        ∧ ∃ d, let record := input_record base_ start_address (unit_at k) d kCorruptBeforeConsumption in
               new = [record] ∧ blames_input record = true ∧ states k kCorruptBeforeConsumption record)
      ∨ (before = generate w k ∧ after ≠ generate w k
         ∧ ∃ found d, let record := input_record base_ start_address (unit_at k) d kCorruptDuringConsumption in
             oracle_finding k left found
             ∧ new = from_option (λ record, [set_integrity record kCorruptDuringConsumption]) [] found ++ [record]
             ∧ blames_input record = true ∧ Forall (states k kCorruptDuringConsumption) new)
      ∨ (before = generate w k ∧ after = generate w k
         ∧ ∃ found, oracle_finding k left found
             ∧ new = from_option (λ record, [set_integrity record kInputIntact]) [] found
             ∧ Forall (λ record, blames_input record = false ∧ states k kInputIntact record) new)).
Proof.
  intros Hw Hspare Hk Hend Hr Hb before after left. pose proof (slot_range k) as Hslot.
  destruct (run_unit_eq weather k r report Hw) as (r' & E & _); [unfold in_u64; lia..|done|].
  eexists r', _, _. split; [exact E|]. unfold unit_effect. rewrite Hb.
  destruct (put_blit (r_memory r) (input_region k) (generate w k) (proj1 Hr) Hslot (generate_fits k)) as [_ Hm1].
  destruct (bracket_sees weather BeforeOpen k _ Hw Hspare Hm1) as (Eo & Hm2 & Hopen).
  destruct (open_or_close weather BeforeOpen k _) as [m2 opened]. cbn [fst snd] in *. subst m2.
  change (piece _ (input_region k) = generate w k) with (before = generate w k) in Hopen.
  fold (opened_memory weather k (r_memory r)) in *.
  destruct opened as [d|].
  { left. cbn [fst snd]. split_and!; [|done|exists d; split; [done|apply input_record_states]].
    intros Hbad. by apply Hopen in Hbad. }
  right. pose proof (proj1 Hopen eq_refl) as Hin.
  destruct (consume_step weather k _ Hw Hm2) as (_ & _ & _ & _ & _ & _ & _ & _ & _ & _ & _ & Hm5).
  destruct (if sampled k then _ else _) as [found t3] eqn:Es. apply check_unit_finds in Es as Hfound; [|lia].
  destruct (bracket_sees weather BeforeClose k _ Hw Hspare Hm5) as (Ec & Hm6 & Hclose).
  destruct (open_or_close weather BeforeClose k _) as [m6 closed]. cbn [fst snd] in *. subst m6.
  change (piece _ (input_region k) = generate w k) with (after = generate w k) in Hclose.
  unfold closed_integrity. rewrite Hb. destruct closed as [d|].
  - left. split_and!; [done|by intros Hbad%Hclose|]. exists found, d. split_and!; [done..| |].
    + apply input_record_states.
    + apply Forall_app. split; [|apply Forall_singleton, input_record_states].
      destruct found as [record|]; [|done]. apply Forall_singleton, states_set. apply Hfound.
  - right. split_and!; [done|by apply Hclose|]. exists found. cbn. rewrite app_nil_r. split_and!; [done..|].
    destruct found as [record|]; [|done]. apply Forall_singleton. rewrite blames_set.
    split; [apply Hfound|apply states_set, Hfound].
Qed.

(** C23 A slice of sound hardware is clean. When nothing touches the buffers, and whatever
    strikes a copy of the control state, a workload whose oracle agrees with it runs
    without a record: every unit is computed, every unit the integrity period takes is
    bracketed and found intact, every unit the oracle period takes is checked, and
    nothing failed and nothing was left unchecked. *)
Theorem sound_slice_clean `{Hagrees : !OracleAgrees w oracle threads}
    (weathers : list Weather) (k : Z) (r : RunnerState) :
  Forall still weathers → 0 ≤ k → k + size_of weathers < 2 ^ 64 → runner_at k r →
  ∃ t r',
    run_slice w oracle base_ duty_ layout start_address slack weathers r
    = Some (Value {| slice_tally := t; slice_records := []; slice_next_index := k + size_of weathers |}, r')
    ∧ runner_at (k + size_of weathers) r'
    ∧ units_computed t = size_of weathers
    ∧ oracle_checked t = due_count (oracle_period duty_) k (length weathers)
    ∧ integrity_checked t = due_count (integrity_period duty_) k (length weathers)
    ∧ oracle_failed t = 0 ∧ oracle_not_performed t = 0 ∧ integrity_failed t = 0.
Proof.
  intros Hs Hk Hend Hr. pose proof (size_of_nonneg weathers).
  assert (Hw : Forall steady weathers) by (eapply Forall_impl; [exact Hs|]; by intros ? [? _]).
  destruct (run_slice_eq weathers k r Hw) as (r' & E & Hr' & _); [unfold in_u64; lia..|done|].
  pose proof (still_slice weathers k (r_memory r) no_tally [] Hs (proj1 Hr)) as Hnone.
  pose proof (slice_accounts_from weathers k 0 (r_memory r) no_tally [] Hw (proj1 Hr) Hk) as Hacc.
  rewrite Z.add_0_r in Hacc. specialize (Hacc Hend (accounts_start k)).
  destruct (slice_effect _ _ _ _) as [m' [t records]]. cbn [fst snd] in *. subst records.
  exists t, r'. split; [exact E|]. split; [exact Hr'|].
  destruct Hacc as (Ht & Hic & Hu & Hif & Hoc & Hof & _ & Hsize & _).
  unfold tally_ok, in_u64 in Ht. change (size_of []) with 0 in Hsize. unfold size_of. cbn [Nat.add] in *.
  split_and!; lia.
Qed.

(** Weather that leaves the copies of unit [k] too damaged to decide. *)
Definition undecidable (weather : Weather) (k rep : Z) : Prop :=
  let s := {| copies := on_copies weather (replicate kCopies (encode (words_at k))); repairs := rep |} in
  state_ok s ∧ ∀ words, ¬ majority s words.

(** A run whose control state decides nothing stops, and says so. The units before the
    failed vote are run and reported as they were; the slice ends at the unit that could
    not be started with one record more, that verification was not performed, which
    blames the run and not the machine; the buffers are not touched again, and every
    later slice is refused as finished, with the reason and the unit it stopped before. *)
Theorem undecided_run_stops (before after : list Weather) (weather : Weather) (k : Z) (r : RunnerState) :
  Forall steady before → 0 ≤ k → k + size_of before < 2 ^ 64 → runner_at k r →
  (∀ rep, in_u64 rep → undecidable weather (k + size_of before) rep) →
  let e := slice_effect before k (r_memory r) (no_tally, []) in
  ∃ subject reason r',
    run_slice w oracle base_ duty_ layout start_address slack (before ++ weather :: after) r
    = Some (Value {| slice_tally := e.2.1;
                     slice_records := e.2.2 ++ [not_performed_record (run_provenance base_ duty_) subject reason 0];
                     slice_next_index := k + size_of before |}, r')
    ∧ r_memory r' = e.1 ∧ r_halted r' = true
    ∧ ∃ detail, r_halt_detail r' = lit "the run stopped before unit " ++ to_dec (k + size_of before) ++ detail
      ∧ ∀ later, run_slice w oracle base_ duty_ layout start_address slack later r'
          = Some (Error {| runner_fault := kFinished; runner_detail := r_halt_detail r' |}, r').
Proof.
  intros Hw Hk Hend Hr Hbad e. pose proof (size_of_nonneg before).
  destruct (run_units_then before k r (no_tally, []) Hw) as (r1 & E1 & Hr1 & Em1 & _); [unfold in_u64; lia..|done|].
  fold e in E1, Em1. pose proof Hr1 as (Hm1 & Hc1 & Hrep1 & Hn1 & Hf1 & Hh1).
  destruct (Hbad (repairs (r_control r1)) Hrep1) as [Hok Hno]. rewrite <- Hc1 in Hok, Hno.
  pose proof (read_no_majority _ Hok Hno) as Hread. pose proof Hr as (_ & _ & _ & _ & Hf & Hh).
  unfold run_slice at 1. rewrite Hf, Hh, E1. cbn [run_units]. unfold run_unit. rewrite Hread.
  destruct e as [m' [t records]]. unfold halt. cbn [fst snd with_control r_next_index].
  rewrite Hn1. eexists _, _, _. split; [reflexivity|]. split; [exact Em1|]. split; [reflexivity|].
  eexists. split; [reflexivity|]. intros later. unfold run_slice. cbn [r_finished r_halted with_total].
  cbn. by rewrite Hf1.
Qed.

Lemma run_record_ok subject reason blocks :
  size_of subject ≤ kMaxTextBytes → size_of reason ≤ kMaxTextBytes →
  is_valid_record (not_performed_record (run_provenance base_ duty_) subject reason blocks) = true.
Proof.
  intros Hs Hr. destruct (setup_base setup) as (Hn & Hp & Hi). unfold is_valid_record.
  cbn [not_performed_record provenance_of not_performed_provenance run_provenance prov_workload isa
       input_integrity what why]. by rewrite Hn, Hp, Hi, !(proj2 (Z.leb_le _ _)).
Qed.

(** A run never ends as verified when nothing was verified. [finish] of a run that
    compared no block says so in a record, and of a run that bracketed no unit in
    another, each one valid and stating that verification was not performed; only a run
    that did both ends without a word. It reports no tally of its own and keeps the
    run's, and afterwards every slice and every second [finish] is refused as finished
    and changes nothing. *)
Theorem finish_states_gaps (k : Z) (r : RunnerState) :
  runner_at k r →
  ∃ records r',
    finish w base_ duty_ r
    = (Value {| slice_tally := no_tally; slice_records := records; slice_next_index := k |}, r')
    ∧ Forall (λ record, is_valid_record record = true ∧ is_wrong_result record = false
                        ∧ provenance_of record = run_provenance base_ duty_) records
    ∧ size_of records = one_if (oracle_blocks (r_total r) =? 0) + one_if (integrity_checked (r_total r) =? 0)
    ∧ (records = [] ↔ oracle_blocks (r_total r) ≠ 0 ∧ integrity_checked (r_total r) ≠ 0)
    ∧ r_total r' = r_total r
    ∧ (∀ later, run_slice w oracle base_ duty_ layout start_address slack later r'
        = Some (Error {| runner_fault := kFinished; runner_detail := lit "run_slice() after finish()" |}, r'))
    ∧ finish w base_ duty_ r'
      = (Error {| runner_fault := kFinished; runner_detail := lit "finish() after finish()" |}, r').
Proof.
  intros (_ & _ & _ & Hn & Hf & _). unfold finish at 1. rewrite Hf. cbv zeta. rewrite Hn.
  eexists _, _. split; [reflexivity|]. split_and!; [|..|done|done|done].
  - apply Forall_app. split; destruct (_ =? 0); try apply Forall_nil_2; apply Forall_singleton;
      (split_and!; [apply run_record_ok; apply bounded_size|done|done]).
  - rewrite size_of_app. by destruct (oracle_blocks _ =? 0), (integrity_checked _ =? 0).
  - destruct (Z.eqb_spec (oracle_blocks (r_total r)) 0), (Z.eqb_spec (integrity_checked (r_total r)) 0);
      split; (done || tauto).
Qed.

End Facts.

(** ** A run, for the witnesses

    A workload that copies its input, two slots of sixteen bytes on lines of 64. *)

Definition sample_workload : Workload := {|
  descriptor_name := lit "copy";
  descriptor_contract := kExact;
  workload_plan := {| plan_input_bytes := 16; plan_output_bytes := 16; plan_scratch_bytes := 8;
                      plan_units := 2; plan_decomposition := 1; logical_bytes := 0; operations := 0 |};
  generate k := replicate 16 (byte_of k);
  compute _ input _ scratch := (input, scratch);
|}.

Definition sample_oracle : Oracle := {|
  oracle_workload := lit "copy";
  oracle_contract := kExact;
  oracle_check _ evidence :=
    Answered (if bool_decide (unit_output evidence = unit_input evidence) then Agreement 1
              else ExactMismatch (lit "the copy") None 1);
|}.

#[export] Instance sample_laws : WorkloadLaws sample_workload 1.
Proof. split; [done|]. cbn. intros. split; congruence. Qed.

#[export] Instance sample_agrees : OracleAgrees sample_workload sample_oracle 1.
Proof. split. intros. exists 1. split; [done|]. cbn. by rewrite bool_decide_true. Qed.

Definition sample_layout : Layout :=
  {| layout_line_bytes := 64; input_bytes := 16; output_bytes := 16; units := 2;
     input_stride := 64; output_stride := 64; outputs := 128; regenerated := 256;
     scratch := 320; scratch_bytes := 8; layout_bytes := 384; mapping_bytes := 448 |}.

Definition sample_base : Provenance :=
  {| logical_cpu := Some 3; physical_package := None; physical_core := None; numa_node := None;
     buffer_address := None; buffer_offset := None; iteration := None;
     prov_workload := Some (lit "copy"); workload_version := Some 1; seed := Some 7; isa := None;
     input_integrity := None; duty := None; decomposition := None; footprint_bytes := None |}.

(** Every unit to the oracle, every second one bracketed. *)
Definition sample_duty : DutyCycle := {| oracle_period := 1; integrity_period := 2 |}.

Lemma sample_setup : runner_setup sample_workload sample_base sample_duty sample_layout 16 1.
Proof.
  split.
  - unfold plan_sized, in_u64. cbn. lia.
  - by unfold plan_holds_units.
  - unfold line_ok, in_u32. cbn. split; [split; [lia|done]|lia].
  - by unfold laid_out.
  - cbn. lia.
  - cbn. lia.
  - unfold in_u32. cbn. lia.
  - unfold in_u64. cbn. lia.
  - by vm_compute.
Qed.

Definition sample_runner : RunnerState :=
  start_runner sample_layout
    {| copies := replicate kCopies (encode (initial_words sample_base sample_duty 0 64)); repairs := 0 |}
    (replicate 448 (byte_of 0)) 0.

Lemma sample_at : runner_at sample_base sample_duty sample_layout 0 sample_runner.
Proof. unfold runner_at, in_u64. cbn. split_and!; (done || lia). Qed.

(** The first copy of the control state zeroed before the vote, and an input byte flipped
    while the unit is computed, when it is a slot's first. *)
Definition struck : Weather := {|
  on_copies cs := <[0%nat := replicate kCopyBytes (byte_of 0)]> cs;
  on_memory p m := match p with BeforeCheck => <[16%nat := byte_of 99]> m | _ => m end;
|}.

Lemma struck_steady : steady struck.
Proof.
  split.
  - intros p m. unfold size_of. destruct p; cbn; by rewrite ?length_insert.
  - exists 0%nat. intros cs Hcs. cbn. split_and!; [|by rewrite length_insert|].
    + by apply Forall_insert.
    + intros j Hj. by apply list_lookup_insert_ne.
Qed.

#[local] Abbreviation sample_slice weathers :=
  (run_slice sample_workload sample_oracle sample_base sample_duty sample_layout 48 16 weathers sample_runner).

Lemma slice_accounts_witness :
  ∃ report r', sample_slice [struck; calm; struck] = Some (Value report, r')
    ∧ accounts sample_base sample_duty 0 3 (slice_tally report, slice_records report)
    ∧ length (slice_records report) = 4%nat.
Proof.
  destruct (slice_accounts sample_workload sample_oracle sample_base sample_duty sample_layout 48 16 1
    sample_setup [struck; calm; struck] 0 sample_runner) as (report & r' & E & _ & _ & _ & Hacc).
  - repeat apply Forall_cons_2; try apply struck_steady; [apply calm_steady|apply Forall_nil_2].
  - lia.
  - by vm_compute.
  - apply sample_at.
  - exists report, r'. split; [exact E|]. split; [exact Hacc|]. vm_compute in E. injection E as <- _. reflexivity.
Defined.

Lemma control_faults_invisible_witness :
  ∃ report a b, sample_slice [struck; struck] = Some (Value report, a)
    ∧ sample_slice (spare_copies <$> [struck; struck]) = Some (Value report, b) ∧ r_memory a = r_memory b.
Proof.
  destruct (control_faults_invisible sample_workload sample_oracle sample_base sample_duty sample_layout
    48 16 1 sample_setup [struck; struck] 0 sample_runner) as (report & a & b & Ea & Eb & Em & _).
  - repeat apply Forall_cons_2; try apply struck_steady. apply Forall_nil_2.
  - lia.
  - by vm_compute.
  - apply sample_at.
  - exists report, a, b. exact (conj Ea (conj Eb Em)).
Defined.

Lemma struck_spares : spares_regeneration sample_layout 16 struck.
Proof.
  intros p m Hm. destruct p; try done. cbn [on_memory struck]. unfold piece. cbn.
  by rewrite drop_insert_lt by lia.
Qed.

Lemma no_silent_corruption_witness :
  ∃ r' t found d,
    run_unit sample_workload sample_oracle sample_base sample_duty sample_layout 48 16 struck
      sample_runner (no_tally, [])
    = Some (true, r', (t, [set_integrity found kCorruptDuringConsumption;
        input_record sample_base 48 (unit_at sample_base sample_duty sample_layout 16 0) d
          kCorruptDuringConsumption])).
Proof.
  destruct (no_silent_corruption sample_workload sample_oracle sample_base sample_duty sample_layout
    48 16 1 sample_setup struck 0 sample_runner (no_tally, [])) as (r' & t & new & E & Hcases).
  - apply struck_steady.
  - apply struck_spares.
  - lia.
  - lia.
  - apply sample_at.
  - reflexivity.
  - destruct Hcases as [(Hbad & _)|[(_ & _ & found & d & _ & -> & _)|(_ & Hbad & _)]].
    + exfalso. apply Hbad. vm_compute. reflexivity.
    + destruct found as [found|]; [exists r', t, found, d; exact E|].
      exfalso. vm_compute in E. discriminate.
    + exfalso. vm_compute in Hbad. discriminate.
Defined.

(** A copy struck, the buffers left alone. *)
Definition struck_copy : Weather :=
  {| on_copies := on_copies struck; on_memory := λ _, id |}.

Lemma sound_slice_clean_witness :
  ∃ t r', sample_slice [struck_copy; calm; struck_copy]
    = Some (Value {| slice_tally := t; slice_records := []; slice_next_index := 3 |}, r')
    ∧ units_computed t = 3 ∧ integrity_checked t = 2.
Proof.
  destruct (sound_slice_clean sample_workload sample_oracle sample_base sample_duty sample_layout 48 16 1
    sample_setup [struck_copy; calm; struck_copy] 0 sample_runner) as (t & r' & E & _ & Hu & _ & Hi & _).
  - assert (still struck_copy) by (split; [split; [done|apply struck_steady]|done]).
    repeat apply Forall_cons_2; try done. split; [apply calm_steady|done].
  - lia.
  - by vm_compute.
  - apply sample_at.
  - exists t, r'. split; [exact E|]. split; [exact Hu|]. rewrite Hi. by vm_compute.
Defined.

(** All three copies zeroed. *)
Definition undecided : Weather :=
  {| on_copies := fmap (λ _, replicate kCopyBytes (byte_of 0)); on_memory := λ _, id |}.

Lemma zeroed_undecidable rep :
  in_u64 rep → undecidable sample_base sample_duty sample_layout undecided 1 rep.
Proof.
  intros Hr. split.
  - split_and!; [done|by repeat constructor|done].
  - intros words (Hw & i & j & _ & Hi & _). cbn [copies on_copies undecided] in Hi.
    rewrite list_lookup_fmap in Hi. destruct (_ !! i); [|done]. injection Hi as Hi.
    apply (f_equal (λ c, verified (decode c))) in Hi.
    rewrite decode_encode in Hi by apply Hw. by vm_compute in Hi.
Qed.

Lemma undecided_run_stops_witness :
  ∃ report r', sample_slice [calm; undecided; calm] = Some (Value report, r')
    ∧ slice_next_index report = 1 ∧ r_halted r' = true.
Proof.
  destruct (undecided_run_stops sample_workload sample_oracle sample_base sample_duty sample_layout
    48 16 1 sample_setup [calm] [calm] undecided 0 sample_runner) as (subject & reason & r' & E & _ & Hh & _).
  - apply Forall_singleton, calm_steady.
  - lia.
  - by vm_compute.
  - apply sample_at.
  - apply zeroed_undecidable.
  - eexists _, r'. split; [exact E|]. split; [reflexivity|exact Hh].
Defined.

Lemma finish_states_gaps_witness :
  ∃ records r', finish sample_workload sample_base sample_duty sample_runner
    = (Value {| slice_tally := no_tally; slice_records := records; slice_next_index := 0 |}, r')
    ∧ size_of records = 2.
Proof.
  destruct (finish_states_gaps sample_workload sample_oracle sample_base sample_duty sample_layout 48 16 1
    sample_setup 0 sample_runner sample_at) as (records & r' & E & _ & Hsize & _).
  exists records, r'. split; [exact E|exact Hsize].
Defined.
