(* ===== verification/MakeRunner.v ===== *)
(** * verification/integrity/slice_runner.cpp: make_slice_runner

    A runner is made from its setup in one go: the setup's parts are checked, the
    working set is laid out and mapped, the control state is mapped and written, and
    what was done about locking is noted. What it makes is a runner about to run its
    first unit, in the sense every theorem of [SliceRunner] starts from; what it refuses
    leaves no mapping behind. *)

From S2P Require Export Memory SliceRunner.

(** A pointer of the setup is [None] when null; the executor is its thread count. *)
Record RunnerSetup := {
  setup_workload : option Workload;
  setup_oracle : option Oracle;
  setup_executor : option Z;
  setup_syscalls : bool;
  setup_duty_cycle : DutyCycle;
  setup_line_bytes : Z;
  setup_provenance : Provenance;
  setup_first_index : Z;
  setup_lock : LockPolicy;
}.

Definition describe_contract (contract : Contract) : text :=
  match contract with kExact => lit "exact" | kBounded => lit "bounded" end.

(** An [IntegrityRunner] and what it holds. *)
Record MadeRunner := {
  made_workload : Workload;
  made_oracle : Oracle;
  made_threads : Z;
  made_base : Provenance;
  made_duty : DutyCycle;
  made_layout : Layout;
  made_working_set : Mapping;
  made_slack : Z;
  made_copies : list Mapping;
  made_lock : MemoryLock;
  made_state : RunnerState;
}.

Definition configuration {A} (detail : text) : Result A RunnerError :=
  Error {| runner_fault := kConfiguration; runner_detail := detail |}.

(** The checks before anything is mapped. *)
Definition checked_setup (setup : RunnerSetup) : Result (Workload * Oracle * Z * Layout) RunnerError :=
  match setup_workload setup with None => configuration (lit "no workload") | Some w =>
  match setup_oracle setup with None => configuration (lit "no oracle") | Some oracle =>
  match setup_executor setup with None => configuration (lit "no executor") | Some threads =>
  if negb (setup_syscalls setup) then configuration (lit "no system-call seam") else
  if negb (bool_decide (oracle_workload oracle = descriptor_name w))
  then configuration (lit "the oracle checks '" ++ oracle_workload oracle
                      ++ lit "' and the workload is '" ++ descriptor_name w ++ lit "'") else
  if negb (bool_decide (oracle_contract oracle = descriptor_contract w))
  then configuration (lit "the workload is checked by the " ++ describe_contract (descriptor_contract w)
                      ++ lit " contract and the oracle offers the "
                      ++ describe_contract (oracle_contract oracle) ++ lit " one") else
  match plan_layout (workload_plan w) threads (setup_line_bytes setup) with
  | Error e => Error e
  | Value layout => Value (w, oracle, threads, layout)
  end end end end.

(** The control words [make_slice_runner] starts from, set one by one. *)
Definition setup_words (setup : RunnerSetup) : list Z :=
  initial_words (setup_provenance setup) (setup_duty_cycle setup) (setup_first_index setup)
    (setup_line_bytes setup).

(** Over everything the runner holds: the working set first, then the copies. *)
Definition joined_lock (policy : LockPolicy) (placed : Placed) (outcome : LockOutcome) (detail : text) :
    MemoryLock :=
  let falls := negb (bool_decide (placed_outcome placed = kFellBack)) && bool_decide (outcome = kFellBack) in
  {| lock_policy := policy;
     lock_outcome := if falls then kFellBack else placed_outcome placed;
     lock_detail := if falls then lit "control state: " ++ detail else placed_detail placed |}.

Section Make.
Context {K : Type} `{MemoryCalls K}.

Definition make_slice_runner (strerror : Z → text) (setup : RunnerSetup) (s : K) :
    Result MadeRunner RunnerError * K :=
  match checked_setup setup with
  | Error e => (Error e, s)
  | Value (w, oracle, threads, layout) =>
      let node := numa_node (setup_provenance setup) in
      let request := {| requested_bytes := mapping_bytes layout; huge_pages := kNoHugePages;
                        Memory.populate := true; lock := false; node := node |} in
      let (working_set, s) := map_by_policy strerror request (setup_lock setup) s in
      match working_set with
      | Error refused =>
          (Error {| runner_fault := kResources;
                    runner_detail := lit "working set: " ++ describe_refused strerror refused |}, s)
      | Value placed =>
          let m := placed_mapping placed in
          let (control, s) := create_control strerror (setup_words setup)
                                (from_option (λ node, [node]) [] node) (setup_lock setup) s in
          match control with
          | Error refused =>
              let (_, s) := unmap (map_address m) (map_bytes m) s in
              (Error {| runner_fault := kResources;
                        runner_detail := lit "control state, copy " ++ to_dec (Z.of_nat (refused_copy refused))
                          ++ lit ": " ++ describe_refused strerror (refused_mapping refused) |}, s)
          | Value (control, copies, outcome, detail) =>
              (Value {| made_workload := w; made_oracle := oracle; made_threads := threads;
                        made_base := runner_base (setup_provenance setup); made_duty := setup_duty_cycle setup;
                        made_layout := layout;
                        made_working_set := m;
                        made_slack := slack_of (map_address m) (layout_line_bytes layout);
                        made_copies := copies;
                        made_lock := joined_lock (setup_lock setup) placed outcome detail;
                        made_state := start_runner layout control
                          (replicate (Z.to_nat (mapping_bytes layout)) (byte_of 0)) (setup_first_index setup) |}, s)
          end
      end
  end.

End Make.

(** ** What is made is ready *)

Section Facts.
Context {K : Type} `{MemoryLaws K}.
Implicit Types s : K.

(** The widths of the setup's fields, and the enumerations the caller's provenance holds. *)
Definition setup_widths (setup : RunnerSetup) : Prop :=
  from_option (λ w, from_option (plan_sized (workload_plan w)) True (setup_executor setup)) True
    (setup_workload setup)
  ∧ in_u32 (setup_line_bytes setup) ∧ in_u64 (setup_first_index setup)
  ∧ in_u32 (oracle_period (setup_duty_cycle setup)) ∧ in_u32 (integrity_period (setup_duty_cycle setup))
  ∧ from_option in_u64 True (seed (setup_provenance setup))
  ∧ opt_test (λ path, path <? kIsaPathCount) (isa (setup_provenance setup)) = true
  ∧ opt_test (λ i, i <=? kNotChecked) (input_integrity (setup_provenance setup)) = true.

(** Every mapping of a process lies in its half of the address space. *)
Definition in_user_space s : Prop :=
  ∀ a length, mappings s !! a = Some length → 0 ≤ a ∧ a + length ≤ 2 ^ 47.

Lemma checked_setup_spec setup :
  setup_widths setup →
  match checked_setup setup with
  | Value (w, oracle, threads, layout) =>
      setup_workload setup = Some w ∧ setup_oracle setup = Some oracle ∧ setup_executor setup = Some threads
      ∧ oracle_workload oracle = descriptor_name w ∧ oracle_contract oracle = descriptor_contract w
      ∧ plan_sized (workload_plan w) threads ∧ plan_holds_units (workload_plan w)
      ∧ line_ok (setup_line_bytes setup) ∧ laid_out (workload_plan w) threads (setup_line_bytes setup) layout
      ∧ in_u64 (mapping_bytes layout)
  | Error e => runner_fault e ≠ kFinished
  end.
Proof.
  intros (Hsized & Hline & _). unfold checked_setup.
  destruct (setup_workload setup) as [w|]; [|done]. destruct (setup_oracle setup) as [oracle|]; [|done].
  destruct (setup_executor setup) as [threads|]; [|done]. destruct (negb (setup_syscalls setup)); [done|].
  case_bool_decide; [|done]. case_bool_decide; [|done]. cbn [negb from_option] in *.
  pose proof (plan_layout_accepts (workload_plan w) threads (setup_line_bytes setup)) as Hacc.
  pose proof (plan_layout_sizes (workload_plan w) threads (setup_line_bytes setup) Hsized) as Hl.
  destruct (plan_layout _ _ _) as [layout|e]; [|done]. destruct Hacc as [Hok Hun].
  destruct (Hl Hok Hline Hun) as [Hfit Hlaid].
  pose proof (working_set_nonneg (workload_plan w) threads _ Hsized Hok).
  split_and!; try done; unfold in_u64; destruct Hlaid as (_&Ei&Eo&Eu&Eis&Eos&Eouts&Ere&Esc&Esb&Eb&->).
  all: rewrite Eb, Esc, Ere, Eouts, Esb, Eis, Eos, Eu; unfold working_set in *; lia.
Qed.

Lemma setup_base_ok setup :
  setup_widths setup → let base := runner_base (setup_provenance setup) in
  opt_test (λ name, size_of name <=? kMaxTextBytes) (prov_workload base) = true
  ∧ opt_test (λ path, path <? kIsaPathCount) (isa base) = true
  ∧ opt_test (λ i, i <=? kNotChecked) (input_integrity base) = true.
Proof.
  intros (_ & _ & _ & _ & _ & _ & Hisa & Hint) base. split_and!; [|done|done].
  unfold base, runner_base. cbn [prov_workload]. destruct (prov_workload _) as [name|]; [|done].
  cbn. apply Z.leb_le, bounded_size.
Qed.

(** The slack aligns the mapping's start. *)
Lemma slack_ok start line :
  line_ok line → in_u32 line → 0 ≤ start → start + line ≤ 2 ^ 64 →
  0 ≤ slack_of start line < line ∧ (line | start + slack_of start line).
Proof.
  intros [H8 Hbit] Hline Hs Hend. destruct (line_power line Hbit ltac:(lia)) as (k & Hk0 & ->).
  assert (Hk : 0 ≤ k < 64). { split; [done|]. unfold in_u32 in Hline. apply (Z.pow_lt_mono_r_iff 2); lia. }
  unfold slack_of. rewrite u64_small by (unfold in_u64; lia). rewrite mask_line by lia.
  pose proof (rounded_le start (2 ^ k) ltac:(lia) Hs) as [Hr Hd]. unfold rounded in *.
  split; [lia|]. by replace (start + (_ - start)) with ((start + 2 ^ k - 1) / 2 ^ k * 2 ^ k) by lia.
Qed.

Lemma laid_out_mapping plan threads line l :
  plan_sized plan threads → line_ok line → laid_out plan threads line l → line ≤ mapping_bytes l.
Proof.
  intros (Hi & Ho & Hs & Hu & Ht) [Hl _] (El&Ei&Eo&Eu&Eis&Eos&Eouts&Ere&Esc&Esb&Eb&->). unfold in_u64 in *.
  assert (Hst : 0 ≤ plan_scratch_bytes plan * threads) by nia.
  pose proof (rounded_le (plan_input_bytes plan) line ltac:(lia) ltac:(lia)) as [Hri _].
  pose proof (rounded_le (plan_output_bytes plan) line ltac:(lia) ltac:(lia)) as [Hro _].
  pose proof (rounded_le (scratch_bytes l) line ltac:(lia) ltac:(lia)) as [Hrs _].
  rewrite Eb, Esc, Ere, Eouts, Eis, Eos, Eu. nia.
Qed.

(** A runner's setup and its first state, from what [make_slice_runner] has in hand. *)
Lemma made_runner setup w threads layout a control :
  setup_widths setup → plan_sized (workload_plan w) threads → plan_holds_units (workload_plan w) →
  line_ok (setup_line_bytes setup) → laid_out (workload_plan w) threads (setup_line_bytes setup) layout →
  0 ≤ a → a + mapping_bytes layout ≤ 2 ^ 47 →
  copies control = replicate kCopies (encode (setup_words setup)) → repairs control = 0 →
  runner_setup w (runner_base (setup_provenance setup)) (setup_duty_cycle setup) layout
    (slack_of a (layout_line_bytes layout)) threads
  ∧ runner_at (runner_base (setup_provenance setup)) (setup_duty_cycle setup) layout
      (setup_first_index setup)
      (start_runner layout control (replicate (Z.to_nat (mapping_bytes layout)) (byte_of 0))
         (setup_first_index setup))
  ∧ (layout_line_bytes layout | a + slack_of a (layout_line_bytes layout)).
Proof.
  intros Hwidths Hsized Hun Hok Hlaid Ha Hend Hcopies Hrep.
  pose proof (laid_out_mapping _ _ _ _ Hsized Hok Hlaid) as Hmap.
  pose proof (setup_base_ok setup Hwidths) as Hbase.
  destruct Hwidths as (_ & Hline & _ & Hd1 & Hd2 & Hseed & _). pose proof (proj1 Hlaid) as El.
  destruct (slack_ok a (setup_line_bytes setup) Hok Hline Ha) as [Hslack Hdiv]; [lia|].
  assert (H8 : 8 ≤ setup_line_bytes setup) by apply Hok.
  split; [|split; [|by rewrite El]].
  - split; rewrite ?El; try done. lia.
  - unfold runner_at, memory_ok, start_runner, words_at.
    cbn [r_memory r_control r_next_index r_finished r_halted]. rewrite Hrep, El. split_and!; try done.
    rewrite size_of_replicate. lia.
Qed.

(** The mappings a runner holds: its working set and, over that, the control state's. *)
Definition holds (made : MadeRunner) s s' : Prop :=
  let m := made_working_set made in
  mappings s !! map_address m = None
  ∧ held (<[map_address m := map_bytes m]> (mappings s)) (made_copies made) s'
  ∧ map_bytes m = mapping_bytes (made_layout made) ∧ length (made_copies made) = kCopies.

(** [make_slice_runner] makes a runner that is ready, or nothing. What it makes has the
    setup's own workload, oracle and threads, the oracle being that workload's and under
    its contract; it stands in a working set laid out for the plan, line-aligned by its
    slack, with every mapping it needs and no other; its control state decides the
    setup's values, and it is about to run the first index with nothing counted. That
    is what every theorem of a slice starts from. Anything else is refused as a bad
    configuration or for want of resources, never as finished, and leaves the mappings
    of the process as they were: a working set mapped before the control state could
    not be is unmapped. *)
Theorem made_ready (strerror : Z → text) (setup : RunnerSetup) s :
  setup_widths setup → in_user_space (make_slice_runner strerror setup s).2 →
  match make_slice_runner strerror setup s with
  | (Value made, s') =>
      let w := made_workload made in
      setup_workload setup = Some w ∧ setup_oracle setup = Some (made_oracle made)
      ∧ setup_executor setup = Some (made_threads made)
      ∧ oracle_workload (made_oracle made) = descriptor_name w
      ∧ oracle_contract (made_oracle made) = descriptor_contract w
      ∧ runner_setup w (made_base made) (setup_duty_cycle setup) (made_layout made) (made_slack made)
          (made_threads made)
      ∧ runner_at (made_base made) (setup_duty_cycle setup) (made_layout made)
          (setup_first_index setup) (made_state made)
      ∧ r_total (made_state made) = no_tally
      ∧ (layout_line_bytes (made_layout made) | map_address (made_working_set made) + made_slack made)
      ∧ holds made s s' ∧ outcome_fits (setup_lock setup) (lock_outcome (made_lock made))
  | (Error e, s') => runner_fault e ≠ kFinished ∧ mappings s' = mappings s
  end.
Proof.
  intros Hwidths. pose proof (checked_setup_spec setup Hwidths) as Hc. unfold make_slice_runner.
  destruct (checked_setup setup) as [[[[w oracle] threads] layout]|e]; [|done].
  destruct Hc as (Ew & Eo & Et & Ename & Econ & Hsized & Hun & Hok & Hlaid & Hmap).
  set (request := {| requested_bytes := _ |}).
  pose proof (map_by_policy_spec strerror request (setup_lock setup) s Hmap) as Hp.
  destruct (map_by_policy _ _ _ s) as [[placed|refused] s1]; unfold placed_or_not in Hp.
  2: { intros _. by destruct Hp as (-> & _). }
  destruct Hp as (Hbytes & Hfree & Hm1 & _ & Hout & _).
  pose proof (create_control_spec strerror (setup_words setup)
    (from_option (λ node, [node]) [] (numa_node (setup_provenance setup))) (setup_lock setup) s1) as Hcontrol.
  destruct (create_control _ _ _ _ s1) as [[[[[control copies] outcome] detail]|refused] s2].
  - destruct Hcontrol as (Hcopies & Hrep & Hl & Hheld & Hfits). cbn [snd]. intros Huser.
    assert (Hws : mappings s2 !! map_address (placed_mapping placed) = Some (mapping_bytes layout)).
    { destruct Hheld as (_ & Hall & Hm2). rewrite Hm2, decide_False.
      - rewrite Hm1, lookup_insert_eq. by rewrite Hbytes.
      - intros (m & Em & Hin)%list_elem_of_fmap. eapply Forall_forall in Hall as [_ Hnew]; [|done].
        rewrite <- Em, Hm1, lookup_insert_eq in Hnew. done. }
    destruct (Huser _ _ Hws) as [Ha Hend].
    destruct (made_runner setup w threads layout _ control Hwidths Hsized Hun Hok Hlaid Ha Hend Hcopies Hrep)
      as (Hsetup & Hat & Hdiv).
    cbn [made_workload made_oracle made_threads made_base made_layout made_working_set made_slack
         made_copies made_lock made_state].
    unfold holds. cbn [made_working_set made_copies made_layout]. rewrite Hm1 in Hheld.
    split_and!; try done. unfold joined_lock, outcome_fits in *. cbn [lock_outcome].
    destruct (setup_lock setup); repeat case_bool_decide; cbn; congruence.
  - destruct (unmap_drops (map_address (placed_mapping placed)) (map_bytes (placed_mapping placed)) s2)
      as (s3 & -> & Hm3 & _).
    { rewrite Hcontrol, Hm1. apply lookup_insert_eq. }
    intros _. split; [done|]. rewrite Hm3, Hcontrol, Hm1. by apply delete_insert_id.
Qed.
End Facts.

(** A runner of the sample workload, on a kernel that grants two locks: the working set's
    and the first copy's, so that the control state falls back. *)
Definition sample_made : RunnerSetup := {|
  setup_workload := Some sample_workload;
  setup_oracle := Some sample_oracle;
  setup_executor := Some 1;
  setup_syscalls := true;
  setup_duty_cycle := sample_duty;
  setup_line_bytes := 64;
  setup_provenance := sample_base;
  setup_first_index := 5;
  setup_lock := kTry;
|}.

Lemma made_ready_witness :
  ∃ made s', make_slice_runner (λ _, []) sample_made two_locks = (Value made, s')
    ∧ runner_at (made_base made) sample_duty (made_layout made) 5 (made_state made)
    ∧ lock_outcome (made_lock made) = kFellBack.
Proof.
  assert (Hwidths : setup_widths sample_made).
  { unfold setup_widths, plan_sized, in_u32, in_u64. cbn. split_and!; (done || lia). }
  assert (Huser : in_user_space (make_slice_runner (λ _, []) sample_made two_locks).2).
  { intros a length Ha. cbn [mappings kernel_laws] in Ha.
    assert (Hall : map_Forall (λ a length, 0 ≤ a ∧ a + length ≤ 2 ^ 47)
      (k_maps (make_slice_runner (λ _, []) sample_made two_locks).2)).
    { apply (bool_decide_unpack _). by vm_compute. }
    by apply (Hall a length). }
  pose proof (made_ready (λ _, []) sample_made two_locks Hwidths Huser) as Hmade.
  destruct (make_slice_runner _ _ _) as [[made|e] s'] eqn:E.
  - exists made, s'. split; [reflexivity|]. destruct Hmade as (_ & _ & _ & _ & _ & _ & Hat & _).
    split; [exact Hat|]. apply (f_equal fst) in E. vm_compute in E. injection E as <-. reflexivity.
  - exfalso. apply (f_equal fst) in E. vm_compute in E. discriminate.
Defined.
