(* ===== verification/Lists.v ===== *)
(** * Lists: counting, sums and orders

    Lemmas on lists that several components share: how many elements satisfy a test and
    what their weights sum to, when one of them changes; and lists in ascending order. *)

From stdpp Require Export sorting.
From S2P Require Export Prelude.

(** ** One element changes *)

Lemma insert_rest {A} (l : list A) i x y :
  l !! i = Some x → l ≡ₚ x :: delete i l ∧ <[i := y]> l ≡ₚ y :: delete i l.
Proof.
  intros H. split; [by apply delete_Permutation|].
  rewrite (delete_Permutation (<[i := y]> l) i y) by (apply list_lookup_insert_eq; by eapply lookup_lt_Some).
  rewrite !delete_take_drop, take_insert_ge, drop_insert_lt by lia. done.
Qed.

(** How many of [l] satisfy [f]. *)
Definition census {A} (f : A → bool) (l : list A) : Z := Z.of_nat (length (filter (λ x, f x = true) l)).

Definition one (b : bool) : Z := if b then 1 else 0.

Lemma census_cons {A} (f : A → bool) x l : census f (x :: l) = one (f x) + census f l.
Proof. unfold census, one. rewrite filter_cons. destruct (f x); case_decide; cbn [length]; (lia || congruence). Qed.

#[export] Instance census_proper {A} (f : A → bool) : Proper (Permutation ==> eq) (census f).
Proof. intros l l' E. unfold census. by rewrite E. Qed.

Lemma census_insert {A} (f : A → bool) l i x y :
  l !! i = Some x → census f (<[i := y]> l) = census f l - one (f x) + one (f y).
Proof.
  intros H. destruct (insert_rest l i x y H) as [E1 E2]. rewrite E2. rewrite E1 at 2.
  rewrite !census_cons. lia.
Qed.

Lemma census_bounds {A} (f : A → bool) l : 0 ≤ census f l ≤ Z.of_nat (length l).
Proof. unfold census. pose proof (length_filter (λ x, f x = true) l). lia. Qed.

Lemma census_all {A} (f : A → bool) l :
  census f l = Z.of_nat (length l) ↔ ∀ i x, l !! i = Some x → f x = true.
Proof.
  rewrite <- Forall_lookup. induction l as [|x l IH]; [done|].
  rewrite census_cons, Forall_cons. pose proof (census_bounds f l). cbn [length].
  unfold one. destruct (f x); [|split; [lia|naive_solver]]. split.
  - intros E. split; [done|]. apply IH. lia.
  - intros [_ E%IH]. lia.
Qed.

Lemma census_none {A} (f : A → bool) l : (∀ i x, l !! i = Some x → f x = false) → census f l = 0.
Proof.
  rewrite <- Forall_lookup. induction 1 as [|x l Hx Hl IH]; [done|]. rewrite census_cons, IH. by rewrite Hx.
Qed.

Definition sum (l : list Z) : Z := foldr Z.add 0 l.

Lemma sum_cons x l : sum (x :: l) = x + sum l.
Proof. done. Qed.

#[export] Instance sum_proper : Proper (Permutation ==> eq) sum.
Proof. intros l l' E. unfold sum. induction E; cbn; lia. Qed.

Lemma sum_insert {A} (f : A → Z) l i x y : l !! i = Some x → sum (f <$> <[i := y]> l) = sum (f <$> l) - f x + f y.
Proof.
  intros H. destruct (insert_rest l i x y H) as [E1 E2]. rewrite E2. rewrite E1 at 2.
  rewrite !fmap_cons, !sum_cons. lia.
Qed.

Lemma sum_le {A} (f g : A → Z) (l : list A) n :
  (∀ i x, l !! i = Some x → f x ≤ g x + n) → sum (f <$> l) ≤ sum (g <$> l) + n * Z.of_nat (length l).
Proof.
  rewrite <- Forall_lookup. induction 1 as [|x l Hx _ IH]; [cbn; lia|].
  rewrite !fmap_cons, !sum_cons. cbn [length]. lia.
Qed.

Lemma sum_nonneg {A} (f : A → Z) l : (∀ x, 0 ≤ f x) → 0 ≤ sum (f <$> l).
Proof. intros Hf. induction l as [|x l IH]; [done|]. rewrite fmap_cons, sum_cons. specialize (Hf x). lia. Qed.

Lemma sum_zero {A} (l : list A) (f : A → Z) : (∀ x, x ∈ l → f x = 0) → sum (f <$> l) = 0.
Proof.
  induction l as [|x l IH]; intros Hf; [done|]. rewrite fmap_cons, sum_cons, (Hf x) by (by left).
  rewrite IH; [done|]. intros y Hy. apply Hf. by right.
Qed.

(** ** Ranges and orders *)

Lemma seqZ_snoc n : 0 ≤ n → seqZ 0 (n + 1) = seqZ 0 n ++ [n].
Proof.
  intros Hn. rewrite <- (Z2Nat.id n) by done. replace (Z.of_nat (Z.to_nat n) + 1) with (Z.of_nat (S (Z.to_nat n))) by lia.
  by rewrite seqZ_S.
Qed.

Lemma sorted_seqZ m n : StronglySorted Z.lt (seqZ m n).
Proof.
  unfold seqZ. generalize (Z.to_nat n) as k. intros k. generalize 0%nat as i. induction k as [|k IH]; intros i; cbn; constructor.
  - apply IH.
  - apply Forall_fmap, Forall_forall. intros x Hx. apply elem_of_seq in Hx. cbn. lia.
Qed.

Lemma ascending_nodup l : StronglySorted Z.lt l → NoDup l.
Proof.
  induction 1 as [|x l _ IH Hx]; constructor; [|done]. intros Hin. rewrite Forall_forall in Hx. specialize (Hx _ Hin). lia.
Qed.

Lemma StronglySorted_fmap_rel {A B} (R : A → A → Prop) (Q : B → B → Prop) (f : A → B) l :
  (∀ x y, x ∈ l → y ∈ l → R x y → Q (f x) (f y)) → StronglySorted R l → StronglySorted Q (f <$> l).
Proof.
  intros HRQ. induction 1 as [|x l Hl IH Hx]; cbn; constructor.
  - apply IH. intros a b Ha Hb. apply HRQ; by right.
  - apply Forall_fmap, Forall_forall. intros y Hy. cbn. apply HRQ; [by left|by right|]. by rewrite Forall_forall in Hx; apply Hx.
Qed.

(** ** Pointwise relations *)

Lemma Forall2_cons_l {A B} (P : A → B → Prop) x l k :
  Forall2 P (x :: l) k ↔ ∃ y k', P x y ∧ Forall2 P l k' ∧ k = y :: k'.
Proof. split; [by intros (y & k' & ? & ? & ->)%Forall2_cons_inv_l; eauto|]. intros (y & k' & ? & ? & ->). by constructor. Qed.

Lemma Forall2_nil_l {A B} (P : A → B → Prop) k : Forall2 P [] k ↔ k = [].
Proof. split; [apply Forall2_nil_inv_l|]. intros ->. constructor. Qed.
