(* ===== verification/Affinity.v ===== *)
(** * platform/affinity: where a thread may run

    Affinity masks and their identifiers, what a refused placement means, and
    [Affinity::place] (platform/affinity.cpp), with the mask of platform/syscalls.hpp.
    A mask is the number whose bits are its CPUs. *)

From stdpp Require Export sorting.
From S2P Require Export Platform.

(** ** syscalls.hpp *)

Definition kAffinityMaskBits : Z := 1024.

(** [CpuMask]: a bitset of that many bits. *)
Definition CpuMask : Type := Z.

Definition mask_ok (mask : CpuMask) : Prop := 0 ≤ mask < 2 ^ kAffinityMaskBits.

(** ** affinity.cpp *)

Definition ids_of (mask : CpuMask) : list Z :=
  filter (λ cpu, Z.testbit mask cpu = true) (seqZ 0 kAffinityMaskBits).

Fixpoint mask_of_from (mask : CpuMask) (ids : list Z) : Result CpuMask text :=
  match ids with
  | [] => Value mask
  | id :: ids =>
      if kAffinityMaskBits <=? id
      then Error (lit "a CPU id past what an affinity mask can hold")
      else mask_of_from (Z.setbit mask id) ids
  end.

Definition mask_of (ids : list Z) : Result CpuMask text := mask_of_from 0 ids.

Definition describe_mask (mask : CpuMask) : text :=
  let list := foldl (λ list id, list ++ (if bool_decide (list = []) then [] else lit ",") ++ to_dec id)
                [] (ids_of mask) in
  if bool_decide (list = []) then lit "(no CPUs)" else list.

Definition missing_from (wanted permitted : CpuMask) : CpuMask := Z.ldiff wanted permitted.

Inductive PlacementFault := kNoUsableCpu | kThreadGone | kPlacementNotPermitted | kPlacementUnexpected.

Definition describe_placement (placement : PlacementFault) : text :=
  match placement with
  | kNoUsableCpu => lit "no CPU in the mask is one this thread may run on"
  | kThreadGone => lit "the thread no longer exists"
  | kPlacementNotPermitted => lit "not permitted to move this thread"
  | kPlacementUnexpected => lit "the kernel refused for a reason this code does not expect"
  end.

Definition ESRCH : Z := 3.
Definition EPERM_ : Z := 1.

Definition classify_placement (error : SyscallError) : PlacementFault :=
  let number := number_ error in
  if number =? EINVAL then kNoUsableCpu else
  if number =? ESRCH then kThreadGone else
  if number =? EPERM_ then kPlacementNotPermitted else kPlacementUnexpected.

Record PlacementRefused := {
  refused_placement : PlacementFault;
  requested_mask : CpuMask;
  placement_cause : SyscallError;
}.

Definition describe_placement_refused (strerror : Z → text) (refused : PlacementRefused) : text :=
  lit "cannot place the thread on CPU(s) " ++ describe_mask (requested_mask refused) ++ lit ": "
  ++ describe_placement (refused_placement refused) ++ lit " ("
  ++ describe_syscall_error strerror (placement_cause refused) ++ lit ")".

(** [Affinity::place], given what [set_affinity] answered. *)
Definition place (mask : CpuMask) (answer : Result unit SyscallError) : Result unit PlacementRefused :=
  match answer with
  | Value _ => Value tt
  | Error cause => Error {| refused_placement := classify_placement cause; requested_mask := mask;
                            placement_cause := cause |}
  end.

(** ** Masks and identifiers *)

Lemma elem_of_ids_of mask cpu : cpu ∈ ids_of mask ↔ Z.testbit mask cpu = true ∧ 0 ≤ cpu < kAffinityMaskBits.
Proof. unfold ids_of. rewrite list_elem_of_filter, elem_of_seqZ. tauto. Qed.

Lemma ids_of_nodup mask : NoDup (ids_of mask).
Proof. apply NoDup_filter, NoDup_seqZ. Qed.

Lemma mask_of_from_spec ids mask :
  Forall (λ id, 0 ≤ id < kAffinityMaskBits) ids →
  ∃ m, mask_of_from mask ids = Value m
    ∧ ∀ cpu, 0 ≤ cpu → Z.testbit m cpu = true ↔ Z.testbit mask cpu = true ∨ cpu ∈ ids.
Proof.
  revert mask. induction ids as [|id ids IH]; intros mask Hids; cbn [mask_of_from].
  { exists mask. split; [done|]. intros cpu _. rewrite elem_of_nil. tauto. }
  apply Forall_cons in Hids as [Hid Hids]. rewrite (proj2 (Z.leb_gt _ _)) by lia.
  destruct (IH (Z.setbit mask id) Hids) as (m & E & Hm). exists m. split; [done|].
  intros cpu Hcpu. rewrite Hm, Z.setbit_iff, elem_of_cons by lia. naive_solver.
Qed.

Lemma mask_of_from_bad mask ids :
  Exists (λ id, kAffinityMaskBits ≤ id) ids → ∃ why, mask_of_from mask ids = Error why.
Proof.
  intros H. revert mask. induction H as [id ids Hid|id ids _ IH]; intros mask; cbn [mask_of_from].
  - rewrite (proj2 (Z.leb_le _ _)) by done. by eexists.
  - destruct (kAffinityMaskBits <=? id); [by eexists|apply IH].
Qed.

Lemma mask_ok_bit mask cpu : mask_ok mask → kAffinityMaskBits ≤ cpu → Z.testbit mask cpu = false.
Proof.
  intros Hm Hc. unfold mask_ok in Hm. destruct (decide (mask = 0)) as [->|]; [apply Z.bits_0|].
  apply Z.bits_above_log2; [lia|]. apply Z.lt_le_trans with kAffinityMaskBits; [|done].
  apply Z.log2_lt_pow2; lia.
Qed.

(** Two masks with the same CPUs are one. *)
Lemma mask_ext m m' :
  0 ≤ m → 0 ≤ m' → (∀ cpu, 0 ≤ cpu → Z.testbit m cpu = true ↔ Z.testbit m' cpu = true) → m = m'.
Proof.
  intros Hm Hm' H. apply Z.bits_inj'. intros cpu Hcpu. specialize (H cpu Hcpu).
  destruct (Z.testbit m cpu), (Z.testbit m' cpu); naive_solver.
Qed.

Lemma mask_of_from_nonneg mask ids m :
  0 ≤ mask → Forall (λ id, 0 ≤ id) ids → mask_of_from mask ids = Value m → 0 ≤ m.
Proof.
  revert mask. induction ids as [|id ids IH]; intros mask Hmask Hids; cbn [mask_of_from].
  { by intros [= <-]. }
  apply Forall_cons in Hids as [Hid Hids]. destruct (kAffinityMaskBits <=? id); [done|].
  apply IH; [|done]. unfold Z.setbit. apply Z.lor_nonneg. split; [done|]. apply Z.shiftl_nonneg. lia.
Qed.

Lemma sorted_filter {A} (R : relation A) (P : A → Prop) `{!∀ x, Decision (P x)} l :
  StronglySorted R l → StronglySorted R (filter P l).
Proof.
  induction 1 as [|x l Hl IH Hx]; [constructor|]. rewrite filter_cons. case_decide; [|done].
  constructor; [done|]. rewrite Forall_forall in *. intros y Hy. apply list_elem_of_filter in Hy as [_ Hy].
  by apply Hx.
Qed.

Lemma seqZ_sorted m n : StronglySorted Z.lt (seqZ m n).
Proof.
  unfold seqZ. generalize (Z.to_nat n) as k. intros k. induction k as [|k IH]; [constructor|].
  rewrite seq_S, fmap_app. apply StronglySorted_app_2; [|done|repeat constructor].
  intros x y (i & -> & Hi%elem_of_seq)%list_elem_of_fmap (j & -> & Hj)%list_elem_of_fmap.
  apply list_elem_of_singleton in Hj. lia.
Qed.

Lemma ids_of_sorted mask : StronglySorted Z.lt (ids_of mask).
Proof. apply sorted_filter, seqZ_sorted. Qed.

Lemma ids_of_range mask : Forall (λ id, 0 ≤ id < kAffinityMaskBits) (ids_of mask).
Proof. apply Forall_forall. by intros id [_ Hid]%elem_of_ids_of. Qed.

Lemma ids_of_filter mask :
  ids_of mask = filter (λ cpu, Z.testbit mask cpu = true) (seqZ 0 kAffinityMaskBits).
Proof. done. Qed.

(** Affinity masks and lists of CPUs stand for one another. A list of identifiers a
    mask can hold becomes the mask of exactly those CPUs, whose own list is in ascending
    order without repetition; a list with an identifier past what a mask can hold is
    refused; every mask is the mask of its own list; and what is missing from a
    permitted mask is exactly what was wanted and not permitted. *)
Theorem masks_and_ids (ids : list Z) (mask permitted : CpuMask) :
  Forall (λ id, 0 ≤ id) ids → mask_ok mask → mask_ok permitted →
  match mask_of ids with
  | Value m => Forall (λ id, id < kAffinityMaskBits) ids ∧ StronglySorted Z.lt (ids_of m)
               ∧ ∀ cpu, cpu ∈ ids_of m ↔ cpu ∈ ids
  | Error _ => Exists (λ id, kAffinityMaskBits ≤ id) ids
  end
  ∧ mask_of (ids_of mask) = Value mask
  ∧ ids_of (missing_from mask permitted) = filter (λ cpu, cpu ∉ ids_of permitted) (ids_of mask).
Proof.
  intros Hids Hm Hp. split_and!.
  - destruct (list.Forall_Exists_dec (λ id, id < kAffinityMaskBits) (λ id, kAffinityMaskBits ≤ id)
      (λ id, Z_lt_le_dec id kAffinityMaskBits) ids) as [Hin|Hout].
    + destruct (mask_of_from_spec ids 0) as (m & E & Hbits).
      { apply Forall_and. split; done. }
      unfold mask_of. rewrite E. split_and!; [done|apply ids_of_sorted|].
      intros cpu. rewrite elem_of_ids_of. rewrite Forall_forall in Hids, Hin. split.
      * intros [Hb Hr]. apply Hbits in Hb as [Hb|Hb]; [|done|lia]. by rewrite Z.bits_0 in Hb.
      * intros Hcpu. specialize (Hids _ Hcpu). specialize (Hin _ Hcpu).
        split; [|done]. apply Hbits; [done|]. by right.
    + destruct (mask_of_from_bad 0 ids Hout) as [why E]. unfold mask_of. by rewrite E.
  - destruct (mask_of_from_spec (ids_of mask) 0 (ids_of_range mask)) as (m & E & Hbits).
    unfold mask_of. rewrite E. f_equal. apply mask_ext; [|apply Hm|].
    + apply (mask_of_from_nonneg 0 (ids_of mask)); [lia| |done].
      eapply Forall_impl; [apply ids_of_range|]. by intros ? [].
    + intros cpu Hcpu. rewrite Hbits, elem_of_ids_of, Z.bits_0 by done. split; [naive_solver|].
      intros Hb. right. split; [done|]. split; [done|]. destruct (Z_lt_le_dec cpu kAffinityMaskBits); [done|].
      by rewrite mask_ok_bit in Hb.
  - rewrite (ids_of_filter mask), (ids_of_filter (missing_from _ _)), list_filter_filter.
    apply list_filter_iff. intros cpu. unfold missing_from. rewrite elem_of_ids_of.
    destruct (Z_lt_le_dec cpu 0) as [Hneg|Hpos]; [rewrite !Z.testbit_neg_r by done; naive_solver|].
    rewrite Z.ldiff_spec, andb_true_iff, negb_true_iff.
    destruct (Z_lt_le_dec cpu kAffinityMaskBits); [|rewrite (mask_ok_bit mask) by done; naive_solver].
    destruct (Z.testbit permitted cpu); naive_solver.
Qed.

Lemma masks_and_ids_witness :
  mask_of [7; 3; 7] = Value 136 ∧ ids_of 136 = [3; 7] ∧ ids_of (missing_from 136 8) = [7].
Proof.
  destruct (masks_and_ids [7; 3; 7] 136 8) as (H1 & H2 & H3).
  - repeat constructor; lia.
  - unfold mask_ok, kAffinityMaskBits. lia.
  - unfold mask_ok, kAffinityMaskBits. lia.
  - assert (E : ids_of 136 = [3; 7]) by (vm_compute; reflexivity).
    assert (E' : ids_of 8 = [3]) by (vm_compute; reflexivity).
    rewrite E in H2, H3 |- *. rewrite H3, E'. split_and!; [|done|by vm_compute].
    by vm_compute.
Defined.
