(* ===== verification/FpEnv.v ===== *)
(** * platform/fpenv: the floating-point environment

    The state every unit is computed under (platform/fpenv/fpenv.hpp), the check of it
    (check.cpp) and how a process puts itself in it (environment.cpp). The registers
    behind it are a class. *)

From S2P Require Export Bytes.

(** ** fpenv.hpp *)

Inductive Rounding := kToNearestEven | kTowardZero | kUpward | kDownward.

#[export] Instance Rounding_eq_dec : EqDecision Rounding.
Proof. solve_decision. Defined.

Record FpState := {
  rounding : Rounding;
  flush_to_zero : bool;
  denormals_are_zero : option bool;
  default_nan : option bool;
}.

#[export] Instance FpState_eq_dec : EqDecision FpState.
Proof. solve_decision. Defined.

Definition describe_rounding (rounding : Rounding) : text :=
  match rounding with
  | kToNearestEven => lit "to nearest, ties to even"
  | kTowardZero => lit "toward zero"
  | kUpward => lit "upward"
  | kDownward => lit "downward"
  end.

Definition required_state (has_denormals_are_zero has_default_nan : bool) : FpState :=
  {| rounding := kToNearestEven; flush_to_zero := false;
     denormals_are_zero := if has_denormals_are_zero then Some false else None;
     default_nan := if has_default_nan then Some false else None |}.

Record FpViolation := { property : text; violation_found : text }.

(** [FpError]: its violations. *)
Definition FpError : Type := list FpViolation.

(** [FpControl]. *)
Class FpControl (K : Type) := {
  fp_read : K → FpState;
  fp_write : FpState → K → K;
}.

(** ** check.cpp *)

Definition fp_violations (state : FpState) : list FpViolation :=
  (if bool_decide (rounding state ≠ kToNearestEven)
   then [{| property := lit "rounding"; violation_found := describe_rounding (rounding state) |}] else [])
  ++ (if flush_to_zero state then [{| property := lit "flush_to_zero"; violation_found := lit "on" |}] else [])
  ++ (if default false (denormals_are_zero state)
      then [{| property := lit "denormals_are_zero"; violation_found := lit "on" |}] else [])
  ++ (if default false (default_nan state)
      then [{| property := lit "default_nan"; violation_found := lit "on" |}] else []).

Definition check_fp (state : FpState) : Result unit FpError :=
  match fp_violations state with [] => Value tt | violations => Error violations end.

(** ** environment.cpp *)

Section Environment.
Context {K : Type} `{FpControl K}.

Definition assert_environment (s : K) : Result unit FpError := check_fp (fp_read s).

Definition establish_environment (s : K) : Result unit FpError * K :=
  let found := fp_read s in
  let s := fp_write (required_state (bool_decide (is_Some (denormals_are_zero found)))
                                    (bool_decide (is_Some (default_nan found)))) s in
  (assert_environment s, s).

End Environment.

Fixpoint join_violations (first : bool) (violations : list FpViolation) : text :=
  match violations with
  | [] => []
  | violation :: violations =>
      (if first then [] else lit ", ") ++ property violation ++ lit " is " ++ violation_found violation
      ++ join_violations false violations
  end.

Definition describe_fp_error (error : FpError) : text :=
  lit "the floating-point environment is not the required one (" ++ join_violations true error
  ++ lit "); required: round to nearest with ties to even, and every flush-to-zero, denormals-are-zero and default-NaN control this architecture has, off".

(** ** What passes the check *)

(** The state of IEEE 754 with nothing flushed, whichever controls the machine has. *)
Definition strict (state : FpState) : Prop :=
  rounding state = kToNearestEven ∧ flush_to_zero state = false
  ∧ denormals_are_zero state ≠ Some true ∧ default_nan state ≠ Some true.

Lemma check_fp_spec state : check_fp state = Value tt ↔ strict state.
Proof.
  unfold check_fp, fp_violations, strict.
  destruct state as [r [] [[]|] [[]|]], r; cbn; rewrite ?bool_decide_true, ?bool_decide_false by done;
    cbn; naive_solver.
Qed.

Lemma required_strict daz nan : strict (required_state daz nan).
Proof. by destruct daz, nan. Qed.
