(* ===== verification/ThreadPool.v ===== *)
(** * worker/executor: the thread pool

    The hand-off and completion protocol of worker/executor/thread_pool.cpp as threads
    that interleave. A step is what one thread does between two moments at which the
    others may see it: a critical section under [mutex_], a claim from the atomic
    [next_], a task, or the steps of [run], which keeps [mutex_] from its publication
    to its wait. Condition variables block until they are notified or wake spuriously.
    The thread calls and what a new thread finds (its placement, its floating-point
    state) are parameters. *)

From S2P Require Export Affinity FpEnv Lists.

(** ** thread_pool.hpp *)

Definition ThreadPlacement : Type := option CpuMask.

Inductive PoolError :=
| NoThreads
| ThreadNotStarted (thread : nat) (cause : SyscallError)
| ThreadNotPlaced (thread : nat) (refused : PlacementRefused)
| ThreadFpStateDiffers (thread : nat) (expected found : FpState).

(** ** thread_pool.cpp *)

Definition one_thread_per_cpu (cpus : CpuMask) : list ThreadPlacement :=
  (λ cpu, Some (Z.setbit 0 cpu)) <$> ids_of cpus.

Definition describe_flag (flag : option bool) : text :=
  match flag with None => lit "absent" | Some true => lit "on" | Some false => lit "off" end.

Definition describe_state (state : FpState) : text :=
  lit "rounding " ++ describe_rounding (rounding state)
  ++ lit ", flush-to-zero " ++ describe_flag (Some (flush_to_zero state))
  ++ lit ", denormals-are-zero " ++ describe_flag (denormals_are_zero state)
  ++ lit ", default-NaN " ++ describe_flag (default_nan state).

Definition describe_pool_error (strerror : Z → text) (error : PoolError) : text :=
  match error with
  | NoThreads => lit "an executor needs at least one thread, and none was placed"
  | ThreadNotStarted thread cause =>
      lit "cannot start executor thread " ++ to_dec (Z.of_nat thread) ++ lit ": "
      ++ describe_syscall_error strerror cause
  | ThreadNotPlaced thread refused =>
      lit "executor thread " ++ to_dec (Z.of_nat thread) ++ lit ": "
      ++ describe_placement_refused strerror refused
  | ThreadFpStateDiffers thread expected found =>
      lit "executor thread " ++ to_dec (Z.of_nat thread)
      ++ lit " started with a floating-point state other than its creator's: expected "
      ++ describe_state expected ++ lit "; found " ++ describe_state found
  end.

(** What the machine answers the pool: the number [pthread_create] returns for a slot,
    what [set_affinity] answers on its thread, and the state that thread reads. *)
Record Machine := {
  thread_number : nat → Z;
  placed_as : nat → Result unit SyscallError;
  fp_found : nat → FpState;
}.

(** Where a thread of the pool is. *)
Inductive At :=
| AtNone                    (** not created *)
| AtPrepare                 (** about to place and check itself *)
| AtReport                  (** about to lock and report *)
| AtWait                    (** blocked on [wake_] *)
| AtWoken                   (** about to lock and test the wait's condition again *)
| AtClaim                   (** about to claim from [next_] *)
| AtTask (index : Z)        (** about to run the task of an index it claimed *)
| AtLeave                   (** about to lock and add itself to [done_] *)
| AtEnd.                    (** returned *)

(** [Worker], with the locals of [serve]: [seen], and the task and count it copied. A
    task and its context are the number of the run that published them. *)
Record Worker := {
  at_ : At;
  reported : bool;
  failure : option PoolError;
  seen : Z;
  my_task : nat;
  my_count : Z;
}.

(** Where the thread that owns the pool is: in [make_thread_pool] at a slot, in a call of
    [run] with the counts it has still to run, or in the destructor. *)
Inductive Caller :=
| InStart (slot : nat)              (** about to lock in [start] *)
| InCreate (slot : nat)             (** holds [mutex_], about to create the thread *)
| InReport (slot : nat)             (** blocked on [reported_] *)
| InReportWoken (slot : nat)
| InRuns (counts : list Z)          (** between calls of [run] *)
| InPublish (counts : list Z)       (** holds [mutex_] *)
| InReset (counts : list Z)         (** holds [mutex_], about to store [next_] *)
| InAdvance (counts : list Z)       (** holds [mutex_], about to advance [generation_] *)
| InFinish (counts : list Z)        (** blocked on [finished_] *)
| InFinishWoken (counts : list Z)
| InStop (made : option PoolError)  (** about to stop the threads *)
| InJoin (made : option PoolError) (slot : nat)
| InEnd (made : option PoolError).

Record Pool := {
  caller : Caller;
  workers : list Worker;
  started : nat;
  generation : Z;
  stopping : bool;
  task_ : nat;
  count_ : Z;
  done_ : Z;
  next_ : Z;
  returned : nat;                  (** how many calls of [run] have returned *)
  log : list (nat * Z * nat);      (** the tasks run: of which run, index, slot; the last first *)
}.

(** [mutex_] is free whenever the owner does not hold it: every other critical section
    is one step. *)
Definition mutex_free (p : Pool) : bool :=
  match caller p with
  | InCreate _ | InPublish _ | InReset _ | InAdvance _ => false
  | _ => true
  end.

Definition with_caller (p : Pool) (c : Caller) : Pool :=
  {| caller := c; workers := workers p; started := started p; generation := generation p;
     stopping := stopping p; task_ := task_ p; count_ := count_ p; done_ := done_ p; next_ := next_ p;
     returned := returned p; log := log p |}.

Definition with_workers (p : Pool) (ws : list Worker) : Pool :=
  {| caller := caller p; workers := ws; started := started p; generation := generation p;
     stopping := stopping p; task_ := task_ p; count_ := count_ p; done_ := done_ p; next_ := next_ p;
     returned := returned p; log := log p |}.

Definition with_worker (p : Pool) (slot : nat) (w : Worker) : Pool :=
  with_workers p (<[slot := w]> (workers p)).

Definition move (w : Worker) (a : At) : Worker :=
  {| at_ := a; reported := reported w; failure := failure w; seen := seen w; my_task := my_task w;
     my_count := my_count w |}.

(** [notify_all] on [wake_]. *)
Definition wake (w : Worker) : Worker :=
  match at_ w with AtWait => move w AtWoken | _ => w end.

(** [notify_one] on [reported_] and on [finished_]: only the owner waits on them. *)
Definition notify_reported (p : Pool) : Pool :=
  match caller p with InReport slot => with_caller p (InReportWoken slot) | _ => p end.
Definition notify_finished (p : Pool) : Pool :=
  match caller p with InFinish counts => with_caller p (InFinishWoken counts) | _ => p end.

Definition threads (p : Pool) : Z := Z.of_nat (length (workers p)).

(** A thread adds itself to [done_], and the last of them notifies. *)
Definition add_done (p : Pool) : Pool :=
  let p := {| caller := caller p; workers := workers p; started := started p;
              generation := generation p; stopping := stopping p; task_ := task_ p;
              count_ := count_ p; done_ := u64 (done_ p + 1); next_ := next_ p;
              returned := returned p; log := log p |} in
  if done_ p =? threads p then notify_finished p else p.

(** ** The steps *)

Section Steps.
Context (machine : Machine) (expected : FpState) (placements : list ThreadPlacement).

(** [prepare]: on the new thread, before it reports. *)
Definition prepare (slot : nat) : option PoolError :=
  let placed :=
    match mjoin (placements !! slot) with
    | Some mask => place mask (placed_as machine slot)
    | None => Value tt
    end in
  match placed with
  | Error refused => Some (ThreadNotPlaced slot refused)
  | Value _ => if bool_decide (fp_found machine slot = expected) then None
               else Some (ThreadFpStateDiffers slot expected (fp_found machine slot))
  end.

(** The loop of [serve] from its wait, with [mutex_] held: the wait is entered, the
    thread returns, or the run is copied and [mutex_] released for its claims. *)
Definition serve_wait (p : Pool) (w : Worker) : Worker :=
  if bool_decide (generation p = seen w) && negb (stopping p) then move w AtWait else
  if stopping p then move w AtEnd else
  {| at_ := AtClaim; reported := reported w; failure := failure w; seen := generation p;
     my_task := task_ p; my_count := count_ p |}.

(** The steps of thread [slot]. *)
Definition worker_step (slot : nat) (p : Pool) : option Pool :=
  w ← workers p !! slot;
  match at_ w with
  | AtNone | AtWait | AtEnd => None
  | AtPrepare => Some (with_worker p slot (move w AtReport))
  | AtReport =>
      if negb (mutex_free p) then None else
      let failed := prepare slot in
      let w := {| at_ := AtReport; reported := true; failure := failed; seen := generation p;
                  my_task := my_task w; my_count := my_count w |} in
      let p := notify_reported p in
      Some (with_worker p slot (match failed with Some _ => move w AtEnd | None => serve_wait p w end))
  | AtWoken =>
      if negb (mutex_free p) then None else Some (with_worker p slot (serve_wait p w))
  | AtClaim =>
      let index := next_ p in
      let p := {| caller := caller p; workers := workers p; started := started p;
                  generation := generation p; stopping := stopping p; task_ := task_ p;
                  count_ := count_ p; done_ := done_ p; next_ := u64 (index + 1);
                  returned := returned p; log := log p |} in
      Some (with_worker p slot (move w (if index <? my_count w then AtTask index else AtLeave)))
  | AtTask index =>
      let p := {| caller := caller p; workers := workers p; started := started p;
                  generation := generation p; stopping := stopping p; task_ := task_ p;
                  count_ := count_ p; done_ := done_ p; next_ := next_ p;
                  returned := returned p; log := (my_task w, index, slot) :: log p |} in
      Some (with_worker p slot (move w AtClaim))
  | AtLeave =>
      if negb (mutex_free p) then None else
      let p := add_done p in
      Some (with_worker p slot (serve_wait p w))
  end.

(** [run] returns. *)
Definition run_returns (p : Pool) (counts : list Z) : Pool :=
  {| caller := InRuns counts; workers := workers p; started := started p; generation := generation p;
     stopping := stopping p; task_ := task_ p; count_ := count_ p; done_ := done_ p; next_ := next_ p;
     returned := S (returned p); log := log p |}.

(** The wait of [run]. *)
Definition finish_wait (p : Pool) (counts : list Z) : Pool :=
  if done_ p =? threads p then run_returns p counts else with_caller p (InFinish counts).

(** The wait of [start], and what make_thread_pool does with its answer. *)
Definition report_wait (p : Pool) (slot : nat) : option Pool :=
  w ← workers p !! slot;
  Some (if negb (reported w) then with_caller p (InReport slot) else
        match failure w with
        | Some error => with_caller p (InStop (Some error))
        | None => with_caller p (InStart (S slot))
        end).

(** The steps of the owner, which runs [counts] once the pool is made. *)
Definition caller_step (counts : list Z) (p : Pool) : option Pool :=
  match caller p with
  | InStart slot =>
      Some (with_caller p (if (slot <? length placements)%nat then InCreate slot else InRuns counts))
  | InCreate slot =>
      w ← workers p !! slot;
      let number := thread_number machine slot in
      if negb (number =? 0)
      then Some (with_caller p (InStop (Some (ThreadNotStarted slot
             {| number_ := number; call := lit "pthread_create";
                subject := lit "thread " ++ to_dec (Z.of_nat slot) |}))))
      else
        let p := with_worker p slot (move w AtPrepare) in
        let p := {| caller := caller p; workers := workers p; started := S (started p);
                    generation := generation p; stopping := stopping p; task_ := task_ p;
                    count_ := count_ p; done_ := done_ p; next_ := next_ p;
                    returned := returned p; log := log p |} in
        report_wait p slot
  | InReport _ | InFinish _ | InEnd _ => None
  | InReportWoken slot => report_wait p slot
  | InRuns [] => Some (with_caller p (InStop None))
  | InRuns (count :: counts) =>
      Some (if count =? 0 then run_returns p counts else with_caller p (InPublish (count :: counts)))
  | InPublish (count :: counts) =>
      Some {| caller := InReset counts; workers := workers p; started := started p;
              generation := generation p; stopping := stopping p; task_ := returned p;
              count_ := count; done_ := 0; next_ := next_ p;
              returned := returned p; log := log p |}
  | InPublish [] => None
  | InReset counts =>
      Some {| caller := InAdvance counts; workers := workers p; started := started p;
              generation := generation p; stopping := stopping p; task_ := task_ p;
              count_ := count_ p; done_ := done_ p; next_ := 0;
              returned := returned p; log := log p |}
  | InAdvance counts =>
      let p := {| caller := InAdvance counts; workers := wake <$> workers p; started := started p;
                  generation := u64 (generation p + 1); stopping := stopping p; task_ := task_ p;
                  count_ := count_ p; done_ := done_ p; next_ := next_ p;
                  returned := returned p; log := log p |} in
      Some (finish_wait p counts)
  | InFinishWoken counts => Some (finish_wait p counts)
  | InStop made =>
      Some {| caller := InJoin made 0; workers := wake <$> workers p; started := started p;
              generation := generation p; stopping := true; task_ := task_ p;
              count_ := count_ p; done_ := done_ p; next_ := next_ p;
              returned := returned p; log := log p |}
  | InJoin made slot =>
      if (slot <? started p)%nat then
        w ← workers p !! slot;
        match at_ w with AtEnd => Some (with_caller p (InJoin made (S slot))) | _ => None end
      else Some (with_caller p (InEnd made))
  end.

(** A thread runs, or a blocked one wakes without being notified. *)
Inductive Event := Owner | Thread (slot : nat) | SpuriousOwner | Spurious (slot : nat).

Definition is_spurious (e : Event) : bool :=
  match e with SpuriousOwner | Spurious _ => true | _ => false end.

Definition step (counts : list Z) (e : Event) (p : Pool) : option Pool :=
  match e with
  | Owner => caller_step counts p
  | Thread slot => worker_step slot p
  | SpuriousOwner =>
      match caller p with
      | InReport slot => Some (with_caller p (InReportWoken slot))
      | InFinish counts => Some (with_caller p (InFinishWoken counts))
      | _ => None
      end
  | Spurious slot =>
      w ← workers p !! slot;
      match at_ w with AtWait => Some (with_worker p slot (move w AtWoken)) | _ => None end
  end.

Fixpoint steps (counts : list Z) (es : list Event) (p : Pool) : option Pool :=
  match es with [] => Some p | e :: es => p ← step counts e p; steps counts es p end.

(** The pool as make_thread_pool constructs it; no placements are refused before that. *)
Definition new_worker : Worker :=
  {| at_ := AtNone; reported := false; failure := None; seen := 0; my_task := 0; my_count := 0 |}.

Definition new_pool : Pool :=
  {| caller := InStart 0; workers := replicate (length placements) new_worker; started := 0;
     generation := 0; stopping := false; task_ := 0; count_ := 0; done_ := 0; next_ := 0; returned := 0; log := [] |}.

Definition make_thread_pool : Result Pool PoolError :=
  match placements with [] => Error NoThreads | _ => Value new_pool end.

End Steps.

(** ** Lists of threads *)

(** The indices the threads hold. *)
Definition held_index (w : Worker) : option Z := match at_ w with AtTask index => Some index | _ => None end.
Definition held_indices (ws : list Worker) : list Z := omap held_index ws.

Lemma held_cons w ws : held_indices (w :: ws) = option_list (held_index w) ++ held_indices ws.
Proof. unfold held_indices. cbn [omap list_omap]. by destruct (held_index w). Qed.

#[export] Instance held_proper : Proper (Permutation ==> Permutation) held_indices.
Proof. intros l l' E. unfold held_indices. by rewrite E. Qed.

Lemma held_insert ws i w w' :
  ws !! i = Some w →
  option_list (held_index w) ++ held_indices (<[i := w']> ws) ≡ₚ option_list (held_index w') ++ held_indices ws.
Proof.
  intros H. destruct (insert_rest ws i w w' H) as [E1 E2]. rewrite E2. rewrite E1 at 2.
  rewrite !held_cons, !(assoc (++)). by rewrite (comm (++) (option_list (held_index w))).
Qed.

(** ** The invariant *)

Section Invariant.
Context (machine : Machine) (expected : FpState) (placements : list ThreadPlacement) (counts : list Z).
Hypothesis placed : placements ≠ [].

Abbreviation size := (length placements).

(** Tasks of any run, and one claim too many by each thread, are numbered by 64 bits. *)
Hypothesis counts_fit : Forall (λ c, 0 ≤ c ∧ c + Z.of_nat size < 2 ^ 64) counts.

Abbreviation prepare := (prepare machine expected placements).

(** Why the pool is refused at a slot: the thread cannot be created, or not be placed, or
    finds another floating-point state. *)
Definition refusal_at (slot : nat) : option PoolError :=
  if negb (thread_number machine slot =? 0)
  then Some (ThreadNotStarted slot {| number_ := thread_number machine slot; call := lit "pthread_create";
               subject := lit "thread " ++ to_dec (Z.of_nat slot) |})
  else prepare slot.

Definition waits (w : Worker) : bool := match at_ w with AtWait | AtWoken => true | _ => false end.

(** A thread that has seen the pool's last run and waits for the next. *)
Definition idle (p : Pool) (w : Worker) : Prop :=
  reported w = true ∧ failure w = None ∧ waits w = true ∧ seen w = generation p.

(** A thread that has yet to wake to the run. *)
Definition behind (p : Pool) (w : Worker) : Prop :=
  reported w = true ∧ failure w = None ∧ at_ w = AtWoken ∧ in_u64 (seen w)
  ∧ u64 (seen w + 1) = generation p.

(** A thread in the run. *)
Definition serving (p : Pool) (w : Worker) : Prop :=
  reported w = true ∧ failure w = None ∧ seen w = generation p ∧ my_task w = task_ p
  ∧ my_count w = count_ p ∧ match at_ w with AtClaim | AtTask _ | AtLeave => True | _ => False end.

Definition fresh (w : Worker) : Prop := at_ w = AtNone ∧ reported w = false.

(** The thread a start waits for, before its report and after. *)
Definition unreported (w : Worker) : Prop :=
  reported w = false ∧ (at_ w = AtPrepare ∨ at_ w = AtReport).
Definition refused (slot : nat) (w : Worker) : Prop :=
  at_ w = AtEnd ∧ reported w = true ∧ is_Some (failure w) ∧ failure w = prepare slot.

(** Where the thread of each slot may be, by where the owner is. *)
Definition fits (p : Pool) (slot : nat) (w : Worker) : Prop :=
  match caller p with
  | InStart k | InCreate k => if decide (slot < k)%nat then idle p w else fresh w
  | InReport k =>
      if decide (slot < k)%nat then idle p w else
      if decide (slot = k) then unreported w else fresh w
  | InReportWoken k =>
      if decide (slot < k)%nat then idle p w else
      if decide (slot = k)
      then unreported w ∨ (prepare slot = None ∧ idle p w) ∨ refused slot w else fresh w
  | InRuns _ | InPublish _ | InReset _ | InAdvance _ => idle p w
  | InFinish _ | InFinishWoken _ => behind p w ∨ serving p w ∨ idle p w
  | InStop _ => if decide (slot < started p)%nat then idle p w ∨ at_ w = AtEnd else fresh w
  | InJoin _ m =>
      if decide (slot < started p)%nat then ((m ≤ slot)%nat ∧ at_ w = AtWoken) ∨ at_ w = AtEnd else fresh w
  | InEnd _ => if decide (slot < started p)%nat then at_ w = AtEnd else fresh w
  end.

Definition workers_ok (p : Pool) : Prop :=
  length (workers p) = size ∧ ∀ slot w, workers p !! slot = Some w → fits p slot w.

(** What the owner knows of the start: no slot below was refused, or this is the first. *)
Definition none_refused (n : nat) : Prop := ∀ slot, (slot < n)%nat → refusal_at slot = None.
Definition made_ok (p : Pool) (made : option PoolError) : Prop :=
  match made with
  | None => none_refused size ∧ started p = size
  | Some error => ∃ slot, (slot < size)%nat ∧ none_refused slot ∧ refusal_at slot = Some error
                  ∧ (started p = slot ∨ started p = S slot) ∧ returned p = 0%nat
  end.

(** The calls of [run] that have not returned. *)
Definition remaining (p : Pool) : list Z :=
  match caller p with
  | InStart _ | InCreate _ | InReport _ | InReportWoken _ => counts
  | InRuns l | InPublish l => l
  | InReset l | InAdvance l | InFinish l | InFinishWoken l => count_ p :: l
  | InStop None | InJoin None _ | InEnd None => []
  | _ => counts
  end.

Definition owner_ok (p : Pool) : Prop :=
  in_u64 (generation p)
  ∧ stopping p = match caller p with InJoin _ _ | InEnd _ => true | _ => false end
  ∧ drop (returned p) counts = remaining p ∧ (returned p ≤ length counts)%nat
  ∧ match caller p with
    | InStart k => started p = k ∧ (k ≤ size)%nat ∧ none_refused k
    | InCreate k => started p = k ∧ (k < size)%nat ∧ none_refused k
    | InReport k | InReportWoken k =>
        started p = S k ∧ (k < size)%nat ∧ none_refused k ∧ thread_number machine k = 0
    | InStop made | InJoin made _ | InEnd made => made_ok p made
    | InPublish l => none_refused size ∧ started p = size ∧ ∃ c l', l = c :: l' ∧ c ≠ 0
    | InReset _ | InAdvance _ => none_refused size ∧ started p = size ∧ done_ p = 0
                                 ∧ task_ p = returned p ∧ count_ p ≠ 0
    | _ => none_refused size ∧ started p = size
    end
  ∧ match caller p with InAdvance _ => next_ p = 0 | _ => True end.

(** The tasks of run [j] that have been run. *)
Definition indices_of (j : nat) (l : list (nat * Z * nat)) : list Z :=
  snd ∘ fst <$> filter (λ e, e.1.1 = j) l.

Definition is_idle (current : Z) (w : Worker) : bool := waits w && (seen w =? current).
Definition has_left (current : Z) (w : Worker) : bool :=
  is_idle current w || match at_ w with AtLeave => true | _ => false end.

(** A run in progress: the threads done with it, the claims, and the tasks claimed. *)
Definition in_progress (p : Pool) : Prop :=
  let left := census (has_left (generation p)) (workers p) in
  done_ p = census (is_idle (generation p)) (workers p)
  ∧ 0 ≤ next_ p ≤ count_ p + left
  ∧ (left = 0 ∨ count_ p < next_ p)
  ∧ held_indices (workers p) ++ indices_of (task_ p) (log p) ≡ₚ seqZ 0 (Z.min (next_ p) (count_ p))
  ∧ task_ p = returned p ∧ count_ p ≠ 0.

Definition active (p : Pool) : bool := match caller p with InFinish _ | InFinishWoken _ => true | _ => false end.

Definition log_ok (p : Pool) : Prop :=
  (∀ j c, (j < returned p)%nat → counts !! j = Some c → indices_of j (log p) ≡ₚ seqZ 0 c)
  ∧ (∀ j, (returned p < j)%nat ∨ active p = false ∧ j = returned p → indices_of j (log p) = [])
  ∧ StronglySorted (λ e e', (e'.1.1 ≤ e.1.1)%nat) (log p)
  ∧ Forall (λ e, (e.2 < size)%nat) (log p)
  ∧ Forall (λ e, (e.1.1 ≤ returned p)%nat) (log p).

Record invariant (p : Pool) : Prop := {
  inv_workers : workers_ok p;
  inv_owner : owner_ok p;
  inv_progress : if active p then in_progress p else True;
  inv_waiting : match caller p with InFinish _ => done_ p ≠ Z.of_nat size | _ => True end;
  inv_log : log_ok p;
}.

Lemma invariant_new : invariant (new_pool placements).
Proof.
  split.
  - split; [apply length_replicate|]. intros slot w Hw. apply lookup_replicate in Hw as [-> _].
    unfold fits. cbn. by rewrite decide_False by lia.
  - unfold owner_ok, in_u64, none_refused. cbn. split_and!; (done || lia || intros; lia).
  - done.
  - done.
  - unfold log_ok. cbn. split_and!; try done; try (intros; lia). constructor.
Qed.

(** *** One thread moves *)

(** The pool after thread [slot] becomes [w'] and the owner may have been notified. *)
Lemma workers_ok_insert p p' slot w' :
  workers_ok p → workers p' = <[slot := w']> (workers p) →
  (slot < size)%nat → fits p' slot w' →
  (∀ i w, i ≠ slot → fits p i w → fits p' i w) →
  workers_ok p'.
Proof.
  intros [Hl Hfits] E Hslot Hw Hother. split; [by rewrite E, length_insert|].
  intros i w Hi. rewrite E in Hi. apply list_lookup_insert_Some in Hi as [(<- & <- & _)|[Hne Hi]]; [done|].
  apply Hother; [done|]. by apply Hfits.
Qed.

Lemma worker_slot p slot w : workers_ok p → workers p !! slot = Some w → (slot < size)%nat ∧ fits p slot w.
Proof. intros [Hl Hf] H. split; [|by apply Hf]. rewrite <- Hl. by eapply lookup_lt_Some. Qed.

Lemma where_at p slot w :
  fits p slot w →
  match at_ w with
  | AtPrepare | AtReport =>
      (caller p = InReport slot ∨ caller p = InReportWoken slot) ∧ reported w = false
  | AtClaim | AtTask _ | AtLeave => active p = true ∧ serving p w
  | AtWoken =>
      idle p w ∨ (active p = true ∧ behind p w)
      ∨ (∃ made m, caller p = InJoin made m ∧ (m ≤ slot)%nat ∧ (slot < started p)%nat)
  | _ => True
  end.
Proof.
  unfold fits, active, fresh, unreported, refused, idle, behind, serving, waits.
  destruct (caller p); repeat case_decide; intros Hfits; destruct (at_ w); naive_solver.
Qed.

(** [fits] depends on the owner, the run published and the threads started. *)
Lemma fits_same p p' slot w :
  caller p' = caller p → generation p' = generation p → task_ p' = task_ p → count_ p' = count_ p →
  started p' = started p → fits p slot w → fits p' slot w.
Proof.
  intros Ec Eg Et En Es. unfold fits, idle, behind, serving. by rewrite Ec, Eg, Et, En, Es.
Qed.

(** A step of a thread that keeps its place in the run: no claim, no task, no departure. *)
Lemma progress_same p p' slot w w' :
  workers p !! slot = Some w → workers p' = <[slot := w']> (workers p) →
  done_ p' = done_ p → next_ p' = next_ p → count_ p' = count_ p → task_ p' = task_ p →
  returned p' = returned p → log p' = log p → generation p' = generation p →
  is_idle (generation p) w' = is_idle (generation p) w →
  has_left (generation p) w' = has_left (generation p) w → held_index w' = held_index w →
  in_progress p → in_progress p'.
Proof.
  intros Hw Ews Ed En Ec Et Er El Eg Hi Hl Hh (Hdone & Hnext & Hleft & Hheld & Htask & Hcount).
  unfold in_progress. cbv zeta in *. rewrite Ews, Eg, Ed, En, Ec, Et, Er, El, !(census_insert _ _ _ w w' Hw), Hi, Hl.
  rewrite !Z.sub_add. split_and!; try done; try lia.
  rewrite <- Hheld. pose proof (held_insert (workers p) slot w w' Hw) as E. rewrite Hh in E.
  by apply (Permutation_app_inv_l _) in E as ->.
Qed.

Lemma invariant_move p slot w w' :
  invariant p → workers p !! slot = Some w → fits p slot w' →
  (active p = true →
   is_idle (generation p) w' = is_idle (generation p) w
   ∧ has_left (generation p) w' = has_left (generation p) w ∧ held_index w' = held_index w) →
  invariant (with_worker p slot w').
Proof.
  intros [Hws Hown Hprog Hwait Hlog] Hw Hfits Hsame.
  destruct (worker_slot p slot w Hws Hw) as [Hslot _]. split; [|done| |done|done].
  - apply (workers_ok_insert p _ slot w'); [done..|]. intros i u _. by apply fits_same.
  - change (active (with_worker p slot w')) with (active p). destruct (active p); [|done].
    destruct (Hsame eq_refl) as (? & ? & ?). by apply (progress_same p _ slot w w').
Qed.

Lemma u64_next_ne g : in_u64 g → u64 (g + 1) ≠ g.
Proof.
  unfold in_u64, u64. intros Hg. destruct (decide (g + 1 = 2 ^ 64)) as [E|].
  - rewrite E, Z_mod_same_full. lia.
  - rewrite Z.mod_small; lia.
Qed.

Lemma behind_not_idle p w : behind p w → is_idle (generation p) w = false.
Proof.
  intros (_ & _ & _ & Hs & Hg). unfold is_idle. apply andb_false_iff. right. apply Z.eqb_neq.
  intros E. apply (u64_next_ne (seen w)); [done|]. by rewrite E at 2.
Qed.

(** A wait entered again by a thread that woke. *)
Lemma serve_wait_fits p slot w :
  owner_ok p → fits p slot w → at_ w = AtWoken → mutex_free p = true → fits p slot (serve_wait p w).
Proof.
  intros Hown Hfits Ha Hm. unfold serve_wait.
  destruct Hown as (_ & Hstop & _). destruct (stopping p) eqn:Es.
  - rewrite andb_false_r. unfold fits in *. destruct (caller p); try done; case_decide; unfold fresh in *; naive_solver congruence.
  - rewrite andb_true_r. case_bool_decide as Eg.
    + unfold fits, idle, behind, serving, unreported, refused, fresh, waits in *.
      destruct (caller p); try done; cbn in *; repeat case_decide; rewrite ?Ha in *; naive_solver congruence.
    + unfold fits, idle, behind, serving, unreported, refused, fresh, waits in *.
      destruct (caller p); try done; cbn in *; repeat case_decide; rewrite ?Ha in *; naive_solver congruence.
Qed.

(** The report of a thread being started. *)
Lemma report_invariant p slot w p' :
  invariant p → workers p !! slot = Some w → at_ w = AtReport →
  worker_step machine expected placements slot p = Some p' → invariant p'.
Proof.
  intros [Hws Hown Hprog Hwait Hlog] Hw Ha. unfold worker_step. rewrite Hw. cbn [mbind option_bind]. rewrite Ha.
  destruct (worker_slot p slot w Hws Hw) as [Hslot Hfits].
  pose proof (where_at p slot w Hfits) as Hat. rewrite Ha in Hat. destruct Hat as [Hcall Hrep].
  destruct Hown as (Hgen & Hstop & Hdrop & Hret & Hmade & _).
  assert (caller (notify_reported p) = InReportWoken slot ∧ notify_reported p = with_caller p (InReportWoken slot)) as [Ec Ep].
  { unfold notify_reported. destruct Hcall as [Ec|Ec]; rewrite Ec; [done|]. split; [done|]. rewrite <- Ec. by destruct p. }
  destruct (negb (mutex_free p)); [done|]. rewrite Ep. intros [= <-].
  assert (stopping p = false) as Est by (rewrite Hstop; by destruct Hcall as [-> | ->]).
  assert (remaining p = counts) as Erem by (unfold remaining; by destruct Hcall as [-> | ->]).
  split.
  - eapply (workers_ok_insert p _ slot); [done|reflexivity|done| |].
    + unfold fits. cbn. rewrite decide_False, decide_True by lia. right.
      destruct (prepare slot) as [e|] eqn:Eprep.
      * right. unfold refused. cbn. rewrite Eprep. naive_solver.
      * left. split; [done|]. unfold serve_wait. cbn. rewrite Est, bool_decide_true by done.
        unfold idle. by cbn.
    + intros i u Hne Hu. unfold fits in *. cbn. destruct Hcall as [Ec'|Ec']; rewrite Ec' in Hu;
        (case_decide; [done|]); rewrite decide_False in * by done; done.
  - unfold owner_ok. cbn. do 4 (split; [by rewrite ?Hdrop|]). split; [|done].
    destruct Hcall as [Ec'|Ec']; by rewrite Ec' in Hmade.
  - done.
  - done.
  - destruct Hlog as (H1 & H2 & H3). split; [done|]. split; [|done]. intros j Hj. apply H2.
    destruct Hcall as [Ec'|Ec']; unfold active; by rewrite Ec'.
Qed.

(** A claim keeps the run's numbers in 64 bits. *)
Lemma count_fits p : owner_ok p → active p = true → 0 ≤ count_ p ∧ count_ p + Z.of_nat size < 2 ^ 64.
Proof.
  intros (_ & _ & Hdrop & _) Ha. unfold remaining in Hdrop.
  assert (∃ l, drop (returned p) counts = count_ p :: l) as [l El]
    by (unfold active in Ha; destruct (caller p); naive_solver).
  apply (Forall_drop _ (returned p)) in counts_fit. rewrite El in counts_fit. by apply Forall_inv in counts_fit.
Qed.

Lemma census_not_all {A} (f : A → bool) l i x : l !! i = Some x → f x = false → census f l < Z.of_nat (length l).
Proof.
  intros Hx Hf. pose proof (census_bounds f l). enough (census f l ≠ Z.of_nat (length l)) by lia.
  intros E. rewrite census_all in E. by rewrite (E i x Hx) in Hf.
Qed.

Lemma in_run p slot w :
  invariant p → workers p !! slot = Some w → active p = true → serving p w →
  in_progress p ∧ length (workers p) = size ∧ (slot < size)%nat
  ∧ census (has_left (generation p)) (workers p) ≤ Z.of_nat size
  ∧ (has_left (generation p) w = false → census (has_left (generation p)) (workers p) < Z.of_nat size)
  ∧ 0 ≤ count_ p ∧ count_ p + Z.of_nat size < 2 ^ 64.
Proof.
  intros [Hws Hown Hprog Hwait Hlog] Hw Ha Hs. rewrite Ha in Hprog. destruct (worker_slot p slot w Hws Hw) as [Hslot _].
  destruct Hws as [Hl _]. pose proof (census_bounds (has_left (generation p)) (workers p)).
  destruct (count_fits p Hown Ha). split; [done|]. split_and!; try done; [lia|]. intros Hh. rewrite <- Hl.
  by eapply census_not_all.
Qed.

(** A thread takes a step of the run. *)
Lemma run_step_invariant p p' slot w w' :
  invariant p → workers p !! slot = Some w → active p = true → serving p w →
  workers p' = <[slot := w']> (workers p) →
  (caller p' = caller p ∨ ∃ l, caller p = InFinish l ∧ caller p' = InFinishWoken l) →
  generation p' = generation p → task_ p' = task_ p → count_ p' = count_ p → started p' = started p →
  stopping p' = stopping p → returned p' = returned p →
  serving p w' ∨ idle p w' → in_progress p' →
  (∀ l, caller p' = InFinish l → done_ p' ≠ Z.of_nat size) → log_ok p' →
  invariant p'.
Proof.
  intros [Hws Hown Hprog Hwait Hlog] Hw Ha Hs Ews Ec Eg Et En Es Est Er Hfits Hprog' Hwait' Hlog'.
  assert (∀ i u, i ≠ slot → fits p i u → fits p' i u) as Hother.
  { intros i u _. unfold active, fits, idle, behind, serving in *. rewrite Eg, Et, En.
    destruct Ec as [->|(l & Ec & ->)]; [|by rewrite Ec]. destruct (caller p); done. }
  assert (active p' = true) as Ha' by (unfold active in *; destruct Ec as [->|(l & Ec & ->)]; done).
  destruct (worker_slot p slot w Hws Hw) as [Hslot _]. split.
  - apply (workers_ok_insert p _ slot w'); [done..| |done].
    unfold active, fits, idle, behind, serving in *. rewrite Eg, Et, En. destruct (caller p'); naive_solver.
  - unfold active, owner_ok, remaining in *. rewrite Eg, Es, Est, Er, En.
    destruct Ec as [->|(l & Ec & ->)]; [destruct (caller p); naive_solver|]. rewrite Ec in Hown. naive_solver.
  - by rewrite Ha'.
  - destruct (caller p'); try done. by eapply Hwait'.
  - done.
Qed.

Lemma indices_cons j e l :
  indices_of j (e :: l) = (if decide (e.1.1 = j) then [e.1.2] else []) ++ indices_of j l.
Proof. unfold indices_of. rewrite filter_cons. by case_decide. Qed.

Lemma serving_stays p w a :
  match a with AtClaim | AtTask _ | AtLeave => True | _ => False end → serving p w → serving p (move w a).
Proof. unfold serving. cbn. naive_solver. Qed.

Lemma claim_invariant p slot w p' :
  invariant p → workers p !! slot = Some w → at_ w = AtClaim →
  worker_step machine expected placements slot p = Some p' → invariant p'.
Proof.
  intros Hinv Hw Ha. unfold worker_step. rewrite Hw. cbn [mbind option_bind]. rewrite Ha.
  destruct (worker_slot p slot w (inv_workers _ Hinv) Hw) as [_ Hfits].
  pose proof (where_at p slot w Hfits) as Hat. rewrite Ha in Hat. destruct Hat as [Hact Hs].
  destruct (in_run p slot w Hinv Hw Hact Hs) as (Hprog & Hl & Hslot & _ & Hleft & Hcount & Hfit).
  assert (has_left (generation p) w = false) as Hw0 by (unfold has_left, is_idle, waits; by rewrite Ha).
  specialize (Hleft Hw0). destruct Hprog as (Hdone & Hnext & Hclaims & Hheld & Htask & Hne).
  assert (my_count w = count_ p) as Emy by apply Hs. rewrite Emy, u64_small by (unfold in_u64; lia).
  intros [= <-]. eapply (run_step_invariant p _ slot w); try done;
    [by left| | |intros l El; pose proof (inv_waiting _ Hinv) as Hwt; cbn in El; by rewrite El in Hwt|apply (inv_log _ Hinv)].
  { left. apply serving_stays; [|done]. by destruct (_ <? _). }
  pose proof (held_insert (workers p) slot w (move w (if next_ p <? count_ p then AtTask (next_ p) else AtLeave)) Hw) as E.
  unfold in_progress. cbn [with_worker with_workers workers generation done_ next_ count_ task_ returned log].
  unfold held_index in E at 1. rewrite Ha in E. cbn [option_list app] in E.
  assert (is_idle (generation p) w = false) as Hw1 by (unfold is_idle, waits; by rewrite Ha).
  rewrite !(census_insert _ _ _ w _ Hw), Hw0, Hw1, E. destruct (Z.ltb_spec (next_ p) (count_ p)) as [Hlt|Hge].
  - cbn. assert (census (has_left (generation p)) (workers p) = 0) by lia. split_and!; try done; try lia.
    rewrite Hheld, !Z.min_l by lia. rewrite seqZ_snoc by lia. by rewrite Permutation_cons_append.
  - cbn. split_and!; try done; try lia. rewrite Hheld, !Z.min_r by lia. done.
Qed.

Lemma task_invariant p slot w index p' :
  invariant p → workers p !! slot = Some w → at_ w = AtTask index →
  worker_step machine expected placements slot p = Some p' → invariant p'.
Proof.
  intros Hinv Hw Ha. unfold worker_step. rewrite Hw. cbn [mbind option_bind]. rewrite Ha.
  destruct (worker_slot p slot w (inv_workers _ Hinv) Hw) as [_ Hfits].
  pose proof (where_at p slot w Hfits) as Hat. rewrite Ha in Hat. destruct Hat as [Hact Hs].
  destruct (in_run p slot w Hinv Hw Hact Hs) as (Hprog & Hl & Hslot & _).
  destruct Hprog as (Hdone & Hnext & Hclaims & Hheld & Htask & Hne).
  assert (my_task w = task_ p) as Emy by apply Hs. rewrite Emy.
  intros [= <-]. eapply (run_step_invariant p _ slot w); try done;
    [by left| | |intros l El; pose proof (inv_waiting _ Hinv) as Hwt; cbn in El; by rewrite El in Hwt|].
  { left. by apply serving_stays. }
  - pose proof (held_insert (workers p) slot w (move w AtClaim) Hw) as E.
    unfold in_progress. cbn [with_worker with_workers workers generation done_ next_ count_ task_ returned log].
    unfold held_index in E at 1. rewrite Ha in E. rewrite indices_cons, decide_True by done.
    rewrite !(census_insert _ _ _ w _ Hw). unfold has_left, is_idle, waits in *. rewrite Ha. cbn -[indices_of].
    rewrite !Z.add_0_r, !Z.sub_0_r. split_and!; try done; try lia.
    rewrite <- Hheld, <- E. cbn. by rewrite Permutation_middle.
  - destruct (inv_log _ Hinv) as (H1 & H2 & H3 & H4 & H5). unfold log_ok.
    cbn [with_worker with_workers workers generation done_ next_ count_ task_ returned log active caller].
    rewrite Htask. split_and!.
    + intros j c Hj Hc. rewrite indices_cons, decide_False by (cbn; lia). by apply H1.
    + intros j Hj. rewrite indices_cons, decide_False; [by apply H2|]. cbn.
      unfold active in *. cbn in *. destruct Hj as [?|[Hf _]]; [lia|]. by rewrite Hact in Hf.
    + by constructor.
    + by constructor.
    + by constructor.
Qed.

Lemma add_done_spec p (q := add_done p) :
  in_u64 (done_ p + 1) →
  done_ q = done_ p + 1 ∧ generation q = generation p ∧ task_ q = task_ p ∧ count_ q = count_ p
  ∧ started q = started p ∧ stopping q = stopping p ∧ returned q = returned p ∧ workers q = workers p
  ∧ next_ q = next_ p ∧ log q = log p
  ∧ (caller q = caller p ∧ (∀ l, caller p = InFinish l → done_ p + 1 ≠ threads p)
     ∨ ∃ l, caller p = InFinish l ∧ caller q = InFinishWoken l).
Proof.
  intros Hfit. subst q. unfold add_done, threads, notify_finished. cbn. rewrite u64_small by done.
  destruct (Z.eqb_spec (done_ p + 1) (Z.of_nat (length (workers p)))); destruct (caller p) eqn:Ec; cbn;
    split_and!; try done; try (left; split; congruence). right. by eexists.
Qed.

(** A thread that leaves the run counts itself without wrapping, and waits. *)
Lemma leaves p slot w :
  invariant p → workers p !! slot = Some w → at_ w = AtLeave →
  in_u64 (done_ p + 1) ∧ serve_wait (add_done p) w = move w AtWait.
Proof.
  intros Hinv Hw Ha. destruct (worker_slot p slot w (inv_workers _ Hinv) Hw) as [_ Hfits].
  pose proof (where_at p slot w Hfits) as Hat. rewrite Ha in Hat. destruct Hat as [Hact Hs].
  destruct (in_run p slot w Hinv Hw Hact Hs) as ((Hdone & _) & Hl & _ & _ & _ & Hcount & Hfit).
  assert (census (is_idle (generation p)) (workers p) < Z.of_nat size) as Hlt.
  { rewrite <- Hl. eapply census_not_all; [exact Hw|]. unfold is_idle, waits. by rewrite Ha. }
  assert (in_u64 (done_ p + 1)) as Hdfit
    by (unfold in_u64; pose proof (census_bounds (is_idle (generation p)) (workers p)); lia).
  split; [done|]. destruct (add_done_spec p Hdfit) as (_ & Eg & _ & _ & _ & Est & _).
  unfold serve_wait. assert (seen w = generation p) as E by apply Hs. rewrite Eg, E, Est, bool_decide_true by done.
  destruct (inv_owner _ Hinv) as (_ & -> & _). unfold active in Hact. by destruct (caller p).
Qed.

Lemma leave_invariant p slot w p' :
  invariant p → workers p !! slot = Some w → at_ w = AtLeave →
  worker_step machine expected placements slot p = Some p' → invariant p'.
Proof.
  intros Hinv Hw Ha. unfold worker_step. rewrite Hw. cbn [mbind option_bind]. rewrite Ha.
  destruct (worker_slot p slot w (inv_workers _ Hinv) Hw) as [_ Hfits].
  pose proof (where_at p slot w Hfits) as Hat. rewrite Ha in Hat. destruct Hat as [Hact Hs].
  destruct (in_run p slot w Hinv Hw Hact Hs) as (Hprog & Hl & Hslot & _ & _ & Hcount & Hfit).
  destruct Hprog as (Hdone & Hnext & Hclaims & Hheld & Htask & Hne).
  destruct (leaves p slot w Hinv Hw Ha) as [Hdfit Hserve].
  destruct (negb (mutex_free p)); [done|]. rewrite Hserve.
  destruct (add_done_spec p Hdfit) as (Ed & Eg & Et & En & Es & Est & Er & Ew & Ex & El & Ec).
  unfold threads in Ec. rewrite Hl in Ec. revert Ed Eg Et En Es Est Er Ew Ex El Ec. generalize (add_done p) as p2.
  intros p2 Ed Eg Et En Es Est Er Ew Ex El Ec [= <-].
  eapply (run_step_invariant p _ slot w (move w AtWait)); try done.
  - cbn. by rewrite Ew.
  - destruct Ec as [[Ec _]|(l & Ec & Ec2)]; [by left|]. right. by exists l.
  - right. unfold serving, idle in *. cbn. naive_solver.
  - pose proof (held_insert (workers p) slot w (move w AtWait) Hw) as E.
    unfold in_progress. cbn [with_worker with_workers workers generation done_ next_ count_ task_ returned log].
    rewrite Ed, Eg, Et, En, Er, Ew, Ex, El, !(census_insert _ _ _ w _ Hw).
    unfold held_index in E at 1. rewrite Ha in E. cbn in E. rewrite E.
    assert (seen w = generation p) as Eseen by apply Hs. unfold has_left, is_idle, waits in *.
    rewrite Ha. cbn. rewrite Eseen, Z.eqb_refl. cbn. split_and!; try done; lia.
  - intros l Hc. cbn in Hc |- *. rewrite Ed. destruct Ec as [[Ec Hn]|(l' & Ec & Ec2)]; [|congruence]. apply (Hn l). congruence.
  - destruct (inv_log _ Hinv) as (H1 & H2 & H3). unfold log_ok.
    cbn [with_worker with_workers returned log]. rewrite Er, El. split; [done|]. split; [|done].
    intros j Hj. apply H2. destruct Hj as [?|[Hj ?]]; [by left|]. right. split; [|done].
    unfold active in *. cbn in Hj. destruct Ec as [[Ec _]|(l' & Ec & Ec2)]; [by rewrite Ec in Hj|]. by rewrite Ec2 in Hj.
Qed.

(** *** The invariant is kept *)

Lemma thread_invariant slot p p' :
  invariant p → worker_step machine expected placements slot p = Some p' → invariant p'.
Proof.
  intros Hinv Hstep. destruct (workers p !! slot) as [w|] eqn:Hw;
    [|unfold worker_step in Hstep; by rewrite Hw in Hstep].
  destruct (worker_slot p slot w (inv_workers _ Hinv) Hw) as [Hslot Hfits].
  pose proof (where_at p slot w Hfits) as Hat. destruct (at_ w) eqn:Ha.
  all: try (unfold worker_step in Hstep; rewrite Hw in Hstep; cbn [mbind option_bind] in Hstep; rewrite Ha in Hstep;
    discriminate Hstep).
  - unfold worker_step in Hstep. rewrite Hw in Hstep. cbn [mbind option_bind] in Hstep. rewrite Ha in Hstep.
    injection Hstep as <-. destruct Hat as [Hc Hr]. apply (invariant_move p slot w); [done..| |].
    + unfold fits, unreported in *. destruct Hc as [Hc|Hc]; rewrite Hc in *; repeat case_decide; cbn; naive_solver lia.
    + unfold active. by destruct Hc as [-> | ->].
  - by eapply report_invariant.
  - unfold worker_step in Hstep. rewrite Hw in Hstep. cbn [mbind option_bind] in Hstep. rewrite Ha in Hstep.
    destruct (negb (mutex_free p)) eqn:Hm; [done|]. apply negb_false_iff in Hm. injection Hstep as <-.
    apply (invariant_move p slot w); [done..|by apply serve_wait_fits; [apply Hinv| | |]|].
    intros Hact. destruct (inv_owner _ Hinv) as (Hgen & Hstop & _).
    assert (stopping p = false) as Est by (rewrite Hstop; unfold active in Hact; by destruct (caller p)).
    unfold serve_wait, held_index. rewrite Est, andb_true_r. destruct Hat as [Hi|[[_ Hb]|(made & m & Hc & _)]].
    + rewrite bool_decide_true by (symmetry; apply Hi). unfold has_left, is_idle, waits. by rewrite Ha.
    + pose proof (behind_not_idle p w Hb) as Hni. unfold has_left. rewrite Hni, Ha. rewrite bool_decide_false; [done|].
      intros E. unfold is_idle, waits in Hni. by rewrite Ha, E, Z.eqb_refl in Hni.
    + unfold active in Hact. by rewrite Hc in Hact.
  - by eapply claim_invariant.
  - by eapply task_invariant.
  - by eapply leave_invariant.
Qed.

Lemma spurious_invariant slot p w :
  invariant p → workers p !! slot = Some w → at_ w = AtWait → invariant (with_worker p slot (move w AtWoken)).
Proof.
  intros Hinv Hw Ha. destruct (worker_slot p slot w (inv_workers _ Hinv) Hw) as [Hslot Hfits].
  apply (invariant_move p slot w); [done..| |].
  - unfold fits, idle, behind, serving, unreported, refused, fresh, waits in *. rewrite Ha in *. cbn.
    destruct (caller p); repeat case_decide; naive_solver.
  - intros _. unfold has_left, is_idle, held_index, waits. by rewrite Ha.
Qed.

Lemma spurious_owner_invariant counts' p p' :
  invariant p → step machine expected placements counts' SpuriousOwner p = Some p' → invariant p'.
Proof.
  intros [[Hl Hws] Hown Hprog Hwait Hlog]. cbn.
  destruct (caller p) eqn:Ec; try done; intros [= <-];
    (split; [split; [done|]; intros i w Hi; specialize (Hws i w Hi); unfold fits in *; rewrite Ec in Hws; cbn;
               repeat case_decide; naive_solver
            |unfold owner_ok, remaining in *; rewrite Ec in Hown; exact Hown
            |unfold active, in_progress in *; rewrite Ec in Hprog; exact Hprog
            |done
            |unfold active, log_ok, active in *; rewrite Ec in Hlog; exact Hlog]).
Qed.

(** *** The owner's steps *)

(** The owner moves on with the run and the threads as they are. *)
Lemma caller_moves p c :
  invariant p → active p = false → match c with InFinish _ | InFinishWoken _ => False | _ => True end →
  (∀ i w, workers p !! i = Some w → fits p i w → fits (with_caller p c) i w) →
  owner_ok (with_caller p c) → invariant (with_caller p c).
Proof.
  intros [[Hl Hws] _ _ _ (H1 & H2 & H3)] Hact Hc Hfits Hown. split; [|done| | |].
  - split; [done|]. intros i w Hi. apply Hfits; [done|]. by apply Hws.
  - unfold active. cbn. by destruct c.
  - cbn. by destruct c.
  - split; [done|]. split; [|done]. intros j Hj. apply H2. cbn in Hj. rewrite Hact. naive_solver.
Qed.

Lemma none_refused_S k : none_refused k → refusal_at k = None → none_refused (S k).
Proof. intros H Hk i Hi. destruct (decide (i = k)) as [->|]; [done|]. apply H. lia. Qed.

Lemma none_returned p : drop (returned p) counts = counts → (returned p ≤ length counts)%nat → returned p = 0%nat.
Proof. intros E Hle. apply (f_equal length) in E. rewrite length_drop in E. lia. Qed.

Lemma start_invariant p p' :
  invariant p → match caller p with InStart _ => True | _ => False end →
  caller_step machine placements counts p = Some p' → invariant p'.
Proof.
  intros Hinv Hc. unfold caller_step. destruct (caller p) as [slot| | | | | | | | | | | |] eqn:Ec; try done.
  intros [= <-]. destruct (inv_owner _ Hinv) as (Hgen & Hstop & Hdrop & Hret & Hmade & _).
  rewrite Ec in Hmade, Hstop. destruct Hmade as (Hst & Hk & Hnone). unfold remaining in Hdrop. rewrite Ec in Hdrop.
  destruct (Nat.ltb_spec slot size) as [Hlt|Hge].
  - apply caller_moves; [done|by unfold active; rewrite Ec|done| |].
    + intros i w _. unfold fits. rewrite Ec. cbn. by case_decide.
    + unfold owner_ok, remaining. cbn. naive_solver.
  - assert (slot = size) as -> by lia. apply caller_moves; [done|by unfold active; rewrite Ec|done| |].
    + intros i w Hi. unfold fits. rewrite Ec. cbn. rewrite decide_True; [done|].
      rewrite <- (proj1 (inv_workers _ Hinv)). by eapply lookup_lt_Some.
    + unfold owner_ok, remaining. cbn. rewrite Hdrop. naive_solver.
Qed.

Lemma create_invariant p p' :
  invariant p → match caller p with InCreate _ => True | _ => False end →
  caller_step machine placements counts p = Some p' → invariant p'.
Proof.
  intros Hinv Hc. unfold caller_step. destruct (caller p) as [|slot| | | | | | | | | | |] eqn:Ec; try done.
  destruct (inv_owner _ Hinv) as (Hgen & Hstop & Hdrop & Hret & Hmade & _).
  rewrite Ec in Hmade, Hstop. destruct Hmade as (Hst & Hk & Hnone). unfold remaining in Hdrop. rewrite Ec in Hdrop.
  destruct (workers p !! slot) as [w|] eqn:Hw; [|done]. cbn [mbind option_bind].
  destruct (worker_slot p slot w (inv_workers _ Hinv) Hw) as [_ Hfits].
  unfold fits in Hfits. rewrite Ec, decide_False in Hfits by lia. destruct Hfits as [Ha Hr].
  destruct (Z.eqb_spec (thread_number machine slot) 0) as [Hz|Hnz]; cbn [negb].
  - unfold report_wait. cbn [with_worker with_workers workers].
    rewrite list_lookup_insert_eq by (by eapply lookup_lt_Some). cbn [mbind option_bind move reported].
    rewrite Hr. intros [= <-]. destruct Hinv as [Hws Hown Hprog Hwait (H1 & H2 & H3)]. split.
    + eapply (workers_ok_insert p _ slot); [done|reflexivity|done| |].
      * unfold fits, unreported. cbn. rewrite decide_False, decide_True by lia. naive_solver.
      * intros i u Hne. unfold fits. rewrite Ec. cbn. case_decide; [done|]. by rewrite decide_False.
    + unfold owner_ok, remaining. cbn. naive_solver.
    + done.
    + done.
    + split; [done|]. split; [|done]. intros j Hj. apply H2. unfold active. by rewrite Ec.
  - intros [= <-]. apply caller_moves; [done|by unfold active; rewrite Ec|done| |].
    + intros i u _. unfold fits. rewrite Ec. cbn. rewrite Hst. case_decide; naive_solver.
    + unfold owner_ok, remaining, made_ok. cbn. do 4 (split; [naive_solver|]). split; [|done].
      exists slot. split_and!; try done; [|by left|by apply none_returned].
      unfold refusal_at. by rewrite (proj2 (Z.eqb_neq _ _) Hnz).
Qed.

Lemma report_wait_invariant p p' :
  invariant p → match caller p with InReportWoken _ => True | _ => False end →
  caller_step machine placements counts p = Some p' → invariant p'.
Proof.
  intros Hinv Hc. unfold caller_step. destruct (caller p) as [| | |slot| | | | | | | | |] eqn:Ec; try done.
  destruct (inv_owner _ Hinv) as (Hgen & Hstop & Hdrop & Hret & Hmade & _).
  rewrite Ec in Hmade, Hstop. destruct Hmade as (Hst & Hk & Hnone & Hnum). unfold remaining in Hdrop. rewrite Ec in Hdrop.
  assert (active p = false) as Hact by (unfold active; by rewrite Ec).
  unfold report_wait. destruct (workers p !! slot) as [w|] eqn:Hw; [|done]. cbn [mbind option_bind].
  destruct (worker_slot p slot w (inv_workers _ Hinv) Hw) as [_ Hfits].
  unfold fits in Hfits. rewrite Ec, decide_False, decide_True in Hfits by lia.
  assert (refusal_at slot = prepare slot) as Eref by (unfold refusal_at; by rewrite Hnum).
  destruct Hfits as [Hun|[[Hprep Hid]|(Ha & Hr & [e He] & Hf)]].
  - rewrite (proj1 Hun). cbn [negb]. intros [= <-]. apply caller_moves; [done..| |].
    + intros i u Hi. unfold fits. rewrite Ec. cbn. repeat case_decide; subst; try done.
      intros _. rewrite Hw in Hi. by injection Hi as <-.
    + unfold owner_ok, remaining. cbn. naive_solver.
  - destruct Hid as (Hr & Hf & Hwt & Hs). rewrite Hr, Hf. cbn [negb]. intros [= <-]. apply caller_moves; [done..| |].
    + intros i u Hi. unfold fits. rewrite Ec. cbn. repeat case_decide; subst; try done; try lia.
      intros _. rewrite Hw in Hi. by injection Hi as <-.
    + unfold owner_ok, remaining. cbn. do 4 (split; [naive_solver|]). split; [|done].
      split_and!; [done|lia|]. apply none_refused_S; [done|]. by rewrite Eref.
  - rewrite Hr, He. cbn [negb]. intros [= <-]. apply caller_moves; [done..| |].
    + intros i u Hi. unfold fits. rewrite Ec. cbn. rewrite Hst. repeat case_decide; subst; try done; try lia; [naive_solver|].
      intros _. rewrite Hw in Hi. injection Hi as <-. by right.
    + unfold owner_ok, remaining, made_ok. cbn. do 4 (split; [naive_solver|]). split; [|done].
      exists slot. split_and!; try done; [by rewrite Eref, <- Hf|by right|by apply none_returned].
Qed.

(** A run returns: its tasks are the log's. *)
Lemma returns_invariant p c cs :
  invariant p → drop (returned p) counts = c :: cs → none_refused size → started p = size → stopping p = false →
  (∀ i w, workers p !! i = Some w → idle p w) → indices_of (returned p) (log p) ≡ₚ seqZ 0 c →
  invariant (run_returns p cs).
Proof.
  intros [[Hl Hws] (Hgen & _ & _ & Hret & _) _ _ (H1 & H2 & H3 & H4 & H5)] Hdrop Hnone Hst Hstop Hidle Hran.
  assert (counts !! returned p = Some c) as Hc.
  { rewrite <- (Nat.add_0_r (returned p)), <- lookup_drop. by rewrite Hdrop. }
  split; [| |done|done|].
  - split; [done|]. intros i w Hi. unfold fits. cbn. by apply (Hidle i).
  - unfold owner_ok, remaining. cbn. split; [done|]. split; [done|]. split.
    + pose proof (drop_S _ _ _ Hc) as E. rewrite Hdrop in E. by injection E.
    + split; [|done]. apply lookup_lt_Some in Hc. lia.
  - unfold log_ok. cbn. split_and!; try done.
    + intros j d Hj Hd. destruct (decide (j = returned p)) as [->|]; [|apply H1; [lia|done]]. by rewrite Hc in Hd; injection Hd as <-.
    + intros j Hj. apply H2. unfold active in Hj. cbn in Hj. left. lia.
    + eapply Forall_impl; [exact H5|]. cbn. lia.
Qed.

Lemma runs_invariant p p' :
  invariant p → match caller p with InRuns _ => True | _ => False end →
  caller_step machine placements counts p = Some p' → invariant p'.
Proof.
  intros Hinv Hc. unfold caller_step. destruct (caller p) as [| | | |l| | | | | | | |] eqn:Ec; try done.
  destruct (inv_owner _ Hinv) as (Hgen & Hstop & Hdrop & Hret & Hmade & _).
  rewrite Ec in Hmade, Hstop. unfold remaining in Hdrop. rewrite Ec in Hdrop.
  assert (active p = false) as Hact by (unfold active; by rewrite Ec).
  destruct l as [|c cs]; [|destruct (Z.eqb_spec c 0) as [->|Hne]]; intros [= <-].
  - apply caller_moves; [done..| |].
    + intros i w Hi. unfold fits. rewrite Ec. cbn. case_decide as Hd; [by left|]. destruct Hd.
      destruct Hmade as [_ ->]. rewrite <- (proj1 (inv_workers _ Hinv)). by eapply lookup_lt_Some.
    + unfold owner_ok, remaining. cbn. rewrite Hdrop. naive_solver.
  - apply (returns_invariant p 0); try naive_solver.
    + intros i w Hi. pose proof (proj2 (inv_workers _ Hinv) i w Hi) as Hf. unfold fits in Hf. by rewrite Ec in Hf.
    + rewrite (proj1 (proj2 (inv_log _ Hinv))); [done|]. by right.
  - apply caller_moves; [done..| |].
    + intros i w _. unfold fits. by rewrite Ec.
    + unfold owner_ok, remaining. cbn. rewrite Hdrop. naive_solver.
Qed.

Lemma publish_invariant p p' :
  invariant p → match caller p with InPublish _ | InReset _ => True | _ => False end →
  caller_step machine placements counts p = Some p' → invariant p'.
Proof.
  intros [[Hl Hws] Hown Hprog Hwait (H1 & H2 & H3)] Hc. unfold caller_step.
  destruct Hown as (Hgen & Hstop & Hdrop & Hret & Hmade & _).
  destruct (caller p) as [| | | | |l|l| | | | | |] eqn:Ec; try done.
  - destruct l as [|c cs]; [done|]. intros [= <-]. unfold remaining in Hdrop. rewrite Ec in Hdrop.
    destruct Hmade as (Hnone & Hst & c' & l' & [= -> ->] & Hne). split; [| |done|done|].
    + split; [done|]. intros i w Hi. specialize (Hws i w Hi). unfold fits in *. by rewrite Ec in Hws.
    + unfold owner_ok, remaining. cbn. naive_solver.
    + split; [done|]. split; [|done]. intros j Hj. apply H2. unfold active in *. by rewrite Ec.
  - intros [= <-]. unfold remaining in Hdrop. rewrite Ec in Hdrop. split; [| |done|done|].
    + split; [done|]. intros i w Hi. specialize (Hws i w Hi). unfold fits in *. by rewrite Ec in Hws.
    + unfold owner_ok, remaining. cbn. naive_solver.
    + split; [done|]. split; [|done]. intros j Hj. apply H2. unfold active in *. by rewrite Ec.
Qed.

Lemma held_none ws : (∀ i w, ws !! i = Some w → held_index w = None) → held_indices ws = [].
Proof. rewrite <- Forall_lookup. induction 1 as [|w ws Hw _ IH]; [done|]. by rewrite held_cons, Hw, IH. Qed.

Lemma wake_at w : at_ (wake w) = match at_ w with AtWait => AtWoken | a => a end.
Proof. unfold wake. by destruct (at_ w) eqn:E. Qed.

Lemma wake_rest w : reported (wake w) = reported w ∧ failure (wake w) = failure w ∧ seen (wake w) = seen w.
Proof. unfold wake. by destruct (at_ w). Qed.

Lemma size_pos : (0 < size)%nat.
Proof. destruct placements; [done|]. cbn. lia. Qed.

Lemma advance_invariant p p' :
  invariant p → match caller p with InAdvance _ => True | _ => False end →
  caller_step machine placements counts p = Some p' → invariant p'.
Proof.
  intros [[Hl Hws] Hown Hprog Hwait (H1 & H2 & H3)] Hc. unfold caller_step.
  destruct Hown as (Hgen & Hstop & Hdrop & Hret & Hmade & Hnext).
  destruct (caller p) as [| | | | | | |l| | | | |] eqn:Ec; try done.
  destruct Hmade as (Hnone & Hst & Hdone & Htask & Hne). unfold remaining in Hdrop. rewrite Ec in Hdrop.
  pose proof size_pos as Hpos. unfold finish_wait, threads. cbn [workers done_]. rewrite length_fmap, Hl, Hdone.
  rewrite (proj2 (Z.eqb_neq 0 _)) by lia. intros [= <-].
  assert (∀ i w, (wake <$> workers p) !! i = Some w → at_ w = AtWoken ∧ reported w = true ∧ failure w = None ∧ seen w = generation p) as Hwoken.
  { intros i w. rewrite list_lookup_fmap. destruct (workers p !! i) as [u|] eqn:Hu; [|done]. intros [= <-].
    specialize (Hws i u Hu). unfold fits, idle, waits in Hws. rewrite Ec in Hws. rewrite wake_at.
    destruct (wake_rest u) as (-> & -> & ->). destruct Hws as (? & ? & ? & ?). by destruct (at_ u). }
  assert (∀ i w, (wake <$> workers p) !! i = Some w → is_idle (u64 (generation p + 1)) w = false ∧ has_left (u64 (generation p + 1)) w = false
    ∧ held_index w = None) as Hno.
  { intros i w Hi. destruct (Hwoken i w Hi) as (Ha & Hr & Hf & Hs). unfold has_left, is_idle, waits, held_index.
    rewrite Ha, Hs. cbn. rewrite orb_false_r, (proj2 (Z.eqb_neq _ _)); [done|]. symmetry. by apply u64_next_ne. }
  split.
  - split; [cbn; by rewrite length_fmap|]. intros i w Hi. unfold fits. cbn. left. unfold behind.
    destruct (Hwoken i w Hi) as (Ha & Hr & Hf & Hs). cbn. by rewrite Hs.
  - unfold owner_ok, remaining. cbn. split; [apply u64_range|]. naive_solver.
  - cbn. unfold in_progress. cbn [with_caller workers generation done_ next_ count_ task_ returned log].
    rewrite (census_none (is_idle _)) by (intros; by eapply Hno). rewrite (census_none (has_left _)) by (intros; by eapply Hno).
    assert (0 ≤ count_ p).
    { pose proof counts_fit as Hfit. apply (Forall_drop _ (returned p)) in Hfit. rewrite Hdrop in Hfit. by apply Forall_inv in Hfit as [? _]. }
    rewrite Hnext. split_and!; try done; try lia. rewrite Htask, H2 by (right; unfold active; by rewrite Ec).
    rewrite Z.min_l by lia. rewrite held_none; [done|]. intros i w Hi. by apply (Hno i w Hi).
  - cbn. lia.
  - split; [done|]. split; [|done]. intros j Hj. apply H2. cbn in Hj. naive_solver.
Qed.

(** All threads idle: the run's tasks have all been run. *)
Lemma finished_run p :
  invariant p → active p = true → done_ p = Z.of_nat size →
  (∀ i w, workers p !! i = Some w → idle p w) ∧ indices_of (returned p) (log p) ≡ₚ seqZ 0 (count_ p).
Proof.
  intros [[Hl Hws] Hown Hprog _ _] Hact Hdone. rewrite Hact in Hprog.
  destruct Hprog as (Hd & Hnext & Hclaims & Hheld & Htask & Hne). rewrite Hdone, <- Hl in Hd. symmetry in Hd.
  rewrite census_all in Hd. assert (∀ i w, workers p !! i = Some w → idle p w) as Hidle.
  { intros i w Hi. pose proof (Hd i w Hi) as Hid. specialize (Hws i w Hi). unfold fits in Hws.
    assert (behind p w ∨ serving p w ∨ idle p w) as [Hb|[Hs|?]] by (unfold active in Hact; by destruct (caller p)); [| |done].
    - by rewrite (behind_not_idle p w Hb) in Hid.
    - unfold is_idle, waits in Hid. destruct Hs as (_ & _ & _ & _ & _ & Hs). by destruct (at_ w). }
  split; [done|]. assert (census (has_left (generation p)) (workers p) = Z.of_nat size) as Hleft.
  { rewrite <- Hl. apply census_all. intros i w Hi. unfold has_left. by rewrite (Hd i w Hi). }
  pose proof size_pos. rewrite held_none in Hheld.
  - rewrite Z.min_r in Hheld by lia. by rewrite <- Htask.
  - intros i w Hi. destruct (Hidle i w Hi) as (_ & _ & Hwt & _). unfold held_index, waits in *. by destruct (at_ w).
Qed.

Lemma finish_invariant p p' :
  invariant p → match caller p with InFinishWoken _ => True | _ => False end →
  caller_step machine placements counts p = Some p' → invariant p'.
Proof.
  intros Hinv Hc. unfold caller_step. destruct (caller p) as [| | | | | | | | |l| | |] eqn:Ec; try done.
  intros [= <-]. unfold finish_wait, threads. rewrite (proj1 (inv_workers _ Hinv)).
  assert (active p = true) as Hact by (unfold active; by rewrite Ec).
  destruct (inv_owner _ Hinv) as (Hgen & Hstop & Hdrop & Hret & Hmade & _). rewrite Ec in Hstop, Hmade.
  unfold remaining in Hdrop. rewrite Ec in Hdrop. destruct (Z.eqb_spec (done_ p) (Z.of_nat size)) as [Hd|Hd].
  - destruct (finished_run p Hinv Hact Hd) as [Hidle Hran]. apply (returns_invariant p (count_ p)); naive_solver.
  - destruct Hinv as [[Hl Hws] Hown Hprog Hwait Hlog]. split.
    + split; [done|]. intros i w Hi. specialize (Hws i w Hi). unfold fits in *. by rewrite Ec in Hws.
    + unfold owner_ok, remaining in *. by rewrite Ec in Hown.
    + by rewrite Hact in Hprog.
    + done.
    + unfold log_ok, active in *. by rewrite Ec in Hlog.
Qed.

Lemma stop_invariant p p' :
  invariant p → match caller p with InStop _ | InJoin _ _ => True | _ => False end →
  caller_step machine placements counts p = Some p' → invariant p'.
Proof.
  intros Hinv Hc. unfold caller_step. destruct (inv_owner _ Hinv) as (Hgen & Hstop & Hdrop & Hret & Hmade & _).
  destruct (caller p) as [| | | | | | | | | |made|made m|] eqn:Ec; try done; unfold remaining in Hdrop; rewrite Ec in Hdrop.
  - intros [= <-]. destruct Hinv as [[Hl Hws] _ _ _ (H1 & H2 & H3)]. split; [| |done|done|].
    + split; [cbn; by rewrite length_fmap|]. intros i w. cbn. rewrite list_lookup_fmap.
      destruct (workers p !! i) as [u|] eqn:Hu; [|done]. intros [= <-]. specialize (Hws i u Hu).
      unfold fits, fresh, idle, waits in *. rewrite Ec in Hws. cbn. rewrite wake_at. destruct (wake_rest u) as (-> & _).
      case_decide; [|by destruct Hws as [-> ?]]. destruct Hws as [(_ & _ & Hwt & _)|Ha]; [left|right; by rewrite Ha].
      split; [lia|]. by destruct (at_ u).
    + unfold owner_ok, remaining. cbn. naive_solver.
    + split; [done|]. split; [|done]. intros j Hj. apply H2. unfold active in *. by rewrite Ec.
  - assert (active p = false) as Hact by (unfold active; by rewrite Ec).
    destruct (Nat.ltb_spec m (started p)) as [Hlt|Hge].
    + destruct (workers p !! m) as [w|] eqn:Hw; [|done]. cbn [mbind option_bind]. destruct (at_ w) eqn:Ha; try done.
      intros [= <-]. apply caller_moves; [done..| |].
      * intros i u Hi. unfold fits. rewrite Ec. cbn. case_decide; [|done]. intros [[Hle Hu]|Hu]; [|by right].
        destruct (decide (i = m)) as [->|]; [|left; split; [lia|done]]. rewrite Hw in Hi. injection Hi as <-. congruence.
      * unfold owner_ok, remaining. cbn. naive_solver.
    + intros [= <-]. apply caller_moves; [done..| |].
      * intros i u Hi. unfold fits. rewrite Ec. cbn. case_decide; [|done]. intros [[Hle Hu]|Hu]; [lia|done].
      * unfold owner_ok, remaining. cbn. naive_solver.
Qed.

Lemma step_invariant e p p' : invariant p → step machine expected placements counts e p = Some p' → invariant p'.
Proof.
  intros Hinv. destruct e as [|slot| |slot].
  - cbn. intros Hstep. destruct (caller p) eqn:Ec;
      try (unfold caller_step in Hstep; rewrite Ec in Hstep; discriminate Hstep).
    + apply (start_invariant p); by rewrite ?Ec.
    + apply (create_invariant p); by rewrite ?Ec.
    + apply (report_wait_invariant p); by rewrite ?Ec.
    + apply (runs_invariant p); by rewrite ?Ec.
    + apply (publish_invariant p); by rewrite ?Ec.
    + apply (publish_invariant p); by rewrite ?Ec.
    + apply (advance_invariant p); by rewrite ?Ec.
    + apply (finish_invariant p); by rewrite ?Ec.
    + apply (stop_invariant p); by rewrite ?Ec.
    + apply (stop_invariant p); by rewrite ?Ec.
  - by apply thread_invariant.
  - by apply spurious_owner_invariant.
  - cbn. destruct (workers p !! slot) as [w|] eqn:Hw; [|done]. cbn. destruct (at_ w) eqn:Ha; try done.
    intros [= <-]. by apply spurious_invariant.
Qed.

Lemma steps_invariant es p p' : invariant p → steps machine expected placements counts es p = Some p' → invariant p'.
Proof.
  revert p. induction es as [|e es IH]; intros p Hinv; cbn; [by intros [= <-]|].
  destruct (step _ _ _ _ e p) as [q|] eqn:E; [|done]. cbn. apply IH. by eapply step_invariant.
Qed.

Lemma reached_invariant es p : steps machine expected placements counts es (new_pool placements) = Some p → invariant p.
Proof. apply steps_invariant, invariant_new. Qed.

(** *** Progress *)

(** The steps a thread has still to take before it waits again or ends. *)
Definition weight (current : Z) (w : Worker) : Z :=
  match at_ w with
  | AtNone | AtWait | AtEnd => 0
  | AtPrepare => 3
  | AtReport | AtLeave => 2
  | AtWoken => if seen w =? current then 1 else 4
  | AtClaim => 3
  | AtTask _ => 4
  end.

Definition weights (p : Pool) : Z := sum (weight (generation p) <$> workers p).

(** The steps of the owner, of the runs to come and of their threads. *)
Definition stop_steps : Z := 2 * Z.of_nat size + 2.
Definition run_steps (l : list Z) : Z := sum ((λ c, 4 * Z.of_nat size + 2 * c + 4) <$> l) + stop_steps + 1.
Definition start_steps (k : nat) : Z := 7 * (Z.of_nat size - Z.of_nat k) + run_steps counts.

Definition owner_steps (p : Pool) : Z :=
  match caller p with
  | InStart k => start_steps k + 1
  | InCreate k => start_steps k
  | InReport k => start_steps k - 5
  | InReportWoken k => start_steps k - 4
  | InRuns l => run_steps l
  | InPublish l => run_steps l - 1
  | InReset l => run_steps (count_ p :: l) - 2
  | InAdvance l => run_steps (count_ p :: l) - 3
  | InFinish l => run_steps l
  | InFinishWoken l => run_steps l + 1
  | InStop _ => stop_steps
  | InJoin _ m => Z.of_nat (started p) - Z.of_nat (Nat.min m (started p)) + 1
  | InEnd _ => 0
  end.

Definition claims_left (p : Pool) : Z :=
  if active p then 2 * (count_ p - Z.min (next_ p) (count_ p)) else 0.

Definition steps_left (p : Pool) : Z := owner_steps p + weights p + claims_left p.

(** The most steps any schedule takes, a spurious wake allowing one more. *)
Definition steps_bound : Z := start_steps 0 + 1.

Lemma weight_nonneg g w : 0 ≤ weight g w ≤ 4.
Proof. unfold weight. destruct (at_ w); try lia. case_match; lia. Qed.

Lemma weights_nonneg p : 0 ≤ weights p.
Proof. apply sum_nonneg. intros w. apply weight_nonneg. Qed.

Lemma claims_nonneg p : 0 ≤ claims_left p.
Proof. unfold claims_left. destruct (active p); lia. Qed.

Lemma run_steps_cons c l : run_steps (c :: l) = run_steps l + 4 * Z.of_nat size + 2 * c + 4.
Proof. unfold run_steps. rewrite fmap_cons, sum_cons. lia. Qed.

Lemma run_steps_ge l : Forall (λ c, 0 ≤ c) l → stop_steps + 1 ≤ run_steps l.
Proof. unfold run_steps. induction 1 as [|c l Hc _ IH]; [cbn; lia|]. rewrite fmap_cons, sum_cons. lia. Qed.

Lemma counts_nonneg l : (∃ n, drop n counts = l) → Forall (λ c, 0 ≤ c) l.
Proof. intros [n <-]. apply Forall_drop. eapply Forall_impl; [exact counts_fit|]. cbn. lia. Qed.

Lemma weight_step p p' slot w w' :
  workers p !! slot = Some w → workers p' = <[slot := w']> (workers p) → generation p' = generation p →
  weights p' = weights p - weight (generation p) w + weight (generation p) w'.
Proof. intros Hw E Eg. unfold weights. by rewrite Eg, E, (sum_insert _ _ _ w). Qed.

Lemma serve_wait_weight p w :
  at_ w = AtWoken → weight (generation p) (serve_wait p w) + 1 ≤ weight (generation p) w.
Proof.
  intros Ha. unfold serve_wait. unfold weight at 2. rewrite Ha. destruct (stopping p).
  - rewrite andb_false_r. cbn. case_match; lia.
  - rewrite andb_true_r. case_bool_decide as E; cbn.
    + rewrite E, Z.eqb_refl. lia.
    + rewrite (proj2 (Z.eqb_neq _ _)) by congruence. lia.
Qed.

Lemma thread_progress slot p p' :
  invariant p → worker_step machine expected placements slot p = Some p' → steps_left p' + 1 ≤ steps_left p.
Proof.
  intros Hinv. unfold worker_step. destruct (workers p !! slot) as [w|] eqn:Hw; [|done]. cbn [mbind option_bind].
  destruct (worker_slot p slot w (inv_workers _ Hinv) Hw) as [Hslot Hfits].
  pose proof (where_at p slot w Hfits) as Hat. unfold steps_left.
  destruct (at_ w) as [| | | | | |index| |] eqn:Ha; try done.
  - intros [= <-]. rewrite (weight_step p _ slot w (move w AtReport)) by done. unfold weight. rewrite Ha.
    change (owner_steps (with_worker _ _ _)) with (owner_steps p). change (claims_left (with_worker _ _ _)) with (claims_left p).
    cbn. lia.
  - destruct (negb (mutex_free p)); [done|]. intros [= <-]. destruct Hat as [Hc Hr].
    assert (notify_reported p = with_caller p (InReportWoken slot)) as ->.
    { unfold notify_reported. destruct Hc as [Ec|Ec]; rewrite Ec; [done|]. rewrite <- Ec. by destruct p. }
    set (w' := match prepare slot with None => _ | _ => _ end).
    assert (weight (generation p) w' ≤ 0) as Hw'.
    { subst w'. destruct (prepare slot); [done|]. unfold serve_wait. cbn. rewrite bool_decide_true by done.
      destruct (inv_owner _ Hinv) as (_ & -> & _). by destruct Hc as [-> | ->]. }
    rewrite (weight_step p _ slot w w') by done. unfold owner_steps, claims_left, active. cbn.
    unfold weight at 1. rewrite Ha. destruct Hc as [-> | ->]; lia.
  - destruct (negb (mutex_free p)); [done|]. intros [= <-]. rewrite (weight_step p _ slot w (serve_wait p w)) by done.
    pose proof (serve_wait_weight p w Ha).
    change (owner_steps (with_worker _ _ _)) with (owner_steps p). change (claims_left (with_worker _ _ _)) with (claims_left p).
    lia.
  - intros [= <-]. destruct Hat as [Hact Hs]. destruct (in_run p slot w Hinv Hw Hact Hs) as ((_ & Hnext & _) & _ & _ & Hle & _ & Hcount & Hfit).
    assert (has_left (generation p) w = false) as Hw0 by (unfold has_left, is_idle, waits; by rewrite Ha).
    destruct (in_run p slot w Hinv Hw Hact Hs) as (_ & _ & _ & _ & Hleft & _). specialize (Hleft Hw0).
    assert (my_count w = count_ p) as -> by apply Hs. rewrite u64_small by (unfold in_u64; lia).
    rewrite (weight_step p _ slot w (move w (if next_ p <? count_ p then AtTask (next_ p) else AtLeave))) by done.
    unfold weight. rewrite Ha. unfold owner_steps, claims_left, active in *. cbn [with_worker with_workers caller count_ next_ started].
    rewrite Hact. cbn [move at_]. destruct (Z.ltb_spec (next_ p) (count_ p)); lia.
  - intros [= <-]. rewrite (weight_step p _ slot w (move w AtClaim)) by done. unfold weight. rewrite Ha.
    unfold owner_steps, claims_left, active. cbn. lia.
  - destruct (leaves p slot w Hinv Hw Ha) as [Hdfit Hserve]. destruct (negb (mutex_free p)); [done|].
    rewrite Hserve. destruct (add_done_spec p Hdfit) as (Ed & Eg & Et & En & Es & Est & Er & Ew & Ex & El & Ec).
    intros [= <-]. rewrite (weight_step p _ slot w (move w AtWait)) by (cbn; rewrite ?Ew; done).
    unfold weight. rewrite Ha. unfold owner_steps, claims_left, active in *.
    cbn [with_worker with_workers caller count_ next_ started move at_].
    rewrite En, Ex. destruct Ec as [[-> _]|(l & Ec & ->)]; [rewrite Es; lia|]. rewrite Ec. lia.
Qed.

Lemma report_wait_steps p slot p' :
  report_wait p slot = Some p' → workers p' = workers p ∧ generation p' = generation p
  ∧ (caller p' = InReport slot ∨ caller p' = InStart (S slot) ∨ ∃ error, caller p' = InStop (Some error)).
Proof.
  unfold report_wait. destruct (workers p !! slot) as [w|]; [|done]. cbn.
  destruct (negb (reported w)); [|destruct (failure w)]; intros [= <-]; naive_solver.
Qed.

Lemma wake_weight g w : weight g (wake w) ≤ weight g w + (if at_ w is AtWait then (if seen w =? g then 1 else 4) else 0).
Proof. unfold wake, weight. destruct (at_ w) eqn:Ha; cbn; rewrite ?Ha; try lia; case_match; lia. Qed.

Lemma counts_steps p l : invariant p → drop (returned p) counts = l → stop_steps + 1 ≤ run_steps l ∧ stop_steps + 1 ≤ run_steps counts.
Proof.
  intros _ E. split; apply run_steps_ge; apply counts_nonneg; [by eexists|]. by exists 0%nat.
Qed.

Lemma quiet_steps p : active p = false → steps_left p = owner_steps p + weights p.
Proof. intros E. unfold steps_left, claims_left. rewrite E. lia. Qed.

Lemma steps_left_ge p : owner_steps p + weights p ≤ steps_left p.
Proof. unfold steps_left. pose proof (claims_nonneg p). lia. Qed.

(** The owner moves on, not into a run. *)
Lemma owner_moves p c :
  match c with InFinish _ | InFinishWoken _ => False | _ => True end →
  owner_steps (with_caller p c) + 1 ≤ owner_steps p → steps_left (with_caller p c) + 1 ≤ steps_left p.
Proof.
  intros Hc Hle. rewrite quiet_steps by (unfold active; cbn; by destruct c).
  pose proof (steps_left_ge p). change (weights (with_caller p c)) with (weights p). lia.
Qed.

Lemma start_progress p p' :
  invariant p → match caller p with InStart _ | InCreate _ | InReportWoken _ => True | _ => False end →
  caller_step machine placements counts p = Some p' → steps_left p' + 1 ≤ steps_left p.
Proof.
  intros Hinv Hc. destruct (inv_owner _ Hinv) as (_ & _ & _ & _ & Hmade & _).
  assert (stop_steps + 1 ≤ run_steps counts) as Hall by (apply run_steps_ge, counts_nonneg; by exists 0%nat).
  unfold caller_step. destruct (caller p) as [k|k| |k| | | | | | | | |] eqn:Ec; try done.
  - intros [= <-]. apply owner_moves; [by destruct (_ <? _)%nat|]. unfold owner_steps. rewrite Ec. cbn [with_caller caller].
    destruct (Nat.ltb_spec k size); [lia|]. unfold start_steps. lia.
  - destruct (workers p !! k) as [w|] eqn:Hw; [|done]. cbn [mbind option_bind].
    destruct (worker_slot p k w (inv_workers _ Hinv) Hw) as [_ Hfits].
    unfold fits in Hfits. rewrite Ec, decide_False in Hfits by lia. destruct Hfits as [Ha Hr].
    destruct (negb _).
    + intros [= <-]. apply owner_moves; [done|]. unfold owner_steps. rewrite Ec. cbn [with_caller caller]. unfold start_steps. lia.
    + unfold report_wait. cbn [with_worker with_workers workers].
      rewrite list_lookup_insert_eq by (by eapply lookup_lt_Some). cbn [mbind option_bind move reported].
      rewrite Hr. intros [= <-]. rewrite quiet_steps by done. pose proof (steps_left_ge p).
      rewrite (weight_step p _ k w (move w AtPrepare)) by done. revert H. unfold owner_steps. rewrite Ec.
      cbn [with_caller caller negb]. unfold weight. rewrite Ha. cbn [move at_]. lia.
  - unfold report_wait. destruct (workers p !! k) as [w|] eqn:Hw; [|done]. cbn [mbind option_bind].
    intros [= <-]. destruct (negb (reported w)); [|destruct (failure w)]; (apply owner_moves; [done|]);
      unfold owner_steps; rewrite Ec; cbn [with_caller caller]; unfold start_steps; lia.
Qed.

Lemma finish_wait_progress p cs :
  active p = true → caller p = InFinishWoken cs → steps_left (finish_wait p cs) + 1 ≤ steps_left p.
Proof.
  intros Hact Ec. unfold finish_wait. destruct (_ =? _).
  - rewrite quiet_steps by done. pose proof (steps_left_ge p). revert H. unfold owner_steps. rewrite Ec.
    change (weights (run_returns p cs)) with (weights p). cbn [run_returns caller]. lia.
  - unfold steps_left, owner_steps, claims_left, active. rewrite Ec. cbn [with_caller caller].
    change (weights (with_caller p (InFinish cs))) with (weights p). cbn [with_caller count_ next_]. lia.
Qed.

Lemma runs_progress p p' :
  invariant p →
  match caller p with InRuns _ | InPublish _ | InReset _ | InAdvance _ | InFinishWoken _ => True | _ => False end →
  caller_step machine placements counts p = Some p' → steps_left p' + 1 ≤ steps_left p.
Proof.
  intros Hinv Hc. destruct (inv_owner _ Hinv) as (_ & _ & Hdrop & _ & Hmade & Hnext).
  pose proof (counts_nonneg _ (ex_intro _ _ Hdrop)) as Hpos. pose proof (run_steps_ge _ Hpos) as Hrem.
  unfold remaining in *. pose proof (steps_left_ge p) as Hge. revert Hge. unfold owner_steps.
  unfold caller_step. destruct (caller p) as [| | | |l|l|l|l| |l| | |] eqn:Ec; try done; intros Hge.
  - destruct l as [|c cs]; [|destruct (Z.eqb_spec c 0) as [->|Hne]]; intros [= <-]; rewrite quiet_steps by done; unfold owner_steps;
      cbn [run_returns with_caller caller]; change (weights _) with (weights p); rewrite ?run_steps_cons in *; lia.
  - destruct l as [|c cs]; [done|]. intros [= <-]. rewrite quiet_steps by done. unfold owner_steps. cbn [caller count_].
    change (weights _) with (weights p). lia.
  - intros [= <-]. rewrite quiet_steps by done. unfold owner_steps. cbn [caller count_]. change (weights _) with (weights p). lia.
  - intros [= <-]. unfold finish_wait, threads. cbn [workers done_]. rewrite length_fmap. destruct Hmade as (_ & _ & -> & _).
    pose proof size_pos. pose proof (inv_workers _ Hinv) as [Hl _]. rewrite Hl, (proj2 (Z.eqb_neq 0 _)) by lia.
    etrans; [|exact Hge]. unfold steps_left, owner_steps, claims_left, active, weights at 1.
    cbn [with_caller caller workers count_ next_ generation]. rewrite Hnext.
    apply Forall_inv in Hpos. cbn beta in Hpos. rewrite run_steps_cons in *.
    pose proof (sum_le (weight (u64 (generation p + 1))) (λ _, 0) (wake <$> workers p) 4) as Hsum.
    rewrite length_fmap, Hl in Hsum. specialize (Hsum (λ i w _, proj2 (weight_nonneg _ w))).
    pose proof (weights_nonneg p). replace (sum ((λ _, 0) <$> (wake <$> workers p))) with 0 in Hsum; [lia|].
    clear. generalize (wake <$> workers p) as ws. induction ws as [|w ws IH]; [done|]. rewrite fmap_cons, sum_cons. lia.
  - intros [= <-]. apply finish_wait_progress; [|done]. unfold active. by rewrite Ec.
Qed.

Lemma stop_progress p p' :
  invariant p → match caller p with InStop _ | InJoin _ _ => True | _ => False end →
  caller_step machine placements counts p = Some p' → steps_left p' + 1 ≤ steps_left p.
Proof.
  intros Hinv Hc. destruct (inv_owner _ Hinv) as (_ & _ & _ & _ & Hmade & _).
  pose proof (inv_workers _ Hinv) as [Hl Hws].
  pose proof (steps_left_ge p) as Hge. revert Hge. unfold owner_steps.
  unfold caller_step. destruct (caller p) as [| | | | | | | | | |made|made m|] eqn:Ec; try done; intros Hge.
  - intros [= <-]. rewrite quiet_steps by done. unfold owner_steps, weights in *. cbn [caller workers generation started].
    rewrite <- list_fmap_compose. assert (started p ≤ size)%nat as Hst by (unfold made_ok in Hmade; destruct made; naive_solver lia).
    assert (sum (weight (generation p) ∘ wake <$> workers p) ≤ sum (weight (generation p) <$> workers p) + 1 * Z.of_nat (length (workers p))) as Hsum.
    { apply sum_le. intros i w Hi. cbn. pose proof (wake_weight (generation p) w). specialize (Hws i w Hi).
      unfold fits, fresh, idle in Hws. rewrite Ec in Hws. destruct (at_ w) eqn:Ha; try lia.
      case_decide; [|naive_solver]. destruct Hws as [(_ & _ & _ & Hs)|]; [|done]. rewrite Hs, Z.eqb_refl in *. lia. }
    rewrite Hl in Hsum. unfold stop_steps in Hge. lia.
  - destruct (Nat.ltb_spec m (started p)).
    + destruct (workers p !! m) as [w|]; [|done]. cbn [mbind option_bind]. destruct (at_ w); try done. intros [= <-].
      apply owner_moves; [done|]. unfold owner_steps. rewrite Ec. cbn [with_caller caller started]. lia.
    + intros [= <-]. apply owner_moves; [done|]. unfold owner_steps. rewrite Ec. cbn [with_caller caller started]. lia.
Qed.

Lemma waits_seen p slot w : at_ w = AtWait → fits p slot w → seen w = generation p.
Proof.
  unfold fits, idle, behind, serving, unreported, refused, fresh. intros Ha. rewrite Ha.
  destruct (caller p); repeat case_decide; naive_solver.
Qed.

Lemma step_progress e p p' :
  invariant p → step machine expected placements counts e p = Some p' →
  steps_left p' + 1 ≤ steps_left p + (if is_spurious e then 2 else 0).
Proof.
  intros Hinv. destruct e as [|slot| |slot]; cbn [step is_spurious]; rewrite ?Z.add_0_r.
  - intros Hstep. destruct (caller p) eqn:Ec;
      try (unfold caller_step in Hstep; rewrite Ec in Hstep; discriminate Hstep);
      first [apply start_progress; rewrite ?Ec; done | apply runs_progress; rewrite ?Ec; done
            | apply stop_progress; rewrite ?Ec; done].
  - by apply thread_progress.
  - destruct (caller p) eqn:Ec; try done; intros [= <-];
      unfold steps_left, owner_steps, claims_left, active; rewrite Ec; cbn [with_caller caller count_ next_];
      change (weights (with_caller p _)) with (weights p); lia.
  - destruct (workers p !! slot) as [w|] eqn:Hw; [|done]. cbn [mbind option_bind]. destruct (at_ w) eqn:Ha; try done.
    intros [= <-]. unfold steps_left. rewrite (weight_step p _ slot w (move w AtWoken)) by done.
    change (owner_steps (with_worker _ _ _)) with (owner_steps p). change (claims_left (with_worker _ _ _)) with (claims_left p).
    unfold weight. rewrite Ha. cbn [move at_ seen].
    rewrite (waits_seen p slot w Ha (proj2 (inv_workers _ Hinv) slot w Hw)), Z.eqb_refl. lia.
Qed.

Lemma steps_progress es p p' :
  invariant p → steps machine expected placements counts es p = Some p' →
  steps_left p' + census (negb ∘ is_spurious) es ≤ steps_left p + census is_spurious es.
Proof.
  revert p. induction es as [|e es IH]; intros p Hinv; cbn [steps]; [intros [= <-]; unfold census; cbn [filter list_filter length]; lia|].
  destruct (step _ _ _ _ e p) as [q|] eqn:E; [|done]. cbn [mbind option_bind]. intros Hq.
  specialize (IH q (step_invariant e p q Hinv E) Hq). pose proof (step_progress e p q Hinv E) as Hs.
  rewrite !census_cons. change ((negb ∘ is_spurious) e) with (negb (is_spurious e)). unfold one.
  destruct (is_spurious e); cbn [negb]; lia.
Qed.

Lemma steps_left_nonneg p : invariant p → 0 ≤ steps_left p.
Proof.
  intros Hinv. destruct (inv_owner _ Hinv) as (_ & _ & Hdrop & _ & Hmade & _).
  pose proof (run_steps_ge _ (counts_nonneg _ (ex_intro _ _ Hdrop))) as Hrem.
  pose proof (run_steps_ge _ (counts_nonneg counts (ex_intro _ 0%nat eq_refl))) as Hall.
  pose proof (weights_nonneg p). pose proof (steps_left_ge p). unfold remaining, owner_steps in *.
  assert (2 ≤ stop_steps) by (unfold stop_steps; lia). unfold start_steps in *.
  destruct (caller p) as [| | | |l|l|l|l|l|l| | |] eqn:Ec; try lia.
  all: try (pose proof (counts_nonneg _ (ex_intro _ _ Hdrop)) as Hpos; apply Forall_inv_tail in Hpos; apply run_steps_ge in Hpos; lia).
Qed.

Lemma steps_left_new : steps_left (new_pool placements) = steps_bound.
Proof.
  rewrite quiet_steps by done. unfold owner_steps, weights, steps_bound. cbn [new_pool caller workers].
  enough (sum (weight (generation (new_pool placements)) <$> replicate size new_worker) = 0) by lia.
  generalize size as n. induction n; [done|]. cbn [replicate]. rewrite fmap_cons, sum_cons. change (weight _ new_worker) with 0. lia.
Qed.

(** Some thread or the owner can always move by itself. *)
Lemma unfinished_worker p :
  invariant p → match caller p with InFinish _ => True | _ => False end →
  ∃ slot w, workers p !! slot = Some w ∧ (behind p w ∨ serving p w).
Proof.
  intros [[Hl Hws] _ Hprog Hwait _] Hc. unfold active in Hprog. destruct (caller p) eqn:Ec; try done.
  destruct Hprog as (Hdone & _). destruct (decide (Forall (λ w, is_idle (generation p) w = true) (workers p))) as [Hall|Hnot].
  - destruct Hwait. rewrite Hdone, <- Hl. apply census_all. by apply Forall_lookup.
  - apply not_Forall_Exists in Hnot; [|solve_decision]. apply Exists_exists in Hnot as (w & Hin & Hw). cbn in Hw.
    apply list_elem_of_lookup in Hin as [slot Hs]. exists slot, w. split; [done|].
    specialize (Hws slot w Hs). unfold fits in Hws. rewrite Ec in Hws. destruct Hws as [?|[?|Hid]]; [by left|by right|].
    destruct Hw. destruct Hid as (_ & _ & Hwt & Hseen). unfold is_idle. by rewrite Hwt, Hseen, Z.eqb_refl.
Qed.

Lemma thread_ready p slot w :
  workers p !! slot = Some w → mutex_free p = true →
  match at_ w with AtNone | AtWait | AtEnd => False | _ => True end →
  is_Some (worker_step machine expected placements slot p).
Proof. intros Hw Hm Ha. unfold worker_step. rewrite Hw. cbn [mbind option_bind]. rewrite Hm. destruct (at_ w); done. Qed.

Lemma worker_exists p slot : invariant p → (slot < size)%nat → ∃ w, workers p !! slot = Some w ∧ fits p slot w.
Proof.
  intros [[Hl Hws] _ _ _ _] Hslot. destruct (lookup_lt_is_Some_2 (workers p) slot) as [w Hw]; [lia|]. eauto.
Qed.

Lemma never_stuck p :
  invariant p → (∀ made, caller p ≠ InEnd made) →
  ∃ e, is_spurious e = false ∧ is_Some (step machine expected placements counts e p).
Proof.
  intros Hinv Hend. destruct (inv_owner _ Hinv) as (_ & _ & _ & _ & Hmade & _).
  destruct (caller p) as [k|k|k|k|l|l|l|l|l|l|made|made m|made] eqn:Ec; try (exists Owner; split; [done|]; cbn; unfold caller_step; rewrite Ec; done).
  - destruct (worker_exists p k Hinv) as (w & Hw & Hf); [lia|]. exists Owner. split; [done|]. cbn. unfold caller_step, report_wait.
    rewrite Ec, Hw. cbn -[with_worker]. destruct (negb _); [done|]. cbn. rewrite list_lookup_insert_eq by (by eapply lookup_lt_Some). done.
  - destruct (worker_exists p k Hinv) as (w & Hw & Hf); [lia|]. exists (Thread k). split; [done|]. cbn.
    apply (thread_ready p k w Hw); [unfold mutex_free; by rewrite Ec|].
    unfold fits in Hf. rewrite Ec, decide_False, decide_True in Hf by lia. destruct Hf as [_ [-> | ->]]; done.
  - destruct (worker_exists p k Hinv) as (w & Hw & Hf); [lia|]. exists Owner. split; [done|]. cbn. unfold caller_step, report_wait.
    by rewrite Ec, Hw.
  - destruct l as [|c l]; exists Owner; (split; [done|]); cbn; unfold caller_step; by rewrite Ec.
  - destruct Hmade as (_ & _ & c & l' & -> & _). exists Owner. split; [done|]. cbn. unfold caller_step. by rewrite Ec.
  - destruct (unfinished_worker p Hinv) as (slot & w & Hw & Hs); [by rewrite Ec|]. exists (Thread slot). split; [done|]. cbn.
    apply (thread_ready p slot w Hw); [unfold mutex_free; by rewrite Ec|]. unfold behind, serving in Hs.
    destruct (at_ w); naive_solver.
  - destruct (decide (m < started p)%nat) as [Hlt|Hge].
    + assert (started p ≤ size)%nat by (unfold made_ok in Hmade; destruct made; naive_solver lia).
      destruct (worker_exists p m Hinv) as (w & Hw & Hf); [lia|]. unfold fits in Hf. rewrite Ec, decide_True in Hf by done.
      destruct Hf as [[_ Ha]|Ha].
      * exists (Thread m). split; [done|]. cbn. apply (thread_ready p m w Hw); [unfold mutex_free; by rewrite Ec|]. by rewrite Ha.
      * exists Owner. split; [done|]. cbn [step]. unfold caller_step.
        rewrite Ec, (proj2 (Nat.ltb_lt _ _) Hlt), Hw. cbn. by rewrite Ha.
    + exists Owner. split; [done|]. cbn [step]. unfold caller_step. rewrite Ec. by rewrite (proj2 (Nat.ltb_ge _ _)) by lia.
  - by destruct (Hend made).
Qed.

(** *** What a schedule shows *)

Lemma log_of_run p j c : invariant p → counts !! j = Some c → indices_of j (log p) ⊆+ seqZ 0 c.
Proof.
  intros Hinv Hc. destruct (inv_log _ Hinv) as (H1 & H2 & _).
  destruct (decide (j < returned p)%nat) as [Hlt|Hge]; [by rewrite (H1 j c Hlt Hc)|].
  destruct (decide (j = returned p)) as [->|]; [|rewrite H2 by lia; apply submseteq_nil_l].
  destruct (active p) eqn:Hact; [|rewrite H2 by tauto; apply submseteq_nil_l].
  pose proof (inv_progress _ Hinv) as Hprog. rewrite Hact in Hprog.
  destruct Hprog as (_ & Hnext & _ & Hheld & Htask & _). rewrite <- Htask.
  assert (count_ p = c) as Ec.
  { destruct (inv_owner _ Hinv) as (_ & _ & Hdrop & _). rewrite (drop_S _ _ _ Hc) in Hdrop.
    unfold active, remaining in *. destruct (caller p); try done; by injection Hdrop. }
  trans (held_indices (workers p) ++ indices_of (task_ p) (log p)); [apply submseteq_inserts_l; done|].
  rewrite Hheld, Ec. replace (seqZ 0 c) with (seqZ 0 (Z.min (next_ p) c + (c - Z.min (next_ p) c))) by (f_equal; lia).
  destruct (count_fits p (inv_owner _ Hinv) Hact). rewrite seqZ_app by lia. apply submseteq_inserts_r. done.
Qed.

End Invariant.

(** The slots in order, and the first of them that is refused. *)
Definition first_refusal (machine : Machine) (expected : FpState) (placements : list ThreadPlacement) : option PoolError :=
  head (omap (refusal_at machine expected placements) (seq 0 (length placements))).

Lemma none_refused_slots machine expected placements n :
  none_refused machine expected placements n → omap (refusal_at machine expected placements) (seq 0 n) = [].
Proof.
  intros Hnone. apply elem_of_nil_inv. intros y Hy. apply list_elem_of_omap in Hy as (i & Hi & E).
  apply elem_of_seq in Hi. by rewrite Hnone in E by lia.
Qed.

Lemma first_refusal_at machine expected placements slot error :
  (slot < length placements)%nat → none_refused machine expected placements slot →
  refusal_at machine expected placements slot = Some error →
  first_refusal machine expected placements = Some error.
Proof.
  intros Hlt Hnone Herr. unfold first_refusal.
  replace (length placements) with (slot + S (length placements - S slot))%nat by lia.
  rewrite seq_app, omap_app. cbn [seq omap list_omap]. rewrite Nat.add_0_l, Herr.
  by rewrite none_refused_slots.
Qed.

Lemma no_refusal machine expected placements :
  none_refused machine expected placements (length placements) → first_refusal machine expected placements = None.
Proof.
  intros Hnone. unfold first_refusal.
  by rewrite none_refused_slots.
Qed.

(** ** Properties *)

(** C24: however the threads of the pool and its owner interleave, whatever wakes
    spuriously, each task index of a run is run at most once and by a thread of the pool;
    a run has returned only when every one of its indices has been run, so that no task of
    it runs after a task of a later run. *)
Theorem tasks_run_once machine expected placements counts es p :
  placements ≠ [] →
  Forall (λ c, 0 ≤ c ∧ c + Z.of_nat (length placements) < 2 ^ 64) counts →
  steps machine expected placements counts es (new_pool placements) = Some p →
  (∀ j c, counts !! j = Some c →
     indices_of j (log p) ⊆+ seqZ 0 c
     ∧ ((j < returned p)%nat → indices_of j (log p) ≡ₚ seqZ 0 c)
     ∧ ((returned p < j)%nat → indices_of j (log p) = []))
  ∧ Forall (λ e, (e.2 < length placements)%nat) (log p)
  ∧ StronglySorted (λ e e', (e'.1.1 ≤ e.1.1)%nat) (log p).
Proof.
  intros Hplaced Hfit Hsteps. apply (reached_invariant _ _ _ _ Hplaced Hfit) in Hsteps as Hinv.
  destruct (inv_log _ _ _ _ _ Hinv) as (H1 & H2 & H3 & H4 & _). split; [|done]. intros j c Hc.
  split; [by eapply log_of_run|]. split; intros Hj; [by apply H1|]. apply H2. by left.
Qed.

(** C25: the pool never deadlocks and always ends. In every state that a schedule reaches
    short of the owner's end, some thread can move without a spurious wake; and a schedule
    has at most [steps_bound] such moves, plus one for each spurious wake. *)
Theorem pool_runs_to_end machine expected placements counts es p :
  placements ≠ [] →
  Forall (λ c, 0 ≤ c ∧ c + Z.of_nat (length placements) < 2 ^ 64) counts →
  steps machine expected placements counts es (new_pool placements) = Some p →
  ((∀ made, caller p ≠ InEnd made) →
   ∃ e, is_spurious e = false ∧ is_Some (step machine expected placements counts e p))
  ∧ census (negb ∘ is_spurious) es ≤ steps_bound placements counts + census is_spurious es.
Proof.
  intros Hplaced Hfit Hsteps. pose proof (reached_invariant _ _ _ _ Hplaced Hfit _ _ Hsteps) as Hinv.
  split; [by apply never_stuck|].
  pose proof (invariant_new machine expected placements counts) as Hnew.
  pose proof (steps_progress _ _ _ _ Hplaced Hfit es _ p Hnew Hsteps) as Hle.
  pose proof (steps_left_nonneg _ _ _ _ Hfit p Hinv).
  rewrite steps_left_new in Hle. lia.
Qed.

(** What make_thread_pool answers is the first refusal in slot order (a thread not
    created, then not placed, then in another floating-point state), and only without one
    are the runs made; either way every thread it created has returned by the end, and no
    other was created. *)
Theorem pool_made_or_unwound machine expected placements counts es p made :
  placements ≠ [] →
  Forall (λ c, 0 ≤ c ∧ c + Z.of_nat (length placements) < 2 ^ 64) counts →
  steps machine expected placements counts es (new_pool placements) = Some p →
  caller p = InEnd made →
  made = first_refusal machine expected placements
  ∧ returned p = match made with None => length counts | Some _ => 0%nat end
  ∧ (∀ slot w, workers p !! slot = Some w → at_ w = if (slot <? started p)%nat then AtEnd else AtNone).
Proof.
  intros Hplaced Hfit Hsteps Hend. pose proof (reached_invariant _ _ _ _ Hplaced Hfit _ _ Hsteps) as [[Hl Hws] Hown _ _ _].
  destruct Hown as (_ & _ & Hdrop & Hret & Hmade & _). unfold remaining in Hdrop. rewrite Hend in Hdrop, Hmade. split_and!.
  - destruct made as [error|]; [destruct Hmade as (slot & ? & ? & ? & _); symmetry; by eapply first_refusal_at|].
    symmetry. apply no_refusal, Hmade.
  - destruct made as [error|]; [by destruct Hmade as (? & _ & _ & _ & _ & ?)|].
    apply (f_equal length) in Hdrop. rewrite length_drop in Hdrop. cbn in Hdrop. lia.
  - intros slot w Hw. specialize (Hws slot w Hw). unfold fits, fresh in Hws. rewrite Hend in Hws.
    case_decide as Hd; [by rewrite (proj2 (Nat.ltb_lt _ _) Hd)|].
    rewrite (proj2 (Nat.ltb_ge _ _)) by lia. apply Hws.
Qed.

(** ** Witnesses *)

(** Two threads, the second bound to CPU 1, and runs of three, no and one tasks, with
    spurious wakes. *)
Definition sample_state : FpState :=
  {| rounding := kToNearestEven; flush_to_zero := false; denormals_are_zero := Some false; default_nan := None |}.
Definition sample_machine (answer : Result unit SyscallError) : Machine :=
  {| thread_number := λ _, 0; placed_as := λ _, answer; fp_found := λ _, sample_state |}.
Definition sample_schedule : list Event :=
  [Owner; Owner; SpuriousOwner; Owner; Thread 0; Thread 0; Spurious 0; Owner; Owner; Owner; Thread 0; Thread 1; Thread 1;
   Owner; Owner; Owner; Owner; Owner; Owner; Thread 0; Thread 1; Thread 1; Thread 0; SpuriousOwner; Thread 1; Thread 1;
   Thread 0; Thread 1; Owner; Thread 1; Thread 0; Thread 1; Thread 0; Owner; Owner; Owner; Owner; Owner; Owner; Thread 0;
   Thread 1; Thread 1; Thread 0; Thread 1; Thread 1; Thread 0; Thread 1; Owner; Owner; Owner; Thread 1; Thread 0;
   Owner; Owner; Owner].

Definition sample_end (answer : Result unit SyscallError) (es : list Event) : option Pool :=
  steps (sample_machine answer) sample_state [None; Some 2] [3; 0; 1] es (new_pool [None; Some 2]).

Definition busy : Result unit SyscallError := Error {| number_ := 1; call := lit "sched_setaffinity"; subject := lit "0" |}.
Definition refused_schedule : list Event :=
  [Owner; Owner; Thread 0; Thread 0; Owner; Owner; Owner; Thread 1; Thread 1; Owner; Owner; Thread 0; Owner; Owner; Owner].

Lemma tasks_run_once_witness :
  ∃ p, sample_end (Value tt) sample_schedule = Some p ∧ returned p = 3%nat ∧ indices_of 0 (log p) ≡ₚ seqZ 0 3.
Proof.
  eexists. split; [vm_compute; reflexivity|]. split; [reflexivity|].
  refine (proj1 (proj2 (proj1 (tasks_run_once (sample_machine (Value tt)) sample_state [None; Some 2] [3; 0; 1]
    sample_schedule _ _ _ _) 0%nat 3 _)) _).
  - done.
  - repeat constructor; cbn; lia.
  - vm_compute. reflexivity.
  - reflexivity.
  - cbn. lia.
Defined.

Lemma pool_runs_to_end_witness :
  ∃ p, sample_end (Value tt) (take 22 sample_schedule) = Some p
  ∧ ∃ e, is_spurious e = false ∧ is_Some (step (sample_machine (Value tt)) sample_state [None; Some 2] [3; 0; 1] e p).
Proof.
  eexists. split; [vm_compute; reflexivity|].
  refine (proj1 (pool_runs_to_end (sample_machine (Value tt)) sample_state [None; Some 2] [3; 0; 1]
    (take 22 sample_schedule) _ _ _ _) _).
  - done.
  - repeat constructor; cbn; lia.
  - vm_compute. reflexivity.
  - cbn. done.
Defined.

Lemma pool_made_or_unwound_witness :
  ∃ p, sample_end busy refused_schedule = Some p
  ∧ ∃ error, caller p = InEnd (Some error)
  ∧ Some error = first_refusal (sample_machine busy) sample_state [None; Some 2].
Proof.
  eexists. split; [vm_compute; reflexivity|]. eexists. split; [reflexivity|].
  refine (proj1 (pool_made_or_unwound (sample_machine busy) sample_state [None; Some 2] [3; 0; 1]
    refused_schedule _ _ _ _ _ _)).
  - done.
  - repeat constructor; cbn; lia.
  - vm_compute. reflexivity.
  - reflexivity.
Defined.
