(* ===== verification/CpuList.v ===== *)
(** * topology: CPU lists and the attributes of sysfs

    topology/cpu_list.cpp, the strict parser of the kernel's CPU lists with the language
    it accepts, and topology/source.cpp, which reads one attribute and says why it has no
    value. What the file system answers for a path is a parameter. *)

From S2P Require Export Affinity Lists.

(** ** cpu_list.hpp *)

Record MalformedValue := { reason : text; value : text }.

#[export] Instance MalformedValue_eq_dec : EqDecision MalformedValue.
Proof. solve_decision. Defined.

(** [CpuList]: its [ids_]. *)
Definition CpuList : Type := list Z.

Definition kMaxCpuId : Z := 65535.

(** ** cpu_list.cpp *)

(** The loop of [parse_id] from an accumulated value. *)
Fixpoint parse_id_from (value : Z) (digits : text) : Result Z text :=
  match digits with
  | [] => Value (u32 value)
  | digit :: digits =>
      if negb (is_digit digit) then Error (lit "an element contains something that is not a digit") else
      let value := u64 (value * 10 + digit_value digit) in
      if kMaxCpuId <? value then Error (lit "an id is larger than any CPU this kernel can have")
      else parse_id_from value digits
  end.

Definition parse_id (t : text) : Result Z text :=
  match t with
  | [] => Error (lit "an element is missing its number")
  | _ => parse_id_from 0 t
  end.

Definition describe_malformed (error : MalformedValue) : text :=
  lit "cannot interpret " ++ [byte_of 34] ++ value error ++ [byte_of 34] ++ lit ": " ++ reason error.

(** [text.substr] up to the next [c] and, when there is one, what follows it. *)
Fixpoint cut (c : byte) (t : text) : text * option text :=
  match t with
  | [] => ([], None)
  | b :: t =>
      if bool_decide (b = c) then ([], Some t)
      else let '(element, rest) := cut c t in (b :: element, rest)
  end.

(** The elements of a text between its commas. *)
Fixpoint elements (c : byte) (t : text) : list text :=
  match t with
  | [] => [[]]
  | b :: t =>
      if bool_decide (b = c) then [] :: elements c t
      else match elements c t with [] => [[b]] | e :: es => (b :: e) :: es end
  end.

Definition comma : byte := byte_of 44.
Definition dash : byte := byte_of 45.

(** One element: its first and last identifier. *)
Definition parse_element (element : text) : Result (Z * Z) text :=
  let '(before, after) := cut dash element in
  let? first := parse_id before in
  match after with
  | None => Value (first, first)
  | Some after =>
      let? last := parse_id after in
      if last <? first then Error (lit "a range ends before it begins") else Value (first, last)
  end.

(** The loop of [CpuList::parse] over the elements that are left. *)
Fixpoint parse_elements (whole : text) (previous_end : option Z) (ids : list Z) (es : list text) :
    Result CpuList MalformedValue :=
  match es with
  | [] => Value ids
  | element :: es =>
      match parse_element element with
      | Error reason => Error {| reason := reason; value := whole |}
      | Value (first, last) =>
          if match previous_end with Some previous => first <=? previous | None => false end
          then Error {| reason := lit "elements are not in ascending order, or they overlap"; value := whole |}
          else parse_elements whole (Some last) (ids ++ seqZ first (last - first + 1)) es
      end
  end.

Definition parse (t : text) : Result CpuList MalformedValue :=
  match t with [] => Value [] | _ => parse_elements t None [] (elements comma t) end.

(** [std::binary_search] of identifiers that ascend. *)
Definition contains (list : CpuList) (id : Z) : bool := existsb (Z.eqb id) list.

(** ** source.hpp, source.cpp *)

Inductive Availability := kPresent | kAbsent | kVanished | kDenied | kMalformed | kUnreadable.

#[export] Instance Availability_eq_dec : EqDecision Availability.
Proof. solve_decision. Defined.

Definition describe_availability (availability : Availability) : text :=
  match availability with
  | kPresent => lit "present"
  | kAbsent => lit "not offered by this kernel"
  | kVanished => lit "gone since it was last read"
  | kDenied => lit "not permitted"
  | kMalformed => lit "not in the expected format"
  | kUnreadable => lit "unreadable"
  end.

Record Unavailable := { kind : Availability; path : text; detail : text }.

#[export] Instance Unavailable_eq_dec : EqDecision Unavailable.
Proof. solve_decision. Defined.

Definition describe_unavailable (unavailable : Unavailable) : text :=
  path unavailable ++ lit ": " ++ describe_availability (kind unavailable) ++ lit " ("
  ++ detail unavailable ++ lit ")".

Definition ENOENT_ : Z := 2.
Definition ENXIO : Z := 6.
Definition EACCES : Z := 13.
Definition ENODEV : Z := 19.

Definition classify_read (error : SyscallError) (already_seen : bool) : Availability :=
  let number := number_ error in
  if (number =? ENOENT_) || (number =? ENODEV) || (number =? ENXIO)
  then if already_seen then kVanished else kAbsent
  else if (number =? EACCES) || (number =? EPERM_) then kDenied else kUnreadable.

(** [Source]: the path and whether it was ever read. *)
Record Source := { path_ : text; seen_ : bool }.

Definition new_source (path : text) : Source := {| path_ := path; seen_ := false |}.

Section Reading.
Context (strerror : Z → text).

(** [Source::text], given what [read_first_line] answered. *)
Definition source_text (answer : Result text SyscallError) (source : Source) : Result text Unavailable * Source :=
  match answer with
  | Error error =>
      (Error {| kind := classify_read error (seen_ source); path := path_ source;
                detail := describe_syscall_error strerror error |}, source)
  | Value contents => (Value contents, {| path_ := path_ source; seen_ := true |})
  end.

Definition malformed (source : Source) (detail : text) : Unavailable :=
  {| kind := kMalformed; path := path_ source; detail := detail |}.

Definition cpu_list (answer : Result text SyscallError) (source : Source) : Result CpuList Unavailable * Source :=
  let '(contents, source) := source_text answer source in
  (let? contents := contents in
   match parse contents with
   | Error error => Error (malformed source (describe_malformed error))
   | Value list => Value list
   end, source).

Definition kMaxMagnitude : Z := 1000000000000000000.

Definition quoted (t : text) : text := [byte_of 34] ++ t ++ [byte_of 34].

(** The loop of [Source::integer] over the digits. *)
Fixpoint magnitude_from (whole : text) (magnitude : Z) (digits : text) : Result Z text :=
  match digits with
  | [] => Value magnitude
  | digit :: digits =>
      if negb (is_digit digit) then Error (lit "expected a number, found " ++ quoted whole) else
      let value_of_digit := digit_value digit in
      if (kMaxMagnitude - value_of_digit) / 10 <? magnitude
      then Error (lit "number is larger than any this kernel writes: " ++ quoted whole)
      else magnitude_from whole (magnitude * 10 + value_of_digit) digits
  end.

Definition integer_of (contents : text) : Result Z text :=
  let negative := bool_decide (head contents = Some dash) in
  let digits := if negative then tail contents else contents in
  match digits with
  | [] => Error (lit "expected a number, found " ++ quoted contents)
  | _ => let? magnitude := magnitude_from contents 0 digits in
         Value (if negative then - magnitude else magnitude)
  end.

Definition integer (answer : Result text SyscallError) (source : Source) : Result Z Unavailable * Source :=
  let '(contents, source) := source_text answer source in
  (let? contents := contents in
   match integer_of contents with
   | Error detail => Error (malformed source detail)
   | Value n => Value n
   end, source).

Definition newline : byte := byte_of 10.
Definition carriage_return : byte := byte_of 13.

Definition drop_return (line : text) : text :=
  if bool_decide (last line = Some carriage_return) then removelast line else line.

(** The lines of a text; what a final newline would start is not one. *)
Definition lines_of (t : text) : list text :=
  let all := elements newline t in
  drop_return <$> (if bool_decide (last all = Some []) then removelast all else all).

(** [Source::lines], given what [read_file] answered. *)
Definition lines (answer : Result text SyscallError) (source : Source) : Result (list text) Unavailable * Source :=
  match answer with
  | Error error =>
      (Error {| kind := classify_read error (seen_ source); path := path_ source;
                detail := describe_syscall_error strerror error |}, source)
  | Value contents => (Value (lines_of contents), {| path_ := path_ source; seen_ := true |})
  end.

End Reading.

(** ** What the parser accepts *)

(** A run of digits and the identifier it writes. *)
Definition reads (t : text) (n : Z) : Prop :=
  t ≠ [] ∧ Forall (λ c, is_digit c = true) t ∧ dec_value t = n ∧ n ≤ kMaxCpuId.

(** An element and the range it writes. *)
Definition writes (element : text) (range : Z * Z) : Prop :=
  (reads element range.1 ∧ range.2 = range.1)
  ∨ ∃ first last, element = first ++ dash :: last ∧ reads first range.1 ∧ reads last range.2 ∧ range.1 ≤ range.2.

Definition expand (range : Z * Z) : list Z := seqZ range.1 (range.2 - range.1 + 1).

(** Ranges that ascend without touching the end of the one before. *)
Fixpoint ascending (previous_end : option Z) (ranges : list (Z * Z)) : Prop :=
  match ranges with
  | [] => True
  | range :: ranges =>
      match previous_end with Some previous => previous < range.1 | None => True end
      ∧ range.1 ≤ range.2 ∧ ascending (Some range.2) ranges
  end.

Lemma digit_range c : is_digit c = true → 0 ≤ digit_value c ≤ 9.
Proof. unfold is_digit, digit_value. intros H. bool_facts. lia. Qed.

Lemma fold_digits_ge ds v : Forall (λ c, is_digit c = true) ds → 0 ≤ v → v ≤ foldl (λ v c, 10 * v + digit_value c) v ds.
Proof.
  intros Hds. revert v. induction Hds as [|c ds Hc _ IH]; intros v Hv; cbn; [lia|].
  pose proof (digit_range c Hc). specialize (IH (10 * v + digit_value c)). lia.
Qed.

Lemma parse_id_from_spec ds v n :
  0 ≤ v ≤ kMaxCpuId →
  parse_id_from v ds = Value n ↔
  Forall (λ c, is_digit c = true) ds ∧ foldl (λ v c, 10 * v + digit_value c) v ds = n ∧ n ≤ kMaxCpuId.
Proof.
  revert v. induction ds as [|c ds IH]; intros v Hv; cbn [parse_id_from foldl].
  - unfold kMaxCpuId in *. rewrite u32_small by (unfold in_u32; lia). split; [intros [= <-]; split_and!; (done || lia)|]. by intros (_ & -> & _).
  - destruct (is_digit c) eqn:Hc; cbn [negb]; [|split; [done|]; intros [Hf _]; apply Forall_inv in Hf; cbn in Hf; congruence].
    pose proof (digit_range c Hc) as Hd. replace (v * 10 + digit_value c) with (10 * v + digit_value c) by lia.
    rewrite u64_small by (unfold in_u64, kMaxCpuId in *; lia). cbv zeta.
    destruct (Z.ltb_spec kMaxCpuId (10 * v + digit_value c)).
    + split; [done|]. intros (Hf & Hn & Hle). apply Forall_inv_tail in Hf.
      pose proof (fold_digits_ge ds (10 * v + digit_value c) Hf). lia.
    + rewrite IH by lia. split.
      * intros (? & ? & ?). split_and!; [by constructor|done|done].
      * intros (Hf & ? & ?). split_and!; [by apply Forall_inv_tail in Hf|done|done].
Qed.

Lemma parse_id_spec t n : parse_id t = Value n ↔ reads t n.
Proof.
  unfold parse_id, reads. destruct t as [|c t]; [naive_solver|].
  rewrite parse_id_from_spec by (unfold kMaxCpuId; lia). unfold dec_value. naive_solver.
Qed.

Lemma reads_nonneg t n : reads t n → 0 ≤ n ≤ kMaxCpuId.
Proof. intros (_ & Hf & <- & Hle). split; [|done]. by apply (fold_digits_ge t 0). Qed.

(** Cutting at a byte. *)
Lemma cut_spec c t :
  match cut c t with
  | (before, None) => t = before ∧ c ∉ before
  | (before, Some after) => t = before ++ c :: after ∧ c ∉ before
  end.
Proof.
  induction t as [|b t IH]; cbn; [split; [done|apply not_elem_of_nil]|].
  case_bool_decide as Hb; [subst; split; [done|apply not_elem_of_nil]|].
  destruct (cut c t) as [before [after|]]; destruct IH as [-> Hn];
    (split; [done|]); rewrite elem_of_cons; naive_solver.
Qed.

Lemma cut_app c before after : c ∉ before → cut c (before ++ c :: after) = (before, Some after).
Proof.
  induction before as [|b before IH]; intros Hn; cbn; [by rewrite bool_decide_true|].
  rewrite elem_of_cons in Hn. rewrite bool_decide_false by naive_solver. by rewrite IH by naive_solver.
Qed.

Lemma cut_none c t : c ∉ t → cut c t = (t, None).
Proof.
  induction t as [|b t IH]; intros Hn; cbn; [done|].
  rewrite elem_of_cons in Hn. rewrite bool_decide_false by naive_solver. by rewrite IH by naive_solver.
Qed.

Lemma digits_no_dash t : Forall (λ c, is_digit c = true) t → dash ∉ t.
Proof. rewrite Forall_forall. intros H Hin. specialize (H _ Hin). vm_compute in H. done. Qed.

Lemma parse_element_spec element range : parse_element element = Value range ↔ writes element range.
Proof.
  unfold parse_element, writes. pose proof (cut_spec dash element) as Hcut.
  destruct (cut dash element) as [before [after|]] eqn:E; destruct Hcut as [-> Hn].
  - rewrite rbind_value. split.
    + intros (first & Hf & H). apply rbind_value in H as (last & Hl & H). apply parse_id_spec in Hf, Hl.
      destruct (Z.ltb_spec last first); [done|]. injection H as <-. right. exists before, after. done.
    + intros [[Hr _]|(f & l & Heq & Hf & Hl & Hle)].
      * destruct Hr as (_ & Hd & _). apply digits_no_dash in Hd. destruct Hd. apply elem_of_app. right. by left.
      * assert (before = f ∧ after = l) as [-> ->].
        { pose proof (digits_no_dash f (proj1 (proj2 Hf))) as Hnf. rewrite Heq, (cut_app _ _ _ Hnf) in E. by injection E. }
        exists range.1. split; [by apply parse_id_spec|]. apply rbind_value. exists range.2. split; [by apply parse_id_spec|].
        destruct (Z.ltb_spec range.2 range.1); [lia|]. by destruct range.
  - rewrite rbind_value. split.
    + intros (first & Hf%parse_id_spec & [= <-]). by left.
    + intros [[Hr E2]|(f & l & -> & _)].
      * exists range.1. split; [by apply parse_id_spec|]. destruct range; cbn in *. by subst.
      * destruct Hn. apply elem_of_app. right. by left.
Qed.

Lemma parse_elements_spec whole es previous ids l :
  parse_elements whole previous ids es = Value l ↔
  ∃ ranges, Forall2 writes es ranges ∧ ascending previous ranges ∧ l = ids ++ (ranges ≫= expand).
Proof.
  revert previous ids. induction es as [|e es IH]; intros previous ids; cbn [parse_elements].
  - split; [intros [= <-]; exists []; by rewrite app_nil_r|]. intros (r & ->%Forall2_nil_inv_l & _ & ->). by rewrite app_nil_r.
  - destruct (parse_element e) as [[first last]|reason] eqn:Ee.
    + apply parse_element_spec in Ee. assert (first ≤ last) as Hle by (destruct Ee as [[_ E]|(? & ? & _ & _ & _ & ?)]; cbn in *; lia).
      assert (match previous with Some p => first <=? p | None => false end = false ↔
              match previous with Some p => p < first | None => True end) as Hprev by (destruct previous; [|naive_solver]; apply Z.leb_gt).
      destruct (match previous with Some p => first <=? p | None => false end) eqn:Ep.
      * split; [done|]. intros (r & Hf & Ha & _). apply Forall2_cons_inv_l in Hf as ([f l'] & rs & He & Hf & ->).
        apply parse_element_spec in He, Ee. rewrite Ee in He. injection He as <- <-. destruct Ha as [Ha _].
        by apply Hprev in Ha.
      * rewrite IH. split.
        -- intros (r & Hf & Ha & ->). exists ((first, last) :: r). split_and!; [by constructor|split_and!; try done; by apply Hprev|].
           cbn. by rewrite (assoc (++)).
        -- intros (r & Hf & Ha & ->). apply Forall2_cons_inv_l in Hf as ([f l'] & rs & He & Hf & ->).
           apply parse_element_spec in He, Ee. rewrite Ee in He. injection He as <- <-. exists rs. destruct Ha as (_ & _ & Ha).
           split_and!; [done..|]. cbn. by rewrite (assoc (++)).
    + split; [done|]. intros (r & Hf & _). apply Forall2_cons_inv_l in Hf as (x & rs & He & _ & _).
      apply parse_element_spec in He. congruence.
Qed.

(** The identifiers of ascending ranges ascend. *)
Lemma expand_ascends previous ranges :
  ascending previous ranges →
  StronglySorted Z.lt (ranges ≫= expand)
  ∧ ∀ id, id ∈ ranges ≫= expand → match previous with Some p => p < id | None => True end.
Proof.
  revert previous. induction ranges as [|r ranges IH]; intros previous Ha; cbn in *.
  - split; [constructor|]. intros id H. by apply not_elem_of_nil in H.
  - destruct Ha as (Hp & Hle & Ha). destruct (IH _ Ha) as [Hs Hgt]. split.
    + apply StronglySorted_app_2; [|unfold expand|exact Hs].
      * intros x y Hx Hy. unfold expand in Hx. rewrite elem_of_seqZ in Hx. specialize (Hgt y Hy). cbn in Hgt. lia.
      * apply sorted_seqZ.
    + intros id Hid. apply elem_of_app in Hid as [Hid|Hid].
      * unfold expand in Hid. rewrite elem_of_seqZ in Hid. destruct previous; [|done]. lia.
      * specialize (Hgt id Hid). destruct previous; [|done]. cbn in Hgt. lia.
Qed.

Lemma expand_bounds es ranges id :
  Forall2 writes es ranges → id ∈ ranges ≫= expand → 0 ≤ id ≤ kMaxCpuId.
Proof.
  intros Hf Hid. apply list_elem_of_bind in Hid as ([first last] & Hid & Hr). unfold expand in Hid. cbn in Hid.
  rewrite elem_of_seqZ in Hid. apply list_elem_of_lookup in Hr as [i Hi].
  destruct (Forall2_lookup_r _ _ _ _ _ Hf Hi) as (e & _ & [[He E]|(f & l & _ & Hfst & Hlst & _)]); cbn in *.
  - pose proof (reads_nonneg _ _ He). lia.
  - pose proof (reads_nonneg _ _ Hfst). pose proof (reads_nonneg _ _ Hlst). lia.
Qed.

(** What the parser promises its callers. *)
Lemma parse_ascends t l :
  parse t = Value l → StronglySorted Z.lt l ∧ ∀ id, id ∈ l → 0 ≤ id ≤ kMaxCpuId.
Proof.
  unfold parse. destruct t as [|c t]; [intros [= <-]; split; [constructor|by intros id ?%not_elem_of_nil]|].
  rewrite parse_elements_spec. intros (ranges & Hf & Ha & ->). cbn [app].
  split; [by apply (expand_ascends None)|]. intros id. by eapply expand_bounds.
Qed.

Lemma contains_spec l id : contains l id = true ↔ id ∈ l.
Proof.
  unfold contains. rewrite existsb_exists. setoid_rewrite <- list_elem_of_In. setoid_rewrite Z.eqb_eq. naive_solver.
Qed.

Lemma magnitude_from_spec whole ds m n :
  0 ≤ m ≤ kMaxMagnitude →
  magnitude_from whole m ds = Value n ↔
  Forall (λ c, is_digit c = true) ds ∧ foldl (λ v c, 10 * v + digit_value c) m ds = n ∧ n ≤ kMaxMagnitude.
Proof.
  revert m. induction ds as [|c ds IH]; intros m Hm; cbn [magnitude_from foldl].
  - split; [intros [= <-]; split_and!; (done || lia)|]. by intros (_ & -> & _).
  - destruct (is_digit c) eqn:Hc; cbn [negb]; [|split; [done|]; intros [Hf _]; apply Forall_inv in Hf; cbn in Hf; congruence].
    pose proof (digit_range c Hc) as Hd. replace (m * 10 + digit_value c) with (10 * m + digit_value c) by lia.
    cbv zeta. destruct (Z.ltb_spec ((kMaxMagnitude - digit_value c) / 10) m) as [Hlt|Hge].
    + split; [done|]. intros (Hf & Hn & Hle). apply Forall_inv_tail in Hf.
      pose proof (fold_digits_ge ds (10 * m + digit_value c) Hf). unfold kMaxMagnitude in *. dlia.
    + rewrite IH by (unfold kMaxMagnitude in *; dlia). split.
      * intros (? & ? & ?). split_and!; [by constructor|done|done].
      * intros (Hf & ? & ?). split_and!; [by apply Forall_inv_tail in Hf|done|done].
Qed.

(** The numbers an attribute may hold, and their texts. *)
Definition number_text (t : text) (n : Z) : Prop :=
  ∃ digits, digits ≠ [] ∧ Forall (λ c, is_digit c = true) digits ∧ dec_value digits ≤ kMaxMagnitude
  ∧ (t = digits ∧ n = dec_value digits ∨ t = dash :: digits ∧ n = - dec_value digits).

Lemma integer_of_spec t n : integer_of t = Value n ↔ number_text t n.
Proof.
  unfold integer_of, number_text. case_bool_decide as Hneg.
  - destruct t as [|c t]; [done|]. injection Hneg as ->. cbn [tail]. destruct t as [|d t].
    + split; [done|]. intros (ds & Hne & Hf & _ & [[<- _]|[[= <-] _]]); [|done]. by apply Forall_inv in Hf; vm_compute in Hf.
    + rewrite rbind_value. split.
      * intros (m & Hm & [= <-]). apply magnitude_from_spec in Hm as (Hf & <- & Hle); [|unfold kMaxMagnitude; lia].
        exists (d :: t). split_and!; try done. by right.
      * intros (ds & Hne & Hf & Hle & [[<- _]|[[= <-] ->]]); [by apply Forall_inv in Hf; vm_compute in Hf|].
        exists (dec_value (d :: t)). split; [|done]. apply magnitude_from_spec; [unfold kMaxMagnitude; lia|done].
  - destruct t as [|c t]; [split; [done|]; intros (ds & Hne & _ & _ & [[<- _]|[[= ] _]]); done|].
    rewrite rbind_value. split.
    + intros (m & Hm & [= <-]). apply magnitude_from_spec in Hm as (Hf & <- & Hle); [|unfold kMaxMagnitude; lia].
      exists (c :: t). split_and!; try done. by left.
    + intros (ds & Hne & Hf & Hle & [[<- ->]|[[= -> _] _]]); [|by destruct Hneg].
      exists (dec_value (c :: t)). split; [|done]. apply magnitude_from_spec; [unfold kMaxMagnitude; lia|done].
Qed.

(** ** Properties *)

(** The parser of CPU lists accepts exactly the empty text and the comma-separated
    ascending ranges of decimal identifiers up to 65535, and answers their identifiers. *)
Theorem cpu_list_exactly t l :
  parse t = Value l ↔
  (t = [] ∧ l = [])
  ∨ (t ≠ [] ∧ ∃ ranges, Forall2 writes (elements comma t) ranges ∧ ascending None ranges ∧ l = ranges ≫= expand).
Proof.
  unfold parse. destruct t as [|c t].
  - split; [intros [= <-]; by left|]. by intros [[_ ->]|[? _]].
  - rewrite parse_elements_spec. cbn [app]. naive_solver.
Qed.

(** A source says an attribute has vanished exactly when it read it before and the
    file or its device is not there now; a first failure never says so, and neither does a
    refusal of permission. *)
Theorem source_remembers strerror answers source :
  let read := λ '(last, source) answer, source_text strerror answer source in
  let '(_, source') := foldl read (Error {| kind := kUnreadable; path := []; detail := [] |}, source) answers in
  ∀ error unavailable,
    (source_text strerror (Error error) source').1 = Error unavailable →
    kind unavailable = kVanished ↔
    (seen_ source = true ∨ ∃ contents, Value contents ∈ answers)
    ∧ number_ error ∈ [ENOENT_; ENODEV; ENXIO].
Proof.
  cbv zeta. assert (∀ first, seen_ (foldl (λ '(last, source) answer, source_text strerror answer source) (first, source) answers).2 = true
    ↔ seen_ source = true ∨ ∃ contents, Value contents ∈ answers) as Hseen.
  { revert source. induction answers as [|[contents|e] answers IH]; intros source first; cbn [foldl].
    - cbn. split; [by left|]. intros [?|[c Hc]]; [done|]. by apply not_elem_of_nil in Hc.
    - unfold source_text at 2. rewrite IH. cbn [seen_]. split; [intros _|by left]. right. exists contents. by left.
    - unfold source_text at 2. rewrite IH. setoid_rewrite elem_of_cons. naive_solver. }
  specialize (Hseen (Error {| kind := kUnreadable; path := []; detail := [] |})).
  destruct (foldl _ _ _) as [last source'] eqn:E. cbn [snd] in Hseen. intros error unavailable.
  cbn. intros [= <-]. rewrite <- Hseen. cbn [kind]. unfold classify_read.
  rewrite !elem_of_cons. assert (number_ error ∈ @nil Z ↔ False) as -> by (split; [apply not_elem_of_nil|done]).
  destruct (Z.eqb_spec (number_ error) ENOENT_), (Z.eqb_spec (number_ error) ENODEV), (Z.eqb_spec (number_ error) ENXIO);
    cbn [orb]; destruct (seen_ source'); repeat case_match; naive_solver.
Qed.

Lemma source_remembers_witness :
  kind {| kind := kVanished; path := lit "/sys/a"; detail := lit "cat(/sys/a): gone (errno 19)" |} = kVanished
  ↔ (seen_ (new_source (lit "/sys/a")) = true
     ∨ ∃ contents, Value contents ∈ [Value (lit "1"); Error {| number_ := EACCES; call := []; subject := [] |}])
    ∧ ENODEV ∈ [ENOENT_; ENODEV; ENXIO].
Proof.
  apply (source_remembers (λ _, lit "gone") [Value (lit "1"); Error {| number_ := EACCES; call := []; subject := [] |}]
    (new_source (lit "/sys/a")) {| number_ := ENODEV; call := lit "cat"; subject := lit "/sys/a" |}).
  vm_compute. reflexivity.
Defined.
