(* ===== verification/Topology.v ===== *)
(** * topology: the machine's CPUs

    topology/cpu_topology.cpp: the discovery of the online CPUs, their cores and thread
    siblings, with its cross-checks. A discovery reads no path twice, so what the file
    system answers is a function of the path, a parameter here. *)

From S2P Require Export CpuList.

(** ** cpu_topology.hpp *)

Record CoreAddress := { package : Z; core_ : Z }.

#[export] Instance CoreAddress_eq_dec : EqDecision CoreAddress.
Proof. solve_decision. Defined.

Definition key (address : CoreAddress) : Z := Z.lor (Z.shiftl (package address) 32) (core_ address).

Record LogicalCpu := { id : Z; core : CoreAddress; thread_siblings : CpuList }.

Inductive FailureKind := kSource | kContradiction.

#[export] Instance FailureKind_eq_dec : EqDecision FailureKind.
Proof. solve_decision. Defined.

Record DiscoveryFailure := {
  failure_kind : FailureKind;
  availability : Availability;
  failure_subject : text;
  failure_detail : text;
}.

(** [CpuTopology]: its [cpus_]. *)
Definition CpuTopology : Type := list LogicalCpu.

(** ** cpu_topology.cpp *)

Definition cpu_directory (sysfs_root : text) (id : Z) : text :=
  sysfs_root ++ lit "/devices/system/cpu/cpu" ++ to_dec id.

Definition name_of_cpu (id : Z) : text := lit "cpu" ++ to_dec id.

Definition from_source (unavailable : Unavailable) : DiscoveryFailure :=
  {| failure_kind := kSource; availability := kind unavailable; failure_subject := path unavailable;
     failure_detail := detail unavailable |}.

Definition contradiction (subject detail : text) : DiscoveryFailure :=
  {| failure_kind := kContradiction; availability := kPresent; failure_subject := subject; failure_detail := detail |}.

Definition describe_discovery_failure (failure : DiscoveryFailure) : text :=
  match failure_kind failure with
  | kContradiction =>
      lit "the machine describes itself inconsistently at " ++ failure_subject failure ++ lit ": "
      ++ failure_detail failure
  | kSource =>
      failure_subject failure ++ lit ": " ++ describe_availability (availability failure) ++ lit " ("
      ++ failure_detail failure ++ lit ")"
  end.

(** A [Result] whose error is carried into a [DiscoveryFailure]. *)
Definition sourced {T} (r : Result T Unavailable) : Result T DiscoveryFailure :=
  match r with Value v => Value v | Error unavailable => Error (from_source unavailable) end.

Section Discovery.
Context (strerror : Z → text) (first_line : text → Result text SyscallError).

(** A source of its own for one path, read once. *)
Definition read_integer (path : text) : Result Z Unavailable := (integer strerror (first_line path) (new_source path)).1.
Definition read_cpu_list (path : text) : Result CpuList Unavailable := (cpu_list strerror (first_line path) (new_source path)).1.

Definition read_id (path : text) : Result Z DiscoveryFailure :=
  let? value := sourced (read_integer path) in
  if value <? 0 then
    Error (contradiction path (lit "the kernel reports " ++ int_to_dec value
      ++ lit ", meaning it cannot determine this value; no topology can be built on an identity the kernel does not have"))
  else if kMaxCpuId <? value then
    Error (contradiction path (lit "the kernel reports " ++ int_to_dec value
      ++ lit ", which is past any id this kernel can assign"))
  else Value (u32 value).

(** What [discover] reads of one CPU. *)
Definition read_cpu (sysfs_root : text) (id : Z) : Result LogicalCpu DiscoveryFailure :=
  let directory := cpu_directory sysfs_root id in
  let? package := read_id (directory ++ lit "/topology/physical_package_id") in
  let? core := read_id (directory ++ lit "/topology/core_id") in
  let siblings_path := directory ++ lit "/topology/thread_siblings_list" in
  let? siblings := sourced (read_cpu_list siblings_path) in
  if negb (contains siblings id)
  then Error (contradiction siblings_path (name_of_cpu id ++ lit " is not among its own thread siblings"))
  else Value {| id := id; core := {| package := package; core_ := core |}; thread_siblings := siblings |}.

Fixpoint read_cpus (sysfs_root : text) (ids : list Z) : Result (list LogicalCpu) DiscoveryFailure :=
  match ids with
  | [] => Value []
  | id :: ids =>
      let? cpu := read_cpu sysfs_root id in
      let? cpus := read_cpus sysfs_root ids in
      Value (cpu :: cpus)
  end.

(** [std::find_if] by identifier. *)
Definition find_cpu (cpus : CpuTopology) (wanted : Z) : option LogicalCpu :=
  snd <$> list_find (λ cpu, id cpu = wanted) cpus.

(** The cross-checks of one CPU against one of its siblings. *)
Definition check_sibling (sysfs_root : text) (cpus : list LogicalCpu) (cpu : LogicalCpu) (sibling_id : Z) :
    option DiscoveryFailure :=
  let siblings_path := cpu_directory sysfs_root (id cpu) ++ lit "/topology/thread_siblings_list" in
  match find_cpu cpus sibling_id with
  | None =>
      Some (contradiction siblings_path
        (name_of_cpu (id cpu) ++ lit " lists " ++ name_of_cpu sibling_id ++ lit " as a thread sibling, but "
         ++ name_of_cpu sibling_id ++ lit " is not online"))
  | Some sibling =>
      if bool_decide (thread_siblings sibling ≠ thread_siblings cpu) then
        Some (contradiction siblings_path
          (name_of_cpu (id cpu) ++ lit " and " ++ name_of_cpu sibling_id
           ++ lit " claim to share a core but publish different sibling sets"))
      else if bool_decide (core sibling ≠ core cpu) then
        Some (contradiction (cpu_directory sysfs_root (id cpu) ++ lit "/topology")
          (name_of_cpu (id cpu) ++ lit " and " ++ name_of_cpu sibling_id
           ++ lit " share a core according to their sibling sets, but report different core or package ids"))
      else None
  end.

(** The first failure of a check over a list. *)
Fixpoint first_failure {A} (check : A → option DiscoveryFailure) (l : list A) : option DiscoveryFailure :=
  match l with
  | [] => None
  | x :: l => match check x with Some failure => Some failure | None => first_failure check l end
  end.

Definition check_cpus (sysfs_root : text) (cpus : list LogicalCpu) : option DiscoveryFailure :=
  first_failure (λ cpu, first_failure (check_sibling sysfs_root cpus cpu) (thread_siblings cpu)) cpus.

Definition discover (sysfs_root : text) : Result CpuTopology DiscoveryFailure :=
  let online_path := sysfs_root ++ lit "/devices/system/cpu/online" in
  let? online := sourced (read_cpu_list online_path) in
  if bool_decide (online = [])
  then Error (contradiction online_path (lit "no CPU is reported online, yet this code is running on one"))
  else
    let? cpus := read_cpus sysfs_root online in
    match check_cpus sysfs_root cpus with
    | Some failure => Error failure
    | None => Value cpus
    end.

End Discovery.

(** [std::unique]. *)
Fixpoint unique (l : list Z) : list Z :=
  match l with
  | x :: l => match head l with
              | Some y => if x =? y then unique l else x :: unique l
              | None => [x]
              end
  | [] => []
  end.

Definition distinct (l : list Z) : Z := size_of (unique (merge_sort Z.le l)).

Definition physical_core_count (cpus : CpuTopology) : Z := distinct ((λ cpu, key (core cpu)) <$> cpus).
Definition package_count (cpus : CpuTopology) : Z := distinct ((λ cpu, package (core cpu)) <$> cpus).
Definition multithreaded (cpus : CpuTopology) : bool := existsb (λ cpu, 1 <? size_of (thread_siblings cpu)) cpus.

(** ** What a discovery may answer *)

(** CPUs that describe a machine: they ascend, and sharing a core is an equivalence that
    the sibling sets and the core addresses both give. *)
Record consistent (cpus : CpuTopology) : Prop := {
  online_some : cpus ≠ [];
  ids_ascend : StronglySorted Z.lt (id <$> cpus);
  ids_bounded : ∀ cpu, cpu ∈ cpus → 0 ≤ id cpu ≤ kMaxCpuId;
  addresses_bounded : ∀ cpu, cpu ∈ cpus → 0 ≤ package (core cpu) ≤ kMaxCpuId ∧ 0 ≤ core_ (core cpu) ≤ kMaxCpuId;
  own_sibling : ∀ cpu, cpu ∈ cpus → id cpu ∈ thread_siblings cpu;
  siblings_share : ∀ cpu sibling_id, cpu ∈ cpus → sibling_id ∈ thread_siblings cpu →
    ∃ sibling, sibling ∈ cpus ∧ id sibling = sibling_id
    ∧ thread_siblings sibling = thread_siblings cpu ∧ core sibling = core cpu;
}.

Lemma sourced_value {T} (r : Result T Unavailable) v : sourced r = Value v ↔ r = Value v.
Proof. destruct r; naive_solver. Qed.

Lemma first_failure_none {A} (check : A → option DiscoveryFailure) l :
  first_failure check l = None ↔ ∀ x, x ∈ l → check x = None.
Proof.
  induction l as [|x l IH]; cbn; [split; [by intros _ x ?%not_elem_of_nil|done]|].
  setoid_rewrite elem_of_cons. destruct (check x) eqn:E; [|rewrite IH]; naive_solver.
Qed.

Section Published.
Context (strerror : Z → text) (first_line : text → Result text SyscallError) (root : text).

(** The attributes of one CPU, as the system publishes them. *)
Record publishes (cpu : LogicalCpu) (directory := cpu_directory root (id cpu)) : Prop := {
  publishes_package :
    read_integer strerror first_line (directory ++ lit "/topology/physical_package_id") = Value (package (core cpu));
  publishes_core : read_integer strerror first_line (directory ++ lit "/topology/core_id") = Value (core_ (core cpu));
  publishes_siblings :
    read_cpu_list strerror first_line (directory ++ lit "/topology/thread_siblings_list") = Value (thread_siblings cpu);
}.

Lemma read_cpu_list_ascends path l :
  read_cpu_list strerror first_line path = Value l → StronglySorted Z.lt l ∧ ∀ n, n ∈ l → 0 ≤ n ≤ kMaxCpuId.
Proof.
  unfold read_cpu_list, cpu_list. destruct (source_text _ _ _) as [contents source]. cbn.
  intros (t & _ & H)%rbind_value. destruct (parse t) eqn:E; [|done]. injection H as ->. by apply (parse_ascends t).
Qed.

Lemma same_position cpus i j one other :
  StronglySorted Z.lt (id <$> cpus) → cpus !! i = Some one → cpus !! j = Some other → id one = id other → i = j.
Proof.
  intros Hs%ascending_nodup Hi Hj E. eapply NoDup_lookup; [exact Hs| |]; rewrite list_lookup_fmap; [by rewrite Hi|].
  by rewrite Hj, E.
Qed.

Lemma same_cpu cpus one other :
  StronglySorted Z.lt (id <$> cpus) → one ∈ cpus → other ∈ cpus → id one = id other → one = other.
Proof.
  intros Hs [i Hi]%list_elem_of_lookup [j Hj]%list_elem_of_lookup E. assert (i = j) as ->; [|congruence].
  by eapply same_position.
Qed.

Lemma read_id_spec path n :
  read_id strerror first_line path = Value n ↔
  read_integer strerror first_line path = Value n ∧ 0 ≤ n ≤ kMaxCpuId.
Proof.
  unfold read_id. rewrite rbind_value. setoid_rewrite sourced_value. split.
  - intros (v & Hv & H). destruct (Z.ltb_spec v 0); [done|]. destruct (Z.ltb_spec kMaxCpuId v); [done|].
    rewrite u32_small in H by (unfold in_u32, kMaxCpuId in *; lia). injection H as <-. done.
  - intros [Hv Hn]. exists n. split; [done|]. rewrite (proj2 (Z.ltb_ge _ _)), (proj2 (Z.ltb_ge _ _)) by lia.
    by rewrite u32_small by (unfold in_u32, kMaxCpuId in *; lia).
Qed.

Lemma read_cpu_spec n cpu :
  read_cpu strerror first_line root n = Value cpu ↔
  id cpu = n ∧ publishes cpu ∧ id cpu ∈ thread_siblings cpu
  ∧ 0 ≤ package (core cpu) ≤ kMaxCpuId ∧ 0 ≤ core_ (core cpu) ≤ kMaxCpuId.
Proof.
  unfold read_cpu. split.
  - intros (p & [Hp Hpb]%read_id_spec & H)%rbind_value. apply rbind_value in H as (c & [Hc Hcb]%read_id_spec & H2).
    apply rbind_value in H2 as (s & Hs%sourced_value & H3). destruct (contains s n) eqn:Hin; [|done]. injection H3 as <-.
    apply contains_spec in Hin. cbn. done.
  - intros (<- & [Hp Hc Hs] & Hin & Hpb & Hcb). rewrite (proj2 (read_id_spec _ (package (core cpu)))) by done. cbn [rbind].
    rewrite (proj2 (read_id_spec _ (core_ (core cpu)))) by done. cbn [rbind]. rewrite Hs. cbn [sourced rbind].
    rewrite (proj2 (contains_spec _ _) Hin). cbn. by destruct cpu as [? [? ?] ?].
Qed.

Lemma read_cpus_spec ids cpus :
  read_cpus strerror first_line root ids = Value cpus ↔
  ids = id <$> cpus ∧ ∀ cpu, cpu ∈ cpus → publishes cpu ∧ id cpu ∈ thread_siblings cpu
    ∧ 0 ≤ package (core cpu) ≤ kMaxCpuId ∧ 0 ≤ core_ (core cpu) ≤ kMaxCpuId.
Proof.
  revert cpus. induction ids as [|n ids IH]; intros cpus; cbn [read_cpus].
  - split; [intros [= <-]; split; [done|]; by intros cpu ?%not_elem_of_nil|]. intros [E _]. symmetry in E. by apply fmap_nil_inv in E as ->.
  - split.
    + intros (cpu & (<- & Hc)%read_cpu_spec & H1)%rbind_value. apply rbind_value in H1 as (rest & (-> & Hr)%IH & [= <-]). split; [done|]. intros c [->|Hin]%elem_of_cons; [done|]. by apply Hr.
    + intros [E Hc]. destruct cpus as [|cpu rest]; [done|]. injection E as -> ->.
      rewrite (proj2 (read_cpu_spec (id cpu) cpu)) by (split; [done|]; apply Hc; by left). cbn [rbind].
      rewrite (proj2 (IH rest)); [done|]. split; [done|]. intros c Hin. apply Hc. by right.
Qed.

Lemma find_cpu_spec cpus n cpu :
  StronglySorted Z.lt (id <$> cpus) → find_cpu cpus n = Some cpu ↔ cpu ∈ cpus ∧ id cpu = n.
Proof.
  intros Hs. unfold find_cpu. rewrite fmap_Some. split.
  - intros ([i c] & (Hi & Hid & _)%list_find_Some & ->). split; [by eapply list_elem_of_lookup_2|done].
  - intros [Hin <-]. apply list_elem_of_lookup in Hin as [i Hi]. exists (i, cpu). split; [|done].
    apply list_find_Some. split_and!; [done|done|]. intros j c Hj Hlt E.
    assert (j = i) by (by eapply same_position). lia.
Qed.

Lemma check_cpus_spec cpus :
  StronglySorted Z.lt (id <$> cpus) →
  check_cpus root cpus = None ↔
  ∀ cpu sibling_id, cpu ∈ cpus → sibling_id ∈ thread_siblings cpu →
    ∃ sibling, sibling ∈ cpus ∧ id sibling = sibling_id
    ∧ thread_siblings sibling = thread_siblings cpu ∧ core sibling = core cpu.
Proof.
  intros Hs. unfold check_cpus. rewrite first_failure_none. setoid_rewrite first_failure_none.
  split.
  - intros H cpu n Hcpu Hn. specialize (H cpu Hcpu n Hn). unfold check_sibling in H. destruct (find_cpu cpus n) as [sibling|] eqn:Hf; [|done].
    apply find_cpu_spec in Hf as [Hin Hid]; [|done]. exists sibling.
    destruct (decide (thread_siblings sibling = thread_siblings cpu)) as [Es|Es]; [|by rewrite bool_decide_true in H].
    rewrite bool_decide_false in H by (by intros []).
    destruct (decide (core sibling = core cpu)) as [Ec|Ec]; [done|by rewrite bool_decide_true in H].
  - intros H cpu Hcpu n Hn. destruct (H cpu n Hcpu Hn) as (sibling & Hin & Hid & Hsame & Hcore). unfold check_sibling.
    rewrite (proj2 (find_cpu_spec cpus n sibling Hs)) by done. rewrite !bool_decide_false; [done|by intros ?..].
Qed.

(** The discovery answers exactly the machine that is published and consistent. *)
Lemma discover_spec cpus :
  discover strerror first_line root = Value cpus ↔
  read_cpu_list strerror first_line (root ++ lit "/devices/system/cpu/online") = Value (id <$> cpus)
  ∧ (∀ cpu, cpu ∈ cpus → publishes cpu) ∧ consistent cpus.
Proof.
  unfold discover. cbv zeta. split.
  - intros (online & Hon%sourced_value & H)%rbind_value. case_bool_decide as Hne; [done|].
    apply rbind_value in H as (l & Hl & H). destruct (check_cpus root l) eqn:Hc; [done|]. injection H as ->.
    apply read_cpus_spec in Hl as [-> Hpub].
    assert (StronglySorted Z.lt (id <$> cpus) ∧ ∀ n, n ∈ id <$> cpus → 0 ≤ n ≤ kMaxCpuId) as [Hs Hb]
      by (by eapply read_cpu_list_ascends).
    rewrite check_cpus_spec in Hc by done. split_and!; [done|intros cpu Hcpu; apply (Hpub cpu Hcpu)|]. split.
    + intros ->. by destruct Hne.
    + done.
    + intros cpu Hcpu. apply Hb. apply list_elem_of_fmap. eauto.
    + intros cpu Hcpu. apply (Hpub cpu Hcpu).
    + intros cpu Hcpu. apply (Hpub cpu Hcpu).
    + done.
  - intros (Hon & Hpub & [Hne Hs Hb Ha Hown Hsh]). rewrite Hon. cbn [sourced rbind].
    rewrite bool_decide_false by (by intros ?%fmap_nil_inv).
    rewrite (proj2 (read_cpus_spec (id <$> cpus) cpus)) by (split; [done|]; intros cpu Hcpu; split_and!; auto; by apply Ha). cbn [rbind].
    by rewrite (proj2 (check_cpus_spec cpus Hs)).
Qed.

End Published.

(** ** Cores *)

(** Sharing a core: the sibling sets of a consistent machine are its classes. *)
Lemma siblings_classes cpus one other :
  consistent cpus → one ∈ cpus → other ∈ cpus →
  id other ∈ thread_siblings one ↔ thread_siblings other = thread_siblings one.
Proof.
  intros [_ Hs _ _ Hown Hsh] Ho Hu. split.
  - intros Hin. destruct (Hsh one (id other) Ho Hin) as (c & Hc & Hid & Hsame & _).
    by rewrite <- (same_cpu cpus c other).
  - intros <-. by apply Hown.
Qed.

Lemma siblings_same_core cpus one other :
  consistent cpus → one ∈ cpus → other ∈ cpus → id other ∈ thread_siblings one → core other = core one.
Proof.
  intros Hc Ho Hu Hin. destruct (siblings_share _ Hc one (id other) Ho Hin) as (c & Hin' & Hid & _ & <-).
  f_equal. symmetry. by apply (same_cpu cpus); [apply Hc|..].
Qed.

(** The key of an address tells addresses apart. *)
Lemma key_inj a b :
  0 ≤ core_ a ≤ kMaxCpuId → 0 ≤ core_ b ≤ kMaxCpuId → key a = key b → a = b.
Proof.
  destruct a as [pa ca], b as [pb cb]. unfold key, kMaxCpuId. cbn. intros Ha Hb.
  rewrite (Z.lor_comm _ ca), (Z.lor_comm _ cb), !lor_shiftl_add by (pow2; lia). intros E. f_equal; pow2; lia.
Qed.

Lemma unique_elem x l : x ∈ unique l ↔ x ∈ l.
Proof.
  induction l as [|y l IH]; [done|]. cbn [unique]. destruct l as [|z l]; [done|]. cbn [head].
  destruct (Z.eqb_spec y z) as [->|]; rewrite ?elem_of_cons, IH, ?elem_of_cons; tauto.
Qed.

Lemma unique_ascends l : StronglySorted Z.le l → StronglySorted Z.lt (unique l).
Proof.
  induction 1 as [|y l Hl IH Hy]; [constructor|]. cbn [unique]. destruct l as [|z l]; [by repeat constructor|]. cbn [head].
  destruct (Z.eqb_spec y z) as [->|Hne]; [done|]. constructor; [done|]. apply Forall_forall. intros x Hx.
  rewrite unique_elem in Hx. apply Forall_inv in Hy as Hyz. apply elem_of_cons in Hx as [->|Hx]; [lia|].
  apply StronglySorted_inv in Hl as [_ Hz]. rewrite Forall_forall in Hz. specialize (Hz x Hx). lia.
Qed.

(** Sorting and skipping repeats counts the distinct values. *)
Lemma distinct_spec l : distinct l = size_of (remove_dups l).
Proof.
  unfold distinct, size_of. f_equal. apply Permutation_length. apply NoDup_Permutation.
  - apply ascending_nodup, unique_ascends. apply Sorted_StronglySorted; [intros ? ? ?; lia|]. apply Sorted_merge_sort. intros x y. lia.
  - apply NoDup_remove_dups.
  - intros x. rewrite unique_elem, elem_of_remove_dups, merge_sort_Permutation. done.
Qed.

(** ** Properties *)

(** The discovery of the CPUs answers a topology exactly when that topology is what
    the system publishes, file by file, and is consistent: the CPUs ascend, each is its own
    sibling, and every sibling is online with the same siblings and the same core. *)
Theorem discovered_exactly strerror first_line root cpus :
  discover strerror first_line root = Value cpus ↔
  read_cpu_list strerror first_line (root ++ lit "/devices/system/cpu/online") = Value (id <$> cpus)
  ∧ (∀ cpu, cpu ∈ cpus → publishes strerror first_line root cpu) ∧ consistent cpus.
Proof. apply discover_spec. Qed.

(** ** A sample machine

    Four CPUs on two cores, each core with its L1 and all with one L2, and one node. *)

Fixpoint answer_of_files (files : list (string * string)) (path : text) : Result text SyscallError :=
  match files with
  | [] => Error {| number_ := ENOENT_; call := lit "open"; subject := path |}
  | (name, contents) :: files => if bool_decide (lit name = path) then Value (lit contents) else answer_of_files files path
  end.

Definition sample_cpu_files (cpu core siblings : string) : list (string * string) :=
  let directory := ("/sys/devices/system/cpu/cpu" ++ cpu)%string in
  [((directory ++ "/topology/physical_package_id")%string, "0"%string);
   ((directory ++ "/topology/core_id")%string, core);
   ((directory ++ "/topology/thread_siblings_list")%string, siblings);
   ((directory ++ "/cache/index0/level")%string, "1"%string);
   ((directory ++ "/cache/index0/type")%string, "Data"%string);
   ((directory ++ "/cache/index0/shared_cpu_list")%string, siblings);
   ((directory ++ "/cache/index0/size")%string, "32K"%string);
   ((directory ++ "/cache/index1/level")%string, "2"%string);
   ((directory ++ "/cache/index1/type")%string, "Unified"%string);
   ((directory ++ "/cache/index1/shared_cpu_list")%string, "0-3"%string);
   ((directory ++ "/cache/index1/id")%string, "7"%string)].

Definition sample_sysfs : list (string * string) :=
  [("/sys/devices/system/cpu/online", "0-3")]%string
  ++ sample_cpu_files "0" "0" "0-1" ++ sample_cpu_files "1" "0" "0-1"
  ++ sample_cpu_files "2" "1" "2-3" ++ sample_cpu_files "3" "1" "2-3".

Definition sample_cpu (n k : Z) (siblings : CpuList) : LogicalCpu :=
  {| id := n; core := {| package := 0; core_ := k |}; thread_siblings := siblings |}.
Definition sample_cpus : CpuTopology :=
  [sample_cpu 0 0 [0; 1]; sample_cpu 1 0 [0; 1]; sample_cpu 2 1 [2; 3]; sample_cpu 3 1 [2; 3]].

Example sample_cpus_discovered :
  discover (λ _, []) (answer_of_files sample_sysfs) (lit "/sys") = Value sample_cpus.
Proof. vm_compute. reflexivity. Qed.

Lemma sample_cpus_consistent : consistent sample_cpus.
Proof. exact (proj2 (proj2 (proj1 (discover_spec _ _ _ _) sample_cpus_discovered))). Qed.

Example sample_cores : physical_core_count sample_cpus = 2 ∧ package_count sample_cpus = 1 ∧ multithreaded sample_cpus = true.
Proof. vm_compute. done. Qed.
