(* ===== verification/Caches.v ===== *)
(** * topology: the machine's caches

    topology/cache.cpp: the caches each CPU publishes, cross-checked and collapsed to one
    entry per cache. *)

From S2P Require Export Topology.

(** ** cache.hpp *)

Inductive CacheType := kData | kInstruction | kUnified.

#[export] Instance CacheType_eq_dec : EqDecision CacheType.
Proof. solve_decision. Defined.

Record CacheKind := { level : Z; type_ : CacheType }.

#[export] Instance CacheKind_eq_dec : EqDecision CacheKind.
Proof. solve_decision. Defined.

Record Cache := {
  cache_kind : CacheKind;
  shared_with : CpuList;
  size_bytes : option Z;
  line_bytes : option Z;
  cache_id : option Z;
}.

#[export] Instance Cache_eq_dec : EqDecision Cache.
Proof. solve_decision. Defined.

(** [CacheHierarchy]: its [caches_]. *)
Definition CacheHierarchy : Type := list Cache.

Definition kMaxCacheIndex : nat := 16.

(** ** cache.cpp *)

Definition kMaxCacheBytes : Z := 2 ^ 40.
Definition kMaxCacheLevel : Z := 8.

Definition index_directory (sysfs_root : text) (cpu : Z) (index : nat) : text :=
  sysfs_root ++ lit "/devices/system/cpu/cpu" ++ to_dec cpu ++ lit "/cache/index" ++ to_dec (Z.of_nat index).

Definition describe_cache_type (type : CacheType) : text :=
  match type with kData => lit "Data" | kInstruction => lit "Instruction" | kUnified => lit "Unified" end.

Definition parse_type (t : text) : Result CacheType text :=
  if bool_decide (t = lit "Data") then Value kData else
  if bool_decide (t = lit "Instruction") then Value kInstruction else
  if bool_decide (t = lit "Unified") then Value kUnified else
  Error (lit "not one of Data, Instruction or Unified").

(** The loop of [parse_cache_size] over its digits. *)
Fixpoint bounded_digits (ceiling value : Z) (digits : text) : option Z :=
  match digits with
  | [] => Some value
  | c :: digits =>
      let digit := digit_value c in
      if (ceiling - digit) / 10 <? value then None else bounded_digits ceiling (u64 (value * 10 + digit)) digits
  end.

Definition parse_cache_size (t : text) : Result Z text :=
  if bool_decide (t = []) then Error (lit "a cache size is never written blank") else
  let digits := take_while is_digit t in
  let suffix := drop_while is_digit t in
  if bool_decide (digits = []) then Error (lit "a cache size must begin with a digit") else
  if negb (bool_decide (suffix = lit "K")) && negb (bool_decide (suffix = [])) && negb (bool_decide (suffix = lit "B"))
  then Error (lit "a cache size ends in K, B or nothing") else
  let scale := if bool_decide (suffix = lit "K") then 1024 else 1 in
  match bounded_digits (kMaxCacheBytes / scale) 0 digits with
  | None => Error (lit "a cache size larger than any cache")
  | Some value => Value (u64 (value * scale))
  end.

Definition name_of_kind (kind : CacheKind) : text :=
  lit "the L" ++ to_dec (level kind) ++ lit " " ++ describe_cache_type (type_ kind) ++ lit " cache".

(** [Reading]: a cache as one CPU described it. *)
Record Reading := { reading_cpu : Z; reading_cache : Cache }.

Section CacheDiscovery.
Context (strerror : Z → text) (first_line : text → Result text SyscallError).

Definition read_text (path : text) : Result text Unavailable := (source_text strerror (first_line path) (new_source path)).1.

(** An attribute the kernel may not publish: absence is a reading. *)
Definition read_optional_count (path : text) : Result (option Z) DiscoveryFailure :=
  match read_integer strerror first_line path with
  | Error unavailable =>
      if bool_decide (kind unavailable = kAbsent) then Value None else Error (from_source unavailable)
  | Value value =>
      if value <? 0 then
        Error (contradiction path (lit "the kernel reports " ++ int_to_dec value ++ lit ", and a cache cannot have a negative one"))
      else if kMaxCpuId <? value then
        Error (contradiction path (lit "the kernel reports " ++ int_to_dec value ++ lit ", which is past anything a cache attribute holds"))
      else Value (Some (u32 value))
  end.

Definition read_optional_size (path : text) : Result (option Z) DiscoveryFailure :=
  match read_text path with
  | Error unavailable =>
      if bool_decide (kind unavailable = kAbsent) then Value None else Error (from_source unavailable)
  | Value contents =>
      match parse_cache_size contents with
      | Error reason => Error (contradiction path (quoted contents ++ lit ": " ++ reason))
      | Value size =>
          if size =? 0 then Error (contradiction path (lit "a cache of zero bytes is not a cache"))
          else Value (Some size)
      end
  end.

(** The attributes of a cache whose level is read. *)
Definition read_cache (directory : text) (cpu level : Z) : Result (option Cache) DiscoveryFailure :=
  let? contents := sourced (read_text (directory ++ lit "/type")) in
  match parse_type contents with
  | Error reason => Error (contradiction (directory ++ lit "/type") (quoted contents ++ lit " is " ++ reason))
  | Value type =>
      let? shared := sourced (read_cpu_list strerror first_line (directory ++ lit "/shared_cpu_list")) in
      if negb (contains shared cpu) then
        Error (contradiction (directory ++ lit "/shared_cpu_list")
                 (name_of_cpu cpu ++ lit " is not among the CPUs sharing its own cache"))
      else
        let? size := read_optional_size (directory ++ lit "/size") in
        let? line := read_optional_count (directory ++ lit "/coherency_line_size") in
        let? id := read_optional_count (directory ++ lit "/id") in
        Value (Some {| cache_kind := {| level := level; type_ := type |}; shared_with := shared;
                       size_bytes := size; line_bytes := line; cache_id := id |})
  end.

(** One index of one CPU; nothing when the index is absent. *)
Definition read_index (directory : text) (cpu : Z) : Result (option Cache) DiscoveryFailure :=
  let level_path := directory ++ lit "/level" in
  match read_integer strerror first_line level_path with
  | Error unavailable =>
      if bool_decide (kind unavailable = kAbsent) then Value None else Error (from_source unavailable)
  | Value value =>
      if (value <? 1) || (kMaxCacheLevel <? value) then
        Error (contradiction level_path (lit "the kernel reports level " ++ int_to_dec value ++ lit ", which is not a cache level"))
      else read_cache directory cpu (u32 value)
  end.

(** The indices of one CPU from [index], [remaining] of them at most. *)
Fixpoint read_indices (sysfs_root : text) (cpu : Z) (index remaining : nat) : Result (list Reading) DiscoveryFailure :=
  match remaining with
  | O => Value []
  | S remaining =>
      let? found := read_index (index_directory sysfs_root cpu index) cpu in
      match found with
      | None => Value []
      | Some cache =>
          let? readings := read_indices sysfs_root cpu (S index) remaining in
          Value ({| reading_cpu := cpu; reading_cache := cache |} :: readings)
      end
  end.

Fixpoint read_all (sysfs_root : text) (cpus : list LogicalCpu) : Result (list Reading) DiscoveryFailure :=
  match cpus with
  | [] => Value []
  | cpu :: cpus =>
      let? readings := read_indices sysfs_root (id cpu) 0 kMaxCacheIndex in
      let? others := read_all sysfs_root cpus in
      Value (readings ++ others)
  end.

Definition check_served_cpus_online (sysfs_root : text) (cpus : CpuTopology) (readings : list Reading) :
    option DiscoveryFailure :=
  first_failure (λ reading,
    first_failure (λ served,
      if existsb (λ cpu, id cpu =? served) cpus then None else
      Some (contradiction (index_directory sysfs_root (reading_cpu reading) 0 ++ lit "/../shared_cpu_list")
        (name_of_kind (cache_kind (reading_cache reading)) ++ lit " on " ++ name_of_cpu (reading_cpu reading)
         ++ lit " claims to serve " ++ name_of_cpu served ++ lit ", which is not online")))
      (shared_with (reading_cache reading))) readings.

Definition check_nesting (sysfs_root : text) (readings : list Reading) : option DiscoveryFailure :=
  first_failure (λ inner,
    first_failure (λ outer,
      if negb (reading_cpu outer =? reading_cpu inner)
         || (level (cache_kind (reading_cache outer)) <=? level (cache_kind (reading_cache inner))) then None else
      first_failure (λ served,
        if contains (shared_with (reading_cache outer)) served then None else
        Some (contradiction (index_directory sysfs_root (reading_cpu inner) 0 ++ lit "/..")
          (name_of_cpu (reading_cpu inner) ++ lit " shares " ++ name_of_kind (cache_kind (reading_cache inner))
           ++ lit " with " ++ name_of_cpu served ++ lit " but does not share "
           ++ name_of_kind (cache_kind (reading_cache outer)) ++ lit " with it; caches nest")))
        (shared_with (reading_cache inner))) readings) readings.

Definition check_sharers_agree (sysfs_root : text) (readings : list Reading) : option DiscoveryFailure :=
  first_failure (λ reading,
    first_failure (λ sharer,
      if existsb (λ other, (reading_cpu other =? sharer) && bool_decide (reading_cache other = reading_cache reading)) readings
      then None else
      Some (contradiction (index_directory sysfs_root (reading_cpu reading) 0 ++ lit "/..")
        (name_of_kind (cache_kind (reading_cache reading)) ++ lit " is described differently by "
         ++ name_of_cpu (reading_cpu reading) ++ lit " and " ++ name_of_cpu sharer ++ lit ", which it claims to serve")))
      (shared_with (reading_cache reading))) readings.

(** One cache for each kind and set of sharers, the first reading of it. *)
Definition deduplicate (readings : list Reading) : list Cache :=
  foldl (λ distinct reading,
    if existsb (λ c, bool_decide (cache_kind c = cache_kind (reading_cache reading))
                     && bool_decide (shared_with c = shared_with (reading_cache reading))) distinct
    then distinct else distinct ++ [reading_cache reading]) [] readings.

Definition type_number (type : CacheType) : Z :=
  match type with kData => 0 | kInstruction => 1 | kUnified => 2 end.

(** The three numbers the order compares, lexicographically. *)
Definition order_key (c : Cache) : Z * Z * Z :=
  (level (cache_kind c), hd 0 (shared_with c), type_number (type_ (cache_kind c))).

Definition ordered_before (lhs rhs : Cache) : bool :=
  let '(l1, f1, t1) := order_key lhs in
  let '(l2, f2, t2) := order_key rhs in
  (l1 <? l2) || ((l1 =? l2) && ((f1 <? f2) || ((f1 =? f2) && (t1 <? t2)))).

(** Not after: the relation [std::sort] leaves the caches in. It may leave caches that
    tie in any order, and [merge_sort] leaves them as they were read. *)
Definition not_after (lhs rhs : Cache) : Prop := ordered_before rhs lhs = false.

#[export] Instance not_after_dec lhs rhs : Decision (not_after lhs rhs).
Proof. unfold not_after. apply _. Defined.

Definition discover_caches (sysfs_root : text) (cpus : CpuTopology) : Result CacheHierarchy DiscoveryFailure :=
  let? readings := read_all sysfs_root cpus in
  match check_served_cpus_online sysfs_root cpus readings with Some failure => Error failure | None =>
  match check_nesting sysfs_root readings with Some failure => Error failure | None =>
  match check_sharers_agree sysfs_root readings with Some failure => Error failure | None =>
  Value (merge_sort not_after (deduplicate readings))
  end end end.

End CacheDiscovery.

Definition count_at_level (caches : CacheHierarchy) (wanted : Z) : Z :=
  size_of (filter (λ c, level (cache_kind c) = wanted) caches).

Definition deepest_level (caches : CacheHierarchy) : Z :=
  foldl (λ deepest c, Z.max deepest (level (cache_kind c))) 0 caches.

Fixpoint total_from (total : Z) (caches : CacheHierarchy) (wanted : Z) : option Z :=
  match caches with
  | [] => Some total
  | c :: caches =>
      if negb (level (cache_kind c) =? wanted) then total_from total caches wanted else
      match size_bytes c with
      | None => None
      | Some size => total_from (u64 (total + size)) caches wanted
      end
  end.

Definition total_bytes_at_level (caches : CacheHierarchy) (wanted : Z) : option Z := total_from 0 caches wanted.

(** ** What a discovery may answer *)

(** A cache a CPU may publish. *)
Definition plausible (cpu : Z) (c : Cache) : Prop :=
  1 ≤ level (cache_kind c) ≤ kMaxCacheLevel ∧ cpu ∈ shared_with c ∧ StronglySorted Z.lt (shared_with c).

Section CacheFacts.
Context (strerror : Z → text) (first_line : text → Result text SyscallError) (root : text).

(** A CPU publishes a cache: one of the readings made through it. *)
Definition views (cpu : Z) (c : Cache) : Prop :=
  ∃ readings, read_indices strerror first_line root cpu 0 kMaxCacheIndex = Value readings
  ∧ {| reading_cpu := cpu; reading_cache := c |} ∈ readings.

Lemma read_cache_plausible directory cpu n c :
  read_cache strerror first_line directory cpu n = Value (Some c) → 1 ≤ n ≤ kMaxCacheLevel → plausible cpu c.
Proof.
  unfold read_cache. intros (t & _ & H)%rbind_value Hn. destruct (parse_type t); [|done].
  destruct (proj1 (rbind_value _ _ _) H) as (shared & Hs & H2). apply sourced_value in Hs. pose proof (proj1 (read_cpu_list_ascends _ _ _ _ Hs)).
  destruct (contains shared cpu) eqn:Hc; [|done]. apply contains_spec in Hc. cbn [negb] in H2.
  apply rbind_value in H2 as (size & _ & H3). apply rbind_value in H3 as (line & _ & H4).
  apply rbind_value in H4 as (i & _ & [= <-]). done.
Qed.

Lemma read_index_plausible directory cpu c :
  read_index strerror first_line directory cpu = Value (Some c) → plausible cpu c.
Proof.
  unfold read_index. destruct (read_integer _ _ _) as [v|u]; [|by case_bool_decide].
  destruct (Z.ltb_spec v 1); [done|]. destruct (Z.ltb_spec kMaxCacheLevel v); [done|]. cbn [orb].
  intros Hc. apply (read_cache_plausible _ _ _ _ Hc). rewrite u32_small; [lia|]. unfold in_u32, kMaxCacheLevel in *. lia.
Qed.

Lemma read_indices_spec cpu index remaining readings :
  read_indices strerror first_line root cpu index remaining = Value readings →
  ∀ r, r ∈ readings → reading_cpu r = cpu ∧ plausible cpu (reading_cache r).
Proof.
  revert index readings. induction remaining as [|n IH]; intros index readings; cbn [read_indices].
  - intros [= <-] r Hr. by apply not_elem_of_nil in Hr.
  - intros ([c|] & Hc & H)%rbind_value; [|by injection H as <-; intros r ?%not_elem_of_nil].
    apply rbind_value in H as (rest & Hrest & [= <-]). intros r [->|Hr]%elem_of_cons; [|by eapply IH].
    split; [done|]. by eapply read_index_plausible.
Qed.

Lemma read_all_spec cpus readings :
  read_all strerror first_line root cpus = Value readings →
  ∀ r, r ∈ readings ↔ (∃ cpu, cpu ∈ cpus ∧ reading_cpu r = id cpu) ∧ views (reading_cpu r) (reading_cache r).
Proof.
  revert readings. induction cpus as [|cpu cpus IH]; intros readings; cbn [read_all].
  - intros [= <-] r. split; [by intros ?%not_elem_of_nil|]. by intros [(c & ?%not_elem_of_nil & _) _].
  - intros (mine & Hmine & H)%rbind_value r. apply rbind_value in H as (others & Hothers & [= <-]).
    specialize (IH others Hothers r). rewrite elem_of_app, IH. split.
    + intros [Hr|[(c & Hin & E) Hv]]; [|split; [exists c; split; [by right|done]|done]].
      destruct (read_indices_spec _ _ _ _ Hmine r Hr) as [E _]. split; [exists cpu; split; [by left|done]|].
      exists mine. rewrite E. split; [done|]. rewrite <- E. by destruct r.
    + intros [(c & Hin & E) Hv]. apply elem_of_cons in Hin as [->|Hin]; [|right; eauto]. left.
      destruct Hv as (rs & Hrs & Hin). rewrite E, Hmine in Hrs. injection Hrs as <-. by destruct r.
Qed.

Lemma views_plausible cpu c : views cpu c → plausible cpu c.
Proof. intros (rs & Hrs & Hin). by apply (read_indices_spec _ _ _ _ Hrs) in Hin as [_ ?]. Qed.

(** The identity of a cache. *)
Definition identity (c : Cache) : CacheKind * CpuList := (cache_kind c, shared_with c).

Lemma deduplicate_from distinct readings (all := foldl (λ distinct reading,
    if existsb (λ c, bool_decide (cache_kind c = cache_kind (reading_cache reading))
                     && bool_decide (shared_with c = shared_with (reading_cache reading))) distinct
    then distinct else distinct ++ [reading_cache reading]) distinct readings) :
  NoDup (identity <$> distinct) →
  NoDup (identity <$> all)
  ∧ (∀ c, c ∈ all → c ∈ distinct ∨ ∃ r, r ∈ readings ∧ reading_cache r = c)
  ∧ (∀ c, c ∈ distinct → c ∈ all)
  ∧ ∀ r, r ∈ readings → ∃ c, c ∈ all ∧ identity c = identity (reading_cache r).
Proof.
  subst all. revert distinct. induction readings as [|r readings IH]; intros distinct Hnd; cbn [foldl].
  - split_and!; [done|by left|done|]. by intros r ?%not_elem_of_nil.
  - set (seen := existsb _ distinct).
    assert (seen = true ↔ identity (reading_cache r) ∈ identity <$> distinct) as Hseen.
    { unfold seen. rewrite existsb_exists, list_elem_of_fmap. setoid_rewrite <- list_elem_of_In. unfold identity.
      setoid_rewrite andb_true_iff. setoid_rewrite bool_decide_eq_true. split.
      - intros (c & Hc & E1 & E2). exists c. by rewrite E1, E2.
      - intros (c & [= E1 E2] & Hc). by exists c. }
    destruct seen.
    + destruct (IH distinct Hnd) as (H1 & H2 & H3 & H4). split_and!; [done| |done|].
      * intros c Hc. destruct (H2 c Hc) as [?|(r' & ? & ?)]; [by left|]. right. exists r'. split; [by right|done].
      * intros r' [->|Hr]%elem_of_cons; [|by apply H4]. pose proof (proj1 Hseen eq_refl) as (c & E & Hc)%list_elem_of_fmap.
        exists c. split; [by apply H3|done].
    + destruct (IH (distinct ++ [reading_cache r])) as (H1 & H2 & H3 & H4).
      { rewrite fmap_app. apply NoDup_app. split_and!; [done| |apply NoDup_singleton].
        intros x Hx Hx2. apply list_elem_of_singleton in Hx2 as ->. by apply Hseen in Hx. }
      split_and!; [done| | |].
      * intros c Hc. destruct (H2 c Hc) as [Hin|(r' & ? & ?)].
        -- apply elem_of_app in Hin as [?|Hin]; [by left|]. apply list_elem_of_singleton in Hin as ->. right. exists r. split; [by left|done].
        -- right. exists r'. split; [by right|done].
      * intros c Hc. apply H3, elem_of_app. by left.
      * intros r' [->|Hr]%elem_of_cons; [|by apply H4]. exists (reading_cache r). split; [|done].
        apply H3, elem_of_app. right. by left.
Qed.

(** *** The cross-checks *)

Lemma served_online_spec cpus readings :
  check_served_cpus_online root cpus readings = None ↔
  ∀ r served, r ∈ readings → served ∈ shared_with (reading_cache r) → ∃ cpu, cpu ∈ cpus ∧ id cpu = served.
Proof.
  unfold check_served_cpus_online. rewrite first_failure_none. setoid_rewrite first_failure_none.
  assert (∀ served, existsb (λ cpu, id cpu =? served) cpus = true ↔ ∃ cpu, cpu ∈ cpus ∧ id cpu = served) as Hex.
  { intros served. rewrite existsb_exists. setoid_rewrite <- list_elem_of_In. by setoid_rewrite Z.eqb_eq. }
  split.
  - intros H r served Hr Hs. specialize (H r Hr served Hs). apply Hex. by destruct (existsb _ _).
  - intros H r Hr served Hs. by rewrite (proj2 (Hex served) (H r served Hr Hs)).
Qed.

Lemma nesting_spec readings :
  check_nesting root readings = None ↔
  ∀ inner outer, inner ∈ readings → outer ∈ readings → reading_cpu outer = reading_cpu inner →
    level (cache_kind (reading_cache inner)) < level (cache_kind (reading_cache outer)) →
    shared_with (reading_cache inner) ⊆ shared_with (reading_cache outer).
Proof.
  unfold check_nesting. rewrite first_failure_none. setoid_rewrite first_failure_none. split.
  - intros H inner outer Hi Ho Hc Hl served Hs. specialize (H inner Hi outer Ho).
    rewrite Hc, Z.eqb_refl in H. rewrite (proj2 (Z.leb_gt _ _) Hl) in H. cbn [negb orb] in H.
    rewrite first_failure_none in H. specialize (H served Hs). apply contains_spec. by destruct (contains _ _).
  - intros H inner Hi outer Ho. destruct (Z.eqb_spec (reading_cpu outer) (reading_cpu inner)) as [Hc|]; [|done]. cbn [negb orb].
    destruct (Z.leb_spec (level (cache_kind (reading_cache outer))) (level (cache_kind (reading_cache inner)))) as [|Hl]; [done|].
    apply first_failure_none. intros served Hs. by rewrite (proj2 (contains_spec _ _) (H inner outer Hi Ho Hc Hl served Hs)).
Qed.

Lemma sharers_agree_spec readings :
  check_sharers_agree root readings = None ↔
  ∀ r sharer, r ∈ readings → sharer ∈ shared_with (reading_cache r) →
    {| reading_cpu := sharer; reading_cache := reading_cache r |} ∈ readings.
Proof.
  unfold check_sharers_agree. rewrite first_failure_none. setoid_rewrite first_failure_none.
  assert (∀ r sharer, existsb (λ other, (reading_cpu other =? sharer) && bool_decide (reading_cache other = reading_cache r)) readings = true
    ↔ {| reading_cpu := sharer; reading_cache := reading_cache r |} ∈ readings) as Hex.
  { intros r sharer. rewrite existsb_exists. setoid_rewrite <- list_elem_of_In. setoid_rewrite andb_true_iff.
    setoid_rewrite Z.eqb_eq. setoid_rewrite bool_decide_eq_true. split; [|eauto].
    intros ([c o] & Hin & Hc & Ho). cbn in *. by rewrite <- Hc, <- Ho. }
  split.
  - intros H r sharer Hr Hs. specialize (H r Hr sharer Hs). apply Hex. by destruct (existsb _ _).
  - intros H r Hr sharer Hs. by rewrite (proj2 (Hex r sharer) (H r sharer Hr Hs)).
Qed.

End CacheFacts.

(** *** The order *)

Lemma not_after_spec a b :
  not_after a b ↔
  let '(l1, f1, t1) := order_key a in let '(l2, f2, t2) := order_key b in
  l1 < l2 ∨ (l1 = l2 ∧ (f1 < f2 ∨ (f1 = f2 ∧ t1 ≤ t2))).
Proof.
  unfold not_after, ordered_before. destruct (order_key a) as [[l1 f1] t1], (order_key b) as [[l2 f2] t2].
  destruct (Z.ltb_spec l2 l1), (Z.eqb_spec l2 l1), (Z.ltb_spec f2 f1), (Z.eqb_spec f2 f1), (Z.ltb_spec t2 t1);
    cbn; split; try done; lia.
Qed.

#[export] Instance not_after_total : Total not_after.
Proof.
  intros a b. rewrite !not_after_spec. destruct (order_key a) as [[l1 f1] t1], (order_key b) as [[l2 f2] t2]. lia.
Qed.

#[export] Instance not_after_trans : Transitive not_after.
Proof.
  intros a b c. rewrite !not_after_spec.
  destruct (order_key a) as [[l1 f1] t1], (order_key b) as [[l2 f2] t2], (order_key c) as [[l3 f3] t3]. lia.
Qed.

(** *** Sizes *)

Lemma bounded_digits_spec ceiling ds v n :
  9 ≤ ceiling < 2 ^ 60 → 0 ≤ v ≤ ceiling → Forall (λ c, is_digit c = true) ds →
  bounded_digits ceiling v ds = Some n ↔
  foldl (λ v c, 10 * v + digit_value c) v ds = n ∧ n ≤ ceiling.
Proof.
  intros Hc Hv Hds. revert v Hv. induction Hds as [|c ds Hd Hds IH]; intros v Hv; cbn [bounded_digits foldl].
  - split; [intros [= <-]; split; [done|lia]|]. by intros [-> _].
  - pose proof (digit_range c Hd). replace (v * 10 + digit_value c) with (10 * v + digit_value c) by lia.
    cbv zeta. destruct (Z.ltb_spec ((ceiling - digit_value c) / 10) v).
    + split; [done|]. intros [Hn Hle]. pose proof (fold_digits_ge ds (10 * v + digit_value c) Hds). dlia.
    + rewrite u64_small by (unfold in_u64; lia). apply IH. dlia.
Qed.

(** What a suffix multiplies by. *)
Definition size_scale (suffix : text) : option Z :=
  if bool_decide (suffix = lit "K") then Some 1024 else
  if bool_decide (suffix = [] ∨ suffix = lit "B") then Some 1 else None.

(** *** The map of the caches *)

(** What discover answers, of the caches each CPU publishes. *)
Record cache_map (strerror : Z → text) (first_line : text → Result text SyscallError) (root : text)
    (cpus : CpuTopology) (caches : CacheHierarchy) (views := views strerror first_line root) : Prop := {
  served_by : ∀ c n, c ∈ caches → n ∈ shared_with c → (∃ cpu, cpu ∈ cpus ∧ id cpu = n) ∧ views n c;
  none_lost : ∀ cpu c, cpu ∈ cpus → views (id cpu) c →
    ∃ kept, kept ∈ caches ∧ identity kept = identity c ∧ views (id cpu) kept;
  one_each : NoDup (identity <$> caches);
  all_plausible : ∀ c, c ∈ caches → shared_with c ≠ [] ∧ 1 ≤ level (cache_kind c) ≤ kMaxCacheLevel
    ∧ StronglySorted Z.lt (shared_with c);
  nested : ∀ inner outer n, inner ∈ caches → outer ∈ caches → n ∈ shared_with inner → n ∈ shared_with outer →
    level (cache_kind inner) < level (cache_kind outer) → shared_with inner ⊆ shared_with outer;
  in_order : StronglySorted not_after caches;
}.

Lemma cache_map_of strerror first_line root cpus caches :
  discover_caches strerror first_line root cpus = Value caches →
  cache_map strerror first_line root cpus caches.
Proof.
  unfold discover_caches. intros (readings & Hread & H)%rbind_value.
  pose proof (read_all_spec _ _ _ _ _ Hread) as Hall.
  destruct (check_served_cpus_online root cpus readings) eqn:E1; [done|].
  destruct (check_nesting root readings) eqn:E2; [done|].
  destruct (check_sharers_agree root readings) eqn:E3; [done|]. injection H as <-.
  rewrite served_online_spec in E1. rewrite nesting_spec in E2. rewrite sharers_agree_spec in E3.
  destruct (deduplicate_from [] readings) as (Hnd & Hsub & _ & Hrep); [constructor|].
  change (foldl _ [] readings) with (deduplicate readings) in *. set (kept := deduplicate readings) in *.
  assert (∀ c, c ∈ merge_sort not_after kept ↔ c ∈ kept) as Hin by (intros c; by rewrite merge_sort_Permutation).
  assert (∀ c, c ∈ kept → ∃ r, r ∈ readings ∧ reading_cache r = c) as Hkept.
  { intros c Hc. destruct (Hsub c Hc) as [Hn|?]; [by apply not_elem_of_nil in Hn|done]. }
  assert (∀ c n, c ∈ kept → n ∈ shared_with c → {| reading_cpu := n; reading_cache := c |} ∈ readings) as Hserved.
  { intros c n (r & Hr & <-)%Hkept Hn. by apply E3. }
  assert (∀ c n, {| reading_cpu := n; reading_cache := c |} ∈ readings
    ↔ (∃ cpu, cpu ∈ cpus ∧ id cpu = n) ∧ views strerror first_line root n c) as Hview.
  { intros c n. rewrite Hall. cbn. split; intros [(cpu & ? & ?) ?]; eauto. }
  split.
  - intros c n Hc%Hin Hn. apply Hview. by apply Hserved.
  - intros cpu c Hcpu Hv. assert ({| reading_cpu := id cpu; reading_cache := c |} ∈ readings) as Hr by (apply Hview; eauto).
    destruct (Hrep _ Hr) as (k & Hk & Eid). exists k. split; [by apply Hin|]. split; [done|].
    assert ({| reading_cpu := id cpu; reading_cache := k |} ∈ readings) as Hrk.
    { apply Hserved; [done|]. injection Eid as _ ->. apply (views_plausible _ _ _ _ _ Hv). }
    by apply Hview in Hrk as [_ ?].
  - by rewrite merge_sort_Permutation.
  - intros c (r & Hr & <-)%Hin%Hkept. apply Hall in Hr as [_ (Hlev & Hown & Hs)%views_plausible].
    split; [|done]. intros E. rewrite E in Hown. by apply not_elem_of_nil in Hown.
  - intros inner outer n Hi%Hin Ho%Hin Hni Hno Hlev.
    apply (E2 {| reading_cpu := n; reading_cache := inner |} {| reading_cpu := n; reading_cache := outer |}); auto.
  - apply Sorted_StronglySorted; [apply _|]. apply Sorted_merge_sort. apply _.
Qed.

(** ** Properties *)

(** The caches discovered are those the CPUs publish: each is published alike by every
    CPU it serves, all of them online; every cache a CPU publishes is there, once for its
    kind and sharers; sharing widens with the level; and they come ordered. *)
Theorem discovered_caches strerror first_line root cpus caches :
  discover_caches strerror first_line root cpus = Value caches →
  cache_map strerror first_line root cpus caches.
Proof. apply cache_map_of. Qed.

(** A cache size is read exactly when it is a run of digits with K, B or nothing after
    it that writes at most a tebibyte, and is then that many bytes, with no overflow. *)
Theorem cache_size_exactly t n :
  parse_cache_size t = Value n ↔
  ∃ digits suffix scale, t = digits ++ suffix ∧ digits ≠ [] ∧ Forall (λ c, is_digit c = true) digits
    ∧ size_scale suffix = Some scale ∧ n = dec_value digits * scale ∧ n ≤ kMaxCacheBytes.
Proof.
  assert (∀ digits suffix scale, digits ≠ [] → Forall (λ c, is_digit c = true) digits → size_scale suffix = Some scale →
    (∃ v, bounded_digits (kMaxCacheBytes / scale) 0 digits = Some v ∧ u64 (v * scale) = n)
    ↔ n = dec_value digits * scale ∧ n ≤ kMaxCacheBytes) as Hval.
  { intros ds sf sc Hne Hf Hsc. assert (sc = 1024 ∨ sc = 1) as Hs by (unfold size_scale in Hsc; cases; naive_solver).
    pose proof (fold_digits_ge ds 0 Hf). unfold kMaxCacheBytes.
    assert (9 ≤ 2 ^ 40 / sc < 2 ^ 60) as Hb by (destruct Hs as [-> | ->]; vm_compute; split; done).
    assert (2 ^ 40 = 2 ^ 40 / sc * sc) as Hex by (destruct Hs as [-> | ->]; done).
    setoid_rewrite (bounded_digits_spec (2 ^ 40 / sc) ds 0); [|done|lia|done]. unfold dec_value. split.
    - intros (v & [<- Hle] & <-). rewrite u64_small; [split; [done|nia]|]. unfold in_u64. split; [|]; destruct Hs as [-> | ->]; lia.
    - intros [-> Hle]. eexists. split; [split; [done|]|]; [destruct Hs as [-> | ->]; lia|].
      apply u64_small. unfold in_u64. destruct Hs as [-> | ->]; lia. }
  unfold parse_cache_size. case_bool_decide as H0.
  { subst. split; [done|]. by intros (ds & sf & sc & [-> ->]%eq_sym%app_nil & Hne & _). }
  cbv zeta. pose proof (take_drop_while is_digit t) as Ht. pose proof (take_while_all is_digit t) as Hf.
  set (digits := take_while is_digit t) in *. set (suffix := drop_while is_digit t) in *. case_bool_decide as H1.
  - split; [done|]. intros (ds & sf & sc & -> & Hne & Hds & Hsc & _).
    assert (stops is_digit sf) as Hstop by (unfold size_scale in Hsc; repeat case_bool_decide; naive_solver).
    destruct (take_while_app is_digit ds sf Hds Hstop) as [E _]. unfold digits in H1. congruence.
  - split.
    + destruct (_ && _) eqn:Hsf; [done|]. intros Hn. exists digits, suffix.
      assert (∃ sc, size_scale suffix = Some sc ∧ sc = if bool_decide (suffix = lit "K") then 1024 else 1) as (sc & Hsc & Esc).
      { unfold size_scale. rewrite !andb_false_iff, !negb_false_iff, !bool_decide_eq_true in Hsf.
        case_bool_decide; [by eexists|]. rewrite bool_decide_true by tauto. by eexists. }
      exists sc. split_and!; try done; apply (Hval digits suffix sc); try done; rewrite <- Esc in Hn;
        destruct (bounded_digits _ _ _) as [v|]; [|done| |done]; exists v; by injection Hn.
    + intros (ds & sf & sc & E & Hne & Hds & Hsc & Hn).
      assert (stops is_digit sf) as Hstop by (unfold size_scale in Hsc; repeat case_bool_decide; naive_solver).
      destruct (take_while_app is_digit ds sf Hds Hstop) as [E1 E2]. rewrite <- E in E1, E2. unfold digits, suffix. rewrite E1, E2.
      assert (negb (bool_decide (sf = lit "K")) && negb (bool_decide (sf = [])) && negb (bool_decide (sf = lit "B")) = false
        ∧ sc = if bool_decide (sf = lit "K") then 1024 else 1) as [-> <-].
      { unfold size_scale in Hsc. repeat case_bool_decide; naive_solver. }
      apply (Hval ds sf sc Hne Hds Hsc) in Hn as (v & -> & <-). done.
Qed.

Lemma discovered_caches_witness :
  discover_caches (λ _, []) (answer_of_files sample_sysfs) (lit "/sys") sample_cpus
  = Value [{| cache_kind := {| level := 1; type_ := kData |}; shared_with := [0; 1]; size_bytes := Some 32768; line_bytes := None; cache_id := None |};
           {| cache_kind := {| level := 1; type_ := kData |}; shared_with := [2; 3]; size_bytes := Some 32768; line_bytes := None; cache_id := None |};
           {| cache_kind := {| level := 2; type_ := kUnified |}; shared_with := [0; 1; 2; 3]; size_bytes := None; line_bytes := None; cache_id := Some 7 |}]
  ∧ ∃ caches, cache_map (λ _, []) (answer_of_files sample_sysfs) (lit "/sys") sample_cpus caches ∧ length caches = 3%nat.
Proof.
  split; [vm_compute; reflexivity|]. eexists. split.
  - apply discovered_caches. vm_compute. reflexivity.
  - reflexivity.
Defined.

(** A CPU that publishes two caches of one kind and the same sharers, of other sizes, is
    not refused: the first is kept and the second is lost. *)
Definition sample_twice : list (string * string) :=
  [("/sys/devices/system/cpu/cpu0/cache/index0/level", "1"); ("/sys/devices/system/cpu/cpu0/cache/index0/type", "Data");
   ("/sys/devices/system/cpu/cpu0/cache/index0/shared_cpu_list", "0"); ("/sys/devices/system/cpu/cpu0/cache/index0/size", "32K");
   ("/sys/devices/system/cpu/cpu0/cache/index1/level", "1"); ("/sys/devices/system/cpu/cpu0/cache/index1/type", "Data");
   ("/sys/devices/system/cpu/cpu0/cache/index1/shared_cpu_list", "0"); ("/sys/devices/system/cpu/cpu0/cache/index1/size", "48K")]%string.

Example published_twice :
  discover_caches (λ _, []) (answer_of_files sample_twice) (lit "/sys") [sample_cpu 0 0 [0]]
  = Value [{| cache_kind := {| level := 1; type_ := kData |}; shared_with := [0]; size_bytes := Some 32768; line_bytes := None; cache_id := None |}].
Proof. vm_compute. reflexivity. Qed.
