(* ===== verification/Numa.v ===== *)
(** * topology: NUMA nodes, and the snapshot of the machine

    topology/numa.cpp, with the two line formats it reads, and topology/snapshot.cpp, which
    puts the three discoveries together. *)

From S2P Require Export Caches.

(** ** numa.hpp *)

Record NumaNode := { node_id : Z; node_cpus : CpuList; memory_bytes : Z; distances : list Z }.

#[export] Instance NumaNode_eq_dec : EqDecision NumaNode.
Proof. solve_decision. Defined.

(** [NumaTopology]: its [nodes_]. *)
Definition NumaTopology : Type := list NumaNode.

Definition exposed (nodes : NumaTopology) : bool := negb (bool_decide (nodes = [])).

(** ** numa.cpp *)

Definition kMaxMemoryKb : Z := 2 ^ 40.
Definition kMaxDistance : Z := 65535.

Definition node_directory (sysfs_root : text) (id : Z) : text :=
  sysfs_root ++ lit "/devices/system/node/node" ++ to_dec id.

Definition node_name (id : Z) : text := lit "node" ++ to_dec id.

(** [read_digits]: the value of the run of digits and its length. *)
Definition read_digits (t : text) (bound : Z) : option (Z * nat) :=
  let digits := take_while is_digit t in
  match bounded_digits bound 0 digits with
  | None => None
  | Some value => if bool_decide (digits = []) then None else Some (value, length digits)
  end.

(** The loop of [parse_distances] from a position that is not the end. *)
Fixpoint distances_from (fuel : nat) (found : list Z) (t : text) : Result (list Z) text :=
  match fuel with
  | O => Value found
  | S fuel =>
      match read_digits t kMaxDistance with
      | None => Error (lit "expected a distance, found something that is not one")
      | Some (value, n) =>
          let found := found ++ [u32 value] in
          match drop n t with
          | [] => Value found
          | c :: rest =>
              if negb (bool_decide ([c] = lit " ")) then Error (lit "distances are separated by single spaces") else
              match rest with
              | [] => Error (lit "a distance row does not end in a space")
              | _ => distances_from fuel found rest
              end
          end
      end
  end.

(** Every round takes at least one character. *)
Definition parse_distances (t : text) : Result (list Z) text :=
  match t with
  | [] => Error (lit "a distance row is never written blank")
  | _ => distances_from (length t) [] t
  end.

(** [find] of a text. *)
Fixpoint find_text (needle t : text) : option nat :=
  if bool_decide (take (length needle) t = needle) then Some O else
  match t with
  | [] => None
  | _ :: t => S <$> find_text needle t
  end.

Definition kField : text := lit "MemTotal:".
Definition kPrefix : text := lit "Node ".
Definition kUnit : text := lit " kB".

(** The line that holds the field, at [field]. *)
Definition parse_mem_line (line : text) (field : nat) (id : Z) : Result Z text :=
  if negb (bool_decide (take (length kPrefix) line = kPrefix))
  then Error (lit "the MemTotal line does not begin with " ++ quoted (lit "Node ")) else
  match read_digits (drop (length kPrefix) line) kMaxCpuId with
  | None => Error (lit "the MemTotal line does not name a node")
  | Some (line_id, n) =>
      if negb (length kPrefix + n + 1 =? field)%nat || negb (bool_decide (line !! pred field = head (lit " ")))
      then Error (lit "the MemTotal line does not name a node") else
      if negb (line_id =? id)
      then Error (lit "meminfo describes a different node than the one it was read for") else
      let rest := drop_while (λ c, bool_decide ([c] = lit " ")) (drop (field + length kField) line) in
      match read_digits rest kMaxMemoryKb with
      | None => Error (lit "MemTotal is not a number, or is larger than any machine")
      | Some (value, n) =>
          if negb (bool_decide (drop n rest = kUnit)) then Error (lit "MemTotal is not in kB")
          else Value (u64 (value * 1024))
      end
  end.

Fixpoint parse_node_mem_total (lines : list text) (id : Z) : Result Z text :=
  match lines with
  | [] => Error (lit "meminfo has no MemTotal line")
  | line :: lines =>
      match find_text kField line with
      | None => parse_node_mem_total lines id
      | Some field => parse_mem_line line field id
      end
  end.

Section NumaDiscovery.
Context (strerror : Z → text) (first_line whole_file : text → Result text SyscallError).

Definition read_lines (path : text) : Result (list text) Unavailable := (lines strerror (whole_file path) (new_source path)).1.

Definition read_node (sysfs_root : text) (id : Z) (online_node_count : nat) : Result NumaNode DiscoveryFailure :=
  let directory := node_directory sysfs_root id in
  let? cpus := sourced (read_cpu_list strerror first_line (directory ++ lit "/cpulist")) in
  let? lines := sourced (read_lines (directory ++ lit "/meminfo")) in
  match parse_node_mem_total lines id with
  | Error detail => Error (contradiction (directory ++ lit "/meminfo") detail)
  | Value memory =>
      let? row := sourced (read_text strerror first_line (directory ++ lit "/distance")) in
      match parse_distances row with
      | Error reason => Error (contradiction (directory ++ lit "/distance") (quoted row ++ lit ": " ++ reason))
      | Value found =>
          if negb (length found =? online_node_count)%nat then
            Error (contradiction (directory ++ lit "/distance")
              (node_name id ++ lit " reports " ++ to_dec (size_of found) ++ lit " distance(s) but "
               ++ to_dec (Z.of_nat online_node_count) ++ lit " node(s) are online"))
          else Value {| node_id := id; node_cpus := cpus; memory_bytes := memory; distances := found |}
      end
  end.

Fixpoint read_nodes (sysfs_root : text) (online_node_count : nat) (ids : list Z) : Result (list NumaNode) DiscoveryFailure :=
  match ids with
  | [] => Value []
  | id :: ids =>
      let? node := read_node sysfs_root id online_node_count in
      let? nodes := read_nodes sysfs_root online_node_count ids in
      Value (node :: nodes)
  end.

(** How many nodes claim a CPU. *)
Definition owners (nodes : list NumaNode) (cpu : Z) : Z :=
  size_of (filter (λ node, contains (node_cpus node) cpu = true) nodes).

Definition check_partition (sysfs_root : text) (nodes : list NumaNode) (cpus : CpuTopology) : option DiscoveryFailure :=
  match first_failure (λ node,
          first_failure (λ claimed,
            if existsb (λ cpu, id cpu =? claimed) cpus then None else
            Some (contradiction (node_directory sysfs_root (node_id node) ++ lit "/cpulist")
              (node_name (node_id node) ++ lit " claims " ++ name_of_cpu claimed ++ lit ", which is not online")))
            (node_cpus node)) nodes with
  | Some failure => Some failure
  | None =>
      first_failure (λ cpu,
        if owners nodes (id cpu) =? 1 then None else
        Some (contradiction (sysfs_root ++ lit "/devices/system/node")
          (name_of_cpu (id cpu) ++
           (if owners nodes (id cpu) =? 0 then lit " belongs to no node"
            else lit " is claimed by " ++ to_dec (owners nodes (id cpu)) ++ lit " nodes")))) cpus
  end.

Definition discover_numa (sysfs_root : text) (cpus : CpuTopology) : Result NumaTopology DiscoveryFailure :=
  let online_path := sysfs_root ++ lit "/devices/system/node/online" in
  match read_cpu_list strerror first_line online_path with
  | Error unavailable =>
      if bool_decide (kind unavailable = kAbsent) then Value [] else Error (from_source unavailable)
  | Value online =>
      if bool_decide (online = [])
      then Error (contradiction online_path (lit "no node is reported online, yet this code is running on one"))
      else
        let? nodes := read_nodes sysfs_root (length online) online in
        match check_partition sysfs_root nodes cpus with
        | Some failure => Error failure
        | None => Value nodes
        end
  end.

End NumaDiscovery.

Fixpoint node_of (nodes : NumaTopology) (cpu : Z) : option NumaNode :=
  match nodes with
  | [] => None
  | node :: nodes => if contains (node_cpus node) cpu then Some node else node_of nodes cpu
  end.

(** ** snapshot.hpp, snapshot.cpp *)

Record Snapshot := { cpus : CpuTopology; caches : CacheHierarchy; numa : NumaTopology }.

Definition take_snapshot (strerror : Z → text) (first_line whole_file : text → Result text SyscallError)
    (sysfs_root : text) : Result Snapshot DiscoveryFailure :=
  let? found_cpus := discover strerror first_line sysfs_root in
  let? found_caches := discover_caches strerror first_line sysfs_root found_cpus in
  let? found_numa := discover_numa strerror first_line whole_file sysfs_root found_cpus in
  Value {| cpus := found_cpus; caches := found_caches; numa := found_numa |}.

Definition describe_snapshot (snapshot : Snapshot) : text :=
  to_dec (size_of (cpus snapshot)) ++ lit " logical CPU(s) on " ++ to_dec (physical_core_count (cpus snapshot))
  ++ lit " core(s) in " ++ to_dec (package_count (cpus snapshot)) ++ lit " package(s); "
  ++ (if size_of (caches snapshot) =? 0 then lit "caches not exposed"
      else to_dec (size_of (caches snapshot)) ++ lit " cache(s), deepest L" ++ to_dec (deepest_level (caches snapshot)))
  ++ lit "; "
  ++ (if exposed (numa snapshot) then to_dec (size_of (numa snapshot)) ++ lit " NUMA node(s)" else lit "NUMA not exposed").

(** ** Distances *)

Lemma elements_app c before after : c ∉ before → elements c (before ++ c :: after) = before :: elements c after.
Proof.
  induction before as [|b before IH]; intros Hn; cbn; [by rewrite bool_decide_true|].
  rewrite elem_of_cons in Hn. rewrite bool_decide_false by naive_solver. by rewrite IH by naive_solver.
Qed.

Lemma elements_none c t : c ∉ t → elements c t = [t].
Proof.
  induction t as [|b t IH]; intros Hn; cbn; [done|].
  rewrite elem_of_cons in Hn. rewrite bool_decide_false by naive_solver. by rewrite IH by naive_solver.
Qed.

Definition space : byte := byte_of 32.

Lemma digits_no_space t : Forall (λ c, is_digit c = true) t → space ∉ t.
Proof. rewrite Forall_forall. intros H Hin. specialize (H _ Hin). by vm_compute in H. Qed.

Lemma read_digits_spec t bound v n :
  9 ≤ bound < 2 ^ 60 →
  read_digits t bound = Some (v, n) ↔
  take_while is_digit t ≠ [] ∧ n = length (take_while is_digit t) ∧ dec_value (take_while is_digit t) = v ∧ v ≤ bound.
Proof.
  intros Hb. unfold read_digits. pose proof (take_while_all is_digit t) as Hf. set (ds := take_while is_digit t) in *.
  destruct (bounded_digits bound 0 ds) as [w|] eqn:E.
  - apply bounded_digits_spec in E as [Hw Hle]; [|done|lia|done]. case_bool_decide; unfold dec_value; naive_solver.
  - split; [done|]. intros (Hne & _ & Hv & Hle). enough (bounded_digits bound 0 ds = Some v) by congruence.
    apply bounded_digits_spec; [done|lia|done|]. done.
Qed.

(** A text is the digits it begins with and what they stop at. *)
Lemma leading_digits t :
  ∃ ds rest, t = ds ++ rest ∧ Forall (λ c, is_digit c = true) ds ∧ stops is_digit rest.
Proof.
  exists (take_while is_digit t), (drop_while is_digit t).
  split_and!; [by rewrite take_drop_while|apply take_while_all|apply drop_while_stops].
Qed.

Lemma read_leading ds rest v n :
  Forall (λ c, is_digit c = true) ds → stops is_digit rest →
  read_digits (ds ++ rest) kMaxDistance = Some (v, n) ↔ reads ds v ∧ n = length ds.
Proof.
  intros Hds Hstop. rewrite read_digits_spec by (vm_compute; split; congruence).
  destruct (take_while_app is_digit ds rest Hds Hstop) as [-> _]. unfold reads, kMaxDistance, kMaxCpuId. naive_solver.
Qed.

(** The elements of a row that begins with digits. *)
Lemma elements_leading ds rest :
  Forall (λ c, is_digit c = true) ds → stops is_digit rest →
  (rest = [] ∧ elements space (ds ++ rest) = [ds])
  ∨ (∃ row, rest = space :: row ∧ elements space (ds ++ rest) = ds :: elements space row)
  ∨ (∃ c row e es, rest = c :: row ∧ c ≠ space ∧ is_digit c = false ∧ elements space (ds ++ rest) = (ds ++ c :: e) :: es).
Proof.
  intros Hds Hstop. pose proof (digits_no_space ds Hds) as Hns. destruct rest as [|c row].
  - left. split; [done|]. by rewrite app_nil_r, elements_none.
  - right. destruct (decide (c = space)) as [->|Hc].
    + left. exists row. split; [done|]. by apply elements_app.
    + right. clear Hds. induction ds as [|d ds IH]; cbn [app elements].
      * rewrite bool_decide_false by done. destruct (elements space row) as [|e es]; [exists c, row, [], []|exists c, row, e, es]; done.
      * rewrite elem_of_cons in Hns. destruct IH as (c' & row' & e & es & [= <- <-] & _ & _ & E); [naive_solver|].
        rewrite bool_decide_false by naive_solver. rewrite E. by exists c, row, e, es.
Qed.

Lemma not_reads ds c e v : is_digit c = false → ¬ reads (ds ++ c :: e) v.
Proof. intros Hc (_ & [_ H]%Forall_app & _). apply Forall_inv in H. congruence. Qed.

Lemma distances_from_spec fuel t found l :
  (length t ≤ fuel)%nat → t ≠ [] →
  distances_from fuel found t = Value l ↔ ∃ ds, l = found ++ ds ∧ Forall2 reads (elements space t) ds.
Proof.
  revert t found. induction fuel as [|fuel IH]; intros t found Hlen Hne; [destruct t; cbn in *; [done|lia]|].
  cbn [distances_from]. destruct (leading_digits t) as (ds & rest & -> & Hds & Hstop).
  destruct (read_digits (ds ++ rest) kMaxDistance) as [[v n]|] eqn:E.
  - apply read_leading in E as [Hr ->]; [|done..]. pose proof (reads_nonneg _ _ Hr) as Hv.
    assert (∀ v', reads ds v' → v' = v) as Hsame by (intros v' (_ & _ & <- & _); by destruct Hr as (_ & _ & <- & _)).
    rewrite u32_small by (unfold in_u32, kMaxCpuId in *; lia). cbv zeta. rewrite drop_app_length.
    destruct (elements_leading ds rest Hds Hstop) as [[-> ->]|[(row & -> & ->)|(c & row & e & es & -> & Hc & Hd & ->)]].
    + setoid_rewrite Forall2_cons_l. setoid_rewrite Forall2_nil_l. split; [intros [= <-]; eauto 10|].
      intros (l' & -> & v' & l'' & Hr' & -> & ->). by rewrite (Hsame v').
    + change (bool_decide ([space] = lit " ")) with true. cbn [negb]. setoid_rewrite Forall2_cons_l. destruct row as [|d row].
      * split; [done|]. intros (l' & _ & v' & l'' & _ & (? & ? & (Hx & _) & _)%Forall2_cons_inv_l & _). done.
      * rewrite IH; [|rewrite length_app in Hlen; cbn in *; lia|done]. setoid_rewrite <- (assoc (++)). split.
        -- intros (l' & -> & Hf). exists (v :: l'). split; [done|]. eauto.
        -- intros (l' & -> & v' & l'' & Hr' & Hf & ->). exists l''. by rewrite (Hsame v').
    + rewrite bool_decide_false by (by intros [= ->]). split; [done|]. setoid_rewrite Forall2_cons_l.
      intros (l' & _ & v' & l'' & Hr' & _). by apply not_reads in Hr'.
  - split; [done|]. intros (l' & _ & Hf). exfalso.
    assert (∃ v, reads ds v) as [v Hv].
    { destruct (elements_leading ds rest Hds Hstop) as [[-> Ee]|[(row & -> & Ee)|(c & row & e & es & -> & Hc & Hd & Ee)]];
        rewrite Ee, Forall2_cons_l in Hf; destruct Hf as (v & ? & Hr & _); [eauto..|]. by apply not_reads in Hr. }
    enough (read_digits (ds ++ rest) kMaxDistance = Some (v, length ds)) by congruence. by apply read_leading.
Qed.

(** A row is distances up to 65535 with single spaces between them. *)
Lemma parse_distances_spec t l : parse_distances t = Value l ↔ t ≠ [] ∧ Forall2 reads (elements space t) l.
Proof.
  unfold parse_distances. destruct t as [|c t]; [naive_solver|]. rewrite distances_from_spec by done. naive_solver.
Qed.

(** ** Memory *)

Lemma find_text_found needle t n :
  find_text needle t = Some n → ∃ before after, t = before ++ needle ++ after ∧ length before = n.
Proof.
  revert n. induction t as [|c t IH]; intros n; cbn [find_text]; case_bool_decide as Ht.
  - intros [= <-]. exists [], (drop (length needle) []). split; [|done]. cbn [app].
    rewrite <- Ht at 1. by rewrite take_drop.
  - done.
  - intros [= <-]. exists [], (drop (length needle) (c :: t)). split; [|done]. cbn [app].
    rewrite <- Ht at 1. by rewrite take_drop.
  - intros (m & Hm & ->)%fmap_Some. destruct (IH m Hm) as (before & after & -> & <-). by exists (c :: before), after.
Qed.

(** A run of digits as meminfo writes an amount of memory. *)
Definition writes_amount (t : text) (kb : Z) : Prop :=
  t ≠ [] ∧ Forall (λ c, is_digit c = true) t ∧ dec_value t = kb ∧ kb ≤ kMaxMemoryKb.

(** A meminfo line of node [id]: its memory is [kb] kB. *)
Definition mem_line (line : text) (id kb : Z) : Prop :=
  ∃ node blanks amount,
    line = kPrefix ++ node ++ [space] ++ kField ++ blanks ++ amount ++ kUnit
    ∧ reads node id ∧ Forall (λ c, c = space) blanks ∧ writes_amount amount kb.

Lemma digits_read t bound v n :
  9 ≤ bound < 2 ^ 60 → read_digits t bound = Some (v, n) →
  ∃ digits, t = digits ++ drop n t ∧ n = length digits ∧ digits ≠ []
    ∧ Forall (λ c, is_digit c = true) digits ∧ dec_value digits = v ∧ v ≤ bound.
Proof.
  intros Hb (Hne & -> & Hv & Hle)%read_digits_spec; [|done]. exists (take_while is_digit t).
  split_and!; [|done|done|apply take_while_all|done..].
  pose proof (take_drop_while is_digit t) as E. rewrite <- E at 1. f_equal. symmetry. rewrite <- E at 2.
  apply drop_app_length.
Qed.

Lemma parse_mem_line_spec line field id memory :
  find_text kField line = Some field → parse_mem_line line field id = Value memory →
  ∃ kb, mem_line line id kb ∧ memory = kb * 1024.
Proof.
  intros (before & after & Hline & Hfield)%find_text_found. unfold parse_mem_line.
  case_bool_decide as Hp; [|done]. cbn [negb].
  destruct (read_digits (drop (length kPrefix) line) kMaxCpuId) as [[line_id n]|] eqn:E1; [|done].
  destruct (Nat.eqb_spec (length kPrefix + n + 1) field) as [Hpos|]; [|done]. cbn [negb orb].
  case_bool_decide as Hspace; [|done]. cbn [negb]. destruct (Z.eqb_spec line_id id) as [->|]; [|done]. cbn [negb].
  rewrite <- Hfield in *. clear Hfield. assert (drop (length before + length kField) line = after) as ->.
  { rewrite Hline, <- length_app, (assoc_L (++)). by rewrite drop_app_length. }
  pose proof (take_drop_while (λ c, bool_decide ([c] = lit " ")) after) as Hafter.
  pose proof (take_while_all (λ c, bool_decide ([c] = lit " ")) after) as Hblanks.
  set (rest := drop_while _ after) in *. destruct (read_digits rest kMaxMemoryKb) as [[kb m]|] eqn:E2; [|done].
  case_bool_decide as Hunit; [|done]. cbn [negb]. intros [= <-]. exists kb.
  apply digits_read in E1 as (node & Hnode & -> & Hne1 & Hd1 & Hv1 & Hle1); [|by vm_compute].
  apply digits_read in E2 as (amount & Hamount & -> & Hne2 & Hd2 & Hv2 & Hle2); [|by vm_compute].
  assert (0 ≤ kb) as Hkb by (rewrite <- Hv2; by apply (fold_digits_ge amount 0)).
  split; [|apply u64_small; unfold in_u64, kMaxMemoryKb in *; lia].
  exists node, (take_while (λ c, bool_decide ([c] = lit " ")) after), amount.
  assert (before = kPrefix ++ node ++ [space]) as Hbefore.
  { assert (line = kPrefix ++ node ++ drop (length node) (drop (length kPrefix) line)) as Hl.
    { rewrite <- Hnode, <- Hp at 1. by rewrite take_drop. }
    set (tail := drop (length node) _) in *.
    rewrite Hl, (assoc_L (++)), lookup_app_r in Hspace by (rewrite length_app; lia).
    replace (_ - _)%nat with 0%nat in Hspace by (rewrite length_app; lia).
    destruct tail as [|c tail]; [done|]. injection Hspace as ->. rewrite Hline in Hl.
    assert (before ++ kField ++ after = (kPrefix ++ node ++ [space]) ++ tail) as E
      by (rewrite Hl, <- !app_assoc; done).
    apply app_inj_1 in E as [E _]; [done|]. rewrite !length_app in *. cbn [length] in *. lia. }
  split_and!; [|done..| |by split_and!].
  - rewrite Hline, Hbefore, <- Hafter at 1. rewrite Hamount at 1. rewrite Hunit. by rewrite <- !(assoc_L (++)).
  - eapply Forall_impl; [exact Hblanks|]. intros c Hc. apply bool_decide_eq_true in Hc. by injection Hc as ->.
Qed.

(** The first line that has the field is of the node. *)
Lemma parse_node_mem_total_spec lines id memory :
  parse_node_mem_total lines id = Value memory →
  ∃ before line after kb, lines = before ++ line :: after ∧ Forall (λ l, find_text kField l = None) before
    ∧ mem_line line id kb ∧ memory = kb * 1024.
Proof.
  induction lines as [|line lines IH]; [done|]. cbn [parse_node_mem_total]. destruct (find_text kField line) as [field|] eqn:E.
  - intros (kb & Hl & Hm)%(parse_mem_line_spec _ _ _ _ E). by exists [], line, lines, kb.
  - intros (before & l & after & kb & -> & Hb & Hl)%IH. exists (line :: before), l, after, kb. split_and!; [done|by constructor|apply Hl..].
Qed.

(** ** What the discoveries may answer *)

(** Nodes that split the online CPUs between them. *)
Record partition (cpus : CpuTopology) (nodes : NumaTopology) : Prop := {
  nodes_ascend : StronglySorted Z.lt (node_id <$> nodes);
  claimed_online : ∀ node n, node ∈ nodes → n ∈ node_cpus node → ∃ cpu, cpu ∈ cpus ∧ id cpu = n;
  one_owner : ∀ cpu, cpu ∈ cpus → ∃ node, node ∈ nodes ∧ id cpu ∈ node_cpus node
    ∧ ∀ other, other ∈ nodes → id cpu ∈ node_cpus other → other = node;
  rows_full : ∀ node, node ∈ nodes → length (distances node) = length nodes;
}.

Lemma owners_one nodes n :
  owners nodes n = 1 ↔ ∃ node, filter (λ node, contains (node_cpus node) n = true) nodes = [node].
Proof.
  unfold owners, size_of. split.
  - destruct (filter _ nodes) as [|node [|]]; cbn; (lia || eauto).
  - by intros [node ->].
Qed.

Section NumaFacts.
Context (strerror : Z → text) (first_line whole_file : text → Result text SyscallError) (root : text).

(** A node is what its directory publishes: the CPUs of its list, the memory of its
    meminfo and the distances of its row. *)
Record node_publishes (node : NumaNode) (directory := node_directory root (node_id node)) : Prop := {
  publishes_cpus : read_cpu_list strerror first_line (directory ++ lit "/cpulist") = Value (node_cpus node);
  publishes_memory :
    ∃ contents before line after kb,
      whole_file (directory ++ lit "/meminfo") = Value contents ∧ lines_of contents = before ++ line :: after
      ∧ Forall (λ l, find_text kField l = None) before ∧ mem_line line (node_id node) kb ∧ memory_bytes node = kb * 1024;
  publishes_distances :
    ∃ row, first_line (directory ++ lit "/distance") = Value row ∧ row ≠ []
      ∧ Forall2 reads (elements space row) (distances node);
}.

Lemma read_node_spec n count node :
  read_node strerror first_line whole_file root n count = Value node →
  node_id node = n ∧ length (distances node) = count ∧ node_publishes node.
Proof.
  unfold read_node. intros (l & Hl%sourced_value & H)%rbind_value. apply rbind_value in H as (ls & Hls%sourced_value & H1).
  destruct (parse_node_mem_total ls n) as [memory|] eqn:Em; [|done].
  apply rbind_value in H1 as (row & Hrow%sourced_value & H2).
  destruct (parse_distances row) as [found|] eqn:Ed; [|done]. destruct (Nat.eqb_spec (length found) count); [|done].
  injection H2 as <-. split; [done|]. split; [done|]. split; cbn [node_id node_cpus memory_bytes distances].
  - done.
  - apply parse_node_mem_total_spec in Em as (before & line & after & kb & -> & Hb & Hm & Hk).
    revert Hls. unfold read_lines, lines. destruct (whole_file _) as [contents|]; [|done]. intros [= Hc].
    by exists contents, before, line, after, kb.
  - apply parse_distances_spec in Ed as [Hne Hd]. revert Hrow. unfold read_text, source_text.
    destruct (first_line _) as [contents|]; [|done]. intros [= ->]. by exists row.
Qed.

Lemma read_nodes_spec count ids nodes :
  read_nodes strerror first_line whole_file root count ids = Value nodes →
  node_id <$> nodes = ids ∧ ∀ node, node ∈ nodes → length (distances node) = count ∧ node_publishes node.
Proof.
  revert nodes. induction ids as [|n ids IH]; intros nodes; cbn [read_nodes].
  - intros [= <-]. split; [done|]. by intros node ?%not_elem_of_nil.
  - intros (node & Hn & H1)%rbind_value. apply rbind_value in H1 as (rest & Hr & [= <-]).
    apply read_node_spec in Hn as (<- & Hd & Hp). apply IH in Hr as [<- Hrest]. split; [done|].
    intros other [->|Hin]%elem_of_cons; auto.
Qed.

Lemma check_partition_spec nodes cpus :
  check_partition root nodes cpus = None ↔
  (∀ node n, node ∈ nodes → n ∈ node_cpus node → ∃ cpu, cpu ∈ cpus ∧ id cpu = n)
  ∧ ∀ cpu, cpu ∈ cpus → owners nodes (id cpu) = 1.
Proof.
  unfold check_partition.
  assert (∀ n, existsb (λ cpu, id cpu =? n) cpus = true ↔ ∃ cpu, cpu ∈ cpus ∧ id cpu = n) as Hex.
  { intros n. rewrite existsb_exists. setoid_rewrite <- list_elem_of_In. by setoid_rewrite Z.eqb_eq. }
  destruct (first_failure _ nodes) as [f|] eqn:E1.
  - split; [done|]. intros [H _]. enough (Some f = None) by done. rewrite <- E1. apply first_failure_none. intros node Hn.
    apply first_failure_none. intros n Hin. by rewrite (proj2 (Hex n) (H node n Hn Hin)).
  - rewrite first_failure_none in E1. setoid_rewrite first_failure_none in E1. rewrite first_failure_none. split.
    + intros E2. split.
      * intros node n Hn Hin. specialize (E1 node Hn n Hin). apply Hex. by destruct (existsb _ _).
      * intros cpu Hc. specialize (E2 cpu Hc). by destruct (Z.eqb_spec (owners nodes (id cpu)) 1).
    + intros [_ H] cpu Hc. by rewrite (H cpu Hc).
Qed.

(** The nodes the kernel has online, as they are published, and how they lie over the CPUs. *)
Record numa_map (cpus : CpuTopology) (nodes : NumaTopology) : Prop := {
  online_nodes :
    read_cpu_list strerror first_line (root ++ lit "/devices/system/node/online") = Value (node_id <$> nodes);
  nodes_published : ∀ node, node ∈ nodes → node_publishes node;
  nodes_partition : partition cpus nodes;
}.

Lemma discover_numa_spec cpus nodes :
  discover_numa strerror first_line whole_file root cpus = Value nodes →
  if exposed nodes then numa_map cpus nodes
  else ∃ u, read_cpu_list strerror first_line (root ++ lit "/devices/system/node/online") = Error u ∧ kind u = kAbsent.
Proof.
  unfold discover_numa. cbv zeta. destruct (read_cpu_list _ _ _) as [online|u] eqn:Hon.
  - destruct (read_cpu_list_ascends _ _ _ _ Hon) as [Hs _]. case_bool_decide as Hne; [done|]. intros (l & Hl & H2)%rbind_value.
    destruct (check_partition root l cpus) eqn:Hc; [done|]. injection H2 as ->.
    apply read_nodes_spec in Hl as [Hids Hrows]. apply check_partition_spec in Hc as [Hclaim Hone].
    unfold exposed. rewrite bool_decide_false by (intros ->; by rewrite <- Hids in Hne). cbn [negb].
    split; [by rewrite Hids|intros node Hn; by apply Hrows|]. split.
    + by rewrite Hids.
    + done.
    + intros cpu Hcpu. apply Hone, owners_one in Hcpu as [node Hf].
      assert (∀ other, other ∈ nodes ∧ id cpu ∈ node_cpus other ↔ other = node) as Hiff.
      { intros other. rewrite <- list_elem_of_singleton, <- Hf, list_elem_of_filter, contains_spec. tauto. }
      exists node. destruct (proj2 (Hiff node) eq_refl). split_and!; [done..|]. intros other ? ?. by apply Hiff.
    + intros node Hn. rewrite (proj1 (Hrows node Hn)), <- Hids. by rewrite length_fmap.
  - case_bool_decide; [|done]. intros [= <-]. by exists u.
Qed.

End NumaFacts.

(** The node of a CPU. *)
Lemma node_of_spec cpus nodes cpu :
  partition cpus nodes → cpu ∈ cpus →
  ∃ node, node_of nodes (id cpu) = Some node ∧ node ∈ nodes ∧ id cpu ∈ node_cpus node
    ∧ ∀ other, other ∈ nodes → id cpu ∈ node_cpus other → other = node.
Proof.
  intros Hp Hc. destruct (one_owner _ _ Hp cpu Hc) as (node & Hin & Hcpu & Honly). exists node. split; [|done].
  clear Hp. induction nodes as [|first nodes IH]; [by apply not_elem_of_nil in Hin|]. cbn [node_of].
  destruct (contains (node_cpus first) (id cpu)) eqn:E; [f_equal; apply Honly; [by left|by apply contains_spec]|].
  apply IH; [|intros other Ho; apply Honly; by right]. apply elem_of_cons in Hin as [->|]; [|done].
  apply contains_spec in Hcpu. congruence.
Qed.

(** ** Properties *)

(** C27: a snapshot is whole and of one machine. Its CPUs are those the kernel lists as
    online, each as its directory publishes it, and consistent with one another; its
    caches are those the CPUs publish. When the kernel lists nodes, its nodes are those,
    each with the CPU list, the memory and the distances its directory publishes, and
    they split the CPUs between them; it has no node only when the kernel has no such
    list. *)
Theorem snapshot_whole strerror first_line whole_file root snapshot :
  take_snapshot strerror first_line whole_file root = Value snapshot →
  read_cpu_list strerror first_line (root ++ lit "/devices/system/cpu/online") = Value (id <$> cpus snapshot)
  ∧ (∀ cpu, cpu ∈ cpus snapshot → publishes strerror first_line root cpu)
  ∧ consistent (cpus snapshot)
  ∧ cache_map strerror first_line root (cpus snapshot) (caches snapshot)
  ∧ (if exposed (numa snapshot) then numa_map strerror first_line whole_file root (cpus snapshot) (numa snapshot)
     else ∃ u, read_cpu_list strerror first_line (root ++ lit "/devices/system/node/online") = Error u
               ∧ kind u = kAbsent).
Proof.
  unfold take_snapshot. intros (found & Hcpus & H1)%rbind_value. apply rbind_value in H1 as (hierarchy & Hcaches & H2).
  apply rbind_value in H2 as (nodes & Hnuma & [= <-]). apply discover_spec in Hcpus as (Hon & Hpub & Hcon).
  cbn. split_and!; [done..|by apply cache_map_of|]. by apply discover_numa_spec.
Qed.

Definition sample_node_files : list (string * string) :=
  [("/sys/devices/system/node/online", "0"); ("/sys/devices/system/node/node0/cpulist", "0-3");
   ("/sys/devices/system/node/node0/meminfo", "Node 0 MemTotal:        5081088 kB"); ("/sys/devices/system/node/node0/distance", "10")]%string.

Definition sample_files : list (string * string) := sample_sysfs ++ sample_node_files.

Lemma snapshot_whole_witness :
  ∃ snapshot,
    take_snapshot (λ _, []) (answer_of_files sample_files) (answer_of_files sample_files) (lit "/sys") = Value snapshot
    ∧ consistent (cpus snapshot) ∧ numa snapshot = [{| node_id := 0; node_cpus := [0; 1; 2; 3]; memory_bytes := 5203034112; distances := [10] |}].
Proof.
  eexists. split; [vm_compute; reflexivity|]. split; [|reflexivity].
  refine (proj1 (proj2 (proj2 (snapshot_whole (λ _, []) (answer_of_files sample_files) (answer_of_files sample_files) (lit "/sys") _ _)))).
  vm_compute. reflexivity.
Defined.
