(* ===== verification/Isolation.v ===== *)
(** * verification/isolation, controller/isolate: the ladder of re-runs

    What a wrong result is consistent with: the re-runs of verification/isolation/ladder.cpp,
    the other cores verification/isolation/placement.cpp ranks for them, and the findings of
    a run that controller/isolate.cpp sends up the ladder. A re-runner is a class over a
    state of its own. *)

From S2P Require Export Numa Runner.

(** ** isolation.hpp *)

Inductive WrongResult :=
| WrongExactly (record : ExactBitCorruption)
| WrongNumerically (record : NumericalVerificationFailure).

Definition as_wrong_result (record : ErrorRecord) : option WrongResult :=
  match record with
  | Exactly record => Some (WrongExactly record)
  | Numerically record => Some (WrongNumerically record)
  | NotPerformed _ => None
  end.

Inductive Rung := kSameCore | kOtherCore | kSingleThread.

#[export] Instance Rung_eq_dec : EqDecision Rung.
Proof. solve_decision. Defined.

Definition describe_rung (rung : Rung) : text :=
  match rung with
  | kSameCore => lit "same core"
  | kOtherCore => lit "another core"
  | kSingleThread => lit "single thread"
  end.

Record RerunRequest := { rung : Rung; request_cpu : Z; request_threads : Z }.

#[export] Instance RerunRequest_eq_dec : EqDecision RerunRequest.
Proof. solve_decision. Defined.

Inductive RerunOutcome := kReproduced | kClean | kNotPerformed.

#[export] Instance RerunOutcome_eq_dec : EqDecision RerunOutcome.
Proof. solve_decision. Defined.

Definition describe_outcome (outcome : RerunOutcome) : text :=
  match outcome with
  | kReproduced => lit "reproduced"
  | kClean => lit "clean"
  | kNotPerformed => lit "not performed"
  end.

Record Placement := { placement_cpu : Z; placement_threads : Z; placement_others : list Z }.

Inductive Answer := kYes | kNo | kUnknown.

#[export] Instance Answer_eq_dec : EqDecision Answer.
Proof. solve_decision. Defined.

Record Answers := { same_core : Answer; other_core : Answer; single_thread : Answer }.

Inductive Finding :=
  kNonReproducibleTransient | kCoreLocal | kNotCoreLocal | kConcurrencyDependent
| kReproducibleUnlocated | kInconclusive.

#[export] Instance Finding_eq_dec : EqDecision Finding.
Proof. solve_decision. Defined.

Inductive Confidence := kLow | kMedium | kHigh.

#[export] Instance Confidence_eq_dec : EqDecision Confidence.
Proof. solve_decision. Defined.

Definition derive_finding (answers : Answers) : Finding :=
  if bool_decide (same_core answers = kUnknown) then kInconclusive else
  if bool_decide (same_core answers = kNo) then kNonReproducibleTransient else
  if bool_decide (single_thread answers = kNo) then kConcurrencyDependent else
  if bool_decide (single_thread answers = kUnknown) then kInconclusive else
  if bool_decide (other_core answers = kNo) then kCoreLocal else
  if bool_decide (other_core answers = kYes) then kNotCoreLocal else
  kReproducibleUnlocated.

Definition confidence_of (finding : Finding) : Confidence :=
  match finding with
  | kNotCoreLocal => kHigh
  | kCoreLocal | kReproducibleUnlocated => kMedium
  | kNonReproducibleTransient | kConcurrencyDependent | kInconclusive => kLow
  end.

Record Step := { request : RerunRequest; outcome : RerunOutcome }.

Record IsolationReport := {
  report_steps : list Step;
  report_answers : Answers;
  report_finding : Finding;
  report_confidence : Confidence;
}.

(** [Rerunner]. *)
Class Rerunner (S : Type) := { rerun : WrongResult → RerunRequest → S → RerunOutcome * S }.

(** ** ladder.cpp *)

Definition answer_of (outcome : RerunOutcome) : Answer :=
  match outcome with kReproduced => kYes | kClean => kNo | kNotPerformed => kUnknown end.

Section Ladder.
Context {S : Type} `{Rerunner S}.

(** [climb]: a rung, its step at the end of those before. *)
Definition climb (finding : WrongResult) (rung : Rung) (cpu threads : Z) (steps : list Step) (s : S) :
    Answer * list Step * S :=
  let request := {| rung := rung; request_cpu := cpu; request_threads := threads |} in
  let '(outcome, s) := rerun finding request s in
  (answer_of outcome, steps ++ [{| request := request; outcome := outcome |}], s).

Definition isolate (finding : WrongResult) (placement : Placement) (s : S) : IsolationReport * S :=
  let one_thread := placement_threads placement =? 1 in
  let '(same, steps, s) := climb finding kSameCore (placement_cpu placement) (placement_threads placement) [] s in
  let single := if one_thread then same else kUnknown in
  let '(other, single, steps, s) :=
    if bool_decide (same = kYes) then
      let '(other, steps, s) :=
        match placement_others placement with
        | [] => (kUnknown, steps, s)
        | first :: _ => climb finding kOtherCore first (placement_threads placement) steps s
        end in
      if negb one_thread then
        let '(single, steps, s) := climb finding kSingleThread (placement_cpu placement) 1 steps s in
        (other, single, steps, s)
      else (other, single, steps, s)
    else (kUnknown, single, steps, s) in
  let answers := {| same_core := same; other_core := other; single_thread := single |} in
  let found := derive_finding answers in
  ({| report_steps := steps; report_answers := answers; report_finding := found;
      report_confidence := confidence_of found |}, s).

End Ladder.

(** ** placement.cpp *)

Definition kNoSharedCache : Z := 2 ^ 32 - 1.

Definition PrivateCache : Type := Z * CacheType * option Z.

Record Shape := { shape_threads : Z; shape_caches : list PrivateCache }.

#[export] Instance Shape_eq_dec : EqDecision Shape.
Proof. solve_decision. Defined.

(** [Rank]; a false is less than a true. *)
Definition Rank : Type := Z * Z * Z * Z.

Definition of_bool (b : bool) : Z := if b then 1 else 0.

Fixpoint lowest_shared_level (caches : CacheHierarchy) (one other : Z) : Z :=
  match caches with
  | [] => kNoSharedCache
  | cache :: caches =>
      if contains (shared_with cache) one && contains (shared_with cache) other
      then level (cache_kind cache) else lowest_shared_level caches one other
  end.

Definition private_to_core (cache : Cache) (cpu : LogicalCpu) : bool :=
  forallb (contains (thread_siblings cpu)) (shared_with cache).

Definition shape_of (caches : CacheHierarchy) (cpu : LogicalCpu) : Shape :=
  {| shape_threads := size_of (thread_siblings cpu);
     shape_caches := (λ cache, (level (cache_kind cache), type_ (cache_kind cache), size_bytes cache)) <$>
       filter (λ cache, contains (shared_with cache) (id cpu) && private_to_core cache cpu = true) caches |}.

(** Where [node_of] points: two CPUs are on one node when it is the same place. *)
Definition node_position (nodes : NumaTopology) (cpu : Z) : option nat :=
  fst <$> list_find (λ node, contains (node_cpus node) cpu = true) nodes.

Definition rank_of (machine : Snapshot) (cpu : Z) (origin candidate : LogicalCpu) : Rank :=
  (of_bool (negb (bool_decide (node_position (numa machine) (id candidate) = node_position (numa machine) cpu))),
   lowest_shared_level (caches machine) cpu (id candidate),
   of_bool (negb (bool_decide (shape_of (caches machine) candidate = shape_of (caches machine) origin))),
   id candidate).

(** [operator<=] of ranks. *)
Definition rank_le (lhs rhs : Rank) : Prop :=
  let '(a1, b1, c1, d1) := lhs in
  let '(a2, b2, c2, d2) := rhs in
  a1 < a2 ∨ a1 = a2 ∧ (b1 < b2 ∨ b1 = b2 ∧ (c1 < c2 ∨ c1 = c2 ∧ d1 ≤ d2)).

#[export] Instance rank_le_dec lhs rhs : Decision (rank_le lhs rhs).
Proof. destruct lhs as [[[? ?] ?] ?], rhs as [[[? ?] ?] ?]. unfold rank_le. apply _. Defined.

Definition ranked (machine : Snapshot) (cpu : Z) (origin : LogicalCpu) : list Rank :=
  merge_sort rank_le (rank_of machine cpu origin <$>
    filter (λ candidate, key (core candidate) ≠ key (core origin)) (cpus machine)).

Definition other_cores (machine : Snapshot) (cpu : Z) : list Z :=
  match find_cpu (cpus machine) cpu with
  | None => []
  | Some origin => snd <$> ranked machine cpu origin
  end.

Definition placement_for (machine : Snapshot) (cpu threads : Z) : Placement :=
  {| placement_cpu := cpu; placement_threads := threads; placement_others := other_cores machine cpu |}.

(** ** controller/report.hpp: what isolation reads and writes *)

(** [WorkerWork], of which isolation and the re-runs read these. *)
Record WorkerWork := { work_name : text; work_threads : Z; work_line_bytes : Z; work_lock : LockPolicy }.

Record FindingReport := { record : ErrorRecord; isolation : option IsolationReport; not_isolated : text }.

Record WorkerReport := { work : option WorkerWork; findings : list FindingReport }.

(** [ChildAwareRerunner]. *)
Class ChildAware (S : Type) `{Rerunner S} := {
  use_work : WorkerWork → S → S;
  child_exit_code : S → option Z;
}.

(** ** controller/isolate.cpp *)

Record IsolationSummary := { isolated : Z; child_exit : option Z }.

Section Isolate.
Context {S : Type} `{ChildAware S} (machine : option Snapshot) (limit : Z).

Definition absent (finding : FindingReport) (why : text) : FindingReport :=
  {| record := record finding; isolation := isolation finding; not_isolated := why |}.

(** What the loop does with one finding: states an absence, or isolates. *)
Definition isolate_one (work : WorkerWork) (isolated_here : Z) (finding : FindingReport) (s : S) :
    FindingReport * bool * S :=
  match as_wrong_result (record finding) with
  | None => (absent finding (lit "a check that was not made: there is no wrong result to repeat"), false, s)
  | Some wrong =>
      if limit <=? isolated_here
      then (absent finding (lit "past the limit of " ++ to_dec limit ++ lit " isolations"), false, s) else
      match logical_cpu (provenance_of (record finding)) with
      | None => (absent finding (lit "the worker ran on several CPUs, so the record names none to repeat it on"), false, s)
      | Some cpu =>
          match machine with
          | None => (absent finding (lit "no topology snapshot to name another core from"), false, s)
          | Some machine =>
              let '(report, s) := isolate wrong (placement_for machine cpu (work_threads work)) s in
              ({| record := record finding; isolation := Some report; not_isolated := not_isolated finding |}, true, s)
          end
      end
  end.

(** The findings of one worker; the summary so far, and whether the loop returned. *)
Fixpoint isolate_worker (work : WorkerWork) (isolated_here : Z) (findings : list FindingReport)
    (summary : IsolationSummary) (s : S) : list FindingReport * IsolationSummary * bool * S :=
  match findings with
  | [] => ([], summary, false, s)
  | finding :: findings =>
      let '(finding, done, s) := isolate_one work isolated_here finding s in
      if done then
        let summary := {| isolated := isolated summary + 1; child_exit := child_exit summary |} in
        match child_exit_code s with
        | Some code => (finding :: findings, {| isolated := isolated summary; child_exit := Some code |}, true, s)
        | None =>
            let '(findings, summary, over, s) := isolate_worker work (isolated_here + 1) findings summary s in
            (finding :: findings, summary, over, s)
        end
      else
        let '(findings, summary, over, s) := isolate_worker work isolated_here findings summary s in
        (finding :: findings, summary, over, s)
  end.

Fixpoint isolate_workers (workers : list WorkerReport) (summary : IsolationSummary) (s : S) :
    list WorkerReport * IsolationSummary * S :=
  match workers with
  | [] => ([], summary, s)
  | worker :: workers =>
      match work worker with
      | None =>
          let '(workers, summary, s) := isolate_workers workers summary s in (worker :: workers, summary, s)
      | Some w =>
          let '(found, summary, over, s) := isolate_worker w 0 (findings worker) summary (use_work w s) in
          let worker := {| work := work worker; findings := found |} in
          if over then (worker :: workers, summary, s) else
          let '(workers, summary, s) := isolate_workers workers summary s in (worker :: workers, summary, s)
      end
  end.

Definition isolate_findings (workers : list WorkerReport) (s : S) : list WorkerReport * IsolationSummary * S :=
  isolate_workers workers {| isolated := 0; child_exit := None |} s.

End Isolate.

(** ** What the ladder's answers rest on *)

(** The outcome of a rung that was run. *)
Definition outcome_at (r : Rung) (steps : list Step) : option RerunOutcome :=
  outcome ∘ snd <$> list_find (λ step, rung (request step) = r) steps.

(** The outcome with one thread: of the first rung when the original ran one. *)
Definition outcome_alone (placement : Placement) (steps : list Step) : option RerunOutcome :=
  if placement_threads placement =? 1 then outcome_at kSameCore steps else outcome_at kSingleThread steps.

(** The request each rung makes. *)
Definition request_of (placement : Placement) (r : Rung) : option RerunRequest :=
  match r with
  | kSameCore => Some {| rung := r; request_cpu := placement_cpu placement; request_threads := placement_threads placement |}
  | kOtherCore =>
      first ← head (placement_others placement);
      Some {| rung := r; request_cpu := first; request_threads := placement_threads placement |}
  | kSingleThread => Some {| rung := r; request_cpu := placement_cpu placement; request_threads := 1 |}
  end.

(** The rungs a ladder may have climbed. *)
Definition ladders : list (list Rung) :=
  [[kSameCore]; [kSameCore; kOtherCore]; [kSameCore; kSingleThread]; [kSameCore; kOtherCore; kSingleThread]].

Definition evidence (placement : Placement) (steps : list Step) (finding : Finding) : Prop :=
  let reproduced := outcome_at kSameCore steps = Some kReproduced in
  let alone := outcome_alone placement steps in
  match finding with
  | kNonReproducibleTransient => outcome_at kSameCore steps = Some kClean
  | kConcurrencyDependent => reproduced ∧ alone = Some kClean
  | kCoreLocal => reproduced ∧ alone = Some kReproduced ∧ outcome_at kOtherCore steps = Some kClean
  | kNotCoreLocal => reproduced ∧ alone = Some kReproduced ∧ outcome_at kOtherCore steps = Some kReproduced
  | kReproducibleUnlocated =>
      reproduced ∧ alone = Some kReproduced
      ∧ (placement_others placement = [] ∨ outcome_at kOtherCore steps = Some kNotPerformed)
  | kInconclusive =>
      outcome_at kSameCore steps = Some kNotPerformed ∨ reproduced ∧ alone = Some kNotPerformed
  end.

(** The answer of a rung, unknown when it was not climbed. *)
Definition answered (outcome : option RerunOutcome) : Answer := from_option answer_of kUnknown outcome.

(** What the ladder shows of its steps and its finding. *)
Definition grounded (placement : Placement) (report : IsolationReport) : Prop :=
  evidence placement (report_steps report) (report_finding report)
  ∧ rung ∘ request <$> report_steps report ∈ ladders
  ∧ (∀ step, step ∈ report_steps report → request_of placement (rung (request step)) = Some (request step))
  ∧ report_answers report =
      {| same_core := answered (outcome_at kSameCore (report_steps report));
         other_core := answered (outcome_at kOtherCore (report_steps report));
         single_thread := answered (outcome_alone placement (report_steps report)) |}
  ∧ report_confidence report = confidence_of (report_finding report).

(** Closes a case of the ladder whose outcomes are known. *)
Ltac ladder_case E :=
  unfold grounded, answered, evidence, outcome_alone, outcome_at, derive_finding; cbn; rewrite ?E; cbn;
  repeat (progress (rewrite ?decide_True, ?bool_decide_true by done; rewrite ?decide_False, ?bool_decide_false by done; cbn));
  split; [by auto 6|]; split; [unfold ladders; rewrite !elem_of_cons; by auto 6|]; split; [|split; done];
  intros step; rewrite !elem_of_cons; intros Hin; destruct_or!; subst; try done; by apply not_elem_of_nil in Hin.

Lemma isolate_grounded {S} `{Rerunner S} finding placement s : grounded placement (isolate finding placement s).1.
Proof.
  destruct placement as [cpu threads others]. unfold isolate, climb. cbn [placement_threads placement_cpu placement_others].
  destruct (rerun finding {| rung := kSameCore; request_cpu := cpu; request_threads := threads |} s) as [[] s1];
    destruct (threads =? 1) eqn:E1; cbn [answer_of].
  3-6: rewrite bool_decide_false by done; ladder_case E1.
  all: rewrite bool_decide_true by done; cbn [negb]; destruct others as [|first others].
  - ladder_case E1.
  - destruct (rerun _ _ s1) as [[] s2]; ladder_case E1.
  - destruct (rerun _ _ s1) as [[] s2]; ladder_case E1.
  - destruct (rerun _ _ s1) as [o2 s2]. destruct (rerun _ _ s2) as [o3 s3]. destruct o2, o3; ladder_case E1.
Qed.

(** ** The other cores *)

#[export] Instance rank_le_total : Total rank_le.
Proof. intros [[[a1 b1] c1] d1] [[[a2 b2] c2] d2]. unfold rank_le. lia. Qed.

#[export] Instance rank_le_trans : Transitive rank_le.
Proof. intros [[[a1 b1] c1] d1] [[[a2 b2] c2] d2] [[[a3 b3] c3] d3]. unfold rank_le. lia. Qed.

(** A CPU of the snapshot ranks no later than another for the ladder. *)
Definition as_near (machine : Snapshot) (origin : LogicalCpu) (one other : Z) : Prop :=
  ∀ a b, a ∈ cpus machine → b ∈ cpus machine → id a = one → id b = other →
  rank_le (rank_of machine (id origin) origin a) (rank_of machine (id origin) origin b).

Lemma ranked_spec machine origin r :
  r ∈ ranked machine (id origin) origin ↔
  ∃ c, c ∈ cpus machine ∧ key (core c) ≠ key (core origin) ∧ r = rank_of machine (id origin) origin c.
Proof.
  unfold ranked. rewrite merge_sort_Permutation, list_elem_of_fmap. setoid_rewrite list_elem_of_filter. naive_solver.
Qed.

Lemma other_cores_elem machine origin n :
  consistent (cpus machine) → origin ∈ cpus machine →
  n ∈ other_cores machine (id origin) ↔ ∃ c, c ∈ cpus machine ∧ id c = n ∧ core c ≠ core origin.
Proof.
  intros Hcon Ho. unfold other_cores. rewrite (proj2 (find_cpu_spec _ _ origin (ids_ascend _ Hcon))) by done.
  rewrite list_elem_of_fmap. setoid_rewrite ranked_spec. split.
  - intros (r & -> & c & Hc & Hk & ->). exists c. split_and!; [done|done|]. intros E. by rewrite E in Hk.
  - intros (c & Hc & <- & Hne). eexists. split; [|exists c; split_and!; [done| |done]]; [done|].
    intros E. destruct Hne. apply key_inj; [| |done]; by apply (addresses_bounded _ Hcon).
Qed.

Lemma other_cores_sorted machine origin :
  consistent (cpus machine) → origin ∈ cpus machine →
  StronglySorted (as_near machine origin) (other_cores machine (id origin)).
Proof.
  intros Hcon Ho. unfold other_cores. rewrite (proj2 (find_cpu_spec _ _ origin (ids_ascend _ Hcon))) by done.
  apply (StronglySorted_fmap_rel rank_le).
  - intros x y Hx%ranked_spec Hy%ranked_spec Hle a b Ha Hb Ea Eb.
    destruct Hx as (c & Hc & _ & ->), Hy as (d & Hd & _ & ->). cbn in Ea, Eb.
    apply (same_cpu _ _ _ (ids_ascend _ Hcon)) in Ea as ->; [|done..].
    by apply (same_cpu _ _ _ (ids_ascend _ Hcon)) in Eb as ->.
  - apply Sorted_StronglySorted; [apply _|]. apply Sorted_merge_sort. apply _.
Qed.

Lemma other_cores_nodup machine origin :
  consistent (cpus machine) → origin ∈ cpus machine → NoDup (other_cores machine (id origin)).
Proof.
  intros Hcon Ho. unfold other_cores. rewrite (proj2 (find_cpu_spec _ _ origin (ids_ascend _ Hcon))) by done.
  unfold ranked. rewrite merge_sort_Permutation, <- list_fmap_compose. cbn.
  assert (NoDup (id <$> filter (λ c, key (core c) ≠ key (core origin)) (cpus machine))) as Hnd.
  { pose proof (ascending_nodup _ (ids_ascend _ Hcon)) as Hall. apply NoDup_fmap_2_strong.
    - intros x y Hx Hy. apply list_elem_of_filter in Hx as [_ Hx], Hy as [_ Hy]. by apply (same_cpu _ _ _ (ids_ascend _ Hcon)).
    - apply NoDup_filter. by eapply NoDup_fmap_1. }
  exact Hnd.
Qed.

(** ** The findings of a run *)

Section Findings.
Context {S : Type} `{ChildAware S} (machine : option Snapshot) (limit : Z).

(** What may become of a finding: a report of the ladder, or a reason there is none. *)
Definition treated (w : WorkerWork) (before after : FindingReport) : Prop :=
  record after = record before
  ∧ ((∃ wrong cpu m s, as_wrong_result (record before) = Some wrong
      ∧ logical_cpu (provenance_of (record before)) = Some cpu ∧ machine = Some m
      ∧ isolation after = Some (isolate wrong (placement_for m cpu (work_threads w)) s).1
      ∧ not_isolated after = not_isolated before)
     ∨ (isolation after = isolation before ∧ not_isolated after ≠ [])).

Lemma isolate_one_treated w here finding s after made s' :
  isolate_one machine limit w here finding s = (after, made, s') →
  treated w finding after ∧ (made = true → here < limit ∧ is_Some (isolation after))
  ∧ (made = false → isolation after = isolation finding).
Proof.
  unfold isolate_one, treated. destruct (as_wrong_result (record finding)) as [wrong|] eqn:Ew; [|intros [= <- <- <-]; cbn; split_and!; try done; by right].
  destruct (Z.leb_spec limit here); [intros [= <- <- <-]; cbn; split_and!; try done; by right|].
  destruct (logical_cpu _) as [cpu|] eqn:Ec; [|intros [= <- <- <-]; cbn; split_and!; try done; by right].
  destruct machine as [m|]; [|intros [= <- <- <-]; cbn; split_and!; try done; by right].
  destruct (isolate wrong _ s) as [report s1] eqn:Ei. intros [= <- <- <-]. cbn. split_and!; [done| |done|done].
  left. exists wrong, cpu, m, s. rewrite Ei. done.
Qed.

(** How many findings have a report. *)
Definition isolations (l : list FindingReport) : Z := census (λ f, bool_decide (is_Some (isolation f))) l.

Lemma isolate_worker_treated w here l summary s l' summary' over s' :
  isolate_worker machine limit w here l summary s = (l', summary', over, s') →
  Forall (λ f, isolation f = None) l →
  record <$> l' = record <$> l
  ∧ isolated summary' = isolated summary + isolations l'
  ∧ (here ≤ limit → here + isolations l' ≤ limit)
  ∧ (over = false → Forall2 (treated w) l l' ∧ child_exit summary' = child_exit summary)
  ∧ (over = true → is_Some (child_exit summary'))
  ∧ ∀ f', f' ∈ l' → is_Some (isolation f') → ∃ f, f ∈ l ∧ treated w f f'.
Proof.
  revert here l' summary s. induction l as [|f l IH]; intros here l' summary s; cbn [isolate_worker].
  - intros [= <- <- <- <-] _. unfold isolations, census. cbn. split_and!; try done; try lia. by intros f' ?%not_elem_of_nil.
  - destruct (isolate_one _ _ w here f s) as [[after made] s1] eqn:E1. intros E Hnone.
    apply Forall_cons in Hnone as [Hf Hl]. apply isolate_one_treated in E1 as (Ht & Hm & Hn).
    assert (record after = record f) as Hrec by apply Ht. destruct made.
    + destruct (Hm eq_refl) as [Hlim Hsome]. destruct (child_exit_code s1) as [code|].
      * injection E as <- <- <- <-. unfold isolations. rewrite census_cons.
        rewrite (census_none _ l) by (intros i x Hx; rewrite Forall_lookup in Hl; rewrite (Hl i x Hx); done).
        rewrite bool_decide_true by done. cbn. rewrite Hrec. split_and!; try done; try lia. intros f' Hin Hs. apply elem_of_cons in Hin as [->|Hin].
        -- exists f. split; [by left|done].
        -- rewrite Forall_forall in Hl. rewrite (Hl f' Hin) in Hs. by destruct Hs.
      * destruct (isolate_worker _ _ w (here + 1) l _ s1) as [[[l1 summary1] over1] s2] eqn:E2.
        injection E as <- <- <- <-. apply IH in E2 as (Hr & Hi & Hle & Hover & Hstop & Hwho); [|done].
        unfold isolations in *. rewrite census_cons, bool_decide_true by done. cbn [one isolated child_exit] in *.
        split_and!; [by cbn; rewrite Hrec, Hr|lia|lia| |done|].
        -- intros Ho. destruct (Hover Ho). split; [by constructor|done].
        -- intros f' [->|Hin]%elem_of_cons Hs; [exists f; split; [by left|done]|]. destruct (Hwho f' Hin Hs) as (f0 & ? & ?).
           exists f0. split; [by right|done].
    + destruct (isolate_worker _ _ w here l _ s1) as [[[l1 summary1] over1] s2] eqn:E2.
      injection E as <- <- <- <-. apply IH in E2 as (Hr & Hi & Hle & Hover & Hstop & Hwho); [|done].
      assert (isolation after = None) as Hno by (by rewrite Hn).
      unfold isolations in *. rewrite census_cons, bool_decide_false by (rewrite Hno; by intros []). cbn [one].
      split_and!; [by cbn; rewrite Hrec, Hr|lia|lia| |done|].
      * intros Ho. destruct (Hover Ho). split; [by constructor|done].
      * intros f' [->|Hin]%elem_of_cons Hs; [rewrite Hno in Hs; by destruct Hs|]. destruct (Hwho f' Hin Hs) as (f0 & ? & ?).
        exists f0. split; [by right|done].
Qed.

(** What becomes of one worker. *)
Definition worker_treated (before after : WorkerReport) : Prop :=
  match work before with
  | None => findings after = findings before
  | Some w => Forall2 (treated w) (findings before) (findings after)
  end.

Lemma isolate_workers_treated workers summary s workers' summary' s' :
  isolate_workers machine limit workers summary s = (workers', summary', s') →
  0 ≤ limit → Forall (λ w, Forall (λ f, isolation f = None) (findings w)) workers →
  work <$> workers' = work <$> workers
  ∧ (λ w, record <$> findings w) <$> workers' = (λ w, record <$> findings w) <$> workers
  ∧ isolated summary' = isolated summary + sum ((λ w, isolations (findings w)) <$> workers')
  ∧ Forall (λ w, isolations (findings w) ≤ limit) workers'
  ∧ (child_exit summary' = None → Forall2 worker_treated workers workers')
  ∧ ∀ w' f', w' ∈ workers' → f' ∈ findings w' → is_Some (isolation f') →
      ∃ w k f, w ∈ workers ∧ work w' = Some k ∧ f ∈ findings w ∧ treated k f f'.
Proof.
  intros E Hlimit. revert workers' summary s E. induction workers as [|w workers IH]; intros workers' summary s; cbn [isolate_workers].
  - intros [= <- <- <-] _. cbn. split_and!; try done; try lia. by intros w' f' ?%not_elem_of_nil.
  - assert (∀ l, Forall (λ f, isolation f = None) l → isolations l = 0) as Hzero.
    { intros l Hl. apply census_none. intros i x Hx. rewrite Forall_lookup in Hl. by rewrite (Hl i x Hx). }
    intros E [Hw Hrest]%Forall_cons. destruct (work w) as [k|] eqn:Ek.
    + destruct (isolate_worker _ _ k 0 (findings w) summary _) as [[[found summary1] over] s1] eqn:E1.
      apply isolate_worker_treated in E1 as (Hr & Hi & Hle & Hover & Hstop & Hwho); [|done].
      assert (∀ f', f' ∈ found → is_Some (isolation f') → ∃ w0 k0 f, w0 ∈ w :: workers ∧ Some k = Some k0 ∧ f ∈ findings w0 ∧ treated k0 f f') as Hmine.
      { intros f' Hf Hs. destruct (Hwho f' Hf Hs) as (f & ? & ?). exists w, k, f. split_and!; try done. by left. }
      destruct over.
      * injection E as <- <- <-. cbn. rewrite Ek, Hr. split_and!; try done.
        -- rewrite (sum_zero workers) by (intros x Hx; apply Hzero; by rewrite Forall_forall in Hrest; apply Hrest). cbn [sum foldr]. lia.
        -- constructor; [cbn; lia|]. apply Forall_forall. intros x Hx. rewrite Hzero; [done|]. rewrite Forall_forall in Hrest. by apply Hrest.
        -- intros Hnone. destruct (Hstop eq_refl) as [c Hc]. congruence.
        -- intros w' f' [->|Hin]%elem_of_cons Hf Hs; [by apply Hmine|]. rewrite Forall_forall in Hrest.
           specialize (Hrest w' Hin). rewrite Forall_forall in Hrest. rewrite (Hrest f' Hf) in Hs. by destruct Hs.
      * destruct (isolate_workers _ _ workers summary1 s1) as [[workers1 summary2] s2] eqn:E2. injection E as <- <- <-.
        apply IH in E2 as (H1 & H2 & H3 & H4 & H5 & H6); [|done]. destruct (Hover eq_refl) as [Hf2 Hc].
        cbn [fmap list_fmap work findings]. rewrite sum_cons, Ek, H1, H2, Hr. split_and!; try done; try lia.
        -- constructor; [cbn; lia|done].
        -- intros Hnone. constructor; [|by apply H5]. unfold worker_treated. rewrite Ek. done.
        -- intros w' f' [->|Hin]%elem_of_cons Hf Hs; [by apply Hmine|]. destruct (H6 w' f' Hin Hf Hs) as (w0 & k0 & f & ? & ?).
           exists w0, k0, f. split; [by right|done].
    + destruct (isolate_workers _ _ workers summary s) as [[workers1 summary2] s2] eqn:E2. injection E as <- <- <-.
      apply IH in E2 as (H1 & H2 & H3 & H4 & H5 & H6); [|done]. cbn [fmap list_fmap]. rewrite sum_cons, H1, H2, (Hzero _ Hw).
      split_and!; try done; try lia.
      * constructor; [rewrite (Hzero _ Hw); done|done].
      * intros Hnone. constructor; [|by apply H5]. unfold worker_treated. by rewrite Ek.
      * intros w' f' [->|Hin]%elem_of_cons Hf Hs.
        -- rewrite Forall_forall in Hw. rewrite (Hw f' Hf) in Hs. by destruct Hs.
        -- destruct (H6 w' f' Hin Hf Hs) as (w0 & k0 & f & ? & ?). exists w0, k0, f. split; [by right|done].
Qed.

End Findings.

(** ** Properties *)

(** The cores the ladder may move a unit to are every online CPU of another physical
    core and no thread sibling of the original's, once each, the nearest first: the same
    node, then the lowest shared cache, then a core of the same shape, then the id. *)
Theorem other_cores_nearest machine origin :
  consistent (cpus machine) → origin ∈ cpus machine →
  let order := other_cores machine (id origin) in
  (∀ n, n ∈ order ↔ ∃ c, c ∈ cpus machine ∧ id c = n ∧ core c ≠ core origin)
  ∧ (∀ n, n ∈ order → n ∉ thread_siblings origin)
  ∧ NoDup order ∧ StronglySorted (as_near machine origin) order.
Proof.
  intros Hcon Ho order. split; [intros n; by apply other_cores_elem|]. split; [|split; [by apply other_cores_nodup|by apply other_cores_sorted]].
  intros n (c & Hc & <- & Hne)%other_cores_elem Hsib; [|done..]. destruct Hne. by apply (siblings_same_core (cpus machine)).
Qed.

(** An isolation of a run's findings accounts for each: the records stand as they were;
    the summary counts the reports made, at most the limit for each worker; and, unless the
    process is a child that must exit, each finding of a worker that ran something has a
    report of the ladder for its own wrong result on its own CPU, or says why not. *)
Theorem isolation_accounts {S} `{ChildAware S} machine limit workers (s : S) workers' summary s' :
  isolate_findings machine limit workers s = (workers', summary, s') →
  0 ≤ limit → Forall (λ w, Forall (λ f, isolation f = None) (findings w)) workers →
  (λ w, record <$> findings w) <$> workers' = (λ w, record <$> findings w) <$> workers
  ∧ isolated summary = sum ((λ w, isolations (findings w)) <$> workers')
  ∧ Forall (λ w, isolations (findings w) ≤ limit) workers'
  ∧ (child_exit summary = None → Forall2 (worker_treated machine) workers workers').
Proof.
  intros E Hlimit Hnone. destruct (isolate_workers_treated machine limit _ _ _ _ _ _ E Hlimit Hnone) as (_ & H1 & H2 & H3 & H4 & _).
  cbn in H2. done.
Qed.

(** C26: a report attached to a finding is of a wrong result and states only what its
    re-runs showed: its finding is the one its evidence supports, its steps are the
    ladder's requests on the record's own CPU, and the re-run on another core was on a
    core that shares nothing of the suspected one. *)
Theorem isolated_findings_grounded {S} `{ChildAware S} machine limit workers (s : S) workers' summary s' worker finding report :
  isolate_findings (Some machine) limit workers s = (workers', summary, s') →
  0 ≤ limit → Forall (λ w, Forall (λ f, isolation f = None) (findings w)) workers →
  consistent (cpus machine) →
  worker ∈ workers' → finding ∈ findings worker → isolation finding = Some report →
  is_Some (as_wrong_result (record finding))
  ∧ ∃ cpu w, logical_cpu (provenance_of (record finding)) = Some cpu ∧ work worker = Some w
    ∧ grounded (placement_for machine cpu (work_threads w)) report
    ∧ ∀ step origin, step ∈ report_steps report → rung (request step) = kOtherCore →
        origin ∈ cpus machine → id origin = cpu → request_cpu (request step) ∉ thread_siblings origin.
Proof.
  intros E Hlimit Hnone Hcon Hw Hf Hr.
  destruct (isolate_workers_treated (Some machine) limit _ _ _ _ _ _ E Hlimit Hnone) as (_ & _ & _ & _ & _ & Hwho).
  destruct (Hwho worker finding Hw Hf) as (w & k & f & Hin & Hk & Hff & Hrec & Ht); [by eexists|].
  destruct Ht as [(wrong & cpu & m & s0 & Hwr & Hcpu & [= <-] & Hiso & _)|[Hiso _]].
  2:{ rewrite Forall_forall in Hnone. specialize (Hnone w Hin). rewrite Forall_forall in Hnone. rewrite (Hnone f Hff) in Hiso. congruence. }
  rewrite Hrec. split; [by eexists|]. exists cpu, k. split; [done|]. split; [done|].
  rewrite Hr in Hiso. injection Hiso as ->. pose proof (isolate_grounded wrong (placement_for machine cpu (work_threads k)) s0) as Hg.
  split; [done|]. intros step origin Hstep Hrung Ho <-. destruct Hg as (_ & _ & Hreq & _). specialize (Hreq step Hstep).
  unfold request_of in Hreq. rewrite Hrung in Hreq. cbn [placement_for placement_others] in Hreq.
  destruct (other_cores machine (id origin)) as [|first rest] eqn:Eo; [done|]. injection Hreq as <-. cbn [request_cpu].
  intros Hsib. assert (first ∈ other_cores machine (id origin)) as Hfirst by (rewrite Eo; by left).
  apply other_cores_elem in Hfirst as (c & Hc & <- & Hne); [|done..]. destruct Hne. by apply (siblings_same_core (cpus machine)).
Qed.

(** ** Witnesses *)

(** A re-runner that answers from a script. *)
#[local] Instance script_rerunner : Rerunner (list RerunOutcome) :=
  {| rerun := λ _ _ script, match script with [] => (kNotPerformed, []) | outcome :: script => (outcome, script) end |}.
#[local] Instance script_aware : ChildAware (list RerunOutcome) :=
  {| use_work := λ _ script, script; child_exit_code := λ _, None |}.

Definition sample_snapshot : Snapshot :=
  {| cpus := sample_cpus; caches := []; numa := [{| node_id := 0; node_cpus := [0; 1; 2; 3]; memory_bytes := 0; distances := [10] |}] |}.

Definition sample_where (cpu : option Z) : Provenance :=
  {| logical_cpu := cpu; physical_package := None; physical_core := None; numa_node := None; buffer_address := None;
     buffer_offset := None; iteration := None; prov_workload := None; workload_version := None; seed := None; isa := None;
     input_integrity := None; duty := None; decomposition := None; footprint_bytes := None |}.

Definition sample_finding (record : ErrorRecord) : FindingReport := {| record := record; isolation := None; not_isolated := [] |}.
Definition sample_wrong (cpu : option Z) : ErrorRecord :=
  Numerically {| numerical_provenance := sample_where cpu; numerical_check := lit "energy"; residual := 1; tolerance := 0;
                 condition_number := None; element := None |}.

(** A wrong result on CPU 1, one of several CPUs and a check not made. *)
Definition sample_workers : list WorkerReport :=
  [{| work := Some {| work_name := lit "fft"; work_threads := 1; work_line_bytes := 64; work_lock := kTry |};
      findings := [sample_finding (sample_wrong (Some 1)); sample_finding (sample_wrong None);
                   sample_finding (NotPerformed {| not_performed_provenance := sample_where None; what := lit "unit"; why := lit "late"; blocks_compared := 0 |})] |}].

Definition sample_isolation : list WorkerReport * IsolationSummary * list RerunOutcome :=
  isolate_findings (Some sample_snapshot) 16 sample_workers [kReproduced; kClean].

Lemma other_cores_nearest_witness :
  consistent sample_cpus ∧ other_cores sample_snapshot 1 = [2; 3]
  ∧ StronglySorted (as_near sample_snapshot (sample_cpu 1 0 [0; 1])) (other_cores sample_snapshot 1).
Proof.
  split; [exact sample_cpus_consistent|]. split; [vm_compute; reflexivity|].
  apply (other_cores_nearest sample_snapshot (sample_cpu 1 0 [0; 1])); [exact sample_cpus_consistent|].
  right. left.
Defined.

Lemma isolation_accounts_witness :
  isolated (snd (fst sample_isolation)) = 1
  ∧ Forall2 (worker_treated (Some sample_snapshot)) sample_workers (fst (fst sample_isolation)).
Proof.
  split; [vm_compute; reflexivity|].
  refine (proj2 (proj2 (proj2 (isolation_accounts (Some sample_snapshot) 16 sample_workers [kReproduced; kClean] _ _ _ _ _ _))) _).
  - vm_compute. reflexivity.
  - lia.
  - repeat constructor.
  - vm_compute. reflexivity.
Defined.

Lemma isolated_findings_grounded_witness :
  ∃ worker finding report,
    isolation finding = Some report ∧ report_finding report = kCoreLocal ∧ finding ∈ findings worker
    ∧ is_Some (as_wrong_result (record finding)).
Proof.
  destruct (fst (fst sample_isolation)) as [|worker rest] eqn:E; [vm_compute in E; discriminate E|].
  destruct (findings worker) as [|finding others] eqn:Ef; [vm_compute in E; injection E as <- _; discriminate Ef|].
  destruct (isolation finding) as [report|] eqn:Er;
    [|vm_compute in E; injection E as <- _; injection Ef as <- _; discriminate Er].
  exists worker, finding, report. split; [exact Er|]. split; [vm_compute in E; injection E as <- _; injection Ef as <- _; injection Er as <-; reflexivity|].
  split; [rewrite Ef; left|].
  refine (proj1 (isolated_findings_grounded sample_snapshot 16 sample_workers [kReproduced; kClean]
    (fst (fst sample_isolation)) (snd (fst sample_isolation)) (snd sample_isolation) worker finding report _ _ _ _ _ _ _)).
  - vm_compute. reflexivity.
  - lia.
  - repeat constructor.
  - exact sample_cpus_consistent.
  - rewrite E. left.
  - rewrite Ef. left.
  - exact Er.
Defined.
