(* ===== verification/Dispatch.v ===== *)
(** * primitives/simd: which instruction-set path a workload runs on

    The sets of paths of primitives/simd/dispatch.hpp and the choice of one
    (primitives/simd/select_path.cpp). The paths a build was compiled with are decided by
    its preprocessor, and so are an argument. *)

From S2P Require Export WorkerArgs.

(** ** dispatch.hpp *)

(** [IsaSet]: the bits of a byte. *)
Definition IsaSet : Type := Z.

Definition isa_number (path : IsaPath) : Z :=
  match path with kScalar => 0 | kAvx2 => 1 | kAvx512 => 2 | kNeon => 3 end.

Definition isa_bit (path : IsaPath) : Z := Z.shiftl 1 (isa_number path).

Definition isa_set (paths : list IsaPath) : IsaSet := foldl (λ bits path, Z.lor bits (isa_bit path)) 0 paths.

Definition isa_contains (set : IsaSet) (path : IsaPath) : bool := negb (Z.land set (isa_bit path) =? 0).

Definition isa_intersect (set other : IsaSet) : IsaSet := Z.land set other.

Definition kPreference : list IsaPath := [kAvx512; kAvx2; kNeon; kScalar].

Inductive DispatchFault := kNotCompiled | kNotSupported.

Record DispatchError := { dispatch_fault : DispatchFault; dispatch_requested : IsaPath; dispatch_detail : text }.

(** ** select_path.cpp *)

Definition list_paths (set : IsaSet) : text :=
  let listed := foldl (λ listed path,
    if isa_contains set path
    then listed ++ (if bool_decide (listed = []) then [] else lit ", ") ++ describe_isa_path path
    else listed) [] kPreference in
  if bool_decide (listed = []) then lit "none" else listed.

(** The loop over [kPreference]. *)
Definition preferred (usable : IsaSet) : IsaPath :=
  from_option snd kScalar (list_find (λ path, isa_contains usable path = true) kPreference).

Definition select_path (requested : option IsaPath) (supported compiled : IsaSet) : Result IsaPath DispatchError :=
  match requested with
  | Some path =>
      if bool_decide (path = kScalar) then Value path else
      if negb (isa_contains compiled path) then
        Error {| dispatch_fault := kNotCompiled; dispatch_requested := path;
                 dispatch_detail := describe_isa_path path
                   ++ lit " was requested but this build holds no kernels for it (compiled: "
                   ++ list_paths compiled ++ lit ")" |}
      else if negb (isa_contains supported path) then
        Error {| dispatch_fault := kNotSupported; dispatch_requested := path;
                 dispatch_detail := describe_isa_path path
                   ++ lit " was requested but this machine cannot run it (supported: "
                   ++ list_paths supported ++ lit ")" |}
      else Value path
  | None => Value (preferred (isa_intersect supported compiled))
  end.

(** ** What is chosen *)

(** A path may be run: the scalar one always, another where the machine has it and the
    build holds it. *)
Definition runs_on (supported compiled : IsaSet) (path : IsaPath) : Prop :=
  path = kScalar ∨ isa_contains supported path = true ∧ isa_contains compiled path = true.

Lemma isa_contains_bit set path : isa_contains set path = Z.testbit set (isa_number path).
Proof.
  unfold isa_contains, isa_bit. assert (0 ≤ isa_number path) as Hn by (by destruct path).
  destruct (Z.testbit set (isa_number path)) eqn:E.
  - apply negb_true_iff, Z.eqb_neq. intros H0. apply (f_equal (λ z, Z.testbit z (isa_number path))) in H0.
    rewrite Z.land_spec, E, Z.shiftl_spec, Z.sub_diag, Z.bits_0 in H0 by done. done.
  - apply negb_false_iff, Z.eqb_eq, Z.bits_inj'. intros n Hn'. rewrite Z.bits_0, Z.land_spec.
    destruct (decide (n = isa_number path)) as [->|Hne]; [by rewrite E|].
    rewrite Z.shiftl_1_l, Z.pow2_bits_false by lia. apply andb_false_r.
Qed.

Lemma isa_contains_intersect set other path :
  isa_contains (isa_intersect set other) path = isa_contains set path && isa_contains other path.
Proof. by rewrite !isa_contains_bit, <- Z.land_spec. Qed.

(** A requested path is answered exactly when it may be run; unasked, the choice is the
    first of the preference that may, and there is always one. *)
Lemma select_requested path supported compiled chosen :
  select_path (Some path) supported compiled = Value chosen ↔ chosen = path ∧ runs_on supported compiled path.
Proof.
  unfold select_path, runs_on. case_bool_decide; [naive_solver|].
  destruct (isa_contains compiled path), (isa_contains supported path); naive_solver.
Qed.

Lemma select_unasked supported compiled :
  ∃ chosen, select_path None supported compiled = Value chosen ∧ runs_on supported compiled chosen.
Proof.
  eexists. split; [reflexivity|]. unfold preferred, runs_on.
  destruct (list_find _ _) as [[n path]|] eqn:E; cbn; [|by left]. right.
  apply list_find_Some in E as (_ & H & _). rewrite isa_contains_intersect in H. by apply andb_true_iff in H.
Qed.
