(* ===== verification/Registry.v ===== *)
(** * workloads: what describes a workload, and the registry of them

    workloads/workload.hpp (a descriptor, a configuration, why a workload is refused, and
    the interface of a registry) and workloads/registry/registry.cpp, the registry of the
    workloads of this build. *)

From S2P Require Export Oracle Dispatch.

(** ** workload.hpp *)

Inductive DeterminismClass := kBitExact | kBitExactFixedDecomposition | kBoundedResidual.

Record Descriptor := {
  desc_name : text;
  desc_version : Z;
  desc_determinism : DeterminismClass;
  desc_contract : Contract;
  desc_paths : IsaSet;
}.

Record WorkloadConfig := {
  config_seed : Z;
  config_footprint_bytes : Z;
  config_decomposition : Z;
  config_isa : IsaPath;
}.

Inductive WorkloadFault := kUnknownWorkload | kWorkloadConfiguration | kFootprintTooSmall.

Definition describe_workload_fault (fault : WorkloadFault) : text :=
  match fault with
  | kUnknownWorkload => lit "unknown workload"
  | kWorkloadConfiguration => lit "configuration outside the workload's domain"
  | kFootprintTooSmall => lit "footprint too small for one unit"
  end.

Record WorkloadError := { workload_fault : WorkloadFault; workload_detail : text }.

(** The interface [Registry]; its workloads are [W]. *)
Record Registry (W : Type) := {
  registry_names : list text;
  registry_create : text → WorkloadConfig → Result W WorkloadError;
  registry_descriptor : text → Result Descriptor WorkloadError;
}.
Arguments registry_names {W} _.
Arguments registry_create {W} _.
Arguments registry_descriptor {W} _.

(** ** registry.cpp *)

(** [Entry]: a name, a factory and a describer. *)
Record RegistryEntry (W : Type) := {
  entry_name : text;
  entry_create : WorkloadConfig → Result W WorkloadError;
  entry_describe : Descriptor;
}.
Arguments entry_name {W} _.
Arguments entry_create {W} _.
Arguments entry_describe {W} _.

(** The names of [kEntries], each workload's [kName], in the order of the table. *)
Definition kEntryNames : list text :=
  [ lit "adaptive_mesh"; lit "compression"; lit "dense_linear"; lit "fft"; lit "graph"; lit "monte_carlo";
    lit "particles"; lit "raytrace"; lit "sort"; lit "sparse"; lit "stencil" ].

(** [kEntries], whose factories and describers are the workloads' own. *)
Definition kEntries {W} (create : text → WorkloadConfig → Result W WorkloadError) (describe : text → Descriptor) :
    list (RegistryEntry W) :=
  (λ name, {| entry_name := name; entry_create := create name; entry_describe := describe name |}) <$> kEntryNames.

Definition unknown_workload (name : text) : WorkloadError :=
  {| workload_fault := kUnknownWorkload; workload_detail := lit "no workload named '" ++ name ++ lit "'" |}.

Section BuiltinRegistry.
Context {W : Type} (entries : list (RegistryEntry W)).

Definition find_entry (name : text) : option (RegistryEntry W) :=
  snd <$> list_find (λ entry, entry_name entry = name) entries.

Definition builtin_names : list text := entry_name <$> entries.

Definition builtin_create (name : text) (config : WorkloadConfig) : Result W WorkloadError :=
  match find_entry name with
  | None => Error (unknown_workload name)
  | Some found => entry_create found config
  end.

Definition builtin_descriptor (name : text) : Result Descriptor WorkloadError :=
  match find_entry name with
  | None => Error (unknown_workload name)
  | Some found => Value (entry_describe found)
  end.

Definition BuiltinRegistry : Registry W :=
  {| registry_names := builtin_names; registry_create := builtin_create; registry_descriptor := builtin_descriptor |}.

End BuiltinRegistry.

(** A name of the table is made by its own factory. *)
Lemma builtin_of {W} (create : text → WorkloadConfig → Result W WorkloadError) (describe : text → Descriptor) name :
  name ∈ kEntryNames →
  builtin_create (kEntries create describe) name = create name
  ∧ builtin_descriptor (kEntries create describe) name = Value (describe name).
Proof.
  intros Hin.
  assert (find_entry (kEntries create describe) name =
          Some {| entry_name := name; entry_create := create name; entry_describe := describe name |}) as Hf.
  { repeat (apply elem_of_cons in Hin as [->|Hin]; [reflexivity|]). by apply elem_of_nil in Hin. }
  unfold builtin_create, builtin_descriptor. by rewrite Hf.
Qed.

Lemma builtin_unknown {W} (create : text → WorkloadConfig → Result W WorkloadError) (describe : text → Descriptor) name :
  name ∉ kEntryNames →
  (∀ config, builtin_create (kEntries create describe) name config = Error (unknown_workload name))
  ∧ builtin_descriptor (kEntries create describe) name = Error (unknown_workload name).
Proof.
  intros Hin.
  assert (find_entry (kEntries create describe) name = None) as Hf.
  { unfold find_entry. rewrite (proj2 (list_find_None _ _)); [done|].
    apply Forall_forall. intros e He Heq. apply Hin. apply list_elem_of_fmap in He as (n & -> & Hn).
    by rewrite <-Heq. }
  unfold builtin_create, builtin_descriptor. by rewrite Hf.
Qed.
