(* ===== verification/Frames.v ===== *)
(** * worker/frames: the tally and memory frames

    The two frames a worker sends that are neither records nor acknowledgements
    (worker/frames.hpp, worker/frames.cpp). *)

From S2P Require Export Runner.

(** [kErrorRecordFrameType] (verification/record.hpp): the frame of a record. *)
Definition kErrorRecordFrameType : Z := 16.

(** ** frames.hpp *)

Definition kTallyFrameType : Z := 17.
Definition kTallyFormatVersion : Z := 1.
Definition kTallyFrameBytes : Z := 1 + 7 * 8.
Definition kMemoryFrameType : Z := 18.
Definition kMemoryFormatVersion : Z := 1.
Definition kMaxMemoryDetailBytes : Z := 1024.

(** ** frames.cpp *)

Definition counters_of (t : Tally) : list Z :=
  [units_computed t; oracle_checked t; oracle_blocks t; oracle_failed t; oracle_not_performed t;
   integrity_checked t; integrity_failed t].

(** The enumerators of runner.hpp by their numbers. *)
Definition policy_number (policy : LockPolicy) : Z := match policy with kRequire => 0 | kTry => 1 | kNone => 2 end.
Definition policies : list LockPolicy := [kRequire; kTry; kNone].
Definition outcome_number (outcome : LockOutcome) : Z := match outcome with kLocked => 0 | kNotLocked => 1 | kFellBack => 2 end.
Definition outcomes : list LockOutcome := [kLocked; kNotLocked; kFellBack].

Definition encode_memory (lock : MemoryLock) : list byte :=
  [byte_of kMemoryFormatVersion; byte_of (policy_number (lock_policy lock)); byte_of (outcome_number (lock_outcome lock))]
  ++ take (Z.to_nat kMaxMemoryDetailBytes) (lock_detail lock).

Definition decode_memory (bytes : list byte) : Result MemoryLock text :=
  match bytes with
  | version :: policy :: outcome :: detail =>
      if negb (byte_val version =? kMemoryFormatVersion)
      then Error (lit "memory frame: unknown format version " ++ to_dec (byte_val version)) else
      match policies !! Z.to_nat (byte_val policy) with
      | None => Error (lit "memory frame: unknown lock policy " ++ to_dec (byte_val policy))
      | Some policy =>
          match outcomes !! Z.to_nat (byte_val outcome) with
          | None => Error (lit "memory frame: unknown lock outcome " ++ to_dec (byte_val outcome))
          | Some outcome =>
              if kMaxMemoryDetailBytes <? size_of detail
              then Error (lit "memory frame: a detail of " ++ to_dec (size_of detail) ++ lit " bytes, at most "
                          ++ to_dec kMaxMemoryDetailBytes)
              else if negb (size_of detail =? 0) && bool_decide (outcome ≠ kFellBack)
              then Error (lit "memory frame: a detail on an outcome that has none")
              else Value {| lock_policy := policy; lock_outcome := outcome; lock_detail := detail |}
          end
      end
  | _ => Error (lit "memory frame: " ++ to_dec (size_of bytes) ++ lit " byte(s), expected at least " ++ to_dec 3)
  end.

Definition encode_tally (t : Tally) : list byte :=
  byte_of kTallyFormatVersion :: (counters_of t ≫= put_le 8).

(** The cursor over the fields: each takes its eight bytes. *)
Fixpoint counters_from (fields : nat) (bytes : list byte) : list Z :=
  match fields with
  | O => []
  | S fields => get_le (take 8 bytes) :: counters_from fields (drop 8 bytes)
  end.

Definition tally_of (counters : list Z) : Tally :=
  let counter i := nth i counters 0 in
  {| units_computed := counter 0%nat; oracle_checked := counter 1%nat; oracle_blocks := counter 2%nat;
     oracle_failed := counter 3%nat; oracle_not_performed := counter 4%nat;
     integrity_checked := counter 5%nat; integrity_failed := counter 6%nat |}.

Definition decode_tally (bytes : list byte) : Result Tally text :=
  match bytes with
  | version :: counters =>
      if negb (size_of bytes =? kTallyFrameBytes)
      then Error (lit "tally frame: " ++ to_dec (size_of bytes) ++ lit " byte(s), expected " ++ to_dec kTallyFrameBytes)
      else if negb (byte_val version =? kTallyFormatVersion)
      then Error (lit "tally frame: unknown format version " ++ to_dec (byte_val version))
      else Value (tally_of (counters_from 7 counters))
  | [] => Error (lit "tally frame: " ++ to_dec 0 ++ lit " byte(s), expected " ++ to_dec kTallyFrameBytes)
  end.

(** ** What the frames carry *)

(** A tally of 64-bit counters. *)
Definition tally_widths (t : Tally) : Prop := Forall in_u64 (counters_of t).

(** A lock as a runner states it: a detail only where the lock fell back, and no longer
    than a frame carries. *)
Definition lock_stated (lock : MemoryLock) : Prop :=
  size_of (lock_detail lock) ≤ kMaxMemoryDetailBytes ∧ (lock_detail lock = [] ∨ lock_outcome lock = kFellBack).

Lemma length_encode_tally t : length (encode_tally t) = 57%nat.
Proof. unfold encode_tally, counters_of. cbn [length]. cbn [mbind list_bind]. by rewrite !length_app, !length_put_le. Qed.

Lemma counters_from_spec n counters :
  Forall in_u64 counters → length counters = n → counters_from n (counters ≫= put_le 8) = counters.
Proof.
  revert counters. induction n as [|n IH]; intros [|c cs] Hc Hn; try done. apply Forall_cons in Hc as [Hc Hcs].
  rewrite bind_cons. cbn [counters_from]. rewrite take_app_length', drop_app_length' by (by rewrite length_put_le).
  rewrite get_put_le_small by done. f_equal. apply IH; [done|by injection Hn].
Qed.

Lemma bytes_of_counters n bytes :
  length bytes = (8 * n)%nat → counters_from n bytes ≫= put_le 8 = bytes ∧ Forall in_u64 (counters_from n bytes)
                               ∧ length (counters_from n bytes) = n.
Proof.
  revert bytes. induction n as [|n IH]; intros bytes Hn.
  { destruct bytes; [by split_and!|done]. }
  cbn [counters_from]. rewrite bind_cons. destruct (IH (drop 8 bytes)) as (E & Hf & Hl); [rewrite length_drop; lia|].
  rewrite E. assert (length (take 8 bytes) = 8%nat) as Ht by (rewrite length_take; lia). split_and!.
  - rewrite <- Ht at 1. by rewrite put_get_le, take_drop.
  - constructor; [|done]. pose proof (get_le_range (take 8 bytes)) as H. by rewrite Ht in H.
  - cbn. by rewrite Hl.
Qed.

Lemma counters_of_tally counters : length counters = 7%nat → counters_of (tally_of counters) = counters.
Proof. intros H. do 8 (destruct counters as [|? counters]; try done). Qed.

Lemma tally_of_counters t : tally_of (counters_of t) = t.
Proof. by destruct t. Qed.

(** [decode_tally] accepts exactly the encodings of the tallies, and gives each back. *)
Lemma tally_codec bytes t : decode_tally bytes = Value t ↔ tally_widths t ∧ bytes = encode_tally t.
Proof.
  split.
  - destruct bytes as [|version counters]; [done|]. cbn [decode_tally]. destruct (negb _) eqn:E1; [done|].
    destruct (negb (byte_val version =? _)) eqn:E2; [done|]. intros Et. assert (t = tally_of (counters_from 7 counters)) as -> by congruence. clear Et. bool_facts.
    unfold kTallyFrameBytes, size_of in E1. cbn [length] in E1.
    destruct (bytes_of_counters 7 counters) as (E & Hf & Hl); [lia|]. unfold tally_widths, encode_tally.
    rewrite (counters_of_tally _ Hl), E. split; [done|]. f_equal. apply byte_val_inj. rewrite E2. by vm_compute.
  - intros [Hw ->]. unfold encode_tally. cbn [decode_tally].
    change (byte_of kTallyFormatVersion :: _) with (encode_tally t). assert (size_of (encode_tally t) = kTallyFrameBytes) as -> by (unfold size_of; by rewrite length_encode_tally).
    rewrite Z.eqb_refl. cbn [negb]. assert (byte_val (byte_of kTallyFormatVersion) =? kTallyFormatVersion = true) as -> by by vm_compute.
    cbn [negb]. by rewrite counters_from_spec, tally_of_counters.
Qed.

(** [decode_memory] accepts exactly the encodings of the locks a runner states, and gives
    each back. *)
Lemma memory_codec bytes lock : decode_memory bytes = Value lock ↔ lock_stated lock ∧ bytes = encode_memory lock.
Proof.
  unfold lock_stated. split.
  - unfold decode_memory. destruct bytes as [|v [|p [|o detail]]]; try done.
    destruct (negb (byte_val v =? _)) eqn:Ev; [done|]. destruct (policies !! _) as [policy|] eqn:Ep; [|done].
    destruct (outcomes !! _) as [outcome|] eqn:Eo; [|done]. destruct (_ <? _) eqn:Es; [done|].
    destruct (_ && _) eqn:Ed; [done|]. intros [= <-]. cbn [lock_detail lock_outcome]. bool_facts.
    split; [split; [lia|]|].
    + destruct detail as [|c detail]; [by left|right]. apply andb_false_iff in Ed as [Ed|Ed].
      * apply negb_false_iff, Z.eqb_eq in Ed. by cbn in Ed.
      * apply bool_decide_eq_false_1 in Ed. by apply dec_stable.
    + unfold encode_memory. cbn [lock_policy lock_outcome lock_detail].
      assert (∀ b n, byte_val b = n → b = byte_of n) as Hb by (intros b n <-; by rewrite byte_of_val).
      rewrite take_ge by (unfold size_of in *; lia). cbn [app]. f_equal; [by apply Hb|].
      pose proof (byte_val_range p). pose proof (byte_val_range o).
      assert (∀ {A} (l : list A) x b, l !! Z.to_nat (byte_val b) = Some x → (Z.to_nat (byte_val b) < length l)%nat) as Hlt
        by (intros; by eapply lookup_lt_Some).
      pose proof (Hlt _ _ _ _ Ep) as Hp. pose proof (Hlt _ _ _ _ Eo) as Ho. cbn in Hp, Ho.
      f_equal; [|f_equal]; apply Hb.
      * destruct (Z.to_nat (byte_val p)) as [|[|[|]]] eqn:E; cbn in Ep; try lia; injection Ep as <-; cbn; lia.
      * destruct (Z.to_nat (byte_val o)) as [|[|[|]]] eqn:E; cbn in Eo; try lia; injection Eo as <-; cbn; lia.
  - intros [[Hs Hd] ->]. destruct lock as [policy outcome detail]. cbn in Hs, Hd. unfold encode_memory. cbn [app lock_policy lock_outcome lock_detail].
    rewrite take_ge by (unfold size_of in *; lia). unfold decode_memory. rewrite !byte_val_of.
    assert (policies !! Z.to_nat (u8 (policy_number policy)) = Some policy) as -> by (by destruct policy).
    assert (outcomes !! Z.to_nat (u8 (outcome_number outcome)) = Some outcome) as -> by (by destruct outcome).
    cbn [negb]. rewrite (proj2 (Z.ltb_ge _ _)) by done.
    destruct Hd as [-> | ->]; [done|]. rewrite (bool_decide_false (kFellBack ≠ kFellBack)) by (intros H; by apply H). by rewrite andb_false_r.
Qed.
