(* ===== verification/VerifiedRun.v ===== *)
(** * worker/verified_run: the loop over slices

    How a worker is put together ([prepare]), and its run: a tick beats, watches the
    controller, answers its orders and runs a slice, and a Switch or a Rebind replaces the
    runner between two units (worker/verified_run.cpp). What the worker stands on is a
    class: its registries, its threads and the runner itself (verification/runner.hpp).
    [None] is a loop out of fuel, or the use of a runner that was given up. *)

From S2P Require Export ThreadPool MakeRunner Registry Frames.

(** ** oracle.hpp, services.hpp: what a worker stands on *)

Inductive OracleFault := kNoOracle | kOracleConfiguration.

Definition describe_oracle_fault (fault : OracleFault) : text :=
  match fault with
  | kNoOracle => lit "no oracle for that workload"
  | kOracleConfiguration => lit "configuration outside the specification"
  end.

Record OracleError := { oracle_fault : OracleFault; oracle_detail : text }.

Definition describe_runner_fault (fault : RunnerFault) : text :=
  match fault with
  | kConfiguration => lit "runner configuration"
  | kResources => lit "runner resources"
  | kFinished => lit "runner already finished"
  end.

(** [Services]: the registries, the threads, the probe of the machine and the factory of
    runners; and [SliceRunner], whose objects are [R]. The paths compiled in are the
    build's. *)
Class Services (K R : Type) := {
  workloads_create : text → WorkloadConfig → Result (Descriptor * Workload) WorkloadError;
  workloads_descriptor : text → Result Descriptor WorkloadError;
  oracles_create : text → WorkloadConfig → Plan → Result Oracle OracleError;
  isa_supported : IsaSet;
  isa_compiled : IsaSet;
  make_pool : list ThreadPlacement → K → Result unit PoolError * K;
  drop_pool : K → K;
  make_runner : RunnerSetup → K → Result R RunnerError * K;
  drop_runner : R → K → K;
  runner_slice : Z → R → K → Result SliceReport RunnerError * R * K;
  runner_finish : R → K → Result SliceReport RunnerError * R * K;
  runner_total : R → Tally;
  runner_lock : R → MemoryLock;
}.

(** ** The slice's length *)

Definition kNanosecondsPerMillisecond : Z := 1000000.
Definition kTargetDivisor : Z := 2.
Definition kMinTargetNs : Z := kNanosecondsPerMillisecond.
Definition kMaxSliceUnits : Z := Z.shiftl 1 20.

(** [std::clamp]. *)
Definition clamp (v lo hi : Z) : Z := if v <? lo then lo else if hi <? v then hi else v.

Definition u128 (x : Z) : Z := x mod 2 ^ 128.

Definition next_slice_units (last_units took_ns target_ns : Z) : Z :=
  let doubled := Z.min (u64 (Z.min last_units (kMaxSliceUnits / 2) * 2)) kMaxSliceUnits in
  if took_ns <=? 0 then doubled else
  let target := Z.max target_ns 1 in
  let wanted := u128 (last_units * target) / took_ns in
  u64 (clamp wanted 1 doubled).

(** ** Where the threads go *)

(** The loop over the threads, from [thread] on. *)
Fixpoint placements_from (remaining : nat) (thread : Z) (cpus : list Z) : Result (list ThreadPlacement) text :=
  match remaining with
  | O => Value []
  | S remaining =>
      match cpus with
      | [] => let? rest := placements_from remaining (thread + 1) cpus in Value (None :: rest)
      | _ =>
          let? mask := mask_of [nth (Z.to_nat (thread mod size_of cpus)) cpus 0] in
          let? rest := placements_from remaining (thread + 1) cpus in
          Value (Some mask :: rest)
      end
  end.

Definition placements_for (threads : Z) (cpus : list Z) : Result (list ThreadPlacement) text :=
  placements_from (Z.to_nat threads) 0 cpus.

(** ** Putting a worker together *)

(** [setup.base]. *)
Definition base_of (args : WorkloadArgs) (cpus : list Z) (version decomposition : Z) : Provenance :=
  {| logical_cpu := match cpus with [cpu] => Some cpu | _ => None end;
     physical_package := wl_physical_package args; physical_core := wl_physical_core args;
     numa_node := wl_numa_node args; buffer_address := None; buffer_offset := None; iteration := None;
     prov_workload := Some (wl_workload args); workload_version := Some version; seed := Some (wl_seed args);
     isa := Some (isa_number (wl_isa args)); input_integrity := None; duty := None;
     decomposition := Some decomposition; footprint_bytes := Some (wl_footprint_bytes args) |}.

Definition config_of (args : WorkloadArgs) : WorkloadConfig :=
  {| config_seed := wl_seed args; config_footprint_bytes := wl_footprint_bytes args;
     config_decomposition := wl_decomposition args; config_isa := wl_isa args |}.

Definition setup_for (args : WorkloadArgs) (cpus : list Z) (first_index : Z) (threads : Z)
    (descriptor : Descriptor) (workload : Workload) (oracle : Oracle) : RunnerSetup :=
  {| setup_workload := Some workload; setup_oracle := Some oracle; setup_executor := Some threads;
     setup_syscalls := true; setup_duty_cycle := wl_duty args; setup_line_bytes := wl_line_bytes args;
     setup_provenance := base_of args cpus (desc_version descriptor) (plan_decomposition (workload_plan workload));
     setup_first_index := first_index; setup_lock := wl_lock args |}.

Definition fault_words (what detail : text) : text := what ++ lit ": " ++ detail.

Section Prepare.
Context {K R : Type} `{FpControl K} `{Services K R} (strerror : Z → text).

Definition prepare (args : WorkloadArgs) (cpus : list Z) (first_index : Z) (s : K) : Result R WorkerError * K :=
  let (established, s) := establish_environment s in
  match established with
  | Error e => (error_at (lit "floating-point environment") (describe_fp_error e), s)
  | Value _ =>
  match select_path (Some (wl_isa args)) isa_supported isa_compiled with
  | Error e => (error_at (lit "isa path") (dispatch_detail e), s)
  | Value _ =>
  match workloads_create (wl_workload args) (config_of args) with
  | Error e => (error_at (lit "workload") (fault_words (describe_workload_fault (workload_fault e)) (workload_detail e)), s)
  | Value (descriptor, workload) =>
  match oracles_create (wl_workload args) (config_of args) (workload_plan workload) with
  | Error e => (error_at (lit "oracle") (fault_words (describe_oracle_fault (oracle_fault e)) (oracle_detail e)), s)
  | Value oracle =>
  match placements_for (wl_threads args) cpus with
  | Error why => (error_at (lit "executor") (lit "cpus: " ++ why), s)
  | Value placements =>
  let (pool, s) := make_pool placements s in
  match pool with
  | Error e => (error_at (lit "executor") (describe_pool_error strerror e), s)
  | Value _ =>
  match assert_environment s with
  | Error e => (error_at (lit "floating-point environment") (lit "changed during start-up: " ++ describe_fp_error e), drop_pool s)
  | Value _ =>
  let (made, s) := make_runner (setup_for args cpus first_index (size_of placements) descriptor workload oracle) s in
  match made with
  | Error e => (error_at (lit "runner") (fault_words (describe_runner_fault (runner_fault e)) (runner_detail e)), drop_pool s)
  | Value runner => (Value runner, s)
  end end end end end end end end.

End Prepare.

(** ** What a run says *)

Definition kPhasePaused : Z := 2.
Definition kOracleSubject : text := lit "oracle over ".
Definition kBracketSubject : text := lit "input-integrity bracket over ".

Definition states_zero (record : ErrorRecord) (subject : text) : bool :=
  match record with NotPerformed unrun => bool_decide (subject `prefix_of` what unrun) | _ => false end.

Definition keep_true_statements (report : SliceReport) (whole : Tally) (run_over : bool) : SliceReport :=
  let oracle_zero := run_over && (oracle_blocks whole =? 0) in
  let bracket_zero := run_over && (integrity_checked whole =? 0) in
  {| slice_tally := slice_tally report;
     slice_records := filter (λ record,
       (states_zero record kOracleSubject && negb oracle_zero)
       || (states_zero record kBracketSubject && negb bracket_zero) = false) (slice_records report);
     slice_next_index := slice_next_index report |}.

Record VerifiedOutcome := { outcome : Outcome; tally : Tally; note : text }.

(** ** The ticker

    [Step] says how the loop goes on. The members of [Ticker] that change: what is run and
    on what, the pace of it, and what the run will answer. *)

Inductive Step := kContinue | kEnd | kLeave.

#[export] Instance Step_eq_dec : EqDecision Step.
Proof. solve_decision. Defined.

Record Running (R : Type) := {
  args : WorkloadArgs;
  run_cpus : list Z;
  runner_ : option R;
  next_index : Z;
  carried : Tally;
  runner_counted : bool;
}.
Arguments args {R} _.
Arguments run_cpus {R} _.
Arguments runner_ {R} _.
Arguments next_index {R} _.
Arguments carried {R} _.
Arguments runner_counted {R} _.

Record Pace := {
  slice_units : Z;
  paused : bool;
  duty_clock : DutyClock;
  last_read : Z;
  orders : RecordSource;
}.

Record Ticker (R : Type) := { running : Running R; pace : Pace; result : VerifiedOutcome }.
Arguments running {R} _.
Arguments pace {R} _.
Arguments result {R} _.

Definition set_running {R} (t : Ticker R) (running : Running R) : Ticker R :=
  {| running := running; pace := pace t; result := result t |}.
Definition set_pace {R} (t : Ticker R) (pace : Pace) : Ticker R :=
  {| running := running t; pace := pace; result := result t |}.
Definition set_result {R} (t : Ticker R) (result : VerifiedOutcome) : Ticker R :=
  {| running := running t; pace := pace t; result := result |}.

Definition with_runner {R} (t : Ticker R) (runner : option R) : Ticker R :=
  let u := running t in
  set_running t {| args := args u; run_cpus := run_cpus u; runner_ := runner; next_index := next_index u;
                   carried := carried u; runner_counted := runner_counted u |}.
Definition with_next_index {R} (t : Ticker R) (index : Z) : Ticker R :=
  let u := running t in
  set_running t {| args := args u; run_cpus := run_cpus u; runner_ := runner_ u; next_index := index;
                   carried := carried u; runner_counted := runner_counted u |}.
Definition with_paused {R} (t : Ticker R) (paused : bool) : Ticker R :=
  let p := pace t in
  set_pace t {| slice_units := slice_units p; paused := paused; duty_clock := duty_clock p;
                last_read := last_read p; orders := orders p |}.
Definition with_duty {R} (t : Ticker R) (duty : DutyClock) : Ticker R :=
  let p := pace t in
  set_pace t {| slice_units := slice_units p; paused := paused p; duty_clock := duty;
                last_read := last_read p; orders := orders p |}.
Definition with_units {R} (t : Ticker R) (units : Z) : Ticker R :=
  let p := pace t in
  set_pace t {| slice_units := units; paused := paused p; duty_clock := duty_clock p;
                last_read := last_read p; orders := orders p |}.
Definition with_last_read {R} (t : Ticker R) (last_read : Z) : Ticker R :=
  let p := pace t in
  set_pace t {| slice_units := slice_units p; paused := paused p; duty_clock := duty_clock p;
                last_read := last_read; orders := orders p |}.
Definition with_orders {R} (t : Ticker R) (orders : RecordSource) : Ticker R :=
  let p := pace t in
  set_pace t {| slice_units := slice_units p; paused := paused p; duty_clock := duty_clock p;
                last_read := last_read p; orders := orders |}.

Definition with_reason {R} (t : Ticker R) (reason : StopReason) : Ticker R :=
  let o := outcome (result t) in
  set_result t {| outcome := {| outcome_reason := reason; outcome_progress := outcome_progress o;
                                outcome_elapsed_ns := outcome_elapsed_ns o |};
                  tally := tally (result t); note := note (result t) |}.
(** [result_.tally] and [result_.outcome.progress], set together. *)
Definition with_tally {R} (t : Ticker R) (counted : Tally) : Ticker R :=
  let o := outcome (result t) in
  set_result t {| outcome := {| outcome_reason := outcome_reason o; outcome_progress := units_computed counted;
                                outcome_elapsed_ns := outcome_elapsed_ns o |};
                  tally := counted; note := note (result t) |}.
Definition with_elapsed {R} (t : Ticker R) (elapsed progress : Z) : Ticker R :=
  let o := outcome (result t) in
  set_result t {| outcome := {| outcome_reason := outcome_reason o; outcome_progress := progress;
                                outcome_elapsed_ns := elapsed |};
                  tally := tally (result t); note := note (result t) |}.
Definition with_note {R} (t : Ticker R) (words : text) : Ticker R :=
  set_result t {| outcome := outcome (result t); tally := tally (result t); note := words |}.

(** *** The monad of the ticker's members

    A state of the ticker and the world, and an error that ends the run; [None] is stuck. *)

Definition M (K R A : Type) : Type := Ticker R → K → option (Result A WorkerError * Ticker R * K).

Definition ret {K R A} (a : A) : M K R A := λ t s, Some (Value a, t, s).
Definition fail {K R A} (stage_ detail : text) : M K R A := λ t s, Some (error_at stage_ detail, t, s).
Definition fail_with {K R A} (error : WorkerError) : M K R A := λ t s, Some (Error error, t, s).
Definition stuck {K R A} : M K R A := λ _ _, None.
Definition bind {K R A B} (m : M K R A) (k : A → M K R B) : M K R B := λ t s,
  match m t s with
  | Some (Value a, t, s) => k a t s
  | Some (Error e, t, s) => Some (Error e, t, s)
  | None => None
  end.
Definition get {K R} : M K R (Ticker R) := λ t s, Some (Value t, t, s).
Definition modify {K R} (f : Ticker R → Ticker R) : M K R unit := λ t s, Some (Value tt, f t, s).
(** A call of the world. *)
Definition call {K R A} (f : K → A * K) : M K R A := λ t s, let (a, s) := f s in Some (Value a, t, s).
Definition call_fueled {K R A} (f : K → option (A * K)) : M K R A := λ t s, '(a, s) ← f s; Some (Value a, t, s).

Notation "'let!' x := m 'in' k" := (bind m (λ x, k))
  (at level 200, x pattern, m at level 100, k at level 200) : lf_scope.
Notation "m ;;! k" := (bind m (λ _, k)) (at level 100, k at level 200, right associativity) : lf_scope.
#[local] Open Scope lf_scope.

(** *** Its methods *)

Section Ticker.
Context {K R : Type} `{ChannelCalls K} `{WorkerCalls K} `{FpControl K} `{Services K R}
  (strerror : Z → text) (session : Session).

Definition interval_ms : Z := interval_milliseconds (interval_ns (pacing session)).
Definition target_ns : Z := Z.max (Z.quot (interval_ns (pacing session)) kTargetDivisor) kMinTargetNs.

Definition send_frame (type : Z) (bytes : list byte) : M K R Delivery :=
  call_fueled (deliver strerror session type bytes).

Fixpoint send_records (records : list ErrorRecord) : M K R Delivery :=
  match records with
  | [] => ret Sent
  | record :: records =>
      let! sent := send_frame kErrorRecordFrameType (encode_record record) in
      match sent with Sent => send_records records | _ => ret sent end
  end.

Definition send_report (report : SliceReport) (total : Tally) : M K R Delivery :=
  let! sent := send_records (slice_records report) in
  match sent with Sent => send_frame kTallyFrameType (encode_tally total) | _ => ret sent end.

(** [*prepared_.runner]; a null pointer is stuck. *)
Definition the_runner : M K R R :=
  let! t := get in
  match runner_ (running t) with Some runner => ret runner | None => stuck end.

Definition tell_memory : M K R Delivery :=
  let! runner := the_runner in
  send_frame kMemoryFrameType (encode_memory (runner_lock runner)).

Definition whole : M K R Tally :=
  let! runner := the_runner in
  let! t := get in
  ret (add_tally (carried (running t)) (runner_total runner)).

Definition wait_ms (paused : bool) (position : Position) : Z :=
  if paused then interval_ms else
  let until := Z.quot (i64 (remaining_ns position + kNanosecondsPerMillisecond - 1)) kNanosecondsPerMillisecond in
  clamp until 1 interval_ms.

Definition end_run (reason : StopReason) : M K R Step :=
  modify (λ t, with_reason t reason) ;;! ret kEnd.

Definition leave_run (reason : StopReason) : M K R Step :=
  modify (λ t, with_reason t reason) ;;!
  let! t := get in
  let! counted := (if runner_counted (running t) then ret (carried (running t)) else whole) in
  modify (λ t, with_tally t counted) ;;! ret kLeave.

Definition after (sent : Delivery) : M K R Step :=
  match sent with
  | SendFailure error => fail_with error
  | ControllerGone => leave_run kControllerHungUp
  | Sent => ret kContinue
  end.

Definition reply (sequence status : Z) (detail : text) : M K R Step :=
  let! sent := call_fueled (answer strerror session sequence status detail) in after sent.

Definition close_runner (run_over : bool) : M K R Step :=
  let! runner := the_runner in
  let! last := call (λ s, let '(last, runner, s) := runner_finish runner s in ((last, runner), s)) in
  let '(last, runner) := last in
  modify (λ t, with_runner t (Some runner)) ;;!
  match last with
  | Error e => fail (lit "runner") (lit "finish: " ++ runner_detail e)
  | Value last =>
      modify (λ t, let u := running t in set_running t
        {| args := args u; run_cpus := run_cpus u; runner_ := runner_ u; next_index := slice_next_index last;
           carried := add_tally (carried u) (runner_total runner); runner_counted := true |}) ;;!
      let! t := get in
      let! sent := send_report (keep_true_statements last (carried (running t)) run_over) (carried (running t)) in
      after sent
  end.

Definition release : M K R unit :=
  let! runner := the_runner in
  modify (λ t, with_runner t None) ;;!
  call (λ s, (tt, drop_pool (drop_runner runner s))).

(** [prepared_ = ...] after [prepare]: the runner it made, counted no more. *)
Definition install (args : WorkloadArgs) (cpus : list Z) (runner : R) : M K R unit :=
  modify (λ t, let u := running t in set_running t
    {| args := args; run_cpus := cpus; runner_ := Some runner; next_index := next_index u;
       carried := carried u; runner_counted := false |}) ;;!
  modify (λ t, with_units t 1).

Definition lost_words (old next : WorkloadArgs) (refusal : text) : text :=
  lit "could not go back to " ++ wl_workload old ++ lit " after refusing " ++ wl_workload next
  ++ lit " (" ++ refusal ++ lit ")".

Definition reconfigure (sequence : Z) (next : WorkloadArgs) (cpus : list Z) : M K R Step :=
  let! closed := close_runner false in
  if negb (bool_decide (closed = kContinue)) then ret closed else
  release ;;!
  let! t := get in
  let! fresh := call (prepare strerror next cpus (next_index (running t))) in
  let! refusal :=
    match fresh with
    | Value runner => install next cpus runner ;;! ret []
    | Error e =>
        let refusal := describe_worker_error e in
        let! restored := call (prepare strerror (args (running t)) (run_cpus (running t)) (next_index (running t))) in
        match restored with
        | Error e => fail (lit "restore") (lost_words (args (running t)) next refusal ++ lit ": " ++ describe_worker_error e)
        | Value runner => install (args (running t)) (run_cpus (running t)) runner ;;! ret refusal
        end
    end in
  let! sent := tell_memory in
  let! told := after sent in
  if negb (bool_decide (told = kContinue)) then ret told else
  if bool_decide (refusal = []) then reply sequence kDone [] else reply sequence kRefused refusal.

Definition rebound (args : WorkloadArgs) : WorkloadArgs :=
  {| wl_workload := wl_workload args; wl_seed := wl_seed args; wl_footprint_bytes := wl_footprint_bytes args;
     wl_threads := wl_threads args; wl_decomposition := wl_decomposition args; wl_isa := wl_isa args;
     wl_lock := wl_lock args; wl_duty := wl_duty args; wl_line_bytes := wl_line_bytes args;
     wl_physical_package := None; wl_physical_core := None; wl_numa_node := None |}.

Definition switched (args : WorkloadArgs) (change : Switch) (path : IsaPath) : WorkloadArgs :=
  {| wl_workload := switch_workload change; wl_seed := switch_seed change;
     wl_footprint_bytes := switch_footprint_bytes change; wl_threads := wl_threads args;
     wl_decomposition := switch_decomposition change; wl_isa := path; wl_lock := wl_lock args;
     wl_duty := switch_duty change; wl_line_bytes := wl_line_bytes args;
     wl_physical_package := wl_physical_package args; wl_physical_core := wl_physical_core args;
     wl_numa_node := wl_numa_node args |}.

(** The path a Switch goes to; [.value()] of a refused choice is stuck. *)
Definition path_after (isa : IsaPath) (descriptor : Descriptor) : option IsaPath :=
  let reachable := isa_intersect isa_compiled (desc_paths descriptor) in
  let keep := if isa_contains reachable isa then Some isa else None in
  match select_path keep isa_supported reachable with Value path => Some path | Error _ => None end.

Definition apply (sequence : Z) (command : Command) (now : TimePoint) : M K R Step :=
  match command with
  | Stop =>
      let! replied := reply sequence kDone [] in
      if negb (bool_decide (replied = kContinue)) then ret replied else end_run kStopRequested
  | Pause => modify (λ t, with_paused t true) ;;! reply sequence kDone []
  | Resume => modify (λ t, with_paused t false) ;;! reply sequence kDone []
  | SetDutyTo duty => modify (λ t, with_duty t (duty_set duty (running_ns now))) ;;! reply sequence kDone []
  | Rebind cpus => let! t := get in reconfigure sequence (rebound (args (running t))) cpus
  | SwitchTo change =>
      match workloads_descriptor (switch_workload change) with
      | Error e =>
          reply sequence kRefused (fault_words (describe_workload_fault (workload_fault e)) (workload_detail e))
      | Value descriptor =>
          let! t := get in
          match path_after (wl_isa (args (running t))) descriptor with
          | None => stuck
          | Some path => reconfigure sequence (switched (args (running t)) change path) (run_cpus (running t))
          end
      end
  end.

(** The loop over the messages found. *)
Fixpoint handle_all (messages : list ControlMessage) (now : TimePoint) : M K R Step :=
  match messages with
  | [] => ret kContinue
  | message :: messages =>
      let! handled := apply (message_sequence message) (command message) now in
      if negb (bool_decide (handled = kContinue)) then ret handled else handle_all messages now
  end.

Definition read_now : M K R (Result TimePoint SyscallError) := call (clock_now read_clock).

(** Once a slice has run: its report goes out, and the next one's length is chosen. *)
Definition tell_slice (now : TimePoint) (busy_remaining_ns : Z) (report : SliceReport) : M K R Step :=
  let! total := whole in
  let! sent := send_report report total in
  match sent with
  | SendFailure error => fail_with error
  | ControllerGone => leave_run kControllerHungUp
  | Sent =>
      let! after := read_now in
      match after with
      | Error e => fail (lit "clock") (describe_syscall_error strerror e)
      | Value after =>
          let aim := Z.max (Z.min target_ns busy_remaining_ns) kMinTargetNs in
          modify (λ t, with_units t (next_slice_units (slice_units (pace t)) (i64 (running_ns after - running_ns now)) aim)) ;;!
          ret kContinue
      end
  end.

Definition run_a_slice (now : TimePoint) (busy_remaining_ns : Z) : M K R Step :=
  let! runner := the_runner in
  let! t := get in
  let! ran := call (λ s, let '(ran, runner, s) := runner_slice (slice_units (pace t)) runner s in ((ran, runner), s)) in
  let '(ran, runner) := ran in
  modify (λ t, with_runner t (Some runner)) ;;!
  match ran with
  | Error e => modify (λ t, with_note t (runner_detail e)) ;;! end_run kRunnerStopped
  | Value report => modify (λ t, with_next_index t (slice_next_index report)) ;;! tell_slice now busy_remaining_ns report
  end.

(** From the look at the control pipe on. *)
Definition look_and_work (now : TimePoint) : M K R Step :=
  let! t := get in
  let position := duty_at (duty_clock (pace t)) (running_ns now) in
  let idle := paused (pace t) || negb (busy position) in
  let! looked := call (λ s, let '(looked, src, s) :=
    look strerror session (if idle then wait_ms (paused (pace t)) position else 0) (orders (pace t)) s in ((looked, src), s)) in
  let '(looked, src) := looked in
  modify (λ t, with_orders t src) ;;!
  match looked with
  | Error e => fail_with e
  | Value looked =>
      let! handled := handle_all (messages looked) now in
      if negb (bool_decide (handled = kContinue)) then ret handled else
      match lost looked with
      | Some reason => leave_run reason
      | None =>
          if negb (bool_decide (messages looked = [])) || idle then ret kContinue
          else run_a_slice now (remaining_ns position)
      end
  end.

Definition once (started : TimePoint) (pid : Z) : M K R Step :=
  let! now := read_now in
  match now with
  | Error e => fail (lit "clock") (describe_syscall_error strerror e)
  | Value now =>
      match Platform.between started now with
      | Error e => fail (lit "clock") (describe_syscall_error strerror e)
      | Value elapsed =>
          let elapsed := elapsed_raw_ns elapsed in
          let! counted := whole in
          modify (λ t, with_elapsed t elapsed (units_computed counted)) ;;!
          let! t := get in
          let beat := {| timestamp_ns := running_ns now; progress := units_computed counted;
                         beat_phase := if paused (pace t) then kPhasePaused else kPhaseRunning; pid := pid |} in
          let! published := call (region_publish (worker_slot (session_slot session)) beat) in
          match published with
          | Error e => fail (lit "heartbeat") (describe_region_error strerror e)
          | Value _ =>
              if duration_ns (pacing session) <=? elapsed then end_run kDurationElapsed else
              let! gone := call (λ s, let '(gone, read, s) := watch_gone session (last_read (pace t)) now elapsed s in ((gone, read), s)) in
              let '(gone, read) := gone in
              modify (λ t, with_last_read t read) ;;!
              match gone with
              | Some reason => leave_run reason
              | None => look_and_work now
              end
          end
      end
  end.

Definition conclude : M K R VerifiedOutcome :=
  close_runner true ;;!
  modify (λ t, with_tally t (carried (running t))) ;;!
  let! t := get in ret (result t).

(** [while (true)] over the ticks. *)
Fixpoint ticks (fuel : nat) (started : TimePoint) (pid : Z) : M K R VerifiedOutcome :=
  match fuel with
  | O => stuck
  | S fuel =>
      let! step := once started pid in
      match step with
      | kContinue => ticks fuel started pid
      | kLeave => let! t := get in ret (result t)
      | kEnd => conclude
      end
  end.

Definition no_outcome (reason : StopReason) : VerifiedOutcome :=
  {| outcome := {| outcome_reason := reason; outcome_progress := 0; outcome_elapsed_ns := 0 |};
     tally := no_tally; note := [] |}.

Definition new_ticker (args : WorkloadArgs) (cpus : list Z) (runner : R) : Ticker R :=
  {| running := {| args := args; run_cpus := cpus; runner_ := Some runner; next_index := 0; carried := no_tally;
                   runner_counted := false |};
     pace := {| slice_units := 1; paused := false; duty_clock := continuous; last_read := 0;
                orders := {| source_reader := reading []; source_ended := false |} |};
     result := no_outcome kDurationElapsed |}.

(** [run] once the ticker is made. *)
Definition run_ticker (fuel : nat) (pid : Z) : M K R VerifiedOutcome :=
  let! told := tell_memory in
  match told with
  | SendFailure error => fail_with error
  | ControllerGone => ret (no_outcome kControllerHungUp)
  | Sent =>
      let! started := read_now in
      match started with
      | Error e => fail (lit "clock") (describe_syscall_error strerror e)
      | Value started =>
          modify (λ t, with_last_read t (running_ns started)) ;;!
          ticks fuel started pid
      end
  end.

(** [VerifiedRun::run]; what is still held when it returns is given up. *)
Definition verified_run (fuel : nat) (args : WorkloadArgs) (cpus : list Z) (s : K) :
    option (Result VerifiedOutcome WorkerError * K) :=
  let (prepared, s) := prepare strerror args cpus 0 s in
  match prepared with
  | Error e => Some (Error e, s)
  | Value runner =>
      '(ran, t, s) ← run_ticker fuel (u32 (process_id s)) (new_ticker args cpus runner) s;
      Some (ran, match runner_ (running t) with Some runner => drop_pool (drop_runner runner s) | None => s end)
  end.

End Ticker.
