(* ===== verification/VerifiedRunFacts.v ===== *)
(** * worker/verified_run: a run accounts for everything

    What a runner promises the worker (verification/runner.hpp) and what the run makes of
    it: every record of every slice goes out, in order, before a tally that counts it;
    slices follow one another over every replacement of the runner; each order is answered
    once; and the run ends with its duration. *)

From S2P Require Export VerifiedRun.

(** ** What a runner and the world promise *)

(** Nothing was said, nothing heard and no slice run. *)
Definition undisturbed {K L} (slices : K → L) (fd_in fd_out : Z) `{ChannelLaws K fd_in} `{!ChannelLaws K fd_out}
    (s s' : K) : Prop :=
  slices s' = slices s ∧ piped (fd:=fd_out) s' = piped (fd:=fd_out) s ∧ taken (fd:=fd_in) s' = taken (fd:=fd_in) s.

Class RunnerLaws (K R : Type) (session : Session) `{ChannelCalls K} `{WorkerCalls K} `{FpControl K} `{!Services K R}
    `{Hin : !ChannelLaws K (control_fd session)} `{Hout : !ChannelLaws K (record_fd session)} := {
  slices : K → list (Z * SliceReport);      (** every slice run, with the index it began at *)
  index_of : R → Z;                         (** the unit a runner is to run next *)
  is_open : R → Prop;                       (** not finished *)
  quiet s s' := undisturbed slices (control_fd session) (record_fd session) s s';
  clock_quiet id s r s' : read_clock id s = (r, s') → quiet s s';
  poll_quiet fd w s r s' : poll_readable fd w s = (r, s') → quiet s s';
  publish_quiet slot b s r s' : region_publish slot b s = (r, s') → quiet s s';
  observe_quiet slot s r s' : region_observe slot s = (r, s') → quiet s s';
  fp_quiet state s : quiet s (fp_write state s);
  pool_quiet placements s r s' : make_pool placements s = (r, s') → quiet s s';
  drop_pool_quiet s : quiet s (drop_pool s);
  drop_runner_quiet r s : quiet s (drop_runner r s);
  make_quiet setup s r s' : make_runner setup s = (r, s') → quiet s s';
  write_quiet bs s r s' :
    write_fd (record_fd session) bs s = (r, s') →
    slices s' = slices s ∧ taken (fd:=control_fd session) s' = taken (fd:=control_fd session) s;
  read_quiet n s r s' :
    read_fd (control_fd session) n s = (r, s') →
    slices s' = slices s ∧ piped (fd:=record_fd session) s' = piped (fd:=record_fd session) s;
  make_fresh setup s r s' :
    make_runner setup s = (Value r, s') →
    is_open r ∧ runner_total r = no_tally ∧ index_of r = setup_first_index setup;
  slice_runs n r s report r' s' :
    is_open r → runner_slice n r s = (Value report, r', s') →
    is_open r' ∧ runner_total r' = add_tally (runner_total r) (slice_tally report)
    ∧ index_of r' = slice_next_index report ∧ slices s' = slices s ++ [(index_of r, report)]
    ∧ piped (fd:=record_fd session) s' = piped (fd:=record_fd session) s
    ∧ taken (fd:=control_fd session) s' = taken (fd:=control_fd session) s;
  slice_refused n r s e r' s' :
    is_open r → runner_slice n r s = (Error e, r', s') →
    is_open r' ∧ runner_total r' = runner_total r ∧ index_of r' = index_of r ∧ quiet s s';
  finish_states r s answer r' s' :
    is_open r → runner_finish r s = (answer, r', s') →
    quiet s s' ∧ runner_total r' = runner_total r ∧ ∃ report, answer = Value report
    ∧ slice_next_index report = index_of r
    ∧ Forall (λ record, states_zero record kOracleSubject || states_zero record kBracketSubject = true) (slice_records report)
    ∧ (oracle_blocks (runner_total r) = 0 → Exists (λ record, states_zero record kOracleSubject = true) (slice_records report))
    ∧ (integrity_checked (runner_total r) = 0 → Exists (λ record, states_zero record kBracketSubject = true) (slice_records report));
}.

(** ** What was said

    The frames on the record pipe. *)

Inductive Said :=
| Found (record : ErrorRecord)
| Counted (tally : Tally)
| Locked (lock : MemoryLock)
| Acked (ack : ControlAck).

Definition said_frame (said : Said) : list byte :=
  frame_of match said with
           | Found record => {| rec_type := kErrorRecordFrameType; rec_payload := encode_record record |}
           | Counted tally => {| rec_type := kTallyFrameType; rec_payload := encode_tally tally |}
           | Locked lock => {| rec_type := kMemoryFrameType; rec_payload := encode_memory lock |}
           | Acked ack => {| rec_type := kControlAckFrameType; rec_payload := encode_ack ack |}
           end.

Definition found (said : list Said) : list ErrorRecord :=
  omap (λ one, match one with Found record => Some record | _ => None end) said.
Definition acked (said : list Said) : list Z :=
  omap (λ one, match one with Acked ack => Some (ack_sequence ack) | _ => None end) said.

(** The slices follow one another, from unit [first] to unit [last]. *)
Fixpoint chained (first : Z) (ran : list (Z * SliceReport)) (last : Z) : Prop :=
  match ran with
  | [] => last = first
  | (index, report) :: ran => index = first ∧ chained (slice_next_index report) ran last
  end.

Definition records_of (ran : list (Z * SliceReport)) : list ErrorRecord := ran ≫= λ slice, slice_records slice.2.

Definition tally_of_all (ran : list (Z * SliceReport)) : Tally :=
  foldl (λ total slice, add_tally total (slice_tally slice.2)) no_tally ran.

Lemma found_app l k : found (l ++ k) = found l ++ found k.
Proof. apply omap_app. Qed.
Lemma acked_app l k : acked (l ++ k) = acked l ++ acked k.
Proof. apply omap_app. Qed.

Lemma chained_snoc first ran last report :
  chained first ran last → chained first (ran ++ [(last, report)]) (slice_next_index report).
Proof. revert first. induction ran as [|[i r] ran IH]; intros first; cbn; [by intros ->|]. intros [-> H]. split; [done|by apply IH]. Qed.

Lemma tally_of_all_snoc ran first report :
  tally_of_all (ran ++ [(first, report)]) = add_tally (tally_of_all ran) (slice_tally report).
Proof. unfold tally_of_all. by rewrite foldl_app. Qed.

Lemma records_of_snoc ran first report :
  records_of (ran ++ [(first, report)]) = records_of ran ++ slice_records report.
Proof. unfold records_of. rewrite bind_app, bind_cons. by rewrite app_nil_r. Qed.

Lemma u64_add_l a b : u64 (u64 a + b) = u64 (a + b).
Proof. unfold u64. by rewrite Zplus_mod_idemp_l. Qed.
Lemma u64_add_r a b : u64 (a + u64 b) = u64 (a + b).
Proof. unfold u64. by rewrite Zplus_mod_idemp_r. Qed.

Lemma add_tally_assoc a b c : add_tally a (add_tally b c) = add_tally (add_tally a b) c.
Proof. unfold add_tally. cbn. rewrite !u64_add_l, !u64_add_r. f_equal; f_equal; lia. Qed.

Lemma tally_of_all_widths ran : tally_widths (tally_of_all ran).
Proof.
  destruct ran as [|[i r] ran] using rev_ind; [|rewrite tally_of_all_snoc].
  - unfold tally_widths, counters_of, tally_of_all, in_u64. cbn. repeat constructor; lia.
  - unfold tally_widths, counters_of, add_tally. cbn. repeat constructor; apply u64_range.
Qed.

Lemma add_no_tally t : tally_widths t → add_tally t no_tally = t.
Proof.
  intros H. unfold tally_widths, counters_of in H. repeat (apply Forall_cons in H as [? H]).
  destruct t. unfold add_tally. cbn in *. f_equal; rewrite Z.add_0_r; by apply u64_small.
Qed.

(** ** Specifications of the ticker's methods

    [spec P m Q F]: from a state of [P], [m] is not stuck, and comes to a value in [Q] or
    to an error in [F]. *)

Definition spec {K R A} (P : Ticker R → K → Prop) (m : M K R A) (Q : A → Ticker R → K → Prop) (F : K → Prop) : Prop :=
  ∀ t s, P t s → ∃ r t' s', m t s = Some (r, t', s') ∧ match r with Value a => Q a t' s' | Error _ => F s' end.

Section Rules.
Context {K R : Type} (F : K → Prop).
Implicit Types P : Ticker R → K → Prop.

Lemma spec_ret {A} P (a : A) Q : (∀ t s, P t s → Q a t s) → spec P (ret a) Q F.
Proof. intros H t s HP. eexists _, _, _. split; [done|]. by apply H. Qed.

Lemma spec_bind {A B} P (m : M K R A) (k : A → M K R B) Q Q' :
  spec P m Q F → (∀ a, spec (Q a) (k a) Q' F) → spec P (bind m k) Q' F.
Proof.
  intros Hm Hk t s HP. destruct (Hm t s HP) as ([a|e] & t1 & s1 & E & H1).
  - destruct (Hk a t1 s1 H1) as (r & t2 & s2 & E2 & H2). exists r, t2, s2. unfold bind. by rewrite E.
  - exists (Error e), t1, s1. unfold bind. by rewrite E.
Qed.

Lemma spec_get {A} P (k : Ticker R → M K R A) Q :
  (∀ t0, spec (λ t s, t = t0 ∧ P t s) (k t0) Q F) → spec P (bind get k) Q F.
Proof. intros Hk t s HP. by apply (Hk t t s). Qed.

(** The state the specification begins in may be named. *)
Lemma spec_fix {A} P (m : M K R A) Q : (∀ t0, spec (λ t s, t = t0 ∧ P t s) m Q F) → spec P m Q F.
Proof. intros H t s HP. by apply (H t t s). Qed.

Lemma spec_pure {A} (φ : Prop) P (m : M K R A) Q :
  (∀ t s, P t s → φ) → (φ → spec P m Q F) → spec P m Q F.
Proof. intros Hφ H t s HP. by apply H; [eapply Hφ|]. Qed.

Lemma spec_modify {A} P f (k : unit → M K R A) P' Q :
  (∀ t s, P t s → P' (f t) s) → spec P' (k tt) Q F → spec P (bind (modify f) k) Q F.
Proof. intros Hf Hk t s HP. by apply (Hk (f t) s), Hf. Qed.

Lemma spec_call {A} P (f : K → A * K) Q :
  (∀ t s, P t s → Q (f s).1 t (f s).2) → spec P (call f) Q F.
Proof. intros H t s HP. unfold call. specialize (H t s HP). destruct (f s) as [a s']. by eexists _, _, _. Qed.

Lemma spec_pre {A} (P P' : Ticker R → K → Prop) (m : M K R A) Q :
  (∀ t s, P t s → P' t s) → spec P' m Q F → spec P m Q F.
Proof. intros H Hm t s HP. by apply Hm, H. Qed.

Lemma spec_post {A} P (m : M K R A) (Q Q' : A → Ticker R → K → Prop) :
  spec P m Q F → (∀ a t s, Q a t s → Q' a t s) → spec P m Q' F.
Proof.
  intros Hm H t s HP. destruct (Hm t s HP) as (r & t' & s' & E & Hr). exists r, t', s'. split; [done|].
  destruct r; [by apply H|done].
Qed.

(** The early return of a step that does not go on. *)
Lemma spec_continue (Q Q' : Step → Ticker R → K → Prop) (k : M K R Step) :
  spec (Q kContinue) k Q' F → (∀ step t s, step ≠ kContinue → Q step t s → Q' step t s) →
  ∀ step, spec (Q step) (if negb (bool_decide (step = kContinue)) then ret step else k) Q' F.
Proof.
  intros Hk HQ step. destruct (decide (step = kContinue)) as [->|Hne].
  - by rewrite bool_decide_true by done.
  - rewrite bool_decide_false by done. apply spec_ret. intros t s. by apply HQ.
Qed.

Lemma spec_fail {A} P error (Q : A → Ticker R → K → Prop) :
  (∀ t s, P t s → F s) → spec P (fail_with error) Q F.
Proof. intros H t s HP. exists (Error error), t, s. split; [done|by eapply H]. Qed.
End Rules.

(** ** What every call of the world keeps

    A relation that each single call keeps is kept by what is made of them. *)

Section Keeps.
Context {K R : Type} `{ChannelCalls K} `{WorkerCalls K} `{FpControl K} `{!Services K R} (strerror : Z → text) (session : Session)
  (Q : relation K) `{!PreOrder Q}.

Lemma clock_now_keeps s r s' :
  (∀ id s r s', read_clock id s = (r, s') → Q s s') → clock_now read_clock s = (r, s') → Q s s'.
Proof.
  intros Hclock. assert (∀ id s r s', read_nanoseconds read_clock id s = (r, s') → Q s s') as Hread.
  { intros id s1 r1 s2. unfold read_nanoseconds. destruct (read_clock id s1) as [v s3] eqn:E. intros [= _ <-]. by eapply Hclock. }
  unfold clock_now. destruct (read_nanoseconds _ CLOCK_MONOTONIC_RAW s) as [[a|] s1] eqn:E1; apply Hread in E1;
    [|by intros [= _ <-]].
  destruct (read_nanoseconds _ CLOCK_MONOTONIC s1) as [[b|] s2] eqn:E2; apply Hread in E2; [|intros [= _ <-]; by etrans].
  destruct (read_nanoseconds _ CLOCK_BOOTTIME s2) as [[c|] s3] eqn:E3; apply Hread in E3;
    intros [= _ <-]; etrans; [done| |done|]; by etrans.
Qed.

Lemma prepare_keeps args cpus first s r s' :
  (∀ state s, Q s (fp_write state s)) →
  (∀ placements s r s', make_pool placements s = (r, s') → Q s s') → (∀ s, Q s (drop_pool s)) →
  (∀ setup s r s', make_runner setup s = (r, s') → Q s s') →
  prepare strerror args cpus first s = (r, s') → Q s s'.
Proof.
  intros Hfp Hpool Hdrop Hmake. unfold prepare. destruct (establish_environment s) as [est s1] eqn:E1.
  assert (Q s s1) as Q1 by (injection E1 as _ <-; apply Hfp).
  destruct est as [[]|e]; [|by intros [= _ <-]].
  destruct (select_path _ _ _); [|by intros [= _ <-]].
  destruct (workloads_create _ _) as [[d w]|]; [|by intros [= _ <-]].
  destruct (oracles_create _ _ _); [|by intros [= _ <-]].
  destruct (placements_for _ _) as [placements|]; [|by intros [= _ <-]].
  destruct (make_pool placements s1) as [p s2] eqn:E2. apply Hpool in E2.
  assert (Q s s2) as Q2 by (by etrans). destruct p; [|by intros [= _ <-]].
  destruct (assert_environment s2); [|intros [= _ <-]; by etrans].
  destruct (make_runner _ s2) as [m s3] eqn:E3. apply Hmake in E3.
  destruct m; intros [= _ <-]; [by etrans|]. etrans; [exact Q2|]. by etrans.
Qed.
End Keeps.

(** ** The time a run takes *)

(** What the worker stands on takes its time, too. *)
Class ServicesTime (K R : Type) `{TimeLaws K} `{FpControl K} `{!Services K R} := {
  fp_time state s : instant s ≤ instant (fp_write state s);
  pool_time placements s r s' : make_pool placements s = (r, s') → instant s ≤ instant s';
  drop_pool_time s : instant s ≤ instant (drop_pool s);
  make_time setup s r s' : make_runner setup s = (r, s') → instant s ≤ instant s';
  drop_runner_time r s : instant s ≤ instant (drop_runner r s);
  slice_time n r s a r' s' : runner_slice n r s = (a, r', s') → instant s ≤ instant s';
  finish_time r s a r' s' : runner_finish r s = (a, r', s') → instant s ≤ instant s';
}.

(** Time does not go back while [m] runs. *)
Class Steady {K R A} `{TimeLaws K} (m : M K R A) :=
  steady t s r t' s' : m t s = Some (r, t', s') → instant s ≤ instant s'.

Section Steady.
#[local] Typeclasses Opaque ret fail fail_with stuck bind get modify call call_fueled send_frame send_records send_report
  whole tell_memory end_run leave_run after reply close_runner reconfigure VerifiedRun.apply handle_all read_now run_a_slice look_and_work.
Context {K R : Type} `{ServicesTime K R} (strerror : Z → text) (session : Session).

#[local] Instance later_preorder : PreOrder (λ s s' : K, instant s ≤ instant s').
Proof. split; [intros s; apply Z.le_refl|intros a b c; apply Z.le_trans]. Qed.

#[local] Instance steady_ret {A} (a : A) : Steady (R:=R) (ret a).
Proof. intros t s r t' s' [= _ _ <-]. lia. Qed.
#[local] Instance steady_fail {A} (error : WorkerError) : Steady (R:=R) (A:=A) (fail_with error).
Proof. intros t s r t' s' [= _ _ <-]. lia. Qed.
#[local] Instance steady_error {A} stage detail : Steady (R:=R) (A:=A) (fail stage detail).
Proof. intros t s r t' s' [= _ _ <-]. lia. Qed.
#[local] Instance steady_stuck {A} : Steady (R:=R) (A:=A) stuck.
Proof. by intros t s r t' s'. Qed.
#[local] Instance steady_get : Steady (R:=R) get.
Proof. intros t s r t' s' [= _ _ <-]. lia. Qed.
#[local] Instance steady_modify f : Steady (R:=R) (modify f).
Proof. intros t s r t' s' [= _ _ <-]. lia. Qed.
Lemma steady_bind {A B} (m : M K R A) (k : A → M K R B) :
  Steady m → (∀ a, Steady (k a)) → Steady (bind m k).
Proof.
  intros Hm Hk t s r t' s'. unfold bind. destruct (m t s) as [[[[a|e] t1] s1]|] eqn:E; [| |done].
  - intros E2. apply Hm in E. apply (Hk a) in E2. lia.
  - intros [= _ _ <-]. by apply Hm in E.
Qed.

Lemma steady_call {A} (f : K → A * K) : (∀ s, instant s ≤ instant (f s).2) → Steady (R:=R) (call f).
Proof. intros Hf t s r t' s'. unfold call. specialize (Hf s). destruct (f s). by intros [= _ _ <-]. Qed.

Lemma deliver_time type bytes s d s' :
  deliver strerror session type bytes s = Some (d, s') → instant s ≤ instant s'.
Proof.
  unfold deliver, send. destruct (encode type bytes) as [f|e]; cbn [mbind option_bind]; [|intros [= _ <-]; lia].
  destruct (send_loop _ _ _ f s) as [[out s1]|] eqn:E; [|done]. apply send_loop_time in E. by intros [= _ <-].
Qed.

#[local] Instance steady_send type bytes : Steady (R:=R) (send_frame strerror session type bytes).
Proof.
  intros t s r t' s'. unfold send_frame, call_fueled. destruct (deliver _ _ _ _ s) as [[d s1]|] eqn:E; [|done].
  intros [= _ _ <-]. by eapply deliver_time.
Qed.
#[local] Instance steady_answer sequence status detail :
  Steady (R:=R) (call_fueled (answer strerror session sequence status detail)).
Proof. apply steady_send. Qed.
#[local] Instance steady_finish r :
  Steady (R:=R) (call (λ s, let '(last, runner, s) := runner_finish r s in ((last, runner), s))).
Proof. apply steady_call. intros s. destruct (runner_finish r s) as [[a r'] s'] eqn:E. by eapply finish_time. Qed.
#[local] Instance steady_slice n r :
  Steady (R:=R) (call (λ s, let '(ran, runner, s) := runner_slice n r s in ((ran, runner), s))).
Proof. apply steady_call. intros s. destruct (runner_slice n r s) as [[a r'] s'] eqn:E. by eapply slice_time. Qed.
#[local] Instance steady_release r : Steady (R:=R) (call (λ s : K, (tt, drop_pool (drop_runner r s)))).
Proof. apply steady_call. intros s. cbn. etrans; [apply (drop_runner_time r)|apply drop_pool_time]. Qed.
#[local] Instance steady_prepare args cpus first : Steady (R:=R) (call (prepare strerror args cpus first)).
Proof.
  apply steady_call. intros s. destruct (prepare strerror args cpus first s) as [r s'] eqn:E.
  eapply (prepare_keeps strerror (λ s s', instant s ≤ instant s')); [| | | |exact E];
    [apply fp_time|apply pool_time|apply drop_pool_time|apply make_time].
Qed.
#[local] Instance steady_now : Steady (R:=R) read_now.
Proof.
  apply steady_call. intros s. destruct (clock_now read_clock s) as [r s'] eqn:E.
  eapply (clock_now_keeps (λ s s', instant s ≤ instant s')); [|exact E]. apply clock_time.
Qed.
#[local] Instance steady_publish slot beat : Steady (R:=R) (call (region_publish slot beat)).
Proof. apply steady_call. intros s. destruct (region_publish slot beat s) as [r s'] eqn:E. by eapply publish_time. Qed.
#[local] Instance steady_watch last now elapsed :
  Steady (R:=R) (call (λ s, let '(gone, read, s) := watch_gone session last now elapsed s in ((gone, read), s))).
Proof.
  apply steady_call. intros s. unfold watch_gone. destruct (region_observe kControllerSlot s) as [r s'] eqn:E.
  apply observe_time in E. by destruct (judge_controller _ _ _ _ r).
Qed.
#[local] Instance steady_look wait src :
  Steady (R:=R) (call (λ s, let '(looked, src, s) := look strerror session wait src s in ((looked, src), s))).
Proof. apply steady_call. intros s. destruct (look _ _ _ src s) as [[a b] s'] eqn:E. by eapply look_time. Qed.

#[local] Ltac by_parts :=
  repeat first
    [ apply _
    | apply steady_bind; [|intros ?]
    | match goal with
      | |- Steady (match ?x with _ => _ end) => destruct x
      | |- Steady (let _ := _ in _) => cbv zeta
      end ].

#[local] Instance steady_records records : Steady (R:=R) (send_records strerror session records).
Proof. induction records; cbn [send_records]; by_parts. Qed.
#[local] Instance steady_whole : Steady (R:=R) whole.
Proof. unfold whole, the_runner. by_parts. Qed.
#[local] Instance steady_end reason : Steady (R:=R) (end_run reason).
Proof. unfold end_run. by_parts. Qed.
#[local] Instance steady_leave reason : Steady (R:=R) (leave_run reason).
Proof. unfold leave_run. by_parts. Qed.
#[local] Instance steady_after sent : Steady (R:=R) (after sent).
Proof. unfold after. by_parts. Qed.
#[local] Instance steady_reply sequence status detail : Steady (R:=R) (reply strerror session sequence status detail).
Proof. unfold reply. by_parts. Qed.
#[local] Instance steady_report report total : Steady (R:=R) (send_report strerror session report total).
Proof. unfold send_report. by_parts. Qed.
#[local] Instance steady_memory : Steady (R:=R) (tell_memory strerror session).
Proof. unfold tell_memory, the_runner. by_parts. Qed.
#[local] Instance steady_close over : Steady (R:=R) (close_runner strerror session over).
Proof. unfold close_runner, the_runner. by_parts. Qed.
#[local] Instance steady_reconfigure sequence next cpus : Steady (R:=R) (reconfigure strerror session sequence next cpus).
Proof. unfold reconfigure, release, install, the_runner. by_parts. Qed.
#[local] Instance steady_apply sequence command now : Steady (R:=R) (VerifiedRun.apply strerror session sequence command now).
Proof. unfold VerifiedRun.apply. by_parts. Qed.
#[local] Instance steady_handle found now : Steady (R:=R) (handle_all strerror session found now).
Proof. induction found; cbn [handle_all]; by_parts. Qed.
#[local] Instance steady_run_slice now busy : Steady (R:=R) (run_a_slice strerror session now busy).
Proof. unfold run_a_slice, tell_slice, the_runner. by_parts. Qed.
#[local] Instance steady_work now : Steady (R:=R) (look_and_work strerror session now).
Proof. unfold look_and_work. by_parts. Qed.

Lemma bind_value {A B} (m : M K R A) (k : A → M K R B) t s b t' s' :
  bind m k t s = Some (Value b, t', s') →
  ∃ a t1 s1, m t s = Some (Value a, t1, s1) ∧ k a t1 s1 = Some (Value b, t', s').
Proof. unfold bind. destruct (m t s) as [[[[a|e] t1] s1]|]; try done. intros E. by exists a, t1, s1. Qed.

(** A tick that another follows has read a time before the run's end. *)
Lemma once_advances started self t s t' s' :
  0 ≤ raw_ns started < 2 ^ 63 → once strerror session started self t s = Some (Value kContinue, t', s') →
  instant s < instant s' ∧ instant s < (duration_ns (pacing session) + raw_ns started) * readings K.
Proof.
  intros Hs (now & t1 & s1 & E1 & E)%bind_value. unfold read_now, call in E1.
  destruct (clock_now read_clock s) as [now0 s2] eqn:Ec. injection E1 as -> -> ->.
  destruct now as [now|e]; [|done]. destruct (clock_now_time s now s1 Ec) as (Hlt & Hlow & _ & Hnow).
  destruct (Platform.between started now) as [e|e] eqn:Eb; [|done].
  destruct (between_exact _ _ _ Hs Hnow Eb) as [He _]. cbv zeta in E. rewrite He in E.
  assert (instant s1 ≤ instant s') as Hst.
  { match type of E with ?m t1 s1 = _ => assert (Steady (R:=R) m) as Hm by by_parts end. by apply Hm in E. }
  split; [lia|]. apply bind_value in E as (total & t2 & s2 & _ & (u & t3 & s3 & _ & (t4 & t5 & s4 & _ & (p & t6 & s5 & _ & E)%bind_value)%bind_value)%bind_value).
  destruct p as [[]|]; [|done]. destruct (Z.leb_spec (duration_ns (pacing session)) (raw_ns now - raw_ns started)); [done|].
  pose proof (readings_positive (K:=K)). nia.
Qed.

Lemma tell_memory_time t s r t' s' : tell_memory strerror session t s = Some (r, t', s') → instant s ≤ instant s'.
Proof. apply steady_memory. Qed.

End Steady.

Section Facts.
Context {K R : Type} (session : Session) `{RunnerLaws K R session} `{!PollLaws K (control_fd session)}
  (strerror : Z → text).

#[local] Notation heard_bytes s := (taken (fd:=control_fd session) s).
#[local] Notation said_bytes s := (piped (fd:=record_fd session) s).

#[local] Instance quiet_preorder : PreOrder quiet.
Proof.
  split; [by intros s|]. intros a b c (E1 & E2 & E3) (F1 & F2 & F3).
  unfold quiet, undisturbed. by rewrite F1, F2, F3.
Qed.

(** *** Calls that say nothing *)

Lemma clock_now_quiet s r s' : clock_now read_clock s = (r, s') → quiet s s'.
Proof. apply clock_now_keeps; [apply _|apply clock_quiet]. Qed.

Lemma watch_gone_quiet last now elapsed s r l s' :
  watch_gone session last now elapsed s = (r, l, s') → quiet s s'.
Proof.
  unfold watch_gone. destruct (region_observe kControllerSlot s) as [o s1] eqn:E. apply observe_quiet in E.
  by intros [= _ <-].
Qed.

Lemma prepare_quiet args cpus first s r s' : prepare strerror args cpus first s = (r, s') → quiet s s'.
Proof. apply prepare_keeps; [apply _|apply fp_quiet|apply pool_quiet|apply drop_pool_quiet|apply make_quiet]. Qed.

(** A runner just made has counted nothing and begins where it was told to. *)
Lemma prepare_fresh args cpus first s r s' :
  prepare strerror args cpus first s = (Value r, s') → is_open r ∧ runner_total r = no_tally ∧ index_of r = first
    ∧ runs_on isa_supported isa_compiled (wl_isa args).
Proof.
  unfold prepare. destruct (establish_environment s) as [[[]|] s1]; [|done].
  destruct (select_path _ _ _) as [path|] eqn:Epath; [|done]. apply select_requested in Epath as [_ Hruns].
  destruct (workloads_create _ _) as [[d w]|]; [|done].
  destruct (oracles_create _ _ _); [|done]. destruct (placements_for _ _) as [placements|]; [|done].
  destruct (make_pool placements s1) as [[] s2]; [|done]. destruct (assert_environment s2); [|done].
  destruct (make_runner _ s2) as [[m|] s3] eqn:E; [|done]. intros [= <- <-]. apply make_fresh in E. tauto.
Qed.

(** *** Calls that say, and calls that hear *)

Lemma send_loop_quiet fuel i bytes s r s' :
  send_loop (record_fd session) fuel i bytes s = Some (r, s') →
  slices s' = slices s ∧ heard_bytes s' = heard_bytes s.
Proof.
  revert i bytes s. induction fuel as [|fuel IH]; intros i [|b l] s; cbn [send_loop]; try (by intros [= <- <-]).
  destruct (write_fd (record_fd session) (b :: l) s) as [[n|e] s1] eqn:E; apply write_quiet in E as [E1 E2].
  - destruct (n =? 0); [by intros [= <- <-]|]. intros [I1 I2]%IH. by rewrite I1, I2.
  - destruct (_ && _); [|by intros [= <- <-]]. intros [I1 I2]%IH. by rewrite I1, I2.
Qed.

(** One frame: sent whole, or as far as the pipe took it. *)
Lemma deliver_spec type bytes s :
  ∃ d s', deliver strerror session type bytes s = Some (d, s')
    ∧ slices s' = slices s ∧ heard_bytes s' = heard_bytes s
    ∧ let frame := frame_of {| rec_type := type; rec_payload := bytes |} in
      match d with
      | Sent => said_bytes s' = said_bytes s ++ frame
      | _ => ∃ k, said_bytes s' = said_bytes s ++ take k frame
      end.
Proof.
  unfold deliver, send, frame_of. cbn [rec_type rec_payload]. destruct (encode type bytes) as [f|e] eqn:E.
  - destruct (send_loop_spec (record_fd session) (send_turns f) 0 f s) as (out & s' & Es & Hm);
      [done|unfold send_turns, kChannelMaxConsecutiveInterrupts; lia|].
    rewrite Es. cbn [mbind option_bind]. pose proof (send_loop_quiet _ _ _ _ _ _ Es) as [I1 I2].
    eexists _, s'. split; [done|]. split; [done|]. split; [done|].
    destruct out as [u|e]; [done|]. destruct Hm as [_ (k & _ & Hm)]. cbv zeta. destruct (_ =? EPIPE); by exists k.
  - cbn [mbind option_bind]. eexists _, s. split; [done|]. split; [done|]. split; [done|].
    cbv zeta. destruct (_ =? EPIPE); exists 0%nat; by rewrite app_nil_r.
Qed.

Lemma read_chunk_quiet turns s r s' :
  read_chunk (control_fd session) turns s = (r, s') → slices s' = slices s ∧ said_bytes s' = said_bytes s.
Proof.
  revert s. induction turns as [|turns IH]; intros s; cbn [read_chunk];
    destruct (read_fd (control_fd session) kChunkBytes s) as [[bs|e] s1] eqn:E; apply read_quiet in E as [E1 E2];
    try (by intros [= <- <-]).
  destruct (number_ e =? EINTR); [|by intros [= <- <-]]. intros [I1 I2]%IH. by rewrite I1, I2.
Qed.

Lemma look_quiet wait src s out src' s' :
  look strerror session wait src s = (out, src', s') → slices s' = slices s ∧ said_bytes s' = said_bytes s.
Proof.
  unfold look. destruct (poll_readable _ wait s) as [ready s1] eqn:Ep. apply poll_quiet in Ep as (P1 & P2 & _).
  destruct ready as [control|e]; [|by intros [= <- <- <-]].
  destruct (negb _); [by intros [= <- <- <-]|]. unfold drain.
  destruct (source_ended src); [by intros [= <- <- <-]|].
  destruct (faulted _); [destruct (IpcRecord.finish _); by intros [= <- <- <-]|].
  destruct (read_chunk _ 127 s1) as [[[|c chunk]|e] s2] eqn:Er; apply read_chunk_quiet in Er as [R1 R2];
    [destruct (IpcRecord.finish _)|destruct (next_all _ _) as [[records fault] r]|]; intros [= <- <- <-]; by rewrite R1, R2.
Qed.
(** *** The state of a run

    [s0] is the world the run began in and [stream] what the controller wrote. *)

Context (s0 : K) (stream : list ControlMessage).

Definition overheard (s : K) : Prop :=
  Forall order_ok stream ∧ heard_bytes s0 = [] ∧ heard_bytes s `prefix_of` (stream ≫= order_frame).

(** Said are [said] and then [rest]; run were [ran]; of their records and [closing],
    [owed] are still to be sent; [pending] are the orders heard and not answered. *)
Record working (said : list Said) (rest : list byte) (ran : list (Z * SliceReport)) (owed closing : list ErrorRecord)
    (pending : list Z) (elapsed : Z) (t : Ticker R) (s : K) : Prop := {
  w_bytes : said_bytes s = said_bytes s0 ++ (said ≫= said_frame) ++ rest;
  w_slices : slices s = slices s0 ++ ran;
  w_found : found said ++ owed = records_of ran ++ closing;
  w_chained : chained 0 ran (next_index (running t));
  w_orders : overheard s → ∃ heard, Forall order_ok heard
    ∧ source_inv (control_fd session) (order_record <$> heard) (orders (pace t)) s
    ∧ message_sequence <$> heard = acked said ++ pending;
  w_elapsed : outcome_elapsed_ns (outcome (result t)) = elapsed;
}.

Definition whole_work ran owed closing pending elapsed t s : Prop :=
  ∃ said, working said [] ran owed closing pending elapsed t s.
Definition cut_work ran closing pending elapsed t s : Prop :=
  ∃ said next k owed, working said (take k (said_frame next)) ran owed closing pending elapsed t s.

Lemma whole_cut ran owed closing pending elapsed t s :
  whole_work ran owed closing pending elapsed t s → cut_work ran closing pending elapsed t s.
Proof. intros [said Hw]. by exists said, (Counted no_tally), 0%nat, owed. Qed.

(** What a count comes to when no slice counted anything. *)
Definition counts_nothing (f : Tally → Z) (ran : list (Z * SliceReport)) : Prop :=
  Forall (λ slice, f (slice_tally slice.2) = 0) ran.
Definition oracle_or_bracket (f : Tally → Z) : Prop := f = oracle_blocks ∨ f = integrity_checked.

(** The runner is there, open, its total is the part of the whole not carried, and it is on
    a path the machine has. *)
Definition live (ran : list (Z * SliceReport)) (t : Ticker R) : Prop :=
  ∃ r, runner_ (running t) = Some r ∧ is_open r ∧ runner_counted (running t) = false
    ∧ index_of r = next_index (running t)
    ∧ add_tally (carried (running t)) (runner_total r) = tally_of_all ran
    ∧ (∀ f, oracle_or_bracket f → counts_nothing f ran → f (carried (running t)) = 0 ∧ f (runner_total r) = 0)
    ∧ runs_on isa_supported isa_compiled (wl_isa (args (running t))).

(** The runner was closed: all is carried. *)
Definition shut (ran : list (Z * SliceReport)) (t : Ticker R) : Prop :=
  runner_counted (running t) = true ∧ carried (running t) = tally_of_all ran
  ∧ ∀ f, oracle_or_bracket f → counts_nothing f ran → f (carried (running t)) = 0.

Definition truthful (ran : list (Z * SliceReport)) (record : ErrorRecord) : Prop :=
  states_zero record kOracleSubject = true ∧ oracle_blocks (tally_of_all ran) = 0
  ∨ states_zero record kBracketSubject = true ∧ integrity_checked (tally_of_all ran) = 0.

(** The orders the bytes heard hold whole. *)
Definition orders_heard (s : K) : list ControlMessage :=
  whole_prefix order_frame (length (heard_bytes s)) stream.

(** A run that is over, well or not: how much of it was said. *)
Record story (said : list Said) (next : Said) (k : nat) (ran : list (Z * SliceReport)) (closing : list ErrorRecord)
    (s : K) : Prop := {
  story_bytes : said_bytes s = said_bytes s0 ++ (said ≫= said_frame) ++ take k (said_frame next);
  story_slices : slices s = slices s0 ++ ran;
  story_chained : ∃ last, chained 0 ran last;
  story_found : found said `prefix_of` records_of ran ++ closing;
  story_truthful : Forall (truthful ran) closing;
  story_orders : overheard s → acked said `prefix_of` (message_sequence <$> orders_heard s);
}.

Definition told (s : K) : Prop := ∃ said next k ran closing, story said next k ran closing s.

(** What an outcome says of the run it ends. *)
Record outcome_true (said : list Said) (k : nat) (ran : list (Z * SliceReport)) (closing : list ErrorRecord) (elapsed : Z)
    (o : VerifiedOutcome) (s : K) : Prop := {
  true_tally : tally o = tally_of_all ran;
  true_progress : outcome_progress (outcome o) = units_computed (tally o);
  true_elapsed : outcome_elapsed_ns (outcome o) = elapsed;
  true_whole : outcome_reason (outcome o) ≠ kControllerHungUp → k = 0%nat ∧ found said = records_of ran ++ closing;
  true_answers : outcome_reason (outcome o) ≠ kControllerHungUp → outcome_reason (outcome o) ≠ kStopRequested →
    overheard s → acked said = message_sequence <$> orders_heard s;
  true_last_word : controller_lost (outcome_reason (outcome o)) = false →
    last said = Some (Counted (tally o))
    ∧ (counts_nothing oracle_blocks ran → Exists (λ record, states_zero record kOracleSubject = true) closing)
    ∧ (counts_nothing integrity_checked ran → Exists (λ record, states_zero record kBracketSubject = true) closing);
}.

Definition told_with (elapsed : Z) (o : VerifiedOutcome) (s : K) : Prop :=
  ∃ said next k ran closing, story said next k ran closing s ∧ outcome_true said k ran closing elapsed o s.

(** The orders heard are those of the stream that are whole in its bytes. *)
Lemma heard_whole heard src s :
  overheard s → Forall order_ok heard → source_inv (control_fd session) (order_record <$> heard) src s →
  heard = orders_heard s.
Proof.
  intros (Hms & _ & Hpre) Hok Hinv.
  destruct (source_inv_orders session stream _ _ s Hms Hpre Hinv) as [(m & Hrec & Hm) _].
  apply (f_equal control_messages) in Hrec. rewrite !control_messages_orders in Hrec; [|..|done].
  - injection Hrec as ->. unfold orders_heard. destruct Hpre as [rest Hrest].
    assert (take m (stream ≫= order_frame) = take (length (heard_bytes s)) (stream ≫= order_frame)) as Hsame.
    { rewrite <- Hm, Hrest. by rewrite take_app_length. }
    destruct (decide (m ≤ length (stream ≫= order_frame))%nat).
    + f_equal. apply (f_equal length) in Hsame. rewrite !length_take in Hsame.
      apply (f_equal length) in Hrest. rewrite length_app in Hrest. lia.
    + rewrite !whole_prefix_all; [done| |lia].
      apply (f_equal length) in Hm. rewrite length_take in Hm. lia.
  - destruct (whole_prefix_prefix order_frame m stream) as [q Hq]. rewrite Hq, Forall_app in Hms. tauto.
Qed.

Lemma working_story said next k ran owed closing pending elapsed t s :
  working said (take k (said_frame next)) ran owed closing pending elapsed t s → Forall (truthful ran) closing →
  story said next k ran closing s
  ∧ (overheard s → acked said ++ pending = message_sequence <$> orders_heard s).
Proof.
  intros [Hb Hs Hf Hc Ho He] Ht.
  assert (overheard s → acked said ++ pending = message_sequence <$> orders_heard s) as Hack.
  { intros Hover. destruct (Ho Hover) as (heard & Hok & Hinv & Hseq). rewrite <- Hseq. f_equal. by eapply heard_whole. }
  split; [|done]. split; [done|done|by eexists| |done|].
  - rewrite <- Hf. by apply prefix_app_r.
  - intros Hover. rewrite <- Hack by done. by apply prefix_app_r.
Qed.

Lemma cut_told ran closing pending elapsed t s :
  cut_work ran closing pending elapsed t s → Forall (truthful ran) closing → told s.
Proof. intros (said & next & k & owed & Hw) Ht. eapply working_story in Hw as [? _]; [|done]. by eexists _, _, _, _, _. Qed.

(** *** What does not change it *)

Lemma working_orders said src pending s s' :
  heard_bytes s' = heard_bytes s →
  (overheard s → ∃ heard, Forall order_ok heard ∧ source_inv (control_fd session) (order_record <$> heard) src s
    ∧ message_sequence <$> heard = acked said ++ pending) →
  overheard s' → ∃ heard, Forall order_ok heard ∧ source_inv (control_fd session) (order_record <$> heard) src s'
    ∧ message_sequence <$> heard = acked said ++ pending.
Proof.
  intros E Ho Hover. destruct Ho as (heard & ? & ? & ?); [unfold overheard in *; by rewrite <- E|].
  exists heard. split_and!; [done| |done]. by eapply source_inv_taken.
Qed.

Lemma working_quiet said rest ran owed closing pending elapsed t s s' :
  quiet s s' → working said rest ran owed closing pending elapsed t s → working said rest ran owed closing pending elapsed t s'.
Proof.
  intros (Q1 & Q2 & Q3) [Hb Hs Hf Hc Ho He]. split; [by rewrite Q2|by rewrite Q1|done|done| |done].
  by eapply working_orders.
Qed.

Lemma working_ticker said rest ran owed closing pending elapsed t t' s :
  next_index (running t') = next_index (running t) → orders (pace t') = orders (pace t) →
  outcome_elapsed_ns (outcome (result t')) = outcome_elapsed_ns (outcome (result t)) →
  working said rest ran owed closing pending elapsed t s → working said rest ran owed closing pending elapsed t' s.
Proof. intros E1 E2 E3 [Hb Hs Hf Hc Ho He]. split; rewrite ?E1, ?E2, ?E3; done. Qed.

Lemma live_ticker ran t t' : running t' = running t → live ran t → live ran t'.
Proof. unfold live. by intros ->. Qed.

Lemma whole_quiet ran owed closing pending elapsed t s s' :
  quiet s s' → whole_work ran owed closing pending elapsed t s → whole_work ran owed closing pending elapsed t s'.
Proof. intros Hq [said Hw]. exists said. by eapply working_quiet. Qed.

(** *** Sending *)

(** One frame sent: said whole or, when the pipe broke, in part; the ticker stands. *)
Lemma send_one one said ran owed closing pending elapsed owed' pending' f t s :
  (∀ s, ∃ d s', f s = Some (d, s') ∧ slices s' = slices s ∧ heard_bytes s' = heard_bytes s
    ∧ match d with Sent => said_bytes s' = said_bytes s ++ said_frame one
      | _ => ∃ k, said_bytes s' = said_bytes s ++ take k (said_frame one) end) →
  found [one] ++ owed' = owed → acked [one] ++ pending' = pending →
  working said [] ran owed closing pending elapsed t s →
  ∃ d s', call_fueled f t s = Some (Value d, t, s')
    ∧ match d with
      | Sent => working (said ++ [one]) [] ran owed' closing pending' elapsed t s'
      | _ => cut_work ran closing pending elapsed t s'
      end.
Proof.
  intros Hf Eo Ep [Hb Hs Hfo Hc Ho He]. destruct (Hf s) as (d & s' & E & F1 & F2 & F3).
  exists d, s'. unfold call_fueled. rewrite E. split; [done|]. rewrite app_nil_r in Hb.
  assert (∀ k, said_bytes s' = said_bytes s ++ take k (said_frame one) → cut_work ran closing pending elapsed t s') as Hcut.
  { intros k Hk. exists said, one, k, owed. split; [by rewrite Hk, Hb, <- app_assoc|by rewrite F1|done|done| |done].
    by eapply working_orders. }
  destruct d; [|destruct F3; by eapply Hcut..].
  split; [|by rewrite F1| |done| |done].
  - rewrite F3, Hb, bind_app, bind_cons, !app_nil_r, <- !app_assoc. done.
  - by rewrite found_app, <- app_assoc, Eo.
  - eapply working_orders; [done|]. intros Hover. destruct (Ho Hover) as (heard & ? & ? & Hseq). exists heard.
    split_and!; [done|done|]. by rewrite acked_app, <- app_assoc, Ep.
Qed.

Lemma send_found record ran owed closing pending elapsed (X : Ticker R → Prop) :
  spec (λ t s, whole_work ran (record :: owed) closing pending elapsed t s ∧ X t)
    (send_frame strerror session kErrorRecordFrameType (encode_record record))
    (λ d t s, X t ∧ match d with Sent => whole_work ran owed closing pending elapsed t s
                    | _ => cut_work ran closing pending elapsed t s end) told.
Proof.
  intros t s [[said Hw] HX].
  destruct (send_one (Found record) said ran (record :: owed) closing pending elapsed owed pending
    (deliver strerror session kErrorRecordFrameType (encode_record record)) t s) as (d & s' & E & Hd); [|done..|].
  { intros s1. apply (deliver_spec kErrorRecordFrameType (encode_record record) s1). }
  eexists _, t, s'. split; [exact E|]. split; [done|]. destruct d; [by eexists|done..].
Qed.

Lemma send_records_spec records ran owed closing pending elapsed (X : Ticker R → Prop) :
  spec (λ t s, whole_work ran (records ++ owed) closing pending elapsed t s ∧ X t)
    (send_records strerror session records)
    (λ d t s, X t ∧ match d with Sent => whole_work ran owed closing pending elapsed t s
                    | _ => cut_work ran closing pending elapsed t s end) told.
Proof.
  induction records as [|record records IH]; cbn [send_records app].
  - apply spec_ret. by intros t s [].
  - eapply spec_bind; [apply send_found|]. intros [| |e]; [|apply spec_ret; by intros ? ? []..].
    eapply spec_pre; [|apply IH]. by intros t s [].
Qed.

(** The records, and the tally after them: the last word so far. *)
Lemma send_report_spec report total ran closing pending elapsed (X : Ticker R → Prop) :
  spec (λ t s, whole_work ran (slice_records report) closing pending elapsed t s ∧ X t)
    (send_report strerror session report total)
    (λ d t s, X t ∧ match d with
       | Sent => ∃ said, working (said ++ [Counted total]) [] ran [] closing pending elapsed t s
       | _ => cut_work ran closing pending elapsed t s end) told.
Proof.
  unfold send_report. eapply spec_bind.
  - eapply spec_pre; [|apply (send_records_spec (slice_records report) ran [])]. intros t s [? ?]. by rewrite app_nil_r.
  - intros [| |e]; [|apply spec_ret; by intros ? ? []..]. intros t s [HX [said Hw]].
    destruct (send_one (Counted total) said ran [] closing pending elapsed [] pending
      (deliver strerror session kTallyFrameType (encode_tally total)) t s) as (d & s' & E & Hd); [|done..|].
    { intros s1. apply (deliver_spec kTallyFrameType (encode_tally total) s1). }
    eexists _, t, s'. split; [exact E|]. split; [done|]. destruct d; [by eexists|done..].
Qed.

Lemma send_ack sequence status detail ran closing pending elapsed (X : Ticker R → Prop) :
  spec (λ t s, whole_work ran [] closing (sequence :: pending) elapsed t s ∧ X t)
    (call_fueled (answer strerror session sequence status detail))
    (λ d t s, X t ∧ match d with Sent => whole_work ran [] closing pending elapsed t s
                    | _ => cut_work ran closing (sequence :: pending) elapsed t s end) told.
Proof.
  intros t s [[said Hw] HX].
  destruct (send_one (Acked (ack_for sequence status detail)) said ran [] closing (sequence :: pending) elapsed [] pending
    (answer strerror session sequence status detail) t s) as (d & s' & E & Hd); [|done..|].
  { intros s1. apply (deliver_spec kControlAckFrameType (encode_ack (ack_for sequence status detail)) s1). }
  eexists _, t, s'. split; [exact E|]. split; [done|]. destruct d; [by eexists|done..].
Qed.

(** *** Leaving *)

Definition countable (ran : list (Z * SliceReport)) (u : Running R) : Prop :=
  ∀ t : Ticker R, running t = u → live ran t ∨ shut ran t.

Lemma leave_eq reason ran t s :
  live ran t ∨ shut ran t →
  ∃ t', leave_run reason t s = Some (Value kLeave, t', s) ∧ running t' = running t
    ∧ outcome (result t') = {| outcome_reason := reason; outcome_progress := units_computed (tally_of_all ran);
                               outcome_elapsed_ns := outcome_elapsed_ns (outcome (result t)) |}
    ∧ tally (result t') = tally_of_all ran.
Proof.
  unfold leave_run, bind, modify, get, ret, whole, the_runner, set_result, with_reason. cbn.
  intros [(r & Hr & _ & Hc & _ & Hsum & _)|(Hc & Hsum & _)]; rewrite Hc.
  - cbn. unfold bind, get, ret. cbn. rewrite Hr. cbn. rewrite Hsum. by eexists.
  - cbn. rewrite Hsum. by eexists.
Qed.

(** The worker left because no one reads its records, counting all it ran. *)
Definition left_unread (ran : list (Z * SliceReport)) (elapsed : Z) (t : Ticker R) (s : K) : Prop :=
  told_with elapsed (result t) s ∧ outcome_reason (outcome (result t)) = kControllerHungUp
  ∧ tally (result t) = tally_of_all ran.

Lemma left_unread_lost ran elapsed t s :
  left_unread ran elapsed t s → told_with elapsed (result t) s ∧ controller_lost (outcome_reason (outcome (result t))) = true.
Proof. intros (? & -> & _). done. Qed.

(** The pipe broke: the worker leaves with its count, or with the error. *)
Lemma after_spec d ran closing pending elapsed u (S : Ticker R → K → Prop) :
  countable ran u → Forall (truthful ran) closing →
  spec (λ t s, running t = u ∧ match d with Sent => S t s | _ => cut_work ran closing pending elapsed t s end)
    (after d)
    (λ step t s, running t = u ∧ match step with
       | kContinue => d = Sent ∧ S t s
       | kEnd => False
       | kLeave => left_unread ran elapsed t s
       end) told.
Proof.
  intros Hu Ht t s [Hru Hd]. destruct d as [| |error]; cbn [after].
  - by eexists _, t, s.
  - destruct Hd as (said & next & k & owed & Hw).
    destruct (leave_eq kControllerHungUp ran t s (Hu t Hru)) as (t' & E & Er & Eo & Et). rewrite E.
    exists (Value kLeave), t', s. split; [done|]. split; [congruence|]. split; [|by rewrite Eo].
    destruct (working_story _ _ _ _ _ _ _ _ _ _ Hw Ht) as [Hstory _].
    exists said, next, k, ran, closing. split; [done|].
    split; rewrite ?Eo, ?Et; cbn; try done. by destruct Hw.
  - exists (Error error), t, s. split; [done|]. by eapply cut_told.
Qed.

(** The controller is lost, with nothing owed. *)
Lemma leave_lost reason ran elapsed :
  controller_lost reason = true →
  spec (λ t s, whole_work ran [] [] [] elapsed t s ∧ live ran t) (leave_run reason)
    (λ step t s, step = kLeave ∧ told_with elapsed (result t) s ∧ controller_lost (outcome_reason (outcome (result t))) = true) told.
Proof.
  intros Hlost t s [[said Hw] Hl]. destruct (leave_eq reason ran t s (or_introl Hl)) as (t' & E & Er & Eo & Et).
  rewrite E. exists (Value kLeave), t', s. split; [done|]. split; [done|]. split; [|by rewrite Eo].
  destruct (working_story said (Counted no_tally) 0%nat _ _ _ _ _ _ _ Hw (Forall_nil_2 _)) as [Hstory Hack].
  eexists said, _, 0%nat, ran, []. split; [exact Hstory|]. destruct Hw as [_ _ Hf _ _ He].
  split; rewrite ?Eo, ?Et; cbn; try done.
  - intros _. by rewrite app_nil_r in Hf.
  - intros _ _ Hover. rewrite <- Hack by done. by rewrite app_nil_r.
  - congruence.
Qed.

Lemma reply_spec sequence status detail ran closing pending elapsed u :
  countable ran u → Forall (truthful ran) closing →
  spec (λ t s, running t = u ∧ whole_work ran [] closing (sequence :: pending) elapsed t s)
    (reply strerror session sequence status detail)
    (λ step t s, running t = u ∧ match step with
       | kContinue => whole_work ran [] closing pending elapsed t s
       | kEnd => False
       | kLeave => left_unread ran elapsed t s
       end) told.
Proof.
  intros Hu Ht. unfold reply. eapply spec_bind.
  - eapply spec_pre; [|apply (send_ack sequence status detail ran closing pending elapsed (λ t, running t = u))]. by intros t s [].
  - intros d. eapply spec_post; [apply (after_spec d ran closing (sequence :: pending) elapsed u (whole_work ran [] closing pending elapsed) Hu Ht)|].
    intros step t s [? Hq]. split; [done|]. destruct step; tauto.
Qed.

(** *** Closing a runner *)

(** What a worker keeps of a runner's statements: nothing in the middle of a run, and at
    its end what is true of the whole. *)
Definition kept (ran : list (Z * SliceReport)) (run_over : bool) (closing : list ErrorRecord) : Prop :=
  Forall (truthful ran) closing ∧ (run_over = false → closing = [])
  ∧ (run_over = true →
       (counts_nothing oracle_blocks ran → Exists (λ record, states_zero record kOracleSubject = true) closing)
       ∧ (counts_nothing integrity_checked ran → Exists (λ record, states_zero record kBracketSubject = true) closing)).

Lemma counts_nothing_all f ran : oracle_or_bracket f → counts_nothing f ran → f (tally_of_all ran) = 0.
Proof.
  intros Hf. induction ran as [|[i r] ran IH] using rev_ind; [by destruct Hf as [-> | ->]|].
  unfold counts_nothing. rewrite Forall_app, Forall_singleton. intros [C1 C2]. rewrite tally_of_all_snoc. cbn in C2.
  specialize (IH C1). destruct Hf as [-> | ->]; cbn in *; by rewrite IH, C2.
Qed.

Lemma not_both_subjects record :
  states_zero record kOracleSubject = true → states_zero record kBracketSubject = true → False.
Proof.
  unfold states_zero. destruct record as [?|?|unrun]; try done. intros [k1 E1]%bool_decide_eq_true [k2 E2]%bool_decide_eq_true. by rewrite E1 in E2.
Qed.

Lemma kept_statements last ran run_over :
  Forall (λ record, states_zero record kOracleSubject || states_zero record kBracketSubject = true) (slice_records last) →
  (counts_nothing oracle_blocks ran → Exists (λ record, states_zero record kOracleSubject = true) (slice_records last)) →
  (counts_nothing integrity_checked ran → Exists (λ record, states_zero record kBracketSubject = true) (slice_records last)) →
  kept ran run_over (slice_records (keep_true_statements last (tally_of_all ran) run_over)).
Proof.
  intros Hall Ho Hb. unfold keep_true_statements. cbn [slice_records]. rewrite Forall_forall in Hall. split; [|split].
  - apply Forall_forall. intros record [Hkeep Hrec]%list_elem_of_filter. specialize (Hall record Hrec).
    apply orb_false_iff in Hkeep as [K1 K2]. unfold truthful.
    destruct (states_zero record kOracleSubject), (states_zero record kBracketSubject), run_over; cbn [andb orb negb] in *; try done;
      rewrite ?negb_false_iff, ?Z.eqb_eq in *; auto.
  - intros ->. apply elem_of_nil_inv. intros record [Hkeep Hrec]%list_elem_of_filter. specialize (Hall record Hrec).
    cbn [andb negb] in Hkeep. destruct (states_zero record kOracleSubject), (states_zero record kBracketSubject); done.
  - intros ->. split; intros Hnone; [specialize (Ho Hnone)|specialize (Hb Hnone)];
      [apply Exists_exists in Ho as (record & Hrec & Hz)|apply Exists_exists in Hb as (record & Hrec & Hz)];
      apply Exists_exists; exists record; (split; [|done]); apply list_elem_of_filter; (split; [|done]); rewrite Hz.
    + rewrite (counts_nothing_all oracle_blocks ran (or_introl eq_refl) Hnone). 
      destruct (states_zero record kBracketSubject) eqn:E; [|done]. by destruct (not_both_subjects record).
    + rewrite (counts_nothing_all integrity_checked ran (or_intror eq_refl) Hnone). 
      destruct (states_zero record kOracleSubject) eqn:E; [|done]. by destruct (not_both_subjects record).
Qed.

Definition runner_there (t : Ticker R) : Prop := is_Some (runner_ (running t)).

Lemma close_runner_spec run_over ran pending elapsed said_so :
  spec (λ t s, (whole_work ran [] [] pending elapsed t s ∧ live ran t) ∧ result t = said_so)
    (close_runner strerror session run_over)
    (λ step t s, shut ran t ∧ runner_there t ∧ ∃ closing, kept ran run_over closing
       ∧ match step with
         | kContinue => result t = said_so ∧ ∃ said, working (said ++ [Counted (tally_of_all ran)]) [] ran [] closing pending elapsed t s
         | kEnd => False
         | kLeave => left_unread ran elapsed t s
         end) told.
Proof.
  intros t s [[[said Hw] (r & Hr & Hopen & Hcount & Hindex & Hsum & Hzero & _)] Hsaid].
  destruct (runner_finish r s) as [[answer r'] s'] eqn:Ef.
  destruct (finish_states _ _ _ _ _ Hopen Ef) as (Hq & Htot & last & -> & Hnext & Hall & Ho & Hb).
  set (closing := slice_records (keep_true_statements last (tally_of_all ran) run_over)).
  assert (kept ran run_over closing) as Hkept.
  { apply kept_statements; [done|..]; intros Hnone.
    - apply Ho, (Hzero oracle_blocks (or_introl eq_refl) Hnone).
    - apply Hb, (Hzero integrity_checked (or_intror eq_refl) Hnone). }
  set (u := {| args := args (running t); run_cpus := run_cpus (running t); runner_ := Some r';
               next_index := slice_next_index last; carried := tally_of_all ran; runner_counted := true |}).
  set (t1 := {| running := u; pace := pace t; result := result t |}).
  assert (shut ran t1) as Hshut by (split; [done|]; split; [done|]; intros f Hf Hnone; by apply counts_nothing_all).
  assert (close_runner strerror session run_over t s
          = bind (send_report strerror session (keep_true_statements last (tally_of_all ran) run_over) (tally_of_all ran)) after t1 s') as ->.
  { unfold close_runner, the_runner, bind at 1 2, get, ret. rewrite Hr. unfold bind at 1, call. rewrite Ef.
    unfold bind at 1, modify. cbn. unfold bind, modify. cbn. rewrite Htot, Hsum. done. }
  assert (spec (λ t s, whole_work ran closing closing pending elapsed t s ∧ running t = u ∧ result t = said_so)
    (bind (send_report strerror session (keep_true_statements last (tally_of_all ran) run_over) (tally_of_all ran)) after)
    (λ step t s, running t = u ∧ match step with
       | kContinue => result t = said_so ∧ ∃ said, working (said ++ [Counted (tally_of_all ran)]) [] ran [] closing pending elapsed t s
       | kEnd => False
       | kLeave => left_unread ran elapsed t s
       end) told) as Hspec.
  { eapply spec_bind; [apply (send_report_spec _ _ ran closing pending elapsed (λ t, running t = u ∧ result t = said_so))|]. intros d.
    eapply spec_post; [eapply spec_pre; [|eapply (after_spec d ran closing pending elapsed u (λ t s, result t = said_so ∧ ∃ said, working (said ++ [Counted (tally_of_all ran)]) [] ran [] closing pending elapsed t s)); [|apply Hkept]]|].
    - intros t2 s2 [[? ?] Hd]. split; [done|]. by destruct d.
    - intros t2 E. right. unfold shut in *. by rewrite E.
    - intros step t2 s2 [? Hq2]. split; [done|]. destruct step; tauto. }
  destruct (Hspec t1 s') as (out & t2 & s2 & E & Hres).
  { split; [|done]. exists said. apply (working_quiet _ _ _ _ _ _ _ _ _ _ Hq) in Hw as [W1 W2 W3 W4 W5 W6].
    split; [done|done| | |done|done].
    - rewrite app_nil_r in W3. by rewrite W3, app_nil_r.
    - cbn. by rewrite Hnext, Hindex. }
  exists out, t2, s2. split; [exact E|]. destruct out as [step|]; [|done]. destruct Hres as [Hu Hstep].
  split; [unfold shut in *; by rewrite Hu|]. split; [unfold runner_there; rewrite Hu; by eexists|]. by exists closing.
Qed.

(** *** Replacing a runner *)

(** A worker at work: nothing owed, its runner there. *)
Definition at_work (ran : list (Z * SliceReport)) (pending : list Z) (elapsed : Z) (t : Ticker R) (s : K) : Prop :=
  whole_work ran [] [] pending elapsed t s ∧ live ran t.

Lemma live_countable ran t : live ran t → countable ran (running t).
Proof. intros Hl t' E. left. by eapply live_ticker. Qed.

Lemma tell_memory_spec ran pending elapsed u :
  spec (λ t s, at_work ran pending elapsed t s ∧ running t = u) (tell_memory strerror session)
    (λ d t s, running t = u ∧ match d with Sent => whole_work ran [] [] pending elapsed t s
                              | _ => cut_work ran [] pending elapsed t s end) told.
Proof.
  intros t s [[[said Hw] (r & Hr & Hl)] Hu].
  destruct (send_one (Locked (runner_lock r)) said ran [] [] pending elapsed [] pending
    (deliver strerror session kMemoryFrameType (encode_memory (runner_lock r))) t s) as (d & s' & E & Hd); [|done..|].
  { intros s1. apply (deliver_spec kMemoryFrameType (encode_memory (runner_lock r)) s1). }
  exists (Value d), t, s'. unfold tell_memory, the_runner, bind, get, ret. rewrite Hr. split; [exact E|].
  split; [done|]. destruct d; [by eexists|done..].
Qed.

(** What a step of an order comes to. *)
Definition order_step (ran : list (Z * SliceReport)) (pending : list Z) (elapsed : Z) (step : Step) (t : Ticker R) (s : K) : Prop :=
  match step with
  | kContinue => at_work ran pending elapsed t s
  | kEnd => at_work ran pending elapsed t s ∧ outcome_reason (outcome (result t)) = kStopRequested
  | kLeave => told_with elapsed (result t) s ∧ controller_lost (outcome_reason (outcome (result t))) = true
  end.

Lemma work_reply sequence status detail ran pending elapsed :
  spec (at_work ran (sequence :: pending) elapsed) (reply strerror session sequence status detail)
    (λ step t s, step ≠ kEnd ∧ order_step ran pending elapsed step t s) told.
Proof.
  intros t s [Hw Hl]. pose proof (live_countable _ _ Hl) as Hc.
  destruct (reply_spec sequence status detail ran [] pending elapsed (running t) Hc (Forall_nil_2 _) t s) as (r & t' & s' & E & Hr);
    [done|]. exists r, t', s'. split; [done|]. destruct r as [step|]; [|done]. destruct Hr as [Hu Hstep].
  destruct step; [|done|]; (split; [done|]); cbn.
  - split; [done|]. by eapply live_ticker.
  - by eapply left_unread_lost.
Qed.

(** A runner just prepared carries on where the last one ended. *)
Lemma installed args cpus index r ran pending elapsed t s s' :
  index = next_index (running t) → prepare strerror args cpus index s = (Value r, s') → shut ran t →
  whole_work ran [] [] pending elapsed t s →
  ∃ t', install args cpus r t s' = Some (Value tt, t', s') ∧ at_work ran pending elapsed t' s'.
Proof.
  intros -> Hp (Hcount & Hsum & Hzero) Hw. destruct (prepare_fresh _ _ _ _ _ _ Hp) as (Hopen & Htot & Hindex & Hruns).
  apply prepare_quiet in Hp. eexists. split; [reflexivity|]. split.
  - destruct Hw as [said Hw]. exists said. apply (working_quiet _ _ _ _ _ _ _ _ _ _ Hp) in Hw.
    by eapply working_ticker; [..|exact Hw].
  - exists r. cbn. rewrite Htot, Hsum. split_and!; try done.
    + apply add_no_tally, tally_of_all_widths.
    + intros f Hf Hnone. split; [by apply counts_nothing_all|]. by destruct Hf as [-> | ->].
Qed.

(** What follows the new runner: its memory is told and the order answered. *)
Lemma told_and_answered (refusal : text) sequence ran pending elapsed :
  spec (at_work ran (sequence :: pending) elapsed)
    (let! sent := tell_memory strerror session in
     let! told := after sent in
     if negb (bool_decide (told = kContinue)) then ret told else
     if bool_decide (refusal = []) then reply strerror session sequence kDone []
     else reply strerror session sequence kRefused refusal)
    (order_step ran pending elapsed) told.
Proof.
  apply spec_fix. intros t0. set (u := running t0). apply (spec_pure _ (∀ t, running t = u → live ran t)).
  { intros t s [-> [_ Hl]] t' E. by eapply live_ticker. }
  intros Hlive. assert (countable ran u) as Hc by (intros t E; left; by apply Hlive). eapply spec_bind.
  { eapply spec_pre; [|apply (tell_memory_spec ran (sequence :: pending) elapsed u)]. by intros t s [-> ?]. }
  intros d. eapply spec_bind.
  { apply (after_spec d ran [] (sequence :: pending) elapsed u (whole_work ran [] [] (sequence :: pending) elapsed) Hc (Forall_nil_2 _)). }
  apply spec_continue.
  - apply (spec_pre _ _ (at_work ran (sequence :: pending) elapsed)).
    { intros t s (E & _ & Hw). split; [done|by apply Hlive]. }
    case_bool_decide; (eapply spec_post; [apply work_reply|]); by intros step t s [_ ?].
  - intros step t s Hne [_ Hs]. destruct step; [done|done|]. by eapply left_unread_lost.
Qed.

Lemma reconfigure_spec sequence next cpus ran pending elapsed :
  spec (at_work ran (sequence :: pending) elapsed) (reconfigure strerror session sequence next cpus)
    (order_step ran pending elapsed) told.
Proof.
  unfold reconfigure. apply spec_fix. intros u. eapply spec_bind.
  { eapply spec_pre; [|apply (close_runner_spec false ran (sequence :: pending) elapsed (result u))]. by intros t s [-> ?]. }
  apply spec_continue.
  2:{ intros step t s Hne (_ & _ & closing & _ & Hs). destruct step; [done|done|]. by eapply left_unread_lost. }
  apply (spec_pre _ _ (λ t s, whole_work ran [] [] (sequence :: pending) elapsed t s ∧ shut ran t ∧ runner_there t)).
  { intros t s (Hs & Hr & closing & (_ & Hn & _) & _ & said & Hw). rewrite Hn in Hw by done. split; [by eexists|done]. }
  apply (spec_bind _ _ _ _ (λ _ t s, whole_work ran [] [] (sequence :: pending) elapsed t s ∧ shut ran t)).
  { intros t s (Hw & Hs & [r Hr]). unfold release, the_runner, bind, get, ret, modify, call. rewrite Hr.
    eexists _, _, _. split; [reflexivity|]. split; [|exact Hs].
    eapply whole_quiet; [etrans; [apply drop_runner_quiet|apply drop_pool_quiet]|].
    destruct Hw as [said Hw]. exists said. by eapply working_ticker; [..|exact Hw]. }
  intros _. apply spec_get. intros t0. eapply spec_bind.
  - apply (spec_call _ _ _ (λ fresh t s, whole_work ran [] [] (sequence :: pending) elapsed t s ∧ shut ran t ∧ t = t0
      ∧ ∀ r, fresh = Value r → ∃ s1, prepare strerror next cpus (next_index (running t)) s1 = (Value r, s)
          ∧ whole_work ran [] [] (sequence :: pending) elapsed t s1)).
    intros t s (-> & Hw & Hs). destruct (prepare _ _ _ _ s) as [fresh s1] eqn:E. cbn [fst snd].
    split_and!; [|done|done|intros r ->; by exists s]. apply prepare_quiet in E. by eapply whole_quiet.
  - intros fresh. eapply spec_bind; [|intros refusal; apply told_and_answered]. destruct fresh as [r|e].
    + intros t s (Hw & Hs & -> & Hp). destruct (Hp r eq_refl) as (s1 & E & Hw1).
      destruct (installed next cpus _ r ran (sequence :: pending) elapsed t0 s1 s eq_refl E Hs Hw1) as (t' & Ei & Ha).
      unfold bind. rewrite Ei. by eexists _, t', s.
    + eapply spec_bind.
      * apply (spec_call _ _ _ (λ fresh t s, t = t0 ∧ told s ∧ ∀ r, fresh = Value r →
          ∃ s1, prepare strerror (args (running t)) (run_cpus (running t)) (next_index (running t)) s1 = (Value r, s)
            ∧ whole_work ran [] [] (sequence :: pending) elapsed t s1 ∧ shut ran t)).
        intros t s (Hw & Hs & -> & _). destruct (prepare _ _ _ _ s) as [fresh s1] eqn:E. cbn [fst snd].
        split_and!; [done| |intros r ->; by exists s]. apply prepare_quiet in E. eapply cut_told; [|apply Forall_nil_2].
        eapply whole_cut, whole_quiet; done.
      * intros [r|e2]; [|apply spec_fail; by intros t s (_ & ? & _)].
        intros t s (-> & _ & Hp). destruct (Hp r eq_refl) as (s1 & E & Hw1 & Hs).
        destruct (installed _ _ _ r ran (sequence :: pending) elapsed t0 s1 s eq_refl E Hs Hw1) as (t' & Ei & Ha).
        unfold bind. rewrite Ei. by eexists _, t', s.
Qed.

(** *** The orders *)

(** A Switch always finds a path: where the worker is now the machine can be. *)
Lemma path_after_found isa descriptor :
  runs_on isa_supported isa_compiled isa → ∃ path, path_after isa descriptor = Some path.
Proof.
  intros Hruns. unfold path_after. cbv zeta. destruct (isa_contains (isa_intersect _ _) isa) eqn:E.
  - assert (select_path (Some isa) isa_supported (isa_intersect isa_compiled (desc_paths descriptor)) = Value isa) as ->; [|by eexists].
    apply select_requested. split; [done|]. destruct Hruns as [->|[Hs _]]; [by left|by right].
  - destruct (select_unasked isa_supported (isa_intersect isa_compiled (desc_paths descriptor))) as (path & -> & _). by eexists.
Qed.

(** Orders that only change the pace. *)
Lemma pace_reply f sequence ran pending elapsed :
  (∀ t, running (f t) = running t ∧ result (f t) = result t ∧ orders (pace (f t)) = orders (pace t)) →
  spec (at_work ran (sequence :: pending) elapsed)
    (modify f ;;! reply strerror session sequence kDone []) (order_step ran pending elapsed) told.
Proof.
  intros Hf. eapply spec_modify; [|eapply spec_post; [apply work_reply|]; by intros step t s [_ ?]].
  intros t s [[said Hw] Hl]. destruct (Hf t) as (E1 & E2 & E3). split; [|by eapply live_ticker].
  exists said. eapply working_ticker; [..|exact Hw]; by rewrite ?E1, ?E2, ?E3.
Qed.

Lemma apply_spec sequence command now ran pending elapsed :
  spec (at_work ran (sequence :: pending) elapsed) (VerifiedRun.apply strerror session sequence command now)
    (order_step ran pending elapsed) told.
Proof.
  destruct command as [| | |duty|cpus|change]; cbn [VerifiedRun.apply].
  - eapply spec_bind; [apply work_reply|]. apply spec_continue.
    + unfold end_run. eapply (spec_modify _ _ _ _ (λ t s, at_work ran pending elapsed t s ∧ outcome_reason (outcome (result t)) = kStopRequested)).
      * intros t s (_ & [said Hw] & Hl). split; [|done]. split; [|done]. exists said. by eapply working_ticker; [..|exact Hw].
      * by apply spec_ret.
    + by intros step t s _ [_ ?].
  - by apply pace_reply.
  - by apply pace_reply.
  - by apply pace_reply.
  - apply spec_get. intros t0. eapply spec_pre; [|apply reconfigure_spec]. by intros t s [-> ?].
  - destruct (workloads_descriptor _) as [descriptor|e].
    + apply spec_get. intros t0. apply (spec_pure _ (runs_on isa_supported isa_compiled (wl_isa (args (running t0))))).
      { intros t s [-> [_ (r & _ & _ & _ & _ & _ & _ & Hruns)]]. done. }
      intros Hruns. destruct (path_after_found _ descriptor Hruns) as [path ->].
      eapply spec_pre; [|apply reconfigure_spec]. by intros t s [-> ?].
    + eapply spec_post; [apply work_reply|]. by intros step t s [_ ?].
Qed.

Lemma handle_all_spec messages now ran elapsed :
  spec (at_work ran (message_sequence <$> messages) elapsed) (handle_all strerror session messages now)
    (λ step t s, ∃ pending, order_step ran pending elapsed step t s ∧ (step = kContinue → pending = [])) told.
Proof.
  induction messages as [|message messages IH]; cbn [handle_all fmap list_fmap].
  - apply spec_ret. intros t s Hw. by exists [].
  - eapply spec_bind; [apply apply_spec|]. apply spec_continue; [exact IH|].
    intros step t s Hne Hs. by eexists.
Qed.

(** *** A tick *)

(** What a tick comes to. *)
Definition tick_step (elapsed : Z) (step : Step) (t : Ticker R) (s : K) : Prop :=
  match step with
  | kContinue => ∃ ran, at_work ran [] elapsed t s
  | kEnd => ∃ ran pending, at_work ran pending elapsed t s ∧
      match outcome_reason (outcome (result t)) with
      | kStopRequested => True
      | kRunnerStopped => pending = []
      | kDurationElapsed => pending = [] ∧ duration_ns (pacing session) ≤ elapsed
      | _ => False
      end
  | kLeave => told_with elapsed (result t) s ∧ controller_lost (outcome_reason (outcome (result t))) = true
  end.

(** The part of a tick after the clock: it does not end for the duration. *)
Definition worked (elapsed : Z) (step : Step) (t : Ticker R) (s : K) : Prop :=
  tick_step elapsed step t s ∧ (step = kEnd → outcome_reason (outcome (result t)) ≠ kDurationElapsed).

Lemma at_work_ticker ran pending elapsed t t' s :
  running t' = running t → orders (pace t') = orders (pace t) →
  outcome_elapsed_ns (outcome (result t')) = outcome_elapsed_ns (outcome (result t)) →
  at_work ran pending elapsed t s → at_work ran pending elapsed t' s.
Proof.
  intros E1 E2 E3 [[said Hw] Hl]. split; [|by eapply live_ticker]. exists said.
  eapply working_ticker; [..|exact Hw]; by rewrite ?E1.
Qed.

Lemma at_work_quiet ran pending elapsed t s s' :
  quiet s s' → at_work ran pending elapsed t s → at_work ran pending elapsed t s'.
Proof. intros Hq [Hw Hl]. split; [by eapply whole_quiet|done]. Qed.

Lemma read_now_spec (P : Ticker R → K → Prop) :
  (∀ t s s', quiet s s' → P t s → P t s') → spec P read_now (λ _, P) told.
Proof.
  intros HP. apply spec_call. intros t s Ht. destruct (clock_now read_clock s) as [now s1] eqn:E. cbn.
  eapply HP; [|done]. by eapply clock_now_quiet.
Qed.

Lemma at_work_told ran pending elapsed t s : at_work ran pending elapsed t s → told s.
Proof. intros [Hw _]. eapply cut_told; [by eapply whole_cut|apply Forall_nil_2]. Qed.

(** A slice in the books: run, its records owed, the whole counted with it. *)
Lemma slice_booked n r r' report ran elapsed t s s' :
  at_work ran [] elapsed t s → runner_ (running t) = Some r → runner_slice n r s = (Value report, r', s') →
  let ran := ran ++ [(index_of r, report)] in
  let t' := with_next_index (with_runner t (Some r')) (slice_next_index report) in
  whole_work ran (slice_records report) [] [] elapsed t' s' ∧ live ran t'
  ∧ add_tally (carried (running t')) (runner_total r') = tally_of_all ran.
Proof.
  intros [[said [W1 W2 W3 W4 W5 W6]] (r0 & Hr & Hopen & Hcount & Hindex & Hsum & Hzero & Hruns)] Er Hslice.
  rewrite Er in Hr. injection Hr as <-.
  destruct (slice_runs _ _ _ _ _ _ Hopen Hslice) as (Hopen' & Htot & Hindex' & Hlog & Hp & Ht). cbv zeta.
  assert (add_tally (carried (running t)) (runner_total r') = tally_of_all (ran ++ [(index_of r, report)])) as Hall.
  { by rewrite Htot, add_tally_assoc, Hsum, tally_of_all_snoc. }
  split; [|split; [|done]].
  - exists said. split; cbn.
    + by rewrite Hp.
    + by rewrite Hlog, W2, <- app_assoc.
    + rewrite records_of_snoc, app_nil_r. rewrite !app_nil_r in W3. by rewrite W3.
    + rewrite Hindex. by apply chained_snoc.
    + by eapply working_orders.
    + done.
  - exists r'. split_and!; try done. intros f Hf Hnone. unfold counts_nothing in Hnone. rewrite Forall_app, Forall_singleton in Hnone.
    destruct Hnone as [Hn1 Hn2]. cbn in Hn2.
    destruct (Hzero f Hf Hn1) as [Z1 Z2]. split; [done|]. rewrite Htot.
    destruct Hf as [-> | ->]; cbn; cbn in Z2; by rewrite Z2, Hn2.
Qed.

(** A report that goes out whole, or a worker that leaves on its account. *)
Lemma after_report report ran elapsed t0 (k : M K R Step) :
  live ran t0 → spec (at_work ran [] elapsed) k (worked elapsed) told →
  spec (λ t s, whole_work ran (slice_records report) [] [] elapsed t s ∧ running t = running t0)
    (let! sent := send_report strerror session report (tally_of_all ran) in
     match sent with
     | SendFailure error => fail_with error
     | ControllerGone => leave_run kControllerHungUp
     | Sent => k
     end) (worked elapsed) told.
Proof.
  intros Hl Hk. eapply spec_bind; [apply (send_report_spec report _ ran [] [] elapsed (λ t, running t = running t0))|].
  assert (∀ d, spec (λ t s, running t = running t0 ∧ match d with Sent => False | _ => cut_work ran [] [] elapsed t s end)
    (after d) (worked elapsed) told) as Hafter.
  { intros d. eapply spec_post; [apply (after_spec d ran [] [] elapsed (running t0) (λ _ _, False) (live_countable _ _ Hl) (Forall_nil_2 _))|].
    intros step t2 s2 [_ Hs]. destruct step; [tauto|done|]. split; [by eapply left_unread_lost|done]. }
  intros [| |e].
  - eapply spec_pre; [|exact Hk]. intros t2 s2 [E [said Hs]]. split; [by eexists|]. by eapply live_ticker.
  - apply (Hafter ControllerGone).
  - apply (Hafter (SendFailure e)).
Qed.

Lemma whole_counts {A} (k : Tally → M K R A) r total t s :
  runner_ (running t) = Some r → add_tally (carried (running t)) (runner_total r) = total → bind whole k t s = k total t s.
Proof. intros Hr <-. unfold whole, the_runner, bind, get, ret. by rewrite Hr. Qed.

Lemma tell_slice_spec now busy_remaining_ns report ran elapsed t0 r :
  live ran t0 → runner_ (running t0) = Some r → add_tally (carried (running t0)) (runner_total r) = tally_of_all ran →
  spec (λ t s, whole_work ran (slice_records report) [] [] elapsed t s ∧ t = t0)
    (tell_slice strerror session now busy_remaining_ns report) (worked elapsed) told.
Proof.
  intros Hl Hr Hall t s [Hw ->].
  unfold tell_slice. rewrite (whole_counts _ r (tally_of_all ran)) by done.
  apply (after_report report ran elapsed t0); [done| |done].
  eapply spec_bind; [apply read_now_spec; intros t2 s2 s3 Hq; by apply at_work_quiet|].
  intros [now2|e]; [|apply spec_fail; intros t2 s2; apply at_work_told].
  eapply spec_modify; [|apply spec_ret; intros t2 s2 Hs; split; [exists ran; exact Hs|done]].
  intros t2 s2 Hs. by eapply at_work_ticker; [..|exact Hs].
Qed.

Lemma run_a_slice_spec now busy_remaining_ns ran elapsed :
  spec (at_work ran [] elapsed) (run_a_slice strerror session now busy_remaining_ns)
    (worked elapsed) told.
Proof.
  intros t s Hwork. pose proof Hwork as [_ (r & Hr & Hopen & _ & Hindex & Hsum & Hzero & Hruns)].
  destruct (runner_slice (slice_units (pace t)) r s) as [[answer r'] s'] eqn:Eslice.
  assert (run_a_slice strerror session now busy_remaining_ns t s
    = match answer with
      | Error e => bind (modify (λ t, with_note t (runner_detail e))) (λ _, end_run kRunnerStopped) (with_runner t (Some r')) s'
      | Value report =>
          tell_slice strerror session now busy_remaining_ns report (with_next_index (with_runner t (Some r')) (slice_next_index report)) s'
      end) as ->.
  { unfold run_a_slice, the_runner, bind at 1 2, get, ret. rewrite Hr. unfold bind at 1 2, call. rewrite Eslice. by destruct answer. }
  destruct answer as [report|e].
  - destruct (slice_booked _ _ _ _ _ _ _ _ _ Hwork Hr Eslice) as (Hw & Hl & Hall).
    by apply (tell_slice_spec now busy_remaining_ns report _ elapsed _ r' Hl eq_refl Hall).
  - destruct (slice_refused _ _ _ _ _ _ Hopen Eslice) as (Hopen' & Htot & Hindex' & Hq).
    eexists _, _, _. split; [reflexivity|]. split; [|done]. exists ran, []. split; [|done]. apply (at_work_quiet _ _ _ _ _ _ Hq) in Hwork.
    destruct Hwork as [[said Hw] (r0 & Hr0 & _ & Hcount & _)]. split; [exists said; by eapply working_ticker; [..|exact Hw]|].
    exists r'. cbn. by rewrite Htot, Hindex'.
Qed.

(** What a look finds is owed an answer. *)
Lemma look_heard wait ran elapsed t s out src s' :
  at_work ran [] elapsed t s → look strerror session wait (orders (pace t)) s = (out, src, s') →
  at_work ran (message_sequence <$> found_in out) elapsed (with_orders t src) s'.
Proof.
  intros [[said [W1 W2 W3 W4 W5 W6]] Hl] E. destruct (look_quiet _ _ _ _ _ _ E) as [Q1 Q2]. split; [|by eapply live_ticker].
  exists said. split; [by rewrite Q2|by rewrite Q1|done|done| |done]. intros (Hms & Hnew & Hpre). pose proof Hpre as Hpre0.
  destruct W5 as (heard & Hok & Hinv & Hseq).
  { split_and!; [done|done|]. etrans; [|exact Hpre0]. by eapply look_takes. }
  destruct (look_orders session strerror stream heard wait _ s out src s' Hms Hpre0 Hinv E) as (Hinv' & _ & Hok').
  exists (heard ++ found_in out). split_and!; [by apply Forall_app|done|]. by rewrite fmap_app, Hseq, app_nil_r.
Qed.

Lemma look_and_work_spec now ran elapsed :
  spec (at_work ran [] elapsed) (look_and_work strerror session now)
    (worked elapsed) told.
Proof.
  unfold look_and_work. apply spec_get. intros t0. cbv zeta. set (idle := paused _ || _). set (wait := if idle then _ else 0).
  eapply spec_bind.
  { apply (spec_call _ _ _ (λ looked t s, at_work ran (message_sequence <$> found_in looked.1) elapsed (with_orders t looked.2) s
      ∧ ∀ l reason, looked.1 = Value l → lost l = Some reason → controller_lost reason = true)).
    intros t s [-> Hw]. destruct (look strerror session wait (orders (pace t0)) s) as [[out src] s'] eqn:E. cbn [fst snd].
    split; [by eapply look_heard|]. intros l reason -> Hlost. by destruct (look_lost _ _ _ _ _ _ _ _ _ E Hlost) as [-> | ->]. }
  intros [out src]. cbn [fst snd]. apply (spec_modify _ _ _ _ (λ t s, at_work ran (message_sequence <$> found_in out) elapsed t s
      ∧ ∀ l reason, out = Value l → lost l = Some reason → controller_lost reason = true)); [done|].
  destruct out as [l|e]; [|apply spec_fail; intros t s [? _]; by eapply at_work_told].
  apply (spec_pure _ (∀ reason, lost l = Some reason → controller_lost reason = true)); [intros t s [_ ?]; by eauto|]. intros Hlost.
  cbn [found_in]. eapply spec_bind; [eapply spec_pre; [|apply handle_all_spec]; by intros t s []|]. apply spec_continue.
  - apply (spec_pre _ _ (at_work ran [] elapsed)); [intros t s (pending & Hs & Hnil); by rewrite Hnil in Hs|].
    destruct (lost l) as [reason|].
    + eapply spec_post; [apply (leave_lost reason ran elapsed); by apply Hlost|]. by intros step t s (-> & ? & ?).
    + destruct (_ || idle); [apply spec_ret; intros t s Hw; by split; [exists ran|]|]. apply run_a_slice_spec.
  - intros step t s Hne (pending & Hs & _). destruct step; [done|..]; [|done]. destruct Hs as [Hw Er].
    split; [|by rewrite Er]. exists ran, pending. by rewrite Er.
Qed.

(** What a whole tick comes to: the duration ends a run, and only it does so by that name. *)
Definition ticked (step : Step) (t : Ticker R) (s : K) : Prop :=
  ∃ elapsed, tick_step elapsed step t s
    ∧ (duration_ns (pacing session) ≤ elapsed ↔ step = kEnd ∧ outcome_reason (outcome (result t)) = kDurationElapsed).

Lemma worked_ticked elapsed step t s :
  elapsed < duration_ns (pacing session) → worked elapsed step t s → ticked step t s.
Proof. intros Hlt [Hs Hne]. exists elapsed. split; [done|]. split; [lia|]. intros [He Hr]. by destruct (Hne He). Qed.

Lemma at_work_elapsed ran pending elapsed elapsed' progress t s :
  at_work ran pending elapsed t s → at_work ran pending elapsed' (with_elapsed t elapsed' progress) s.
Proof.
  intros [[said [W1 W2 W3 W4 W5 W6]] Hl]. split; [|by eapply live_ticker]. by exists said.
Qed.

Lemma watch_spec last now ran elapsed :
  spec (at_work ran [] elapsed)
    (call (λ s, let '(gone, read, s) := watch_gone session last now elapsed s in ((gone, read), s)))
    (λ seen t s, at_work ran [] elapsed t s ∧ ∀ reason, seen.1 = Some reason → controller_lost reason = true) told.
Proof.
  apply spec_call. intros t s Hw. destruct (watch_gone _ _ _ _ s) as [[gone read] s1] eqn:E. cbn [fst snd].
  split; [by eapply at_work_quiet; [eapply watch_gone_quiet|]|]. intros reason ->. unfold watch_gone in E.
  destruct (region_observe _ s) as [observed s2]. injection E as Ej _.
  pose proof (judge_controller_vouched session _ last now elapsed observed eq_refl) as Hj. rewrite Ej in Hj.
  by destruct Hj as [-> | ->].
Qed.

Lemma once_spec started self :
  spec (λ t s, ∃ ran elapsed, at_work ran [] elapsed t s) (once strerror session started self) ticked told.
Proof.
  assert (∀ t s, (∃ ran elapsed, at_work ran [] elapsed t s) → told s) as Htold.
  { intros t s (ran & e & Hw). by eapply at_work_told. }
  eapply spec_bind.
  { apply read_now_spec. intros t s s1 Hq (ran & e & Hw). exists ran, e. by eapply at_work_quiet. }
  intros [now|e]; [|by apply spec_fail]. destruct (Platform.between started now) as [elapsed|e]; [|by apply spec_fail].
  cbv zeta. set (took := elapsed_raw_ns elapsed). intros t s (ran & e & Hw).
  pose proof Hw as [_ (r & Hr & _ & _ & _ & Hsum & _)]. rewrite (whole_counts _ r (tally_of_all ran)) by done.
  apply (at_work_elapsed _ _ _ took (units_computed (tally_of_all ran))) in Hw. unfold bind at 1, modify at 1.
  revert Hw. generalize (with_elapsed t took (units_computed (tally_of_all ran))) as t1. clear t Hr Hsum. intros t1 Hw.
  revert t1 s Hw. apply spec_get. intros t1. eapply spec_bind.
  { apply (spec_call _ _ _ (λ _, at_work ran [] took)). intros t s [_ Hw]. destruct (region_publish _ _ s) as [p s1] eqn:E.
    eapply at_work_quiet; [by eapply publish_quiet|done]. }
  intros [[]|e2]; [|apply spec_fail; intros t s; apply at_work_told].
  destruct (Z.leb_spec (duration_ns (pacing session)) took) as [Hd|Hd].
  - unfold end_run. eapply (spec_modify _ _ _ _ (λ t s, at_work ran [] took t s ∧ outcome_reason (outcome (result t)) = kDurationElapsed)).
    + intros t s Hw. split; [|done]. by eapply at_work_ticker; [..|exact Hw].
    + apply spec_ret. intros t s [Hw Er]. exists took. split; [|by split]. exists ran, []. by rewrite Er.
  - eapply spec_bind; [apply watch_spec|]. intros [gone read]. cbn [fst].
    eapply (spec_modify _ _ _ _ (λ t s, at_work ran [] took t s ∧ ∀ reason, gone = Some reason → controller_lost reason = true)).
    { intros t s [Hw Hg]. split; [|done]. by eapply at_work_ticker; [..|exact Hw]. }
    destruct gone as [reason|].
    + apply (spec_pure _ (controller_lost reason = true)); [intros t s [_ Hg]; by apply Hg|]. intros Hlost.
      eapply spec_post; [eapply spec_pre; [|by apply (leave_lost reason ran took)]; by intros t s [? _]|].
      intros step t s (-> & ? & ?). apply (worked_ticked took); [done|]. by split.
    + eapply spec_post; [eapply spec_pre; [|apply (look_and_work_spec now ran took)]; by intros t s [? _]|].
      intros step t s. by apply worked_ticked.
Qed.

(** *** The end of a run *)

(** A run is over with the outcome [o]. *)
Definition run_over (o : VerifiedOutcome) (s : K) : Prop :=
  ∃ elapsed, told_with elapsed o s
    ∧ (outcome_reason (outcome o) = kDurationElapsed → duration_ns (pacing session) ≤ elapsed)
    ∧ (duration_ns (pacing session) ≤ elapsed →
         outcome_reason (outcome o) = kDurationElapsed ∨ outcome_reason (outcome o) = kControllerHungUp).

(** The last report is out: the outcome says what it said. *)
Lemma concluded said ran closing pending elapsed t s :
  (outcome_reason (outcome (result t)) ≠ kStopRequested → pending = []) →
  shut ran t → kept ran true closing →
  working (said ++ [Counted (tally_of_all ran)]) [] ran [] closing pending elapsed t s →
  told_with elapsed (result (with_tally t (carried (running t)))) s.
Proof.
  intros Hpending (_ & Hall & _) (Htrue & _ & Hboth) Hw. specialize (Hboth eq_refl) as [Ho Hb].
  set (all := said ++ _) in *. destruct (working_story all (Counted no_tally) 0 _ _ _ _ _ _ _ Hw Htrue) as [Hstory Hack].
  exists all, (Counted no_tally), 0%nat, ran, closing. split; [exact Hstory|]. destruct Hw as [_ _ Hf _ _ He].
  split; cbn; rewrite ?Hall; try done.
  - intros _. by rewrite app_nil_r in Hf.
  - intros _ Hr Hover. rewrite <- Hack by done. by rewrite (Hpending Hr), app_nil_r.
  - intros _. split_and!; [|done|done]. unfold all. by rewrite last_snoc.
Qed.

Lemma left_counted ran elapsed t s :
  shut ran t → left_unread ran elapsed t s → result (with_tally t (carried (running t))) = result t.
Proof.
  intros (_ & Hall & _) ((said & next & k & ran' & closing & _ & [T1 T2 _ _ _ _]) & _ & Ht). rewrite Hall, <- Ht.
  unfold with_tally. cbn. destruct (result t) as [[reason progress took] counted words]. cbn in *. by rewrite T2.
Qed.

Lemma conclude_spec ran pending elapsed reason :
  (reason ≠ kStopRequested → pending = []) →
  spec (λ t s, at_work ran pending elapsed t s ∧ outcome_reason (outcome (result t)) = reason) (conclude strerror session)
    (λ o t s, told_with elapsed o s
       ∧ (outcome_reason (outcome o) = reason ∨ outcome_reason (outcome o) = kControllerHungUp)) told.
Proof.
  intros Hpending. apply spec_fix. intros t0. apply (spec_pure _ (outcome_reason (outcome (result t0)) = reason)).
  { by intros t s (-> & _ & Hr). }
  intros Hr. eapply spec_bind.
  { eapply spec_pre; [|apply (close_runner_spec true ran pending elapsed (result t0))]. by intros t s [-> [? _]]. }
  intros step t s (Hshut & _ & closing & Hkept & Hstep).
  unfold bind, modify, get, ret. eexists _, _, s. split; [reflexivity|]. destruct step; [|done|].
  - destruct Hstep as [Hres [said Hw]]. split; [|left; cbn; by rewrite Hres].
    eapply concluded; [|done..]. by rewrite Hres, Hr.
  - rewrite (left_counted _ _ _ _ Hshut Hstep). destruct Hstep as (? & ? & _). by split; [|right].
Qed.

Lemma ticked_end step t s :
  ticked step t s → step = kEnd →
  ∃ ran pending elapsed, (outcome_reason (outcome (result t)) ≠ kStopRequested → pending = [])
    ∧ at_work ran pending elapsed t s ∧ (duration_ns (pacing session) ≤ elapsed ↔ outcome_reason (outcome (result t)) = kDurationElapsed).
Proof.
  intros (elapsed & Hs & Hd) ->. destruct Hs as (ran & pending & Hw & Hr). exists ran, pending, elapsed.
  split; [|split; [done|]]; [|rewrite Hd; by split; [intros []|]].
  destruct (outcome_reason _); try done. by destruct Hr.
Qed.

(** What a step makes of the loop: it ends the run, or leaves it to the next tick. *)
Lemma after_tick step :
  step ≠ kContinue →
  spec (ticked step) (match step with
    | kContinue => stuck
    | kLeave => let! t := get in ret (result t)
    | kEnd => conclude strerror session
    end) (λ o _ s, run_over o s) told.
Proof.
  intros Hne. destruct step; [done|..].
  - intros t s Ht. destruct (ticked_end _ _ _ Ht eq_refl) as (ran & pending & elapsed & Hp & Hw & Hd).
    destruct (conclude_spec ran pending elapsed _ Hp t s (conj Hw eq_refl)) as (r & t' & s' & E & Hr).
    exists r, t', s'. split; [done|]. destruct r as [o|]; [|done]. destruct Hr as [Ho Hreason].
    exists elapsed. split; [done|]. destruct Hreason as [-> | ->]; split; try done; rewrite Hd; auto.
  - apply spec_get. intros t0. apply spec_ret. intros t s [-> (elapsed & [Ho Hl] & Hd)]. exists elapsed. split; [done|].
    split; [intros Hr; by rewrite Hr in Hl|]. intros Hle. by apply Hd in Hle as [? _].
Qed.

(** *** Telling is not undone *)

Lemma orders_heard_quiet s s' : quiet s s' → orders_heard s' = orders_heard s ∧ (overheard s' → overheard s).
Proof. intros (_ & _ & E). unfold orders_heard, overheard. by rewrite E. Qed.

Lemma story_quiet said next k ran closing s s' :
  quiet s s' → story said next k ran closing s → story said next k ran closing s'.
Proof.
  intros Hq [S1 S2 S3 S4 S5 S6]. destruct (orders_heard_quiet _ _ Hq) as [Eo Eov]. destruct Hq as (Q1 & Q2 & _).
  split; rewrite ?Q1, ?Q2, ?Eo; auto.
Qed.

Lemma told_quiet s s' : quiet s s' → told s → told s'.
Proof. intros Hq (said & next & k & ran & closing & Hs). exists said, next, k, ran, closing. by eapply story_quiet. Qed.

Lemma run_over_quiet o s s' : quiet s s' → run_over o s → run_over o s'.
Proof.
  intros Hq (elapsed & (said & next & k & ran & closing & Hs & [T1 T2 T3 T4 T5 T6]) & Hd). exists elapsed. split; [|done].
  exists said, next, k, ran, closing. split; [by eapply story_quiet|]. split; try done.
  destruct (orders_heard_quiet _ _ Hq) as [-> Hov]. auto.
Qed.

Lemma told_nothing s : quiet s0 s → told s.
Proof.
  intros (Q1 & Q2 & _). exists [], (Counted no_tally), 0%nat, [], []. split; cbn; rewrite ?app_nil_r; try done.
  - by exists 0.
  - intros _. by exists (message_sequence <$> orders_heard s).
Qed.

(** *** The loop, and the run *)

Lemma ticks_tell fuel started self t s r t' s' :
  (∃ ran elapsed, at_work ran [] elapsed t s) →
  ticks strerror session fuel started self t s = Some (r, t', s') →
  match r with Value o => run_over o s' | Error _ => told s' end.
Proof.
  revert t s. induction fuel as [|fuel IH]; intros t s Hw; [done|].
  destruct (once_spec started self t s Hw) as (step & t1 & s1 & E & Hstep).
  cbn [ticks]. unfold bind at 1. rewrite E. destruct step as [step|e]; [|by intros [= <- <- <-]].
  destruct (decide (step = kContinue)) as [->|Hne].
  - apply IH. destruct Hstep as (elapsed & [ran Hran] & _). by exists ran, elapsed.
  - destruct (after_tick step Hne t1 s1 Hstep) as (r2 & t2 & s2 & E2 & Hr). destruct step; try done;
      intros E3; rewrite E2 in E3; by injection E3 as <- <- <-.
Qed.

(** A worker just put together. *)
Lemma first_work args cpus r s1 s :
  quiet s0 s → prepare strerror args cpus 0 s1 = (Value r, s) → at_work [] [] 0 (new_ticker args cpus r) s.
Proof.
  intros (Q1 & Q2 & Q3) Hp. destruct (prepare_fresh _ _ _ _ _ _ Hp) as (Hopen & Htot & Hindex & Hruns). split.
  - exists []. split; cbn; rewrite ?app_nil_r; try done. intros (_ & Hnew & _). exists []. split_and!; [done| |done].
    exists None, (reading []). by rewrite Q3, Hnew, reads_all_eq.
  - exists r. cbn. rewrite Htot. split_and!; try done. by intros f [-> | ->].
Qed.

Lemma unheard_over t s : cut_work [] [] [] 0 t s → run_over (no_outcome kControllerHungUp) s.
Proof.
  intros (said & next & k & owed & Hw). exists 0. split; [|split; [done|by right]].
  destruct (working_story _ _ _ _ _ _ _ _ _ _ Hw (Forall_nil_2 _)) as [Hstory _].
  exists said, next, k, [], []. split; [exact Hstory|]. by split.
Qed.

Lemma clock_keeps_work t s started s1 last :
  clock_now read_clock s = (started, s1) → at_work [] [] 0 t s →
  ∃ ran elapsed, at_work ran [] elapsed (with_last_read t last) s1.
Proof.
  intros Ec%clock_now_quiet Hw. exists [], 0. apply (at_work_quiet _ _ _ _ _ _ Ec).
  by eapply at_work_ticker; [..|exact Hw].
Qed.

(** What a run says first: the memory its runner has. *)
Lemma memory_told t s :
  at_work [] [] 0 t s →
  ∃ d t1 s1, tell_memory strerror session t s = Some (d, t1, s1)
    ∧ match d with
      | Value Sent => at_work [] [] 0 t1 s1
      | Value ControllerGone => run_over (no_outcome kControllerHungUp) s1
      | Value (SendFailure _) | Error _ => told s1
      end.
Proof.
  intros Hw. destruct (tell_memory_spec [] [] 0 (running t) t s (conj Hw eq_refl)) as (d & t1 & s1 & E & Hd).
  exists d, t1, s1. split; [done|]. destruct d as [d|e]; [|done]. destruct Hd as [Hu Hd]. destruct d as [| |e].
  - destruct Hw as [_ Hl]. assert (at_work [] [] 0 t1 s1) as Hw1 by (split; [done|by eapply live_ticker]).
    by eapply at_work_ticker; [..|exact Hw1].
  - by eapply unheard_over.
  - by eapply cut_told.
Qed.

Lemma run_ticker_tells fuel self t s r t' s' :
  at_work [] [] 0 t s → run_ticker strerror session fuel self t s = Some (r, t', s') →
  match r with Value o => run_over o s' | Error _ => told s' end.
Proof.
  intros Hw. unfold run_ticker, bind at 1. destruct (memory_told t s Hw) as (d & t1 & s1 & -> & Hd).
  destruct d as [[| |e]|e]; try by intros [= <- <- <-].
  unfold bind at 1, read_now, call. destruct (clock_now read_clock s1) as [[started|e] s2] eqn:Ec.
  - apply ticks_tell. exact (clock_keeps_work _ _ _ _ _ Ec Hd).
  - intros [= <- <- <-]. apply clock_now_quiet in Ec. eapply (told_quiet _ _ Ec).
    eapply cut_told; [eapply whole_cut|done]. by destruct Hd.
Qed.

Lemma verified_run_tells fuel args cpus r s' :
  verified_run strerror session fuel args cpus s0 = Some (r, s') →
  match r with Value o => run_over o s' | Error _ => told s' end.
Proof.
  unfold verified_run. destruct (prepare _ _ _ _ s0) as [prepared s1] eqn:Ep.
  pose proof (prepare_quiet _ _ _ _ _ _ Ep) as Hq. destruct prepared as [r0|e].
  2:{ intros [= <- <-]. by apply told_nothing. }
  destruct (run_ticker _ _ _ _ _ s1) as [[[ran t] s2]|] eqn:E; [|done].
  apply run_ticker_tells in E as Hran; [|by eapply first_work]. cbn [mbind option_bind]. intros [= <- <-].
  set (s3 := match runner_ _ with Some _ => _ | None => s2 end). assert (quiet s2 s3) as Hq2.
  { unfold s3. destruct (runner_ _) as [r2|]; [|done]. etrans; [apply drop_runner_quiet|apply drop_pool_quiet]. }
  destruct ran; [by eapply run_over_quiet|by eapply told_quiet].
Qed.

(** *** The end of a run *)

Context `{!TimeLaws K} `{!ServicesTime K R}.

Lemma ticks_end fuel started self t s :
  0 ≤ raw_ns started < 2 ^ 63 → (1 ≤ fuel)%nat →
  (duration_ns (pacing session) + raw_ns started) * readings K - instant s < Z.of_nat fuel →
  (∃ ran elapsed, at_work ran [] elapsed t s) →
  is_Some (ticks strerror session fuel started self t s).
Proof.
  intros Hs. revert t s. induction fuel as [|fuel IH]; intros t s Hfuel Hleft Hw; [lia|].
  destruct (once_spec started self t s Hw) as (step & t1 & s1 & E & Hstep).
  cbn [ticks]. unfold bind at 1. rewrite E. destruct step as [step|e]; [|done].
  destruct (decide (step = kContinue)) as [->|Hne].
  - destruct (once_advances strerror session _ _ _ _ _ _ Hs E). apply IH; [lia|lia|].
    destruct Hstep as (elapsed & [ran Hran] & _). by exists ran, elapsed.
  - destruct (after_tick step Hne t1 s1 Hstep) as (r & t2 & s2 & E2 & _). exists (r, t2, s2). by destruct step.
Qed.

Lemma run_ticker_ends fuel self t s :
  (1 ≤ fuel)%nat → duration_ns (pacing session) * readings K < Z.of_nat fuel → at_work [] [] 0 t s →
  is_Some (run_ticker strerror session fuel self t s).
Proof.
  intros Hone Hfuel Hw. unfold run_ticker, bind at 1. destruct (memory_told t s Hw) as (d & t1 & s1 & -> & Hd).
  destruct d as [[| |e]|e]; try done.
  unfold bind at 1, read_now, call. destruct (clock_now read_clock s1) as [[started|e] s2] eqn:Ec; [|done].
  destruct (clock_now_time s1 started s2 Ec) as (_ & _ & Hhigh & Hs).
  apply ticks_end; [done|done|lia|]. exact (clock_keeps_work _ _ _ _ _ Ec Hd).
Qed.

Lemma verified_run_returns fuel args cpus :
  (1 ≤ fuel)%nat → duration_ns (pacing session) * readings K < Z.of_nat fuel →
  is_Some (verified_run strerror session fuel args cpus s0).
Proof.
  intros Hone Hfuel. unfold verified_run. destruct (prepare _ _ _ _ s0) as [[r|e] s1] eqn:Ep; [|done].
  pose proof (prepare_quiet _ _ _ _ _ _ Ep) as Hq.
  by destruct (run_ticker_ends fuel (u32 (process_id s1)) _ s1 Hone Hfuel (first_work _ _ _ _ _ Hq Ep)) as [[[ran t] s2] ->].
Qed.

End Facts.
