(* ===== verification/WorkerSite.v ===== *)
(** * A worker on slice runners: what it relies on is what they are

    The runners of SliceRunner, made by MakeRunner, keep every promise a verified run's
    theorems ask of a runner (VerifiedRunFacts), whatever happens to the memory under
    them. A site puts them beside pipes, a clock and a kernel, and the theorems of a run
    follow: the run ends, it reports everything, and it answers every order. *)

From S2P Require Export VerifiedRunFacts.

(** ** A made runner's slices *)

Definition with_state (made : MadeRunner) (state : RunnerState) : MadeRunner :=
  {| made_workload := made_workload made; made_oracle := made_oracle made; made_threads := made_threads made;
     made_base := made_base made; made_duty := made_duty made; made_layout := made_layout made;
     made_working_set := made_working_set made; made_slack := made_slack made; made_copies := made_copies made;
     made_lock := made_lock made; made_state := state |}.

Definition made_slice (weathers : list Weather) (made : MadeRunner) : option (Result SliceReport RunnerError * MadeRunner) :=
  '(answer, state) ← run_slice (made_workload made) (made_oracle made) (made_base made) (made_duty made) (made_layout made)
    (map_address (made_working_set made)) (made_slack made) weathers (made_state made);
  Some (answer, with_state made state).

Definition made_finish (made : MadeRunner) : Result SliceReport RunnerError * MadeRunner :=
  let (answer, state) := SliceRunner.finish (made_workload made) (made_base made) (made_duty made) (made_state made) in
  (answer, with_state made state).

Definition made_open (made : MadeRunner) : Prop := r_finished (made_state made) = false.

Section Unit.
Context (w : Workload) (oracle : Oracle) (base : Provenance) (duty_ : DutyCycle) (layout : Layout) (start slack : Z).

Lemma run_unit_keeps weather r report go r' report' :
  run_unit w oracle base duty_ layout start slack weather r report = Some (go, r', report') →
  r_finished r' = r_finished r ∧ r_total r' = r_total r.
Proof.
  unfold run_unit, halt, advance, with_memory, with_control. destruct (read _) as [[words|failure] control]; cbv zeta;
    [|by intros [= _ <- _]].
  intros E. repeat match type of E with
  | (?x ≫= _) = Some _ => destruct x as [?|]; [|done]; cbn [mbind option_bind] in E
  | match ?x with _ => _ end = Some _ => destruct x
  end; by injection E as _ <- _.
Qed.

Lemma run_units_keeps weathers r report r' report' :
  run_units w oracle base duty_ layout start slack weathers r report = Some (r', report') →
  r_finished r' = r_finished r ∧ r_total r' = r_total r.
Proof.
  revert r report. induction weathers as [|weather weathers IH]; intros r report; cbn [run_units]; [by intros [= <- _]|].
  destruct (run_unit _ _ _ _ _ _ _ weather r report) as [[[go r1] report1]|] eqn:E; [|done].
  cbn [mbind option_bind]. apply run_unit_keeps in E as [E1 E2]. destruct go; [|by intros [= <- _]].
  intros [I1 I2]%IH. by rewrite I1, I2.
Qed.
End Unit.

(** *** The promises, one by one *)

Lemma made_slice_runs weathers made report made' :
  made_open made → made_slice weathers made = Some (Value report, made') →
  made_open made' ∧ r_total (made_state made') = add_tally (r_total (made_state made)) (slice_tally report)
  ∧ r_next_index (made_state made') = slice_next_index report.
Proof.
  unfold made_slice, made_open, run_slice. intros Hopen. rewrite Hopen. destruct (r_halted _); [done|].
  destruct (run_units _ _ _ _ _ _ _ weathers _ _) as [[r report0]|] eqn:E; [|done]. cbn [mbind option_bind].
  apply run_units_keeps in E as [E1 E2]. intros [= <- <-]. cbn. by rewrite E1, E2, Hopen.
Qed.

Lemma made_slice_refused weathers made e made' :
  made_slice weathers made = Some (Error e, made') → made' = made.
Proof.
  unfold made_slice, run_slice. assert (with_state made (made_state made) = made) as Hsame by (by destruct made).
  destruct (r_finished _); [intros [= _ <-]; done|]. destruct (r_halted _); [intros [= _ <-]; done|].
  destruct (run_units _ _ _ _ _ _ _ weathers _ _) as [[r report0]|]; done.
Qed.

Lemma subject_kept subject name :
  size_of subject ≤ kMaxTextBytes → subject `prefix_of` bounded (subject ++ name).
Proof.
  unfold bounded, size_of. intros Hle. destruct (Z.ltb_spec kMaxTextBytes (Z.of_nat (length (subject ++ name)))).
  - rewrite take_app_ge by lia. by apply prefix_app_r.
  - by apply prefix_app_r.
Qed.

Lemma made_finish_states made answer made' :
  made_open made → made_finish made = (answer, made') →
  r_total (made_state made') = r_total (made_state made) ∧ ∃ report, answer = Value report
  ∧ slice_next_index report = r_next_index (made_state made)
  ∧ Forall (λ record, states_zero record kOracleSubject || states_zero record kBracketSubject = true) (slice_records report)
  ∧ (oracle_blocks (r_total (made_state made)) = 0 →
       Exists (λ record, states_zero record kOracleSubject = true) (slice_records report))
  ∧ (integrity_checked (r_total (made_state made)) = 0 →
       Exists (λ record, states_zero record kBracketSubject = true) (slice_records report)).
Proof.
  unfold made_finish, made_open, SliceRunner.finish. intros ->. intros E. inversion E; subst; clear E. split; [done|]. eexists. split; [reflexivity|].
  cbn [slice_next_index slice_records].
  match goal with |- context [if oracle_blocks _ =? 0 then [?x] else []] => set (no_oracle := x) end.
  match goal with |- context [if integrity_checked _ =? 0 then [?x] else []] => set (no_bracket := x) end.
  assert (states_zero no_oracle kOracleSubject = true) as Ho.
  { apply bool_decide_eq_true, (subject_kept kOracleSubject (descriptor_name (made_workload made) ++ lit " units")). by vm_compute. }
  assert (states_zero no_bracket kBracketSubject = true) as Hb.
  { apply bool_decide_eq_true, (subject_kept kBracketSubject (descriptor_name (made_workload made) ++ lit " units")). by vm_compute. }
  split; [done|]. split; [|split].
  - apply Forall_app. split; [destruct (oracle_blocks _ =? 0)|destruct (integrity_checked _ =? 0)]; repeat constructor.
    + by rewrite Ho.
    + by rewrite Hb, orb_true_r.
  - intros ->. cbn [Z.eqb]. apply Exists_app. left. by constructor.
  - intros ->. cbn [Z.eqb]. apply Exists_app. right. by constructor.
Qed.

Lemma made_fresh {K} `{MemoryCalls K} strerror setup (s : K) made s' :
  make_slice_runner strerror setup s = (Value made, s') →
  made_open made ∧ r_total (made_state made) = no_tally ∧ r_next_index (made_state made) = setup_first_index setup.
Proof.
  unfold make_slice_runner. destruct (checked_setup setup) as [[[[w oracle] threads] layout]|]; [|done].
  destruct (map_by_policy _ _ _ s) as [[placed|] s1]; [|done].
  destruct (create_control _ _ _ _ s1) as [[[[[control copies] outcome] detail]|] s2].
  - by intros [= <- <-].
  - by destruct (Memory.unmap _ _ s2).
Qed.

(** ** A site

    Pipes, a clock, a kernel and its memory, floating-point registers, and the slices run
    there, all under one weather. *)

Record Site := {
  site_world : World;
  site_kernel : Memory.Kernel;
  site_fp : FpState;
  site_weather : Weather;
  site_slices : list (Z * SliceReport);
}.

Definition with_world (s : Site) (world : World) : Site :=
  {| site_world := world; site_kernel := site_kernel s; site_fp := site_fp s; site_weather := site_weather s;
     site_slices := site_slices s |}.
Definition with_kernel (s : Site) (kernel : Memory.Kernel) : Site :=
  {| site_world := site_world s; site_kernel := kernel; site_fp := site_fp s; site_weather := site_weather s;
     site_slices := site_slices s |}.
Definition with_slice (s : Site) (slice : Z * SliceReport) : Site :=
  {| site_world := site_world s; site_kernel := site_kernel s; site_fp := site_fp s; site_weather := site_weather s;
     site_slices := site_slices s ++ [slice] |}.

(** A call of the world, at the site. *)
Definition at_world {A} (f : World → A * World) (s : Site) : A * Site :=
  let (a, world) := f (site_world s) in (a, with_world s world).

#[export] Instance site_channel : ChannelCalls Site := {|
  write_fd fd bytes := at_world (write_fd fd bytes);
  read_fd fd size := at_world (read_fd fd size);
|}.

#[export] Instance site_calls : WorkerCalls Site := {|
  read_clock id := at_world (read_clock id);
  process_id s := process_id (site_world s);
  poll_readable fd wait := at_world (poll_readable fd wait);
  region_publish slot beat := at_world (region_publish slot beat);
  region_observe slot := at_world (region_observe slot);
|}.

#[export] Instance site_registers : FpControl Site := {|
  fp_read := site_fp;
  fp_write state s := {| site_world := site_world s; site_kernel := site_kernel s; site_fp := state;
                         site_weather := site_weather s; site_slices := site_slices s |};
|}.

(** The registries hold the sample workload alone, for any configuration; a pool always
    starts. A slice that would leave its memory has no answer in the source; here it is
    refused. *)
#[export] Instance site_services : Services Site MadeRunner := {|
  workloads_create name config :=
    if bool_decide (name = descriptor_name sample_workload)
    then Value ({| desc_name := name; desc_version := 1; desc_determinism := kBitExact;
               desc_contract := descriptor_contract sample_workload; desc_paths := isa_set [kScalar] |}, sample_workload)
    else Error {| workload_fault := kUnknownWorkload; workload_detail := name |};
  workloads_descriptor name :=
    if bool_decide (name = descriptor_name sample_workload)
    then Value {| desc_name := name; desc_version := 1; desc_determinism := kBitExact;
               desc_contract := descriptor_contract sample_workload; desc_paths := isa_set [kScalar] |}
    else Error {| workload_fault := kUnknownWorkload; workload_detail := name |};
  oracles_create name config plan :=
    if bool_decide (name = oracle_workload sample_oracle) then Value sample_oracle
    else Error {| oracle_fault := kNoOracle; oracle_detail := name |};
  isa_supported := isa_set [kScalar; kAvx2];
  isa_compiled := isa_set [kScalar; kAvx2; kAvx512];
  make_pool placements s := (Value tt, s);
  drop_pool s := s;
  make_runner setup s :=
    let (made, kernel) := make_slice_runner (λ _, []) setup (site_kernel s) in (made, with_kernel s kernel);
  drop_runner made s := with_kernel s (Memory.unmap (map_address (made_working_set made)) (map_bytes (made_working_set made)) (site_kernel s)).2;
  runner_slice n made s :=
    match made_slice (replicate (Z.to_nat n) (site_weather s)) made with
    | Some (Value report, made') => (Value report, made', with_slice s (r_next_index (made_state made), report))
    | Some (Error e, made') => (Error e, made', s)
    | None => (Error {| runner_fault := kResources; runner_detail := lit "outside the working set" |}, made, s)
    end;
  runner_finish made s := let (answer, made) := made_finish made in (answer, made, s);
  runner_total made := r_total (made_state made);
  runner_lock made := made_lock made;
|}.

(** *** The laws of a site *)

#[export] Instance site_channel_laws fd : ChannelLaws Site fd.
Proof.
  refine {| piped s := piped (fd:=fd) (site_world s); taken s := taken (fd:=fd) (site_world s) |};
    intros ? s ? s' E; unfold write_fd, read_fd, site_channel, at_world in E.
  - destruct (write_fd fd bs (site_world s)) as [r p] eqn:Ew. injection E as -> <-. by apply write_takes.
  - destruct (write_fd fd bs (site_world s)) as [r p] eqn:Ew. injection E as -> <-. by eapply write_fails.
  - destruct (read_fd fd size (site_world s)) as [r p] eqn:Ew. injection E as -> <-. by eapply read_takes.
  - destruct (read_fd fd size (site_world s)) as [r p] eqn:Ew. injection E as -> <-. by eapply read_fails.
Defined.

#[export] Instance site_poll fd : PollLaws Site fd.
Proof. split. by intros wait s r s' [= <- <-]. Defined.

#[export] Instance site_time : TimeLaws Site.
Proof.
  refine {| instant s := instant (site_world s); readings := readings World |}; [done|..].
  - intros id s r s' E. unfold read_clock, site_calls, at_world in E. destruct (read_clock id _) as [a w] eqn:Ew.
    injection E as _ <-. by eapply clock_time.
  - intros s ns s' E. unfold read_nanoseconds, read_clock at 1, site_calls, at_world in E.
    destruct (read_clock CLOCK_MONOTONIC_RAW (site_world s)) as [a w] eqn:Ew. injection E as E <-.
    apply (raw_reading (site_world s)). unfold read_nanoseconds. by rewrite Ew, E.
  - intros fd wait s r s' E. unfold poll_readable, site_calls, at_world in E. destruct (poll_readable fd wait _) as [a w] eqn:Ew.
    injection E as _ <-. by eapply poll_time.
  - by intros slot beat s r s' [= _ <-].
  - by intros slot s r s' [= _ <-].
  - intros fd bs s r s' E. unfold write_fd, site_channel, at_world in E. destruct (write_fd fd bs _) as [a w] eqn:Ew.
    injection E as _ <-. by eapply write_time.
  - intros fd n s r s' E. unfold read_fd, site_channel, at_world in E. destruct (read_fd fd n _) as [a w] eqn:Ew.
    injection E as _ <-. by eapply read_time.
Defined.

#[export] Instance site_services_time : ServicesTime Site MadeRunner.
Proof.
  split.
  - done.
  - by intros placements s r s' [= _ <-].
  - done.
  - intros setup s r s' E. unfold make_runner, site_services in E. destruct (make_slice_runner _ _ _) as [a k].
    by injection E as _ <-.
  - done.
  - intros n r s a r' s' E. unfold runner_slice, site_services in E.
    destruct (made_slice _ r) as [[[report|e] made]|]; by injection E as _ _ <-.
  - intros r s a r' s' E. unfold runner_finish, site_services in E. destruct (made_finish r). by injection E as _ _ <-.
Defined.

(** What a pipe is written leaves what it is read alone, and the other way about. *)
Lemma site_write_taken fd fd' bs s r s' :
  write_fd fd bs s = (r, s') → site_slices s' = site_slices s ∧ taken (fd:=fd') s' = taken (fd:=fd') s.
Proof.
  unfold write_fd, site_channel, at_world. destruct (write_fd fd bs (site_world s)) as [a w] eqn:E. intros [= _ <-]. split; [done|].
  revert E. unfold write_fd, world_channel. cbn. destruct (pipe_tired _); by intros [= _ <-].
Qed.

Lemma site_read_piped fd fd' n s r s' :
  read_fd fd n s = (r, s') → site_slices s' = site_slices s ∧ piped (fd:=fd') s' = piped (fd:=fd') s.
Proof.
  unfold read_fd, site_channel, at_world. destruct (read_fd fd n (site_world s)) as [a w] eqn:E. intros [= _ <-]. split; [done|].
  revert E. unfold read_fd, world_channel. cbn. destruct (pipe_tired _); by intros [= _ <-].
Qed.

#[export] Instance site_laws session : RunnerLaws Site MadeRunner session.
Proof.
  refine {| slices := site_slices; index_of made := r_next_index (made_state made); is_open := made_open |}.
  - by intros id s r s' [= _ <-].
  - by intros fd wait s r s' [= _ <-].
  - by intros slot b s r s' [= _ <-].
  - by intros slot s r s' [= _ <-].
  - done.
  - by intros placements s r s' [= _ <-].
  - done.
  - done.
  - intros setup s r s' E. unfold make_runner, site_services in E. destruct (make_slice_runner _ _ _) as [a k].
    by injection E as _ <-.
  - intros bs s r s'. apply site_write_taken.
  - intros n s r s'. apply site_read_piped.
  - intros setup s r s' E. unfold make_runner, site_services in E. destruct (make_slice_runner _ _ _) as [a k] eqn:Em.
    injection E as -> _. by eapply made_fresh.
  - intros n r s report r' s' Hopen E. unfold runner_slice, site_services in E.
    destruct (made_slice _ r) as [[[report0|e] made]|] eqn:Em; [|done..]. injection E as -> -> <-.
    destruct (made_slice_runs _ _ _ _ Hopen Em) as (? & ? & ?). done.
  - intros n r s e r' s' Hopen E. unfold runner_slice, site_services in E.
    destruct (made_slice _ r) as [[[report0|e0] made]|] eqn:Em; [done|..]; injection E as _ <- <-; [|done].
    by rewrite (made_slice_refused _ _ _ _ Em).
  - intros r s answer r' s' Hopen E. unfold runner_finish, site_services in E. destruct (made_finish r) as [a made] eqn:Em.
    injection E as <- <- <-. destruct (made_finish_states _ _ _ Hopen Em) as (? & ?). done.
Defined.

(** ** Theorems *)

(** A worker of the sample workload, told to switch to it under another seed, then to a
    workload it does not have, then to move, then to stop. *)

Definition site_args : WorkloadArgs := {|
  wl_workload := lit "copy"; wl_seed := 7; wl_footprint_bytes := 4096; wl_threads := 1; wl_decomposition := 1;
  wl_isa := kAvx2; wl_lock := kTry; wl_duty := sample_duty; wl_line_bytes := 64;
  wl_physical_package := None; wl_physical_core := None; wl_numa_node := None |}.

Definition site_session : Session :=
  {| session_slot := 0; control_fd := 5; record_fd := 6;
     pacing := {| duration_ns := 40; interval_ns := 1000000; stale_after_ns := 9000000 |} |}.

Definition switch_to (name : text) : Command :=
  SwitchTo {| switch_workload := name; switch_seed := 9; switch_footprint_bytes := 4096; switch_decomposition := 1;
              switch_duty := sample_duty |}.

Definition site_orders : list ControlMessage :=
  [ {| message_sequence := 1; command := switch_to (lit "copy") |}; {| message_sequence := 2; command := switch_to (lit "fft") |};
    {| message_sequence := 3; command := Rebind [2; 3] |}; {| message_sequence := 4; command := Stop |} ].

Lemma site_orders_ok : Forall order_ok site_orders.
Proof.
  assert (∀ name, (0 < length name < 9)%nat → string_dom name) as Hname.
  { unfold string_dom, size_of. intros name Hn. lia. }
  repeat apply Forall_cons_2; try apply Forall_nil_2; (split; [|by vm_compute|by vm_compute]);
    (split; [unfold unsigned_dom; cbn; lia|]); cbn [command command_widths switch_to].
  - split; [apply Hname; cbn; lia|]. unfold unsigned_dom. cbn. lia.
  - split; [apply Hname; cbn; lia|]. unfold unsigned_dom. cbn. lia.
  - split; [repeat constructor; unfold unsigned_dom; cbn; lia|by vm_compute].
  - done.
Qed.

(** The first byte of the working set changed while a unit is computed. *)
Definition worn : Weather := {|
  on_copies cs := cs;
  on_memory p m := match p with BeforeCheck => <[0%nat := byte_of 99]> m | _ => m end;
|}.

Definition site_with (weather : Weather) (written : list byte) (chunk : nat) : Site :=
  {| site_world := world_with written chunk; site_kernel := two_locks; site_fp := required_state true false;
     site_weather := weather; site_slices := [] |}.

(** C4: A verified run ends. Within as many ticks as the raw clock can be read in its
    duration - a clock whose readings may repeat, but which moves on after finitely many -
    it has a result, whatever the controller orders, however its pipes, its memory and its
    runners fail, and however often the runner is replaced; a Switch never finds itself
    without a path to go to. It says the duration elapsed only when it did, and when it
    did it says that, unless the last report found no one to read it. *)
Theorem verified_run_ends {K R} session `{RunnerLaws K R session} `{!PollLaws K (control_fd session)} `{!TimeLaws K}
    `{!ServicesTime K R} strerror fuel args cpus s :
  (1 ≤ fuel)%nat → duration_ns (pacing session) * readings K < Z.of_nat fuel →
  ∃ r s', verified_run strerror session fuel args cpus s = Some (r, s') ∧
    ∀ o, r = Value o →
      (outcome_reason (outcome o) = kDurationElapsed → duration_ns (pacing session) ≤ outcome_elapsed_ns (outcome o)) ∧
      (duration_ns (pacing session) ≤ outcome_elapsed_ns (outcome o) →
         outcome_reason (outcome o) = kDurationElapsed ∨ outcome_reason (outcome o) = kControllerHungUp).
Proof.
  intros Hone Hfuel. destruct (verified_run_returns session strerror s [] fuel args cpus Hone Hfuel) as [[r s'] E].
  pose proof (verified_run_tells session strerror s [] _ _ _ _ _ E) as Hr.
  exists r, s'. split; [done|]. intros o ->. destruct Hr as (elapsed & (said & next & k & ran & closing & _ & Ho) & Hd).
  by rewrite (true_elapsed _ _ _ _ _ _ _ _ _ _ Ho).
Qed.

Lemma verified_run_ends_witness :
  ∃ o s', verified_run (λ _, []) site_session 41 site_args [3] (site_with worn [] 40) = Some (Value o, s')
    ∧ outcome_reason (outcome o) = kDurationElapsed ∧ 40 ≤ outcome_elapsed_ns (outcome o).
Proof.
  destruct (verified_run_ends site_session (λ _, []) 41 site_args [3] (site_with worn [] 40)) as (r & s' & E & Hr).
  - lia.
  - reflexivity.
  - destruct r as [o|e]; [|exfalso; apply (f_equal (option_map fst)) in E; vm_compute in E; discriminate].
    exists o, s'. split; [exact E|]. assert (outcome_reason (outcome o) = kDurationElapsed) as Hreason.
    { apply (f_equal (option_map fst)) in E. vm_compute in E. injection E as <-. reflexivity. }
    split; [exact Hreason|]. destruct (Hr o eq_refl) as [Hd _]. exact (Hd Hreason).
Defined.

(** C2: A verified run accounts for everything it ran, however long it runs. What it wrote is a sequence of
    frames, the last perhaps cut; the slices it ran follow one another from unit 0, over
    every replacement of the runner; the error records it wrote are those of its slices
    and then its closing statements, in order, none invented and none out of place; and
    each closing statement is true of the whole run, not only of its last runner. Its
    outcome counts exactly the slices run, however many runners ran them. Unless no one
    was reading, nothing is cut and nothing left out; and a run that ends by itself ends
    with its whole tally, having stated it if nothing reached the oracle, or the bracket. *)
Theorem verified_run_accounts {K R} session `{RunnerLaws K R session} `{!PollLaws K (control_fd session)}
    strerror fuel args cpus s r s' :
  verified_run strerror session fuel args cpus s = Some (r, s') →
  ∃ said next k ran closing,
    piped (fd:=record_fd session) s' = piped (fd:=record_fd session) s ++ (said ≫= said_frame) ++ take k (said_frame next)
    ∧ slices s' = slices s ++ ran ∧ (∃ last, chained 0 ran last)
    ∧ found said `prefix_of` records_of ran ++ closing ∧ Forall (truthful ran) closing
    ∧ ∀ o, r = Value o → let reason := outcome_reason (outcome o) in
        tally o = tally_of_all ran ∧ outcome_progress (outcome o) = units_computed (tally_of_all ran)
        ∧ (reason ≠ kControllerHungUp → k = 0%nat ∧ found said = records_of ran ++ closing)
        ∧ (controller_lost reason = false →
             last said = Some (Counted (tally o))
             ∧ (counts_nothing oracle_blocks ran → Exists (λ record, states_zero record kOracleSubject = true) closing)
             ∧ (counts_nothing integrity_checked ran → Exists (λ record, states_zero record kBracketSubject = true) closing)).
Proof.
  intros Hr%(verified_run_tells session strerror s []). destruct r as [o|e].
  - destruct Hr as (elapsed & (said & next & k & ran & closing & [S1 S2 S3 S4 S5 S6] & [T1 T2 T3 T4 T5 T6]) & _).
    exists said, next, k, ran, closing. split_and!; try done. intros o' [= <-]. rewrite <- T1. by split_and!.
  - destruct Hr as (said & next & k & ran & closing & [S1 S2 S3 S4 S5 S6]).
    by exists said, next, k, ran, closing.
Qed.

Lemma verified_run_accounts_witness :
  ∃ o s' said ran closing,
    verified_run (λ _, []) site_session 41 site_args [3] (site_with worn [] 40) = Some (Value o, s')
    ∧ pipe_in (w_pipe (site_world s')) = (said ≫= said_frame) ∧ site_slices s' = ran ∧ length ran = 7%nat
    ∧ found said = records_of ran ++ closing ∧ last said = Some (Counted (tally o)) ∧ tally o = tally_of_all ran
    ∧ integrity_failed (tally o) = 64.
Proof.
  destruct (verified_run (λ _, []) site_session 41 site_args [3] (site_with worn [] 40)) as [[r s']|] eqn:E.
  - destruct (verified_run_accounts site_session (λ _, []) 41 site_args [3] (site_with worn [] 40) r s' E)
      as (said & next & k & ran & closing & Hsaid & Hran & _ & _ & _ & Hr).
    destruct r as [o|e]; [|exfalso; apply (f_equal (option_map fst)) in E; vm_compute in E; discriminate].
    destruct (Hr o eq_refl) as (Ht & _ & Hwhole & Hlast).
    assert (outcome_reason (outcome o) = kDurationElapsed ∧ integrity_failed (tally o) = 64) as [Hreason Hfailed].
    { apply (f_equal (option_map fst)) in E. vm_compute in E. injection E as <-. split; reflexivity. }
    destruct Hwhole as [-> Hfound]; [rewrite Hreason; discriminate|].
    destruct Hlast as [Hlast _]; [rewrite Hreason; reflexivity|].
    exists o, s', said, ran, closing. split; [reflexivity|]. split; [|split; [|split; [|auto]]].
    + etransitivity; [exact Hsaid|]. cbn. apply app_nil_r.
    + exact Hran.
    + cbn in Hran. assert (option_map (λ p, length (site_slices p.2)) (Some (Value (E:=WorkerError) o, s')) = Some 7%nat) as Hlen.
      { rewrite <- E. vm_compute. reflexivity. }
      cbn in Hlen. injection Hlen as Hlen. rewrite <- Hran. exact Hlen.
  - exfalso. apply (f_equal (option_map fst)) in E. vm_compute in E. discriminate.
Defined.

(** C3: Every order is answered once, in the order it came: over a controller's stream of
    valid orders, in any pieces, the acknowledgements a run writes carry the sequence
    numbers of the orders whose frames lie wholly in the bytes it read, in their order: a
    first part of them whatever happens, and all of them when the run ends with an outcome
    that names neither an order to stop nor a controller that hung up. *)
Theorem verified_orders_answered {K R} session `{RunnerLaws K R session} `{!PollLaws K (control_fd session)}
    strerror fuel args cpus stream s r s' :
  Forall order_ok stream → taken (fd:=control_fd session) s = [] →
  verified_run strerror session fuel args cpus s = Some (r, s') →
  ∃ said next k,
    piped (fd:=record_fd session) s' = piped (fd:=record_fd session) s ++ (said ≫= said_frame) ++ take k (said_frame next)
    ∧ let heard := taken (fd:=control_fd session) s' in
      (heard `prefix_of` (stream ≫= order_frame) →
       let owed := message_sequence <$> whole_prefix order_frame (length heard) stream in
       acked said `prefix_of` owed
       ∧ ∀ o, r = Value o → outcome_reason (outcome o) ≠ kControllerHungUp → outcome_reason (outcome o) ≠ kStopRequested →
           acked said = owed).
Proof.
  intros Hms Hnew Hr%(verified_run_tells session strerror s stream). destruct r as [o|e].
  - destruct Hr as (elapsed & (said & next & k & ran & closing & Hs & Ho) & _). exists said, next, k.
    split; [by destruct Hs|]. intros heard Hpre. assert (overheard session s stream s') as Hover by done.
    split; [by apply Hs|]. intros o' [= <-] N1 N2. by apply Ho.
  - destruct Hr as (said & next & k & ran & closing & Hs). exists said, next, k.
    split; [by destruct Hs|]. intros heard Hpre. assert (overheard session s stream s') as Hover by done.
    split; [by apply Hs|done].
Qed.

Lemma verified_orders_answered_witness :
  ∃ o s' said,
    verified_run (λ _, []) site_session 41 site_args [3] (site_with calm (take 150 (site_orders ≫= order_frame)) 40)
      = Some (Value o, s')
    ∧ outcome_reason (outcome o) = kDurationElapsed ∧ acked said = [1; 2; 3].
Proof.
  destruct (verified_run (λ _, []) site_session 41 site_args [3]
    (site_with calm (take 150 (site_orders ≫= order_frame)) 40)) as [[r s']|] eqn:E.
  - destruct (verified_orders_answered site_session (λ _, []) 41 site_args [3] site_orders
      (site_with calm (take 150 (site_orders ≫= order_frame)) 40) r s' site_orders_ok) as (said & next & k & _ & Hr);
      [reflexivity|exact E|].
    destruct r as [o|e]; [|exfalso; apply (f_equal (option_map fst)) in E; vm_compute in E; discriminate].
    assert (outcome_reason (outcome o) = kDurationElapsed) as Hreason.
    { apply (f_equal (option_map fst)) in E. vm_compute in E. injection E as <-. reflexivity. }
    assert (taken (fd:=control_fd site_session) s' = take 150 (site_orders ≫= order_frame)) as Hheard.
    { assert (option_map (λ p, pipe_taken (w_pipe (site_world p.2))) (Some (Value (E:=WorkerError) o, s'))
          = Some (take 150 (site_orders ≫= order_frame))) as Htaken by (rewrite <- E; vm_compute; reflexivity).
      injection Htaken as Htaken. exact Htaken. }
    rewrite Hheard in Hr. destruct Hr as [_ Hr].
    { exists (drop 150 (site_orders ≫= order_frame)). rewrite take_drop. reflexivity. }
    exists o, s', said. split; [reflexivity|]. split; [exact Hreason|].
    rewrite (Hr o eq_refl) by (rewrite Hreason; discriminate). vm_compute. reflexivity.
  - exfalso. apply (f_equal (option_map fst)) in E. vm_compute in E. discriminate.
Defined.
