(* ===== verification/Schedule.v ===== *)
(** * workloads/mixed: a schedule of orders

    What the controller tells each worker and when (workloads/mixed/schedule.hpp and
    schedule.cpp): the data, what is wrong with a schedule for a run, and its digest. *)

From S2P Require Export Control CpuList Crc.
From S2P Require Journal.

(** ** schedule.hpp *)

Record WorkerCommands := { wc_slot : Z; wc_commands : list Command }.

Record ScheduleStep := {
  at_ns : Z;
  step_phase : text;
  step_workload : text;
  step_workers : list WorkerCommands;
}.

Record Start := { start_workload : text; start_footprint_bytes : Z }.

Record Schedule := {
  sched_workers : Z;
  sched_start : list Start;
  sched_phase : text;
  sched_workload : text;
  sched_steps : list ScheduleStep;
}.

(** The comparisons are those of the members, in order. *)
#[export] Instance SetDuty_eq_dec : EqDecision SetDuty.
Proof. solve_decision. Defined.
#[export] Instance DutyCycle_eq_dec : EqDecision DutyCycle.
Proof. solve_decision. Defined.
#[export] Instance Switch_eq_dec : EqDecision Switch.
Proof. solve_decision. Defined.
#[export] Instance Command_eq_dec : EqDecision Command.
Proof. solve_decision. Defined.
#[export] Instance WorkerCommands_eq_dec : EqDecision WorkerCommands.
Proof. solve_decision. Defined.
#[export] Instance ScheduleStep_eq_dec : EqDecision ScheduleStep.
Proof. solve_decision. Defined.
#[export] Instance Start_eq_dec : EqDecision Start.
Proof. solve_decision. Defined.
#[export] Instance Schedule_eq_dec : EqDecision Schedule.
Proof. solve_decision. Defined.

(** ** mixed.hpp: the most a schedule holds *)

Definition kMaxSteps : Z := 100000.
Definition kMaxCommands : Z := 4000000.

(** ** schedule.cpp *)

Definition kMaxLabelBytes : Z := Journal.kMaxLabelBytes.

(** [bounded]. *)
Definition bounded_label (label : text) : text := take (Z.to_nat (Z.min (size_of label) kMaxLabelBytes)) label.

(** *** The digest

    [add] appends to a text; here each answers what it appends. *)

Definition add_text (key value : text) : text := key ++ lit "=" ++ value ++ lit ";".

Definition add_number (key : text) (value : Z) : text := add_text key (to_dec value).

Definition add_command (command : Command) : text :=
  command_name command ++ lit "(" ++
  match command with
  | SetDutyTo duty =>
      add_number (lit "busy") (busy_permille duty) ++ add_number (lit "period") (u64 (period_ns duty))
  | Rebind cpus => cpus ≫= add_number (lit "cpu")
  | SwitchTo change =>
      add_text (lit "workload") (switch_workload change) ++
      add_number (lit "seed") (switch_seed change) ++
      add_number (lit "footprint") (switch_footprint_bytes change) ++
      add_number (lit "decomposition") (switch_decomposition change) ++
      add_number (lit "oracle") (oracle_period (switch_duty change)) ++
      add_number (lit "integrity") (integrity_period (switch_duty change))
  | _ => []
  end ++ lit ")".

Definition add_step (step : ScheduleStep) : text :=
  add_number (lit "at") (u64 (at_ns step)) ++
  add_text (lit "phase") (step_phase step) ++
  add_text (lit "workload") (step_workload step) ++
  (step_workers step ≫= λ each, add_number (lit "slot") (wc_slot each) ++ (wc_commands each ≫= add_command)).

Definition canonical (schedule : Schedule) : text :=
  add_number (lit "workers") (sched_workers schedule) ++
  add_text (lit "phase") (sched_phase schedule) ++
  add_text (lit "workload") (sched_workload schedule) ++
  (sched_start schedule ≫= λ start,
     add_text (lit "start") (start_workload start) ++
     add_number (lit "footprint") (start_footprint_bytes start)) ++
  (sched_steps schedule ≫= add_step).

Definition digest (schedule : Schedule) : Z := crc32 (canonical schedule).

(** *** What is wrong with a schedule *)

(** The loop over the starts, from [slot] on. *)
Fixpoint start_problem_from (slot : Z) (starts : list Start) : option text :=
  match starts with
  | [] => None
  | start :: starts =>
      if negb (is_valid_name (start_workload start)) || (start_footprint_bytes start =? 0)
      then Some (lit "the start of worker " ++ to_dec slot ++ lit " names no workload of a valid name or no footprint")
      else start_problem_from (slot + 1) starts
  end.

Definition start_problem (schedule : Schedule) : option text := start_problem_from 0 (sched_start schedule).

Definition the_step (phase : text) : text := lit "the step " ++ quoted phase.

(** The commands of one worker. *)
Fixpoint orders_problem (phase : text) (slot : Z) (commands : list Command) : option text :=
  match commands with
  | [] => None
  | command :: commands =>
      if negb (is_valid_message {| message_sequence := 0; command := command |})
      then Some (the_step phase ++ lit " sends worker " ++ to_dec slot ++ lit " a " ++ command_name command
                 ++ lit " that breaks the rules of its command")
      else orders_problem phase slot commands
  end.

Fixpoint commands_problem_of (phase : text) (each_workers : list WorkerCommands) (workers : Z) : option text :=
  match each_workers with
  | [] => None
  | each :: rest =>
      if workers <=? wc_slot each
      then Some (the_step phase ++ lit " names worker " ++ to_dec (wc_slot each) ++ lit " of " ++ to_dec workers)
      else match orders_problem phase (wc_slot each) (wc_commands each) with
           | Some bad => Some bad
           | None => commands_problem_of phase rest workers
           end
  end.

Definition commands_problem (step : ScheduleStep) (workers : Z) : option text :=
  commands_problem_of (step_phase step) (step_workers step) workers.

(** The loop over the steps: the labels [seen] and the instant [before]. *)
Fixpoint steps_problem (seen : list text) (before : Z) (steps : list ScheduleStep) (workers : Z) : option text :=
  match steps with
  | [] => None
  | step :: steps =>
      if bool_decide (step_phase step ∈ seen)
      then Some (the_step (step_phase step) ++ lit " repeats the label of an earlier step")
      else if at_ns step <? before
      then Some (the_step (step_phase step) ++ lit " is not after the one before it")
      else if (kMaxLabelBytes <? size_of (step_phase step)) || (kMaxLabelBytes <? size_of (step_workload step))
      then Some (the_step (step_phase step) ++ lit " has a label past the journal's limit")
      else match commands_problem step workers with
           | Some bad => Some bad
           | None => steps_problem (step_phase step :: seen) (at_ns step) steps workers
           end
  end.

Definition problem (schedule : Schedule) (workers : Z) : option text :=
  if negb (sched_workers schedule =? workers)
  then Some (lit "the schedule is for " ++ to_dec (sched_workers schedule) ++ lit " worker(s) and the run has "
             ++ to_dec workers)
  else if negb (bool_decide (sched_start schedule = [])) && negb (size_of (sched_start schedule) =? workers)
  then Some (lit "the schedule names a start for some workers and not for all")
  else if (kMaxLabelBytes <? size_of (sched_phase schedule)) || (kMaxLabelBytes <? size_of (sched_workload schedule))
  then Some (lit "the schedule's first phase or workload label is past the journal's limit")
  else match start_problem schedule with
       | Some bad => Some bad
       | None => steps_problem [] 0 (sched_steps schedule) workers
       end.

Lemma seqZ_head m n : seqZ m (Z.of_nat (S n)) = m :: seqZ (m + 1) (Z.of_nat n).
Proof. rewrite seqZ_cons by lia. f_equal. f_equal; lia. Qed.

(** ** Labels *)

Lemma bounded_label_ok label : size_of (bounded_label label) ≤ kMaxLabelBytes.
Proof. unfold bounded_label, size_of. rewrite length_take. unfold kMaxLabelBytes, Journal.kMaxLabelBytes. lia. Qed.

Lemma bounded_label_app pre rest : size_of pre ≤ kMaxLabelBytes → ∃ rest', bounded_label (pre ++ rest) = pre ++ rest'.
Proof.
  unfold bounded_label, size_of. intros Hpre. rewrite length_app.
  exists (take (Z.to_nat (Z.min (Z.of_nat (length pre + length rest)) kMaxLabelBytes) - length pre) rest).
  rewrite take_app. f_equal. apply take_ge. lia.
Qed.

(** Labels that begin with a character, a number and a space tell their numbers apart. *)
Lemma numbered_label_inj c m n x y :
  in_u64 m → in_u64 n →
  bounded_label ([c] ++ to_dec m ++ lit " " ++ x) = bounded_label ([c] ++ to_dec n ++ lit " " ++ y) → m = n.
Proof.
  intros Hm Hn E.
  assert (H : ∀ k z, in_u64 k → ∃ z', bounded_label ([c] ++ to_dec k ++ lit " " ++ z) = c :: to_dec k ++ " "%byte :: z').
  { intros k z Hk. destruct (bounded_label_app ([c] ++ to_dec k ++ lit " ") z) as [z' Hz].
    - pose proof (size_to_dec k Hk). unfold size_of in *. rewrite !length_app.
      unfold kMaxLabelBytes, Journal.kMaxLabelBytes. simpl. lia.
    - exists z'. rewrite <-!app_assoc in Hz. by rewrite Hz. }
  destruct (H m x Hm) as [x' Ex], (H n y Hn) as [y' Ey]. rewrite Ex, Ey in E.
  injection E as E. destruct Hm, Hn. by eapply (to_dec_front " "%byte).
Qed.

(** ** Who is told what *)

(** The orders of one worker, of a step and of a sequence of steps. *)
Definition orders_in (slot : Z) (told : list WorkerCommands) : list Command :=
  told ≫= λ each, if wc_slot each =? slot then wc_commands each else [].
Definition orders_to (slot : Z) (steps : list ScheduleStep) : list Command :=
  steps ≫= λ step, orders_in slot (step_workers step).

Lemma orders_in_cons slot each told :
  orders_in slot (each :: told) = (if wc_slot each =? slot then wc_commands each else []) ++ orders_in slot told.
Proof. done. Qed.

(** ** A schedule that can be run *)

Definition label_ok (label : text) : Prop := size_of label ≤ kMaxLabelBytes.

Definition start_ok (start : Start) : Prop :=
  is_valid_name (start_workload start) = true ∧ start_footprint_bytes start ≠ 0.

Definition command_ok (command : Command) : Prop :=
  is_valid_message {| message_sequence := 0; command := command |} = true.

Definition orders_ok (workers : Z) (each : WorkerCommands) : Prop :=
  wc_slot each < workers ∧ Forall command_ok (wc_commands each).

Record step_ok (workers : Z) (step : ScheduleStep) : Prop := {
  step_label_ok : label_ok (step_phase step) ∧ label_ok (step_workload step);
  step_orders_ok : Forall (orders_ok workers) (step_workers step);
}.

(** What problem promises of a schedule it finds nothing wrong with. *)
Record runnable (schedule : Schedule) (workers : Z) : Prop := {
  run_for : sched_workers schedule = workers;
  run_starts : sched_start schedule = [] ∨ size_of (sched_start schedule) = workers;
  run_starts_ok : Forall start_ok (sched_start schedule);
  run_labels : label_ok (sched_phase schedule) ∧ label_ok (sched_workload schedule);
  run_steps : Forall (step_ok workers) (sched_steps schedule);
  run_phases : NoDup (step_phase <$> sched_steps schedule);
  run_order : StronglySorted Z.le (0 :: (at_ns <$> sched_steps schedule));
}.

Lemma start_problem_from_None slot starts : start_problem_from slot starts = None ↔ Forall start_ok starts.
Proof.
  revert slot. induction starts as [|start starts IH]; intros slot; simpl; [done|].
  rewrite Forall_cons, <-(IH (slot + 1)). unfold start_ok.
  destruct (is_valid_name (start_workload start)); simpl; [|naive_solver].
  destruct (Z.eqb_spec (start_footprint_bytes start) 0); naive_solver.
Qed.

Lemma orders_problem_None phase slot commands : orders_problem phase slot commands = None ↔ Forall command_ok commands.
Proof.
  induction commands as [|command commands IH]; simpl; [done|].
  rewrite Forall_cons, <-IH. unfold command_ok.
  destruct (is_valid_message _); simpl; naive_solver.
Qed.

Lemma commands_problem_None phase each workers :
  commands_problem_of phase each workers = None ↔ Forall (orders_ok workers) each.
Proof.
  induction each as [|e each IH]; simpl; [done|].
  rewrite Forall_cons, <-IH. unfold orders_ok at 1. rewrite <-(orders_problem_None phase (wc_slot e)).
  destruct (Z.leb_spec workers (wc_slot e)); [naive_solver lia|].
  destruct (orders_problem _ _ _); naive_solver.
Qed.

Lemma label_test label : (kMaxLabelBytes <? size_of label) = false ↔ label_ok label.
Proof. unfold label_ok. rewrite Z.ltb_ge. done. Qed.

Lemma labels_test a b :
  (kMaxLabelBytes <? size_of a) || (kMaxLabelBytes <? size_of b) = false ↔ label_ok a ∧ label_ok b.
Proof. by rewrite orb_false_iff, !label_test. Qed.

Lemma steps_problem_None seen before steps workers :
  steps_problem seen before steps workers = None ↔
  Forall (step_ok workers) steps ∧ NoDup (step_phase <$> steps) ∧
  (∀ step, step ∈ steps → step_phase step ∉ seen) ∧ StronglySorted Z.le (before :: (at_ns <$> steps)).
Proof.
  revert seen before. induction steps as [|step steps IH]; intros seen before; simpl.
  { split; [|done]. intros _. split_and!; [done|constructor|set_solver|repeat constructor]. }
  rewrite Forall_cons, NoDup_cons.
  assert (Hok : step_ok workers step ↔
    ((kMaxLabelBytes <? size_of (step_phase step)) || (kMaxLabelBytes <? size_of (step_workload step)) = false)
    ∧ commands_problem step workers = None).
  { unfold commands_problem. rewrite labels_test, commands_problem_None.
    split; [intros [? ?]; done|intros [? ?]; by constructor]. }
  rewrite Hok. clear Hok.
  case_bool_decide as Hseen; [split; [done|]; intros (_ & _ & H & _); exfalso; apply (H step); set_solver|].
  destruct (Z.ltb_spec (at_ns step) before) as [Hlt|Hge].
  { split; [done|]. intros (_ & _ & _ & Hs). exfalso. apply StronglySorted_inv in Hs as [_ Hs].
    apply Forall_cons in Hs as [Hs _]. lia. }
  destruct (_ || _); [naive_solver|]. destruct (commands_problem step workers); [naive_solver|].
  rewrite IH. clear IH. split.
  - intros (Hsteps & Hnd & Hfresh & Hsort). split_and!; [done|done|done| |done| |].
    + intros Hin. apply list_elem_of_fmap in Hin as (s & Heq & Hin). apply (Hfresh s Hin). rewrite <-Heq. set_solver.
    + intros s Hin. apply elem_of_cons in Hin as [->|Hin]; [done|]. specialize (Hfresh s Hin). set_solver.
    + constructor; [done|]. apply StronglySorted_inv in Hsort as [_ Hall].
      constructor; [done|]. eapply Forall_impl; [exact Hall|]. simpl. lia.
  - intros ((_ & Hsteps) & (Hnew & Hnd) & Hfresh & Hsort). split_and!; [done|done| |].
    + intros s Hin. apply not_elem_of_cons. split; [|apply Hfresh; set_solver].
      intros Heq. apply Hnew. rewrite <-Heq. apply list_elem_of_fmap. eauto.
    + by apply StronglySorted_inv in Hsort as [Hsort _].
Qed.

(** problem answers nothing exactly for a schedule that can be run by that many
    workers: one start for each or none, every worker and command valid, labels the journal
    takes and no two steps' alike, and the steps in order from the run's start. *)
Lemma problem_exactly schedule workers : problem schedule workers = None ↔ runnable schedule workers.
Proof.
  unfold problem, start_problem.
  destruct (Z.eqb_spec (sched_workers schedule) workers) as [He|He]; simpl;
    [|split; [done|intros []; done]].
  case_bool_decide as Hs; simpl.
  2: destruct (Z.eqb_spec (size_of (sched_start schedule)) workers) as [Hn|Hn]; simpl;
       [|split; [done|intros []; naive_solver]].
  all: destruct (_ || _) eqn:Hl;
    [split; [done|]; intros []; apply labels_test in run_labels0; congruence|apply labels_test in Hl].
  all: destruct (start_problem_from _ _) eqn:Hp;
    [split; [done|]; intros []; apply (start_problem_from_None 0) in run_starts_ok0; congruence|].
  all: apply start_problem_from_None in Hp; rewrite steps_problem_None.
  all: split; [intros (? & ? & ? & ?); constructor; auto|intros []; split_and!; auto; set_solver].
Qed.
