(* ===== verification/Mixed.v ===== *)
(** * workloads/mixed: the flagship schedule

    Workloads rotate across the workers, their datasets change size, at times all join one
    operation, and the workers move across CPUs (workloads/mixed/mixed.hpp, mixed.cpp and
    roster.cpp). Every choice is a draw of one mixing function. [None] is the use of an
    element a list does not have. *)

From stdpp Require Import sorting.
From S2P Require Export Lists Schedule Registry.

(** ** mixed.hpp *)

Record RosterEntry := { roster_name : text; min_footprint_bytes : Z }.

#[export] Instance RosterEntry_eq_dec : EqDecision RosterEntry.
Proof. solve_decision. Defined.

Inductive Intensity := kComputeBound | kMemoryBound | kBalancedBound.

#[export] Instance Intensity_eq_dec : EqDecision Intensity.
Proof. solve_decision. Defined.

Record MixedOptions := {
  mix_workers : Z;
  mix_seed : Z;
  mix_duration_ns : Z;
  mix_rotation_ns : Z;
  mix_footprint_bytes : Z;
  placements : list (list Z);
  mix_duty : DutyCycle;
}.

(** ** mixed.cpp *)

Definition mix (value : Z) : Z :=
  let value := u64 (value + 0x9E3779B97F4A7C15) in
  let value := u64 (Z.lxor value (Z.shiftr value 30) * 0xBF58476D1CE4E5B9) in
  let value := u64 (Z.lxor value (Z.shiftr value 27) * 0x94D049BB133111EB) in
  Z.lxor value (Z.shiftr value 31).

Inductive Purpose := kPick | kSeed | kSize.

Definition purpose_number (purpose : Purpose) : Z := match purpose with kPick => 1 | kSeed => 2 | kSize => 3 end.

Definition draw (seed rotation slot : Z) (purpose : Purpose) : Z :=
  mix (u64 (seed + mix (u64 (rotation + mix (u64 (slot + mix (purpose_number purpose))))))).

Inductive Kind := kCompute | kMemory | kBalanced | kMixed | kJoin | kMove.

#[export] Instance Kind_eq_dec : EqDecision Kind.
Proof. solve_decision. Defined.

(** [kNames], by the order of the enumerators. *)
Definition name_of (kind : Kind) : text :=
  match kind with
  | kCompute => lit "compute-heavy"
  | kMemory => lit "memory-heavy"
  | kBalanced => lit "balanced"
  | kMixed => lit "mixed"
  | kJoin => lit "all-join"
  | kMove => lit "move"
  end.

Definition kPlan : list Kind := [kMixed; kCompute; kMemory; kBalanced; kJoin].
Definition kMoveEvery : Z := 3.

Definition kComputeNames : list text :=
  [lit "dense_linear"; lit "fft"; lit "monte_carlo"; lit "particles"; lit "raytrace"].
Definition kMemoryNames : list text :=
  [lit "adaptive_mesh"; lit "graph"; lit "sort"; lit "sparse"; lit "stencil"].

(** [classify]. *)
Definition classify_workload (workload : text) : Intensity :=
  if bool_decide (workload ∈ kComputeNames) then kComputeBound
  else if bool_decide (workload ∈ kMemoryNames) then kMemoryBound
  else kBalancedBound.

Definition pool_of (usable : list RosterEntry) (wanted : Intensity) : list RosterEntry :=
  filter (λ entry, classify_workload (roster_name entry) = wanted) usable.

(** [narrowed]. *)
Definition narrowed (kind : Kind) (usable : list RosterEntry) (slot : Z) : list RosterEntry :=
  match kind with
  | kCompute => pool_of usable kComputeBound
  | kMemory => pool_of usable kMemoryBound
  | kBalanced => pool_of usable (if slot mod 2 =? 0 then kComputeBound else kMemoryBound)
  | _ => []
  end.

Definition pool_for (kind : Kind) (usable : list RosterEntry) (slot : Z) : list RosterEntry :=
  if bool_decide (narrowed kind usable slot = []) then usable else narrowed kind usable slot.

Definition pick (kind : Kind) (usable : list RosterEntry) (seed rotation slot : Z) : option RosterEntry :=
  let pool := pool_for kind usable slot in
  let spread := if bool_decide (kind = kJoin) then 0 else slot in
  pool !! Z.to_nat (u64 (draw seed rotation 0 kPick + spread) mod size_of pool).

Definition assignment (entry : RosterEntry) (options : MixedOptions) (rotation slot : Z) : Switch :=
  let half := negb (Z.land (draw (mix_seed options) rotation slot kSize) 1 =? 0) in
  let size := if half then mix_footprint_bytes options / 2 else mix_footprint_bytes options in
  {| switch_workload := roster_name entry;
     switch_seed := draw (mix_seed options) rotation slot kSeed;
     switch_footprint_bytes := if size <? min_footprint_bytes entry then mix_footprint_bytes options else size;
     switch_decomposition := 0;
     switch_duty := mix_duty options |}.

(** Strings compare by their bytes, as numbers. *)
Fixpoint text_ltb (a b : text) : bool :=
  match a, b with
  | _, [] => false
  | [], _ :: _ => true
  | x :: a, y :: b => (byte_val x <? byte_val y) || ((byte_val x =? byte_val y) && text_ltb a b)
  end.

Definition text_le (a b : text) : Prop := text_ltb b a = false.

#[export] Instance text_le_dec a b : Decision (text_le a b).
Proof. unfold text_le. apply _. Defined.

(** [std::ranges::unique]. *)
Fixpoint unique (names : list text) : list text :=
  match names with
  | a :: (b :: _) as rest => if bool_decide (a = b) then unique rest else a :: unique rest
  | _ => names
  end.

Definition label_of (changes : list Switch) : text :=
  bounded_label (foldl (λ label name, label ++ (if bool_decide (label = []) then [] else lit "+") ++ name) []
    (unique (merge_sort text_le (switch_workload <$> changes)))).

Definition phase_of (rotation : Z) (kind : Kind) : text :=
  bounded_label (lit "r" ++ to_dec rotation ++ lit " " ++ name_of kind).

Definition rotations_of (options : MixedOptions) : Z :=
  u64 (Z.quot (mix_duration_ns options - 1) (mix_rotation_ns options)).

(** The loop over the sets of CPUs. *)
Definition placements_valid (sets : list (list Z)) : bool :=
  forallb (λ cpus, is_valid_message {| message_sequence := 0; command := Rebind cpus |}) sets.

Definition refusal_of (options : MixedOptions) : option text :=
  if mix_workers options =? 0 then Some (lit "a mixed schedule needs at least one worker")
  else if (mix_duration_ns options <=? 0) || (mix_rotation_ns options <=? 0)
  then Some (lit "the duration and the rotation interval must be positive")
  else if mix_footprint_bytes options =? 0 then Some (lit "a mixed schedule needs a footprint")
  else
    let rotations := rotations_of options in
    if kMaxSteps <? rotations
    then Some (lit "a rotation every " ++ to_dec (mix_rotation_ns options / 1000000) ++ lit " ms for "
               ++ to_dec (mix_duration_ns options / 1000000) ++ lit " ms is more than " ++ to_dec kMaxSteps
               ++ lit " steps")
    else if kMaxCommands / (rotations + 1) <? mix_workers options
    then Some (to_dec (mix_workers options) ++ lit " worker(s) over " ++ to_dec rotations
               ++ lit " steps is more than " ++ to_dec kMaxCommands ++ lit " commands")
    else if size_of (placements options) =? 1
    then Some (lit "workers move across at least two sets of CPUs, not one")
    else if negb (placements_valid (placements options))
    then Some (lit "a set of CPUs to move across is empty, unordered or past CPU 1023")
    else None.

(** *** A rotation *)

Definition moves_at (options : MixedOptions) (rotation : Z) : bool :=
  negb (bool_decide (placements options = [])) && (rotation mod kMoveEvery =? 0).

Definition kind_at (options : MixedOptions) (rotation : Z) : option Kind :=
  if moves_at options rotation then Some kMove else kPlan !! Z.to_nat (rotation mod size_of kPlan).

Definition moved (options : MixedOptions) (rotation slot : Z) : option (list Z) :=
  placements options !! Z.to_nat (u64 (slot + rotation / kMoveEvery) mod size_of (placements options)).

Definition changed (kind : Kind) (usable : list RosterEntry) (options : MixedOptions) (rotation slot : Z) :
    option Switch :=
  entry ← pick kind usable (mix_seed options) rotation slot; Some (assignment entry options rotation slot).

Definition slots_of (options : MixedOptions) : list Z := seqZ 0 (mix_workers options).

Definition told (slot : Z) (command : Command) : WorkerCommands := {| wc_slot := slot; wc_commands := [command] |}.

(** [step_of]: the step, and the label [current] after it. *)
Definition step_of (rotation : Z) (usable : list RosterEntry) (options : MixedOptions) (current : text) :
    option (ScheduleStep * text) :=
  kind ← kind_at options rotation;
  let at_instant := i64 (rotation * mix_rotation_ns options) in
  if moves_at options rotation then
    sets ← mapM (moved options rotation) (slots_of options);
    Some ({| at_ns := at_instant; step_phase := phase_of rotation kind; step_workload := current;
             step_workers := zip_with told (slots_of options) (Rebind <$> sets) |}, current)
  else
    changes ← mapM (changed kind usable options rotation) (slots_of options);
    let current := label_of changes in
    Some ({| at_ns := at_instant; step_phase := phase_of rotation kind; step_workload := current;
             step_workers := zip_with told (slots_of options) (SwitchTo <$> changes) |}, current).

(** The loop over the rotations: [remaining] more, from [rotation] on. *)
Fixpoint steps_from (remaining : nat) (rotation : Z) (usable : list RosterEntry) (options : MixedOptions)
    (current : text) : option (list ScheduleStep) :=
  match remaining with
  | O => Some []
  | S remaining =>
      '(step, current) ← step_of rotation usable options current;
      steps ← steps_from remaining (rotation + 1) usable options current;
      Some (step :: steps)
  end.

Definition usable_of (roster : list RosterEntry) (options : MixedOptions) : list RosterEntry :=
  filter (λ entry, min_footprint_bytes entry ≤ mix_footprint_bytes options) roster.

Definition starts_of (first : list Switch) : list Start :=
  (λ change, {| start_workload := switch_workload change; start_footprint_bytes := switch_footprint_bytes change |})
    <$> first.

Definition make_mixed (roster : list RosterEntry) (options : MixedOptions) : option (Result Schedule text) :=
  match refusal_of options with
  | Some refused => Some (Error refused)
  | None =>
      let usable := usable_of roster options in
      if bool_decide (usable = [])
      then Some (Error (lit "no workload of the roster accepts a footprint of "
                        ++ to_dec (mix_footprint_bytes options) ++ lit " bytes"))
      else
        front ← head kPlan;
        first ← mapM (changed front usable options 0) (slots_of options);
        steps ← steps_from (Z.to_nat (rotations_of options)) 1 usable options (label_of first);
        Some (Value {| sched_workers := mix_workers options; sched_start := starts_of first;
                       sched_phase := phase_of 0 front; sched_workload := label_of first;
                       sched_steps := steps |})
  end.

(** *** The listings of the repository (tests/fixtures/workloads/mixed): their digests are
    those that the second implementation there wrote down. *)

Definition sample_roster : list RosterEntry :=
  (λ name, {| roster_name := name; min_footprint_bytes := 1048576 |}) <$> kEntryNames.

Definition sample_mixed (workers seed seconds rotation footprint : Z) (sets : list (list Z)) : MixedOptions :=
  {| mix_workers := workers; mix_seed := seed; mix_duration_ns := seconds * 1000000000;
     mix_rotation_ns := rotation * 1000000000; mix_footprint_bytes := footprint; placements := sets;
     mix_duty := {| oracle_period := 1; integrity_period := 1 |} |}.

Definition mixed_digest (options : MixedOptions) : option Z :=
  match make_mixed sample_roster options with Some (Value schedule) => Some (digest schedule) | _ => None end.

Definition sample_moving : MixedOptions := sample_mixed 4 7 70 10 8388608 [[0]; [1]; [2]; [3]].

Example moving_fixture : mixed_digest sample_moving = Some 0x530e584a.
Proof. vm_compute. reflexivity. Qed.
Example fixed_fixture : mixed_digest (sample_mixed 3 1 300 10 8388608 []) = Some 0xc47ab111.
Proof. vm_compute. reflexivity. Qed.
Example large_fixture :
  mixed_digest (sample_mixed 8 42 1800 30 16777216 [[0; 1]; [2; 3]; [4; 5]; [6; 7]]) = Some 0x03eb5f7f.
Proof. vm_compute. reflexivity. Qed.

(** ** Lists made by a partial function *)

Lemma mapM_total {A B} (f : A → option B) (P : A → B → Prop) l :
  (∀ x, x ∈ l → ∃ y, f x = Some y ∧ P x y) → ∃ k, mapM f l = Some k ∧ Forall2 P l k.
Proof.
  induction l as [|x l IH]; intros H; [by exists []|].
  destruct (H x) as (y & Hy & HP); [set_solver|].
  destruct IH as (k & Hk & HPk); [set_solver|].
  exists (y :: k). split; [|by constructor]. simpl. by rewrite Hy, Hk.
Qed.

Lemma zip_told_slots slots commands :
  length slots = length commands → wc_slot <$> zip_with told slots commands = slots.
Proof.
  revert commands. induction slots as [|slot slots IH]; intros [|c commands] H; simplify_eq/=; [done|].
  f_equal. by apply IH.
Qed.

Lemma zip_told_commands slots commands :
  length slots = length commands → wc_commands <$> zip_with told slots commands = (λ c, [c]) <$> commands.
Proof.
  revert commands. induction slots as [|slot slots IH]; intros [|c commands] H; simplify_eq/=; [done|].
  f_equal. by apply IH.
Qed.

Lemma zip_told_ok workers slots commands :
  length slots = length commands → Forall (λ slot, slot < workers) slots → Forall command_ok commands →
  Forall (orders_ok workers) (zip_with told slots commands).
Proof.
  intros Hlen Hs. revert commands Hlen. induction Hs as [|slot slots Hs _ IH]; intros [|c commands] Hlen Hc; simplify_eq/=; [done|].
  apply Forall_cons in Hc as [Hc Hcs]. constructor; [|by apply IH].
  split; simpl; [done|by repeat constructor].
Qed.

(** ** What a rotation asks *)

(** The class of workloads that a phase of [kind] wants of the worker at [slot]. *)
Definition wanted_class (kind : Kind) (slot : Z) : option Intensity :=
  match kind with
  | kCompute => Some kComputeBound
  | kMemory => Some kMemoryBound
  | kBalanced => Some (if slot mod 2 =? 0 then kComputeBound else kMemoryBound)
  | _ => None
  end.

(** Of the wanted class, where there is any. *)
Definition suits (kind : Kind) (usable : list RosterEntry) (slot : Z) (workload : text) : Prop :=
  match wanted_class kind slot with
  | None => True
  | Some wanted =>
      classify_workload workload = wanted ∨ ∀ entry, entry ∈ usable → classify_workload (roster_name entry) ≠ wanted
  end.

(** A workload of the roster, in the whole footprint or half of it, which it accepts. *)
Record assigned (roster : list RosterEntry) (options : MixedOptions) (kind : Kind) (slot : Z)
    (workload : text) (footprint : Z) : Prop := {
  assigned_entry : ∃ entry, entry ∈ roster ∧ workload = roster_name entry ∧ min_footprint_bytes entry ≤ footprint;
  assigned_size : footprint = mix_footprint_bytes options ∨ footprint = mix_footprint_bytes options / 2;
  assigned_suits : suits kind (usable_of roster options) slot workload;
}.

Definition ordered (roster : list RosterEntry) (options : MixedOptions) (kind : Kind) (slot : Z) (command : Command) : Prop :=
  match kind with
  | kMove => ∃ cpus, cpus ∈ placements options ∧ command = Rebind cpus
  | _ => ∃ change, command = SwitchTo change ∧
           assigned roster options kind slot (switch_workload change) (switch_footprint_bytes change)
  end.

Lemma u64_mod_lt x n : 0 < n → (Z.to_nat (u64 x mod n) < Z.to_nat n)%nat.
Proof. intros Hn. pose proof (Z.mod_pos_bound (u64 x) n Hn). lia. Qed.

Lemma pool_for_ne kind usable slot : usable ≠ [] → pool_for kind usable slot ≠ [].
Proof. intros Hu. unfold pool_for. by case_bool_decide. Qed.

Lemma lookup_turn {A} (l : list A) x : l ≠ [] → ∃ y, l !! Z.to_nat (u64 x mod size_of l) = Some y ∧ y ∈ l.
Proof.
  intros Hl. destruct (lookup_lt_is_Some_2 l (Z.to_nat (u64 x mod size_of l))) as [y Hy].
  - destruct l; [done|]. pose proof (u64_mod_lt x (size_of (a :: l)) ltac:(unfold size_of; simpl; lia)) as H.
    unfold size_of in *. simpl in *. lia.
  - exists y. split; [done|]. by eapply list_elem_of_lookup_2.
Qed.

Lemma pool_for_suits kind usable slot entry :
  entry ∈ pool_for kind usable slot → entry ∈ usable ∧ suits kind usable slot (roster_name entry).
Proof.
  unfold pool_for, suits. case_bool_decide as Hn.
  - intros Hin. split; [done|]. destruct kind; simpl in *; try done; right; intros e He Hc.
    all: apply (proj1 (elem_of_nil e)); rewrite <-Hn; by apply list_elem_of_filter.
  - intros Hin. destruct kind; simpl in Hin; try by apply elem_of_nil in Hin.
    all: apply list_elem_of_filter in Hin as [Hc Hin]; split; [done|]; by left.
Qed.

Section Rotation.
Context (roster : list RosterEntry) (options : MixedOptions).
#[local] Notation usable := (usable_of roster options).
Hypothesis Husable : usable ≠ [].

Lemma changed_total kind rotation slot :
  ∃ change, changed kind usable options rotation slot = Some change ∧
    assigned roster options kind slot (switch_workload change) (switch_footprint_bytes change).
Proof.
  unfold changed, pick.
  destruct (lookup_turn (pool_for kind usable slot)
    (draw (mix_seed options) rotation 0 kPick + (if bool_decide (kind = kJoin) then 0 else slot))
    (pool_for_ne kind usable slot Husable)) as (entry & -> & Hin).
  simpl. eexists. split; [done|]. destruct (pool_for_suits _ _ _ _ Hin) as [Hu Hsuits].
  apply list_elem_of_filter in Hu as [Hmin Hu].
  constructor; cbn [switch_workload switch_footprint_bytes assignment].
  - exists entry. split_and!; [done|done|]. case_match; case_match; lia.
  - destruct (negb _); case_match; auto.
  - done.
Qed.

(** All who join take the same workload. *)
Lemma changed_join rotation slot slot' change change' :
  changed kJoin usable options rotation slot = Some change →
  changed kJoin usable options rotation slot' = Some change' →
  switch_workload change = switch_workload change'.
Proof.
  unfold changed, pick. change (pool_for kJoin usable slot) with (pool_for kJoin usable slot').
  rewrite bool_decide_true by done. destruct (_ !! _); simpl; [|done]. by intros [= <-] [= <-].
Qed.

Lemma assigned_command_ok kind slot change :
  Forall (λ entry, is_valid_name (roster_name entry) = true) roster → Forall (λ entry, 0 < min_footprint_bytes entry) roster →
  assigned roster options kind slot (switch_workload change) (switch_footprint_bytes change) →
  command_ok (SwitchTo change).
Proof.
  intros Hn Hm [(entry & Hin & Hw & Hmin) _ _]. unfold command_ok, is_valid_message. simpl.
  rewrite Forall_forall in Hn, Hm. specialize (Hn _ Hin). specialize (Hm _ Hin). simpl in *.
  rewrite Hw, Hn. apply Z.ltb_lt. lia.
Qed.

Lemma placements_valid_ok cpus : placements_valid (placements options) = true → cpus ∈ placements options → command_ok (Rebind cpus).
Proof. intros Hv Hin. unfold placements_valid in Hv. rewrite forallb_forall in Hv. by apply Hv, list_elem_of_In. Qed.
End Rotation.

(** ** A rotation, in full *)

Lemma size_slots options : 0 ≤ mix_workers options → size_of (slots_of options) = mix_workers options.
Proof. intros H. unfold size_of, slots_of. rewrite length_seqZ. lia. Qed.

Lemma slots_below options : Forall (λ slot, slot < mix_workers options) (slots_of options).
Proof. apply Forall_forall. intros slot Hin. apply elem_of_seqZ in Hin. lia. Qed.

(** A step of a rotation: the orders of each worker in turn. *)
Record rotation_step (roster : list RosterEntry) (options : MixedOptions) (rotation : Z) (kind : Kind)
    (step : ScheduleStep) : Prop := {
  rotation_instant : at_ns step = i64 (rotation * mix_rotation_ns options);
  rotation_phase : step_phase step = phase_of rotation kind;
  rotation_slots : wc_slot <$> step_workers step = slots_of options;
  rotation_orders : ∃ commands, wc_commands <$> step_workers step = (λ c, [c]) <$> commands
                      ∧ Forall2 (ordered roster options kind) (slots_of options) commands
                      ∧ (kind = kMove → ∃ sets, commands = Rebind <$> sets
                                         ∧ mapM (moved options rotation) (slots_of options) = Some sets)
                      ∧ (kind = kJoin → ∃ workload, ∀ command, command ∈ commands →
                           ∃ change, command = SwitchTo change ∧ switch_workload change = workload);
}.

Lemma kind_at_total options rotation :
  ∃ kind, kind_at options rotation = Some kind ∧ (kind = kMove ↔ moves_at options rotation = true).
Proof.
  unfold kind_at. destruct (moves_at options rotation); [by exists kMove|].
  change (size_of kPlan) with 5. pose proof (Z.mod_pos_bound rotation 5 ltac:(lia)).
  destruct (Z.to_nat (rotation mod 5)) as [|[|[|[|[|n]]]]] eqn:E; [..|lia]; (eexists; split; [reflexivity|]; split; done).
Qed.

Lemma moved_total options rotation slot :
  placements options ≠ [] → ∃ cpus, moved options rotation slot = Some cpus ∧ cpus ∈ placements options.
Proof. intros Hp. by apply lookup_turn. Qed.

Section Steps.
Context (roster : list RosterEntry) (options : MixedOptions).
#[local] Notation usable := (usable_of roster options).
Hypothesis Husable : usable ≠ [].

Lemma changes_total kind rotation :
  ∃ changes, mapM (changed kind usable options rotation) (slots_of options) = Some changes ∧
    Forall2 (λ slot change, assigned roster options kind slot (switch_workload change) (switch_footprint_bytes change))
      (slots_of options) changes.
Proof. apply mapM_total. intros slot _. by apply changed_total. Qed.

Lemma changes_join rotation changes :
  mapM (changed kJoin usable options rotation) (slots_of options) = Some changes →
  ∃ workload, ∀ change, change ∈ changes → switch_workload change = workload.
Proof.
  intros Hm. apply mapM_Some in Hm. destruct changes as [|first changes]; [exists []; set_solver|].
  exists (switch_workload first). intros change Hin. apply list_elem_of_lookup in Hin as [i Hi].
  destruct (Forall2_lookup_r _ _ _ 0%nat first Hm) as (s0 & _ & H0); [done|].
  destruct (Forall2_lookup_r _ _ _ i change Hm) as (s & _ & H); [done|].
  eapply changed_join; eassumption.
Qed.

Lemma step_of_total rotation current :
  ∃ kind step current', kind_at options rotation = Some kind ∧
    step_of rotation usable options current = Some (step, current') ∧
    rotation_step roster options rotation kind step ∧
    (label_ok current → label_ok (step_workload step) ∧ label_ok current').
Proof.
  destruct (kind_at_total options rotation) as (kind & Hk & Hmove). exists kind. unfold step_of. rewrite Hk. simpl.
  destruct (moves_at options rotation) eqn:Hm.
  - assert (kind = kMove) as -> by by apply Hmove.
    unfold moves_at in Hm. apply andb_true_iff in Hm as [Hm _]. rewrite negb_true_iff, bool_decide_eq_false in Hm.
    destruct (mapM_total (moved options rotation) (λ _ cpus, cpus ∈ placements options) (slots_of options))
      as (sets & Hsets & Hin); [intros slot _; by apply moved_total|].
    rewrite Hsets. simpl. eexists _, _. split; [done|]. split; [done|]. split; [|done].
    assert (length (slots_of options) = length (Rebind <$> sets)) as Hlen.
    { rewrite length_fmap. by eapply Forall2_length. }
    constructor; simpl; [done|done|by apply zip_told_slots|].
    exists (Rebind <$> sets). split_and!; [by apply zip_told_commands| |intros _; by exists sets|done].
    apply Forall2_fmap_r. eapply Forall2_impl; [exact Hin|]. simpl. eauto.
  - assert (kind ≠ kMove) as Hne by (intros ->; destruct Hmove as [H _]; specialize (H eq_refl); congruence).
    destruct (changes_total kind rotation) as (changes & Hc & Ha). rewrite Hc. simpl.
    eexists _, _. split; [done|]. split; [done|]. split; [|intros _; split; apply bounded_label_ok].
    assert (length (slots_of options) = length (SwitchTo <$> changes)) as Hlen.
    { rewrite length_fmap. by eapply Forall2_length. }
    constructor; simpl; [done|done|by apply zip_told_slots|].
    exists (SwitchTo <$> changes). split_and!; [by apply zip_told_commands| |done|].
    + apply Forall2_fmap_r. eapply Forall2_impl; [exact Ha|]. simpl. intros slot change H.
      destruct kind; [..|done]; by exists change.
    + intros ->. destruct (changes_join _ _ Hc) as [w Hw]. exists w. intros c Hin.
      apply list_elem_of_fmap in Hin as (change & -> & Hin). eauto.
Qed.

Lemma steps_from_total remaining rotation current :
  label_ok current →
  ∃ steps, steps_from remaining rotation usable options current = Some steps ∧
    Forall2 (λ rotation step, label_ok (step_workload step) ∧
               ∃ kind, kind_at options rotation = Some kind ∧ rotation_step roster options rotation kind step)
      (seqZ rotation (Z.of_nat remaining)) steps.
Proof.
  revert rotation current. induction remaining as [|remaining IH]; intros rotation current Hc; simpl; [by exists []|].
  destruct (step_of_total rotation current) as (kind & step & current' & Hk & -> & Hstep & Hl). simpl.
  destruct (Hl Hc) as [Hw Hc']. destruct (IH (rotation + 1) current' Hc') as (steps & -> & Hall). simpl.
  eexists. split; [done|]. change (Z.pos (Pos.of_succ_nat remaining)) with (Z.of_nat (S remaining)).
  rewrite seqZ_head. constructor; eauto.
Qed.
End Steps.

(** ** The options accepted *)

Record mixed_ok (options : MixedOptions) : Prop := {
  ok_workers : 0 < mix_workers options;
  ok_duration : 0 < mix_duration_ns options < 2 ^ 63;
  ok_rotation : 0 < mix_rotation_ns options;
  ok_footprint : 0 < mix_footprint_bytes options;
  ok_steps : rotations_of options = (mix_duration_ns options - 1) / mix_rotation_ns options
             ∧ 0 ≤ rotations_of options ≤ kMaxSteps;
  ok_commands : mix_workers options * (rotations_of options + 1) ≤ kMaxCommands;
  ok_sets : size_of (placements options) ≠ 1;
  ok_placements : placements_valid (placements options) = true;
}.

Definition mixed_in_range (options : MixedOptions) : Prop :=
  in_u64 (mix_workers options) ∧ in_i64 (mix_duration_ns options) ∧ in_i64 (mix_rotation_ns options)
  ∧ in_u64 (mix_footprint_bytes options).

Lemma refusal_of_None options : mixed_in_range options → refusal_of options = None → mixed_ok options.
Proof.
  intros (Hw & Hd & Hr & Hf). unfold refusal_of.
  destruct (Z.eqb_spec (mix_workers options) 0); [done|].
  destruct (Z.leb_spec (mix_duration_ns options) 0); [done|].
  destruct (Z.leb_spec (mix_rotation_ns options) 0); [done|]. cbn [orb].
  destruct (Z.eqb_spec (mix_footprint_bytes options) 0); [done|].
  pose proof (Z.div_pos (mix_duration_ns options - 1) (mix_rotation_ns options) ltac:(lia) ltac:(lia)).
  pose proof (Z.div_le_upper_bound (mix_duration_ns options - 1) (mix_rotation_ns options)
    (mix_duration_ns options - 1) ltac:(lia) ltac:(nia)).
  destruct Hw, Hd, Hr, Hf.
  assert (Hrot : rotations_of options = (mix_duration_ns options - 1) / mix_rotation_ns options).
  { unfold rotations_of. rewrite Z.quot_div_nonneg by lia. apply u64_small. split; lia. }
  destruct (Z.ltb_spec kMaxSteps (rotations_of options)); [done|].
  destruct (Z.ltb_spec (kMaxCommands / (rotations_of options + 1)) (mix_workers options)); [done|].
  destruct (Z.eqb_spec (size_of (placements options)) 1); [done|].
  destruct (placements_valid _) eqn:Hp; [|done]. intros _.
  constructor; try done; try lia.
  pose proof (Z.mul_div_le kMaxCommands (rotations_of options + 1) ltac:(lia)). nia.
Qed.

(** ** The schedule made *)

Definition roster_ok (roster : list RosterEntry) : Prop :=
  Forall (λ entry, is_valid_name (roster_name entry) = true ∧ 0 < min_footprint_bytes entry) roster.

Lemma make_mixed_value roster options schedule :
  mixed_in_range options → make_mixed roster options = Some (Value schedule) →
  mixed_ok options ∧ usable_of roster options ≠ [] ∧
  sched_workers schedule = mix_workers options ∧ sched_phase schedule = phase_of 0 kMixed ∧
  label_ok (sched_workload schedule) ∧
  Forall2 (λ slot start, assigned roster options kMixed slot (start_workload start) (start_footprint_bytes start))
    (slots_of options) (sched_start schedule) ∧
  Forall2 (λ rotation step, label_ok (step_workload step) ∧
             ∃ kind, kind_at options rotation = Some kind ∧ rotation_step roster options rotation kind step)
    (seqZ 1 (rotations_of options)) (sched_steps schedule).
Proof.
  intros Hr. unfold make_mixed. destruct (refusal_of options) eqn:Href; [done|].
  pose proof (refusal_of_None _ Hr Href) as Hok. case_bool_decide as Hu; [done|]. cbn [head kPlan mbind option_bind].
  destruct (changes_total roster options Hu kMixed 0) as (first & -> & Hfirst). cbn [mbind option_bind].
  destruct (steps_from_total roster options Hu (Z.to_nat (rotations_of options)) 1 (label_of first)
    (bounded_label_ok _)) as (steps & -> & Hsteps).
  intros [= <-]. rewrite Z2Nat.id in Hsteps by apply Hok. simpl.
  split_and!; try done; [apply bounded_label_ok|]. unfold starts_of. by apply Forall2_fmap_r.
Qed.

(** Whatever the options and the roster, making a mixed schedule is answered with a
    schedule or a refusal: no element is asked of a list that does not have it. *)
Lemma mixed_made roster options :
  mixed_in_range options →
  ∃ made, make_mixed roster options = Some made ∧
    (has_value made = true ↔ refusal_of options = None ∧ usable_of roster options ≠ []).
Proof.
  intros Hr. unfold make_mixed. destruct (refusal_of options) eqn:Href; [eexists; naive_solver|].
  case_bool_decide as Hu; [eexists; naive_solver|]. cbn [head kPlan mbind option_bind].
  destruct (changes_total roster options Hu kMixed 0) as (first & -> & _). cbn [mbind option_bind].
  destruct (steps_from_total roster options Hu (Z.to_nat (rotations_of options)) 1 (label_of first)
    (bounded_label_ok _)) as (steps & -> & _).
  eexists. split; [done|]. naive_solver.
Qed.

Lemma rotation_in_time options rotation :
  mixed_ok options → 0 ≤ rotation ≤ rotations_of options →
  0 ≤ rotation * mix_rotation_ns options < mix_duration_ns options
  ∧ i64 (rotation * mix_rotation_ns options) = rotation * mix_rotation_ns options.
Proof.
  intros [? Hd ? ? [He ?] ? ? ?] Hrot. rewrite He in Hrot.
  pose proof (Z.mul_div_le (mix_duration_ns options - 1) (mix_rotation_ns options) ltac:(lia)).
  assert (0 ≤ rotation * mix_rotation_ns options < mix_duration_ns options) by nia.
  split; [done|]. apply i64_small. split; lia.
Qed.

Lemma Forall2_fmap_eq {A B C} (P : A → B → Prop) (f : A → C) (g : B → C) l k :
  Forall2 P l k → (∀ a b, a ∈ l → P a b → g b = f a) → g <$> k = f <$> l.
Proof.
  induction 1 as [|a b l k Hab Hall IH]; intros H; [done|]. rewrite !fmap_cons. f_equal; [apply H; [set_solver|done]|].
  apply IH. intros ? ? Hin. apply H. set_solver.
Qed.

Lemma mixed_instants roster options schedule :
  mixed_in_range options → make_mixed roster options = Some (Value schedule) →
  at_ns <$> sched_steps schedule = (λ rotation, rotation * mix_rotation_ns options) <$> seqZ 1 (rotations_of options).
Proof.
  intros Hr Hm. destruct (make_mixed_value _ _ _ Hr Hm) as (Hok & _ & _ & _ & _ & _ & Hsteps).
  eapply Forall2_fmap_eq; [exact Hsteps|]. intros rotation step Hin (_ & kind & _ & Hstep).
  rewrite (rotation_instant _ _ _ _ _ Hstep). apply elem_of_seqZ in Hin. apply rotation_in_time; [done|lia].
Qed.

Lemma rotation_step_ok roster options rotation kind step :
  roster_ok roster → mixed_ok options → label_ok (step_workload step) →
  rotation_step roster options rotation kind step → step_ok (mix_workers options) step.
Proof.
  intros Hroster Hok Hl [_ Hp Hslots (commands & Hc & Hord & _)].
  constructor; [rewrite Hp; split; [apply bounded_label_ok|done]|].
  apply Forall_forall. intros each Hin. apply list_elem_of_lookup in Hin as [i Hi].
  assert (slots_of options !! i = Some (wc_slot each)) as Hs by (by rewrite <-Hslots, list_lookup_fmap, Hi).
  destruct (Forall2_lookup_l _ _ _ _ _ Hord Hs) as (c & Hci & Ho).
  assert (wc_commands each = [c]) as Hone.
  { assert (H : (wc_commands <$> step_workers step) !! i = Some (wc_commands each)) by (by rewrite list_lookup_fmap, Hi).
    rewrite Hc, list_lookup_fmap, Hci in H. by injection H. }
  split.
  - eapply (proj1 (Forall_forall _ _) (slots_below options)), list_elem_of_lookup_2, Hs.
  - rewrite Hone. apply Forall_singleton. unfold roster_ok in Hroster. apply Forall_and in Hroster as [Hn Hmin].
    destruct kind; simpl in Ho; destruct Ho as (x & Hx & H).
    6: rewrite H; apply (placements_valid_ok options); [apply Hok|done].
    all: rewrite Hx; eapply assigned_command_ok; [exact Hn|exact Hmin|exact H].
Qed.

(** A mixed schedule of a roster with valid names can be run by its workers, starts
    each of them, and rotates at every multiple of the interval inside the run. *)
Lemma mixed_runs roster options schedule :
  mixed_in_range options → roster_ok roster → make_mixed roster options = Some (Value schedule) →
  problem schedule (mix_workers options) = None
  ∧ size_of (sched_start schedule) = mix_workers options
  ∧ at_ns <$> sched_steps schedule = (λ rotation, rotation * mix_rotation_ns options) <$> seqZ 1 (rotations_of options)
  ∧ rotations_of options * mix_rotation_ns options < mix_duration_ns options
      ≤ (rotations_of options + 1) * mix_rotation_ns options
  ∧ rotations_of options ≤ kMaxSteps ∧ mix_workers options * (rotations_of options + 1) ≤ kMaxCommands.
Proof.
  intros Hr Hroster Hm. pose proof (mixed_instants _ _ _ Hr Hm) as Hat.
  destruct (make_mixed_value _ _ _ Hr Hm) as (Hok & Hu & Hw & Hp & Hl & Hstart & Hsteps).
  assert (Hsize : size_of (sched_start schedule) = mix_workers options).
  { rewrite <-size_slots by (destruct Hok; lia). unfold size_of. by rewrite (Forall2_length _ _ _ Hstart). }
  split_and!; try done; [| |destruct Hok as [? ? ? ? [He ?] ? ? ?]| |apply Hok].
  - apply problem_exactly. constructor; try done.
    + by right.
    + apply Forall_forall. intros start Hin. apply list_elem_of_lookup in Hin as [i Hi].
      destruct (Forall2_lookup_r _ _ _ _ _ Hstart Hi) as (slot & _ & [(e & He & Hwl & Hmin) _ _]).
      unfold roster_ok in Hroster. rewrite Forall_forall in Hroster. destruct (Hroster e He).
      split; [by rewrite Hwl|lia].
    + rewrite Hp. split; [apply bounded_label_ok|done].
    + apply Forall_forall. intros step Hin. apply list_elem_of_lookup in Hin as [i Hi].
      destruct (Forall2_lookup_r _ _ _ _ _ Hsteps Hi) as (rotation & _ & Hws & kind & _ & Hstep).
      by eapply rotation_step_ok.
    + apply NoDup_alt. intros i j phase Hi Hj.
      rewrite list_lookup_fmap in Hi, Hj.
      apply fmap_Some in Hi as (si & Hi & ->). apply fmap_Some in Hj as (sj & Hj & E).
      destruct (Forall2_lookup_r _ _ _ _ _ Hsteps Hi) as (ri & Hri & _ & ki & _ & Hsi).
      destruct (Forall2_lookup_r _ _ _ _ _ Hsteps Hj) as (rj & Hrj & _ & kj & _ & Hsj).
      rewrite (rotation_phase _ _ _ _ _ Hsi), (rotation_phase _ _ _ _ _ Hsj) in E.
      apply lookup_seqZ in Hri as [-> ?], Hrj as [-> ?].
      pose proof (ok_steps _ Hok) as [_ [_ Hn]]. unfold kMaxSteps in Hn.
      apply (numbered_label_inj "r"%byte) in E; [lia|split; lia..].
    + rewrite Hat. pose proof (ok_rotation _ Hok). constructor.
      * eapply StronglySorted_fmap_rel, sorted_seqZ. simpl. intros. nia.
      * apply Forall_fmap, Forall_forall. intros rotation Hin. apply elem_of_seqZ in Hin. simpl. nia.
  - pose proof (rotation_in_time options (rotations_of options) Hok ltac:(destruct Hok as [? ? ? ? [] ? ? ?]; lia)). lia.
  - rewrite He. pose proof (Z.mul_succ_div_gt (mix_duration_ns options - 1) (mix_rotation_ns options) ltac:(lia)). nia.
  - apply Hok.
Qed.

(** ** What the workers are told *)

Lemma rotate_permutation {A} n (l : list A) : rotate n l ≡ₚ l.
Proof. unfold rotate. rewrite Permutation_app_comm. by rewrite take_drop. Qed.

(** With as many sets as workers, each set is taken by one of them. *)
Lemma moved_rotates options rotation sets :
  mixed_ok options → 0 ≤ rotation ≤ kMaxSteps → size_of (placements options) = mix_workers options →
  mapM (moved options rotation) (slots_of options) = Some sets →
  sets = rotate (Z.to_nat (rotation / kMoveEvery)) (placements options).
Proof.
  intros Hok Hrot Hn Hm. apply mapM_Some in Hm. pose proof (Forall2_length _ _ _ Hm) as Hlen.
  unfold slots_of in Hlen. rewrite length_seqZ in Hlen.
  pose proof (ok_workers _ Hok). pose proof (ok_commands _ Hok). pose proof (ok_steps _ Hok) as [_ Hs].
  unfold kMaxSteps, kMaxCommands, size_of in *. unfold kMoveEvery in *.
  pose proof (Z.div_pos rotation 3 ltac:(lia) ltac:(lia)).
  pose proof (Z.div_le_upper_bound rotation 3 100000 ltac:(lia) ltac:(lia)).
  assert (length sets = length (placements options)) as Hsets by lia.
  assert (mix_workers options ≤ 4000000) as Hfew by nia.
  apply list_eq. intros i. destruct (decide (i < length sets)%nat) as [Hi|Hi].
  2: { rewrite !lookup_ge_None_2; [done|rewrite ?length_rotate; lia..]. }
  destruct (lookup_lt_is_Some_2 sets i Hi) as [cpus Hc]. rewrite Hc.
  destruct (Forall2_lookup_r _ _ _ _ _ Hm Hc) as (slot & Hslot & Hmoved).
  apply lookup_seqZ in Hslot as [-> _]. rewrite lookup_rotate_r by lia. rewrite <-Hmoved. unfold moved, rotate_nat_add, size_of.
  rewrite u64_small by (unfold in_u64, kMoveEvery; lia). rewrite Z2Nat.id by lia. f_equal. f_equal. f_equal. unfold kMoveEvery. lia.
Qed.

(** C13: each worker of a mixed schedule starts as a workload of the roster in a footprint
    that it accepts and that is the options' or half of it; and at each rotation each is
    told one thing: to move to a set of CPUs when that is the rotation's kind (and with as
    many sets as workers no two are told the same set), and else to switch to such a
    workload, of the class that the phase wants where the roster has any, and to the same
    one as all others in a join. *)
Theorem mixed_orders roster options schedule :
  mixed_in_range options → make_mixed roster options = Some (Value schedule) →
  Forall2 (λ slot start, assigned roster options kMixed slot (start_workload start) (start_footprint_bytes start))
    (slots_of options) (sched_start schedule)
  ∧ ∀ i step, sched_steps schedule !! i = Some step → ∃ kind commands,
      kind_at options (Z.of_nat i + 1) = Some kind
      ∧ step_phase step = phase_of (Z.of_nat i + 1) kind
      ∧ wc_slot <$> step_workers step = slots_of options
      ∧ wc_commands <$> step_workers step = (λ c, [c]) <$> commands
      ∧ Forall2 (ordered roster options kind) (slots_of options) commands
      ∧ (kind = kJoin → ∃ workload, ∀ command, command ∈ commands →
           ∃ change, command = SwitchTo change ∧ switch_workload change = workload)
      ∧ (kind = kMove → size_of (placements options) = mix_workers options →
           commands ≡ₚ Rebind <$> placements options).
Proof.
  intros Hr Hm. destruct (make_mixed_value _ _ _ Hr Hm) as (Hok & Hu & _ & _ & _ & Hstart & Hsteps).
  split; [done|]. intros i step Hi.
  destruct (Forall2_lookup_r _ _ _ _ _ Hsteps Hi) as (rotation & Hrot & _ & kind & Hk & Hstep).
  apply lookup_seqZ in Hrot as [-> Hlt]. rewrite Z.add_comm in Hk, Hstep.
  destruct Hstep as [_ Hp Hslots (commands & Hc & Hord & Hmove & Hjoin)].
  exists kind, commands. split_and!; try done.
  intros -> Hn. destruct (Hmove eq_refl) as (sets & -> & Hsets).
  pose proof (ok_steps _ Hok) as [_ Hs].
  rewrite (moved_rotates options (Z.of_nat i + 1) sets Hok ltac:(lia) Hn Hsets). apply fmap_Permutation, rotate_permutation.
Qed.

Lemma sample_moving_in_range : mixed_in_range sample_moving.
Proof. unfold mixed_in_range, in_u64, in_i64. simpl. lia. Qed.

Lemma sample_roster_ok : roster_ok sample_roster.
Proof. unfold roster_ok. repeat constructor. Qed.

(** The third rotation of the sample moves its four workers across four sets. *)
Lemma mixed_orders_witness :
  ∃ schedule step, make_mixed sample_roster sample_moving = Some (Value schedule) ∧ sched_steps schedule !! 2%nat = Some step
    ∧ wc_slot <$> step_workers step = [0; 1; 2; 3] ∧ step_phase step = lit "r3 move".
Proof.
  destruct (make_mixed sample_roster sample_moving) as [[schedule|]|] eqn:E; [|by vm_compute in E..].
  destruct (sched_steps schedule !! 2%nat) as [step|] eqn:Hi; [|vm_compute in E; injection E as <-; discriminate Hi].
  destruct (proj2 (mixed_orders _ _ _ sample_moving_in_range E) 2%nat step Hi) as (kind & commands & Hk & Hp & Hs & _).
  exists schedule, step. split_and!; [done|done|exact Hs|]. vm_compute in Hk. injection Hk as <-. exact Hp.
Defined.

(** ** roster.cpp *)

Definition creatable {W} (registry : Registry W) (name : text) (footprint : Z) : bool :=
  has_value (registry_create registry name
    {| config_seed := 1; config_footprint_bytes := footprint; config_decomposition := 0; config_isa := kScalar |}).

Definition kLeastFootprint : Z := Z.shiftl 64 10.

(** The loop over the footprints; the outer [None] is a loop out of fuel. *)
Fixpoint least_from {W} (fuel : nat) (registry : Registry W) (name : text) (footprint ceiling : Z) : option (option Z) :=
  match fuel with
  | O => None
  | S fuel =>
      if ceiling <? footprint then Some None
      else if creatable registry name footprint then Some (Some footprint)
      else if ceiling / 2 <? footprint then Some None
      else least_from fuel registry name (u64 (footprint * 2)) ceiling
  end.

Definition kDoublings : nat := 64.

Fixpoint roster_from {W} (registry : Registry W) (ceiling : Z) (names : list text) : option (list RosterEntry) :=
  match names with
  | [] => Some []
  | name :: names =>
      least ← least_from kDoublings registry name kLeastFootprint ceiling;
      rest ← roster_from registry ceiling names;
      Some (match least with
            | Some footprint => {| roster_name := name; min_footprint_bytes := footprint |} :: rest
            | None => rest
            end)
  end.

Definition roster_of {W} (registry : Registry W) (ceiling : Z) : option (list RosterEntry) :=
  roster_from registry ceiling (registry_names registry).

(** The least doubling of 64 KiB, up to the ceiling, at which the workload is made. *)
Definition least_footprint {W} (registry : Registry W) (name : text) (ceiling footprint : Z) : Prop :=
  ∃ k, footprint = 2 ^ (16 + Z.of_nat k) ∧ footprint ≤ ceiling ∧ creatable registry name footprint = true
       ∧ ∀ j, (j < k)%nat → creatable registry name (2 ^ (16 + Z.of_nat j)) = false.

Section Roster.
Context {W : Type} (registry : Registry W) (ceiling : Z).
Hypothesis Hceiling : in_u64 ceiling.

Lemma least_footprint_unique name f g :
  least_footprint registry name ceiling f → least_footprint registry name ceiling g → f = g.
Proof.
  intros (k & -> & _ & Hk & Hbk) (l & -> & _ & Hl & Hbl).
  destruct (Nat.lt_trichotomy k l) as [Hlt|[->|Hlt]]; [|done|].
  - specialize (Hbl k Hlt). congruence.
  - specialize (Hbk l Hlt). congruence.
Qed.

Lemma least_from_spec fuel k name :
  (k ≤ 47)%nat → (47 - k < fuel)%nat → (∀ j, (j < k)%nat → creatable registry name (2 ^ (16 + Z.of_nat j)) = false) →
  ∃ least, least_from fuel registry name (2 ^ (16 + Z.of_nat k)) ceiling = Some least ∧
    ∀ f, least = Some f ↔ least_footprint registry name ceiling f.
Proof.
  revert k. induction fuel as [|fuel IH]; intros k Hk Hfuel Hbefore; [lia|]. simpl.
  assert (Hmono : ∀ l, (k ≤ l)%nat → 2 ^ (16 + Z.of_nat k) ≤ 2 ^ (16 + Z.of_nat l)).
  { intros l Hl. apply Z.pow_le_mono_r; lia. }
  assert (Hnone : (∀ l, (k ≤ l)%nat → 2 ^ (16 + Z.of_nat l) ≤ ceiling → creatable registry name (2 ^ (16 + Z.of_nat l)) = false) →
    ∀ f, None = Some f ↔ least_footprint registry name ceiling f).
  { intros H f. split; [done|]. intros (l & -> & Hc & Hmade & _).
    destruct (decide (l < k)%nat) as [Hl|Hl]; [rewrite Hbefore in Hmade by lia; done|].
    rewrite H in Hmade by (done || lia). done. }
  destruct (Z.ltb_spec ceiling (2 ^ (16 + Z.of_nat k))) as [Hgt|Hle].
  { eexists. split; [done|]. apply Hnone. intros l Hl Hc. specialize (Hmono l Hl). lia. }
  destruct (creatable registry name (2 ^ (16 + Z.of_nat k))) eqn:Hmade.
  { eexists. split; [done|]. intros f. split.
    - intros [= <-]. by exists k.
    - intros Hf. f_equal. eapply least_footprint_unique; [|exact Hf]. by exists k. }
  assert (Hdouble : 2 ^ (16 + Z.of_nat (S k)) = 2 ^ (16 + Z.of_nat k) * 2).
  { replace (16 + Z.of_nat (S k)) with (Z.succ (16 + Z.of_nat k)) by lia. rewrite Z.pow_succ_r by lia. lia. }
  assert (Hnext : ∀ l, (k ≤ l)%nat → l = k ∨ 2 ^ (16 + Z.of_nat k) * 2 ≤ 2 ^ (16 + Z.of_nat l)).
  { intros l Hl. destruct (decide (l = k)) as [->|]; [by left|right]. rewrite <-Hdouble. apply Z.pow_le_mono_r; lia. }
  destruct (Z.ltb_spec (ceiling / 2) (2 ^ (16 + Z.of_nat k))) as [Hhalf|Hhalf].
  { eexists. split; [done|]. apply Hnone. intros l Hl Hc. destruct (Hnext l Hl) as [->|Hge]; [done|].
    exfalso. dlia. }
  destruct Hceiling as [_ Hmax].
  assert (Hk47 : (k ≤ 46)%nat).
  { destruct (decide (k = 47%nat)) as [->|]; [|lia]. change (2 ^ (16 + Z.of_nat 47)) with (2 ^ 63) in Hhalf. dlia. }
  rewrite u64_small, <-Hdouble by (split; [lia|]; dlia).
  apply IH; [lia|lia|]. intros j Hj. destruct (decide (j = k)) as [->|]; [done|]. apply Hbefore. lia.
Qed.

Lemma roster_from_spec names :
  ∃ roster, roster_from registry ceiling names = Some roster
    ∧ (∀ entry, entry ∈ roster ↔ roster_name entry ∈ names
         ∧ least_footprint registry (roster_name entry) ceiling (min_footprint_bytes entry))
    ∧ (roster_name <$> roster) `sublist_of` names.
Proof.
  induction names as [|name names (roster & E & Hin & Hsub)]; cbn [roster_from].
  { exists []. split_and!; [done| |constructor]. intros entry. rewrite !elem_of_nil. tauto. }
  destruct (least_from_spec kDoublings 0 name ltac:(lia) ltac:(unfold kDoublings; lia) ltac:(lia)) as (least & Hl & Hleast).
  change (2 ^ (16 + Z.of_nat 0)) with kLeastFootprint in Hl. rewrite Hl, E. simpl.
  eexists. split; [done|]. destruct least as [footprint|].
  - split; [|by constructor]. intros [n m]. rewrite elem_of_cons, Hin. simpl. rewrite elem_of_cons. split.
    + intros [[= -> ->]|[? ?]]; [|tauto]. split; [by left|]. by apply Hleast.
    + intros [[->|?] Hm]; [|tauto]. apply Hleast in Hm as [= ->]. by left.
  - split; [|by constructor]. intros [n m]. rewrite Hin. simpl. rewrite elem_of_cons. split; [tauto|].
    intros [[->|?] Hm]; [|tauto]. by apply Hleast in Hm.
Qed.
End Roster.

(** The roster of a registry always ends, in the registry's order, and has a workload
    exactly when some doubling of 64 KiB up to the ceiling makes it, with the least that
    does. *)
Lemma roster_exactly {W} (registry : Registry W) ceiling :
  in_u64 ceiling →
  ∃ roster, roster_of registry ceiling = Some roster
    ∧ (∀ entry, entry ∈ roster ↔ roster_name entry ∈ registry_names registry
         ∧ least_footprint registry (roster_name entry) ceiling (min_footprint_bytes entry))
    ∧ (roster_name <$> roster) `sublist_of` registry_names registry.
Proof. intros Hc. by apply roster_from_spec. Qed.

(** A registry of the build's names whose workloads need a megabyte. *)
Definition sample_registry : Registry unit :=
  BuiltinRegistry (kEntries
    (λ name config, if config_footprint_bytes config <? 1048576
                    then Error {| workload_fault := kFootprintTooSmall; workload_detail := name |} else Value tt)
    (λ name, {| desc_name := name; desc_version := 1; desc_determinism := kBitExact; desc_contract := kExact;
                desc_paths := isa_set [kScalar] |})).

Example sample_registry_roster : roster_of sample_registry 8388608 = Some sample_roster.
Proof. vm_compute. reflexivity. Qed.
