(* ===== verification/Cycling.v ===== *)
(** * workloads/mixed: thermal and power cycling

    The schedule by which the load rises and falls (workloads/mixed/cycling.hpp and
    cycling.cpp), that it can be run, and that workers who heed it do at every level what
    the level says. *)

From S2P Require Export Lists Schedule.

(** ** cycling.hpp *)

Inductive CycleKind := kLoad | kCores.

#[export] Instance CycleKind_eq_dec : EqDecision CycleKind.
Proof. solve_decision. Defined.

Definition describe_cycle (kind : CycleKind) : text :=
  match kind with kLoad => lit "load" | kCores => lit "cores" end.

Record CyclingOptions := {
  cyc_kind : CycleKind;
  cyc_workers : Z;
  cyc_duration_ns : Z;
  cyc_dwell_ns : Z;
  cyc_period_ns : Z;
}.

(** ** cycling.cpp *)

Record LoadLevel := { level_busy_permille : Z; level_name : text }.

Definition kLoadLevels : list LoadLevel :=
  [ {| level_busy_permille := 0; level_name := lit "idle" |};
    {| level_busy_permille := 1000; level_name := lit "heavy" |};
    {| level_busy_permille := 500; level_name := lit "moderate" |};
    {| level_busy_permille := 1000; level_name := lit "heavy" |} ].

Definition kCoreLevels : list Z := [125; 500; 1000; 250; 1000].

(** [State]: what a worker is doing, as the schedule has left it. *)
Record WorkerState := { state_paused : bool; state_busy : Z }.

Definition fresh_state : WorkerState := {| state_paused := false; state_busy := 1000 |}.

Definition towards_load (state : WorkerState) (busy period : Z) : list Command * WorkerState :=
  if busy =? 0
  then (if state_paused state then [] else [Pause], {| state_paused := true; state_busy := state_busy state |})
  else ((if state_paused state then [Resume] else []) ++
        (if negb (state_busy state =? busy) then [SetDutyTo {| busy_permille := busy; period_ns := period |}] else []),
        {| state_paused := false; state_busy := busy |}).

(** What a level is: the load of all, or how many work. *)
Definition load_level (level : Z) : LoadLevel :=
  nth (Z.to_nat (level mod size_of kLoadLevels)) kLoadLevels {| level_busy_permille := 0; level_name := [] |}.

Definition working_at (options : CyclingOptions) (level : Z) : Z :=
  Z.max 1 (u64 (cyc_workers options * nth (Z.to_nat (level mod size_of kCoreLevels)) kCoreLevels 0) / 1000).

Definition level_words (options : CyclingOptions) (level : Z) : text :=
  match cyc_kind options with
  | kLoad => level_name (load_level level)
  | kCores => to_dec (working_at options level) ++ lit " of " ++ to_dec (cyc_workers options)
  end.

(** [wanted]: how busy the worker at [slot] is to be. *)
Definition wanted_at (options : CyclingOptions) (level slot : Z) : Z :=
  match cyc_kind options with
  | kLoad => level_busy_permille (load_level level)
  | kCores => if slot <? working_at options level then 1000 else 0
  end.

(** The loop over the slots, from [slot] on; [states[slot]] is written in place. *)
Fixpoint level_commands (options : CyclingOptions) (level slot : Z) (states : list WorkerState) :
    list WorkerCommands * list WorkerState :=
  match states with
  | [] => ([], [])
  | state :: states =>
      let (commands, state) := towards_load state (wanted_at options level slot) (cyc_period_ns options) in
      let (told, states) := level_commands options level (slot + 1) states in
      (if bool_decide (commands = []) then told else {| wc_slot := slot; wc_commands := commands |} :: told,
       state :: states)
  end.

Definition cycle_label (options : CyclingOptions) : text := lit "cycling " ++ describe_cycle (cyc_kind options).

Definition cycle_step (options : CyclingOptions) (level : Z) (states : list WorkerState) :
    ScheduleStep * list WorkerState :=
  let (told, states) := level_commands options level 0 states in
  ({| at_ns := i64 (level * cyc_dwell_ns options);
      step_phase := bounded_label (lit "c" ++ to_dec level ++ lit " " ++ level_words options level);
      step_workload := cycle_label options;
      step_workers := told |}, states).

(** The loop over the levels: [remaining] more, from [level] on. *)
Fixpoint cycle_steps (options : CyclingOptions) (remaining : nat) (level : Z) (states : list WorkerState) :
    list ScheduleStep :=
  match remaining with
  | O => []
  | S remaining =>
      let (step, states) := cycle_step options level states in
      step :: cycle_steps options remaining (level + 1) states
  end.

Definition levels_of (options : CyclingOptions) : Z :=
  u64 (Z.quot (cyc_duration_ns options - 1) (cyc_dwell_ns options)) + 1.

Definition make_cycling (options : CyclingOptions) : Result Schedule text :=
  if cyc_workers options =? 0 then Error (lit "a cycling schedule needs at least one worker")
  else if (cyc_duration_ns options <=? 0) || (cyc_dwell_ns options <=? 0) || (cyc_period_ns options <=? 0)
  then Error (lit "the duration, the dwell of a level and the period must be positive")
  else
    let levels := levels_of options in
    if kMaxSteps <? levels
    then Error (lit "a level every " ++ to_dec (cyc_dwell_ns options / 1000000) ++ lit " ms for "
                ++ to_dec (cyc_duration_ns options / 1000000) ++ lit " ms is more than " ++ to_dec kMaxSteps
                ++ lit " steps")
    else if kMaxCommands / levels <? cyc_workers options
    then Error (to_dec (cyc_workers options) ++ lit " worker(s) over " ++ to_dec levels ++ lit " levels is more than "
                ++ to_dec kMaxCommands ++ lit " commands")
    else Value {| sched_workers := cyc_workers options; sched_start := []; sched_phase := lit "run";
                  sched_workload := cycle_label options;
                  sched_steps := cycle_steps options (Z.to_nat levels) 0
                                   (replicate (Z.to_nat (cyc_workers options)) fresh_state) |}.

(** A listing of the repository (tests/fixtures/workloads/mixed): its digest is the one
    that the second implementation there wrote down. *)
Definition sample_load : CyclingOptions :=
  {| cyc_kind := kLoad; cyc_workers := 3; cyc_duration_ns := 100000000000; cyc_dwell_ns := 5000000000;
     cyc_period_ns := 1000000000 |}.
Definition sample_cores : CyclingOptions :=
  {| cyc_kind := kCores; cyc_workers := 8; cyc_duration_ns := 60000000000; cyc_dwell_ns := 5000000000;
     cyc_period_ns := 1000000000 |}.

Definition made_digest (made : Result Schedule text) : option Z :=
  match made with Value schedule => Some (digest schedule) | Error _ => None end.

Example load_fixture : made_digest (make_cycling sample_load) = Some 0x1701ceb2.
Proof. vm_compute. reflexivity. Qed.
Example cores_fixture : made_digest (make_cycling sample_cores) = Some 0x1fecdc26.
Proof. vm_compute. reflexivity. Qed.

(** ** A worker who heeds its orders *)

Definition in_range_options (options : CyclingOptions) : Prop :=
  in_u64 (cyc_workers options) ∧ in_i64 (cyc_duration_ns options) ∧ in_i64 (cyc_dwell_ns options)
  ∧ in_i64 (cyc_period_ns options).

(** What Pause, Resume and SetDuty ask of a worker (worker/verified_run). *)
Record WorkerLoad := { load_paused : bool; load_duty : SetDuty }.

Definition heed (load : WorkerLoad) (command : Command) : WorkerLoad :=
  match command with
  | Pause => {| load_paused := true; load_duty := load_duty load |}
  | Resume => {| load_paused := false; load_duty := load_duty load |}
  | SetDutyTo duty => {| load_paused := load_paused load; load_duty := duty |}
  | _ => load
  end.

(** What it starts as. *)
Definition working : WorkerLoad := {| load_paused := false; load_duty := clock_duty continuous |}.

Definition agrees (state : WorkerState) (load : WorkerLoad) : Prop :=
  load_paused load = state_paused state ∧ busy_permille (load_duty load) = state_busy state.

(** As busy as wanted: paused for nothing, and else in that duty. *)
Definition as_wanted (wanted : Z) (load : WorkerLoad) : Prop :=
  load_paused load = (wanted =? 0) ∧ (wanted ≠ 0 → busy_permille (load_duty load) = wanted).

Lemma towards_load_heeded state load wanted period :
  agrees state load →
  let told := towards_load state wanted period in
  agrees told.2 (foldl heed load told.1) ∧ as_wanted wanted (foldl heed load told.1).
Proof.
  destruct state as [p b], load as [q d]. unfold agrees, as_wanted, towards_load. simpl. intros [-> Hb].
  destruct (Z.eqb_spec wanted 0); simpl.
  { destruct p; simpl; naive_solver. }
  destruct p, (Z.eqb_spec b wanted); simpl; naive_solver.
Qed.

Lemma level_commands_slots options level slot states each :
  each ∈ (level_commands options level slot states).1 →
  slot ≤ wc_slot each < slot + size_of states.
Proof.
  revert slot. induction states as [|state states IH]; intros slot; simpl; [set_solver|].
  destruct (towards_load _ _ _) as [commands state'].
  specialize (IH (slot + 1)). destruct (level_commands _ _ _ states) as [told states']. simpl in *.
  unfold size_of in *. simpl. case_bool_decide; simpl.
  - intros Hin. specialize (IH Hin). lia.
  - intros [->|Hin]%elem_of_cons; simpl; [lia|]. specialize (IH Hin). lia.
Qed.

Lemma orders_in_none slot told : (∀ each, each ∈ told → wc_slot each ≠ slot) → orders_in slot told = [].
Proof.
  induction told as [|each told IH]; intros H; [done|]. rewrite orders_in_cons.
  rewrite (proj2 (Z.eqb_neq _ _)) by (apply H; set_solver). apply IH. set_solver.
Qed.

Lemma level_commands_at options level slot states j state :
  states !! j = Some state →
  let told := towards_load state (wanted_at options level (slot + Z.of_nat j)) (cyc_period_ns options) in
  orders_in (slot + Z.of_nat j) (level_commands options level slot states).1 = told.1
  ∧ (level_commands options level slot states).2 !! j = Some told.2.
Proof.
  revert slot j. induction states as [|first states IH]; intros slot j; [done|]. simpl.
  destruct (towards_load first _ _) as [commands first'] eqn:Hf.
  pose proof (level_commands_slots options level (slot + 1) states) as Hslots.
  specialize (IH (slot + 1)).
  destruct (level_commands _ _ (slot + 1) states) as [told states']. simpl in *.
  destruct j as [|j]; simpl.
  - intros [= <-]. rewrite Z.add_0_r, Hf. simpl. split; [|done].
    assert (Hnone : orders_in slot told = []).
    { apply orders_in_none. intros each Hin. apply Hslots in Hin. lia. }
    case_bool_decide as Hc; [by rewrite Hc|]. rewrite orders_in_cons. simpl.
    rewrite Z.eqb_refl, Hnone, app_nil_r. done.
  - intros Hj. destruct (IH j Hj) as [IH1 IH2]. change (Z.pos (Pos.of_succ_nat j)) with (Z.of_nat (S j)).
    replace (slot + Z.of_nat (S j)) with (slot + 1 + Z.of_nat j) by lia. split; [|exact IH2].
    rewrite <-IH1. case_bool_decide; [done|]. rewrite orders_in_cons. simpl.
    rewrite (proj2 (Z.eqb_neq slot _)) by lia. done.
Qed.

Lemma length_level_commands options level slot states :
  length (level_commands options level slot states).2 = length states.
Proof.
  revert slot. induction states as [|state states IH]; intros slot; simpl; [done|].
  destruct (towards_load _ _ _). specialize (IH (slot + 1)).
  destruct (level_commands _ _ _ states). simpl in *. by rewrite IH.
Qed.

Definition level_phase (options : CyclingOptions) (level : Z) : text :=
  bounded_label (lit "c" ++ to_dec level ++ lit " " ++ level_words options level).

(** ** What the steps are *)

Lemma cycle_step_eq options level states :
  cycle_step options level states =
  ({| at_ns := i64 (level * cyc_dwell_ns options); step_phase := level_phase options level;
      step_workload := cycle_label options; step_workers := (level_commands options level 0 states).1 |},
   (level_commands options level 0 states).2).
Proof. unfold cycle_step. by destruct (level_commands _ _ _ _). Qed.

Lemma cycle_steps_S options remaining level states :
  cycle_steps options (S remaining) level states =
  (cycle_step options level states).1 ::
  cycle_steps options remaining (level + 1) (cycle_step options level states).2.
Proof. simpl. by destruct (cycle_step _ _ _). Qed.

Lemma cycle_steps_instants options remaining level states :
  at_ns <$> cycle_steps options remaining level states =
  (λ level, i64 (level * cyc_dwell_ns options)) <$> seqZ level (Z.of_nat remaining).
Proof.
  revert level states. induction remaining as [|remaining IH]; intros level states; [done|].
  rewrite cycle_steps_S, cycle_step_eq, seqZ_head, !fmap_cons, IH. done.
Qed.

Lemma cycle_steps_phases options remaining level states :
  step_phase <$> cycle_steps options remaining level states =
  level_phase options <$> seqZ level (Z.of_nat remaining).
Proof.
  revert level states. induction remaining as [|remaining IH]; intros level states; [done|].
  rewrite cycle_steps_S, cycle_step_eq, seqZ_head, !fmap_cons, IH. done.
Qed.

Lemma length_cycle_steps options remaining level states :
  length (cycle_steps options remaining level states) = remaining.
Proof.
  revert level states. induction remaining as [|remaining IH]; intros level states; [done|].
  rewrite cycle_steps_S. simpl. by rewrite IH.
Qed.

Lemma cycle_steps_heeded options remaining level states j state load k :
  states !! j = Some state → agrees state load → (k < remaining)%nat →
  as_wanted (wanted_at options (level + Z.of_nat k) (Z.of_nat j))
    (foldl heed load (orders_to (Z.of_nat j) (take (S k) (cycle_steps options remaining level states)))).
Proof.
  revert level states state load k.
  induction remaining as [|remaining IH]; intros level states state load k Hj Hload Hk; [lia|].
  rewrite cycle_steps_S, cycle_step_eq. cbn [fst snd]. rewrite firstn_cons. unfold orders_to. rewrite bind_cons.
  cbn [step_workers]. destruct (level_commands_at options level 0 states j state Hj) as [Hsent Hnext].
  rewrite Z.add_0_l in Hsent, Hnext. rewrite Hsent, foldl_app.
  destruct (towards_load_heeded state load (wanted_at options level (Z.of_nat j)) (cyc_period_ns options) Hload)
    as [Hagree Hwanted].
  destruct k as [|k]; [by rewrite Z.add_0_r|].
  replace (level + Z.of_nat (S k)) with (level + 1 + Z.of_nat k) by lia.
  eapply IH; [exact Hnext|exact Hagree|lia].
Qed.

(** ** That they can be run *)

Lemma wanted_range options level slot : 0 ≤ wanted_at options level slot ≤ 1000.
Proof.
  unfold wanted_at. destruct (cyc_kind options); [|case_match; lia].
  unfold load_level. change (size_of kLoadLevels) with 4.
  pose proof (Z.mod_pos_bound level 4 ltac:(lia)) as H.
  destruct (Z.to_nat (level mod 4)) as [|[|[|[|n]]]] eqn:E; simpl; lia.
Qed.

Lemma towards_load_ok state wanted period :
  0 ≤ wanted ≤ 1000 → 0 < period → Forall command_ok (towards_load state wanted period).1.
Proof.
  intros Hw Hp. unfold towards_load. destruct (Z.eqb_spec wanted 0); simpl.
  { destruct (state_paused state); repeat constructor. }
  apply Forall_app. split; [destruct (state_paused state); repeat constructor|].
  destruct (negb _); repeat constructor. unfold command_ok, is_valid_message. simpl.
  rewrite !andb_true_iff, !Z.leb_le, Z.ltb_lt. lia.
Qed.

Lemma level_commands_ok options level slot states :
  0 < cyc_period_ns options →
  Forall (λ each, Forall command_ok (wc_commands each)) (level_commands options level slot states).1.
Proof.
  intros Hp. revert slot. induction states as [|state states IH]; intros slot; simpl; [done|].
  pose proof (towards_load_ok state (wanted_at options level slot) _ (wanted_range _ _ _) Hp) as Hok.
  destruct (towards_load _ _ _). specialize (IH (slot + 1)).
  destruct (level_commands _ _ _ states). simpl in *. case_bool_decide; [done|]. by constructor.
Qed.

Lemma cycle_label_ok options : label_ok (cycle_label options).
Proof. unfold label_ok, cycle_label. destruct (cyc_kind options); done. Qed.

Lemma cycle_steps_ok options remaining level states :
  0 < cyc_period_ns options → Forall (step_ok (size_of states)) (cycle_steps options remaining level states).
Proof.
  intros Hp. revert level states. induction remaining as [|remaining IH]; intros level states; [done|].
  rewrite cycle_steps_S, cycle_step_eq. cbn [fst snd]. constructor.
  - constructor; simpl; [split; [apply bounded_label_ok|apply cycle_label_ok]|].
    apply Forall_forall. intros each Hin. split.
    + apply level_commands_slots in Hin. lia.
    + eapply (proj1 (Forall_forall _ _) (level_commands_ok options level 0 states Hp)), Hin.
  - assert (size_of states = size_of (level_commands options level 0 states).2) as ->.
    { unfold size_of. by rewrite length_level_commands. }
    apply IH.
Qed.

(** ** The schedule made *)

Lemma make_cycling_value options schedule :
  in_range_options options → make_cycling options = Value schedule →
  0 < cyc_workers options ∧ 0 < cyc_duration_ns options ∧ 0 < cyc_dwell_ns options ∧ 0 < cyc_period_ns options
  ∧ levels_of options = (cyc_duration_ns options - 1) / cyc_dwell_ns options + 1
  ∧ 1 ≤ levels_of options ≤ kMaxSteps ∧ cyc_workers options * levels_of options ≤ kMaxCommands
  ∧ schedule = {| sched_workers := cyc_workers options; sched_start := []; sched_phase := lit "run";
                  sched_workload := cycle_label options;
                  sched_steps := cycle_steps options (Z.to_nat (levels_of options)) 0
                                   (replicate (Z.to_nat (cyc_workers options)) fresh_state) |}.
Proof.
  intros (Hw & Hd & Hl & Hp). unfold make_cycling.
  destruct (Z.eqb_spec (cyc_workers options) 0); [done|].
  destruct (Z.leb_spec (cyc_duration_ns options) 0); [done|].
  destruct (Z.leb_spec (cyc_dwell_ns options) 0); [done|].
  destruct (Z.leb_spec (cyc_period_ns options) 0); [done|]. cbn [orb].
  assert (Hlevels : levels_of options = (cyc_duration_ns options - 1) / cyc_dwell_ns options + 1).
  { unfold levels_of. rewrite Z.quot_div_nonneg by lia. rewrite u64_small; [done|].
    pose proof (Z.div_pos (cyc_duration_ns options - 1) (cyc_dwell_ns options) ltac:(lia) ltac:(lia)).
    pose proof (Z.div_le_upper_bound (cyc_duration_ns options - 1) (cyc_dwell_ns options)
      (cyc_duration_ns options - 1) ltac:(lia) ltac:(nia)).
    destruct Hd. split; lia. }
  pose proof (Z.div_pos (cyc_duration_ns options - 1) (cyc_dwell_ns options) ltac:(lia) ltac:(lia)).
  destruct (Z.ltb_spec kMaxSteps (levels_of options)); [done|].
  destruct (Z.ltb_spec (kMaxCommands / levels_of options) (cyc_workers options)) as [|Hc]; [done|].
  intros [= <-]. destruct Hw. split_and!; try done; try lia.
  pose proof (Z.mul_div_le kMaxCommands (levels_of options) ltac:(lia)). nia.
Qed.

Lemma level_in_time options level :
  0 < cyc_duration_ns options → 0 < cyc_dwell_ns options → in_i64 (cyc_duration_ns options) →
  0 ≤ level < (cyc_duration_ns options - 1) / cyc_dwell_ns options + 1 →
  0 ≤ level * cyc_dwell_ns options < cyc_duration_ns options
  ∧ i64 (level * cyc_dwell_ns options) = level * cyc_dwell_ns options.
Proof.
  intros Hd Hl [_ Hmax] Hlevel.
  pose proof (Z.mul_div_le (cyc_duration_ns options - 1) (cyc_dwell_ns options) Hl).
  assert (0 ≤ level * cyc_dwell_ns options < cyc_duration_ns options) by nia.
  split; [done|]. apply i64_small. split; lia.
Qed.

Lemma cycle_instants options schedule :
  in_range_options options → make_cycling options = Value schedule →
  at_ns <$> sched_steps schedule = (λ level, level * cyc_dwell_ns options) <$> seqZ 0 (levels_of options).
Proof.
  intros Hr Hm. destruct (make_cycling_value _ _ Hr Hm) as (_ & Hd & Hl & _ & He & Hn & _ & ->).
  cbn [sched_steps]. rewrite cycle_steps_instants, Z2Nat.id by lia.
  apply list_fmap_ext. intros i level Hi. apply lookup_seqZ in Hi as [-> Hi].
  apply level_in_time; [done..|apply Hr|lia].
Qed.

(** A cycling schedule can be run by its workers, holds no more steps and commands than
    a schedule may, and its levels are a dwell apart, from the run's first instant until a
    dwell would reach its end. *)
Lemma cycling_runs options schedule :
  in_range_options options → make_cycling options = Value schedule →
  problem schedule (cyc_workers options) = None
  ∧ at_ns <$> sched_steps schedule = (λ level, level * cyc_dwell_ns options) <$> seqZ 0 (levels_of options)
  ∧ (levels_of options - 1) * cyc_dwell_ns options < cyc_duration_ns options ≤ levels_of options * cyc_dwell_ns options
  ∧ levels_of options ≤ kMaxSteps ∧ cyc_workers options * levels_of options ≤ kMaxCommands.
Proof.
  intros Hr Hm. pose proof (cycle_instants _ _ Hr Hm) as Hat.
  destruct (make_cycling_value _ _ Hr Hm) as (Hw & Hd & Hl & Hp & He & Hn & Hc & Hs).
  split_and!; [|done| | |lia|done].
  - apply problem_exactly. subst schedule. cbn [sched_steps] in Hat. constructor; cbn [sched_workers sched_start sched_phase sched_workload sched_steps].
    + done.
    + by left.
    + constructor.
    + split; [done|apply cycle_label_ok].
    + assert (cyc_workers options = size_of (replicate (Z.to_nat (cyc_workers options)) fresh_state)) as Hsize.
      { unfold size_of. rewrite length_replicate. lia. }
      rewrite Hsize at 1. by apply cycle_steps_ok.
    + rewrite cycle_steps_phases. apply NoDup_fmap_2_strong; [|apply NoDup_seqZ].
      intros m n Hm' Hn' E. apply elem_of_seqZ in Hm', Hn'. unfold kMaxSteps in Hn.
      eapply (numbered_label_inj "c"%byte); [split; lia|split; lia|exact E].
    + rewrite Hat. constructor.
      * eapply StronglySorted_fmap_rel, sorted_seqZ. simpl. intros. nia.
      * apply Forall_fmap, Forall_forall. intros level Hlevel. apply elem_of_seqZ in Hlevel. simpl. nia.
  - rewrite He. pose proof (Z.mul_div_le (cyc_duration_ns options - 1) (cyc_dwell_ns options) Hl). nia.
  - rewrite He. pose proof (Z.mul_succ_div_gt (cyc_duration_ns options - 1) (cyc_dwell_ns options) Hl). nia.
Qed.

Lemma sample_cores_in_range : in_range_options sample_cores.
Proof. unfold in_range_options, in_u64, in_i64. simpl. lia. Qed.

(** C14: a worker who heeds the orders of a cycling schedule is, at each level, as busy as
    the level says: in the load cycle idle, heavy, moderate and heavy over and over, in the
    cores cycle at work exactly if it is one of the first of them. *)
Theorem cycling_heeded options schedule slot level :
  in_range_options options → make_cycling options = Value schedule →
  0 ≤ slot < cyc_workers options → 0 ≤ level < levels_of options →
  as_wanted (wanted_at options level slot)
    (foldl heed working (orders_to slot (take (S (Z.to_nat level)) (sched_steps schedule)))).
Proof.
  intros Hr Hm Hslot Hlevel. destruct (make_cycling_value _ _ Hr Hm) as (_ & _ & _ & _ & _ & Hn & _ & ->).
  cbn [sched_steps].
  pose proof (cycle_steps_heeded options (Z.to_nat (levels_of options)) 0
    (replicate (Z.to_nat (cyc_workers options)) fresh_state) (Z.to_nat slot) fresh_state working (Z.to_nat level)) as H.
  rewrite !Z2Nat.id in H by lia. rewrite Z.add_0_l in H. apply H.
  - apply lookup_replicate. split; [done|]. lia.
  - done.
  - lia.
Qed.

(** Worker 3 of 8, at the sixth level of the cores: half of them work. *)
Lemma cycling_heeded_witness :
  ∃ schedule, make_cycling sample_cores = Value schedule ∧
    as_wanted 1000 (foldl heed working (orders_to 3 (take 7 (sched_steps schedule)))).
Proof.
  destruct (make_cycling sample_cores) as [schedule|] eqn:E; [|by vm_compute in E].
  exists schedule. split; [done|].
  refine (cycling_heeded sample_cores schedule 3 6 sample_cores_in_range E _ _); [simpl; lia|].
  split; [lia|]. vm_compute. reflexivity.
Defined.
