(* ===== verification/Config.v ===== *)
(** * config: what a run is configured to do

    The data of config/config.hpp, how a refusal is told, and the arithmetic of a memory
    budget (config/config.cpp). Reading a document is a third-party parser's. *)

From S2P Require Export Units.

(** ** config.hpp *)

Inductive ConfigMode := kBenchmark | kStress | kExplore.

#[export] Instance ConfigMode_eq_dec : EqDecision ConfigMode.
Proof. solve_decision. Defined.

(** [Threads]: a count, of which zero is all. *)
Record Threads := { thread_count : Z }.

Definition threads_all : Threads := {| thread_count := 0 |}.
Definition threads_counted (n : Z) : Threads := {| thread_count := n |}.
Definition is_all (threads : Threads) : bool := thread_count threads =? 0.

Record RunConfig := { run_mode : ConfigMode; run_duration_ms : Z }.

Record Limits := { max_temperature_c : option Z; limit_memory : option ByteSize }.

(** [config::Workload]. *)
Record WorkloadEntry := {
  wle_name : text;
  wle_threads : Threads;
  wle_enabled : bool;
  wle_memory : option ByteSize;
}.

Record Config := { config_run : RunConfig; config_limits : Limits; config_workloads : list WorkloadEntry }.

Record ConfigError := { origin : text; error_key : text; error_line : Z; message : text }.

Record MemoryBudget := { available_bytes : Z; cgroup_limit_bytes : option Z }.

#[export] Instance MemoryBudget_eq_dec : EqDecision MemoryBudget.
Proof. solve_decision. Defined.

(** ** config.cpp *)

Definition describe_mode (mode : ConfigMode) : text :=
  match mode with
  | kBenchmark => lit "benchmark"
  | kStress => lit "stress"
  | kExplore => lit "explore"
  end.

Definition parse_mode (t : text) : option ConfigMode :=
  if bool_decide (t = lit "benchmark") then Some kBenchmark
  else if bool_decide (t = lit "stress") then Some kStress
  else if bool_decide (t = lit "explore") then Some kExplore
  else None.

Definition describe_config_error (error : ConfigError) : text :=
  let t := origin error ++ (if negb (error_line error =? 0) then lit ":" ++ to_dec (error_line error) else []) in
  t ++ (if bool_decide (t = []) then [] else lit ": ")
    ++ (if bool_decide (error_key error = []) then [] else error_key error ++ lit ": ")
    ++ message error.

Definition ceiling_of (budget : MemoryBudget) : Z :=
  match cgroup_limit_bytes budget with
  | Some limit => Z.min (available_bytes budget) limit
  | None => available_bytes budget
  end.

Definition resolve_memory (size : ByteSize) (budget : MemoryBudget) (key : text) : Result Z ConfigError :=
  let ceiling := ceiling_of budget in
  match size with
  | Bytes wanted =>
      if ceiling <? wanted
      then Error {| origin := []; error_key := key; error_line := 0;
                    message := lit "requests " ++ to_dec wanted ++ lit " bytes but the machine can offer " ++ to_dec ceiling |}
      else Value wanted
  | Fraction percent =>
      Value (u64 (u64 (ceiling / 100 * percent) + u64 (ceiling mod 100 * percent) / 100))
  end.

(** ** The arithmetic of a budget *)

Definition budget_in_range (budget : MemoryBudget) : Prop :=
  in_u64 (available_bytes budget) ∧ from_option in_u64 True (cgroup_limit_bytes budget).

Lemma ceiling_in_range budget : budget_in_range budget → in_u64 (ceiling_of budget).
Proof.
  unfold budget_in_range, ceiling_of. destruct (cgroup_limit_bytes budget) as [limit|]; simpl; [|tauto].
  intros [[] []]. split; lia.
Qed.

(** Splitting the ceiling into hundreds neither wraps nor loses: a share is the share,
    rounded down. *)
Lemma share_exact ceiling percent :
  in_u64 ceiling → 0 ≤ percent ≤ 100 →
  u64 (u64 (ceiling / 100 * percent) + u64 (ceiling mod 100 * percent) / 100) = ceiling * percent / 100.
Proof.
  intros [H0 H1] Hp. pose proof (Z.mod_pos_bound ceiling 100 ltac:(lia)) as Hmod.
  pose proof (Z.div_mod ceiling 100 ltac:(lia)) as Hsplit.
  set (q := ceiling / 100) in *. set (r := ceiling mod 100) in *.
  assert (0 ≤ q) by (unfold q; apply Z.div_pos; lia).
  rewrite (u64_small (q * percent)) by (split; nia).
  rewrite (u64_small (r * percent)) by (split; nia).
  replace (ceiling * percent / 100) with (q * percent + r * percent / 100).
  - apply u64_small. pose proof (Z.div_pos (r * percent) 100 ltac:(nia) ltac:(lia)).
    pose proof (Z.div_le_upper_bound (r * percent) 100 r ltac:(lia) ltac:(nia)). split; nia.
  - rewrite Hsplit. replace ((100 * q + r) * percent) with (r * percent + (q * percent) * 100) by lia.
    rewrite Z.div_add by lia. lia.
Qed.

Definition size_in_range (size : ByteSize) : Prop :=
  match size with Bytes count => in_u64 count | Fraction whole => 1 ≤ whole ≤ 100 end.

(** What a size asks of a ceiling. *)
Definition asks (size : ByteSize) (ceiling : Z) : Z :=
  match size with Bytes count => count | Fraction whole => ceiling * whole / 100 end.

Lemma resolve_memory_spec size budget key :
  budget_in_range budget → size_in_range size →
  match resolve_memory size budget key with
  | Value bytes => bytes = asks size (ceiling_of budget) ∧ 0 ≤ bytes ≤ ceiling_of budget
  | Error _ => ceiling_of budget < asks size (ceiling_of budget)
  end.
Proof.
  intros Hb Hs. pose proof (ceiling_in_range _ Hb) as Hc. unfold resolve_memory, asks. destruct size as [count|whole]; simpl in *.
  - destruct Hs. destruct (Z.ltb_spec (ceiling_of budget) count); [done|]. lia.
  - rewrite share_exact by (done || lia). split; [done|]. destruct Hc.
    split; [apply Z.div_pos; nia|apply Z.div_le_upper_bound; nia].
Qed.
