(* ===== verification/Safety.v ===== *)
(** * controller/safety: what a run is refused for, and how it is stopped

    The ladder from a request to a signal that cannot be ignored, the limits a run states,
    and whether its memory fits (controller/safety.hpp and safety.cpp). What a watch of the
    temperatures says (controller/temperature) is an argument. *)

From S2P Require Export Platform Config Schedule Lists.

(** ** Stopping a worker *)

Inductive StopStep := kStepNone | kRequested | kTerminated | kKilled.

#[export] Instance StopStep_eq_dec : EqDecision StopStep.
Proof. solve_decision. Defined.

Definition describe_stop_step (step : StopStep) : text :=
  match step with
  | kStepNone => lit "running"
  | kRequested => lit "stop requested"
  | kTerminated => lit "SIGTERM sent"
  | kKilled => lit "SIGKILL sent"
  end.

Record Grace := { stop_ns : Z; kill_ns : Z }.

Definition SIGTERM : Z := 15.

Definition escalation_due (step : StopStep) (since_ns now_ns : Z) (grace : Grace) : option Z :=
  let waited_ns := i64 (now_ns - since_ns) in
  if bool_decide (step = kRequested) && (stop_ns grace <=? waited_ns) then Some SIGTERM
  else if bool_decide (step = kTerminated) && (kill_ns grace <=? waited_ns) then Some SIGKILL
  else None.

Definition step_after (signal : Z) : StopStep := if signal =? SIGKILL then kKilled else kTerminated.

(** ** The limits *)

Record LimitStatus := { limit_name : text; enforced : bool; limit_note : text }.

Definition any_memory_configured (config : Config) : bool :=
  match limit_memory (config_limits config) with
  | Some _ => true
  | None => existsb (λ workload, bool_decide (is_Some (wle_memory workload))) (config_workloads config)
  end.

(** [None] is what [core::to_string] throws of a negative duration. *)
Definition limit_statuses (config : Config) (budget : option MemoryBudget) (unread watching : text) :
    option (list LimitStatus) :=
  duration_note ← duration_to_string (run_duration_ms (config_run config));
  let duration := {| limit_name := lit "duration"; enforced := true; limit_note := duration_note |} in
  let memory :=
    if any_memory_configured config then
      [ {| limit_name := lit "memory"; enforced := bool_decide (is_Some budget);
           limit_note := match budget with
             | Some budget => lit "checked at start against a ceiling of "
                                ++ byte_size_to_string (Bytes (ceiling_of budget))
             | None => lit "no memory budget could be read"
                         ++ (if bool_decide (unread = []) then [] else lit ": " ++ unread)
             end |} ]
    else [] in
  let temperature :=
    match max_temperature_c (config_limits config) with
    | Some ceiling =>
        [ {| limit_name := lit "temperature"; enforced := negb (bool_decide (watching = []));
             limit_note := if bool_decide (watching = [])
               then lit "no temperature can be read; configured " ++ to_dec ceiling ++ lit " C"
               else lit "stops the run at " ++ to_dec ceiling ++ lit " C; watching " ++ watching |} ]
    | None => []
    end in
  Some (duration :: memory ++ temperature).

(** ** The memory *)

Definition kUint64Max : Z := 2 ^ 64 - 1.

(** [sum]: saturating. *)
Definition saturating (total each : Z) : Z := if kUint64Max - total <? each then kUint64Max else total + each.
Definition held_sum (held : list Z) : Z := foldl saturating 0 held.

(** A Switch replaces the footprint of its worker. *)
Definition hold_command (slot : Z) (held : list Z) (command : Command) : list Z :=
  match command with
  | SwitchTo change =>
      if slot <? size_of held then <[Z.to_nat slot := switch_footprint_bytes change]> held else held
  | _ => held
  end.

Definition hold_orders (held : list Z) (each : WorkerCommands) : list Z :=
  foldl (hold_command (wc_slot each)) held (wc_commands each).

Definition hold_step (held : list Z) (step : ScheduleStep) : list Z := foldl hold_orders held (step_workers step).

Record Peak := { peak_bytes : Z; peak_at : text }.

Fixpoint peak_from (peak : Peak) (held : list Z) (steps : list ScheduleStep) : Peak :=
  match steps with
  | [] => peak
  | step :: steps =>
      let held := hold_step held step in
      let now := held_sum held in
      peak_from (if peak_bytes peak <? now
                 then {| peak_bytes := now; peak_at := the_step (step_phase step) |} else peak) held steps
  end.

Definition peak_of (schedule : Schedule) (held : list Z) : Peak :=
  peak_from {| peak_bytes := held_sum held; peak_at := lit "the start" |} held (sched_steps schedule).

(** The loop over the workloads: the total, and what each enabled one is launched with. *)
Fixpoint launched_from (budget : MemoryBudget) (total : Z) (launched : list Z) (workloads : list WorkloadEntry) :
    Result (Z * list Z) text :=
  match workloads with
  | [] => Value (total, launched)
  | workload :: workloads =>
      if negb (wle_enabled workload) then launched_from budget total launched workloads else
      match wle_memory workload with
      | None => launched_from budget total (launched ++ [0]) workloads
      | Some memory =>
          match resolve_memory memory budget (lit "workload." ++ wle_name workload) with
          | Error e => Error (describe_config_error e)
          | Value resolved => launched_from budget (u64 (total + resolved)) (launched ++ [resolved]) workloads
          end
      end
  end.

Definition past_words (held_what held_where limit_what : text) (total limit : Z) : text :=
  held_what ++ byte_size_to_string (Bytes total) ++ held_where ++ limit_what ++ byte_size_to_string (Bytes limit).

Definition held_at_start (schedule : Schedule) (launched : list Z) : list Z :=
  if bool_decide (sched_start schedule = []) then launched else start_footprint_bytes <$> sched_start schedule.

(** From the comparison with the ceiling on. *)
Definition check_total (config : Config) (budget : MemoryBudget) (total : Z) (held_what held_where : text) :
    Result unit text :=
  let ceiling := ceiling_of budget in
  if ceiling <? total then Error (past_words held_what held_where (lit ", past the ceiling of ") total ceiling)
  else match limit_memory (config_limits config) with
       | None => Value tt
       | Some memory =>
           match resolve_memory memory budget (lit "limits.memory") with
           | Error e => Error (describe_config_error e)
           | Value limit =>
               if limit <? total
               then Error (past_words held_what held_where (lit ", past limits.memory of ") total limit)
               else Value tt
           end
       end.

Definition check_memory (config : Config) (budget : option MemoryBudget) (schedule : option Schedule) : Result unit text :=
  match budget with
  | None => Value tt
  | Some budget =>
      match launched_from budget 0 [] (config_workloads config) with
      | Error refusal => Error refusal
      | Value (total, launched) =>
          let held_what := lit "the workloads' memory adds up to " in
          match schedule with
          | None => check_total config budget total held_what []
          | Some schedule =>
              let peak := peak_of schedule (held_at_start schedule launched) in
              if total <? peak_bytes peak
              then check_total config budget (peak_bytes peak) (lit "the schedule holds up to ")
                     (lit " (at " ++ peak_at peak ++ lit ")")
              else check_total config budget total held_what []
          end
      end
  end.

(** ** The ladder *)

Definition rank (step : StopStep) : Z :=
  match step with kStepNone => 0 | kRequested => 1 | kTerminated => 2 | kKilled => 3 end.

(** What is due is the next step up, once its grace has passed, and nothing else. *)
Lemma escalation_due_Some step since now grace signal :
  escalation_due step since now grace = Some signal →
  (signal = SIGTERM ∨ signal = SIGKILL) ∧ rank (step_after signal) = rank step + 1.
Proof.
  unfold escalation_due. destruct step; simpl; [done|..|done]; (case_match; [|done]); intros [= <-]; auto.
Qed.

(** ** What the workers hold *)

Definition holds_nonneg (held : list Z) : Prop := Forall (λ each, 0 ≤ each) held.

Definition command_holds (command : Command) : Prop :=
  match command with SwitchTo change => 0 ≤ switch_footprint_bytes change | _ => True end.

Definition step_holds (step : ScheduleStep) : Prop :=
  Forall (λ each, 0 ≤ wc_slot each ∧ Forall command_holds (wc_commands each)) (step_workers step).

Definition schedule_holds (schedule : Schedule) : Prop :=
  Forall (λ start, 0 ≤ start_footprint_bytes start) (sched_start schedule) ∧ Forall step_holds (sched_steps schedule).

Lemma held_sum_from total held :
  0 ≤ total ≤ kUint64Max → holds_nonneg held →
  foldl saturating total held = Z.min kUint64Max (total + sum held).
Proof.
  intros Ht Hh. revert total Ht. induction Hh as [|each held Heach Hheld IH]; intros total Ht; [simpl; lia|].
  rewrite sum_cons. cbn [foldl].
  assert (0 ≤ sum held).
  { clear - Hheld. induction Hheld; [done|]. rewrite sum_cons. lia. }
  unfold saturating at 2. destruct (Z.ltb_spec (kUint64Max - total) each); rewrite IH by lia; lia.
Qed.

Lemma held_sum_spec held : holds_nonneg held → held_sum held = Z.min kUint64Max (sum held).
Proof. intros Hh. unfold held_sum. rewrite held_sum_from by (done || unfold kUint64Max; lia). done. Qed.

Lemma hold_step_nonneg held step : holds_nonneg held → step_holds step → holds_nonneg (hold_step held step).
Proof.
  unfold hold_step, step_holds. intros Hh Hs. revert held Hh.
  induction Hs as [|each rest [_ Heach] _ IH]; intros held Hh; [done|]. simpl. apply IH. clear IH rest.
  unfold hold_orders. revert held Hh. induction Heach as [|c cs Hc _ IH]; intros held Hh; [done|].
  simpl. apply IH. destruct c; try done. simpl. case_match; [|done]. by apply Forall_insert.
Qed.

(** What they hold after the first [k] steps. *)
Definition held_after (k : nat) (schedule : Schedule) (held : list Z) : list Z :=
  foldl hold_step held (take k (sched_steps schedule)).

Lemma peak_from_le peak held steps bound :
  peak_bytes (peak_from peak held steps) ≤ bound ↔
  peak_bytes peak ≤ bound ∧ ∀ k, (1 ≤ k ≤ length steps)%nat → held_sum (foldl hold_step held (take k steps)) ≤ bound.
Proof.
  revert peak held. induction steps as [|step steps IH]; intros peak held; simpl.
  { split; [|tauto]. intros H. split; [done|]. lia. }
  rewrite IH. clear IH. split.
  - intros [Hp Hk]. destruct (Z.ltb_spec (peak_bytes peak) (held_sum (hold_step held step))); simpl in Hp; (split; [lia|]).
    all: intros [|[|k]] Hlen; [lia|simpl; rewrite ?take_0; simpl; lia|apply (Hk (S k)); lia].
  - intros [Hp Hk]. pose proof (Hk 1%nat ltac:(lia)) as H1. rewrite firstn_cons, take_0 in H1. simpl in H1.
    split; [by case_match|]. intros k Hlen. apply (Hk (S k)). lia.
Qed.

Lemma peak_of_le schedule held bound :
  peak_bytes (peak_of schedule held) ≤ bound ↔
  ∀ k, (k ≤ length (sched_steps schedule))%nat → held_sum (held_after k schedule held) ≤ bound.
Proof.
  unfold peak_of, held_after. rewrite peak_from_le. simpl. split.
  - intros [H0 H] [|k] Hk; [by rewrite take_0|]. apply H. lia.
  - intros H. split; [apply (H 0%nat); lia|]. intros k Hk. apply H. lia.
Qed.

Lemma held_after_nonneg k schedule held : holds_nonneg held → schedule_holds schedule → holds_nonneg (held_after k schedule held).
Proof.
  intros Hh [_ Hs]. unfold held_after. apply (Forall_take _ k) in Hs. revert held Hh.
  induction Hs as [|step steps Hstep _ IH]; intros held Hh; [done|]. simpl. by apply IH, hold_step_nonneg.
Qed.

(** ** What the workers are launched with *)

Definition launches (ceiling : Z) (workloads : list WorkloadEntry) : list Z :=
  omap (λ workload, if wle_enabled workload then Some (from_option (λ memory, asks memory ceiling) 0 (wle_memory workload))
                    else None) workloads.

Definition entries_in_range (workloads : list WorkloadEntry) : Prop :=
  Forall (λ workload, from_option size_in_range True (wle_memory workload)) workloads.

Lemma asks_nonneg size ceiling : 0 ≤ ceiling → size_in_range size → 0 ≤ asks size ceiling.
Proof. intros Hc. destruct size as [count|whole]; simpl; [intros []; lia|]. intros. apply Z.div_pos; nia. Qed.

Lemma launches_cons ceiling workload workloads :
  launches ceiling (workload :: workloads) =
  (if wle_enabled workload then [from_option (λ memory, asks memory ceiling) 0 (wle_memory workload)] else [])
  ++ launches ceiling workloads.
Proof. unfold launches. simpl. by destruct (wle_enabled workload). Qed.

Lemma launches_nonneg ceiling workloads : 0 ≤ ceiling → entries_in_range workloads → holds_nonneg (launches ceiling workloads).
Proof.
  intros Hc. induction 1 as [|w ws Hw _ IH]; [constructor|]. rewrite launches_cons. apply Forall_app. split; [|done].
  destruct (wle_enabled w); [|done]. repeat constructor. destruct (wle_memory w); simpl in *; [by apply asks_nonneg|lia].
Qed.

Lemma length_launches ceiling workloads : (length (launches ceiling workloads) ≤ length workloads)%nat.
Proof. induction workloads as [|w ws IH]; [done|]. rewrite launches_cons, length_app. simpl. destruct (wle_enabled w); simpl; lia. Qed.

Lemma launched_from_spec budget total launched workloads :
  budget_in_range budget → entries_in_range workloads → 0 ≤ total →
  total + size_of workloads * ceiling_of budget < 2 ^ 64 →
  let found := launches (ceiling_of budget) workloads in
  match launched_from budget total launched workloads with
  | Value (total', launched') =>
      Forall (λ each, each ≤ ceiling_of budget) found ∧ total' = total + sum found ∧ launched' = launched ++ found
  | Error _ => ¬ Forall (λ each, each ≤ ceiling_of budget) found
  end.
Proof.
  intros Hb Hws. pose proof (ceiling_in_range _ Hb) as [Hc0 Hc1]. revert total launched.
  induction Hws as [|w ws Hw Hws IH]; intros total launched Ht Hsum; cbn [launched_from].
  { cbn zeta. split_and!; [constructor|change (sum (launches (ceiling_of budget) [])) with 0; lia|by rewrite app_nil_r]. }
  cbn zeta in IH |- *. rewrite launches_cons. unfold size_of in *. cbn [length] in Hsum. rewrite Nat2Z.inj_succ in Hsum.
  destruct (wle_enabled w); cbn [negb app]; [|apply IH; nia].
  rewrite sum_cons.
  destruct (wle_memory w) as [memory|]; cbn [from_option] in *.
  - pose proof (resolve_memory_spec memory budget (lit "workload." ++ wle_name w) Hb Hw) as Hr.
    destruct (resolve_memory _ _ _) as [resolved|e]; [|intros [H _]%Forall_cons; lia]. destruct Hr as [-> Hr].
    rewrite u64_small by (split; nia). specialize (IH (total + asks memory (ceiling_of budget))
      (launched ++ [asks memory (ceiling_of budget)]) ltac:(lia) ltac:(nia)).
    destruct (launched_from _ _ _ _) as [[total' launched']|]; [|by intros [_ ?]%Forall_cons].
    destruct IH as (? & -> & ->). split_and!; [constructor; [lia|done]|lia|by rewrite <-app_assoc].
  - specialize (IH total (launched ++ [0]) Ht ltac:(nia)).
    destruct (launched_from _ _ _ _) as [[total' launched']|]; [|by intros [_ ?]%Forall_cons].
    destruct IH as (? & -> & ->). split_and!; [constructor; [lia|done]|lia|by rewrite <-app_assoc].
Qed.

(** ** Whether the memory fits *)

(** The most that anything may hold: the ceiling, and the limit configured. *)
Definition allowed (config : Config) (budget : MemoryBudget) (bytes : Z) : Prop :=
  bytes ≤ ceiling_of budget ∧
  from_option (λ memory, bytes ≤ asks memory (ceiling_of budget)) True (limit_memory (config_limits config)).

Record memory_fits (config : Config) (budget : MemoryBudget) (schedule : option Schedule) : Prop := {
  (** What each asks for is there at all, and so is the limit. *)
  fits_each : Forall (λ each, each ≤ ceiling_of budget) (launches (ceiling_of budget) (config_workloads config));
  fits_limit : from_option (λ memory, asks memory (ceiling_of budget) ≤ ceiling_of budget) True
                 (limit_memory (config_limits config));
  fits_launch : allowed config budget (sum (launches (ceiling_of budget) (config_workloads config)));
  (** And at no step of the schedule do the workers together hold more. *)
  fits_steps : ∀ s k, schedule = Some s → (k ≤ length (sched_steps s))%nat →
    allowed config budget (sum (held_after k s (held_at_start s (launches (ceiling_of budget) (config_workloads config)))));
}.

Record memory_in_range (config : Config) (budget : MemoryBudget) (schedule : option Schedule) : Prop := {
  range_budget : budget_in_range budget ∧ ceiling_of budget < kUint64Max;
  range_workloads : entries_in_range (config_workloads config);
  range_limit : from_option size_in_range True (limit_memory (config_limits config));
  range_total : size_of (config_workloads config) * ceiling_of budget < 2 ^ 64;
  range_schedule : from_option schedule_holds True schedule;
}.

(** The total that is compared: the larger of the launch's and the peak. *)
Definition compared (total : Z) (schedule : option Schedule) (launched : list Z) : Z :=
  match schedule with
  | None => total
  | Some schedule => Z.max total (peak_bytes (peak_of schedule (held_at_start schedule launched)))
  end.

Lemma check_total_eq config budget total held_what held_where :
  check_total config budget total held_what held_where = Value tt ↔
  total ≤ ceiling_of budget ∧
  from_option (λ memory, ∃ limit, resolve_memory memory budget (lit "limits.memory") = Value limit ∧ total ≤ limit)
    True (limit_memory (config_limits config)).
Proof.
  unfold check_total. destruct (Z.ltb_spec (ceiling_of budget) total); [split; [done|lia]|].
  destruct (limit_memory _) as [memory|]; simpl; [|naive_solver].
  destruct (resolve_memory _ _ _) as [limit|e]; [|naive_solver].
  destruct (Z.ltb_spec limit total); [|naive_solver].
  split; [done|]. intros (_ & limit' & [= <-] & H'). lia.
Qed.

Lemma check_memory_eq config budget schedule :
  check_memory config (Some budget) schedule = Value tt ↔
  ∃ total launched, launched_from budget 0 [] (config_workloads config) = Value (total, launched) ∧
    compared total schedule launched ≤ ceiling_of budget ∧
    from_option (λ memory, ∃ limit, resolve_memory memory budget (lit "limits.memory") = Value limit
                             ∧ compared total schedule launched ≤ limit) True (limit_memory (config_limits config)).
Proof.
  unfold check_memory. destruct (launched_from _ _ _ _) as [[total launched]|e]; [|naive_solver].
  transitivity (compared total schedule launched ≤ ceiling_of budget ∧
    from_option (λ memory, ∃ limit, resolve_memory memory budget (lit "limits.memory") = Value limit
                             ∧ compared total schedule launched ≤ limit) True (limit_memory (config_limits config))).
  2: { split; [eauto|]. by intros (t & l & [= <- <-] & H). }
  unfold compared. destruct schedule as [s|]; [|apply check_total_eq]. simpl.
  destruct (Z.ltb_spec total (peak_bytes (peak_of s (held_at_start s launched)))).
  - rewrite Z.max_r by lia. apply check_total_eq.
  - rewrite Z.max_l by lia. apply check_total_eq.
Qed.

Lemma compared_le total schedule launched bound :
  bound < kUint64Max → holds_nonneg launched → from_option schedule_holds True schedule →
  compared total schedule launched ≤ bound ↔
  total ≤ bound ∧ ∀ s k, schedule = Some s → (k ≤ length (sched_steps s))%nat →
    sum (held_after k s (held_at_start s launched)) ≤ bound.
Proof.
  intros Hb Hl Hs. unfold compared. destruct schedule as [s|]; [|naive_solver]. simpl in Hs.
  assert (Hstart : holds_nonneg (held_at_start s launched)).
  { unfold held_at_start. case_bool_decide; [done|]. apply Forall_fmap. apply Hs. }
  rewrite Z.max_lub_iff, peak_of_le. apply and_iff_compat_l.
  assert (Heq : ∀ k, held_sum (held_after k s (held_at_start s launched)) ≤ bound ↔
                     sum (held_after k s (held_at_start s launched)) ≤ bound).
  { intros k. rewrite held_sum_spec by by apply held_after_nonneg. lia. }
  split.
  - intros H s' k [= <-] Hk. by apply Heq, H.
  - intros H k Hk. by apply Heq, H.
Qed.

(** What is fitting to the words of the check. *)
Lemma fits_compared config budget schedule :
  memory_in_range config budget schedule →
  let found := launches (ceiling_of budget) (config_workloads config) in
  memory_fits config budget schedule ↔
  Forall (λ each, each ≤ ceiling_of budget) found
  ∧ compared (sum found) schedule found ≤ ceiling_of budget
  ∧ from_option (λ memory, asks memory (ceiling_of budget) ≤ ceiling_of budget
                           ∧ compared (sum found) schedule found ≤ asks memory (ceiling_of budget)) True
      (limit_memory (config_limits config)).
Proof.
  intros [[Hb Hmax] Hws Hlim _ Hsched]. pose proof (ceiling_in_range _ Hb) as [Hc0 _]. cbn zeta.
  pose proof (launches_nonneg _ _ Hc0 Hws) as Hnn. set (found := launches _ _) in *.
  pose proof (compared_le (sum found) schedule found) as Hcmp.
  destruct (limit_memory (config_limits config)) as [memory|] eqn:Hm; simpl in *.
  - split.
    + intros [Heach Hfl Hla Hst]. fold found in Heach, Hla, Hst. unfold allowed in *. rewrite Hm in *. simpl in *.
      split; [done|]. rewrite (Hcmp (ceiling_of budget)) by done. split; [naive_solver|]. split; [done|].
      rewrite (Hcmp (asks _ _)) by (done || lia). naive_solver.
    + intros (Heach & Ht & Hfl & Hlt). rewrite (Hcmp (ceiling_of budget)) in Ht by done.
      rewrite (Hcmp (asks _ _)) in Hlt by (done || lia).
      constructor; fold found; unfold allowed; rewrite ?Hm; simpl; naive_solver.
  - rewrite (Hcmp (ceiling_of budget)) by done. split.
    + intros [Heach _ Hla Hst]. fold found in Heach, Hla, Hst. unfold allowed in *. rewrite Hm in *. naive_solver.
    + intros (Heach & Ht & _). constructor; fold found; unfold allowed; rewrite ?Hm; simpl; naive_solver.
Qed.

Lemma check_memory_iff config budget schedule :
  memory_in_range config budget schedule →
  check_memory config (Some budget) schedule = Value tt ↔ memory_fits config budget schedule.
Proof.
  intros Hr. rewrite (fits_compared _ _ _ Hr), check_memory_eq. destruct Hr as [[Hb Hmax] Hws Hlim Htotal _].
  pose proof (launched_from_spec budget 0 [] _ Hb Hws ltac:(lia) ltac:(lia)) as Hl. cbn zeta in Hl |- *.
  destruct (launched_from budget 0 [] (config_workloads config)) as [[total launched]|e].
  2: { split; [naive_solver|]. intros []. contradiction. }
  rewrite app_nil_l, Z.add_0_l in Hl. destruct Hl as (Heach & -> & ->).
  set (found := launches _ _) in *.
  destruct (limit_memory (config_limits config)) as [memory|]; simpl in *; [|naive_solver].
  pose proof (resolve_memory_spec memory budget (lit "limits.memory") Hb Hlim) as Hr. split.
  - intros (t & l & [= <- <-] & Ht & limit & E & Hlt). rewrite E in Hr. destruct Hr as [-> Hr]. split_and!; [done..|lia|done].
  - intros (_ & Ht & Hfl & Hlt). eexists _, _. split; [done|]. split; [done|].
    destruct (resolve_memory _ _ _) as [limit|]; [|lia]. destruct Hr as [-> Hr]. eauto.
Qed.

(** *** What one worker holds

    Its start, and then what the last Switch it was told says. *)

Definition footprint_after (commands : list Command) (start : Z) : Z :=
  foldl (λ footprint command, match command with SwitchTo change => switch_footprint_bytes change | _ => footprint end)
    start commands.

Lemma hold_command_lookup slot held command i :
  0 ≤ slot →
  hold_command slot held command !! i =
  footprint_after (if slot =? Z.of_nat i then [command] else []) <$> held !! i.
Proof.
  intros Hslot. assert (Hid : ∀ commands, (∀ f, footprint_after commands f = f) → held !! i = footprint_after commands <$> held !! i).
  { intros commands H. destruct (held !! i); simpl; by rewrite ?H. }
  destruct command; try (apply Hid; by destruct (slot =? Z.of_nat i)). simpl. unfold size_of.
  destruct (Z.eqb_spec slot (Z.of_nat i)) as [->|Hne].
  - rewrite Nat2Z.id. destruct (Z.ltb_spec (Z.of_nat i) (Z.of_nat (length held))) as [Hlt|Hge].
    + rewrite list_lookup_insert_eq by lia. destruct (lookup_lt_is_Some_2 held i) as [f ->]; [lia|done].
    + rewrite lookup_ge_None_2 by lia. done.
  - case_match; [|by apply Hid]. rewrite list_lookup_insert_ne by lia. by apply Hid.
Qed.

Lemma footprint_after_app commands more start :
  footprint_after (commands ++ more) start = footprint_after more (footprint_after commands start).
Proof. apply foldl_app. Qed.

Lemma hold_orders_lookup each held i :
  0 ≤ wc_slot each →
  hold_orders held each !! i = footprint_after (if wc_slot each =? Z.of_nat i then wc_commands each else []) <$> held !! i.
Proof.
  intros Hslot. unfold hold_orders. generalize (wc_commands each) as commands. intros commands. revert held.
  induction commands as [|c cs IH]; intros held; simpl.
  { case_match; destruct (held !! i); done. }
  rewrite IH, hold_command_lookup by done. destruct (held !! i); simpl; [|done].
  by destruct (wc_slot each =? Z.of_nat i).
Qed.

Lemma hold_step_lookup step held i :
  step_holds step → hold_step held step !! i = footprint_after (orders_in (Z.of_nat i) (step_workers step)) <$> held !! i.
Proof.
  unfold step_holds, hold_step. intros Hs. revert held.
  induction Hs as [|each rest [Hslot _] _ IH]; intros held; [by simpl; destruct (held !! i)|]. cbn [foldl].
  rewrite IH, hold_orders_lookup by done. rewrite orders_in_cons. destruct (held !! i); simpl; [|done].
  by rewrite footprint_after_app.
Qed.

Lemma held_after_each k schedule held :
  schedule_holds schedule →
  held_after k schedule held =
  imap (λ i start, footprint_after (orders_to (Z.of_nat i) (take k (sched_steps schedule))) start) held.
Proof.
  intros [_ Hs]. apply list_eq. intros i. rewrite list_lookup_imap. unfold held_after.
  apply (Forall_take _ k) in Hs. revert held.
  induction Hs as [|step steps Hstep _ IH]; intros held; [by simpl; destruct (held !! i)|]. cbn [foldl].
  rewrite IH, hold_step_lookup by done. destruct (held !! i) as [start|]; [|done]. cbn [fmap option_fmap option_map].
  unfold orders_to. by rewrite bind_cons, footprint_after_app.
Qed.

(** C11: with a budget, and where nothing that is summed can wrap, a run is accepted exactly
    when its memory fits: every workload's share of the ceiling, their sum, and the sum of
    what the workers hold after any step of the schedule, each of them its start until a
    Switch that it is told says otherwise. Nothing wraps ([memory_in_range]) when the
    numbers are within their types, the ceiling is not the sentinel 2^64-1, and the number
    of workloads times the ceiling is below 2^64; past that the total of the launch does
    wrap ([launch_total_wraps]). *)
Theorem check_memory_exactly config budget schedule :
  memory_in_range config budget schedule →
  check_memory config (Some budget) schedule = Value tt ↔
  let ceiling := ceiling_of budget in
  let found := launches ceiling (config_workloads config) in
  let limits := ceiling :: match limit_memory (config_limits config) with Some memory => [asks memory ceiling] | None => [] end in
  Forall (λ each, each ≤ ceiling) (found ++ limits)
  ∧ Forall (λ limit, sum found ≤ limit
      ∧ ∀ s k, schedule = Some s → (k ≤ length (sched_steps s))%nat →
          sum (imap (λ slot start, footprint_after (orders_to (Z.of_nat slot) (take k (sched_steps s))) start)
                (held_at_start s found)) ≤ limit)
      limits.
Proof.
  intros Hr. rewrite (check_memory_iff _ _ _ Hr). cbn zeta.
  assert (Heach : ∀ s k held, schedule = Some s →
    imap (λ slot start, footprint_after (orders_to (Z.of_nat slot) (take k (sched_steps s))) start) held = held_after k s held).
  { intros s k held ->. symmetry. apply held_after_each, (range_schedule _ _ _ Hr). }
  split.
  - intros [Hfound Hfl Hla Hst].
    assert (Hst' : ∀ s k, schedule = Some s → (k ≤ length (sched_steps s))%nat →
      allowed config budget (sum (imap (λ slot start, footprint_after (orders_to (Z.of_nat slot) (take k (sched_steps s))) start)
        (held_at_start s (launches (ceiling_of budget) (config_workloads config)))))).
    { intros s k Hs Hk. rewrite (Heach s k _ Hs). by apply Hst. }
    unfold allowed in *. clear Hst Heach.
    assert (ceiling_of budget ≤ ceiling_of budget) by lia.
    destruct (limit_memory (config_limits config)) as [memory|]; simpl in Hfl, Hla, Hst';
      rewrite Forall_app, !Forall_cons, ?Forall_nil; split_and!;
      try done; try apply Hla; intros s k Hs Hk; destruct (Hst' s k Hs Hk); done.
  - intros [Hall Hlim]. apply Forall_app in Hall as [Hfound Hfl]. apply Forall_cons in Hfl as [_ Hfl], Hlim as [Hc Hlim].
    assert (Hst' : ∀ s k, schedule = Some s → (k ≤ length (sched_steps s))%nat →
      allowed config budget (sum (held_after k s (held_at_start s (launches (ceiling_of budget) (config_workloads config)))))).
    { intros s k Hs Hk. rewrite <-(Heach s k _ Hs). unfold allowed.
      destruct (limit_memory (config_limits config)); simpl; [apply Forall_inv in Hlim|];
        (split; [by apply Hc|]); [by apply Hlim|done]. }
    constructor; [done| |unfold allowed|exact Hst'];
      destruct (limit_memory (config_limits config)); simpl; try done.
    + by apply Forall_inv in Hfl.
    + apply Forall_inv in Hlim. split; [apply Hc|apply Hlim].
    + split; [apply Hc|done].
Qed.

(** Two workers, the first of which a step makes three times as large: forty megabytes
    are enough and thirty-nine are not. *)
Definition sample_config : Config :=
  let entry name := {| wle_name := name; wle_threads := threads_counted 1; wle_enabled := true;
                       wle_memory := Some (Bytes 10485760) |} in
  {| config_run := {| run_mode := kStress; run_duration_ms := 60000 |};
     config_limits := {| max_temperature_c := None; limit_memory := Some (Fraction 100) |};
     config_workloads := [entry (lit "sort"); entry (lit "fft")] |}.

Definition sample_budget (megabytes : Z) : MemoryBudget :=
  {| available_bytes := megabytes * 1048576; cgroup_limit_bytes := None |}.

Definition sample_schedule : Schedule :=
  {| sched_workers := 2; sched_start := []; sched_phase := lit "run"; sched_workload := lit "sort";
     sched_steps :=
       [ {| at_ns := 1; step_phase := lit "r1"; step_workload := lit "fft";
            step_workers := [ {| wc_slot := 0; wc_commands := [ SwitchTo
              {| switch_workload := lit "fft"; switch_seed := 1; switch_footprint_bytes := 31457280;
                 switch_decomposition := 0;
                 switch_duty := {| oracle_period := 1; integrity_period := 1 |} |} ] |} ] |} ] |}.

Lemma sample_memory_in_range megabytes :
  0 ≤ megabytes < 1000000 → memory_in_range sample_config (sample_budget megabytes) (Some sample_schedule).
Proof.
  intros Hm. constructor; simpl.
  - split; [split; [|done]; split; simpl; lia|]. unfold ceiling_of, kUint64Max. simpl. lia.
  - repeat constructor; simpl; unfold in_u64; lia.
  - lia.
  - unfold size_of, ceiling_of. simpl. lia.
  - split; [constructor|]. repeat constructor; simpl; lia.
Qed.

Lemma check_memory_exactly_witness :
  check_memory sample_config (Some (sample_budget 39)) (Some sample_schedule) ≠ Value tt
  ∧ footprint_after (orders_to 0 (sched_steps sample_schedule)) 10485760 + 10485760 ≤ 40 * 1048576.
Proof.
  split; [by vm_compute|].
  pose proof (proj1 (check_memory_exactly _ _ _ (sample_memory_in_range 40 ltac:(lia))) eq_refl) as [_ H].
  apply Forall_cons in H as [[_ H] _]. exact (H sample_schedule 1%nat eq_refl ltac:(simpl; lia)).
Defined.

(** The total of what workers are launched with is not held back at 64 bits as the peak of
    a schedule is: sixteen workloads of 2^60 bytes add up to nothing. *)
Example launch_total_wraps :
  check_memory
    {| config_run := {| run_mode := kStress; run_duration_ms := 1 |};
       config_limits := {| max_temperature_c := None; limit_memory := None |};
       config_workloads := replicate 16 {| wle_name := lit "sort"; wle_threads := threads_all; wle_enabled := true;
                                           wle_memory := Some (Bytes (2 ^ 60)) |} |}
    (Some {| available_bytes := 2 ^ 60; cgroup_limit_bytes := None |}) None = Value tt.
Proof. vm_compute. reflexivity. Qed.
