(* ===== verification/Plan.v ===== *)
(** * controller/plan: what each worker is to run

    Which workload, with what footprint, on which CPUs with how many threads, on which path:
    decided once, before the fork (controller/plan.hpp and plan.cpp), over a registry whose
    workloads are given with their descriptors. *)

From S2P Require Export Registry SliceRunner FpEnv Numa Config.

(** ** plan.hpp and report.hpp *)

(** A workload made: its descriptor and its operations. *)
Definition Made : Type := Descriptor * Workload.

Record VerificationOptions := {
  registry : option (Registry Made);
  options_seed : Z;
  options_footprint_bytes : Z;
  options_decomposition : Z;
  requested_isa : option IsaPath;
  (** What [isa_probe] says this CPU runs; absent without a probe. *)
  isa_probe : option IsaSet;
  options_duty : DutyCycle;
  options_line_bytes : Z;
  options_cpus : list Z;
  options_lock : LockPolicy;
}.

Definition kSeedStride : Z := 0x9E3779B97F4A7C15.

Record WorkerWork := {
  work_descriptor : Descriptor;
  work_isa : IsaPath;
  work_decomposition : Z;
  work_duty : DutyCycle;
  work_logical_bytes : Z;
  work_threads : Z;
  work_cpu : option Z;
  work_seed : Z;
  work_footprint_bytes : Z;
  work_line_bytes : Z;
  work_lock : LockPolicy;
}.

Record WorkerPlan := {
  plan_args : option WorkloadArgs;
  plan_threads : Z;
  plan_cpus : list Z;
  plan_description : text;
  plan_work : option WorkerWork;
}.

(** ** plan.cpp *)

Definition comma_separated (cpus : list Z) : text :=
  match cpus with
  | [] => []
  | first :: rest => to_dec first ++ (rest ≫= λ cpu, lit "," ++ to_dec cpu)
  end.

Definition cpu_list (cpus : list Z) : text :=
  match cpus with
  | [] => lit "unpinned"
  | _ => (if size_of cpus =? 1 then lit "cpu " else lit "cpus ") ++ comma_separated cpus
  end.

(** The loop over the CPUs of the snapshot. *)
Fixpoint core_among (cpus : list LogicalCpu) (cpu : Z) : option CoreAddress :=
  match cpus with
  | [] => None
  | each :: cpus => if id each =? cpu then Some (core each) else core_among cpus cpu
  end.

Definition core_of (machine : Snapshot) (cpu : Z) : option CoreAddress := core_among (cpus machine) cpu.

Definition refused (name : text) (error : WorkloadError) : text :=
  name ++ lit ": " ++ describe_workload_fault (workload_fault error) ++ lit ": " ++ workload_detail error.

Definition assign_cpus (slot threads : Z) (all : list Z) : list Z :=
  match all with
  | [] => []
  | _ =>
      let count := Z.min threads (size_of all) in
      let start := u64 (slot * threads) mod size_of all in
      (λ index, nth (Z.to_nat ((start + index) mod size_of all)) all 0) <$> seqZ 0 count
  end.

(** [None] is [.value()] of a refused choice. *)
Definition choose_isa (requested : option IsaPath) (supported compiled workload_paths : IsaSet) :
    option (Result IsaPath DispatchError) :=
  match requested with
  | None =>
      match select_path None supported (isa_intersect compiled workload_paths) with
      | Value path => Some (Value path)
      | Error _ => None
      end
  | Some path =>
      if negb (isa_contains workload_paths path)
      then Some (Error {| dispatch_fault := kNotCompiled; dispatch_requested := path;
                          dispatch_detail := lit "the workload has no " ++ describe_isa_path path ++ lit " kernel" |})
      else Some (select_path requested supported compiled)
  end.

Definition flag_words (on : bool) : text := if on then lit "on" else lit "off".

Definition describe_state (state : FpState) : text :=
  lit "rounding " ++ describe_rounding (rounding state) ++ lit ", flush-to-zero " ++ flag_words (flush_to_zero state)
  ++ match denormals_are_zero state with Some on => lit ", denormals-are-zero " ++ flag_words on | None => [] end
  ++ match default_nan state with Some on => lit ", default-NaN " ++ flag_words on | None => [] end.

(** *** plan_worker, in its parts *)

Definition null_plan (name : text) : WorkerPlan :=
  {| plan_args := None; plan_threads := 0; plan_cpus := []; plan_description := name ++ lit ": null workload";
     plan_work := None |}.

(** The threads and where they go. *)
Definition place (entry : WorkloadEntry) (slot : Z) (all : list Z) : Z * list Z :=
  if is_all (wle_threads entry) then (u32 (Z.max (size_of all) 1), all)
  else (thread_count (wle_threads entry), assign_cpus slot (thread_count (wle_threads entry)) all).

Definition plan_footprint (entry : WorkloadEntry) (budget : option MemoryBudget) (standard : Z) : Result Z text :=
  match wle_memory entry, budget with
  | Some memory, Some budget =>
      match resolve_memory memory budget (lit "workload." ++ wle_name entry) with
      | Error e => Error (describe_config_error e)
      | Value resolved => Value resolved
      end
  | Some (Bytes count), None => Value count
  | _, _ => Value standard
  end.

(** Where the one CPU of a placed worker is. *)
Definition whereabouts (machine : option Snapshot) (cpus : list Z) : option Z * option Z * option Z :=
  match cpus, machine with
  | [cpu], Some machine =>
      let core := core_of machine cpu in
      (package <$> core, core_ <$> core, node_id <$> node_of (numa machine) cpu)
  | _, _ => (None, None, None)
  end.

Definition plan_words (name : text) (threads : Z) (cpus : list Z) (footprint units : Z) (isa : IsaPath) : text :=
  name ++ lit ": " ++ to_dec threads ++ lit " thread(s) on " ++ cpu_list cpus ++ lit ", footprint "
  ++ byte_size_to_string (Bytes footprint) ++ lit ", " ++ to_dec units ++ lit " unit(s) resident, "
  ++ describe_isa_path isa ++ lit " path".

Definition planned_args (name : text) (options : VerificationOptions) (slot threads footprint : Z) (isa : IsaPath)
    (where_ : option Z * option Z * option Z) : WorkloadArgs :=
  {| wl_workload := name; wl_seed := u64 (options_seed options + slot * kSeedStride);
     wl_footprint_bytes := footprint; wl_threads := threads; wl_decomposition := options_decomposition options;
     wl_isa := isa; wl_lock := options_lock options; wl_duty := options_duty options;
     wl_line_bytes := options_line_bytes options; wl_physical_package := where_.1.1;
     wl_physical_core := where_.1.2; wl_numa_node := where_.2 |}.

(** Once the path is chosen: the workload is made, and the plan told. *)
Definition plan_made (made : Made) (args : WorkloadArgs) (cpus : list Z) : WorkerPlan :=
  {| plan_args := Some args; plan_threads := wl_threads args; plan_cpus := cpus;
     plan_description := plan_words (wl_workload args) (wl_threads args) cpus (wl_footprint_bytes args)
                           (plan_units (workload_plan made.2)) (wl_isa args);
     plan_work := Some
       {| work_descriptor := made.1; work_isa := wl_isa args;
          work_decomposition := plan_decomposition (workload_plan made.2); work_duty := wl_duty args;
          work_logical_bytes := logical_bytes (workload_plan made.2); work_threads := wl_threads args;
          work_cpu := match cpus with [cpu] => Some cpu | _ => None end; work_seed := wl_seed args;
          work_footprint_bytes := wl_footprint_bytes args; work_line_bytes := wl_line_bytes args;
          work_lock := wl_lock args |} |}.

Definition plan_worker (compiled : IsaSet) (entry : WorkloadEntry) (slot : Z) (budget : option MemoryBudget)
    (options : VerificationOptions) (machine : option Snapshot) : option (Result WorkerPlan text) :=
  let name := wle_name entry in
  match registry options with
  | None => Some (Value (null_plan name))
  | Some registry =>
  if negb (bool_decide (name ∈ registry_names registry)) then Some (Value (null_plan name)) else
  if options_line_bytes options =? 0
  then Some (Error (name ++ lit ": the machine's cache-line size is not known, and an error record's classification depends on it; refusing to assume one"))
  else
  let (threads, cpus) := place entry slot (options_cpus options) in
  match plan_footprint entry budget (options_footprint_bytes options) with
  | Error why => Some (Error why)
  | Value footprint =>
  match registry_descriptor registry name with
  | Error e => Some (Error (refused name e))
  | Value described =>
  let supported := default (isa_set [kScalar]) (isa_probe options) in
  path ← choose_isa (requested_isa options) supported compiled (desc_paths described);
  match path with
  | Error e => Some (Error (name ++ lit ": " ++ dispatch_detail e))
  | Value isa =>
  let args := planned_args name options slot threads footprint isa (whereabouts machine cpus) in
  match registry_create registry name
          {| config_seed := wl_seed args; config_footprint_bytes := footprint;
             config_decomposition := options_decomposition options; config_isa := isa |} with
  | Error e => Some (Error (refused name e))
  | Value made => Some (Value (plan_made made args cpus))
  end end end end end.

(** ** Where workers go *)

Lemma assign_cpus_rotate slot threads all :
  all ≠ [] → 0 ≤ threads →
  assign_cpus slot threads all =
  take (Z.to_nat threads) (rotate (Z.to_nat (u64 (slot * threads) mod size_of all)) all).
Proof.
  intros Hne Ht.
  assert (assign_cpus slot threads all =
    (λ index, nth (Z.to_nat ((u64 (slot * threads) mod size_of all + index) mod size_of all)) all 0)
      <$> seqZ 0 (Z.min threads (size_of all))) as -> by by destruct all.
  assert (Hlen : 0 < size_of all) by (unfold size_of; destruct all; simpl; [done|lia]).
  pose proof (Z.mod_pos_bound (u64 (slot * threads)) (size_of all) Hlen) as Hstart.
  set (start := u64 (slot * threads) mod size_of all) in *.
  apply list_eq. intros i. destruct (decide (Z.of_nat i < Z.min threads (size_of all))) as [Hi|Hi].
  - rewrite lookup_take_lt by lia. unfold size_of in *. rewrite lookup_rotate_r by lia.
    rewrite list_lookup_fmap, lookup_seqZ_lt by lia. simpl. unfold rotate_nat_add.
    replace (Z.of_nat (Z.to_nat start)) with start by lia. rewrite Z.add_0_l.
    pose proof (Z.mod_pos_bound (start + Z.of_nat i) (Z.of_nat (length all)) ltac:(lia)).
    destruct (lookup_lt_is_Some_2 all (Z.to_nat ((start + Z.of_nat i) mod Z.of_nat (length all)))) as [cpu Hcpu]; [lia|].
    etransitivity; [|symmetry; exact Hcpu]. f_equal. by apply nth_lookup_Some.
  - rewrite !lookup_ge_None_2; [done|..].
    + rewrite length_take, length_rotate. unfold size_of in *. lia.
    + rewrite length_fmap, length_seqZ. unfold size_of in *. lia.
Qed.

(** With room for all, a worker has its own block of the CPUs. *)
Lemma assign_cpus_block slot threads all :
  0 ≤ slot → 0 < threads → (slot + 1) * threads ≤ size_of all → size_of all < 2 ^ 64 →
  assign_cpus slot threads all = take (Z.to_nat threads) (drop (Z.to_nat (slot * threads)) all).
Proof.
  intros Hs Ht Hroom Hsize. rewrite assign_cpus_rotate; [|intros ->; unfold size_of in *; simpl in *; nia|lia].
  rewrite u64_small by (unfold in_u64; nia). rewrite Z.mod_small by nia. unfold rotate, size_of in *.
  rewrite Nat.mod_small by nia. rewrite take_app_le; [done|]. rewrite length_drop. nia.
Qed.

(** A worker is assigned as many of the CPUs offered as it has threads, or all of them,
    and none twice; and where there are enough for all the workers up to it, none that
    another of them is assigned. *)
Theorem cpus_assigned slot threads all :
  NoDup all → all ≠ [] → 0 ≤ slot → 0 < threads → size_of all < 2 ^ 64 →
  NoDup (assign_cpus slot threads all)
  ∧ assign_cpus slot threads all ⊆ all
  ∧ size_of (assign_cpus slot threads all) = Z.min threads (size_of all)
  ∧ (∀ other, 0 ≤ other < slot → (slot + 1) * threads ≤ size_of all →
       assign_cpus other threads all ## assign_cpus slot threads all).
Proof.
  intros Hnd Hne Hs Ht Hsize. split_and!.
  - rewrite assign_cpus_rotate by (done || lia). eapply sublist_NoDup; [|apply sublist_take].
    unfold rotate. by rewrite (Permutation_app_comm _ _), take_drop.
  - rewrite assign_cpus_rotate by (done || lia). intros cpu Hin. apply elem_of_take in Hin as (i & Hi & _).
    apply list_elem_of_lookup_2 in Hi. unfold rotate in Hi.
    rewrite elem_of_app in Hi. rewrite <-(take_drop (Z.to_nat (u64 (slot * threads) mod size_of all) `mod` length all)%nat all), elem_of_app. tauto.
  - rewrite assign_cpus_rotate by (done || lia). unfold size_of. rewrite length_take, length_rotate. lia.
  - intros other Ho Hroom. rewrite !assign_cpus_block by nia.
    intros cpu Hin Hin'. apply elem_of_take in Hin as (i & Hi & Hlt), Hin' as (j & Hj & Hlt').
    rewrite lookup_drop in Hi, Hj.
    pose proof (NoDup_lookup _ _ _ _ Hnd Hi Hj). nia.
Qed.

Lemma cpus_assigned_witness :
  NoDup (assign_cpus 1 2 [0; 2; 4; 6; 8]) ∧ assign_cpus 0 2 [0; 2; 4; 6; 8] ## assign_cpus 1 2 [0; 2; 4; 6; 8].
Proof.
  destruct (cpus_assigned 1 2 [0; 2; 4; 6; 8]) as (Hnd & _ & _ & Hdis);
    [apply (bool_decide_unpack _); reflexivity|discriminate|lia|lia|unfold size_of; simpl; lia|].
  split; [exact Hnd|]. apply Hdis; [lia|unfold size_of; simpl; lia].
Defined.

(** ** Their seeds *)

(** The stride is odd, and has an inverse. *)
Lemma stride_inverse : (kSeedStride * 0xF1DE83E19937733D) mod 2 ^ 64 = 1.
Proof. vm_compute. reflexivity. Qed.

(** The workers of a run have different seeds, whatever the run's: the stride between
    them is odd, so that no two slots' multiples of it are alike in 64 bits. *)
Lemma seeds_differ seed slot other :
  in_u64 slot → in_u64 other → slot ≠ other → u64 (seed + slot * kSeedStride) ≠ u64 (seed + other * kSeedStride).
Proof.
  intros [] [] Hne E. apply Hne.
  assert (Hmul : (slot * kSeedStride) mod 2 ^ 64 = (other * kSeedStride) mod 2 ^ 64).
  { replace (slot * kSeedStride) with ((seed + slot * kSeedStride) - seed) by lia.
    replace (other * kSeedStride) with ((seed + other * kSeedStride) - seed) by lia.
    unfold u64 in E. rewrite (Zminus_mod (seed + slot * kSeedStride)), E, <-Zminus_mod. done. }
  assert (Hinv : (slot * kSeedStride * 0xF1DE83E19937733D) mod 2 ^ 64 = (other * kSeedStride * 0xF1DE83E19937733D) mod 2 ^ 64).
  { rewrite Z.mul_mod, Hmul, <-Z.mul_mod by lia. done. }
  rewrite <-!Z.mul_assoc, (Z.mul_mod slot), (Z.mul_mod other), stride_inverse, !Z.mul_1_r, !Z.mod_mod in Hinv by lia.
  rewrite !Z.mod_small in Hinv by lia. done.
Qed.

Lemma seeds_differ_witness : u64 (7 + 0 * kSeedStride) ≠ u64 (7 + 1 * kSeedStride).
Proof. apply (seeds_differ 7 0 1); unfold in_u64; lia. Defined.

(** ** What a plan promises *)

(** Options that can be planned with: what the registry, the topology and the command line
    give. *)
Record options_ok (options : VerificationOptions) : Prop := {
  options_names : from_option (λ r, Forall (λ name, is_valid_name name = true) (registry_names r)) True (registry options);
  options_footprint : in_u64 (options_footprint_bytes options);
  options_cut : in_u32 (options_decomposition options);
  options_line : options_line_bytes options = 0 ∨
    kMinLineBytes ≤ options_line_bytes options ≤ kMaxLineBytes ∧ has_single_bit (options_line_bytes options) = true;
  options_periods : in_u32 (oracle_period (options_duty options)) ∧ in_u32 (integrity_period (options_duty options));
  options_places : Forall in_u32 (options_cpus options) ∧ size_of (options_cpus options) < 2 ^ 32;
}.

(** A configured workload, within its types: a count of threads, and a size no greater
    than the code can hold. *)
Record entry_ok (entry : WorkloadEntry) (budget : option MemoryBudget) : Prop := {
  entry_threads : in_u32 (thread_count (wle_threads entry));
  entry_budget : from_option budget_in_range True budget;
  entry_memory : from_option size_in_range True (wle_memory entry);
}.

Definition machine_ok (machine : Snapshot) : Prop :=
  Forall (λ cpu, in_u32 (package (core cpu)) ∧ in_u32 (core_ (core cpu))) (cpus machine)
  ∧ Forall (λ node, in_u32 (node_id node)) (numa machine).

Lemma choose_isa_total requested supported compiled paths :
  ∃ chosen, choose_isa requested supported compiled paths = Some chosen ∧
    ∀ path, chosen = Value path →
      runs_on supported compiled path ∧ (path = kScalar ∨ isa_contains paths path = true)
      ∧ (∀ wanted, requested = Some wanted → path = wanted).
Proof.
  unfold choose_isa. destruct requested as [wanted|].
  - destruct (isa_contains paths wanted) eqn:Hp; simpl; (eexists; split; [reflexivity|]); [|by intros path].
    intros path H. apply select_requested in H as [-> H]. naive_solver.
  - destruct (select_unasked supported (isa_intersect compiled paths)) as (chosen & -> & Hruns).
    eexists. split; [done|]. intros path [= <-]. unfold runs_on in *. rewrite isa_contains_intersect, andb_true_iff in Hruns.
    naive_solver.
Qed.

Lemma plan_footprint_ok entry budget standard footprint :
  entry_ok entry budget → in_u64 standard → plan_footprint entry budget standard = Value footprint →
  in_u64 footprint.
Proof.
  intros [_ Hb Hm] Hs. unfold plan_footprint. destruct (wle_memory entry) as [memory|]; [|by intros [= <-]].
  cbn [from_option] in Hm. destruct budget as [budget|]; simpl in Hb.
  - pose proof (resolve_memory_spec memory budget (lit "workload." ++ wle_name entry) Hb Hm) as Hr.
    destruct (resolve_memory _ _ _) as [resolved|e]; [|by destruct memory].
    assert (Value (E := text) resolved = Value footprint → resolved = footprint) as Hinj by congruence.
    destruct Hr as [_ ?]. intros E. assert (resolved = footprint) as <- by (destruct memory; auto).
    pose proof (ceiling_in_range _ Hb) as []. unfold in_u64. lia.
  - destruct memory; [|by intros [= <-]]. simpl in *. by intros [= <-].
Qed.

Lemma place_ok entry slot options budget :
  entry_ok entry budget → options_ok options →
  let placed := place entry slot (options_cpus options) in
  1 ≤ placed.1 < 2 ^ 32 ∧ Forall in_u32 placed.2.
Proof.
  intros [Ht _ _] []. destruct options_places0 as [Hcpus Hsize]. unfold place, is_all.
  assert (0 ≤ size_of (options_cpus options)) by (unfold size_of; lia). unfold in_u32 in Ht.
  destruct (Z.eqb_spec (thread_count (wle_threads entry)) 0); simpl.
  - rewrite u32_small by (unfold in_u32; lia). split; [lia|done].
  - split; [lia|]. unfold assign_cpus. destruct (options_cpus options) as [|first rest] eqn:E; [done|].
    assert (Hnth : ∀ at_, in_u32 (nth at_ (first :: rest) 0)).
    { intros at_. destruct (nth_in_or_default at_ (first :: rest) 0) as [Hin| ->]; [|by unfold in_u32].
      rewrite Forall_forall in Hcpus. by apply Hcpus, list_elem_of_In. }
    apply Forall_fmap, Forall_forall. intros index _. apply Hnth.
Qed.

Lemma whereabouts_ok machine cpus :
  from_option machine_ok True machine →
  let where_ := whereabouts machine cpus in
  optional_dom in_u32 where_.1.1 ∧ optional_dom in_u32 where_.1.2 ∧ optional_dom in_u32 where_.2.
Proof.
  unfold whereabouts. destruct cpus as [|cpu [|]]; [done| |done]. destruct machine as [machine|]; [|done]. simpl.
  intros [Hc Hn]. unfold core_of. split_and!.
  1,2: induction Hc as [|each cpus' [] _ IH]; simpl; [done|]; destruct (id each =? cpu); [done|exact IH].
  induction Hn as [|node nodes Hnode _ IH]; simpl; [done|]. destruct (contains _ _); [done|exact IH].
Qed.

(** What a worker is started with: its place among the workers from [base], the rest from
    the plan. *)
Definition started_with (base : WorkerArgs) (plan : WorkerPlan) : WorkerArgs :=
  {| slot := slot base; workers := workers base; heartbeat_fd := heartbeat_fd base;
     args_record_fd := args_record_fd base; args_control_fd := args_control_fd base;
     supervisor_pid := supervisor_pid base; args_pacing := args_pacing base;
     WorkerArgs.cpus := plan_cpus plan; workload := plan_args plan |}.

(** A worker's parser takes its arguments back exactly when they are in range. *)
Lemma parsed_iff executable base plan args :
  worker_args_ok base → Forall in_u32 (plan_cpus plan) → plan_args plan = Some args →
  (parse_args (drop 2 (argv_for executable (started_with base plan))) = Value (started_with base plan) ↔ workload_ok args).
Proof.
  intros Hbase Hcpus Hargs. split.
  - intros Hok%worker_args_sound. pose proof (work_ok _ Hok) as Hw. simpl in Hw. by rewrite Hargs in Hw.
  - intros Hw. apply worker_args_parsed. destruct Hbase. split; try done. simpl. by rewrite Hargs.
Qed.

(** C15: a worker is always planned or the run refused; and a plan that has something to run
    gives arguments that the worker's own parser takes back as they were - given a valid
    place among the workers - if and only if it has at most 1024 threads and at least a
    byte of footprint, the two things planning does not check; on a path that the machine,
    the build and the workload all have and that is the one requested if any was, and with
    a report of the same choices. This is for values the types hold, registered names that
    are valid, and a line size that is unknown or one a worker takes. *)
Theorem worker_planned compiled entry slot budget options machine :
  options_ok options → entry_ok entry budget → from_option machine_ok True machine →
  ∃ planned, plan_worker compiled entry slot budget options machine = Some planned ∧
  ∀ plan args, planned = Value plan → plan_args plan = Some args →
    (∀ executable base, worker_args_ok base →
       parse_args (drop 2 (argv_for executable (started_with base plan))) = Value (started_with base plan)
       ↔ wl_threads args ≤ kMaxThreads ∧ 1 ≤ wl_footprint_bytes args)
    ∧ wl_workload args = wle_name entry
    ∧ (wl_threads args, plan_cpus plan) = place entry slot (options_cpus options)
    ∧ plan_footprint entry budget (options_footprint_bytes options) = Value (wl_footprint_bytes args)
    ∧ wl_seed args = u64 (options_seed options + slot * kSeedStride)
    ∧ runs_on (default (isa_set [kScalar]) (isa_probe options)) compiled (wl_isa args)
    ∧ (∀ wanted, requested_isa options = Some wanted → wl_isa args = wanted)
    ∧ ∃ work, plan_work plan = Some work ∧ work_isa work = wl_isa args ∧ work_seed work = wl_seed args
        ∧ (wl_isa args = kScalar ∨ ∃ described r, registry options = Some r
             ∧ registry_descriptor r (wle_name entry) = Value described
             ∧ isa_contains (desc_paths described) (wl_isa args) = true).
Proof.
  intros Ho He Hm. unfold plan_worker.
  destruct (registry options) as [r|] eqn:Hr; [|eexists; split; [done|]; by intros plan args [= <-]].
  case_bool_decide as Hname; simpl; [|eexists; split; [done|]; by intros plan args [= <-]].
  destruct (Z.eqb_spec (options_line_bytes options) 0) as [|Hline]; [eexists; split; [done|]; by intros|].
  pose proof (place_ok entry slot options budget He Ho) as Hplace.
  destruct (place entry slot (options_cpus options)) as [threads cpus]. simpl in Hplace.
  destruct (plan_footprint _ _ _) as [footprint|] eqn:Hfoot; [|eexists; split; [done|]; by intros].
  destruct (registry_descriptor r (wle_name entry)) as [described|] eqn:Hd; [|eexists; split; [done|]; by intros].
  destruct (choose_isa_total (requested_isa options) (default (isa_set [kScalar]) (isa_probe options)) compiled
    (desc_paths described)) as (chosen & -> & Hchosen). simpl.
  destruct chosen as [isa|]; [|eexists; split; [done|]; by intros].
  destruct (registry_create _ _ _) as [made|]; [|eexists; split; [done|]; by intros].
  eexists. split; [done|]. intros plan args [= <-] [= <-].
  destruct (Hchosen isa eq_refl) as (Hruns & Hpaths & Hwanted).
  pose proof (whereabouts_ok machine cpus Hm) as (Hp & Hc & Hn).
  destruct Ho as [Hnames Hstd Hcut Hlines Hperiods _]. rewrite Hr in Hnames. simpl in Hnames.
  rewrite Forall_forall in Hnames. destruct Hlines as [?|Hlines]; [done|].
  apply plan_footprint_ok in Hfoot as Hfootprint; [|done..]. unfold in_u64 in Hfootprint.
  split_and!; try done.
  - intros executable base Hbase. 
    refine (iff_trans (parsed_iff executable base (plan_made made (planned_args (wle_name entry) options slot threads
      footprint isa (whereabouts machine cpus)) cpus) _ Hbase (proj2 Hplace) eq_refl) _). split.
    + intros []. simpl in *. lia.
    + intros [Hthreads Hbytes]. constructor; simpl in *; try done; [by apply Hnames|apply u64_range|lia|lia].
  - eexists. split_and!; [done..|]. destruct Hpaths; [by left|right]. eauto.
Qed.

Definition sample_made : Made :=
  ({| desc_name := lit "sort"; desc_version := 1; desc_determinism := kBitExact; desc_contract := kExact;
      desc_paths := isa_set [kScalar; kAvx2] |},
   {| descriptor_name := lit "sort"; descriptor_contract := kExact;
      workload_plan := {| plan_input_bytes := 8; plan_output_bytes := 8; plan_scratch_bytes := 0; plan_units := 3;
                          plan_decomposition := 2; logical_bytes := 16; operations := 1 |};
      generate := λ _, replicate 8 Byte.x00; compute := λ _ input _ scratch, (input, scratch) |}).

Definition sample_options : VerificationOptions :=
  {| registry := Some (BuiltinRegistry (kEntries (λ _ _, Value sample_made) (λ _, sample_made.1)));
     options_seed := 7; options_footprint_bytes := 33554432; options_decomposition := 0; requested_isa := None;
     isa_probe := Some (isa_set [kScalar; kAvx2; kAvx512]);
     options_duty := {| oracle_period := 1; integrity_period := 1 |}; options_line_bytes := 64;
     options_cpus := [0; 1; 2; 3]; options_lock := kTry |}.

Definition sample_entry (threads : Z) : WorkloadEntry :=
  {| wle_name := lit "sort"; wle_threads := threads_counted threads; wle_enabled := true; wle_memory := None |}.

Lemma sample_options_ok : options_ok sample_options.
Proof.
  constructor; simpl.
  - repeat constructor.
  - unfold in_u64. lia.
  - unfold in_u32. lia.
  - right. unfold kMinLineBytes, kMaxLineBytes. split; [lia|reflexivity].
  - unfold in_u32. lia.
  - split; [repeat constructor; unfold in_u32; lia|unfold size_of; simpl; lia].
Qed.

(** A worker's place: the second of four. *)
Definition sample_base_args : WorkerArgs :=
  {| slot := 1; workers := 4; heartbeat_fd := 3; args_record_fd := 5; args_control_fd := 7; supervisor_pid := 4021;
     args_pacing := {| duration_ns := 60000000000; interval_ns := 100000000; stale_after_ns := 3000000000 |};
     WorkerArgs.cpus := []; workload := None |}.

Lemma sample_base_args_ok : worker_args_ok sample_base_args.
Proof.
  split; cbn; unfold kMaxWorkers, kIntMax; try lia; try done.
  - exists 60000. split; [done|]. by vm_compute.
  - exists 100. split; [done|]. by vm_compute.
  - exists 3000. split; [done|]. by vm_compute.
Qed.

(** The build has every kernel, the workload none for AVX-512: the path is AVX2. And
    nothing here compares a configured count of threads with what a worker takes: two
    thousand are planned, and the worker refuses its own arguments. *)
Lemma worker_planned_witness :
  (∃ plan args,
    plan_worker (isa_set [kScalar; kAvx2; kAvx512]) (sample_entry 2) 1 None sample_options None = Some (Value plan)
    ∧ plan_args plan = Some args
    ∧ parse_args (drop 2 (argv_for (lit "loadforge") (started_with sample_base_args plan)))
      = Value (started_with sample_base_args plan)
    ∧ wl_isa args = kAvx2 ∧ plan_cpus plan = [2; 3])
  ∧ ∃ plan args,
    plan_worker (isa_set [kScalar]) (sample_entry 2000) 0 None sample_options None = Some (Value plan)
    ∧ plan_args plan = Some args ∧ wl_threads args = 2000
    ∧ parse_args (drop 2 (argv_for (lit "loadforge") (started_with sample_base_args plan)))
      ≠ Value (started_with sample_base_args plan).
Proof.
  split.
  - destruct (worker_planned (isa_set [kScalar; kAvx2; kAvx512]) (sample_entry 2) 1 None sample_options None
      sample_options_ok) as (planned & E & H); [by constructor|done|].
    vm_compute in E. injection E as <-. eexists _, _. split; [reflexivity|]. split; [reflexivity|].
    split; [|split; reflexivity].
    apply (proj1 (H _ _ eq_refl eq_refl) (lit "loadforge") sample_base_args sample_base_args_ok).
    split; vm_compute; discriminate.
  - destruct (worker_planned (isa_set [kScalar]) (sample_entry 2000) 0 None sample_options None
      sample_options_ok) as (planned & E & H); [by constructor|done|].
    vm_compute in E. injection E as <-. eexists _, _. split; [reflexivity|]. split; [reflexivity|]. split; [reflexivity|].
    intros Hparsed%(proj1 (H _ _ eq_refl eq_refl) (lit "loadforge") sample_base_args sample_base_args_ok).
    destruct Hparsed as [Ht _]. vm_compute in Ht. by apply Ht.
Defined.

(** Nothing here compares a configured count of threads with what a worker takes: two
    thousand are planned, and the worker refuses its own arguments. *)
Example threads_unbounded :
  ∃ plan args, plan_worker (isa_set [kScalar]) (sample_entry 2000) 0 None sample_options None = Some (Value plan)
    ∧ plan_args plan = Some args ∧ wl_threads args = 2000 ∧ ¬ workload_ok args.
Proof.
  eexists _, _. split; [vm_compute; reflexivity|]. split; [reflexivity|]. split; [reflexivity|].
  intros [_ _ _ Ht _ _ _ _ _ _]. simpl in Ht. unfold kMaxThreads in Ht. lia.
Qed.
