(* ===== verification/ScheduledRuns.v ===== *)
(** * main/schedules: a run made of a schedule

    The workers' configuration and what they are told, for a mixed run and for a cycling
    one (main/schedules.hpp and schedules.cpp), and that such a run is not refused: its
    schedule has nothing wrong with it, and its memory fits when all the workers' largest
    footprints do. *)

From S2P Require Export Mixed Cycling Safety Plan.

(** ** schedules.hpp *)

Record ScheduledRun := { scheduled_config : Config; scheduled : Schedule }.

Record MixedRequest := {
  mixed_registry : Registry Made;
  mixed_workers : Z;
  mixed_cpus : list Z;
  mixed_seed : Z;
  mixed_duration_ms : Z;
  mixed_rotation_ms : option Z;
  mixed_footprint_bytes : Z;
  mixed_duty : DutyCycle;
}.

Record CyclingRequest := {
  cycling_workload : text;
  cycling_kind : CycleKind;
  cycling_workers : Z;
  cycling_duration_ms : Z;
  cycling_dwell_ms : option Z;
  cycling_footprint : option ByteSize;
}.

(** ** schedules.cpp *)

Definition kNanosecondsPerMs : Z := 1000000.
Definition kLongestMilliseconds : Z := Z.quot (Z.quot (2 ^ 63 - 1) kNanosecondsPerMs) 8.

(** [std::clamp]. *)
Definition clamped (v low high : Z) : Z := if v <? low then low else if high <? v then high else v.

Definition default_rotation_ms (duration_ms : Z) : Z := clamped (Z.quot duration_ms 6) 1000 300000.
Definition default_dwell_ms (duration_ms : Z) : Z := clamped (Z.quot duration_ms 8) 1000 60000.

Definition kNoDuration : text := lit "the duration is not one a schedule can be made for".

(** Any duration a schedule is not made for. *)
Definition bad_duration (duration_ms : Z) : bool := (duration_ms <=? 0) || (kLongestMilliseconds <? duration_ms).

Definition stress_config (duration_ms : Z) (workloads : list WorkloadEntry) : Config :=
  {| config_run := {| run_mode := kStress; run_duration_ms := duration_ms |};
     config_limits := {| max_temperature_c := None; limit_memory := None |};
     config_workloads := workloads |}.

Definition one_thread (name : text) (memory : option ByteSize) : WorkloadEntry :=
  {| wle_name := name; wle_threads := threads_counted 1; wle_enabled := true; wle_memory := memory |}.

Definition mixed_options (request : MixedRequest) : MixedOptions :=
  {| mix_workers := mixed_workers request; mix_seed := mixed_seed request;
     mix_duration_ns := i64 (mixed_duration_ms request * kNanosecondsPerMs);
     mix_rotation_ns := i64 (default (default_rotation_ms (mixed_duration_ms request)) (mixed_rotation_ms request)
                             * kNanosecondsPerMs);
     mix_footprint_bytes := mixed_footprint_bytes request;
     placements := if (2 <=? mixed_workers request) && (2 <=? size_of (mixed_cpus request))
                   then (λ slot, assign_cpus slot 1 (mixed_cpus request)) <$> seqZ 0 (mixed_workers request) else [];
     mix_duty := mixed_duty request |}.

Definition plan_mixed (request : MixedRequest) : option (Result ScheduledRun text) :=
  if bad_duration (mixed_duration_ms request) then Some (Error kNoDuration) else
  roster ← roster_of (mixed_registry request) (mixed_footprint_bytes request);
  made ← make_mixed roster (mixed_options request);
  Some (let? schedule := made in
        Value {| scheduled_config := stress_config (mixed_duration_ms request)
                   ((λ start, one_thread (start_workload start) (Some (Bytes (start_footprint_bytes start))))
                      <$> sched_start schedule);
                 scheduled := schedule |}).

Definition cycling_options (request : CyclingRequest) : CyclingOptions :=
  {| cyc_kind := cycling_kind request; cyc_workers := cycling_workers request;
     cyc_duration_ns := i64 (cycling_duration_ms request * kNanosecondsPerMs);
     cyc_dwell_ns := i64 (default (default_dwell_ms (cycling_duration_ms request)) (cycling_dwell_ms request)
                          * kNanosecondsPerMs);
     cyc_period_ns := 1000000000 |}.

Definition plan_cycling (request : CyclingRequest) : Result ScheduledRun text :=
  if bad_duration (cycling_duration_ms request) then Error kNoDuration else
  let? schedule := make_cycling (cycling_options request) in
  Value {| scheduled_config := stress_config (cycling_duration_ms request)
             (replicate (Z.to_nat (cycling_workers request)) (one_thread (cycling_workload request) (cycling_footprint request)));
           scheduled := schedule |}.

(** ** How much a mixed schedule holds *)

Definition holds_at_most (bound : Z) (held : list Z) : Prop := Forall (λ each, 0 ≤ each ≤ bound) held.

Lemma sum_at_most bound held : holds_at_most bound held → 0 ≤ sum held ≤ bound * size_of held.
Proof.
  unfold holds_at_most, size_of. induction 1 as [|each held Heach _ IH]; [simpl; unfold sum; simpl; lia|].
  rewrite sum_cons. cbn [length]. lia.
Qed.

Definition command_at_most (bound : Z) (command : Command) : Prop :=
  match command with SwitchTo change => 0 ≤ switch_footprint_bytes change ≤ bound | _ => True end.

Definition step_at_most (bound : Z) (step : ScheduleStep) : Prop :=
  Forall (λ each, 0 ≤ wc_slot each ∧ Forall (command_at_most bound) (wc_commands each)) (step_workers step).

Lemma hold_commands_at_most bound slot commands held :
  Forall (command_at_most bound) commands → holds_at_most bound held →
  holds_at_most bound (foldl (hold_command slot) held commands)
  ∧ length (foldl (hold_command slot) held commands) = length held.
Proof.
  intros Hc. revert held. induction Hc as [|c cs Hc _ IH]; intros held Hh; [done|]. simpl.
  destruct (IH (hold_command slot held c)) as [IH1 IH2].
  { destruct c; try done. simpl. case_match; [|done]. by apply Forall_insert. }
  split; [done|]. rewrite IH2. destruct c; try done. simpl. case_match; [|done]. apply length_insert.
Qed.

Lemma hold_step_at_most bound step held :
  step_at_most bound step → holds_at_most bound held →
  holds_at_most bound (hold_step held step) ∧ length (hold_step held step) = length held.
Proof.
  unfold hold_step, step_at_most. intros Hs. revert held. induction Hs as [|each rest [_ Heach] _ IH]; intros held Hh; [done|].
  simpl. destruct (hold_commands_at_most bound (wc_slot each) _ held Heach Hh) as [H1 H2].
  destruct (IH _ H1) as [H3 H4]. split; [exact H3|]. etransitivity; [exact H4|exact H2].
Qed.

Lemma held_after_at_most bound k schedule held :
  Forall (step_at_most bound) (sched_steps schedule) → holds_at_most bound held →
  holds_at_most bound (held_after k schedule held) ∧ length (held_after k schedule held) = length held.
Proof.
  intros Hs. unfold held_after. apply (Forall_take _ k) in Hs. revert held.
  induction Hs as [|step steps Hstep _ IH]; intros held Hh; [done|]. simpl.
  destruct (hold_step_at_most bound step held Hstep Hh) as [H1 H2]. destruct (IH _ H1) as [H3 H4].
  split; [exact H3|]. etransitivity; [exact H4|exact H2].
Qed.

Lemma assigned_at_most roster options kind slot workload footprint :
  roster_ok roster → assigned roster options kind slot workload footprint → 0 ≤ mix_footprint_bytes options →
  1 ≤ footprint ≤ mix_footprint_bytes options.
Proof.
  intros Hr [(entry & Hin & _ & Hmin) Hsize _] H0. unfold roster_ok in Hr. rewrite Forall_forall in Hr.
  destruct (Hr _ Hin). split; [lia|]. destruct Hsize as [->| ->]; [lia|]. dlia.
Qed.

Lemma rotation_at_most roster options rotation kind step :
  roster_ok roster → 0 ≤ mix_footprint_bytes options → rotation_step roster options rotation kind step →
  step_at_most (mix_footprint_bytes options) step.
Proof.
  intros Hr H0 [_ _ Hslots (commands & Hc & Hord & _)]. unfold step_at_most.
  apply Forall_forall. intros each Hin. apply list_elem_of_lookup in Hin as [i Hi].
  assert (Hs : slots_of options !! i = Some (wc_slot each)) by (by rewrite <-Hslots, list_lookup_fmap, Hi).
  destruct (Forall2_lookup_l _ _ _ _ _ Hord Hs) as (c & Hci & Ho).
  assert (Hcs : (wc_commands <$> step_workers step) !! i = Some (wc_commands each)) by (by rewrite list_lookup_fmap, Hi).
  rewrite Hc, list_lookup_fmap, Hci in Hcs. injection Hcs as <-.
  apply lookup_seqZ in Hs as [-> _]. split; [lia|]. repeat constructor.
  destruct kind; simpl in Ho; destruct Ho as (x & Hx).
  6: by destruct Hx as [_ ->].
  all: destruct Hx as [-> Ha]; simpl; pose proof (assigned_at_most _ _ _ _ _ _ Hr Ha H0); lia.
Qed.

(** ** The requests *)

Record mixed_request_ok (request : MixedRequest) : Prop := {
  request_workers : in_u64 (mixed_workers request);
  request_rotation : from_option (λ ms, Z.abs ms ≤ kLongestMilliseconds) True (mixed_rotation_ms request);
  request_footprint : in_u64 (mixed_footprint_bytes request);
  request_names : Forall (λ name, is_valid_name name = true) (registry_names (mixed_registry request));
}.

Lemma clamped_range v low high : low ≤ high → low ≤ clamped v low high ≤ high.
Proof. unfold clamped. intros H. destruct (Z.ltb_spec v low); [lia|]. destruct (Z.ltb_spec high v); lia. Qed.

Lemma longest_ms : kLongestMilliseconds * kNanosecondsPerMs < 2 ^ 60.
Proof. reflexivity. Qed.

Lemma mixed_options_in_range request :
  mixed_request_ok request → mixed_in_range (mixed_options request).
Proof. intros [Hw _ Hf _]. unfold mixed_in_range, mixed_options. simpl. split_and!; try apply Hw || apply Hf || apply i64_range. Qed.

Lemma roster_valid {W} (registry : Registry W) ceiling roster :
  in_u64 ceiling → Forall (λ name, is_valid_name name = true) (registry_names registry) →
  roster_of registry ceiling = Some roster → roster_ok roster.
Proof.
  intros Hc Hn E. destruct (roster_from_spec registry ceiling Hc (registry_names registry)) as (roster' & E' & Hin & _).
  unfold roster_of in E. rewrite E in E'. injection E' as <-.
  apply Forall_forall. intros entry He. apply Hin in He as [Hname (k & Hk & _)].
  rewrite Forall_forall in Hn. split; [by apply Hn|]. rewrite Hk. apply Z.pow_pos_nonneg; lia.
Qed.

(** The workers' configuration asks for what the schedule starts them as. *)
Lemma launches_of_starts ceiling starts :
  launches ceiling ((λ start, one_thread (start_workload start) (Some (Bytes (start_footprint_bytes start)))) <$> starts)
  = start_footprint_bytes <$> starts.
Proof. induction starts as [|start starts IH]; [done|]. rewrite fmap_cons, launches_cons, IH. done. Qed.

(** ** That what is planned is not refused *)

Section Accepted.
Context (request : MixedRequest) (roster : list RosterEntry) (schedule : Schedule).
Hypotheses (Hok : mixed_request_ok request)
  (Hroster : roster_of (mixed_registry request) (mixed_footprint_bytes request) = Some roster)
  (Hmade : make_mixed roster (mixed_options request) = Some (Value schedule)).

Lemma planned_roster : roster_ok roster.
Proof. exact (roster_valid _ _ _ (request_footprint _ Hok) (request_names _ Hok) Hroster). Qed.

Lemma planned_at_most :
  holds_at_most (mixed_footprint_bytes request) (start_footprint_bytes <$> sched_start schedule)
  ∧ Forall (step_at_most (mixed_footprint_bytes request)) (sched_steps schedule).
Proof.
  destruct (make_mixed_value _ _ _ (mixed_options_in_range _ Hok) Hmade) as (_ & _ & _ & _ & _ & Hassigned & Hsteps).
  assert (Hb0 : 0 ≤ mix_footprint_bytes (mixed_options request)) by apply (request_footprint _ Hok).
  split; [apply Forall_fmap|]; apply Forall_forall; intros x Hin; apply list_elem_of_lookup in Hin as [i Hi].
  - destruct (Forall2_lookup_r _ _ _ _ _ Hassigned Hi) as (slot & _ & Ha).
    pose proof (assigned_at_most _ _ _ _ _ _ planned_roster Ha Hb0) as H. simpl in *. lia.
  - destruct (Forall2_lookup_r _ _ _ _ _ Hsteps Hi) as (rotation & _ & _ & kind & _ & Hstep).
    apply (rotation_at_most _ _ _ _ _ planned_roster Hb0 Hstep).
Qed.

Lemma planned_starts : size_of (sched_start schedule) = mixed_workers request.
Proof.
  destruct (make_mixed_value _ _ _ (mixed_options_in_range _ Hok) Hmade) as (_ & _ & _ & _ & _ & Hassigned & _).
  unfold size_of. rewrite <-(Forall2_length _ _ _ Hassigned). apply size_slots, Hok.
Qed.

Definition planned_config : Config :=
  stress_config (mixed_duration_ms request)
    ((λ start, one_thread (start_workload start) (Some (Bytes (start_footprint_bytes start)))) <$> sched_start schedule).

Lemma step_at_most_holds bound step : step_at_most bound step → step_holds step.
Proof.
  intros H. eapply Forall_impl; [exact H|]. intros each [Hslot Heach]. split; [done|]. eapply Forall_impl; [exact Heach|].
  intros [] Hc; simpl in *; try done. lia.
Qed.

Lemma planned_in_range budget :
  budget_in_range budget → ceiling_of budget < kUint64Max → mixed_workers request * ceiling_of budget < 2 ^ 64 →
  memory_in_range planned_config budget (Some schedule).
Proof.
  intros Hb Hmax Hroom. destruct planned_at_most as [Hhold Hsteps]. pose proof (request_footprint _ Hok) as [].
  constructor; simpl; try done.
  - apply Forall_fmap. apply (proj1 (Forall_fmap _ _ _)) in Hhold. eapply Forall_impl; [exact Hhold|].
    intros start Hs. simpl in *. unfold in_u64. lia.
  - unfold size_of. rewrite length_fmap. pose proof planned_starts as Hn. unfold size_of in Hn. by rewrite Hn.
  - split; [|eapply Forall_impl; [exact Hsteps|apply step_at_most_holds]].
    apply (proj1 (Forall_fmap _ _ _)) in Hhold. eapply Forall_impl; [exact Hhold|]. simpl. lia.
Qed.

Lemma planned_fits budget :
  mixed_workers request * mixed_footprint_bytes request ≤ ceiling_of budget →
  memory_fits planned_config budget (Some schedule).
Proof.
  intros Hfits. destruct planned_at_most as [Hhold Hsteps]. pose proof planned_starts as Hn.
  assert (Hw : 1 ≤ mixed_workers request).
  { destruct (make_mixed_value _ _ _ (mixed_options_in_range _ Hok) Hmade) as (Hm & _).
    pose proof (ok_workers _ Hm). simpl in *. lia. }
  assert (Hsum : ∀ held, holds_at_most (mixed_footprint_bytes request) held → size_of held = mixed_workers request →
    allowed planned_config budget (sum held)).
  { intros held Hh Hlen. pose proof (sum_at_most _ _ Hh). rewrite Hlen in *. split; [lia|done]. }
  assert (Hsize : size_of (start_footprint_bytes <$> sched_start schedule) = mixed_workers request).
  { unfold size_of in *. by rewrite length_fmap. }
  constructor; unfold planned_config, stress_config; cbn [config_workloads config_limits limit_memory];
    rewrite ?launches_of_starts; [|done|by apply Hsum|].
  - eapply Forall_impl; [exact Hhold|]. simpl. intros each. pose proof (request_footprint _ Hok) as []. nia.
  - intros s k [= <-] _.
    assert (held_at_start schedule (start_footprint_bytes <$> sched_start schedule)
            = start_footprint_bytes <$> sched_start schedule) as ->.
    { unfold held_at_start. by case_bool_decide. }
    destruct (held_after_at_most _ k _ _ Hsteps Hhold) as [H1 H2]. apply Hsum; [done|].
    unfold size_of in *. by rewrite H2.
Qed.
End Accepted.

(** An entry asks for one worker of what a schedule starts a worker as. *)
Definition asks_for (entry : WorkloadEntry) (start : Start) : Prop :=
  wle_name entry = start_workload start ∧ wle_memory entry = Some (Bytes (start_footprint_bytes start))
  ∧ thread_count (wle_threads entry) = 1 ∧ wle_enabled entry = true.

(** C12: a mixed run that is planned is not refused. For a request whose registered names
    are valid and whose rotation, if it asks for one, is no longer than a schedule can be
    made for, its schedule has nothing wrong with it for its workers; its configuration is
    a stress run of the requested duration with no limits, and it has one workload for
    each worker, in order: one thread of the workload the schedule starts that worker as,
    with the footprint it starts it with, which is never more than the request's. And
    where the number of workers times the room there is stays below 2^64, its memory is
    accepted whenever there is room for the requested footprint for all the workers at
    once, at the start and at every step. *)
Theorem mixed_run_accepted request run budget :
  mixed_request_ok request → plan_mixed request = Some (Value run) →
  problem (scheduled run) (mixed_workers request) = None
  ∧ config_run (scheduled_config run) = {| run_mode := kStress; run_duration_ms := mixed_duration_ms request |}
  ∧ config_limits (scheduled_config run) = {| max_temperature_c := None; limit_memory := None |}
  ∧ Forall2 asks_for (config_workloads (scheduled_config run)) (sched_start (scheduled run))
  ∧ size_of (config_workloads (scheduled_config run)) = mixed_workers request
  ∧ Forall (λ start, 0 ≤ start_footprint_bytes start ≤ mixed_footprint_bytes request) (sched_start (scheduled run))
  ∧ (budget_in_range budget → ceiling_of budget < kUint64Max → mixed_workers request * ceiling_of budget < 2 ^ 64 →
     mixed_workers request * mixed_footprint_bytes request ≤ ceiling_of budget →
     check_memory (scheduled_config run) (Some budget) (Some (scheduled run)) = Value tt).
Proof.
  intros Hok. unfold plan_mixed. destruct (bad_duration _); [done|].
  destruct (roster_of _ _) as [roster|] eqn:Hroster; [|done]. cbn [mbind option_bind].
  destruct (make_mixed _ _) as [[schedule|]|] eqn:Hmade; [|done..]. intros [= <-].
  cbn [scheduled scheduled_config stress_config config_workloads config_run config_limits].
  pose proof (planned_starts _ _ _ Hok Hmade) as Hn.
  split_and!; [|done|done|..].
  - by apply (mixed_runs _ _ _ (mixed_options_in_range _ Hok) (planned_roster _ _ Hok Hroster) Hmade).
  - apply Forall2_fmap_l, Forall_Forall2_diag, Forall_true. by intros start.
  - unfold size_of in *. by rewrite length_fmap.
  - destruct (planned_at_most _ _ _ Hok Hroster Hmade) as [Hhold _].
    apply (proj1 (Forall_fmap _ _ _)) in Hhold. exact Hhold.
  - intros Hb Hmax Hroom Hfits. apply check_memory_iff.
    + by eapply planned_in_range.
    + by eapply planned_fits.
Qed.

Definition sample_request : MixedRequest :=
  {| mixed_registry := BuiltinRegistry (kEntries (λ _ _, Value sample_made) (λ _, sample_made.1)); mixed_workers := 3;
     mixed_cpus := [0; 1; 2; 3]; mixed_seed := 5; mixed_duration_ms := 60000; mixed_rotation_ms := None;
     mixed_footprint_bytes := 1048576; mixed_duty := {| oracle_period := 1; integrity_period := 1 |} |}.

Lemma mixed_run_accepted_witness :
  ∃ run, plan_mixed sample_request = Some (Value run) ∧ problem (scheduled run) 3 = None
    ∧ Forall2 asks_for (config_workloads (scheduled_config run)) (sched_start (scheduled run))
    ∧ check_memory (scheduled_config run) (Some {| available_bytes := 3145728; cgroup_limit_bytes := None |})
        (Some (scheduled run)) = Value tt.
Proof.
  destruct (plan_mixed sample_request) as [[run|]|] eqn:E; [|by vm_compute in E..].
  destruct (mixed_run_accepted sample_request run {| available_bytes := 3145728; cgroup_limit_bytes := None |})
    as (Hp & _ & _ & Ha & _ & _ & Hm).
  - constructor; simpl; unfold in_u64; try lia. repeat constructor.
  - exact E.
  - exists run. split; [done|]. split; [exact Hp|]. split; [exact Ha|]. apply Hm.
    + split; [unfold in_u64; simpl; lia|done].
    + reflexivity.
    + reflexivity.
    + unfold ceiling_of. simpl. lia.
Defined.
