(* ===== verification/Tracking.v ===== *)
(** * controller/orchestration: what the controller holds about one worker

    The account a worker gives of itself over its record channel, the messages sent to it and
    their answers, and the judgement of its beats: the [Tracked] of orchestration.cpp, and the
    members of [Run] that touch one worker and make no call. *)

From S2P Require Export Scheduler Frames Supervision Safety Plan.
From S2P Require Isolation.
From coqutil Require Export Datatypes.RecordSettersUsingExistingGetters.

(** ** report.hpp *)

Record CommandReport := {
  cr_sent : Z;
  cr_done : Z;
  cr_refused : Z;
  cr_unacknowledged : Z;
  cr_dropped : Z;
}.

Definition no_commands : CommandReport :=
  {| cr_sent := 0; cr_done := 0; cr_refused := 0; cr_unacknowledged := 0; cr_dropped := 0 |}.

Definition kMaxFindingsKept : Z := 256.

(** One worker's story. *)
Record WorkerReport := {
  rp_slot : Z;
  rp_pid : Z;
  rp_fate : WorkerFate;
  rp_termination : text;
  rp_stop : text;
  rp_progress : Z;
  rp_records : list text;
  rp_tally : Tally;
  rp_tally_seen : bool;
  rp_memory : option MemoryLock;
  rp_work : option WorkerWork;
  rp_findings : list Isolation.FindingReport;
  rp_wrong_results : Z;
  rp_not_performed : Z;
  rp_findings_dropped : Z;
  rp_commands : CommandReport;
}.

(** ** orchestration.cpp: the data *)

Definition kMaxUnanswered : Z := 64.

(** [PipeEnds] (platform/syscalls.hpp), -1 where there is none. *)
Record PipeEnds := { pipe_read : Z; pipe_write : Z }.

Definition no_pipe : PipeEnds := {| pipe_read := -1; pipe_write := -1 |}.

Record Unanswered := { un_sequence : Z; un_command : Command; un_sent_ns : Z }.

(** [Evidence{}]. *)
Definition no_evidence : Evidence :=
  {| status := 0; signal_attempted := None; stale_when_signalled := false; finished_seen := false;
     channel_corrupt := false; channel_truncated := false; oom_kill_recorded := false; oom_inconclusive := false |}.

Record Tracked := {
  tr_slot : Z;
  (** None until the worker is spawned. *)
  tr_source : option RecordSource;
  tr_step : StopStep;
  tr_step_since_ns : Z;
  tr_progress : Z;
  tr_progress_changed_ns : Z;
  tr_launched_ns : Z;
  tr_last_read_ns : Z;
  tr_wrong_results : Z;
  tr_not_performed : Z;
  tr_findings_dropped : Z;
  tr_idle_allowance_ns : Z;
  tr_notes : list text;
  tr_findings : list Isolation.FindingReport;
  tr_told : list text;
  tr_commands : CommandReport;
  tr_memory : option MemoryLock;
  tr_tally : Tally;
  tr_unanswered : list Unanswered;
  tr_plan : WorkerPlan;
  tr_pid : Z;
  tr_next_sequence : Z;
  tr_records : PipeEnds;
  tr_control : PipeEnds;
  tr_evidence : Evidence;
  tr_channel_open : bool;
  tr_reaped : bool;
  tr_tally_seen : bool;
  tr_paused : bool;
  tr_stale_now : bool;
}.

(** A worker planned and not yet started: the members' initial values, with what
    plan_workers sets. *)
Definition tracked (slot : Z) (plan : WorkerPlan) : Tracked :=
  {| tr_slot := slot; tr_source := None; tr_step := kStepNone; tr_step_since_ns := 0; tr_progress := 0;
     tr_progress_changed_ns := 0; tr_launched_ns := 0; tr_last_read_ns := 0; tr_wrong_results := 0;
     tr_not_performed := 0; tr_findings_dropped := 0; tr_idle_allowance_ns := 0; tr_notes := []; tr_findings := [];
     tr_told := match plan_args plan with Some args => [wl_workload args] | None => [] end;
     tr_commands := no_commands; tr_memory := None; tr_tally := no_tally; tr_unanswered := []; tr_plan := plan;
     tr_pid := 0; tr_next_sequence := 1; tr_records := no_pipe; tr_control := no_pipe; tr_evidence := no_evidence;
     tr_channel_open := false; tr_reaped := false; tr_tally_seen := false; tr_paused := false;
     tr_stale_now := false |}.

(** ** orchestration.cpp: words *)

Definition describe_commands (commands : CommandReport) : text :=
  lit "control: " ++ to_dec (cr_sent commands) ++ lit " message(s) sent, " ++ to_dec (cr_done commands)
  ++ lit " done, " ++ to_dec (cr_refused commands) ++ lit " refused, " ++ to_dec (cr_unacknowledged commands)
  ++ lit " unanswered, " ++ to_dec (cr_dropped commands) ++ lit " dropped (too many unanswered)".

Definition record_word (type : Z) : text :=
  if type =? record_number IpcRecord.kStarted then describe_record_type IpcRecord.kStarted
  else if type =? record_number IpcRecord.kFinished then describe_record_type IpcRecord.kFinished
  else if type =? record_number kRecordError then describe_record_type kRecordError
  else lit "unknown record".

(** [describe] of a LockOutcome (verification/runner.hpp). *)
Definition describe_lock_outcome (outcome : LockOutcome) : text :=
  match outcome with
  | kLocked => lit "locked" | kNotLocked => lit "not locked" | kFellBack => lit "not locked: the lock was refused"
  end.

Definition add_note (note : text) (worker : Tracked) : Tracked := worker <| tr_notes ::= (λ notes, notes ++ [note]) |>.

(** ** orchestration.cpp: a record taken in

    Each answers why the channel can no longer be believed, or nothing. *)

Definition tally_taken (now : Tally) (worker : Tracked) : Tracked :=
  worker <| tr_tally := now |> <| tr_tally_seen := true |>.

Definition take_tally (worker : Tracked) (payload : list byte) : option text * Tracked :=
  match decode_tally payload with
  | Error e => (Some e, worker)
  | Value now =>
      let last := tr_tally worker in
      if tr_tally_seen worker
         && ((units_computed now <? units_computed last) || (oracle_blocks now <? oracle_blocks last)
             || (integrity_checked now <? integrity_checked last))
      then (Some (lit "a tally that went backwards"), worker)
      else (None, tally_taken now worker)
  end.

Definition lock_line (lock : MemoryLock) : text :=
  lit "working set: " ++ describe_lock_outcome (lock_outcome lock) ++ lit " (lock policy "
  ++ describe_lock_policy (lock_policy lock) ++ lit ")"
  ++ (match lock_detail lock with [] => [] | detail => lit ": " ++ detail end).

(** What is kept is the least a runner did. *)
Definition lock_taken (lock : MemoryLock) (worker : Tracked) : Tracked :=
  if (match tr_memory worker with
      | Some kept => outcome_number (lock_outcome lock) <=? outcome_number (lock_outcome kept)
      | None => false
      end)
  then worker else add_note (lock_line lock) (worker <| tr_memory := Some lock |>).

Definition take_memory (worker : Tracked) (payload : list byte) : option text * Tracked :=
  match decode_memory payload with
  | Error e => (Some e, worker)
  | Value lock => (None, lock_taken lock worker)
  end.

(** What a [kDone] changes. *)
Definition order_done (asked : Command) (worker : Tracked) : Tracked :=
  match asked with
  | Pause => worker <| tr_paused := true |>
  | Resume => worker <| tr_paused := false |>
  | SetDutyTo duty => worker <| tr_idle_allowance_ns := idle_ns duty |>
  | _ => worker
  end.

(** The answer to [next], the oldest of the unanswered. *)
Definition ack_taken (ack : ControlAck) (next : Unanswered) (later : list Unanswered) (worker : Tracked) : Tracked :=
  let worker := worker <| tr_unanswered := later |> in
  if ack_status ack =? kRefused
  then add_note (lit "refused " ++ command_name (un_command next) ++ lit ": " ++ ack_detail ack)
         (worker <| tr_commands ::= (λ c, c <| cr_refused ::= (λ n, u64 (n + 1)) |>) |>)
  else order_done (un_command next)
         (worker <| tr_commands ::= (λ c, c <| cr_done ::= (λ n, u64 (n + 1)) |>) |>).

Definition take_ack (worker : Tracked) (payload : list byte) : option text * Tracked :=
  match decode_ack payload with
  | Error e => (Some (lit "an acknowledgement that does not decode: " ++ control_detail e), worker)
  | Value ack =>
      match tr_unanswered worker with
      | [] => (Some (lit "an acknowledgement of message " ++ to_dec (ack_sequence ack) ++ lit " when none is unanswered"),
               worker)
      | next :: later =>
          if negb (ack_sequence ack =? un_sequence next)
          then (Some (lit "an acknowledgement of message " ++ to_dec (ack_sequence ack) ++ lit " when "
                      ++ to_dec (un_sequence next) ++ lit " is the next to be answered"), worker)
          else (None, ack_taken ack next later worker)
      end
  end.

Section Ingest.
(** How a double is printed in the shortest way that reads back (ErrorRecord). *)
Context (shortest : Z → text).

(** The workload a record names, if the worker was never told to run it. *)
Definition stranger (worker : Tracked) (found : ErrorRecord) : option text :=
  match prov_workload (provenance_of found) with
  | Some reported => if bool_decide (reported ∈ tr_told worker) then None else Some reported
  | None => None
  end.

Definition keep_finding (found : ErrorRecord) (worker : Tracked) : Tracked :=
  if size_of (tr_findings worker) <? kMaxFindingsKept
  then worker <| tr_findings ::= (λ kept, kept ++ [{| Isolation.record := found; Isolation.isolation := None;
                                                      Isolation.not_isolated := [] |}]) |>
  else worker <| tr_findings_dropped ::= (λ n, u64 (n + 1)) |>.

Definition finding_taken (found : ErrorRecord) (worker : Tracked) : Tracked :=
  keep_finding found
    (if is_wrong_result found then worker <| tr_wrong_results ::= (λ n, u64 (n + 1)) |>
     else worker <| tr_not_performed ::= (λ n, u64 (n + 1)) |>).

Definition take_error_record (worker : Tracked) (payload : list byte) : option text * Tracked :=
  match plan_args (tr_plan worker) with
  | None => (Some (lit "an error record from a worker that runs no workload"), worker)
  | Some _ =>
      match decode_record shortest payload with
      | Error e => (Some (lit "an error record that does not decode (" ++ describe_decode_fault (decode_fault e)
                          ++ lit "): " ++ decode_detail e), worker)
      | Value found =>
          match stranger worker found with
          | Some reported => (Some (lit "an error record about workload '" ++ reported
                                    ++ lit "' from a worker that was never told to run it"), worker)
          | None => (None, finding_taken found worker)
          end
      end
  end.

Definition ingest (worker : Tracked) (record : IpcRecord) : option text * Tracked :=
  if rec_type record =? kErrorRecordFrameType then take_error_record worker (rec_payload record) else
  if rec_type record =? kTallyFrameType then take_tally worker (rec_payload record) else
  if rec_type record =? kMemoryFrameType then take_memory worker (rec_payload record) else
  if rec_type record =? kControlAckFrameType then take_ack worker (rec_payload record) else
  let worker := if rec_type record =? record_number IpcRecord.kFinished
                then worker <| tr_evidence ::= (λ e, e <| finished_seen := true |>) |> else worker in
  (None, add_note (record_word (rec_type record) ++ lit ": " ++ rec_payload record) worker).

(** The loop of drain over the records read: those taken in, up to one that is refused. *)
Fixpoint ingest_all (worker : Tracked) (records : list IpcRecord) : option text * Tracked :=
  match records with
  | [] => (None, worker)
  | record :: records =>
      let (refusal, worker) := ingest worker record in
      match refusal with
      | Some why => (Some why, worker)
      | None => ingest_all worker records
      end
  end.

(** From the drained records to what is left of the channel: whether it is to be closed. *)
Definition take_drained (worker : Tracked) (drained : Drained) : bool * Tracked :=
  let (refusal, worker) := ingest_all worker (drained_records drained) in
  match refusal with
  | Some why => (true, add_note (lit "record channel: " ++ why)
                         (worker <| tr_evidence ::= (λ e, e <| channel_corrupt := true |>) |>))
  | None =>
      match drained_fault drained with
      | Some frame =>
          (true, add_note (lit "record channel: " ++ describe_frame_error frame)
                   (worker <| tr_evidence ::= (λ e, if bool_decide (fault_ frame = kTruncated)
                                                    then e <| channel_truncated := true |>
                                                    else e <| channel_corrupt := true |>) |>))
      | None => (end_of_stream drained, worker)
      end
  end.
End Ingest.

(** ** orchestration.cpp: a message sent *)

(** Once it is written. *)
Definition order_sent (what : Command) (now_ns : Z) (worker : Tracked) : Tracked :=
  let sequence := tr_next_sequence worker in
  let worker := worker
    <| tr_next_sequence := u32 (sequence + 1) |>
    <| tr_commands ::= (λ c, c <| cr_sent ::= (λ n, u64 (n + 1)) |>) |>
    <| tr_unanswered ::= (λ asked, asked ++ [{| un_sequence := sequence; un_command := what; un_sent_ns := now_ns |}]) |> in
  match what with
  | SwitchTo change => worker <| tr_told ::= (λ told, told ++ [switch_workload change]) |>
  | _ => worker
  end.

Definition order_dropped (worker : Tracked) : Tracked :=
  worker <| tr_commands ::= (λ c, c <| cr_dropped ::= (λ n, u64 (n + 1)) |>) |>.

(** ** orchestration.cpp: the judgement of a beat *)

Section Judge.
(** [RunOptions::stale_after_ns] and [RunOptions::replacement_allowance_ns]. *)
Context (stale_after_ns replacement_allowance_ns : Z).

Definition replaces (what : Command) : bool := match what with SwitchTo _ | Rebind _ => true | _ => false end.

Definition replacement_extra_ns (worker : Tracked) (now_ns : Z) : Z :=
  if existsb (λ each, replaces (un_command each) && (i64 (now_ns - un_sent_ns each) <=? replacement_allowance_ns))
       (tr_unanswered worker)
  then replacement_allowance_ns else 0.

(** From the observation to whether the worker's beat is stale. *)
Definition judge_beat (worker : Tracked) (observed : Result (option Heartbeat) RegionError) (now_ns : Z) : Tracked :=
  let allowance := i64 (stale_after_ns + replacement_extra_ns worker now_ns) in
  match observed with
  | Error _ => worker <| tr_stale_now := allowance <? i64 (now_ns - tr_last_read_ns worker) |>
  | Value beat =>
      let worker := worker <| tr_last_read_ns := now_ns |> in
      let live := liveness beat now_ns allowance in
      let worker :=
        match beat with
        | Some b => if tr_progress worker <? progress b
                    then worker <| tr_progress := progress b |> <| tr_progress_changed_ns := now_ns |> else worker
        | None => worker
        end in
      let worker := if tr_paused worker then worker <| tr_progress_changed_ns := now_ns |> else worker in
      let stalled := i64 (allowance + tr_idle_allowance_ns worker) <? i64 (now_ns - tr_progress_changed_ns worker) in
      worker <| tr_stale_now :=
        match live with
        | kStale => true
        | kNeverBeat => stale_after_ns <? i64 (now_ns - tr_launched_ns worker)
        | kFresh => stalled
        end |>
  end.

(** The signal the worker is to be sent now, if any, and whether for a stale beat. *)
Definition signal_due (grace : Grace) (worker : Tracked) (now_ns : Z) : option (Z * bool) :=
  if tr_stale_now worker && (bool_decide (tr_step worker = kStepNone) || bool_decide (tr_step worker = kRequested))
  then Some (SIGTERM, true)
  else (λ due, (due, stale_when_signalled (tr_evidence worker)))
         <$> escalation_due (tr_step worker) (tr_step_since_ns worker) now_ns grace.
End Judge.

(** ** orchestration.cpp: the story told *)

Definition is_stop_order (what : Command) : bool := match what with Stop => true | _ => false end.

(** The loop body of finish. *)
Definition worker_report (scheduled : bool) (worker : Tracked) : WorkerReport :=
  let commands := (tr_commands worker)
    <| cr_unacknowledged := size_of (filter (λ each, is_stop_order (un_command each) = false) (tr_unanswered worker)) |> in
  {| rp_slot := tr_slot worker; rp_pid := tr_pid worker; rp_fate := classify (tr_evidence worker);
     rp_termination := describe_status (status (tr_evidence worker)); rp_stop := describe_stop_step (tr_step worker);
     rp_progress := tr_progress worker;
     rp_records := tr_notes worker ++ (if scheduled then [describe_commands commands] else []);
     rp_tally := tr_tally worker; rp_tally_seen := tr_tally_seen worker; rp_memory := tr_memory worker;
     rp_work := plan_work (tr_plan worker); rp_findings := tr_findings worker;
     rp_wrong_results := tr_wrong_results worker; rp_not_performed := tr_not_performed worker;
     rp_findings_dropped := tr_findings_dropped worker; rp_commands := commands |}.
