(* ===== verification/Account.v ===== *)
(** * What the controller makes of what a worker says

    The account the controller keeps of a worker (Tracking) against what was really said and
    ordered: which records are believed, what is counted of them, and which answer belongs to
    which message. *)

From S2P Require Import VerifiedRunFacts.
From S2P Require Export Tracking.

(** ** What a worker can say *)

(** The record of what was said, of which [said_frame] is the frame. *)
Definition said_record (said : Said) : IpcRecord :=
  match said with
  | Found found => {| rec_type := kErrorRecordFrameType; rec_payload := encode_record found |}
  | Counted tally => {| rec_type := kTallyFrameType; rec_payload := encode_tally tally |}
  | Locked lock => {| rec_type := kMemoryFrameType; rec_payload := encode_memory lock |}
  | Acked ack => {| rec_type := kControlAckFrameType; rec_payload := encode_ack ack |}
  end.

Lemma said_frame_record said : said_frame said = frame_of (said_record said).
Proof. by destruct said. Qed.

(** What has an encoding that is read back. *)
Definition speakable (said : Said) : Prop :=
  match said with
  | Found found => in_widths found ∧ is_valid_record found = true
  | Counted tally => tally_widths tally
  | Locked lock => lock_stated lock
  | Acked ack => unsigned_dom 4 (ack_sequence ack) ∧ unsigned_dom 1 (ack_status ack) ∧ is_valid_ack ack = true
  end.

Definition no_less (last now : Tally) : Prop :=
  units_computed last ≤ units_computed now ∧ oracle_blocks last ≤ oracle_blocks now
  ∧ integrity_checked last ≤ integrity_checked now.

(** What a worker that works may say now. *)
Definition credible (worker : Tracked) (said : Said) : Prop :=
  match said with
  | Found found =>
      is_Some (plan_args (tr_plan worker)) ∧ ∀ name, prov_workload (provenance_of found) = Some name → name ∈ tr_told worker
  | Counted tally => tr_tally_seen worker = true → no_less (tr_tally worker) tally
  | Locked _ => True
  | Acked ack => head (un_sequence <$> tr_unanswered worker) = Some (ack_sequence ack)
  end.

(** What it then comes to. *)
Definition hear (said : Said) (worker : Tracked) : Tracked :=
  match said with
  | Found found => finding_taken found worker
  | Counted tally => tally_taken tally worker
  | Locked lock => lock_taken lock worker
  | Acked ack =>
      match tr_unanswered worker with
      | next :: later => ack_taken ack next later worker
      | [] => worker
      end
  end.

(** A frame the controller only takes a note of. *)
Definition only_noted (record : IpcRecord) : Prop :=
  rec_type record ∉ [kErrorRecordFrameType; kTallyFrameType; kMemoryFrameType; kControlAckFrameType].

Lemma stranger_none worker found :
  stranger worker found = None ↔ ∀ name, prov_workload (provenance_of found) = Some name → name ∈ tr_told worker.
Proof. unfold stranger. destruct (prov_workload _) as [name|]; [|naive_solver]. case_bool_decide; naive_solver. Qed.

Section Believed.
Context (shortest : Z → text).

Lemma take_tally_spec worker payload :
  (∃ t, tally_widths t ∧ payload = encode_tally t ∧ credible worker (Counted t)
        ∧ take_tally worker payload = (None, tally_taken t worker))
  ∨ (∃ why, take_tally worker payload = (Some why, worker))
    ∧ ∀ t, tally_widths t → payload = encode_tally t → ¬ credible worker (Counted t).
Proof.
  unfold take_tally. destruct (decode_tally payload) as [t|e] eqn:E.
  - apply tally_codec in E as [Hw ->]. simpl. unfold no_less.
    assert (∀ t', tally_widths t' → encode_tally t = encode_tally t' → t' = t) as Hinj.
    { intros t' Hw' Et. assert (decode_tally (encode_tally t) = Value t') as Ed by (by apply tally_codec).
      rewrite (proj2 (tally_codec _ t) (conj Hw eq_refl)) in Ed. congruence. }
    destruct (tr_tally_seen worker); simpl; [|left; exists t; by split_and!].
    destruct (_ || _) eqn:Eb.
    + right. split; [by eexists|]. intros t' Hw' Et Hc. apply Hinj in Et as ->; [|done].
      destruct Hc as (? & ? & ?); [done|]. rewrite !orb_true_iff, !Z.ltb_lt in Eb. lia.
    + left. exists t. bool_facts. by split_and!.
  - right. split; [by eexists|]. intros t Hw ->. assert (decode_tally (encode_tally t) = Value t) by (by apply tally_codec). congruence.
Qed.

Lemma take_memory_spec worker payload :
  (∃ l, lock_stated l ∧ payload = encode_memory l ∧ take_memory worker payload = (None, lock_taken l worker))
  ∨ (∃ why, take_memory worker payload = (Some why, worker)) ∧ ∀ l, lock_stated l → payload ≠ encode_memory l.
Proof.
  unfold take_memory. destruct (decode_memory payload) as [l|e] eqn:E.
  - left. exists l. apply memory_codec in E as [? ?]. by split_and!.
  - right. split; [by eexists|]. intros l Hl ->. assert (decode_memory (encode_memory l) = Value l) by (by apply memory_codec). congruence.
Qed.

Lemma take_ack_spec worker payload :
  (∃ a, speakable (Acked a) ∧ payload = encode_ack a ∧ credible worker (Acked a)
        ∧ take_ack worker payload = (None, hear (Acked a) worker))
  ∨ (∃ why, take_ack worker payload = (Some why, worker))
    ∧ ∀ a, speakable (Acked a) → payload = encode_ack a → ¬ credible worker (Acked a).
Proof.
  assert (Hread : ∀ a, speakable (Acked a) → decode_ack (encode_ack a) = Value a)
    by (intros a (? & ? & ?); by apply control_ack_codec).
  unfold take_ack. destruct (decode_ack payload) as [a|e] eqn:E.
  - apply control_ack_codec in E as (Hs & Ht & Hv & ->). assert (speakable (Acked a)) as Ha by (by split_and!).
    assert (∀ a', speakable (Acked a') → encode_ack a = encode_ack a' → a' = a) as Hinj.
    { intros a' Ha' Ea. apply Hread in Ha'. rewrite <- Ea, (Hread a Ha) in Ha'. congruence. }
    destruct (tr_unanswered worker) as [|next later] eqn:Eu.
    + right. split; [by eexists|]. intros a' Ha' Ea. apply Hinj in Ea as ->; [|done]. simpl. by rewrite Eu.
    + destruct (Z.eqb_spec (ack_sequence a) (un_sequence next)) as [Es|Es]; cbn [negb].
      * left. exists a. split_and!; try done; simpl; rewrite Eu; simpl; congruence.
      * right. split; [by eexists|]. intros a' Ha' Ea. apply Hinj in Ea as ->; [|done]. simpl. rewrite Eu. simpl. congruence.
  - right. split; [by eexists|]. intros a Ha ->. rewrite Hread in E by done. done.
Qed.

Lemma take_error_record_spec worker payload :
  (∃ f, speakable (Found f) ∧ payload = encode_record f ∧ credible worker (Found f)
        ∧ take_error_record shortest worker payload = (None, finding_taken f worker))
  ∨ (∃ why, take_error_record shortest worker payload = (Some why, worker))
    ∧ ∀ f, speakable (Found f) → payload = encode_record f → ¬ credible worker (Found f).
Proof.
  assert (Hread : ∀ f, speakable (Found f) → decode_record shortest (encode_record f) = Value f)
    by (intros f [? ?]; by apply record_codec).
  unfold take_error_record. simpl. destruct (plan_args (tr_plan worker)) as [args|] eqn:Ep.
  2: { right. split; [by eexists|]. by intros f _ _ [[? [=]] _]. }
  destruct (decode_record shortest payload) as [f|e] eqn:E.
  - apply record_codec in E as (Hw & Hv & ->). assert (speakable (Found f)) as Hf by (by split).
    destruct (stranger worker f) as [name|] eqn:Es.
    + right. split; [by eexists|]. intros f' Hf' Ef [_ Hc].
      assert (f' = f) as -> by (apply Hread in Hf'; rewrite <- Ef, (Hread f Hf) in Hf'; congruence).
      apply stranger_none in Hc. congruence.
    + left. exists f. split_and!; try done. by apply stranger_none.
  - right. split; [by eexists|]. intros f Hf ->. rewrite Hread in E by done. done.
Qed.

(** A record is believed exactly when it is only to be noted, or says something the worker
    may say; a record that is not changes nothing. *)
Lemma ingest_spec worker record :
  (only_noted record ∧ ∃ worker', ingest shortest worker record = (None, worker'))
  ∨ (∃ said, record = said_record said ∧ speakable said ∧ credible worker said
             ∧ ingest shortest worker record = (None, hear said worker))
  ∨ ((∃ why, ingest shortest worker record = (Some why, worker))
     ∧ ¬ only_noted record ∧ ∀ said, record = said_record said → speakable said → ¬ credible worker said).
Proof.
  destruct record as [type payload]. unfold ingest, only_noted. cbn [rec_type rec_payload].
  destruct (Z.eqb_spec type kErrorRecordFrameType) as [->|N1].
  { right. destruct (take_error_record_spec worker payload) as [(f & ? & -> & ? & ?)|[? Hno]].
    - left. by exists (Found f).
    - right. split_and!; [done|set_solver|]. intros [] [=] Hs; try done. by apply (Hno _ Hs). }
  destruct (Z.eqb_spec type kTallyFrameType) as [->|N2].
  { right. destruct (take_tally_spec worker payload) as [(t & ? & -> & ? & ?)|[? Hno]].
    - left. by exists (Counted t).
    - right. split_and!; [done|set_solver|]. intros [] [=] Hs; try done. by apply (Hno _ Hs). }
  destruct (Z.eqb_spec type kMemoryFrameType) as [->|N3].
  { right. destruct (take_memory_spec worker payload) as [(l & ? & -> & ?)|[? Hno]].
    - left. by exists (Locked l).
    - right. split_and!; [done|set_solver|]. intros [] [=] Hs; try done. by destruct (Hno _ Hs). }
  destruct (Z.eqb_spec type kControlAckFrameType) as [->|N4].
  { right. destruct (take_ack_spec worker payload) as [(a & ? & -> & ? & ?)|[? Hno]].
    - left. by exists (Acked a).
    - right. split_and!; [done|set_solver|]. intros [] [=] Hs; try done. by apply (Hno _ Hs). }
  left. split; [set_solver|]. by eexists.
Qed.
End Believed.

(** ** What happens to a worker's account

    A message written, one the schedule leaves out, a record drained. *)

Inductive Event := Ordered (what : Command) (now_ns : Z) | Skipped | Came (record : IpcRecord).

#[export] Instance only_noted_dec record : Decision (only_noted record).
Proof. unfold only_noted. apply _. Defined.

Section Follow.
Context (shortest : Z → text).

(** None is a record that ends the channel. *)
Definition event_step (worker : Tracked) (event : Event) : option Tracked :=
  match event with
  | Ordered what now => Some (order_sent what now worker)
  | Skipped => Some (order_dropped worker)
  | Came record => match ingest shortest worker record with (None, worker) => Some worker | _ => None end
  end.

Definition follow (worker : Tracked) (events : list Event) : option Tracked :=
  foldl (λ here event, here ≫= λ worker, event_step worker event) (Some worker) events.
End Follow.

Definition ordered (events : list Event) : list Command :=
  omap (λ event, match event with Ordered what _ => Some what | _ => None end) events.
Definition skipped (events : list Event) : Z := census (λ event, match event with Skipped => true | _ => false end) events.
Definition came (events : list Event) : list IpcRecord :=
  omap (λ event, match event with Came record => Some record | _ => None end) events.

Definition tallies (said : list Said) : list Tally :=
  omap (λ one, match one with Counted tally => Some tally | _ => None end) said.
Definition locks (said : list Said) : list MemoryLock :=
  omap (λ one, match one with Locked lock => Some lock | _ => None end) said.
Definition answers (said : list Said) : list ControlAck :=
  omap (λ one, match one with Acked ack => Some ack | _ => None end) said.

Definition refused_by (ack : ControlAck) : bool := ack_status ack =? kRefused.

(** The orders carried out: the answers belong to the orders, in order. *)
Definition heeded (orders : list Command) (acks : list ControlAck) : list Command :=
  omap (λ each : Command * ControlAck, if refused_by each.2 then None else Some each.1) (zip orders acks).

Definition paused_by (done : list Command) : bool :=
  foldl (λ paused what, match what with Pause => true | Resume => false | _ => paused end) false done.
Definition idle_by (done : list Command) : Z :=
  foldl (λ idle what, match what with SetDutyTo duty => idle_ns duty | _ => idle end) 0 done.
Definition switched_to (orders : list Command) : list text :=
  omap (λ what, match what with SwitchTo change => Some (switch_workload change) | _ => None end) orders.

Definition told_at_start (plan : WorkerPlan) : list text :=
  match plan_args plan with Some args => [wl_workload args] | None => [] end.

(** ** The accounts, and what keeps each *)

Record findings_kept (told : list text) (found : list ErrorRecord) (worker : Tracked) : Prop := {
  wrong_counted : tr_wrong_results worker = u64 (census is_wrong_result found);
  not_performed_counted : tr_not_performed worker = u64 (census (λ each, negb (is_wrong_result each)) found);
  findings_first : Isolation.record <$> tr_findings worker = take (Z.to_nat kMaxFindingsKept) found;
  findings_rest : tr_findings_dropped worker = u64 (Z.max 0 (size_of found - kMaxFindingsKept));
  findings_ours : Forall (λ each, ∀ name, prov_workload (provenance_of each) = Some name → name ∈ told) found;
}.

Record work_kept (tallies : list Tally) (locks : list MemoryLock) (worker : Tracked) : Prop := {
  tally_last : tr_tally worker = default no_tally (last tallies);
  tally_any : tr_tally_seen worker = bool_decide (tallies ≠ []);
  tallies_grow : ∀ i t t', tallies !! i = Some t → tallies !! S i = Some t' → no_less t t';
  lock_weakest : match tr_memory worker with
                 | None => locks = []
                 | Some kept => kept ∈ locks
                     ∧ Forall (λ lock, outcome_number (lock_outcome lock) ≤ outcome_number (lock_outcome kept)) locks
                 end;
}.

Record messages_kept (start : list text) (orders : list Command) (left_out : Z) (acks : list ControlAck)
    (worker : Tracked) : Prop := {
  fewer_acks : (length acks ≤ length orders)%nat;
  acks_in_order : ack_sequence <$> acks = u32 <$> seqZ 1 (size_of acks);
  owed_sequences : un_sequence <$> tr_unanswered worker = u32 <$> seqZ (1 + size_of acks) (size_of orders - size_of acks);
  owed_orders : un_command <$> tr_unanswered worker = drop (length acks) orders;
  sequence_next : tr_next_sequence worker = u32 (1 + size_of orders);
  orders_counted : cr_sent (tr_commands worker) = u64 (size_of orders);
  done_counted : cr_done (tr_commands worker) = u64 (census (λ ack, negb (refused_by ack)) acks);
  refused_counted : cr_refused (tr_commands worker) = u64 (census refused_by acks);
  dropped_counted : cr_dropped (tr_commands worker) = u64 left_out;
  told_all : tr_told worker = start ++ switched_to orders;
  paused_now : tr_paused worker = paused_by (heeded orders acks);
  idle_now : tr_idle_allowance_ns worker = idle_by (heeded orders acks);
}.

Lemma u64_succ n : u64 (u64 n + 1) = u64 (n + 1).
Proof. apply u64_add_l. Qed.
Lemma u32_succ n : u32 (u32 n + 1) = u32 (n + 1).
Proof. unfold u32. by rewrite Zplus_mod_idemp_l. Qed.

Lemma census_snoc {A} (f : A → bool) l x : census f (l ++ [x]) = census f l + one (f x).
Proof. rewrite (Permutation_app_comm l [x]). simpl. rewrite census_cons. lia. Qed.

Lemma size_snoc {A} (l : list A) x : size_of (l ++ [x]) = size_of l + 1.
Proof. unfold size_of. rewrite length_app. simpl. lia. Qed.

Lemma finding_kept told found each worker :
  findings_kept told found worker →
  (∀ name, prov_workload (provenance_of each) = Some name → name ∈ told) →
  findings_kept told (found ++ [each]) (finding_taken each worker).
Proof.
  intros [Hw Hn Hf Hr Ho] Htold. unfold finding_taken.
  set (counted := if is_wrong_result each then _ else _).
  assert (Hsame : tr_findings counted = tr_findings worker ∧ tr_findings_dropped counted = tr_findings_dropped worker)
    by (subst counted; by destruct (is_wrong_result each)).
  assert (Hlen : size_of (tr_findings worker) = Z.min kMaxFindingsKept (size_of found)).
  { apply (f_equal length) in Hf. rewrite length_fmap, length_take in Hf. unfold size_of, kMaxFindingsKept in *. lia. }
  destruct Hsame as [Hs1 Hs2]. unfold keep_finding. rewrite Hs1, Hlen.
  assert (Hcount : tr_wrong_results counted = u64 (census is_wrong_result (found ++ [each]))
    ∧ tr_not_performed counted = u64 (census (λ each, negb (is_wrong_result each)) (found ++ [each]))).
  { subst counted. rewrite !census_snoc. destruct (is_wrong_result each); simpl; rewrite ?Hw, ?Hn, ?u64_succ, ?Z.add_0_r; done. }
  destruct Hcount as [Hc1 Hc2].
  assert (Hours : Forall (λ each, ∀ name, prov_workload (provenance_of each) = Some name → name ∈ told) (found ++ [each]))
    by (apply Forall_app; split; [done|by apply Forall_singleton]).
  unfold size_of, kMaxFindingsKept in *.
  destruct (Z.ltb_spec (Z.min 256 (Z.of_nat (length found))) 256) as [Hl|Hl]; split; try done;
    cbn [tr_findings tr_findings_dropped set const]; unfold kMaxFindingsKept, size_of.
  - rewrite Hs1, fmap_app, Hf, !take_ge by (rewrite ?length_app; cbn [length]; lia). done.
  - rewrite Hs2, Hr. f_equal. rewrite length_app. cbn [length]. lia.
  - rewrite Hs1, Hf, take_app_le by lia. done.
  - rewrite Hs2, Hr, u64_succ. f_equal. rewrite length_app. cbn [length]. lia.
Qed.

Lemma tally_kept ts ls t worker :
  work_kept ts ls worker → (tr_tally_seen worker = true → no_less (tr_tally worker) t) →
  work_kept (ts ++ [t]) ls (tally_taken t worker).
Proof.
  intros [Ht Hs Hg Hl] Hc. split; simpl; [|rewrite bool_decide_true by (by destruct ts); done| |done].
  - by rewrite last_snoc.
  - intros i a b Ha Hb. destruct (decide (S i < length ts)%nat) as [Hi|Hi].
    + rewrite lookup_app_l in Ha, Hb by lia. by eapply Hg.
    + assert (S i = length ts) as Hi'.
      { apply lookup_lt_Some in Hb. rewrite length_app in Hb. simpl in Hb. lia. }
      rewrite lookup_app_l in Ha by lia. rewrite Hi', list_lookup_middle in Hb by done. injection Hb as <-.
      assert (last ts = Some a) as Hlast by (rewrite last_lookup, <- Hi'; done).
      rewrite Ht, Hlast in Hc. apply Hc. rewrite Hs, bool_decide_true; [done|]. by intros ->.
Qed.

Lemma lock_kept ts ls lock worker : work_kept ts ls worker → work_kept ts (ls ++ [lock]) (lock_taken lock worker).
Proof.
  intros [Ht Hs Hg Hl]. unfold lock_taken. destruct (tr_memory worker) as [kept|] eqn:Em.
  - destruct Hl as [Hin Hall]. destruct (Z.leb_spec (outcome_number (lock_outcome lock)) (outcome_number (lock_outcome kept))).
    + split; try done. rewrite Em. split; [set_solver|]. apply Forall_app. split; [done|by apply Forall_singleton].
    + split; try done. simpl. split; [set_solver|]. apply Forall_app. split; [|by apply Forall_singleton].
      eapply Forall_impl; [done|]. simpl. lia.
  - split; try done. simpl. subst ls. split; [set_solver|]. by apply Forall_singleton.
Qed.

Lemma zip_more {A B} (l : list A) (k : list B) x : (length k ≤ length l)%nat → zip (l ++ [x]) k = zip l k.
Proof.
  revert k. induction l as [|y l IH]; intros [|z k] H; simpl in *; try done; try lia.
  f_equal. apply IH. lia.
Qed.

Lemma zip_answer {A B} (l : list A) (k : list B) x y :
  l !! length k = Some x → zip l (k ++ [y]) = zip l k ++ [(x, y)].
Proof.
  revert k. induction l as [|z l IH]; intros [|w k] H; simpl in *; try done; [by injection H as ->; destruct l|].
  f_equal. by apply IH.
Qed.

Lemma seqZ_extend m n : 0 ≤ n → seqZ m (n + 1) = seqZ m n ++ [m + n].
Proof.
  intros Hn. replace (n + 1) with (Z.of_nat (S (Z.to_nat n))) by lia.
  by rewrite seqZ_S, Z2Nat.id.
Qed.

Lemma order_kept start orders left_out acks what now worker :
  messages_kept start orders left_out acks worker →
  messages_kept start (orders ++ [what]) left_out acks (order_sent what now worker).
Proof.
  intros [Hf Hs Hu Ho Hn Hc Hd Hr Hx Ht Hp Hi].
  assert (Hh : heeded (orders ++ [what]) acks = heeded orders acks) by (unfold heeded; by rewrite zip_more).
  assert (Hn' : u32 (tr_next_sequence worker + 1) = u32 (1 + size_of (orders ++ [what]))).
  { rewrite Hn, u32_succ, size_snoc. f_equal. lia. }
  assert (Hu' : un_sequence <$> (tr_unanswered worker ++
    [{| un_sequence := tr_next_sequence worker; un_command := what; un_sent_ns := now |}])
    = u32 <$> seqZ (1 + size_of acks) (size_of (orders ++ [what]) - size_of acks)).
  { rewrite fmap_app, Hu, size_snoc. replace (size_of orders + 1 - size_of acks) with (size_of orders - size_of acks + 1) by lia.
    rewrite seqZ_extend by (unfold size_of; lia). rewrite fmap_app. simpl. rewrite Hn. do 3 f_equal. lia. }
  assert (Ho' : un_command <$> (tr_unanswered worker ++
    [{| un_sequence := tr_next_sequence worker; un_command := what; un_sent_ns := now |}])
    = drop (length acks) (orders ++ [what])) by (rewrite fmap_app, Ho, drop_app_le by done; done).
  assert (Hsw : start ++ switched_to (orders ++ [what])
    = tr_told worker ++ match what with SwitchTo change => [switch_workload change] | _ => [] end).
  { unfold switched_to. rewrite omap_app, (assoc_L (++)), Ht. f_equal. by destruct what. }
  assert (Hl : (length acks ≤ length (orders ++ [what]))%nat) by (rewrite length_app; lia).
  assert (Hc' : u64 (cr_sent (tr_commands worker) + 1) = u64 (size_of (orders ++ [what])))
    by (rewrite Hc, u64_succ, size_snoc; done).
  destruct what; split; simpl; rewrite ?Hh, ?app_nil_r in *; done.
Qed.

Lemma skip_kept start orders left_out acks worker :
  messages_kept start orders left_out acks worker →
  messages_kept start orders (left_out + 1) acks (order_dropped worker).
Proof. intros []. split; simpl; try done. by rewrite dropped_counted0, u64_succ. Qed.

Lemma ack_kept start orders left_out acks ack worker :
  messages_kept start orders left_out acks worker →
  head (un_sequence <$> tr_unanswered worker) = Some (ack_sequence ack) →
  messages_kept start orders left_out (acks ++ [ack]) (hear (Acked ack) worker).
Proof.
  intros [Hf Hs Hu Ho Hn Hc Hd Hr Hx Ht Hp Hi] Hhead. simpl.
  destruct (tr_unanswered worker) as [|next later] eqn:Eu; [done|]. simpl in Hhead. injection Hhead as Hhead.
  assert (Hnext : orders !! length acks = Some (un_command next)).
  { rewrite <- (Nat.add_0_r (length acks)), <- lookup_drop, <- Ho. done. }
  pose proof (lookup_lt_Some _ _ _ Hnext) as Hlt.
  assert (Hsize : size_of orders - size_of acks = Z.succ (size_of orders - size_of (acks ++ [ack])))
    by (rewrite size_snoc; lia).
  rewrite Hsize, seqZ_cons in Hu by (rewrite size_snoc; unfold size_of; lia).
  rewrite !fmap_cons in Hu. injection Hu as Hseq Hu.
  assert (Hh : heeded orders (acks ++ [ack]) = heeded orders acks ++ if refused_by ack then [] else [un_command next]).
  { unfold heeded. rewrite (zip_answer _ _ _ _ Hnext), omap_app. simpl. by destruct (refused_by ack). }
  assert (Hl : (length (acks ++ [ack]) ≤ length orders)%nat) by (rewrite length_app; simpl; lia).
  assert (Hs' : ack_sequence <$> (acks ++ [ack]) = u32 <$> seqZ 1 (size_of (acks ++ [ack]))).
  { rewrite size_snoc, fmap_app, Hs, seqZ_extend, fmap_app by (unfold size_of; lia). simpl.
    by rewrite <- Hhead, Hseq. }
  assert (Hu' : un_sequence <$> later = u32 <$> seqZ (1 + size_of (acks ++ [ack])) (size_of orders - size_of (acks ++ [ack]))).
  { rewrite Hu. do 2 f_equal; rewrite size_snoc; lia. }
  assert (Ho' : un_command <$> later = drop (length (acks ++ [ack])) orders).
  { rewrite length_app. cbn [length]. rewrite <- drop_drop, <- Ho. done. }
  unfold ack_taken. fold (refused_by ack).
  destruct (refused_by ack) eqn:Er; [|destruct (un_command next)]; split; simpl; try done;
    rewrite ?census_snoc, ?Er, ?Hh, ?app_nil_r, ?Hd, ?Hr, ?u64_succ, ?Z.add_0_r; simpl; try done;
    unfold paused_by, idle_by in *; rewrite ?foldl_app; done.
Qed.

(** ** The whole account *)

(** The account [worker] is of [events], in which the worker said [said]. *)
Record accounted (plan : WorkerPlan) (events : list Event) (said : list Said) (worker : Tracked) : Prop := {
  said_came : filter (λ record, ¬ only_noted record) (came events) = said_record <$> said;
  said_sound : Forall speakable said;
  said_findings : findings_kept (tr_told worker) (VerifiedRunFacts.found said) worker;
  said_work : work_kept (tallies said) (locks said) worker;
  said_messages : messages_kept (told_at_start plan) (ordered events) (skipped events) (answers said) worker;
}.

Lemma found_snoc said one :
  VerifiedRunFacts.found (said ++ [one]) = VerifiedRunFacts.found said ++ match one with Found each => [each] | _ => [] end.
Proof. rewrite found_app. f_equal. by destruct one. Qed.
Lemma tallies_snoc said one :
  tallies (said ++ [one]) = tallies said ++ match one with Counted each => [each] | _ => [] end.
Proof. unfold tallies. rewrite omap_app. f_equal. by destruct one. Qed.
Lemma locks_snoc said one : locks (said ++ [one]) = locks said ++ match one with Locked each => [each] | _ => [] end.
Proof. unfold locks. rewrite omap_app. f_equal. by destruct one. Qed.
Lemma answers_snoc said one :
  answers (said ++ [one]) = answers said ++ match one with Acked each => [each] | _ => [] end.
Proof. unfold answers. rewrite omap_app. f_equal. by destruct one. Qed.

Lemma findings_told told told' found worker :
  told ⊆ told' → findings_kept told found worker → findings_kept told' found worker.
Proof. intros Hsub []. split; try done. eapply Forall_impl; [done|]. simpl. naive_solver. Qed.

(** What one thing said changes of the account. *)
Lemma hear_kept plan events said one worker :
  accounted plan events said worker → speakable one → credible worker one →
  accounted plan (events ++ [Came (said_record one)]) (said ++ [one]) (hear one worker).
Proof.
  intros [Hc Hs Hf Hw Hm] Hone Hcred.
  assert (Hcame : filter (λ record, ¬ only_noted record) (came (events ++ [Came (said_record one)])) = said_record <$> (said ++ [one])).
  { unfold came in *. rewrite omap_app, filter_app, Hc, fmap_app. f_equal. cbn. rewrite decide_True; [done|].
    unfold only_noted. destruct one; cbn; set_solver. }
  assert (Hsaid : Forall speakable (said ++ [one])) by (apply Forall_app; split; [done|by apply Forall_singleton]).
  assert (Hord : ordered (events ++ [Came (said_record one)]) = ordered events)
    by (unfold ordered; rewrite omap_app; cbn; by rewrite app_nil_r).
  assert (Hskip : skipped (events ++ [Came (said_record one)]) = skipped events)
    by (unfold skipped; rewrite census_snoc; cbn; lia).
  split; try done; rewrite ?found_snoc, ?tallies_snoc, ?locks_snoc, ?answers_snoc, ?Hord, ?Hskip.
  - destruct one as [each|t|l|a]; rewrite ?app_nil_r.
    + replace (tr_told (hear (Found each) worker)) with (tr_told worker).
      { apply finding_kept; [done|apply Hcred]. }
      simpl. unfold finding_taken, keep_finding. destruct (is_wrong_result each); cbn; by destruct (_ <? _).
    + by destruct Hf.
    + simpl. unfold lock_taken. destruct (tr_memory worker); [destruct (_ <=? _)|]; by destruct Hf.
    + simpl. destruct (tr_unanswered worker) as [|next later]; [done|].
      unfold ack_taken. destruct (_ =? _); [|destruct (un_command next)]; by destruct Hf.
  - destruct one as [each|t|l|a]; rewrite ?app_nil_r.
    + simpl. unfold finding_taken, keep_finding. destruct (is_wrong_result each), (_ <? _); by destruct Hw.
    + by apply tally_kept.
    + by apply lock_kept.
    + simpl. destruct (tr_unanswered worker) as [|next later]; [done|].
      unfold ack_taken. destruct (_ =? _); [|destruct (un_command next)]; by destruct Hw.
  - destruct one as [each|t|l|a]; rewrite ?app_nil_r.
    + simpl. unfold finding_taken, keep_finding. destruct (is_wrong_result each), (_ <? _); by destruct Hm.
    + by destruct Hm.
    + simpl. unfold lock_taken. destruct (tr_memory worker); [destruct (_ <=? _)|]; by destruct Hm.
    + by apply ack_kept.
Qed.

Lemma order_accounted plan events said what now worker :
  accounted plan events said worker →
  accounted plan (events ++ [Ordered what now]) said (order_sent what now worker).
Proof.
  intros [Hc Hs Hf Hw Hm].
  assert (Hcame : came (events ++ [Ordered what now]) = came events)
    by (unfold came; rewrite omap_app; cbn; by rewrite app_nil_r).
  assert (Hord : ordered (events ++ [Ordered what now]) = ordered events ++ [what])
    by (unfold ordered; by rewrite omap_app).
  assert (Hskip : skipped (events ++ [Ordered what now]) = skipped events)
    by (unfold skipped; rewrite census_snoc; cbn; lia).
  assert (Htold : tr_told worker ⊆ tr_told (order_sent what now worker)).
  { destruct what; try done. simpl. set_solver. }
  split; rewrite ?Hcame, ?Hord, ?Hskip; try done.
  - apply (findings_told _ _ _ _ Htold). by destruct what, Hf.
  - by destruct what, Hw.
  - by apply order_kept.
Qed.

Lemma skip_accounted plan events said worker :
  accounted plan events said worker → accounted plan (events ++ [Skipped]) said (order_dropped worker).
Proof.
  intros [Hc Hs Hf Hw Hm].
  assert (Hcame : came (events ++ [Skipped]) = came events) by (unfold came; rewrite omap_app; cbn; by rewrite app_nil_r).
  assert (Hord : ordered (events ++ [Skipped]) = ordered events)
    by (unfold ordered; rewrite omap_app; cbn; by rewrite app_nil_r).
  assert (Hskip : skipped (events ++ [Skipped]) = skipped events + 1) by (unfold skipped; by rewrite census_snoc).
  split; rewrite ?Hcame, ?Hord, ?Hskip; try done; [by destruct Hf|by destruct Hw|by apply skip_kept].
Qed.

(** What the account is of is all it depends on. *)
Record same_account (worker worker' : Tracked) : Prop := {
  same_findings : ∀ told found, findings_kept told found worker → findings_kept told found worker';
  same_work : ∀ ts ls, work_kept ts ls worker → work_kept ts ls worker';
  same_messages : ∀ start orders left_out acks,
    messages_kept start orders left_out acks worker → messages_kept start orders left_out acks worker';
  same_told : tr_told worker' = tr_told worker;
}.

Lemma same_accounted plan events said worker worker' :
  same_account worker worker' → accounted plan events said worker → accounted plan events said worker'.
Proof.
  intros [Hf Hw Hm Ht] []. split; [done..| | |]; [rewrite Ht; by apply Hf|by apply Hw|by apply Hm].
Qed.

(** Closes [same_account] of a worker of which only other members are set. *)
Ltac same_account := split; [intros ?? []; by split|intros ?? []; by split|intros ???? []; by split|done].

Lemma note_accounted plan events said record worker worker' shortest :
  accounted plan events said worker → only_noted record → ingest shortest worker record = (None, worker') →
  accounted plan (events ++ [Came record]) said worker'.
Proof.
  intros Ha Hn Hi.
  assert (Hcame : filter (λ record, ¬ only_noted record) (came (events ++ [Came record])) = filter (λ record, ¬ only_noted record) (came events)).
  { unfold came. rewrite omap_app, filter_app. cbn. rewrite decide_False by (by intros ?). by rewrite app_nil_r. }
  assert (Hord : ordered (events ++ [Came record]) = ordered events)
    by (unfold ordered; rewrite omap_app; cbn; by rewrite app_nil_r).
  assert (Hskip : skipped (events ++ [Came record]) = skipped events) by (unfold skipped; rewrite census_snoc; cbn; lia).
  assert (Hsame : same_account worker worker').
  { unfold only_noted in Hn. rewrite !not_elem_of_cons in Hn. destruct Hn as (N1 & N2 & N3 & N4 & _).
    unfold ingest in Hi. rewrite (proj2 (Z.eqb_neq _ _) N1), (proj2 (Z.eqb_neq _ _) N2), (proj2 (Z.eqb_neq _ _) N3),
      (proj2 (Z.eqb_neq _ _) N4) in Hi. destruct (rec_type record =? _) in Hi; injection Hi as <-; same_account. }
  apply (same_accounted _ _ _ _ _ Hsame). destruct Ha. split; rewrite ?Hcame, ?Hord, ?Hskip; done.
Qed.

Lemma fresh_accounted slot plan : accounted plan [] [] (tracked slot plan).
Proof. split; [done|constructor|split; try done; constructor|by split|split; simpl; try done; by rewrite app_nil_r]. Qed.

Lemma follow_accounted shortest slot plan events worker :
  follow shortest (tracked slot plan) events = Some worker → ∃ said, accounted plan events said worker.
Proof.
  revert worker. induction events as [|event events IH] using rev_ind; intros worker.
  { intros [= <-]. exists []. apply fresh_accounted. }
  unfold follow in *. rewrite foldl_app. cbn [foldl].
  destruct (foldl _ _ events) as [here|]; [|done]. cbn [mbind option_bind].
  destruct (IH here eq_refl) as [said Ha]. destruct event as [what now| |record]; cbn [event_step].
  - intros [= <-]. exists said. by apply order_accounted.
  - intros [= <-]. exists said. by apply skip_accounted.
  - destruct (ingest_spec shortest here record) as [(Hn & w & E)|[(one & -> & Hs & Hc & E)|((why & E) & _)]];
      rewrite E; intros [= <-].
    + exists said. by eapply note_accounted.
    + exists (said ++ [one]). by apply hear_kept.
Qed.

(** ** A worker that tells the truth *)

(** Tallies that only grow, from [last] on. *)
Fixpoint growing (last : option Tally) (tallies : list Tally) : Prop :=
  match tallies with
  | [] => True
  | tally :: tallies => from_option (λ before, no_less before tally) True last ∧ growing (Some tally) tallies
  end.

(** All it says is of workloads it was told to run, its tallies grow, and it answers the
    messages it has not answered, in order. *)
Record honest (worker : Tracked) (said : list Said) : Prop := {
  honest_found : Forall (λ each, is_Some (plan_args (tr_plan worker))
    ∧ ∀ name, prov_workload (provenance_of each) = Some name → name ∈ tr_told worker) (VerifiedRunFacts.found said);
  honest_tallies : growing (if tr_tally_seen worker then Some (tr_tally worker) else None) (tallies said);
  honest_answers : acked said `prefix_of` (un_sequence <$> tr_unanswered worker);
}.

Lemma hear_told one worker : tr_told (hear one worker) = tr_told worker ∧ tr_plan (hear one worker) = tr_plan worker.
Proof.
  destruct one as [each|t|l|a]; simpl; [|done|..].
  - unfold finding_taken, keep_finding. destruct (is_wrong_result each); by destruct (_ <? _).
  - unfold lock_taken. destruct (tr_memory worker); [|done]. by destruct (_ <=? _).
  - destruct (tr_unanswered worker) as [|next later]; [done|]. unfold ack_taken.
    destruct (_ =? _); [done|]. by destruct (un_command next).
Qed.

Lemma honest_next worker one said :
  honest worker (one :: said) → credible worker one ∧ honest (hear one worker) said.
Proof.
  intros [Hf Ht Ha]. destruct (hear_told one worker) as [Etold Eplan].
  assert (Hseen : match one with Counted _ => True | _ =>
    tr_tally_seen (hear one worker) = tr_tally_seen worker ∧ tr_tally (hear one worker) = tr_tally worker end).
  { destruct one as [each|t|l|a]; simpl; [|done|..].
    - unfold finding_taken, keep_finding. destruct (is_wrong_result each); by destruct (_ <? _).
    - unfold lock_taken. destruct (tr_memory worker); [|done]. by destruct (_ <=? _).
    - destruct (tr_unanswered worker) as [|next later]; [done|]. unfold ack_taken.
      destruct (_ =? _); [done|]. by destruct (un_command next). }
  assert (Howed : match one with Acked _ => True | _ => tr_unanswered (hear one worker) = tr_unanswered worker end).
  { destruct one as [each|t|l|a]; simpl; [|done|..|done].
    - unfold finding_taken, keep_finding. destruct (is_wrong_result each); by destruct (_ <? _).
    - unfold lock_taken. destruct (tr_memory worker); [|done]. by destruct (_ <=? _). }
  split.
  - destruct one as [each|t|l|a]; simpl in *; [by inversion Hf| |done|].
    + intros Es. rewrite Es in Ht. apply Ht.
    + destruct Ha as [more Ha]. by rewrite Ha.
  - destruct one as [each|t|l|a]; split; rewrite ?Etold, ?Eplan, ?Howed; try (destruct Hseen as [-> ->]); try done.
    + by inversion Hf.
    + by destruct Ht.
    + simpl in *. destruct (tr_unanswered worker) as [|next later]; [by apply prefix_nil_not in Ha|].
      apply prefix_cons_inv_2 in Ha. unfold ack_taken. destruct (_ =? _); [done|]. by destruct (un_command next).
Qed.

Section Truth.
Context {K : Type} (fd : Z) `{ChannelLaws K fd} (shortest : Z → text).

Lemma ingest_all_app worker records more :
  (ingest_all shortest worker records).1 = None →
  ingest_all shortest worker (records ++ more) = ingest_all shortest (ingest_all shortest worker records).2 more.
Proof.
  revert worker. induction records as [|record records IH]; intros worker; [done|]. cbn [ingest_all app].
  destruct (ingest shortest worker record) as [[why|] w]; [done|]. apply IH.
Qed.

Lemma ingest_honest worker said :
  Forall speakable said → honest worker said →
  ingest_all shortest worker (said_record <$> said) = (None, foldl (λ w one, hear one w) worker said).
Proof.
  intros Hs. revert worker. induction Hs as [|one said Hone _ IH]; intros worker Hh; [done|].
  apply honest_next in Hh as [Hc Hh]. rewrite fmap_cons. cbn [ingest_all foldl].
  destruct (ingest_spec shortest worker (said_record one)) as [(Hn & _)|[(one' & E & Hs' & _ & Ei)|(_ & _ & Hno)]].
  - exfalso. revert Hn. unfold only_noted. destruct one; cbn; set_solver.
  - assert (one' = one) as ->.
    { destruct one as [f|t|l|a], one' as [f'|t'|l'|a']; try done;
        apply (f_equal rec_payload) in E; cbn [said_record rec_payload] in E; f_equal.
      - destruct Hone, Hs'. pose proof (proj2 (record_codec shortest f (encode_record f)) ltac:(by split_and!)) as E1.
        pose proof (proj2 (record_codec shortest f' (encode_record f')) ltac:(by split_and!)) as E2. rewrite E in E1. congruence.
      - pose proof (proj2 (tally_codec (encode_tally t) t) ltac:(by split_and!)) as E1.
        pose proof (proj2 (tally_codec (encode_tally t') t') ltac:(by split_and!)) as E2. rewrite E in E1. congruence.
      - pose proof (proj2 (memory_codec (encode_memory l) l) ltac:(by split_and!)) as E1.
        pose proof (proj2 (memory_codec (encode_memory l') l') ltac:(by split_and!)) as E2. rewrite E in E1. congruence.
      - destruct Hone as (? & ? & ?), Hs' as (? & ? & ?).
        pose proof (proj2 (control_ack_codec (encode_ack a) a) ltac:(by split_and!)) as E1.
        pose proof (proj2 (control_ack_codec (encode_ack a') a') ltac:(by split_and!)) as E2. rewrite E in E1. congruence. }
    rewrite Ei. by apply IH.
  - by destruct (Hno one).
Qed.

Lemma honest_prefix worker said more : honest worker (said ++ more) → honest worker said.
Proof.
  intros [Hf Ht Ha]. rewrite found_app, Forall_app in Hf. split; [tauto| |].
  - unfold tallies in *. rewrite omap_app in Ht. revert Ht. generalize (omap (M:=list) (λ one, match one with Counted tally => Some tally | _ => None end) said).
    intros l. generalize (if tr_tally_seen worker then Some (tr_tally worker) else None).
    induction l as [|t l IH]; intros o; cbn; [done|]. intros [? ?]. split; [done|by apply IH].
  - etrans; [|exact Ha]. rewrite acked_app. by eexists.
Qed.

(** The records in the bytes taken so far, when they begin what was said. *)
Lemma drains_said n said s outs src s' :
  Forall (λ one, rec_ok (said_record one)) said → taken (fd:=fd) s = [] →
  taken (fd:=fd) s' `prefix_of` (said ≫= said_frame) →
  drains fd n {| source_reader := reading []; source_ended := false |} s = (outs, src, s') →
  outs ≫= records_in = said_record <$> whole_prefix said_frame (length (taken (fd:=fd) s')) said.
Proof.
  intros Hok Hnew [tail Htail] Hd. destruct (drains_complete fd n s outs src s' Hnew Hd) as (fault & r & Hr & _).
  assert (Hframes : said ≫= said_frame = (said_record <$> said) ≫= frame_of).
  { by rewrite list_fmap_bind. }
  assert (Hpre : taken (fd:=fd) s' = take (length (taken (fd:=fd) s')) (said ≫= said_frame))
    by (rewrite Htail; by rewrite take_app_length).
  rewrite Hpre, Hframes, reads_all_stream in Hr by (by rewrite Forall_fmap). injection Hr as <- _ _.
  by rewrite (whole_prefix_fmap said_record frame_of).
Qed.
End Truth.

(** ** Theorems *)

Definition lz4_args : WorkloadArgs :=
  {| wl_workload := lit "lz4"; wl_seed := 7; wl_footprint_bytes := 65536; wl_threads := 1; wl_decomposition := 1;
     wl_isa := kScalar; wl_lock := kTry; wl_duty := {| oracle_period := 16; integrity_period := 0 |};
     wl_line_bytes := 64; wl_physical_package := None; wl_physical_core := None; wl_numa_node := None |}.

Definition lz4_plan : WorkerPlan :=
  {| plan_args := Some lz4_args; plan_threads := 1; plan_cpus := [5]; plan_description := []; plan_work := None |}.

(** Two orders written, one left out, both answered, and a wrong result between two tallies. *)
Definition counted_to (units : Z) : Tally := no_tally <| units_computed := units |> <| oracle_blocks := units |>.

Definition lz4_said : list Said :=
  [ Locked {| lock_policy := kTry; lock_outcome := kNotLocked; lock_detail := [] |}; Counted (counted_to 16);
    Acked {| ack_sequence := 1; ack_status := kDone; ack_detail := [] |}; Found sample_record;
    Acked {| ack_sequence := 2; ack_status := kRefused; ack_detail := lit "no such cpu" |}; Counted (counted_to 32) ].

Definition lz4_events : list Event :=
  [Ordered Pause 10; Ordered (Rebind [900]) 11; Ordered Stop 12; Skipped] ++ (Came <$> (said_record <$> lz4_said))
  ++ [Came {| rec_type := 2; rec_payload := lit "done" |}].

Lemma counted_to_widths units : in_u64 units → tally_widths (counted_to units).
Proof. intros H. repeat constructor; try done; by destruct H. Qed.

Lemma lz4_said_ok : Forall (λ one, rec_ok (said_record one) ∧ speakable one) lz4_said.
Proof.
  repeat apply Forall_cons_2; try apply Forall_nil_2.
  all: (split; [split; [split; by vm_compute|by vm_compute]|]).
  - split; [by vm_compute|by left].
  - by apply counted_to_widths.
  - split_and!; by vm_compute.
  - pose proof (proj1 (record_codec (λ _, []) sample_record (encode_record sample_record)) sample_record_read). unpack. by split.
  - split_and!; by vm_compute.
  - by apply counted_to_widths.
Qed.

(** C9: The controller believes a record of a worker exactly when it is of a kind it only takes
    a note of, or is the encoding of something the worker may say: a record of an error it is
    able to make, about a workload it was told to run; a tally that has not gone backwards; a
    statement of what became of its memory; or the answer to the oldest message it has not
    answered. Every other record ends the channel. *)
Theorem record_believed shortest worker record :
  (ingest shortest worker record).1 = None ↔
  only_noted record ∨ ∃ said, record = said_record said ∧ speakable said ∧ credible worker said.
Proof.
  destruct (ingest_spec shortest worker record) as [(Hn & w & E)|[(one & -> & Hs & Hc & E)|((why & E) & Hn & Hno)]];
    rewrite E; split; try done; [by left|by right; exists one|].
  intros [?|(one & -> & Hs & Hc)]; [done|by destruct (Hno one)].
Qed.

Lemma owed_counted orders asked :
  un_command <$> asked = orders →
  size_of (filter (λ each, is_stop_order (un_command each) = false) asked) = census (λ what, negb (is_stop_order what)) orders.
Proof.
  intros <-. induction asked as [|each asked IH]; [done|]. rewrite filter_cons, fmap_cons, census_cons, <- IH.
  unfold size_of, one. destruct (is_stop_order (un_command each)); case_decide; try congruence; cbn [negb length]; lia.
Qed.

(** C7: Whatever is written to a worker, left out, and drained from its channel, in whatever
    order, the report counts exactly what was said and ordered: each wrong result and each
    check not made, with the first of them kept in order and the rest counted; the last tally,
    which no earlier one exceeds; the weakest lock. Every message written is answered done,
    answered refused or still owed an answer, and the answers are to the messages in the order
    they were written, from the first; what is unacknowledged is what was written after the
    last one answered, the stops aside. *)
Theorem report_accounts shortest slot plan events worker scheduled :
  follow shortest (tracked slot plan) events = Some worker →
  let report := worker_report scheduled worker in
  ∃ said,
    filter (λ record, ¬ only_noted record) (came events) = said_record <$> said ∧ Forall speakable said
    ∧ rp_wrong_results report = u64 (census is_wrong_result (VerifiedRunFacts.found said))
    ∧ rp_not_performed report = u64 (census (λ each, negb (is_wrong_result each)) (VerifiedRunFacts.found said))
    ∧ Isolation.record <$> rp_findings report = take (Z.to_nat kMaxFindingsKept) (VerifiedRunFacts.found said)
    ∧ rp_findings_dropped report = u64 (Z.max 0 (size_of (VerifiedRunFacts.found said) - kMaxFindingsKept))
    ∧ rp_tally report = default no_tally (last (tallies said))
    ∧ (∀ i t t', tallies said !! i = Some t → tallies said !! S i = Some t' → no_less t t')
    ∧ Forall (λ lock, from_option (λ kept, outcome_number (lock_outcome lock) ≤ outcome_number (lock_outcome kept)) False
                        (rp_memory report)) (locks said)
    ∧ (length (answers said) ≤ length (ordered events))%nat
    ∧ acked said = u32 <$> seqZ 1 (size_of (answers said))
    ∧ let commands := rp_commands report in
      cr_sent commands = u64 (size_of (ordered events)) ∧ cr_dropped commands = u64 (skipped events)
      ∧ cr_done commands = u64 (census (λ ack, negb (refused_by ack)) (answers said))
      ∧ cr_refused commands = u64 (census refused_by (answers said))
      ∧ cr_unacknowledged commands
        = census (λ what, negb (is_stop_order what)) (drop (length (answers said)) (ordered events)).
Proof.
  intros (said & [Hc Hs [Hf1 Hf2 Hf3 Hf4 _] [Hw1 _ Hw3 Hw4] Hm])%follow_accounted report. exists said.
  destruct Hm as [Hm1 Hm2 Hm3 Hm4 Hm5 Hm6 Hm7 Hm8 Hm9 _ _ _]. split_and!; try done.
  - simpl. destruct (tr_memory worker); [by destruct Hw4|by rewrite Hw4].
  - rewrite <- Hm2. unfold acked, answers. clear. induction said as [|[] said IH]; cbn; [done..|]. by f_equal.
  - cbv zeta. split_and!; try done. by apply owed_counted.
Qed.

Lemma report_accounts_witness :
  ∃ worker said, follow (λ _, []) (tracked 0 lz4_plan) lz4_events = Some worker
    ∧ filter (λ record, ¬ only_noted record) (came lz4_events) = said_record <$> said
    ∧ rp_wrong_results (worker_report true worker) = u64 (census is_wrong_result (VerifiedRunFacts.found said))
    ∧ rp_wrong_results (worker_report true worker) = 1 ∧ cr_refused (rp_commands (worker_report true worker)) = 1
    ∧ cr_sent (rp_commands (worker_report true worker)) = 3 ∧ cr_unacknowledged (rp_commands (worker_report true worker)) = 0.
Proof.
  destruct (follow (λ _, []) (tracked 0 lz4_plan) lz4_events) as [worker|] eqn:E; [|vm_compute in E; discriminate].
  destruct (report_accounts (λ _, []) 0 lz4_plan lz4_events worker true E) as (said & Hsaid & _ & Hwrong & _).
  exists worker, said. split; [reflexivity|]. split; [exact Hsaid|]. split; [exact Hwrong|].
  vm_compute in E. injection E as <-. split; [reflexivity|]. split; [reflexivity|]. split; reflexivity.
Defined.

(** C8: A worker that tells the truth is believed: when what the controller has read begins
    the frames of what it said, however the pipe cut and interrupted them, every record the
    drains hand over is taken in, none is refused, and the worker's account is that of
    everything said whose frame has come whole. *)
Theorem truth_believed {K} (fd : Z) `{ChannelLaws K fd} shortest worker said n s outs src s' :
  Forall (λ one, rec_ok (said_record one) ∧ speakable one) said → honest worker said →
  taken (fd:=fd) s = [] → taken (fd:=fd) s' `prefix_of` (said ≫= said_frame) →
  drains fd n {| source_reader := reading []; source_ended := false |} s = (outs, src, s') →
  ingest_all shortest worker (outs ≫= records_in)
  = (None, foldl (λ w one, hear one w) worker (whole_prefix said_frame (length (taken (fd:=fd) s')) said)).
Proof.
  intros Hok Hh Hnew Hpre Hd. rewrite (drains_said fd n said s outs src s'); [|by eapply Forall_impl; [done|naive_solver]|done..].
  destruct (whole_prefix_prefix said_frame (length (taken (fd:=fd) s')) said) as [more Hmore].
  apply ingest_honest.
  - rewrite Hmore, Forall_app in Hok. destruct Hok as [Hok _]. eapply Forall_impl; [done|naive_solver].
  - rewrite Hmore in Hh at 1. by eapply honest_prefix.
Qed.

Definition asked_of (orders : list Command) (worker : Tracked) : Tracked :=
  foldl (λ w what, order_sent what 10 w) worker orders.

Lemma truth_believed_witness :
  let worker := asked_of [Pause; Rebind [900]] (tracked 0 lz4_plan) in
  let p := {| pipe_in := []; pipe_out := lz4_said ≫= said_frame; pipe_taken := []; pipe_chunk := 50; pipe_tired := true |} in
  let drained := drains 5 20 {| source_reader := reading []; source_ended := false |} p in
  ∃ worker', ingest_all (λ _, []) worker (drained.1.1 ≫= records_in) = (None, worker')
    ∧ tr_wrong_results worker' = 1 ∧ tr_unanswered worker' = [] ∧ units_computed (tr_tally worker') = 32.
Proof.
  cbv zeta. set (worker := asked_of _ _). set (p := {| pipe_in := []; pipe_out := _; pipe_taken := []; pipe_chunk := 50; pipe_tired := true |}).
  set (drained := drains 5 20 _ p).
  pose proof (truth_believed 5 (λ _, []) worker lz4_said 20 p drained.1.1 drained.1.2 drained.2 lz4_said_ok) as H.
  eexists. split; [apply H|].
  - split.
    + apply Forall_singleton. split; [by eexists|]. intros name [= <-]. by apply list_elem_of_singleton.
    + split; [done|]. split; [|done]. split_and!; by vm_compute.
    + vm_compute. by exists [].
  - reflexivity.
  - apply (bool_decide_unpack _). vm_compute. reflexivity.
  - vm_compute. reflexivity.
  - vm_compute. split; [reflexivity|]. split; reflexivity.
Defined.
