(* ===== verification/Timeline.v ===== *)
(** * telemetry/timeline: what was read, and when

    The vocabulary of telemetry (telemetry/sample.hpp), the timeline readings land on
    (telemetry/timeline.hpp) and the one that holds it in memory up to a capacity
    (telemetry/timeline/bounded_timeline). A double is its IEEE 754 bits. *)

From S2P Require Export CpuList.
From coqutil Require Export Datatypes.RecordSettersUsingExistingGetters.

(** ** sample.hpp *)

Inductive Unit_ :=
| kCelsius | kWatts | kJoules | kHertz | kRpm | kBytes_ | kRatio | kCount | kVolts | kMicrojoules.

#[export] Instance Unit_eq_dec : EqDecision Unit_.
Proof. solve_decision. Defined.

Definition describe_unit (unit : Unit_) : text :=
  match unit with
  | kCelsius => lit "celsius"
  | kWatts => lit "watts"
  | kJoules => lit "joules"
  | kHertz => lit "hertz"
  | kRpm => lit "rpm"
  | kBytes_ => lit "bytes"
  | kRatio => lit "ratio"
  | kCount => lit "count"
  | kVolts => lit "volts"
  | kMicrojoules => lit "microjoules"
  end.

Inductive MetricKind := kGauge | kCounter.

#[export] Instance MetricKind_eq_dec : EqDecision MetricKind.
Proof. solve_decision. Defined.

Inductive Scope := kMachine | kPackage | kCore | kCpu | kNumaNode | kMemoryController | kDimm | kDevice.

#[export] Instance Scope_eq_dec : EqDecision Scope.
Proof. solve_decision. Defined.

Definition describe_scope (scope : Scope) : text :=
  match scope with
  | kMachine => lit "machine"
  | kPackage => lit "package"
  | kCore => lit "core"
  | kCpu => lit "cpu"
  | kNumaNode => lit "node"
  | kMemoryController => lit "memory controller"
  | kDimm => lit "dimm"
  | kDevice => lit "device"
  end.

Record Metric := {
  metric_name : text;
  metric_unit : Unit_;
  metric_kind : MetricKind;
  metric_scope : Scope;
  metric_scope_index : Z;
  metric_modulus : option Z;
  metric_provider : text;
}.

Definition same_series (lhs rhs : Metric) : bool :=
  bool_decide (metric_name lhs = metric_name rhs) && bool_decide (metric_scope lhs = metric_scope rhs)
  && (metric_scope_index lhs =? metric_scope_index rhs).

Definition is_letter (c : byte) : bool := (97 <=? byte_val c) && (byte_val c <=? 122).
Definition is_digit_byte (c : byte) : bool := (48 <=? byte_val c) && (byte_val c <=? 57).

(** The loop of is_valid_metric_name; None is the early return. *)
Fixpoint metric_parts (name : text) (parts : Z) (at_start : bool) : option (Z * bool) :=
  match name with
  | [] => Some (parts, at_start)
  | c :: name =>
      if byte_val c =? 46 then (if at_start then None else metric_parts name parts true) else
      if at_start && negb (is_letter c) then None else
      if negb (is_letter c) && negb (is_digit_byte c) && negb (byte_val c =? 95) then None else
      metric_parts name (if at_start then parts + 1 else parts) false
  end.

Definition is_valid_metric_name (name : text) : bool :=
  match metric_parts name 0 true with
  | Some (parts, at_start) => (2 <=? parts) && negb at_start
  | None => false
  end.

(** telemetry's [Unavailable], which says what can be done about it. *)
Record Missing := {
  missing_kind : Availability;
  missing_path : text;
  missing_detail : text;
  missing_remediation : text;
}.

#[export] Instance Missing_eq_dec : EqDecision Missing.
Proof. solve_decision. Defined.

(** [std::variant<Unavailable, Gauge, Counter>]. *)
Inductive Reading := Gone (why : Missing) | GaugeRead (value : Z) | CounterRead (raw : Z).

Definition counter_delta (previous current : Z) (modulus : option Z) : Z :=
  match modulus with
  | None => u64 (current - previous)
  | Some modulus => if previous <=? current then u64 (current - previous) else u64 (modulus - previous + current)
  end.

Definition counter_advance (previous current : Z) (modulus : option Z) : option Z :=
  if bool_decide (modulus = None) && (current <? previous) then None
  else Some (counter_delta previous current modulus).

(** ** timeline.hpp *)

Record Point := { timestamp_ns : Z; reading : Reading }.
Record PhaseMark := { start_ns : Z; label : text }.

Inductive TimelineFault := kDuplicateSeries | kUnknownSeries | kOutOfOrder | kKindMismatch | kCapacity.

#[export] Instance TimelineFault_eq_dec : EqDecision TimelineFault.
Proof. solve_decision. Defined.

Definition describe_timeline_fault (fault : TimelineFault) : text :=
  match fault with
  | kDuplicateSeries => lit "duplicate series"
  | kUnknownSeries => lit "unknown series"
  | kOutOfOrder => lit "out of order"
  | kKindMismatch => lit "reading of the wrong kind"
  | kCapacity => lit "capacity reached"
  end.

Record TimelineError := { timeline_fault : TimelineFault; timeline_detail : text }.

(** ** bounded_timeline.hpp, bounded_timeline.cpp *)

Record Series := { series_metric : Metric; series_points : list Point }.

Record BoundedTimeline := {
  capacity_ : Z;
  size_ : Z;
  series_ : list Series;
  phases_ : list PhaseMark;
}.

Definition bounded_timeline (capacity : Z) : BoundedTimeline :=
  {| capacity_ := capacity; size_ := 0; series_ := []; phases_ := [] |}.

Definition refused_with {A} (fault : TimelineFault) (detail : text) : Result A TimelineError :=
  Error {| timeline_fault := fault; timeline_detail := detail |}.

Definition kind_matches (kind : MetricKind) (reading : Reading) : bool :=
  match reading with
  | GaugeRead _ => bool_decide (kind = kGauge)
  | CounterRead _ => bool_decide (kind = kCounter)
  | Gone _ => true
  end.

Definition kSizeMax : Z := 2 ^ 64 - 1.

Definition saturating_multiply (lhs rhs : Z) : Z := if kSizeMax <? lhs * rhs then kSizeMax else lhs * rhs.

Definition add_series (metric : Metric) (t : BoundedTimeline) : Result Z TimelineError * BoundedTimeline :=
  if existsb (λ existing, same_series (series_metric existing) metric) (series_ t)
  then (refused_with kDuplicateSeries (lit "a series named " ++ metric_name metric ++ lit " already exists"), t)
  else let t := t <| series_ ::= (λ all, all ++ [{| series_metric := metric; series_points := [] |}]) |> in
       (Value (u32 (size_of (series_ t) - 1)), t).

Definition later_than (mark before : Z) : text := int_to_dec mark ++ lit " is not later than " ++ int_to_dec before.

Definition append_point (series : Z) (point : Point) (t : BoundedTimeline) : Result unit TimelineError * BoundedTimeline :=
  match (if series <? 0 then None else series_ t !! Z.to_nat series) with
  | None => (refused_with kUnknownSeries (lit "no series " ++ to_dec series), t)
  | Some target =>
      if from_option (λ last, timestamp_ns point <=? timestamp_ns last) false (last (series_points target))
      then (refused_with kOutOfOrder (lit "timestamp " ++ later_than (timestamp_ns point)
             (from_option timestamp_ns 0 (last (series_points target)))), t)
      else if negb (kind_matches (metric_kind (series_metric target)) (reading point))
      then (refused_with kKindMismatch (lit "the reading does not suit " ++ metric_name (series_metric target)), t)
      else if capacity_ t <=? size_ t
      then (refused_with kCapacity (lit "the timeline holds " ++ to_dec (capacity_ t) ++ lit " points"), t)
      else (Value tt, t <| series_ ::= alter (λ s, s <| series_points ::= (λ points, points ++ [point]) |>) (Z.to_nat series) |>
                        <| size_ ::= (λ n, u64 (n + 1)) |>)
  end.

Definition mark_phase (mark : PhaseMark) (t : BoundedTimeline) : Result unit TimelineError * BoundedTimeline :=
  if from_option (λ last, start_ns mark <=? start_ns last) false (last (phases_ t))
  then (refused_with kOutOfOrder (lit "phase " ++ label mark ++ lit " starts at " ++ int_to_dec (start_ns mark)
          ++ lit ", not later than " ++ int_to_dec (from_option start_ns 0 (last (phases_ t)))), t)
  else (Value tt, t <| phases_ ::= (λ all, all ++ [mark]) |>).

(** The view: [metric(id)] and [points(id)] are defined for the series there are. *)
Definition series_count (t : BoundedTimeline) : Z := size_of (series_ t).
Definition metric_at (t : BoundedTimeline) (id : Z) : option Metric := series_metric <$> series_ t !! Z.to_nat id.
Definition points_at (t : BoundedTimeline) (id : Z) : option (list Point) := series_points <$> series_ t !! Z.to_nat id.

Definition run_capacity (seconds hertz series : Z) : Z := saturating_multiply (saturating_multiply seconds hertz) series.

(** [point_bytes] is [sizeof(Point)]. *)
Definition memory_bound_bytes (point_bytes capacity : Z) : Z :=
  saturating_multiply (saturating_multiply capacity point_bytes) 3.

(** ** Counters *)

(** A counter that advanced by less than its modulus between two readings is read to have
    advanced by exactly that, wrapped or not. *)
Lemma counter_delta_exact modulus before after :
  0 ≤ before ≤ after → 0 < modulus < 2 ^ 64 → after - before < modulus →
  counter_advance (before mod modulus) (after mod modulus) (Some modulus) = Some (after - before).
Proof.
  intros Hb Hm Hd. unfold counter_advance, counter_delta. rewrite bool_decide_false by done. cbn [andb]. f_equal.
  pose proof (Z.mod_pos_bound before modulus ltac:(lia)) as H1. pose proof (Z.mod_pos_bound after modulus ltac:(lia)) as H2.
  pose proof (Z.div_mod before modulus ltac:(lia)) as D1. pose proof (Z.div_mod after modulus ltac:(lia)) as D2.
  destruct (Z.leb_spec (before mod modulus) (after mod modulus)).
  - rewrite u64_small by (unfold in_u64; lia). assert (after / modulus = before / modulus) by nia. nia.
  - rewrite u64_small by (unfold in_u64; lia). assert (after / modulus = before / modulus + 1) by nia. nia.
Qed.

(** ** What the timeline holds *)

Inductive TimelineCall := CallAddSeries (metric : Metric) | CallAppendPoint (series : Z) (point : Point) | CallMarkPhase (mark : PhaseMark).

Definition timeline_call (c : TimelineCall) (t : BoundedTimeline) : bool * BoundedTimeline :=
  match c with
  | CallAddSeries metric => let (r, t) := add_series metric t in (has_value r, t)
  | CallAppendPoint series point => let (r, t) := append_point series point t in (has_value r, t)
  | CallMarkPhase mark => let (r, t) := mark_phase mark t in (has_value r, t)
  end.

(** The calls the timeline took, of all it was made. *)
Fixpoint taken_by (t : BoundedTimeline) (calls : list TimelineCall) : list TimelineCall * BoundedTimeline :=
  match calls with
  | [] => ([], t)
  | c :: calls =>
      let (accepted, t) := timeline_call c t in
      let (more, t) := taken_by t calls in
      (if accepted then c :: more else more, t)
  end.

Definition metrics_in (calls : list TimelineCall) : list Metric :=
  omap (λ c, match c with CallAddSeries metric => Some metric | _ => None end) calls.
Definition points_in (id : Z) (calls : list TimelineCall) : list Point :=
  omap (λ c, match c with CallAppendPoint series point => if series =? id then Some point else None | _ => None end) calls.
Definition marks_in (calls : list TimelineCall) : list PhaseMark :=
  omap (λ c, match c with CallMarkPhase mark => Some mark | _ => None end) calls.

Definition all_points (t : BoundedTimeline) : Z := foldr (λ s n, size_of (series_points s) + n) 0 (series_ t).

Definition later (a b : Point) : Prop := timestamp_ns a < timestamp_ns b.
Definition mark_later (a b : PhaseMark) : Prop := start_ns a < start_ns b.

Record series_ok (s : Series) : Prop := {
  points_later : StronglySorted later (series_points s);
  points_kind : Forall (λ p, kind_matches (metric_kind (series_metric s)) (reading p) = true) (series_points s);
}.

(** The timeline after [calls] were taken. *)
Record timeline_ok (calls : list TimelineCall) (t : BoundedTimeline) : Prop := {
  holds_metrics : series_metric <$> series_ t = metrics_in calls;
  holds_points : ∀ i s, series_ t !! i = Some s → series_points s = points_in (Z.of_nat i) calls;
  holds_marks : phases_ t = marks_in calls;
  series_apart : ∀ i j s s', series_ t !! i = Some s → series_ t !! j = Some s' →
    same_series (series_metric s) (series_metric s') = true → i = j;
  series_sound : Forall series_ok (series_ t);
  marks_later : StronglySorted mark_later (phases_ t);
  within_capacity : size_ t = all_points t ∧ all_points t ≤ capacity_ t;
  points_known : ∀ id, points_in id calls ≠ [] → 0 ≤ id < size_of (series_ t);
}.

Lemma last_sorted {A} (R : relation A) `{!Transitive R} (l : list A) x y :
  StronglySorted R l → last l = Some x → R x y → StronglySorted R (l ++ [y]).
Proof.
  intros Hs Hl Hr. induction Hs as [|z l Hs IH Hall]; [done|]. cbn [app]. constructor.
  - destruct l as [|w l]; [repeat constructor|]. apply IH. by rewrite <- Hl.
  - apply Forall_app. split; [done|]. apply Forall_singleton. destruct l as [|w l]; [cbn in Hl; by injection Hl as ->|].
    etrans; [|exact Hr]. eapply Forall_forall; [exact Hall|]. by apply last_Some_elem_of.
Qed.

#[export] Instance later_trans : Transitive later.
Proof. intros a b c. unfold later. lia. Qed.
#[export] Instance mark_later_trans : Transitive mark_later.
Proof. intros a b c. unfold mark_later. lia. Qed.

Lemma sorted_snoc {A} (R : relation A) `{!Transitive R} (l : list A) y :
  StronglySorted R l → from_option (λ x, R x y) True (last l) → StronglySorted R (l ++ [y]).
Proof.
  intros Hs Hl. destruct (last l) as [x|] eqn:E; [by eapply last_sorted|].
  apply last_None in E as ->. repeat constructor.
Qed.

Lemma omap_snoc {A B} (f : A → option B) l x : omap f (l ++ [x]) = omap f l ++ from_option (λ y, [y]) [] (f x).
Proof. rewrite omap_app. cbn. by destruct (f x). Qed.

Lemma all_points_app l k :
  foldr (λ s n, size_of (series_points s) + n) 0 (l ++ k)
  = foldr (λ s n, size_of (series_points s) + n) 0 l + foldr (λ s n, size_of (series_points s) + n) 0 k.
Proof. induction l as [|s l IH]; cbn; lia. Qed.

Lemma all_points_alter i s l f :
  l !! i = Some s →
  foldr (λ s n, size_of (series_points s) + n) 0 (alter f i l)
  = foldr (λ s n, size_of (series_points s) + n) 0 l - size_of (series_points s) + size_of (series_points (f s)).
Proof.
  revert i. induction l as [|x l IH]; intros [|i] H; try done; cbn in *.
  - injection H as ->. lia.
  - rewrite (IH i H). lia.
Qed.

Lemma all_points_nonneg t : 0 ≤ all_points t.
Proof. unfold all_points. induction (series_ t); cbn; unfold size_of in *; lia. Qed.

Lemma add_series_ok calls metric t :
  timeline_ok calls t →
  let '(r, t') := add_series metric t in
  capacity_ t' = capacity_ t
  ∧ timeline_ok (if has_value r then calls ++ [CallAddSeries metric] else calls) t'
  ∧ (has_value r = false → t' = t)
  ∧ (has_value r = true ↔ Forall (λ s, same_series (series_metric s) metric = false) (series_ t)).
Proof.
  intros [H1 H2 H3 H4 H5 H6 [H7 H7'] H8]. unfold add_series. destruct (existsb _ _) eqn:E.
  { split_and!; try done. split; [done|]. intros Hall. apply existsb_exists in E as (s & Hin & Hs).
    rewrite Forall_forall in Hall. rewrite (Hall s) in Hs; [done|by apply list_elem_of_In]. }
  assert (Hnew : Forall (λ s, same_series (series_metric s) metric = false) (series_ t)).
  { apply Forall_forall. intros s Hin. apply not_true_is_false. intros Hs.
    apply not_true_iff_false in E. apply E, existsb_exists. exists s. split; [by apply list_elem_of_In|done]. }
  split_and!; try done. split; cbn [series_ phases_ size_ capacity_ set const has_value]; try done.
  - rewrite fmap_app, H1. unfold metrics_in. by rewrite omap_snoc.
  - intros i s Hi. unfold points_in. rewrite omap_snoc. cbn. rewrite app_nil_r.
    apply lookup_app_Some in Hi as [Hi|[Hl Hi]]; [by apply H2|]. apply list_lookup_singleton_Some in Hi as [Hi <-].
    cbn. symmetry. apply dec_stable. intros Hne. apply H8 in Hne. unfold size_of in Hne. lia.
  - unfold marks_in. rewrite omap_snoc. cbn. by rewrite app_nil_r.
  - rewrite Forall_lookup in Hnew. intros i j s s' Hi Hj Hs.
    apply lookup_app_Some in Hi as [Hi|[Hil Hi]], Hj as [Hj|[Hjl Hj]].
    + by eapply H4.
    + apply list_lookup_singleton_Some in Hj as [_ <-]. cbn in Hs. by rewrite (Hnew i s Hi) in Hs.
    + apply list_lookup_singleton_Some in Hi as [_ <-]. exfalso. pose proof (Hnew j s' Hj) as Hn. revert Hn Hs.
      unfold same_series. cbn. rewrite !andb_true_iff, !bool_decide_eq_true, Z.eqb_eq. intros Hn [[E1 E2] E3].
      by rewrite E1, E2, E3, !bool_decide_true, Z.eqb_refl in Hn.
    + apply list_lookup_singleton_Some in Hi as [Hi _], Hj as [Hj _]. lia.
  - apply Forall_app. split; [done|]. apply Forall_singleton. split; constructor.
  - unfold all_points in *. cbn [series_ set const]. rewrite all_points_app. cbn [foldr series_points].
    change (size_of []) with 0. lia.
  - intros id Hid. unfold points_in in Hid. rewrite omap_snoc in Hid. cbn in Hid. rewrite app_nil_r in Hid.
    apply H8 in Hid. unfold size_of in *. rewrite length_app. cbn. lia.
Qed.

Lemma mark_phase_ok calls mark t :
  timeline_ok calls t →
  let '(r, t') := mark_phase mark t in
  capacity_ t' = capacity_ t
  ∧ timeline_ok (if has_value r then calls ++ [CallMarkPhase mark] else calls) t'
  ∧ (has_value r = false → t' = t)
  ∧ (has_value r = true ↔ from_option (λ last, mark_later last mark) True (last (phases_ t))).
Proof.
  intros [H1 H2 H3 H4 H5 H6 H7 H8]. unfold mark_phase, mark_later.
  destruct (from_option _ false _) eqn:E.
  { split_and!; try done. split; [done|]. destruct (last (phases_ t)); [|done]. cbn in *. bool_facts. lia. }
  assert (Hl : from_option (λ last, mark_later last mark) True (last (phases_ t))).
  { unfold mark_later. destruct (last (phases_ t)); [|done]. cbn in *. bool_facts. lia. }
  split_and!; try done. split; cbn [series_ phases_ size_ capacity_ set const has_value]; try done.
  - unfold metrics_in. rewrite omap_snoc. cbn. by rewrite app_nil_r.
  - intros i s Hi. unfold points_in. rewrite omap_snoc. cbn. rewrite app_nil_r. by apply H2.
  - unfold marks_in. rewrite omap_snoc, H3. done.
  - by apply sorted_snoc; [apply _|..].
  - intros id Hid. unfold points_in in Hid. rewrite omap_snoc in Hid. cbn in Hid. rewrite app_nil_r in Hid. by apply H8.
Qed.

Lemma alter_metric (f : list Point → list Point) (l : list Series) n i a :
  alter (λ s, s <| series_points ::= f |>) n l !! i = Some a →
  ∃ a', l !! i = Some a' ∧ series_metric a = series_metric a'.
Proof.
  intros H. destruct (decide (n = i)) as [->|Hne].
  - rewrite list_lookup_alter_eq in H. destruct (l !! i) as [a'|]; [|done]. injection H as <-. by exists a'.
  - rewrite list_lookup_alter_ne in H by done. by exists a.
Qed.

Lemma append_point_ok calls id point t :
  0 ≤ id → 0 ≤ capacity_ t < 2 ^ 64 → timeline_ok calls t →
  let '(r, t') := append_point id point t in
  capacity_ t' = capacity_ t
  ∧ timeline_ok (if has_value r then calls ++ [CallAppendPoint id point] else calls) t'
  ∧ (has_value r = false → t' = t)
  ∧ (has_value r = true ↔
       ∃ s, series_ t !! Z.to_nat id = Some s ∧ from_option (λ last, later last point) True (last (series_points s))
            ∧ kind_matches (metric_kind (series_metric s)) (reading point) = true ∧ all_points t < capacity_ t).
Proof.
  intros Hid Hcap [H1 H2 H3 H4 H5 H6 [H7 H7'] H8]. unfold append_point. rewrite (proj2 (Z.ltb_ge id 0)) by lia.
  destruct (series_ t !! Z.to_nat id) as [s|] eqn:Es; [|split_and!; try done; by split; [|intros (? & ? & _)]].
  destruct (from_option _ false _) eqn:El.
  { split_and!; try done. split; [done|]. intros (s' & [= <-] & Hl & _). unfold later in Hl.
    destruct (last (series_points s)); [|done]. cbn in *. bool_facts. lia. }
  destruct (negb _) eqn:Ek; [split_and!; try done; split; [done|]; intros (s' & [= <-] & _ & Hk & _); by rewrite Hk in Ek|].
  destruct (Z.leb_spec (capacity_ t) (size_ t)); [split_and!; try done; split; [done|]; intros (s' & _ & _ & _ & ?); lia|].
  apply negb_false_iff in Ek.
  assert (Hl : from_option (λ last, later last point) True (last (series_points s))).
  { unfold later. destruct (last (series_points s)); [|done]. cbn in *. bool_facts. lia. }
  pose proof (Forall_lookup_1 _ _ _ _ H5 Es) as [Hsorted Hkinds].
  split_and!; try done.
  2: { split; [intros _|done]. exists s. split_and!; try done. lia. }
  split; cbn [series_ phases_ size_ capacity_ set const has_value]; try done.
  - unfold metrics_in in *. rewrite omap_snoc. cbn. rewrite app_nil_r, <- H1. apply list_eq. intros i.
    rewrite !list_lookup_fmap. destruct (decide (i = Z.to_nat id)) as [->|Hne].
    + rewrite list_lookup_alter_eq, Es. done.
    + by rewrite list_lookup_alter_ne.
  - intros i s' Hi. unfold points_in. rewrite omap_snoc. cbn. destruct (decide (i = Z.to_nat id)) as [->|Hne].
    + rewrite list_lookup_alter_eq, Es in Hi. injection Hi as <-. rewrite Z2Nat.id, Z.eqb_refl by done. cbn.
      f_equal. rewrite (H2 _ _ Es), Z2Nat.id by done. done.
    + rewrite list_lookup_alter_ne in Hi by done. rewrite (proj2 (Z.eqb_neq _ _)) by lia. cbn. rewrite app_nil_r. by apply H2.
  - unfold marks_in. rewrite omap_snoc. cbn. by rewrite app_nil_r.
  - intros i j a b Hi Hj Hs. destruct (alter_metric _ _ _ _ _ Hi) as (a' & Ha & Ea), (alter_metric _ _ _ _ _ Hj) as (b' & Hb & Eb).
    rewrite Ea, Eb in Hs. by eapply H4.
  - apply Forall_alter; [done|]. intros x Hx [Ha Hb]. assert (x = s) as -> by congruence.
    split; cbn; [by apply sorted_snoc; [apply _|..]|]. apply Forall_app. split; [done|by apply Forall_singleton].
  - unfold all_points in *. cbn [series_ set const]. rewrite (all_points_alter _ _ _ _ Es). cbn.
    unfold size_of. rewrite length_app. cbn. pose proof (all_points_nonneg t) as Hn. unfold all_points, size_of in *.
    rewrite u64_small by (unfold in_u64; lia). lia.
  - intros i Hi. unfold size_of. rewrite length_alter. fold (size_of (series_ t)).
    unfold points_in in Hi. rewrite omap_snoc in Hi. cbn in Hi. destruct (Z.eqb_spec id i) as [->|Hne].
    + apply lookup_lt_Some in Es. unfold size_of. lia.
    + cbn in Hi. rewrite app_nil_r in Hi. by apply H8.
Qed.

Definition call_ok (c : TimelineCall) : Prop := match c with CallAppendPoint id _ => 0 ≤ id | _ => True end.

Lemma timeline_call_ok calls c t :
  call_ok c → 0 ≤ capacity_ t < 2 ^ 64 → timeline_ok calls t →
  let '(accepted, t') := timeline_call c t in
  capacity_ t' = capacity_ t ∧ timeline_ok (if accepted then calls ++ [c] else calls) t' ∧ (accepted = false → t' = t).
Proof.
  intros Hc Hcap Hok. destruct c as [metric|id point|mark]; cbn [timeline_call].
  - pose proof (add_series_ok calls metric t Hok) as H. destruct (add_series metric t) as [r t']. naive_solver.
  - pose proof (append_point_ok calls id point t Hc Hcap Hok) as H. destruct (append_point id point t) as [r t']. naive_solver.
  - pose proof (mark_phase_ok calls mark t Hok) as H. destruct (mark_phase mark t) as [r t']. naive_solver.
Qed.

Lemma empty_timeline_ok capacity : 0 ≤ capacity → timeline_ok [] (bounded_timeline capacity).
Proof. intros Hc. split; try done; constructor. Qed.

Lemma taken_by_ok before calls t :
  Forall call_ok calls → 0 ≤ capacity_ t < 2 ^ 64 → timeline_ok before t →
  let '(accepted, t') := taken_by t calls in capacity_ t' = capacity_ t ∧ timeline_ok (before ++ accepted) t'.
Proof.
  intros Hcs. revert before t. induction Hcs as [|c calls Hc _ IH]; intros before t Hcap Hok; cbn [taken_by].
  { by rewrite app_nil_r. }
  pose proof (timeline_call_ok before c t Hc Hcap Hok) as H. destruct (timeline_call c t) as [accepted t1].
  destruct H as (Hcap1 & Hok1 & _). specialize (IH _ t1 ltac:(by rewrite Hcap1) Hok1).
  destruct (taken_by t1 calls) as [more t2]. destruct IH as [Hcap2 Hok2]. split; [congruence|].
  destruct accepted; [by rewrite <- app_assoc in Hok2|done].
Qed.

(** ** Theorems *)

(** C16: A timeline holds what it took: after any calls, its series are those it registered,
    in order and all different; the points of each are every point it took for that series, in
    the order it took them, later and later, and of the series' kind; its marks are those it
    took, later and later; and the points of all together are never more than its capacity, and
    are counted. What it refuses leaves no trace. *)
Theorem timeline_holds capacity calls :
  0 ≤ capacity < 2 ^ 64 → Forall call_ok calls →
  let '(accepted, t) := taken_by (bounded_timeline capacity) calls in
  series_metric <$> series_ t = metrics_in accepted
  ∧ (∀ i j s s', series_ t !! i = Some s → series_ t !! j = Some s' →
       same_series (series_metric s) (series_metric s') = true → i = j)
  ∧ (∀ id points, 0 ≤ id → points_at t id = Some points →
       points = points_in id accepted ∧ StronglySorted later points
       ∧ ∀ metric, metric_at t id = Some metric →
           Forall (λ p, kind_matches (metric_kind metric) (reading p) = true) points)
  ∧ phases_ t = marks_in accepted ∧ StronglySorted mark_later (phases_ t)
  ∧ size_ t = all_points t ∧ size_ t ≤ capacity.
Proof.
  intros Hcap Hcs. pose proof (taken_by_ok [] calls (bounded_timeline capacity) Hcs Hcap (empty_timeline_ok _ (proj1 Hcap))) as H.
  destruct (taken_by _ calls) as [accepted t]. destruct H as [Hc [H1 H2 H3 H4 H5 H6 [H7 H7'] H8]].
  cbn in Hc. split_and!; try done; [|lia].
  unfold points_at, metric_at. intros id points Hid Hp. destruct (series_ t !! Z.to_nat id) as [s|] eqn:Es; [|done].
  injection Hp as <-. rewrite Forall_lookup in H5. destruct (H5 _ _ Es) as [Ha Hb].
  split_and!; [by rewrite (H2 _ _ Es), Z2Nat.id|done|]. intros metric [= <-]. done.
Qed.

Definition core_temperature : Metric :=
  {| metric_name := lit "thermal.core"; metric_unit := kCelsius; metric_kind := kGauge; metric_scope := kCore;
     metric_scope_index := 3; metric_modulus := None; metric_provider := lit "hwmon:coretemp" |}.

Definition gauge_at (ns bits : Z) : Point := {| timestamp_ns := ns; reading := GaugeRead bits |}.

Definition sample_timeline_calls : list TimelineCall :=
  [ CallAddSeries core_temperature; CallAddSeries core_temperature; CallMarkPhase {| start_ns := 5; label := lit "run" |};
    CallAppendPoint 0 (gauge_at 5 1); CallAppendPoint 0 (gauge_at 5 2);
    CallAppendPoint 0 {| timestamp_ns := 6; reading := CounterRead 7 |}; CallAppendPoint 1 (gauge_at 6 3);
    CallAppendPoint 0 (gauge_at 7 4); CallAppendPoint 0 (gauge_at 8 5) ].

Lemma timeline_holds_witness :
  let taken := taken_by (bounded_timeline 2) sample_timeline_calls in
  (length taken.1, points_at taken.2 0) = (4%nat, Some [gauge_at 5 1; gauge_at 7 4])
  ∧ size_ taken.2 = all_points taken.2 ∧ size_ taken.2 ≤ 2.
Proof.
  pose proof (timeline_holds 2 sample_timeline_calls ltac:(lia)) as H.
  assert (Forall call_ok sample_timeline_calls) as Hok by (repeat constructor; by vm_compute).
  specialize (H Hok). cbv zeta. destruct (taken_by _ sample_timeline_calls) as [accepted t] eqn:E.
  split; [|by apply H]. vm_compute in E. injection E as <- <-. reflexivity.
Defined.
