(* ===== verification/Sampler.v ===== *)
(** * telemetry/sampler: every source, read in rounds

    What a source of metrics offers (telemetry/source.hpp), the sampler that probes them once
    and reads them in rounds onto the timeline (telemetry/sampler/round_sampler.cpp), and the
    report of what there is (telemetry/capability). A source is an operation of a class. *)

From S2P Require Export Timeline.

(** ** source.hpp *)

Record MetricStatus := { status_metric : Metric; status_unavailable : option Missing }.
Record SourceStatus := { status_source : text; status_metrics : list MetricStatus }.
Definition CapabilityReport : Type := list SourceStatus.

(** The sources, by their place in the order they were given. *)
Class SourceCalls (K : Type) := {
  source_name : nat → text;
  probe_source : nat → K → list MetricStatus * K;
  sample_source : nat → K → list Reading * K;
}.

Definition is_present (status : MetricStatus) : bool := bool_decide (status_unavailable status = None).

Record CapabilityCounts := { count_metrics : Z; count_present : Z }.

Definition count_capabilities (report : CapabilityReport) : CapabilityCounts :=
  let statuses := report ≫= status_metrics in
  {| count_metrics := size_of statuses; count_present := size_of (filter (λ status, is_present status = true) statuses) |}.

(** ** round_sampler.cpp *)

Record RoundSampler := {
  sources_count : nat;
  outcome_ : option (Result CapabilityReport TimelineError);
  series_ids : list (list Z);
}.

Definition make_sampler (sources : nat) : RoundSampler :=
  {| sources_count := sources; outcome_ := None; series_ids := [] |}.

(** The inner loop of probe_sources: the present metrics registered. *)
Fixpoint register (statuses : list MetricStatus) (t : BoundedTimeline) : Result (list Z) TimelineError * BoundedTimeline :=
  match statuses with
  | [] => (Value [], t)
  | status :: statuses =>
      if is_present status then
        let (id, t) := add_series (status_metric status) t in
        match id with
        | Error e => (Error e, t)
        | Value id =>
            let (ids, t) := register statuses t in
            ((let? ids := ids in Value (id :: ids)), t)
        end
      else register statuses t
  end.

(** Every reading of a source that gave the wrong number of them. *)
Definition malformed (name : text) (given expected : nat) : Missing :=
  {| missing_kind := kMalformed; missing_path := [];
     missing_detail := name ++ lit " returned " ++ to_dec (Z.of_nat given) ++ lit " readings for "
       ++ to_dec (Z.of_nat expected) ++ lit " present metrics";
     missing_remediation := lit "this is a defect in the " ++ name ++ lit " source: report it with the capability report" |}.

(** What is appended of what a source gave. *)
Definition trusted (name : text) (ids : list Z) (readings : list Reading) : list Reading :=
  if bool_decide (length readings = length ids) then readings
  else replicate (length ids) (Gone (malformed name (length readings) (length ids))).

(** The loop over a source's series. *)
Fixpoint append_readings (ids : list Z) (readings : list Reading) (now_ns appended : Z) (t : BoundedTimeline) :
    Result Z TimelineError * BoundedTimeline :=
  match ids, readings with
  | id :: ids, reading :: readings =>
      let (added, t) := append_point id {| timestamp_ns := now_ns; reading := reading |} t in
      match added with
      | Error e => (Error e, t)
      | Value _ => append_readings ids readings now_ns (appended + 1) t
      end
  | _, _ => (Value appended, t)
  end.

Section Sampler.
Context {K : Type} `{SourceCalls K}.

(** The loop of probe_sources, from source [at_] on, [more] of them to go: the report's
    entries, and the series of each source. *)
Fixpoint probe_from (at_ more : nat) (t : BoundedTimeline) (s : K) :
    Result CapabilityReport TimelineError * list (list Z) * BoundedTimeline * K :=
  match more with
  | O => (Value [], [], t, s)
  | S more =>
      let (statuses, s) := probe_source at_ s in
      let (ids, t) := register statuses t in
      match ids with
      | Error e => (Error e, [], t, s)
      | Value ids =>
          let '(rest, all, t, s) := probe_from (S at_) more t s in
          ((let? rest := rest in Value ({| status_source := source_name at_; status_metrics := statuses |} :: rest)),
           ids :: all, t, s)
      end
  end.

Definition probe (sampler : RoundSampler) (t : BoundedTimeline) (s : K) :
    Result CapabilityReport TimelineError * RoundSampler * BoundedTimeline * K :=
  match outcome_ sampler with
  | Some outcome => (outcome, sampler, t, s)
  | None =>
      let '(outcome, ids, t, s) := probe_from 0 (sources_count sampler) t s in
      (outcome, sampler <| outcome_ := Some outcome |> <| series_ids ::= (λ all, all ++ ids) |>, t, s)
  end.

(** The loop of round; [None] is a source with no series of its own in [series_ids]. *)
Fixpoint round_from (at_ more : nat) (series : list (list Z)) (now_ns appended : Z) (t : BoundedTimeline) (s : K) :
    option (Result Z TimelineError * BoundedTimeline * K) :=
  match more, series with
  | O, _ => Some (Value appended, t, s)
  | S more, [] => None
  | S more, ids :: series =>
      let (readings, s) := sample_source at_ s in
      let (added, t) := append_readings ids (trusted (source_name at_) ids readings) now_ns appended t in
      match added with
      | Error e => Some (Error e, t, s)
      | Value appended => round_from (S at_) more series now_ns appended t s
      end
  end.

Definition round (sampler : RoundSampler) (now_ns : Z) (t : BoundedTimeline) (s : K) :
    option (Result Z TimelineError * BoundedTimeline * K) :=
  match outcome_ sampler with
  | Some (Value _) => round_from 0 (sources_count sampler) (series_ids sampler) now_ns 0 t s
  | _ => Some (Value 0, t, s)
  end.
End Sampler.

(** ** capability.cpp *)

Record Group := {
  group_name : text;
  group_kind : Availability;
  group_remediation : text;
  group_count : Z;
  group_metric : Metric;
  group_why : Missing;
}.

Record Presence := { presence_name : text; presence_count : Z }.

(** The first entry that is the same is counted again; without one, one is added. *)
Fixpoint tell {A} (same : A → bool) (again : A → A) (new : A) (entries : list A) : list A :=
  match entries with
  | [] => [new]
  | entry :: entries => if same entry then again entry :: entries else entry :: tell same again new entries
  end.

Definition tell_present (present : list Presence) (status : MetricStatus) : list Presence :=
  let name := metric_name (status_metric status) in
  tell (λ entry, bool_decide (presence_name entry = name)) (λ entry, entry <| presence_count ::= (λ n, n + 1) |>)
    {| presence_name := name; presence_count := 1 |} present.

Definition tell_missing (missing : list Group) (metric : Metric) (why : Missing) : list Group :=
  tell (λ group, bool_decide (group_name group = metric_name metric) && bool_decide (group_kind group = missing_kind why)
                 && bool_decide (group_remediation group = missing_remediation why))
    (λ group, group <| group_count ::= (λ n, n + 1) |>)
    {| group_name := metric_name metric; group_kind := missing_kind why; group_remediation := missing_remediation why;
       group_count := 1; group_metric := metric; group_why := why |} missing.

Definition line (words : text) : text := words ++ [byte_of 10].

Definition write_present (present : list Presence) : text :=
  line (lit "    present:" ++ (present ≫= λ entry, lit " " ++ presence_name entry
    ++ (if 1 <? presence_count entry then lit " x" ++ to_dec (presence_count entry) else []))).

Definition write_missing (group : Group) : text :=
  line (lit "    " ++ group_name group
    ++ (if 1 <? group_count group then lit " x" ++ to_dec (group_count group)
        else lit " (" ++ describe_scope (metric_scope (group_metric group)) ++ lit " "
             ++ to_dec (metric_scope_index (group_metric group)) ++ lit ")")
    ++ lit ": " ++ describe_availability (group_kind group))
  ++ line (lit "      where:  " ++ missing_path (group_why group))
  ++ line (lit "      why:    " ++ missing_detail (group_why group))
  ++ line (lit "      remedy: " ++ group_remediation group).

(** The loop over a source's metrics. *)
Definition groups_of (statuses : list MetricStatus) : list Presence * list Group :=
  foldl (λ groups status,
    match status_unavailable status with
    | None => (tell_present groups.1 status, groups.2)
    | Some why => (groups.1, tell_missing groups.2 (status_metric status) why)
    end) ([], []) statuses.

Definition render_source (source : SourceStatus) : text :=
  let (present, missing) := groups_of (status_metrics source) in
  line (lit "  " ++ status_source source ++ lit ": "
    ++ to_dec (size_of (filter (λ status, is_present status = true) (status_metrics source))) ++ lit " of "
    ++ to_dec (size_of (status_metrics source)) ++ lit " present")
  ++ (match present with [] => [] | _ => write_present present end)
  ++ (missing ≫= write_missing).

Definition render_capabilities (report : CapabilityReport) : text :=
  line (lit "telemetry capability: " ++ to_dec (count_present (count_capabilities report)) ++ lit " of "
    ++ to_dec (count_metrics (count_capabilities report)) ++ lit " metric(s) present")
  ++ (report ≫= render_source).

(** ** What probing registers *)

Lemma size_app {A} (l k : list A) : size_of (l ++ k) = size_of l + size_of k.
Proof. unfold size_of. rewrite length_app. lia. Qed.
Lemma size_cons {A} (x : A) l : size_of (x :: l) = size_of l + 1.
Proof. unfold size_of. cbn [length]. lia. Qed.

Definition present_metrics (statuses : list MetricStatus) : list Metric :=
  status_metric <$> filter (λ status, is_present status = true) statuses.

Definition new_series (metric : Metric) : Series := {| series_metric := metric; series_points := [] |}.

Lemma add_series_Value metric t id t' :
  add_series metric t = (Value id, t') →
  series_ t' = series_ t ++ [new_series metric] ∧ id = u32 (size_of (series_ t)) ∧ size_ t' = size_ t
  ∧ capacity_ t' = capacity_ t ∧ phases_ t' = phases_ t.
Proof.
  unfold add_series. destruct (existsb _ _); [done|]. intros [= <- <-]. cbn. split_and!; try done.
  f_equal. unfold size_of. rewrite length_app. cbn. lia.
Qed.

Lemma register_spec statuses t ids t' :
  register statuses t = (Value ids, t') →
  series_ t' = series_ t ++ (new_series <$> present_metrics statuses)
  ∧ ids = u32 <$> seqZ (size_of (series_ t)) (size_of (present_metrics statuses))
  ∧ size_ t' = size_ t ∧ capacity_ t' = capacity_ t ∧ phases_ t' = phases_ t.
Proof.
  revert t ids t'. unfold present_metrics. induction statuses as [|status statuses IH]; intros t ids t'; cbn [register].
  { intros [= <- <-]. by rewrite app_nil_r. }
  rewrite filter_cons. destruct (is_present status) eqn:Ep; case_decide; try done; [|apply IH].
  destruct (add_series (status_metric status) t) as [[id|e] t1] eqn:Ea; [|done].
  apply add_series_Value in Ea as (E1 & E2 & E3 & E4 & E5).
  destruct (register statuses t1) as [[more|e] t2] eqn:Er; [|done]. intros [= <- <-].
  destruct (IH _ _ _ Er) as (F1 & F2 & F3 & F4 & F5). rewrite F1, E1, !fmap_cons, <- app_assoc.
  split_and!; try done; try congruence.
  rewrite F2, E1, E2, size_app, !size_cons. change (size_of []) with 0. rewrite (seqZ_cons _ (_ + 1)) by (unfold size_of; lia).
  rewrite fmap_cons. do 3 f_equal; lia.
Qed.

Section Probed.
Context {K : Type} `{SourceCalls K}.

Definition report_metrics (report : CapabilityReport) : list Metric := report ≫= λ source, present_metrics (status_metrics source).

Lemma probe_from_spec at_ more t s report ids t' s' :
  probe_from at_ more t s = (Value report, ids, t', s') →
  series_ t' = series_ t ++ (new_series <$> report_metrics report)
  ∧ mjoin ids = u32 <$> seqZ (size_of (series_ t)) (size_of (report_metrics report))
  ∧ length ids = more ∧ size_ t' = size_ t ∧ capacity_ t' = capacity_ t
  ∧ Forall2 (λ ids source, length ids = length (present_metrics (status_metrics source))) ids report.
Proof.
  revert at_ t s report ids t' s'. induction more as [|more IH]; intros at_ t s report ids t' s'; cbn [probe_from].
  { intros [= <- <- <- <-]. rewrite app_nil_r. by split_and!. }
  destruct (probe_source at_ s) as [statuses s1]. destruct (register statuses t) as [[own|e] t1] eqn:Er; [|done].
  apply register_spec in Er as (E1 & E2 & E3 & E4 & E5).
  destruct (probe_from (S at_) more t1 s1) as [[[[rest|e] all] t2] s2] eqn:Ep; [|done]. intros [= <- <- <- <-].
  destruct (IH _ _ _ _ _ _ _ Ep) as (F1 & F2 & F3 & F4 & F5 & F6).
  assert (Hreport : report_metrics ({| status_source := source_name at_; status_metrics := statuses |} :: rest)
    = present_metrics statuses ++ report_metrics rest) by done.
  rewrite Hreport, F1, E1, fmap_app, <- app_assoc. split_and!; try done; try congruence.
  - change (mjoin (own :: all)) with (own ++ mjoin all). rewrite F2, E1, E2, <- fmap_app, !size_app.
    rewrite seqZ_app by (unfold size_of; lia). do 3 f_equal. unfold size_of. by rewrite length_fmap.
  - cbn. by rewrite F3.
  - constructor; [|done]. cbn [status_metrics]. rewrite E2, length_fmap, length_seqZ. unfold size_of. lia.
Qed.
End Probed.

(** ** What a round appends *)

Definition push (now_ns : Z) (s : Series) (r : Reading) : Series :=
  s <| series_points ::= (λ points, points ++ [{| timestamp_ns := now_ns; reading := r |}]) |>.

(** The series can take this reading at this time. *)
Definition takes (now_ns : Z) (s : Series) (r : Reading) : Prop :=
  from_option (λ last, timestamp_ns last < now_ns) True (last (series_points s))
  ∧ kind_matches (metric_kind (series_metric s)) r = true.

(** The first readings given, the rest of the series as they were. *)
Definition given (now_ns : Z) (l : list Series) (rs : list Reading) : list Series :=
  zip_with (push now_ns) l rs ++ drop (length rs) l.

Lemma given_next now l rs s r :
  l !! length rs = Some s →
  given now l rs !! length rs = Some s
  ∧ alter (λ s, s <| series_points ::= (λ points, points ++ [{| timestamp_ns := now; reading := r |}]) |>) (length rs) (given now l rs)
    = given now l (rs ++ [r]).
Proof.
  intros Hs. pose proof (lookup_lt_Some _ _ _ Hs) as Hlt.
  assert (Hl : length (zip_with (push now) l rs) = length rs) by (rewrite length_zip_with; lia).
  assert (Hd : drop (length rs) l = s :: drop (S (length rs)) l) by by apply drop_S.
  assert (Hz : zip_with (push now) l (rs ++ [r]) = zip_with (push now) l rs ++ [push now s r]).
  { clear Hl Hd. revert l Hs Hlt. induction rs as [|r0 rs IH]; intros [|s0 l] Hs Hlt; cbn in *; try done; try lia.
    - injection Hs as ->. by destruct l.
    - f_equal. apply IH; [done|lia]. }
  unfold given. rewrite Hd. split.
  - rewrite lookup_app_r by lia. by rewrite Hl, Nat.sub_diag.
  - rewrite Hz, length_app, Nat.add_1_r, <- app_assoc. cbn [app].
    rewrite <- Hl at 1. generalize (zip_with (push now) l rs). intros k. clear. induction k as [|x k IH]; [done|]. cbn. by f_equal.
Qed.

Lemma given_points now l rs :
  (length rs ≤ length l)%nat →
  foldr (λ s n, size_of (series_points s) + n) 0 (given now l rs)
  = foldr (λ s n, size_of (series_points s) + n) 0 l + Z.of_nat (length rs).
Proof.
  revert l. induction rs as [|r rs IH]; intros [|s l] H; cbn in *; try lia; rewrite ?drop_0; [lia..|].
  unfold given in IH. rewrite IH by lia. unfold size_of. rewrite length_app. cbn. lia.
Qed.

Lemma append_readings_spec now l rs ids more appended t :
  series_ t = given now l rs → size_ t = all_points t → all_points t + size_of more ≤ capacity_ t < 2 ^ 64 →
  size_of l < 2 ^ 32 → (length rs + length more ≤ length l)%nat →
  ids = u32 <$> seqZ (size_of rs) (size_of more) →
  (∀ i s r, l !! (length rs + i)%nat = Some s → more !! i = Some r → takes now s r) →
  ∃ t', append_readings ids more now appended t = (Value (appended + size_of more), t')
    ∧ series_ t' = given now l (rs ++ more) ∧ size_ t' = all_points t' ∧ all_points t' = all_points t + size_of more
    ∧ capacity_ t' = capacity_ t ∧ phases_ t' = phases_ t.
Proof.
  revert rs ids appended t. induction more as [|r more IH]; intros rs ids appended t Hseries Hsize Hroom Hl Hlen -> Htakes.
  { exists t. cbn. rewrite app_nil_r. unfold size_of. cbn. split_and!; try done; [by rewrite Z.add_0_r|lia]. }
  destruct (lookup_lt_is_Some_2 l (length rs)) as [s Hs]; [cbn in Hlen; lia|].
  destruct (given_next now l rs s r Hs) as [Hg Ha].
  destruct (Htakes 0%nat s r) as [Ht Hk]; [by rewrite Nat.add_0_r|done|].
  assert (Hid : seqZ (size_of rs) (size_of (r :: more)) = size_of rs :: seqZ (size_of (rs ++ [r])) (size_of more)).
  { unfold size_of. cbn [length]. rewrite seqZ_cons by lia. f_equal. f_equal; rewrite ?length_app; cbn; lia. }
  rewrite Hid, fmap_cons. cbn [append_readings].
  assert (Hu : u32 (size_of rs) = size_of rs) by (apply u32_small; unfold in_u32, size_of in *; cbn in Hlen; lia).
  unfold append_point. rewrite Hu, (proj2 (Z.ltb_ge _ 0)) by (unfold size_of; lia).
  replace (Z.to_nat (size_of rs)) with (length rs) by (unfold size_of; lia). rewrite Hseries, Hg.
  cbn [timestamp_ns reading].
  assert (Hnot : from_option (λ last, now <=? timestamp_ns last) false (last (series_points s)) = false).
  { destruct (last (series_points s)); [|done]. cbn in *. lia. }
  rewrite Hnot, Hk. cbn [negb].
  assert (size_of (r :: more) = size_of more + 1) as Hmore by (unfold size_of; cbn [length]; lia).
  rewrite (proj2 (Z.leb_gt _ _)) by (unfold size_of in *; lia).
  set (t1 := set size_ _ _).
  assert (Hpts : all_points t1 = all_points t + 1).
  { unfold all_points. subst t1. cbn [series_ set const]. rewrite Hseries, Ha, !given_points by (rewrite ?length_app; cbn in *; lia).
    rewrite length_app. cbn. lia. }
  destruct (IH (rs ++ [r]) (u32 <$> seqZ (size_of (rs ++ [r])) (size_of more)) (appended + 1) t1) as (t' & E & F1 & F2 & F3 & F4 & F5).
  - subst t1. cbn [series_ set const]. rewrite Hseries. exact Ha.
  - rewrite Hpts. subst t1. cbn. rewrite Hsize, u64_small; [done|]. unfold in_u64. pose proof (all_points_nonneg t).
    unfold size_of in *. lia.
  - rewrite Hpts. subst t1. cbn [capacity_ set const]. lia.
  - done.
  - rewrite length_app. cbn in *. lia.
  - done.
  - intros i s' r' Hi Hr. apply (Htakes (S i)); [|done]. rewrite <- Hi. f_equal. rewrite length_app. cbn. lia.
  - exists t'. rewrite E, <- app_assoc in *. split_and!; try done; [do 2 f_equal; lia|lia].
Qed.

Lemma append_readings_app ids1 ids2 rs1 rs2 now appended t :
  length ids1 = length rs1 →
  append_readings (ids1 ++ ids2) (rs1 ++ rs2) now appended t
  = let (added, t1) := append_readings ids1 rs1 now appended t in
    match added with Value appended => append_readings ids2 rs2 now appended t1 | Error e => (Error e, t1) end.
Proof.
  revert rs1 appended t. induction ids1 as [|id ids1 IH]; intros [|r rs1] appended t Hl; try done.
  cbn [app append_readings]. destruct (append_point _ _ t) as [[u|e] t1]; [|done]. apply IH. by injection Hl.
Qed.

(** A reading the series does not take: those before it are kept, and it is refused. *)
Lemma append_readings_misfit now l rs ids good bad tail appended t s :
  series_ t = given now l rs → size_ t = all_points t → all_points t + size_of good ≤ capacity_ t < 2 ^ 64 →
  size_of l < 2 ^ 32 → ids = u32 <$> seqZ (size_of rs) (size_of (good ++ bad :: tail)) →
  (∀ i s r, l !! (length rs + i)%nat = Some s → good !! i = Some r → takes now s r) →
  l !! (length rs + length good)%nat = Some s →
  from_option (λ last, timestamp_ns last < now) True (last (series_points s)) →
  kind_matches (metric_kind (series_metric s)) bad = false →
  ∃ e t', append_readings ids (good ++ bad :: tail) now appended t = (Error e, t')
    ∧ timeline_fault e = kKindMismatch ∧ series_ t' = given now l (rs ++ good) ∧ phases_ t' = phases_ t.
Proof.
  intros Hseries Hsize Hroom Hl -> Htakes Hs Hlast Hbad. pose proof (lookup_lt_Some _ _ _ Hs) as Hlt.
  rewrite size_app, seqZ_app, fmap_app by (unfold size_of; lia).
  rewrite append_readings_app by (rewrite length_fmap, length_seqZ; unfold size_of; lia).
  destruct (append_readings_spec now l rs (u32 <$> seqZ (size_of rs) (size_of good)) good appended t)
    as (t1 & -> & F1 & _ & _ & _ & F5); try done; [lia|].
  rewrite seqZ_cons by (unfold size_of; cbn [length]; lia). rewrite fmap_cons. cbn [append_readings].
  rewrite <- length_app in Hs. destruct (given_next now l (rs ++ good) s bad Hs) as [Hg _].
  rewrite u32_small by (unfold in_u32, size_of in *; lia). unfold append_point.
  rewrite (proj2 (Z.ltb_ge _ 0)) by (unfold size_of; lia).
  replace (Z.to_nat (size_of rs + size_of good)) with (length (rs ++ good)) by (rewrite length_app; unfold size_of; lia).
  rewrite F1, Hg. cbn [timestamp_ns reading].
  assert (from_option (λ last, now <=? timestamp_ns last) false (last (series_points s)) = false) as ->
    by (destruct (last (series_points s)); [cbn in *; lia|done]).
  rewrite Hbad. cbn [negb]. eexists _, t1. by split_and!.
Qed.

Section Rounds.
Context {K : Type} `{SourceCalls K}.

(** What each source gives, read once and in order. *)
Fixpoint gather (at_ more : nat) (s : K) : list (list Reading) * K :=
  match more with
  | O => ([], s)
  | S more =>
      let (readings, s) := sample_source at_ s in
      let (rest, s) := gather (S at_) more s in (readings :: rest, s)
  end.

(** What the round makes of it. *)
Fixpoint believed (at_ : nat) (series : list (list Z)) (all : list (list Reading)) : list Reading :=
  match series, all with
  | ids :: series, readings :: all => trusted (source_name at_) ids readings ++ believed (S at_) series all
  | _, _ => []
  end.

Lemma length_trusted name ids readings : length (trusted name ids readings) = length ids.
Proof. unfold trusted. case_bool_decide; [done|apply length_replicate]. Qed.

Lemma length_believed at_ series all : length series = length all → length (believed at_ series all) = length (mjoin series).
Proof.
  revert at_ all. induction series as [|ids series IH]; intros at_ [|readings all] Hl; try done. cbn [believed].
  change (mjoin (ids :: series)) with (ids ++ mjoin series). rewrite !length_app, length_trusted, IH; [done|by injection Hl].
Qed.

Lemma length_gather at_ more s : length (gather at_ more s).1 = more.
Proof.
  revert at_ s. induction more as [|more IH]; intros at_ s; [done|]. cbn. destruct (sample_source at_ s) as [readings s1].
  specialize (IH (S at_) s1). destruct (gather (S at_) more s1). cbn in *. by f_equal.
Qed.

Lemma round_from_spec now l rs at_ series appended t s :
  let all := (gather at_ (length series) s).1 in
  let rest := believed at_ series all in
  series_ t = given now l rs → size_ t = all_points t → all_points t + size_of rest ≤ capacity_ t < 2 ^ 64 →
  size_of l < 2 ^ 32 → (length rs + length rest ≤ length l)%nat →
  mjoin series = u32 <$> seqZ (size_of rs) (size_of rest) →
  (∀ i s r, l !! (length rs + i)%nat = Some s → rest !! i = Some r → takes now s r) →
  ∃ t', round_from at_ (length series) series now appended t s
        = Some (Value (appended + size_of rest), t', (gather at_ (length series) s).2)
    ∧ series_ t' = given now l (rs ++ rest) ∧ size_ t' = all_points t' ∧ all_points t' = all_points t + size_of rest
    ∧ capacity_ t' = capacity_ t ∧ phases_ t' = phases_ t.
Proof.
  revert rs at_ appended t s. induction series as [|ids series IH]; intros rs at_ appended t s; cbn [length gather round_from believed].
  { intros Hs Hsize _ _ _ _ _. exists t. cbn. rewrite app_nil_r. change (size_of []) with 0. rewrite !Z.add_0_r. by split_and!. }
  destruct (sample_source at_ s) as [readings s1]. pose proof (length_gather (S at_) (length series) s1) as Hgl.
  specialize (IH (rs ++ trusted (source_name at_) ids readings) (S at_)).
  specialize (λ appended t, IH appended t s1). destruct (gather (S at_) (length series) s1) as [all s2]. cbn [fst snd] in *.
  cbn zeta. cbn [believed]. set (own := trusted (source_name at_) ids readings) in *. set (rest := believed (S at_) series all) in *.
  assert (Hown : length own = length ids) by apply length_trusted.
  intros Hs Hsize Hroom Hl Hlen Hids Htakes. rewrite size_app in *. rewrite length_app in Hlen.
  change (mjoin (ids :: series)) with (ids ++ mjoin series) in Hids.
  rewrite seqZ_app, fmap_app in Hids by (unfold size_of; lia).
  apply app_inj_1 in Hids as [Hids1 Hids2]; [|rewrite length_fmap, length_seqZ; unfold size_of; lia].
  destruct (append_readings_spec now l rs ids own appended t) as (t1 & E1 & F1 & F2 & F3 & F4 & F5); try done.
  - unfold size_of in *. lia.
  - lia.
  - intros i s' r Hi Hr. apply (Htakes i); [done|by apply lookup_app_l_Some].
  - rewrite E1. destruct (IH (appended + size_of own) t1) as (t' & E & G1 & G2 & G3 & G4 & G5); try done.
    + rewrite F3, F4. lia.
    + rewrite length_app. lia.
    + intros i s' r Hi Hr. apply (Htakes (length own + i)%nat).
      * rewrite <- Hi. f_equal. rewrite length_app. lia.
      * rewrite lookup_app_r by lia. rewrite <- Hr. f_equal. lia.
    + exists t'. split_and!; try congruence; [|by rewrite app_assoc|lia].
      rewrite E. by replace (appended + (size_of own + size_of rest)) with (appended + size_of own + size_of rest) by lia.
Qed.

(** The round up to the first reading of the wrong kind. *)
Lemma round_from_misfit now l rs at_ series appended t s n target bad :
  let all := (gather at_ (length series) s).1 in
  let rest := believed at_ series all in
  series_ t = given now l rs → size_ t = all_points t → all_points t + size_of rest ≤ capacity_ t < 2 ^ 64 →
  size_of l < 2 ^ 32 → (length rs + length rest ≤ length l)%nat →
  mjoin series = u32 <$> seqZ (size_of rs) (size_of rest) →
  (∀ i s r, (i < n)%nat → l !! (length rs + i)%nat = Some s → rest !! i = Some r → takes now s r) →
  l !! (length rs + n)%nat = Some target → rest !! n = Some bad →
  from_option (λ last, timestamp_ns last < now) True (last (series_points target)) →
  kind_matches (metric_kind (series_metric target)) bad = false →
  ∃ e t' s', round_from at_ (length series) series now appended t s = Some (Error e, t', s')
    ∧ timeline_fault e = kKindMismatch ∧ series_ t' = given now l (rs ++ take n rest) ∧ phases_ t' = phases_ t.
Proof.
  revert rs at_ appended t s n. induction series as [|ids series IH]; intros rs at_ appended t s n;
    cbn [length gather round_from believed]; [done|].
  destruct (sample_source at_ s) as [readings s1].
  specialize (IH (rs ++ trusted (source_name at_) ids readings) (S at_)).
  specialize (λ appended t, IH appended t s1). destruct (gather (S at_) (length series) s1) as [all s2]. cbn [fst snd] in *.
  cbn zeta. cbn [believed]. set (own := trusted (source_name at_) ids readings) in *. set (rest := believed (S at_) series all) in *.
  assert (Hown : length own = length ids) by apply length_trusted.
  intros Hs Hsize Hroom Hl Hlen Hids Htakes Htarget Hbad Hlast Hkind. rewrite size_app in *. rewrite length_app in Hlen.
  change (mjoin (ids :: series)) with (ids ++ mjoin series) in Hids.
  rewrite seqZ_app, fmap_app in Hids by (unfold size_of; lia).
  apply app_inj_1 in Hids as [Hids1 Hids2]; [|rewrite length_fmap, length_seqZ; unfold size_of; lia].
  destruct (decide (n < length own)%nat) as [Hn|Hn].
  - rewrite lookup_app_l in Hbad by done. rewrite <- (take_drop_middle _ _ _ Hbad) in Hids1.
    assert (length (take n own) = n) as Htake by (rewrite length_take; lia).
    destruct (append_readings_misfit now l rs ids (take n own) bad (drop (S n) own) appended t target)
      as (e & t1 & E & He & F1 & F5); try done.
    + unfold size_of in *. lia.
    + intros i s' r Hi Hr. pose proof (lookup_lt_Some _ _ _ Hr). rewrite lookup_take_lt in Hr by lia.
      apply (Htakes i); [lia|done|by apply lookup_app_l_Some].
    + by rewrite Htake.
    + rewrite take_drop_middle in E by done. rewrite E. exists e, t1, s1. split_and!; try done. rewrite F1, take_app_le by lia. done.
  - destruct (append_readings_spec now l rs ids own appended t) as (t1 & E1 & F1 & F2 & F3 & F4 & F5); try done.
    + unfold size_of in *. lia.
    + lia.
    + intros i s' r Hi Hr. pose proof (lookup_lt_Some _ _ _ Hr). apply (Htakes i); [lia|done|by apply lookup_app_l_Some].
    + rewrite E1. rewrite lookup_app_r in Hbad by lia.
      destruct (IH (appended + size_of own) t1 (n - length own)%nat) as (e & t' & s' & E & He & G1 & G5); try done.
      * rewrite F3, F4. lia.
      * rewrite length_app. lia.
      * intros i s' r Hin Hi Hr. apply (Htakes (length own + i)%nat); [lia| |].
        -- rewrite <- Hi. f_equal. rewrite length_app. lia.
        -- rewrite lookup_app_r by lia. rewrite <- Hr. f_equal. lia.
      * rewrite <- Htarget. f_equal. rewrite length_app. lia.
      * exists e, t', s'. split_and!; try congruence. rewrite G1, (take_app_ge own) by lia. by rewrite app_assoc.
Qed.

(** The sources keep to their contract where they give the right number of readings. *)
Definition kinds_kept (t : BoundedTimeline) (rs : list Reading) : Prop :=
  ∀ i s r, series_ t !! i = Some s → rs !! i = Some r → kind_matches (metric_kind (series_metric s)) r = true.

(** ** Theorems *)

(** What is on the series of one source after a round: what it gave, if it gave as many
    readings as it has series; and otherwise that it is malformed, on each of them. *)
Definition kept_from (at_ : nat) (ids : list Z) (readings kept : list Reading) : Prop :=
  if decide (length readings = length ids) then kept = readings
  else length kept = length ids ∧ ∀ r, r ∈ kept → ∃ why, r = Gone why ∧ missing_kind why = kMalformed.

Lemma believed_kept at_ series all :
  length series = length all →
  ∃ kept, believed at_ series all = mjoin kept ∧ length kept = length series
    ∧ ∀ i ids readings, series !! i = Some ids → all !! i = Some readings →
        ∃ own, kept !! i = Some own ∧ kept_from (at_ + i) ids readings own.
Proof.
  revert at_ all. induction series as [|ids series IH]; intros at_ [|readings all] Hl; try done.
  { by exists []. }
  destruct (IH (S at_) all) as (kept & Hk & Hlk & Hall); [by injection Hl|].
  exists (trusted (source_name at_) ids readings :: kept). split_and!; [cbn; by rewrite Hk|cbn; by rewrite Hlk|].
  intros [|i] ids' readings' Hi Ha; cbn in Hi, Ha.
  - injection Hi as <-. injection Ha as <-. eexists. split; [done|]. unfold kept_from, trusted.
    case_decide; [by rewrite bool_decide_true|]. rewrite bool_decide_false by done. rewrite length_replicate. split; [done|].
    intros r [-> _]%elem_of_replicate. by eexists.
  - destruct (Hall i ids' readings' Hi Ha) as (own & Ho & Hkept). exists own. by rewrite <- Nat.add_succ_comm.
Qed.

(** C17: A round reads every source and leaves a point on every series, whatever the sources
    answer, up to a reading of the wrong kind. Once the sources have been probed onto an
    empty timeline, take a round at a time later than any point there, with room left for one
    point a series. What it keeps of each source is what the source gave, if that is as many
    readings as the source has present metrics, and otherwise a reading on each of them that
    says the source is malformed. If each is of its metric's kind, the round answers as many
    points as there are series, and every series ends with one more point, at that time, of
    what was kept for it. At the first that is not, the round ends with the timeline's refusal
    of it: the series before it have their point, and it and those after it have none. *)
Theorem round_complete sources capacity s0 report sampler t0 s1 t now s :
  probe (make_sampler sources) (bounded_timeline capacity) s0 = (Value report, sampler, t0, s1) →
  series_metric <$> series_ t = series_metric <$> series_ t0 → size_ t = all_points t → capacity_ t < 2 ^ 64 →
  all_points t + size_of (series_ t) ≤ capacity_ t → size_of (series_ t) < 2 ^ 32 →
  Forall (λ each, from_option (λ last, timestamp_ns last < now) True (last (series_points each))) (series_ t) →
  let (all, s') := gather 0 sources s in
  series_metric <$> series_ t = report_metrics report
  ∧ Forall2 (λ ids source, length ids = length (present_metrics (status_metrics source))) (series_ids sampler) report
  ∧ ∃ kept, length kept = sources ∧ length (mjoin kept) = length (series_ t)
    ∧ (∀ i ids readings, series_ids sampler !! i = Some ids → all !! i = Some readings →
         ∃ own, kept !! i = Some own ∧ kept_from i ids readings own)
    ∧ (kinds_kept t (mjoin kept) →
       ∃ t', round sampler now t s = Some (Value (size_of (series_ t)), t', s')
         ∧ series_ t' = zip_with (push now) (series_ t) (mjoin kept)
         ∧ size_ t' = all_points t' ∧ phases_ t' = phases_ t)
    ∧ (∀ n target bad, series_ t !! n = Some target → mjoin kept !! n = Some bad →
         kind_matches (metric_kind (series_metric target)) bad = false →
         kinds_kept t (take n (mjoin kept)) →
         ∃ e t' s'', round sampler now t s = Some (Error e, t', s'') ∧ timeline_fault e = kKindMismatch
           ∧ series_ t' = zip_with (push now) (take n (series_ t)) (take n (mjoin kept)) ++ drop n (series_ t)
           ∧ phases_ t' = phases_ t).
Proof.
  unfold probe. cbn [outcome_ make_sampler sources_count]. destruct (probe_from 0 sources (bounded_timeline capacity) s0) as [[[outcome ids] t1] s2] eqn:Ep.
  intros [= -> <- <- <-].
  destruct (probe_from_spec _ _ _ _ _ _ _ _ Ep) as (E1 & E2 & E3 & _ & _ & E6). cbn [series_ bounded_timeline app] in E1, E2.
  intros Hm Hsize Hcap Hroom Hcount Hlast.
  assert (Hmetrics : series_metric <$> series_ t = report_metrics report).
  { rewrite Hm, E1, <- list_fmap_compose. apply list_fmap_id. }
  assert (Hlen : length (series_ t) = length (report_metrics report)) by (by rewrite <- Hmetrics, length_fmap).
  destruct (gather 0 sources s) as [all s'] eqn:Eg. cbn [series_ids set const]. rewrite app_nil_l.
  assert (Hal : length ids = length all) by (pose proof (length_gather 0 sources s) as Hgl; rewrite Eg in Hgl; cbn in Hgl; lia).
  destruct (believed_kept 0 ids all Hal) as (kept & Hkept & Hlk & Hown).
  assert (Hrs : length (mjoin kept) = length (series_ t)).
  { rewrite <- Hkept, length_believed, E2, length_fmap, length_seqZ by done. unfold size_of. lia. }
  assert (Hids : mjoin ids = u32 <$> seqZ 0 (size_of (mjoin kept))) by (rewrite E2; cbn; unfold size_of in *; do 2 f_equal; lia).
  assert (Hstart : series_ t = given now (series_ t) []) by (unfold given; by rewrite zip_with_nil_r).
  assert (Hfits : all_points t + size_of (mjoin kept) ≤ capacity_ t < 2 ^ 64) by (unfold size_of in *; lia).
  split; [done|]. split; [done|]. exists kept. unfold round. cbn [outcome_ sources_count series_ids set const make_sampler].
  rewrite app_nil_l. split_and!; [lia|done|done| |].
  - intros Hkinds. pose proof (round_from_spec now (series_ t) [] 0 ids 0 t s) as Hround. rewrite E3, Eg in Hround.
    cbn [fst snd] in Hround. rewrite Hkept in Hround. destruct Hround as (t' & E & F1 & F2 & F3 & F4 & F5); try done.
    + cbn. lia.
    + intros i s'' r Hi Hr. split; [by eapply (Forall_lookup_1 _ _ _ _ Hlast)|by eapply Hkinds].
    + exists t'. assert (size_of (mjoin kept) = size_of (series_ t)) as Hsz by (unfold size_of; lia).
      rewrite E, Hsz, Z.add_0_l. split_and!; try done.
      cbn [app] in F1. unfold given in F1. by rewrite Hrs, drop_all, app_nil_r in F1.
  - intros n target bad Ht Hb Hk Hkinds. pose proof (round_from_misfit now (series_ t) [] 0 ids 0 t s n target bad) as Hround.
    rewrite E3, Eg in Hround. cbn [fst snd] in Hround. rewrite Hkept in Hround.
    destruct Hround as (e & t' & s'' & E & He & F1 & F5); try done.
    + cbn. lia.
    + intros i s'' r Hin Hi Hr. split; [by eapply (Forall_lookup_1 _ _ _ _ Hlast)|].
      eapply Hkinds; [done|]. by rewrite lookup_take_lt.
    + by eapply (Forall_lookup_1 _ _ _ _ Hlast).
    + exists e, t', s''. split_and!; try done. cbn [app] in F1. pose proof (lookup_lt_Some _ _ _ Hb).
      rewrite F1. unfold given. rewrite length_take, Nat.min_l by lia. f_equal.
      rewrite <- (take_drop n (series_ t)) at 1.
      rewrite zip_with_app_l, length_take, Nat.min_l by lia. rewrite take_take, Nat.min_id.
      rewrite (drop_ge (take n (mjoin kept)) n) by (rewrite length_take; lia). by rewrite zip_with_nil_r, app_nil_r.
Qed.
End Rounds.

(** Two sources: one that gives a reading for each of its metrics, and one that gives one too
    many. *)
Definition machine_metric (name : text) (kind : MetricKind) : Metric :=
  {| metric_name := name; metric_unit := kCount; metric_kind := kind; metric_scope := kMachine; metric_scope_index := 0;
     metric_modulus := None; metric_provider := lit "test" |}.

Definition present (metric : Metric) : MetricStatus := {| status_metric := metric; status_unavailable := None |}.

#[local] Instance two_sources : SourceCalls Z := {|
  source_name at_ := if (at_ =? 0)%nat then lit "edac" else lit "fan";
  probe_source at_ s :=
    (if (at_ =? 0)%nat
     then [present (machine_metric (lit "edac.corrected") kCounter);
           {| status_metric := machine_metric (lit "edac.uncorrected") kCounter;
              status_unavailable := Some (malformed (lit "edac") 0 1) |}]
     else [present (machine_metric (lit "fan.cpu") kGauge)], s);
  sample_source at_ s := (if (at_ =? 0)%nat then [CounterRead s] else [GaugeRead s; GaugeRead s], s + 1);
|}.

Lemma round_complete_witness :
  let '(outcome, sampler, t0, s1) := probe (make_sampler 2) (bounded_timeline 10) 5 in
  ∃ t', round sampler 100 t0 5 = Some (Value 2, t', 7)
    ∧ points_at t' 0 = Some [{| timestamp_ns := 100; reading := CounterRead 5 |}]
    ∧ points_at t' 1 = Some [{| timestamp_ns := 100; reading := Gone (malformed (lit "fan") 2 1) |}].
Proof.
  destruct (probe (make_sampler 2) (bounded_timeline 10) 5) as [[[outcome sampler] t0] s1] eqn:E.
  destruct outcome as [report|e]; [|vm_compute in E; discriminate].
  pose proof (round_complete 2 10 5 report sampler t0 s1 t0 100 5 E eq_refl) as H.
  vm_compute in E. injection E as <- <- <- <-.
  destruct H as (_ & _ & kept & _ & Hlen & Hkept & Hround & _); [reflexivity|reflexivity|discriminate|reflexivity| |].
  { apply Forall_cons_2; [exact I|]. apply Forall_cons_2; [exact I|]. apply Forall_nil_2. }
  destruct Hround as (t' & Er & _).
  - destruct (Hkept 0%nat _ _ eq_refl eq_refl) as (first & H0 & Hf). destruct (Hkept 1%nat _ _ eq_refl eq_refl) as (second & H1 & Hs).
    destruct kept as [|k0 [|k1 kept]]; try discriminate. injection H0 as ->. injection H1 as ->.
    cbv in Hf. subst first. destruct Hs as [Hls Hs]. destruct second as [|r [|]]; try discriminate.
    intros [|[|i]] each got Hi Hr; cbn in Hi, Hr; [injection Hi as <-; injection Hr as <-; reflexivity| |discriminate].
    injection Hi as <-. injection Hr as <-. destruct (Hs r) as (why & -> & _); [apply list_elem_of_here|reflexivity].
  - exists t'. split; [exact Er|]. vm_compute in Er. injection Er as <-. split; reflexivity.
Defined.
