(* ===== verification/Doubles.v ===== *)
(** * Doubles: IEEE 754 binary64, by their bits

    The arithmetic of [double] with the compiler's default rounding and no contraction
    (cmake/FloatingPoint.cmake): the Standard Library's specification of floating point, on
    the bits the other files hold a double by. *)

From Stdlib Require Import SpecFloat.
From S2P Require Export ErrorRecord.

Definition kPrecision : Z := 53.
Definition kMaxExponent : Z := 1024.
Definition kNanBits : Z := 0x7FF8000000000000.

Definition of_bits (bits : Z) : spec_float :=
  let negative := 2 ^ 63 <=? bits in
  let exponent := magnitude bits / 2 ^ 52 in
  let fraction := magnitude bits mod 2 ^ 52 in
  if exponent =? 2047 then (if fraction =? 0 then S754_infinity negative else S754_nan) else
  if exponent =? 0 then
    match fraction with Zpos m => S754_finite negative m (-1074) | _ => S754_zero negative end
  else
    match fraction + 2 ^ 52 with Zpos m => S754_finite negative m (exponent - 1075) | _ => S754_nan end.

Definition sign_bits (negative : bool) : Z := if negative then 2 ^ 63 else 0.

Definition to_bits (value : spec_float) : Z :=
  match value with
  | S754_zero negative => sign_bits negative
  | S754_infinity negative => sign_bits negative + kExponentBits
  | S754_nan => kNanBits
  | S754_finite negative m e =>
      sign_bits negative + (if Zpos m <? 2 ^ 52 then Zpos m else (e + 1075) * 2 ^ 52 + (Zpos m - 2 ^ 52))
  end.

(** [static_cast<double>] of an integer. *)
Definition double_of_int (n : Z) : Z := to_bits (binary_normalize kPrecision kMaxExponent n 0 false).

Definition double_add (a b : Z) : Z := to_bits (SFadd kPrecision kMaxExponent (of_bits a) (of_bits b)).
Definition double_sub (a b : Z) : Z := to_bits (SFsub kPrecision kMaxExponent (of_bits a) (of_bits b)).
Definition double_mul (a b : Z) : Z := to_bits (SFmul kPrecision kMaxExponent (of_bits a) (of_bits b)).
Definition double_div (a b : Z) : Z := to_bits (SFdiv kPrecision kMaxExponent (of_bits a) (of_bits b)).
Definition double_sqrt (a : Z) : Z := to_bits (SFsqrt kPrecision kMaxExponent (of_bits a)).
Definition double_abs (a : Z) : Z := magnitude a.

(** [std::min] and [std::max]. *)
Definition double_min (a b : Z) : Z := if double_lt b a then b else a.
Definition double_max (a b : Z) : Z := if double_lt a b then b else a.

(** ** The bits and their value *)

(** Bits that are no NaN are the bits of their value. *)
Lemma to_of_bits bits : in_u64 bits → is_nan bits = false → to_bits (of_bits bits) = bits.
Proof.
  intros Hb Hn. unfold is_nan, magnitude in Hn. apply Z.ltb_ge in Hn. unfold in_u64 in Hb.
  assert (Hsign : sign_bits (2 ^ 63 <=? bits) = bits - bits mod 2 ^ 63).
  { unfold sign_bits. destruct (Z.leb_spec (2 ^ 63) bits).
    - rewrite (Z.mod_eq bits) by lia. assert (bits / 2 ^ 63 = 1) as -> by (symmetry; apply Z.div_unique with (bits - 2 ^ 63); lia). lia.
    - rewrite Z.mod_small by lia. lia. }
  unfold of_bits, magnitude. set (r := bits mod 2 ^ 63) in *.
  assert (Hr : 0 ≤ r < 2 ^ 63) by (apply Z.mod_pos_bound; lia).
  pose proof (Z.div_mod r (2 ^ 52) ltac:(lia)) as Hd. pose proof (Z.mod_pos_bound r (2 ^ 52) ltac:(lia)) as Hf.
  set (e := r / 2 ^ 52) in *. set (f := r mod 2 ^ 52) in *. unfold kExponentBits in Hn.
  assert (He : 0 ≤ e) by (apply Z.div_pos; lia).
  destruct (Z.eqb_spec e 2047) as [E|E].
  - assert (f = 0) as -> by lia. cbn. rewrite Hsign. unfold kExponentBits. lia.
  - destruct (Z.eqb_spec e 0) as [E0|E0].
    + destruct f as [|m|m] eqn:Ef; cbn [to_bits]; [lia| |lia]. rewrite (proj2 (Z.ltb_lt _ _)) by lia. lia.
    + destruct (f + 2 ^ 52) as [|m|m] eqn:Ef; try lia. cbn [to_bits]. rewrite (proj2 (Z.ltb_ge _ _)) by lia. lia.
Qed.

(** One, a third of it, and what is lost of a tenth. *)
Example doubles_computed :
  double_div (double_of_int 1) (double_of_int 3) = 0x3FD5555555555555
  ∧ double_add 0x3FB999999999999A 0x3FC999999999999A = 0x3FD3333333333334
  ∧ double_of_int (2 ^ 53 + 1) = double_of_int (2 ^ 53) ∧ double_of_int (-3) = 0xC008000000000000
  ∧ double_sqrt (double_of_int 2) = 0x3FF6A09E667F3BCD ∧ double_sub (double_of_int 1) (double_of_int 1) = 0.
Proof. vm_compute. by split_and!. Qed.
