(* ===== verification/Signature.v ===== *)
(** * statistics: what a window of the timeline comes to

    The windows of a run and of its phases (statistics/signature.hpp), the summary of one
    series over a window and of all of them (statistics/summarizer.cpp), and the windows a
    report is made of (main/run_result.cpp). [std::lower_bound] on a timeline's points, which
    are later and later, is the first that is not earlier than the bound. *)

From S2P Require Export Doubles Timeline.

(** ** signature.hpp *)

Record Window := { window_start_ns : Z; window_end_ns : Z }.

Definition kClosingMargin : Z := 1.

Definition run_window (first_round_ns last_round_ns : Z) : Window :=
  {| window_start_ns := first_round_ns; window_end_ns := last_round_ns + kClosingMargin |}.

(** None where [index] is not below the number of marks, which the code does not allow. *)
Definition phase_window (marks : list PhaseMark) (index : nat) (last_round_ns : Z) : option Window :=
  match marks !! index with
  | None => None
  | Some mark =>
      Some {| window_start_ns := start_ns mark;
              window_end_ns := from_option start_ns last_round_ns (marks !! S index) + kClosingMargin |}
  end.

Record GaugeSummary := {
  gauge_samples : Z;
  gauge_min : Z;
  gauge_max : Z;
  gauge_mean : Z;
  gauge_stddev : option Z;
  gauge_first : Z;
  gauge_last : Z;
  gauge_slope_per_second : option Z;
}.

Record CounterSummary := {
  counter_samples : Z;
  counter_total : Z;
  counter_rate_per_second : option Z;
  counter_resets : Z;
}.

(** [std::variant<Unavailable, GaugeSummary, CounterSummary>]. *)
Inductive Summary := SummaryGone (why : Missing) | SummaryGauge (gauge : GaugeSummary) | SummaryCounter (counter : CounterSummary).

Record MetricSummary := { summary_metric : Metric; summary_value : Summary; unavailable_samples : Z }.
Record LoadSignature := { signature_window : Window; signature_metrics : list MetricSummary }.

Inductive StatisticsFault := kWindow.
Definition describe_statistics_fault (fault : StatisticsFault) : text :=
  match fault with kWindow => lit "empty or inverted window" end.
Record StatisticsError := { statistics_fault : StatisticsFault; statistics_detail : text }.

(** ** summarizer.cpp *)

Definition kNanosecondsPerSecond : Z := double_of_int 1000000000.

(** Neumaier's compensated sum. *)
Record Sum := { sum_ : Z; compensation_ : Z }.

Definition no_sum : Sum := {| sum_ := 0; compensation_ := 0 |}.

Definition sum_add (s : Sum) (value : Z) : Sum :=
  let total := double_add (sum_ s) value in
  {| compensation_ := double_add (compensation_ s)
       (if double_le (double_abs value) (double_abs (sum_ s))
        then double_add (double_sub (sum_ s) total) value
        else double_add (double_sub value total) (sum_ s));
     sum_ := total |}.

Definition sum_value (s : Sum) : Z := double_add (sum_ s) (compensation_ s).

Record GaugeReading := { gauge_ns : Z; gauge_value : Z }.

Definition seconds_since (origin ns : Z) : Z := double_div (double_of_int (ns - origin)) kNanosecondsPerSecond.

(** The body of summarize_gauge; [first_reading] is [readings.front()], [last_reading]
    [readings.back()]. *)
Definition summarize_gauge_of (readings : list GaugeReading) (first_reading last_reading : GaugeReading) : GaugeSummary :=
  let first := gauge_value first_reading in
  let least := foldl (λ m r, double_min m (gauge_value r)) first readings in
  let most := foldl (λ m r, double_max m (gauge_value r)) first readings in
  let values := foldl (λ s r, sum_add s (gauge_value r)) no_sum readings in
  let count := double_of_int (size_of readings) in
  let mean := double_div (sum_value values) count in
  let summary := {| gauge_samples := size_of readings; gauge_min := least; gauge_max := most; gauge_mean := mean;
                    gauge_stddev := None; gauge_first := first; gauge_last := gauge_value last_reading;
                    gauge_slope_per_second := None |} in
  if size_of readings <? 2 then summary else
  let origin := gauge_ns first_reading in
  let squares := foldl (λ s r, let deviation := double_sub (gauge_value r) mean in
                               sum_add s (double_mul deviation deviation)) no_sum readings in
  let times := foldl (λ s r, sum_add s (seconds_since origin (gauge_ns r))) no_sum readings in
  let summary := summary <| gauge_stddev := Some (double_sqrt (double_div (sum_value squares) (double_sub count (double_of_int 1)))) |> in
  let mean_time := double_div (sum_value times) count in
  let time_of (r : GaugeReading) := double_sub (seconds_since origin (gauge_ns r)) mean_time in
  let covariance := foldl (λ s r, sum_add s (double_mul (time_of r) (double_sub (gauge_value r) mean))) no_sum readings in
  let variance := foldl (λ s r, sum_add s (double_mul (time_of r) (time_of r))) no_sum readings in
  if double_lt 0 (sum_value variance)
  then summary <| gauge_slope_per_second := Some (double_div (sum_value covariance) (sum_value variance)) |>
  else summary.

(** None where there is no reading, which the code does not allow. *)
Definition summarize_gauge (readings : list GaugeReading) : option GaugeSummary :=
  match readings, last readings with
  | first_reading :: _, Some last_reading => Some (summarize_gauge_of readings first_reading last_reading)
  | _, _ => None
  end.

Definition nothing_in_window : Missing :=
  {| missing_kind := kAbsent; missing_path := []; missing_detail := lit "no sample in the window";
     missing_remediation := lit "sample for longer, or more often, so that the window holds a reading" |}.

(** What the loop of summarize_series keeps; [previous] is the time and the raw value of the
    last present counter reading, if no gap since. *)
Record Walk := {
  walk_unavailable : Z;
  walk_gauges : list GaugeReading;
  walk_samples : Z;
  walk_delta : Z;
  walk_resets : Z;
  previous : option (Z * Z);
  span_ns : Z;
  last_unavailable : option Missing;
}.

Definition no_walk : Walk :=
  {| walk_unavailable := 0; walk_gauges := []; walk_samples := 0; walk_delta := 0; walk_resets := 0;
     previous := None; span_ns := 0; last_unavailable := None |}.

Definition summarize_point (metric : Metric) (w : Walk) (point : Point) : Walk :=
  match reading point with
  | Gone gone => w <| walk_unavailable ::= (λ n, u64 (n + 1)) |> <| last_unavailable := Some gone |> <| previous := None |>
  | GaugeRead value =>
      if bool_decide (metric_kind metric = kGauge)
      then w <| walk_gauges ::= (λ gauges, gauges ++ [{| gauge_ns := timestamp_ns point; gauge_value := value |}]) |>
      else w
  | CounterRead raw =>
      if bool_decide (metric_kind metric = kCounter)
      then
        let w := w <| walk_samples ::= (λ n, u64 (n + 1)) |> in
        let w := match previous w with
                 | None => w
                 | Some (before_ns, before) =>
                     match counter_advance before raw (metric_modulus metric) with
                     | Some advance => w <| walk_delta ::= (λ n, u64 (n + advance)) |>
                                         <| span_ns ::= (λ n, n + (timestamp_ns point - before_ns)) |>
                     | None => w <| walk_resets ::= (λ n, u64 (n + 1)) |>
                     end
                 end in
        w <| previous := Some (timestamp_ns point, raw) |>
      else w
  end.

Definition counter_of (w : Walk) : CounterSummary :=
  {| counter_samples := walk_samples w; counter_total := walk_delta w;
     counter_rate_per_second :=
       (if 0 <? span_ns w
        then Some (double_div (double_of_int (walk_delta w)) (double_div (double_of_int (span_ns w)) kNanosecondsPerSecond))
        else None);
     counter_resets := walk_resets w |}.

Definition summary_of (w : Walk) : Summary :=
  match summarize_gauge (walk_gauges w) with
  | Some gauge => SummaryGauge gauge
  | None =>
      if 0 <? walk_samples w then SummaryCounter (counter_of w) else
      SummaryGone (default nothing_in_window (last_unavailable w))
  end.

Definition summarize_series (metric : Metric) (points : list Point) : MetricSummary :=
  let w := foldl (summarize_point metric) no_walk points in
  {| summary_metric := metric; summary_value := summary_of w; unavailable_samples := walk_unavailable w |}.

Fixpoint points_from (bound : Z) (points : list Point) : list Point :=
  match points with
  | [] => []
  | point :: rest => if timestamp_ns point <? bound then points_from bound rest else points
  end.

Fixpoint points_before (bound : Z) (points : list Point) : list Point :=
  match points with
  | [] => []
  | point :: rest => if timestamp_ns point <? bound then point :: points_before bound rest else []
  end.

Definition in_window (window : Window) (points : list Point) : list Point :=
  points_before (window_end_ns window) (points_from (window_start_ns window) points).

Definition summarize (view : BoundedTimeline) (window : Window) : Result LoadSignature StatisticsError :=
  if window_end_ns window <=? window_start_ns window
  then Error {| statistics_fault := kWindow; statistics_detail := lit "the window ends no later than it starts" |}
  else Value {| signature_window := window;
                signature_metrics :=
                  (λ s, summarize_series (series_metric s) (in_window window (series_points s))) <$> series_ view |}.

(** ** run_result.cpp *)

Definition phase_windows (timeline : BoundedTimeline) (end_ns : Z) : list (text * Window) :=
  omap (λ at_, mark ← phases_ timeline !! at_; window ← phase_window (phases_ timeline) at_ end_ns;
               Some (label mark, window)) (seq 0 (length (phases_ timeline))).

Definition series_name (metric : Metric) : text :=
  if bool_decide (metric_scope metric = kMachine) then metric_name metric
  else metric_name metric ++ lit " " ++ describe_scope (metric_scope metric) ++ lit " " ++ to_dec (metric_scope_index metric).

Record PhaseDelta := { delta_phase : text; delta_metric : text; phase_delta : Z }.

Definition delta_of (phase : text) (name : text) (summary : MetricSummary) : option PhaseDelta :=
  match summary_value summary with
  | SummaryCounter counter =>
      if bool_decide (metric_name (summary_metric summary) = name) && (0 <? counter_total counter)
      then Some {| delta_phase := phase; delta_metric := series_name (summary_metric summary); phase_delta := counter_total counter |}
      else None
  | _ => None
  end.

Definition counter_by_phase (timeline : BoundedTimeline) (name : text) (end_ns : Z) : list PhaseDelta :=
  concat ((λ '(phase, window),
    match summarize timeline window with
    | Value signature => omap (delta_of phase name) (signature_metrics signature)
    | Error _ => []
    end) <$> phase_windows timeline end_ns).

(** ** What a series comes to, without the loop *)

(** A present reading of a counter, with its time. *)
Definition seen (p : Point) : option (Z * Z) :=
  match reading p with CounterRead raw => Some (timestamp_ns p, raw) | _ => None end.

(** What two consecutive readings say: the advance, None for a reset, and the time between. *)
Definition step_between (modulus : option Z) (a b : option (Z * Z)) : option (option Z * Z) :=
  match a, b with
  | Some (before_ns, before), Some (ns, raw) => Some (counter_advance before raw modulus, ns - before_ns)
  | _, _ => None
  end.

Fixpoint steps_after (modulus : option Z) (prev : option (Z * Z)) (points : list Point) : list (option Z * Z) :=
  match points with
  | [] => []
  | p :: rest => option_list (step_between modulus prev (seen p)) ++ steps_after modulus (seen p) rest
  end.

Definition steps_of (modulus : option Z) (points : list Point) : list (option Z * Z) := steps_after modulus None points.

Definition total_of (l : list Z) : Z := foldr Z.add 0 l.
Definition advances (steps : list (option Z * Z)) : Z := total_of (omap fst steps).
Definition resets_in (steps : list (option Z * Z)) : Z := size_of (omap (λ step, match step.1 with None => Some step.2 | Some _ => None end) steps).
Definition counted_span (steps : list (option Z * Z)) : Z :=
  total_of (omap (λ step, match step.1 with Some _ => Some step.2 | None => None end) steps).

Definition counts_in (points : list Point) : list (Z * Z) := omap seen points.
Definition gauges_in (points : list Point) : list GaugeReading :=
  omap (λ p, match reading p with
             | GaugeRead value => Some {| gauge_ns := timestamp_ns p; gauge_value := value |}
             | _ => None end) points.
Definition gone_in (points : list Point) : list Missing :=
  omap (λ p, match reading p with Gone why => Some why | _ => None end) points.

Lemma total_app l k : total_of (l ++ k) = total_of l + total_of k.
Proof. induction l as [|x l IH]; cbn; [done|]. unfold total_of in *. lia. Qed.

Lemma advances_app l k : advances (l ++ k) = advances l + advances k.
Proof. unfold advances. by rewrite omap_app, total_app. Qed.

Lemma resets_app l k : resets_in (l ++ k) = resets_in l + resets_in k.
Proof. unfold resets_in, size_of. rewrite omap_app, length_app. lia. Qed.

Lemma span_app l k : counted_span (l ++ k) = counted_span l + counted_span k.
Proof. unfold counted_span. by rewrite omap_app, total_app. Qed.

Lemma u64_plus a b : u64 (u64 a + b) = u64 (a + b).
Proof. unfold u64. apply Zplus_mod_idemp_l. Qed.

(** The loop over a counter's points, from any point of it. *)
Record walked (metric : Metric) (w w' : Walk) (points : list Point) : Prop := {
  walked_steps : let steps := steps_after (metric_modulus metric) (previous w) points in
    u64 (walk_delta w') = u64 (walk_delta w + advances steps)
    ∧ u64 (walk_resets w') = u64 (walk_resets w + resets_in steps)
    ∧ span_ns w' = span_ns w + counted_span steps;
  walked_samples : u64 (walk_samples w') = u64 (walk_samples w + size_of (counts_in points));
  walked_gauges : walk_gauges w' = walk_gauges w;
}.

Lemma walk_counter metric points w :
  metric_kind metric = kCounter →
  Forall (λ p, kind_matches kCounter (reading p) = true) points →
  walked metric w (foldl (summarize_point metric) w points) points.
Proof.
  intros Hk. revert w. induction points as [|p points IH]; intros w Hall.
  { split; cbn; unfold advances, counted_span, resets_in, size_of; cbn; split_and?; f_equal; lia. }
  apply Forall_cons in Hall as [Hp Hall]. cbn [foldl]. set (w1 := summarize_point metric w p).
  assert (Hw : let steps := option_list (step_between (metric_modulus metric) (previous w) (seen p)) in
    u64 (walk_delta w1) = u64 (walk_delta w + advances steps) ∧ u64 (walk_resets w1) = u64 (walk_resets w + resets_in steps)
    ∧ span_ns w1 = span_ns w + counted_span steps ∧ previous w1 = seen p
    ∧ u64 (walk_samples w1) = u64 (walk_samples w + size_of (option_list (seen p))) ∧ walk_gauges w1 = walk_gauges w).
  { unfold w1, summarize_point, seen, kind_matches in *. rewrite Hk. destruct (reading p) as [gone|value|raw];
      [|by apply bool_decide_eq_true in Hp|].
    all: rewrite ?bool_decide_true by done; cbn; destruct (previous w) as [[before_ns before]|]; cbn; try (destruct (counter_advance _ _ _) as [advance|]; cbn);
      unfold advances, resets_in, counted_span, size_of; cbn; unfold u64; rewrite ?Zmod_mod, ?Z.add_0_r; done. }
  destruct Hw as (E1 & E2 & E3 & E4 & E5 & E6). destruct (IH w1 Hall) as [(H1 & H2 & H3) H4 H5].
  split; cbn [steps_after].
  - rewrite E4 in H1, H2, H3. rewrite advances_app, resets_app, span_app. split_and!.
    + rewrite H1, <- u64_plus, E1, u64_plus. f_equal. lia.
    + rewrite H2, <- u64_plus, E2, u64_plus. f_equal. lia.
    + lia.
  - rewrite H4, <- u64_plus, E5, u64_plus. f_equal. unfold counts_in. cbn. destruct (seen p); cbn; unfold size_of; cbn; lia.
  - congruence.
Qed.

(** Gauges, and what is unavailable, whatever the kind. *)
Lemma walk_rest metric points w :
  Forall (λ p, kind_matches (metric_kind metric) (reading p) = true) points →
  let w' := foldl (summarize_point metric) w points in
  (metric_kind metric = kGauge → walk_gauges w' = walk_gauges w ++ gauges_in points ∧ walk_samples w' = walk_samples w)
  ∧ u64 (walk_unavailable w') = u64 (walk_unavailable w + size_of (gone_in points))
  ∧ last_unavailable w' = from_option Some (last_unavailable w) (last (gone_in points)).
Proof.
  revert w. induction points as [|p points IH]; intros w Hall; cbn [foldl].
  { unfold gauges_in, gone_in, size_of. cbn. rewrite app_nil_r. split_and!; try done. f_equal. lia. }
  apply Forall_cons in Hall as [Hp Hall]. set (w1 := summarize_point metric w p).
  assert (Hw : (metric_kind metric = kGauge → walk_gauges w1 = walk_gauges w ++ gauges_in [p] ∧ walk_samples w1 = walk_samples w)
    ∧ u64 (walk_unavailable w1) = u64 (walk_unavailable w + size_of (gone_in [p]))
    ∧ last_unavailable w1 = from_option Some (last_unavailable w) (last (gone_in [p]))).
  { unfold w1, summarize_point, kind_matches, gauges_in, gone_in, size_of in *. cbn.
    destruct (reading p) as [gone|value|raw]; cbn.
    - rewrite app_nil_r. split_and!; [done| |done]. unfold u64. by rewrite Zmod_mod.
    - rewrite Hp. cbn. by rewrite Z.add_0_r.
    - rewrite Hp. apply bool_decide_eq_true in Hp.
      destruct (previous w) as [[? ?]|]; [destruct (counter_advance _ _ _)|]; cbn; rewrite Z.add_0_r; split_and!; congruence. }
  destruct Hw as (E1 & E2 & E3). destruct (IH w1 Hall) as (H1 & H2 & H3). split_and!.
  - intros Hk. destruct (E1 Hk) as [E4 E5], (H1 Hk) as [-> ->]. rewrite E4, E5, <- app_assoc. split; [|done]. f_equal.
    unfold gauges_in. by rewrite <- omap_app.
  - rewrite H2, <- u64_plus, E2, u64_plus. f_equal. unfold gone_in, size_of. change (p :: points) with ([p] ++ points).
    rewrite omap_app, length_app. lia.
  - rewrite H3, E3. unfold gone_in. change (p :: points) with ([p] ++ points). rewrite omap_app, last_app.
    by destruct (last (omap _ points)).
Qed.

(** ** Windows *)

Definition within (start end_ : Z) (p : Point) : Prop := start ≤ timestamp_ns p < end_.

#[export] Instance within_dec start end_ p : Decision (within start end_ p).
Proof. unfold within. apply _. Defined.

Lemma filter_Forall_iff {A} (P Q : A → Prop) `{!∀ x, Decision (P x), !∀ x, Decision (Q x)} (l : list A) :
  Forall (λ x, P x ↔ Q x) l → filter P l = filter Q l.
Proof. intros Hl. induction Hl as [|x l Hx _ IH]; [done|]. rewrite !filter_cons, IH. repeat case_decide; tauto. Qed.

Lemma filter_none {A} (P : A → Prop) `{!∀ x, Decision (P x)} (l : list A) : Forall (λ x, ¬ P x) l → filter P l = [].
Proof. intros Hl. induction Hl as [|x l Hx _ IH]; [done|]. by rewrite filter_cons, decide_False. Qed.

Lemma filter_every {A} (P : A → Prop) `{!∀ x, Decision (P x)} (l : list A) : Forall P l → filter P l = l.
Proof. intros Hl. induction Hl as [|x l Hx _ IH]; [done|]. by rewrite filter_cons, decide_True, IH. Qed.

Lemma points_from_sorted bound points :
  StronglySorted later points → points_from bound points = filter (λ p, bound ≤ timestamp_ns p) points.
Proof.
  intros Hs. induction Hs as [|p points Hs IH Hall]; cbn [points_from]; [done|]. rewrite filter_cons.
  destruct (Z.ltb_spec (timestamp_ns p) bound); [rewrite decide_False by lia; done|]. rewrite decide_True by lia. f_equal.
  symmetry. apply filter_every. eapply Forall_impl; [exact Hall|]. unfold later. intros q ?. lia.
Qed.

Lemma points_before_sorted bound points :
  StronglySorted later points → points_before bound points = filter (λ p, timestamp_ns p < bound) points.
Proof.
  intros Hs. induction Hs as [|p points Hs IH Hall]; cbn [points_before]; [done|]. rewrite filter_cons.
  destruct (Z.ltb_spec (timestamp_ns p) bound); [rewrite decide_True by lia; by rewrite IH|]. rewrite decide_False by lia.
  symmetry. apply filter_none. eapply Forall_impl; [exact Hall|]. unfold later. intros q ?. lia.
Qed.

Lemma in_window_filter window points :
  StronglySorted later points →
  in_window window points = filter (within (window_start_ns window) (window_end_ns window)) points.
Proof.
  intros Hs. unfold in_window. rewrite points_from_sorted by done. rewrite points_before_sorted.
  - rewrite list_filter_filter. apply filter_Forall_iff, Forall_true. unfold within. intros p. lia.
  - induction Hs as [|p points Hs IH Hall]; [constructor|]. rewrite filter_cons. case_decide; [|done]. constructor; [done|].
    apply Forall_forall. intros q [_ Hq]%list_elem_of_filter. by eapply Forall_forall in Hall.
Qed.

(** A window that closes on a reading and one that opens on it meet in that reading. *)
Lemma windows_meet points first mark last_ns p :
  StronglySorted later points → p ∈ points → timestamp_ns p = mark → first ≤ mark ≤ last_ns →
  ∃ before after,
    filter (within first (last_ns + 1)) points = before ++ p :: after
    ∧ filter (within first (mark + 1)) points = before ++ [p]
    ∧ filter (within mark (last_ns + 1)) points = p :: after.
Proof.
  intros Hs Hp <- Hr. apply list_elem_of_split in Hp as (l & k & ->).
  assert (Forall (λ q, timestamp_ns q < timestamp_ns p) l ∧ Forall (λ q, timestamp_ns p < timestamp_ns q) k) as [Hl Hk].
  { induction l as [|q l IH]; cbn [app] in Hs; apply StronglySorted_inv in Hs as [Hs Hall]; [done|].
    destruct (IH Hs) as [IHl IHk]. split; [|done]. constructor; [|done]. apply Forall_app in Hall as [_ Hall]. by apply Forall_cons in Hall as [? _]. }
  exists (filter (within first (timestamp_ns p + 1)) l), (filter (within (timestamp_ns p) (last_ns + 1)) k).
  unfold within in *. rewrite !filter_app, !filter_cons, !decide_True by lia. split_and!; [f_equal; [|f_equal]|f_equal|].
  - apply filter_Forall_iff. eapply Forall_impl; [exact Hl|]. cbn. intros q ?. lia.
  - apply filter_Forall_iff. eapply Forall_impl; [exact Hk|]. cbn. intros q ?. lia.
  - rewrite filter_none; [done|]. eapply Forall_impl; [exact Hk|]. cbn. intros q ?. lia.
  - rewrite (filter_none _ l); [done|]. eapply Forall_impl; [exact Hl|]. cbn. intros q ?. lia.
Qed.

Lemma steps_meet modulus before p after :
  steps_of modulus (before ++ p :: after) = steps_of modulus (before ++ [p]) ++ steps_of modulus (p :: after).
Proof.
  unfold steps_of. generalize (@None (Z * Z)) at 1 2. intros prev.
  revert prev. induction before as [|q before IH]; intros prev; cbn [app steps_after].
  - by rewrite !app_nil_r.
  - by rewrite IH, <- app_assoc.
Qed.

(** ** Summaries *)

Record walk_range (w : Walk) : Prop := {
  range_delta : in_u64 (walk_delta w);
  range_resets : in_u64 (walk_resets w);
  range_samples : in_u64 (walk_samples w);
  range_unavailable : in_u64 (walk_unavailable w);
}.

Lemma walk_in_range metric points w : walk_range w → walk_range (foldl (summarize_point metric) w points).
Proof.
  revert w. induction points as [|p points IH]; intros w Hw; [done|]. cbn [foldl]. apply IH. destruct Hw.
  unfold summarize_point. destruct (reading p); try case_bool_decide; try (split; cbn; by eauto using u64_range).
  destruct (previous w) as [[? ?]|] eqn:E; cbn; rewrite E; [destruct (counter_advance _ _ _)|];
    split; cbn; by eauto using u64_range.
Qed.

Lemma no_walk_range : walk_range no_walk.
Proof. split; cbn; unfold in_u64; lia. Qed.

(** What a series of the metric's kind comes to. *)
Definition summary_spec (metric : Metric) (points : list Point) : Summary :=
  let gone := SummaryGone (default nothing_in_window (last (gone_in points))) in
  match metric_kind metric with
  | kGauge => from_option SummaryGauge gone (summarize_gauge (gauges_in points))
  | kCounter =>
      let steps := steps_of (metric_modulus metric) points in
      match counts_in points with
      | [] => gone
      | _ =>
          SummaryCounter {|
            counter_samples := size_of (counts_in points);
            counter_total := u64 (advances steps);
            counter_rate_per_second :=
              (if 0 <? counted_span steps
               then Some (double_div (double_of_int (u64 (advances steps)))
                                     (double_div (double_of_int (counted_span steps)) kNanosecondsPerSecond))
               else None);
            counter_resets := u64 (resets_in steps) |}
      end
  end.

Lemma omap_size {A B} (f : A → option B) l : 0 ≤ size_of (omap f l) ≤ size_of l.
Proof. unfold size_of. induction l as [|x l IH]; cbn; [lia|]. destruct (f x); cbn; lia. Qed.

Lemma gauge_summarised l : gauges_in l = [] ↔ summarize_gauge (gauges_in l) = None.
Proof.
  unfold summarize_gauge. destruct (gauges_in l) as [|g gs]; [done|].
  destruct (last (g :: gs)) eqn:E; [done|]. by apply last_None in E.
Qed.

Lemma series_summarised metric points :
  Forall (λ p, kind_matches (metric_kind metric) (reading p) = true) points → size_of points < 2 ^ 64 →
  summarize_series metric points
  = {| summary_metric := metric; summary_value := summary_spec metric points;
       unavailable_samples := size_of (gone_in points) |}.
Proof.
  intros Hk Hsize. unfold summarize_series. set (w := foldl _ _ _).
  destruct (walk_rest metric points no_walk Hk) as (Hg & Hu & Hl). fold w in Hg, Hu, Hl.
  pose proof (walk_in_range metric points no_walk no_walk_range) as [R1 R2 R3 R4]. fold w in R1, R2, R3, R4.
  assert (Hsmall : ∀ {B} (f : Point → option B), u64 (size_of (omap f points)) = size_of (omap f points)).
  { intros B f. apply u64_small. pose proof (omap_size f points). unfold in_u64. lia. }
  rewrite (u64_small (walk_unavailable w)) in Hu by done. cbn [walk_unavailable no_walk] in Hu. unfold gone_in in Hu. rewrite Z.add_0_l, Hsmall in Hu.
  fold (gone_in points) in Hu. rewrite Hu. f_equal. unfold summary_of, summary_spec.
  assert (Hgone : default nothing_in_window (last_unavailable w) = default nothing_in_window (last (gone_in points))).
  { rewrite Hl. by destruct (last _). }
  destruct (metric_kind metric) eqn:Ek.
  - destruct (Hg eq_refl) as [-> ->]. cbn [no_walk walk_gauges walk_samples app]. rewrite Hgone. by destruct (summarize_gauge _).
  - destruct (walk_counter metric points no_walk Ek Hk) as [(H1 & H2 & H3) H4 H5]. fold w in H1, H2, H3, H4, H5.
    rewrite (u64_small (walk_delta w)) in H1 by done. rewrite (u64_small (walk_resets w)) in H2 by done.
    rewrite (u64_small (walk_samples w)) in H4 by done. cbn [no_walk walk_delta walk_resets walk_samples span_ns previous walk_gauges] in *.
    fold (steps_of (metric_modulus metric) points) in H1, H2, H3. rewrite Z.add_0_l in H1, H2, H3, H4.
    unfold counts_in in *. rewrite Hsmall in H4. rewrite H5. cbn [summarize_gauge]. unfold counter_of. rewrite H1, H2, H3, H4, Hgone.
    destruct (omap seen points) as [|c cs]; [done|]. unfold size_of at 1. cbn [length].
    by rewrite (proj2 (Z.ltb_lt _ _)) by lia.
Qed.

(** ** What a run's phases come to *)

Definition counter_part (id : nat) (r : Result LoadSignature StatisticsError) : Z * Z :=
  match r with
  | Value signature =>
      match signature_metrics signature !! id with
      | Some {| summary_value := SummaryCounter counter |} => (counter_total counter, counter_resets counter)
      | _ => (0, 0)
      end
  | Error _ => (0, 0)
  end.

Lemma counter_part_steps view id s start end_ :
  series_ view !! id = Some s → series_ok s → metric_kind (series_metric s) = kCounter →
  size_of (series_points s) < 2 ^ 64 → start < end_ →
  let steps := steps_of (metric_modulus (series_metric s)) (filter (within start end_) (series_points s)) in
  counter_part id (summarize view {| window_start_ns := start; window_end_ns := end_ |})
  = (u64 (advances steps), u64 (resets_in steps)).
Proof.
  intros Hs [Hsorted Hkinds] Hk Hsize Hw steps. unfold summarize. cbn [window_start_ns window_end_ns].
  rewrite (proj2 (Z.leb_gt _ _)) by lia. cbn [counter_part signature_metrics]. rewrite list_lookup_fmap, Hs. cbn [fmap option_fmap option_map].
  rewrite in_window_filter by done. cbn [window_start_ns window_end_ns]. set (pts := filter _ _) in *.
  rewrite series_summarised.
  - cbn [summary_value]. unfold summary_spec. rewrite Hk. destruct (counts_in pts) as [|c cs] eqn:E; [|done].
    assert (∀ prev, steps_after (metric_modulus (series_metric s)) prev pts = []) as Hnil; [|unfold steps, steps_of; by rewrite Hnil].
    clear -E. unfold counts_in in E. induction pts as [|p pts IH]; intros prev; [done|]. cbn in E |- *.
    destruct (seen p) eqn:Ep; [done|]. rewrite IH by done. unfold step_between. by destruct prev as [[? ?]|].
  - apply Forall_forall. intros p [_ Hp]%list_elem_of_filter. by eapply Forall_forall in Hkinds.
  - assert (size_of pts ≤ size_of (series_points s)); [|lia]. unfold pts, size_of. apply Nat2Z.inj_le, length_filter.
Qed.

Fixpoint windows_of (marks : list PhaseMark) (last_ns : Z) : list (text * Window) :=
  match marks with
  | [] => []
  | mark :: marks =>
      (label mark, {| window_start_ns := start_ns mark;
                      window_end_ns := from_option start_ns last_ns (head marks) + kClosingMargin |}) :: windows_of marks last_ns
  end.

Lemma phase_windows_of view last_ns : phase_windows view last_ns = windows_of (phases_ view) last_ns.
Proof.
  unfold phase_windows. induction (phases_ view) as [|m ms IH]; [done|]. cbn [length seq omap list_omap windows_of].
  cbn [lookup list_lookup mbind option_bind]. unfold phase_window at 1. cbn [lookup list_lookup]. f_equal.
  - f_equal. f_equal. f_equal. by destruct ms.
  - rewrite <- IH, <- fmap_S_seq. generalize (seq 0 (length ms)). intros l.
    induction l as [|i l IHl]; [done|]. cbn [fmap list_fmap omap list_omap]. rewrite IHl. done.
Qed.

Definition steps_in (modulus : option Z) (points : list Point) (w : Window) : list (option Z * Z) :=
  steps_of modulus (filter (within (window_start_ns w) (window_end_ns w)) points).

(** Every pair of consecutive readings is in exactly one phase. *)
Lemma phases_partition modulus points last_ns m marks :
  StronglySorted later points → StronglySorted mark_later (m :: marks) →
  Forall (λ m, start_ns m ≤ last_ns) (m :: marks) →
  Forall (λ m, ∃ p, p ∈ points ∧ timestamp_ns p = start_ns m) marks →
  concat ((λ w, steps_in modulus points w.2) <$> windows_of (m :: marks) last_ns)
  = steps_in modulus points (run_window (start_ns m) last_ns).
Proof.
  intros Hp. revert m. induction marks as [|next marks IH]; intros m Hs Hl Hr.
  { cbn. by rewrite app_nil_r. }
  apply Forall_cons in Hl as [Hm Hl], Hr as [(p & Hin & Ep) Hr]. apply StronglySorted_inv in Hs as [Hs Hall].
  apply Forall_cons in Hall as [Hlater _]. pose proof (Forall_inv Hl) as Hnext. unfold mark_later in Hlater.
  specialize (IH next Hs Hl Hr). change (windows_of (m :: next :: marks) last_ns) with
    ((label m, {| window_start_ns := start_ns m; window_end_ns := start_ns next + kClosingMargin |}) :: windows_of (next :: marks) last_ns).
  cbn [fmap list_fmap concat]. rewrite IH. unfold steps_in, run_window, kClosingMargin. cbn [window_start_ns window_end_ns snd].
  destruct (windows_meet points (start_ns m) (start_ns next) last_ns p Hp Hin Ep ltac:(cbn in *; lia)) as (before & after & -> & -> & ->).
  by rewrite <- steps_meet.
Qed.

Lemma sum_parts {A} (f : A → list (option Z * Z)) (l : list A) :
  u64 (total_of ((λ x, u64 (advances (f x))) <$> l)) = u64 (advances (concat (f <$> l)))
  ∧ u64 (total_of ((λ x, u64 (resets_in (f x))) <$> l)) = u64 (resets_in (concat (f <$> l))).
Proof.
  induction l as [|x l [IH1 IH2]]; [done|]. cbn [fmap list_fmap concat total_of foldr].
  rewrite advances_app, resets_app, !u64_plus. fold (total_of ((λ x, u64 (advances (f x))) <$> l)).
  fold (total_of ((λ x, u64 (resets_in (f x))) <$> l)).
  split; rewrite Z.add_comm, <- u64_plus; [rewrite IH1|rewrite IH2]; rewrite u64_plus; f_equal; apply Z.add_comm.
Qed.

Lemma series_size view i s : series_ view !! i = Some s → size_of (series_points s) ≤ all_points view.
Proof.
  unfold all_points. revert i. induction (series_ view) as [|x l IH]; intros [|i] H; try done; cbn in *.
  - injection H as ->. assert (∀ k, 0 ≤ foldr (λ s n, size_of (series_points s) + n) 0 k) as Hn; [|specialize (Hn l); lia].
    intros k. induction k as [|y k IHk]; cbn; unfold size_of in *; lia.
  - specialize (IH i H). unfold size_of in *. lia.
Qed.

(** A timeline some calls made, and the series it holds. *)
Lemma timeline_series capacity calls view i s :
  0 ≤ capacity < 2 ^ 64 → Forall call_ok calls → (taken_by (bounded_timeline capacity) calls).2 = view →
  series_ view !! i = Some s →
  series_ok s ∧ size_of (series_points s) < 2 ^ 64 ∧ StronglySorted mark_later (phases_ view).
Proof.
  intros Hcap Hcs <- Hs. pose proof (taken_by_ok [] calls (bounded_timeline capacity) Hcs Hcap (empty_timeline_ok _ (proj1 Hcap))) as H.
  destruct (taken_by _ calls) as [accepted t]. destruct H as [Hc [_ _ _ _ H5 H6 [_ H7] _]]. cbn in *.
  split_and!; [by eapply Forall_lookup in Hs|pose proof (series_size t i s Hs); lia|done].
Qed.

(** ** Theorems *)

(** C18: What a window of a timeline comes to: one summary per series, in order, each of the
    points of the window alone. A series with no present reading there is unavailable, for the
    reason its last reading gives, or for want of one; a counter's total is the sum of the
    advances between consecutive present readings, and its resets are the steps that say none;
    and what was unavailable is counted beside it. *)
Theorem window_summarised capacity calls view window :
  0 ≤ capacity < 2 ^ 64 → Forall call_ok calls → (taken_by (bounded_timeline capacity) calls).2 = view →
  match summarize view window with
  | Error e => window_end_ns window ≤ window_start_ns window ∧ statistics_fault e = kWindow
  | Value signature =>
      window_start_ns window < window_end_ns window ∧ signature_window signature = window
      ∧ signature_metrics signature
        = (λ s, let points := filter (within (window_start_ns window) (window_end_ns window)) (series_points s) in
                {| summary_metric := series_metric s; summary_value := summary_spec (series_metric s) points;
                   unavailable_samples := size_of (gone_in points) |}) <$> series_ view
  end.
Proof.
  intros Hcap Hcs Hv. unfold summarize. destruct (Z.leb_spec (window_end_ns window) (window_start_ns window)); [done|].
  split_and!; [lia|done|]. cbn [signature_metrics]. apply list_fmap_ext. intros i s Hs.
  destruct (timeline_series capacity calls view i s Hcap Hcs Hv Hs) as ([Hsorted Hkinds] & Hsize & _).
  rewrite in_window_filter by done. apply series_summarised.
  - apply Forall_forall. intros p [_ Hp]%list_elem_of_filter. by eapply Forall_forall in Hkinds.
  - assert (∀ (l : list Point) a b, size_of (filter (within a b) l) ≤ size_of l) as H'; [|specialize (H' (series_points s) (window_start_ns window) (window_end_ns window)); lia].
    intros l a b. unfold size_of. apply Nat2Z.inj_le, length_filter.
Qed.

(** C19: The phases of a run account for all of it: where every mark after the first has a
    reading of the counter on it, the totals and the resets of the phases' windows add up to
    the run's, so that no advance falls between two phases and none is counted twice. *)
Theorem phases_add_up capacity calls view id s first last_ns marks :
  0 ≤ capacity < 2 ^ 64 → Forall call_ok calls → (taken_by (bounded_timeline capacity) calls).2 = view →
  series_ view !! id = Some s → metric_kind (series_metric s) = kCounter →
  phases_ view = first :: marks → Forall (λ m, start_ns m ≤ last_ns) (first :: marks) →
  Forall (λ m, ∃ p, p ∈ series_points s ∧ timestamp_ns p = start_ns m) marks →
  let parts := (λ w, counter_part id (summarize view w.2)) <$> phase_windows view last_ns in
  counter_part id (summarize view (run_window (start_ns first) last_ns))
  = (u64 (total_of parts.*1), u64 (total_of parts.*2)).
Proof.
  intros Hcap Hcs Hv Hs Hk Hphases Hl Hr parts.
  destruct (timeline_series capacity calls view id s Hcap Hcs Hv Hs) as (Hok & Hsize & Hmarks). rewrite Hphases in Hmarks.
  unfold run_window. rewrite (counter_part_steps view id s) by (done || (apply Forall_inv in Hl; unfold kClosingMargin; lia)).
  set (f := λ w : text * Window, steps_in (metric_modulus (series_metric s)) (series_points s) w.2).
  assert (Hparts : parts = (λ w, (u64 (advances (f w)), u64 (resets_in (f w)))) <$> phase_windows view last_ns).
  { unfold parts. rewrite phase_windows_of, Hphases. clear -Hs Hok Hk Hsize Hmarks Hl. revert first Hmarks Hl.
    induction marks as [|next marks IH]; intros first Hm Hl; cbn [windows_of fmap list_fmap]; f_equal.
    - apply (counter_part_steps view id s); try done. apply Forall_inv in Hl. cbn. unfold kClosingMargin. lia.
    - apply (counter_part_steps view id s); try done. apply StronglySorted_inv in Hm as [_ Hm]. apply Forall_inv in Hm.
      unfold mark_later in Hm. cbn. unfold kClosingMargin. lia.
    - apply IH; [by apply StronglySorted_inv in Hm as [Hm _]|by apply Forall_cons in Hl as [_ Hl]]. }
  rewrite Hparts, <- !list_fmap_compose. destruct (sum_parts f (phase_windows view last_ns)) as [E1 E2].
  unfold compose. cbn [fst snd]. rewrite E1, E2. rewrite phase_windows_of, Hphases. unfold f. rewrite phases_partition by (done || apply Hok).
  done.
Qed.

Definition errors_corrected : Metric :=
  {| metric_name := lit "memory.errors_corrected"; metric_unit := kCount; metric_kind := kCounter;
     metric_scope := kMemoryController; metric_scope_index := 0; metric_modulus := None; metric_provider := lit "edac" |}.

Definition count_at (ns raw : Z) : Point := {| timestamp_ns := ns; reading := CounterRead raw |}.

(** A counter that advances by 3 and by 6, is reset, and is gone for a reading; the second mark
    is at [mark_ns]. *)
Definition counted_run (mark_ns : Z) : list TimelineCall :=
  [ CallAddSeries errors_corrected; CallMarkPhase {| start_ns := 0; label := lit "run" |};
    CallAppendPoint 0 (count_at 0 10); CallAppendPoint 0 (count_at 10 13);
    CallMarkPhase {| start_ns := mark_ns; label := lit "stop" |}; CallAppendPoint 0 (count_at 20 19);
    CallAppendPoint 0 (count_at 30 2);
    CallAppendPoint 0 {| timestamp_ns := 40; reading := Gone nothing_in_window |}; CallAppendPoint 0 (count_at 50 7) ].

Definition counted_view (mark_ns : Z) : BoundedTimeline := (taken_by (bounded_timeline 100) (counted_run mark_ns)).2.

Lemma window_summarised_witness :
  ∃ signature, summarize (counted_view 10) (run_window 0 50) = Value signature
  ∧ (∃ counter, summary_value <$> signature_metrics signature = [SummaryCounter counter]
       ∧ counter_samples counter = 5 ∧ counter_total counter = 9 ∧ counter_resets counter = 1)
  ∧ unavailable_samples <$> signature_metrics signature = [1].
Proof.
  assert (Forall call_ok (counted_run 10)) as Hok by (repeat constructor; by vm_compute).
  pose proof (window_summarised 100 (counted_run 10) (counted_view 10) (run_window 0 50) ltac:(lia) Hok eq_refl) as H.
  destruct (summarize _ _) as [signature|e] eqn:E; [|by vm_compute in E].
  destruct H as (_ & _ & Hm). exists signature. split; [done|]. rewrite Hm. split.
  - eexists. split; [by vm_compute|]. by vm_compute.
  - by vm_compute.
Defined.

Lemma phases_add_up_witness :
  (λ w, counter_part 0 (summarize (counted_view 10) w.2)) <$> phase_windows (counted_view 10) 50 = [(3, 0); (6, 1)]
  ∧ counter_part 0 (summarize (counted_view 10) (run_window 0 50)) = (9, 1).
Proof.
  split; [by vm_compute|].
  assert (Forall call_ok (counted_run 10)) as Hok by (repeat constructor; by vm_compute).
  etrans; [apply (phases_add_up 100 (counted_run 10) (counted_view 10) 0
    (default {| series_metric := errors_corrected; series_points := [] |} (series_ (counted_view 10) !! 0%nat))
    {| start_ns := 0; label := lit "run" |} 50 [{| start_ns := 10; label := lit "stop" |}])|]; try (lia || done || by vm_compute).
  - repeat constructor; cbn; lia.
  - apply Forall_singleton. exists (count_at 10 13). split; [|done]. apply list_elem_of_lookup. exists 1%nat. by vm_compute.
Defined.

(** An advance across a mark that no reading is on is in no phase: the run's total is 9, its
    phases' 3. *)
Example unread_mark_loses :
  (λ w, counter_part 0 (summarize (counted_view 15) w.2)) <$> phase_windows (counted_view 15) 50 = [(3, 0); (0, 1)]
  ∧ counter_part 0 (summarize (counted_view 15) (run_window 0 50)) = (9, 1).
Proof. split; by vm_compute. Qed.

(** Readings of 40, 50 and 60 degrees a second apart: a mean of 50, a deviation of 10, 10 degrees a second. *)
Example gauge_summarised_thrice :
  summarize_gauge ((λ '(ns, v), {| gauge_ns := ns; gauge_value := double_of_int v |}) <$> [(0, 40); (1000000000, 50); (2000000000, 60)])
  = Some {| gauge_samples := 3; gauge_min := double_of_int 40; gauge_max := double_of_int 60; gauge_mean := double_of_int 50;
            gauge_stddev := Some (double_of_int 10); gauge_first := double_of_int 40; gauge_last := double_of_int 60;
            gauge_slope_per_second := Some (double_of_int 10) |}.
Proof. by vm_compute. Qed.
