(* ===== verification/Temperature.v ===== *)
(** * controller/temperature: the ceiling

    Which series of the timeline are temperatures, and when one of them ends a run
    (controller/temperature.hpp and temperature.cpp); and the refusal of a run that could not
    keep its ceiling (check_temperature, controller/safety.cpp). *)

From S2P Require Export Signature Safety.
From coqutil Require Export Datatypes.RecordSettersUsingExistingGetters.

(** ** Words *)

(** An exact quotient rounded to the nearest integer, ties to even. *)
Definition nearest_even (numerator denominator : Z) : Z :=
  let q := numerator / denominator in
  let twice := 2 * (numerator mod denominator) in
  if (denominator <? twice) || ((twice =? denominator) && Z.odd q) then q + 1 else q.

Definition places_text (places : nat) (scaled : Z) : text :=
  let whole := scaled / 10 ^ Z.of_nat places in
  let part := to_dec (scaled mod 10 ^ Z.of_nat places) in
  to_dec whole ++ (if (places =? 0)%nat then [] else lit "." ++ replicate (places - length part) (byte_of 48) ++ part).

(** What a stream writes with [std::fixed] and [std::setprecision(places)]: the value, rounded
    to so many places. *)
Definition fixed (value : Z) (places : nat) : text :=
  (if 2 ^ 63 <=? value then lit "-" else []) ++
  match Doubles.of_bits value with
  | SpecFloat.S754_nan => lit "nan"
  | SpecFloat.S754_infinity _ => lit "inf"
  | SpecFloat.S754_zero _ => places_text places 0
  | SpecFloat.S754_finite _ m e =>
      let scaled := Zpos m * 10 ^ Z.of_nat places in
      places_text places (if 0 <=? e then scaled * 2 ^ e else nearest_even scaled (2 ^ (- e)))
  end.

Definition seconds_text (nanoseconds : Z) (places : nat) : text :=
  fixed (double_div (double_of_int nanoseconds) Signature.kNanosecondsPerSecond) places.

(** ** temperature.hpp *)

Record Sensor := {
  sensor_series : Z;
  sensor_metric : text;
  sensor_name : text;
  sensor_provider : text;
  sensor_readable : bool;
}.

Inductive StopCause := kReached | kUnwatched.

#[export] Instance StopCause_eq_dec : EqDecision StopCause.
Proof. solve_decision. Defined.

Record TemperatureStop := {
  ts_cause : StopCause;
  ts_sensor : text;
  ts_celsius : Z;
  ts_ceiling_c : Z;
  ts_at_ns : Z;
  ts_detail : text;
  ts_blind_ns : Z;
}.

Record Observation := { obs_notes : list text; obs_stop : option TemperatureStop }.

(** [view_] is the timeline the operations are given. *)
Record TemperatureWatch := {
  tw_ceiling_c : Z;
  tw_blind_after_ns : Z;
  tw_last_read_ns : Z;
  tw_last_reason : text;
  tw_sensors : list Sensor;
  tw_hot_at_start : option TemperatureStop;
}.

(** ** temperature.cpp *)

Definition with_provider (sensor : Sensor) : text := sensor_name sensor ++ lit " (" ++ sensor_provider sensor ++ lit ")".

Definition reason_of (r : Reading) : text :=
  match r with Gone gone => missing_detail gone | _ => lit "the reading is not a temperature" end.

Definition describe_reading (stop : TemperatureStop) : text :=
  ts_sensor stop ++ lit " read " ++ fixed (ts_celsius stop) 1 ++ lit " C, at or above the ceiling of "
  ++ int_to_dec (ts_ceiling_c stop) ++ lit " C".

Definition describe_temperature_stop (stop : TemperatureStop) : text :=
  (match ts_cause stop with
   | kReached => describe_reading stop ++ lit ", "
   | kUnwatched =>
       lit "no temperature could be read for " ++ seconds_text (ts_blind_ns stop) 1 ++ lit " s (" ++ ts_detail stop
       ++ lit "), so the ceiling of " ++ int_to_dec (ts_ceiling_c stop) ++ lit " C can no longer be enforced, "
   end)
  ++ seconds_text (ts_at_ns stop) 3 ++ lit " s into the run".

(** What the loop of observe has found: [hottest] is the sensor and what it read. *)
Record Look := { look_notes : list text; hottest : option (Sensor * Z); any_read : bool; look_reason : text }.

(** The point the series received in the round, if it received one. *)
Definition taken_in (view : BoundedTimeline) (round_ns : Z) (sensor : Sensor) : option Reading :=
  match last (default [] (points_at view (sensor_series sensor))) with
  | Some point => if timestamp_ns point =? round_ns then Some (reading point) else None
  | None => None
  end.

Definition observe_sensor (ceiling_c : Z) (taken : option Reading) (sensor : Sensor) (look : Look) : Look * Sensor :=
  match taken with
  | Some (GaugeRead value) =>
      let look := look <| any_read := true |> in
      let look := if sensor_readable sensor then look
                  else look <| look_notes ::= (λ notes, notes ++ [with_provider sensor ++ lit " can be read again"]) |> in
      let sensor := sensor <| sensor_readable := true |> in
      let look :=
        if double_le (double_of_int ceiling_c) value
           && (match hottest look with None => true | Some (_, hottest_c) => double_lt hottest_c value end)
        then look <| hottest := Some (sensor, value) |> else look in
      (look, sensor)
  | _ =>
      let reason := match taken with Some r => reason_of r | None => lit "no reading was taken" end in
      let look := look <| look_reason := reason |> in
      let look := if sensor_readable sensor
                  then look <| look_notes ::= (λ notes, notes ++ [with_provider sensor ++ lit " can no longer be read: " ++ reason]) |>
                  else look in
      (look, sensor <| sensor_readable := false |>)
  end.

Fixpoint observe_sensors (ceiling_c : Z) (taken : Sensor → option Reading) (sensors : list Sensor) (look : Look) :
    Look * list Sensor :=
  match sensors with
  | [] => (look, [])
  | sensor :: sensors =>
      let (look, sensor) := observe_sensor ceiling_c (taken sensor) sensor look in
      let (look, sensors) := observe_sensors ceiling_c taken sensors look in
      (look, sensor :: sensors)
  end.

Definition observe_temperature (view : BoundedTimeline) (round_ns elapsed_ns : Z) (watch : TemperatureWatch) :
    Observation * TemperatureWatch :=
  let (look, sensors) :=
    observe_sensors (tw_ceiling_c watch) (taken_in view round_ns) (tw_sensors watch)
      {| look_notes := []; hottest := None; any_read := false; look_reason := tw_last_reason watch |} in
  let last_read_ns := if any_read look then round_ns else tw_last_read_ns watch in
  let blind_ns := i64 (round_ns - last_read_ns) in
  ({| obs_notes := look_notes look;
      obs_stop :=
        match hottest look with
        | Some (sensor, celsius) =>
            Some {| ts_cause := kReached; ts_sensor := with_provider sensor; ts_celsius := celsius;
                    ts_ceiling_c := tw_ceiling_c watch; ts_at_ns := elapsed_ns; ts_detail := []; ts_blind_ns := 0 |}
        | None =>
            if negb (any_read look) && (tw_blind_after_ns watch <? blind_ns)
            then Some {| ts_cause := kUnwatched; ts_sensor := []; ts_celsius := 0; ts_ceiling_c := tw_ceiling_c watch;
                         ts_at_ns := elapsed_ns; ts_detail := look_reason look; ts_blind_ns := blind_ns |}
            else None
        end |},
   watch <| tw_last_read_ns := last_read_ns |> <| tw_last_reason := look_reason look |> <| tw_sensors := sensors |>).

(** The series that is a temperature, as the constructor finds it. *)
Definition sensor_of (id : nat) (s : Series) : option Sensor :=
  let metric := series_metric s in
  if bool_decide (metric_unit metric = kCelsius) && bool_decide (metric_kind metric = kGauge)
  then Some {| sensor_series := u32 (Z.of_nat id); sensor_metric := metric_name metric;
               sensor_name := metric_name metric
                 ++ (if bool_decide (metric_scope metric = kMachine) then [] else lit " " ++ to_dec (metric_scope_index metric));
               sensor_provider := metric_provider metric; sensor_readable := true |}
  else None.

Definition find_sensors (view : BoundedTimeline) : list Sensor :=
  omap (λ '(id, s), sensor_of id s) (imap pair (series_ view)).

(** The constructor. *)
Definition temperature_watch (view : BoundedTimeline) (ceiling_c blind_after_ns baseline_ns : Z) : TemperatureWatch :=
  let (baseline, watch) := observe_temperature view baseline_ns 0
    {| tw_ceiling_c := ceiling_c; tw_blind_after_ns := blind_after_ns; tw_last_read_ns := baseline_ns;
       tw_last_reason := []; tw_sensors := find_sensors view; tw_hot_at_start := None |} in
  watch <| tw_hot_at_start := obs_stop baseline |>.

Definition readable_count (watch : TemperatureWatch) : Z := size_of (filter (λ s, sensor_readable s = true) (tw_sensors watch)).

(** The metrics of the sensors, each once, as they first come. *)
Definition add_metric (metrics : list text) (sensor : Sensor) : list text :=
  if bool_decide (sensor_metric sensor ∈ metrics) then metrics else metrics ++ [sensor_metric sensor].

Definition metric_words (sensors : list Sensor) (metric : text) : text :=
  match filter (λ s, sensor_metric s = metric) sensors with
  | [only] => sensor_name only
  | same => metric ++ lit " x" ++ to_dec (size_of same)
  end.

Definition comma (text_ : text) : text := match text_ with [] => [] | _ => lit ", " end.

Definition describe_sensors (watch : TemperatureWatch) : text :=
  foldl (λ words metric, words ++ comma words ++ metric_words (tw_sensors watch) metric) []
    (foldl add_metric [] (tw_sensors watch)).

(** ** safety.cpp *)

Definition check_temperature (config : Config) (watch : option TemperatureWatch) (unread : text) : Result unit text :=
  match max_temperature_c (config_limits config) with
  | None => Value tt
  | Some ceiling =>
      let unenforced :=
        match watch with
        | None => true
        | Some watch => readable_count watch =? 0
        end in
      if unenforced then
        Error (lit "the temperature ceiling is " ++ int_to_dec ceiling
          ++ lit " C and no temperature can be read, so it could not be enforced: "
          ++ (match watch with
              | Some watch =>
                  match tw_sensors watch with
                  | [] => match unread with [] => lit "no temperature sensor was offered" | _ => unread end
                  | _ => lit "none of the " ++ to_dec (size_of (tw_sensors watch)) ++ lit " temperature sensor(s) answered: "
                         ++ tw_last_reason watch
                  end
              | None => match unread with [] => lit "no temperature sensor was offered" | _ => unread end
              end)
          ++ lit "; remove the ceiling to run without one")
      else match from_option tw_hot_at_start None watch with
      | Some hot => Error (lit "the machine is already at its ceiling, before any worker started: " ++ describe_reading hot)
      | None => Value tt
      end
  end.

(** ** What a round shows *)

Definition gauge_of (taken : option Reading) : option Z :=
  match taken with Some (GaugeRead value) => Some value | _ => None end.

(** The note a round makes of a sensor: it stopped answering, or answers again. *)
Definition note_of (taken : option Reading) (sensor : Sensor) : list text :=
  match gauge_of taken, sensor_readable sensor with
  | Some _, false => [with_provider sensor ++ lit " can be read again"]
  | None, true => [with_provider sensor ++ lit " can no longer be read: "
                   ++ match taken with Some r => reason_of r | None => lit "no reading was taken" end]
  | _, _ => []
  end.

Definition marked (taken : Sensor → option Reading) (sensor : Sensor) : Sensor :=
  sensor <| sensor_readable := bool_decide (is_Some (gauge_of (taken sensor))) |>.

Lemma double_le_trans a b c : double_le a b = true → double_le b c = true → double_le a c = true.
Proof.
  unfold double_le. rewrite !andb_true_iff, !Z.leb_le. intros [[? ?] ?] [[? ?] ?]. split_and!; try done. lia.
Qed.

Lemma double_lt_le a b : double_lt a b = true → double_le a b = true.
Proof. unfold double_lt, double_le. rewrite !andb_true_iff, Z.ltb_lt, Z.leb_le. intros [[? ?] ?]. split_and!; try done. lia. Qed.

Lemma double_not_lt a b c d : double_le c a = true → double_le d b = true → double_lt a b = false → double_le b a = true.
Proof.
  unfold double_lt, double_le. rewrite !andb_true_iff. intros [[_ Ha] _] [[_ Hb] _] Hn. rewrite Ha, Hb in *. cbn in Hn |- *.
  apply Z.ltb_ge in Hn. split; [done|]. by apply Z.leb_le.
Qed.

Section Looked.
Context (ceiling_c : Z) (taken : Sensor → option Reading).
Let at_or_above (v : Z) : Prop := double_le (double_of_int ceiling_c) v = true.

Record looked (look look' : Look) (sensors : list Sensor) : Prop := {
  looked_read : any_read look' = any_read look || existsb (λ s, bool_decide (is_Some (gauge_of (taken s)))) sensors;
  looked_notes : look_notes look' = look_notes look ++ (sensors ≫= λ s, note_of (taken s) s);
  looked_from : ∀ h, hottest look' = Some h → hottest look = Some h
    ∨ ∃ s, s ∈ sensors ∧ gauge_of (taken s) = Some h.2 ∧ at_or_above h.2 ∧ with_provider h.1 = with_provider s;
  looked_all : ∀ v, (∃ h, hottest look = Some h ∧ h.2 = v ∧ at_or_above v)
      ∨ (∃ s, s ∈ sensors ∧ gauge_of (taken s) = Some v ∧ at_or_above v) →
    ∃ h, hottest look' = Some h ∧ double_le v h.2 = true;
}.

Lemma at_or_above_refl v : at_or_above v → double_le v v = true.
Proof. unfold at_or_above, double_le. rewrite !andb_true_iff, !Z.leb_le. intros [[_ ->] _]. split_and!; [done..|lia]. Qed.

Definition observed (sensor : Sensor) (look : Look) : Prop :=
  let (look', sensor') := observe_sensor ceiling_c (taken sensor) sensor look in
  sensor' = marked taken sensor ∧ looked look look' [sensor] ∧ ∀ h, hottest look' = Some h → at_or_above h.2.

Lemma observe_gone sensor look :
  (∀ h, hottest look = Some h → at_or_above h.2) → gauge_of (taken sensor) = None → observed sensor look.
Proof.
  intros Hhot Eg. unfold observed.
  unfold marked. rewrite Eg, bool_decide_false by (by intros [? ?]).
  set (reason := match taken sensor with Some r => reason_of r | None => lit "no reading was taken" end).
  assert (observe_sensor ceiling_c (taken sensor) sensor look
    = (let look := look <| look_reason := reason |> in
       if sensor_readable sensor
       then look <| look_notes ::= (λ notes, notes ++ [with_provider sensor ++ lit " can no longer be read: " ++ reason]) |>
       else look, sensor <| sensor_readable := false |>)) as Ho.
  { unfold observe_sensor. unfold gauge_of in Eg. by destruct (taken sensor) as [[]|]. }
  rewrite Ho. cbv zeta. set (look1 := if sensor_readable sensor then _ else _).
  assert (any_read look1 = any_read look ∧ hottest look1 = hottest look
    ∧ look_notes look1 = look_notes look ++ note_of (taken sensor) sensor) as (E1 & E2 & E3).
  { unfold look1, note_of. rewrite Eg. destruct (sensor_readable sensor); cbn; by rewrite ?app_nil_r. }
  split_and!; [done| |by rewrite E2]. split.
  + rewrite E1. cbn. rewrite Eg, bool_decide_false by (by intros [? ?]). by rewrite orb_false_r.
  + rewrite E3. cbn. by rewrite app_nil_r.
  + rewrite E2. auto.
  + rewrite E2. intros v [(h & Ehot & <- & Hv)|(s & ->%list_elem_of_singleton & Ev & Hv)]; [by eauto using at_or_above_refl|]. by rewrite Eg in Ev.
Qed.

Lemma observe_sensor_spec sensor look :
  (∀ h, hottest look = Some h → at_or_above h.2) → observed sensor look.
Proof.
  intros Hhot. destruct (gauge_of (taken sensor)) as [value|] eqn:Eg; [|by apply observe_gone].
  unfold observed, observe_sensor, marked.
  assert (taken sensor = Some (GaugeRead value)) as Et by (unfold gauge_of in Eg; destruct (taken sensor) as [[]|]; congruence).
  rewrite Et. cbn [gauge_of]. rewrite bool_decide_true by eauto.
  set (look1 := if sensor_readable sensor then _ else _).
  assert (any_read look1 = true ∧ hottest look1 = hottest look
    ∧ look_notes look1 = look_notes look ++ note_of (taken sensor) sensor) as (E1 & E2 & E3).
  { unfold look1, note_of. rewrite Eg. destruct (sensor_readable sensor); cbn; by rewrite ?app_nil_r. }
  destruct (_ && _) eqn:Eh.
  + apply andb_true_iff in Eh as [Ha Hm]. rewrite E2 in Hm. split_and!; [done| |by intros h [= <-]].
    split; cbn [any_read look_notes hottest set const].
    * rewrite E1. cbn. rewrite Eg, bool_decide_true by eauto. by rewrite orb_true_r.
    * rewrite E3. cbn. by rewrite app_nil_r.
    * intros h [= <-]. right. exists sensor. split_and!; [by constructor|done|done|done].
    * intros v [(h & Eh & <- & Hv)|(s & ->%list_elem_of_singleton & Ev & Hv)]; eexists; (split; [done|]); cbn.
      -- rewrite Eh in Hm. destruct h. by apply double_lt_le.
      -- rewrite Eg in Ev. injection Ev as <-. by apply at_or_above_refl.
  + rewrite E2 in Eh. split_and!; [done| |by rewrite E2]. split.
    * rewrite E1. cbn. rewrite Eg, bool_decide_true by eauto. by rewrite orb_true_r.
    * rewrite E3. cbn. by rewrite app_nil_r.
    * rewrite E2. auto.
    * rewrite E2. intros v [(h & Ehot & <- & Hv)|(s & ->%list_elem_of_singleton & Ev & Hv)]; [by eauto using at_or_above_refl|].
      rewrite Eg in Ev. injection Ev as <-. unfold at_or_above in Hv. rewrite Hv in Eh. cbn in Eh.
      destruct (hottest look) as [[hs hv]|]; [|done]. eexists. split; [done|]. cbn.
      eapply double_not_lt; [exact (Hhot _ eq_refl)|exact Hv|exact Eh].
Qed.

Lemma observe_sensors_spec sensors look :
  (∀ h, hottest look = Some h → at_or_above h.2) →
  let (look', sensors') := observe_sensors ceiling_c taken sensors look in
  sensors' = marked taken <$> sensors ∧ looked look look' sensors.
Proof.
  revert look. induction sensors as [|sensor sensors IH]; intros look Hhot; cbn [observe_sensors].
  { split; [done|]. split; cbn.
    - by rewrite orb_false_r.
    - by rewrite app_nil_r.
    - auto.
    - intros v [(h & Eh & <- & Hv)|(s & ?%not_elem_of_nil & _)]; [|done]. exists h. split; [done|].
      by apply at_or_above_refl. }
  pose proof (observe_sensor_spec sensor look Hhot) as H. unfold observed in H. destruct (observe_sensor _ _ _ look) as [look1 sensor1].
  destruct H as (-> & [R1 N1 F1 A1] & Hhot1). specialize (IH look1 Hhot1). destruct (observe_sensors _ _ _ look1) as [look2 sensors2].
  destruct IH as [-> [R2 N2 F2 A2]]. split; [done|]. split.
  - rewrite R2, R1. cbn. by rewrite orb_false_r, orb_assoc.
  - rewrite N2, N1. cbn. by rewrite app_nil_r, app_assoc.
  - intros h Hh. destruct (F2 h Hh) as [Hh1|(s & Hs & Hr)]; [|right; exists s; by rewrite elem_of_cons; auto].
    destruct (F1 h Hh1) as [?|(s & ->%list_elem_of_singleton & Hr)]; [by left|]. right. exists sensor. by rewrite elem_of_cons; auto.
  - intros v Hv.
    assert ((∃ h, hottest look1 = Some h ∧ double_le v h.2 = true ∧ at_or_above h.2) ∨ ∃ s, s ∈ sensors ∧ gauge_of (taken s) = Some v ∧ at_or_above v) as [(h & Eh & Hle & Ha)|Hs].
    { destruct Hv as [Hv|(s & [->|Hs]%elem_of_cons & Hv)]; [left|left|right; by eauto].
      - destruct (A1 v (or_introl Hv)) as (h & Eh & Hle). eauto.
      - destruct (A1 v (or_intror (ex_intro _ sensor (conj (list_elem_of_here _ _) Hv)))) as (h & Eh & Hle). eauto. }
    + destruct (A2 h.2 (or_introl (ex_intro _ h (conj Eh (conj eq_refl Ha))))) as (h' & Eh' & Hle'). exists h'. split; [done|].
      by eapply double_le_trans.
    + by apply A2; right.
Qed.
End Looked.

(** ** A run's rounds *)

(** A round: the timeline once it is taken, when, and the run's time. *)
Definition Round : Type := BoundedTimeline * Z * Z.

Definition round_ns (r : Round) : Z := r.1.2.

Definition celsius_in (r : Round) (sensor : Sensor) : option Z := gauge_of (taken_in r.1.1 (round_ns r) sensor).

(** Whether any of the sensors was read in the round. *)
Definition reads_any (sensors : list Sensor) (r : Round) : bool :=
  existsb (λ s, bool_decide (is_Some (celsius_in r s))) sensors.

(** The latest round that read any of them. *)
Definition last_read_at (sensors : list Sensor) (baseline_ns : Z) (rounds : list Round) : Z :=
  foldl (λ t r, if reads_any sensors r then round_ns r else t) baseline_ns rounds.

Definition look_at (r : Round) (watch : TemperatureWatch) : Observation * TemperatureWatch :=
  observe_temperature r.1.1 (round_ns r) r.2 watch.

Definition watched (watch : TemperatureWatch) (rounds : list Round) : TemperatureWatch :=
  foldl (λ w r, (look_at r w).2) watch rounds.

(** The watch is of [sensors], whichever answer now, and last read one of them at [last_ns]. *)
Record watching (sensors : list Sensor) (ceiling_c blind_after_ns last_ns : Z) (watch : TemperatureWatch) : Prop := {
  watching_sensors : ∃ answers, tw_sensors watch = (λ s, s <| sensor_readable := answers s |>) <$> sensors;
  watching_ceiling : tw_ceiling_c watch = ceiling_c;
  watching_blind : tw_blind_after_ns watch = blind_after_ns;
  watching_last : tw_last_read_ns watch = last_ns;
}.

(** What stops a run in a round, of the sensors, when one was last read at [last_ns]. *)
Definition stop_spec (sensors : list Sensor) (ceiling_c blind_after_ns last_ns : Z) (r : Round)
    (stop : option TemperatureStop) : Prop :=
  match stop with
  | Some stop =>
      ts_ceiling_c stop = ceiling_c ∧ ts_at_ns stop = r.2
      ∧ match ts_cause stop with
        | kReached =>
            (∃ s, s ∈ sensors ∧ celsius_in r s = Some (ts_celsius stop) ∧ ts_sensor stop = with_provider s)
            ∧ double_le (double_of_int ceiling_c) (ts_celsius stop) = true
            ∧ ∀ s v, s ∈ sensors → celsius_in r s = Some v → double_le (double_of_int ceiling_c) v = true →
                double_le v (ts_celsius stop) = true
        | kUnwatched =>
            reads_any sensors r = false ∧ ts_blind_ns stop = round_ns r - last_ns ∧ blind_after_ns < round_ns r - last_ns
        end
  | None =>
      (∀ s v, s ∈ sensors → celsius_in r s = Some v → double_le (double_of_int ceiling_c) v = false)
      ∧ (reads_any sensors r = false → round_ns r - last_ns ≤ blind_after_ns)
  end.

Lemma existsb_marked (f : Sensor → bool) answers (sensors : list Sensor) :
  (∀ s b, f (s <| sensor_readable := b |>) = f s) →
  existsb f ((λ s, s <| sensor_readable := answers s |>) <$> sensors) = existsb f sensors.
Proof. intros Hf. induction sensors as [|s l IH]; [done|]. cbn. by rewrite Hf, IH. Qed.

Lemma look_at_spec sensors ceiling_c blind_after_ns last_ns watch r :
  watching sensors ceiling_c blind_after_ns last_ns watch →
  0 ≤ last_ns < 2 ^ 63 → 0 ≤ round_ns r < 2 ^ 63 →
  let (seen, watch') := look_at r watch in
  stop_spec sensors ceiling_c blind_after_ns last_ns r (obs_stop seen)
  ∧ obs_notes seen = (tw_sensors watch ≫= λ s, note_of (taken_in r.1.1 (round_ns r) s) s)
  ∧ watching sensors ceiling_c blind_after_ns (if reads_any sensors r then round_ns r else last_ns) watch'.
Proof.
  intros [[answers Es] Ec Eb El] Hl Hr. unfold look_at, observe_temperature. rewrite Ec, Eb, El.
  pose proof (observe_sensors_spec ceiling_c (taken_in r.1.1 (round_ns r)) (tw_sensors watch)
    {| look_notes := []; hottest := None; any_read := false; look_reason := tw_last_reason watch |} ltac:(done)) as H.
  destruct (observe_sensors _ _ _ _) as [look sensors']. destruct H as [-> [R N F A]]. cbn [any_read look_notes hottest] in *.
  rewrite orb_false_l, Es, existsb_marked in R by done. change (existsb _ sensors) with (reads_any sensors r) in R. rewrite R. cbn [app] in N.
  assert (Hin : ∀ s, s ∈ sensors → ∃ s', s' ∈ tw_sensors watch ∧ celsius_in r s' = celsius_in r s ∧ with_provider s' = with_provider s).
  { intros s Hs. rewrite Es. eexists. split; [by apply list_elem_of_fmap_2|done]. }
  split_and!; [|done|].
  - cbn [obs_stop]. destruct (hottest look) as [[hot celsius]|] eqn:Eh.
    + destruct (F _ eq_refl) as [?|(s & Hs & Hg & Ha & Hp)]; [done|]. cbn. split_and!; try done.
      * rewrite Es in Hs. apply list_elem_of_fmap_1 in Hs as (s0 & -> & Hs0). by exists s0.
      * intros s' v Hs' Hv Hle. destruct (Hin s' Hs') as (s1 & Hs1 & Ev & _).
        destruct (A v) as (h & [= <-] & Hle'); [|done]. right. exists s1. split_and!; [done| |done]. unfold celsius_in in *. congruence.
    + destruct (reads_any sensors r) eqn:Er; cbn [negb andb stop_spec].
      * split; [|congruence]. intros s v Hs Hv. apply not_true_is_false. intros Hle. destruct (Hin s Hs) as (s1 & Hs1 & Ev & _).
        destruct (A v) as (h & ? & _); [|done]. right. exists s1. split_and!; [done| |done]. unfold celsius_in in *. congruence.
      * rewrite (i64_small (round_ns r - last_ns)) by (unfold in_i64; lia).
        destruct (Z.ltb_spec blind_after_ns (round_ns r - last_ns)); [done|]. cbn [stop_spec]. split; [|done].
        intros s v Hs Hv. exfalso. assert (reads_any sensors r = true); [|congruence]. apply existsb_exists. exists s.
        split; [by apply list_elem_of_In|]. apply bool_decide_eq_true. by exists v.
  - split; cbn [tw_sensors tw_ceiling_c tw_blind_after_ns tw_last_read_ns set const]; [|done..].
    exists (λ s, bool_decide (is_Some (celsius_in r s))). rewrite Es, <- list_fmap_compose. by apply list_fmap_ext.
Qed.

Lemma watched_snoc watch rounds r : watched watch (rounds ++ [r]) = (look_at r (watched watch rounds)).2.
Proof. unfold watched. by rewrite foldl_snoc. Qed.

Lemma last_read_range sensors baseline_ns rounds :
  0 ≤ baseline_ns < 2 ^ 63 → Forall (λ r, 0 ≤ round_ns r < 2 ^ 63) rounds →
  0 ≤ last_read_at sensors baseline_ns rounds < 2 ^ 63.
Proof.
  unfold last_read_at. intros Hb Hall. revert baseline_ns Hb. induction Hall as [|r l Hr _ IH]; intros b Hb; [done|].
  cbn. apply IH. by destruct (reads_any sensors r).
Qed.

Lemma watched_watching view ceiling_c blind_after_ns baseline_ns rounds :
  0 ≤ baseline_ns < 2 ^ 63 → Forall (λ r, 0 ≤ round_ns r < 2 ^ 63) rounds →
  watching (find_sensors view) ceiling_c blind_after_ns (last_read_at (find_sensors view) baseline_ns rounds)
    (watched (temperature_watch view ceiling_c blind_after_ns baseline_ns) rounds).
Proof.
  intros Hb. induction rounds as [|r rounds IH] using rev_ind; intros Hall.
  - cbn. unfold temperature_watch. set (fresh := {| tw_ceiling_c := ceiling_c |}).
    assert (watching (find_sensors view) ceiling_c blind_after_ns baseline_ns fresh) as Hfresh.
    { split; try done. exists sensor_readable. cbn. rewrite <- (list_fmap_id (find_sensors view)) at 1.
      apply list_fmap_ext. by intros ? []. }
    pose proof (look_at_spec _ _ _ _ _ (view, baseline_ns, 0) Hfresh Hb Hb) as H.
    unfold look_at, round_ns in H. cbn [fst snd] in H. destruct (observe_temperature _ _ _ _) as [seen watch'].
    destruct H as (_ & _ & [H1 H2 H3 H4]). split; try done. cbn. rewrite H4. by destruct (reads_any _ _).
  - apply Forall_app in Hall as [Hall Hr]. apply Forall_inv in Hr. rewrite watched_snoc. unfold last_read_at. rewrite foldl_snoc.
    fold (last_read_at (find_sensors view) baseline_ns rounds).
    pose proof (look_at_spec _ _ _ _ _ r (IH Hall) (last_read_range _ _ _ Hb Hall) Hr) as H.
    destruct (look_at r _) as [seen watch']. by destruct H as (_ & _ & H).
Qed.

(** ** Theorems *)

(** C10: The ceiling holds over a run, round after round: a round in which any sensor reads at
    or above it ends the run, naming a sensor that read the most; a round that reads none ends
    it once the last reading, of any sensor, is longer ago than the run may be blind, whichever
    round that was; and no other round ends it. The notes of a round are the sensors that
    answered in the round before and do not now, and those that answer again. *)
Theorem ceiling_enforced view ceiling_c blind_after_ns baseline_ns before r :
  0 ≤ baseline_ns < 2 ^ 63 → Forall (λ r, 0 ≤ round_ns r < 2 ^ 63) (before ++ [r]) →
  let sensors := find_sensors view in
  let watch := watched (temperature_watch view ceiling_c blind_after_ns baseline_ns) before in
  let seen := (look_at r watch).1 in
  stop_spec sensors ceiling_c blind_after_ns (last_read_at sensors baseline_ns before) r (obs_stop seen)
  ∧ obs_notes seen = (tw_sensors watch ≫= λ s, note_of (taken_in r.1.1 (round_ns r) s) s)
  ∧ tw_sensors (look_at r watch).2 = (λ s, s <| sensor_readable := bool_decide (is_Some (celsius_in r s)) |>) <$> sensors.
Proof.
  intros Hb Hall sensors watch seen. apply Forall_app in Hall as [Hall Hr]. apply Forall_inv in Hr.
  pose proof (watched_watching view ceiling_c blind_after_ns baseline_ns before Hb Hall) as Hw. fold watch sensors in Hw.
  pose proof (look_at_spec _ _ _ _ _ r Hw (last_read_range _ _ _ Hb Hall) Hr) as H. unfold seen. revert H.
  destruct Hw as [[answers Es] _ _ _]. unfold look_at, observe_temperature.
  pose proof (observe_sensors_spec (tw_ceiling_c watch) (taken_in r.1.1 (round_ns r)) (tw_sensors watch)
    {| look_notes := []; hottest := None; any_read := false; look_reason := tw_last_reason watch |} ltac:(done)) as Ho.
  destruct (observe_sensors _ _ _ _) as [look sensors']. destruct Ho as [-> _]. intros (H1 & H2 & _). split_and!; [exact H1|exact H2|].
  cbn [fst snd tw_sensors set const]. rewrite Es, <- list_fmap_compose. by apply list_fmap_ext.
Qed.

(** One core's temperature, and its timeline after its first [n] readings. *)
Definition core_readings : list Point :=
  [ gauge_at 0 (double_of_int 40); {| timestamp_ns := 10; reading := Gone nothing_in_window |};
    gauge_at 20 (double_of_int 89); gauge_at 30 (double_of_int 91) ].

Definition core_view (n : nat) : BoundedTimeline :=
  (taken_by (bounded_timeline 10) (CallAddSeries core_temperature :: (CallAppendPoint 0 <$> take n core_readings))).2.

(** The rounds a ceiling of 90 is held against: gone, back, and hot; and a blind spell. *)
Lemma ceiling_enforced_witness :
  let rounds := [(core_view 2, 10, 10); (core_view 3, 20, 20)] in
  let watch := watched (temperature_watch (core_view 1) 90 5 0) rounds in
  let seen := (look_at (core_view 4, 30, 12345000000) watch).1 in
  (describe_temperature_stop <$> obs_stop seen)
  = Some (lit "thermal.core 3 (hwmon:coretemp) read 91.0 C, at or above the ceiling of 90 C, 12.345 s into the run")
  ∧ stop_spec (find_sensors (core_view 1)) 90 5 20 (core_view 4, 30, 12345000000) (obs_stop seen)
  ∧ (ts_cause <$> obs_stop (look_at (core_view 2, 10, 10) (temperature_watch (core_view 1) 90 5 0)).1) = Some kUnwatched.
Proof.
  split_and!; [by vm_compute| |by vm_compute].
  pose proof (ceiling_enforced (core_view 1) 90 5 0 [(core_view 2, 10, 10); (core_view 3, 20, 20)] (core_view 4, 30, 12345000000)) as H.
  apply H; [lia|]. repeat constructor; unfold round_ns; cbn [fst snd]; lia.
Defined.

Example fixed_words :
  fixed (double_of_int 91) 1 = lit "91.0" ∧ fixed (double_div (double_of_int 1) (double_of_int 8)) 2 = lit "0.12"
  ∧ fixed (double_of_int (-3)) 0 = lit "-3" ∧ seconds_text 12345678901 3 = lit "12.346".
Proof. by vm_compute. Qed.
