(* ===== verification/StopSignals.v ===== *)
(** * controller/stop_signals: a request for the end, as a list

    SIGINT and SIGTERM diverted into a pipe for as long as a run is on, and read from it as
    numbers, in the order they came (controller/stop_signals.hpp and stop_signals.cpp); and the
    calls of the controller that are not on one worker's channel. *)

From S2P Require Export Scheduler Safety Tracking.
From coqutil Require Export Datatypes.RecordSettersUsingExistingGetters.

Definition SIGINT : Z := 2.
Definition kLookBytes : nat := 16.

Definition signal_name (signal : Z) : text := if signal =? SIGINT then lit "SIGINT" else lit "SIGTERM".

(** The calls on signals and on many descriptors (platform/syscalls.hpp). *)
Class SignalCalls (K : Type) := {
  create_pipe : K → Result PipeEnds SyscallError * K;
  divert_signal : Z → Z → K → Result unit SyscallError * K;
  default_signal : Z → K → Result unit SyscallError * K;
  ignore_signal : Z → K → Result unit SyscallError * K;
  poll_all : list Z → Z → K → Result (list Readiness) SyscallError * K;
  has_exited : Z → K → Result bool SyscallError * K;
}.

(** The object: the pipe's ends, -1 where there is none, and what was absorbed. *)
Record StopSignals := { sig_read_fd : Z; sig_write_fd : Z; sig_received : list Z }.

Definition no_signals : StopSignals := {| sig_read_fd := -1; sig_write_fd := -1; sig_received := [] |}.

Definition first_signal (signals : StopSignals) : option Z := head (sig_received signals).

Section StopSignals.
Context {K : Type} `{ChannelCalls K} `{RegionCalls K} `{SignalCalls K}.

Definition release_signals (signals : StopSignals) (s : K) : StopSignals * K :=
  if sig_read_fd signals <? 0 then (signals, s) else
  let '(_, s) := default_signal SIGINT s in
  let '(_, s) := default_signal SIGTERM s in
  let '(_, s) := close_fd (sig_read_fd signals) s in
  let '(_, s) := close_fd (sig_write_fd signals) s in
  (signals <| sig_read_fd := -1 |> <| sig_write_fd := -1 |>, s).

(** The loop over the two signals. *)
Fixpoint divert_all (all : list Z) (signals : StopSignals) (s : K) : Result unit SyscallError * StopSignals * K :=
  match all with
  | [] => (Value tt, signals, s)
  | signal :: all =>
      let '(diverted, s) := divert_signal signal (sig_write_fd signals) s in
      match diverted with
      | Error e => let '(signals, s) := release_signals signals s in (Error e, signals, s)
      | Value _ => divert_all all signals s
      end
  end.

Definition install (signals : StopSignals) (s : K) : Result unit SyscallError * StopSignals * K :=
  let '(made, s) := create_pipe s in
  match made with
  | Error e => (Error e, signals, s)
  | Value ends =>
      divert_all [SIGINT; SIGTERM] (signals <| sig_read_fd := pipe_read ends |> <| sig_write_fd := pipe_write ends |>) s
  end.

(** None where poll(2) answers for no descriptor, which it does not. *)
Definition absorb (signals : StopSignals) (s : K) : option (Result Z SyscallError * StopSignals * K) :=
  let '(ready, s) := poll_all [sig_read_fd signals] 0 s in
  match ready with
  | Error e => Some (Error e, signals, s)
  | Value [] => None
  | Value (front :: _) =>
      if negb (readable front) then Some (Value 0, signals, s) else
      let '(taken, s) := read_fd (sig_read_fd signals) kLookBytes s in
      match taken with
      | Error e => Some (Error e, signals, s)
      | Value bytes => Some (Value (size_of bytes), signals <| sig_received ::= (λ all, all ++ (byte_val <$> bytes)) |>, s)
      end
  end.
End StopSignals.

(** ** What the calls do, as documented *)

Inductive Disposition := DefaultAction | Ignored | DivertedTo (fd : Z).

(** sigaction(2) on signals that can be caught, pipe(2), close(2) and poll(2). *)
Class SignalLaws (K : Type) `{RegionCalls K} `{SignalCalls K} := {
  disposition : Z → K → Disposition;
  open_fds : K → list Z;
  pipe_made s ends s' : create_pipe s = (Value ends, s') →
    0 ≤ pipe_read ends ∧ 0 ≤ pipe_write ends
    ∧ open_fds s' = pipe_read ends :: pipe_write ends :: open_fds s ∧ NoDup (open_fds s') ∧ ∀ i, disposition i s' = disposition i s;
  pipe_refused s e s' : create_pipe s = (Error e, s') → open_fds s' = open_fds s ∧ ∀ i, disposition i s' = disposition i s;
  diverted_to signal fd s s' : divert_signal signal fd s = (Value tt, s') →
    open_fds s' = open_fds s ∧ disposition signal s' = DivertedTo fd ∧ ∀ i, i ≠ signal → disposition i s' = disposition i s;
  divert_refused signal fd s e s' : divert_signal signal fd s = (Error e, s') →
    open_fds s' = open_fds s ∧ ∀ i, disposition i s' = disposition i s;
  default_set signal s r s' : default_signal signal s = (r, s') → signal = SIGINT ∨ signal = SIGTERM →
    open_fds s' = open_fds s ∧ disposition signal s' = DefaultAction ∧ ∀ i, i ≠ signal → disposition i s' = disposition i s;
  close_closes fd s r s' : close_fd fd s = (r, s') →
    open_fds s' = filter (λ each, each ≠ fd) (open_fds s) ∧ ∀ i, disposition i s' = disposition i s;
  poll_answers fds timeout s l s' : poll_all fds timeout s = (Value l, s') → length l = length fds;
}.

Section Installed.
Context {K : Type} `{ChannelCalls K} `{SignalLaws K}.

(** What release leaves, of a pipe that is open. *)
Lemma release_spec signals s s' ends fds :
  release_signals signals s = (s', ends) → 0 ≤ sig_read_fd signals →
  open_fds s = sig_read_fd signals :: sig_write_fd signals :: fds → NoDup (open_fds s) →
  s' = signals <| sig_read_fd := -1 |> <| sig_write_fd := -1 |> ∧ open_fds ends = fds
  ∧ disposition SIGINT ends = DefaultAction ∧ disposition SIGTERM ends = DefaultAction
  ∧ ∀ i, i ≠ SIGINT → i ≠ SIGTERM → disposition i ends = disposition i s.
Proof.
  unfold release_signals. intros Hr Hfd Hopen Hnd. rewrite (proj2 (Z.ltb_ge _ _)) in Hr by done.
  destruct (default_signal SIGINT s) as [r1 s1] eqn:E1. destruct (default_signal SIGTERM s1) as [r2 s2] eqn:E2.
  destruct (close_fd (sig_read_fd signals) s2) as [r3 s3] eqn:E3. destruct (close_fd (sig_write_fd signals) s3) as [r4 s4] eqn:E4.
  injection Hr as <- <-.
  destruct (default_set _ _ _ _ E1 (or_introl eq_refl)) as (O1 & D1 & N1), (default_set _ _ _ _ E2 (or_intror eq_refl)) as (O2 & D2 & N2).
  destruct (close_closes _ _ _ _ E3) as [O3 N3], (close_closes _ _ _ _ E4) as [O4 N4].
  rewrite Hopen in Hnd. apply NoDup_cons in Hnd as [Hnr Hnd]. apply NoDup_cons in Hnd as [Hnw Hnd].
  assert (Hkeep : ∀ fd (l : list Z), fd ∉ l → filter (λ each, each ≠ fd) l = l).
  { intros fd l Hl. induction l as [|x l IH]; [done|]. apply not_elem_of_cons in Hl as [Hx Hl].
    rewrite filter_cons, decide_True by done. f_equal. by apply IH. }
  split_and!; [done| | | |].
  - rewrite O4, O3, O2, O1, Hopen. rewrite filter_cons, decide_False by (by intros []). rewrite (Hkeep (sig_read_fd signals)) by done.
    rewrite filter_cons, decide_False by (by intros []). by apply Hkeep.
  - by rewrite N4, N3, N2.
  - by rewrite N4, N3.
  - intros i Hi Ht. by rewrite N4, N3, N2, N1.
Qed.

(** What the loop over the signals comes to, of a pipe that is open. *)
Lemma divert_all_spec all signals s r s' k fds :
  divert_all all signals s = (r, s', k) → all = [SIGINT; SIGTERM] → 0 ≤ sig_read_fd signals →
  open_fds s = sig_read_fd signals :: sig_write_fd signals :: fds → NoDup (open_fds s) →
  match r with
  | Value _ =>
      s' = signals ∧ open_fds k = open_fds s ∧ disposition SIGINT k = DivertedTo (sig_write_fd signals)
      ∧ disposition SIGTERM k = DivertedTo (sig_write_fd signals)
  | Error _ =>
      s' = signals <| sig_read_fd := -1 |> <| sig_write_fd := -1 |> ∧ open_fds k = fds
      ∧ disposition SIGINT k = DefaultAction ∧ disposition SIGTERM k = DefaultAction
  end ∧ ∀ i, i ≠ SIGINT → i ≠ SIGTERM → disposition i k = disposition i s.
Proof.
  intros Hd -> Hfd Hopen Hnd. cbn [divert_all] in Hd.
  destruct (divert_signal SIGINT (sig_write_fd signals) s) as [[[]|e] s1] eqn:E1.
  - destruct (diverted_to _ _ _ _ E1) as (O1 & D1 & N1).
    destruct (divert_signal SIGTERM (sig_write_fd signals) s1) as [[[]|e] s2] eqn:E2.
    + destruct (diverted_to _ _ _ _ E2) as (O2 & D2 & N2). injection Hd as <- <- <-.
      split; [|intros i ? ?; by rewrite N2, N1]. split_and!; [done|congruence|by rewrite N2|done].
    + destruct (divert_refused _ _ _ _ _ E2) as [O2 N2]. destruct (release_signals signals s2) as [s3 k3] eqn:Er.
      injection Hd as <- <- <-.
      destruct (release_spec signals s2 _ _ fds Er Hfd ltac:(congruence) ltac:(congruence)) as (-> & ? & ? & ? & N3).
      split; [done|]. intros i ? ?. by rewrite N3, N2, N1.
  - destruct (divert_refused _ _ _ _ _ E1) as [O1 N1]. destruct (release_signals signals s1) as [s3 k3] eqn:Er.
    injection Hd as <- <- <-.
    destruct (release_spec signals s1 _ _ fds Er Hfd ltac:(congruence) ltac:(congruence)) as (-> & ? & ? & ? & N3).
    split; [done|]. intros i ? ?. by rewrite N3, N1.
Qed.

(** ** Theorems *)

(** Signals installed are both diverted into one pipe, whose ends are the only descriptors
    more there are; a failure leaves no descriptor and nothing installed, and so does the
    release of what was installed; and no other signal is touched by either. *)
Theorem signals_installed s :
  let '(r, signals, k) := install no_signals s in
  (∀ i, i ≠ SIGINT → i ≠ SIGTERM → disposition i k = disposition i s)
  ∧ match r with
    | Error _ => signals = no_signals ∧ open_fds k = open_fds s ∧ ∀ fd, disposition SIGINT k = DivertedTo fd →
                   disposition SIGINT s = DivertedTo fd
    | Value _ =>
        open_fds k = sig_read_fd signals :: sig_write_fd signals :: open_fds s
        ∧ disposition SIGINT k = DivertedTo (sig_write_fd signals) ∧ disposition SIGTERM k = DivertedTo (sig_write_fd signals)
        ∧ let (released, k) := release_signals signals k in
          released = no_signals ∧ open_fds k = open_fds s
          ∧ disposition SIGINT k = DefaultAction ∧ disposition SIGTERM k = DefaultAction
          ∧ ∀ i, i ≠ SIGINT → i ≠ SIGTERM → disposition i k = disposition i s
    end.
Proof.
  unfold install. destruct (create_pipe s) as [[ends|e] s1] eqn:Ep.
  2: { destruct (pipe_refused _ _ _ Ep) as [Ho Hn]. split; [done|]. split_and!; [done..|]. intros fd. by rewrite Hn. }
  destruct (pipe_made _ _ _ Ep) as (Hr & Hw & Ho & Hnd & Hn). set (signals := no_signals <| sig_read_fd := pipe_read ends |> <| sig_write_fd := pipe_write ends |>).
  destruct (divert_all [SIGINT; SIGTERM] signals s1) as [[r signals'] k] eqn:Ed.
  destruct (divert_all_spec _ signals s1 r signals' k (open_fds s) Ed eq_refl Hr Ho Hnd) as [Hspec Hkeep].
  split; [intros i ? ?; by rewrite Hkeep, Hn|]. destruct r as [[]|e].
  - destruct Hspec as (-> & Hopen & D1 & D2). rewrite Ho in Hopen. split_and!; [done..|].
    destruct (release_signals signals k) as [released k2] eqn:Er.
    destruct (release_spec signals k _ _ (open_fds s) Er Hr Hopen ltac:(by rewrite Hopen, <- Ho)) as (-> & ? & ? & ? & N).
    split_and!; [done..|]. intros i ? ?. by rewrite N, Hkeep, Hn.
  - destruct Hspec as (-> & ? & Hd & ?). split_and!; [done..|]. rewrite Hd. by intros fd.
Qed.
End Installed.

(** poll(2) takes nothing from the pipe. *)
Class SignalPipe (K : Type) (fd : Z) `{ChannelLaws K fd} `{SignalCalls K} := {
  look_takes fds timeout s r s' : poll_all fds timeout s = (r, s') → taken (fd:=fd) s' = taken (fd:=fd) s;
  look_answers fds timeout s l s' : poll_all fds timeout s = (Value l, s') → length l = length fds;
}.

Section Absorbed.
Context {K : Type} (fd : Z) `{SignalPipe K fd}.

(** Any number of looks; None only if a look is. *)
Fixpoint absorbs (n : nat) (signals : StopSignals) (s : K) : option (list (Result Z SyscallError) * StopSignals * K) :=
  match n with
  | O => Some ([], signals, s)
  | S n =>
      '(r, signals, s) ← absorb signals s;
      '(rs, signals, s) ← absorbs n signals s;
      Some (r :: rs, signals, s)
  end.

Definition counted_by (rs : list (Result Z SyscallError)) : Z :=
  foldr (λ r n, match r with Value count => count + n | Error _ => n end) 0 rs.

(** C20: No signal is lost, made up or moved: after any number of looks, what the object holds is
    every byte the handler wrote and was read from the pipe, in their order, after what it held;
    and the looks' answers add up to how many that was. *)
Theorem signals_absorbed n signals s :
  sig_read_fd signals = fd →
  ∃ rs signals' s' new, absorbs n signals s = Some (rs, signals', s')
    ∧ taken (fd:=fd) s' = taken (fd:=fd) s ++ new
    ∧ sig_received signals' = sig_received signals ++ (byte_val <$> new)
    ∧ counted_by rs = size_of new ∧ length rs = n ∧ sig_read_fd signals' = fd.
Proof.
  revert signals s. induction n as [|n IH]; intros signals s Hfd; cbn [absorbs].
  { exists [], signals, s, []. rewrite !app_nil_r. by split_and!. }
  assert (∃ r signals1 s1 new, absorb signals s = Some (r, signals1, s1) ∧ taken (fd:=fd) s1 = taken (fd:=fd) s ++ new
    ∧ sig_received signals1 = sig_received signals ++ (byte_val <$> new) ∧ sig_read_fd signals1 = fd
    ∧ match r with Value count => count = size_of new | Error _ => new = [] end)
    as (r & signals1 & s1 & new & Ea & Ht & Hrec & Hfd1 & Hr).
  { unfold absorb. rewrite Hfd. destruct (poll_all [fd] 0 s) as [[ready|e] s1] eqn:Ep; pose proof (look_takes _ _ _ _ _ Ep) as Ht.
    2: { exists (Error e), signals, s1, []. rewrite !app_nil_r. by split_and!. }
    apply look_answers in Ep. destruct ready as [|front rest]; [done|]. destruct (readable front); cbn [negb].
    2: { exists (Value 0), signals, s1, []. rewrite !app_nil_r. by split_and!. }
    destruct (read_fd fd kLookBytes s1) as [[bytes|e] s2] eqn:Er.
    - eexists _, _, s2, bytes. split; [done|]. rewrite (read_takes _ _ _ _ Er), Ht. by split_and!.
    - eexists _, _, s2, []. split; [done|]. rewrite (read_fails _ _ _ _ Er), Ht, !app_nil_r. by split_and!. }
  destruct (IH signals1 s1 Hfd1) as (rs & signals2 & s2 & more & Es & Ht2 & Hrec2 & Hc & Hl & Hfd2).
  exists (r :: rs), signals2, s2, (new ++ more). rewrite Ea. cbn [mbind option_bind]. rewrite Es. cbn [mbind option_bind].
  split_and!; [done| | | |by cbn; f_equal|done].
  - by rewrite Ht2, Ht, app_assoc.
  - by rewrite Hrec2, Hrec, fmap_app, app_assoc.
  - rewrite size_of_app, <- Hc. unfold counted_by. cbn [foldr]. destruct r as [count|e]; [by subst count|by subst new].
Qed.
End Absorbed.

(** ** A machine with a pipe and two signals *)

Record SignalWorld := {
  sw_given : list byte;      (** what the handler wrote, all of it *)
  sw_taken : list byte;      (** what was read of it *)
  sw_dispositions : Z → Disposition;
  sw_open : list Z;
  sw_refuses : option Z;     (** a signal that cannot be diverted *)
}.

Definition unsupported {A} (s : SignalWorld) : Result A SyscallError * SignalWorld :=
  (Error {| number_ := EINVAL; call := lit "call"; subject := [] |}, s).

#[export] Instance signal_world_channel : ChannelCalls SignalWorld := {|
  write_fd _ _ := unsupported;
  read_fd _ size s :=
    let bytes := take size (drop (length (sw_taken s)) (sw_given s)) in (Value bytes, s <| sw_taken ::= (λ l, l ++ bytes) |>);
|}.

#[export] Instance signal_world_region : RegionCalls SignalWorld := {|
  create_memory_file _ _ := unsupported;
  map_shared _ _ := unsupported;
  write_header _ s := s;
  unmap _ := unsupported;
  close_fd fd s := (Value tt, s <| sw_open ::= filter (λ each, each ≠ fd) |>);
|}.

Definition dispose (signal : Z) (d : Disposition) (s : SignalWorld) : SignalWorld :=
  s <| sw_dispositions ::= (λ all i, if i =? signal then d else all i) |>.

#[export] Instance signal_world_calls : SignalCalls SignalWorld := {|
  create_pipe s :=
    let fd := 1 + foldr Z.max 2 (sw_open s) in
    if decide (NoDup (sw_open s))
    then (Value {| pipe_read := fd; pipe_write := fd + 1 |}, s <| sw_open ::= (λ l, fd :: (fd + 1) :: l) |>)
    else unsupported s;
  divert_signal signal fd s :=
    if bool_decide (sw_refuses s = Some signal) then unsupported s else (Value tt, dispose signal (DivertedTo fd) s);
  default_signal signal s := (Value tt, dispose signal DefaultAction s);
  ignore_signal signal s := (Value tt, dispose signal Ignored s);
  poll_all fds _ s :=
    (Value ((λ _, {| readable := (length (sw_taken s) <? length (sw_given s))%nat; hung_up := false; poll_error := false;
                     invalid := false |}) <$> fds), s);
  has_exited _ s := (Value false, s);
|}.

Lemma over_all (l : list Z) : Forall (λ x, x ≤ foldr Z.max 2 l) l ∧ 2 ≤ foldr Z.max 2 l.
Proof.
  induction l as [|x l [IH ?]]; cbn; [done|]. split; [|lia]. constructor; [lia|]. eapply Forall_impl; [exact IH|]. cbn. lia.
Qed.

#[export] Instance signal_world_laws : SignalLaws SignalWorld.
Proof.
  refine {| disposition i s := sw_dispositions s i; open_fds := sw_open |}.
  - intros s ends s'. cbn. case_decide as Hnd; [|done]. intros [= <- <-]. cbn. destruct (over_all (sw_open s)) as [Hall H2].
    rewrite Forall_forall in Hall. split_and!; [lia|lia|done| |done]. constructor; [|constructor; [|done]].
    + rewrite elem_of_cons. intros [?|Hin%Hall]; lia.
    + intros Hin%Hall. lia.
  - intros s e s'. cbn. case_decide; [done|]. by intros [= _ <-].
  - intros signal fd s s'. cbn. case_bool_decide; [done|]. intros [= <-]. cbn. rewrite Z.eqb_refl. split_and!; [done..|].
    intros i Hi. by rewrite (proj2 (Z.eqb_neq _ _)).
  - intros signal fd s e s'. cbn. case_bool_decide; [|done]. by intros [= _ <-].
  - intros signal s r s'. cbn. intros [= _ <-] _. cbn. rewrite Z.eqb_refl. split_and!; [done..|].
    intros i Hi. by rewrite (proj2 (Z.eqb_neq _ _)).
  - intros fd s r s'. cbn. by intros [= _ <-].
  - intros fds timeout s l s'. cbn. intros [= <- _]. apply length_fmap.
Defined.

#[export] Instance signal_world_pipe fd : ChannelLaws SignalWorld fd.
Proof.
  refine {| piped := λ _ : SignalWorld, []; taken := sw_taken |}; cbn; try done.
  intros size s bs s' [= <- <-]. done.
Defined.

#[export] Instance signal_world_look fd : SignalPipe SignalWorld fd.
Proof.
  split; cbn.
  - by intros fds timeout s r s' [= _ <-].
  - intros fds timeout s l s' [= <- _]. apply length_fmap.
Qed.

(** SIGINT, SIGTERM and SIGINT came; SIGINT was ignored before. *)
Definition interrupted (refuses : option Z) : SignalWorld :=
  {| sw_given := byte_of <$> [2; 15; 2]; sw_taken := []; sw_dispositions := λ i, if i =? SIGINT then Ignored else DefaultAction;
     sw_open := [0; 1; 2]; sw_refuses := refuses |}.

Definition listening : StopSignals := {| sig_read_fd := 3; sig_write_fd := 4; sig_received := [] |}.

Lemma signals_absorbed_witness :
  (λ x, sig_received x.1.2) <$> absorbs 2 listening (interrupted None) = Some [2; 15; 2]
  ∧ ∃ rs signals' s' new, absorbs 2 listening (interrupted None) = Some (rs, signals', s')
      ∧ taken (fd:=3) s' = new ∧ sig_received signals' = byte_val <$> new ∧ counted_by rs = size_of new.
Proof.
  split; [by vm_compute|].
  destruct (signals_absorbed 3 2 listening (interrupted None) eq_refl)
    as (rs & signals' & s' & new & E & Ht & Hr & Hc & _).
  exists rs, signals', s', new. by split_and!.
Defined.

Lemma signals_installed_witness :
  let '(r, signals, k) := install no_signals (interrupted None) in
  has_value r = true ∧ open_fds k = [3; 4; 0; 1; 2] ∧ open_fds (release_signals signals k).2 = [0; 1; 2].
Proof.
  pose proof (signals_installed (interrupted None)) as H.
  destruct (install no_signals (interrupted None)) as [[r signals] k] eqn:E.
  destruct H as [_ H]. vm_compute in E. injection E as <- <- <-. split_and!; [done|exact (proj1 H)|].
  destruct H as (_ & _ & _ & H). destruct (release_signals _ _) as [released k2]. destruct H as (_ & H & _). exact H.
Defined.

(** A failure to install leaves SIGINT with its default action where it was ignored before. *)
Example install_forgets_ignored :
  let '(r, _, k) := install no_signals (interrupted (Some SIGTERM)) in
  has_value r = false ∧ disposition SIGINT (interrupted (Some SIGTERM)) = Ignored ∧ disposition SIGINT k = DefaultAction.
Proof. by vm_compute. Qed.
