(* ===== verification/Process.v ===== *)
(** * platform/process: becoming a worker

    What a forked child does before its image is replaced, and where the executable is
    (platform/process.hpp and process.cpp). *)

From S2P Require Export Platform.

Inductive WorkerStartupFailure :=
| kExecFailed | kParentDiedBeforeArming | kDeathSignalUnavailable | kDescriptorNotInherited.

Definition startup_code (failure : WorkerStartupFailure) : Z :=
  match failure with
  | kExecFailed => 120
  | kParentDiedBeforeArming => 121
  | kDeathSignalUnavailable => 122
  | kDescriptorNotInherited => 123
  end.

Definition kParentDeathSignal : Z := 9.
Definition kMaxPathLength : Z := 4096.
Definition ENAMETOOLONG : Z := 36.
Definition ENOENT : Z := 2.

(** The calls of a child (platform/syscalls.hpp). [exec] answers None when the image is
    replaced: it then does not return. *)
Class ExecCalls (K : Type) := {
  set_parent_death_signal : Z → K → Result unit SyscallError * K;
  parent_pid : K → Z;
  start_session : K → K;
  inherit_across_exec : Z → K → Result unit SyscallError * K;
  exec : text → list text → K → option SyscallError * K;
  read_link : text → Z → K → Result text SyscallError * K;
}.

Section Process.
Context {K : Type} `{ExecCalls K}.

Fixpoint inherit_all (fds : list Z) (s : K) : bool * K :=
  match fds with
  | [] => (true, s)
  | fd :: fds =>
      let '(kept, s) := inherit_across_exec fd s in
      match kept with Error _ => (false, s) | Value _ => inherit_all fds s end
  end.

(** None is the image replaced. *)
Definition become_worker (executable : text) (supervisor_pid : Z) (argv : list text) (inherited_fds : list Z) (s : K) :
    option WorkerStartupFailure * K :=
  let '(armed, s) := set_parent_death_signal kParentDeathSignal s in
  match armed with
  | Error _ => (Some kDeathSignalUnavailable, s)
  | Value _ =>
      if negb (parent_pid s =? supervisor_pid) then (Some kParentDiedBeforeArming, s) else
      let s := start_session s in
      let '(kept, s) := inherit_all inherited_fds s in
      if negb kept then (Some kDescriptorNotInherited, s) else
      let '(failed, s) := exec executable argv s in
      ((λ _, kExecFailed) <$> failed, s)
  end.

(** [ExecutablePath::resolve]: readlink(2) answers what of the target fits the buffer. *)
Definition resolve (link : text) (s : K) : Result text SyscallError * K :=
  let '(count, s) := read_link link kMaxPathLength s in
  (match count with
   | Error e => Error e
   | Value target =>
       if kMaxPathLength <=? size_of target
       then Error {| number_ := ENAMETOOLONG; call := lit "readlink"; subject := link |}
       else match target with
            | [] => Error {| number_ := ENOENT; call := lit "readlink"; subject := link ++ lit " (resolved to an empty path)" |}
            | _ => Value target
            end
   end, s).
End Process.
