(* ===== verification/Orchestration.v ===== *)
(** * controller/orchestration: the controller's loop

    One run, from the first beat to the report: the [Run] of orchestration.cpp, its state and
    every operation of it, over what is held about each worker (Tracking). A method is a
    computation on the run and the world, that may end in a controller error; None is a loop
    out of fuel, an answer the calls do not give, or this process replaced by another image.
    The timeline is one object: the sampler writes it, the marks go to it, and the watch over
    the ceiling reads it. *)

From S2P Require Import JournalStore.
From S2P Require Export WorkerArgs StopSignals Temperature Sampler Process.
From coqutil Require Export Datatypes.RecordSettersUsingExistingGetters.

(** ** report.hpp, orchestration.hpp *)

Record Reap := { reap_slot : Z; reap_at_ns : Z }.

Record SamplingReport := {
  sp_enabled : bool;
  sp_interval_ns : Z;
  sp_rounds : Z;
  sp_points : Z;
  sp_cost_ns : Z;
  sp_first_round_ns : Z;
  sp_last_round_ns : Z;
  sp_reaps : list Reap;
  sp_fault : option text;
}.

Record JournalReport := { jr_enabled : bool; jr_entries : Z; jr_fault : option text }.

Record RunReport := {
  rr_workers : list WorkerReport;
  rr_sampling : SamplingReport;
  rr_steps_run : Z;
  rr_journal : JournalReport;
  rr_elapsed_ns : Z;
  rr_worker_exit_code : option Z;
  rr_temperature_stop : option TemperatureStop;
  rr_stop_signal : option Z;
  rr_stop_forced : bool;
}.

Record RunPlan := {
  rp_mode : ConfigMode;
  rp_duration_ms : Z;
  rp_workers : Z;
  rp_executable : text;
  rp_limits : list LimitStatus;
  rp_topology : text;
  rp_workloads : list text;
  rp_environment : text;
  rp_capabilities : text;
}.

(** A pointer that may be null is a flag, or an option where it points to data. *)
Record RunOptions := {
  opt_executable : text;
  opt_interval_ns : Z;
  opt_stale_after_ns : Z;
  opt_grace : Grace;
  opt_budget : option MemoryBudget;
  opt_budget_unread : text;
  opt_oom_record : bool;
  opt_topology : option Snapshot;
  opt_verification : VerificationOptions;
  opt_fp : bool;
  opt_capabilities : text;
  opt_sampler : bool;
  opt_timeline : bool;
  opt_view : bool;
  opt_temperature_unread : text;
  opt_temperature_blind_after_ns : Z;
  opt_replacement_allowance_ns : Z;
  opt_sample_interval_ns : Z;
  opt_schedule : option Schedule;
  opt_journal : bool;
  opt_journal_interval_ns : Z;
  opt_journal_notes : bool;
  opt_stop_signals : bool;
}.

Record ControllerError := { ce_stage : text; ce_detail : text }.

Definition describe_controller_error (error : ControllerError) : text := ce_stage error ++ lit ": " ++ ce_detail error.

(** The reporter, the notes of the journal and the OOM-kill record, which a run is given. *)
Class Surroundings (K : Type) := {
  report_starting : RunPlan → K → K;
  report_event : Z → text → K → K;
  report_finished : RunReport → K → K;
  fill_notes : Journal.Entry → K → Journal.Entry * K;
  oom_kills : K → Result Z text * K;
  oom_scope : text;
}.

(** ** orchestration.cpp: what a report comes to *)

Definition describe_stop_signal (report : RunReport) : text :=
  match rr_stop_signal report with
  | None => []
  | Some signal =>
      lit "stopped by " ++ signal_name signal
      ++ (if rr_stop_forced report then lit "; a later signal killed the workers at once" else [])
  end.

Definition clean_count (report : RunReport) : Z :=
  size_of (filter (λ worker, is_clean (rp_fate worker) = true) (rr_workers report)).

Definition all_clean (report : RunReport) : bool :=
  match rr_workers report with [] => false | workers => clean_count report =? size_of workers end.

Definition wrong_result_count (report : RunReport) : Z :=
  foldl (λ total worker, u64 (total + rp_wrong_results worker)) 0 (rr_workers report).

Definition not_performed_count (report : RunReport) : Z :=
  foldl (λ total worker, u64 (total + rp_not_performed worker)) 0 (rr_workers report).

(** ** orchestration.cpp: the run *)

Definition kControllerPhase : Z := 1.
Definition kMaxReadsPerTick : nat := 64.
Definition kMaxDrainsAfterDeath : nat := 1024.
Definition kNanosecondsPerMs : Z := 1000000.
Definition SIGPIPE : Z := 13.
Definition SIGCHLD : Z := 17.

(** [static_cast<int>]. *)
Definition i32 (x : Z) : Z := (x + 2 ^ 31) mod 2 ^ 32 - 2 ^ 31.

Definition describe_refusal (error : TimelineError) : text :=
  describe_timeline_fault (timeline_fault error)
  ++ match timeline_detail error with [] => [] | detail => lit " (" ++ detail ++ lit ")" end.

Definition wakes (readiness : Readiness) : bool :=
  readable readiness || hung_up readiness || poll_error readiness || invalid readiness.

(** *** Labels *)

(** [operator<] of strings: by their bytes. *)
Fixpoint text_le (a b : text) : bool :=
  match a, b with
  | [], _ => true
  | _ :: _, [] => false
  | x :: a, y :: b => (byte_val x <? byte_val y) || ((byte_val x =? byte_val y) && text_le a b)
  end.

Definition text_before (a b : text) : Prop := text_le a b = true.

#[export] Instance text_before_dec : RelDecision text_before.
Proof. intros a b. unfold text_before. apply _. Defined.

(** [std::ranges::unique]. *)
Fixpoint dedupe (names : list text) : list text :=
  match names with
  | [] => []
  | name :: rest => match dedupe rest with
                    | next :: _ as kept => if bool_decide (name = next) then kept else name :: kept
                    | [] => [name]
                    end
  end.

Definition plus (joined : text) : text := match joined with [] => [] | _ => lit "+" end.

(** The members of [Run] that change, with the objects it shares with its caller. *)
Record Run := {
  run_pool : WorkerPool;
  run_region : option HeartbeatRegion;
  run_workers : list Tracked;
  run_started : TimePoint;
  run_duration_ns : Z;
  run_beats : Z;
  run_oom_before : Result Z text;
  run_live : Z;
  run_stop_requested : bool;
  run_spawned : bool;
  run_environment : text;
  run_sampling : SamplingReport;
  run_sampling_live : bool;
  run_temperature : option TemperatureWatch;
  run_temperature_checked_ns : Z;
  run_temperature_stop : option TemperatureStop;
  run_signals_handled : nat;
  run_stop_signal : option Z;
  run_stop_forced : bool;
  run_clock_running_ns : Z;
  run_next_step : nat;
  run_steps_run : Z;
  run_phase : text;
  run_workload_label : text;
  run_journal_report : JournalReport;
  run_journal_live : bool;
  run_last_journal_ns : Z;
  (** What the caller's pointers point to. *)
  run_sampler : RoundSampler;
  run_timeline : BoundedTimeline;
  run_journal : FormatWriter;
  run_signals : StopSignals;
}.

Definition no_sampling : SamplingReport :=
  {| sp_enabled := false; sp_interval_ns := 0; sp_rounds := 0; sp_points := 0; sp_cost_ns := 0;
     sp_first_round_ns := 0; sp_last_round_ns := 0; sp_reaps := []; sp_fault := None |}.

Definition no_journal : JournalReport := {| jr_enabled := false; jr_entries := 0; jr_fault := None |}.

(** The members as a new [Run] has them. *)
Definition fresh_run (sampler : RoundSampler) (timeline : BoundedTimeline) (journal : FormatWriter) (signals : StopSignals) : Run :=
  {| run_pool := {| pids_ := []; live_ := 0 |}; run_region := None; run_workers := [];
     run_started := {| raw_ns := 0; running_ns := 0; wall_ns := 0 |}; run_duration_ns := 0; run_beats := 0;
     run_oom_before := Error (lit "not read"); run_live := 0; run_stop_requested := false; run_spawned := false;
     run_environment := []; run_sampling := no_sampling; run_sampling_live := false; run_temperature := None;
     run_temperature_checked_ns := -1; run_temperature_stop := None; run_signals_handled := 0; run_stop_signal := None;
     run_stop_forced := false; run_clock_running_ns := 0; run_next_step := 0; run_steps_run := 0;
     run_phase := lit "run"; run_workload_label := []; run_journal_report := no_journal; run_journal_live := false;
     run_last_journal_ns := 0; run_sampler := sampler; run_timeline := timeline; run_journal := journal;
     run_signals := signals |}.

(** *** The monad of the run's methods *)

Section Monad.
Context {K : Type}.

Definition M (A : Type) : Type := Run → K → option (Result A ControllerError * Run * K).

Definition ret {A} (a : A) : M A := λ r s, Some (Value a, r, s).
Definition error_at {A} (stage detail : text) : M A := λ r s, Some (Error {| ce_stage := stage; ce_detail := detail |}, r, s).
Definition stuck {A} : M A := λ _ _, None.
Definition bind {A B} (m : M A) (k : A → M B) : M B := λ r s,
  match m r s with
  | Some (Value a, r, s) => k a r s
  | Some (Error e, r, s) => Some (Error e, r, s)
  | None => None
  end.
Definition get : M Run := λ r s, Some (Value r, r, s).
Definition modify (f : Run → Run) : M unit := λ r s, Some (Value tt, f r, s).
(** A call of the world. *)
Definition call {A} (f : K → A * K) : M A := λ r s, let (a, s) := f s in Some (Value a, r, s).
Definition call_fueled {A} (f : K → option (A * K)) : M A := λ r s, '(a, s) ← f s; Some (Value a, r, s).

Definition worker (i : nat) : M Tracked := λ r s, w ← run_workers r !! i; Some (Value w, r, s).
Definition on_worker (i : nat) (f : Tracked → Tracked) : M unit := modify (λ r, r <| run_workers ::= alter f i |>).
End Monad.
Arguments M : clear implicits.

Notation "'let!' x := m 'in' k" := (bind m (λ x, k))
  (at level 200, x pattern, m at level 100, k at level 200) : lf_scope.
Notation "m ;;! k" := (bind m (λ _, k)) (at level 100, k at level 200, right associativity) : lf_scope.
#[local] Open Scope lf_scope.

Fixpoint for_each {K A} (l : list A) (body : A → M K unit) : M K unit :=
  match l with
  | [] => ret tt
  | a :: l => body a ;;! for_each l body
  end.

(** [for (Tracked& worker : workers_)]. *)
Definition for_workers {K} (body : nat → M K unit) : M K unit :=
  let! r := get in for_each (seq 0 (length (run_workers r))) body.

Definition when {K} (condition : bool) (m : M K unit) : M K unit := if condition then m else ret tt.

(** *** Its methods *)

Section Orchestration.
Context {K : Type} `{ProcessCalls K} `{ChannelCalls K} `{RegionCalls K} `{WorkerCalls K} `{FpControl K} `{SignalCalls K}
  `{ExecCalls K} `{SourceCalls K} `{StorageOps K} `{Surroundings K}.
Context (strerror : Z → text) (shortest : Z → text) (compiled : IsaSet) (config : Config) (options : RunOptions) (fuel : nat).

Definition event (elapsed_ns : Z) (line : text) : M K unit := call (λ s, (tt, report_event elapsed_ns line s)).

Definition clock : M K (Result TimePoint SyscallError) := call (clock_now read_clock).

Definition now_or (stage : text) : M K TimePoint :=
  let! now := clock in
  match now with Value now => ret now | Error e => error_at stage (describe_syscall_error strerror e) end.

(** [Clock::between(started_, now)], with its error. *)
Definition since_start (now : TimePoint) : M K Z :=
  let! r := get in
  match Platform.between (run_started r) now with
  | Value elapsed => ret (elapsed_raw_ns elapsed)
  | Error e => error_at (lit "clock") (describe_syscall_error strerror e)
  end.

Definition beat (now : TimePoint) : M K unit :=
  modify (λ r, r <| run_beats ::= (λ n, u64 (n + 1)) |>) ;;!
  let! r := get in
  let! pid := call (λ s, (process_id s, s)) in
  let! _ := call (region_publish kControllerSlot
    {| Heartbeat.timestamp_ns := running_ns now; progress := run_beats r; beat_phase := kControllerPhase; pid := u32 pid |}) in
  ret tt.

(** **** What the telemetry does *)

Definition telemetry_fault (words : text) (now_ns : Z) : M K unit :=
  modify (λ r, r <| run_sampling ::= (λ sp, sp <| sp_fault ::= (λ fault, match fault with None => Some words | _ => fault end) |>) |>) ;;!
  let! r := get in
  event (i64 (now_ns - running_ns (run_started r))) (lit "telemetry: " ++ words).

Definition round_taken (first : bool) (now_ns points : Z) (sp : SamplingReport) : SamplingReport :=
  sp <| sp_first_round_ns ::= (λ t, if first then now_ns else t) |> <| sp_last_round_ns := now_ns |>
     <| sp_rounds ::= (λ n, u64 (n + 1)) |> <| sp_points ::= (λ n, u64 (n + points)) |>.

Definition take_round (now_ns : Z) (force : bool) : M K unit :=
  let! r := get in
  let sp := run_sampling r in
  let taken := 0 <? sp_rounds sp in
  if negb (run_sampling_live r) then ret tt else
  if taken && (now_ns <=? sp_last_round_ns sp) then ret tt else
  if taken && negb force && (i64 (now_ns - sp_last_round_ns sp) <? opt_sample_interval_ns options) then ret tt else
  let! (answer, timeline) := call_fueled (λ s,
    '(answer, timeline, s) ← Sampler.round (run_sampler r) now_ns (run_timeline r) s; Some ((answer, timeline), s)) in
  modify (λ r, r <| run_timeline := timeline |>) ;;!
  let! after := clock in
  when (has_value after)
    (modify (λ r, r <| run_sampling ::= (λ sp, sp <| sp_cost_ns ::= (λ cost,
       match after with Value after => i64 (cost + Z.max 0 (i64 (running_ns after - now_ns))) | Error _ => cost end) |>) |>)) ;;!
  match answer with
  | Error e =>
      telemetry_fault (lit "sampling stopped: " ++ describe_refusal e) now_ns ;;!
      modify (λ r, r <| run_sampling_live := false |>)
  | Value points => modify (λ r, r <| run_sampling ::= round_taken (negb taken) now_ns points |>)
  end.

Definition mark_phase (label_ : text) (now_ns : Z) : M K unit :=
  let! r := get in
  if negb (sp_enabled (run_sampling r)) || negb (opt_timeline options) then ret tt else
  let (marked, timeline) := Timeline.mark_phase {| start_ns := now_ns; label := label_ |} (run_timeline r) in
  modify (λ r, r <| run_timeline := timeline |>) ;;!
  match marked with
  | Value _ => ret tt
  | Error e => telemetry_fault (lit "phase " ++ [byte_of 34] ++ label_ ++ [byte_of 34] ++ lit " refused: "
                                ++ describe_timeline_fault (timeline_fault e)) now_ns
  end.

Definition begin_telemetry : M K unit :=
  if negb (opt_sampler options) then ret tt else
  modify (λ r, r <| run_sampling ::= (λ sp, sp <| sp_enabled := true |> <| sp_interval_ns := opt_sample_interval_ns options |>) |>
                 <| run_sampling_live := true |>) ;;!
  let! r := get in
  take_round (running_ns (run_started r)) true ;;!
  mark_phase (lit "run") (running_ns (run_started r)).

(** **** What the journal is told *)

Definition describe_journal_fault (fault : Journal.JournalFault) : text :=
  match fault with
  | Journal.kStorage => lit "storage failed"
  | Journal.kTooLarge => lit "entry too large"
  | Journal.kNotEmpty => lit "journal already written"
  | Journal.kClosed => lit "journal closed"
  end.

Definition furthest (units : option Z) (worker : Tracked) : option Z :=
  if tr_tally_seen worker then Some (Z.max (default 0 units) (units_computed (tr_tally worker))) else units.

(** The entry before its notes. *)
Definition bare_entry (r : Run) (elapsed_ns : Z) : Journal.Entry :=
  {| Journal.elapsed_ns := elapsed_ns; Journal.phase := run_phase r; Journal.workload := run_workload_label r;
     Journal.last_verified_unit := foldl furthest None (run_workers r);
     Journal.temperature_c := None; Journal.package_power_w := None; Journal.frequency_hz := None;
     Journal.ecc_corrected := None; Journal.ecc_uncorrected := None;
     Journal.workers_alive := u32 (size_of (filter (λ w, tr_reaped w = false) (run_workers r)));
     Journal.workers_stale := u32 (size_of (filter (λ w, negb (tr_reaped w) && tr_stale_now w = true) (run_workers r))) |}.

(** The reading that ended the run, if one did. *)
Definition ending_reading (r : Run) : option Z :=
  match run_temperature_stop r with
  | Some stop => if bool_decide (ts_cause stop = kReached) then Some (ts_celsius stop) else None
  | None => None
  end.

Definition with_temperature (celsius : option Z) (e : Journal.Entry) : Journal.Entry :=
  match celsius with Some c => e <| Journal.temperature_c := Some c |> | None => e end.

Definition journal_entry (elapsed_ns : Z) : M K Journal.Entry :=
  let! r := get in
  let! entry := (if opt_journal_notes options then call (fill_notes (bare_entry r elapsed_ns))
                 else ret (bare_entry r elapsed_ns)) in
  ret (with_temperature (ending_reading r) entry).

Definition journal_fault (words : text) (elapsed_ns : Z) : M K unit :=
  modify (λ r, r <| run_journal_report ::= (λ j, j <| jr_fault := Some words |>) |> <| run_journal_live := false |>) ;;!
  event elapsed_ns (lit "journal: " ++ words).

Definition fault_line (what : text) (error : Journal.JournalError) : text :=
  what ++ lit ": " ++ describe_journal_fault (Journal.jerr_fault error) ++ lit ": " ++ Journal.jerr_detail error.

(** A call on the journal's writer. *)
Definition writing (call_ : FormatWriter → K → Result unit Journal.JournalError * FormatWriter * K) :
    M K (Result unit Journal.JournalError) :=
  λ r s, let '(answer, journal, s) := call_ (run_journal r) s in Some (Value answer, r <| run_journal := journal |>, s).

Definition write_journal (elapsed_ns : Z) (force : bool) : M K unit :=
  let! r := get in
  let due := opt_journal_interval_ns options <=? i64 (elapsed_ns - run_last_journal_ns r) in
  if negb (run_journal_live r) then ret tt else
  if negb force && (0 <? jr_entries (run_journal_report r)) && negb due then ret tt else
  let! entry := journal_entry elapsed_ns in
  let! appended := writing (writer_append entry) in
  match appended with
  | Error e => journal_fault (fault_line (lit "append") e) elapsed_ns
  | Value _ =>
      let! synced := writing writer_sync in
      match synced with
      | Error e => journal_fault (fault_line (lit "sync") e) elapsed_ns
      | Value _ =>
          modify (λ r, r <| run_journal_report ::= (λ j, j <| jr_entries ::= (λ n, u64 (n + 1)) |>) |>
                         <| run_last_journal_ns := elapsed_ns |>)
      end
  end.

(** **** What a worker is told *)

Definition cause_number (error : ChannelError) : Z :=
  match error with InCall cause => number_ cause | InFrame _ => 0 end.

Definition command (i : nat) (what : Command) : M K unit :=
  let! w := worker i in
  if tr_reaped w then ret tt else
  let message := {| message_sequence := tr_next_sequence w; Control.command := what |} in
  let! written := call_fueled (IpcRecord.send (pipe_write (tr_control w)) kControlFrameType (encode_message message)) in
  match written with
  | Error e =>
      if negb (cause_number e =? EPIPE) then error_at (lit "control pipe") (describe_channel_error strerror e) else ret tt
  | Value _ =>
      let! r := get in
      on_worker i (order_sent what (run_clock_running_ns r))
  end.

Definition request_stop (now_ns : Z) : M K unit :=
  modify (λ r, r <| run_stop_requested := true |>) ;;!
  for_workers (λ i,
    let! w := worker i in
    if tr_reaped w || negb (bool_decide (tr_step w = kStepNone)) then ret tt else
    command i Stop ;;!
    on_worker i (λ w, w <| tr_step := kRequested |> <| tr_step_since_ns := now_ns |>)).

(** The messages of one step for one worker. *)
Definition tell_worker (i : nat) (commands : list Command) : M K unit :=
  for_each commands (λ what,
    let! w := worker i in
    if kMaxUnanswered <=? size_of (tr_unanswered w) then on_worker i order_dropped else command i what).

Fixpoint due_steps (steps : list ScheduleStep) (elapsed_ns now_ns : Z) (stepped : bool) : M K bool :=
  match steps with
  | [] => ret stepped
  | step :: rest =>
      if negb (at_ns step <=? elapsed_ns) then ret stepped else
      modify (λ r, r <| run_next_step ::= S |> <| run_steps_run ::= (λ n, u64 (n + 1)) |>
                     <| run_phase := step_phase step |> <| run_workload_label := step_workload step |>) ;;!
      mark_phase (step_phase step) now_ns ;;!
      event elapsed_ns (lit "phase " ++ step_phase step ++ lit ": " ++ step_workload step) ;;!
      for_each (step_workers step) (λ each, tell_worker (Z.to_nat (wc_slot each)) (wc_commands each)) ;;!
      due_steps rest elapsed_ns now_ns true
  end.

Definition run_schedule (elapsed_ns now_ns : Z) : M K unit :=
  let! r := get in
  match opt_schedule options with
  | None => ret tt
  | Some schedule =>
      if run_stop_requested r then ret tt else
      let! stepped := due_steps (drop (run_next_step r) (sched_steps schedule)) elapsed_ns now_ns false in
      when stepped (write_journal elapsed_ns true)
  end.

(** **** How a worker is judged and stopped *)

Definition signal_sent (signal now_ns : Z) (stale : bool) (w : Tracked) : Tracked :=
  w <| tr_step := step_after signal |> <| tr_step_since_ns := now_ns |>
    <| tr_evidence ::= (λ e, e <| signal_attempted := Some signal |> <| stale_when_signalled := stale |>) |>.

Definition send (i : nat) (signal now_ns : Z) (stale : bool) : M K unit :=
  let! w := worker i in
  let! exited := call (has_exited (tr_pid w)) in
  match exited with
  | Error e => error_at (lit "signal") (describe_syscall_error strerror e)
  | Value true =>
      on_worker i (add_note (lit "signal " ++ int_to_dec signal ++ lit " not sent: the worker had already exited"))
  | Value false =>
      let! sent := call (send_signal (tr_pid w) signal) in
      match sent with
      | Error e =>
          if negb (number_ e =? ESRCH) then error_at (lit "signal") (describe_syscall_error strerror e) else ret tt
      | Value _ =>
          on_worker i (signal_sent signal now_ns stale) ;;!
          let! r := get in
          event (i64 (now_ns - running_ns (run_started r)))
            (lit "worker " ++ to_dec (tr_slot w) ++ lit ": sent signal " ++ int_to_dec signal
             ++ (if stale then lit " (heartbeat stale)" else []))
      end
  end.

Definition watch (i : nat) (now : TimePoint) : M K unit :=
  let! w := worker i in
  let! observed := call (region_observe (worker_slot (tr_slot w))) in
  on_worker i (λ w, judge_beat (opt_stale_after_ns options) (opt_replacement_allowance_ns options) w observed (running_ns now)) ;;!
  let! w := worker i in
  match signal_due (opt_grace options) w (running_ns now) with
  | Some (signal, stale) => send i signal (running_ns now) stale
  | None => ret tt
  end.

(** **** What a worker says *)

Definition close_quietly (fd : Z) : M K unit := let! _ := call (close_fd fd) in ret tt.

Definition close_channel (i : nat) : M K unit :=
  let! w := worker i in
  close_quietly (pipe_read (tr_records w)) ;;!
  on_worker i (λ w, w <| tr_records ::= (λ ends, ends <| pipe_read := -1 |>) |> <| tr_channel_open := false |>).

Definition channel_failed {A} (error : ChannelError) : M K A :=
  error_at (lit "record channel") (describe_channel_error strerror error).

Definition drain (i : nat) : M K unit :=
  let! w := worker i in
  match tr_source w with
  | None => stuck
  | Some source =>
      let! (drained, source) := call (λ s, let '(drained, source, s) := IpcRecord.drain (pipe_read (tr_records w)) source s in
                                           ((drained, source), s)) in
      on_worker i (λ w, w <| tr_source := Some source |>) ;;!
      match drained with
      | Error e => channel_failed e
      | Value drained =>
          let! w := worker i in
          let (over, w) := take_drained shortest w drained in
          on_worker i (λ _, w) ;;!
          when over (close_channel i)
      end
  end.

(** poll(2) on one channel; it answers for each descriptor it is asked about. *)
Definition poll_one (fd timeout_ms : Z) : M K Readiness :=
  let! ready := call (poll_all [fd] timeout_ms) in
  match ready with
  | Error e => error_at (lit "record channel") (describe_syscall_error strerror e)
  | Value (front :: _) => ret front
  | Value [] => stuck
  end.

(** The loop of drain_available; [reads] are those left. *)
Fixpoint drain_reads (reads : nat) (i : nat) : M K unit :=
  match reads with
  | O => ret tt
  | S reads =>
      drain i ;;!
      let! w := worker i in
      if negb (tr_channel_open w) then ret tt else
      let! more := poll_one (pipe_read (tr_records w)) 0 in
      if negb (readable more) then ret tt else drain_reads reads i
  end.

Definition drain_available (i : nat) : M K unit := drain_reads kMaxReadsPerTick i.

(** **** What a signal does *)

Definition kill_for_signal : M K unit :=
  let! r := get in
  let now_ns := run_clock_running_ns r in
  modify (λ r, r <| run_stop_forced := true |>) ;;!
  event (i64 (now_ns - running_ns (run_started r))) (lit "another signal received: killing the workers") ;;!
  for_workers (λ i,
    let! w := worker i in
    if tr_reaped w || bool_decide (tr_step w = kKilled) then ret tt else send i SIGKILL now_ns false).

Definition stop_for_signal (signal : Z) : M K unit :=
  let! r := get in
  let now_ns := run_clock_running_ns r in
  modify (λ r, r <| run_stop_signal := Some signal |>) ;;!
  when (negb (run_stop_requested r))
    (take_round now_ns true ;;! mark_phase (lit "stop") now_ns ;;! request_stop now_ns) ;;!
  let elapsed_ns := i64 (now_ns - running_ns (run_started r)) in
  event elapsed_ns (signal_name signal ++ lit " received: stop requested") ;;!
  modify (λ r, r <| run_phase := bounded_label (lit "stopped by " ++ signal_name signal) |>) ;;!
  write_journal elapsed_ns true.

(** The loop over the signals not yet acted on. *)
Fixpoint handle_signals (signals : list Z) : M K unit :=
  match signals with
  | [] => ret tt
  | signal :: signals =>
      let! r := get in
      match run_stop_signal r with Some _ => kill_for_signal | None => stop_for_signal signal end ;;!
      modify (λ r, r <| run_signals_handled ::= S |>) ;;!
      handle_signals signals
  end.

Definition take_stop_signals : M K unit :=
  let! r := get in
  let! (absorbed, signals) := call_fueled (λ s, '(a, signals, s) ← absorb (run_signals r) s; Some ((a, signals), s)) in
  modify (λ r, r <| run_signals := signals |>) ;;!
  match absorbed with
  | Error e => error_at (lit "stop signal") (describe_syscall_error strerror e)
  | Value _ =>
      let! r := get in
      handle_signals (drop (run_signals_handled r) (sig_received (run_signals r)))
  end.

(** The loop over the channels that were polled, with their answers. *)
Fixpoint drain_ready (watched : list nat) (ready : list Readiness) : M K unit :=
  match watched, ready with
  | [], _ => ret tt
  | i :: watched, readiness :: ready =>
      when (wakes readiness) (drain_available i) ;;! drain_ready watched ready
  | _ :: _, [] => stuck
  end.

Definition open_channels (r : Run) : list (nat * Tracked) := filter (λ p, tr_channel_open p.2 = true) (imap pair (run_workers r)).

Definition poll_and_drain (timeout_ms : Z) : M K unit :=
  let! r := get in
  let watched := open_channels r in
  let fds := ((λ p, pipe_read (tr_records p.2)) <$> watched)
             ++ (if opt_stop_signals options then [sig_read_fd (run_signals r)] else []) in
  let! ready := call (poll_all fds timeout_ms) in
  match ready with
  | Error e => error_at (lit "record channel") (describe_syscall_error strerror e)
  | Value ready =>
      drain_ready watched.*1 ready ;;!
      if opt_stop_signals options
      then match last ready with
           | Some back => when (wakes back) take_stop_signals
           | None => stuck
           end
      else ret tt
  end.

(** **** How a death is taken *)

Definition kill_group (i : nat) : M K unit :=
  let! w := worker i in
  let! killed := call (send_signal (- tr_pid w) SIGKILL) in
  match killed with
  | Value _ => on_worker i (add_note (lit "process group: killed what the worker left running"))
  | Error e =>
      if negb (number_ e =? ESRCH)
      then on_worker i (add_note (lit "process group: " ++ describe_syscall_error strerror e)) else ret tt
  end.

(** A call on the pool. *)
Definition pooling {A} (call_ : WorkerPool → K → option (A * WorkerPool * K)) : M K A :=
  λ r s, '(a, pool, s) ← call_ (run_pool r) s; Some (Value a, r <| run_pool := pool |>, s).

Definition death_taken (dead : WorkerDeath) (w : Tracked) : Tracked :=
  w <| tr_evidence ::= (λ e, e <| status := death_status dead |>) |> <| tr_reaped := true |>.

Definition take_death (dead : WorkerDeath) (elapsed_ns : Z) : M K unit :=
  let i := death_slot dead in
  on_worker i (death_taken dead) ;;!
  modify (λ r, if sp_enabled (run_sampling r)
               then r <| run_sampling ::= (λ sp, sp <| sp_reaps ::= (λ reaps, reaps ++
                           [{| reap_slot := Z.of_nat i; reap_at_ns := run_clock_running_ns r |}]) |>) |>
               else r) ;;!
  modify (λ r, r <| run_live ::= (λ n, u64 (n - 1)) |>) ;;!
  kill_group i ;;!
  let! w := worker i in
  close_quietly (pipe_write (tr_control w)) ;;!
  on_worker i (λ w, w <| tr_control ::= (λ ends, ends <| pipe_write := -1 |>) |>) ;;!
  event elapsed_ns (lit "worker " ++ to_dec (tr_slot w) ++ lit " (pid " ++ int_to_dec (tr_pid w) ++ lit "): "
                    ++ describe_status (status (tr_evidence w))).

(** The loop of reap; every turn but the last takes a death, so [live_] of them are enough. *)
Fixpoint reap_turns (turns : nat) (elapsed_ns : Z) : M K unit :=
  let! r := get in
  if negb (0 <? run_live r) then ret tt else
  match turns with
  | O => stuck
  | S turns =>
      let! death := pooling (reap_next_nonblocking fuel) in
      match death with
      | Error e => error_at (lit "reap") (describe_syscall_error strerror e)
      | Value None => ret tt
      | Value (Some dead) => take_death dead elapsed_ns ;;! reap_turns turns elapsed_ns
      end
  end.

Definition reap (elapsed_ns : Z) : M K unit :=
  let! r := get in reap_turns (Z.to_nat (run_live r)) elapsed_ns.

Definition elapsed_now : M K Z :=
  let! now := now_or (lit "clock") in
  let! elapsed_ns := since_start now in
  modify (λ r, r <| run_clock_running_ns := running_ns now |>) ;;!
  ret elapsed_ns.

(** The inner loop of drain_after_death. *)
Fixpoint last_drains (attempts : nat) (i : nat) (now_ns give_up_at : Z) : M K unit :=
  match attempts with
  | O => ret tt
  | S attempts =>
      let! w := worker i in
      if negb (tr_channel_open w) || negb (now_ns <? give_up_at) then ret tt else
      let remaining_ns := i64 (give_up_at - now_ns) in
      let timeout_ms := i32 (Z.quot (i64 (remaining_ns + kNanosecondsPerMs - 1)) kNanosecondsPerMs) in
      let! readiness := poll_one (pipe_read (tr_records w)) timeout_ms in
      if negb (wakes readiness) then ret tt else
      drain i ;;!
      let! now_ns := elapsed_now in
      last_drains attempts i now_ns give_up_at
  end.

Definition held_open (w : Tracked) : Tracked :=
  add_note (lit "record channel: held open after the worker died")
    (w <| tr_evidence ::= (λ e, e <| channel_truncated := true |>) |>).

Definition drain_after_death : M K unit :=
  for_workers (λ i,
    let! w := worker i in
    if negb (tr_channel_open w) then ret tt else
    let! opened := elapsed_now in
    last_drains kMaxDrainsAfterDeath i opened (i64 (opened + stop_ns (opt_grace options))) ;;!
    let! w := worker i in
    when (tr_channel_open w) (on_worker i held_open ;;! close_channel i)).

(** **** What the ceiling does *)

Definition arm_temperature : M K unit :=
  match max_temperature_c (config_limits config) with
  | None => ret tt
  | Some ceiling_c =>
      let! r := get in
      let baseline_ns := running_ns (run_started r) in
      when (opt_view options && run_sampling_live r)
        (modify (λ r, r <| run_temperature := Some (temperature_watch (run_timeline r) ceiling_c
                             (opt_temperature_blind_after_ns options) baseline_ns) |>)) ;;!
      let! r := get in
      match check_temperature config (run_temperature r) (opt_temperature_unread options) with
      | Error why => error_at (lit "temperature") why
      | Value _ => modify (λ r, r <| run_temperature_checked_ns := baseline_ns |>)
      end
  end.

Definition ceiling_phase (stop : TemperatureStop) : text :=
  (match ts_cause stop with kReached => lit "ceiling " | kUnwatched => lit "ceiling unwatched " end)
  ++ int_to_dec (ts_ceiling_c stop) ++ lit " C"
  ++ (match ts_cause stop with kReached => lit " reached: " ++ ts_sensor stop | kUnwatched => [] end).

Definition stop_for_temperature (stop : TemperatureStop) (now_ns : Z) : M K unit :=
  modify (λ r, r <| run_temperature_stop := Some stop |>) ;;!
  let! r := get in
  when (negb (run_stop_requested r)) (mark_phase (lit "stop") now_ns ;;! request_stop now_ns) ;;!
  event (ts_at_ns stop) (lit "temperature ceiling: " ++ describe_temperature_stop stop ++ lit ": stop requested") ;;!
  modify (λ r, r <| run_phase := bounded_label (ceiling_phase stop) |>) ;;!
  write_journal (ts_at_ns stop) true.

Definition enforce_temperature (elapsed_ns now_ns : Z) : M K unit :=
  let! r := get in
  match run_temperature r, run_temperature_stop r with
  | None, _ | _, Some _ => ret tt
  | Some watch, None =>
      if negb (run_sampling_live r) then
        stop_for_temperature
          {| ts_cause := kUnwatched; ts_sensor := []; ts_celsius := 0; ts_ceiling_c := tw_ceiling_c watch; ts_at_ns := elapsed_ns;
             ts_detail := default (lit "sampling stopped") (sp_fault (run_sampling r));
             ts_blind_ns := i64 (now_ns - sp_last_round_ns (run_sampling r)) |} now_ns
      else if sp_last_round_ns (run_sampling r) =? run_temperature_checked_ns r then ret tt else
      let round_ns := sp_last_round_ns (run_sampling r) in
      let (seen, watch) := observe_temperature (run_timeline r) round_ns elapsed_ns watch in
      modify (λ r, r <| run_temperature_checked_ns := round_ns |> <| run_temperature := Some watch |>) ;;!
      for_each (obs_notes seen) (λ note, event elapsed_ns (lit "temperature: " ++ note)) ;;!
      match obs_stop seen with
      | None => ret tt
      | Some stop => stop_for_temperature stop now_ns
      end
  end.

(** **** How a run begins *)

Definition no_plan : WorkerPlan :=
  {| plan_args := None; plan_threads := 0; plan_cpus := []; plan_description := []; plan_work := None |}.

Definition plan_workers : M K unit :=
  for_each (filter (λ entry, wle_enabled entry = true) (config_workloads config)) (λ entry,
    let! r := get in
    let slot := size_of (run_workers r) in
    modify (λ r, r <| run_workers ::= (λ all, all ++ [tracked slot no_plan]) |>) ;;!
    match plan_worker compiled entry slot (opt_budget options) (opt_verification options) (opt_topology options) with
    | None => stuck
    | Some (Error why) => error_at (lit "workload") why
    | Some (Value plan) => on_worker (Z.to_nat slot) (λ _, tracked slot plan)
    end).

Definition begin_labels : M K unit :=
  let! r := get in
  let names := (λ w, match plan_args (tr_plan w) with Some args => wl_workload args | None => lit "null" end) <$> run_workers r in
  let joined := foldl (λ joined name, joined ++ plus joined ++ name) []
                  (dedupe (merge_sort text_before names)) in
  modify (λ r, r <| run_workload_label := bounded_label joined |>) ;;!
  match opt_schedule options with
  | None => ret tt
  | Some schedule => modify (λ r, r <| run_phase := sched_phase schedule |> <| run_workload_label := sched_workload schedule |>)
  end.

(** A call that answers nothing but whether it failed. *)
Definition or_fail (stage : text) (call_ : K → Result unit SyscallError * K) : M K unit :=
  let! answer := call call_ in
  match answer with Value _ => ret tt | Error e => error_at stage (describe_syscall_error strerror e) end.

Definition memory_or_fail (schedule : option Schedule) : M K unit :=
  match check_memory config (opt_budget options) schedule with Value _ => ret tt | Error why => error_at (lit "memory") why end.

Definition establish : M K unit :=
  if negb (opt_fp options) then ret tt else
  let! established := call establish_environment in
  match established with
  | Error e => error_at (lit "floating-point environment") (describe_fp_error e)
  | Value _ =>
      let! state := call (λ s, (fp_read s, s)) in
      modify (λ r, r <| run_environment := lit "floating point (asserted at startup): " ++ describe_state state |>)
  end.

Definition fit_schedule : M K unit :=
  match opt_schedule options with
  | None => ret tt
  | Some schedule =>
      let! r := get in
      match problem schedule (size_of (run_workers r)) with
      | Some bad => error_at (lit "schedule") bad
      | None => memory_or_fail (Some schedule)
      end
  end.

Definition make_pipe (stage : text) : M K PipeEnds :=
  let! made := call create_pipe in
  match made with Value ends => ret ends | Error e => error_at stage (describe_syscall_error strerror e) end.

Definition make_pipes : M K unit :=
  for_workers (λ i,
    let! records := make_pipe (lit "record channel") in
    on_worker i (λ w, w <| tr_records := records |>) ;;!
    let! control := make_pipe (lit "control pipe") in
    on_worker i (λ w, w <| tr_control := control |>)).

Definition create_region : M K unit :=
  let! r := get in
  let! region := call (create (size_of (run_workers r)) (lit "loadforge-heartbeat")) in
  match region with
  | Error e => error_at (lit "heartbeat") (describe_region_error strerror e)
  | Value region => modify (λ r, r <| run_region := Some region |>)
  end.

Definition prepare : M K unit :=
  or_fail (lit "signals") (ignore_signal SIGPIPE) ;;!
  or_fail (lit "signals") (default_signal SIGCHLD) ;;!
  memory_or_fail None ;;!
  establish ;;!
  plan_workers ;;!
  let! r := get in
  match run_workers r with
  | [] => error_at (lit "config") (lit "no workload is enabled")
  | _ :: _ =>
      fit_schedule ;;!
      begin_labels ;;!
      modify (λ r, r <| run_journal_live := opt_journal options |>
                     <| run_journal_report ::= (λ j, j <| jr_enabled := opt_journal options |>) |>) ;;!
      when (opt_oom_record options)
        (let! before := call oom_kills in modify (λ r, r <| run_oom_before := before |>)) ;;!
      modify (λ r, r <| run_duration_ns := i64 (run_duration_ms (config_run config) * kNanosecondsPerMs) |>) ;;!
      create_region ;;!
      let! now := now_or (lit "clock") in
      modify (λ r, r <| run_started := now |> <| run_clock_running_ns := running_ns now |>) ;;!
      beat now ;;!
      begin_telemetry ;;!
      arm_temperature ;;!
      make_pipes
  end.

(** What worker [i]'s process is started with. *)
Definition arguments_of (r : Run) (region : HeartbeatRegion) (supervisor : Z) (w : Tracked) : list text :=
  argv_for (opt_executable options)
    {| slot := tr_slot w; workers := size_of (run_workers r); heartbeat_fd := region_fd region;
       args_record_fd := pipe_write (tr_records w); args_control_fd := pipe_read (tr_control w);
       supervisor_pid := supervisor;
       args_pacing := {| duration_ns := run_duration_ns r; interval_ns := opt_interval_ns options;
                         stale_after_ns := opt_stale_after_ns options |};
       WorkerArgs.cpus := plan_cpus (tr_plan w); WorkerArgs.workload := plan_args (tr_plan w) |}.

(** The run, the failure of a clock if there was one, and the world: what the launches of a
    spawn change. *)
Definition Launch : Type := Run * option ControllerError * K.

Definition launching {A} (f : K → A * K) (l : Launch) : A * Launch :=
  let (a, s) := f l.2 in (a, (l.1, s)).

#[local] Instance launch_calls : ProcessCalls Launch := {|
  fork_worker := launching fork_worker;
  wait_any := launching wait_any;
  reap_any_nonblocking := launching reap_any_nonblocking;
  send_signal pid signal := launching (send_signal pid signal);
|}.

(** The observer of a launch: the controller beats, and notes when. *)
Definition launched (slot : nat) (_ : Z) (l : Launch) : Result unit SyscallError * Launch :=
  let '(r, failure, s) := l in
  let (now, s) := clock_now read_clock s in
  match now with
  | Error e => (Error e, (r, Some {| ce_stage := lit "clock"; ce_detail := describe_syscall_error strerror e |}, s))
  | Value now =>
      match beat now r s with
      | Some (_, r, s) =>
          (Value tt, (r <| run_workers ::= alter (λ w, w <| tr_launched_ns := running_ns now |>) slot |>
                        <| run_started := now |>, failure, s))
      | None => (Value tt, (r, failure, s))
      end
  end.

Definition spawning : M K (Result SpawnOutcome SyscallError * option ControllerError) := λ r s,
  '(outcome, pool, (r, failure, s)) ← Platform.spawn fuel (length (run_workers r)) launched (r, None, s);
  Some (Value (outcome, failure), r <| run_pool := pool |>, s).

(** The worker's ends are the worker's now. *)
Definition attached (pids : list Z) (w : Tracked) : Tracked :=
  w <| tr_pid := nth (Z.to_nat (tr_slot w)) pids 0 |> <| tr_progress_changed_ns := tr_launched_ns w |>
    <| tr_last_read_ns := tr_launched_ns w |>.

Definition closed_or_fail (closed : Result unit SyscallError) : M K unit :=
  match closed with Value _ => ret tt | Error e => error_at (lit "spawn") (describe_syscall_error strerror e) end.

Definition attach (pids : list Z) (i : nat) : M K unit :=
  on_worker i (attached pids) ;;!
  let! w := worker i in
  let! closed_records := call (close_fd (pipe_write (tr_records w))) in
  let! closed_control := call (close_fd (pipe_read (tr_control w))) in
  on_worker i (λ w, w <| tr_records ::= (λ ends, ends <| pipe_write := -1 |>) |>
                      <| tr_control ::= (λ ends, ends <| pipe_read := -1 |>) |>) ;;!
  closed_or_fail closed_records ;;!
  closed_or_fail closed_control ;;!
  on_worker i (λ w, w <| tr_source := Some {| source_reader := IpcRecord.reading []; source_ended := false |} |>
                      <| tr_channel_open := true |>).

(** The exit code of the child that could not become a worker; absent in the controller. *)
Definition spawn : M K (option Z) :=
  let! r := get in
  match run_region r with
  | None => stuck
  | Some region =>
      let! supervisor := call (λ s, (process_id s, s)) in
      let argvs := arguments_of r region supervisor <$> run_workers r in
      let! (spawned, clock_failure) := spawning in
      match spawned with
      | Error e =>
          match clock_failure with
          | Some failure => error_at (ce_stage failure) (ce_detail failure)
          | None => error_at (lit "spawn") (describe_syscall_error strerror e)
          end
      | Value (Worker slot) =>
          let! self := worker slot in
          let! failure := call (become_worker (opt_executable options) supervisor (nth slot argvs [])
                                  [region_fd region; pipe_write (tr_records self); pipe_read (tr_control self)]) in
          match failure with
          | Some failure => ret (Some (startup_code failure))
          | None => stuck
          end
      | Value (Supervisor pids) =>
          modify (λ r, r <| run_spawned := true |> <| run_live := size_of (run_workers r) |>) ;;!
          for_workers (attach pids) ;;!
          let! r := get in
          event 0 (lit "spawned " ++ to_dec (size_of (run_workers r)) ++ lit " worker(s): pids"
                   ++ (run_workers r ≫= λ w, lit " " ++ int_to_dec (tr_pid w))) ;;!
          ret None
      end
  end.

(** **** The loop *)

Definition meet_deadline (elapsed_ns now_ns : Z) : M K unit :=
  let! r := get in
  when (negb (run_stop_requested r) && (run_duration_ns r <=? elapsed_ns))
    (take_round now_ns true ;;!
     mark_phase (lit "stop") now_ns ;;!
     request_stop now_ns ;;!
     event elapsed_ns (lit "deadline reached: stop requested") ;;!
     modify (λ r, r <| run_phase := lit "stop" |>) ;;!
     write_journal elapsed_ns true).

Definition watch_workers (now : TimePoint) : M K unit :=
  for_workers (λ i, let! w := worker i in when (negb (tr_reaped w)) (watch i now)).

Definition tick : M K unit :=
  let! now := now_or (lit "clock") in
  let! elapsed_ns := since_start now in
  modify (λ r, r <| run_clock_running_ns := running_ns now |>) ;;!
  beat now ;;!
  meet_deadline elapsed_ns (running_ns now) ;;!
  take_round (running_ns now) false ;;!
  enforce_temperature elapsed_ns (running_ns now) ;;!
  run_schedule elapsed_ns (running_ns now) ;;!
  write_journal elapsed_ns false ;;!
  watch_workers now ;;!
  poll_and_drain (i32 (Z.quot (opt_interval_ns options) kNanosecondsPerMs)) ;;!
  reap elapsed_ns.

(** The loop of execute; [ticks] bounds its turns. *)
Fixpoint tick_loop (ticks : nat) : M K unit :=
  let! r := get in
  if negb (0 <? run_live r) then ret tt else
  match ticks with O => stuck | S ticks => tick ;;! tick_loop ticks end.

(** **** How a run ends *)

(** The workers whose deaths the OOM killer may have been. *)
Definition oom_candidates (r : Run) : list nat :=
  (filter (λ p, oom_candidate (tr_evidence p.2) = true) (imap pair (run_workers r))).*1.

Definition attribute_oom_kills : M K unit :=
  let! r := get in
  let candidates := oom_candidates r in
  if negb (opt_oom_record options) || bool_decide (candidates = []) then ret tt else
  let! after := call oom_kills in
  let finding := judge_oom_kills (run_oom_before r) after (size_of candidates) oom_scope in
  for_each candidates (λ i, on_worker i (λ w,
    add_note (note finding)
      (w <| tr_evidence ::= (λ e, e <| oom_kill_recorded := attributed finding |>
                                    <| oom_inconclusive := negb (attributed finding) && negb (ruled_out finding) |>) |>))).

(** The story of a worker is told, and its notes and findings are moved into it. *)
Definition told (w : Tracked) : Tracked := w <| tr_notes := [] |> <| tr_findings := [] |>.

Definition release_region : M K unit :=
  let! r := get in
  match run_region r with
  | None => stuck
  | Some region =>
      let! (released, left_) := call (λ s, let '(released, left_, s) := Heartbeat.release (Some region) s in ((released, left_), s)) in
      modify (λ r, r <| run_region := left_ |>) ;;!
      match released with
      | Value _ => ret tt
      | Error e => error_at (lit "heartbeat") (describe_syscall_error strerror e)
      end
  end.

Definition finish : M K RunReport :=
  drain_after_death ;;!
  attribute_oom_kills ;;!
  let! elapsed_ns := elapsed_now in
  let! r := get in
  let scheduled := match opt_schedule options with Some _ => true | None => false end in
  let stories := worker_report scheduled <$> run_workers r in
  modify (λ r, r <| run_workers ::= (λ all, told <$> all) |> <| run_phase := lit "done" |>) ;;!
  write_journal elapsed_ns true ;;!
  let! journaled := get in
  take_round (run_clock_running_ns journaled) true ;;!
  let! sampled := get in
  release_region ;;!
  ret {| rr_workers := stories; rr_sampling := run_sampling sampled; rr_steps_run := run_steps_run r;
         rr_journal := run_journal_report journaled; rr_elapsed_ns := elapsed_ns; rr_worker_exit_code := None;
         rr_temperature_stop := run_temperature_stop r; rr_stop_signal := run_stop_signal r;
         rr_stop_forced := run_stop_forced r |}.

Definition run_plan (r : Run) : option RunPlan :=
  limits ← limit_statuses config (opt_budget options) (opt_budget_unread options)
             (from_option describe_sensors [] (run_temperature r));
  Some {| rp_mode := run_mode (config_run config); rp_duration_ms := run_duration_ms (config_run config);
          rp_workers := size_of (run_workers r); rp_executable := opt_executable options; rp_limits := limits;
          rp_topology := from_option describe_snapshot (lit "no snapshot offered") (opt_topology options);
          rp_workloads := (λ w, plan_description (tr_plan w)) <$> run_workers r;
          rp_environment := run_environment r; rp_capabilities := opt_capabilities options |}.

(** The report of a child that could not become a worker. *)
Definition child_report (code : Z) : RunReport :=
  {| rr_workers := []; rr_sampling := no_sampling; rr_steps_run := 0; rr_journal := no_journal; rr_elapsed_ns := 0;
     rr_worker_exit_code := Some code; rr_temperature_stop := None; rr_stop_signal := None; rr_stop_forced := false |}.

Definition execute (ticks : nat) : M K RunReport :=
  prepare ;;!
  let! r := get in
  match run_plan r with
  | None => stuck
  | Some plan =>
      call (λ s, (tt, report_starting plan s)) ;;!
      let! child_code := spawn in
      match child_code with
      | Some code => ret (child_report code)
      | None =>
          tick_loop ticks ;;!
          let! report := finish in
          call (λ s, (tt, report_finished report s)) ;;!
          ret report
      end
  end.

(** The loop of teardown that reaps; it stops at a failure. *)
Fixpoint last_reaps (turns : nat) : M K unit :=
  match turns with
  | O => ret tt
  | S turns =>
      let! reaped := pooling (wait_for_next fuel) in
      match reaped with
      | Error _ => ret tt
      | Value _ => modify (λ r, r <| run_live ::= (λ n, u64 (n - 1)) |>) ;;! last_reaps turns
      end
  end.

Definition ends_of (w : Tracked) : list Z :=
  [pipe_read (tr_records w); pipe_write (tr_records w); pipe_read (tr_control w); pipe_write (tr_control w)].

Definition teardown : M K unit :=
  let! r := get in
  when (run_spawned r)
    (for_workers (λ i,
       let! w := worker i in
       when (negb (tr_reaped w) && (0 <? tr_pid w))
         (let! _ := call (send_signal (- tr_pid w) SIGKILL) in ret tt)) ;;!
     let! _ := call (signal_all SIGKILL (run_pool r)) in
     last_reaps (Z.to_nat (run_live r))) ;;!
  for_workers (λ i,
    let! w := worker i in
    for_each (filter (λ fd, 0 ≤ fd) (ends_of w)) close_quietly ;;!
    on_worker i (λ w, w <| tr_records := no_pipe |> <| tr_control := no_pipe |> <| tr_channel_open := false |>)) ;;!
  let! r := get in
  let! _ := call (λ s, let '(released, _, s) := Heartbeat.release (run_region r) s in (released, s)) in
  modify (λ r, r <| run_region := None |>).

(** [Controller::run]: the run's answer, once it is torn down. *)
Definition run (ticks : nat) (r : Run) (s : K) : option (Result RunReport ControllerError * Run * K) :=
  '(answer, r, s) ← execute ticks r s;
  '(_, r, s) ← teardown r s;
  Some (answer, r, s).
End Orchestration.
