(* ===== verification/Runs.v ===== *)
(** * What holds of every run of the controller

    The invariants of the loop (Orchestration): what is held about each worker only grows into
    an account of what it said and was told, the steps of a stop only climb and agree with the
    signals sent, deaths are taken once each and counted, and what a signal did is kept. *)

From S2P Require Import JournalStore Account.
From S2P Require Export Orchestration.

(** ** What one worker's entry may become *)

(** How far it was stopped, and the last signal it was sent, agree. *)
Definition step_agrees (w : Tracked) : Prop :=
  match tr_step w with
  | kStepNone | kRequested => signal_attempted (tr_evidence w) = None
  | kTerminated => signal_attempted (tr_evidence w) = Some SIGTERM
  | kKilled => signal_attempted (tr_evidence w) = Some SIGKILL
  end.

(** What is settled once it is reaped. *)
Definition settled (w : Tracked) : StopStep * Evidence :=
  (tr_step w, (tr_evidence w) <| finished_seen := false |> <| channel_corrupt := false |> <| channel_truncated := false |>
                <| oom_kill_recorded := false |> <| oom_inconclusive := false |>).

Record grows (w w' : Tracked) : Prop := {
  grows_slot : tr_slot w' = tr_slot w;
  grows_plan : tr_plan w' = tr_plan w;
  grows_reaped : tr_reaped w' = tr_reaped w;
  grows_step : rank (tr_step w) ≤ rank (tr_step w');
  grows_status : status (tr_evidence w') = status (tr_evidence w);
  grows_agrees : step_agrees w → step_agrees w';
  grows_settled : tr_reaped w = true → settled w' = settled w;
  grows_closed : tr_channel_open w = false → tr_channel_open w' = false;
  grows_account plan events said : accounted plan events said w →
    ∃ more more_said, accounted plan (events ++ more) (said ++ more_said) w';
}.

#[export] Instance grows_preorder : PreOrder grows.
Proof.
  split.
  - intros w. split; try done. intros plan events said H. exists [], []. by rewrite !app_nil_r.
  - intros a b c [] []. split; try congruence.
    + lia.
    + tauto.
    + intros Hr. rewrite grows_settled1, grows_settled0; congruence.
    + auto.
    + intros plan events said Ha. destruct (grows_account0 _ _ _ Ha) as (m1 & s1 & Hb).
      destruct (grows_account1 _ _ _ Hb) as (m2 & s2 & Hc). exists (m1 ++ m2), (s1 ++ s2). by rewrite !app_assoc.
Qed.

(** A change of members no account and no stop depends on. *)
Lemma grows_same w w' :
  same_account w w' → tr_slot w' = tr_slot w → tr_plan w' = tr_plan w → tr_reaped w' = tr_reaped w →
  settled w' = settled w → status (tr_evidence w') = status (tr_evidence w) →
  signal_attempted (tr_evidence w') = signal_attempted (tr_evidence w) →
  (tr_channel_open w = false → tr_channel_open w' = false) → grows w w'.
Proof.
  intros Hsame Hs Hp Hr Hset Hst Hsig Hopen. pose proof (f_equal fst Hset) as Hstep. cbn in Hstep. split; try done.
  - by rewrite Hstep.
  - unfold step_agrees. by rewrite Hstep, Hsig.
  - intros plan events said Ha. exists [], []. rewrite !app_nil_r. by apply (same_accounted _ _ _ _ _ Hsame).
Qed.

(** Closes [grows] of such a change, written out. *)
Ltac grown := intros; apply grows_same; [same_account|done..].

Lemma grows_order what now w : grows w (order_sent what now w).
Proof.
  split; try by destruct what.
  intros plan events said Ha. exists [Ordered what now], []. rewrite app_nil_r. by apply order_accounted.
Qed.

Lemma grows_dropped w : grows w (order_dropped w).
Proof. split; try done. intros plan events said Ha. exists [Skipped], []. rewrite app_nil_r. by apply skip_accounted. Qed.

Lemma grows_note words w : grows w (add_note words w).
Proof. grown. Qed.

Lemma grows_judge stale allowance w observed now : grows w (judge_beat stale allowance w observed now).
Proof.
  unfold judge_beat. destruct observed as [beat|e]; [|grown].
  set (w1 := match beat with Some b => _ | None => _ end). set (w2 := if tr_paused w1 then _ else w1).
  assert (grows w w1) as H1 by (unfold w1; destruct beat as [b|]; [case_match|]; grown).
  assert (grows w1 w2) as H2 by (unfold w2; destruct (tr_paused w1); [grown|reflexivity]).
  etrans; [exact H1|]. etrans; [exact H2|]. grown.
Qed.

(** What is heard changes the account alone. *)
Lemma hear_elsewhere one w :
  tr_slot (hear one w) = tr_slot w ∧ tr_plan (hear one w) = tr_plan w ∧ tr_reaped (hear one w) = tr_reaped w
  ∧ tr_step (hear one w) = tr_step w ∧ tr_evidence (hear one w) = tr_evidence w
  ∧ tr_channel_open (hear one w) = tr_channel_open w.
Proof.
  destruct one as [each|t|l|a]; cbn [hear].
  - unfold finding_taken, keep_finding. by destruct (is_wrong_result each), (_ <? _).
  - done.
  - unfold lock_taken. destruct (tr_memory w) as [kept|]; [destruct (_ <=? _)|]; done.
  - destruct (tr_unanswered w) as [|next later]; [done|]. unfold ack_taken. destruct (_ =? _); [|destruct (un_command next)]; done.
Qed.

Lemma grows_ingest shortest w record : grows w (ingest shortest w record).2.
Proof.
  destruct (ingest_spec shortest w record) as [(Hn & w' & E)|[(one & -> & Hs & Hc & E)|((why & E) & _)]]; rewrite E; [| |reflexivity].
  - assert (∃ heard : bool, w' = add_note (record_word (rec_type record) ++ lit ": " ++ rec_payload record)
      (if heard then w <| tr_evidence ::= (λ e, e <| finished_seen := true |>) |> else w)) as [heard ->].
    { pose proof Hn as Hn'. unfold only_noted in Hn'. rewrite !not_elem_of_cons in Hn'. destruct Hn' as (N1 & N2 & N3 & N4 & _).
      unfold ingest in E. rewrite (proj2 (Z.eqb_neq _ _) N1), (proj2 (Z.eqb_neq _ _) N2), (proj2 (Z.eqb_neq _ _) N3),
        (proj2 (Z.eqb_neq _ _) N4) in E. injection E as <-. by eexists (_ =? _). }
    cbn [snd]. destruct heard; grown.
  - cbn [snd]. destruct (hear_elsewhere one w) as (H1 & H2 & H3 & H4 & H5 & H6). split; try done.
    + by rewrite H4.
    + by rewrite H5.
    + unfold step_agrees. by rewrite H4, H5.
    + unfold settled. by rewrite H4, H5.
    + by rewrite H6.
    + intros plan events said Ha. exists [Came (said_record one)], [one]. by apply hear_kept.
Qed.

Lemma grows_drained shortest w drained : grows w (take_drained shortest w drained).2.
Proof.
  unfold take_drained. assert (grows w (ingest_all shortest w (drained_records drained)).2) as H.
  { generalize (drained_records drained). intros records. revert w. induction records as [|record records IH]; intros w; [reflexivity|].
    cbn [ingest_all]. pose proof (grows_ingest shortest w record) as Hg. destruct (ingest shortest w record) as [[why|] w']; [done|].
    etrans; [exact Hg|apply IH]. }
  destruct (ingest_all _ _ _) as [[why|] w1]; cbn [snd] in *; (etrans; [exact H|]); [grown|].
  destruct (drained_fault drained) as [frame|]; [|reflexivity]. cbn [snd]. case_bool_decide; grown.
Qed.

Lemma grows_signal signal now stale w :
  signal = SIGTERM ∨ signal = SIGKILL → rank (tr_step w) ≤ rank (step_after signal) → tr_reaped w = false →
  grows w (signal_sent signal now stale w).
Proof.
  intros Hs Hr Hw. split; try done.
  - by destruct Hs as [-> | ->].
  - intros Hreaped. congruence.
  - intros plan events said Ha. exists [], []. rewrite !app_nil_r. eapply same_accounted; [|exact Ha]. same_account.
Qed.

Lemma grows_requested now w :
  tr_step w = kStepNone → tr_reaped w = false → grows w (w <| tr_step := kRequested |> <| tr_step_since_ns := now |>).
Proof.
  intros Hs Hr. split; try done.
  - by rewrite Hs.
  - unfold step_agrees. by rewrite Hs.
  - intros ?. congruence.
  - intros plan events said Ha. exists [], []. rewrite !app_nil_r. eapply same_accounted; [|exact Ha]. same_account.
Qed.

(** ** What a method that takes no death may do to a run *)

Definition told_to_stop (r : Run) : StopSignals * nat * option Z * nat * Z :=
  (run_signals r, run_signals_handled r, run_stop_signal r, run_next_step r, run_steps_run r).

Record quietly (r r' : Run) : Prop := {
  quietly_workers : Forall2 grows (run_workers r) (run_workers r');
  quietly_pool : run_pool r' = run_pool r;
  quietly_live : run_live r' = run_live r;
  quietly_told : told_to_stop r' = told_to_stop r;
  quietly_forced : run_stop_forced r' = run_stop_forced r;
  quietly_stopping : run_stop_requested r = true → run_stop_requested r' = true;
  quietly_hot : ∀ stop, run_temperature_stop r = Some stop → run_temperature_stop r' = Some stop;
}.

#[export] Instance quietly_preorder : PreOrder quietly.
Proof.
  split; [by split; try done; intros|]. intros a b c [] []. split; try congruence; try tauto; [by etrans|].
  intros stop Hs. by auto.
Qed.

(** A method quiet on the runs with [P]. *)
Definition quiet {K A} (P : Run → Prop) (m : M K A) : Prop :=
  ∀ r s a r' s', P r → m r s = Some (Value a, r', s') → quietly r r'.

Abbreviation always := (λ _ : Run, True).

Section Quiet.
Context {K : Type}.

Lemma quiet_ret {A} P (a : A) : quiet P (ret (K:=K) a).
Proof. intros r s b r' s' _ [= _ <- _]. reflexivity. Qed.
Lemma quiet_error {A} P stage detail : quiet P (error_at (K:=K) (A:=A) stage detail).
Proof. by intros r s b r' s' _ [=]. Qed.
Lemma quiet_stuck {A} P : quiet P (stuck (K:=K) (A:=A)).
Proof. by intros r s b r' s' _ [=]. Qed.
Lemma quiet_get P : quiet P (get (K:=K)).
Proof. intros r s b r' s' _ [= _ <- _]. reflexivity. Qed.
Lemma quiet_call {A} P (f : K → A * K) : quiet P (call f).
Proof. intros r s b r' s' _. unfold call. destruct (f s). intros [= _ <- _]. reflexivity. Qed.
Lemma quiet_call_fueled {A} P (f : K → option (A * K)) : quiet P (call_fueled f).
Proof. intros r s b r' s' _. unfold call_fueled. destruct (f s) as [[]|]; [|done]. intros [= _ <- _]. reflexivity. Qed.
Lemma quiet_worker P i : quiet P (worker (K:=K) i).
Proof. intros r s b r' s' _. unfold worker. destruct (_ !! i); [|done]. intros [= _ <- _]. reflexivity. Qed.
Lemma quiet_modify P f : (∀ r, P r → quietly r (f r)) → quiet P (modify (K:=K) f).
Proof. intros Hf r s b r' s' HP [= _ <- _]. by apply Hf. Qed.

Lemma quiet_bind {A B} (m : M K A) (k : A → M K B) : quiet always m → (∀ a, quiet always (k a)) → quiet always (bind m k).
Proof.
  intros Hm Hk r s b r' s' _. unfold bind. destruct (m r s) as [[[[a|e] r1] s1]|] eqn:E; [|done..].
  intros Hb. etrans; [by eapply Hm|by eapply Hk].
Qed.

Lemma value_bound {A B} (m : M K A) (k : A → M K B) r s b r' s' :
  bind m k r s = Some (Value b, r', s') →
  ∃ a r1 s1, m r s = Some (Value a, r1, s1) ∧ k a r1 s1 = Some (Value b, r', s').
Proof. unfold bind. destruct (m r s) as [[[[a|e] r1] s1]|] eqn:E; [|done..]. intros Hb. by exists a, r1, s1. Qed.

Lemma alter_grows f i (l : list Tracked) : (∀ w, l !! i = Some w → grows w (f w)) → Forall2 grows l (alter f i l).
Proof.
  intros Hf. apply Forall2_same_length_lookup_2; [by rewrite length_alter|]. intros j w w' Hw Hw'.
  destruct (decide (i = j)) as [->|Hne].
  - rewrite list_lookup_alter_eq, Hw in Hw'. injection Hw' as <-. by apply Hf.
  - rewrite list_lookup_alter_ne, Hw in Hw' by done. injection Hw' as <-. reflexivity.
Qed.

Lemma quietly_on_worker i f r :
  (∀ w, run_workers r !! i = Some w → grows w (f w)) → quietly r (r <| run_workers ::= alter f i |>).
Proof. intros Hf. split; try done. by apply alter_grows. Qed.

Lemma quiet_on_worker i f : (∀ w, grows w (f w)) → quiet always (on_worker (K:=K) i f).
Proof. intros Hf. apply quiet_modify. intros r _. apply quietly_on_worker. auto. Qed.

Lemma quiet_for_each {A} (l : list A) (body : A → M K unit) : (∀ a, quiet always (body a)) → quiet always (for_each l body).
Proof. intros Hb. induction l as [|a l IH]; cbn [for_each]; [apply quiet_ret|]. apply quiet_bind; auto. Qed.

Lemma quiet_for_workers (body : nat → M K unit) : (∀ i, quiet always (body i)) → quiet always (for_workers body).
Proof. intros Hb. apply quiet_bind; [apply quiet_get|]. intros r. by apply quiet_for_each. Qed.

Lemma quiet_when b (m : M K unit) : quiet always m → quiet always (when b m).
Proof. intros Hm. destruct b; [done|apply quiet_ret]. Qed.
End Quiet.

(** A change of members a stop and a death do not depend on. *)
Ltac quiet_change := intros; split; done.

(** A method is quiet because its parts are. *)
Ltac quiet_step :=
  match goal with
  | |- quiet _ (ret _) => apply quiet_ret
  | |- quiet _ (error_at _ _) => apply quiet_error
  | |- quiet _ stuck => apply quiet_stuck
  | |- quiet _ get => apply quiet_get
  | |- quiet _ (call _) => apply quiet_call
  | |- quiet _ (call_fueled _) => apply quiet_call_fueled
  | |- quiet _ (worker _) => apply quiet_worker
  | |- quiet _ (bind _ _) => apply quiet_bind; [|intros ?]
  | |- quiet _ (for_each _ _) => apply quiet_for_each; intros ?
  | |- quiet _ (for_workers _) => apply quiet_for_workers; intros ?
  | |- quiet _ (when _ _) => apply quiet_when
  | |- quiet _ (let _ := _ in _) => cbv zeta
  | |- quiet _ (match ?x with _ => _ end) => destruct x
  | |- quiet _ (modify _) => apply quiet_modify; quiet_change
  | |- quiet _ (on_worker _ _) => apply quiet_on_worker; solve [grown | auto with quiet]
  | |- quiet _ _ => solve [auto with quiet]
  end.
Ltac quiet := repeat quiet_step.

Create HintDb quiet.
#[export] Hint Resolve grows_order grows_dropped grows_note grows_judge : quiet.

Section Methods.
Context {K : Type} `{ProcessCalls K} `{ChannelCalls K} `{RegionCalls K} `{WorkerCalls K} `{FpControl K} `{SignalCalls K}
  `{ExecCalls K} `{SourceCalls K} `{StorageOps K} `{Surroundings K}.
Context (strerror : Z → text) (shortest : Z → text) (compiled : IsaSet) (config : Config) (options : RunOptions) (fuel : nat).

Lemma quiet_event P elapsed_ns line : quiet P (event (K:=K) elapsed_ns line).
Proof. apply quiet_call. Qed.
Lemma quiet_clock P : quiet P (clock (K:=K)).
Proof. apply quiet_call. Qed.
Hint Resolve quiet_event quiet_clock : quiet.

Lemma quiet_now stage : quiet always (now_or (K:=K) strerror stage).
Proof. unfold now_or. quiet. Qed.
Lemma quiet_since now : quiet always (since_start (K:=K) strerror now).
Proof. unfold since_start. quiet. Qed.
Hint Resolve quiet_now quiet_since : quiet.

Lemma quiet_beat now : quiet always (beat (K:=K) now).
Proof. unfold beat. quiet. Qed.

Lemma quiet_fault words now_ns : quiet always (telemetry_fault (K:=K) words now_ns).
Proof. unfold telemetry_fault. quiet. Qed.
Hint Resolve quiet_beat quiet_fault : quiet.

Lemma quiet_round now_ns force : quiet always (take_round (K:=K) options now_ns force).
Proof. unfold take_round. quiet. Qed.
Lemma quiet_mark words now_ns : quiet always (Orchestration.mark_phase (K:=K) options words now_ns).
Proof. unfold Orchestration.mark_phase. quiet. Qed.
Hint Resolve quiet_round quiet_mark : quiet.

Lemma quiet_writing call_ : quiet always (writing (K:=K) call_).
Proof.
  intros r s b r' s' _. unfold writing. destruct (call_ _ s) as [[answer journal] s1]. intros [= _ <- _]. by quiet_change.
Qed.
Hint Resolve quiet_writing : quiet.

Lemma quiet_journal elapsed_ns force : quiet always (write_journal (K:=K) options elapsed_ns force).
Proof. unfold write_journal, journal_entry, journal_fault. quiet. Qed.
Hint Resolve quiet_journal : quiet.

Lemma quiet_command i what : quiet always (command (K:=K) strerror i what).
Proof. unfold command. quiet. Qed.
Hint Resolve quiet_command : quiet.

Lemma quiet_tell i commands : quiet always (tell_worker (K:=K) strerror i commands).
Proof. unfold tell_worker. quiet. Qed.
Hint Resolve quiet_tell : quiet.

Lemma worker_value i r s (w : Tracked) r' s' :
  worker (K:=K) i r s = Some (Value w, r', s') → run_workers r !! i = Some w ∧ r' = r ∧ s' = s.
Proof. unfold worker. destruct (run_workers r !! i); [|done]. by intros [= <- <- <-]. Qed.

(** A message is written, or there is nobody to write it to. *)
Lemma command_value i what r s u r' s' :
  command (K:=K) strerror i what r s = Some (Value u, r', s') →
  ∃ w, run_workers r !! i = Some w
    ∧ (r' = r ∨ (tr_reaped w = false ∧ r' = r <| run_workers ::= alter (order_sent what (run_clock_running_ns r)) i |>)).
Proof.
  unfold command. intros (w & r1 & s1 & (Hw & -> & ->)%worker_value & Hc)%value_bound. exists w. split; [done|].
  destruct (tr_reaped w) eqn:Er; [injection Hc as _ <- _; by left|].
  apply value_bound in Hc as (written & r2 & s2 & Hs & Hc). unfold call_fueled in Hs. destruct (IpcRecord.send _ _ _ s) as [[a s3]|]; [|done].
  injection Hs as <- <- <-. destruct a as [v|e].
  - apply value_bound in Hc as (r4 & r5 & s5 & Hg & Hc). injection Hg as <- <- <-. injection Hc as _ <- _. by right.
  - destruct (negb _); [done|]. injection Hc as _ <- _. by left.
Qed.

Lemma quiet_stop_one now_ns i :
  quiet always (let! w := worker (K:=K) i in
    if tr_reaped w || negb (bool_decide (tr_step w = kStepNone)) then ret tt else
    command strerror i Stop ;;!
    on_worker i (λ w, w <| tr_step := kRequested |> <| tr_step_since_ns := now_ns |>)).
Proof.
  intros r s u r' s' _. intros (w & r1 & s1 & (Hw & -> & ->)%worker_value & Hb)%value_bound.
  destruct (tr_reaped w) eqn:Er; cbn [orb] in Hb; [injection Hb as _ <- _; reflexivity|].
  case_bool_decide as Es; cbn [negb] in Hb; [|injection Hb as _ <- _; reflexivity].
  apply value_bound in Hb as (v & r2 & s2 & Hc & Ho). injection Ho as _ <- _.
  etrans; [by eapply quiet_command|]. apply quietly_on_worker. intros w' Hw'.
  apply command_value in Hc as (w0 & Hw0 & Hr2). assert (w0 = w) as -> by congruence.
  assert (tr_step w' = tr_step w ∧ tr_reaped w' = tr_reaped w) as [E1 E2].
  { destruct Hr2 as [->|[_ ->]]; [by assert (w' = w) as -> by congruence|].
    cbn [run_workers set const] in Hw'. rewrite list_lookup_alter_eq, Hw in Hw'. by injection Hw' as <-. }
  apply grows_requested; congruence.
Qed.

Lemma quiet_request now_ns : quiet always (request_stop (K:=K) strerror now_ns).
Proof.
  unfold request_stop. apply quiet_bind; [|intros _; apply quiet_for_workers; intros i; apply quiet_stop_one]. quiet.
Qed.
Hint Resolve quiet_request : quiet.

(** A signal climbs, of a worker that is not reaped and was not sent a later one. *)
Definition may_send (i : nat) (signal : Z) (r : Run) : Prop :=
  ∀ w, run_workers r !! i = Some w → tr_reaped w = false ∧ rank (tr_step w) ≤ rank (step_after signal).

Lemma quiet_send i signal now_ns stale :
  signal = SIGTERM ∨ signal = SIGKILL → quiet (may_send i signal) (send (K:=K) strerror i signal now_ns stale).
Proof.
  intros Hsig r s u r' s' Hmay. unfold send. intros (w & r1 & s1 & (Hw & -> & ->)%worker_value & Hb)%value_bound.
  apply value_bound in Hb as (exited & r2 & s2 & Hc & Hb). unfold call in Hc. destruct (has_exited (tr_pid w) s) as [e1 s3].
  injection Hc as <- <- <-. destruct e1 as [[]|e]; [injection Hb as _ <- _; apply quietly_on_worker; intros ? _; apply grows_note| |done].
  apply value_bound in Hb as (sent & r4 & s4 & Hc & Hb). unfold call in Hc. destruct (send_signal (tr_pid w) signal s3) as [e2 s5].
  injection Hc as <- <- <-. destruct e2 as [v|e]; [|destruct (negb _); [done|]; injection Hb as _ <- _; reflexivity].
  apply value_bound in Hb as (v2 & r6 & s6 & Ho & Hb). injection Ho as _ <- <-.
  assert (quiet always (let! r := get (K:=K) in event (i64 (now_ns - running_ns (run_started r)))
    (lit "worker " ++ to_dec (tr_slot w) ++ lit ": sent signal " ++ int_to_dec signal
     ++ (if stale then lit " (heartbeat stale)" else [])))) as Hq by quiet.
  etrans; [|exact (Hq _ _ _ _ _ I Hb)]. apply quietly_on_worker. intros w' Hw'.
  destruct (Hmay w' Hw') as [Hr Hk]. by apply grows_signal.
Qed.

Lemma signal_due_climbs grace w now_ns signal stale :
  signal_due grace w now_ns = Some (signal, stale) →
  (signal = SIGTERM ∨ signal = SIGKILL) ∧ rank (tr_step w) ≤ rank (step_after signal).
Proof.
  unfold signal_due. destruct (tr_stale_now w && _) eqn:E.
  - intros [= <- <-]. split; [by left|]. apply andb_true_iff in E as [_ E].
    apply orb_true_iff in E as [->%bool_decide_eq_true | ->%bool_decide_eq_true]; by vm_compute.
  - destruct (escalation_due _ _ _ _) as [due|] eqn:Ed; [|done]. intros [= <- <-].
    apply escalation_due_Some in Ed as [? ->]. split; [done|lia].
Qed.

Lemma quiet_watch i now : quiet (λ r, ∀ w, run_workers r !! i = Some w → tr_reaped w = false) (watch (K:=K) strerror options i now).
Proof.
  intros r s u r' s' Hlive. unfold watch. intros (w & r1 & s1 & (Hw & -> & ->)%worker_value & Hb)%value_bound.
  apply value_bound in Hb as (observed & r2 & s2 & Hc & Hb). unfold call in Hc. destruct (region_observe _ s) as [o s3].
  injection Hc as <- <- <-. apply value_bound in Hb as (v & r4 & s4 & Ho & Hb). injection Ho as _ <- <-.
  apply value_bound in Hb as (w1 & r5 & s5 & (Hw1 & -> & ->)%worker_value & Hb).
  cbn [run_workers set const] in Hw1. rewrite list_lookup_alter_eq, Hw in Hw1. injection Hw1 as <-.
  assert (quietly r (r <| run_workers ::= alter (λ w, judge_beat (opt_stale_after_ns options) (opt_replacement_allowance_ns options) w o (running_ns now)) i |>)) as Hq
    by (apply quietly_on_worker; intros; apply grows_judge).
  destruct (signal_due _ _ _) as [[signal stale]|] eqn:Ed; [|injection Hb as _ <- _; exact Hq].
  apply signal_due_climbs in Ed as [Hsig Hrank]. etrans; [exact Hq|]. eapply quiet_send; [exact Hsig| |exact Hb].
  intros w2 Hw2. cbn [run_workers set const] in Hw2. rewrite list_lookup_alter_eq, Hw in Hw2. injection Hw2 as <-. split; [|done].
  rewrite (grows_reaped _ _ (grows_judge _ _ _ _ _)). by apply Hlive.
Qed.

Lemma quiet_watch_workers now : quiet always (watch_workers (K:=K) strerror options now).
Proof.
  apply quiet_for_workers. intros i r s u r' s' _. intros (w & r1 & s1 & (Hw & -> & ->)%worker_value & Hb)%value_bound.
  destruct (tr_reaped w) eqn:Er; cbn [negb when] in Hb; [injection Hb as _ <- _; reflexivity|].
  eapply quiet_watch; [|exact Hb]. intros w' Hw'. congruence.
Qed.
Hint Resolve quiet_watch_workers : quiet.

Lemma quiet_close_fd fd : quiet always (close_quietly (K:=K) fd).
Proof. unfold close_quietly. quiet. Qed.
Hint Resolve quiet_close_fd : quiet.

Lemma quiet_close i : quiet always (close_channel (K:=K) i).
Proof. unfold close_channel. quiet. Qed.
Hint Resolve quiet_close : quiet.

Lemma quiet_drain i : quiet always (Orchestration.drain (K:=K) strerror shortest i).
Proof.
  unfold Orchestration.drain, channel_failed. apply quiet_bind; [quiet|]. intros w0. destruct (tr_source w0) as [source|]; [|quiet].
  apply quiet_bind; [quiet|]. intros [drained left_]. apply quiet_bind; [quiet|]. intros _. destruct drained as [drained|e]; [|quiet].
  intros r s u r' s' _. intros (w & r1 & s1 & (Hw & -> & ->)%worker_value & Hb)%value_bound.
  pose proof (grows_drained shortest w drained) as Hg. destruct (take_drained shortest w drained) as [over w1]. cbn [snd] in Hg.
  apply value_bound in Hb as (v & r2 & s2 & Ho & Hb). injection Ho as _ <- <-.
  etrans; [|eapply (quiet_when over _ (quiet_close i)); [done|exact Hb]]. apply quietly_on_worker. intros w' Hw'. congruence.
Qed.
Hint Resolve quiet_drain : quiet.

Lemma quiet_poll fd timeout_ms : quiet always (poll_one (K:=K) strerror fd timeout_ms).
Proof. unfold poll_one. quiet. Qed.
Hint Resolve quiet_poll : quiet.

Lemma quiet_reads reads i : quiet always (drain_reads (K:=K) strerror shortest reads i).
Proof. induction reads; cbn [drain_reads]; quiet. Qed.
Lemma quiet_available i : quiet always (drain_available (K:=K) strerror shortest i).
Proof. apply quiet_reads. Qed.
Hint Resolve quiet_available : quiet.

Lemma quiet_ready watched ready : quiet always (drain_ready (K:=K) strerror shortest watched ready).
Proof. revert ready. induction watched as [|i watched IH]; intros [|readiness ready]; cbn [drain_ready]; quiet. Qed.
Hint Resolve quiet_ready : quiet.

Lemma quiet_hot stop now_ns : quiet (λ r, run_temperature_stop r = None) (stop_for_temperature (K:=K) strerror options stop now_ns).
Proof.
  intros r s u r' s' Hnone. unfold stop_for_temperature. intros (v & r1 & s1 & Hm & Hb)%value_bound. injection Hm as _ <- <-. cbv beta in Hb.
  match type of Hb with ?m _ _ = _ => assert (quiet always m) as Hq by quiet end.
  etrans; [|by eapply Hq]. split; try done. cbn. congruence.
Qed.

Lemma events_value {A} (l : list A) elapsed_ns (line : A → text) r s u r' s' :
  for_each (K:=K) l (λ a, event elapsed_ns (line a)) r s = Some (Value u, r', s') → r' = r.
Proof.
  revert s. induction l as [|a l IH]; intros s; cbn [for_each]; [by intros [= _ <- _]|].
  intros (v & r1 & s1 & Hc & Hb)%value_bound. injection Hc as _ <- <-. by eapply IH.
Qed.

Lemma quiet_enforce elapsed_ns now_ns : quiet always (enforce_temperature (K:=K) strerror options elapsed_ns now_ns).
Proof.
  intros r s u r' s' _. unfold enforce_temperature. intros (r0 & r1 & s1 & Hg & Hb)%value_bound. injection Hg as <- <- <-.
  destruct (run_temperature r) as [watch|]; [|injection Hb as _ <- _; reflexivity].
  destruct (run_temperature_stop r) as [stop|] eqn:Es; [injection Hb as _ <- _; reflexivity|].
  destruct (negb (run_sampling_live r)); [by eapply quiet_hot|].
  destruct (_ =? _); [injection Hb as _ <- _; reflexivity|]. cbv zeta in Hb. destruct (observe_temperature _ _ _ _) as [seen watch'].
  apply value_bound in Hb as (v & r2 & s2 & Hm & Hb). injection Hm as _ <- <-.
  apply value_bound in Hb as (v2 & r3 & s3 & Hn & Hb). apply events_value in Hn as ->.
  destruct (obs_stop seen) as [stop|]; [|injection Hb as _ <- _; by quiet_change].
  etrans; [|eapply quiet_hot; [|exact Hb]; exact Es]. by quiet_change.
Qed.
Hint Resolve quiet_enforce : quiet.

Lemma quiet_deadline elapsed_ns now_ns : quiet always (meet_deadline (K:=K) strerror options elapsed_ns now_ns).
Proof. unfold meet_deadline. quiet. Qed.
Hint Resolve quiet_deadline : quiet.

Lemma quiet_elapsed : quiet always (elapsed_now (K:=K) strerror).
Proof. unfold elapsed_now. quiet. Qed.
Hint Resolve quiet_elapsed : quiet.

Lemma quiet_drains attempts i now_ns give_up_at : quiet always (last_drains (K:=K) strerror shortest attempts i now_ns give_up_at).
Proof. revert now_ns. induction attempts; intros now_ns; cbn [last_drains]; quiet. Qed.
Hint Resolve quiet_drains : quiet.

Lemma grows_held w : grows w (held_open w).
Proof. grown. Qed.
Hint Resolve grows_held : quiet.

Lemma quiet_after_death : quiet always (drain_after_death (K:=K) strerror shortest options).
Proof. unfold drain_after_death. quiet. Qed.

Lemma quiet_attribute : quiet always (attribute_oom_kills (K:=K) options).
Proof. unfold attribute_oom_kills. quiet. Qed.

Lemma quiet_group i : quiet always (kill_group (K:=K) strerror i).
Proof. unfold kill_group. quiet. Qed.
End Methods.

(** ** What is true between any two things a run does *)

Record crew_ok (r : Run) : Prop := {
  crew_slots : ∀ i w, run_workers r !! i = Some w → tr_slot w = Z.of_nat i;
  crew_steps : Forall step_agrees (run_workers r);
  crew_accounts : Forall (λ w, ∃ events said, accounted (tr_plan w) events said w) (run_workers r);
}.

(** The pool has the pid of a worker exactly until it is reaped, and counts them. *)
Record pool_agrees (r : Run) : Prop := {
  agrees_pids : Forall2 (λ w pid, tr_reaped w = bool_decide (pid = 0)) (run_workers r) (pids_ (run_pool r));
  agrees_live : run_live r = live_ (run_pool r);
  agrees_count : live_ (run_pool r) = size_of (alive (pids_ (run_pool r)));
  agrees_size : size_of (pids_ (run_pool r)) < 2 ^ 63;
}.

(** The first signal that was acted on stopped the run, and a second killed the workers. *)
Record signals_ok (r : Run) : Prop := {
  signals_had : (run_signals_handled r ≤ length (sig_received (run_signals r)))%nat;
  signals_first : run_stop_signal r = head (take (run_signals_handled r) (sig_received (run_signals r)));
  signals_second : run_stop_forced r = (2 <=? run_signals_handled r)%nat;
  signals_stop : run_signals_handled r ≠ 0%nat → run_stop_requested r = true;
}.

Record steps_ok (options : RunOptions) (r : Run) : Prop := {
  steps_counted : run_steps_run r = u64 (Z.of_nat (run_next_step r));
  steps_within : (run_next_step r ≤ length (from_option sched_steps [] (opt_schedule options)))%nat;
}.

Record sound (options : RunOptions) (r : Run) : Prop := {
  sound_crew : crew_ok r;
  sound_pool : pool_agrees r;
  sound_signals : signals_ok r;
  sound_steps : steps_ok options r;
}.

(** What one worker's entry may become, its death included. *)
Record lives (w w' : Tracked) : Prop := {
  lives_slot : tr_slot w' = tr_slot w;
  lives_plan : tr_plan w' = tr_plan w;
  lives_step : rank (tr_step w) ≤ rank (tr_step w');
  lives_settled : tr_reaped w = true → tr_reaped w' = true ∧ settled w' = settled w;
}.

#[export] Instance lives_preorder : PreOrder lives.
Proof.
  split; [by intros w; split|]. intros a b c [S1 P1 T1 D1] [S2 P2 T2 D2]. split; try congruence; [lia|].
  intros [Hr E]%D1. destruct (D2 Hr) as [? E2]. split; congruence.
Qed.

Record moves (r r' : Run) : Prop := {
  moves_workers : Forall2 lives (run_workers r) (run_workers r');
  moves_stopping : run_stop_requested r = true → run_stop_requested r' = true;
  moves_hot : ∀ stop, run_temperature_stop r = Some stop → run_temperature_stop r' = Some stop;
  moves_signal : ∀ signal, run_stop_signal r = Some signal → run_stop_signal r' = Some signal;
  moves_forced : run_stop_forced r = true → run_stop_forced r' = true;
  moves_received : sig_received (run_signals r) `prefix_of` sig_received (run_signals r');
  moves_steps : (run_next_step r ≤ run_next_step r')%nat;
}.

#[export] Instance moves_preorder : PreOrder moves.
Proof.
  split; [by intros r; split; auto|]. intros a b c [] []. split; try tauto.
  - by etrans.
  - auto.
  - auto.
  - by etrans.
  - lia.
Qed.

Lemma grows_lives w w' : grows w w' → lives w w'.
Proof. intros []. split; try done. intros Hr. split; [congruence|auto]. Qed.

Lemma quietly_crew r r' : Forall2 grows (run_workers r) (run_workers r') → crew_ok r → crew_ok r'.
Proof.
  intros Hg [H1 H2 H3]. split.
  - intros i w' Hw'. destruct (Forall2_lookup_r _ _ _ _ _ Hg Hw') as (w & Hw & []). rewrite grows_slot0. by apply H1.
  - apply Forall_forall. intros w' Hin. apply list_elem_of_lookup in Hin as [i Hw'].
    destruct (Forall2_lookup_r _ _ _ _ _ Hg Hw') as (w & Hw & []). apply grows_agrees0. by eapply Forall_lookup_1 in H2.
  - apply Forall_forall. intros w' Hin. apply list_elem_of_lookup in Hin as [i Hw'].
    destruct (Forall2_lookup_r _ _ _ _ _ Hg Hw') as (w & Hw & []). eapply Forall_lookup_1 in H3 as (events & said & Ha); [|done].
    destruct (grows_account0 _ _ _ Ha) as (more & more_said & Ha'). rewrite grows_plan0. by eexists _, _.
Qed.

Lemma quietly_pool_agrees r r' :
  Forall2 grows (run_workers r) (run_workers r') → run_pool r' = run_pool r → run_live r' = run_live r →
  pool_agrees r → pool_agrees r'.
Proof.
  intros Hg Hp Hl [H1 H2 H3 H4]. split; rewrite ?Hp, ?Hl; try done.
  revert H1. generalize (pids_ (run_pool r)). induction Hg as [|w w' l l' [] _ IH]; intros pids Hf.
  - by apply Forall2_nil_inv_l in Hf as ->.
  - apply Forall2_cons_inv_l in Hf as (pid & pids' & Hw & Hf & ->). constructor; [congruence|by apply IH].
Qed.

Lemma quietly_sound options r r' : quietly r r' → sound options r → sound options r'.
Proof.
  intros [Hg Hp Hl Ht Hf Hs Hh] [H1 H2 [A1 A2 A3 A4] [B1 B2]]. injection Ht as T1 T2 T3 T4 T5. split.
  - by eapply quietly_crew.
  - by eapply quietly_pool_agrees.
  - split; rewrite ?T1, ?T2, ?T3, ?Hf; try done. auto.
  - split; rewrite ?T4, ?T5; done.
Qed.

Lemma quietly_moves r r' : quietly r r' → moves r r'.
Proof.
  intros [Hg Hp Hl Ht Hf Hs Hh]. injection Ht as T1 T2 T3 T4 T5. split; rewrite ?T1, ?T3, ?T4, ?Hf; try done.
  eapply Forall2_impl; [exact Hg|]. apply grows_lives.
Qed.

(** A method that keeps a run sound, and only moves it on. *)
Definition advances {K A} (options : RunOptions) (m : M K A) : Prop :=
  ∀ r s a r' s', sound options r → m r s = Some (Value a, r', s') → sound options r' ∧ moves r r'.

Lemma quiet_advances {K A} options (m : M K A) : quiet always m → advances options m.
Proof.
  intros Hm r s a r' s' Hr H. pose proof (Hm _ _ _ _ _ I H) as Hq. split; [by eapply quietly_sound|by apply quietly_moves].
Qed.

Lemma advances_bind {K A B} options (m : M K A) (k : A → M K B) :
  advances options m → (∀ a, advances options (k a)) → advances options (bind m k).
Proof.
  intros Hm Hk r s b r' s' Hr (a & r1 & s1 & H1 & H2)%value_bound. destruct (Hm _ _ _ _ _ Hr H1) as [Hr1 M1].
  destruct (Hk _ _ _ _ _ _ Hr1 H2) as [Hr2 M2]. split; [done|by etrans].
Qed.

(** ** The pool's count *)

Lemma alive_clear_length pids slot pid :
  pids !! slot = Some pid → pid ≠ 0 → size_of (alive pids) = 1 + size_of (alive (<[slot := 0]> pids)).
Proof.
  intros Hp Hne. pose proof (lookup_lt_Some _ _ _ Hp) as Hlt. rewrite insert_take_drop by done.
  rewrite <- (take_drop_middle pids slot pid) at 1 by done.
  rewrite !alive_app, alive_cons_ne, alive_cons_0 by done. unfold size_of. rewrite !length_app. cbn [length]. lia.
Qed.

Record pool_counts (p : WorkerPool) : Prop := {
  counts_live : live_ p = size_of (alive (pids_ p));
  counts_size : size_of (pids_ p) < 2 ^ 63;
}.

Lemma claim_counts child p r p' :
  pool_counts p → claim child p = (r, p') →
  pool_counts p' ∧
  match r with
  | Some d => ∃ pid, pids_ p !! death_slot d = Some pid ∧ pid ≠ 0
      ∧ pids_ p' = <[death_slot d := 0]> (pids_ p) ∧ live_ p' = live_ p - 1 ∧ 1 ≤ live_ p < 2 ^ 63
  | None => p' = p
  end.
Proof.
  intros [Hl Hs]. unfold claim. destruct (list_find _ _) as [[slot pid]|] eqn:E; intros [= <- <-]; [|done].
  apply list_find_Some in E as (Hp & [Hne ->] & _). pose proof (alive_clear_length _ _ _ Hp Hne) as Hlen.
  pose proof (length_alive (pids_ p)). assert (1 ≤ live_ p < 2 ^ 63) as Hr by (unfold size_of in *; lia).
  assert (u64 (live_ p - 1) = live_ p - 1) as Hu by (apply u64_small; unfold in_u64; lia). split.
  - split; cbn [live_ pids_]; rewrite ?Hu; [lia|]. unfold size_of in *. by rewrite length_insert.
  - eexists. cbn. split_and!; try done; lia.
Qed.

Lemma reap_next_counts {K} `{ProcessCalls K} fuel p s death p' s' :
  pool_counts p → reap_next_nonblocking fuel p s = Some (Value death, p', s') →
  pool_counts p' ∧
  match death with
  | Some d => ∃ pid, pids_ p !! death_slot d = Some pid ∧ pid ≠ 0
      ∧ pids_ p' = <[death_slot d := 0]> (pids_ p) ∧ live_ p' = live_ p - 1 ∧ 1 ≤ live_ p < 2 ^ 63
  | None => p' = p
  end.
Proof.
  revert p s. induction fuel as [|fuel IH]; intros p s Hp; cbn [reap_next_nonblocking]; [done|].
  destruct (reap_any_nonblocking s) as [[[child|]|e] s1]; [|by intros [= <- <- _]|done].
  destruct (claim child p) as [r p1] eqn:Ec. destruct (claim_counts _ _ _ _ Hp Ec) as [Hp1 Hr].
  destruct r as [d|]; [by intros [= <- <- _]|]. subst p1. by apply IH.
Qed.

(** ** Signals, steps and deaths *)

Section Loop.
Context {K : Type} `{ProcessCalls K} `{ChannelCalls K} `{RegionCalls K} `{WorkerCalls K} `{FpControl K} `{SignalCalls K}
  `{ExecCalls K} `{SourceCalls K} `{StorageOps K} `{Surroundings K}.
Context (strerror : Z → text) (shortest : Z → text) (compiled : IsaSet) (config : Config) (options : RunOptions) (fuel : nat).
Hint Resolve quiet_event quiet_clock quiet_now quiet_since quiet_beat quiet_fault quiet_round quiet_mark quiet_journal
  quiet_command quiet_tell quiet_request quiet_watch_workers quiet_close_fd quiet_close quiet_drain quiet_poll quiet_available
  quiet_ready quiet_enforce quiet_deadline quiet_elapsed quiet_group : quiet.

Lemma kill_value r s u r' s' :
  kill_for_signal (K:=K) strerror r s = Some (Value u, r', s') → quietly (r <| run_stop_forced := true |>) r'.
Proof.
  unfold kill_for_signal. intros (r0 & r1 & s1 & Hg & Hb)%value_bound. injection Hg as <- <- <-. cbv zeta in Hb.
  apply value_bound in Hb as (v & r2 & s2 & Hm & Hb). injection Hm as _ <- <-. cbv beta in Hb.
  match type of Hb with ?m _ _ = _ => assert (quiet always m) as Hq end; [|by eapply Hq].
  apply quiet_bind; [quiet|]. intros _. apply quiet_for_workers. intros i r2 s2 u2 r3 s3 _.
  intros (w & r4 & s4 & (Hw & -> & ->)%worker_value & Hc)%value_bound.
  destruct (tr_reaped w) eqn:Er; cbn [orb] in Hc; [injection Hc as _ <- _; reflexivity|].
  case_bool_decide; [injection Hc as _ <- _; reflexivity|]. eapply quiet_send; [by right| |exact Hc].
  intros w' Hw'. assert (w' = w) as -> by congruence. split; [done|]. by destruct (tr_step w); vm_compute.
Qed.

Lemma request_value now_ns r s u r' s' :
  request_stop (K:=K) strerror now_ns r s = Some (Value u, r', s') → quietly r r' ∧ run_stop_requested r' = true.
Proof.
  intros Hb. split; [by eapply quiet_request|]. unfold request_stop in Hb.
  apply value_bound in Hb as (v & r2 & s2 & Hm & Hb). injection Hm as _ <- <-.
  eapply (quietly_stopping _ _ (quiet_for_workers _ (λ i, quiet_stop_one strerror now_ns i) _ _ _ _ _ I Hb)). done.
Qed.

Lemma stop_value signal r s u r' s' :
  stop_for_signal (K:=K) strerror options signal r s = Some (Value u, r', s') →
  quietly (r <| run_stop_signal := Some signal |>) r' ∧ run_stop_requested r' = true.
Proof.
  unfold stop_for_signal. intros (r0 & r1 & s1 & Hg & Hb)%value_bound. injection Hg as <- <- <-. cbv zeta in Hb.
  apply value_bound in Hb as (v & r2 & s2 & Hm & Hb). injection Hm as _ <- <-.
  apply value_bound in Hb as (v2 & r3 & s3 & Hw & Hb). cbv beta in Hb.
  match type of Hb with ?m _ _ = _ => assert (quiet always m) as Hq by quiet end. pose proof (Hq _ _ _ _ _ I Hb) as Hrest.
  assert (quietly (r <| run_stop_signal := Some signal |>) r3 ∧ run_stop_requested r3 = true) as [Hq1 Hq2].
  { destruct (run_stop_requested r) eqn:Er; cbn [negb when] in Hw; [injection Hw as _ <- _; by split|].
    apply value_bound in Hw as (v3 & r4 & s4 & Ht & Hw). apply value_bound in Hw as (v4 & r5 & s5 & Hk & Hw).
    apply request_value in Hw as [Hq3 ?]. split; [|done].
    etrans; [by eapply quiet_round|]. etrans; [by eapply quiet_mark|done]. }
  split; [by etrans|]. by apply (quietly_stopping _ _ Hrest).
Qed.

(** One signal acted on. *)
Definition marked_by (signal : Z) (r : Run) : Run :=
  match run_stop_signal r with Some _ => r <| run_stop_forced := true |> | None => r <| run_stop_signal := Some signal |> end.

Lemma signal_acted signal r r2 :
  sound options r → sig_received (run_signals r) !! run_signals_handled r = Some signal →
  quietly (marked_by signal r) r2 → run_stop_requested r2 = true →
  sound options (r2 <| run_signals_handled ::= S |>) ∧ moves r (r2 <| run_signals_handled ::= S |>).
Proof.
  intros [Hc Hp [A1 A2 A3 A4] Hst] Hnext Hq Hstop. set (before := marked_by signal r) in *.
  assert (Htake : take (S (run_signals_handled r)) (sig_received (run_signals r))
    = take (run_signals_handled r) (sig_received (run_signals r)) ++ [signal]) by (by apply take_S_r).
  assert (crew_ok before ∧ pool_agrees before ∧ steps_ok options before ∧ moves r before) as (B1 & B2 & B3 & B4).
  { clear -Hc Hp Hst. unfold before, marked_by. destruct Hc, Hp, Hst, (run_stop_signal r) eqn:Es; split_and!; split; try done; cbn; intros; congruence. }
  pose proof (quietly_moves _ _ Hq) as Mq. destruct Hq as [Hg Hpool Hlive Ht Hf Hs Hh]. injection Ht as T1 T2 T3 T4 T5. split.
  - split; cbn; [by eapply quietly_crew|by eapply quietly_pool_agrees| |].
    + split; cbn; rewrite ?T1, ?T2, ?T3, ?Hf; unfold before, marked_by; destruct (run_stop_signal r) eqn:Es; cbn; try done.
      * apply lookup_lt_Some in Hnext. lia.
      * apply lookup_lt_Some in Hnext. lia.
      * rewrite Htake, Es, A2. by destruct (take _ _).
      * rewrite Htake. destruct (take _ _); [done|]. done.
      * clear -A2. by destruct (run_signals_handled r).
      * rewrite A3. clear -A1 A2. by destruct (run_signals_handled r), (sig_received (run_signals r)); cbn in *; try lia.
    + destruct B3 as [C1 C2]. split; [exact (eq_trans T5 (eq_trans C1 (f_equal (λ n, u64 (Z.of_nat n)) (eq_sym T4))))|].
      cbn [run_next_step set]. by rewrite T4.
  - etrans; [exact B4|]. etrans; [exact Mq|]. by split; auto.
Qed.

Lemma advances_handle l r s u r' s' :
  sound options r → l = drop (run_signals_handled r) (sig_received (run_signals r)) →
  handle_signals (K:=K) strerror options l r s = Some (Value u, r', s') → sound options r' ∧ moves r r'.
Proof.
  revert r s. induction l as [|signal l IH]; intros r s Hr Hl; cbn [handle_signals].
  { intros [= _ <- _]. split; [done|reflexivity]. }
  intros (r0 & r1 & s1 & Hg & Hb)%value_bound. injection Hg as <- <- <-.
  apply value_bound in Hb as (v & r2 & s2 & Hone & Hb). apply value_bound in Hb as (v2 & r3 & s3 & Hm & Hb). injection Hm as _ <- <-.
  assert (Hnext : sig_received (run_signals r) !! run_signals_handled r = Some signal).
  { rewrite <- (Nat.add_0_r (run_signals_handled r)), <- lookup_drop, <- Hl. done. }
  assert (quietly (marked_by signal r) r2 ∧ run_stop_requested r2 = true) as [Hq Hstop].
  { unfold marked_by. destruct (run_stop_signal r) as [first|] eqn:Es.
    - apply kill_value in Hone as Hq. split; [done|]. apply (quietly_stopping _ _ Hq).
      destruct Hr as [_ _ [_ A2 _ A4] _]. apply A4. intros E. rewrite E, take_0 in A2. cbn in A2. congruence.
    - by apply stop_value in Hone. }
  destruct (signal_acted signal r r2 Hr Hnext Hq Hstop) as [Hr3 M3].
  destruct (IH _ s2 Hr3) as [Hr' M']; [|exact Hb|split; [done|by etrans]].
  cbn. destruct Hq as [_ _ _ Ht _ _ _]. injection Ht as T1 T2 _ _ _. rewrite T1, T2. unfold marked_by.
  destruct (run_stop_signal r); cbn; rewrite <- Nat.add_1_r, <- drop_drop, <- Hl; done.
Qed.

Lemma absorb_keeps signals s r signals' s' :
  absorb (K:=K) signals s = Some (r, signals', s') → sig_received signals `prefix_of` sig_received signals'.
Proof.
  unfold absorb. destruct (poll_all _ 0 s) as [[ready|e] s1]; [|by intros [= _ <- _]].
  destruct ready as [|front rest]; [done|]. destruct (negb _); [by intros [= _ <- _]|].
  destruct (read_fd _ _ s1) as [[bytes|e] s2]; intros [= _ <- _]; [|done]. cbn. by apply prefix_app_r.
Qed.

(** More signals were received, and none acted on yet. *)
Lemma received_sound r signals :
  sound options r → sig_received (run_signals r) `prefix_of` sig_received signals →
  sound options (r <| run_signals := signals |>) ∧ moves r (r <| run_signals := signals |>).
Proof.
  intros [[] [] [A1 A2 A3 A4] []] Hpre. split; [|by split; auto].
  split; [by split|by split| |by split]. destruct Hpre as [more E].
  split; cbn; unfold const; [rewrite E, length_app; lia|by rewrite E, take_app_le|done|done].
Qed.

Lemma advances_take_signals : advances options (take_stop_signals (K:=K) strerror options).
Proof.
  intros r s u r' s' Hr. unfold take_stop_signals. intros (r0 & r1 & s1 & Hg & Hb)%value_bound. injection Hg as <- <- <-.
  apply value_bound in Hb as ((absorbed & signals) & r2 & s2 & Ha & Hb). unfold call_fueled in Ha.
  destruct (absorb (run_signals r) s) as [[[a signals'] s3]|] eqn:E; [|done]. cbn in Ha. injection Ha as <- <- <- <-.
  apply absorb_keeps in E. destruct (received_sound r signals' Hr E) as [Hr2 M2].
  apply value_bound in Hb as (v & r4 & s4 & Hm & Hb). injection Hm as _ <- <-.
  destruct a as [n|e]; [|done]. apply value_bound in Hb as (r5 & r6 & s6 & Hg & Hb). injection Hg as <- <- <-.
  destruct (advances_handle _ _ _ _ _ _ Hr2 eq_refl Hb) as [Hr' M']. split; [done|by etrans].
Qed.

Lemma advances_when b (m : M K unit) : advances options m → advances options (when b m).
Proof. intros Hm. destruct b; [done|apply quiet_advances, quiet_ret]. Qed.

Lemma advances_poll timeout_ms : advances options (poll_and_drain (K:=K) strerror shortest options timeout_ms).
Proof.
  unfold poll_and_drain. apply advances_bind; [apply quiet_advances; quiet|]. intros r. cbv zeta.
  apply advances_bind; [apply quiet_advances; quiet|]. intros [ready|e]; [|apply quiet_advances; quiet].
  apply advances_bind; [apply quiet_advances; quiet|]. intros _.
  destruct (opt_stop_signals options); [|apply quiet_advances; quiet].
  destruct (last ready) as [back|]; [|apply quiet_advances; quiet]. apply advances_when, advances_take_signals.
Qed.

(** A step of the schedule taken up. *)
Lemma step_taken step r :
  sound options r →
  (S (run_next_step r) ≤ length (from_option sched_steps [] (opt_schedule options)))%nat →
  let r' := r <| run_next_step ::= S |> <| run_steps_run ::= (λ n, u64 (n + 1)) |>
              <| run_phase := step_phase step |> <| run_workload_label := step_workload step |> in
  sound options r' ∧ moves r r'.
Proof.
  intros [[] [] [] [B1 B2]] Hlt r'. split; [|split; try done; cbn; lia]. split; [by split..|].
  split; [|done]. unfold r'. cbn [run_steps_run run_next_step set]. rewrite B1, u64_succ. f_equal. lia.
Qed.

Lemma advances_due steps elapsed_ns now_ns stepped r s b r' s' :
  sound options r → steps = drop (run_next_step r) (from_option sched_steps [] (opt_schedule options)) →
  due_steps (K:=K) strerror options steps elapsed_ns now_ns stepped r s = Some (Value b, r', s') →
  sound options r' ∧ moves r r'.
Proof.
  revert stepped r s. induction steps as [|step steps IH]; intros stepped r s Hr Hl; cbn [due_steps].
  { intros [= _ <- _]. split; [done|reflexivity]. }
  destruct (negb _); [intros [= _ <- _]; split; [done|reflexivity]|].
  intros (v & r1 & s1 & Hm & Hb)%value_bound. injection Hm as _ <- <-.
  assert (Hlt : (S (run_next_step r) ≤ length (from_option sched_steps [] (opt_schedule options)))%nat).
  { apply (f_equal length) in Hl. rewrite length_drop in Hl. cbn in Hl. lia. }
  destruct (step_taken step r Hr Hlt) as [Hr1 M1]. cbv beta zeta in Hr1, M1. set (r1 := r <| run_next_step ::= S |> <| _ ::= _ |> <| _ := _ |> <| _ := _ |>) in *.
  apply value_bound in Hb as (v2 & r2 & s2 & Hk & Hb). apply value_bound in Hb as (v3 & r3 & s3 & He & Hb).
  apply value_bound in Hb as (v4 & r4 & s4 & Ht & Hb).
  assert (quietly r1 r4) as Hq.
  { etrans; [by eapply quiet_mark|]. etrans; [by eapply (quiet_event always)|].
    eapply (quiet_for_each _ _ (λ each, quiet_tell strerror _ _)); [done|exact Ht]. }
  destruct (IH true r4 s4) as [Hr' M']; [by eapply quietly_sound| |exact Hb|].
  - destruct Hq as [_ _ _ Hq _ _ _]. injection Hq as _ _ _ -> _. unfold r1. cbn. by rewrite <- Nat.add_1_r, <- drop_drop, <- Hl.
  - split; [done|]. etrans; [exact M1|]. etrans; [by apply quietly_moves|done].
Qed.

Lemma advances_schedule elapsed_ns now_ns : advances options (run_schedule (K:=K) strerror options elapsed_ns now_ns).
Proof.
  intros r s u r' s' Hr. unfold run_schedule. intros (r0 & r1 & s1 & Hg & Hb)%value_bound. injection Hg as <- <- <-.
  destruct (opt_schedule options) as [schedule|] eqn:Es; [|injection Hb as _ <- _; split; [done|reflexivity]].
  destruct (run_stop_requested r); [injection Hb as _ <- _; split; [done|reflexivity]|].
  apply value_bound in Hb as (stepped & r2 & s2 & Hd & Hb).
  apply advances_due in Hd as [Hr2 M2]; [|done|by rewrite Es].
  destruct (quiet_advances options _ (quiet_when stepped _ (quiet_journal options elapsed_ns true)) _ _ _ _ _ Hr2 Hb) as [? M3].
  split; [done|by etrans].
Qed.

(** A death taken from the pool, and told to the worker it is of. *)
Definition bury (dead : WorkerDeath) (pool : WorkerPool) (r : Run) : Run :=
  let r := r <| run_pool := pool |> <| run_workers ::= alter (death_taken dead) (death_slot dead) |> in
  let r := if sp_enabled (run_sampling r)
           then r <| run_sampling ::= (λ sp, sp <| sp_reaps ::= (λ reaps, reaps ++
                       [{| reap_slot := Z.of_nat (death_slot dead); reap_at_ns := run_clock_running_ns r |}]) |>) |>
           else r in
  r <| run_live ::= (λ n, u64 (n - 1)) |>.

Lemma alter_lookup_inv f i (l : list Tracked) j w' :
  alter f i l !! j = Some w' → ∃ w, l !! j = Some w ∧ w' = (if decide (j = i) then f w else w).
Proof.
  destruct (decide (j = i)) as [->|Hn]; [rewrite list_lookup_alter_eq|rewrite list_lookup_alter_ne by done].
  - intros (w & Hw & ->)%fmap_Some. by exists w.
  - intros Hw. by exists w'.
Qed.

Lemma bury_workers dead pool r : run_workers (bury dead pool r) = alter (death_taken dead) (death_slot dead) (run_workers r).
Proof. unfold bury. cbn. by destruct (sp_enabled _). Qed.

Lemma bury_rest dead pool r :
  run_pool (bury dead pool r) = pool ∧ run_live (bury dead pool r) = u64 (run_live r - 1)
  ∧ told_to_stop (bury dead pool r) = told_to_stop r ∧ run_stop_forced (bury dead pool r) = run_stop_forced r
  ∧ run_stop_requested (bury dead pool r) = run_stop_requested r
  ∧ run_temperature_stop (bury dead pool r) = run_temperature_stop r.
Proof. unfold bury, told_to_stop. cbn. by destruct (sp_enabled _). Qed.

Lemma bury_crew dead pool r : crew_ok r → crew_ok (bury dead pool r).
Proof.
  intros [C1 C2 C3]. split; rewrite ?bury_workers.
  - intros i w' (w & Hw & ->)%alter_lookup_inv. rewrite <- (C1 i w Hw). by destruct (decide _).
  - apply Forall_lookup_2. intros i w' (w & Hw & ->)%alter_lookup_inv. eapply Forall_lookup_1 in C2; [|exact Hw]. destruct (decide _); exact C2.
  - apply Forall_lookup_2. intros i w' (w & Hw & ->)%alter_lookup_inv. eapply Forall_lookup_1 in C3 as (events & said & Ha); [|done].
    destruct (decide _); [|by exists events, said]. exists events, said. eapply same_accounted; [|exact Ha]. same_account.
Qed.

Lemma bury_pool dead pool pid r :
  pool_agrees r → pids_ (run_pool r) !! death_slot dead = Some pid → pool_counts pool →
  pids_ pool = <[death_slot dead := 0]> (pids_ (run_pool r)) → live_ pool = live_ (run_pool r) - 1 →
  1 ≤ live_ (run_pool r) < 2 ^ 63 → pool_agrees (bury dead pool r).
Proof.
  intros [P1 P2 P3 P4] Hp [L1 L2] Hpids Hlive Hrange. destruct (bury_rest dead pool r) as (R1 & R2 & _).
  split; rewrite ?R1, ?R2; [|by rewrite P2, u64_small by (unfold in_u64; lia)|done|done]. rewrite bury_workers, Hpids.
  apply Forall2_same_length_lookup_2; [rewrite length_alter, length_insert; by eapply Forall2_length|].
  intros i w' pid' (w & Hw & ->)%alter_lookup_inv Hpid'. destruct (decide _) as [->|Hn].
  - rewrite list_lookup_insert_eq in Hpid' by (by eapply lookup_lt_Some). by injection Hpid' as <-.
  - rewrite list_lookup_insert_ne in Hpid' by done. by eapply Forall2_lookup_lr in P1.
Qed.

(** The dead worker was alive to the controller: its pid was in the pool. *)
Lemma bury_sound dead pool pid r :
  sound options r → pids_ (run_pool r) !! death_slot dead = Some pid → pid ≠ 0 → pool_counts pool →
  pids_ pool = <[death_slot dead := 0]> (pids_ (run_pool r)) → live_ pool = live_ (run_pool r) - 1 →
  1 ≤ live_ (run_pool r) < 2 ^ 63 →
  sound options (bury dead pool r) ∧ moves r (bury dead pool r).
Proof.
  intros [HC HP [A1 A2 A3 A4] [B1 B2]] Hp Hne Hcount Hpids Hlive Hrange.
  pose proof (bury_crew dead pool r HC) as HC'. assert (pool_agrees (bury dead pool r)) as HP' by (by eapply bury_pool).
  pose proof (bury_workers dead pool r) as Hworkers. destruct (bury_rest dead pool r) as (_ & _ & R3 & R4 & R5 & R6).
  set (r' := bury dead pool r) in *. clearbody r'. injection R3 as T1 T2 T3 T4 T5. split.
  - split; [done..| |]; split; rewrite ?T1, ?T2, ?T3, ?T4, ?T5, ?R4, ?R5; assumption.
  - split; rewrite ?T1, ?T3, ?T4, ?R4, ?R5, ?R6; try done. rewrite Hworkers.
    apply Forall2_same_length_lookup_2; [by rewrite length_alter|]. intros i w w' Hw (w0 & Hw0 & ->)%alter_lookup_inv.
    assert (w0 = w) as -> by congruence. destruct (decide _) as [->|]; [|reflexivity]. split; try done.
    intros Hr. destruct HP as [P1 _ _ _]. eapply Forall2_lookup_lr in P1; [|exact Hw|exact Hp]. rewrite bool_decide_false in P1 by done. congruence.
Qed.

Lemma death_value dead elapsed_ns pool r s u r' s' :
  take_death (K:=K) strerror dead elapsed_ns (r <| run_pool := pool |>) s = Some (Value u, r', s') → quietly (bury dead pool r) r'.
Proof.
  unfold take_death. cbv zeta. intros (v & r1 & s1 & Hm & Hb)%value_bound. injection Hm as _ <- <-.
  apply value_bound in Hb as (v2 & r2 & s2 & Hm & Hb). injection Hm as _ <- <-.
  apply value_bound in Hb as (v3 & r3 & s3 & Hm & Hb). injection Hm as _ <- <-. cbv beta in Hb.
  match type of Hb with ?m ?before _ = _ => assert (quiet always m) as Hq by quiet; assert (before = bury dead pool r) as E by (unfold bury; cbn; by destruct (sp_enabled _)) end.
  rewrite E in Hb. by eapply Hq.
Qed.

Lemma advances_reap elapsed_ns : advances options (reap (K:=K) strerror fuel elapsed_ns).
Proof.
  intros r s u r' s' Hr. unfold reap. intros (r0 & r1 & s1 & Hg & Hb)%value_bound. injection Hg as <- <- <-.
  revert Hb. generalize (Z.to_nat (run_live r)). intros turns. revert r s Hr.
  induction turns as [|turns IH]; intros r s Hr Hb; cbn [reap_turns] in Hb; apply value_bound in Hb as (r1 & r2 & s2 & Hg & Hb);
    injection Hg as <- <- <-; (destruct (negb _); [injection Hb as _ <- _; by split|]); [done|].
  apply value_bound in Hb as (death & r3 & s3 & Hp & Hb). unfold pooling in Hp.
  destruct (reap_next_nonblocking fuel (run_pool r) s) as [[[answer pool] s4]|] eqn:E; [|done]. injection Hp as <- <- <-.
  destruct answer as [death|e]; [|done]. destruct Hr as [HC HP HS HT].
  apply reap_next_counts in E as [Hcount Hd]; [|by destruct HP]. destruct death as [dead|].
  - destruct Hd as (pid & Hpid & Hne & Hpids & Hlive & Hrange). apply value_bound in Hb as (v & r5 & s5 & Hk & Hb).
    apply death_value in Hk. destruct (bury_sound dead pool pid r) as [Hr1 M1]; [done..|].
    destruct (IH r5 s5) as [Hr2 M2]; [by eapply quietly_sound|done|].
    split; [done|]. etrans; [exact M1|]. etrans; [by apply quietly_moves|done].
  - subst pool. injection Hb as _ <- _. split; [by destruct r|]. by destruct r.
Qed.

Lemma advances_tick : advances options (tick (K:=K) strerror shortest options fuel).
Proof.
  unfold tick. repeat first
    [ apply advances_reap
    | apply advances_bind; [first [apply advances_schedule | apply advances_poll | apply quiet_advances; quiet]|intros ?] ].
Qed.

Lemma advances_loop ticks : advances options (tick_loop (K:=K) strerror shortest options fuel ticks).
Proof.
  induction ticks as [|ticks IH]; cbn [tick_loop]; (apply advances_bind; [apply quiet_advances; quiet|intros r]);
    (destruct (negb _); [apply quiet_advances; quiet|]); [apply quiet_advances; quiet|]. by apply advances_bind; [apply advances_tick|].
Qed.
End Loop.
