(* ===== verification/RunStory.v ===== *)
(** * What the report of a run says

    From the first worker planned to the report: a run that ends with a report has planned and
    started one worker for each enabled workload, followed each to its death, and tells of
    each exactly what it said and was told. *)

From S2P Require Import JournalStore Account.
From S2P Require Export Runs.

(** ** Workers planned *)

Definition fresh_crew (plans : list WorkerPlan) : list Tracked := imap (λ i plan, tracked (Z.of_nat i) plan) plans.

Lemma fresh_crew_snoc plans plan : fresh_crew (plans ++ [plan]) = fresh_crew plans ++ [tracked (Z.of_nat (length plans)) plan].
Proof. unfold fresh_crew. rewrite imap_app. cbn. by rewrite Nat.add_0_r. Qed.

(** Before there are workers to die: none has, and no channel is open. *)
Record idle (options : RunOptions) (r : Run) : Prop := {
  idle_crew : crew_ok r;
  idle_workers : Forall (λ w, tr_reaped w = false ∧ tr_channel_open w = false) (run_workers r);
  idle_signals : signals_ok r;
  idle_steps : steps_ok options r;
}.

Lemma quietly_idle options r r' : quietly r r' → idle options r → idle options r'.
Proof.
  intros [Hg Hp Hl Ht Hf Hs Hh] [H1 H2 [A1 A2 A3 A4] [B1 B2]]. injection Ht as T1 T2 T3 T4 T5. split.
  - by eapply quietly_crew.
  - apply Forall_lookup_2. intros i w' Hw'. destruct (Forall2_lookup_r _ _ _ _ _ Hg Hw') as (w & Hw & []).
    eapply Forall_lookup_1 in H2 as [Hr Hc]; [|exact Hw]. split; [congruence|auto].
  - split; rewrite ?T1, ?T2, ?T3, ?Hf; auto.
  - split; rewrite ?T4, ?T5; done.
Qed.

Lemma fresh_crew_ok options r plans :
  run_workers r = fresh_crew plans → signals_ok r → steps_ok options r → idle options r.
Proof.
  intros Hw Hs Ht. split; [split| |done|done]; rewrite ?Hw; unfold fresh_crew.
  - intros i w (plan & _ & ->)%list_lookup_imap_Some. done.
  - apply Forall_lookup_2. intros i w (plan & _ & ->)%list_lookup_imap_Some. done.
  - apply Forall_lookup_2. intros i w (plan & _ & ->)%list_lookup_imap_Some. exists [], []. apply fresh_accounted.
  - apply Forall_lookup_2. intros i w (plan & _ & ->)%list_lookup_imap_Some. done.
Qed.

Definition plans_in (r : Run) : list WorkerPlan := tr_plan <$> run_workers r.

Lemma lives_plans r r' : Forall2 lives (run_workers r) (run_workers r') → plans_in r' = plans_in r.
Proof.
  unfold plans_in. induction 1 as [|w w' l l' [] _ IH]; [done|]. rewrite !fmap_cons. by f_equal.
Qed.

Lemma quietly_plans r r' : quietly r r' → plans_in r' = plans_in r.
Proof. intros H. apply lives_plans. by destruct (quietly_moves _ _ H). Qed.

Lemma plans_length r : length (plans_in r) = length (run_workers r).
Proof. apply length_fmap. Qed.

Lemma fresh_crew_plans r plans : run_workers r = fresh_crew plans → plans_in r = plans.
Proof.
  intros Hw. unfold plans_in, fresh_crew in *. rewrite Hw, fmap_imap. apply list_eq. intros i. rewrite list_lookup_imap.
  by destruct (plans !! i).
Qed.

(** ** Starting them *)

Section Launching.
Context {K : Type} `{ProcessCalls K}.

(** A spawn that answers its supervisor has forked a process for every slot. *)
Lemma spawned_all (I : K → Prop) observe wait_fuel :
  (∀ s pid s', I s → fork_worker s = (Value pid, s') → I s') →
  (∀ slot pid s s', I s → observe slot pid s = (Value tt, s') → I s') →
  ∀ count l s pids p s', I s → Forall (λ pid, pid ≠ 0) l → Z.of_nat (length l + count) < 2 ^ 63 →
  spawn_slots wait_fuel count (length l) observe {| pids_ := l ++ replicate count 0; live_ := size_of l |} s
    = Some (Value (Supervisor pids), p, s') →
  pids_ p = pids ∧ live_ p = size_of pids ∧ length pids = (length l + count)%nat ∧ Forall (λ pid, pid ≠ 0) pids ∧ I s'.
Proof.
  intros Hfork Hobs count. induction count as [|count IH]; intros l s pids p s' Hs Hl Hsize; cbn [spawn_slots].
  { intros [= <- <- <-]. cbn. rewrite app_nil_r. split_and!; [done..|lia|done|done]. }
  destruct (fork_worker s) as [[pid|e] s1] eqn:Ef; [|by destruct (unwind_partial_spawn _ _ _) as [[]|]].
  destruct (Z.eqb_spec pid 0) as [|Hne]; [done|].
  destruct (observe (length l) pid s1) as [[[]|e] s2] eqn:Eo; [|by destruct (unwind_partial_spawn _ _ _) as [[]|]].
  replace (spawn_slots wait_fuel count (S (length l)) observe _ s2)
    with (spawn_slots wait_fuel count (length (l ++ [pid])) observe {| pids_ := (l ++ [pid]) ++ replicate count 0; live_ := size_of (l ++ [pid]) |} s2).
  - intros E. apply IH in E as (E1 & E2 & E3 & E4 & E5); [|by eauto|by apply Forall_app; split; [|apply Forall_singleton]|rewrite length_app; cbn; lia].
    rewrite length_app in E3. cbn in E3. split_and!; try done; lia.
  - rewrite length_app. cbn [length]. replace (length l + 1)%nat with (S (length l)) by lia. do 2 f_equal.
    + cbn [pids_ replicate]. rewrite insert_app_r_alt, Nat.sub_diag by lia. cbn. by rewrite <- app_assoc.
    + cbn [live_]. unfold size_of. rewrite length_app. cbn [length]. rewrite u64_small; [lia|]. unfold in_u64. lia.
Qed.
End Launching.

Section Story.
Context {K : Type} `{ProcessCalls K} `{ChannelCalls K} `{RegionCalls K} `{WorkerCalls K} `{FpControl K} `{SignalCalls K}
  `{ExecCalls K} `{SourceCalls K} `{StorageOps K} `{Surroundings K}.
Context (strerror : Z → text) (shortest : Z → text) (compiled : IsaSet) (config : Config) (options : RunOptions) (fuel : nat).
Hint Resolve quiet_event quiet_clock quiet_now quiet_since quiet_beat quiet_fault quiet_round quiet_mark quiet_journal
  quiet_command quiet_tell quiet_request quiet_watch_workers quiet_close_fd quiet_close quiet_drain quiet_poll quiet_available
  quiet_ready quiet_enforce quiet_deadline quiet_elapsed quiet_group quiet_drains quiet_attribute quiet_after_death grows_held : quiet.

(** *** prepare *)

Lemma quiet_or_fail stage f : quiet always (or_fail (K:=K) strerror stage f).
Proof. unfold or_fail. quiet. Qed.
Lemma quiet_memory schedule : quiet always (memory_or_fail (K:=K) config options schedule).
Proof. unfold memory_or_fail. quiet. Qed.
Hint Resolve quiet_or_fail quiet_memory : quiet.
Lemma quiet_establish : quiet always (establish (K:=K) options).
Proof. unfold establish. quiet. Qed.
Lemma quiet_fit : quiet always (fit_schedule (K:=K) config options).
Proof. unfold fit_schedule. quiet. Qed.
Lemma quiet_labels : quiet always (begin_labels (K:=K) options).
Proof. unfold begin_labels. quiet. Qed.
Lemma quiet_begin : quiet always (begin_telemetry (K:=K) options).
Proof. unfold begin_telemetry. quiet. Qed.
Lemma quiet_arm : quiet always (arm_temperature (K:=K) config options).
Proof. unfold arm_temperature. quiet. Qed.
Lemma quiet_make_pipe stage : quiet always (make_pipe (K:=K) strerror stage).
Proof. unfold make_pipe. quiet. Qed.
Hint Resolve quiet_establish quiet_fit quiet_labels quiet_begin quiet_arm quiet_make_pipe : quiet.
Lemma quiet_pipes : quiet always (make_pipes (K:=K) strerror).
Proof. unfold make_pipes. quiet. Qed.
Lemma quiet_region : quiet always (create_region (K:=K) strerror).
Proof. unfold create_region. quiet. Qed.
Hint Resolve quiet_pipes quiet_region : quiet.

Definition enabled_entries : list WorkloadEntry := filter (λ entry, wle_enabled entry = true) (config_workloads config).

Definition planned_from (slot : nat) (entries : list WorkloadEntry) (plans : list WorkerPlan) : Prop :=
  length plans = length entries ∧
  ∀ i entry plan, entries !! i = Some entry → plans !! i = Some plan →
    plan_worker compiled entry (Z.of_nat (slot + i)) (opt_budget options) (opt_verification options) (opt_topology options)
    = Some (Value plan).

Lemma plan_workers_value (r : Run) s u r' s' :
  run_workers r = [] → plan_workers (K:=K) compiled config options r s = Some (Value u, r', s') →
  ∃ plans, planned_from 0 enabled_entries plans ∧ r' = r <| run_workers := fresh_crew plans |> ∧ s' = s.
Proof.
  intros Hnone. unfold plan_workers. fold enabled_entries. generalize enabled_entries as entries.
  assert (∀ entries made r, run_workers r = fresh_crew made → for_each (K:=K) entries (λ entry,
    let! r := get in
    let slot := size_of (run_workers r) in
    modify (λ r, r <| run_workers ::= (λ all, all ++ [tracked slot no_plan]) |>) ;;!
    match plan_worker compiled entry slot (opt_budget options) (opt_verification options) (opt_topology options) with
    | None => stuck
    | Some (Error why) => error_at (lit "workload") why
    | Some (Value plan) => on_worker (Z.to_nat slot) (λ _, tracked slot plan)
    end) r s = Some (Value u, r', s') →
    ∃ plans, planned_from (length made) entries plans ∧ r' = r <| run_workers := fresh_crew (made ++ plans) |> ∧ s' = s) as Hall.
  { intros entries. induction entries as [|entry entries IH]; intros made r0 Hr0; cbn [for_each].
    - intros [= _ <- <-]. exists []. rewrite app_nil_r, <- Hr0. split_and!; [by split|by destruct r0|done].
    - intros (v & r1 & s1 & Hone & Hb)%value_bound. apply value_bound in Hone as (r2 & r3 & s3 & Hg & Hone). injection Hg as <- <- <-.
      cbv zeta in Hone. apply value_bound in Hone as (v2 & r4 & s4 & Hm & Hone). injection Hm as _ <- <-.
      assert (Hsize : size_of (run_workers r0) = Z.of_nat (length made)) by (rewrite Hr0; unfold size_of, fresh_crew; by rewrite length_imap).
      rewrite Hsize in Hone. destruct (plan_worker _ _ _ _ _ _) as [[plan|why]|] eqn:Ep; [|done..].
      injection Hone as _ <- <-. apply (IH (made ++ [plan])) in Hb as (plans & [Hlen Hp] & -> & ->).
      + exists (plan :: plans). split_and!; [split| |done].
        * cbn. by rewrite Hlen.
        * intros [|i] entry' plan'; cbn [lookup list_lookup].
          -- intros [= <-] [= <-]. by rewrite Nat.add_0_r.
          -- intros He Hpl. rewrite <- (Hp _ _ _ He Hpl). do 2 f_equal. rewrite length_app. cbn. lia.
        * by rewrite <- app_assoc.
      + cbn. rewrite fresh_crew_snoc, <- Hr0, ?Nat2Z.id.
        assert (length made = length (run_workers r0)) as -> by (rewrite Hr0; unfold fresh_crew; by rewrite length_imap).
        rewrite alter_app_r_alt, Nat.sub_diag by lia. done. }
  intros entries E. apply (Hall entries []) in E as (plans & Hp & -> & ->); [|done]. by exists plans.
Qed.

Lemma region_value r s u r' s' :
  create_region (K:=K) strerror r s = Some (Value u, r', s') → size_of (run_workers r) ≤ kMaxWorkers.
Proof.
  unfold create_region. intros (r0 & r1 & s1 & Hg & Hb)%value_bound. injection Hg as <- <- <-.
  apply value_bound in Hb as (region & r2 & s2 & Hc & Hb). unfold call, create in Hc.
  destruct (Z.ltb_spec kMaxWorkers (size_of (run_workers r))); [|done]. injection Hc as <- <- <-. done.
Qed.

(** One step of a computation that is quiet. *)
Ltac pass_quiet H r' Hq :=
  apply value_bound in H as (? & r' & ? & Hq & H);
  match type of Hq with ?m _ _ = _ =>
    let Hm := fresh in assert (quiet always m) as Hm by quiet; apply Hm in Hq; [|exact I]; clear Hm
  end.

Lemma prepare_value r s u r' s' :
  run_workers r = [] → signals_ok r → steps_ok options r →
  prepare (K:=K) strerror compiled config options r s = Some (Value u, r', s') →
  planned_from 0 enabled_entries (plans_in r') ∧ idle options r' ∧ size_of (run_workers r') ≤ kMaxWorkers.
Proof.
  intros Hnone Hsig Hsteps. unfold prepare. intros Hb.
  pass_quiet Hb b1 Q1. pass_quiet Hb b2 Q2. pass_quiet Hb b3 Q3. pass_quiet Hb r0 Q4.
  assert (quietly r r0) as Q by (etrans; [exact Q1|]; etrans; [exact Q2|]; etrans; [exact Q3|exact Q4]). clear Q1 Q2 Q3 Q4.
  assert (idle options r) as Hidle by (by apply (fresh_crew_ok options r [])).
  apply (quietly_idle _ _ _ Q) in Hidle as [_ _ Hsig1 Hsteps1].
  assert (run_workers r0 = []) as Hnone1 by (destruct Q as [Hg _ _ _ _ _ _]; rewrite Hnone in Hg; by apply Forall2_nil_inv_l in Hg).
  apply value_bound in Hb as (v & r1 & s1 & Hp & Hb). apply plan_workers_value in Hp as (plans & Hplans & -> & ->); [|done].
  set (r1 := r0 <| run_workers := _ |>) in *. assert (run_workers r1 = fresh_crew plans) as Hw by done.
  assert (idle options r1) as Hidle1 by (apply (fresh_crew_ok options r1 plans); [done|by destruct Hsig1|by destruct Hsteps1]).
  clearbody r1. apply value_bound in Hb as (r2 & r4 & s2 & Hg & Hb). injection Hg as <- <- <-.
  destruct (run_workers r1) as [|first others] eqn:Er1; [done|]. rewrite <- Er1 in *.
  pass_quiet Hb c1 Q1. pass_quiet Hb c2 Q2. pass_quiet Hb c3 Q3. pass_quiet Hb c4 Q4. pass_quiet Hb r3 Q5.
  apply value_bound in Hb as (v2 & r5 & s4 & Hr & Hb). pose proof (region_value _ _ _ _ _ Hr) as Hmax.
  apply quiet_region in Hr; [|exact I].
  match type of Hb with ?m _ _ = _ => assert (quiet always m) as Q6 by quiet end. apply Q6 in Hb; [|exact I].
  assert (quietly r1 r') as Hq.
  { etrans; [exact Q1|]. etrans; [exact Q2|]. etrans; [exact Q3|]. etrans; [exact Q4|]. etrans; [exact Q5|]. etrans; [exact Hr|exact Hb]. }
  split_and!.
  - rewrite (quietly_plans _ _ Hq). by erewrite fresh_crew_plans.
  - by eapply quietly_idle.
  - assert (length (run_workers r') = length (run_workers r3)) as Hlen.
    { assert (quietly r3 r') as [Hg _ _ _ _ _ _] by (etrans; [exact Hr|exact Hb]). symmetry. by eapply Forall2_length. }
    unfold size_of in *. by rewrite Hlen.
Qed.

(** *** spawn *)

Lemma beat_quietly now r s answer r' s' : beat (K:=K) now r s = Some (answer, r', s') → quietly r r'.
Proof.
  intros E. assert (∃ a, answer = Value a) as [a ->]; [|by eapply (quiet_beat now)].
  unfold beat, bind, modify, get, call in E. destruct (region_publish _ _ _) as [x s1]. injection E as <- _ _. by eexists.
Qed.

Lemma launched_quietly slot pid (l : Launch) l' :
  launched strerror slot pid l = (Value tt, l') → quietly l.1.1 l'.1.1.
Proof.
  destruct l as [[r failure] s]. unfold launched. destruct (clock_now read_clock s) as [[now|e] s1]; [|done].
  destruct (beat now r s1) as [[[answer r1] s2]|] eqn:E; intros [= <-]; [|reflexivity]. cbn [fst].
  etrans; [by eapply beat_quietly|]. etrans; [apply (quietly_on_worker slot (λ w, w <| tr_launched_ns := running_ns now |>)); grown|]. by quiet_change.
Qed.

#[local] Existing Instance launch_calls.

Lemma spawning_value r s pids failure r' s' :
  size_of (run_workers r) ≤ kMaxWorkers →
  spawning (K:=K) strerror fuel r s = Some (Value (Value (Supervisor pids), failure), r', s') →
  ∃ r1, quietly r r1 ∧ length pids = length (run_workers r) ∧ Forall (λ pid, pid ≠ 0) pids
    ∧ r' = r1 <| run_pool := {| pids_ := pids; live_ := size_of pids |} |>.
Proof.
  unfold spawning, kMaxWorkers. intros Hmax E.
  destruct (Platform.spawn fuel (length (run_workers r)) (launched strerror) (r, None, s)) as [[[outcome pool] [[r1 failure'] s1]]|] eqn:Es; [|done].
  injection E as -> <- <- <-. apply (spawned_all (λ l : Launch, quietly r l.1.1)) with (l := []) in Es as (Hp & Hl & Hlen & Hne & Hq).
  - exists r1. split_and!; try done. do 2 f_equal. destruct pool. cbn in *. by subst.
  - intros l pid l' Hl Ef. unfold fork_worker, launch_calls, launching in Ef. destruct (Platform.fork_worker l.2). by injection Ef as _ <-.
  - intros slot pid l l' Hl El. etrans; [exact Hl|by eapply launched_quietly].
  - reflexivity.
  - constructor.
  - unfold size_of in Hmax. cbn. lia.
Qed.

(** The workers are started: none is dead, and the pool has them all. *)
Lemma started_sound r r1 pids :
  idle options r → quietly r r1 → length pids = length (run_workers r) → Forall (λ pid, pid ≠ 0) pids →
  size_of (run_workers r) ≤ kMaxWorkers →
  sound options (r1 <| run_pool := {| pids_ := pids; live_ := size_of pids |} |> <| run_spawned := true |>
                    <| run_live := size_of (run_workers r1) |>).
Proof.
  intros Hidle Hq Hlen Hne Hmax. assert (length (run_workers r1) = length pids) as Hl by (destruct Hq as [Hg _ _ _ _ _ _]; apply Forall2_length in Hg; congruence).
  apply (quietly_idle _ _ _ Hq) in Hidle as [HC HW HS HT]. split; [by destruct HC|split; cbn|by destruct HS|by destruct HT].
  - apply Forall2_same_length_lookup_2; [done|]. intros i w pid Hw Hp. eapply Forall_lookup_1 in HW as [Hr _]; [|exact Hw].
    eapply Forall_lookup_1 in Hne; [|exact Hp]. by rewrite Hr, bool_decide_false.
  - unfold const, size_of. by rewrite Hl.
  - by rewrite alive_all.
  - unfold size_of, kMaxWorkers in *. lia.
Qed.

Lemma opened_sound i r :
  sound options r →
  let open w := w <| tr_source := Some {| source_reader := IpcRecord.reading []; source_ended := false |} |> <| tr_channel_open := true |> in
  sound options (r <| run_workers ::= alter open i |>) ∧ moves r (r <| run_workers ::= alter open i |>).
Proof.
  intros [[C1 C2 C3] [P1 P2 P3 P4] HS HT] open. split; [split; [split|split; try done|by destruct HS|by destruct HT]|split; try done]; cbn.
  - intros j w (w0 & Hw & ->)%alter_lookup_inv. rewrite <- (C1 j w0 Hw). by destruct (decide _).
  - apply Forall_lookup_2. intros j w (w0 & Hw & ->)%alter_lookup_inv. eapply Forall_lookup_1 in C2; [|exact Hw]. destruct (decide _); exact C2.
  - apply Forall_lookup_2. intros j w (w0 & Hw & ->)%alter_lookup_inv. eapply Forall_lookup_1 in C3 as (events & said & Ha); [|done].
    destruct (decide _); [|by exists events, said]. exists events, said. eapply same_accounted; [|exact Ha]. same_account.
  - apply Forall2_same_length_lookup_2; [rewrite length_alter; by eapply Forall2_length|].
    intros j w pid (w0 & Hw & ->)%alter_lookup_inv Hp. eapply Forall2_lookup_lr in P1; [|exact Hw|exact Hp]. by destruct (decide _).
  - apply Forall2_same_length_lookup_2; [by rewrite length_alter|]. intros j w w' Hw (w0 & Hw0 & ->)%alter_lookup_inv.
    assert (w0 = w) as -> by congruence. by destruct (decide _).
Qed.

Lemma advances_attach pids i : advances options (attach (K:=K) strerror pids i).
Proof.
  unfold attach, closed_or_fail.
  repeat (apply advances_bind; [apply quiet_advances; quiet|intros ?]).
  intros r s u r' s' Hr [= _ <- _]. by apply opened_sound.
Qed.

Lemma advances_each {A} (l : list A) (body : A → M K unit) : (∀ a, advances options (body a)) → advances options (for_each l body).
Proof.
  intros Hb. induction l as [|a l IH]; cbn [for_each]; [apply quiet_advances, quiet_ret|]. by apply advances_bind.
Qed.

Lemma spawn_value r s r' s' :
  idle options r → size_of (run_workers r) ≤ kMaxWorkers →
  Orchestration.spawn (K:=K) strerror options fuel r s = Some (Value None, r', s') →
  sound options r' ∧ plans_in r' = plans_in r.
Proof.
  intros Hidle Hmax. unfold Orchestration.spawn. intros (r0 & r1 & s1 & Hg & Hb)%value_bound. injection Hg as <- <- <-.
  destruct (run_region r) as [region|]; [|done]. apply value_bound in Hb as (supervisor & r2 & s2 & Hc & Hb). injection Hc as _ <- <-.
  cbv zeta in Hb. apply value_bound in Hb as ((spawned & failure) & r3 & s3 & Hs & Hb).
  destruct spawned as [[pids|slot]|e]; [| |by destruct failure].
  2: { apply value_bound in Hb as (self & r4 & s4 & _ & Hb). apply value_bound in Hb as (failed & r5 & s5 & _ & Hb). by destruct failed. }
  apply spawning_value in Hs as (r4 & Hq & Hlen & Hne & ->); [|done].
  pose proof (started_sound _ _ _ Hidle Hq Hlen Hne Hmax) as Hsound.
  apply value_bound in Hb as (v & r5 & s5 & Hm & Hb). injection Hm as _ <- <-. cbv beta in Hb.
  match type of Hb with ?m ?before _ = _ => assert (advances options m) as Ha end.
  { apply advances_bind; [unfold for_workers; apply advances_bind; [apply quiet_advances; quiet|]|].
    - intros r5. apply advances_each. intros i. apply advances_attach.
    - intros _. apply quiet_advances. quiet. }
  apply Ha in Hb as [Hr' Hm]; [|exact Hsound]. split; [done|]. rewrite (lives_plans _ _ (moves_workers _ _ Hm)). by apply (quietly_plans r r4).
Qed.

(** *** The loop, and the last reads *)

Lemma loop_over ticks r s u r' s' :
  tick_loop (K:=K) strerror shortest options fuel ticks r s = Some (Value u, r', s') → ¬ 0 < run_live r'.
Proof.
  revert r s. induction ticks as [|ticks IH]; intros r s; cbn [tick_loop]; intros (r0 & r1 & s1 & Hg & Hb)%value_bound;
    injection Hg as <- <- <-; destruct (Z.ltb_spec 0 (run_live r)); cbn [negb] in Hb; try done; try (injection Hb as _ <- _; lia).
  apply value_bound in Hb as (v & r2 & s2 & _ & Hb). by eapply IH.
Qed.

Lemma all_reaped r : pool_agrees r → ¬ 0 < run_live r → Forall (λ w, tr_reaped w = true) (run_workers r).
Proof.
  intros [P1 P2 P3 P4] Hlive. assert (alive (pids_ (run_pool r)) = []) as Hnone.
  { apply length_zero_iff_nil. rewrite P2, P3 in Hlive. unfold size_of in Hlive. lia. }
  apply Forall_lookup_2. intros i w Hw. destruct (Forall2_lookup_l _ _ _ _ _ P1 Hw) as (pid & Hp & ->).
  apply bool_decide_eq_true. destruct (decide (pid = 0)) as [|Hne]; [done|]. exfalso.
  assert (pid ∈ alive (pids_ (run_pool r))) as Hin; [|rewrite Hnone in Hin; by apply not_elem_of_nil in Hin].
  apply list_elem_of_filter. split; [done|]. by eapply list_elem_of_lookup_2.
Qed.

Definition closed_at (i : nat) (r : Run) : Prop := ∀ w, run_workers r !! i = Some w → tr_channel_open w = false.

Lemma quietly_closed i r r' : quietly r r' → closed_at i r → closed_at i r'.
Proof.
  intros [Hg _ _ _ _ _ _] Hc w' Hw'. destruct (Forall2_lookup_r _ _ _ _ _ Hg Hw') as (w & Hw & []). auto.
Qed.

Lemma close_value i r s u r' s' : close_channel (K:=K) i r s = Some (Value u, r', s') → closed_at i r'.
Proof.
  unfold close_channel. intros (w & r1 & s1 & (Hw & -> & ->)%worker_value & Hb)%value_bound.
  apply value_bound in Hb as (v & r2 & s2 & Hc & Hb).
  assert (r2 = r) as -> by (unfold close_quietly in Hc; apply value_bound in Hc as (? & ? & ? & Hc & He); unfold call in Hc;
    destruct (close_fd _ _); injection Hc as _ <- _; by injection He as _ <- _).
  injection Hb as _ <- _. intros w' (w0 & _ & ->)%alter_lookup_inv. by rewrite decide_True.
Qed.

Lemma each_closes (body : nat → M K unit) l :
  (∀ i, quiet always (body i)) → (∀ i r s u r' s', body i r s = Some (Value u, r', s') → closed_at i r') →
  ∀ r s u r' s', for_each l body r s = Some (Value u, r', s') → ∀ i, i ∈ l → closed_at i r'.
Proof.
  intros Hq Hc. induction l as [|j l IH]; intros r s u r' s'; cbn [for_each]; [by intros _ i ?%not_elem_of_nil|].
  intros (v & r1 & s1 & Hone & Hb)%value_bound i [->|Hi]%elem_of_cons; [|by eapply IH].
  eapply quietly_closed; [by eapply quiet_for_each|by eapply Hc].
Qed.

Lemma after_death_value r s u r' s' :
  drain_after_death (K:=K) strerror shortest options r s = Some (Value u, r', s') →
  quietly r r' ∧ Forall (λ w, tr_channel_open w = false) (run_workers r').
Proof.
  intros Hd. pose proof (quiet_after_death _ _ _ _ _ _ _ _ I Hd) as Hq. split; [done|].
  apply Forall_lookup_2. intros i w Hw. unfold drain_after_death, for_workers in Hd.
  apply value_bound in Hd as (r0 & r1 & s1 & Hg & Hb). injection Hg as <- <- <-.
  assert (closed_at i r') as Hc; [|by apply Hc]. eapply each_closes; [| |exact Hb|].
  - intros j. cbv beta. quiet.
  - intros j r1 s1 v r2 s2. cbv beta. intros (w1 & r3 & s3 & (Hw1 & -> & ->)%worker_value & Hc)%value_bound.
    destruct (tr_channel_open w1) eqn:Eo; cbn [negb] in Hc.
    2: { injection Hc as _ <- _. intros w2 Hw2. congruence. }
    apply value_bound in Hc as (opened & r4 & s4 & _ & Hc). apply value_bound in Hc as (v2 & r5 & s5 & _ & Hc).
    apply value_bound in Hc as (w2 & r6 & s6 & (Hw2 & -> & ->)%worker_value & Hc). destruct (tr_channel_open w2) eqn:Eo2; cbn [when] in Hc.
    + apply value_bound in Hc as (v3 & r7 & s7 & _ & Hc). by eapply close_value.
    + injection Hc as _ <- _. intros w3 Hw3. congruence.
  - apply elem_of_seq. apply lookup_lt_Some in Hw. destruct Hq as [Hg _ _ _ _ _ _]. apply Forall2_length in Hg. lia.
Qed.

(** *** The report *)

Lemma quiet_release : quiet always (release_region (K:=K) strerror).
Proof. unfold release_region. quiet. Qed.
Hint Resolve quiet_release : quiet.

Definition scheduled : bool := match opt_schedule options with Some _ => true | None => false end.

(** What a report says of the run it is of. *)
Record tells (report : RunReport) (r : Run) : Prop := {
  tells_workers : rr_workers report = worker_report scheduled <$> run_workers r;
  tells_steps : rr_steps_run report = run_steps_run r;
  tells_hot : rr_temperature_stop report = run_temperature_stop r;
  tells_signal : rr_stop_signal report = run_stop_signal r;
  tells_forced : rr_stop_forced report = run_stop_forced r;
}.

Lemma finish_value r s report r' s' :
  finish (K:=K) strerror shortest options r s = Some (Value report, r', s') →
  ∃ r1, quietly r r1 ∧ tells report r1 ∧ Forall (λ w, tr_channel_open w = false) (run_workers r1) ∧ run_signals r' = run_signals r1.
Proof.
  unfold finish. intros (v & r1 & s1 & Hd & Hb)%value_bound. apply after_death_value in Hd as [Q1 Hclosed].
  pass_quiet Hb r2 Q2. pass_quiet Hb r3 Q3. apply value_bound in Hb as (r4 & r5 & s4 & Hg & Hb). injection Hg as <- <- <-.
  cbv zeta in Hb. apply value_bound in Hb as (v2 & r5 & s5 & Hm & Hb). injection Hm as _ <- <-. cbv beta in Hb.
  pass_quiet Hb r6 Q4. apply value_bound in Hb as (r7 & r8 & s7 & Hg & Hb). injection Hg as <- <- <-.
  pass_quiet Hb r7 Q5. apply value_bound in Hb as (r8 & r9 & s8 & Hg & Hb). injection Hg as <- <- <-.
  pass_quiet Hb r8 Q6. injection Hb as <- <- _. exists r3. split_and!.
  - etrans; [exact Q1|]. by etrans.
  - done.
  - assert (quietly r1 r3) as [Hg _ _ _ _ _ _] by by etrans. apply Forall_lookup_2. intros i w Hw.
    destruct (Forall2_lookup_r _ _ _ _ _ Hg Hw) as (w0 & Hw0 & []). eapply Forall_lookup_1 in Hclosed; [|exact Hw0]. auto.
  - assert (quietly (r3 <| run_workers ::= (λ all, told <$> all) |> <| run_phase := lit "done" |>) r8) as [_ _ _ Ht _ _ _].
    { etrans; [exact Q4|]. by etrans. }
    by injection Ht as -> _ _ _ _.
Qed.

(** *** The whole run *)

Lemma execute_value ticks r s report r' s' :
  run_workers r = [] → signals_ok r → steps_ok options r →
  execute (K:=K) strerror shortest compiled config options fuel ticks r s = Some (Value report, r', s') →
  rr_worker_exit_code report = None →
  ∃ r1, sound options r1 ∧ planned_from 0 enabled_entries (plans_in r1) ∧ tells report r1
    ∧ Forall (λ w, tr_reaped w = true ∧ tr_channel_open w = false) (run_workers r1) ∧ run_signals r' = run_signals r1.
Proof.
  intros Hnone Hsig Hsteps. unfold execute. intros (v & r1 & s1 & Hp & Hb)%value_bound Hcode.
  apply prepare_value in Hp as (Hplans & Hidle & Hmax); [|done..].
  apply value_bound in Hb as (r2 & r3 & s2 & Hg & Hb). injection Hg as <- <- <-. destruct (run_plan _ _ r1) as [plan|]; [|done].
  apply value_bound in Hb as (v2 & r4 & s4 & Hc & Hb). injection Hc as _ <- <-.
  apply value_bound in Hb as (child & r5 & s5 & Hs & Hb). destruct child as [code|]; [by injection Hb as <- _ _|].
  apply spawn_value in Hs as [Hsound Hplans5]; [|done..].
  apply value_bound in Hb as (v6 & r6 & s6 & Hl & Hb). pose proof (loop_over _ _ _ _ _ _ Hl) as Hover.
  apply advances_loop in Hl as [Hsound6 Hmoves]; [|done].
  apply value_bound in Hb as (told_ & r7 & s7 & Hf & Hb). apply finish_value in Hf as (r8 & Hq & Ht & Hclosed & Hsignals).
  apply value_bound in Hb as (v8 & r9 & s8 & Hc & Hb). injection Hc as _ <- <-. injection Hb as <- <- _.
  exists r8. split_and!; [by eapply quietly_sound| |done| |done].
  - by rewrite (quietly_plans _ _ Hq), (lives_plans _ _ (moves_workers _ _ Hmoves)), Hplans5.
  - pose proof (all_reaped _ (sound_pool _ _ Hsound6) Hover) as Hreaped. apply Forall_lookup_2. intros i w Hw.
    split; [|by eapply Forall_lookup_1 in Hclosed]. destruct Hq as [Hg _ _ _ _ _ _].
    destruct (Forall2_lookup_r _ _ _ _ _ Hg Hw) as (w0 & Hw0 & []). eapply Forall_lookup_1 in Hreaped; [|exact Hw0]. congruence.
Qed.
End Story.

(** ** The report of a run *)

(** What the report says of worker [i], which was to run [entry]. *)
Record story (compiled : IsaSet) (options : RunOptions) (i : nat) (entry : WorkloadEntry) (told_ : WorkerReport) (w : Tracked) : Prop := {
  story_report : told_ = worker_report (scheduled options) w;
  story_slot : tr_slot w = Z.of_nat i;
  story_plan : plan_worker compiled entry (Z.of_nat i) (opt_budget options) (opt_verification options) (opt_topology options)
    = Some (Value (tr_plan w));
  story_over : tr_reaped w = true ∧ tr_channel_open w = false;
  story_stop : step_agrees w;
  story_account : ∃ events said, accounted (tr_plan w) events said w;
}.



(** ** A run on a small machine

    One null worker, which says it finished and exits when it is told to stop; the user presses
    Ctrl-C in the first tick. *)

Record Machine := {
  m_seconds : Z;
  m_stopped : bool;       (** the worker was told to stop *)
  m_reaped : bool;
  m_pressed : bool;       (** the signal's byte was read *)
  m_says : list byte;     (** what the worker wrote, not yet read *)
  m_events : list text;
}.

Definition refused_call {A} (s : Machine) : Result A SyscallError * Machine :=
  (Error {| number_ := EINVAL; Platform.call := []; subject := [] |}, s).

#[local] Instance machine_process : ProcessCalls Machine := {|
  fork_worker s := (Value 100, s);
  wait_any s := refused_call s;
  reap_any_nonblocking s :=
    if m_stopped s && negb (m_reaped s)
    then (Value (Some {| reaped_pid := 100; reaped_status := 0 |}), s <| m_reaped := true |>) else (Value None, s);
  send_signal pid signal s := if pid <? 0 then (Error {| number_ := ESRCH; Platform.call := []; subject := [] |}, s) else (Value tt, s);
|}.

#[local] Instance machine_channel : ChannelCalls Machine := {|
  write_fd fd bytes s := (Value (size_of bytes), s <| m_stopped := true |>);
  read_fd fd count s :=
    if fd =? 9 then (Value [byte_of SIGINT], s <| m_pressed := true |>)
    else (Value (take count (m_says s)), s <| m_says ::= drop count |>);
|}.

#[local] Instance machine_region : RegionCalls Machine := {|
  create_memory_file _ _ s := (Value 3, s);
  map_shared _ _ s := (Value (header_for 1), s);
  write_header _ s := s;
  unmap _ s := (Value tt, s);
  close_fd _ s := (Value tt, s);
|}.

#[local] Instance machine_worker : WorkerCalls Machine := {|
  read_clock id s := (Value {| seconds := m_seconds s; nanoseconds := 0 |},
                      if id =? CLOCK_BOOTTIME then s <| m_seconds ::= Z.add 1 |> else s);
  process_id _ := 50;
  poll_readable _ _ s := refused_call s;
  region_publish _ _ s := (Value tt, s);
  region_observe _ s := (Value None, s);
|}.

#[local] Instance machine_registers : FpControl Machine := {|
  fp_read _ := required_state false false;
  fp_write _ s := s;
|}.

#[local] Instance machine_signals : SignalCalls Machine := {|
  create_pipe s := (Value {| pipe_read := 4; pipe_write := 5 |}, s);
  divert_signal _ _ s := (Value tt, s);
  default_signal _ s := (Value tt, s);
  ignore_signal _ s := (Value tt, s);
  poll_all fds _ s := (Value ((λ fd, {| readable := if fd =? 9 then negb (m_pressed s) else m_stopped s;
                                        hung_up := false; poll_error := false; invalid := false |}) <$> fds), s);
  has_exited _ s := (Value (m_stopped s), s);
|}.

#[local] Instance machine_exec : ExecCalls Machine := {|
  set_parent_death_signal _ s := (Value tt, s);
  parent_pid _ := 50;
  start_session s := s;
  inherit_across_exec _ s := (Value tt, s);
  exec _ _ s := (None, s);
  read_link _ _ s := refused_call s;
|}.

#[local] Instance machine_sources : SourceCalls Machine := {|
  source_name _ := [];
  probe_source _ s := ([], s);
  sample_source _ s := ([], s);
|}.

#[local] Instance machine_storage : StorageOps Machine := {|
  storage_append _ s := (Value tt, s);
  storage_sync s := (Value tt, s);
  storage_read_all s := (Value [], s);
|}.

#[local] Instance machine_surroundings : Surroundings Machine := {|
  report_starting _ s := s;
  report_event _ line s := s <| m_events ::= (λ all, all ++ [line]) |>;
  report_finished _ s := s;
  fill_notes e s := (e, s);
  oom_kills s := (Value 0, s);
  oom_scope := [];
|}.

Definition machine_config : Config :=
  {| config_run := {| run_mode := kStress; run_duration_ms := 60000 |};
     config_limits := {| max_temperature_c := None; limit_memory := None |};
     config_workloads := [{| wle_name := lit "null"; wle_threads := threads_counted 1; wle_enabled := true; wle_memory := None |}] |}.

Definition machine_options : RunOptions :=
  {| opt_executable := lit "loadforge"; opt_interval_ns := 100000000; opt_stale_after_ns := 60000000000;
     opt_grace := {| stop_ns := 30000000000; kill_ns := 1000000000 |}; opt_budget := None; opt_budget_unread := [];
     opt_oom_record := false; opt_topology := None; opt_verification := sample_options <| registry := None |>; opt_fp := false;
     opt_capabilities := []; opt_sampler := false; opt_timeline := false; opt_view := false; opt_temperature_unread := [];
     opt_temperature_blind_after_ns := 0; opt_replacement_allowance_ns := 0; opt_sample_interval_ns := 0; opt_schedule := None;
     opt_journal := false; opt_journal_interval_ns := 0; opt_journal_notes := false; opt_stop_signals := true |}.

Definition machine_started : Machine :=
  {| m_seconds := 10; m_stopped := false; m_reaped := false; m_pressed := false;
     m_says := frame_of {| rec_type := record_number IpcRecord.kFinished; rec_payload := lit "60 slices" |}; m_events := [] |}.

Definition machine_fresh : Run :=
  fresh_run (make_sampler 0) (bounded_timeline 0) {| closed_ := false |} {| sig_read_fd := 9; sig_write_fd := 10; sig_received := [] |}.

#[local] Abbreviation machine_run :=
  (execute (λ _, []) (λ _, []) (isa_set [kScalar]) machine_config machine_options 10 5 machine_fresh machine_started).

(** What a run came to, in short. *)
Definition in_short (outcome : option (Result RunReport ControllerError * Run * Machine)) :=
  match outcome with
  | Some (Value report, r, _) =>
      Some (rr_worker_exit_code report, rr_stop_signal report, rr_stop_forced report, rp_fate <$> rr_workers report,
            sig_received (run_signals r))
  | _ => None
  end.

Lemma machine_run_short : in_short machine_run = Some (None, Some SIGINT, false, [kCompleted], [SIGINT]).
Proof. vm_compute. reflexivity. Qed.


(** The run once its worker is started, and to the end of its loop. *)
#[local] Abbreviation machine_prepared := (prepare (λ _, []) (isa_set [kScalar]) machine_config machine_options machine_fresh machine_started).
#[local] Abbreviation machine_spawned r s := (Orchestration.spawn (λ _, []) machine_options 10 r s).
#[local] Abbreviation machine_looped r s := (tick_loop (λ _, []) (λ _, []) machine_options 10 5 r s).

Definition loop_in_short (prepared : option (Result unit ControllerError * Run * Machine)) :=
  match prepared with
  | Some (Value _, r, s) =>
      match machine_spawned r s with
      | Some (Value None, r, s) =>
          match machine_looped r s with
          | Some (Value _, r', _) => Some (run_live r, run_stop_signal r, run_live r', run_stop_signal r', tr_step <$> run_workers r')
          | _ => None
          end
      | _ => None
      end
  | _ => None
  end.

Lemma machine_loop_short : loop_in_short machine_prepared = Some (1, None, 0, Some SIGINT, [kRequested]).
Proof. vm_compute. reflexivity. Qed.

